(* ===== verification/_CoqProject ===== *)
-Q . S2P
Prelude.v
CellMap.v
Transaction.v
RedirectTable.v
Stm.v
GcProtocol.v
EventLoop.v
Utf8.v
UnicodeTables.v
Unicode.v
UnicodeCache.v
UnicodeCase.v
Bignum.v
BignumArith.v
Double.v
BignumDtoa.v
BignumDtoaScaled.v
BignumDtoaCorrect.v
HashMap.v
SplayTree.v
CharacterRange.v
CharacterRangeSets.v
DispatchTable.v
CaseEquivalents.v
Irregexp.v
IrregexpAssembler.v
IrregexpLayout.v
IrregexpInterpreter.v
IrregexpSemantics.v
IrregexpCorrect.v
RelocInfo.v
SortPairs.v
HashTable.v
StringHash.v
Dictionary.v
NumberDictionary.v
StringDictionary.v
Dates.v
StringSearch.v
StringSearchTables.v
StringSearchCorrect.v
StringMatching.v
StringBuilder.v
ReplacementPattern.v
StringReplace.v
