(* ===== verification/Prelude.v ===== *)
(** * Verification of W16, the concurrent V8

    W16 is V8 3.x with a software transactional memory: several threads run the
    events of one JavaScript heap, each event in a transaction, and the virtual
    machine redirects every access to a heap object through the transaction.
    This library models the code that W16 adds, and the parts of V8 that compute
    something with a specification of its own: strings, characters, numbers and
    the containers they use.  Every definition has the name of the C++ function
    it translates; the doc comment of a file says how it does it.

    ** The parts of the program and the files

    1. The transactional memory (src/src/stm.cc, src/w16/main.cc).  A thread of
       [EventLoop] takes an event from the queue, starts a [Transaction], runs the
       event, and commits; handles of the heap go through the tables of the
       transaction.
       - CellMap: [class CellMap], the block-allocated table from heap objects to
         cells.
       - Transaction: [ReadSet], [WriteSet], [Transaction::RedirectLoad],
         [RedirectStore], [HasConflicts], and the copy of an object.
       - RedirectTable: the interface between the two, as type classes.
       - Stm: [STM::StartTransaction] ... [CommitTransaction] of any number of
         threads, as a step relation over the shared heap, against the interface.
       - GcProtocol: the protocol that stops the transactions for a collection,
         with the mutexes and semaphores it uses.
       - EventLoop: [Async], [EventLoop] and the counters of running threads.
    2. Characters (src/src/unicode.cc, unicode-inl.h, unicode.h).
       - Utf8: encoding, decoding, [ReadBlock] and the buffer of a stream.
       - UnicodeTables, Unicode: the tables, the classes, the conversions of case.
       - UnicodeCache: the two caches in front of them.
       - UnicodeCase: what the tables for case promise to each other.
    3. Numbers (src/src/bignum.cc, bignum-dtoa.cc, diy-fp.cc, double.h).
       - Bignum, BignumArith: the class [Bignum].
       - Double: the fields of a double; [DiyFp].
       - BignumDtoa, BignumDtoaScaled, BignumDtoaCorrect: the digits of a double.
    4. Containers.
       - HashMap: src/src/hashmap.cc, open addressing.
       - SplayTree: src/src/splay-tree-inl.h, the top-down splay tree.
    5. Strings (src/src/string-search.h, runtime.cc, jsregexp.cc).
       - StringSearch, StringSearchTables, StringSearchCorrect: the search of a
         string in a string with its tables and its changes of strategy.
       - StringMatching: indexOf, lastIndexOf, all matches, split.
       - StringBuilder: the builders, and the concatenation they end in.
       - ReplacementPattern, StringReplace: String.prototype.replace.
    6. Sets of characters of the regular expression compiler (jsregexp.cc).
       - CharacterRange, CharacterRangeSets: classes as lists of ranges, made
         canonical, merged, negated and compared with the characters of a word.
       - DispatchTable: [OutSet] and the table from characters to them, on top
         of SplayTree.
       - CaseEquivalents: the variants of a class and of a letter when case is
         ignored, and the comparison of back references (jsregexp.cc,
         interpreter-irregexp.cc, regexp-macro-assembler.cc), on top of
         UnicodeCache and UnicodeCase.
    7. The bytecode of regular expressions (bytecodes-irregexp.h,
       regexp-macro-assembler-irregexp.cc, interpreter-irregexp.cc).
       - Irregexp: the bytecodes and the words of the code.
       - IrregexpAssembler: the methods of the macro assembler, with the labels of
         assembler.h, on a growing buffer of bytes.
       - IrregexpLayout: the calls of the assembler as a list, and their layout.
       - IrregexpInterpreter: [RawMatch] with its backtrack stack.
       - IrregexpSemantics: what a call does, on a machine without addresses.
       - IrregexpCorrect: assembler and interpreter together keep it.
    8. Relocation information (assembler.cc): RelocInfo, the writer and the
       iterator on the memory of a buffer.
    9. Dictionaries of the heap (objects.cc, objects.h, objects-inl.h).
       - SortPairs: sorting an array by the numbers of another.
       - HashTable: [HashTable<Shape, Key>], the class [Shape] and its laws.
       - StringHash: the hash field of a string, array indices, other hashes.
       - Dictionary: details of properties, [Dictionary<Shape, Key>].
       - NumberDictionary: the elements of an object.
       - StringDictionary: the properties of an object, with the functions of
         [JSObject] and of handles.cc that use it.
    10. Dates (runtime.cc): Dates, the conversions between days and dates.

    This file is the prelude: notations, tactics, hint databases and the lemmas
    on lists, options and machine integers that the others share.

    ** How the code is modelled

    Integers are [Z], and wrap around where the C++ type does: [uint w] and
    [sint w] are the conversions to [w] bits.  A function that can access memory
    out of bounds, reach [UNREACHABLE] or not end returns an [option], or a [Res]
    of the file StringBuilder where several failures are told apart; theorems
    then state that the result is there.  Loops that are not structural take
    fuel, chosen in the definition of the function from the data (the length of
    the list, the size of the tree, 32 bits of a word), and that it is enough is part
    of the theorem on the function.  Only the interpreter of bytecode takes fuel from
    its caller, since a program of bytecode need not end: the theorem on it says that
    it needs no more steps than the machine of IrregexpSemantics.  [ASSERT]s are not
    executed by a release build; what they claim is proved or refuted.
    An allocation that can fail asks a predicate that is a parameter of the model.
    Pointers are indices or locations where aliasing is observable (CellMap,
    HashMap, DispatchTable's entries), values otherwise.

    Code outside of the modelled parts is a parameter: the allocator and the
    comparison of keys of a [HashMap] ([Matching]), the copy of an object in
    [Transaction], the contents of fresh memory ([raw]) and the size of an
    object's header ([kHeaderSize]) in the builders, what a compiled regular
    expression matches ([Matcher], with its laws [MatcherOk]; [AtomExec] is an
    instance), the table of redirections ([RedirectTable]).

    ** What the theorems show

    - Transactions: the tables are finite maps (AddMapping, CommitChanges);
      executions in which every transaction writes only what it has read are
      serializable, and in those running transactions see consistent states; without
      that condition a blind store can lose an update, proved on the step relation.  A collection runs alone;
      two schedules deadlock, proved.  Every event is executed once; counterexamples
      to the termination of the loop and to the retry of an event.
    - Characters: encoding then decoding is the identity, [ReadBlock] refines the
      decoder, the classes are those of the tables, conversions stay in bounds.
    - Numbers: a bignum is its value and every operation computes it; the digits
      of a double are the shortest, the rounded and the fixed ones.
    - Containers: refinements of an association list and of a sorted list, where a
      [Move] of the only entry of a splay tree reads through a null pointer, proved.
    - Strings: every strategy finds the first occurrence; splitting and joining
      are inverse; the concatenation never writes outside of its string whatever
      the array holds, but for the least small integer of 32 bits, whose negation
      overflows; replacing equals a reference definition, except where the
      length overflows, which is proved too.
    - Sets of characters: each operation on lists of ranges is the operation on
      sets; the functions that are not are findings.  The table of un-canonicalization
      is the inverse of canonicalization, checked row by row for all characters;
      what is emitted or added for a letter is its class, but for the last
      character of a range, which is a finding.
    - Bytecode: the assembled bytes are the instructions with an advance merged into
      the jump behind it and every label replaced by its position; when the calls
      answer on the machine without addresses, the interpreter answers the same on
      the bytes; a comparison with a string never reads outside of the subject.
    - Relocation information: the iterator sees what was written and is wanted, and
      a record keeps the bounds that the assertions of the writer state.
    - Dictionaries: the probes visit every entry of a table, so that a search ends;
      a dictionary of elements refines a finite map, one of properties refines
      the list of the properties in the order of their addition, in which they are
      enumerated, also after the enumeration indices were made anew, with small
      integers of 32 bits; with those of 31 bits as long as the indices are below
      [2 ^ 22], because greater ones lose a bit, and the order with it; an allocation
      that fails has no effect on either.  An array is sorted by each
      of three algorithms; a string is an array index when it is the numeral of one.
    - Dates: the dates follow the calendar day by day, and the conversion back is
      inverse; the years before which it is not are a finding.

    ** Not modelled

    The code generators and their stubs (arm, ia32, x64, mips, hydrogen, lithium,
    full-codegen), the inline caches that jump into them, the garbage collector's
    spaces and marking, the runtime functions that only unpack arguments and call
    into the heap, the API, the debugger, the profiler and the logs, the platform
    layers other than the mutexes of Linux, the snapshot, the JavaScript library
    (src/src/*.js), tests, samples and the build system (build/gyp).  They are glue
    around state that a model would have to make up (machine code, the whole heap),
    or not C++.  The parser and the regular expression compiler after its sets of
    characters work on trees of many classes in a zone, for which a specification would be
    the grammar and the semantics of the language.  Of the dictionaries the variant for
    global objects, whose values are cells, and the change to fast properties are not
    modelled. *)

From Stdlib Require Export ZArith Lia.
From stdpp Require Export base tactics option numbers relations gmap list.

(** ** Tactics *)

(** Split every conjunction and existential of the context. *)
Ltac split_hyps :=
  repeat match goal with
    | H : _ /\ _ |- _ => destruct H
    | H : exists _, _ |- _ => destruct H
    | H : prod _ _ |- _ => destruct H
    end.

(** Case on the scrutinee of a [match] or [if] of the goal, with its equation. *)
Ltac case_goal :=
  match goal with
  | |- context [match ?x with _ => _ end] => destruct x eqn:?
  end.

Ltac case_hyp H :=
  match type of H with
  | context [match ?x with _ => _ end] => destruct x eqn:?
  end.

(** Turn boolean comparisons of [nat] and [Z] into propositions. *)
Ltac breflect :=
  repeat match goal with
    | H : andb _ _ = true |- _ => apply andb_true_iff in H; destruct H
    | H : orb _ _ = false |- _ => apply orb_false_iff in H; destruct H
    | H : negb _ = true |- _ => apply negb_true_iff in H
    | H : negb _ = false |- _ => apply negb_false_iff in H
    | H : Nat.eqb _ _ = true |- _ => apply Nat.eqb_eq in H
    | H : Nat.eqb _ _ = false |- _ => apply Nat.eqb_neq in H
    | H : Nat.ltb _ _ = true |- _ => apply Nat.ltb_lt in H
    | H : Nat.ltb _ _ = false |- _ => apply Nat.ltb_ge in H
    | H : Nat.leb _ _ = true |- _ => apply Nat.leb_le in H
    | H : Nat.leb _ _ = false |- _ => apply Nat.leb_gt in H
    | H : Z.eqb _ _ = true |- _ => apply Z.eqb_eq in H
    | H : Z.eqb _ _ = false |- _ => apply Z.eqb_neq in H
    | H : Z.ltb _ _ = true |- _ => apply Z.ltb_lt in H
    | H : Z.ltb _ _ = false |- _ => apply Z.ltb_ge in H
    | H : Z.leb _ _ = true |- _ => apply Z.leb_le in H
    | H : Z.leb _ _ = false |- _ => apply Z.leb_gt in H
    | H : bool_decide _ = true |- _ => apply bool_decide_eq_true_1 in H
    | H : bool_decide _ = false |- _ => apply bool_decide_eq_false_1 in H
    end.

(** ** Lists *)

(** The first element of a list that satisfies a boolean test. *)
Fixpoint find_first {A} (f : A -> bool) (l : list A) : option A :=
  match l with
  | [] => None
  | a :: l => if f a then Some a else find_first f l
  end.

Lemma find_first_app {A} (f : A -> bool) l1 l2 :
  find_first f (l1 ++ l2) =
  match find_first f l1 with Some a => Some a | None => find_first f l2 end.
Proof. induction l1 as [|a l1 IH]; simpl; [done|]. by destruct (f a). Qed.

Lemma find_first_Some {A} (f : A -> bool) l a :
  find_first f l = Some a -> a ∈ l /\ f a = true.
Proof.
  induction l as [|b l IH]; simpl; [done|]. destruct (f b) eqn:E.
  - intros [= ->]. split; [left|done].
  - intros H. destruct (IH H). split; [by right|done].
Qed.

Lemma find_first_None {A} (f : A -> bool) l :
  find_first f l = None <-> forall a, a ∈ l -> f a = false.
Proof.
  induction l as [|b l IH]; simpl.
  - split; [|done]. intros _ a Ha. by apply not_elem_of_nil in Ha.
  - destruct (f b) eqn:E; split.
    + done.
    + intros H. specialize (H b ltac:(left)). congruence.
    + intros H a [->|Ha]%elem_of_cons; [done|]. by apply IH.
    + intros H. apply IH. intros a Ha. apply H. by right.
Qed.

Lemma elem_of_insert_cases {A} (l : list A) i x y : y ∈ <[i := x]> l -> y = x \/ y ∈ l.
Proof.
  intros [j Hj]%list_elem_of_lookup. apply list_lookup_insert_Some in Hj as [(_ & -> & _)|[_ Hj]];
    [by left|right]. by eapply list_elem_of_lookup_2.
Qed.

(** What the elements of a list contribute to a bag or to a sum, after one of
    them was replaced. *)
Definition bag {A B} (f : A -> list B) (l : list A) : list B := flat_map f l.

Lemma bag_insert {A B} (f : A -> list B) l i c c' :
  l !! i = Some c -> bag f (<[i := c']> l) ++ f c ≡ₚ bag f l ++ f c'.
Proof.
  unfold bag. revert i. induction l as [|x l IH]; intros [|i]; cbn; try done.
  - intros [= ->]. cbn. solve_Permutation.
  - intros Hl. cbn. rewrite <- !app_assoc. by rewrite (IH i Hl).
Qed.

Lemma bag_insert_same {A B} (f : A -> list B) l i c c' :
  l !! i = Some c -> f c' = f c -> bag f (<[i := c']> l) = bag f l.
Proof.
  unfold bag. revert i. induction l as [|x l IH]; intros [|i]; cbn; try done.
  - intros [= ->] Hf. by rewrite Hf.
  - intros Hl Hf. f_equal. by apply (IH i).
Qed.

Fixpoint sumZ {A} (f : A -> Z) (l : list A) : Z :=
  match l with [] => 0 | a :: l => (f a + sumZ f l)%Z end.

Lemma sumZ_insert {A} (f : A -> Z) l i c c' :
  l !! i = Some c -> sumZ f (<[i := c']> l) = (sumZ f l - f c + f c')%Z.
Proof.
  revert i. induction l as [|x l IH]; intros [|i]; cbn; try done.
  - intros [= ->]. lia.
  - intros Hl. change (f x + sumZ f (<[i := c']> l) = f x + sumZ f l - f c + f c')%Z.
    rewrite (IH i Hl). lia.
Qed.

Lemma sumZ_bounds {A} (f : A -> Z) l b :
  (forall a, 0 <= f a <= b)%Z -> (0 <= sumZ f l <= b * Z.of_nat (length l))%Z.
Proof. intros Hf. induction l as [|x l IH]; cbn [sumZ length]; [lia|]. specialize (Hf x). lia. Qed.

Lemma sumZ_replicate {A} (f : A -> Z) n a : f a = 0%Z -> sumZ f (replicate n a) = 0%Z.
Proof. intros Ha. induction n; cbn; lia. Qed.

Lemma sumZ_zero {A} (f : A -> Z) l :
  (forall a, 0 <= f a)%Z -> (sumZ f l = 0)%Z <-> forall a, a ∈ l -> f a = 0%Z.
Proof.
  intros Hf. assert (Hp : forall l, (0 <= sumZ f l)%Z).
  { intros k. induction k as [|x k IH]; cbn; [lia|]. specialize (Hf x). lia. }
  induction l as [|x l IH]; cbn.
  - split; [|done]. intros _ a Ha. by apply not_elem_of_nil in Ha.
  - pose proof (Hf x). pose proof (Hp l). split.
    + intros Hs a [->|Ha]%elem_of_cons; [lia|]. apply IH; [lia|done].
    + intros Hall. rewrite (Hall x) by apply list_elem_of_here.
      enough (sumZ f l = 0)%Z by lia. apply IH. intros a Ha. apply Hall. by right.
Qed.

(** ** Loops *)

(** [for (i = i0; n more times; ++i)] *)
Fixpoint for_loop {S} (n i : nat) (body : nat -> S -> option S) (s : S) : option S :=
  match n with
  | O => Some s
  | Datatypes.S n => s' ← body i s; for_loop n (Datatypes.S i) body s'
  end.

Lemma for_loop_inv {S} (P : nat -> S -> Prop) n i body s :
  P i s ->
  (forall j s, i <= j < i + n -> P j s -> exists s', body j s = Some s' /\ P (Datatypes.S j) s') ->
  exists s', for_loop n i body s = Some s' /\ P (i + n) s'.
Proof.
  revert i s. induction n as [|n IH]; intros i s Hp Hb; cbn.
  - exists s. by rewrite Nat.add_0_r.
  - destruct (Hb i s ltac:(lia) Hp) as (s1 & -> & H1). cbn.
    destruct (IH (Datatypes.S i) s1 H1) as (s2 & -> & H2).
    + intros j s0 Hj. apply Hb. lia.
    + exists s2. split; [done|]. by replace (i + Datatypes.S n) with (Datatypes.S i + n) by lia.
Qed.

(** [while (cond) body]; [None] when the fuel does not do. *)
Fixpoint while_loop {S} (fuel : nat) (cond : S -> bool) (body : S -> option S) (s : S) : option S :=
  match fuel with
  | O => None
  | Datatypes.S fuel => if cond s then s' ← body s; while_loop fuel cond body s' else Some s
  end.

Lemma while_loop_inv {S} (P : S -> Prop) (measure : S -> nat) fuel cond body s :
  P s -> measure s < fuel ->
  (forall s, P s -> cond s = true ->
     exists s', body s = Some s' /\ P s' /\ measure s' < measure s) ->
  exists s', while_loop fuel cond body s = Some s' /\ P s' /\ cond s' = false.
Proof.
  revert s. induction fuel as [|fuel IH]; intros s Hp Hm Hb; [lia|]. cbn.
  destruct (cond s) eqn:E; [|by exists s].
  destruct (Hb s Hp E) as (s1 & -> & H1 & Hlt). cbn. apply IH; [done|lia|done].
Qed.

(** ** Machine integers *)

(** The value of a signed, and of an unsigned, [w]-bit integer. *)
Definition sint (w z : Z) : Z := ((z + 2 ^ (w - 1)) mod 2 ^ w - 2 ^ (w - 1))%Z.
Definition uint (w z : Z) : Z := (z mod 2 ^ w)%Z.

Lemma sint_id w z : (0 < w)%Z -> (- 2 ^ (w - 1) <= z < 2 ^ (w - 1))%Z -> sint w z = z.
Proof.
  intros Hw Hz. unfold sint. assert (2 ^ w = 2 * 2 ^ (w - 1))%Z as E.
  { rewrite <- Z.pow_succ_r by lia. f_equal. lia. }
  rewrite Z.mod_small; lia.
Qed.

Lemma sint_cong w z : (0 < w)%Z -> exists k, sint w z = (z + k * 2 ^ w)%Z.
Proof.
  intros Hw. unfold sint. exists (- ((z + 2 ^ (w - 1)) / 2 ^ w))%Z.
  rewrite Z.mod_eq by (apply Z.pow_nonzero; lia). lia.
Qed.

(** Bit fields. *)
Lemma lor_shiftl x k b :
  (0 <= k)%Z -> (0 <= b < 2 ^ k)%Z -> Z.lor (Z.shiftl x k) b = (x * 2 ^ k + b)%Z.
Proof.
  intros Hk Hb. rewrite <- Z.shiftl_mul_pow2 by done. symmetry. apply Z.add_nocarry_lor.
  apply Z.bits_inj'. intros n Hn. rewrite Z.land_spec, Z.bits_0.
  destruct (Z.ltb_spec n k).
  - by rewrite Z.shiftl_spec_low.
  - assert (2 ^ k <= 2 ^ n)%Z by (apply Z.pow_le_mono_r; lia).
    assert (Z.testbit b n = false) as ->; [|by rewrite andb_false_r].
    apply Z.testbit_false; [done|]. rewrite Z.div_small by lia. done.
Qed.

Lemma land_mask x k : (0 <= k)%Z -> Z.land x (2 ^ k - 1) = (x mod 2 ^ k)%Z.
Proof. intros Hk. rewrite <- Z.land_ones by done. by rewrite Z.ones_equiv, Z.sub_1_r. Qed.

Section bytes.
Local Open Scope Z_scope.

(** The [n] lowest bytes of a number, the lowest first, and their number. *)
Fixpoint le_bytes (n : nat) (z : Z) : list Z :=
  match n with
  | O => []
  | S n => z mod 256 :: le_bytes n (z / 256)
  end.

Fixpoint of_bytes (l : list Z) : Z :=
  match l with
  | [] => 0
  | b :: l => b + 256 * of_bytes l
  end.

Lemma length_le_bytes n z : length (le_bytes n z) = n.
Proof. revert z. induction n as [|n IH]; intros z; [done|]. cbn. by rewrite IH. Qed.

Lemma of_bytes_le n z : of_bytes (le_bytes n z) = z mod 2 ^ (8 * Z.of_nat n).
Proof.
  revert z. induction n as [|n IH]; intros z; cbn [le_bytes of_bytes]; [by rewrite Z.mod_1_r|].
  rewrite IH. replace (8 * Z.of_nat (S n)) with (8 + 8 * Z.of_nat n) by lia.
  rewrite Z.pow_add_r by lia. change 256 with (2 ^ 8). rewrite Z.rem_mul_r; [done|lia|apply Z.pow_pos_nonneg; lia].
Qed.

Lemma sint_uint w z : sint w (uint w z) = sint w z.
Proof. unfold sint, uint. by rewrite Zplus_mod_idemp_l. Qed.

End bytes.

(** A fact about every integer of a finite range, by computation. *)
Lemma forall_below (P : Z -> bool) n :
  forallb P (seqZ 0 n) = true -> forall z, (0 <= z < n)%Z -> P z = true.
Proof.
  rewrite forallb_forall. intros H z Hz. apply H, list_elem_of_In, elem_of_seqZ. lia.
Qed.

(** ** Transition systems *)

(** A property that every step preserves holds along every run. *)
Lemma rtc_preserve {A} (P : A -> Prop) (R : A -> A -> Prop) :
  (forall x y, P x -> R x y -> P y) -> forall x y, P x -> rtc R x y -> P y.
Proof. intros HP x y Hx Hr. induction Hr as [|x z y Hs _ IH]; [done|]. apply IH. by eapply HP. Qed.

#[export] Hint Resolve rtc_refl rtc_once : core.
