(* ===== verification/CellMap.v ===== *)
(** * CellMap: the table that redirects heap objects to transaction cells

    Models [class CellMap] of src/stm.cc.  Cells live in a chain of blocks of
    [BLOCK_SIZE] pairs obtained from [malloc]; a block never moves, so the
    address of a [to_] field (a [location]) can be handed out as a handle.
    [location_set_] and [object_map_] are the two indexes over the cells.

    A [malloc]ed block is uninitialised, so a cell is an [option]: reading a
    cell that was never written is undefined behaviour and gives [None]. *)

From S2P Require Import Prelude.

(** A tagged [Object*]. *)
Abbreviation Object := Z.

(** [&block->cells_[i].to_]: the block's address and the index of the cell. *)
Abbreviation location := (nat * nat)%type.

Record CellPair := mkCellPair { from_ : Object; to_ : Object }.

Definition BLOCK_SIZE : nat := 100.
Arguments BLOCK_SIZE : simpl never.

Record Block := mkBlock { block_addr : nat; cells_ : list (option CellPair) }.

(** [blocks] is the chain that starts at [first_block_]; [last_block] counts
    the links before the one [last_block_address_] points to: 0 stands for
    [&first_block_], [S k] for the [next_] field of the [k]-th block. *)
Record CellMap := mkCellMap {
  blocks : list Block;
  last_block : nat;
  index_ : nat;
  location_set_ : gset location;
  object_map_ : gmap Object location
}.

(** The constructor leaves [index_] uninitialised: [junk]. *)
Definition CellMap_new (junk : nat) : CellMap :=
  mkCellMap [] 0 junk ∅ ∅.

(** [std::map::insert] keeps an entry that is already there. *)
Definition map_insert {V} (m : gmap Object V) (k : Object) (v : V) : gmap Object V :=
  match m !! k with Some _ => m | None => <[k := v]> m end.

(** The first [n] cells of a block, with the location of each. *)
Definition block_cells (b : Block) (n : nat) : list (location * option CellPair) :=
  imap (fun i c => ((block_addr b, i), c)) (take n (cells_ b)).

(** The walk every method makes: all cells of each block before
    [*last_block_address_], then the first [index_] cells of that block. *)
Fixpoint walk (bs : list Block) (to_last index : nat) : list (location * option CellPair) :=
  match bs, to_last with
  | [], _ => []
  | b :: _, 0 => block_cells b index
  | b :: bs, S k => block_cells b BLOCK_SIZE ++ walk bs k index
  end.

Definition visited (m : CellMap) : list (location * option CellPair) :=
  walk (blocks m) (last_block m) (index_ m).

(** Reading a visited cell. *)
Definition read_cell (lc : location * option CellPair) : option (location * CellPair) :=
  match lc.2 with Some p => Some (lc.1, p) | None => None end.

Definition read_cells (m : CellMap) : option (list (location * CellPair)) :=
  mapM read_cell (visited m).

Definition insert_cells (om : gmap Object location) (es : list (location * CellPair)) :=
  fold_left (fun om e => map_insert om (from_ e.2) e.1) es om.

Definition RebuildObjectMap (m : CellMap) : option CellMap :=
  es ← read_cells m;
  Some (mkCellMap (blocks m) (last_block m) (index_ m) (location_set_ m)
          (insert_cells ∅ es)).

Definition IsMapped (m : CellMap) (loc : location) : bool :=
  bool_decide (loc ∈ location_set_ m).

Definition GetMapping (m : CellMap) (object : Object) : option location :=
  object_map_ m !! object.

(** Dereference of a cell location: [*location]. *)
Definition cell_at (m : CellMap) (loc : location) : option CellPair :=
  b ← find_first (fun b => block_addr b =? loc.1) (blocks m);
  mjoin (cells_ b !! loc.2).

Definition deref (m : CellMap) (loc : location) : option Object :=
  to_ <$> cell_at m loc.

(** [fresh] is the address [malloc] returns if a block is needed.  The result
    is [None] where the code would write outside of the block. *)
Definition AddMapping (fresh : nat) (m : CellMap) (object redirect : Object)
    : option (location * CellMap) :=
  let '(bs, index) :=
    match blocks m !! last_block m with
    | None => (blocks m ++ [mkBlock fresh (replicate BLOCK_SIZE None)], 0)
    | Some _ => (blocks m, index_ m)
    end in
  b ← bs !! last_block m;
  if index <? BLOCK_SIZE then
    let b' := mkBlock (block_addr b) (<[index := Some (mkCellPair object redirect)]> (cells_ b)) in
    let loc := (block_addr b, index) in
    let last' := if S index =? BLOCK_SIZE then S (last_block m) else last_block m in
    Some (loc,
      mkCellMap (<[last_block m := b']> bs) last' (S index)
        ({[loc]} ∪ location_set_ m) (map_insert (object_map_ m) object loc))
  else None.

(** ** The garbage collector's visit *)

Section Iterate.
(** An [ObjectVisitor] with its own state; [VisitPointer] may rewrite the
    pointer it is given (the object moved). *)
Context {VS : Type} (VisitPointer : VS -> Object -> VS * Object).

(** The loop body, over the first [n] cells of one block. *)
Fixpoint visit_cells (n : nat) (cs : list (option CellPair)) (v : VS) (changes : bool)
    : option (list (option CellPair) * VS * bool) :=
  match n, cs with
  | 0, _ => Some (cs, v, changes)
  | S n, Some p :: cs =>
      let '(v1, f) := VisitPointer v (from_ p) in
      let '(v2, t) := VisitPointer v1 (to_ p) in
      '(cs', v', ch') ← visit_cells n cs v2 (changes || negb (f =? from_ p)%Z);
      Some (Some (mkCellPair f t) :: cs', v', ch')
  | S _, _ => None
  end.

Fixpoint visit_blocks (bs : list Block) (to_last index : nat) (v : VS) (changes : bool)
    : option (list Block * VS * bool) :=
  match bs, to_last with
  | [], _ => Some ([], v, changes)
  | b :: bs, 0 =>
      '(cs, v', ch') ← visit_cells index (cells_ b) v changes;
      Some (mkBlock (block_addr b) cs :: bs, v', ch')
  | b :: bs, S k =>
      '(cs, v1, ch1) ← visit_cells BLOCK_SIZE (cells_ b) v changes;
      '(bs', v', ch') ← visit_blocks bs k index v1 ch1;
      Some (mkBlock (block_addr b) cs :: bs', v', ch')
  end.

Definition Iterate (m : CellMap) (v : VS) : option (CellMap * VS) :=
  match visit_blocks (blocks m) (last_block m) (index_ m) v false with
  | Some (bs, v', changes) =>
      let m1 := mkCellMap bs (last_block m) (index_ m) (location_set_ m) (object_map_ m) in
      if changes then m2 ← RebuildObjectMap m1; Some (m2, v') else Some (m1, v')
  | None => None
  end.
End Iterate.

(** ** Commit and conflict detection *)

(** The words of every heap object, keyed by its tagged pointer.  The size of
    a JSObject is the number of words it was allocated with. *)
Abbreviation Heap := (gmap Object (list Z)).

Definition Size (h : Heap) (o : Object) : option nat := length <$> h !! o.

(** [Heap::CopyBlock]: copies [n] words; [None] where it would read or write
    past the end of an object. *)
Definition CopyBlock (h : Heap) (dst src : Object) (n : nat) : option Heap :=
  d ← h !! dst;
  s ← h !! src;
  if (n <=? length d) && (n <=? length s)
  then Some (<[dst := take n s ++ drop n d]> h)
  else None.

Definition commit_pair (h : Heap) (p : CellPair) : option Heap :=
  n ← Size h (from_ p); CopyBlock h (from_ p) (to_ p) n.

Fixpoint commit_cells (h : Heap) (es : list (location * CellPair)) : option Heap :=
  match es with
  | [] => Some h
  | (_, p) :: es => h' ← commit_pair h p; commit_cells h' es
  end.

Definition CommitChanges (m : CellMap) (h : Heap) : option Heap :=
  es ← read_cells m; commit_cells h es.

(** [this->Intersects(other)], which returns at the first common object. *)
Fixpoint intersects_cells (this : CellMap) (l : list (location * option CellPair)) : option bool :=
  match l with
  | [] => Some false
  | (_, None) :: _ => None
  | (_, Some p) :: l =>
      match GetMapping this (from_ p) with
      | Some _ => Some true
      | None => intersects_cells this l
      end
  end.

Definition Intersects (this other : CellMap) : option bool :=
  intersects_cells this (visited other).

(** ** The table a map stands for *)

(** The cells in use, oldest first. *)
Definition entries (m : CellMap) : list (location * CellPair) := omap read_cell (visited m).

Definition full_blocks (bs : list Block) : list (location * option CellPair) :=
  mjoin ((fun b => block_cells b BLOCK_SIZE) <$> bs).

Record wf (m : CellMap) : Prop := {
  wf_addrs : NoDup (block_addr <$> blocks m);
  wf_sizes : Forall (fun b => length (cells_ b) = BLOCK_SIZE) (blocks m);
  wf_index : length (blocks m) = last_block m
             \/ length (blocks m) = S (last_block m) /\ index_ m < BLOCK_SIZE;
  wf_init : Forall (fun lc => is_Some (lc.2)) (visited m);
  wf_locs : location_set_ m = list_to_set (entries m).*1;
  wf_map : object_map_ m = insert_cells ∅ (entries m)
}.

(** ** Lemmas *)

Lemma walk_split bs k index :
  k <= length bs ->
  walk bs k index =
  full_blocks (take k bs) ++ match bs !! k with Some b => block_cells b index | None => [] end.
Proof.
  revert k; induction bs as [|b bs IH]; intros [|k] Hk; simpl in *; try done; try lia.
  rewrite IH by lia. unfold full_blocks; simpl. by rewrite app_assoc.
Qed.

Lemma read_cells_init m :
  Forall (fun lc => is_Some (lc.2)) (visited m) -> read_cells m = Some (entries m).
Proof.
  unfold read_cells, entries. generalize (visited m). induction l as [|[loc c] l IH]; intros F; [done|].
  apply list.Forall_cons in F as [[p Hp] F]. simpl in *; subst c. simpl.
  by rewrite (IH F).
Qed.

Lemma read_cells_wf m : wf m -> read_cells m = Some (entries m).
Proof. intros W. apply read_cells_init, W. Qed.

Lemma wf_new junk : wf (CellMap_new junk).
Proof. split; simpl; try done; try constructor. done. Qed.

Lemma entries_new junk : entries (CellMap_new junk) = [].
Proof. done. Qed.

Lemma length_cells_fresh m fresh :
  Forall (fun b => length (cells_ b) = BLOCK_SIZE) (blocks m) ->
  Forall (fun b => length (cells_ b) = BLOCK_SIZE)
    (blocks m ++ [mkBlock fresh (replicate BLOCK_SIZE None)]).
Proof. intros F. apply Forall_app. split; [done|]. by repeat constructor. Qed.

Lemma block_cells_S b i p :
  i < length (cells_ b) ->
  block_cells (mkBlock (block_addr b) (<[i := Some p]> (cells_ b))) (S i) =
  block_cells b i ++ [((block_addr b, i), Some p)].
Proof.
  intros Hi. unfold block_cells; simpl.
  rewrite (take_S_r _ _ (Some p)) by (by apply list_lookup_insert_eq).
  rewrite take_insert_ge by lia. rewrite imap_app. simpl.
  rewrite length_take. by rewrite Nat.min_l, Nat.add_0_r by lia.
Qed.

Lemma insert_cells_app om es1 es2 :
  insert_cells om (es1 ++ es2) = insert_cells (insert_cells om es1) es2.
Proof. apply fold_left_app. Qed.

Lemma lookup_map_insert {V} (om : gmap Object V) o v o' :
  map_insert om o v !! o' =
  match om !! o' with Some x => Some x | None => if (o =? o')%Z then Some v else None end.
Proof.
  unfold map_insert. destruct (Z.eqb_spec o o') as [->|Hne].
  - destruct (om !! o') eqn:E; [by rewrite E|]. by rewrite lookup_insert_eq.
  - destruct (om !! o); [by destruct (om !! o')|].
    rewrite lookup_insert_ne by done. by destruct (om !! o').
Qed.

Definition first_from (o : Object) (es : list (location * CellPair)) :=
  find_first (fun e => (from_ e.2 =? o)%Z) es.

Lemma lookup_insert_cells es om o :
  insert_cells om es !! o =
  match om !! o with Some l => Some l | None => fst <$> first_from o es end.
Proof.
  unfold first_from. revert om; induction es as [|[l p] es IH]; intros om; simpl.
  - by destruct (om !! o).
  - fold (insert_cells (map_insert om (from_ p) l) es).
    rewrite IH, lookup_map_insert. destruct (om !! o); [done|].
    by destruct (from_ p =? o)%Z.
Qed.

(** [GetMapping] finds the oldest cell whose [from_] is the object. *)
Lemma GetMapping_entries m o :
  wf m -> GetMapping m o = fst <$> first_from o (entries m).
Proof.
  intros W. unfold GetMapping. rewrite (wf_map m W), lookup_insert_cells.
  by rewrite lookup_empty.
Qed.

Lemma IsMapped_entries m loc :
  wf m -> IsMapped m loc = true <-> loc ∈ (entries m).*1.
Proof.
  intros W. unfold IsMapped. rewrite bool_decide_eq_true, (wf_locs m W).
  apply elem_of_list_to_set.
Qed.

(** What [AddMapping] does to the chain: in block [k] (fresh or partial) cell
    [i], the first free one, is written. *)
Lemma AddMapping_shape fresh m o r :
  wf m -> fresh ∉ block_addr <$> blocks m ->
  exists bs b i,
    bs !! last_block m = Some b /\ length bs = S (last_block m) /\ i < BLOCK_SIZE
    /\ length (cells_ b) = BLOCK_SIZE
    /\ NoDup (block_addr <$> bs) /\ Forall (fun b => length (cells_ b) = BLOCK_SIZE) bs
    /\ visited m = full_blocks (take (last_block m) bs) ++ block_cells b i
    /\ (forall a, a ∈ block_addr <$> bs -> a ∈ block_addr <$> blocks m \/ a = fresh)
    /\ AddMapping fresh m o r =
       Some ((block_addr b, i),
         mkCellMap (<[last_block m :=
             mkBlock (block_addr b) (<[i := Some (mkCellPair o r)]> (cells_ b))]> bs)
           (if S i =? BLOCK_SIZE then S (last_block m) else last_block m) (S i)
           ({[(block_addr b, i)]} ∪ location_set_ m)
           (map_insert (object_map_ m) o (block_addr b, i))).
Proof.
  intros W Hf. pose proof (wf_sizes m W) as Hsz. unfold visited.
  destruct (wf_index m W) as [Hl|[Hl Hi]].
  - set (b := mkBlock fresh (replicate BLOCK_SIZE None)).
    exists (blocks m ++ [b]), b, 0.
    assert (Hb : (blocks m ++ [b]) !! last_block m = Some b)
      by (rewrite lookup_app_r by lia; by rewrite <- Hl, Nat.sub_diag).
    repeat split; try done.
    + rewrite length_app; simpl; lia.
    + unfold BLOCK_SIZE; lia.
    + rewrite fmap_app. apply list.NoDup_app. split; [apply W|]. split; [|apply NoDup_singleton].
      intros x Hx ->%list_elem_of_singleton. done.
    + by apply length_cells_fresh.
    + rewrite walk_split by lia. rewrite <- Hl, lookup_ge_None_2 by lia.
      by rewrite take_app_length, firstn_all.
    + intros a. rewrite fmap_app. intros [?|?%list_elem_of_singleton]%elem_of_app; auto.
    + unfold AddMapping. rewrite (lookup_ge_None_2 (blocks m)) by lia.
      fold b. cbn -[b]. by rewrite Hb.
  - destruct (lookup_lt_is_Some_2 (blocks m) (last_block m)) as [b Hb]; [lia|].
    exists (blocks m), b, (index_ m). repeat split; try done; try apply W.
    + by apply (Forall_lookup_1 _ _ _ _ Hsz Hb).
    + rewrite walk_split by lia. by rewrite Hb.
    + by left.
    + unfold AddMapping. rewrite Hb; simpl. rewrite Hb; simpl.
      by destruct (Nat.ltb_spec (index_ m) BLOCK_SIZE); [|lia].
Qed.

Lemma visited_after_add bs k b i p ls om :
  bs !! k = Some b -> length bs = S k -> i < BLOCK_SIZE ->
  length (cells_ b) = BLOCK_SIZE ->
  visited (mkCellMap (<[k := mkBlock (block_addr b) (<[i := Some p]> (cells_ b))]> bs)
             (if S i =? BLOCK_SIZE then S k else k) (S i) ls om)
  = (full_blocks (take k bs) ++ block_cells b i) ++ [((block_addr b, i), Some p)].
Proof.
  intros Hb Hl Hi Hsz. unfold visited; cbn [blocks last_block index_]. rewrite <- app_assoc, <- block_cells_S by lia.
  rewrite walk_split by (rewrite length_insert; case_match; lia).
  destruct (Nat.eqb_spec (S i) BLOCK_SIZE) as [He|He].
  - rewrite (lookup_ge_None_2 (<[k:=_]> bs)) by (rewrite length_insert; lia).
    erewrite (take_S_r (<[k:=_]> bs) k) by (apply list_lookup_insert_eq; lia). rewrite take_insert_ge by lia.
    unfold full_blocks. rewrite fmap_app, join_app. simpl. rewrite He.
    by rewrite !app_nil_r.
  - rewrite take_insert_ge, list_lookup_insert_eq by lia. done.
Qed.

(** [AddMapping] appends one entry and moves nothing. *)
Lemma AddMapping_entries fresh m o r :
  wf m -> fresh ∉ block_addr <$> blocks m ->
  exists loc m', AddMapping fresh m o r = Some (loc, m') /\ wf m'
    /\ entries m' = entries m ++ [(loc, mkCellPair o r)]
    /\ (forall a, a ∈ block_addr <$> blocks m' -> a ∈ block_addr <$> blocks m \/ a = fresh).
Proof.
  intros W Hf.
  destruct (AddMapping_shape fresh m o r W Hf)
    as (bs & b & i & Hb & Hl & Hi & Hcb & Hnd & Hsz & Hv & Ha & ->).
  do 2 eexists. split; [done|].
  pose proof (visited_after_add bs _ b i (mkCellPair o r)
    ({[(block_addr b, i)]} ∪ location_set_ m)
    (map_insert (object_map_ m) o (block_addr b, i)) Hb Hl Hi Hcb) as Hv'.
  match goal with |- wf ?mm /\ _ => set (m' := mm) in * end.
  assert (He : entries m' = entries m ++ [((block_addr b, i), mkCellPair o r)]).
  { unfold entries. rewrite Hv', <- Hv, omap_app. done. }
  assert (Hba : block_addr <$> blocks m' = block_addr <$> bs).
  { unfold m'; simpl. rewrite list_fmap_insert. simpl. apply list_insert_id.
    by rewrite list_lookup_fmap, Hb. }
  split; [|split; [done|]].
  - split.
    + by rewrite Hba.
    + apply Forall_insert; [done|]. simpl. by rewrite length_insert.
    + unfold m'; cbn [blocks last_block index_]. rewrite length_insert.
      destruct (Nat.eqb_spec (S i) BLOCK_SIZE); [left|right]; lia.
    + rewrite Hv', <- Hv. apply Forall_app. split; [apply W|]. repeat constructor. eauto.
    + rewrite He, fmap_app, list_to_set_app_L. unfold m'; simpl.
      rewrite (wf_locs m W), (right_id_L ∅ (∪)). apply (comm_L (∪)).
    + rewrite He, insert_cells_app. unfold m'; simpl. by rewrite (wf_map m W).
  - intros a. rewrite Hba. apply Ha.
Qed.

Lemma elem_of_block_cells loc c b n :
  (loc, c) ∈ block_cells b n -> loc.1 = block_addr b /\ cells_ b !! loc.2 = Some c.
Proof.
  unfold block_cells. intros [i Hi]%list_elem_of_lookup.
  rewrite list_lookup_imap in Hi. apply fmap_Some in Hi as (c' & Hc & [= -> ->]).
  apply lookup_take_Some in Hc as [Hc _]. done.
Qed.

Lemma elem_of_walk loc c bs k n :
  (loc, c) ∈ walk bs k n ->
  exists b, b ∈ bs /\ loc.1 = block_addr b /\ cells_ b !! loc.2 = Some c.
Proof.
  revert k; induction bs as [|b bs IH]; intros [|k]; simpl.
  - by intros ?%not_elem_of_nil.
  - by intros ?%not_elem_of_nil.
  - intros H%elem_of_block_cells. exists b. split; [apply list_elem_of_here|done].
  - intros [H%elem_of_block_cells|H]%elem_of_app.
    + exists b. split; [apply list_elem_of_here|done].
    + destruct (IH k H) as (b' & ? & ?). exists b'. split; [by apply list_elem_of_further|done].
Qed.

Lemma find_block bs b :
  NoDup (block_addr <$> bs) -> b ∈ bs ->
  find_first (fun b' => block_addr b' =? block_addr b) bs = Some b.
Proof.
  induction bs as [|b0 bs IH]; simpl.
  - by intros _ ?%not_elem_of_nil.
  - intros [Hn Hd]%NoDup_cons [->|Hin]%elem_of_cons; [by rewrite Nat.eqb_refl|].
    destruct (Nat.eqb_spec (block_addr b0) (block_addr b)) as [He|]; [|by apply IH].
    destruct Hn. rewrite He. by apply list_elem_of_fmap_2.
Qed.

Lemma elem_of_entries m loc p :
  (loc, p) ∈ entries m <-> (loc, Some p) ∈ visited m.
Proof.
  unfold entries. rewrite list_elem_of_omap. split.
  - intros ([l [p'|]] & Hin & He); [|discriminate]. by injection He as -> ->.
  - intros H. by exists (loc, Some p).
Qed.

Lemma cell_at_entries m loc p :
  wf m -> (loc, p) ∈ entries m -> cell_at m loc = Some p.
Proof.
  intros W Hin%elem_of_entries. destruct (elem_of_walk _ _ _ _ _ Hin) as (b & Hb & Ha & Hc).
  unfold cell_at. rewrite Ha, find_block by (done || apply W). simpl. by rewrite Hc.
Qed.

Lemma cell_at_mapped m loc :
  wf m -> loc ∈ (entries m).*1 -> exists p, (loc, p) ∈ entries m /\ cell_at m loc = Some p.
Proof.
  intros W ([l p] & -> & Hin)%list_elem_of_fmap. exists p. eauto using cell_at_entries.
Qed.

(** ** Properties *)

(** C1: adding a mapping for an unmapped object makes the object map to a new
    cell that holds the redirected object, leaves the mapping of every other
    object alone, and neither moves nor changes any cell handed out before,
    whatever block boundary is crossed. *)
Theorem AddMapping_spec fresh m o r :
  wf m -> fresh ∉ block_addr <$> blocks m -> GetMapping m o = None ->
  exists loc m', AddMapping fresh m o r = Some (loc, m') /\ wf m'
    /\ GetMapping m' o = Some loc /\ deref m' loc = Some r
    /\ IsMapped m' loc = true
    /\ (forall o', o' <> o -> GetMapping m' o' = GetMapping m o')
    /\ (forall loc', IsMapped m loc' = true ->
          IsMapped m' loc' = true /\ cell_at m' loc' = cell_at m loc').
Proof.
  intros W Hf Hn.
  destruct (AddMapping_entries fresh m o r W Hf) as (loc & m' & Ha & W' & He & _).
  exists loc, m'. rewrite (GetMapping_entries m o W) in Hn. unfold first_from in *.
  assert (Hin : (loc, mkCellPair o r) ∈ entries m')
    by (rewrite He; apply elem_of_app; right; by apply list_elem_of_singleton).
  split; [done|]. split; [done|]. repeat split.
  - rewrite (GetMapping_entries m' o W'). unfold first_from. rewrite He, find_first_app.
    destruct (find_first _ (entries m)); [done|]. simpl. by rewrite Z.eqb_refl.
  - unfold deref. by rewrite (cell_at_entries _ _ _ W' Hin).
  - apply IsMapped_entries; [done|]. apply (list_elem_of_fmap_2 fst _ _ Hin).
  - intros o' Hne. rewrite !GetMapping_entries by done. unfold first_from.
    rewrite He, find_first_app. simpl.
    destruct (Z.eqb_spec o o'); [congruence|].
    destruct (find_first (fun e => (from_ e.2 =? o')%Z) (entries m)); reflexivity.
  - apply IsMapped_entries; [done|]. apply IsMapped_entries in H; [|done].
    rewrite He, fmap_app. apply elem_of_app. by left.
  - apply IsMapped_entries in H; [|done].
    destruct (cell_at_mapped m loc' W H) as (p & Hp & ->).
    apply cell_at_entries; [done|]. rewrite He. apply elem_of_app. by left.
Qed.

(** The references an [ObjectVisitor] is shown, in the order of the walk. *)
Fixpoint visit_entries {VS} (visit : VS -> Object -> VS * Object)
    (es : list (location * CellPair)) (v : VS) : list (location * CellPair) * VS :=
  match es with
  | [] => ([], v)
  | (l, p) :: es =>
      let '(v1, f) := visit v (from_ p) in
      let '(v2, t) := visit v1 (to_ p) in
      let '(es', v') := visit_entries visit es v2 in
      ((l, mkCellPair f t) :: es', v')
  end.

Abbreviation froms es := ((fun e : location * CellPair => from_ e.2) <$> es).

Lemma visit_entries_app {VS} (visit : VS -> Object -> VS * Object) es1 es2 v :
  visit_entries visit (es1 ++ es2) v =
  let '(es1', v1) := visit_entries visit es1 v in
  let '(es2', v2) := visit_entries visit es2 v1 in (es1' ++ es2', v2).
Proof.
  revert v; induction es1 as [|[l p] es1 IH]; intros v; simpl.
  - by destruct (visit_entries visit es2 v).
  - destruct (visit v (from_ p)) as [v1 f]. destruct (visit v1 (to_ p)) as [v2 t].
    rewrite IH. destruct (visit_entries visit es1 v2) as [es1' v3].
    by destruct (visit_entries visit es2 v3).
Qed.

Lemma visit_entries_locs {VS} (visit : VS -> Object -> VS * Object) es v :
  (visit_entries visit es v).1.*1 = es.*1.
Proof.
  revert v; induction es as [|[l p] es IH]; intros v; simpl; [done|].
  destruct (visit v (from_ p)) as [v1 f]. destruct (visit v1 (to_ p)) as [v2 t].
  specialize (IH v2). destruct (visit_entries visit es v2) as [es2 v3]. csimpl. simpl in IH. f_equal. exact IH.
Qed.

Section IterateSpec.
Context {VS : Type} (visit : VS -> Object -> VS * Object).

Definition cells_from (a k : nat) (cs : list (option CellPair)) :=
  omap read_cell (imap (fun i c => ((a, k + i), c)) cs).

#[local] Arguments cells_from : simpl never.

Lemma cells_from_cons a k p cs :
  cells_from a k (Some p :: cs) = ((a, k), p) :: cells_from a (S k) cs.
Proof.
  unfold cells_from. simpl. rewrite Nat.add_0_r. do 2 f_equal. apply imap_ext.
  intros i c _. simpl. by rewrite Nat.add_succ_r.
Qed.

Lemma visit_cells_spec n cs a k v ch :
  n <= length cs -> Forall is_Some (take n cs) ->
  exists cs' v' ch', visit_cells visit n cs v ch = Some (cs', v', ch')
    /\ length cs' = length cs /\ Forall is_Some (take n cs')
    /\ visit_entries visit (cells_from a k (take n cs)) v = (cells_from a k (take n cs'), v')
    /\ (ch' = false -> ch = false
         /\ froms (cells_from a k (take n cs')) = froms (cells_from a k (take n cs))).
Proof.
  revert cs k v ch; induction n as [|n IH]; intros cs k v ch Hn Hs.
  - exists cs, v, ch. done.
  - destruct cs as [|c cs]; simpl in *; [lia|].
    apply list.Forall_cons in Hs as [[p ->] Hs].
    rewrite cells_from_cons. cbn [visit_entries visit_cells fst snd].
    destruct (visit v (from_ p)) as [v1 f]. destruct (visit v1 (to_ p)) as [v2 t].
    destruct (IH cs (S k) v2 (ch || negb (f =? from_ p)%Z) ltac:(lia) Hs)
      as (cs' & v' & ch' & -> & Hl & Hs' & Hv & Hch).
    exists (Some (mkCellPair f t) :: cs'), v', ch'. cbn [take length mbind option_bind].
    rewrite (cells_from_cons a k (mkCellPair f t)), Hv. repeat split; eauto.
    + apply Hch in H as [Hor _]. by apply orb_false_iff in Hor as [-> _].
    + apply Hch in H as [Hor Hfr]. apply orb_false_iff in Hor as [_ Hf]. breflect.
      rewrite !fmap_cons. f_equal; [exact Hf|exact Hfr].
Qed.

Lemma block_cells_from b n :
  omap read_cell (block_cells b n) = cells_from (block_addr b) 0 (take n (cells_ b)).
Proof. reflexivity. Qed.

Lemma init_block_cells b n :
  Forall (fun lc : location * option CellPair => is_Some (lc.2)) (block_cells b n)
  <-> Forall is_Some (take n (cells_ b)).
Proof.
  unfold block_cells. rewrite !list.Forall_lookup. setoid_rewrite list_lookup_imap.
  split; intros H i c Hc.
  - specialize (H i (block_addr b, i, c)). rewrite Hc in H. by apply H.
  - apply fmap_Some in Hc as (c' & Hc & ->). by apply (H i).
Qed.

Lemma visit_blocks_spec bs k n v ch :
  Forall (fun b => length (cells_ b) = BLOCK_SIZE) bs ->
  (k < length bs -> n <= BLOCK_SIZE) ->
  Forall (fun lc => is_Some (lc.2)) (walk bs k n) ->
  exists bs' v' ch', visit_blocks visit bs k n v ch = Some (bs', v', ch')
    /\ block_addr <$> bs' = block_addr <$> bs
    /\ Forall (fun b => length (cells_ b) = BLOCK_SIZE) bs'
    /\ Forall (fun lc => is_Some (lc.2)) (walk bs' k n)
    /\ visit_entries visit (omap read_cell (walk bs k n)) v = (omap read_cell (walk bs' k n), v')
    /\ (ch' = false -> ch = false
         /\ froms (omap read_cell (walk bs' k n)) = froms (omap read_cell (walk bs k n))).
Proof.
  revert k v ch; induction bs as [|b bs IH]; intros k v ch Hsz Hn Hi.
  { exists [], v, ch. simpl. by destruct k. }
  apply list.Forall_cons in Hsz as [Hb Hsz]. destruct k as [|k]; cbn [walk visit_blocks] in *.
  - destruct (visit_cells_spec n (cells_ b) (block_addr b) 0 v ch)
      as (cs' & v' & ch' & -> & Hl & Hs & Hv & Hch);
      [simpl in Hn; lia | exact (proj1 (init_block_cells b n) Hi) |].
    exists (mkBlock (block_addr b) cs' :: bs), v', ch'.
    split; [done|]. split; [done|]. split; [|split; [|split]].
    + constructor; [|done]. simpl. lia.
    + exact (proj2 (init_block_cells (mkBlock (block_addr b) cs') n) Hs).
    + rewrite !block_cells_from. exact Hv.
    + intros H. destruct (Hch H) as [-> Hf]. split; [done|]. rewrite !block_cells_from. exact Hf.
  - apply list.Forall_app in Hi as [Hib Hi].
    destruct (visit_cells_spec BLOCK_SIZE (cells_ b) (block_addr b) 0 v ch)
      as (cs' & v1 & ch1 & -> & Hl & Hs & Hv & Hch);
      [lia | exact (proj1 (init_block_cells b BLOCK_SIZE) Hib) |].
    destruct (IH k v1 ch1 Hsz ltac:(simpl in Hn; lia) Hi) as (bs' & v' & ch' & Hbs & Ha & Hsz' & Hi' & Hv' & Hch').
    exists (mkBlock (block_addr b) cs' :: bs'), v', ch'.
    cbn [walk visit_blocks mbind option_bind]. rewrite Hbs. cbn [mbind option_bind].
    split; [done|]. split; [rewrite !fmap_cons; cbn; congruence|]. split; [|split; [|split]].
    + constructor; [|done]. simpl. lia.
    + apply list.Forall_app. split; [|exact Hi'].
      exact (proj2 (init_block_cells (mkBlock (block_addr b) cs') BLOCK_SIZE) Hs).
    + rewrite !omap_app, visit_entries_app, !block_cells_from, Hv, Hv'. done.
    + intros H. destruct (Hch' H) as [H1 Hf']. destruct (Hch H1) as [-> Hf]. split; [done|].
      rewrite !omap_app, !fmap_app, !block_cells_from, Hf'. f_equal. exact Hf.
Qed.
End IterateSpec.

Lemma insert_cells_froms om es es' :
  es.*1 = es'.*1 -> froms es = froms es' -> insert_cells om es = insert_cells om es'.
Proof.
  revert om es'; induction es as [|[l p] es IH]; intros om [|[l' p'] es']; try done.
  rewrite !fmap_cons. intros [= -> H1] [= Hf H2]. cbn. rewrite Hf. by apply IH.
Qed.

(** After a collection the table is well formed and its entries are the old
    ones, in the same locations, as the visitor rewrote them. *)
Lemma Iterate_entries {VS} (visit : VS -> Object -> VS * Object) m v :
  wf m ->
  exists m', Iterate visit m v = Some (m', (visit_entries visit (entries m) v).2)
    /\ wf m' /\ entries m' = (visit_entries visit (entries m) v).1
    /\ (block_addr <$> blocks m') = (block_addr <$> blocks m).
Proof.
  intros W.
  destruct (visit_blocks_spec visit (blocks m) (last_block m) (index_ m) v false (wf_sizes m W))
    as (bs' & v' & ch' & Hvb & Ha & Hsz & Hin & Hv & Hch);
    [destruct (wf_index m W) as [|[]]; lia | apply W |].
  assert (Hlen : length bs' = length (blocks m))
    by (by rewrite <- (length_fmap block_addr), Ha, length_fmap).
  fold (visited m) in Hv, Hch. fold (entries m) in Hv, Hch. unfold Iterate. rewrite Hvb, Hv. cbn zeta.
  set (m1 := mkCellMap bs' (last_block m) (index_ m) (location_set_ m) (object_map_ m)).
  fold (visited m1) in Hin. assert (He1 : omap read_cell (walk bs' (last_block m) (index_ m))
                                         = entries m1) by done.
  rewrite He1 in *.
  assert (Hloc : (entries m1).*1 = (entries m).*1).
  { pose proof (visit_entries_locs visit (entries m) v) as Hx. by rewrite Hv in Hx. }
  assert (Hwf : forall om, om = insert_cells ∅ (entries m1) ->
    wf (mkCellMap bs' (last_block m) (index_ m) (location_set_ m) om)).
  { intros om ->. split; cbn [blocks last_block index_ location_set_ object_map_]; try done.
    - rewrite Ha. apply W.
    - rewrite Hlen. apply W.
    - unfold entries, visited. cbn [blocks last_block index_]. rewrite He1, Hloc. apply W. }
  destruct ch'.
  - unfold RebuildObjectMap. rewrite (read_cells_init m1 Hin). cbn [mbind option_bind].
    eexists. split; [done|]. split; [by apply Hwf|done].
  - exists m1. split; [done|]. split; [|done]. apply Hwf. rewrite (wf_map m W).
    apply insert_cells_froms; [done|]. symmetry. by apply Hch.
Qed.

(** A garbage collection keeps the table pointing at the same cells.  When
    every object [o] moves to [f o], [f] being injective, the moved object maps
    to the cell the old one mapped to, and that cell holds the moved redirect;
    the lookup index is rebuilt whenever a [from_] changed. *)
Theorem Iterate_GetMapping (f : Object -> Object) m :
  wf m -> (forall x y, f x = f y -> x = y) ->
  exists m', Iterate (fun (_ : unit) o => (tt, f o)) m tt = Some (m', tt) /\ wf m'
    /\ (forall o, GetMapping m' (f o) = GetMapping m o)
    /\ (forall loc r, IsMapped m loc = true -> deref m loc = Some r -> deref m' loc = Some (f r))
    /\ (forall loc, IsMapped m' loc = IsMapped m loc).
Proof.
  intros W Hinj.
  destruct (Iterate_entries (fun (_ : unit) o => (tt, f o)) m tt W) as (m' & Hi & W' & He & _).
  set (g := fun e : location * CellPair => (e.1, mkCellPair (f (from_ e.2)) (f (to_ e.2)))).
  assert (Hg : forall es, visit_entries (fun (_ : unit) o => (tt, f o)) es tt = (g <$> es, tt)).
  { induction es as [|[l p] es IH]; [done|]. cbn. by rewrite IH. }
  rewrite Hg in Hi, He. cbn in Hi, He. exists m'. split; [done|]. split; [done|].
  split; [|split].
  - intros o. rewrite !GetMapping_entries, He by done. generalize (entries m).
    unfold first_from. induction l as [|[l p] es IH]; [done|]. cbn.
    destruct (Z.eqb_spec (from_ p) o) as [->|Hne]; [by rewrite Z.eqb_refl|].
    destruct (Z.eqb_spec (f (from_ p)) (f o)) as [Hf|]; [by apply Hinj in Hf|]. apply IH.
  - intros loc r Hm Hd. apply IsMapped_entries in Hm; [|done].
    destruct (cell_at_mapped m loc W Hm) as (p & Hp & Hc). unfold deref in *.
    rewrite Hc in Hd. injection Hd as <-.
    rewrite (cell_at_entries m' loc (mkCellPair (f (from_ p)) (f (to_ p))) W'); [done|].
    rewrite He. apply (list_elem_of_fmap_2 g _ _ Hp).
  - intros loc. apply eq_bool_prop_intro. rewrite !Is_true_true, !IsMapped_entries by done.
    rewrite He, <- list_fmap_compose. done.
Qed.

Lemma intersects_cells_init this l :
  Forall (fun lc => is_Some (lc.2)) l ->
  intersects_cells this l =
  Some (existsb (fun e => bool_decide (is_Some (GetMapping this (from_ e.2)))) (omap read_cell l)).
Proof.
  induction l as [|[loc c] l IH]; intros F; [done|].
  apply list.Forall_cons in F as [[p Hp] F]. cbn in Hp. subst c. cbn.
  destruct (GetMapping this (from_ p)) eqn:E.
  - by rewrite bool_decide_eq_true_2.
  - rewrite bool_decide_eq_false_2 by (by intros []). by apply IH.
Qed.

Lemma GetMapping_is_Some m o :
  wf m -> is_Some (GetMapping m o) <-> o ∈ froms (entries m).
Proof.
  intros W. rewrite GetMapping_entries by done. unfold first_from. rewrite list_elem_of_fmap.
  split.
  - intros [l Hl]. apply fmap_Some in Hl as (e & He & ->).
    apply find_first_Some in He as [Hin Hf]. breflect. by exists e.
  - intros (e & -> & Hin).
    destruct (find_first (fun e0 => (from_ e0.2 =? from_ e.2)%Z) (entries m)) eqn:E; [by eexists|].
    eapply find_first_None in E; [|exact Hin]. cbn in E. by rewrite Z.eqb_refl in E.
Qed.

(** [Intersects] answers [true] exactly when some object is mapped by both
    tables. *)
Lemma Intersects_spec this other :
  wf this -> wf other ->
  exists r, Intersects this other = Some r
    /\ (r = true <-> exists o, is_Some (GetMapping this o) /\ is_Some (GetMapping other o)).
Proof.
  intros Wt Wo. unfold Intersects.
  rewrite intersects_cells_init by apply Wo. eexists. split; [done|].
  fold (entries other). rewrite existsb_exists. split.
  - intros (e & Hin & Hb). breflect. exists (from_ e.2). split; [done|].
    apply GetMapping_is_Some; [done|]. apply list_elem_of_fmap. exists e.
    by rewrite list_elem_of_In.
  - intros (o & Ht & Hoo). apply GetMapping_is_Some in Hoo; [|done].
    apply list_elem_of_fmap in Hoo as (e & -> & Hin). exists e.
    rewrite <- list_elem_of_In. split; [done|]. by apply bool_decide_eq_true_2.
Qed.

(** What a commit may rely on: the originals are distinct, no copy is one of
    the originals, and each copy has the size of its original. *)
Record committable (h : Heap) (es : list (location * CellPair)) : Prop := {
  ca_nodup : NoDup (froms es);
  ca_disjoint : forall e, e ∈ es -> to_ e.2 ∉ froms es;
  ca_sizes : forall e, e ∈ es -> exists d s,
    h !! from_ e.2 = Some d /\ h !! to_ e.2 = Some s /\ length s = length d
}.

Lemma commit_pair_same_size h p d s :
  h !! from_ p = Some d -> h !! to_ p = Some s -> length s = length d ->
  commit_pair h p = Some (<[from_ p := s]> h).
Proof.
  intros Hd Hs Hl. unfold commit_pair, Size, CopyBlock. rewrite Hd. cbn.
  rewrite Hs. cbn. rewrite Hl, Nat.leb_refl. cbn. rewrite <- Hl at 1.
  by rewrite firstn_all, drop_all, app_nil_r.
Qed.

Lemma commit_cells_spec h es :
  committable h es ->
  exists h', commit_cells h es = Some h'
    /\ (forall e, e ∈ es -> h' !! from_ e.2 = h !! to_ e.2)
    /\ (forall o, o ∉ froms es -> h' !! o = h !! o).
Proof.
  revert h; induction es as [|[l p] es IH]; intros h [Hnd Hdj Hsz].
  { exists h. split; [done|]. split; [|done]. by intros e ?%not_elem_of_nil. }
  rewrite fmap_cons in Hnd, Hdj. cbn in Hnd. apply NoDup_cons in Hnd as [Hn Hnd].
  destruct (Hsz (l, p)) as (d & s & Hd & Hs & Hl); [apply list_elem_of_here|].
  cbn in Hd, Hs. set (h1 := <[from_ p := s]> h).
  assert (Hto : forall e, e ∈ es -> h1 !! to_ e.2 = h !! to_ e.2).
  { intros e He. apply lookup_insert_ne. intros Heq.
    apply (Hdj e); [by apply list_elem_of_further|]. rewrite <- Heq. apply list_elem_of_here. }
  destruct (IH h1) as (h' & Hc & Hin & Hout).
  { split; [done| |].
    - intros e He Hf. apply (Hdj e); by apply list_elem_of_further.
    - intros e He. rewrite Hto by done.
      destruct (Hsz e ltac:(by apply list_elem_of_further)) as (d' & s' & Hd' & Hs' & Hl').
      exists d', s'. split; [|done]. rewrite <- Hd'. apply lookup_insert_ne.
      intros Heq. apply Hn. rewrite Heq. apply (list_elem_of_fmap_2 (fun e => from_ e.2) _ _ He). }
  exists h'. cbn [commit_cells]. rewrite (commit_pair_same_size h p d s) by done. split; [done|]. split.
  - intros e [->|He]%elem_of_cons.
    + cbn. rewrite Hout by done. unfold h1. by rewrite lookup_insert_eq.
    + rewrite Hin by done. by apply Hto.
  - intros o Ho. apply not_elem_of_cons in Ho as [Ho1 Ho2].
    rewrite Hout by done. by apply lookup_insert_ne.
Qed.

(** Committing a write set copies every redirected object over its
    original and touches nothing else of the heap. *)
Theorem CommitChanges_spec m h :
  wf m -> committable h (entries m) ->
  exists h', CommitChanges m h = Some h'
    /\ (forall o loc r, GetMapping m o = Some loc -> deref m loc = Some r -> h' !! o = h !! r)
    /\ (forall o, GetMapping m o = None -> h' !! o = h !! o).
Proof.
  intros W C. destruct (commit_cells_spec h _ C) as (h' & Hc & Hin & Hout).
  exists h'. unfold CommitChanges. rewrite read_cells_wf by done. split; [done|]. split.
  - intros o loc r Hg Hd. rewrite GetMapping_entries in Hg by done.
    apply fmap_Some in Hg as ([l p] & He & ->). apply find_first_Some in He as [Hp Ho].
    unfold deref in Hd. cbn [fst] in Hd. rewrite (cell_at_entries _ _ _ W Hp) in Hd. injection Hd as <-.
    cbn in Ho. breflect. subst o. apply (Hin _ Hp).
  - intros o Hg. apply Hout. rewrite <- (GetMapping_is_Some m o W). rewrite Hg. by intros [].
Qed.

(** ** Witnesses *)

(** A table with one mapping. *)
Definition table1 (fresh : nat) (o r : Object) : CellMap :=
  match AddMapping fresh (CellMap_new 0) o r with Some (_, m) => m | None => CellMap_new 0 end.

Lemma wf_table1 fresh o r : wf (table1 fresh o r).
Proof.
  unfold table1. destruct (AddMapping_entries fresh (CellMap_new 0) o r) as (loc & m' & -> & W & _).
  - apply wf_new.
  - apply not_elem_of_nil.
  - done.
Qed.

Lemma entries_table1 fresh o r : entries (table1 fresh o r) = [((fresh, 0), mkCellPair o r)].
Proof. reflexivity. Qed.

Lemma AddMapping_spec_witness :
  exists loc m', AddMapping 9 (table1 7 5 9) 13 17 = Some (loc, m')
    /\ GetMapping m' 13 = Some loc /\ deref m' loc = Some 17%Z
    /\ cell_at m' (7, 0) = Some (mkCellPair 5 9).
Proof.
  destruct (AddMapping_spec 9 (table1 7 5 9) 13 17 (wf_table1 7 5 9))
    as (loc & m' & Ha & _ & Hg & Hd & _ & _ & Hold).
  - intros Hin. change (9 ∈ [7]) in Hin. by apply list_elem_of_singleton in Hin.
  - reflexivity.
  - exists loc, m'. split; [exact Ha|]. split; [exact Hg|]. split; [exact Hd|].
    apply (Hold (7, 0)). reflexivity.
Defined.

Lemma Iterate_GetMapping_witness :
  exists m', Iterate (fun (_ : unit) o => (tt, (o + 64)%Z)) (table1 7 5 9) tt = Some (m', tt)
    /\ GetMapping m' 69 = Some (7, 0) /\ deref m' (7, 0) = Some 73%Z.
Proof.
  destruct (Iterate_GetMapping (fun o => (o + 64)%Z) (table1 7 5 9) (wf_table1 7 5 9))
    as (m' & Hi & _ & Hg & Hd & _); [intros x y; lia|].
  exists m'. split; [exact Hi|]. split; [exact (Hg 5%Z)|]. apply (Hd (7, 0) 9%Z); reflexivity.
Defined.

Definition table1_heap : Heap := <[5%Z := [1%Z; 2%Z]]> {[9%Z := [1%Z; 3%Z]]}.

Lemma CommitChanges_spec_witness :
  exists h', CommitChanges (table1 7 5 9) table1_heap = Some h' /\ h' !! 5%Z = Some [1%Z; 3%Z].
Proof.
  destruct (CommitChanges_spec (table1 7 5 9) table1_heap (wf_table1 7 5 9))
    as (h' & Hc & Hm & _).
  - rewrite entries_table1. split.
    + apply NoDup_singleton.
    + intros e ->%list_elem_of_singleton H. by apply list_elem_of_singleton in H.
    + intros e ->%list_elem_of_singleton. by exists [1%Z; 2%Z], [1%Z; 3%Z].
  - exists h'. split; [exact Hc|]. apply (Hm 5%Z (7, 0) 9%Z); reflexivity.
Defined.
