(* ===== verification/Transaction.v ===== *)
(** * Transaction: read set, write set and the redirection of handles

    Models [ReadSet], [WriteSet] and [Transaction] of src/stm.cc, the type
    tests of src/objects-inl.h they use, and [Heap::CopyJSObject] of
    src/heap.cc.  The locks of a transaction are in the file GcProtocol; here a
    method is the effect it has when it runs to completion. *)

From S2P Require Import Prelude CellMap.

(** A [Handle<Object>]: its [location()] is either a cell of a [CellMap] or a
    cell elsewhere (handle scope, stack), which holds the given object. *)
Inductive Handle :=
  | HStack (o : Object)
  | HCell (loc : location).

#[export] Instance Handle_eq_dec : EqDecision Handle.
Proof. solve_decision. Defined.

(** ** Object kinds *)

(** [HAS_HEAP_OBJECT_TAG]: the two low bits of a heap pointer are 01. *)
Definition IsHeapObject (o : Object) : bool := (Z.land o 3 =? 1)%Z.

(** Values of [enum InstanceType] from [JS_FUNCTION_PROXY_TYPE] on, counted
    from the first type that is not a string. *)
Inductive InstanceType :=
  | NOT_JS_RECEIVER_TYPE
  | JS_FUNCTION_PROXY_TYPE
  | JS_PROXY_TYPE
  | JS_VALUE_TYPE
  | JS_OBJECT_TYPE
  | JS_CONTEXT_EXTENSION_OBJECT_TYPE
  | JS_GLOBAL_OBJECT_TYPE
  | JS_BUILTINS_OBJECT_TYPE
  | JS_GLOBAL_PROXY_TYPE
  | JS_ARRAY_TYPE
  | JS_WEAK_MAP_TYPE
  | JS_REGEXP_TYPE
  | JS_FUNCTION_TYPE.

(** The order of the enumeration; every type below the receivers is 0. *)
Definition type_order (t : InstanceType) : nat :=
  match t with
  | NOT_JS_RECEIVER_TYPE => 0
  | JS_FUNCTION_PROXY_TYPE => 1
  | JS_PROXY_TYPE => 2
  | JS_VALUE_TYPE => 3
  | JS_OBJECT_TYPE => 4
  | JS_CONTEXT_EXTENSION_OBJECT_TYPE => 5
  | JS_GLOBAL_OBJECT_TYPE => 6
  | JS_BUILTINS_OBJECT_TYPE => 7
  | JS_GLOBAL_PROXY_TYPE => 8
  | JS_ARRAY_TYPE => 9
  | JS_WEAK_MAP_TYPE => 10
  | JS_REGEXP_TYPE => 11
  | JS_FUNCTION_TYPE => 12
  end.

Definition FIRST_JS_OBJECT_TYPE := JS_VALUE_TYPE.

(** ** Read set and write set *)

(** [Get] of both sets: the argument [star] is [*obj]. *)
Definition set_Get (map_ : CellMap) (obj : Handle) (star : Object) : option Handle :=
  match obj with
  | HCell loc =>
      if IsMapped map_ loc then Some obj else HCell <$> GetMapping map_ star
  | HStack _ => HCell <$> GetMapping map_ star
  end.

Definition WriteSet_Get := set_Get.
Definition ReadSet_Get := set_Get.

Definition WriteSet_Add (fresh : nat) (map_ : CellMap) (star redirect : Object)
    : option (Handle * CellMap) :=
  '(loc, m) ← AddMapping fresh map_ star redirect; Some (HCell loc, m).

(** The handle points to the object itself. *)
Definition ReadSet_Add (fresh : nat) (map_ : CellMap) (star : Object)
    : option (Handle * CellMap) :=
  '(loc, m) ← AddMapping fresh map_ star star; Some (HCell loc, m).

(** ** Transactions *)

Record Transaction := mkTransaction {
  aborted_ : bool;
  read_set_ : CellMap;
  write_set_ : CellMap;
  pending_exception : bool;
  pending_message : bool
}.

Definition Transaction_new (junk : nat) : Transaction :=
  mkTransaction false (CellMap_new junk) (CellMap_new junk) false false.

Definition Abort (t : Transaction) : Transaction :=
  mkTransaction true (read_set_ t) (write_set_ t) (pending_exception t) (pending_message t).

Definition IsAborted (t : Transaction) : bool := aborted_ t.

Definition ClearExceptions (t : Transaction) : Transaction :=
  mkTransaction (aborted_ t) (read_set_ t) (write_set_ t) false false.

Definition set_read_set (t : Transaction) (m : CellMap) : Transaction :=
  mkTransaction (aborted_ t) m (write_set_ t) (pending_exception t) (pending_message t).

Definition set_write_set (t : Transaction) (m : CellMap) : Transaction :=
  mkTransaction (aborted_ t) (read_set_ t) m (pending_exception t) (pending_message t).

(** [*obj]: a cell belongs to one of the two sets. *)
Definition star (t : Transaction) (obj : Handle) : option Object :=
  match obj with
  | HStack o => Some o
  | HCell loc =>
      if IsMapped (write_set_ t) loc then deref (write_set_ t) loc else deref (read_set_ t) loc
  end.

Section Redirect.
(** [instance_type o]: the type found in the map of the heap object [o]. *)
Context (instance_type : Object -> InstanceType).

Definition IsJSObject (o : Object) : bool :=
  IsHeapObject o && (type_order FIRST_JS_OBJECT_TYPE <=? type_order (instance_type o)).

Definition IsJSFunction (o : Object) : bool :=
  IsHeapObject o && (type_order (instance_type o) =? type_order JS_FUNCTION_TYPE).

(** What [RedirectLoad] and [RedirectStore] give back: the handle, the value
    [*terminate] is set to, and the transaction. *)
Record Redirected := mkRedirected {
  rd_handle : Handle;
  rd_terminate : bool;
  rd_trans : Transaction
}.

Definition RedirectLoad (fresh : nat) (t : Transaction) (obj : Handle) (terminate : bool)
    : option Redirected :=
  o ← star t obj;
  if negb (IsJSObject o) || IsJSFunction o then Some (mkRedirected obj terminate t)
  else if aborted_ t then Some (mkRedirected obj true t)
  else
    match WriteSet_Get (write_set_ t) obj o with
    | Some redirect => Some (mkRedirected redirect terminate t)
    | None =>
        match ReadSet_Get (read_set_ t) obj o with
        | Some redirect => Some (mkRedirected redirect terminate t)
        | None =>
            '(h, m) ← ReadSet_Add fresh (read_set_ t) o;
            Some (mkRedirected h terminate (set_read_set t m))
        end
    end.

(** [CreateCopy] returns the copy and the heap it is allocated in, [None] when
    there is no memory for it even after collections: then the process dies in
    [FATAL], so nothing after it in the source runs. *)
Context (CreateCopy : Heap -> Object -> option (Object * Heap)).

Definition RedirectStore (fresh : nat) (h : Heap) (t : Transaction) (obj : Handle)
    (terminate : bool) : option (Redirected * Heap) :=
  o ← star t obj;
  if negb (IsJSObject o) || IsJSFunction o then Some (mkRedirected obj terminate t, h)
  else if aborted_ t then Some (mkRedirected obj true t, h)
  else
    match WriteSet_Get (write_set_ t) obj o with
    | Some redirect => Some (mkRedirected redirect terminate t, h)
    | None =>
        '(copy, h') ← CreateCopy h o;
        '(hd, m) ← WriteSet_Add fresh (write_set_ t) o copy;
        Some (mkRedirected hd terminate (set_write_set t m), h')
    end.
End Redirect.

Definition CommitHeap (t : Transaction) (h : Heap) : option Heap :=
  CommitChanges (write_set_ t) h.

(** [this->HasConflicts(other)]. *)
Definition HasConflicts (this other : Transaction) : option bool :=
  r ← Intersects (read_set_ this) (write_set_ other);
  if (r : bool) then Some true else Intersects (write_set_ this) (write_set_ other).

Definition Transaction_Iterate {VS} (visit : VS -> Object -> VS * Object)
    (t : Transaction) (v : VS) : option (Transaction * VS) :=
  '(r, v1) ← Iterate visit (read_set_ t) v;
  '(w, v2) ← Iterate visit (write_set_ t) v1;
  Some (mkTransaction (aborted_ t) r w (pending_exception t) (pending_message t), v2).

(** ** [Heap::CopyJSObject] *)

Section CopyJSObject.
(** [AllocateRaw h n]: the address of [n] new words, [None] when the space is
    exhausted.  [fixed_cow_array_map] is the map of copy-on-write arrays. *)
Context (AllocateRaw : Heap -> nat -> option Object) (fixed_cow_array_map : Z).

(** Word indexes of a JSObject ([kPropertiesOffset], [kElementsOffset]) and of
    an array ([kMapOffset], [kLengthOffset]; the length is a smi). *)
Definition kPropertiesIndex := 1.
Definition kElementsIndex := 2.
Definition array_map (ws : list Z) : option Z := ws !! 0.
Definition array_length (ws : list Z) : option Z := (fun w => Z.shiftr w 1) <$> ws !! 1.

(** [CopyFixedArray] and [CopyFixedDoubleArray]: all words, the map included. *)
Definition CopyFixedArray (h : Heap) (src : Object) : option (Object * Heap) :=
  ws ← h !! src; dst ← AllocateRaw h (length ws); Some (dst, <[dst := ws]> h).

(** The array the clone gets for its elements: the source's own one when it is
    empty or copy-on-write, else a copy. *)
Definition clone_elements (h : Heap) (elements : Object) : option (Object * Heap) :=
  ews ← h !! elements;
  elen ← array_length ews;
  if (0 <? elen)%Z then
    if bool_decide (array_map ews = Some fixed_cow_array_map) then Some (elements, h)
    else CopyFixedArray h elements
  else Some (elements, h).

Definition clone_properties (h : Heap) (properties : Object) : option (Object * Heap) :=
  pws ← h !! properties;
  plen ← array_length pws;
  if (0 <? plen)%Z then CopyFixedArray h properties else Some (properties, h).

Definition CopyJSObject (h : Heap) (source : Object) : option (Object * Heap) :=
  ws ← h !! source;
  clone ← AllocateRaw h (length ws);
  let h1 := <[clone := ws]> h in
  elements ← ws !! kElementsIndex;
  properties ← ws !! kPropertiesIndex;
  '(elem, h2) ← clone_elements h1 elements;
  '(prop, h3) ← clone_properties h2 properties;
  Some (clone, <[clone := <[kPropertiesIndex := prop]> (<[kElementsIndex := elem]> ws)]> h3).
End CopyJSObject.

(** ** Well-formed transactions *)

Definition block_addrs (t : Transaction) : list nat :=
  (block_addr <$> blocks (read_set_ t)) ++ (block_addr <$> blocks (write_set_ t)).

Record twf (t : Transaction) : Prop := {
  twf_read : wf (read_set_ t);
  twf_write : wf (write_set_ t);
  twf_addrs : NoDup (block_addrs t)
}.

Lemma twf_new junk : twf (Transaction_new junk).
Proof. split; [apply wf_new|apply wf_new|constructor]. Qed.

Lemma NoDup_app_snoc {A} (l1 l2 l2' : list A) x :
  NoDup (l1 ++ l2) -> NoDup l2' -> x ∉ l1 ++ l2 ->
  (forall a, a ∈ l2' -> a ∈ l2 \/ a = x) -> NoDup (l1 ++ l2').
Proof.
  intros (H1 & H2 & _)%list.NoDup_app Hn Hx Hs. apply list.NoDup_app. split; [done|].
  split; [|done]. intros a Ha Ha'. destruct (Hs a Ha') as [Hin| ->]; [by eapply H2|].
  apply Hx, elem_of_app. by left.
Qed.

(** A location mapped by one set is not mapped by the other. *)
Lemma mapped_block m loc : wf m -> IsMapped m loc = true -> loc.1 ∈ block_addr <$> blocks m.
Proof.
  intros W H. apply IsMapped_entries in H; [|done].
  apply list_elem_of_fmap in H as ([l p] & -> & Hin). apply elem_of_entries in Hin.
  apply elem_of_walk in Hin as (b & Hb & Ha & _). cbn. rewrite Ha. by apply list_elem_of_fmap_2.
Qed.

Lemma sets_disjoint t loc :
  twf t -> IsMapped (read_set_ t) loc = true -> IsMapped (write_set_ t) loc = false.
Proof.
  intros [Wr Ww Hnd] Hr. destruct (IsMapped (write_set_ t) loc) eqn:Hw; [|done].
  apply list.NoDup_app in Hnd as (_ & Hd & _).
  destruct (Hd loc.1); by apply mapped_block.
Qed.

Lemma star_write t loc :
  IsMapped (write_set_ t) loc = true -> star t (HCell loc) = deref (write_set_ t) loc.
Proof. intros H. cbn. by rewrite H. Qed.

Lemma star_read t loc :
  twf t -> IsMapped (read_set_ t) loc = true -> star t (HCell loc) = deref (read_set_ t) loc.
Proof. intros W H. cbn. by rewrite (sets_disjoint t loc W H). Qed.

(** A lookup with a handle whose own cell is not one of the set's goes by the
    object it points to. *)
Lemma set_Get_foreign m obj o :
  (forall loc, obj = HCell loc -> IsMapped m loc = false) ->
  set_Get m obj o = HCell <$> GetMapping m o.
Proof. intros H. destruct obj as [|loc]; cbn; [done|]. by rewrite H. Qed.

Lemma set_Get_own m loc o : IsMapped m loc = true -> set_Get m (HCell loc) o = Some (HCell loc).
Proof. intros H. cbn. by rewrite H. Qed.

(** [set_Get] finds something exactly when the handle or its object is known. *)
Lemma set_Get_None m obj o :
  set_Get m obj o = None ->
  GetMapping m o = None /\ (forall loc, obj = HCell loc -> IsMapped m loc = false).
Proof.
  destruct obj as [o'|loc]; cbn.
  - intros H. split; [by destruct (GetMapping m o)|done].
  - destruct (IsMapped m loc) eqn:E; [done|]. intros H. split; [by destruct (GetMapping m o)|].
    by intros ? [= ->].
Qed.

Section Properties.
Context (instance_type : Object -> InstanceType).
Context (CreateCopy : Heap -> Object -> option (Object * Heap)).

(** The objects the STM redirects. *)
Definition plain_object (o : Object) : Prop :=
  IsJSObject instance_type o = true /\ IsJSFunction instance_type o = false.

Lemma plain_guard o :
  plain_object o -> negb (IsJSObject instance_type o) || IsJSFunction instance_type o = false.
Proof. by intros [-> ->]. Qed.

(** C2: the first store to a plain object makes one copy, and the handle given
    back is a new write-set cell that holds it.  From then on, while the
    transaction is not aborted, every load and store through any handle to the
    object, or through the redirected handle itself, gives back that same cell
    and changes neither the transaction nor the heap: a transaction sees its
    own writes and copies an object once. *)
Theorem RedirectStore_spec fresh h t obj o tm copy h' :
  twf t -> fresh ∉ block_addrs t -> aborted_ t = false ->
  star t obj = Some o -> plain_object o -> WriteSet_Get (write_set_ t) obj o = None ->
  CreateCopy h o = Some (copy, h') -> plain_object copy ->
  exists loc t',
    RedirectStore instance_type CreateCopy fresh h t obj tm
      = Some (mkRedirected (HCell loc) tm t', h')
    /\ twf t' /\ read_set_ t' = read_set_ t /\ star t' (HCell loc) = Some copy
    /\ (forall obj' tm' fresh' h0,
          obj' = HStack o \/ obj' = HCell loc ->
          RedirectStore instance_type CreateCopy fresh' h0 t' obj' tm'
            = Some (mkRedirected (HCell loc) tm' t', h0)
          /\ RedirectLoad instance_type fresh' t' obj' tm'
            = Some (mkRedirected (HCell loc) tm' t')).
Proof.
  intros W Hf Hab Hst Hp Hg Hc Hpc. apply set_Get_None in Hg as Hg'. destruct Hg' as [Hg' _].
  assert (Hfw : fresh ∉ block_addr <$> blocks (write_set_ t))
    by (intros Hx; apply Hf, elem_of_app; by right).
  destruct (AddMapping_entries fresh _ o copy (twf_write t W) Hfw)
    as (loc & m & Ha & Wm & He & Hba).
  exists loc, (set_write_set t m).
  assert (Hin : (loc, mkCellPair o copy) ∈ entries m)
    by (rewrite He; apply elem_of_app; right; by apply list_elem_of_singleton).
  assert (Hmap : IsMapped m loc = true)
    by (apply IsMapped_entries; [done|]; apply (list_elem_of_fmap_2 fst _ _ Hin)).
  assert (Hgm : GetMapping m o = Some loc).
  { rewrite GetMapping_entries in * by (done || apply W). unfold first_from in *.
    rewrite He, find_first_app. destruct (find_first _ (entries (write_set_ t))); [done|].
    cbn. by rewrite Z.eqb_refl. }
  assert (Hs' : star (set_write_set t m) (HCell loc) = Some copy).
  { rewrite star_write by done. cbn. unfold deref. by rewrite (cell_at_entries _ _ _ Wm Hin). }
  split; [|split; [|split; [done|split; [done|]]]].
  - unfold RedirectStore. rewrite Hst. cbn. rewrite plain_guard, Hab, Hg, Hc by done. cbn.
    unfold WriteSet_Add. by rewrite Ha.
  - split; [apply W|done|]. unfold block_addrs; cbn.
    apply (NoDup_app_snoc _ _ _ fresh (twf_addrs t W)); [apply Wm|done|done].
  - intros obj' tm' fresh' h0 [-> | ->]; unfold RedirectStore, RedirectLoad;
      [cbn [star]|rewrite Hs']; cbn; rewrite plain_guard, Hab by done.
    + unfold WriteSet_Get, set_Get. by rewrite Hgm.
    + unfold WriteSet_Get, set_Get. by rewrite Hmap.
Qed.

(** The first load of a plain object that the transaction has not written
    enters it in the read set, in a new cell that holds the object itself; the
    write set is untouched, and loading the object again, or through the new
    handle, gives back the same cell and changes nothing. *)
Theorem RedirectLoad_spec fresh t obj o tm :
  twf t -> fresh ∉ block_addrs t -> aborted_ t = false ->
  star t obj = Some o -> plain_object o ->
  WriteSet_Get (write_set_ t) obj o = None -> ReadSet_Get (read_set_ t) obj o = None ->
  exists loc t',
    RedirectLoad instance_type fresh t obj tm = Some (mkRedirected (HCell loc) tm t')
    /\ twf t' /\ write_set_ t' = write_set_ t /\ star t' (HCell loc) = Some o
    /\ entries (read_set_ t') = entries (read_set_ t) ++ [(loc, mkCellPair o o)]
    /\ (forall obj' tm' fresh', obj' = HStack o \/ obj' = HCell loc ->
          RedirectLoad instance_type fresh' t' obj' tm' = Some (mkRedirected (HCell loc) tm' t')).
Proof.
  intros W Hf Hab Hst Hp Hgw Hgr.
  apply set_Get_None in Hgw as Hgw'. destruct Hgw' as [Hgw' _].
  apply set_Get_None in Hgr as Hgr'. destruct Hgr' as [Hgr' _].
  assert (Hfr : fresh ∉ block_addr <$> blocks (read_set_ t))
    by (intros Hx; apply Hf, elem_of_app; by left).
  destruct (AddMapping_entries fresh _ o o (twf_read t W) Hfr)
    as (loc & m & Ha & Wm & He & Hba).
  exists loc, (set_read_set t m).
  assert (Hin : (loc, mkCellPair o o) ∈ entries m)
    by (rewrite He; apply elem_of_app; right; by apply list_elem_of_singleton).
  assert (Hmap : IsMapped m loc = true)
    by (apply IsMapped_entries; [done|]; apply (list_elem_of_fmap_2 fst _ _ Hin)).
  assert (Hgm : GetMapping m o = Some loc).
  { rewrite GetMapping_entries in * by (done || apply W). unfold first_from in *.
    rewrite He, find_first_app. destruct (find_first _ (entries (read_set_ t))); [done|].
    cbn. by rewrite Z.eqb_refl. }
  assert (Wt : twf (set_read_set t m)).
  { split; [done|apply W|]. unfold block_addrs; cbn. pose proof (twf_addrs t W) as Hnd.
    rewrite Permutation_app_comm. unfold block_addrs in *. rewrite Permutation_app_comm in Hnd.
    apply (NoDup_app_snoc _ _ _ fresh Hnd); [apply Wm| |done].
    intros Hx. apply Hf. by rewrite Permutation_app_comm. }
  assert (Hs' : star (set_read_set t m) (HCell loc) = Some o).
  { rewrite star_read by done. cbn. unfold deref. by rewrite (cell_at_entries _ _ _ Wm Hin). }
  split; [|split; [done|split; [done|split; [done|split; [done|]]]]].
  - unfold RedirectLoad. rewrite Hst. cbn. rewrite plain_guard, Hab, Hgw, Hgr by done. cbn.
    unfold ReadSet_Add. by rewrite Ha.
  - pose proof (sets_disjoint _ loc Wt Hmap) as Hnw. cbn in Hnw.
    intros obj' tm' fresh' [-> | ->]; unfold RedirectLoad; [cbn [star]|rewrite Hs'];
      cbn; rewrite plain_guard, Hab by done; unfold WriteSet_Get, ReadSet_Get, set_Get.
    + by rewrite Hgw', Hgm.
    + by rewrite Hnw, Hgw', Hmap.
Qed.

(** A handle to anything but a plain object (smis, strings, proxies,
    functions) goes through untouched and [*terminate] keeps its value, even in
    an aborted transaction; for a plain object an aborted transaction sets
    [*terminate] and gives back the handle it was given.  In both cases neither
    the sets nor the heap change. *)
Theorem Redirect_bypass fresh h t obj o tm :
  star t obj = Some o -> ~ plain_object o \/ aborted_ t = true ->
  let tm' := tm || (bool_decide (aborted_ t = true) && IsJSObject instance_type o
                    && negb (IsJSFunction instance_type o)) in
  RedirectLoad instance_type fresh t obj tm = Some (mkRedirected obj tm' t)
  /\ RedirectStore instance_type CreateCopy fresh h t obj tm = Some (mkRedirected obj tm' t, h).
Proof.
  intros Hst Hc. cbn zeta. unfold RedirectLoad, RedirectStore. rewrite Hst. cbn.
  destruct (IsJSObject instance_type o) eqn:Ho, (IsJSFunction instance_type o) eqn:Hfn;
    cbn; rewrite ?andb_false_r, ?andb_true_r, ?orb_false_r; cbn; try done.
  destruct Hc as [Hn|Ha]; [by destruct Hn|]. by rewrite Ha, orb_true_r.
Qed.
End Properties.

(** [HasConflicts(other)] answers whether [other] wrote an object that
    this transaction read or wrote. *)
Theorem HasConflicts_spec this other :
  twf this -> twf other ->
  exists r, HasConflicts this other = Some r
    /\ (r = true <-> exists o, is_Some (GetMapping (write_set_ other) o)
          /\ (is_Some (GetMapping (read_set_ this) o) \/ is_Some (GetMapping (write_set_ this) o))).
Proof.
  intros Wt Wo. unfold HasConflicts.
  destruct (Intersects_spec _ _ (twf_read this Wt) (twf_write other Wo)) as (r1 & -> & H1).
  destruct (Intersects_spec _ _ (twf_write this Wt) (twf_write other Wo)) as (r2 & E2 & H2).
  cbn. destruct r1.
  - exists true. split; [done|]. split; [|done]. intros _.
    destruct (proj1 H1 eq_refl) as (o & ? & ?). exists o. auto.
  - exists r2. split; [done|]. rewrite H2. split.
    + intros (o & ? & ?). exists o. auto.
    + intros (o & Hw & [Hr|Hw']); [|by exists o]. by assert (false = true) by (apply H1; by exists o).
Qed.

Section CopyJSObjectSpec.
Context (AllocateRaw : Heap -> nat -> option Object) (fixed_cow_array_map : Z).

(** An allocator gives memory that is not in use. *)
Hypothesis AllocateRaw_fresh : forall h n a, AllocateRaw h n = Some a -> h !! a = None.

Lemma CopyFixedArray_spec h src ws dst h' :
  h !! src = Some ws -> CopyFixedArray AllocateRaw h src = Some (dst, h') ->
  h !! dst = None /\ h' = <[dst := ws]> h.
Proof.
  intros Hs. unfold CopyFixedArray. rewrite Hs. cbn.
  destruct (AllocateRaw h (length ws)) as [a|] eqn:E; cbn; [|done].
  intros [= <- <-]. split; [by eapply AllocateRaw_fresh|done].
Qed.

(** [h'] holds everything [h] holds. *)
Definition extends (h h' : Heap) : Prop := forall o ws, h !! o = Some ws -> h' !! o = Some ws.

Lemma extends_refl h : extends h h.
Proof. by intros o ws H. Qed.

Lemma extends_trans h1 h2 h3 : extends h1 h2 -> extends h2 h3 -> extends h1 h3.
Proof. intros H1 H2 o ws H. by apply H2, H1. Qed.

Lemma extends_fresh h o ws : h !! o = None -> extends h (<[o := ws]> h).
Proof. intros Hn o' ws' H. rewrite lookup_insert_ne; [done|]. intros ->. congruence. Qed.

Lemma fresh_extends h h' o : extends h h' -> h' !! o = None -> h !! o = None.
Proof. intros He Hn. destruct (h !! o) eqn:E; [|done]. apply He in E. congruence. Qed.

Lemma CopyFixedArray_clone h src ws dst h' :
  h !! src = Some ws -> CopyFixedArray AllocateRaw h src = Some (dst, h') ->
  extends h h' /\ h' !! dst = Some ws /\ h !! dst = None.
Proof.
  intros Hs Hc. destruct (CopyFixedArray_spec _ _ _ _ _ Hs Hc) as [Hn ->].
  split; [by apply extends_fresh|]. split; [apply lookup_insert_eq|done].
Qed.

Lemma clone_elements_spec h elements ews elen e' h' :
  h !! elements = Some ews -> array_length ews = Some elen ->
  clone_elements AllocateRaw fixed_cow_array_map h elements = Some (e', h') ->
  extends h h' /\ h' !! e' = Some ews /\ (e' = elements \/ h !! e' = None)
  /\ ((0 < elen)%Z -> array_map ews <> Some fixed_cow_array_map -> h !! e' = None).
Proof.
  intros He Hl. unfold clone_elements. rewrite He. cbn. rewrite Hl. cbn.
  destruct (Z.ltb_spec 0 elen); [case_bool_decide|].
  - intros [= <- <-]. split; [apply extends_refl|]. split; [done|]. split; [by left|congruence].
  - intros Hc. destruct (CopyFixedArray_clone _ _ _ _ _ He Hc) as (? & ? & ?). auto.
  - intros [= <- <-]. split; [apply extends_refl|]. split; [done|]. split; [by left|lia].
Qed.

Lemma clone_properties_spec h properties pws plen p' h' :
  h !! properties = Some pws -> array_length pws = Some plen ->
  clone_properties AllocateRaw h properties = Some (p', h') ->
  extends h h' /\ h' !! p' = Some pws /\ (p' = properties \/ h !! p' = None)
  /\ ((0 < plen)%Z -> h !! p' = None).
Proof.
  intros He Hl. unfold clone_properties. rewrite He. cbn. rewrite Hl. cbn.
  destruct (Z.ltb_spec 0 plen).
  - intros Hc. destruct (CopyFixedArray_clone _ _ _ _ _ He Hc) as (? & ? & ?). auto.
  - intros [= <- <-]. split; [apply extends_refl|]. split; [done|]. split; [by left|lia].
Qed.

(** [CopyJSObject] makes an object that shares no mutable storage with its
    source: a new object of the same size and the same words, except that a
    non-empty properties array, and a non-empty elements array unless it is
    copy-on-write, are replaced by new arrays with the same content.  Nothing
    that was in the heap changes. *)
Theorem CopyJSObject_spec h source ws elements properties ews pws elen plen clone h' :
  h !! source = Some ws ->
  ws !! kElementsIndex = Some elements -> ws !! kPropertiesIndex = Some properties ->
  h !! elements = Some ews -> h !! properties = Some pws ->
  array_length ews = Some elen -> array_length pws = Some plen ->
  CopyJSObject AllocateRaw fixed_cow_array_map h source = Some (clone, h') ->
  exists ws' elements' properties',
    h !! clone = None /\ h' !! clone = Some ws' /\ extends h h'
    /\ ws' = <[kPropertiesIndex := properties']> (<[kElementsIndex := elements']> ws)
    /\ h' !! elements' = Some ews /\ h' !! properties' = Some pws
    /\ ((0 < elen)%Z -> array_map ews <> Some fixed_cow_array_map -> h !! elements' = None)
    /\ ((0 < plen)%Z -> h !! properties' = None).
Proof.
  intros Hs He Hp Hew Hpw Hel Hpl. unfold CopyJSObject. rewrite Hs. cbn [mbind option_bind].
  destruct (AllocateRaw h (length ws)) as [c|] eqn:Ec; [|done].
  apply AllocateRaw_fresh in Ec. cbn [mbind option_bind]. rewrite He, Hp. cbn [mbind option_bind].
  pose proof (extends_fresh h c ws Ec) as X1. set (h1 := <[c := ws]> h) in *.
  destruct (clone_elements _ _ h1 elements) as [[e' h2]|] eqn:E2; [|done].
  destruct (clone_elements_spec _ _ _ _ _ _ (X1 _ _ Hew) Hel E2) as (X2 & He2 & Hd2 & Hf2).
  cbn [mbind option_bind].
  destruct (clone_properties _ h2 properties) as [[p' h3]|] eqn:E3; [|done].
  destruct (clone_properties_spec _ _ _ _ _ _ (X2 _ _ (X1 _ _ Hpw)) Hpl E3)
    as (X3 & Hp3 & Hd3 & Hf3).
  intros [= <- <-]. exists (<[kPropertiesIndex:=p']> (<[kElementsIndex:=e']> ws)), e', p'.
  assert (Hold : forall a x, h !! a = Some x -> a <> c) by (intros a x Ha ->; congruence).
  assert (Hc1 : h1 !! c = Some ws) by apply lookup_insert_eq.
  assert (Hec : e' <> c) by (destruct Hd2 as [->|Hn]; [by eapply Hold|intros ->; congruence]).
  assert (Hpc : p' <> c).
  { destruct Hd3 as [->|Hn]; [by eapply Hold|intros ->]. apply X2 in Hc1. congruence. }
  split; [done|]. split; [apply lookup_insert_eq|]. split; [|split; [done|]].
  - intros o w Ho. rewrite lookup_insert_ne by (intros ->; congruence). by apply X3, X2, X1.
  - rewrite !lookup_insert_ne by done. split; [by apply X3|]. split; [done|]. split.
    + intros H1 H2. by apply (fresh_extends h h1), Hf2.
    + intros H1. apply (fresh_extends h h2); [|by apply Hf3]. by apply (extends_trans _ h1).
Qed.
End CopyJSObjectSpec.

(** ** Witnesses *)

(** Object 5 is a JSObject, 9 a function, everything else is no receiver. *)
Definition wt_type (o : Object) : InstanceType :=
  if (o =? 5)%Z then JS_OBJECT_TYPE else if (o =? 9)%Z then JS_FUNCTION_TYPE
  else if (o =? 101)%Z then JS_OBJECT_TYPE else NOT_JS_RECEIVER_TYPE.

Definition wt_heap : Heap := <[5%Z := [1%Z; 13%Z; 17%Z; 6%Z]]>
  (<[13%Z := [2%Z; 0%Z]]> {[17%Z := [2%Z; 4%Z; 8%Z; 8%Z]]}).

Definition wt_copy (h : Heap) (o : Object) : option (Object * Heap) :=
  ws ← h !! o; Some (101%Z, <[101%Z := ws]> h).

Lemma wt_fresh f : f ∉ block_addrs (Transaction_new 0).
Proof. apply not_elem_of_nil. Qed.

Lemma RedirectStore_spec_witness :
  exists loc t' h',
    RedirectStore wt_type wt_copy 3 wt_heap (Transaction_new 0) (HStack 5) false
      = Some (mkRedirected (HCell loc) false t', h')
    /\ star t' (HCell loc) = Some 101%Z
    /\ RedirectLoad wt_type 4 t' (HStack 5) false = Some (mkRedirected (HCell loc) false t').
Proof.
  destruct (RedirectStore_spec wt_type wt_copy 3 wt_heap (Transaction_new 0) (HStack 5) 5 false
              101 (<[101%Z := [1%Z; 13%Z; 17%Z; 6%Z]]> wt_heap))
    as (loc & t' & Hs & _ & _ & Hst & Hagain); try reflexivity.
  - apply twf_new.
  - apply wt_fresh.
  - split; reflexivity.
  - split; reflexivity.
  - exists loc, t', (<[101%Z := [1%Z; 13%Z; 17%Z; 6%Z]]> wt_heap).
    split; [exact Hs|]. split; [exact Hst|].
    apply (Hagain (HStack 5) false 4 wt_heap (or_introl eq_refl)).
Defined.

Lemma RedirectLoad_spec_witness :
  exists loc t',
    RedirectLoad wt_type 3 (Transaction_new 0) (HStack 5) false
      = Some (mkRedirected (HCell loc) false t')
    /\ star t' (HCell loc) = Some 5%Z.
Proof.
  destruct (RedirectLoad_spec wt_type 3 (Transaction_new 0) (HStack 5) 5 false)
    as (loc & t' & Hl & _ & _ & Hst & _); try reflexivity.
  - apply twf_new.
  - apply wt_fresh.
  - split; reflexivity.
  - exists loc, t'. split; [exact Hl|exact Hst].
Defined.

Lemma Redirect_bypass_witness :
  RedirectLoad wt_type 3 (Abort (Transaction_new 0)) (HStack 5) false
    = Some (mkRedirected (HStack 5) true (Abort (Transaction_new 0)))
  /\ RedirectStore wt_type wt_copy 3 wt_heap (Transaction_new 0) (HStack 9) false
    = Some (mkRedirected (HStack 9) false (Transaction_new 0), wt_heap).
Proof.
  split.
  - apply (Redirect_bypass wt_type wt_copy 3 wt_heap (Abort (Transaction_new 0)) (HStack 5) 5 false
             eq_refl (or_intror eq_refl)).
  - apply (Redirect_bypass wt_type wt_copy 3 wt_heap (Transaction_new 0) (HStack 9) 9 false).
    + reflexivity.
    + left. intros [_ H]. discriminate.
Defined.

(** A reader and a writer of object 5. *)
Definition wt_reader : Transaction := set_read_set (Transaction_new 0) (table1 7 5 5).
Definition wt_writer : Transaction := set_write_set (Transaction_new 0) (table1 8 5 101).

Lemma HasConflicts_spec_witness :
  twf wt_reader /\ twf wt_writer /\ HasConflicts wt_reader wt_writer = Some true.
Proof.
  assert (Hr : twf wt_reader) by (split; [apply wf_table1|apply wf_new|apply NoDup_singleton]).
  assert (Hw : twf wt_writer) by (split; [apply wf_new|apply wf_table1|apply NoDup_singleton]).
  destruct (HasConflicts_spec wt_reader wt_writer Hr Hw) as (r & E & Hc).
  split; [exact Hr|split; [exact Hw|]]. rewrite E. f_equal. apply Hc.
  exists 5%Z. split; [|left]; by eexists.
Defined.

(** An allocator that hands out the address after all others. *)
Definition wt_alloc (h : Heap) (n : nat) : option Object :=
  Some (map_fold (fun o _ m => Z.max m (o + 4)%Z) 101%Z h).

Lemma wt_alloc_fresh h n a : wt_alloc h n = Some a -> h !! a = None.
Proof.
  unfold wt_alloc. intros [= <-].
  enough (H : forall o w, h !! o = Some w -> (o < map_fold (fun o _ m => Z.max m (o + 4)) 101 h)%Z).
  { destruct (h !! _) as [w|] eqn:E; [|done]. apply H in E. lia. }
  apply (map_fold_weak_ind (fun r h => forall o w, h !! o = Some w -> (o < r)%Z)).
  - intros o w H. by apply lookup_empty_Some in H.
  - intros i x m r _ IH o w. rewrite lookup_insert. case_decide as Hd.
    + intros _. lia.
    + intros H. apply IH in H. lia.
Qed.

Lemma CopyJSObject_spec_witness :
  exists clone h' ws' elements' properties',
    CopyJSObject wt_alloc 99 wt_heap 5 = Some (clone, h')
    /\ h' !! clone = Some ws' /\ ws' = [1%Z; properties'; elements'; 6%Z]
    /\ h' !! elements' = Some [2%Z; 4%Z; 8%Z; 8%Z] /\ wt_heap !! elements' = None.
Proof.
  destruct (CopyJSObject wt_alloc 99 wt_heap 5) as [[clone h']|] eqn:E; [|by vm_compute in E].
  destruct (CopyJSObject_spec wt_alloc 99 wt_alloc_fresh wt_heap 5 [1%Z; 13%Z; 17%Z; 6%Z] 17 13
              [2%Z; 4%Z; 8%Z; 8%Z] [2%Z; 0%Z] 2 0 clone h')
    as (ws' & e' & p' & _ & Hc & _ & Hw & He & _ & Hf & _); try reflexivity.
  - exact E.
  - exists clone, h', ws', e', p'. split; [reflexivity|]. split; [exact Hc|]. split; [exact Hw|].
    split; [exact He|]. apply Hf; [lia|discriminate].
Defined.
