(* ===== verification/RedirectTable.v ===== *)
(** * RedirectTable: what the STM needs of a CellMap

    [ReadSet] and [WriteSet] of src/stm.cc use a [CellMap] only as a table from
    heap objects to the objects they are redirected to.  The class states that
    promise; the instance discharges it for the block-allocated [CellMap].  The
    concurrent model of the file Stm is proved against the class. *)

From S2P Require Import Prelude CellMap.

Class RedirectTable (M : Type) := {
  rt_new : M;
  rt_get : M -> Object -> option Object;
  rt_add : M -> Object -> Object -> M;
  rt_intersects : M -> M -> bool;
  rt_entries : M -> list (Object * Object);
  rt_wf : M -> Prop
}.

Class RedirectTableLaws (M : Type) `{!RedirectTable M} : Prop := {
  rt_wf_new : rt_wf rt_new;
  rt_get_new o : rt_get rt_new o = None;
  rt_wf_add m o r : rt_wf m -> rt_get m o = None -> rt_wf (rt_add m o r);
  rt_get_add m o r o' : rt_wf m -> rt_get m o = None ->
    rt_get (rt_add m o r) o' = if decide (o = o') then Some r else rt_get m o';
  rt_intersects_spec m1 m2 : rt_wf m1 -> rt_wf m2 ->
    rt_intersects m1 m2 = true
    <-> exists o, is_Some (rt_get m1 o) /\ is_Some (rt_get m2 o);
  rt_entries_spec m o r : rt_wf m -> (o, r) ∈ rt_entries m <-> rt_get m o = Some r
}.

Create HintDb redirect.
#[export] Hint Resolve rt_wf_new rt_wf_add : redirect.

(** ** The instance for CellMap *)

Definition cm_get (m : CellMap) (o : Object) : option Object :=
  loc ← GetMapping m o; deref m loc.

(** [malloc] gives an address that no block of the table has. *)
Definition cm_malloc (m : CellMap) : nat := fresh (block_addr <$> blocks m).

Definition cm_add (m : CellMap) (o r : Object) : CellMap :=
  match AddMapping (cm_malloc m) m o r with Some (_, m') => m' | None => m end.

Definition cm_intersects (m1 m2 : CellMap) : bool :=
  match Intersects m1 m2 with Some b => b | None => false end.

Definition cm_entries (m : CellMap) : list (Object * Object) :=
  (fun e => (from_ e.2, to_ e.2)) <$> entries m.

(** A table never maps an object twice. *)
Definition cm_wf (m : CellMap) : Prop := wf m /\ NoDup (froms (entries m)).

#[export] Instance CellMap_table : RedirectTable CellMap := {
  rt_new := CellMap_new 0;
  rt_get := cm_get;
  rt_add := cm_add;
  rt_intersects := cm_intersects;
  rt_entries := cm_entries;
  rt_wf := cm_wf
}.

Lemma cm_get_entries m o :
  wf m -> cm_get m o = to_ ∘ snd <$> first_from o (entries m).
Proof.
  intros W. unfold cm_get. rewrite GetMapping_entries by done.
  destruct (first_from o (entries m)) as [[loc p]|] eqn:E; [|done]. cbn.
  apply find_first_Some in E as [Hin _]. unfold deref.
  by rewrite (cell_at_entries _ _ _ W Hin).
Qed.

Lemma first_from_unique es e :
  NoDup (froms es) -> e ∈ es -> first_from (from_ e.2) es = Some e.
Proof.
  unfold first_from. induction es as [|e0 es IH]; [by intros _ ?%not_elem_of_nil|].
  rewrite fmap_cons. intros [Hn Hnd]%NoDup_cons [->|Hin]%elem_of_cons; cbn.
  - by rewrite Z.eqb_refl.
  - destruct (Z.eqb_spec (from_ e0.2) (from_ e.2)) as [Heq|]; [|by apply IH].
    destruct Hn. rewrite Heq. apply (list_elem_of_fmap_2 (fun e => from_ e.2) _ _ Hin).
Qed.

Lemma cm_get_is_Some m o : wf m -> is_Some (cm_get m o) <-> is_Some (GetMapping m o).
Proof.
  intros W. rewrite cm_get_entries, GetMapping_entries by done. by rewrite !fmap_is_Some.
Qed.

Lemma cm_get_None m o : wf m -> cm_get m o = None <-> GetMapping m o = None.
Proof.
  intros W. rewrite cm_get_entries, GetMapping_entries by done. by rewrite !fmap_None.
Qed.

Lemma cm_add_entries m o r :
  wf m -> wf (cm_add m o r)
  /\ exists loc, entries (cm_add m o r) = entries m ++ [(loc, mkCellPair o r)].
Proof.
  intros W. unfold cm_add, cm_malloc.
  destruct (AddMapping_entries (fresh (block_addr <$> blocks m)) m o r W) as (loc & m' & -> & W' & He & _).
  - apply infinite_is_fresh.
  - split; [done|]. by exists loc.
Qed.

#[export] Instance CellMap_table_laws : RedirectTableLaws CellMap.
Proof.
  split.
  - split; [apply wf_new|constructor].
  - done.
  - intros m o r [W Hnd] Hn. cbn in *. destruct (cm_add_entries m o r W) as (W' & loc & He).
    split; [done|]. rewrite He, fmap_app. apply list.NoDup_app. split; [done|].
    split; [|apply NoDup_singleton]. intros x Hx ->%list_elem_of_singleton. cbn in Hx.
    apply GetMapping_is_Some in Hx; [|done]. apply cm_get_is_Some in Hx as [? Hx]; [|done].
    congruence.
  - intros m o r o' [W Hnd] Hn. cbn in *. destruct (cm_add_entries m o r W) as (W' & loc & He).
    rewrite cm_get_entries in * by done. rewrite He. unfold first_from in *.
    rewrite find_first_app. cbn. destruct (decide (o = o')) as [->|Hne].
    + destruct (find_first _ (entries m)); [done|]. by rewrite Z.eqb_refl.
    + destruct (Z.eqb_spec o o'); [done|].
      rewrite cm_get_entries by done. unfold first_from.
      destruct (find_first (fun e => (from_ e.2 =? o')%Z) (entries m)); reflexivity.
  - intros m1 m2 [W1 _] [W2 _]. cbn. unfold cm_intersects.
    destruct (Intersects_spec m1 m2 W1 W2) as (r & -> & Hr). rewrite Hr.
    by setoid_rewrite cm_get_is_Some.
  - intros m o r [W Hnd]. cbn. rewrite cm_get_entries by done. unfold cm_entries.
    rewrite list_elem_of_fmap. split.
    + intros (e & [= -> ->] & Hin). by rewrite (first_from_unique _ e).
    + intros ([l p] & Hf & Hr)%fmap_Some. apply find_first_Some in Hf as [Hin Ho].
      cbn in Ho, Hr. breflect. subst. by exists (l, p).
Qed.
