(* ===== verification/Stm.v ===== *)
(** * Stm: concurrent transactions over the shared heap

    Models the interleaving of [STM::StartTransaction], [RedirectLoad],
    [RedirectStore] and [CommitTransaction] of src/stm.cc as a step relation.
    A step is what a thread does between two points where another thread can
    observe or change something it depends on:
    - a redirection tests [aborted_] and looks into the thread's own sets in one
      step, and enters the object in a set in another one, under [mutex_];
    - [CreateCopy] reads the object in a step of its own, outside any lock;
    - the read or write of the field through the redirected handle is a step;
    - a commit takes [commit_mutex_], [transactions_mutex_] and the [mutex_] of
      every transaction (the field [lock]), aborts the transactions in conflict,
      and then copies its objects back one by one while others run on.
    A thread runs the body of an event, a program of loads and stores of object
    fields; the sets are any [RedirectTable]. *)

From S2P Require Import Prelude CellMap RedirectTable.

(** ** Event bodies *)

Inductive prog :=
  | Done
  | Load (o : Object) (f : nat) (k : Z -> prog)
  | Store (o : Object) (f : nat) (v : Z) (p : prog).

(** One operation of a body run alone on a heap. *)
Inductive pstep (A : Object -> Prop) : prog * Heap -> prog * Heap -> Prop :=
  | pstep_load o f k h ws v :
      A o -> h !! o = Some ws -> ws !! f = Some v ->
      pstep A (Load o f k, h) (k v, h)
  | pstep_store o f v p h ws :
      A o -> h !! o = Some ws -> f < length ws ->
      pstep A (Store o f v p, h) (p, <[o := <[f := v]> ws]> h).

(** A body run alone and to its end. *)
Definition runs (p : prog) (h h' : Heap) : Prop := rtc (pstep (fun _ => True)) (p, h) (Done, h').

(** Bodies run one after the other. *)
Inductive serial : list prog -> Heap -> Heap -> Prop :=
  | serial_nil h : serial [] h h
  | serial_snoc ps p h h1 h2 : serial ps h h1 -> runs p h1 h2 -> serial (ps ++ [p]) h h2.

(** The bodies that keep to the objects [D] and load an object before they
    store into it; [seen] are the objects loaded so far. *)
Fixpoint load_first (D : Object -> Prop) (seen : Object -> Prop) (p : prog) : Prop :=
  match p with
  | Done => True
  | Load o f k => D o /\ forall v, load_first D (fun x => seen x \/ x = o) (k v)
  | Store o f v p => D o /\ seen o /\ load_first D seen p
  end.

Section Stm.
Context {M : Type} `{!RedirectTable M}.

(** ** State *)

Record Tx := mkTx { tx_aborted : bool; tx_read : M; tx_write : M }.

Definition new_tx : Tx := mkTx false rt_new rt_new.
Definition abort_tx (t : Tx) : Tx := mkTx true (tx_read t) (tx_write t).

(** [this->HasConflicts(other)]. *)
Definition has_conflicts (this other : Tx) : bool :=
  rt_intersects (tx_read this) (tx_write other) || rt_intersects (tx_write this) (tx_write other).

(** Where a thread is; the program is what is left of the body, the current
    operation included until its field access is done. *)
Inductive pc :=
  | Running (p : prog)
  | LoadAdd (o : Object) (f : nat) (k : Z -> prog)
  | LoadRead (o r : Object) (f : nat) (k : Z -> prog)
  | StoreCopy (o : Object) (f : nat) (v : Z) (p : prog)
  | StoreAdd (o c : Object) (f : nat) (v : Z) (p : prog)
  | StoreWrite (o r : Object) (f : nat) (v : Z) (p : prog)
  | Terminating
  | Committing (todo : list (Object * Object)).

Record Thread := mkThread { th_body : prog; th_tx : Tx; th_pc : pc }.

Record State := mkState {
  heap : Heap;
  lock : option nat;
  threads : gmap nat Thread;
  committed : list prog
}.

Definition at_pc (th : Thread) (c : pc) : Thread := mkThread (th_body th) (th_tx th) c.
Definition with_tx (th : Thread) (t : Tx) (c : pc) : Thread := mkThread (th_body th) t c.

Definition set_thread (s : State) (t : nat) (th : Thread) : State :=
  mkState (heap s) (lock s) (<[t := th]> (threads s)) (committed s).

Definition set_heap (s : State) (h : Heap) : State :=
  mkState h (lock s) (threads s) (committed s).

(** The loop of [CommitTransaction] over the other transactions. *)
Definition abort_conflicting (t : nat) (tx : Tx) (ths : gmap nat Thread) : gmap nat Thread :=
  map_imap (fun t' th => Some (if negb (t' =? t) && has_conflicts (th_tx th) tx
                               then with_tx th (abort_tx (th_tx th)) (th_pc th) else th)) ths.

(** ** Steps *)

Section Step.
(** Which bodies events may have. *)
Context (allowed : prog -> Prop).

Inductive step : State -> State -> Prop :=
  | step_start s t p :
      threads s !! t = None -> lock s = None -> allowed p ->
      step s (set_thread s t (mkThread p new_tx (Running p)))
  (* RedirectLoad *)
  | step_load_terminate s t th o f k :
      threads s !! t = Some th -> th_pc th = Running (Load o f k) ->
      tx_aborted (th_tx th) = true ->
      step s (set_thread s t (at_pc th Terminating))
  | step_load_own s t th o f k r :
      threads s !! t = Some th -> th_pc th = Running (Load o f k) ->
      tx_aborted (th_tx th) = false -> rt_get (tx_write (th_tx th)) o = Some r ->
      step s (set_thread s t (at_pc th (LoadRead o r f k)))
  | step_load_again s t th o f k r :
      threads s !! t = Some th -> th_pc th = Running (Load o f k) ->
      tx_aborted (th_tx th) = false -> rt_get (tx_write (th_tx th)) o = None ->
      rt_get (tx_read (th_tx th)) o = Some r ->
      step s (set_thread s t (at_pc th (LoadRead o r f k)))
  | step_load_first s t th o f k :
      threads s !! t = Some th -> th_pc th = Running (Load o f k) ->
      tx_aborted (th_tx th) = false -> rt_get (tx_write (th_tx th)) o = None ->
      rt_get (tx_read (th_tx th)) o = None ->
      step s (set_thread s t (at_pc th (LoadAdd o f k)))
  | step_load_add s t th o f k :
      threads s !! t = Some th -> th_pc th = LoadAdd o f k -> lock s = None ->
      step s (set_thread s t
        (with_tx th (mkTx (tx_aborted (th_tx th)) (rt_add (tx_read (th_tx th)) o o)
                       (tx_write (th_tx th))) (LoadRead o o f k)))
  | step_load_read s t th o r f k ws v :
      threads s !! t = Some th -> th_pc th = LoadRead o r f k ->
      heap s !! r = Some ws -> ws !! f = Some v ->
      step s (set_thread s t (at_pc th (Running (k v))))
  (* RedirectStore *)
  | step_store_terminate s t th o f v p :
      threads s !! t = Some th -> th_pc th = Running (Store o f v p) ->
      tx_aborted (th_tx th) = true ->
      step s (set_thread s t (at_pc th Terminating))
  | step_store_own s t th o f v p r :
      threads s !! t = Some th -> th_pc th = Running (Store o f v p) ->
      tx_aborted (th_tx th) = false -> rt_get (tx_write (th_tx th)) o = Some r ->
      step s (set_thread s t (at_pc th (StoreWrite o r f v p)))
  | step_store_first s t th o f v p :
      threads s !! t = Some th -> th_pc th = Running (Store o f v p) ->
      tx_aborted (th_tx th) = false -> rt_get (tx_write (th_tx th)) o = None ->
      step s (set_thread s t (at_pc th (StoreCopy o f v p)))
  | step_store_copy s t th o f v p ws c :
      threads s !! t = Some th -> th_pc th = StoreCopy o f v p ->
      heap s !! o = Some ws -> heap s !! c = None ->
      step s (set_thread (set_heap s (<[c := ws]> (heap s))) t (at_pc th (StoreAdd o c f v p)))
  | step_store_add s t th o c f v p :
      threads s !! t = Some th -> th_pc th = StoreAdd o c f v p -> lock s = None ->
      step s (set_thread s t
        (with_tx th (mkTx (tx_aborted (th_tx th)) (tx_read (th_tx th))
                       (rt_add (tx_write (th_tx th)) o c)) (StoreWrite o c f v p)))
  | step_store_write s t th o r f v p ws :
      threads s !! t = Some th -> th_pc th = StoreWrite o r f v p ->
      heap s !! r = Some ws -> f < length ws ->
      step s (set_thread (set_heap s (<[r := <[f := v]> ws]> (heap s))) t (at_pc th (Running p)))
  (* CommitTransaction *)
  | step_commit_aborted s t th :
      threads s !! t = Some th -> th_pc th = Terminating \/ th_pc th = Running Done ->
      lock s = None -> tx_aborted (th_tx th) = true ->
      step s (mkState (heap s) None (delete t (threads s)) (committed s))
  | step_commit_testing s t th :
      (* FLAG_stm_aborts: every other commit aborts its own transaction *)
      threads s !! t = Some th -> th_pc th = Running Done ->
      step s (set_thread s t (with_tx th (abort_tx (th_tx th)) (Running Done)))
  | step_commit_begin s t th :
      threads s !! t = Some th -> th_pc th = Running Done ->
      lock s = None -> tx_aborted (th_tx th) = false ->
      step s (mkState (heap s) (Some t)
        (<[t := at_pc th (Committing (rt_entries (tx_write (th_tx th))))]>
           (abort_conflicting t (th_tx th) (threads s))) (committed s))
  | step_commit_copy s t th o c todo h :
      threads s !! t = Some th -> th_pc th = Committing ((o, c) :: todo) ->
      commit_pair (heap s) (mkCellPair o c) = Some h ->
      step s (set_thread (set_heap s h) t (at_pc th (Committing todo)))
  | step_commit_end s t th :
      threads s !! t = Some th -> th_pc th = Committing [] ->
      step s (mkState (heap s) None (delete t (threads s)) (committed s ++ [th_body th])).

Definition init (h : Heap) : State := mkState h None ∅ [].

Definition reachable (h : Heap) (s : State) : Prop := rtc step (init h) s.
End Step.
End Stm.

Arguments State M : clear implicits.
Arguments Thread M : clear implicits.
Arguments Tx M : clear implicits.

(** ** Running a body alone *)

Lemma pstep_mono (A B : Object -> Prop) x y :
  (forall o, A o -> B o) -> rtc (pstep A) x y -> rtc (pstep B) x y.
Proof.
  intros HAB. apply rtc_subrel. intros ? ? []; econstructor; eauto.
Qed.

(** A run that keeps to [A] can be replayed on any heap that agrees on [A]. *)
Lemma run_frame (A : Object -> Prop) p h p' h' g :
  rtc (pstep A) (p, h) (p', h') -> (forall o, A o -> g !! o = h !! o) ->
  exists g', rtc (pstep A) (p, g) (p', g')
    /\ (forall o, A o -> g' !! o = h' !! o) /\ (forall o, ~ A o -> g' !! o = g !! o).
Proof.
  intros H. remember (p, h) as x eqn:Ex. remember (p', h') as y eqn:Ey.
  revert p h g Ex Ey. induction H as [x|x z y Hs Hr IH]; intros p h g Ex Ey Hg.
  - subst. injection Ey as -> ->. exists g. split; [apply rtc_refl|done].
  - subst. inversion Hs as [o f k h1 ws v HA Ho Hv|o f v q h1 ws HA Ho Hf]; subst.
    + destruct (IH _ _ g eq_refl eq_refl Hg) as (g' & Hg' & H1 & H2).
      exists g'. split; [|done]. eapply rtc_l; [|exact Hg']. econstructor; [done| |done].
      by rewrite Hg.
    + destruct (IH _ _ (<[o := <[f := v]> ws]> g) eq_refl eq_refl) as (g' & Hg' & H1 & H2).
      { intros a Ha. destruct (decide (o = a)) as [->|].
        - by rewrite !lookup_insert_eq.
        - rewrite !lookup_insert_ne by done. by apply Hg. }
      exists g'. split; [|split; [done|]].
      * eapply rtc_l; [|exact Hg']. econstructor; [done| |done]. by rewrite Hg.
      * intros a Ha. rewrite H2 by done. apply lookup_insert_ne. by intros ->.
Qed.

Lemma load_first_mono D (A B : Object -> Prop) p :
  (forall o, A o -> B o) -> load_first D A p -> load_first D B p.
Proof.
  revert A B. induction p as [|o f k IH|o f v p IH]; intros A B HAB; cbn.
  - done.
  - intros [Hd Hk]. split; [done|]. intros v. eapply IH; [|apply Hk].
    intros x [Hx|Hx]; auto.
  - intros (Hd & Hs & Hp). eauto.
Qed.

(** ** The invariant *)

Section Serializability.
Context {M : Type} `{!RedirectTable M} `{!RedirectTableLaws M}.
(** The heap the shared objects are in at the start. *)
Context (h0 : Heap).

Abbreviation D := (fun o => is_Some (h0 !! o)).

Definition tracked (t : Tx M) (o : Object) : Prop :=
  is_Some (rt_get (tx_read t) o) \/ is_Some (rt_get (tx_write t) o).

(** The words a transaction sees at an object. *)
Definition view (h : Heap) (t : Tx M) (o : Object) : option (list Z) :=
  match rt_get (tx_write t) o with Some c => h !! c | None => h !! o end.

(** What is left of the body; nothing once the thread unwinds or commits. *)
Definition rest (c : pc) : option prog :=
  match c with
  | Running p => Some p
  | LoadAdd o f k | LoadRead o _ f k => Some (Load o f k)
  | StoreCopy o f v p | StoreAdd o _ f v p | StoreWrite o _ f v p => Some (Store o f v p)
  | Terminating | Committing _ => None
  end.

Definition pc_ok (t : Tx M) (c : pc) : Prop :=
  match c with
  | LoadAdd o _ _ => rt_get (tx_write t) o = None /\ rt_get (tx_read t) o = None
  | LoadRead o r _ _ =>
      rt_get (tx_write t) o = Some r
      \/ rt_get (tx_write t) o = None /\ rt_get (tx_read t) o = Some r
  | StoreCopy o _ _ _ => rt_get (tx_write t) o = None
  | StoreAdd o c _ _ _ =>
      rt_get (tx_write t) o = None /\ (forall o', rt_get (tx_write t) o' <> Some c)
  | StoreWrite o r _ _ _ => rt_get (tx_write t) o = Some r
  | _ => True
  end.

(** The private copies of a thread. *)
Definition owned (th : Thread M) (c : Object) : Prop :=
  (exists o, rt_get (tx_write (th_tx th)) o = Some c)
  \/ (exists o f v p, th_pc th = StoreAdd o c f v p).

(** Holds of every thread, aborted or not. *)
Record sound (h : Heap) (th : Thread M) : Prop := {
  so_read : rt_wf (tx_read (th_tx th));
  so_write : rt_wf (tx_write (th_tx th));
  so_self : forall o r, rt_get (tx_read (th_tx th)) o = Some r -> r = o;
  so_pc : pc_ok (th_tx th) (th_pc th);
  so_owned : forall c, owned th c -> ~ D c /\ is_Some (h !! c);
  so_inj : forall o1 o2 c, rt_get (tx_write (th_tx th)) o1 = Some c ->
             rt_get (tx_write (th_tx th)) o2 = Some c -> o1 = o2
}.

(** Holds of a thread that is not aborted: what it has done so far is what
    its body does when run alone on the heap as it is now. *)
Record live (h : Heap) (th : Thread M) : Prop := {
  lv_run : forall p, rest (th_pc th) = Some p ->
    exists h', rtc (pstep (tracked (th_tx th))) (th_body th, h) (p, h')
      /\ forall o, D o -> h' !! o = view h (th_tx th) o;
  lv_first : forall p, rest (th_pc th) = Some p -> load_first D (tracked (th_tx th)) p;
  lv_dom : forall o, tracked (th_tx th) o -> D o;
  lv_size : forall o c ws0, rt_get (tx_write (th_tx th)) o = Some c -> h0 !! o = Some ws0 ->
    exists ws, h !! c = Some ws /\ length ws = length ws0;
  lv_pc : th_pc th <> Terminating;
  lv_copy : forall o c f v p, th_pc th = StoreAdd o c f v p -> h !! c = h !! o
}.

Definition quiet (th : Thread M) : Prop := forall todo, th_pc th <> Committing todo.

Definition agree (h h' : Heap) : Prop := forall o, D o -> h' !! o = h !! o.

(** No commit is under way: the shared heap is that of the committed bodies. *)
Definition settled (s : State M) : Prop :=
  (forall t th, threads s !! t = Some th -> quiet th)
  /\ exists hs, serial (committed s) h0 hs /\ agree (heap s) hs.

(** Thread [t] is copying its write set back. *)
Definition committing (s : State M) (t : nat) : Prop :=
  exists th todo, threads s !! t = Some th /\ th_pc th = Committing todo
    /\ tx_aborted (th_tx th) = false
    /\ (forall t' th', t' <> t -> threads s !! t' = Some th' -> quiet th'
          /\ (tx_aborted (th_tx th') = false ->
              forall o, is_Some (rt_get (tx_write (th_tx th)) o) -> ~ tracked (th_tx th') o))
    /\ (forall o c, (o, c) ∈ todo -> rt_get (tx_write (th_tx th)) o = Some c)
    /\ (forall o c, rt_get (tx_write (th_tx th)) o = Some c ->
          (o, c) ∈ todo \/ heap s !! o = heap s !! c)
    /\ exists hs h', serial (committed s) h0 hs /\ runs (th_body th) hs h'
         /\ (forall o, D o -> h' !! o = view (heap s) (th_tx th) o).

Record inv (s : State M) : Prop := {
  in_dom : forall o ws0, h0 !! o = Some ws0 ->
    exists ws, heap s !! o = Some ws /\ length ws = length ws0;
  in_sound : forall t th, threads s !! t = Some th -> sound (heap s) th;
  in_live : forall t th, threads s !! t = Some th -> tx_aborted (th_tx th) = false ->
    live (heap s) th;
  in_own : forall t1 t2 th1 th2 c, threads s !! t1 = Some th1 -> threads s !! t2 = Some th2 ->
    owned th1 c -> owned th2 c -> t1 = t2;
  in_lock : match lock s with None => settled s | Some t => committing s t end
}.

(** ** Preservation *)

Lemma sound_heap h h' th :
  sound h th -> (forall c, owned th c -> h' !! c = h !! c) -> sound h' th.
Proof.
  intros [? ? ? ? Ho ?] Hh. split; try done. intros c Hc. rewrite (Hh c Hc). by apply Ho.
Qed.

(** A thread does not notice changes away from its copies and its sets. *)
Lemma live_heap h h' th :
  sound h th -> live h th -> (forall c, owned th c -> h' !! c = h !! c) ->
  (forall o, tracked (th_tx th) o -> h' !! o = h !! o) -> live h' th.
Proof.
  intros So Lv Hown Htr. split; try apply Lv.
  - intros p Hp. destruct (lv_run _ _ Lv p Hp) as (h1 & Hr & Hv).
    destruct (run_frame _ _ _ _ _ h' Hr Htr) as (h1' & Hr' & H1 & H2).
    exists h1'. split; [done|]. intros o Ho. unfold view in *. specialize (Hv o Ho).
    destruct (rt_get (tx_write (th_tx th)) o) as [c|] eqn:Ew.
    + rewrite H1 by (right; by rewrite Ew). rewrite Hv. symmetry. apply Hown. left. by exists o.
    + destruct (rt_get (tx_read (th_tx th)) o) as [r|] eqn:Er.
      * assert (Ht : tracked (th_tx th) o) by (left; by rewrite Er).
        rewrite H1, Hv by done. symmetry. by apply Htr.
      * apply H2. intros [[? ?]|[? ?]]; congruence.
  - intros o c ws0 Hw H0. destruct (lv_size _ _ Lv o c ws0 Hw H0) as (ws & Hc & Hl).
    exists ws. split; [|done]. rewrite Hown; [done|]. left. by exists o.
  - intros o c f v p Hp. rewrite Hown by (right; eauto 10). rewrite (lv_copy _ _ Lv _ _ _ _ _ Hp).
    symmetry. apply Htr. pose proof (lv_first _ _ Lv (Store o f v p)) as Hf.
    rewrite Hp in Hf. by apply Hf.
Qed.

Lemma committing_quiet s t th :
  inv s -> threads s !! t = Some th -> quiet th -> lock s <> Some t.
Proof.
  intros I Ht Hq Hl. pose proof (in_lock _ I) as Hc. rewrite Hl in Hc.
  destruct Hc as (th' & todo & Ht' & Hp & _). simplify_eq. by apply (Hq todo).
Qed.

(** The step of a thread that is not committing: it changes the heap at most at
    objects nobody else depends on, and enters objects in its sets only while
    no commit is under way. *)
Lemma inv_own_step s t th th' h' :
  inv s -> threads s !! t = Some th -> quiet th -> quiet th' ->
  agree (heap s) h' ->
  (forall t2 th2 c, t2 <> t -> threads s !! t2 = Some th2 -> owned th2 c -> h' !! c = heap s !! c) ->
  (forall c, owned th' c -> owned th c \/ heap s !! c = None) ->
  sound h' th' ->
  (tx_aborted (th_tx th') = false -> tx_aborted (th_tx th) = false /\ live h' th') ->
  (lock s <> None -> forall o, tracked (th_tx th') o -> tracked (th_tx th) o) ->
  inv (set_thread (set_heap s h') t th').
Proof.
  intros I Ht Hq Hq' Hag Hoth Hown Hs Hl Htr.
  assert (Hothers : forall t2 th2, t2 <> t -> threads s !! t2 = Some th2 ->
            sound h' th2 /\ (tx_aborted (th_tx th2) = false -> live h' th2)).
  { intros t2 th2 Hne H2. pose proof (in_sound _ I _ _ H2) as S2. split.
    - eapply sound_heap; [done|]. intros c Hc. by eapply Hoth.
    - intros Ha. pose proof (in_live _ I _ _ H2 Ha) as L2.
      eapply live_heap; [done|done| |]; [intros c Hc; by eapply Hoth|].
      intros o Ho. apply Hag. by apply (lv_dom _ _ L2). }
  split; cbn [heap threads lock committed set_thread set_heap].
  - intros o ws0 H0. destruct (in_dom _ I o ws0 H0) as (ws & Ho & Hlen).
    exists ws. rewrite Hag by (by exists ws0). done.
  - intros t2 th2 H2. destruct (decide (t = t2)) as [<-|Hne].
    + rewrite lookup_insert_eq in H2. by injection H2 as <-.
    + rewrite lookup_insert_ne in H2 by done. by apply (Hothers t2).
  - intros t2 th2 H2 Ha. destruct (decide (t = t2)) as [<-|Hne].
    + rewrite lookup_insert_eq in H2. injection H2 as <-. by apply Hl.
    + rewrite lookup_insert_ne in H2 by done. by apply (Hothers t2).
  - assert (Hx : forall t2 th2 c, t2 <> t -> threads s !! t2 = Some th2 ->
        owned th' c -> owned th2 c -> False).
    { intros t2 th2 c Hne H2 Hc' Hc2. destruct (Hown c Hc') as [Hc|Hn].
      - apply Hne. by eapply (in_own _ I).
      - destruct (so_owned _ _ (in_sound _ I _ _ H2) c Hc2) as [_ [ws Hw]]. congruence. }
    intros t1 t2 th1 th2 c H1 H2 Hc1 Hc2.
    destruct (decide (t1 = t2)) as [|Hne]; [done|].
    destruct (decide (t = t1)) as [<-|Hne1].
    + rewrite lookup_insert_eq in H1. injection H1 as <-.
      rewrite lookup_insert_ne in H2 by done. exfalso. by eapply (Hx t2 th2 c).
    + rewrite lookup_insert_ne in H1 by done. destruct (decide (t = t2)) as [<-|Hne2].
      * rewrite lookup_insert_eq in H2. injection H2 as <-. exfalso. by eapply (Hx t1 th1 c).
      * rewrite lookup_insert_ne in H2 by done. by eapply (in_own _ I).
  - pose proof (in_lock _ I) as Hc. pose proof (committing_quiet _ _ _ I Ht Hq) as Hnl.
    destruct (lock s) as [tc|] eqn:El.
    + destruct Hc as (thc & todo & Htc & Hpc & Hac & Ho & Htd & Hcp & hs & h1 & Hse & Hru & Hv).
      assert (Hne : tc <> t) by congruence.
      assert (Hoc : forall o c, rt_get (tx_write (th_tx thc)) o = Some c -> h' !! c = heap s !! c)
        by (intros o c Hw; eapply Hoth; [exact Hne|exact Htc|left; by exists o]).
      pose proof (in_live _ I _ _ Htc Hac) as Lc.
      assert (Hod : forall o c, rt_get (tx_write (th_tx thc)) o = Some c -> h' !! o = heap s !! o).
      { intros o c Hw. apply Hag, (lv_dom _ _ Lc). right. by rewrite Hw. }
      exists thc, todo. cbn. rewrite lookup_insert_ne by done.
      split; [done|]. split; [done|]. split; [done|]. split; [|split; [done|split]].
      * intros t2 th2 Hne2 H2. destruct (decide (t = t2)) as [<-|Hn2].
        -- rewrite lookup_insert_eq in H2. injection H2 as <-. split; [done|].
           intros Ha o Hwo Hto. destruct (Ho t th ltac:(done) Ht) as [_ Hdis].
           apply (Hdis (proj1 (Hl Ha)) o Hwo). by apply Htr.
        -- rewrite lookup_insert_ne in H2 by done. by apply (Ho t2).
      * intros o c Hw. rewrite (Hoc o c Hw), (Hod o c Hw). by apply Hcp.
      * exists hs, h1. split; [done|]. split; [done|]. intros o Hdo. rewrite (Hv o Hdo).
        unfold view. destruct (rt_get (tx_write (th_tx thc)) o) as [c|] eqn:Ew.
        -- symmetry. by eapply Hoc.
        -- symmetry. by apply Hag.
    + destruct Hc as [Hqs (hs & Hse & Hhs)]. split.
      * intros t2 th2 H2. cbn in H2. destruct (decide (t = t2)) as [<-|Hne].
        -- rewrite lookup_insert_eq in H2. by injection H2 as <-.
        -- rewrite lookup_insert_ne in H2 by done. by apply (Hqs t2).
      * exists hs. split; [done|]. intros o Hdo. cbn. rewrite Hag by done. by apply Hhs.
Qed.

(** The same when the heap does not change at all. *)
Lemma inv_own_step_pure s t th th' :
  inv s -> threads s !! t = Some th -> quiet th -> quiet th' ->
  (forall c, owned th' c -> owned th c) ->
  sound (heap s) th' ->
  (tx_aborted (th_tx th') = false -> tx_aborted (th_tx th) = false /\ live (heap s) th') ->
  (lock s <> None -> forall o, tracked (th_tx th') o -> tracked (th_tx th) o) ->
  inv (set_thread s t th').
Proof.
  intros I Ht Hq Hq' Hown Hs Hl Htr.
  assert (E : set_thread s t th' = set_thread (set_heap s (heap s)) t th') by (by destruct s).
  rewrite E. eapply inv_own_step; eauto. done.
Qed.

(** Moving on to another point of the same operation. *)
Lemma live_move h th c :
  live h th -> rest c = rest (th_pc th) -> rest c <> None ->
  (forall o x f v p, c = StoreAdd o x f v p -> h !! x = h !! o) ->
  live h (at_pc th c).
Proof.
  intros Lv Hr Hn Hc. split; cbn; try apply Lv.
  - intros p Hp. rewrite Hr in Hp. by apply (lv_run _ _ Lv).
  - intros p Hp. rewrite Hr in Hp. by apply (lv_first _ _ Lv).
  - by intros ->.
  - exact Hc.
Qed.

Lemma sound_move h th c :
  sound h th -> pc_ok (th_tx th) c -> (forall o x f v p, c <> StoreAdd o x f v p) ->
  sound h (at_pc th c).
Proof.
  intros So Hp Hn. split; cbn; try apply So; [done|].
  intros x [Hx|(o & f & v & p & Hx)]; [apply So; by left|by destruct (Hn o x f v p)].
Qed.

Lemma owned_move th c x :
  (forall o x f v p, c <> StoreAdd o x f v p) -> owned (at_pc th c) x -> owned th x.
Proof. intros Hn [Hx|(o & f & v & p & Hx)]; [by left|by destruct (Hn o x f v p)]. Qed.

Lemma quiet_at th c p : th_pc th = c -> rest c = Some p -> quiet th.
Proof. intros Hc Hr todo Hp. rewrite Hp in Hc. subst c. done. Qed.

(** Going on with the current operation, sets and heap unchanged. *)
Lemma inv_move s t th c p :
  inv s -> threads s !! t = Some th -> rest (th_pc th) = Some p -> rest c = Some p ->
  pc_ok (th_tx th) c -> (forall o x f v q, c <> StoreAdd o x f v q) ->
  inv (set_thread s t (at_pc th c)).
Proof.
  intros I Ht Hr Hc Hok Hn. apply (inv_own_step_pure s t th); try done.
  - by eapply quiet_at.
  - by apply (quiet_at _ c p).
  - intros x. by apply owned_move.
  - apply sound_move; [by apply (in_sound _ I t)|done|done].
  - cbn. intros Ha. split; [done|]. apply live_move; [by apply (in_live _ I t)| | |].
    + by rewrite Hr.
    + by rewrite Hc.
    + intros o x f v q ->. by destruct (Hn o x f v q).
Qed.

(** Unwinding after [TerminateExecution]. *)
Lemma inv_terminate s t th p :
  inv s -> threads s !! t = Some th -> rest (th_pc th) = Some p ->
  tx_aborted (th_tx th) = true -> inv (set_thread s t (at_pc th Terminating)).
Proof.
  intros I Ht Hr Ha. apply (inv_own_step_pure s t th); try done.
  - by eapply quiet_at.
  - intros x. by apply owned_move.
  - apply sound_move; [by apply (in_sound _ I t)|done|done].
  - cbn. by rewrite Ha.
Qed.

Lemma tracked_add_read tx o x :
  rt_wf (tx_read tx) -> rt_get (tx_read tx) o = None ->
  tracked (mkTx (tx_aborted tx) (rt_add (tx_read tx) o o) (tx_write tx)) x
  <-> tracked tx x \/ x = o.
Proof.
  intros W Hn. unfold tracked; cbn. rewrite rt_get_add by done.
  case_decide as Hd; [subst|]; split.
  - auto.
  - eauto.
  - auto.
  - intros [H|H]; [done|congruence].
Qed.

Lemma tracked_add_write tx o c x :
  rt_wf (tx_write tx) -> rt_get (tx_write tx) o = None ->
  tracked (mkTx (tx_aborted tx) (tx_read tx) (rt_add (tx_write tx) o c)) x
  <-> tracked tx x \/ x = o.
Proof.
  intros W Hn. unfold tracked; cbn. rewrite rt_get_add by done.
  case_decide as Hd; [subst|]; split.
  - auto.
  - eauto.
  - intros [H|H]; auto.
  - intros [H|H]; [done|congruence].
Qed.

Lemma inv_load_add s t th o f k :
  inv s -> threads s !! t = Some th -> th_pc th = LoadAdd o f k -> lock s = None ->
  inv (set_thread s t
    (with_tx th (mkTx (tx_aborted (th_tx th)) (rt_add (tx_read (th_tx th)) o o)
                   (tx_write (th_tx th))) (LoadRead o o f k))).
Proof.
  intros I Ht Hp Hl. pose proof (in_sound _ I _ _ Ht) as So.
  pose proof (so_pc _ _ So) as Hok. rewrite Hp in Hok. cbn in Hok. destruct Hok as [Hw Hr].
  pose proof (fun x => tracked_add_read (th_tx th) o x (so_read _ _ So) Hr) as Htr.
  apply (inv_own_step_pure s t th); try done.
  - intros todo. by rewrite Hp.
  - intros c [Hc|(? & ? & ? & ? & ?)]; [by left|done].
  - split; cbn; try apply So.
    + apply rt_wf_add; [apply So|done].
    + intros o' r. rewrite rt_get_add by (done || apply So). case_decide; [congruence|apply So].
    + right. rewrite rt_get_add by (done || apply So). by rewrite decide_True.
    + intros c [Hc|(? & ? & ? & ? & ?)]; [|done]. apply So. by left.
  - cbn. intros Ha. split; [done|]. pose proof (in_live _ I _ _ Ht Ha) as Lv.
    split; cbn; try done; try (by apply Lv).
    + intros p [= <-]. destruct (lv_run _ _ Lv (Load o f k)) as (h' & Hrun & Hv); [by rewrite Hp|].
      exists h'. split; [|done]. eapply pstep_mono; [|exact Hrun]. intros x Hx. apply Htr. by left.
    + intros p [= <-]. pose proof (lv_first _ _ Lv (Load o f k)) as Hf. rewrite Hp in Hf.
      eapply load_first_mono; [|by apply Hf]. intros x Hx. apply Htr. by left.
    + intros x [Hx| ->]%Htr; [by apply Lv|].
      pose proof (lv_first _ _ Lv (Load o f k)) as Hf. rewrite Hp in Hf. by apply Hf.
Qed.

Lemma inv_load_read s t th o r f k ws v :
  inv s -> threads s !! t = Some th -> th_pc th = LoadRead o r f k ->
  heap s !! r = Some ws -> ws !! f = Some v ->
  inv (set_thread s t (at_pc th (Running (k v)))).
Proof.
  intros I Ht Hp Hr Hv. pose proof (in_sound _ I _ _ Ht) as So.
  pose proof (so_pc _ _ So) as Hok. rewrite Hp in Hok. cbn in Hok.
  apply (inv_own_step_pure s t th); try done.
  - intros todo. by rewrite Hp.
  - intros c. by apply owned_move.
  - by apply sound_move.
  - cbn. intros Ha. split; [done|]. pose proof (in_live _ I _ _ Ht Ha) as Lv.
    assert (Hto : tracked (th_tx th) o).
    { destruct Hok as [Hw|[_ Hrd]]; [right|left]; eauto. }
    assert (Hview : view (heap s) (th_tx th) o = heap s !! r).
    { unfold view. destruct Hok as [->|[-> Hrd]]; [done|]. by rewrite (so_self _ _ So _ _ Hrd). }
    pose proof (lv_first _ _ Lv (Load o f k)) as Hf. rewrite Hp in Hf.
    destruct (Hf eq_refl) as [Hdo Hfk].
    split; cbn; try done; try (by apply Lv).
    + intros p [= <-]. destruct (lv_run _ _ Lv (Load o f k)) as (h' & Hrun & Hh'); [by rewrite Hp|].
      exists h'. split; [|done]. eapply rtc_r; [exact Hrun|]. econstructor; [done| |done].
      rewrite Hh' by done. by rewrite Hview.
    + intros p [= <-]. eapply load_first_mono; [|apply Hfk]. by intros x [Hx| ->].
Qed.

Lemma fresh_not_D s c : inv s -> heap s !! c = None -> ~ D c.
Proof. intros I Hn [ws0 H0]. destruct (in_dom _ I _ _ H0) as (ws & ? & _). congruence. Qed.

Lemma inv_store_copy s t th o f v p ws c :
  inv s -> threads s !! t = Some th -> th_pc th = StoreCopy o f v p ->
  heap s !! o = Some ws -> heap s !! c = None ->
  inv (set_thread (set_heap s (<[c := ws]> (heap s))) t (at_pc th (StoreAdd o c f v p))).
Proof.
  intros I Ht Hp Ho Hc. pose proof (in_sound _ I _ _ Ht) as So.
  pose proof (so_pc _ _ So) as Hok. rewrite Hp in Hok. cbn in Hok.
  assert (Hne : forall x w, heap s !! x = Some w -> <[c := ws]> (heap s) !! x = heap s !! x)
    by (intros x w Hx; apply lookup_insert_ne; congruence).
  assert (Hown : forall th2 t2 x, threads s !! t2 = Some th2 -> owned th2 x ->
            <[c := ws]> (heap s) !! x = heap s !! x).
  { intros th2 t2 x H2 Hx. destruct (so_owned _ _ (in_sound _ I _ _ H2) x Hx) as [_ [w Hw]].
    by eapply Hne. }
  assert (Hag : agree (heap s) (<[c := ws]> (heap s))).
  { intros x [w0 H0]. destruct (in_dom _ I _ _ H0) as (w & Hw & _). by eapply Hne. }
  assert (Hnw : forall x, ~ (exists o', rt_get (tx_write (th_tx th)) o' = Some x /\ x = c)).
  { intros x (o' & Hx & ->). destruct (so_owned _ _ So c) as [_ [w Hw]]; [by left; exists o'|].
    congruence. }
  apply (inv_own_step s t th); try done.
  - intros todo. by rewrite Hp.
  - intros t2 th2 x _ H2. by eapply Hown.
  - intros x [Hx|(o' & f' & v' & p' & Hx)]; [left; by left|]. cbn in Hx. simplify_eq. by right.
  - pose proof (sound_heap _ (<[c := ws]> (heap s)) _ So) as So'.
    specialize (So' (fun x => Hown _ _ x Ht)). split; cbn; try apply So'.
    + split; [done|]. intros o' Hx. apply (Hnw c). by exists o'.
    + intros x [Hx|(o' & f' & v' & p' & Hx)]; [apply So'; by left|]. cbn in Hx. simplify_eq.
      split; [by eapply fresh_not_D|]. rewrite lookup_insert_eq. by eexists.
  - cbn. intros Ha. split; [done|]. pose proof (in_live _ I _ _ Ht Ha) as Lv.
    apply live_move.
    + apply (live_heap (heap s)); [done|done| |].
      * intros x Hx. by eapply Hown.
      * intros x Hx. apply Hag. by apply (lv_dom _ _ Lv).
    + by rewrite Hp.
    + done.
    + intros o' x f' v' p' [= -> -> -> -> ->]. rewrite lookup_insert_eq. by rewrite (Hne _ ws).
Qed.

Lemma inv_store_add s t th o c f v p :
  inv s -> threads s !! t = Some th -> th_pc th = StoreAdd o c f v p -> lock s = None ->
  inv (set_thread s t
    (with_tx th (mkTx (tx_aborted (th_tx th)) (tx_read (th_tx th))
                   (rt_add (tx_write (th_tx th)) o c)) (StoreWrite o c f v p))).
Proof.
  intros I Ht Hp Hl. pose proof (in_sound _ I _ _ Ht) as So.
  pose proof (so_pc _ _ So) as Hok. rewrite Hp in Hok. cbn in Hok. destruct Hok as [Hw Hnc].
  pose proof (fun x => tracked_add_write (th_tx th) o c x (so_write _ _ So) Hw) as Htr.
  pose proof (fun x => rt_get_add (tx_write (th_tx th)) o c x (so_write _ _ So) Hw) as Hget.
  assert (Hoc : owned th c) by (right; eauto 10).
  apply (inv_own_step_pure s t th); try done.
  - intros todo. by rewrite Hp.
  - intros x [[o' Hx]|(? & ? & ? & ? & ?)]; [|done]. cbn in Hx. rewrite Hget in Hx.
    case_decide; [by simplify_eq|]. left. by exists o'.
  - split; cbn; try apply So.
    + apply rt_wf_add; [apply So|done].
    + rewrite Hget. by rewrite decide_True.
    + intros x [[o' Hx]|(? & ? & ? & ? & ?)]; [|done]. cbn in Hx. rewrite Hget in Hx.
      apply So. case_decide; [by simplify_eq|]. left. by exists o'.
    + intros o1 o2 x. rewrite !Hget. repeat case_decide; intros H1 H2.
      * congruence.
      * simplify_eq. by destruct (Hnc o2).
      * simplify_eq. by destruct (Hnc o1).
      * by apply (so_inj _ _ So _ _ x).
  - cbn. intros Ha. split; [done|]. pose proof (in_live _ I _ _ Ht Ha) as Lv.
    pose proof (lv_first _ _ Lv (Store o f v p)) as Hf. rewrite Hp in Hf.
    destruct (Hf eq_refl) as (Hdo & Hto & Hfp).
    split; cbn; try done; try (by apply Lv).
    + intros q [= <-]. destruct (lv_run _ _ Lv (Store o f v p)) as (h' & Hrun & Hv); [by rewrite Hp|].
      exists h'. split.
      * eapply pstep_mono; [|exact Hrun]. intros x Hx. apply Htr. by left.
      * intros x Hx. rewrite (Hv x Hx). unfold view; cbn. rewrite Hget.
        case_decide; [subst x|done]. rewrite Hw. symmetry. by apply (lv_copy _ _ Lv _ _ f v p).
    + intros q [= <-]. eapply load_first_mono; [|by apply Hf]. intros x Hx. apply Htr. by left.
    + intros x [Hx| ->]%Htr; [by apply Lv|done].
    + intros o' c' ws0. rewrite Hget. case_decide; [|apply Lv].
      intros [= <-] H0. subst o'. rewrite (lv_copy _ _ Lv _ _ _ _ _ Hp). by apply (in_dom _ I).
Qed.

Lemma inv_store_write s t th o r f v p ws :
  inv s -> threads s !! t = Some th -> th_pc th = StoreWrite o r f v p ->
  heap s !! r = Some ws -> f < length ws ->
  inv (set_thread (set_heap s (<[r := <[f := v]> ws]> (heap s))) t (at_pc th (Running p))).
Proof.
  intros I Ht Hp Hr Hf. pose proof (in_sound _ I _ _ Ht) as So.
  pose proof (so_pc _ _ So) as Hok. rewrite Hp in Hok. cbn in Hok.
  assert (Hor : owned th r) by (left; by exists o).
  destruct (so_owned _ _ So r Hor) as [Hnd _].
  set (h1 := <[r := <[f := v]> ws]> (heap s)).
  assert (Hne : forall x, x <> r -> h1 !! x = heap s !! x) by (intros x Hx; by apply lookup_insert_ne).
  assert (Hag : agree (heap s) h1) by (intros x Hx; apply Hne; by intros ->).
  apply (inv_own_step s t th); try done.
  - intros todo. by rewrite Hp.
  - intros t2 th2 x Hn H2 Hx. apply Hne. intros ->. apply Hn. by eapply (in_own _ I).
  - intros x Hx. left. by apply owned_move in Hx.
  - apply sound_move; [|done|done]. split; try apply So. intros x Hx. split; [by apply So|].
    destruct (decide (x = r)) as [->|Hxr]; [by eexists; apply lookup_insert_eq|].
    rewrite Hne by done. by apply So.
  - cbn. intros Ha. split; [done|]. pose proof (in_live _ I _ _ Ht Ha) as Lv.
    pose proof (lv_first _ _ Lv (Store o f v p)) as Hfst. rewrite Hp in Hfst.
    destruct (Hfst eq_refl) as (Hdo & Hto & Hfp).
    destruct (lv_run _ _ Lv (Store o f v p)) as (h2 & Hrun & Hv); [by rewrite Hp|].
    destruct (run_frame _ _ _ _ _ h1 Hrun) as (g & Hg & Hg1 & Hg2);
      [intros x Hx; apply Hag; by apply (lv_dom _ _ Lv)|].
    assert (Hgv : forall x, D x -> g !! x = view (heap s) (th_tx th) x).
    { intros x Hx. destruct (decide (is_Some (rt_get (tx_read (th_tx th)) x))) as [H|Hnr].
      { rewrite Hg1 by (by left). by apply Hv. }
      destruct (decide (is_Some (rt_get (tx_write (th_tx th)) x))) as [H|Hnw].
      { rewrite Hg1 by (by right). by apply Hv. }
      rewrite Hg2 by (by intros [?|?]). rewrite (Hag x Hx). unfold view.
      destruct (rt_get (tx_write (th_tx th)) x) eqn:E; [by destruct Hnw|done]. }
    split; cbn; try done; try (by apply Lv).
    + intros q [= <-]. exists (<[o := <[f := v]> ws]> g). split.
      * eapply rtc_r; [exact Hg|]. econstructor; [done| |done].
        rewrite (Hgv o Hdo). unfold view. by rewrite Hok.
      * intros x Hx. unfold view. destruct (decide (x = o)) as [->|Hxo].
        -- rewrite lookup_insert_eq, Hok. unfold h1. by rewrite lookup_insert_eq.
        -- rewrite lookup_insert_ne by done. rewrite (Hgv x Hx). unfold view.
           destruct (rt_get (tx_write (th_tx th)) x) as [c|] eqn:Ew.
           ++ symmetry. apply Hne. intros ->. apply Hxo. by apply (so_inj _ _ So _ _ r).
           ++ symmetry. by apply Hag.
    + by intros q [= <-].
    + intros x c ws0 Hw H0. destruct (lv_size _ _ Lv x c ws0 Hw H0) as (w & Hc & Hlen).
      destruct (decide (c = r)) as [->|Hcr].
      * unfold h1. rewrite lookup_insert_eq. eexists. split; [done|]. rewrite length_insert. congruence.
      * rewrite Hne by done. eauto.
Qed.

Lemma inv_abort_self s t th :
  inv s -> threads s !! t = Some th -> th_pc th = Running Done ->
  inv (set_thread s t (with_tx th (abort_tx (th_tx th)) (Running Done))).
Proof.
  intros I Ht Hp. pose proof (in_sound _ I _ _ Ht) as So.
  apply (inv_own_step_pure s t th); try done.
  - intros todo. by rewrite Hp.
  - intros x [Hx|(? & ? & ? & ? & ?)]; [by left|done].
  - split; cbn; try apply So; [done|]. intros x [Hx|(? & ? & ? & ? & ?)]; [|done]. apply So. by left.
Qed.

Lemma not_tracked_new o : ~ tracked (new_tx (M := M)) o.
Proof. by intros [[x Hx]|[x Hx]]; cbn in Hx; rewrite rt_get_new in Hx. Qed.

Lemma inv_start s t p :
  inv s -> threads s !! t = None -> lock s = None -> load_first D (fun _ => False) p ->
  inv (set_thread s t (mkThread p new_tx (Running p))).
Proof.
  intros I Hn Hl Hp.
  assert (Hno : forall c, ~ owned (mkThread p (new_tx (M := M)) (Running p)) c).
  { intros c [[o Ho]|(? & ? & ? & ? & ?)]; [|done]. cbn in Ho. by rewrite rt_get_new in Ho. }
  assert (Hs : sound (heap s) (mkThread p (new_tx (M := M)) (Running p))).
  { split; cbn; try apply rt_wf_new; try done.
    - intros o r. by rewrite rt_get_new.
    - by intros c Hc%Hno.
    - intros o1 o2 c. by rewrite rt_get_new. }
  assert (Lv : live (heap s) (mkThread p (new_tx (M := M)) (Running p))).
  { split; cbn; try done.
    - intros q [= <-]. exists (heap s). split; [done|]. intros o _. unfold view; cbn.
      by rewrite rt_get_new.
    - intros q [= <-]. by eapply load_first_mono; [|exact Hp].
    - by intros o Ho%not_tracked_new.
    - intros o c ws0. by rewrite rt_get_new. }
  pose proof (in_lock _ I) as Hlk. rewrite Hl in Hlk. destruct Hlk as [Hq (hs & Hse & Hhs)].
  split; cbn [heap threads lock committed set_thread].
  - apply I.
  - intros t2 th2 H2. destruct (decide (t = t2)) as [<-|Hne].
    + rewrite lookup_insert_eq in H2. by injection H2 as <-.
    + rewrite lookup_insert_ne in H2 by done. by apply (in_sound _ I t2).
  - intros t2 th2 H2 Ha. destruct (decide (t = t2)) as [<-|Hne].
    + rewrite lookup_insert_eq in H2. by injection H2 as <-.
    + rewrite lookup_insert_ne in H2 by done. by apply (in_live _ I t2).
  - intros t1 t2 th1 th2 c H1 H2 Hc1 Hc2.
    destruct (decide (t = t1)) as [<-|Hne1].
    { rewrite lookup_insert_eq in H1. injection H1 as <-. by apply Hno in Hc1. }
    destruct (decide (t = t2)) as [<-|Hne2].
    { rewrite lookup_insert_eq in H2. injection H2 as <-. by apply Hno in Hc2. }
    rewrite lookup_insert_ne in H1, H2 by done. by eapply (in_own _ I).
  - rewrite Hl. split; [|by exists hs]. intros t2 th2 H2. cbn in H2.
    destruct (decide (t = t2)) as [<-|Hne].
    + rewrite lookup_insert_eq in H2. by injection H2 as <-.
    + rewrite lookup_insert_ne in H2 by done. by apply (Hq t2).
Qed.

(** Threads may leave. *)
Lemma inv_delete s t l log :
  inv s ->
  (match l with None => settled (mkState (heap s) l (delete t (threads s)) log)
              | Some tc => committing (mkState (heap s) l (delete t (threads s)) log) tc end) ->
  inv (mkState (heap s) l (delete t (threads s)) log).
Proof.
  intros I Hl. split; cbn [heap threads lock committed]; [apply I| | | |done].
  - intros t2 th2 [_ H2]%lookup_delete_Some. by apply (in_sound _ I t2).
  - intros t2 th2 [_ H2]%lookup_delete_Some. by apply (in_live _ I t2).
  - intros t1 t2 th1 th2 c [_ H1]%lookup_delete_Some [_ H2]%lookup_delete_Some.
    by eapply (in_own _ I).
Qed.

Lemma inv_commit_aborted s t :
  inv s -> lock s = None ->
  inv (mkState (heap s) None (delete t (threads s)) (committed s)).
Proof.
  intros I Hl. apply inv_delete; [done|].
  pose proof (in_lock _ I) as Hlk. rewrite Hl in Hlk. destruct Hlk as [Hq Hs]. split; [|done].
  cbn. intros t2 th2 [_ H2]%lookup_delete_Some. by apply (Hq t2).
Qed.

Lemma lookup_abort_conflicting t (tx : Tx M) ths t' th' :
  abort_conflicting t tx ths !! t' = Some th' ->
  exists th, ths !! t' = Some th
    /\ (th' = th /\ (t' <> t -> has_conflicts (th_tx th) tx = false)
        \/ th' = with_tx th (abort_tx (th_tx th)) (th_pc th)).
Proof.
  unfold abort_conflicting. rewrite map_lookup_imap.
  destruct (ths !! t') as [th|]; cbn; [|done]. intros [= <-]. exists th. split; [done|].
  destruct (Nat.eqb_spec t' t) as [->|Hne]; cbn; [by left|].
  destruct (has_conflicts (th_tx th) tx); [by right|by left].
Qed.

Lemma no_conflict_untracked (tx tx' : Tx M) :
  rt_wf (tx_read tx') -> rt_wf (tx_write tx') -> rt_wf (tx_write tx) ->
  has_conflicts tx' tx = false ->
  forall o, is_Some (rt_get (tx_write tx) o) -> ~ tracked tx' o.
Proof.
  intros Wr Ww W [Hr Hw]%orb_false_iff o Ho [H|H].
  - assert (rt_intersects (tx_read tx') (tx_write tx) = true); [|congruence].
    apply rt_intersects_spec; eauto.
  - assert (rt_intersects (tx_write tx') (tx_write tx) = true); [|congruence].
    apply rt_intersects_spec; eauto.
Qed.

Lemma owned_abort th c :
  owned (with_tx th (abort_tx (th_tx th)) (th_pc th)) c -> owned th c.
Proof. intros [H|H]; [by left|by right]. Qed.

Lemma sound_abort h th : sound h th -> sound h (with_tx th (abort_tx (th_tx th)) (th_pc th)).
Proof.
  intros So. split; cbn; try apply So. 
Qed.

Lemma inv_commit_begin s t th :
  inv s -> threads s !! t = Some th -> th_pc th = Running Done ->
  lock s = None -> tx_aborted (th_tx th) = false ->
  inv (mkState (heap s) (Some t)
    (<[t := at_pc th (Committing (rt_entries (tx_write (th_tx th))))]>
       (abort_conflicting t (th_tx th) (threads s))) (committed s)).
Proof.
  intros I Ht Hp Hl Ha. pose proof (in_sound _ I _ _ Ht) as So.
  pose proof (in_live _ I _ _ Ht Ha) as Lv.
  pose proof (in_lock _ I) as Hlk. rewrite Hl in Hlk. destruct Hlk as [Hq (hs & Hse & Hhs)].
  set (thc := at_pc th (Committing (rt_entries (tx_write (th_tx th))))).
  set (ths := abort_conflicting t (th_tx th) (threads s)).
  assert (Hcase : forall t2 th2, <[t := thc]> ths !! t2 = Some th2 ->
    t2 = t /\ th2 = thc \/ t2 <> t /\ exists th0, threads s !! t2 = Some th0
      /\ (th2 = th0 /\ has_conflicts (th_tx th0) (th_tx th) = false
          \/ th2 = with_tx th0 (abort_tx (th_tx th0)) (th_pc th0))).
  { intros t2 th2 H2. destruct (decide (t = t2)) as [<-|Hne].
    - rewrite lookup_insert_eq in H2. left. by injection H2 as <-.
    - rewrite lookup_insert_ne in H2 by done. right. split; [done|].
      destruct (lookup_abort_conflicting _ _ _ _ _ H2) as (th0 & H0 & Hc). exists th0.
      split; [done|]. destruct Hc as [[-> Hc]|Hc]; [left; auto|by right]. }
  assert (Hown : forall t2 th2 c, <[t := thc]> ths !! t2 = Some th2 -> owned th2 c ->
    exists th0, threads s !! t2 = Some th0 /\ owned th0 c).
  { intros t2 th2 c [[-> ->]|[Hne (th0 & H0 & Hc)]]%Hcase Ho.
    - exists th. split; [done|]. by apply owned_move in Ho.
    - exists th0. split; [done|]. destruct Hc as [[-> _]| ->]; [done|by apply owned_abort]. }
  split; cbn [heap threads lock committed].
  - apply I.
  - intros t2 th2 [[-> ->]|[Hne (th0 & H0 & [[-> _]| ->])]]%Hcase.
    + by apply sound_move.
    + by apply (in_sound _ I t2).
    + apply sound_abort. by apply (in_sound _ I t2).
  - intros t2 th2 [[-> ->]|[Hne (th0 & H0 & [[-> _]| ->])]]%Hcase Ha2; [|by apply (in_live _ I t2)|done].
    split; cbn; try done; by apply Lv.
  - intros t1 t2 th1 th2 c H1 H2 Hc1 Hc2.
    destruct (Hown _ _ _ H1 Hc1) as (x1 & Hx1 & ?), (Hown _ _ _ H2 Hc2) as (x2 & Hx2 & ?).
    by eapply (in_own _ I).
  - exists thc, (rt_entries (tx_write (th_tx th))). cbn [threads heap committed].
    rewrite lookup_insert_eq. split; [done|]. split; [done|]. split; [done|].
    split; [|split; [|split]].
    + intros t2 th2 Hne [[-> ->]|[_ (th0 & H0 & [[-> Hc]| ->])]]%Hcase; [done| |].
      * split; [by apply (Hq t2)|]. intros _.
        pose proof (in_sound _ I _ _ H0) as S0.
        apply no_conflict_untracked; try apply S0; [apply So|done].
      * split; [|done]. intros todo Hpc. by apply (Hq t2 th0 H0 todo).
    + intros o c. cbn. by apply rt_entries_spec, So.
    + intros o c Hw. left. apply rt_entries_spec; [apply So|done].
    + destruct (lv_run _ _ Lv Done) as (h1 & Hrun & Hv); [by rewrite Hp|].
      destruct (run_frame _ _ _ _ _ hs Hrun) as (g & Hg & Hg1 & Hg2);
        [intros x Hx; apply Hhs; by apply (lv_dom _ _ Lv)|].
      exists hs, g. split; [done|]. split; [by eapply pstep_mono; [|exact Hg]|].
      intros x Hx. cbn. destruct (decide (is_Some (rt_get (tx_read (th_tx th)) x))) as [H|Hnr].
      { rewrite Hg1 by (by left). by apply Hv. }
      destruct (decide (is_Some (rt_get (tx_write (th_tx th)) x))) as [H|Hnw].
      { rewrite Hg1 by (by right). by apply Hv. }
      rewrite Hg2 by (by intros [?|?]). rewrite (Hhs x Hx). unfold view.
      destruct (rt_get (tx_write (th_tx th)) x) eqn:E; [by destruct Hnw|done].
Qed.

Lemma inv_commit_copy s t th o c todo h :
  inv s -> threads s !! t = Some th -> th_pc th = Committing ((o, c) :: todo) ->
  lock s = Some t -> commit_pair (heap s) (mkCellPair o c) = Some h ->
  inv (set_thread (set_heap s h) t (at_pc th (Committing todo))).
Proof.
  intros I Ht Hp Hl Hcp. pose proof (in_sound _ I _ _ Ht) as So.
  pose proof (in_lock _ I) as Hlk. rewrite Hl in Hlk.
  destruct Hlk as (th0 & td & Ht0 & Hp0 & Ha & Hoth & Htd & Hdone & hs & h1 & Hse & Hru & Hv).
  rewrite Ht in Ht0. injection Ht0 as <-. rewrite Hp in Hp0. injection Hp0 as <-.
  pose proof (in_live _ I _ _ Ht Ha) as Lv.
  assert (Hw : rt_get (tx_write (th_tx th)) o = Some c) by (apply Htd, list_elem_of_here).
  assert (Hdo : D o) by (apply (lv_dom _ _ Lv); right; eauto).
  destruct Hdo as [ws0 H0]. destruct (in_dom _ I o ws0 H0) as (d & Hd & Hld).
  destruct (lv_size _ _ Lv o c ws0 Hw H0) as (w & Hc & Hlw).
  rewrite (commit_pair_same_size _ _ d w) in Hcp by (done || (cbn; congruence)).
  injection Hcp as <-. cbn [from_].
  set (h := <[o := w]> (heap s)).
  assert (Hnd : forall x, ~ D x -> h !! x = heap s !! x)
    by (intros x Hx; apply lookup_insert_ne; intros ->; apply Hx; by exists ws0).
  assert (Hown : forall t2 th2 x, threads s !! t2 = Some th2 -> owned th2 x -> h !! x = heap s !! x)
    by (intros t2 th2 x H2 Hx; apply Hnd; by apply (so_owned _ _ (in_sound _ I _ _ H2))).
  assert (Hwc : forall o' c', rt_get (tx_write (th_tx th)) o' = Some c' -> h !! c' = heap s !! c')
    by (intros o' c' Hw'; eapply Hown; [exact Ht|left; by exists o']).
  assert (Hcase : forall t2 th2, <[t := at_pc th (Committing todo)]> (threads s) !! t2 = Some th2 ->
    t2 = t /\ th2 = at_pc th (Committing todo) \/ t2 <> t /\ threads s !! t2 = Some th2).
  { intros t2 th2. destruct (decide (t = t2)) as [<-|Hne].
    - rewrite lookup_insert_eq. intros [= <-]. by left.
    - rewrite lookup_insert_ne by done. auto. }
  split; cbn [heap threads lock committed set_thread set_heap].
  - intros x w0 Hx. destruct (decide (x = o)) as [->|Hne].
    + exists w. unfold h. rewrite lookup_insert_eq. split; [done|]. congruence.
    + unfold h. rewrite lookup_insert_ne by done. by apply (in_dom _ I).
  - intros t2 th2 [[-> ->]|[Hne H2]]%Hcase.
    + apply sound_move; [|done|done]. eapply sound_heap; [done|]. intros x. by eapply Hown.
    + eapply sound_heap; [by apply (in_sound _ I t2)|]. intros x. by eapply Hown.
  - intros t2 th2 [[-> ->]|[Hne H2]]%Hcase Ha2.
    + split; cbn; try done; try (by apply Lv). intros o' c' w0 Hw' Hx.
      rewrite (Hwc _ _ Hw'). by eapply (lv_size _ _ Lv).
    + eapply live_heap; [by apply (in_sound _ I t2)|by apply (in_live _ I t2)| |].
      * intros x. by eapply Hown.
      * intros x Hx. apply lookup_insert_ne. intros ->.
        destruct (Hoth t2 th2 Hne H2) as [_ Hdis]. by apply (Hdis Ha2 x); [eauto|].
  - intros t1 t2 th1 th2 x [[-> ->]|[Hne1 H1]]%Hcase [[-> ->]|[Hne2 H2]]%Hcase Hc1 Hc2; try done.
    + apply owned_move in Hc1; [|done]. by eapply (in_own _ I).
    + apply owned_move in Hc2; [|done]. by eapply (in_own _ I).
    + by eapply (in_own _ I).
  - rewrite Hl. exists (at_pc th (Committing todo)), todo. cbn.
    rewrite lookup_insert_eq. split; [done|]. split; [done|]. split; [done|]. split; [|split; [|split]].
    + intros t2 th2 Hne [[-> ->]|[_ H2]]%Hcase; [done|]. by apply (Hoth t2).
    + intros o' c' Hin. apply Htd. by apply list_elem_of_further.
    + intros o' c' Hw'. rewrite (Hwc _ _ Hw').
      destruct (decide (o' = o)) as [->|Hne].
      * right. unfold h. rewrite lookup_insert_eq. congruence.
      * unfold h. rewrite lookup_insert_ne by done.
        destruct (Hdone o' c' Hw') as [[Heq|Hin]%elem_of_cons|Heq]; [|by left|by right].
        congruence.
    + exists hs, h1. split; [done|]. split; [done|]. intros x Hx. rewrite (Hv x Hx). unfold view.
      destruct (rt_get (tx_write (th_tx th)) x) as [c'|] eqn:Ew.
      * symmetry. by eapply Hwc.
      * unfold h. rewrite lookup_insert_ne; [done|]. congruence.
Qed.

Lemma inv_commit_end s t th :
  inv s -> threads s !! t = Some th -> th_pc th = Committing [] -> lock s = Some t ->
  inv (mkState (heap s) None (delete t (threads s)) (committed s ++ [th_body th])).
Proof.
  intros I Ht Hp Hl. apply inv_delete; [done|].
  pose proof (in_lock _ I) as Hlk. rewrite Hl in Hlk.
  destruct Hlk as (th0 & td & Ht0 & Hp0 & Ha & Hoth & Htd & Hdone & hs & h1 & Hse & Hru & Hv).
  rewrite Ht in Ht0. injection Ht0 as <-. rewrite Hp in Hp0. injection Hp0 as <-.
  split; cbn.
  - intros t2 th2 [Hne H2]%lookup_delete_Some. by apply (Hoth t2).
  - exists h1. split; [by eapply serial_snoc|]. intros o Ho. rewrite (Hv o Ho). unfold view.
    destruct (rt_get (tx_write (th_tx th)) o) as [c|] eqn:Ew; [|done].
    destruct (Hdone o c Ew) as [Hin|Heq]; [by apply not_elem_of_nil in Hin|done].
Qed.

(** Only the thread that holds the locks is at a commit. *)
Lemma committing_lock s t th todo :
  inv s -> threads s !! t = Some th -> th_pc th = Committing todo -> lock s = Some t.
Proof.
  intros I Ht Hp. pose proof (in_lock _ I) as Hlk. destruct (lock s) as [tc|].
  - destruct Hlk as (? & ? & _ & _ & _ & Hoth & _). destruct (decide (t = tc)) as [->|Hne]; [done|].
    destruct (Hoth t th Hne Ht) as [Hq _]. by destruct (Hq todo).
  - destruct Hlk as [Hq _]. by destruct (Hq t th Ht todo).
Qed.

Lemma inv_step s s' :
  inv s -> step (load_first D (fun _ => False)) s s' -> inv s'.
Proof.
  intros I Hs. destruct Hs.
  - by apply inv_start.
  - eapply inv_terminate; [done|done| |done]. by rewrite H0.
  - eapply inv_move; [done|done| | | |]; rewrite ?H0; try done. by left.
  - eapply inv_move; [done|done| | | |]; rewrite ?H0; try done. by right.
  - eapply inv_move; [done|done| | | |]; rewrite ?H0; try done.
  - by apply inv_load_add.
  - by eapply inv_load_read.
  - eapply inv_terminate; [done|done| |done]. by rewrite H0.
  - eapply inv_move; [done|done| | | |]; rewrite ?H0; try done.
  - eapply inv_move; [done|done| | | |]; rewrite ?H0; try done.
  - by apply inv_store_copy.
  - by apply inv_store_add.
  - by eapply inv_store_write.
  - by apply inv_commit_aborted.
  - by apply inv_abort_self.
  - by apply inv_commit_begin.
  - eapply inv_commit_copy; eauto. by eapply committing_lock.
  - eapply inv_commit_end; eauto. by eapply committing_lock.
Qed.

Lemma inv_init : inv (init h0).
Proof.
  unfold init. split; cbn [heap lock threads committed].
  - intros o ws0 H. by exists ws0.
  - intros t th H. change (None = Some th) in H. done.
  - intros t th H. change (None = Some th) in H. done.
  - intros t1 t2 th1 th2 c H. change (None = Some th1) in H. done.
  - split; [intros t th H; change (None = Some th) in H; done|].
    exists h0. split; [constructor|done].
Qed.

Lemma inv_reachable s : reachable (load_first D (fun _ => False)) h0 s -> inv s.
Proof. apply (rtc_preserve inv _ inv_step), inv_init. Qed.

(** C3: serializability.  When events load every object before they store
    into it, then in every reachable state in which no commit is under way the
    shared objects hold exactly what the committed bodies leave behind when
    they are run one at a time, alone, in the order in which they committed -
    whatever the interleaving of loads, copies, stores, aborts, retries and
    commits was. *)
Theorem committed_serializable s :
  reachable (load_first D (fun _ => False)) h0 s -> lock s = None ->
  exists hs, serial (committed s) h0 hs
    /\ forall o, is_Some (h0 !! o) -> heap s !! o = hs !! o.
Proof.
  intros Hr Hl. pose proof (in_lock _ (inv_reachable s Hr)) as H. rewrite Hl in H.
  destruct H as [_ (hs & Hs & Ha)]. exists hs. split; [done|]. intros o Ho. symmetry. by apply Ha.
Qed.

(** C4: opacity of running transactions, under the discipline of C3.  When
    every body loads a shared object before it stores into it
    ([load_first]), a transaction that has not been aborted has seen a
    consistent heap: whatever it did so far, its body does when run alone on the
    shared heap of this very moment, and it then sees at every shared object what
    the transaction sees.  Without the discipline it does not hold: in
    [blind_store_lost_update] a store without a load takes a copy that a commit
    makes out of date. *)
Theorem running_consistent s t th p :
  reachable (load_first D (fun _ => False)) h0 s ->
  threads s !! t = Some th -> tx_aborted (th_tx th) = false -> th_pc th = Running p ->
  exists h', rtc (pstep (fun _ => True)) (th_body th, heap s) (p, h')
    /\ forall o, is_Some (h0 !! o) -> h' !! o = view (heap s) (th_tx th) o.
Proof.
  intros Hr Ht Ha Hp.
  destruct (lv_run _ _ (in_live _ (inv_reachable s Hr) t th Ht Ha) p) as (h' & Hrun & Hv);
    [by rewrite Hp|].
  exists h'. split; [|done]. by eapply pstep_mono; [|exact Hrun].
Qed.
End Serializability.

(** ** The steps, executed *)

Section Exec.
Context {M : Type} `{!RedirectTable M}.

(** What the scheduler does next: start an event, let a thread make its step
    ([c] is the memory a copy gets), or have a commit abort itself. *)
Inductive action :=
  | AStart (t : nat) (p : prog)
  | AStep (t : nat) (c : Object)
  | ATest (t : nat).

Definition unlocked (s : State M) : bool := match lock s with None => true | Some _ => false end.

Definition exec_thread (s : State M) (t : nat) (th : Thread M) (c : Object) : option (State M) :=
  let tx := th_tx th in
  match th_pc th with
  | Running Done =>
      if unlocked s then
        if tx_aborted tx then Some (mkState (heap s) None (delete t (threads s)) (committed s))
        else Some (mkState (heap s) (Some t)
               (<[t := at_pc th (Committing (rt_entries (tx_write tx)))]>
                  (abort_conflicting t tx (threads s))) (committed s))
      else None
  | Running (Load o f k) =>
      if tx_aborted tx then Some (set_thread s t (at_pc th Terminating)) else
      match rt_get (tx_write tx) o with
      | Some r => Some (set_thread s t (at_pc th (LoadRead o r f k)))
      | None =>
          match rt_get (tx_read tx) o with
          | Some r => Some (set_thread s t (at_pc th (LoadRead o r f k)))
          | None => Some (set_thread s t (at_pc th (LoadAdd o f k)))
          end
      end
  | Running (Store o f v p) =>
      if tx_aborted tx then Some (set_thread s t (at_pc th Terminating)) else
      match rt_get (tx_write tx) o with
      | Some r => Some (set_thread s t (at_pc th (StoreWrite o r f v p)))
      | None => Some (set_thread s t (at_pc th (StoreCopy o f v p)))
      end
  | LoadAdd o f k =>
      if unlocked s then
        Some (set_thread s t (with_tx th (mkTx (tx_aborted tx) (rt_add (tx_read tx) o o)
                (tx_write tx)) (LoadRead o o f k)))
      else None
  | LoadRead o r f k =>
      ws ← heap s !! r; v ← ws !! f; Some (set_thread s t (at_pc th (Running (k v))))
  | StoreCopy o f v p =>
      ws ← heap s !! o;
      match heap s !! c with
      | None => Some (set_thread (set_heap s (<[c := ws]> (heap s))) t (at_pc th (StoreAdd o c f v p)))
      | Some _ => None
      end
  | StoreAdd o c f v p =>
      if unlocked s then
        Some (set_thread s t (with_tx th (mkTx (tx_aborted tx) (tx_read tx)
                (rt_add (tx_write tx) o c)) (StoreWrite o c f v p)))
      else None
  | StoreWrite o r f v p =>
      ws ← heap s !! r;
      if f <? length ws then
        Some (set_thread (set_heap s (<[r := <[f := v]> ws]> (heap s))) t (at_pc th (Running p)))
      else None
  | Terminating =>
      if unlocked s && tx_aborted tx
      then Some (mkState (heap s) None (delete t (threads s)) (committed s)) else None
  | Committing [] => Some (mkState (heap s) None (delete t (threads s)) (committed s ++ [th_body th]))
  | Committing ((o, c) :: todo) =>
      h ← commit_pair (heap s) (mkCellPair o c);
      Some (set_thread (set_heap s h) t (at_pc th (Committing todo)))
  end.

Definition exec (s : State M) (a : action) : option (State M) :=
  match a with
  | AStart t p =>
      match threads s !! t with
      | Some _ => None
      | None => if unlocked s then Some (set_thread s t (mkThread p new_tx (Running p))) else None
      end
  | AStep t c => th ← threads s !! t; exec_thread s t th c
  | ATest t =>
      th ← threads s !! t;
      match th_pc th with
      | Running Done => Some (set_thread s t (with_tx th (abort_tx (th_tx th)) (Running Done)))
      | _ => None
      end
  end.

Fixpoint exec_all (s : State M) (l : list action) : option (State M) :=
  match l with
  | [] => Some s
  | a :: l => s' ← exec s a; exec_all s' l
  end.

Definition action_allowed (allowed : prog -> Prop) (a : action) : Prop :=
  match a with AStart _ p => allowed p | _ => True end.

Lemma unlocked_None (s : State M) : unlocked s = true -> lock s = None.
Proof. unfold unlocked. by destruct (lock s). Qed.

Lemma exec_thread_step allowed s t th c s' :
  threads s !! t = Some th -> exec_thread s t th c = Some s' -> step allowed s s'.
Proof.
  intros Ht. unfold exec_thread. destruct (th_pc th) as [[|o f k|o f v p]|o f k|o r f k|o f v p|o c' f v p|o r f v p| |[|[o c'] todo]] eqn:Hp.
  - destruct (unlocked s) eqn:Hl; [|done]. apply unlocked_None in Hl.
    destruct (tx_aborted (th_tx th)) eqn:Ha; intros [= <-].
    + eapply step_commit_aborted; eauto.
    + by apply step_commit_begin.
  - destruct (tx_aborted (th_tx th)) eqn:Ha; [intros [= <-]; by eapply step_load_terminate|].
    destruct (rt_get (tx_write (th_tx th)) o) eqn:Hw; [intros [= <-]; by eapply step_load_own|].
    destruct (rt_get (tx_read (th_tx th)) o) eqn:Hr; intros [= <-];
      [by eapply step_load_again|by eapply step_load_first].
  - destruct (tx_aborted (th_tx th)) eqn:Ha; [intros [= <-]; by eapply step_store_terminate|].
    destruct (rt_get (tx_write (th_tx th)) o) eqn:Hw; intros [= <-];
      [by eapply step_store_own|by eapply step_store_first].
  - destruct (unlocked s) eqn:Hl; [|done]. intros [= <-]. by apply step_load_add, unlocked_None.
  - destruct (heap s !! r) as [ws|] eqn:Hr; cbn; [|done].
    destruct (ws !! f) as [v|] eqn:Hv; cbn; [|done]. intros [= <-]. by eapply step_load_read.
  - destruct (heap s !! o) as [ws|] eqn:Ho; cbn; [|done].
    destruct (heap s !! c) eqn:Hc; [done|]. intros [= <-]. by apply step_store_copy.
  - destruct (unlocked s) eqn:Hl; [|done]. intros [= <-]. by apply step_store_add, unlocked_None.
  - destruct (heap s !! r) as [ws|] eqn:Hr; cbn [mbind option_bind]; [|done].
    destruct (Nat.ltb_spec f (length ws)); [|done]. intros [= <-]. by eapply step_store_write.
  - destruct (unlocked s) eqn:Hl; [|done]. destruct (tx_aborted (th_tx th)) eqn:Ha; [|done].
    intros [= <-]. eapply step_commit_aborted; eauto using unlocked_None.
  - intros [= <-]. by apply step_commit_end.
  - destruct (commit_pair (heap s) (mkCellPair o c')) eqn:Hc; cbn; [|done]. intros [= <-].
    by eapply step_commit_copy.
Qed.

Lemma exec_step allowed s a s' :
  action_allowed allowed a -> exec s a = Some s' -> step allowed s s'.
Proof.
  destruct a as [t p|t c|t]; cbn; intros Hal.
  - destruct (threads s !! t) eqn:Ht; [done|]. destruct (unlocked s) eqn:Hl; [|done].
    intros [= <-]. apply step_start; [done|by apply unlocked_None|done].
  - destruct (threads s !! t) as [th|] eqn:Ht; cbn; [|done]. by eapply exec_thread_step.
  - destruct (threads s !! t) as [th|] eqn:Ht; cbn; [|done].
    destruct (th_pc th) as [[| |]| | | | | | |] eqn:Hp; try done. intros [= <-].
    by apply step_commit_testing.
Qed.

Lemma exec_all_reachable allowed h l s :
  Forall (action_allowed allowed) l -> exec_all (init h) l = Some s -> reachable allowed h s.
Proof.
  intros Hal. unfold reachable. generalize (init (M := M) h) as s0.
  induction Hal as [|a l Ha _ IH]; cbn; intros s0.
  - by intros [= <-].
  - destruct (exec s0 a) as [s1|] eqn:E; cbn; [|done]. intros H.
    eapply rtc_l; [by eapply exec_step|by apply IH].
Qed.
End Exec.

(** ** The lost update *)

(** Two events that store into different fields of one object, the first
    without having loaded it. *)
Definition blind_store (o : Object) (f : nat) (v : Z) : prog := Store o f v Done.

(** Thread 1 copies the object; thread 2 runs and commits; thread 1 goes on. *)
Definition lost_update_schedule : list action :=
  [AStart 1 (blind_store 1 0 7); AStep 1 0; AStep 1 100;
   AStart 2 (blind_store 1 1 8); AStep 2 0; AStep 2 101; AStep 2 0; AStep 2 0;
   AStep 2 0; AStep 2 0; AStep 2 0;
   AStep 1 0; AStep 1 0; AStep 1 0; AStep 1 0; AStep 1 0].

Definition lost_update_heap : Heap := {[ 1%Z := [0%Z; 0%Z] ]}.

(** The object after the schedule, and the bodies that committed. *)
Definition lost_update_run : option (option nat * option (list Z) * nat * list prog) :=
  s ← exec_all (M := CellMap) (init lost_update_heap) lost_update_schedule;
  Some (lock s, heap s !! 1%Z, size (threads s), committed s).

(** ** Serial runs, computed *)

Fixpoint run (p : prog) (h : Heap) : option Heap :=
  match p with
  | Done => Some h
  | Load o f k => ws ← h !! o; v ← ws !! f; run (k v) h
  | Store o f v p =>
      ws ← h !! o; if f <? length ws then run p (<[o := <[f := v]> ws]> h) else None
  end.

Fixpoint run_all (ps : list prog) (h : Heap) : option Heap :=
  match ps with [] => Some h | p :: ps => h' ← run p h; run_all ps h' end.

Lemma run_pstep A p h p' h' : pstep A (p, h) (p', h') -> run p h = run p' h'.
Proof.
  inversion 1 as [o f k h1 ws v HA Ho Hv|o f v q h1 ws HA Ho Hf]; subst;
    cbn [run]; rewrite Ho; cbn [mbind option_bind].
  - by rewrite Hv.
  - by destruct (Nat.ltb_spec f (length ws)); [|lia].
Qed.

Lemma runs_run p h h' : runs p h h' <-> run p h = Some h'.
Proof.
  split.
  - unfold runs. intros H. remember (p, h) as x eqn:Ex. remember (Done, h') as y eqn:Ey.
    revert p h Ex Ey. induction H as [x|x [p1 h1] y Hs _ IH]; intros p h Ex Ey; subst.
    + by injection Ey as -> ->.
    + rewrite (run_pstep _ _ _ _ _ Hs). by apply IH.
  - unfold runs. revert h. induction p as [|o f k IH|o f v p IH]; intros h; cbn [run].
    + by intros [= <-].
    + destruct (h !! o) as [ws|] eqn:Ho; cbn [mbind option_bind]; [|done].
      destruct (ws !! f) as [v|] eqn:Hv; cbn [mbind option_bind]; [|done]. intros H.
      eapply rtc_l; [by econstructor|]. by apply IH.
    + destruct (h !! o) as [ws|] eqn:Ho; cbn [mbind option_bind]; [|done].
      destruct (Nat.ltb_spec f (length ws)); [|done]. intros Hrun.
      eapply rtc_l; [by econstructor|]. by apply IH.
Qed.

Lemma run_all_snoc ps p h : run_all (ps ++ [p]) h = (h' ← run_all ps h; run p h').
Proof.
  revert h; induction ps as [|q ps IH]; intros h; cbn.
  - by destruct (run p h).
  - destruct (run q h); [apply IH|done].
Qed.

Lemma serial_run_all ps h h' : serial ps h h' -> run_all ps h = Some h'.
Proof.
  induction 1 as [|ps p h h1 h2 _ IH Hr]; [done|]. rewrite run_all_snoc, IH. cbn.
  by apply runs_run.
Qed.

Lemma lost_update_run_value :
  lost_update_run = Some (None, Some [7%Z; 0%Z], 0, [blind_store 1 1 8; blind_store 1 0 7]).
Proof. by vm_compute. Qed.

(** C5: an update can get lost.  [RedirectStore] copies the object before it
    enters it in the write set, and only the second is done under the lock: a
    commit in between is not noticed.  There is an execution in which two events
    that each store into their own field of one object both commit, no commit
    is under way and no thread is left, and one of the two stores is gone: no
    order of the two events gives this heap. *)
Theorem blind_store_lost_update :
  exists s : State CellMap,
    reachable (fun _ => True) lost_update_heap s /\ lock s = None /\ threads s = ∅
    /\ committed s = [blind_store 1 1 8; blind_store 1 0 7]
    /\ heap s !! 1%Z = Some [7%Z; 0%Z]
    /\ forall ps hs, Permutation ps (committed s) -> serial ps lost_update_heap hs ->
         hs !! 1%Z = Some [7%Z; 8%Z].
Proof.
  pose proof lost_update_run_value as Hrun. unfold lost_update_run in Hrun.
  destruct (exec_all (M := CellMap) (init lost_update_heap) lost_update_schedule) as [s|] eqn:E;
    [|done].
  cbn in Hrun. injection Hrun as Hl Hh Ht Hc. exists s.
  split; [|split; [done|split; [by apply map_size_empty_iff|split; [done|split; [done|]]]]].
  - eapply exec_all_reachable; [|exact E]. apply list.Forall_forall. by intros [] _.
  - intros ps hs Hp Hs. rewrite Hc in Hp. symmetry in Hp. apply Permutation_length_2_inv in Hp.
    apply serial_run_all in Hs.
    destruct Hp as [-> | ->]; vm_compute in Hs; injection Hs as <-; done.
Qed.

(** ** Witnesses *)

(** [counters.primes += n], as in w16/primes.js. *)
Definition increment (o : Object) (f : nat) (n : Z) : prog :=
  Load o f (fun v => Store o f (v + n) Done).

(** Two increments of one counter: thread 2 loads the counter before thread 1
    commits, is aborted, unwinds, and runs its event again. *)
Definition counter_schedule : list action :=
  [AStart 1 (increment 1 0 5); AStart 2 (increment 1 0 6);
   AStep 1 0; AStep 1 0; AStep 1 0; AStep 2 0; AStep 2 0; AStep 2 0;
   AStep 1 0; AStep 1 100; AStep 1 0; AStep 1 0; AStep 1 0; AStep 1 0; AStep 1 0;
   AStep 2 0; AStep 2 0; AStart 2 (increment 1 0 6);
   AStep 2 0; AStep 2 0; AStep 2 0; AStep 2 0; AStep 2 101; AStep 2 0; AStep 2 0; AStep 2 0;
   AStep 2 0; AStep 2 0].

Definition counter_run (n : nat) : option (option nat * option (list Z) * option bool) :=
  s ← exec_all (M := CellMap) (init lost_update_heap) (take n counter_schedule);
  Some (lock s, heap s !! 1%Z, (fun th => tx_aborted (th_tx th)) <$> threads s !! 2).

Example counter_run_value :
  counter_run 16 = Some (None, Some [5%Z; 0%Z], Some true)
  /\ counter_run 28 = Some (None, Some [11%Z; 0%Z], None).
Proof. by vm_compute. Qed.

Lemma increment_load_first f n :
  load_first (fun o => is_Some (lost_update_heap !! o)) (fun _ => False) (increment 1 f n).
Proof. cbn. split; [by eexists|]. intros v. split; [by eexists|]. auto. Qed.

Lemma counter_reachable n s :
  exec_all (M := CellMap) (init lost_update_heap) (take n counter_schedule) = Some s ->
  reachable (load_first (fun o => is_Some (lost_update_heap !! o)) (fun _ => False))
    lost_update_heap s.
Proof.
  apply exec_all_reachable. apply Forall_take. unfold counter_schedule.
  repeat (apply Forall_cons_2; [first [exact I|apply increment_load_first]|]).
  apply Forall_nil_2.
Qed.

Definition counter_state (n : nat) : State CellMap :=
  match exec_all (M := CellMap) (init lost_update_heap) (take n counter_schedule) with
  | Some s => s
  | None => init lost_update_heap
  end.

Lemma counter_state_reachable n :
  reachable (load_first (fun o => is_Some (lost_update_heap !! o)) (fun _ => False))
    lost_update_heap (counter_state n).
Proof.
  unfold counter_state.
  destruct (exec_all (M := CellMap) (init lost_update_heap) (take n counter_schedule)) eqn:E;
    [by eapply counter_reachable|apply rtc_refl].
Qed.

Lemma committed_serializable_witness :
  exists hs, serial [increment 1 0 5; increment 1 0 6] lost_update_heap hs
    /\ hs !! 1%Z = Some [11%Z; 0%Z].
Proof.
  destruct (committed_serializable lost_update_heap (counter_state 28)
              (counter_state_reachable 28) ltac:(vm_compute; reflexivity)) as (hs & Hs & Hh).
  exists hs. split.
  - assert (E : committed (counter_state 28) = [increment 1 0 5; increment 1 0 6])
      by (vm_compute; reflexivity).
    rewrite <- E. exact Hs.
  - rewrite <- Hh by (eexists; reflexivity). vm_compute. reflexivity.
Defined.

Lemma running_consistent_witness :
  exists h', rtc (pstep (fun _ => True)) (increment 1 0 5, lost_update_heap) (Store 1 0 5 Done, h')
    /\ h' !! 1%Z = Some [0%Z; 0%Z].
Proof.
  destruct (threads (counter_state 5) !! 1) as [th|] eqn:Ht; [|by vm_compute in Ht].
  destruct (running_consistent lost_update_heap (counter_state 5) 1 th (Store 1 0 5 Done))
    as (h' & Hr & Hv).
  - apply counter_state_reachable.
  - exact Ht.
  - vm_compute in Ht. by injection Ht as <-.
  - vm_compute in Ht. by injection Ht as <-.
  - exists h'. split.
    + assert (Hb : th_body th = increment 1 0 5) by (vm_compute in Ht; by injection Ht as <-).
      assert (Hh : heap (counter_state 5) = lost_update_heap) by (vm_compute; reflexivity).
      rewrite Hb, Hh in Hr. exact Hr.
    + rewrite Hv by (eexists; reflexivity). vm_compute in Ht. by injection Ht as <-.
Defined.
