(* ===== verification/GcProtocol.v ===== *)
(** * GcProtocol: stopping all transactions for a garbage collection

    Models the allocation and collection scopes of [STM] in src/stm.cc
    ([EnterAllocationScope] ... [PauseForGC]), the locking part of
    [StartTransaction] and [CommitTransaction], the scope objects
    [AllocationScope] and [CollectionScope] of src/heap.cc with the destructor
    of the latter, and the recursive mutexes and the semaphore of
    src/platform-linux.cc.  Every call that blocks, and every access to a
    variable another thread writes, is a step of its own.

    A thread has one transaction at a time, so a transaction is named by its
    thread.  [FLAG_stm] is on. *)

From S2P Require Import Prelude.

Abbreviation tid := nat.

(** ** Mutexes and semaphores (src/platform-linux.cc) *)

(** A [PTHREAD_MUTEX_RECURSIVE] mutex: its owner and how often it is locked. *)
Abbreviation Mutex := (option (tid * nat)).

(** [Lock]: [None] while the caller has to wait. *)
Definition Mutex_Lock (t : tid) (m : Mutex) : option Mutex :=
  match m with
  | None => Some (Some (t, 1))
  | Some (o, n) => if o =? t then Some (Some (o, S n)) else None
  end.

(** [Unlock] by a thread that is not the owner fails with [EPERM], which the
    callers ignore: nothing happens. *)
Definition Mutex_Unlock (t : tid) (m : Mutex) : Mutex :=
  match m with
  | None => None
  | Some (o, n) =>
      if o =? t then match n with 0 | 1 => None | S n' => Some (o, n') end else m
  end.

Definition owner (m : Mutex) : option tid := fst <$> m.

(** ** State *)

(** The fields of a [Transaction] the protocol uses; [done_gc_] is the count of
    its semaphore, [None] for the null pointer. *)
Record Trans := mkTrans { gc_mutex_ : Mutex; done_gc_ : option nat }.

(** What to do after a pause, and after a collection: a collection is nested
    into an allocation scope ([true], [CALL_AND_RETRY]) or not
    ([Runtime::PerformGC]). *)
Inductive Resume := ToAllocation | ToSkip (nested : bool).

Inductive Pc :=
  | Outside                              (* between two transactions *)
  | StartLock                            (* StartTransaction, before the lock *)
  | Mutator                              (* running the event *)
  | AllocCheck                           (* EnterAllocationScope: PauseForGC *)
  | AllocLock                            (* ... heap_mutex_->Lock() *)
  | InAlloc                              (* in the allocation scope *)
  | CollectCas (nested : bool)           (* EnterCollectionScope: compare-and-swap *)
  | SkipCheck (nested : bool)            (* ... PauseForGC, GC pending elsewhere *)
  | CollectLock (nested : bool)          (* ... transactions_mutex_->Lock() *)
  | CollectWait (i : nat) (nested : bool)   (* ... loop over transactions_ *)
  | InGC (nested : bool)                 (* the collection itself *)
  | LeaveCas (nested : bool)             (* ~CollectionScope: LeaveCollectionScope *)
  | LeaveLoop (i : nat) (nested : bool)
  | LeaveUnlock (nested : bool)
  | PauseReset (k : Resume)              (* PauseForGC after its test *)
  | PauseUnlock (k : Resume)
  | PauseWait (k : Resume)
  | PauseLock (k : Resume)
  | CommitUnlockGC                       (* CommitTransaction *)
  | CommitLock1                          (* ... commit_mutex_ *)
  | CommitLock2                          (* ... transactions_mutex_ *)
  | CommitLockGC
  | CommitBody.                          (* conflicts, CommitHeap, removal *)

Record State := mkState {
  need_gc_ : bool;
  heap_mutex_ : Mutex;
  commit_mutex_ : Mutex;
  transactions_mutex_ : Mutex;
  transactions_ : list tid;
  trans : gmap tid Trans;
  pcs : gmap tid Pc
}.

Definition set_pc (s : State) (t : tid) (c : Pc) : State :=
  mkState (need_gc_ s) (heap_mutex_ s) (commit_mutex_ s) (transactions_mutex_ s)
    (transactions_ s) (trans s) (<[t := c]> (pcs s)).
Definition set_need_gc (s : State) (b : bool) : State :=
  mkState b (heap_mutex_ s) (commit_mutex_ s) (transactions_mutex_ s)
    (transactions_ s) (trans s) (pcs s).
Definition set_heap_mutex (s : State) (m : Mutex) : State :=
  mkState (need_gc_ s) m (commit_mutex_ s) (transactions_mutex_ s)
    (transactions_ s) (trans s) (pcs s).
Definition set_commit_mutex (s : State) (m : Mutex) : State :=
  mkState (need_gc_ s) (heap_mutex_ s) m (transactions_mutex_ s)
    (transactions_ s) (trans s) (pcs s).
Definition set_transactions_mutex (s : State) (m : Mutex) : State :=
  mkState (need_gc_ s) (heap_mutex_ s) (commit_mutex_ s) m
    (transactions_ s) (trans s) (pcs s).
Definition set_transactions (s : State) (l : list tid) : State :=
  mkState (need_gc_ s) (heap_mutex_ s) (commit_mutex_ s) (transactions_mutex_ s)
    l (trans s) (pcs s).
Definition set_trans (s : State) (m : gmap tid Trans) : State :=
  mkState (need_gc_ s) (heap_mutex_ s) (commit_mutex_ s) (transactions_mutex_ s)
    (transactions_ s) m (pcs s).

(** ** Methods of a transaction *)

(** The constructor locks [gc_mutex_]. *)
Definition new_Trans (t : tid) : Trans := mkTrans (Some (t, 1)) None.

Definition LockGC (caller target : tid) (s : State) : option State :=
  tr ← trans s !! target;
  m ← Mutex_Lock caller (gc_mutex_ tr);
  Some (set_trans s (<[target := mkTrans m (done_gc_ tr)]> (trans s))).

Definition UnlockGC (caller target : tid) (s : State) : State :=
  match trans s !! target with
  | Some tr =>
      set_trans s (<[target := mkTrans (Mutex_Unlock caller (gc_mutex_ tr)) (done_gc_ tr)]> (trans s))
  | None => s
  end.

Definition ResetDoneGC (t : tid) (s : State) : option State :=
  tr ← trans s !! t;
  Some (set_trans s (<[t := mkTrans (gc_mutex_ tr) (Some 0)]> (trans s))).

(** Waits for the count to be positive; then the semaphore is deleted. *)
Definition WaitDoneGC (t : tid) (s : State) : option State :=
  tr ← trans s !! t;
  match done_gc_ tr with
  | Some (S _) => Some (set_trans s (<[t := mkTrans (gc_mutex_ tr) None]> (trans s)))
  | _ => None
  end.

Definition SignalDoneGC (target : tid) (s : State) : State :=
  match trans s !! target with
  | Some tr =>
      set_trans s (<[target := mkTrans (gc_mutex_ tr) (S <$> done_gc_ tr)]> (trans s))
  | None => s
  end.

(** [List<T>::RemoveElement]: the first occurrence goes. *)
Fixpoint RemoveElement (elm : tid) (l : list tid) : list tid :=
  match l with
  | [] => []
  | x :: l => if x =? elm then l else x :: RemoveElement elm l
  end.

(** ** Steps *)

(** What the running event does next. *)
Inductive Choice := Start | Allocate | Collect | Leave | Commit.

(** After [LeaveCollectionScope]. *)
Definition after_collection (nested : bool) : Pc := if nested then InAlloc else Mutator.

(** After [PauseForGC]: take the heap lock, or return [false] from
    [EnterCollectionScope], whose scope object is then destroyed. *)
Definition after_pause (k : Resume) : Pc :=
  match k with ToAllocation => AllocLock | ToSkip nested => LeaveCas nested end.

Definition exec (s : State) (t : tid) (ch : Choice) : option State :=
  c ← pcs s !! t;
  match c with
  | Outside =>
      match ch with
      | Start => Some (set_pc (set_trans s (<[t := new_Trans t]> (trans s))) t StartLock)
      | _ => None
      end
  | StartLock =>
      match transactions_mutex_ s with
      | None => Some (set_pc (set_transactions s (transactions_ s ++ [t])) t Mutator)
      | Some _ => None
      end
  | Mutator =>
      match ch with
      | Allocate => Some (set_pc s t AllocCheck)
      | Collect => Some (set_pc s t (CollectCas false))
      | Commit => Some (set_pc s t CommitUnlockGC)
      | _ => None
      end
  (* EnterAllocationScope, LeaveAllocationScope *)
  | AllocCheck =>
      Some (set_pc s t (if need_gc_ s then PauseReset ToAllocation else AllocLock))
  | AllocLock =>
      m ← Mutex_Lock t (heap_mutex_ s); Some (set_pc (set_heap_mutex s m) t InAlloc)
  | InAlloc =>
      match ch with
      | Collect => Some (set_pc s t (CollectCas true))
      | Leave => Some (set_pc (set_heap_mutex s (Mutex_Unlock t (heap_mutex_ s))) t Mutator)
      | _ => None
      end
  (* EnterCollectionScope *)
  | CollectCas nested =>
      if need_gc_ s then Some (set_pc s t (SkipCheck nested))
      else Some (set_pc (set_need_gc s true) t (CollectLock nested))
  | SkipCheck nested =>
      Some (set_pc s t (if need_gc_ s then PauseReset (ToSkip nested) else LeaveCas nested))
  | CollectLock nested =>
      m ← Mutex_Lock t (transactions_mutex_ s);
      Some (set_pc (set_transactions_mutex s m) t (CollectWait 0 nested))
  | CollectWait i nested =>
      match transactions_ s !! i with
      | None => Some (set_pc s t (InGC nested))
      | Some t' =>
          if t' =? t then Some (set_pc s t (CollectWait (S i) nested))
          else s' ← LockGC t t' s; Some (set_pc s' t (CollectWait (S i) nested))
      end
  | InGC nested => Some (set_pc s t (LeaveCas nested))
  (* LeaveCollectionScope: also run when the collection was skipped *)
  | LeaveCas nested => Some (set_pc (set_need_gc s false) t (LeaveLoop 0 nested))
  | LeaveLoop i nested =>
      match transactions_ s !! i with
      | None => Some (set_pc s t (LeaveUnlock nested))
      | Some t' =>
          if t' =? t then Some (set_pc s t (LeaveLoop (S i) nested))
          else Some (set_pc (SignalDoneGC t' (UnlockGC t t' s)) t (LeaveLoop (S i) nested))
      end
  | LeaveUnlock nested =>
      Some (set_pc (set_transactions_mutex s (Mutex_Unlock t (transactions_mutex_ s))) t
              (after_collection nested))
  (* PauseForGC *)
  | PauseReset k => s' ← ResetDoneGC t s; Some (set_pc s' t (PauseUnlock k))
  | PauseUnlock k => Some (set_pc (UnlockGC t t s) t (PauseWait k))
  | PauseWait k => s' ← WaitDoneGC t s; Some (set_pc s' t (PauseLock k))
  | PauseLock k => s' ← LockGC t t s; Some (set_pc s' t (after_pause k))
  (* CommitTransaction *)
  | CommitUnlockGC => Some (set_pc (UnlockGC t t s) t CommitLock1)
  | CommitLock1 =>
      m ← Mutex_Lock t (commit_mutex_ s); Some (set_pc (set_commit_mutex s m) t CommitLock2)
  | CommitLock2 =>
      m ← Mutex_Lock t (transactions_mutex_ s);
      Some (set_pc (set_transactions_mutex s m) t CommitLockGC)
  | CommitLockGC => s' ← LockGC t t s; Some (set_pc s' t CommitBody)
  | CommitBody =>
      let s1 := set_transactions s (RemoveElement t (transactions_ s)) in
      let s2 := set_trans s1 (delete t (trans s1)) in
      let s3 := set_transactions_mutex s2 (Mutex_Unlock t (transactions_mutex_ s2)) in
      Some (set_pc (set_commit_mutex s3 (Mutex_Unlock t (commit_mutex_ s3))) t Outside)
  end.

Inductive step : State -> State -> Prop :=
  | step_exec s t ch s' : exec s t ch = Some s' -> step s s'.

(** The threads before any transaction starts. *)
Definition init (ts : list tid) : State :=
  mkState false None None None [] ∅ (list_to_map ((fun t => (t, Outside)) <$> ts)).

Definition reachable (ts : list tid) (s : State) : Prop := rtc step (init ts) s.

(** ** Invariant *)

Definition gc_owner (s : State) (t : tid) : option tid :=
  tr ← trans s !! t; owner (gc_mutex_ tr).

(** The thread has an entry in [transactions_]. *)
Definition registered (c : Pc) : bool :=
  match c with Outside | StartLock => false | _ => true end.

(** The thread may touch the heap, or has still to give up its GC lock before
    it stops. *)
Definition exposed (c : Pc) : bool :=
  match c with
  | Outside | StartLock | PauseWait _ | PauseLock _ | CommitLock1 | CommitLock2 | CommitLockGC => false
  | _ => true
  end.

(** The thread holds the GC lock of its own transaction. *)
Definition owns_gc (c : Pc) : bool :=
  match c with StartLock => true | _ => exposed c end.

Definition holds_transactions (c : Pc) : bool :=
  match c with CollectWait _ _ | InGC _ | CommitLockGC | CommitBody => true | _ => false end.

(** How many entries of [transactions_] a collector has locked. *)
Definition locked_upto (s : State) (c : Pc) : nat :=
  match c with CollectWait i _ => i | InGC _ => length (transactions_ s) | _ => 0 end.

Record inv (s : State) : Prop := {
  in_nodup : NoDup (transactions_ s);
  in_reg : forall t c, pcs s !! t = Some c -> t ∈ transactions_ s <-> registered c = true;
  in_run : forall t c, pcs s !! t = Some c -> owns_gc c = true -> gc_owner s t = Some t;
  in_tm : forall t c, pcs s !! t = Some c -> holds_transactions c = true ->
    owner (transactions_mutex_ s) = Some t;
  in_locked : forall t c j t', pcs s !! t = Some c -> j < locked_upto s c ->
    transactions_ s !! j = Some t' -> t' <> t -> gc_owner s t' = Some t
}.

Lemma owner_Lock t m m' : Mutex_Lock t m = Some m' -> owner m' = Some t.
Proof.
  destruct m as [[o n]|]; cbn; [|by intros [= <-]].
  destruct (Nat.eqb_spec o t) as [->|]; [by intros [= <-]|done].
Qed.

Lemma Lock_foreign t u m : owner m = Some u -> u <> t -> Mutex_Lock t m = None.
Proof.
  destruct m as [[o n]|]; cbn; [|done]. intros [= ->] Hne.
  by destruct (Nat.eqb_spec u t).
Qed.

Lemma Unlock_foreign t u m : owner m = Some u -> u <> t -> Mutex_Unlock t m = m.
Proof.
  destruct m as [[o n]|]; cbn; [|done]. intros [= ->] Hne.
  by destruct (Nat.eqb_spec u t).
Qed.

Lemma elem_of_RemoveElement t x l : x <> t -> x ∈ RemoveElement t l <-> x ∈ l.
Proof.
  intros Hne. induction l as [|y l IH]; cbn; [done|].
  destruct (Nat.eqb_spec y t) as [->|]; rewrite !elem_of_cons; [|by rewrite IH].
  split; [auto|]. by intros [->|].
Qed.

Lemma NoDup_RemoveElement t l : NoDup l -> NoDup (RemoveElement t l) /\ t ∉ RemoveElement t l.
Proof.
  induction l as [|y l IH]; cbn; intros Hnd; [split; [done|apply not_elem_of_nil]|].
  apply NoDup_cons in Hnd as [Hy Hnd]. destruct (IH Hnd) as [H1 H2].
  destruct (Nat.eqb_spec y t) as [->|Hne]; [done|]. split.
  - constructor; [|done]. by rewrite elem_of_RemoveElement.
  - by intros [->|]%elem_of_cons.
Qed.

(** ** What a step of one thread leaves alone *)

Ltac unfold_setters :=
  unfold set_pc, set_need_gc, set_heap_mutex, set_commit_mutex, set_transactions_mutex,
    set_transactions, set_trans in *; cbn [need_gc_ heap_mutex_ commit_mutex_ transactions_mutex_
    transactions_ trans pcs] in *.

Lemma LockGC_spec caller target s s' :
  LockGC caller target s = Some s' ->
  gc_owner s' target = Some caller
  /\ (forall t' u, u <> caller -> gc_owner s t' = Some u -> gc_owner s' t' = Some u)
  /\ (forall t', t' <> target -> gc_owner s' t' = gc_owner s t')
  /\ exists m, s' = set_trans s m.
Proof.
  unfold LockGC, gc_owner. destruct (trans s !! target) as [tr|] eqn:E; cbn [mbind option_bind]; [|done].
  destruct (Mutex_Lock caller (gc_mutex_ tr)) as [m|] eqn:Em; cbn [mbind option_bind]; [|done].
  intros [= <-]. unfold_setters. split; [|split; [|split; [|by eexists]]].
  - rewrite lookup_insert_eq. by eapply owner_Lock.
  - intros t' u Hne. destruct (decide (target = t')) as [<-|Hd].
    + rewrite E. cbn. intros Ho. by rewrite (Lock_foreign _ _ _ Ho Hne) in Em.
    + by rewrite lookup_insert_ne.
  - intros t' Hne. by rewrite lookup_insert_ne.
Qed.

Lemma UnlockGC_spec caller target s :
  (forall t' u, u <> caller -> gc_owner s t' = Some u -> gc_owner (UnlockGC caller target s) t' = Some u)
  /\ (forall t', t' <> target -> gc_owner (UnlockGC caller target s) t' = gc_owner s t')
  /\ exists m, UnlockGC caller target s = set_trans s m.
Proof.
  unfold UnlockGC, gc_owner. destruct (trans s !! target) as [tr|] eqn:E.
  - unfold_setters. split; [|split; [|by eexists]].
    + intros t' u Hne. destruct (decide (target = t')) as [<-|Hd].
      * rewrite lookup_insert_eq, E. cbn. intros Ho. by rewrite (Unlock_foreign _ _ _ Ho Hne).
      * by rewrite lookup_insert_ne.
    + intros t' Hne. by rewrite lookup_insert_ne.
  - split; [done|split; [done|]]. exists (trans s). by destruct s.
Qed.

Lemma gc_owner_done s t tr d t' :
  trans s !! t = Some tr ->
  gc_owner (set_trans s (<[t := mkTrans (gc_mutex_ tr) d]> (trans s))) t' = gc_owner s t'.
Proof.
  intros E. unfold gc_owner. unfold_setters. destruct (decide (t = t')) as [<-|].
  - by rewrite lookup_insert_eq, E.
  - by rewrite lookup_insert_ne.
Qed.

Lemma SignalDoneGC_spec target s :
  (forall t', gc_owner (SignalDoneGC target s) t' = gc_owner s t')
  /\ exists m, SignalDoneGC target s = set_trans s m.
Proof.
  unfold SignalDoneGC. destruct (trans s !! target) as [tr|] eqn:E.
  - split; [|by eexists]. intros t'. by apply gc_owner_done.
  - split; [done|]. exists (trans s). by destruct s.
Qed.

Lemma ResetDoneGC_spec t s s' :
  ResetDoneGC t s = Some s' ->
  (forall t', gc_owner s' t' = gc_owner s t') /\ exists m, s' = set_trans s m.
Proof.
  unfold ResetDoneGC. destruct (trans s !! t) as [tr|] eqn:E; cbn; [|done]. intros [= <-].
  split; [|by eexists]. intros t'. by apply gc_owner_done.
Qed.

Lemma WaitDoneGC_spec t s s' :
  WaitDoneGC t s = Some s' ->
  (forall t', gc_owner s' t' = gc_owner s t') /\ exists m, s' = set_trans s m.
Proof.
  unfold WaitDoneGC. destruct (trans s !! t) as [tr|] eqn:E; cbn; [|done].
  destruct (done_gc_ tr) as [[|n]|]; [done| |done]. intros [= <-].
  split; [|by eexists]. intros t'. by apply gc_owner_done.
Qed.

(** ** Preservation *)

(** A step of [t] that leaves [transactions_] alone. *)
Lemma inv_local s s' t c c' :
  inv s -> pcs s !! t = Some c ->
  pcs s' = <[t := c']> (pcs s) -> transactions_ s' = transactions_ s ->
  registered c' = registered c ->
  (forall t' u, u <> t -> gc_owner s t' = Some u -> gc_owner s' t' = Some u) ->
  (forall u, u <> t -> owner (transactions_mutex_ s) = Some u -> owner (transactions_mutex_ s') = Some u) ->
  (owns_gc c' = true -> gc_owner s' t = Some t) ->
  (holds_transactions c' = true -> owner (transactions_mutex_ s') = Some t) ->
  (forall j t', j < locked_upto s' c' -> transactions_ s !! j = Some t' -> t' <> t ->
     gc_owner s' t' = Some t) ->
  inv s'.
Proof.
  intros I Ht Hpc Htr Hreg Hgc Htm Hexp Hold Hlk.
  assert (Hcase : forall t2 c2, pcs s' !! t2 = Some c2 ->
    t2 = t /\ c2 = c' \/ t2 <> t /\ pcs s !! t2 = Some c2).
  { intros t2 c2. rewrite Hpc. destruct (decide (t = t2)) as [<-|Hne].
    - rewrite lookup_insert_eq. intros [= <-]. by left.
    - rewrite lookup_insert_ne by done. auto. }
  split; rewrite ?Htr.
  - apply I.
  - intros t2 c2 [[-> ->]|[Hne H2]]%Hcase; [rewrite Hreg|]; by apply (in_reg _ I).
  - intros t2 c2 [[-> ->]|[Hne H2]]%Hcase He; [by apply Hexp|]. apply Hgc; [done|].
    by apply (in_run _ I t2 c2).
  - intros t2 c2 [[-> ->]|[Hne H2]]%Hcase He; [by apply Hold|]. apply Htm; [done|].
    by apply (in_tm _ I t2 c2).
  - intros t2 c2 j t' [[-> ->]|[Hne H2]]%Hcase Hj Hl Hn; [by eapply Hlk|]. apply Hgc; [done|].
    apply (in_locked _ I t2 c2 j); [done| |done|done].
    unfold locked_upto in *. by rewrite Htr in Hj.
Qed.

(** The same when only the program counter moves. *)
Lemma inv_goto s t c c' :
  inv s -> pcs s !! t = Some c -> registered c' = registered c ->
  (owns_gc c' = true -> owns_gc c = true) -> holds_transactions c' = false ->
  inv (set_pc s t c').
Proof.
  intros I Ht Hr He Hh. apply (inv_local s _ t c c'); try done.
  - intros Hx. by apply (in_run _ I t c), He.
  - by rewrite Hh.
  - intros j t' Hj. destruct c'; cbn in Hj, Hh; try done; lia.
Qed.

Lemma locked_upto_trans s m c : locked_upto (set_trans s m) c = locked_upto s c.
Proof. done. Qed.

Lemma gc_owner_set_pc s t c t' : gc_owner (set_pc s t c) t' = gc_owner s t'.
Proof. done. Qed.

Lemma inv_new_trans s t :
  inv s -> pcs s !! t = Some Outside ->
  inv (set_pc (set_trans s (<[t := new_Trans t]> (trans s))) t StartLock).
Proof.
  intros I Ht.
  assert (Hn : t ∉ transactions_ s) by (rewrite (in_reg _ I t _ Ht); done).
  assert (Hgc : forall t' u, t' <> t -> gc_owner s t' = Some u ->
    gc_owner (set_trans s (<[t := new_Trans t]> (trans s))) t' = Some u).
  { intros t' u Hne Ho. unfold gc_owner. unfold_setters. by rewrite lookup_insert_ne. }
  assert (Hcase : forall t2 c2, <[t := StartLock]> (pcs s) !! t2 = Some c2 ->
    t2 = t /\ c2 = StartLock \/ t2 <> t /\ pcs s !! t2 = Some c2).
  { intros t2 c2. destruct (decide (t = t2)) as [<-|Hne].
    - rewrite lookup_insert_eq. intros [= <-]. by left.
    - rewrite lookup_insert_ne by done. auto. }
  split.
  - apply I.
  - intros t2 c2 [[-> ->]|[Hne H2]]%Hcase; [by rewrite (in_reg _ I t _ Ht)|by apply (in_reg _ I)].
  - intros t2 c2 [[-> ->]|[Hne H2]]%Hcase He.
    + unfold gc_owner. unfold_setters. by rewrite lookup_insert_eq.
    + apply Hgc; [done|]. by apply (in_run _ I t2 c2).
  - intros t2 c2 [[-> ->]|[Hne H2]]%Hcase He; [done|]. by apply (in_tm _ I t2 c2).
  - intros t2 c2 j t' [[-> ->]|[Hne H2]]%Hcase Hj Hl Hd; [cbn in Hj; lia|].
    apply Hgc; [|by apply (in_locked _ I t2 c2 j)]. intros ->. apply Hn.
    by eapply list_elem_of_lookup_2.
Qed.

(** Nobody collects while [transactions_mutex_] is free or someone else's. *)
Lemma not_collecting s t c :
  inv s -> pcs s !! t = Some c -> owner (transactions_mutex_ s) <> Some t ->
  locked_upto s c = 0.
Proof.
  intros I Ht Hn. destruct c; cbn; try done; destruct Hn; by apply (in_tm _ I t _ Ht).
Qed.

Lemma inv_register s t :
  inv s -> pcs s !! t = Some StartLock -> transactions_mutex_ s = None ->
  inv (set_pc (set_transactions s (transactions_ s ++ [t])) t Mutator).
Proof.
  intros I Ht Hm. pose proof (in_run _ I t _ Ht eq_refl) as Ho.
  assert (Hn : t ∉ transactions_ s) by (rewrite (in_reg _ I t _ Ht); done).
  assert (Hcase : forall t2 c2, <[t := Mutator]> (pcs s) !! t2 = Some c2 ->
    t2 = t /\ c2 = Mutator \/ t2 <> t /\ pcs s !! t2 = Some c2).
  { intros t2 c2. destruct (decide (t = t2)) as [<-|Hne].
    - rewrite lookup_insert_eq. intros [= <-]. by left.
    - rewrite lookup_insert_ne by done. auto. }
  split.
  - cbn. apply list.NoDup_app. split; [apply I|]. split; [|apply NoDup_singleton].
    intros x Hx ->%list_elem_of_singleton. done.
  - intros t2 c2 [[-> ->]|[Hne H2]]%Hcase; cbn; rewrite elem_of_app, list_elem_of_singleton.
    + split; [done|by right].
    + rewrite <- (in_reg _ I t2 c2 H2). split; [by intros [|]|by left].
  - intros t2 c2 [[-> ->]|[Hne H2]]%Hcase He; [done|]. by apply (in_run _ I t2 c2).
  - intros t2 c2 [[-> ->]|[Hne H2]]%Hcase He; [done|]. by apply (in_tm _ I t2 c2).
  - intros t2 c2 j t' [[-> ->]|[Hne H2]]%Hcase Hj Hl Hd; [cbn in Hj; lia|].
    pose proof (not_collecting s t2 c2 I H2) as Hz. rewrite Hm in Hz. specialize (Hz ltac:(done)).
    destruct c2; cbn in Hj, Hz; try lia;
      (pose proof (in_tm _ I _ _ H2 eq_refl) as Hx; by rewrite Hm in Hx).
Qed.

Lemma inv_unregister s t s' :
  inv s -> pcs s !! t = Some CommitBody ->
  transactions_ s' = RemoveElement t (transactions_ s) -> trans s' = delete t (trans s) ->
  pcs s' = <[t := Outside]> (pcs s) ->
  (forall u, u <> t -> owner (transactions_mutex_ s) = Some u -> owner (transactions_mutex_ s') = Some u) ->
  inv s'.
Proof.
  intros I Ht Hl Htr Hpc Htm. pose proof (in_tm _ I t _ Ht eq_refl) as Hown.
  destruct (NoDup_RemoveElement t (transactions_ s) (in_nodup _ I)) as [Hnd Hnin].
  assert (Hcase : forall t2 c2, pcs s' !! t2 = Some c2 ->
    t2 = t /\ c2 = Outside \/ t2 <> t /\ pcs s !! t2 = Some c2).
  { intros t2 c2. rewrite Hpc. destruct (decide (t = t2)) as [<-|Hne].
    - rewrite lookup_insert_eq. intros [= <-]. by left.
    - rewrite lookup_insert_ne by done. auto. }
  split; rewrite ?Hl.
  - done.
  - intros t2 c2 [[-> ->]|[Hne H2]]%Hcase; [done|]. rewrite elem_of_RemoveElement by done.
    by apply (in_reg _ I).
  - intros t2 c2 [[-> ->]|[Hne H2]]%Hcase He; [done|]. unfold gc_owner. rewrite Htr.
    rewrite lookup_delete_ne by done. by apply (in_run _ I t2 c2).
  - intros t2 c2 [[-> ->]|[Hne H2]]%Hcase He; [done|]. apply Htm; [done|].
    by apply (in_tm _ I t2 c2).
  - intros t2 c2 j t' [[-> ->]|[Hne H2]]%Hcase Hj; [cbn in Hj; lia|].
    assert (Hz : locked_upto s c2 = 0) by (apply (not_collecting s t2); [done|done|congruence]).
    destruct c2; cbn in Hj, Hz; try lia.
    pose proof (in_tm _ I _ _ H2 eq_refl) as Hx. congruence.
Qed.

(** [inv_local] with the side conditions that hold whenever the sets of locks
    a thread has do not change. *)
Ltac step_local I Ht :=
  eapply inv_local; try done;
  try (intros _; by apply (in_run _ I _ _ Ht));
  try (intros _; by apply (in_tm _ I _ _ Ht));
  try (cbn; intros; lia).

Lemma inv_collect_wait s t i n t' s' :
  inv s -> pcs s !! t = Some (CollectWait i n) -> transactions_ s !! i = Some t' -> t' <> t ->
  LockGC t t' s = Some s' -> inv (set_pc s' t (CollectWait (S i) n)).
Proof.
  intros I Ht El Hne Ek. destruct (LockGC_spec _ _ _ _ Ek) as (H1 & H2 & H3 & m & ->).
  step_local I Ht.
  - intros _. rewrite gc_owner_set_pc, H3 by done. by apply (in_run _ I t _ Ht).
  - cbn [locked_upto]. intros j x Hj Hx Hd. rewrite gc_owner_set_pc.
    destruct (decide (x = t')) as [->|Hxt]; [done|]. rewrite H3 by done.
    destruct (decide (j = i)) as [->|]; [congruence|].
    apply (in_locked _ I t _ j x Ht); [cbn; lia|done|done].
Qed.

Lemma inv_collect_skip s t i n :
  inv s -> pcs s !! t = Some (CollectWait i n) -> transactions_ s !! i = Some t ->
  inv (set_pc s t (CollectWait (S i) n)).
Proof.
  intros I Ht El. step_local I Ht. cbn. intros j x Hj Hx Hd.
  destruct (decide (j = i)) as [->|]; [congruence|].
  apply (in_locked _ I t _ j x Ht); [cbn; lia|done|done].
Qed.

Lemma inv_collect_done s t i n :
  inv s -> pcs s !! t = Some (CollectWait i n) -> transactions_ s !! i = None ->
  inv (set_pc s t (InGC n)).
Proof.
  intros I Ht El. step_local I Ht. cbn. intros j x Hj Hx Hd.
  apply (in_locked _ I t _ j x Ht); [|done|done]. apply lookup_ge_None_1 in El. cbn. lia.
Qed.

Lemma inv_leave_loop s t i n t' :
  inv s -> pcs s !! t = Some (LeaveLoop i n) -> t' <> t ->
  inv (set_pc (SignalDoneGC t' (UnlockGC t t' s)) t (LeaveLoop (S i) n)).
Proof.
  intros I Ht Hne. destruct (UnlockGC_spec t t' s) as (H1 & H2 & m & Hm).
  destruct (SignalDoneGC_spec t' (UnlockGC t t' s)) as (H3 & m' & Hm').
  eapply inv_local; rewrite ?Hm', ?Hm; try done.
  - intros x u Hu Hx. rewrite <- Hm, <- Hm', gc_owner_set_pc, H3. by apply H1.
  - intros _. rewrite <- Hm, <- Hm', gc_owner_set_pc, H3, H2 by done. by apply (in_run _ I t _ Ht).
  - cbn. intros j x Hj. lia.
Qed.

(** Giving up the own GC lock. *)
Lemma inv_unlock_own s t c c' :
  inv s -> pcs s !! t = Some c -> registered c' = registered c -> owns_gc c' = false ->
  holds_transactions c' = false -> inv (set_pc (UnlockGC t t s) t c').
Proof.
  intros I Ht Hr Ho Hh. destruct (UnlockGC_spec t t s) as (H1 & H2 & m & Hm).
  eapply inv_local; rewrite ?Hm; try done.
  - intros x u Hu Hx. rewrite <- Hm, gc_owner_set_pc. by apply H1.
  - by rewrite Ho.
  - by rewrite Hh.
  - intros j x Hj. destruct c'; cbn in Hj, Hh; try done; lia.
Qed.

(** Taking it back. *)
Lemma inv_lock_own s t c c' s' :
  inv s -> pcs s !! t = Some c -> registered c' = registered c ->
  (holds_transactions c' = true -> holds_transactions c = true) -> locked_upto s c' = 0 ->
  LockGC t t s = Some s' -> inv (set_pc s' t c').
Proof.
  intros I Ht Hr Hh Hz Ek. destruct (LockGC_spec _ _ _ _ Ek) as (H1 & H2 & H3 & m & ->).
  eapply inv_local; try done.
  - intros Hc'. by apply (in_tm _ I t c Ht), Hh.
  - intros j x Hj. unfold locked_upto in *. cbn in Hj. lia.
Qed.

(** Changing only the semaphore. *)
Lemma inv_semaphore s t c c' s' m :
  inv s -> pcs s !! t = Some c -> registered c' = registered c ->
  (owns_gc c' = true -> owns_gc c = true) -> holds_transactions c' = false ->
  s' = set_trans s m -> (forall t', gc_owner s' t' = gc_owner s t') -> inv (set_pc s' t c').
Proof.
  intros I Ht Hr Ho Hh -> Hg. eapply inv_local; try done.
  - intros x u _. rewrite gc_owner_set_pc. by rewrite Hg.
  - intros Hc'. rewrite gc_owner_set_pc, Hg. by apply (in_run _ I t c Ht), Ho.
  - by rewrite Hh.
  - intros j x Hj. destruct c'; cbn in Hj, Hh; try done; lia.
Qed.

(** The steps that take a mutex. *)
Lemma inv_take_mutex s t c m :
  inv s -> pcs s !! t = Some c ->
  (c = AllocLock -> inv (set_pc (set_heap_mutex s m) t InAlloc))
  /\ (c = CommitLock1 -> inv (set_pc (set_commit_mutex s m) t CommitLock2))
  /\ (forall c', registered c' = registered c -> (owns_gc c' = true -> owns_gc c = true) ->
        locked_upto s c' = 0 -> Mutex_Lock t (transactions_mutex_ s) = Some m ->
        inv (set_pc (set_transactions_mutex s m) t c')).
Proof.
  intros I Ht. split; [|split].
  - intros ->. step_local I Ht.
  - intros ->. step_local I Ht.
  - intros c' Hr Ho Hz Em. eapply inv_local; try done.
    + intros u Hne Hu. by rewrite (Lock_foreign _ _ _ Hu Hne) in Em.
    + intros Hc'. by apply (in_run _ I t c Ht), Ho.
    + intros _. by eapply owner_Lock.
    + intros j x Hj. unfold locked_upto in *. cbn in Hj. lia.
Qed.

Ltac lock_case He Em :=
  match type of He with
  | context [Mutex_Lock ?t ?m] => destruct (Mutex_Lock t m) as [mx|] eqn:Em
  | context [LockGC ?a ?b ?s] => destruct (LockGC a b s) eqn:Em
  | context [ResetDoneGC ?a ?s] => destruct (ResetDoneGC a s) eqn:Em
  | context [WaitDoneGC ?a ?s] => destruct (WaitDoneGC a s) eqn:Em
  end; cbn [mbind option_bind] in He; [|done]; injection He as <-.

Lemma gc_inv_step s s' : inv s -> step s s' -> inv s'.
Proof.
  intros I Hs. revert I. destruct Hs as [s t ch s' He]. intros I. unfold exec in He.
  destruct (pcs s !! t) as [c|] eqn:Ht; cbn [mbind option_bind] in He; [|done].
  destruct c.
  - destruct ch; try done. injection He as <-. by apply inv_new_trans.
  - destruct (transactions_mutex_ s) eqn:Em; [done|]. injection He as <-. by apply inv_register.
  - destruct ch; try done; injection He as <-; by eapply inv_goto.
  - injection He as <-. destruct (need_gc_ s); by eapply inv_goto.
  - lock_case He Em. by apply (inv_take_mutex s t AllocLock mx).
  - destruct ch; try done; injection He as <-; [by eapply inv_goto|]. step_local I Ht.
  - destruct (need_gc_ s); injection He as <-; [by eapply inv_goto|]. step_local I Ht.
  - injection He as <-. destruct (need_gc_ s); by eapply inv_goto.
  - lock_case He Em. by apply (inv_take_mutex s t (CollectLock nested) mx).
  - destruct (transactions_ s !! i) as [t'|] eqn:El.
    + destruct (Nat.eqb_spec t' t) as [->|Hne].
      * injection He as <-. by eapply inv_collect_skip.
      * lock_case He Ek. by eapply inv_collect_wait.
    + injection He as <-. by eapply inv_collect_done.
  - injection He as <-. by eapply inv_goto.
  - injection He as <-. step_local I Ht.
  - destruct (transactions_ s !! i) as [t'|] eqn:El; [|injection He as <-; by eapply inv_goto].
    destruct (Nat.eqb_spec t' t) as [->|Hne]; injection He as <-;
      [by eapply inv_goto|by apply inv_leave_loop].
  - injection He as <-. destruct nested; step_local I Ht;
      (intros u Hne Hu; cbn; by rewrite (Unlock_foreign _ _ _ Hu Hne)).
  - lock_case He Ek. destruct (ResetDoneGC_spec _ _ _ Ek) as (H1 & m & Hm).
    by eapply inv_semaphore.
  - injection He as <-. by eapply inv_unlock_own.
  - lock_case He Ek. destruct (WaitDoneGC_spec _ _ _ Ek) as (H1 & m & Hm).
    by eapply inv_semaphore.
  - lock_case He Ek. destruct k; by eapply inv_lock_own.
  - injection He as <-. by eapply inv_unlock_own.
  - lock_case He Em. by apply (inv_take_mutex s t CommitLock1 mx).
  - lock_case He Em. by apply (inv_take_mutex s t CommitLock2 mx).
  - lock_case He Ek. by eapply inv_lock_own.
  - injection He as <-. eapply inv_unregister; try done.
    intros u Hne Hu. cbn. by rewrite (Unlock_foreign _ _ _ Hu Hne).
Qed.

Lemma gc_inv_init ts : inv (init ts).
Proof.
  assert (Hp : forall t c, pcs (init ts) !! t = Some c -> c = Outside).
  { intros t c Hc. change (list_to_map (M := gmap tid Pc) ((fun t => (t, Outside)) <$> ts) !! t = Some c) in Hc.
    apply elem_of_list_to_map_2, list_elem_of_fmap in Hc as (x & [= -> ->] & _). done. }
  split.
  - constructor.
  - intros t c ->%Hp. cbn. by rewrite elem_of_nil.
  - by intros t c ->%Hp.
  - by intros t c ->%Hp.
  - intros t c j t' ->%Hp. cbn. lia.
Qed.

Lemma gc_inv_reachable ts s : reachable ts s -> inv s.
Proof. intros Hr. eapply rtc_preserve; [apply gc_inv_step|apply gc_inv_init|exact Hr]. Qed.

(** ** Runs as sequences of scheduling decisions *)

Fixpoint exec_all (s : State) (sched : list (tid * Choice)) : option State :=
  match sched with
  | [] => Some s
  | (t, ch) :: sched => s' ← exec s t ch; exec_all s' sched
  end.

Lemma schedule_sound s s' sched : exec_all s sched = Some s' -> rtc step s s'.
Proof.
  revert s. induction sched as [|[t ch] sched IH]; cbn; intros s; [by intros [= ->]|].
  destruct (exec s t ch) as [s1|] eqn:E; cbn; [|done]. intros H.
  eapply rtc_l; [by econstructor|by apply IH].
Qed.

(** Nobody can take a step. *)
Definition stuck (s : State) : Prop := forall s', ~ step s s'.

Definition stuck_thread (s : State) (t : tid) : bool :=
  forallb (fun ch => match exec s t ch with None => true | Some _ => false end)
    [Start; Allocate; Collect; Leave; Commit].

Definition stuck_all (s : State) : bool :=
  forallb (fun tc => stuck_thread s tc.1) (map_to_list (pcs s)).

Lemma stuck_all_sound s : stuck_all s = true -> stuck s.
Proof.
  unfold stuck_all. rewrite forallb_forall. intros Hall s' Hs. destruct Hs as [s t ch s' He].
  destruct (pcs s !! t) as [c|] eqn:Ht; [|by unfold exec in He; rewrite Ht in He].
  apply elem_of_map_to_list, list_elem_of_In, Hall in Ht. unfold stuck_thread in Ht.
  rewrite forallb_forall in Ht. specialize (Ht ch). cbv beta in Ht. cbn [fst] in Ht.
  rewrite He in Ht. cut (false = true); [done|]. apply Ht. destruct ch; cbn; auto 6.
Qed.

(** A schedule that runs to the end leads to a reachable state with what was
    computed of it. *)
Lemma schedule_reachable ts sched (P : State -> bool) :
  (P <$> exec_all (init ts) sched) = Some true -> exists s, reachable ts s /\ P s = true.
Proof.
  destruct (exec_all (init ts) sched) as [s|] eqn:E; [|done]. intros [= HP].
  exists s. split; [|done]. by eapply schedule_sound.
Qed.

#[global] Instance Resume_eq_dec : EqDecision Resume.
Proof. solve_decision. Defined.
#[global] Instance Pc_eq_dec : EqDecision Pc.
Proof. solve_decision. Defined.

(** The program counters of two threads. *)
Definition at_pcs (s : State) (c1 c2 : Pc) : bool :=
  bool_decide (pcs s !! 1 = Some c1) && bool_decide (pcs s !! 2 = Some c2).

Lemma at_pcs_spec s c1 c2 : at_pcs s c1 c2 = true -> pcs s !! 1 = Some c1 /\ pcs s !! 2 = Some c2.
Proof. unfold at_pcs. intros H. by breflect. Qed.

(** ** The world is stopped during a collection *)

(** C6: while a thread collects, no other thread can touch the heap: each is
    outside a transaction, waiting to enter one, paused for the collection, or
    waiting to commit; no second thread collects. *)
Theorem collection_exclusive ts s t n t' c :
  reachable ts s -> pcs s !! t = Some (InGC n) -> t' <> t -> pcs s !! t' = Some c ->
  exposed c = false.
Proof.
  intros Hr%gc_inv_reachable Ht Hne Hc. destruct (exposed c) eqn:He; [|done]. exfalso.
  assert (Hreg : registered c = true) by by destruct c.
  assert (Hown : owns_gc c = true) by by destruct c.
  apply (in_reg _ Hr t' c Hc) in Hreg. apply list_elem_of_lookup in Hreg as [j Hj].
  pose proof (in_run _ Hr t' c Hc Hown) as H1.
  pose proof (in_locked _ Hr t _ j t' Ht (lookup_lt_Some _ _ _ Hj) Hj Hne) as H2. congruence.
Qed.

(** Two running threads; the second collects once the first has paused. *)
Definition pause_schedule : list (tid * Choice) :=
  [(1, Start); (1, Start); (2, Start); (2, Start); (2, Collect); (2, Collect); (2, Collect);
   (1, Allocate); (1, Allocate); (1, Allocate); (1, Allocate); (2, Collect); (2, Collect); (2, Collect)].

Lemma collection_exclusive_witness :
  exists s, reachable [1; 2] s /\ pcs s !! 2 = Some (InGC false)
    /\ pcs s !! 1 = Some (PauseWait ToAllocation) /\ exposed (PauseWait ToAllocation) = false.
Proof.
  destruct (schedule_reachable [1; 2] pause_schedule
    (fun s => at_pcs s (PauseWait ToAllocation) (InGC false)) ltac:(by vm_compute))
    as (s & Hr & [H1 H2]%at_pcs_spec).
  exists s. split; [done|split; [done|split; [done|]]].
  exact (collection_exclusive [1; 2] s 2 false 1 _ Hr H2 ltac:(done) H1).
Defined.

(** ** Two deadlocks *)

(** A collection inside an allocation scope keeps [heap_mutex_] while it waits
    for the GC lock of a thread that has passed its check and waits for
    [heap_mutex_]. *)
Definition nested_schedule : list (tid * Choice) :=
  [(1, Start); (1, Start); (2, Start); (2, Start); (1, Allocate); (1, Allocate); (1, Allocate);
   (2, Allocate); (2, Allocate); (1, Collect); (1, Collect); (1, Collect); (1, Collect)].

(** C7: a collection that [CALL_AND_RETRY] starts inside its allocation scope
    can deadlock: thread 1 waits for the GC lock of thread 2 and holds
    [heap_mutex_], for which thread 2 waits without having paused. *)
Theorem nested_collection_deadlock :
  exists s, reachable [1; 2] s /\ stuck s
    /\ pcs s !! 1 = Some (CollectWait 1 true) /\ pcs s !! 2 = Some AllocLock.
Proof.
  destruct (schedule_reachable [1; 2] nested_schedule
    (fun s => stuck_all s && at_pcs s (CollectWait 1 true) AllocLock) ltac:(by vm_compute))
    as (s & Hr & H).
  breflect. exists s. split; [done|split; [by apply stuck_all_sound|by apply at_pcs_spec]].
Qed.

(** Thread 2 finds the collection of thread 1 pending and skips its own, but
    its scope object still runs [LeaveCollectionScope]: that resets the flag of
    the next collection of thread 1. *)
Definition skipped_schedule : list (tid * Choice) :=
  [(1, Start); (1, Start); (2, Start); (2, Start);
   (1, Collect); (1, Collect);
   (2, Collect); (2, Collect); (2, Collect); (2, Collect); (2, Collect);
   (1, Collect); (1, Collect); (1, Collect); (1, Collect); (1, Collect); (1, Collect);
   (1, Collect); (1, Collect);
   (2, Collect); (2, Collect); (1, Collect); (1, Collect);
   (1, Collect); (1, Collect);
   (2, Collect); (2, Collect); (2, Collect); (2, Collect); (2, Collect);
   (2, Collect); (2, Collect);
   (1, Collect); (1, Collect)].

(** C8: collections outside allocation scopes can deadlock as well.  A thread
    that skipped its collection resets [need_gc_] when it leaves; when another
    collection has been announced since, both threads collect: one holds
    [transactions_mutex_] and waits for the GC lock of the other, which waits
    for [transactions_mutex_]. *)
Theorem skipped_collection_deadlock :
  exists s, reachable [1; 2] s /\ stuck s /\ need_gc_ s = true
    /\ pcs s !! 1 = Some (CollectWait 1 false) /\ pcs s !! 2 = Some (CollectLock false).
Proof.
  destruct (schedule_reachable [1; 2] skipped_schedule
    (fun s => stuck_all s && need_gc_ s && at_pcs s (CollectWait 1 false) (CollectLock false))
    ltac:(by vm_compute)) as (s & Hr & H).
  breflect. exists s. split; [done|split; [by apply stuck_all_sound|split; [done|]]].
  by apply at_pcs_spec.
Qed.
