(* ===== verification/EventLoop.v ===== *)
(** * EventLoop: the worker threads of w16/main.cc

    Models [Async], [EventLoop] and the queue and counters they share, for any
    number of threads.  The accesses to [running_threads] that are not atomic
    ([running_threads--] and [running_threads++]) are a read and a write.
    What an event does besides calling [async], and whether its transaction
    commits, is left to the schedule. *)

From S2P Require Import Prelude.

Abbreviation tid := nat.
Abbreviation Event := nat.

(** ** State *)

Inductive Pc :=
  | Enter                        (* Barrier_AtomicIncrement *)
  | Top (active : bool)          (* before mutex_lock *)
  | CountOut                     (* running_threads--: read *)
  | CountOutWrite (v : Z)        (* ... write *)
  | TestQueue                    (* event_queue.empty() *)
  | CountIn (e : Event)          (* running_threads++: read *)
  | CountInWrite (v : Z) (e : Event)
  | TestDone                     (* running_threads == 0 *)
  | StartTransaction (e : Event)
  | Execute (e : Event)
  | Async (e e' : Event)         (* Execute calls async(e'), before mutex_lock *)
  | AsyncPush (e e' : Event)
  | CommitTransaction (e : Event)
  | Exited.

Record State := mkState {
  event_queue : list Event;
  running_threads : Z;
  total_transactions : Z;
  aborted_transactions : Z;
  mutex : option tid;
  pcs : list Pc;
  (* history: events in the order of their push and of their pop, events
     deleted after their execution *)
  pushed : list Event;
  popped : list Event;
  finished : list Event
}.

(** [Atomic32] arithmetic wraps around. *)
Definition int32 (z : Z) : Z := sint 32 z.

Definition goto (s : State) (t : tid) (c : Pc) : State :=
  mkState (event_queue s) (running_threads s) (total_transactions s) (aborted_transactions s)
    (mutex s) (<[t := c]> (pcs s)) (pushed s) (popped s) (finished s).
Definition set_mutex (s : State) (m : option tid) : State :=
  mkState (event_queue s) (running_threads s) (total_transactions s) (aborted_transactions s)
    m (pcs s) (pushed s) (popped s) (finished s).
Definition set_running (s : State) (v : Z) : State :=
  mkState (event_queue s) v (total_transactions s) (aborted_transactions s)
    (mutex s) (pcs s) (pushed s) (popped s) (finished s).
Definition count_transaction (s : State) : State :=
  mkState (event_queue s) (running_threads s) (int32 (total_transactions s + 1))
    (aborted_transactions s) (mutex s) (pcs s) (pushed s) (popped s) (finished s).
Definition count_abort (s : State) : State :=
  mkState (event_queue s) (running_threads s) (total_transactions s)
    (int32 (aborted_transactions s + 1)) (mutex s) (pcs s) (pushed s) (popped s) (finished s).
Definition push (s : State) (e : Event) : State :=
  mkState (event_queue s ++ [e]) (running_threads s) (total_transactions s)
    (aborted_transactions s) (mutex s) (pcs s) (pushed s ++ [e]) (popped s) (finished s).
Definition pop (s : State) (e : Event) (q : list Event) : State :=
  mkState q (running_threads s) (total_transactions s) (aborted_transactions s)
    (mutex s) (pcs s) (pushed s) (popped s ++ [e]) (finished s).
Definition delete_event (s : State) (e : Event) : State :=
  mkState (event_queue s) (running_threads s) (total_transactions s)
    (aborted_transactions s) (mutex s) (pcs s) (pushed s) (popped s) (finished s ++ [e]).

(** ** Steps *)

(** What the running event does next: call [async], or return, after which its
    transaction commits or not. *)
Inductive Choice := CallAsync (e : Event) | Return | CommitAs (committed : bool).

Definition exec (FLAG_stm : bool) (s : State) (t : tid) (ch : Choice) : option State :=
  c ← pcs s !! t;
  match c with
  | Enter => Some (goto (set_running s (int32 (running_threads s + 1))) t (Top true))
  | Top active =>
      match mutex s with
      | None => Some (goto (set_mutex s (Some t)) t (if active then CountOut else TestQueue))
      | Some _ => None
      end
  | CountOut => Some (goto s t (CountOutWrite (running_threads s)))
  | CountOutWrite v => Some (goto (set_running s (int32 (v - 1))) t TestQueue)
  | TestQueue =>
      match event_queue s with
      | e :: q => Some (goto (pop s e q) t (CountIn e))
      | [] => Some (goto s t TestDone)
      end
  | CountIn e => Some (goto s t (CountInWrite (running_threads s) e))
  | CountInWrite v e =>
      Some (goto (set_mutex (set_running s (int32 (v + 1))) None) t
              (if FLAG_stm then StartTransaction e else Execute e))
  | TestDone =>
      Some (goto (set_mutex s None) t (if (running_threads s =? 0)%Z then Exited else Top false))
  | StartTransaction e => Some (goto (count_transaction s) t (Execute e))
  | Execute e =>
      match ch with
      | CallAsync e' => Some (goto s t (Async e e'))
      | Return =>
          if FLAG_stm then Some (goto s t (CommitTransaction e))
          else Some (goto (delete_event s e) t (Top true))
      | CommitAs _ => None
      end
  | Async e e' =>
      match mutex s with
      | None => Some (goto (set_mutex s (Some t)) t (AsyncPush e e'))
      | Some _ => None
      end
  | AsyncPush e e' => Some (goto (set_mutex (push s e') None) t (Execute e))
  | CommitTransaction e =>
      match ch with
      | CommitAs true => Some (goto (delete_event s e) t (Top true))
      | CommitAs false => Some (goto (count_abort s) t (StartTransaction e))
      | _ => None
      end
  | Exited => None
  end.

(** The possible steps of a thread, as equations on [s']. *)
Ltac exec_cases He :=
  unfold exec in He;
  match type of He with
  | context [pcs ?s !! ?t] =>
      let c := fresh "c" in
      destruct (pcs s !! t) as [c|] eqn:Ht; cbn [mbind option_bind] in He; [|done];
      destruct c; repeat case_match; try done; injection He as <-
  end.

Ltac unfold_state :=
  unfold goto, set_mutex, set_running, count_transaction, count_abort, push, pop, delete_event in *;
  cbn [event_queue running_threads total_transactions aborted_transactions mutex pcs pushed popped
       finished] in *.

Section Flag.
Context (FLAG_stm : bool).

Inductive step : State -> State -> Prop :=
  | step_exec s t ch s' : exec FLAG_stm s t ch = Some s' -> step s s'.

(** After the initial script, which has put [q] into the queue. *)
Definition init (n : nat) (q : list Event) : State :=
  mkState q 0 0 0 None (replicate n Enter) q [] [].

Definition reachable (n : nat) (q : list Event) (s : State) : Prop := rtc step (init n q) s.

(** ** Invariant *)

(** The event a thread has popped and not yet deleted. *)
Definition holding (c : Pc) : list Event :=
  match c with
  | CountIn e | CountInWrite _ e | StartTransaction e | Execute e | Async e _ | AsyncPush e _
  | CommitTransaction e => [e]
  | _ => []
  end.

Definition in_hand (s : State) : list Event := bag holding (pcs s).

Definition holds_mutex (c : Pc) : bool :=
  match c with
  | CountOut | CountOutWrite _ | TestQueue | CountIn _ | CountInWrite _ _ | TestDone
  | AsyncPush _ _ => true
  | _ => false
  end.

Record inv (q : list Event) (s : State) : Prop := {
  in_queue : pushed s = popped s ++ event_queue s;
  in_prefix : q `prefix_of` pushed s;
  in_bag : popped s ≡ₚ finished s ++ in_hand s;
  in_mutex : forall t c, pcs s !! t = Some c -> holds_mutex c = true -> mutex s = Some t;
  in_alive : event_queue s <> [] -> exists t c, pcs s !! t = Some c /\ c <> Exited;
  in_test : forall t, pcs s !! t = Some TestDone -> event_queue s = []
}.

(** A step moves one thread. *)
Lemma exec_pcs s t ch s' :
  exec FLAG_stm s t ch = Some s' ->
  exists c c', pcs s !! t = Some c /\ pcs s' = <[t := c']> (pcs s) /\ c <> Exited.
Proof. intros He. exec_cases He; eexists _, _; (split; [reflexivity|by split]). Qed.

Lemma lookup_moved (l : list Pc) t c' t2 c2 :
  <[t := c']> l !! t2 = Some c2 -> t2 = t /\ c2 = c' \/ t2 <> t /\ l !! t2 = Some c2.
Proof.
  destruct (decide (t = t2)) as [<-|Hne].
  - intros H. rewrite list_lookup_insert_eq in H; [left; by injection H|].
    apply lookup_lt_Some in H. by rewrite length_insert in H.
  - rewrite list_lookup_insert_ne by done. auto.
Qed.

Lemma exec_bag s t ch s' :
  exec FLAG_stm s t ch = Some s' -> popped s ≡ₚ finished s ++ in_hand s ->
  popped s' ≡ₚ finished s' ++ in_hand s'.
Proof.
  intros He Hb. unfold in_hand in *.
  exec_cases He; unfold_state;
    try (erewrite bag_insert_same by (try exact Ht; reflexivity); exact Hb).
  - rewrite Hb. pose proof (bag_insert holding _ _ _ (CountIn n) Ht) as Hi.
    cbn [holding] in Hi. rewrite app_nil_r in Hi. by rewrite Hi, app_assoc.
  - rewrite Hb. pose proof (bag_insert holding _ _ _ (Top true) Ht) as Hi.
    cbn [holding] in Hi. rewrite app_nil_r in Hi. rewrite <- Hi. solve_Permutation.
  - rewrite Hb. pose proof (bag_insert holding _ _ _ (Top true) Ht) as Hi.
    cbn [holding] in Hi. rewrite app_nil_r in Hi. rewrite <- Hi. solve_Permutation.
Qed.

(** Who does not hold the mutex leaves it and the queue alone. *)
Lemma exec_mutex s t ch s' :
  exec FLAG_stm s t ch = Some s' ->
  exists c c', pcs s !! t = Some c /\ pcs s' = <[t := c']> (pcs s)
    /\ (holds_mutex c = false -> event_queue s' = event_queue s)
    /\ (holds_mutex c = false -> mutex s = None \/ mutex s' = mutex s)
    /\ (holds_mutex c = true -> mutex s' = None \/ mutex s' = mutex s)
    /\ (holds_mutex c' = true -> mutex s' = Some t \/ holds_mutex c = true /\ mutex s' = mutex s)
    /\ (c' = TestDone -> event_queue s' = []).
Proof.
  intros He. exec_cases He; unfold_state; eexists _, _;
    (split; [reflexivity|]); (split; [reflexivity|]); cbn [holds_mutex]; naive_solver.
Qed.

Lemma exec_exits s t ch s' :
  exec FLAG_stm s t ch = Some s' -> pcs s' !! t = Some Exited ->
  pcs s !! t = Some TestDone /\ event_queue s' = event_queue s /\ running_threads s = 0%Z.
Proof.
  intros He Hx.
  assert (Hi : forall c c', pcs s !! t = Some c -> <[t := c']> (pcs s) !! t = Some Exited -> c' = Exited).
  { intros c c' Hc. rewrite list_lookup_insert_eq by by eapply lookup_lt_Some. by intros [= ->]. }
  exec_cases He; unfold_state; pose proof (Hi _ _ eq_refl Hx); try done. breflect. done.
Qed.

Lemma inv_exec q s t ch s' : inv q s -> exec FLAG_stm s t ch = Some s' -> inv q s'.
Proof.
  intros I He. split.
  - pose proof (in_queue q s I) as Hq. clear I. exec_cases He; unfold_state; try done.
    + by rewrite H.
    + rewrite Hq. by rewrite <- app_assoc.
    + rewrite Hq. by rewrite <- app_assoc.
  - pose proof (in_prefix q s I) as Hq. clear I. exec_cases He; unfold_state; try done.
    by apply prefix_app_r.
  - eapply exec_bag; [done|apply I].
  - destruct (exec_mutex s t ch s' He) as (c & c' & Ht & Hp & _ & Hm1 & Hm2 & Hm3 & _).
    rewrite Hp. intros t2 c2 [[-> ->]|[Hne H2]]%lookup_moved Hh.
    + destruct (Hm3 Hh) as [|[Hc ->]]; [done|]. by apply (in_mutex q s I t c).
    + pose proof (in_mutex q s I t2 c2 H2 Hh) as Hm. destruct (holds_mutex c) eqn:Hc.
      * pose proof (in_mutex q s I t c Ht Hc). congruence.
      * destruct (Hm1 eq_refl); congruence.
  - intros Hne. destruct (exec_pcs s t ch s' He) as (c & c' & Ht & Hp & _).
    assert (Ht' : pcs s' !! t = Some c').
    { rewrite Hp. apply list_lookup_insert_eq. by eapply lookup_lt_Some. }
    exists t, c'. split; [done|]. intros ->.
    destruct (exec_exits s t ch s' He Ht') as (H1 & H2 & _). apply Hne. rewrite H2.
    by apply (in_test q s I t).
  - destruct (exec_mutex s t ch s' He) as (c & c' & Ht & Hp & Hq & _ & _ & _ & Hd).
    rewrite Hp. intros t2 [[-> <-]|[Hne H2]]%lookup_moved; [by apply Hd|].
    pose proof (in_mutex q s I t2 _ H2 eq_refl) as Hm. destruct (holds_mutex c) eqn:Hc.
    + pose proof (in_mutex q s I t c Ht Hc). congruence.
    + rewrite Hq by done. by apply (in_test q s I t2).
Qed.

Lemma loop_inv_init n q : 0 < n -> inv q (init n q).
Proof.
  assert (Hp : forall t c, replicate n Enter !! t = Some c -> c = Enter).
  { intros t c Hc. by apply lookup_replicate in Hc as [-> _]. }
  intros Hn. split; cbn.
  - done.
  - done.
  - unfold in_hand. cbn. clear. induction n; [done|]. done.
  - by intros t c ->%Hp.
  - intros _. exists 0, Enter. by rewrite lookup_replicate.
  - by intros t [=]%Hp.
Qed.

Lemma loop_inv_reachable n q s : 0 < n -> reachable n q s -> inv q s.
Proof.
  intros Hn Hr. eapply rtc_preserve; [|by apply loop_inv_init|exact Hr].
  intros s1 s2 I Hs. destruct Hs as [s1 t ch s2 He]. by eapply inv_exec.
Qed.

End Flag.

(** ** No event is lost or executed twice *)

(** C9: the events are started in the order in which they were pushed, a
    popped event is being executed by one thread or was executed and deleted,
    and when every thread has left its loop the queue is empty and every event
    was executed, each once, whatever the schedule and the races on
    [running_threads]. *)
Theorem events_executed_once FLAG_stm n q s :
  0 < n -> reachable FLAG_stm n q s ->
  pushed s = popped s ++ event_queue s
  /\ q `prefix_of` pushed s
  /\ popped s ≡ₚ finished s ++ in_hand s
  /\ ((forall t c, pcs s !! t = Some c -> c = Exited) ->
      event_queue s = [] /\ finished s ≡ₚ pushed s).
Proof.
  intros Hn Hr. pose proof (loop_inv_reachable FLAG_stm n q s Hn Hr) as I.
  split; [apply I|split; [apply I|split; [apply I|]]]. intros Hall.
  assert (Hq : event_queue s = []).
  { destruct (event_queue s) eqn:E; [done|]. exfalso.
    destruct (in_alive q s I) as (t & c & Ht & Hc); [by rewrite E|]. by apply Hc, (Hall t). }
  split; [done|]. rewrite (in_queue q s I), Hq, app_nil_r, (in_bag q s I).
  assert (in_hand s = []) as ->; [|by rewrite app_nil_r].
  unfold in_hand. induction (pcs s) as [|c l IH]; [done|]. cbn.
  rewrite (Hall 0 c eq_refl). apply IH. intros t. apply (Hall (S t)).
Qed.

(** ** Schedules *)

Fixpoint exec_all (FLAG_stm : bool) (s : State) (sched : list (tid * Choice)) : option State :=
  match sched with
  | [] => Some s
  | (t, ch) :: sched => s' ← exec FLAG_stm s t ch; exec_all FLAG_stm s' sched
  end.

Lemma loop_schedule_sound FLAG_stm s s' sched :
  exec_all FLAG_stm s sched = Some s' -> rtc (step FLAG_stm) s s'.
Proof.
  revert s. induction sched as [|[t ch] sched IH]; cbn; intros s; [by intros [= ->]|].
  destruct (exec FLAG_stm s t ch) as [s1|] eqn:E; cbn; [|done]. intros H.
  eapply rtc_l; [by econstructor|by apply IH].
Qed.

(** Two threads execute the event 7 of the initial script and the event 8 it
    pushes; the first attempt of 7 is aborted, so that 8 is pushed twice. *)
Definition retry_schedule : list (tid * Choice) :=
  let r := Return in
  [(0, r); (1, r); (0, r); (0, r); (0, r); (0, r); (0, r); (0, r);
   (0, r); (0, CallAsync 8); (0, r); (0, r); (0, r); (0, CommitAs false);
   (0, r); (0, CallAsync 8); (0, r); (0, r); (0, r); (0, CommitAs true);
   (1, r); (1, r); (1, r); (1, r); (1, r); (1, r); (1, r); (1, r); (1, CommitAs true);
   (0, r); (0, r); (0, r); (0, r); (0, r); (0, r); (0, r); (0, r); (0, CommitAs true);
   (1, r); (1, r); (1, r); (1, r); (1, r);
   (0, r); (0, r); (0, r); (0, r); (0, r); (1, r); (1, r); (1, r)].

#[global] Instance Pc_eq_dec : EqDecision Pc.
Proof. solve_decision. Defined.

(** What a run ends with. *)
Definition outcome (o : option State) : option (list Pc * list Event * list Event) :=
  s ← o; Some (pcs s, pushed s, finished s).

Lemma retry_run :
  outcome (exec_all true (init 2 [7]) retry_schedule) = Some ([Exited; Exited], [7; 8; 8], [7; 8; 8]).
Proof. vm_compute. reflexivity. Qed.

Lemma outcome_reachable FLAG_stm n q sched ps l1 l2 :
  outcome (exec_all FLAG_stm (init n q) sched) = Some (ps, l1, l2) ->
  exists s, reachable FLAG_stm n q s /\ pcs s = ps /\ pushed s = l1 /\ finished s = l2.
Proof.
  unfold outcome. destruct (exec_all FLAG_stm (init n q) sched) as [s|] eqn:E; cbn; [|done].
  intros [= <- <- <-]. exists s. split; [by eapply loop_schedule_sound|done].
Qed.

Lemma events_executed_once_witness :
  exists s, reachable true 2 [7] s /\ event_queue s = [] /\ finished s ≡ₚ pushed s
    /\ pushed s = [7; 8; 8].
Proof.
  destruct (outcome_reachable _ _ _ _ _ _ _ retry_run) as (s & Hr & Hp & H1 & H2).
  destruct (events_executed_once true 2 [7] s ltac:(lia) Hr) as (_ & _ & _ & H).
  destruct H as [H3 H4]; [|by exists s].
  rewrite Hp. intros [|[|t]] c; cbn; by intros [= <-] || intros [=].
Defined.

(** The pushes of an aborted attempt are not taken back: the event 7
    calls [async] once, its first attempt is aborted, and the event it pushed
    is executed twice. *)
Theorem aborted_attempt_pushes_twice :
  exists s, reachable true 2 [7] s /\ (forall c, c ∈ pcs s -> c = Exited)
    /\ finished s = [7; 8; 8].
Proof.
  destruct (outcome_reachable _ _ _ _ _ _ _ retry_run) as (s & Hr & Hp & H1 & H2).
  exists s. split; [done|split; [|done]]. rewrite Hp. intros c.
  by intros [->|[->|[]%not_elem_of_nil]%elem_of_cons]%elem_of_cons.
Qed.

(** ** The number of running threads *)

(** The thread counts in [running_threads]. *)
Definition counted (c : Pc) : Z :=
  match c with
  | Top true | CountOut | CountOutWrite _ | StartTransaction _ | Execute _ | Async _ _
  | AsyncPush _ _ | CommitTransaction _ => 1
  | _ => 0
  end.

(** The thread has read [running_threads] and will write it. *)
Definition updating (c : Pc) : option Z :=
  match c with CountOutWrite v | CountInWrite v _ => Some v | _ => None end.

(** A step that does not start a thread while another one updates
    [running_threads]. *)
Inductive calm_step (FLAG_stm : bool) : State -> State -> Prop :=
  | calm_exec s t ch s' : exec FLAG_stm s t ch = Some s' ->
      (pcs s !! t = Some Enter -> forall t' c, pcs s !! t' = Some c -> updating c = None) ->
      calm_step FLAG_stm s s'.

Definition calm_reachable (FLAG_stm : bool) (n : nat) (q : list Event) (s : State) : Prop :=
  rtc (calm_step FLAG_stm) (init n q) s.

Record calm (n : nat) (s : State) : Prop := {
  ca_length : length (pcs s) = n;
  ca_count : running_threads s = sumZ counted (pcs s);
  ca_updating : forall t c v, pcs s !! t = Some c -> updating c = Some v -> v = running_threads s
}.

Lemma counted_bounds s : (0 <= sumZ counted (pcs s) <= Z.of_nat (length (pcs s)))%Z.
Proof.
  pose proof (sumZ_bounds counted (pcs s) 1) as H.
  rewrite Z.mul_1_l in H. apply H. intros c. destruct c as [|[]| | | | | | | | | | | |]; cbn; lia.
Qed.

Lemma updating_holds c v : updating c = Some v -> holds_mutex c = true.
Proof. by destruct c. Qed.

(** What a step does to the counter. *)
Lemma exec_running FLAG_stm n s t ch s' :
  (Z.of_nat n < 2 ^ 31)%Z -> calm n s -> exec FLAG_stm s t ch = Some s' ->
  running_threads s' = sumZ counted (pcs s')
  /\ (pcs s !! t <> Some Enter -> (exists c v, pcs s !! t = Some c /\ updating c = Some v)
      \/ running_threads s' = running_threads s)
  /\ (forall c v, pcs s' !! t = Some c -> updating c = Some v -> v = running_threads s').
Proof.
  intros Hn C He. destruct C as [Hl Hc Hu]. pose proof (counted_bounds s) as Hb.
  destruct (exec_pcs _ _ _ _ _ He) as (c & c' & Hd & Hp & _).
  pose proof (sumZ_insert counted _ _ _ c' Hd) as Hs. rewrite <- Hp in Hs.
  pose proof (counted_bounds s') as Hb'. rewrite Hp, length_insert in Hb'. rewrite <- Hp in Hb'.
  assert (Hx : pcs s' !! t = Some c').
  { rewrite Hp. apply list_lookup_insert_eq. by eapply lookup_lt_Some. }
  rewrite Hs in Hb' |- *. rewrite Hx.
  assert (Hi : forall z, (0 <= z <= Z.of_nat n)%Z -> int32 z = z).
  { intros z Hz. apply sint_id; lia. }
  assert (Hv : forall v, updating c = Some v -> v = running_threads s) by by intros v; apply Hu with t.
  clear Hu Hp Hs. revert Hx. exec_cases He; unfold_state;
    rewrite list_lookup_insert_eq by (by eapply lookup_lt_Some); injection Hd as <-;
    intros [= <-]; cbn [counted updating] in *;
    (split; [rewrite ?(Hv _ eq_refl), ?Hi; lia|]);
    (split; [intros Hne; first [by right|by destruct Hne|left; by eexists _, _]|]);
    intros c1 v1 [= <-]; by intros [= <-].
Qed.

Lemma calm_exec_step FLAG_stm n q s t ch s' :
  (Z.of_nat n < 2 ^ 31)%Z -> inv q s -> calm n s -> exec FLAG_stm s t ch = Some s' ->
  (pcs s !! t = Some Enter -> forall t' c, pcs s !! t' = Some c -> updating c = None) -> calm n s'.
Proof.
  intros Hn I C He Hcalm. destruct (exec_running _ _ _ _ _ _ Hn C He) as (H1 & H2 & H3).
  destruct (exec_pcs _ _ _ _ _ He) as (c & c' & Ht & Hp & _). split.
  - rewrite Hp, length_insert. apply C.
  - done.
  - intros t2 c2 v H Hv. pose proof H as H'. rewrite Hp in H'.
    apply lookup_moved in H' as [[-> ->]|[Hne H']]; [by eapply H3|].
    assert (Hz : pcs s !! t <> Some Enter).
    { intros Hz. pose proof (Hcalm Hz _ _ H'). congruence. }
    destruct (H2 Hz) as [(c1 & v1 & Hc1 & Hv1)|Hr].
    + pose proof (in_mutex q s I t2 c2 H' (updating_holds _ _ Hv)).
      pose proof (in_mutex q s I t c1 Hc1 (updating_holds _ _ Hv1)). congruence.
    + rewrite Hr. by apply (ca_updating n s C t2 c2).
Qed.

Lemma calm_init n q : calm n (init n q).
Proof.
  split; cbn.
  - apply length_replicate.
  - by rewrite sumZ_replicate.
  - intros t c v Hc. by apply lookup_replicate in Hc as [-> _].
Qed.

Lemma calm_reachable_calm FLAG_stm n q s :
  0 < n -> (Z.of_nat n < 2 ^ 31)%Z -> calm_reachable FLAG_stm n q s -> inv q s /\ calm n s.
Proof.
  intros H0 Hn Hr. eapply (rtc_preserve (fun s => inv q s /\ calm n s)); [| |exact Hr].
  - intros s1 s2 [I C] Hs. destruct Hs as [s1 t ch s2 He Hc].
    split; [by eapply inv_exec|by eapply calm_exec_step].
  - split; [by apply loop_inv_init|apply calm_init].
Qed.

(** C10: as long as no thread enters its loop while another updates
    [running_threads], the counter is exactly the number of threads that are
    not looking for work, and a thread that found the queue empty leaves its
    loop if and only if every thread is idle, has left or has not entered. *)
Theorem running_threads_exact FLAG_stm n q s t ch s' :
  0 < n -> (Z.of_nat n < 2 ^ 31)%Z -> calm_reachable FLAG_stm n q s ->
  pcs s !! t = Some TestDone -> exec FLAG_stm s t ch = Some s' ->
  running_threads s = sumZ counted (pcs s)
  /\ (pcs s' !! t = Some Exited <-> forall c, c ∈ pcs s -> counted c = 0%Z).
Proof.
  intros H0 Hn Hr Ht He. destruct (calm_reachable_calm _ _ _ _ H0 Hn Hr) as [I C].
  split; [apply C|]. rewrite <- sumZ_zero by (intros c; destruct c as [|[]| | | | | | | | | | | |]; cbn; lia).
  rewrite <- (ca_count n s C). unfold exec in He. rewrite Ht in He. injection He as <-.
  unfold_state. rewrite list_lookup_insert_eq by by eapply lookup_lt_Some.
  destruct (Z.eqb_spec (running_threads s) 0); split; done.
Qed.

(** Calm schedules, executably. *)
Definition may_run (s : State) (t : tid) : bool :=
  negb (bool_decide (pcs s !! t = Some Enter))
  || forallb (fun c => match updating c with None => true | Some _ => false end) (pcs s).

Fixpoint exec_calm (FLAG_stm : bool) (s : State) (sched : list (tid * Choice)) : option State :=
  match sched with
  | [] => Some s
  | (t, ch) :: sched =>
      if may_run s t then s' ← exec FLAG_stm s t ch; exec_calm FLAG_stm s' sched else None
  end.

Lemma exec_calm_sound FLAG_stm s s' sched :
  exec_calm FLAG_stm s sched = Some s' -> rtc (calm_step FLAG_stm) s s'.
Proof.
  revert s. induction sched as [|[t ch] sched IH]; cbn; intros s; [by intros [= ->]|].
  destruct (may_run s t) eqn:Em; [|done].
  destruct (exec FLAG_stm s t ch) as [s1|] eqn:E; cbn; [|done]. intros H.
  eapply rtc_l; [|by apply IH]. econstructor; [exact E|]. intros He t' c Hc.
  unfold may_run in Em. rewrite bool_decide_eq_true_2 in Em by done. cbn in Em.
  rewrite forallb_forall in Em. specialize (Em c).
  destruct (updating c); [|done]. exfalso. cut (false = true); [done|].
  apply Em, list_elem_of_In. by eapply list_elem_of_lookup_2.
Qed.

(** Both threads are idle; thread 0 is about to leave. *)
Definition idle_schedule : list (tid * Choice) :=
  let r := Return in
  [(0, r); (1, r); (1, r); (1, r); (1, r); (1, r); (1, r); (0, r); (0, r); (0, r); (0, r)].

Lemma running_threads_exact_witness :
  exists s s', calm_reachable true 2 [] s /\ pcs s !! 0 = Some TestDone
    /\ exec true s 0 Return = Some s' /\ pcs s' !! 0 = Some Exited
    /\ (forall c, c ∈ pcs s -> counted c = 0%Z).
Proof.
  destruct (exec_calm true (init 2 []) idle_schedule) as [s|] eqn:E; [|by vm_compute in E].
  pose proof (exec_calm_sound _ _ _ _ E) as Hr.
  assert (Ht : pcs s !! 0 = Some TestDone) by (vm_compute in E; by injection E as <-).
  destruct (exec true s 0 Return) as [s'|] eqn:E'; [|by vm_compute in E; injection E as <-].
  assert (Hx : pcs s' !! 0 = Some Exited).
  { vm_compute in E. injection E as <-. vm_compute in E'. by injection E' as <-. }
  exists s, s'. split; [done|split; [done|split; [done|split; [done|]]]].
  by apply (running_threads_exact true 2 [] s 0 Return s' ltac:(lia) ltac:(lia) Hr Ht E').
Defined.

(** The increment of thread 1 falls between the read and the write of
    [running_threads--] in thread 0 and is lost. *)
Definition race_schedule : list (tid * Choice) :=
  let r := Return in
  [(0, r); (0, r); (0, r); (1, r); (0, r); (0, r); (0, r); (1, r); (1, r); (1, r); (1, r); (1, r)].

(** One thread has left, the other one waits for a counter of -1 to become 0. *)
Definition hung (s : State) : Prop :=
  event_queue s = [] /\ running_threads s = (-1)%Z
  /\ exists c, pcs s = [Exited; c] /\ (c = Top false \/ c = TestQueue \/ c = TestDone).

Lemma hung_step FLAG_stm s s' : hung s -> step FLAG_stm s s' -> hung s'.
Proof.
  intros (Hq & Hr & c & Hp & Hc) Hs. destruct Hs as [s t ch s' He].
  unfold exec in He. rewrite Hp in He. destruct t as [|[|t]]; cbn in He; [done| |done].
  destruct Hc as [->|[->| ->]]; cbn in He.
  - destruct (mutex s); [done|]. injection He as <-. unfold hung; unfold_state. rewrite Hp. eauto 8.
  - rewrite Hq in He. injection He as <-. unfold hung; unfold_state. rewrite Hp. eauto 8.
  - rewrite Hr in He. injection He as <-. unfold hung; unfold_state. rewrite Hp. eauto 8.
Qed.

(** C11: [running_threads--] is not atomic and the increment at the start of a
    loop is outside the mutex.  When the increment is lost the counter becomes
    -1 and the last thread never leaves its loop, although there is nothing
    left to do: the program does not terminate. *)
Theorem lost_increment_hangs FLAG_stm :
  exists s, reachable FLAG_stm 2 [] s /\ event_queue s = []
    /\ forall s', rtc (step FLAG_stm) s s' -> pcs s' !! 1 <> Some Exited.
Proof.
  destruct (exec_all FLAG_stm (init 2 []) race_schedule) as [s|] eqn:E; [|by destruct FLAG_stm].
  exists s. assert (Hh : hung s).
  { destruct FLAG_stm; vm_compute in E; injection E as <-; (split; [done|split; [done|]]);
      eexists; (split; [reflexivity|auto]). }
  split; [by eapply loop_schedule_sound|split; [apply Hh|]].
  intros s' Hr. assert (Hh' : hung s') by (eapply rtc_preserve; [apply hung_step|exact Hh|exact Hr]).
  destruct Hh' as (_ & _ & c & -> & [->|[->| ->]]); done.
Qed.

(** ** The transaction counters *)

(** The thread is inside a transaction that was counted. *)
Definition in_transaction (c : Pc) : Z :=
  match c with Execute _ | Async _ _ | AsyncPush _ _ | CommitTransaction _ => 1 | _ => 0 end.

Definition accounted (s : State) : Prop :=
  exists k, total_transactions s =
    (aborted_transactions s + Z.of_nat (length (finished s))
     + sumZ in_transaction (pcs s) + k * 2 ^ 32)%Z.

(** The number of transactions the program prints is the number of events
    executed and being executed plus the number of aborts, modulo 2^32. *)
Theorem transactions_counted n q s : reachable true n q s -> accounted s.
Proof.
  apply (rtc_preserve accounted).
  - intros s1 s2 [k Hk] Hs. destruct Hs as [s1 t ch s2 He].
    destruct (sint_cong 32 (total_transactions s1 + 1) ltac:(lia)) as [k1 H1].
    destruct (sint_cong 32 (aborted_transactions s1 + 1) ltac:(lia)) as [k2 H2].
    exec_cases He; unfold accounted; unfold_state; rewrite (sumZ_insert _ _ _ _ _ Ht);
      cbn [in_transaction]; rewrite ?length_app; cbn [length]; unfold int32;
      first [exists k; lia | exists (k + k1)%Z; lia | exists (k - k2)%Z; lia | exists (k + k2)%Z; lia].
  - exists 0%Z. cbn. by rewrite sumZ_replicate.
Qed.

Lemma transactions_counted_witness : exists s, reachable true 2 [7] s /\ accounted s.
Proof.
  destruct (outcome_reachable _ _ _ _ _ _ _ retry_run) as (s & Hr & _).
  exists s. split; [exact Hr|]. exact (transactions_counted 2 [7] s Hr).
Defined.
