(* ===== verification/Utf8.v ===== *)
(** * Utf8: encoding, decoding and the decoded character stream

    Models [Utf8::Encode], [Length], [ValueOf], [CalculateValue] and
    [ReadBlock], and the encoding of characters in the byte buffer of a
    [CharacterStream], of src/unicode-inl.h and src/unicode.cc, for a
    little-endian machine.  A [uchar] is a 32-bit unsigned integer, a byte is in
    [0, 256).  A read or a write outside of an array is [None]. *)

From S2P Require Import Prelude.

Open Scope Z_scope.

Ltac Zify.zify_post_hook ::= Z.div_mod_to_equations.

Definition kBadChar := 0xFFFD.
Definition kMaxOneByteChar := 0x7f.
Definition kMaxTwoByteChar := 0x7ff.
Definition kMaxThreeByteChar := 0xffff.
Definition kMaxFourByteChar := 0x1fffff.

Definition uchar (z : Z) : Z := uint 32 z.
Definition byte (z : Z) : Z := uint 8 z.

Definition is_byte (b : Z) : Prop := 0 <= b < 256.

(** ** Encoding *)

(** [~(1 << 6)], converted to unsigned. *)
Definition kMask := 0xFFFFFFBF.

(** The bytes stored at [str]; their number is the result. *)
Definition Encode (c : Z) : list Z :=
  if c <=? kMaxOneByteChar then [byte c]
  else if c <=? kMaxTwoByteChar then
    [byte (Z.lor 0xC0 (Z.shiftr c 6)); byte (Z.lor 0x80 (Z.land c kMask))]
  else if c <=? kMaxThreeByteChar then
    [byte (Z.lor 0xE0 (Z.shiftr c 12)); byte (Z.lor 0x80 (Z.land (Z.shiftr c 6) kMask));
     byte (Z.lor 0x80 (Z.land c kMask))]
  else
    [byte (Z.lor 0xF0 (Z.shiftr c 18)); byte (Z.lor 0x80 (Z.land (Z.shiftr c 12) kMask));
     byte (Z.lor 0x80 (Z.land (Z.shiftr c 6) kMask)); byte (Z.lor 0x80 (Z.land c kMask))].

Definition Length (c : Z) : Z :=
  if c <=? kMaxOneByteChar then 1
  else if c <=? kMaxTwoByteChar then 2
  else if c <=? kMaxThreeByteChar then 3
  else 4.

(** ** Decoding *)

(** The value and the new cursor; [str] starts at the character, [length] is
    what is left of the string. *)
Definition CalculateValue (str : list Z) (length cursor : Z) : option (Z * Z) :=
  if length =? 1 then Some (kBadChar, cursor + 1) else
  first ← str !! 0%nat;
  s1 ← str !! 1%nat;
  let second := byte (Z.lxor s1 0x80) in
  if negb (Z.land second 0xC0 =? 0) then Some (kBadChar, cursor + 1) else
  if first <? 0xE0 then
    if first <? 0xC0 then Some (kBadChar, cursor + 1) else
    let code_point := Z.land (Z.lor (Z.shiftl first 6) second) kMaxTwoByteChar in
    if code_point <=? kMaxOneByteChar then Some (kBadChar, cursor + 1)
    else Some (code_point, cursor + 2)
  else
  if length =? 2 then Some (kBadChar, cursor + 1) else
  s2 ← str !! 2%nat;
  let third := byte (Z.lxor s2 0x80) in
  if negb (Z.land third 0xC0 =? 0) then Some (kBadChar, cursor + 1) else
  if first <? 0xF0 then
    let code_point :=
      Z.land (Z.lor (Z.shiftl (Z.lor (Z.shiftl first 6) second) 6) third) kMaxThreeByteChar in
    if code_point <=? kMaxTwoByteChar then Some (kBadChar, cursor + 1)
    else Some (code_point, cursor + 3)
  else
  if length =? 3 then Some (kBadChar, cursor + 1) else
  s3 ← str !! 3%nat;
  let fourth := byte (Z.lxor s3 0x80) in
  if negb (Z.land fourth 0xC0 =? 0) then Some (kBadChar, cursor + 1) else
  if first <? 0xF8 then
    let code_point :=
      Z.land (Z.lor (Z.shiftl (Z.lor (Z.shiftl (Z.lor (Z.shiftl first 6) second) 6) third) 6)
                fourth) kMaxFourByteChar in
    if code_point <=? kMaxThreeByteChar then Some (kBadChar, cursor + 1)
    else Some (code_point, cursor + 4)
  else Some (kBadChar, cursor + 1).

Definition ValueOf (bytes : list Z) (length cursor : Z) : option (Z * Z) :=
  if length <=? 0 then Some (kBadChar, cursor) else
  first ← bytes !! 0%nat;
  if first <=? kMaxOneByteChar then Some (first, cursor + 1)
  else CalculateValue bytes length cursor.

(** ** Characters in the buffer of a stream *)

(** A 32-bit store at byte [off], low byte first. *)
Definition store32 (buf : list Z) (off : nat) (v : Z) : list Z :=
  <[off := byte v]> (<[S off := byte (Z.shiftr v 8)]>
    (<[S (S off) := byte (Z.shiftr v 16)]> (<[S (S (S off)) := byte (Z.shiftr v 24)]> buf))).

Definition load32 (buf : list Z) (off : nat) : option Z :=
  b0 ← buf !! off; b1 ← buf !! S off; b2 ← buf !! S (S off); b3 ← buf !! S (S (S off));
  Some (b0 + b1 * 2 ^ 8 + b2 * 2 ^ 16 + b3 * 2 ^ 24).

(** [(offset + 0x3) & ~0x3]. *)
Definition aligned (offset : nat) : nat :=
  Z.to_nat (Z.land (uint 32 (Z.of_nat offset + 3)) 0xFFFFFFFC).

(** The result is the new buffer and offset, [None] for [false]. *)
Definition EncodeAsciiCharacter (c : Z) (buffer : list Z) (capacity offset : nat)
    : option (list Z * nat) :=
  if (capacity <=? offset)%nat then None else Some (<[offset := byte c]> buffer, S offset).

Definition EncodeNonAsciiCharacter (c : Z) (buffer : list Z) (capacity offset : nat)
    : option (list Z * nat) :=
  let a := aligned offset in
  if (capacity <? a + 4)%nat then None
  else if (offset =? a)%nat then Some (store32 buffer a (Z.lor (uchar (Z.shiftl c 8)) 0x80), a + 4)%nat
  else Some (store32 (<[offset := 0x80%Z]> buffer) a (uchar (Z.shiftl c 8)), a + 4)%nat.

Definition EncodeCharacter (c : Z) (buffer : list Z) (capacity offset : nat) : option (list Z * nat) :=
  if c <=? kMaxOneByteChar then EncodeAsciiCharacter c buffer capacity offset
  else EncodeNonAsciiCharacter c buffer capacity offset.

Definition DecodeCharacter (buffer : list Z) (offset : nat) : option (Z * nat) :=
  b ← buffer !! offset;
  if b <=? kMaxOneByteChar then Some (b, S offset)
  else w ← load32 buffer (aligned offset); Some (Z.shiftr w 8, aligned offset + 4)%nat.

(** ** The bytes of an encoding *)

Lemma uint_land w z : 0 <= w -> uint w z = Z.land z (2 ^ w - 1).
Proof. intros Hw. unfold uint. by rewrite land_mask. Qed.

Lemma continuation_byte c : byte (Z.lor 0x80 (Z.land c kMask)) = 128 + c mod 64.
Proof.
  change 64 with (2 ^ 6). rewrite <- land_mask by lia. unfold byte. rewrite uint_land by lia.
  rewrite Z.add_nocarry_lor.
  - rewrite Z.land_lor_distr_l, <- Z.land_assoc.
    change (Z.land 128 (2 ^ 8 - 1)) with 128. change (Z.land kMask (2 ^ 8 - 1)) with (Z.lor 128 63).
    change (2 ^ 6 - 1) with 63. rewrite Z.land_lor_distr_r. apply Z.bits_inj'. intros n _.
    rewrite !Z.lor_spec, !Z.land_spec. by destruct (Z.testbit 128 n), (Z.testbit c n), (Z.testbit 63 n).
  - rewrite Z.land_comm, <- Z.land_assoc. change (Z.land (2 ^ 6 - 1) 128) with 0. apply Z.land_0_r.
Qed.

Lemma lead2_byte c : 0 <= c <= kMaxTwoByteChar -> byte (Z.lor 0xC0 (Z.shiftr c 6)) = 192 + c / 64.
Proof.
  unfold kMaxTwoByteChar. intros Hc. rewrite Z.shiftr_div_pow2 by lia. apply Z.eqb_eq.
  apply (forall_below (fun a => byte (Z.lor 0xC0 a) =? 192 + a) 32); [by vm_compute|]. lia.
Qed.

Lemma lead3_byte c : 0 <= c <= kMaxThreeByteChar -> byte (Z.lor 0xE0 (Z.shiftr c 12)) = 224 + c / 4096.
Proof.
  unfold kMaxThreeByteChar. intros Hc. rewrite Z.shiftr_div_pow2 by lia. apply Z.eqb_eq.
  apply (forall_below (fun a => byte (Z.lor 0xE0 a) =? 224 + a) 16); [by vm_compute|]. lia.
Qed.

Lemma lead4_byte c :
  0 <= c <= kMaxFourByteChar -> byte (Z.lor 0xF0 (Z.shiftr c 18)) = 240 + c / 262144.
Proof.
  unfold kMaxFourByteChar. intros Hc. rewrite Z.shiftr_div_pow2 by lia. apply Z.eqb_eq.
  apply (forall_below (fun a => byte (Z.lor 0xF0 a) =? 240 + a) 8); [by vm_compute|]. lia.
Qed.

(** The encoding in arithmetic. *)
Definition encoding (c : Z) : list Z :=
  if c <=? 0x7f then [c]
  else if c <=? 0x7ff then [192 + c / 64; 128 + c mod 64]
  else if c <=? 0xffff then [224 + c / 4096; 128 + c / 64 mod 64; 128 + c mod 64]
  else [240 + c / 262144; 128 + c / 4096 mod 64; 128 + c / 64 mod 64; 128 + c mod 64].

Lemma Encode_encoding c : 0 <= c <= kMaxFourByteChar -> Encode c = encoding c.
Proof.
  intros Hc. unfold Encode, encoding. unfold kMaxFourByteChar in Hc.
  change kMaxOneByteChar with 0x7f. change kMaxTwoByteChar with 0x7ff.
  change kMaxThreeByteChar with 0xffff.
  rewrite !continuation_byte.
  destruct (Z.leb_spec c 0x7f); [|destruct (Z.leb_spec c 0x7ff); [|destruct (Z.leb_spec c 0xffff)]].
  - unfold byte, uint. by rewrite Z.mod_small by lia.
  - by rewrite lead2_byte by (unfold kMaxTwoByteChar; lia).
  - by rewrite lead3_byte, Z.shiftr_div_pow2 by (unfold kMaxThreeByteChar; lia).
  - by rewrite lead4_byte, !Z.shiftr_div_pow2 by (unfold kMaxFourByteChar; lia).
Qed.

Lemma continuation_test s :
  is_byte s -> (Z.land (byte (Z.lxor s 0x80)) 0xC0 =? 0) = ((128 <=? s) && (s <? 192)).
Proof.
  intros Hs. apply eqb_true_iff.
  apply (forall_below (fun s => eqb (Z.land (byte (Z.lxor s 0x80)) 0xC0 =? 0)
                                   ((128 <=? s) && (s <? 192))) 256); [by vm_compute|done].
Qed.

Lemma continuation_bits s : 128 <= s < 192 -> byte (Z.lxor s 0x80) = s - 128.
Proof.
  intros Hs. replace s with (s - 128 + 128) at 1 by lia. apply Z.eqb_eq.
  apply (forall_below (fun b => byte (Z.lxor (b + 128) 0x80) =? b) 64); [by vm_compute|]. lia.
Qed.

(** Gluing 6-bit groups. *)
Lemma glue x b : 0 <= b < 64 -> Z.lor (Z.shiftl x 6) b = x * 64 + b.
Proof. intros Hb. by rewrite lor_shiftl. Qed.

(** ** Round trip and soundness *)

(** [CalculateValue] in arithmetic, on a string with enough bytes. *)
Definition decoding (str : list Z) : Z * Z :=
  match str with
  | first :: s1 :: rest =>
      if negb ((128 <=? s1) && (s1 <? 192)) then (kBadChar, 1)
      else if first <? 224 then
        if first <? 192 then (kBadChar, 1)
        else let c := ((first mod 32) * 64 + (s1 - 128)) in
          if c <=? 0x7f then (kBadChar, 1) else (c, 2)
      else
      match rest with
      | s2 :: rest =>
          if negb ((128 <=? s2) && (s2 <? 192)) then (kBadChar, 1)
          else if first <? 240 then
            let c := ((first mod 16) * 64 + (s1 - 128)) * 64 + (s2 - 128) in
            if c <=? 0x7ff then (kBadChar, 1) else (c, 3)
          else
          match rest with
          | s3 :: _ =>
              if negb ((128 <=? s3) && (s3 <? 192)) then (kBadChar, 1)
              else if first <? 248 then
                let c := (((first mod 8) * 64 + (s1 - 128)) * 64 + (s2 - 128)) * 64 + (s3 - 128) in
                if c <=? 0xffff then (kBadChar, 1) else (c, 4)
              else (kBadChar, 1)
          | [] => (kBadChar, 1)
          end
      | [] => (kBadChar, 1)
      end
  | _ => (kBadChar, 1)
  end.

Lemma land_two x : Z.land x kMaxTwoByteChar = x mod 2048.
Proof. by apply (land_mask x 11). Qed.
Lemma land_three x : Z.land x kMaxThreeByteChar = x mod 65536.
Proof. by apply (land_mask x 16). Qed.
Lemma land_four x : Z.land x kMaxFourByteChar = x mod 2097152.
Proof. by apply (land_mask x 21). Qed.

Lemma CalculateValue_decoding str cursor :
  str <> [] -> Forall is_byte str ->
  CalculateValue str (Z.of_nat (length str)) cursor
  = Some ((decoding str).1, cursor + (decoding str).2).
Proof.
  intros Hne Hb. unfold CalculateValue.
  destruct str as [|first [|s1 rest]]; [done|done|].
  apply Forall_cons in Hb as [Hf [Hb1 Hb]%Forall_cons].
  destruct (Z.eqb_spec (Z.of_nat (length (first :: s1 :: rest))) 1) as [E|_]; [cbn in E; lia|].
  cbn [lookup list_lookup mbind option_bind decoding]. rewrite continuation_test by done.
  destruct ((128 <=? s1) && (s1 <? 192)) eqn:E1; cbn [negb]; [|done]. breflect.
  rewrite (continuation_bits s1) by lia.
  rewrite (glue first) by lia.
  destruct (Z.ltb_spec first 224) as [L1|L1].
  { destruct (Z.ltb_spec first 192); [done|].
    rewrite land_two.
    replace ((first * 64 + (s1 - 128)) mod 2048) with (first mod 32 * 64 + (s1 - 128)) by lia.
    unfold kMaxOneByteChar, kMaxTwoByteChar, kMaxThreeByteChar. by case_match. }
  destruct rest as [|s2 rest]; [done|]. apply Forall_cons in Hb as [Hb2 Hb].
  destruct (Z.eqb_spec (Z.of_nat (length (first :: s1 :: s2 :: rest))) 2) as [E|_]; [cbn in E; lia|].
  cbn [lookup list_lookup mbind option_bind]. rewrite continuation_test by done.
  destruct ((128 <=? s2) && (s2 <? 192)) eqn:E2; cbn [negb]; [|done]. breflect.
  rewrite (continuation_bits s2) by lia. rewrite (glue (first * 64 + (s1 - 128))) by lia.
  destruct (Z.ltb_spec first 240) as [L2|L2].
  { rewrite land_three.
    replace (((first * 64 + (s1 - 128)) * 64 + (s2 - 128)) mod 65536)
      with ((first mod 16 * 64 + (s1 - 128)) * 64 + (s2 - 128)) by lia.
    unfold kMaxOneByteChar, kMaxTwoByteChar, kMaxThreeByteChar. by case_match. }
  destruct rest as [|s3 rest]; [done|]. apply Forall_cons in Hb as [Hb3 Hb].
  destruct (Z.eqb_spec (Z.of_nat (length (first :: s1 :: s2 :: s3 :: rest))) 3) as [E|_]; [cbn in E; lia|].
  cbn [lookup list_lookup mbind option_bind]. rewrite continuation_test by done.
  destruct ((128 <=? s3) && (s3 <? 192)) eqn:E3; cbn [negb]; [|done]. breflect.
  rewrite (continuation_bits s3) by lia.
  rewrite (glue ((first * 64 + (s1 - 128)) * 64 + (s2 - 128))) by lia.
  destruct (Z.ltb_spec first 248) as [L3|L3]; [|done]. rewrite land_four.
  replace ((((first * 64 + (s1 - 128)) * 64 + (s2 - 128)) * 64 + (s3 - 128)) mod 2097152)
    with (((first mod 8 * 64 + (s1 - 128)) * 64 + (s2 - 128)) * 64 + (s3 - 128)) by lia.
  unfold kMaxThreeByteChar. by case_match.
Qed.

(** Settle the comparisons that the context decides. *)
Ltac decide_leb :=
  repeat match goal with
  | |- context [?a <? ?b] => (destruct (Z.ltb_spec a b); [lia|]) || (destruct (Z.ltb_spec a b); [|lia])
  | |- context [?a <=? ?b] => (destruct (Z.leb_spec a b); [lia|]) || (destruct (Z.leb_spec a b); [|lia])
  end.

Ltac compute_to_nat :=
  match goal with
  | |- context [Z.to_nat ?n] => let v := eval compute in (Z.to_nat n) in change (Z.to_nat n) with v
  end.

Lemma encoding_cases c :
  0 <= c <= kMaxFourByteChar -> exists first rest, encoding c = first :: rest /\ is_byte first
    /\ Forall is_byte rest /\ (c <= 0x7f <-> first <= 0x7f) /\ (c <= 0x7f -> first = c /\ rest = [])
    /\ length (encoding c) = Z.to_nat (Length c).
Proof.
  unfold kMaxFourByteChar, encoding, Length. intros Hc.
  change kMaxOneByteChar with 0x7f. change kMaxTwoByteChar with 0x7ff.
  change kMaxThreeByteChar with 0xffff.
  destruct (Z.leb_spec c 0x7f); [|destruct (Z.leb_spec c 0x7ff); [|destruct (Z.leb_spec c 0xffff)]];
    eexists _, _; (split; [reflexivity|]); unfold is_byte;
    (split; [lia|split; [repeat constructor; lia|split; [lia|split; [|done]]]]); intros; (split; [done|lia]) || done || lia.
Qed.

Lemma decoding_encoding c rest :
  0x7f < c <= kMaxFourByteChar -> decoding (encoding c ++ rest) = (c, Length c).
Proof.
  unfold kMaxFourByteChar, encoding, Length. intros Hc.
  change kMaxOneByteChar with 0x7f. change kMaxTwoByteChar with 0x7ff.
  change kMaxThreeByteChar with 0xffff.
  destruct (Z.leb_spec c 0x7f); [lia|].
  destruct (Z.leb_spec c 0x7ff); [|destruct (Z.leb_spec c 0xffff)]; cbn [app decoding];
    rewrite ?(proj2 (Z.leb_le 128 _)) by lia; rewrite ?(proj2 (Z.ltb_lt _ 192)) by lia;
    cbn [andb negb];
    decide_leb; f_equal; lia.
Qed.

Lemma decoding_sound first rest :
  Forall is_byte (first :: rest) ->
  decoding (first :: rest) = (kBadChar, 1)
  \/ exists c n, decoding (first :: rest) = (c, n) /\ 0x7f < c <= kMaxFourByteChar
      /\ n = Length c /\ n <= Z.of_nat (length (first :: rest))
      /\ take (Z.to_nat n) (first :: rest) = encoding c.
Proof.
  intros Hb. destruct (decoding (first :: rest)) as [c n] eqn:E.
  destruct (decide ((c, n) = (kBadChar, 1))) as [->|Hgood]; [by left|right].
  exists c, n. split; [done|]. unfold decoding in E. unfold is_byte in Hb.
  repeat match goal with H : Forall _ (_ :: _) |- _ => apply Forall_cons in H as [? H] end.
  repeat match goal with
  | H : _ = (c, n) |- _ => first
     [ progress case_hyp H
     | injection H as <- <-; try (by destruct Hgood) ]
  | H : Forall _ (_ :: _) |- _ => apply Forall_cons in H as [? H]
  end; try (by destruct Hgood); breflect;
  unfold Length, encoding, kMaxOneByteChar, kMaxTwoByteChar, kMaxThreeByteChar, kMaxFourByteChar;
  cbn [length]; decide_leb;
  (split; [lia|split; [done|split; [lia|]]]); compute_to_nat; cbn [take];
  repeat f_equal; lia.
Qed.

(** Decoding an encoded character gives the character back and moves the
    cursor behind its bytes, whose number is [Length]. *)
Theorem ValueOf_Encode c rest cursor :
  0 <= c <= kMaxFourByteChar -> Forall is_byte rest ->
  ValueOf (Encode c ++ rest) (Z.of_nat (length (Encode c ++ rest))) cursor
    = Some (c, cursor + Length c)
  /\ Z.of_nat (length (Encode c)) = Length c.
Proof.
  intros Hc Hr. rewrite Encode_encoding by done.
  destruct (encoding_cases c Hc) as (first & tl & E & Hf & Ht & H1 & H2 & Hl).
  split; [|rewrite Hl; unfold Length; repeat case_match; lia].
  unfold ValueOf. destruct (Z.leb_spec (Z.of_nat (length (encoding c ++ rest))) 0) as [Hz|Hz].
  { rewrite E in Hz. cbn in Hz. lia. }
  rewrite E at 1. cbn [app lookup list_lookup mbind option_bind].
  destruct (Z.leb_spec first kMaxOneByteChar) as [Hs|Hs].
  - apply H1 in Hs as Hc'. destruct (H2 Hc') as [-> _]. f_equal. f_equal. unfold Length.
    by rewrite (proj2 (Z.leb_le c kMaxOneByteChar) Hc').
  - rewrite CalculateValue_decoding.
    + rewrite decoding_encoding; [done|]. unfold kMaxOneByteChar in Hs. lia.
    + by rewrite E.
    + rewrite E. cbn. constructor; [done|]. by apply Forall_app.
Qed.

Lemma ValueOf_Encode_witness :
  ValueOf (Encode 0x20AC ++ [33]) 4 10 = Some (0x20AC, 13) /\ Encode 0x20AC = [0xE2; 0x82; 0xAC].
Proof.
  split; [|reflexivity].
  apply (ValueOf_Encode 0x20AC [33] 10); [unfold kMaxFourByteChar; lia|repeat constructor; lia].
Defined.

(** Every string of bytes is decoded without reading outside of it, and
    the cursor moves forward by one to four bytes and not beyond the end.  What
    is not reported as a bad character (one byte long) is exactly the encoding
    of its value: overlong sequences are rejected. *)
Theorem ValueOf_sound str cursor :
  str <> [] -> Forall is_byte str ->
  exists c n, ValueOf str (Z.of_nat (length str)) cursor = Some (c, cursor + n)
    /\ 1 <= n <= 4 /\ n <= Z.of_nat (length str)
    /\ (c = kBadChar /\ n = 1
        \/ 0 <= c <= kMaxFourByteChar /\ take (Z.to_nat n) str = Encode c).
Proof.
  intros Hne Hb. destruct str as [|first rest]; [done|]. pose proof Hb as [Hf _]%Forall_cons.
  unfold ValueOf. destruct (Z.leb_spec (Z.of_nat (length (first :: rest))) 0) as [Hz|_].
  { cbn in Hz. lia. }
  cbn [lookup list_lookup mbind option_bind]. unfold is_byte in Hf.
  destruct (Z.leb_spec first kMaxOneByteChar) as [Hs|Hs].
  - exists first, 1. unfold kMaxOneByteChar in Hs. cbn [length].
    split; [done|split; [lia|split; [lia|right]]]. unfold kMaxFourByteChar. split; [lia|].
    rewrite Encode_encoding by (unfold kMaxFourByteChar; lia). unfold encoding.
    destruct (Z.leb_spec first 0x7f); [done|lia].
  - rewrite CalculateValue_decoding by done.
    destruct (decoding_sound first rest Hb) as [->|(c & n & -> & Hc & Hn & Hl & Ht)].
    + exists kBadChar, 1. cbn [length]. split; [done|split; [lia|split; [lia|by left]]].
    + exists c, n. split; [done|]. split; [|split; [done|]].
      * subst n. unfold Length. repeat case_match; lia.
      * right. split; [lia|]. by rewrite Encode_encoding by lia.
Qed.

Lemma ValueOf_sound_witness :
  exists c n, ValueOf [0xC0; 0x80] 2 0 = Some (c, n) /\ c = kBadChar /\ n = 1.
Proof.
  destruct (ValueOf_sound [0xC0; 0x80] 0 ltac:(done) ltac:(repeat constructor; lia))
    as (c & n & E & _).
  exists c, n. split; [exact E|]. vm_compute in E. by injection E as <- <-.
Defined.

(** ** The buffer of a character stream *)

Lemma aligned_div off :
  Z.of_nat off < 2 ^ 32 - 3 -> Z.of_nat (aligned off) = (Z.of_nat off + 3) / 4 * 4.
Proof.
  intros Hoff. unfold aligned. rewrite Z2Nat.id.
  - assert (E : forall x, Z.land x 0xFFFFFFFC = Z.ldiff (Z.land x (2 ^ 32 - 1)) 3).
    { intros x. change 0xFFFFFFFC with (Z.ldiff (2 ^ 32 - 1) 3). apply Z.bits_inj'. intros n _.
      rewrite Z.land_spec, !Z.ldiff_spec, Z.land_spec. by rewrite andb_assoc. }
    rewrite E, land_mask by lia. unfold uint. rewrite Z.mod_mod by lia.
    rewrite (Z.mod_small (Z.of_nat off + 3)) by lia. change 3 with (Z.ones 2) at 2.
    rewrite Z.ldiff_ones_r, Z.shiftl_mul_pow2, Z.shiftr_div_pow2 by lia. done.
  - apply Z.land_nonneg. right. lia.
Qed.

Lemma aligned_le off : Z.of_nat off < 2 ^ 32 - 3 -> (off <= aligned off)%nat.
Proof. intros H. pose proof (aligned_div off H). lia. Qed.

Lemma length_store32 buf a v : length (store32 buf a v) = length buf.
Proof. unfold store32. by rewrite !length_insert. Qed.

Lemma store32_lookup buf a v :
  (a + 4 <= length buf)%nat ->
  store32 buf a v !! a = Some (byte v) /\ store32 buf a v !! S a = Some (byte (Z.shiftr v 8))
  /\ store32 buf a v !! S (S a) = Some (byte (Z.shiftr v 16))
  /\ store32 buf a v !! S (S (S a)) = Some (byte (Z.shiftr v 24)).
Proof.
  intros Ha. unfold store32. repeat split;
    rewrite ?list_lookup_insert_ne by lia; rewrite list_lookup_insert_eq; rewrite ?length_insert; done || lia.
Qed.

Lemma load32_store32 buf a v :
  (a + 4 <= length buf)%nat -> 0 <= v < 2 ^ 32 -> load32 (store32 buf a v) a = Some v.
Proof.
  intros Ha Hv. unfold load32. destruct (store32_lookup buf a v Ha) as (-> & H1 & H2 & H3).
  cbn [mbind option_bind]. rewrite H1. cbn [mbind option_bind]. rewrite H2.
  cbn [mbind option_bind]. rewrite H3. cbn [mbind option_bind].
  f_equal. unfold byte, uint. rewrite !Z.shiftr_div_pow2 by lia. lia.
Qed.

Lemma store32_before buf a v i : (i < a)%nat -> store32 buf a v !! i = buf !! i.
Proof. intros Hi. unfold store32. by rewrite !list_lookup_insert_ne by lia. Qed.

Lemma word_low c : 0 <= c < 2 ^ 24 -> Z.lor (uchar (Z.shiftl c 8)) 0x80 = c * 256 + 128.
Proof.
  intros Hc. unfold uchar, uint. rewrite Z.mod_small.
  - by apply (lor_shiftl c 8 128).
  - rewrite Z.shiftl_mul_pow2 by lia. lia.
Qed.

Lemma EncodeNonAscii_decodes c buf off buf' off' :
  kMaxOneByteChar < c < 2 ^ 24 -> Z.of_nat (length buf) < 2 ^ 32 - 3 -> (off <= length buf)%nat ->
  EncodeNonAsciiCharacter c buf (length buf) off = Some (buf', off') ->
  DecodeCharacter buf' off = Some (c, off') /\ (off < off' <= length buf)%nat
  /\ length buf' = length buf /\ forall i, (i < off)%nat -> buf' !! i = buf !! i.
Proof.
  intros Hc Hlen Hoff. unfold EncodeNonAsciiCharacter, DecodeCharacter.
  pose proof (aligned_le off ltac:(lia)) as Hle. unfold kMaxOneByteChar in Hc.
  destruct (Nat.ltb_spec (length buf) (aligned off + 4)) as [|Ha]; [done|].
  destruct (Nat.eqb_spec off (aligned off)) as [Heq|Hne]; intros [= <- <-];
    rewrite length_store32, ?length_insert.
  - rewrite load32_store32 by (rewrite ?word_low; lia).
    unfold store32 at 1. rewrite <- Heq, list_lookup_insert_eq by (rewrite !length_insert; lia).
    cbn [mbind option_bind]. rewrite word_low by lia.
    assert (byte (c * 256 + 128) = 128) as -> by (unfold byte, uint; lia).
    cbn [Z.leb Z.compare kMaxOneByteChar]. rewrite Z.shiftr_div_pow2 by lia.
    split; [f_equal; f_equal; lia|split; [lia|split; [done|]]].
    intros i Hi. rewrite store32_before by lia. done.
  - assert (Hw : uchar (Z.shiftl c 8) = c * 256).
    { unfold uchar, uint. rewrite Z.shiftl_mul_pow2 by lia. rewrite Z.mod_small; lia. }
    rewrite load32_store32 by (rewrite ?length_insert, ?Hw; lia). rewrite store32_before by lia.
    rewrite list_lookup_insert_eq by lia. cbn [mbind option_bind Z.leb Z.compare kMaxOneByteChar].
    rewrite Hw, Z.shiftr_div_pow2 by lia.
    split; [f_equal; f_equal; lia|split; [lia|split; [done|]]].
    intros i Hi. by rewrite store32_before, list_lookup_insert_ne by lia.
Qed.

Lemma EncodeAscii_decodes c buf off buf' off' :
  0 <= c <= kMaxOneByteChar ->
  EncodeAsciiCharacter c buf (length buf) off = Some (buf', off') ->
  DecodeCharacter buf' off = Some (c, off') /\ (off < off' <= length buf)%nat
  /\ length buf' = length buf /\ forall i, (i < off)%nat -> buf' !! i = buf !! i.
Proof.
  unfold kMaxOneByteChar. intros Hc. unfold EncodeAsciiCharacter, DecodeCharacter.
  destruct (Nat.leb_spec (length buf) off); [done|]. intros [= <- <-].
  rewrite list_lookup_insert_eq by lia. cbn [mbind option_bind].
  assert (byte c = c) as -> by (unfold byte, uint; rewrite Z.mod_small; lia).
  change kMaxOneByteChar with 127. destruct (Z.leb_spec c 127); [|lia].
  rewrite length_insert. split; [done|split; [lia|split; [done|]]].
  intros i Hi. by rewrite list_lookup_insert_ne by lia.
Qed.

(** A character put into the buffer of a stream is read back by
    [DecodeCharacter] at the same offset, which then moves to where the next
    character is put; nothing before the offset changes, and the word of a
    character that is not ASCII is aligned and inside of the buffer. *)
Theorem DecodeCharacter_EncodeCharacter c buf off buf' off' :
  0 <= c < 2 ^ 24 -> Z.of_nat (length buf) < 2 ^ 32 - 3 -> (off <= length buf)%nat ->
  EncodeCharacter c buf (length buf) off = Some (buf', off') ->
  DecodeCharacter buf' off = Some (c, off') /\ (off < off' <= length buf)%nat
  /\ length buf' = length buf /\ forall i, (i < off)%nat -> buf' !! i = buf !! i.
Proof.
  intros Hc Hlen Hoff. unfold EncodeCharacter. destruct (Z.leb_spec c kMaxOneByteChar).
  - apply EncodeAscii_decodes. lia.
  - apply EncodeNonAscii_decodes; [lia|done|done].
Qed.

Lemma DecodeCharacter_EncodeCharacter_witness :
  EncodeCharacter 0x20AC (replicate 12 7) 12 5 = Some ([7; 7; 7; 7; 7; 0x80; 7; 7; 0; 0xAC; 0x20; 0], 12%nat)
  /\ DecodeCharacter [7; 7; 7; 7; 7; 0x80; 7; 7; 0; 0xAC; 0x20; 0] 5 = Some (0x20AC, 12%nat).
Proof.
  split; [reflexivity|].
  apply (DecodeCharacter_EncodeCharacter 0x20AC (replicate 12 7) 5); [lia|cbn; lia|cbn; lia|reflexivity].
Defined.

(** ** Reading a block *)

(** Where the characters of a block are: none, a part of the string itself, or
    the buffer. *)
Inductive Block := NoBlock | InString (start : nat) | InBuffer.

(** The ascii characters a list starts with. *)
Fixpoint ascii_run (l : list Z) : nat :=
  match l with
  | [] => 0
  | b :: l => if b <=? kMaxOneByteChar then S (ascii_run l) else 0
  end.

(** The loop that fills the buffer; the fuel is what is left of the string. *)
Fixpoint fill_buffer (fuel : nat) (str buffer : list Z) (capacity offset cursor chars_read : nat)
    : option (list Z * nat * nat) :=
  match fuel with
  | O => None
  | S fuel =>
      if (offset <? length str)%nat then
        c ← str !! offset;
        if c <=? kMaxOneByteChar then
          match EncodeAsciiCharacter c buffer capacity cursor with
          | None => Some (buffer, chars_read, offset)
          | Some (buffer, cursor) =>
              fill_buffer fuel str buffer capacity (S offset) cursor (S chars_read)
          end
        else
          '(c, chars) ← ValueOf (drop offset str) (Z.of_nat (length str - offset)) 0;
          match EncodeNonAsciiCharacter c buffer capacity cursor with
          | None => Some (buffer, chars_read, offset)
          | Some (buffer, cursor) =>
              fill_buffer fuel str buffer capacity (offset + Z.to_nat chars) cursor (S chars_read)
          end
      else Some (buffer, chars_read, offset)
  end.

Definition ReadBlock (str buffer : list Z) (capacity offset : nat)
    : option (Block * list Z * nat * nat) :=
  if (offset =? length str)%nat then Some (NoBlock, buffer, 0%nat, offset)
  else
    first ← str !! offset;
    if first <=? kMaxOneByteChar then
      let offset' := (S offset + ascii_run (drop (S offset) str))%nat in
      Some (InString offset, buffer, offset' - offset, offset')%nat
    else
      '(buffer, chars_read, offset) ←
        fill_buffer (S (length str - offset)) str buffer capacity offset 0 0;
      Some (InBuffer, buffer, chars_read, offset).

(** The next [n] characters and the offset behind them. *)
Fixpoint chars_of (next : nat -> option (Z * nat)) (n off : nat) : option (list Z * nat) :=
  match n with
  | O => Some ([], off)
  | S n => '(c, off1) ← next off; '(cs, off2) ← chars_of next n off1; Some (c :: cs, off2)
  end.

Definition next_in_string (str : list Z) (off : nat) : option (Z * nat) :=
  '(c, k) ← ValueOf (drop off str) (Z.of_nat (length str - off)) 0; Some (c, off + Z.to_nat k)%nat.

Definition block_data (str buffer : list Z) (b : Block) : list Z :=
  match b with NoBlock => [] | InString start => drop start str | InBuffer => buffer end.

Lemma chars_of_snoc next n off cs off1 c off2 :
  chars_of next n off = Some (cs, off1) -> next off1 = Some (c, off2) ->
  chars_of next (S n) off = Some (cs ++ [c], off2).
Proof.
  revert off cs. induction n as [|n IH]; intros off cs.
  - intros [= <- <-] H. cbn. by rewrite H.
  - cbn [chars_of]. destruct (next off) as [[c1 o1]|] eqn:E; cbn [mbind option_bind]; [|done].
    destruct (chars_of next n o1) as [[cs1 o2]|] eqn:E1; cbn [mbind option_bind]; [|done].
    intros [= <- <-] H. specialize (IH o1 cs1 E1 H). cbn [chars_of] in IH. by rewrite IH.
Qed.

Lemma DecodeCharacter_agree buf buf' off c off' :
  Z.of_nat (length buf) < 2 ^ 32 - 3 -> (forall i, (i < off')%nat -> buf' !! i = buf !! i) ->
  DecodeCharacter buf off = Some (c, off') -> (off < off')%nat /\ DecodeCharacter buf' off = Some (c, off').
Proof.
  intros Hlen Hagree. unfold DecodeCharacter.
  destruct (buf !! off) as [b|] eqn:E; cbn [mbind option_bind]; [|done].
  pose proof (lookup_lt_Some _ _ _ E) as Hoff. pose proof (aligned_le off ltac:(lia)) as Hle.
  destruct (Z.leb_spec b kMaxOneByteChar) as [Hb|Hb].
  - intros [= -> <-]. rewrite Hagree, E by lia. cbn [mbind option_bind].
    destruct (Z.leb_spec c kMaxOneByteChar); [|lia]. split; [lia|done].
  - destruct (load32 buf (aligned off)) as [w|] eqn:Ew; cbn [mbind option_bind]; [|done].
    intros [= <- <-]. rewrite Hagree, E by lia. cbn [mbind option_bind].
    destruct (Z.leb_spec b kMaxOneByteChar); [lia|].
    assert (load32 buf' (aligned off) = Some w) as ->; [|split; [lia|done]].
    rewrite <- Ew. unfold load32. by rewrite !Hagree by lia.
Qed.

Lemma chars_of_agree buf buf' n off cs off' :
  Z.of_nat (length buf) < 2 ^ 32 - 3 -> (forall i, (i < off')%nat -> buf' !! i = buf !! i) ->
  chars_of (DecodeCharacter buf) n off = Some (cs, off') ->
  (off <= off')%nat /\ chars_of (DecodeCharacter buf') n off = Some (cs, off').
Proof.
  intros Hlen Hagree. revert off cs. induction n as [|n IH]; intros off cs; cbn [chars_of].
  { intros [= <- <-]. done. }
  destruct (DecodeCharacter buf off) as [[c o1]|] eqn:E; cbn [mbind option_bind]; [|done].
  destruct (chars_of (DecodeCharacter buf) n o1) as [[cs1 o2]|] eqn:E1; cbn [mbind option_bind]; [|done].
  intros [= <- ->]. destruct (IH o1 cs1 E1) as [Hle H1].
  destruct (DecodeCharacter_agree buf buf' off c o1 Hlen) as [Hlt H2]; [|done|].
  - intros i Hi. apply Hagree. lia.
  - split; [lia|]. rewrite H2. cbn [mbind option_bind]. by rewrite H1.
Qed.

(** A character appended to a block. *)
Lemma chars_of_append buf buf' n cs cursor c cursor' :
  Z.of_nat (length buf) < 2 ^ 32 - 3 -> chars_of (DecodeCharacter buf) n 0 = Some (cs, cursor) ->
  DecodeCharacter buf' cursor = Some (c, cursor') ->
  (forall i, (i < cursor)%nat -> buf' !! i = buf !! i) ->
  chars_of (DecodeCharacter buf') (S n) 0 = Some (cs ++ [c], cursor').
Proof.
  intros Hlen Hcs Hd Hagree. eapply chars_of_snoc; [|exact Hd].
  by apply (chars_of_agree buf buf' n 0 cs cursor).
Qed.

(** A character of a string that is not ASCII decodes to one that is not. *)
Lemma ValueOf_not_ascii str first :
  Forall is_byte str -> str !! 0%nat = Some first -> kMaxOneByteChar < first ->
  exists c n, ValueOf str (Z.of_nat (length str)) 0 = Some (c, n) /\ 1 <= n <= Z.of_nat (length str)
    /\ kMaxOneByteChar < c <= kMaxFourByteChar.
Proof.
  intros Hb Hf Hlt. destruct str as [|x rest]; [done|]. injection Hf as ->. unfold ValueOf.
  destruct (Z.leb_spec (Z.of_nat (length (first :: rest))) 0) as [Hz|_]; [cbn in Hz; lia|].
  cbn [lookup list_lookup mbind option_bind].
  destruct (Z.leb_spec first kMaxOneByteChar); [lia|]. rewrite CalculateValue_decoding by done.
  destruct (decoding_sound first rest Hb) as [->|(c & n & -> & Hc & Hn & Hl & _)].
  - exists kBadChar, 1. split; [done|]. cbn [length].
    unfold kBadChar, kMaxOneByteChar, kMaxFourByteChar. lia.
  - exists c, n. split; [done|]. split; [|unfold kMaxOneByteChar; lia].
    split; [|done]. subst n. unfold Length. repeat case_match; lia.
Qed.

Lemma chars_of_forward str n o cs o' :
  chars_of (next_in_string str) n o = Some (cs, o') -> (o <= o')%nat.
Proof.
  revert o cs. induction n as [|n IH]; intros o cs; cbn [chars_of]; [intros [= _ ->]; lia|].
  destruct (next_in_string str o) as [[c1 o1]|] eqn:E; cbn [mbind option_bind]; [|done].
  destruct (chars_of _ n o1) as [[cs2 o2]|] eqn:E2; cbn [mbind option_bind]; [|done].
  intros [= _ ->]. apply IH in E2. unfold next_in_string in E.
  destruct (ValueOf _ _ _) as [[c k]|]; cbn [mbind option_bind] in E; [|done]. injection E as _ <-. lia.
Qed.

Lemma next_in_string_ascii str off c :
  str !! off = Some c -> c <= kMaxOneByteChar -> next_in_string str off = Some (c, S off).
Proof.
  intros Hc Ha. pose proof (lookup_lt_Some _ _ _ Hc) as Hlt. unfold next_in_string, ValueOf.
  destruct (Z.leb_spec (Z.of_nat (length str - off)) 0); [lia|].
  rewrite lookup_drop, Nat.add_0_r, Hc. cbn [mbind option_bind].
  destruct (Z.leb_spec c kMaxOneByteChar); [|lia]. cbn [mbind option_bind]. f_equal. f_equal. lia.
Qed.

Lemma fill_buffer_spec fuel str buf off0 offset cursor n cs :
  Forall is_byte str -> Z.of_nat (length buf) < 2 ^ 32 - 3 ->
  (length str - offset < fuel)%nat -> (offset <= length str)%nat -> (cursor <= length buf)%nat ->
  chars_of (next_in_string str) n off0 = Some (cs, offset) ->
  chars_of (DecodeCharacter buf) n 0 = Some (cs, cursor) ->
  exists buf' n' offset' cs' cursor',
    fill_buffer fuel str buf (length buf) offset cursor n = Some (buf', n', offset')
    /\ (n <= n')%nat /\ (offset <= offset' <= length str)%nat
    /\ (cursor = 0 -> 4 <= length buf -> offset < length str -> n < n')%nat
    /\ chars_of (next_in_string str) n' off0 = Some (cs', offset')
    /\ chars_of (DecodeCharacter buf') n' 0 = Some (cs', cursor').
Proof.
  intros Hb. revert buf offset cursor n cs.
  induction fuel as [|fuel IH]; intros buf offset cursor n cs Hlen Hfuel Hoff Hcur Hs Hd; [lia|].
  cbn [fill_buffer]. destruct (Nat.ltb_spec offset (length str)) as [Hlt|Hge].
  2: { exists buf, n, offset, cs, cursor. repeat split; try done; lia. }
  destruct (lookup_lt_is_Some_2 str offset Hlt) as [c Hc]. rewrite Hc. cbn [mbind option_bind].
  assert (Hdrop : drop offset str !! 0%nat = Some c) by (rewrite lookup_drop, Nat.add_0_r; done).
  assert (Hbd : Forall is_byte (drop offset str)) by by apply Forall_drop.
  pose proof (proj1 (list.Forall_forall _ _) Hb c ltac:(by eapply list_elem_of_lookup_2)) as Hcb.
  unfold is_byte in Hcb. destruct (Z.leb_spec c kMaxOneByteChar) as [Ha|Ha].
  - destruct (EncodeAsciiCharacter c buf (length buf) cursor) as [[buf1 cur1]|] eqn:E.
    + destruct (EncodeAscii_decodes c buf cursor buf1 cur1 ltac:(lia) E) as (D & Hcur1 & Hl1 & Hag).
      rewrite <- Hl1. destruct (IH buf1 (S offset) cur1 (S n) (cs ++ [c])) as
        (buf' & n' & offset' & cs' & cursor' & E' & Hn' & Ho' & _ & H1 & H2); try lia.
      * eapply chars_of_snoc; [exact Hs|]. by apply next_in_string_ascii.
      * by eapply chars_of_append.
      * exists buf', n', offset', cs', cursor'. repeat split; try done; lia.
    + exists buf, n, offset, cs, cursor. repeat split; try done; try lia.
      intros -> H4 _. unfold EncodeAsciiCharacter in E. destruct (Nat.leb_spec (length buf) 0); [lia|done].
  - destruct (ValueOf_not_ascii _ c Hbd Hdrop Ha) as (v & k & Ev & Hk & Hv).
    rewrite length_drop in Ev, Hk. rewrite Ev. cbn [mbind option_bind]. unfold kMaxFourByteChar in Hv.
    destruct (EncodeNonAsciiCharacter v buf (length buf) cursor) as [[buf1 cur1]|] eqn:E.
    + destruct (EncodeNonAscii_decodes v buf cursor buf1 cur1 ltac:(lia) Hlen Hcur E)
        as (D & Hcur1 & Hl1 & Hag).
      rewrite <- Hl1. destruct (IH buf1 (offset + Z.to_nat k)%nat cur1 (S n) (cs ++ [v])) as
        (buf' & n' & offset' & cs' & cursor' & E' & Hn' & Ho' & _ & H1 & H2); try lia.
      * eapply chars_of_snoc; [exact Hs|]. unfold next_in_string. by rewrite Ev.
      * by eapply chars_of_append.
      * exists buf', n', offset', cs', cursor'. repeat split; try done; lia.
    + exists buf, n, offset, cs, cursor. repeat split; try done; try lia.
      intros -> H4 _. unfold EncodeNonAsciiCharacter in E. change (aligned 0) with 0%nat in E.
      cbn [Nat.eqb] in E. destruct (Nat.ltb_spec (length buf) (0 + 4)); [lia|done].
Qed.

Lemma ascii_run_spec str off k :
  (k <= ascii_run (drop off str))%nat -> Forall is_byte str ->
  exists cs, chars_of (next_in_string str) k off = Some (cs, off + k)%nat
    /\ forall start, (start <= off)%nat ->
        chars_of (DecodeCharacter (drop start str)) k (off - start) = Some (cs, off + k - start)%nat.
Proof.
  intros Hk Hb. revert off Hk. induction k as [|k IH]; intros off Hk.
  { exists []. cbn. rewrite Nat.add_0_r. auto. }
  destruct (drop off str) as [|c rest] eqn:E; cbn [ascii_run] in Hk; [lia|].
  destruct (Z.leb_spec c kMaxOneByteChar) as [Hc|]; [|lia].
  pose proof (lookup_drop str off 0) as Hc0. rewrite E, Nat.add_0_r in Hc0. symmetry in Hc0. cbn in Hc0.
  pose proof (lookup_lt_Some _ _ _ Hc0) as Hlt.
  assert (rest = drop (S off) str) as -> by (rewrite (drop_S _ _ _ Hc0) in E; by injection E).
  destruct (IH (S off) ltac:(lia)) as (cs & H1 & H2). exists (c :: cs). cbn [chars_of]. split.
  - rewrite (next_in_string_ascii str off c) by done. cbn [mbind option_bind].
    rewrite H1. cbn [mbind option_bind]. f_equal. f_equal. lia.
  - intros start Hstart.
    assert (Hd : DecodeCharacter (drop start str) (off - start) = Some (c, S (off - start))).
    { unfold DecodeCharacter. rewrite lookup_drop.
      replace (start + (off - start))%nat with off by lia. rewrite Hc0. cbn [mbind option_bind].
      destruct (Z.leb_spec c kMaxOneByteChar); [reflexivity|lia]. }
    rewrite Hd. cbn [mbind option_bind].
    replace (S (off - start)) with (S off - start)%nat by lia.
    rewrite (H2 start) by lia. cbn [mbind option_bind]. f_equal. f_equal. lia.
Qed.

Lemma ascii_run_length l : (ascii_run l <= length l)%nat.
Proof. induction l as [|b l IH]; cbn; [lia|]. destruct (b <=? kMaxOneByteChar); lia. Qed.

(** C12: a block read from a string of bytes holds at least one character, the
    offset moves forward and not beyond the end, and decoding the characters of
    the block, in the string itself when they are ASCII and in the buffer
    otherwise, gives exactly the next characters of the string. *)
Theorem ReadBlock_spec str buf offset :
  Forall is_byte str -> (4 <= length buf)%nat -> Z.of_nat (length buf) < 2 ^ 32 - 3 ->
  (offset < length str)%nat ->
  exists b buf' n offset' cs e,
    ReadBlock str buf (length buf) offset = Some (b, buf', n, offset')
    /\ (0 < n)%nat /\ (offset < offset' <= length str)%nat
    /\ chars_of (next_in_string str) n offset = Some (cs, offset')
    /\ chars_of (DecodeCharacter (block_data str buf' b)) n 0 = Some (cs, e).
Proof.
  intros Hb H4 Hlen Hoff. unfold ReadBlock. destruct (Nat.eqb_spec offset (length str)); [lia|].
  destruct (lookup_lt_is_Some_2 str offset Hoff) as [c Hc]. rewrite Hc. cbn [mbind option_bind].
  destruct (Z.leb_spec c kMaxOneByteChar) as [Ha|Ha].
  - pose proof (ascii_run_length (drop (S offset) str)) as Hr. rewrite length_drop in Hr.
    destruct (ascii_run_spec str offset (S (ascii_run (drop (S offset) str)))) as (cs & H1 & H2);
      [|done|].
    { rewrite (drop_S _ _ _ Hc). cbn [ascii_run]. destruct (Z.leb_spec c kMaxOneByteChar); lia. }
    eexists _, _, _, _, cs, _. split; [reflexivity|].
    replace (S offset + ascii_run (drop (S offset) str) - offset)%nat
      with (S (ascii_run (drop (S offset) str))) by lia.
    split; [lia|split; [lia|split]].
    + rewrite H1. f_equal. f_equal. lia.
    + cbn [block_data]. specialize (H2 offset ltac:(lia)). rewrite Nat.sub_diag in H2. exact H2.
  - destruct (fill_buffer_spec (S (length str - offset)) str buf offset offset 0 0 [])
      as (buf' & n' & offset' & cs' & cur' & E & _ & Ho & Hn & H1 & H2); try done; try lia.
    rewrite E. cbn [mbind option_bind]. specialize (Hn eq_refl H4 Hoff).
    exists InBuffer, buf', n', offset', cs', cur'.
    split; [done|split; [done|split; [|done]]]. split; [|lia].
    destruct n' as [|n']; [lia|]. cbn [chars_of] in H1.
    destruct (ValueOf_not_ascii (drop offset str) c) as (v & k & Ev & Hk & _); [by apply Forall_drop| |done|].
    { by rewrite lookup_drop, Nat.add_0_r. }
    rewrite length_drop in Ev, Hk.
    assert (Hx : next_in_string str offset = Some (v, offset + Z.to_nat k)%nat)
      by (unfold next_in_string; by rewrite Ev).
    rewrite Hx in H1. cbn [mbind option_bind] in H1.
    destruct (chars_of (next_in_string str) n' (offset + Z.to_nat k)) as [[cs1 o1]|] eqn:E1;
      cbn [mbind option_bind] in H1; [|done]. injection H1 as _ ->.
    apply chars_of_forward in E1. lia.
Qed.

Lemma ReadBlock_spec_witness :
  exists n offset', ReadBlock [65; 0xC3; 0xA9; 66] (replicate 8 0) 8 1
      = Some (InBuffer, [0x80; 0xE9; 0; 0; 66; 0; 0; 0], n, offset')
    /\ (0 < n)%nat /\ (1 < offset' <= 4)%nat.
Proof.
  destruct (ReadBlock_spec [65; 0xC3; 0xA9; 66] (replicate 8 0) 1)
    as (b & buf' & n & offset' & cs & e & E & Hn & Ho & _).
  - repeat constructor; lia.
  - cbn; lia.
  - cbn; lia.
  - cbn; lia.
  - exists n, offset'. split; [|split; [exact Hn|exact Ho]].
    change 8%nat with (length (replicate 8 0)) at 2. rewrite E. vm_compute in E. by injection E as <- <- <- <-.
Defined.
