(* ===== verification/Unicode.v ===== *)
(** * Unicode: character classes and case conversion

    Models the table lookups of src/unicode.cc, [LookupPredicate] and
    [LookupMapping], and the character classes ([Is]) and conversions
    ([Convert]) built on them and on the tables of the file UnicodeTables.
    Unsigned arithmetic wraps around; a read outside of a table, and a search
    that does not end, is [None]. *)

From Stdlib Require Import Sorting.Sorted.
From S2P Require Import Prelude UnicodeTables.

Open Scope Z_scope.

Ltac Zify.zify_post_hook ::= Z.div_mod_to_equations.

Definition kStartBit := Z.shiftl 1 30.
Definition kChunkBits := Z.shiftl 1 13.

(** ** Table entries *)

(** An element of an array: none outside of it. *)
Definition get (l : list Z) (i : Z) : option Z :=
  if i <? 0 then None else l !! Z.to_nat i.

Definition TableGet (D : Z) (table : list Z) (index : Z) : option Z := get table (D * index).
Definition GetEntry (entry : Z) : Z := Z.land entry (kStartBit - 1).
Definition IsStart (entry : Z) : bool := negb (Z.land entry kStartBit =? 0).

(** ** Search *)

(** The loop of both lookups; the result is [low] behind it. *)
Fixpoint search (fuel : nat) (kEntryDist : Z) (table : list Z) (size value low high : Z)
    : option Z :=
  match fuel with
  | O => None
  | S fuel =>
      if high =? low then Some low else
      let mid := uint 32 (low + Z.shiftr (uint 32 (high - low)) 1) in
      current ← TableGet kEntryDist table mid;
      let current_value := GetEntry current in
      arrived ←
        (if current_value <=? value then
           if mid + 1 =? size then Some true
           else next ← TableGet kEntryDist table (mid + 1); Some (value <? GetEntry next)
         else Some false);
      if (arrived : bool) then Some mid
      else if current_value <? value then
        search fuel kEntryDist table size value (uint 32 (mid + 1)) high
      else if value <? current_value then
        if mid =? 0 then Some low
        else search fuel kEntryDist table size value low (uint 32 (mid - 1))
      else search fuel kEntryDist table size value low high
  end.

(** Enough for every search that ends. *)
Definition search_fuel (size : Z) : nat := S (Z.to_nat size).

Definition LookupPredicate (table : list Z) (size chr : Z) : option bool :=
  let kEntryDist := 1 in
  let value := uint 16 (Z.land chr (kChunkBits - 1)) in
  low ← search (search_fuel size) kEntryDist table size value 0 (uint 32 (size - 1));
  field ← TableGet kEntryDist table low;
  let entry := GetEntry field in
  let is_start := IsStart field in
  Some ((entry =? value) || ((entry <? value) && is_start)).

(** ** Character classes *)

Definition Uppercase_Is (c : Z) : option bool :=
  match Z.shiftr c 13 with
  | 0 => LookupPredicate kUppercaseTable0 kUppercaseTable0Size c
  | 1 => LookupPredicate kUppercaseTable1 kUppercaseTable1Size c
  | 7 => LookupPredicate kUppercaseTable7 kUppercaseTable7Size c
  | _ => Some false
  end.

Definition Lowercase_Is (c : Z) : option bool :=
  match Z.shiftr c 13 with
  | 0 => LookupPredicate kLowercaseTable0 kLowercaseTable0Size c
  | 1 => LookupPredicate kLowercaseTable1 kLowercaseTable1Size c
  | 7 => LookupPredicate kLowercaseTable7 kLowercaseTable7Size c
  | _ => Some false
  end.

Definition Letter_Is (c : Z) : option bool :=
  match Z.shiftr c 13 with
  | 0 => LookupPredicate kLetterTable0 kLetterTable0Size c
  | 1 => LookupPredicate kLetterTable1 kLetterTable1Size c
  | 2 => LookupPredicate kLetterTable2 kLetterTable2Size c
  | 3 => LookupPredicate kLetterTable3 kLetterTable3Size c
  | 4 => LookupPredicate kLetterTable4 kLetterTable4Size c
  | 5 => LookupPredicate kLetterTable5 kLetterTable5Size c
  | 6 => LookupPredicate kLetterTable6 kLetterTable6Size c
  | 7 => LookupPredicate kLetterTable7 kLetterTable7Size c
  | _ => Some false
  end.

Definition Space_Is (c : Z) : option bool :=
  match Z.shiftr c 13 with
  | 0 => LookupPredicate kSpaceTable0 kSpaceTable0Size c
  | 1 => LookupPredicate kSpaceTable1 kSpaceTable1Size c
  | _ => Some false
  end.

Definition Number_Is (c : Z) : option bool :=
  match Z.shiftr c 13 with
  | 0 => LookupPredicate kNumberTable0 kNumberTable0Size c
  | 7 => LookupPredicate kNumberTable7 kNumberTable7Size c
  | _ => Some false
  end.

Definition WhiteSpace_Is (c : Z) : option bool :=
  match Z.shiftr c 13 with
  | 0 => LookupPredicate kWhiteSpaceTable0 kWhiteSpaceTable0Size c
  | 1 => LookupPredicate kWhiteSpaceTable1 kWhiteSpaceTable1Size c
  | _ => Some false
  end.

Definition LineTerminator_Is (c : Z) : option bool :=
  match Z.shiftr c 13 with
  | 0 => LookupPredicate kLineTerminatorTable0 kLineTerminatorTable0Size c
  | 1 => LookupPredicate kLineTerminatorTable1 kLineTerminatorTable1Size c
  | _ => Some false
  end.

Definition CombiningMark_Is (c : Z) : option bool :=
  match Z.shiftr c 13 with
  | 0 => LookupPredicate kCombiningMarkTable0 kCombiningMarkTable0Size c
  | 1 => LookupPredicate kCombiningMarkTable1 kCombiningMarkTable1Size c
  | 5 => LookupPredicate kCombiningMarkTable5 kCombiningMarkTable5Size c
  | 7 => LookupPredicate kCombiningMarkTable7 kCombiningMarkTable7Size c
  | _ => Some false
  end.

Definition ConnectorPunctuation_Is (c : Z) : option bool :=
  match Z.shiftr c 13 with
  | 0 => LookupPredicate kConnectorPunctuationTable0 kConnectorPunctuationTable0Size c
  | 1 => LookupPredicate kConnectorPunctuationTable1 kConnectorPunctuationTable1Size c
  | 7 => LookupPredicate kConnectorPunctuationTable7 kConnectorPunctuationTable7Size c
  | _ => Some false
  end.
(** ** Mappings *)

(** What a conversion leaves: the characters written to [result], the returned
    length, and [*allow_caching_ptr]. *)
Record Converted := mkConverted {
  cv_result : list Z;
  cv_length : Z;
  cv_allow_caching : bool
}.

(** The characters of a special case up to the end mark. *)
Fixpoint special_case (ranges_are_linear : bool) (offset : Z) (chars : list Z) : list Z :=
  match chars with
  | [] => []
  | mapped :: chars =>
      if mapped =? kSentinel then []
      else (if ranges_are_linear then uint 32 (mapped + offset) else mapped)
             :: special_case ranges_are_linear offset chars
  end.

(** The character at [key] belongs to the row ([entry], [value]). *)
Definition map_value (ranges_are_linear : bool) (multi_chars : list (list Z))
    (chr chunk_start key entry value next : Z) (allow_caching : bool) : option Converted :=
  if value =? 0 then Some (mkConverted [] 0 allow_caching)
  else if Z.land value 3 =? 0 then
    let r := if ranges_are_linear then uint 32 (chr + Z.shiftr value 2)
             else uint 32 (entry + chunk_start + Z.shiftr value 2) in
    Some (mkConverted [r] 1 allow_caching)
  else if Z.land value 3 =? 1 then
    mapping ← (if Z.shiftr value 2 <? 0 then None else multi_chars !! Z.to_nat (Z.shiftr value 2));
    let r := special_case ranges_are_linear (key - entry) mapping in
    Some (mkConverted r (Z.of_nat (length r)) false)
  else if Z.shiftr value 2 =? 1 then
    letter ← (if next =? 0 then Some false else Letter_Is next);
    Some (mkConverted [if letter : bool then 0x03C3 else 0x03C2] 1 false)
  else Some (mkConverted [] 0 false).

Definition LookupMapping (ranges_are_linear : bool) (table : list Z) (size : Z)
    (multi_chars : list (list Z)) (chr next : Z) (allow_caching : bool) : option Converted :=
  let kEntryDist := 2 in
  let key := uint 16 (Z.land chr (kChunkBits - 1)) in
  let chunk_start := uint 16 (chr - key) in
  low ← search (search_fuel size) kEntryDist table size key 0 (uint 32 (size - 1));
  field ← TableGet kEntryDist table low;
  let entry := GetEntry field in
  let is_start := IsStart field in
  let found := (entry =? key) || ((entry <? key) && is_start) in
  if found then
    value ← get table (2 * low + 1);
    map_value ranges_are_linear multi_chars chr chunk_start key entry value next allow_caching
  else Some (mkConverted [] 0 allow_caching).

(** ** Conversions *)

Definition ToLowercase_Convert (c n : Z) (allow_caching : bool) : option Converted :=
  match Z.shiftr c 13 with
  | 0 => LookupMapping true kToLowercaseTable0 kToLowercaseTable0Size
           kToLowercaseMultiStrings0 c n allow_caching
  | 1 => LookupMapping true kToLowercaseTable1 kToLowercaseTable1Size
           kToLowercaseMultiStrings1 c n allow_caching
  | 7 => LookupMapping true kToLowercaseTable7 kToLowercaseTable7Size
           kToLowercaseMultiStrings7 c n allow_caching
  | _ => Some (mkConverted [] 0 allow_caching)
  end.

Definition ToUppercase_Convert (c n : Z) (allow_caching : bool) : option Converted :=
  match Z.shiftr c 13 with
  | 0 => LookupMapping true kToUppercaseTable0 kToUppercaseTable0Size
           kToUppercaseMultiStrings0 c n allow_caching
  | 1 => LookupMapping true kToUppercaseTable1 kToUppercaseTable1Size
           kToUppercaseMultiStrings1 c n allow_caching
  | 7 => LookupMapping true kToUppercaseTable7 kToUppercaseTable7Size
           kToUppercaseMultiStrings7 c n allow_caching
  | _ => Some (mkConverted [] 0 allow_caching)
  end.

Definition Ecma262Canonicalize_Convert (c n : Z) (allow_caching : bool) : option Converted :=
  match Z.shiftr c 13 with
  | 0 => LookupMapping true kEcma262CanonicalizeTable0 kEcma262CanonicalizeTable0Size
           kEcma262CanonicalizeMultiStrings0 c n allow_caching
  | 1 => LookupMapping true kEcma262CanonicalizeTable1 kEcma262CanonicalizeTable1Size
           kEcma262CanonicalizeMultiStrings1 c n allow_caching
  | 7 => LookupMapping true kEcma262CanonicalizeTable7 kEcma262CanonicalizeTable7Size
           kEcma262CanonicalizeMultiStrings7 c n allow_caching
  | _ => Some (mkConverted [] 0 allow_caching)
  end.

Definition Ecma262UnCanonicalize_Convert (c n : Z) (allow_caching : bool) : option Converted :=
  match Z.shiftr c 13 with
  | 0 => LookupMapping true kEcma262UnCanonicalizeTable0 kEcma262UnCanonicalizeTable0Size
           kEcma262UnCanonicalizeMultiStrings0 c n allow_caching
  | 1 => LookupMapping true kEcma262UnCanonicalizeTable1 kEcma262UnCanonicalizeTable1Size
           kEcma262UnCanonicalizeMultiStrings1 c n allow_caching
  | 7 => LookupMapping true kEcma262UnCanonicalizeTable7 kEcma262UnCanonicalizeTable7Size
           kEcma262UnCanonicalizeMultiStrings7 c n allow_caching
  | _ => Some (mkConverted [] 0 allow_caching)
  end.

Definition CanonicalizationRange_Convert (c n : Z) (allow_caching : bool) : option Converted :=
  match Z.shiftr c 13 with
  | 0 => LookupMapping false kCanonicalizationRangeTable0 kCanonicalizationRangeTable0Size
           kCanonicalizationRangeMultiStrings0 c n allow_caching
  | 1 => LookupMapping false kCanonicalizationRangeTable1 kCanonicalizationRangeTable1Size
           kCanonicalizationRangeMultiStrings1 c n allow_caching
  | 7 => LookupMapping false kCanonicalizationRangeTable7 kCanonicalizationRangeTable7Size
           kCanonicalizationRangeMultiStrings7 c n allow_caching
  | _ => Some (mkConverted [] 0 allow_caching)
  end.

(** ** The search finds the last entry that is not above the value *)

Definition above (a b : Z) : Prop := GetEntry a < GetEntry b.

Fixpoint ascending (l : list Z) : bool :=
  match l with
  | a :: (b :: _) as l' => (GetEntry a <? GetEntry b) && ascending l'
  | _ => true
  end.

Lemma ascending_sorted l : ascending l = true -> StronglySorted above l.
Proof.
  intros H. apply Sorted_StronglySorted; [intros a b c; unfold above; lia|].
  induction l as [|a l IH]; [constructor|]. destruct l as [|b l].
  - repeat constructor.
  - cbn [ascending] in H. apply andb_true_iff in H as [H1 H2]. breflect.
    constructor; [by apply IH|]. by constructor.
Qed.

Lemma sorted_lookup l i j a b :
  StronglySorted above l -> (i < j)%nat -> l !! i = Some a -> l !! j = Some b -> GetEntry a < GetEntry b.
Proof.
  intros Hs. revert i j. induction Hs as [|x l Hs IH Hx]; intros i j Hij; [done|].
  destruct j as [|j]; [lia|]. destruct i as [|i]; cbn.
  - intros [= ->] Hb. rewrite Forall_forall in Hx. apply Hx. by eapply list_elem_of_lookup_2.
  - intros Ha Hb. apply (IH i j); [lia|done|done].
Qed.

(** The entries of a table whose rows have [D] numbers. *)
Definition column_of (D : Z) (table col : list Z) : Prop :=
  forall i, 0 <= i -> TableGet D table i = col !! Z.to_nat i.

(** The last entry that is not above the value. *)
Definition floor (value : Z) (col : list Z) : option Z :=
  last (filter (fun e => GetEntry e <= value) col).

(** [low] behind the loop. *)
Definition arrived (col : list Z) (value r : Z) : Prop :=
  0 <= r < Z.of_nat (length col)
  /\ (r = 0 \/ exists e, col !! Z.to_nat r = Some e /\ GetEntry e <= value)
  /\ (forall e, col !! S (Z.to_nat r) = Some e -> value < GetEntry e).

Section Search.
Context (D : Z) (table col : list Z) (value : Z).
Hypothesis Hcol : column_of D table col.
Hypothesis Hsorted : StronglySorted above col.
Hypothesis Hsize : Z.of_nat (length col) < 2 ^ 16.

Lemma search_arrives fuel low high :
  0 <= low <= high -> high < Z.of_nat (length col) -> (Z.to_nat (high - low) < fuel)%nat ->
  (low = 0 \/ exists e, col !! Z.to_nat low = Some e /\ GetEntry e <= value) ->
  (forall e, col !! S (Z.to_nat high) = Some e -> value < GetEntry e) ->
  exists r, search fuel D table (Z.of_nat (length col)) value low high = Some r /\ arrived col value r.
Proof.
  revert low high. induction fuel as [|fuel IH]; intros low high Hlh Hh Hf Hlow Hhigh; [lia|].
  cbn [search]. destruct (Z.eqb_spec high low) as [->|Hne].
  { exists low. split; [done|]. split; [lia|done]. }
  assert (Hm : uint 32 (low + Z.shiftr (uint 32 (high - low)) 1) = low + (high - low) / 2).
  { unfold uint. rewrite Z.shiftr_div_pow2 by lia. change (2 ^ 1) with 2.
    rewrite (Z.mod_small (high - low)) by lia. apply Z.mod_small. lia. }
  rewrite Hm. clear Hm. set (mid := low + (high - low) / 2).
  assert (Hmid : low <= mid < high) by (unfold mid; lia). clearbody mid.
  destruct (lookup_lt_is_Some_2 col (Z.to_nat mid)) as [cur Hcur]; [lia|].
  destruct (lookup_lt_is_Some_2 col (S (Z.to_nat mid))) as [nxt Hnxt]; [lia|].
  rewrite (Hcol mid), Hcur by lia. cbn [mbind option_bind].
  pose proof (sorted_lookup col (Z.to_nat mid) (S (Z.to_nat mid)) cur nxt Hsorted ltac:(lia) Hcur Hnxt) as Hlt.
  destruct (Z.leb_spec (GetEntry cur) value) as [Hle|Hgt].
  - destruct (Z.eqb_spec (mid + 1) (Z.of_nat (length col))); [lia|].
    rewrite (Hcol (mid + 1)) by lia. replace (Z.to_nat (mid + 1)) with (S (Z.to_nat mid)) by lia.
    rewrite Hnxt. cbn [mbind option_bind]. destruct (Z.ltb_spec value (GetEntry nxt)) as [Hv|Hv].
    + exists mid. split; [done|]. split; [lia|]. split; [right; eauto|].
      intros e He. rewrite Hnxt in He. by injection He as <-.
    + destruct (Z.ltb_spec (GetEntry cur) value); [|lia].
      unfold uint. rewrite Z.mod_small by lia. apply IH; try done; try lia.
      right. exists nxt. by replace (Z.to_nat (mid + 1)) with (S (Z.to_nat mid)) by lia.
  - cbn [mbind option_bind]. destruct (Z.ltb_spec (GetEntry cur) value); [lia|].
    destruct (Z.ltb_spec value (GetEntry cur)); [|lia]. destruct (Z.eqb_spec mid 0) as [->|Hm0].
    + exists low. split; [done|]. replace low with 0 by lia. split; [lia|]. split; [by left|].
      intros e He. rewrite Hnxt in He. injection He as <-. lia.
    + assert (low < mid).
      { destruct (decide (low = mid)) as [->|]; [|lia]. destruct Hlow as [->|(e & He & Hve)]; [done|].
        rewrite Hcur in He. injection He as <-. lia. }
      unfold uint. rewrite Z.mod_small by lia. apply IH; try done; try lia.
      intros e. replace (S (Z.to_nat (mid - 1))) with (Z.to_nat mid) by lia. rewrite Hcur.
      by intros [= <-].
Qed.

Lemma search_table :
  col <> [] ->
  exists r, search (search_fuel (Z.of_nat (length col))) D table (Z.of_nat (length col)) value 0
      (uint 32 (Z.of_nat (length col) - 1)) = Some r /\ arrived col value r.
Proof.
  intros Hne. assert (0 < length col)%nat by (destruct col; [done|cbn; lia]).
  unfold uint. rewrite Z.mod_small by lia. apply search_arrives; try lia.
  - unfold search_fuel. lia.
  - intros e He. apply lookup_lt_Some in He. lia.
Qed.

(** Behind the loop: the entry at [low] is the floor, or there is none. *)
Lemma arrived_floor r e :
  arrived col value r -> col !! Z.to_nat r = Some e ->
  if decide (GetEntry e <= value) then floor value col = Some e
  else floor value col = None.
Proof.
  intros (Hr & Hlow & Hhigh) He. unfold floor.
  assert (Hdrop : filter (fun e => GetEntry e <= value) (drop (S (Z.to_nat r)) col) = []).
  { destruct (filter _ _) as [|x l] eqn:E; [done|]. exfalso.
    assert (Hx : x ∈ filter (fun e => GetEntry e <= value) (drop (S (Z.to_nat r)) col))
      by (rewrite E; apply list_elem_of_here).
    apply list_elem_of_filter in Hx as [Hle [j Hj]%list_elem_of_lookup].
    rewrite lookup_drop in Hj. destruct j as [|j].
    - rewrite Nat.add_0_r in Hj. specialize (Hhigh x Hj). lia.
    - destruct (lookup_lt_is_Some_2 col (S (Z.to_nat r))) as [y Hy].
      { apply lookup_lt_Some in Hj. lia. }
      specialize (Hhigh y Hy).
      pose proof (sorted_lookup col (S (Z.to_nat r)) (S (Z.to_nat r) + S j) y x Hsorted ltac:(lia) Hy Hj). lia. }
  rewrite <- (take_drop (S (Z.to_nat r)) col), filter_app, Hdrop, app_nil_r.
  rewrite (take_S_r _ _ _ He), filter_app, filter_cons, filter_nil.
  destruct (decide (GetEntry e <= value)) as [Hle|Hgt]; [by rewrite last_snoc|].
  destruct Hlow as [->|(e' & He' & Hle)]; [done|]. rewrite He in He'. injection He' as <-. lia.
Qed.
End Search.

(** ** Character classes are the tables' intervals *)

(** The entry stands for the value: it is its own, or that of the start of the
    range around it. *)
Definition covers (value : Z) (e : Z) : bool := (GetEntry e =? value) || IsStart e.

Definition in_table (table : list Z) (value : Z) : bool :=
  match floor value table with Some e => covers value e | None => false end.

(** A class given by its tables, one for each block of 2^13 characters. *)
Definition in_class (tables : list (Z * list Z)) (c : Z) : bool :=
  match find_first (fun kt => fst kt =? c / 2 ^ 13) tables with
  | Some (_, table) => in_table table (c mod 2 ^ 13)
  | None => false
  end.

Definition table_ok (table : list Z) (size : Z) : bool :=
  ascending table && negb (size =? 0) && (size =? Z.of_nat (length table)) && (size <? 2 ^ 16).

Lemma column_of_1 table : column_of 1 table table.
Proof.
  intros i Hi. unfold TableGet, get. replace (1 * i) with i by lia.
  by destruct (Z.ltb_spec i 0); [lia|].
Qed.

Lemma chunk_value chr : uint 16 (Z.land chr (kChunkBits - 1)) = chr mod 2 ^ 13.
Proof.
  change (kChunkBits - 1) with (2 ^ 13 - 1). rewrite land_mask by lia. unfold uint. lia.
Qed.

Lemma LookupPredicate_floor table size chr :
  table_ok table size = true ->
  LookupPredicate table size chr = Some (in_table table (chr mod 2 ^ 13)).
Proof.
  unfold table_ok. intros H. breflect. subst size. unfold LookupPredicate. rewrite chunk_value.
  set (value := chr mod 2 ^ 13). apply ascending_sorted in H as Hs.
  assert (Hne : table <> []) by by intros ->.
  destruct (search_table 1 table table value (column_of_1 table) Hs ltac:(lia) Hne) as (r & -> & Ha).
  cbn [mbind option_bind]. pose proof Ha as (Hr & _).
  destruct (lookup_lt_is_Some_2 table (Z.to_nat r)) as [e He]; [lia|].
  rewrite (column_of_1 table), He by lia. cbn [mbind option_bind]. f_equal. unfold in_table, covers.
  pose proof (arrived_floor table value Hs r e Ha He) as Hf.
  destruct (decide (GetEntry e <= value)) as [Hle|Hgt]; rewrite Hf.
  - destruct (Z.eqb_spec (GetEntry e) value); [done|]. by destruct (Z.ltb_spec (GetEntry e) value); [|lia].
  - destruct (Z.eqb_spec (GetEntry e) value); [lia|]. by destruct (Z.ltb_spec (GetEntry e) value); [lia|].
Qed.

Definition Uppercase_tables : list (Z * list Z) :=
  [(0, kUppercaseTable0); (1, kUppercaseTable1); (7, kUppercaseTable7)].
Definition Lowercase_tables : list (Z * list Z) :=
  [(0, kLowercaseTable0); (1, kLowercaseTable1); (7, kLowercaseTable7)].
Definition Letter_tables : list (Z * list Z) :=
  [(0, kLetterTable0); (1, kLetterTable1); (2, kLetterTable2); (3, kLetterTable3);
   (4, kLetterTable4); (5, kLetterTable5); (6, kLetterTable6); (7, kLetterTable7)].
Definition Space_tables : list (Z * list Z) :=
  [(0, kSpaceTable0); (1, kSpaceTable1)].
Definition Number_tables : list (Z * list Z) :=
  [(0, kNumberTable0); (7, kNumberTable7)].
Definition WhiteSpace_tables : list (Z * list Z) :=
  [(0, kWhiteSpaceTable0); (1, kWhiteSpaceTable1)].
Definition LineTerminator_tables : list (Z * list Z) :=
  [(0, kLineTerminatorTable0); (1, kLineTerminatorTable1)].
Definition CombiningMark_tables : list (Z * list Z) :=
  [(0, kCombiningMarkTable0); (1, kCombiningMarkTable1); (5, kCombiningMarkTable5);
   (7, kCombiningMarkTable7)].
Definition ConnectorPunctuation_tables : list (Z * list Z) :=
  [(0, kConnectorPunctuationTable0); (1, kConnectorPunctuationTable1);
   (7, kConnectorPunctuationTable7)].

(** The nine classes and their tables. *)
Definition classes : list ((Z -> option bool) * list (Z * list Z)) :=
  [(Uppercase_Is, Uppercase_tables); (Lowercase_Is, Lowercase_tables);
   (Letter_Is, Letter_tables); (Space_Is, Space_tables); (Number_Is, Number_tables);
   (WhiteSpace_Is, WhiteSpace_tables); (LineTerminator_Is, LineTerminator_tables);
   (CombiningMark_Is, CombiningMark_tables);
   (ConnectorPunctuation_Is, ConnectorPunctuation_tables)].

(** Case on the block of a character. *)
Ltac chunk_cases k :=
  destruct k as [|k|k]; [|do 4 (try destruct k as [k|k|])|].

Ltac class_by_tables c :=
  unfold in_class; rewrite Z.shiftr_div_pow2 by lia;
  let k := fresh "k" in
  generalize (c / 2 ^ 13); intros k; chunk_cases k;
  try reflexivity; by apply LookupPredicate_floor.

Lemma Letter_Is_class c : Letter_Is c = Some (in_class Letter_tables c).
Proof. unfold Letter_Is. class_by_tables c. Qed.

(** C13: for every character, the binary search through the table of its block
    ends inside of the table and answers as the table says: a character belongs
    to a class exactly when the last entry not above it is its own or starts a
    range. *)
Theorem Is_in_class Is tables c :
  (Is, tables) ∈ classes -> Is c = Some (in_class tables c).
Proof.
  unfold classes. rewrite !elem_of_cons, elem_of_nil.
  intros H. decompose [or] H; clear H; try done;
    match goal with H : (_, _) = (_, _) |- _ => injection H as -> -> end;
    [unfold Uppercase_Is|unfold Lowercase_Is|unfold Letter_Is|unfold Space_Is|unfold Number_Is
    |unfold WhiteSpace_Is|unfold LineTerminator_Is|unfold CombiningMark_Is
    |unfold ConnectorPunctuation_Is]; class_by_tables c.
Qed.

Lemma Is_in_class_witness : Letter_Is 0x4E2D = Some true /\ in_class Letter_tables 0x4E2D = true.
Proof.
  assert (Hin : (Letter_Is, Letter_tables) ∈ classes).
  { unfold classes. rewrite !elem_of_cons. auto. }
  rewrite (Is_in_class _ _ 0x4E2D Hin). split; reflexivity.
Defined.

(** ** Conversions stay inside of their tables *)

Fixpoint evens (l : list Z) : list Z :=
  match l with a :: _ :: l => a :: evens l | _ => [] end.
Fixpoint odds (l : list Z) : list Z :=
  match l with _ :: b :: l => b :: odds l | _ => [] end.

Lemma columns l i :
  length (evens l) = length (odds l)
  /\ evens l !! i = (if (i <? length (evens l))%nat then l !! (2 * i)%nat else None)
  /\ odds l !! i = (if (i <? length (evens l))%nat then l !! S (2 * i)%nat else None).
Proof.
  revert i. induction l as [l IH] using (induction_ltof1 _ length); unfold ltof in IH; intros i.
  destruct l as [|a [|b l]]; [done|done|]. cbn [evens odds length].
  destruct (IH l ltac:(cbn; lia) (pred i)) as (H1 & H2 & H3). split; [by rewrite H1|].
  destruct i as [|i]; [done|]. cbn [pred] in *. rewrite !lookup_cons, H2, H3.
  replace (2 * S i)%nat with (S (S (2 * i))) by lia. done.
Qed.

(** The special cases a mapping table refers to exist, and none is longer than
    [kMaxWidth]. *)
Definition mapping_ok (table : list Z) (size : Z) (multi_chars : list (list Z)) (kMaxWidth : Z) : bool :=
  ascending (evens table) && negb (size =? 0) && (Z.of_nat (length table) =? 2 * size)
  && (size <? 2 ^ 16)
  && forallb (fun v => negb (Z.land v 3 =? 1)
                       || ((0 <=? Z.shiftr v 2) && (Z.shiftr v 2 <? Z.of_nat (length multi_chars))))
       (odds table)
  && forallb (fun row => Z.of_nat (length row) <=? kMaxWidth) multi_chars.

Lemma length_evens table size :
  Z.of_nat (length table) = 2 * size -> Z.of_nat (length (evens table)) = size.
Proof.
  revert size. induction table as [l IH] using (induction_ltof1 _ length); unfold ltof in IH. intros size.
  destruct l as [|a [|b l]]; cbn [evens length]; [lia|lia|]. intros H.
  specialize (IH l ltac:(cbn; lia) (size - 1) ltac:(lia)). lia.
Qed.

Lemma column_of_2 table size :
  Z.of_nat (length table) = 2 * size -> column_of 2 table (evens table).
Proof.
  intros Hs i Hi. unfold TableGet, get. destruct (Z.ltb_spec (2 * i) 0); [lia|].
  destruct (columns table (Z.to_nat i)) as (_ & -> & _).
  pose proof (length_evens table size Hs) as He. destruct (Nat.ltb_spec (Z.to_nat i) (length (evens table))).
  - f_equal. lia.
  - apply lookup_ge_None_2. lia.
Qed.

Lemma special_case_length lin offset chars :
  (length (special_case lin offset chars) <= length chars)%nat.
Proof. induction chars as [|c l IH]; cbn [special_case length]; [lia|]. destruct (c =? kSentinel); cbn; lia. Qed.

(** What every conversion promises; [allow] is the flag it is called with. *)
Record converts_safely (conv : Z -> bool -> option Converted) (kMaxWidth : Z) (n : Z) (allow : bool)
    (r : Converted) : Prop := {
  cs_result : conv n allow = Some r;
  cs_length : cv_length r = Z.of_nat (length (cv_result r));
  cs_width : cv_length r <= kMaxWidth;
  cs_cache : cv_allow_caching r = true -> allow = true /\ cv_length r <= 1
    /\ Forall (fun x => 0 <= x < 2 ^ 32) (cv_result r) /\ forall n', conv n' allow = Some r
}.

Definition value_ok (multi_chars : list (list Z)) (v : Z) : bool :=
  negb (Z.land v 3 =? 1)
  || ((0 <=? Z.shiftr v 2) && (Z.shiftr v 2 <? Z.of_nat (length multi_chars))).

Lemma map_value_safe lin multi_chars w chr chunk key entry value n allow :
  value_ok multi_chars value = true ->
  (forall row, row ∈ multi_chars -> Z.of_nat (length row) <= w) -> 1 <= w ->
  exists r, converts_safely (map_value lin multi_chars chr chunk key entry value) w n allow r.
Proof.
  unfold value_ok. intros Hv Hrows Hw.
  destruct (Z.eqb_spec value 0) as [->|H0].
  { exists (mkConverted [] 0 allow). split; [done|done|cbn; lia|].
    cbn [cv_allow_caching cv_length]. intros ->. split; [done|split; [lia|split; [constructor|done]]]. }
  destruct (Z.land value 3 =? 0) eqn:E0.
  { eexists (mkConverted [_] 1 allow). split; [|done|cbn; lia|].
    - unfold map_value. rewrite (proj2 (Z.eqb_neq _ _) H0), E0. reflexivity.
    - cbn [cv_allow_caching cv_length]. intros ->. split; [done|split; [lia|split]].
      { constructor; [destruct lin; apply Z.mod_pos_bound; lia|constructor]. }
      intros n'. unfold map_value.
      by rewrite (proj2 (Z.eqb_neq _ _) H0), E0. }
  destruct (Z.land value 3 =? 1) eqn:E1.
  { cbn [negb orb] in Hv. breflect.
    destruct (lookup_lt_is_Some_2 multi_chars (Z.to_nat (Z.shiftr value 2))) as [row Hrow]; [lia|].
    pose proof (Hrows row ltac:(by eapply list_elem_of_lookup_2)) as Hrw.
    pose proof (special_case_length lin (key - entry) row).
    pose (r := special_case lin (key - entry) row).
    exists (mkConverted r (Z.of_nat (length r)) false).
    split; [|reflexivity|cbn [cv_length]; unfold r; lia|done]. unfold map_value.
    rewrite (proj2 (Z.eqb_neq _ _) H0), (proj2 (Z.eqb_neq _ _) E0), (proj2 (Z.eqb_eq _ _) E1).
    destruct (Z.ltb_spec (Z.shiftr value 2) 0); [lia|]. rewrite Hrow. reflexivity. }
  assert (Hunf : map_value lin multi_chars chr chunk key entry value n allow =
    if Z.shiftr value 2 =? 1 then
      letter ← (if n =? 0 then Some false else Letter_Is n);
      Some (mkConverted [if letter : bool then 0x03C3 else 0x03C2] 1 false)
    else Some (mkConverted [] 0 false)).
  { unfold map_value. by rewrite (proj2 (Z.eqb_neq _ _) H0), E0, E1. }
  rewrite Letter_Is_class in Hunf. destruct (Z.shiftr value 2 =? 1); [|].
  - destruct (n =? 0); eexists (mkConverted [_] 1 false); (split; [by rewrite Hunf|done|cbn; lia|done]).
  - exists (mkConverted [] 0 false). split; [by rewrite Hunf|done|cbn; lia|done].
Qed.

Lemma LookupMapping_safe lin table size multi_chars w chr n allow :
  mapping_ok table size multi_chars w = true -> 1 <= w ->
  exists r, converts_safely (LookupMapping lin table size multi_chars chr) w n allow r.
Proof.
  unfold mapping_ok. intros H Hw. apply andb_true_iff in H as [H Hmulti].
  apply andb_true_iff in H as [H Hodd]. breflect.
  match goal with H : ascending _ = true |- _ => apply ascending_sorted in H as Hs end.
  match goal with H : Z.of_nat (length table) = _ |- _ => rename H into Hl end.
  rewrite forallb_forall in Hmulti, Hodd.
  pose proof (length_evens table size Hl) as He. pose proof (column_of_2 table size Hl) as Hcol.
  set (key := uint 16 (Z.land chr (kChunkBits - 1))).
  assert (Hne : evens table <> []) by (intros E; rewrite E in He; cbn in He; lia).
  destruct (search_table 2 table (evens table) key Hcol Hs ltac:(lia) Hne) as (low & Hsearch & Hr & _).
  rewrite He in Hsearch.
  destruct (lookup_lt_is_Some_2 (evens table) (Z.to_nat low)) as [e Hlow]; [lia|].
  destruct (columns table (Z.to_nat low)) as (Hlen & _ & Ho).
  destruct (lookup_lt_is_Some_2 (odds table) (Z.to_nat low)) as [value Hv]; [lia|].
  assert (Hget : get table (2 * low + 1) = Some value).
  { unfold get. destruct (Z.ltb_spec (2 * low + 1) 0); [lia|]. rewrite <- Hv, Ho.
    destruct (Nat.ltb_spec (Z.to_nat low) (length (evens table))); [|lia]. f_equal. lia. }
  set (found := (GetEntry e =? key) || ((GetEntry e <? key) && IsStart e)).
  assert (Hunf : forall n, LookupMapping lin table size multi_chars chr n allow =
    if found then map_value lin multi_chars chr (uint 16 (chr - key)) key (GetEntry e) value n allow
    else Some (mkConverted [] 0 allow)).
  { intros n'. unfold LookupMapping. fold key. rewrite Hsearch. cbn [mbind option_bind].
    rewrite (Hcol low), Hlow by lia. cbn [mbind option_bind]. fold found.
    by rewrite Hget. }
  destruct found.
  - destruct (map_value_safe lin multi_chars w chr (uint 16 (chr - key)) key (GetEntry e) value n allow)
      as (r & [R1 R2 R3 R4]); [| |done|].
    + apply Hodd, list_elem_of_In. by eapply list_elem_of_lookup_2.
    + intros row Hrow. by apply Z.leb_le, Hmulti, list_elem_of_In.
    + exists r. split; [by rewrite Hunf|done|done|]. intros Hc. destruct (R4 Hc) as (-> & Hc1 & Hc2 & Hc3).
      split; [done|split; [done|split; [done|]]]. intros n'. by rewrite Hunf.
  - exists (mkConverted [] 0 allow). split; [by rewrite Hunf|done|cbn; lia|].
    cbn [cv_allow_caching cv_length]. intros ->.
    split; [done|split; [lia|split; [constructor|]]]. intros n'. by rewrite Hunf.
Qed.

(** The five conversions and [kMaxWidth] of each in src/unicode.h. *)
Definition conversions : list ((Z -> Z -> bool -> option Converted) * Z) :=
  [(ToLowercase_Convert, 3); (ToUppercase_Convert, 3); (Ecma262Canonicalize_Convert, 1);
   (Ecma262UnCanonicalize_Convert, 4); (CanonicalizationRange_Convert, 1)].

Ltac conversion_safe c allow :=
  generalize (Z.shiftr c 13); let k := fresh "k" in intros k; chunk_cases k;
  try (by apply LookupMapping_safe);
  exists (mkConverted [] 0 allow); (split; [done|done|cbn; lia|];
    cbn [cv_allow_caching cv_length]; intros ->; split; [done|split; [lia|split; [constructor|done]]]).

Lemma ToLowercase_safe c n allow : exists r, converts_safely (ToLowercase_Convert c) 3 n allow r.
Proof. unfold ToLowercase_Convert. conversion_safe c allow. Qed.

(** For every character and next character a conversion ends, reads only
    inside of its tables, writes at most [kMaxWidth] characters and returns
    their number.  When it allows its result to be cached, there is at most one
    character and the result does not depend on the next character. *)
Theorem Convert_safe conv w c n allow :
  (conv, w) ∈ conversions -> exists r, converts_safely (conv c) w n allow r.
Proof.
  unfold conversions. rewrite !elem_of_cons, elem_of_nil.
  intros H. decompose [or] H; clear H; try done;
    match goal with H : (_, _) = (_, _) |- _ => injection H as -> -> end;
    [unfold ToLowercase_Convert|unfold ToUppercase_Convert|unfold Ecma262Canonicalize_Convert
    |unfold Ecma262UnCanonicalize_Convert|unfold CanonicalizationRange_Convert];
    conversion_safe c allow.
Qed.

Lemma Convert_safe_witness :
  ToUppercase_Convert 0xDF 0 true = Some (mkConverted [83; 83] 2 false) /\ 2 <= 3.
Proof.
  assert (Hin : (ToUppercase_Convert, 3) ∈ conversions).
  { unfold conversions. rewrite !elem_of_cons. auto. }
  destruct (Convert_safe _ _ 0xDF 0 true Hin) as (r & [H1 _ H3 _]).
  assert (Hr : ToUppercase_Convert 0xDF 0 true = Some (mkConverted [83; 83] 2 false)) by reflexivity.
  split; [exact Hr|]. rewrite Hr in H1. injection H1 as <-. exact H3.
Defined.

(** ** ASCII *)

Definition ascii_letter (c : Z) : bool := ((65 <=? c) && (c <=? 90)) || ((97 <=? c) && (c <=? 122)).

(** The character a conversion gives: itself when there is no mapping. *)
Definition converted (conv : Z -> Z -> bool -> option Converted) (c : Z) : option (list Z) :=
  r ← conv c 0 true; Some (if cv_length r =? 0 then [c] else cv_result r).

Definition ascii_ok (c : Z) : bool :=
  bool_decide (Letter_Is c = Some (ascii_letter c))
  && bool_decide (Number_Is c = Some ((48 <=? c) && (c <=? 57)))
  && bool_decide (LineTerminator_Is c = Some ((c =? 10) || (c =? 13)))
  && bool_decide (converted ToLowercase_Convert c
                  = Some [if (65 <=? c) && (c <=? 90) then c + 32 else c])
  && bool_decide (converted ToUppercase_Convert c
                  = Some [if (97 <=? c) && (c <=? 122) then c - 32 else c])
  && bool_decide (converted Ecma262Canonicalize_Convert c
                  = Some [if (97 <=? c) && (c <=? 122) then c - 32 else c]).

(** On ASCII the tables give exactly the letters, the digits and the line
    terminators, and the conversions exchange the cases of the letters and leave
    every other character alone. *)
Theorem ascii_characters c : 0 <= c < 128 ->
  Letter_Is c = Some (ascii_letter c)
  /\ Number_Is c = Some ((48 <=? c) && (c <=? 57))
  /\ LineTerminator_Is c = Some ((c =? 10) || (c =? 13))
  /\ converted ToLowercase_Convert c = Some [if (65 <=? c) && (c <=? 90) then c + 32 else c]
  /\ converted ToUppercase_Convert c = Some [if (97 <=? c) && (c <=? 122) then c - 32 else c]
  /\ converted Ecma262Canonicalize_Convert c
     = Some [if (97 <=? c) && (c <=? 122) then c - 32 else c].
Proof.
  intros Hc. assert (H : ascii_ok c = true) by (revert c Hc; apply forall_below; by vm_compute).
  unfold ascii_ok in H. breflect. auto 10.
Qed.

Lemma ascii_characters_witness : converted ToUppercase_Convert 113 = Some [81].
Proof. apply (ascii_characters 113 ltac:(lia)). Defined.
