(* ===== verification/UnicodeCache.v ===== *)
(** * UnicodeCache: the caches in front of the character tables

    Models the templates [Predicate] and [Mapping] of src/unicode.h and
    src/unicode-inl.h: direct-mapped caches of a character class and of a
    conversion.  The size, a power of two, and the class or the conversion are
    the template parameters. *)

From S2P Require Import Prelude UnicodeTables Unicode.

Open Scope Z_scope.

Section Size.
Context (log_size : Z).
Hypothesis Hlog : 0 <= log_size <= 16.

Definition kSize : Z := 2 ^ log_size.
Definition slot (c : Z) : nat := Z.to_nat (Z.land c (kSize - 1)).

Lemma slot_lt c : (slot c < Z.to_nat kSize)%nat.
Proof.
  unfold slot, kSize. rewrite land_mask by lia.
  pose proof (Z.mod_pos_bound c (2 ^ log_size) ltac:(apply Z.pow_pos_nonneg; lia)). lia.
Qed.

(** ** Predicate *)

Section Predicate.
(** [T::Is]. *)
Context (Is : Z -> bool).

(** [code_point_] has 21 bits. *)
Record PredicateEntry := mkPredicateEntry { pe_code_point : Z; pe_value : bool }.

Definition Predicate_new : list PredicateEntry := replicate (Z.to_nat kSize) (mkPredicateEntry 0 false).

Definition Predicate_CalculateValue (entries : list PredicateEntry) (code_point : Z)
    : bool * list PredicateEntry :=
  let result := Is code_point in
  (result, <[slot code_point := mkPredicateEntry (uint 21 code_point) result]> entries).

Definition Predicate_get (entries : list PredicateEntry) (code_point : Z)
    : option (bool * list PredicateEntry) :=
  entry ← entries !! slot code_point;
  if pe_code_point entry =? code_point then Some (pe_value entry, entries)
  else Some (Predicate_CalculateValue entries code_point).

(** Every entry holds the truth about its character. *)
Record predicate_ok (entries : list PredicateEntry) : Prop := {
  po_length : length entries = Z.to_nat kSize;
  po_value : forall e, e ∈ entries -> pe_value e = Is (pe_code_point e)
}.

(** Through a cache of any size, with any history of lookups below 2^21, a
    class answers as it does without the cache, provided that it does not
    contain the character 0, with which the fresh entries are marked. *)
Theorem Predicate_get_spec entries c :
  Is 0 = false -> 0 <= c < 2 ^ 21 ->
  predicate_ok Predicate_new
  /\ (predicate_ok entries ->
      exists entries', Predicate_get entries c = Some (Is c, entries') /\ predicate_ok entries').
Proof.
  intros H0 Hc. split.
  { split; [apply length_replicate|]. intros e [-> _]%elem_of_replicate. done. }
  intros [Hl Hv]. unfold Predicate_get.
  destruct (lookup_lt_is_Some_2 entries (slot c)) as [e He]; [rewrite Hl; apply slot_lt|].
  rewrite He. cbn [mbind option_bind]. destruct (Z.eqb_spec (pe_code_point e) c) as [<-|_].
  - exists entries. rewrite (Hv e) by by eapply list_elem_of_lookup_2. done.
  - eexists. split; [reflexivity|]. split; [by rewrite length_insert|].
    intros e' [->|Hin]%elem_of_insert_cases; [|by apply Hv].
    cbn. unfold uint. by rewrite Z.mod_small.
Qed.
End Predicate.

(** ** Mapping *)

Section Mapping.
(** [T::Convert]. *)
Context (Convert : Z -> Z -> bool -> option Converted).

Record MappingEntry := mkMappingEntry { me_code_point : Z; me_offset : Z }.

Definition kNoChar := 2 ^ 21 - 1.

Definition Mapping_new : list MappingEntry := replicate (Z.to_nat kSize) (mkMappingEntry kNoChar 0).

(** The written characters, the returned length and the entries. *)
Definition Mapping_CalculateValue (entries : list MappingEntry) (c n : Z)
    : option (list Z * Z * list MappingEntry) :=
  r ← Convert c n true;
  if cv_allow_caching r then
    if cv_length r =? 1 then
      first ← cv_result r !! 0%nat;
      Some (cv_result r, 1, <[slot c := mkMappingEntry c (sint 32 (first - c))]> entries)
    else Some (cv_result r, 0, <[slot c := mkMappingEntry c 0]> entries)
  else Some (cv_result r, cv_length r, entries).

Definition Mapping_get (entries : list MappingEntry) (c n : Z)
    : option (list Z * Z * list MappingEntry) :=
  entry ← entries !! slot c;
  if me_code_point entry =? c then
    if me_offset entry =? 0 then Some ([], 0, entries)
    else Some ([uint 32 (c + me_offset entry)], 1, entries)
  else Mapping_CalculateValue entries c n.

(** What a caller takes from a conversion: the character itself when the length
    is 0. *)
Definition effective (c : Z) (result : list Z) (length : Z) : list Z :=
  if length =? 0 then [c] else result.

Definition entry_ok (e : MappingEntry) : Prop :=
  forall n, exists r, Convert (me_code_point e) n true = Some r
    /\ effective (me_code_point e) (cv_result r) (cv_length r)
       = if me_offset e =? 0 then [me_code_point e] else [uint 32 (me_code_point e + me_offset e)].

Record mapping_cache_ok (entries : list MappingEntry) : Prop := {
  mo_length : length entries = Z.to_nat kSize;
  mo_entry : forall e, e ∈ entries -> entry_ok e
}.

(** Through a cache of any size and with any history of lookups, a
    conversion gives the characters that it gives without the cache (the
    character itself when nothing is mapped), also where the result depends on
    the next character or is longer than one character. *)
Theorem Mapping_get_spec w entries c n :
  (forall c n, exists r, converts_safely (Convert c) w n true r) ->
  (forall n, Convert kNoChar n true = Some (mkConverted [] 0 true)) ->
  0 <= c < 2 ^ 32 ->
  mapping_cache_ok Mapping_new
  /\ (mapping_cache_ok entries ->
      exists result len entries' r, Mapping_get entries c n = Some (result, len, entries')
        /\ Convert c n true = Some r
        /\ effective c result len = effective c (cv_result r) (cv_length r)
        /\ len = Z.of_nat (length result)
        /\ mapping_cache_ok entries').
Proof.
  intros Hsafe Hno Hc. split.
  { split; [apply length_replicate|]. intros e [-> _]%elem_of_replicate n'.
    exists (mkConverted [] 0 true). split; [apply Hno|done]. }
  intros [Hl He]. unfold Mapping_get.
  destruct (lookup_lt_is_Some_2 entries (slot c)) as [e Hlook]; [rewrite Hl; apply slot_lt|].
  rewrite Hlook. cbn [mbind option_bind]. destruct (Z.eqb_spec (me_code_point e) c) as [<-|_].
  - destruct (He e ltac:(by eapply list_elem_of_lookup_2) n) as (r & Hr & Heff).
    destruct (Z.eqb_spec (me_offset e) 0); eexists _, _, entries, r;
      (split; [reflexivity|split; [done|split; [|split; [done|done]]]]); rewrite Heff; done.
  - destruct (Hsafe c n) as (r & [Hr Hlen Hw Hcache]). unfold Mapping_CalculateValue.
    rewrite Hr. cbn [mbind option_bind].
    destruct (cv_allow_caching r).
    2: { eexists _, _, entries, r. split; [done|]. split; [done|]. split; [done|]. done. }
    destruct (Hcache eq_refl) as (_ & H1 & Hchars & Hany).
    assert (Hput : forall off, (effective c (cv_result r) (cv_length r)
                     = if off =? 0 then [c] else [uint 32 (c + off)]) ->
              mapping_cache_ok (<[slot c := mkMappingEntry c off]> entries)).
    { intros off Hoff. split; [by rewrite length_insert|].
      intros e' [->|Hin]%elem_of_insert_cases; [|by apply He].
      intros n'. exists r. split; [apply Hany|done]. }
    destruct (cv_result r) as [|x [|y l]] eqn:Ex; cbn [length] in Hlen; [| |lia].
    + rewrite Hlen. cbn [Z.of_nat Z.eqb]. eexists _, _, _, r. split; [reflexivity|].
      rewrite Ex, Hlen. split; [done|split; [done|split; [done|]]]. apply Hput. by rewrite Hlen.
    + rewrite Hlen. cbn [Z.of_nat Pos.of_succ_nat Z.eqb Pos.eqb lookup list_lookup mbind option_bind].
      eexists _, _, _, r. split; [reflexivity|]. rewrite Ex, Hlen.
      split; [done|split; [done|split; [done|]]]. apply Hput. rewrite Hlen. unfold effective.
      cbn [Z.of_nat Pos.of_succ_nat Z.eqb]. apply Forall_cons in Hchars as [Hx _].
      destruct (sint_cong 32 (x - c) ltac:(lia)) as [k Hk]. rewrite Hk.
      assert (Hu : uint 32 (c + (x - c + k * 2 ^ 32)) = x).
      { unfold uint. replace (c + (x - c + k * 2 ^ 32)) with (x + k * 2 ^ 32) by lia.
        rewrite Z.mod_add by lia. by apply Z.mod_small. }
      rewrite Hu. destruct (Z.eqb_spec (x - c + k * 2 ^ 32) 0) as [Hz|]; [|done].
      rewrite <- Hu. f_equal. unfold uint. rewrite Hz, Z.add_0_r. by apply Z.mod_small.
Qed.
End Mapping.
End Size.

Lemma Predicate_get_spec_witness :
  exists es, Predicate_get 8 (default false ∘ Letter_Is) (Predicate_new 8) 65
    = Some (true, es).
Proof.
  destruct (Predicate_get_spec 8 ltac:(lia) (default false ∘ Letter_Is)
              (Predicate_new 8) 65 eq_refl ltac:(lia)) as [Hnew Hget].
  destruct (Hget Hnew) as (es & H & _). exists es. exact H.
Defined.

Lemma Mapping_get_spec_witness :
  exists result len es, Mapping_get 8 ToLowercase_Convert (Mapping_new 8) 65 0 = Some (result, len, es)
    /\ effective 65 result len = [97].
Proof.
  destruct (Mapping_get_spec 8 ltac:(lia) ToLowercase_Convert 3 (Mapping_new 8) 65 0
              (fun c n => ToLowercase_safe c n true) (fun n => eq_refl) ltac:(lia)) as [Hnew Hget].
  destruct (Hget Hnew) as (result & len & es & r & H1 & H2 & H3 & _).
  exists result, len, es. split; [exact H1|]. rewrite H3. vm_compute in H2. by injection H2 as <-.
Defined.
