(* ===== verification/UnicodeCase.v ===== *)
(** * UnicodeCase: the classes of characters that differ only in case

    What the three conversions of src/unicode.cc that serve the regular expressions promise
    to each other: [Ecma262UnCanonicalize] lists the characters with the same
    [Ecma262Canonicalize], and [CanonicalizationRange] the end of a block of characters whose
    classes follow each other.  No definition of the code is here; the tables are unfolded
    into maps, row by row, the facts are checked on the characters of the maps, and hold for
    the other characters because no row covers them. *)

From Stdlib Require Import Sorting.Sorted.
From stdpp Require Import zmap fin_maps.
From S2P Require Import Prelude UnicodeTables Unicode.

Local Open Scope Z_scope.

(** What a conversion gives in the end, with no next character. *)
Definition converts (Convert : Z -> Z -> bool -> option Converted) (c : Z) : list Z :=
  default [] (converted Convert c).

Definition class_of : Z -> list Z := converts Ecma262UnCanonicalize_Convert.
Definition canonical : Z -> list Z := converts Ecma262Canonicalize_Convert.
Definition block_end : Z -> list Z := converts CanonicalizationRange_Convert.

(** ** A table as a list of characters *)

(** The characters of a row, up to the next one. *)
Definition row_keys (e : Z) (next : option Z) : list Z :=
  if IsStart e then seqZ (GetEntry e) (from_option GetEntry (2 ^ 13) next - GetEntry e) else [GetEntry e].

Section rows.
Context (lin : bool) (multi : list (list Z)) (base : Z).

Definition row_value (e value key : Z) : option Converted :=
  map_value lin multi (base + key) base key (GetEntry e) value 0 true.

Fixpoint rows (table : list Z) : list (Z * option Converted) :=
  match table with
  | e :: value :: table =>
      ((fun key => (base + key, row_value e value key)) <$> row_keys e (head (evens table))) ++ rows table
  | _ => []
  end.

Lemma rows_elem table p :
  p ∈ rows table <-> exists i e value key, evens table !! i = Some e /\ odds table !! i = Some value
    /\ key ∈ row_keys e (evens table !! S i) /\ p = (base + key, row_value e value key).
Proof.
  induction table as [l IH] using (induction_ltof1 _ (@length Z)); unfold ltof in IH.
  destruct l as [|e [|value l]]; [split; [by intros ?%not_elem_of_nil|by intros (i & ? & ? & ? & ? & _)]..|].
  cbn [rows evens odds]. rewrite elem_of_app, IH, list_elem_of_fmap by (cbn; lia). split.
  - intros [(key & -> & Hin)|(i & e' & v & key & ? & ? & ? & ?)].
    + exists 0%nat, e, value, key. split_and!; [done|done| |done]. by destruct (evens l).
    + by exists (S i), e', v, key.
  - intros ([|i] & e' & v & key & He & Hv & Hk & ->).
    + injection He as <-. injection Hv as <-. left. exists key. split; [done|]. by destruct (evens l).
    + right. by exists i, e', v, key.
Qed.
End rows.

Section table.
Context (lin : bool) (table : list Z) (size : Z) (multi : list (list Z)) (w : Z).
Hypothesis Hok : mapping_ok table size multi w = true.

Lemma table_facts :
  StronglySorted above (evens table) /\ Z.of_nat (length (evens table)) = size /\ 0 < size < 2 ^ 16
  /\ column_of 2 table (evens table).
Proof.
  unfold mapping_ok in Hok. pose proof Hok as H. apply andb_true_iff in H as [H _]. apply andb_true_iff in H as [H _].
  breflect. match goal with H : ascending _ = true |- _ => apply ascending_sorted in H as Hs end.
  match goal with H : Z.of_nat (length table) = _ |- _ => rename H into Hl end.
  pose proof (length_evens table size Hl). split_and!; [done|done|lia|lia|by eapply column_of_2].
Qed.

(** The row that the search finds, or none. *)
Lemma LookupMapping_row chr :
  0 <= chr < 2 ^ 16 ->
  let key := chr mod 2 ^ 13 in
  exists i e value, arrived (evens table) key (Z.of_nat i)
    /\ evens table !! i = Some e /\ odds table !! i = Some value
    /\ LookupMapping lin table size multi chr 0 true =
       if (GetEntry e =? key) || ((GetEntry e <? key) && IsStart e) then row_value lin multi (chr - key) e value key
       else Some (mkConverted [] 0 true).
Proof.
  intros Hchr key. destruct table_facts as (Hs & He & Hsize & Hcol).
  assert (Hne : evens table <> []) by (intros E; rewrite E in He; cbn in He; lia).
  destruct (search_table 2 table (evens table) key Hcol Hs ltac:(lia) Hne) as (low & Hsearch & Ha).
  rewrite He in Hsearch. pose proof Ha as (Hr & _).
  destruct (lookup_lt_is_Some_2 (evens table) (Z.to_nat low)) as [e Hlow]; [lia|].
  destruct (columns table (Z.to_nat low)) as (Hlen & _ & Ho).
  destruct (lookup_lt_is_Some_2 (odds table) (Z.to_nat low)) as [value Hv]; [lia|].
  exists (Z.to_nat low), e, value. rewrite Z2Nat.id by lia. split_and!; [done|done|done|].
  unfold LookupMapping. rewrite chunk_value. fold key. rewrite Hsearch. cbn [mbind option_bind].
  rewrite (Hcol low), Hlow by lia. cbn [mbind option_bind]. destruct (_ || _); [|done].
  assert (get table (2 * low + 1) = Some value) as ->.
  { unfold get. destruct (Z.ltb_spec (2 * low + 1) 0); [lia|]. rewrite <- Hv, Ho.
    destruct (Nat.ltb_spec (Z.to_nat low) (length (evens table))); [|lia]. f_equal. lia. }
  cbn [mbind option_bind]. unfold row_value. replace (chr - key + key) with chr by lia.
  f_equal. unfold uint. apply Z.mod_small. unfold key. pose proof (Z.mod_pos_bound chr (2 ^ 13) ltac:(lia)).
  pose proof (Z.mod_le chr (2 ^ 13) ltac:(lia) ltac:(lia)). lia.
Qed.

Lemma row_keys_spec i e key :
  evens table !! i = Some e -> key < 2 ^ 13 ->
  key ∈ row_keys e (evens table !! S i) <->
    ((GetEntry e =? key) || ((GetEntry e <? key) && IsStart e) = true /\
     (forall e', evens table !! S i = Some e' -> key < GetEntry e')).
Proof.
  intros He Hkey. destruct table_facts as (Hs & _). unfold row_keys.
  assert (Hnext : forall e', evens table !! S i = Some e' -> GetEntry e < GetEntry e')
    by (intros e' He'; apply (sorted_lookup (evens table) i (S i) e e' Hs); [lia|done|done]).
  destruct (IsStart e).
  - rewrite elem_of_seqZ, andb_true_r, orb_true_iff, Z.eqb_eq, Z.ltb_lt.
    destruct (evens table !! S i) as [e'|]; cbn [from_option].
    + split; [intros ?; split; [lia|intros ? [= <-]; lia]|intros [? H]; specialize (H e' eq_refl); lia].
    + split; [intros ?; split; [lia|done]|lia].
  - rewrite list_elem_of_singleton, andb_false_r, orb_false_r, Z.eqb_eq. split.
    + intros ->. split; [done|apply Hnext].
    + intros [-> _]. done.
Qed.

(** The table gives a character what its row says, and nothing without a row. *)
Lemma LookupMapping_rows base chr :
  0 <= chr < 2 ^ 16 -> base = chr - chr mod 2 ^ 13 ->
  match list_to_map (M := Zmap _) (rows lin multi base table) !! chr with
  | Some r => LookupMapping lin table size multi chr 0 true = r
  | None => LookupMapping lin table size multi chr 0 true = Some (mkConverted [] 0 true)
  end.
Proof.
  intros Hchr ->. set (key := chr mod 2 ^ 13). destruct table_facts as (Hs & _).
  pose proof (Z.mod_pos_bound chr (2 ^ 13) ltac:(lia)) as Hkey.
  destruct (LookupMapping_row chr Hchr) as (i & e & value & (Hi & Hlow & Hhigh) & He & Hv & ->). fold key in Hlow, Hhigh |- *.
  destruct (list_to_map _ !! _) as [r|] eqn:E.
  - apply elem_of_list_to_map_2, rows_elem in E as (j & e' & value' & key' & He' & Hv' & Hk' & [= Hc ->]).
    assert (key' = key) as -> by lia.
    apply row_keys_spec in Hk' as [Hf' Hn']; [|done|lia].
    assert (Hle' : GetEntry e' <= key) by (destruct (Z.eqb_spec (GetEntry e') key), (Z.ltb_spec (GetEntry e') key); cbn in Hf'; done || lia).
    assert (j = i) as ->.
    { destruct (Nat.lt_trichotomy i j) as [Hlt|[-> |Hlt]]; [|done|]; exfalso.
      - destruct (lookup_lt_is_Some_2 (evens table) (S i)) as [e1 He1]; [apply lookup_lt_Some in He'; lia|].
        rewrite Nat2Z.id in Hhigh. specialize (Hhigh e1 He1). destruct (decide (S i = j)) as [<-|].
        + rewrite He' in He1. injection He1 as <-. lia.
        + pose proof (sorted_lookup (evens table) (S i) j e1 e' Hs ltac:(lia) He1 He'). lia.
      - destruct (lookup_lt_is_Some_2 (evens table) (S j)) as [e1 He1]; [apply lookup_lt_Some in He; lia|].
        specialize (Hn' e1 He1). destruct Hlow as [?|(e2 & He2 & Hle)]; [lia|].
        rewrite Nat2Z.id, He in He2. injection He2 as <-. destruct (decide (S j = i)) as [<-|].
        + rewrite He in He1. injection He1 as <-. lia.
        + pose proof (sorted_lookup (evens table) (S j) i e1 e Hs ltac:(lia) He1 He). lia. }
    rewrite He in He'. injection He' as <-. rewrite Hv in Hv'. injection Hv' as <-. by rewrite Hf'.
  - destruct ((GetEntry e =? key) || _) eqn:Hf; [exfalso|done]. apply not_elem_of_list_to_map in E. apply E.
    apply list_elem_of_fmap. exists (chr - key + key, row_value lin multi (chr - key) e value key). split; [cbn; lia|].
    apply rows_elem. exists i, e, value, key. split_and!; [done|done| |done].
    apply row_keys_spec; [done|lia|]. split; [done|]. by rewrite Nat2Z.id in Hhigh.
Qed.
End table.

(** ** The three conversions as maps *)

Definition table_map (rs : list (Z * option Converted)) : Zmap (option Converted) :=
  list_to_map rs.

(** The rows of the blocks 0, 1 and 7. *)
Record Rows := MkRows { rows0 : list (Z * option Converted); rows1 : list (Z * option Converted); rows7 : list (Z * option Converted) }.
Record Maps := MkMaps { map0 : Zmap (option Converted); map1 : Zmap (option Converted); map7 : Zmap (option Converted) }.

Definition maps_of (r : Rows) : Maps := MkMaps (table_map (rows0 r)) (table_map (rows1 r)) (table_map (rows7 r)).

Definition find (m : Maps) (c : Z) : option (option Converted) :=
  match Z.shiftr c 13 with
  | 0 => map0 m !! c
  | 1 => map1 m !! c
  | 7 => map7 m !! c
  | _ => None
  end.

Definition mapped (m : Maps) (c : Z) : list Z :=
  match find m c with
  | Some (Some r) => if cv_length r =? 0 then [c] else cv_result r
  | Some None => []
  | None => [c]
  end.

Definition class_rows : Rows := MkRows
  (rows true kEcma262UnCanonicalizeMultiStrings0 0 kEcma262UnCanonicalizeTable0)
  (rows true kEcma262UnCanonicalizeMultiStrings1 (2 ^ 13) kEcma262UnCanonicalizeTable1)
  (rows true kEcma262UnCanonicalizeMultiStrings7 (7 * 2 ^ 13) kEcma262UnCanonicalizeTable7).
Definition canonical_rows : Rows := MkRows
  (rows true kEcma262CanonicalizeMultiStrings0 0 kEcma262CanonicalizeTable0)
  (rows true kEcma262CanonicalizeMultiStrings1 (2 ^ 13) kEcma262CanonicalizeTable1)
  (rows true kEcma262CanonicalizeMultiStrings7 (7 * 2 ^ 13) kEcma262CanonicalizeTable7).
Definition block_rows : Rows := MkRows
  (rows false kCanonicalizationRangeMultiStrings0 0 kCanonicalizationRangeTable0)
  (rows false kCanonicalizationRangeMultiStrings1 (2 ^ 13) kCanonicalizationRangeTable1)
  (rows false kCanonicalizationRangeMultiStrings7 (7 * 2 ^ 13) kCanonicalizationRangeTable7).

Ltac mapped_rows c :=
  intros Hc; unfold converts, converted, mapped, find;
  pose proof (Z.div_mod c (2 ^ 13) ltac:(lia));
  destruct (Z.shiftr c 13) as [|[[[|[|?|]|]|[|?|]|]|[|?|]|]|] eqn:Ek; try done;
  rewrite Z.shiftr_div_pow2 in Ek by lia;
  match goal with |- context [LookupMapping ?lin ?t ?s ?m _ _ _] =>
    match goal with |- context [?mp !! c] =>
      let H := fresh in
      pose proof (LookupMapping_rows lin t s m 4 ltac:(vm_compute; reflexivity) (c / 2 ^ 13 * 2 ^ 13) c Hc ltac:(lia)) as H;
      rewrite Ek in H; change (list_to_map _) with mp in H;
      destruct (mp !! c) as [[r|]|]; rewrite H; cbn [mbind option_bind cv_length cv_result from_option id]; done
    end
  end.

Lemma class_mapped c : 0 <= c < 2 ^ 16 -> class_of c = mapped (maps_of class_rows) c.
Proof. unfold class_of, Ecma262UnCanonicalize_Convert. mapped_rows c. Qed.

Lemma canonical_mapped c : 0 <= c < 2 ^ 16 -> canonical c = mapped (maps_of canonical_rows) c.
Proof. unfold canonical, Ecma262Canonicalize_Convert. mapped_rows c. Qed.

Lemma block_mapped c : 0 <= c < 2 ^ 16 -> block_end c = mapped (maps_of block_rows) c.
Proof. unfold block_end, CanonicalizationRange_Convert. mapped_rows c. Qed.

Definition characters (r : Rows) : list Z := fst <$> (rows0 r ++ rows1 r ++ rows7 r).

Lemma mapped_other r c : c ∉ characters r -> mapped (maps_of r) c = [c].
Proof.
  intros Hc. unfold mapped. enough (find (maps_of r) c = None) as -> by done.
  unfold characters in Hc. rewrite !fmap_app, !elem_of_app in Hc. unfold find, maps_of. cbn [map0 map1 map7].
  destruct (Z.shiftr c 13) as [|[[[|[|?|]|]|[|?|]|]|[|?|]|]|]; try done; apply not_elem_of_list_to_map; tauto.
Qed.

Definition cased_characters : list Z := characters class_rows ++ characters canonical_rows ++ characters block_rows.

(** ** Checks on the rows *)

Section checks.
Context (class_of canonical block_end : Z -> list Z).

Definition elem (c : Z) (cs : list Z) : bool := existsb (Z.eqb c) cs.

Fixpoint eq_lists (l1 l2 : list Z) : bool :=
  match l1, l2 with
  | [], [] => true
  | c :: l1, d :: l2 => (c =? d) && eq_lists l1 l2
  | _, _ => false
  end.

(** The characters with the same canonical one. *)
Definition class_check (c : Z) : bool :=
  match canonical c with
  | [k] =>
      let cs := class_of c in
      forallb (fun d => (0 <=? d) && (d <=? 0xFFFF) && eq_lists (canonical d) [k]) cs
      && elem c cs && elem k cs && eq_lists (class_of k) cs
  | _ => false
  end.

(** The classes of a block follow each other. *)
Definition block_check (c : Z) : bool :=
  match block_end c with
  | [e] => (e =? c) || ((c <? e) && (e <=? 0xFFFF) && eq_lists (block_end (c + 1)) [e]
                        && eq_lists (class_of c) (map (fun d => d - 1) (class_of (c + 1))))
  | _ => false
  end.
End checks.

Lemma cased_checks :
  (let U := maps_of class_rows in
   let K := maps_of canonical_rows in
   let R := maps_of block_rows in
   forallb (fun c => class_check (mapped U) (mapped K) c && block_check (mapped U) (mapped R) c) cased_characters) = true.
Proof. by vm_compute. Qed.

Lemma eq_lists_eq l1 l2 : eq_lists l1 l2 = true -> l1 = l2.
Proof.
  revert l2. induction l1 as [|c l1 IH]; intros [|d l2]; cbn; try done.
  intros [->%Z.eqb_eq H]%andb_true_iff. f_equal. by apply IH.
Qed.

Lemma elem_elem c cs : elem c cs = true -> c ∈ cs.
Proof. unfold elem. intros (d & Hd & ->%Z.eqb_eq)%existsb_exists. by apply list_elem_of_In. Qed.

Lemma cased_check c : c ∈ cased_characters -> 0 <= c < 2 ^ 16 ->
  class_check (mapped (maps_of class_rows)) (mapped (maps_of canonical_rows)) c = true
  /\ block_check (mapped (maps_of class_rows)) (mapped (maps_of block_rows)) c = true.
Proof.
  intros Hc Hb. pose proof cased_checks as H. cbv zeta in H. rewrite forallb_forall in H.
  by apply andb_true_iff, H, list_elem_of_In.
Qed.

Lemma uncased c : c ∉ cased_characters -> 0 <= c < 2 ^ 16 -> class_of c = [c] /\ canonical c = [c] /\ block_end c = [c].
Proof.
  unfold cased_characters. rewrite !elem_of_app. intros Hc Hb.
  rewrite class_mapped, canonical_mapped, block_mapped by done. split_and!; apply mapped_other; tauto.
Qed.

Lemma class_facts c : 0 <= c < 2 ^ 16 ->
  exists k, canonical c = [k] /\ (forall d, d ∈ class_of c -> 0 <= d < 2 ^ 16 /\ canonical d = [k])
    /\ c ∈ class_of c /\ k ∈ class_of c /\ class_of k = class_of c.
Proof.
  intros Hc. destruct (decide (c ∈ cased_characters)) as [Hin|Hin].
  2: { destruct (uncased c Hin Hc) as (E1 & E2 & _). exists c. rewrite E1.
       split_and!; [done| |by left|by left|done]. by intros d ->%list_elem_of_singleton. }
  destruct (cased_check c Hin Hc) as [H _]. unfold class_check in H.
  rewrite (canonical_mapped c), (class_mapped c) by done.
  destruct (mapped _ c) as [|k [|]]; try done. apply andb_true_iff in H as [H H4]. apply andb_true_iff in H as [H H3].
  apply andb_true_iff in H as [H1 H2]. rewrite forallb_forall in H1. apply elem_elem in H2, H3. apply eq_lists_eq in H4.
  assert (Hall : forall d, d ∈ mapped (maps_of class_rows) c -> 0 <= d < 2 ^ 16 /\ canonical d = [k]).
  { intros d Hd%list_elem_of_In%H1. apply andb_true_iff in Hd as [Hd He%eq_lists_eq]. breflect.
    split; [lia|]. by rewrite canonical_mapped by lia. }
  exists k. split_and!; [done|exact Hall|done|done|]. rewrite class_mapped by by apply Hall. done.
Qed.

Lemma block_facts c : 0 <= c < 2 ^ 16 ->
  exists e, block_end c = [e] /\ c <= e < 2 ^ 16
    /\ forall d, c <= d <= e -> class_of d = (fun u => u - (e - d)) <$> class_of e.
Proof.
  assert (Hstep : forall c, 0 <= c < 2 ^ 16 -> exists e, block_end c = [e] /\ c <= e < 2 ^ 16 /\
    (e = c \/ block_end (c + 1) = [e] /\ class_of c = (fun u => u - 1) <$> class_of (c + 1))).
  { clear c. intros c Hc. destruct (decide (c ∈ cased_characters)) as [Hin|Hin].
    2: { destruct (uncased c Hin Hc) as (_ & _ & E). exists c. split_and!; [done|lia|lia|by left]. }
    destruct (cased_check c Hin Hc) as [_ H]. unfold block_check in H. rewrite (block_mapped c) by done.
    destruct (mapped (maps_of block_rows) c) as [|e [|]]; try done. exists e. apply orb_true_iff in H as [H|H].
    - apply Z.eqb_eq in H as ->. split_and!; [done|lia|lia|by left].
    - apply andb_true_iff in H as [H H2%eq_lists_eq]. apply andb_true_iff in H as [H H1%eq_lists_eq]. breflect.
      split_and!; [done|lia|lia|right]. rewrite block_mapped, !class_mapped by lia. by split. }
  intros Hc. destruct (Hstep c Hc) as (e & He & Hce & _). exists e. split_and!; [done|lia|lia|].
  remember (Z.to_nat (e - c)) as n eqn:En. revert c Hc He Hce En. induction n as [|n IH]; intros c Hc He Hce En d Hd.
  - replace d with e by lia. replace (e - e) with 0 by lia. symmetry. rewrite <- list_fmap_id.
    apply list_fmap_ext. intros _ u _. unfold id. lia.
  - destruct (Hstep c Hc) as (e' & He' & _ & [->|[Hnext Hclass]]); rewrite He in He'; injection He' as <-; [lia|].
    destruct (decide (d = c)) as [-> |Hne]; [|apply (IH (c + 1)); done || lia].
    rewrite Hclass, (IH (c + 1) ltac:(lia) Hnext ltac:(lia) ltac:(lia) (c + 1)) by lia.
    rewrite <- list_fmap_compose. apply list_fmap_ext. intros _ u _. cbn. lia.
Qed.

Lemma class_of_spec c d : 0 <= c < 2 ^ 16 -> 0 <= d < 2 ^ 16 -> d ∈ class_of c <-> canonical d = canonical c.
Proof.
  intros Hc Hd. destruct (class_facts c Hc) as (k & Hk & Hall & Hcc & Hkc & Hclass). rewrite Hk. split; [apply Hall|].
  intros Hdk. destruct (class_facts d Hd) as (k' & Hk' & _ & Hdd & _ & Hclass').
  rewrite Hdk in Hk'. injection Hk' as <-. by rewrite <- Hclass, Hclass'.
Qed.

(** For the characters up to U+FFFF, un-canonicalization lists exactly the characters
    with the same canonical character: the two kinds of tables of unicode.cc agree.  Every
    character has one canonical character, and canonicalizing twice changes nothing. *)
Theorem UnCanonicalize_correct c d :
  0 <= c < 2 ^ 16 -> 0 <= d < 2 ^ 16 ->
  (d ∈ converts Ecma262UnCanonicalize_Convert c <->
    converts Ecma262Canonicalize_Convert d = converts Ecma262Canonicalize_Convert c)
  /\ exists k, converts Ecma262Canonicalize_Convert c = [k] /\ converts Ecma262Canonicalize_Convert k = [k].
Proof.
  intros Hc Hd. split; [by apply class_of_spec|]. destruct (class_facts c Hc) as (k & Hk & Hall & _ & Hkc & _).
  exists k. split; [exact Hk|]. by apply Hall.
Qed.

Lemma UnCanonicalize_correct_witness :
  converts Ecma262Canonicalize_Convert 97 = [65] /\ 97 ∈ converts Ecma262UnCanonicalize_Convert 65.
Proof. split; [reflexivity|]. apply (UnCanonicalize_correct 65 97); [lia|lia|reflexivity]. Defined.
