(* ===== verification/Bignum.v ===== *)
(** * Bignum: arbitrary-precision integers

    Models the class [Bignum] of src/bignum.h and src/bignum.cc: a number is an
    array of 128 bigits of 28 bits and an exponent that counts bigits.  Chunks
    and double chunks are 32- and 64-bit unsigned integers and wrap around.
    An access outside of the array and [UNREACHABLE] are [None]; the counters
    [used_digits_] and [exponent_] are non-negative [int]s that stay far from
    2^31.  [ASSERT]s are not part of the model: what they state of the numbers
    is proved. *)

From S2P Require Import Prelude.

Open Scope Z_scope.

Ltac Zify.zify_post_hook ::= Z.div_mod_to_equations.

(** ** Representation *)

Definition kChunkSize := 32.
Definition kBigitSize := 28.
Definition kBigitMask := Z.shiftl 1 kBigitSize - 1.
Definition kMaxSignificantBits := 3584.
Definition kBigitCapacity : nat := 128.

Definition Chunk (z : Z) : Z := uint 32 z.
Definition DoubleChunk (z : Z) : Z := uint 64 z.

Record Bignum := mkBignum { bigits_ : list Z; used_digits_ : nat; exponent_ : nat }.

Definition Bignum_new : Bignum := mkBignum (replicate kBigitCapacity 0) 0 0.

Definition with_bigits (b : Bignum) (bs : list Z) : Bignum := mkBignum bs (used_digits_ b) (exponent_ b).

Definition EnsureCapacity (size : nat) : option unit :=
  if (size <=? kBigitCapacity)%nat then Some tt else None.

Definition set_bigit (bs : list Z) (i : nat) (v : Z) : option (list Z) :=
  if (i <? length bs)%nat then Some (<[i := v]> bs) else None.

Definition BigitLength (b : Bignum) : nat := used_digits_ b + exponent_ b.

(** ** Assignment *)

Definition Zero (b : Bignum) : option Bignum :=
  bs ← for_loop (used_digits_ b) 0 (fun i bs => set_bigit bs i 0) (bigits_ b);
  Some (mkBignum bs 0 0).

Fixpoint clamp_used (bs : list Z) (used : nat) : option nat :=
  match used with
  | O => Some 0%nat
  | S u => d ← bs !! u; if d =? 0 then clamp_used bs u else Some (S u)
  end.

Definition Clamp (b : Bignum) : option Bignum :=
  used ← clamp_used (bigits_ b) (used_digits_ b);
  Some (mkBignum (bigits_ b) used (if (used =? 0)%nat then 0%nat else exponent_ b)).

Definition IsClamped (b : Bignum) : bool :=
  match used_digits_ b with
  | O => true
  | S u => match bigits_ b !! u with Some d => negb (d =? 0) | None => false end
  end.

Definition AssignUInt16 (b : Bignum) (value : Z) : option Bignum :=
  b ← Zero b;
  if value =? 0 then Some b
  else
    _ ← EnsureCapacity 1;
    bs ← set_bigit (bigits_ b) 0 value;
    Some (mkBignum bs 1 (exponent_ b)).

Definition AssignUInt64 (b : Bignum) (value : Z) : option Bignum :=
  b ← Zero b;
  if value =? 0 then Some b
  else
    let needed_bigits := Z.to_nat (64 / kBigitSize + 1) in
    _ ← EnsureCapacity needed_bigits;
    '(bs, _) ← for_loop needed_bigits 0
      (fun i '(bs, value) =>
         bs ← set_bigit bs i (Chunk (Z.land value kBigitMask));
         Some (bs, Z.shiftr value kBigitSize)) (bigits_ b, value);
    Clamp (mkBignum bs needed_bigits (exponent_ b)).

Definition AssignBignum (b other : Bignum) : option Bignum :=
  bs ← for_loop (used_digits_ other) 0
    (fun i bs => d ← bigits_ other !! i; set_bigit bs i d) (bigits_ b);
  bs ← for_loop (used_digits_ b - used_digits_ other) (used_digits_ other)
    (fun i bs => set_bigit bs i 0) bs;
  Some (mkBignum bs (used_digits_ other) (exponent_ other)).

(** ** Addition and subtraction *)

(** Zero bigits replace hidden ones: the exponent of [b] becomes at most that of
    [other]. *)
Definition Align (b other : Bignum) : option Bignum :=
  if (exponent_ other <? exponent_ b)%nat then
    let zero_digits := (exponent_ b - exponent_ other)%nat in
    _ ← EnsureCapacity (used_digits_ b + zero_digits);
    bs ← for_loop (used_digits_ b) 0
      (fun k bs =>
         let i := (used_digits_ b - 1 - k)%nat in
         d ← bs !! i; set_bigit bs (i + zero_digits) d) (bigits_ b);
    bs ← for_loop zero_digits 0 (fun i bs => set_bigit bs i 0) bs;
    Some (mkBignum bs (used_digits_ b + zero_digits) (exponent_ b - zero_digits))
  else Some b.

Definition add_bigit (bs : list Z) (pos : nat) (operand carry : Z) : option (list Z * Z) :=
  d ← bs !! pos;
  let sum := Chunk (d + operand + carry) in
  bs ← set_bigit bs pos (Z.land sum kBigitMask);
  Some (bs, Z.shiftr sum kBigitSize).

Definition AddBignum (b other : Bignum) : option Bignum :=
  b ← Align b other;
  _ ← EnsureCapacity (1 + Nat.max (BigitLength b) (BigitLength other) - exponent_ b);
  let start := (exponent_ other - exponent_ b)%nat in
  '(bs, carry) ← for_loop (used_digits_ other) 0
    (fun i '(bs, carry) => o ← bigits_ other !! i; add_bigit bs (start + i) o carry)
    (bigits_ b, 0);
  '(bs, carry, bigit_pos) ← while_loop (S kBigitCapacity) (fun '(bs, carry, pos) => negb (carry =? 0))
    (fun '(bs, carry, pos) => '(bs, carry) ← add_bigit bs pos 0 carry; Some (bs, carry, S pos))
    (bs, carry, start + used_digits_ other)%nat;
  Some (mkBignum bs (Nat.max bigit_pos (used_digits_ b)) (exponent_ b)).

Definition AddUInt64 (b : Bignum) (operand : Z) : option Bignum :=
  if operand =? 0 then Some b
  else other ← AssignUInt64 Bignum_new operand; AddBignum b other.

Definition sub_bigit (bs : list Z) (pos : nat) (operand borrow : Z) : option (list Z * Z) :=
  d ← bs !! pos;
  let difference := Chunk (d - operand - borrow) in
  bs ← set_bigit bs pos (Z.land difference kBigitMask);
  Some (bs, Z.shiftr difference (kChunkSize - 1)).

Definition SubtractBignum (b other : Bignum) : option Bignum :=
  b ← Align b other;
  let offset := (exponent_ other - exponent_ b)%nat in
  '(bs, borrow) ← for_loop (used_digits_ other) 0
    (fun i '(bs, borrow) => o ← bigits_ other !! i; sub_bigit bs (i + offset) o borrow)
    (bigits_ b, 0);
  '(bs, _, _) ← while_loop (S kBigitCapacity) (fun '(bs, borrow, i) => negb (borrow =? 0))
    (fun '(bs, borrow, i) => '(bs, borrow) ← sub_bigit bs (i + offset) 0 borrow; Some (bs, borrow, S i))
    (bs, borrow, used_digits_ other);
  Clamp (with_bigits b bs).

(** ** Shifts and products by machine integers *)

Definition BigitsShiftLeft (b : Bignum) (shift_amount : Z) : option Bignum :=
  '(bs, carry) ← for_loop (used_digits_ b) 0
    (fun i '(bs, carry) =>
       d ← bs !! i;
       let new_carry := Z.shiftr d (kBigitSize - shift_amount) in
       bs ← set_bigit bs i (Z.land (Chunk (Chunk (Z.shiftl d shift_amount) + carry)) kBigitMask);
       Some (bs, new_carry)) (bigits_ b, 0);
  if carry =? 0 then Some (with_bigits b bs)
  else
    bs ← set_bigit bs (used_digits_ b) carry;
    Some (mkBignum bs (S (used_digits_ b)) (exponent_ b)).

Definition ShiftLeft (b : Bignum) (shift_amount : Z) : option Bignum :=
  if (used_digits_ b =? 0)%nat then Some b
  else
    let b := mkBignum (bigits_ b) (used_digits_ b)
               (exponent_ b + Z.to_nat (shift_amount / kBigitSize)) in
    let local_shift := shift_amount mod kBigitSize in
    _ ← EnsureCapacity (used_digits_ b + 1);
    BigitsShiftLeft b local_shift.

(** The loops that append the carry. *)
Definition append_carry (b : Bignum) (carry : Z) : option Bignum :=
  '(b, _) ← while_loop 4 (fun '(b, carry) => negb (carry =? 0))
    (fun '(b, carry) =>
       _ ← EnsureCapacity (used_digits_ b + 1);
       bs ← set_bigit (bigits_ b) (used_digits_ b) (Chunk (Z.land carry kBigitMask));
       Some (mkBignum bs (S (used_digits_ b)) (exponent_ b), Z.shiftr carry kBigitSize))
    (b, carry);
  Some b.

Definition MultiplyByUInt32 (b : Bignum) (factor : Z) : option Bignum :=
  if factor =? 1 then Some b
  else if factor =? 0 then Zero b
  else if (used_digits_ b =? 0)%nat then Some b
  else
    '(bs, carry) ← for_loop (used_digits_ b) 0
      (fun i '(bs, carry) =>
         d ← bs !! i;
         let product := DoubleChunk (DoubleChunk (factor * d) + carry) in
         bs ← set_bigit bs i (Chunk (Z.land product kBigitMask));
         Some (bs, Z.shiftr product kBigitSize)) (bigits_ b, 0);
    append_carry (with_bigits b bs) carry.

Definition MultiplyByUInt64 (b : Bignum) (factor : Z) : option Bignum :=
  if factor =? 1 then Some b
  else if factor =? 0 then Zero b
  else
    let low := Z.land factor 0xFFFFFFFF in
    let high := Z.shiftr factor 32 in
    '(bs, carry) ← for_loop (used_digits_ b) 0
      (fun i '(bs, carry) =>
         d ← bs !! i;
         let product_low := DoubleChunk (low * d) in
         let product_high := DoubleChunk (high * d) in
         let tmp := DoubleChunk (Z.land carry kBigitMask + product_low) in
         bs ← set_bigit bs i (Chunk (Z.land tmp kBigitMask));
         Some (bs, DoubleChunk (Z.shiftr carry kBigitSize + Z.shiftr tmp kBigitSize
                     + DoubleChunk (Z.shiftl product_high (32 - kBigitSize))))) (bigits_ b, 0);
    append_carry (with_bigits b bs) carry.

Definition kFive27 := Z.shiftl 0x6765c793 32 + 0xfa10079d.
Definition kFive13 := 1220703125.
Definition kFive1_to_12 : list Z :=
  [5; 25; 125; 625; 3125; 15625; 78125; 390625; 1953125; 9765625; 48828125; 244140625].

Definition MultiplyByPowerOfTen (b : Bignum) (exponent : nat) : option Bignum :=
  if (exponent =? 0)%nat then Some b
  else if (used_digits_ b =? 0)%nat then Some b
  else
    '(b, remaining_exponent) ← while_loop (S exponent) (fun '(_, r) => (27 <=? r)%nat)
      (fun '(b, r) => b ← MultiplyByUInt64 b kFive27; Some (b, r - 27)%nat) (b, exponent);
    '(b, remaining_exponent) ← while_loop (S exponent) (fun '(_, r) => (13 <=? r)%nat)
      (fun '(b, r) => b ← MultiplyByUInt32 b kFive13; Some (b, r - 13)%nat) (b, remaining_exponent);
    b ← (if (0 <? remaining_exponent)%nat then
           f ← kFive1_to_12 !! (remaining_exponent - 1)%nat; MultiplyByUInt32 b f
         else Some b);
    ShiftLeft b (Z.of_nat exponent).

(** ** Decimal strings *)

(** [digits]: the characters, of which [length] are read from [from] on. *)
Definition ReadUInt64 (buffer : list Z) (from digits_to_read : nat) : option Z :=
  for_loop digits_to_read from
    (fun i result => c ← buffer !! i; Some (DoubleChunk (result * 10 + (c - 48)))) 0.

Definition kMaxUint64DecimalDigits : nat := 19.

Definition AssignDecimalString (b : Bignum) (value : list Z) : option Bignum :=
  b ← Zero b;
  '(b, pos, len) ← while_loop (S (length value))
    (fun '(_, _, len) => (kMaxUint64DecimalDigits <=? len)%nat)
    (fun '(b, pos, len) =>
       digits ← ReadUInt64 value pos kMaxUint64DecimalDigits;
       b ← MultiplyByPowerOfTen b kMaxUint64DecimalDigits;
       b ← AddUInt64 b digits;
       Some (b, pos + kMaxUint64DecimalDigits, len - kMaxUint64DecimalDigits)%nat)
    (b, 0%nat, length value);
  digits ← ReadUInt64 value pos len;
  b ← MultiplyByPowerOfTen b len;
  b ← AddUInt64 b digits;
  Clamp b.

(** ** Comparison *)

Definition BigitAt (b : Bignum) (index : nat) : option Z :=
  if (BigitLength b <=? index)%nat then Some 0
  else if (index <? exponent_ b)%nat then Some 0
  else bigits_ b !! (index - exponent_ b)%nat.

(** The loop of [Compare] from bigit [i - 1] downwards, [n] times. *)
Fixpoint compare_from (a b : Bignum) (n i : nat) : option Z :=
  match n with
  | O => Some 0
  | S n =>
      bigit_a ← BigitAt a (i - 1);
      bigit_b ← BigitAt b (i - 1);
      if bigit_a <? bigit_b then Some (-1)
      else if bigit_b <? bigit_a then Some 1
      else compare_from a b n (i - 1)
  end.

Definition Compare (a b : Bignum) : option Z :=
  let bigit_length_a := BigitLength a in
  let bigit_length_b := BigitLength b in
  if (bigit_length_a <? bigit_length_b)%nat then Some (-1)
  else if (bigit_length_b <? bigit_length_a)%nat then Some 1
  else compare_from a b (bigit_length_a - Nat.min (exponent_ a) (exponent_ b)) bigit_length_a.

(** ** Values *)

Definition B := 2 ^ 28.

(** The number the bigits stand for. *)
Fixpoint value (bs : list Z) : Z :=
  match bs with [] => 0 | d :: bs => d + B * value bs end.

Definition pw (i : nat) : Z := B ^ Z.of_nat i.

Lemma pw_0 : pw 0 = 1.
Proof. done. Qed.

Lemma pw_S i : pw (S i) = B * pw i.
Proof. unfold pw. by rewrite Nat2Z.inj_succ, Z.pow_succ_r by lia. Qed.

Lemma pw_add i j : pw (i + j) = pw i * pw j.
Proof. unfold pw. by rewrite Nat2Z.inj_add, Z.pow_add_r by lia. Qed.

Lemma pw_pos i : 0 < pw i.
Proof. unfold pw. apply Z.pow_pos_nonneg; unfold B; lia. Qed.

Lemma pw_mono i j : (i <= j)%nat -> pw i <= pw j.
Proof. intros H. unfold pw. apply Z.pow_le_mono_r; unfold B; lia. Qed.

Lemma pw_lt_inv i j : pw i < pw j -> (i < j)%nat.
Proof. intros H. destruct (decide (i < j)%nat); [done|]. pose proof (pw_mono j i ltac:(lia)). lia. Qed.

Definition bigit (d : Z) : Prop := 0 <= d < B.

Lemma value_app l1 l2 : value (l1 ++ l2) = value l1 + pw (length l1) * value l2.
Proof.
  induction l1 as [|d l1 IH]; cbn [app value length]; [unfold pw; cbn [Z.of_nat]; lia|].
  rewrite IH, pw_S. lia.
Qed.

Lemma value_bound l : Forall bigit l -> 0 <= value l < pw (length l).
Proof.
  induction 1 as [|d l Hd _ IH]; cbn [value length]; [unfold pw; cbn; lia|].
  rewrite pw_S. unfold bigit, B in *. nia.
Qed.

Lemma value_zeros l : (forall i d, l !! i = Some d -> d = 0) -> value l = 0.
Proof.
  induction l as [|d l IH]; intros H; cbn [value]; [done|].
  rewrite (H 0%nat d eq_refl), IH; [lia|]. intros i. apply (H (S i)).
Qed.

Lemma value_split i l : value l = value (take i l) + pw (Nat.min i (length l)) * value (drop i l).
Proof. rewrite <- (take_drop i l) at 1. by rewrite value_app, length_take. Qed.

Lemma value_take_S i l d :
  l !! i = Some d -> value (take (S i) l) = value (take i l) + d * pw i.
Proof.
  intros H. rewrite (take_S_r _ _ _ H), value_app, length_take_le; [cbn [value]; lia|].
  apply lookup_lt_Some in H. lia.
Qed.

Lemma value_insert i l d x :
  l !! i = Some d -> value (<[i := x]> l) = value l + (x - d) * pw i.
Proof.
  revert i. induction l as [|y l IH]; intros [|i]; cbn [lookup list_lookup]; try done.
  - intros [= ->]. cbn [value insert list_insert]. unfold pw. cbn [Z.of_nat]. lia.
  - intros H. change (<[S i := x]> (y :: l)) with (y :: <[i := x]> l). cbn [value].
    rewrite (IH i H), pw_S. lia.
Qed.

(** *** Well-formed numbers *)

Record wf (b : Bignum) : Prop := {
  wf_length : length (bigits_ b) = kBigitCapacity;
  wf_bigits : Forall bigit (bigits_ b);
  wf_used : (used_digits_ b <= kBigitCapacity)%nat;
  wf_rest : forall i d, (used_digits_ b <= i)%nat -> bigits_ b !! i = Some d -> d = 0
}.

Definition mant (b : Bignum) : Z := value (bigits_ b).
Definition val (b : Bignum) : Z := mant b * pw (exponent_ b).

(** Well-formed and clamped: the highest bigit in use is not 0. *)
Record big (b : Bignum) : Prop := {
  big_wf : wf b;
  big_zero : used_digits_ b = 0%nat -> exponent_ b = 0%nat;
  big_top : used_digits_ b <> 0%nat -> pw (used_digits_ b - 1) <= mant b
}.

(** The mantissa is [T] and the exponent [e]. *)
Record denotes (b : Bignum) (T : Z) (e : nat) : Prop := {
  dn_big : big b;
  dn_mant : mant b = T;
  dn_exp : exponent_ b = e
}.

Lemma drop_zeros bs n :
  (forall i d, (n <= i)%nat -> bs !! i = Some d -> d = 0) -> value (drop n bs) = 0.
Proof.
  intros H. apply value_zeros. intros i d Hd. rewrite lookup_drop in Hd. apply (H (n + i)%nat); [lia|done].
Qed.

Lemma mant_take b : wf b -> mant b = value (take (used_digits_ b) (bigits_ b)).
Proof.
  intros W. unfold mant. rewrite (value_split (used_digits_ b)), drop_zeros by apply (wf_rest b W). lia.
Qed.

Lemma mant_bound b : wf b -> 0 <= mant b < pw (used_digits_ b).
Proof.
  intros W. rewrite mant_take by done.
  pose proof (value_bound (take (used_digits_ b) (bigits_ b)) ltac:(apply Forall_take, W)) as H.
  rewrite length_take_le in H; [done|]. rewrite (wf_length b W). apply W.
Qed.

Lemma bigit_at b i : wf b -> (i < kBigitCapacity)%nat -> exists d, bigits_ b !! i = Some d /\ bigit d.
Proof.
  intros W Hi. destruct (lookup_lt_is_Some_2 (bigits_ b) i) as [d Hd]; [rewrite (wf_length b W); done|].
  exists d. split; [done|]. eapply Forall_lookup_1; [apply W|done].
Qed.

Lemma EnsureCapacity_ok n : (n <= kBigitCapacity)%nat -> EnsureCapacity n = Some tt.
Proof. intros H. unfold EnsureCapacity. by destruct (Nat.leb_spec n kBigitCapacity); [|lia]. Qed.

Lemma set_bigit_ok bs i v : (i < length bs)%nat -> set_bigit bs i v = Some (<[i := v]> bs).
Proof. intros H. unfold set_bigit. by destruct (Nat.ltb_spec i (length bs)); [|lia]. Qed.

Lemma low_bigit z : Z.land z kBigitMask = z mod B.
Proof. change kBigitMask with (2 ^ 28 - 1). by rewrite land_mask. Qed.

Lemma shiftr_bigit z : Z.shiftr z kBigitSize = z / B.
Proof. unfold kBigitSize. by rewrite Z.shiftr_div_pow2. Qed.

Lemma low_bigit_bigit z : bigit (z mod B).
Proof. unfold bigit. apply Z.mod_pos_bound. unfold B. lia. Qed.

Lemma Chunk_bigit z : bigit z -> Chunk z = z.
Proof. unfold bigit, B, Chunk, uint. intros. apply Z.mod_small. lia. Qed.

Lemma DoubleChunk_small z : 0 <= z < 2 ^ 64 -> DoubleChunk z = z.
Proof. intros. unfold DoubleChunk, uint. by apply Z.mod_small. Qed.

(** An invariant of the loops that go upwards through the array: the part from
    [i] on is untouched. *)
Record prefix_done (bs0 bs : list Z) (i : nat) : Prop := {
  pd_length : length bs = length bs0;
  pd_bigits : Forall bigit bs;
  pd_rest : forall j, (i <= j)%nat -> bs !! j = bs0 !! j
}.

Lemma prefix_done_refl bs i : Forall bigit bs -> prefix_done bs bs i.
Proof. by split. Qed.

Lemma prefix_done_insert bs0 bs i x :
  prefix_done bs0 bs i -> bigit x -> prefix_done bs0 (<[i := x]> bs) (S i).
Proof.
  intros [H1 H2 H3] Hx. split.
  - by rewrite length_insert.
  - by apply Forall_insert.
  - intros j Hj. rewrite list_lookup_insert_ne by lia. apply H3. lia.
Qed.

(** A loop through all bigits in use gives a well-formed number again. *)
Lemma prefix_done_wf b bs : wf b -> prefix_done (bigits_ b) bs (used_digits_ b) -> wf (with_bigits b bs).
Proof.
  intros W [H1 H2 H3]. split; cbn.
  - rewrite H1. apply W.
  - done.
  - apply W.
  - intros i d Hi. rewrite H3 by done. by apply (wf_rest b W).
Qed.

(** *** Appending the carry *)

Definition carry_measure (c : Z) : nat :=
  if c =? 0 then 0 else if c <? B then 1 else if c <? B * B then 2 else 3.

Lemma append_bigit b d :
  wf b -> (used_digits_ b < kBigitCapacity)%nat -> bigit d ->
  exists bs, set_bigit (bigits_ b) (used_digits_ b) d = Some bs
    /\ wf (mkBignum bs (S (used_digits_ b)) (exponent_ b))
    /\ value bs = mant b + d * pw (used_digits_ b).
Proof.
  intros W Hu Hd. destruct (bigit_at b (used_digits_ b) W Hu) as (x & Hx & _).
  rewrite set_bigit_ok by by rewrite (wf_length b W). eexists. split; [done|]. split.
  - split; cbn.
    + rewrite length_insert. apply W.
    + apply Forall_insert; [apply W|done].
    + lia.
    + intros i y Hi. rewrite list_lookup_insert_ne by lia. apply (wf_rest b W). lia.
  - rewrite (value_insert _ _ x) by done. rewrite (wf_rest b W _ x (Nat.le_refl _) Hx).
    unfold mant. lia.
Qed.

Lemma append_carry_spec b carry T :
  wf b -> 0 <= carry < 2 ^ 64 -> mant b + carry * pw (used_digits_ b) = T -> T < pw kBigitCapacity ->
  (used_digits_ b = 0%nat -> exponent_ b = 0%nat /\ carry = 0) ->
  (used_digits_ b <> 0%nat -> pw (used_digits_ b - 1) <= T) ->
  exists b', append_carry b carry = Some b' /\ denotes b' T (exponent_ b).
Proof.
  intros W Hc HT Hfit H0 Htop. unfold append_carry.
  destruct (while_loop_inv
    (fun '(b', c) => wf b' /\ 0 <= c < 2 ^ 64 /\ mant b' + c * pw (used_digits_ b') = T
       /\ exponent_ b' = exponent_ b /\ (used_digits_ b <= used_digits_ b')%nat
       /\ (used_digits_ b' = used_digits_ b \/ (c = 0 -> pw (used_digits_ b' - 1) <= mant b')))
    (fun '(b', c) => carry_measure c) 4
    (fun '(b, carry) => negb (carry =? 0))
    (fun '(b, carry) =>
       _ ← EnsureCapacity (used_digits_ b + 1);
       bs ← set_bigit (bigits_ b) (used_digits_ b) (Chunk (Z.land carry kBigitMask));
       Some (mkBignum bs (S (used_digits_ b)) (exponent_ b), Z.shiftr carry kBigitSize))
    (b, carry)) as ([b' c] & -> & (W' & _ & HT' & He & Hu & Htop') & Hc').
  - split; [done|split; [done|split; [done|split; [done|split; [lia|by left]]]]].
  - unfold carry_measure. repeat case_match; lia.
  - intros [b1 c1] (W1 & Hc1 & HT1 & He1 & Hu1 & Htop1) Hne. breflect.
    assert (Hlt : (used_digits_ b1 < kBigitCapacity)%nat).
    { apply pw_lt_inv. pose proof (mant_bound b1 W1). pose proof (pw_pos (used_digits_ b1)). nia. }
    rewrite EnsureCapacity_ok by lia. cbn [mbind option_bind].
    rewrite low_bigit, shiftr_bigit, Chunk_bigit by apply low_bigit_bigit.
    destruct (append_bigit b1 (c1 mod B) W1 Hlt (low_bigit_bigit c1)) as (bs & -> & W2 & Hv).
    cbn [mbind option_bind]. eexists. split; [reflexivity|]. split.
    + split; [done|]. unfold mant. cbn [bigits_ used_digits_ exponent_]. rewrite Hv, pw_S.
      pose proof (Z.div_mod c1 B ltac:(unfold B; lia)) as Hdm.
      pose proof (mant_bound b1 W1). pose proof (pw_pos (used_digits_ b1)).
      split; [unfold B; lia|]. split; [nia|]. split; [done|]. split; [lia|]. right. intros Hz.
      rewrite Hz in Hdm. replace (S (used_digits_ b1) - 1)%nat with (used_digits_ b1) by lia. nia.
    + unfold carry_measure, B. repeat case_match; breflect; lia.
  - cbn [mbind option_bind]. exists b'. split; [done|]. apply negb_false_iff, Z.eqb_eq in Hc'. subst c.
    assert (HmT : mant b' = T) by lia.
    split; [|done|done]. split; [done| |].
    + intros Hz. rewrite He. apply H0. lia.
    + intros Hz. rewrite HmT. destruct Htop' as [Hsame|Ht]; [rewrite Hsame in *; by apply Htop|].
      rewrite <- HmT. by apply Ht.
Qed.

(** ** Products *)

(** The loop of both products: bigit by bigit, with the carry. *)
Lemma product_loop b f body :
  wf b -> 0 < f ->
  (forall i bs carry d, bs !! i = Some d -> bigit d -> 0 <= carry < f ->
     body i (bs, carry) = Some (<[i := (f * d + carry) mod B]> bs, (f * d + carry) / B)) ->
  exists bs carry, for_loop (used_digits_ b) 0 body (bigits_ b, 0) = Some (bs, carry)
    /\ wf (with_bigits b bs) /\ value bs + carry * pw (used_digits_ b) = f * mant b
    /\ 0 <= carry < f /\ (used_digits_ b = 0%nat -> carry = 0).
Proof.
  intros W Hf Hbody.
  destruct (for_loop_inv (fun i '(bs, carry) =>
      prefix_done (bigits_ b) bs i /\ 0 <= carry < f /\ (i = 0%nat -> carry = 0)
      /\ value bs + carry * pw i = mant b + (f - 1) * value (take i (bigits_ b)))
    (used_digits_ b) 0 body (bigits_ b, 0)) as ([bs carry] & -> & Hpd & Hc & H0 & Hv).
  - split; [by apply prefix_done_refl, W|]. split; [lia|split; [done|]]. rewrite take_0, pw_0. cbn [value]. unfold mant. lia.
  - intros i [bs carry] Hi (Hpd & Hc & _ & Hv). pose proof (wf_used b W) as Hu.
    destruct (bigit_at b i W ltac:(lia)) as (d & Hd & Hdb).
    assert (Hd' : bs !! i = Some d) by (rewrite (pd_rest _ _ _ Hpd) by lia; done).
    rewrite (Hbody i bs carry d) by done. eexists. split; [reflexivity|].
    unfold bigit in Hdb. pose proof (Z.div_mod (f * d + carry) B ltac:(unfold B; lia)) as Hdm.
    assert (Hfd : 0 <= f * d <= f * (B - 1)) by (split; [apply Z.mul_nonneg_nonneg|apply Z.mul_le_mono_nonneg_l]; lia).
    split; [apply prefix_done_insert; [done|apply low_bigit_bigit]|].
    split; [split; [apply Z.div_pos; [lia|unfold B; lia]|apply Z.div_lt_upper_bound; [unfold B; lia|lia]]|].
    split; [lia|].
    rewrite (value_insert _ _ d), (value_take_S _ _ d), pw_S by done. nia.
  - exists bs, carry. split; [done|]. split; [by apply prefix_done_wf|].
    cbn [Nat.add] in *. rewrite <- mant_take in Hv by done. split; [lia|]. auto.
Qed.

Lemma nonzero_used b : big b -> used_digits_ b <> 0%nat -> 0 < mant b.
Proof.
  intros G Hu. pose proof (big_top b G Hu). pose proof (pw_pos (used_digits_ b - 1)). lia.
Qed.

Lemma zero_used b : wf b -> used_digits_ b = 0%nat -> mant b = 0.
Proof. intros W Hu. pose proof (mant_bound b W) as H. rewrite Hu in H. unfold pw in H. cbn in H. lia. Qed.

Lemma denotes_refl b : big b -> denotes b (mant b) (exponent_ b).
Proof. by split. Qed.

(** A product by a factor that is not 0, from its loop. *)
Lemma product_carry b f bs carry :
  big b -> 0 < f < 2 ^ 64 -> mant b * f < pw kBigitCapacity ->
  wf (with_bigits b bs) -> value bs + carry * pw (used_digits_ b) = f * mant b -> 0 <= carry < f ->
  (used_digits_ b = 0%nat -> carry = 0) ->
  exists b', append_carry (with_bigits b bs) carry = Some b' /\ denotes b' (mant b * f) (exponent_ b).
Proof.
  intros G Hf Hfit W Hv Hc H0.
  apply (append_carry_spec (with_bigits b bs) carry (mant b * f)); try done; cbn.
  - lia.
  - unfold mant. cbn. fold (mant b). lia.
  - intros Hu. split; [by apply (big_zero b G)|auto].
  - intros Hu. pose proof (big_top b G Hu). pose proof (nonzero_used b G Hu). nia.
Qed.

Lemma MultiplyByUInt32_denotes b f :
  big b -> 0 < f < 2 ^ 32 -> mant b * f < pw kBigitCapacity ->
  exists b', MultiplyByUInt32 b f = Some b' /\ denotes b' (mant b * f) (exponent_ b).
Proof.
  intros G Hf Hfit. unfold MultiplyByUInt32. destruct (Z.eqb_spec f 1) as [->|].
  { exists b. rewrite Z.mul_1_r. split; [done|by apply denotes_refl]. }
  destruct (Z.eqb_spec f 0); [lia|]. destruct (Nat.eqb_spec (used_digits_ b) 0) as [Hu|Hu].
  { exists b. split; [done|]. split; [done| |done]. rewrite (zero_used b (big_wf b G) Hu). lia. }
  match goal with
  | |- context [for_loop _ _ ?body _] =>
      destruct (product_loop b f body) as (bs & carry & -> & W & Hv & Hc & H0)
  end; [apply G|lia| |].
  - intros i bs carry d Hd Hb Hc. rewrite Hd. cbn [mbind option_bind].
    unfold bigit, B in Hb.
    rewrite (DoubleChunk_small (f * d)), DoubleChunk_small by nia.
    rewrite low_bigit, shiftr_bigit, Chunk_bigit by apply low_bigit_bigit.
    rewrite set_bigit_ok by by eapply lookup_lt_Some. done.
  - cbn [mbind option_bind]. by apply (product_carry b f); try done; lia.
Qed.

Lemma carry64 f d carry :
  0 <= f < 2 ^ 64 -> bigit d -> 0 <= carry <= f ->
  let low := Z.land f 0xFFFFFFFF in
  let high := Z.shiftr f 32 in
  let tmp := DoubleChunk (Z.land carry kBigitMask + DoubleChunk (low * d)) in
  Z.land tmp kBigitMask = (f * d + carry) mod B
  /\ DoubleChunk (Z.shiftr carry kBigitSize + Z.shiftr tmp kBigitSize
                  + DoubleChunk (Z.shiftl (DoubleChunk (high * d)) (32 - kBigitSize)))
     = (f * d + carry) / B.
Proof.
  intros Hf Hd Hc low high tmp. unfold bigit in Hd.
  assert (Hlow : low = f mod 2 ^ 32).
  { unfold low. change 0xFFFFFFFF with (2 ^ 32 - 1). by rewrite land_mask. }
  assert (Hhigh : high = f / 2 ^ 32) by (unfold high; by rewrite Z.shiftr_div_pow2).
  pose proof (Z.div_mod f (2 ^ 32) ltac:(lia)) as Hfd. rewrite <- Hlow, <- Hhigh in Hfd.
  assert (Hl : 0 <= low < 2 ^ 32) by (rewrite Hlow; apply Z.mod_pos_bound; lia).
  assert (Hh : 0 <= high < 2 ^ 32) by lia.
  assert (Htmp : tmp = carry mod B + low * d).
  { unfold tmp. rewrite low_bigit. pose proof (low_bigit_bigit carry) as Hm. unfold bigit, B in *.
    rewrite (DoubleChunk_small (low * d)), DoubleChunk_small by nia. done. }
  rewrite low_bigit, !shiftr_bigit. unfold kBigitSize. rewrite Z.shiftl_mul_pow2 by lia.
  change (2 ^ (32 - 28)) with 16.
  assert (Hp : f * d + carry = B * (high * d * 16 + carry / B) + tmp).
  { rewrite Htmp. pose proof (Z.div_mod carry B ltac:(unfold B; lia)). unfold B in *. nia. }
  rewrite Hp. assert (HB : B <> 0) by (unfold B; lia).
  split.
  - rewrite Z.add_comm, Z.mul_comm, Z.mod_add by done. done.
  - rewrite (Z.mul_comm B), Z.div_add_l by done.
    assert (Hq : (f * d + carry) / B <= f).
    { apply Z.div_le_upper_bound; [unfold B; lia|]. unfold B in *. nia. }
    rewrite Hp, (Z.mul_comm B), Z.div_add_l in Hq by done.
    pose proof (low_bigit_bigit carry) as Hm. unfold bigit in Hm.
    assert (0 <= tmp / B) by (apply Z.div_pos; [rewrite Htmp; nia|unfold B; lia]).
    assert (0 <= carry / B) by (apply Z.div_pos; [lia|unfold B; lia]).
    unfold B in Hd. rewrite (DoubleChunk_small (high * d)) by nia.
    rewrite (DoubleChunk_small (high * d * 16)) by nia. rewrite DoubleChunk_small by nia. lia.
Qed.

Lemma MultiplyByUInt64_denotes b f :
  big b -> 0 < f < 2 ^ 64 -> mant b * f < pw kBigitCapacity ->
  exists b', MultiplyByUInt64 b f = Some b' /\ denotes b' (mant b * f) (exponent_ b).
Proof.
  intros G Hf Hfit. unfold MultiplyByUInt64. destruct (Z.eqb_spec f 1) as [->|].
  { exists b. rewrite Z.mul_1_r. split; [done|by apply denotes_refl]. }
  destruct (Z.eqb_spec f 0); [lia|].
  match goal with
  | |- context [for_loop _ _ ?body _] =>
      destruct (product_loop b f body) as (bs & carry & -> & W & Hv & Hc & H0)
  end; [apply G|lia| |].
  - intros i bs carry d Hd Hb Hc. rewrite Hd. cbn [mbind option_bind].
    destruct (carry64 f d carry ltac:(lia) Hb ltac:(lia)) as [H1 H2]. cbv zeta in H1, H2.
    rewrite H1, H2, Chunk_bigit by apply low_bigit_bigit.
    rewrite set_bigit_ok by by eapply lookup_lt_Some. done.
  - cbn [mbind option_bind]. by apply (product_carry b f); try done; lia.
Qed.

(** ** Shifts *)

Lemma val_mul b T e n : denotes b T e -> val b * n = T * n * pw e.
Proof. intros [_ <- <-]. unfold val. lia. Qed.

(** A bigit shifted by less than its size. *)
Lemma shift_step d s carry :
  bigit d -> 0 <= s < 28 -> 0 <= carry < 2 ^ s ->
  Z.land (Chunk (Chunk (Z.shiftl d s) + carry)) kBigitMask = (2 ^ s * d + carry) mod B
  /\ Z.shiftr d (kBigitSize - s) = (2 ^ s * d + carry) / B.
Proof.
  intros Hd Hs Hc. rewrite low_bigit. unfold Chunk, uint, kBigitSize.
  rewrite Z.shiftl_mul_pow2, Z.shiftr_div_pow2 by lia. split.
  - unfold B. rewrite Z.add_mod_idemp_l by lia. change (2 ^ 32) with (2 ^ 28 * 16).
    rewrite Z.rem_mul_r by lia. rewrite (Z.mul_comm (2 ^ 28)), Z.mod_add, Z.mod_mod by lia.
    f_equal. lia.
  - assert (H2 : 0 < 2 ^ s) by (apply Z.pow_pos_nonneg; lia).
    assert (HB : B = 2 ^ s * 2 ^ (28 - s)) by (unfold B; rewrite <- Z.pow_add_r by lia; f_equal; lia).
    rewrite HB, <- Z.div_div by (try apply Z.pow_nonzero; try apply Z.pow_pos_nonneg; lia).
    rewrite (Z.mul_comm (2 ^ s)), Z.div_add_l, (Z.div_small carry) by lia. f_equal. lia.
Qed.

(** The top of a number that fits below [n] bigits. *)
Lemma used_bound b n : big b -> mant b < pw n -> (used_digits_ b <= n)%nat.
Proof.
  intros G H. destruct (decide (used_digits_ b = 0%nat)) as [->|Hu]; [lia|].
  pose proof (big_top b G Hu). assert (used_digits_ b - 1 < n)%nat by (apply pw_lt_inv; lia). lia.
Qed.

Lemma BigitsShiftLeft_denotes b s :
  big b -> 0 <= s < 28 -> (used_digits_ b < kBigitCapacity)%nat ->
  exists b', BigitsShiftLeft b s = Some b' /\ denotes b' (mant b * 2 ^ s) (exponent_ b).
Proof.
  intros G Hs Hu. unfold BigitsShiftLeft. assert (Hp : 0 < 2 ^ s) by (apply Z.pow_pos_nonneg; lia).
  match goal with
  | |- context [for_loop _ _ ?body _] =>
      destruct (product_loop b (2 ^ s) body) as (bs & carry & -> & W & Hv & Hc & H0)
  end; [apply G|done| |].
  - intros i bs carry d Hd Hb Hc. rewrite Hd. cbn [mbind option_bind].
    destruct (shift_step d s carry Hb Hs Hc) as [-> ->].
    rewrite set_bigit_ok by by eapply lookup_lt_Some. done.
  - cbn [mbind option_bind]. assert (Hlt : 2 ^ s < B) by (unfold B; apply Z.pow_lt_mono_r; lia).
    assert (Hm : used_digits_ b <> 0%nat -> pw (used_digits_ b - 1) <= mant b * 2 ^ s).
    { intros Hn. pose proof (big_top b G Hn). pose proof (nonzero_used b G Hn). nia. }
    destruct (Z.eqb_spec carry 0) as [->|Hne].
    + exists (with_bigits b bs). split; [done|]. split; [|unfold mant at 1; cbn; lia|done].
      split; [done|apply G|]. intros Hn. unfold mant. cbn in *. specialize (Hm Hn). lia.
    + assert (Hcb : bigit carry) by (unfold bigit; lia).
      destruct (append_bigit (with_bigits b bs) carry W Hu Hcb) as (bs' & E & W' & Hv').
      change (mant (with_bigits b bs)) with (value bs) in Hv'.
      cbn [with_bigits bigits_ used_digits_ exponent_] in E, W', Hv'. rewrite E. cbn [mbind option_bind].
      eexists. split; [reflexivity|].
      assert (Hmant : mant (mkBignum bs' (S (used_digits_ b)) (exponent_ b)) = mant b * 2 ^ s).
      { change (value bs' = mant b * 2 ^ s). lia. }
      split; [|done|done]. split; [done|done|]. cbn [used_digits_]. intros _. rewrite Hmant.
      replace (S (used_digits_ b) - 1)%nat with (used_digits_ b) by lia.
      pose proof (value_bound bs ltac:(apply (wf_bigits _ W))). pose proof (pw_pos (used_digits_ b)). nia.
Qed.

Lemma ShiftLeft_val b k :
  big b -> 0 <= k -> mant b < pw 127 ->
  exists b', ShiftLeft b k = Some b' /\ big b' /\ val b' = val b * 2 ^ k.
Proof.
  intros G Hk Hfit. unfold ShiftLeft. destruct (Nat.eqb_spec (used_digits_ b) 0) as [Hu|Hu].
  { exists b. split; [done|split; [done|]]. unfold val. rewrite (zero_used b (big_wf b G) Hu). lia. }
  set (b1 := mkBignum (bigits_ b) (used_digits_ b) (exponent_ b + Z.to_nat (k / kBigitSize))).
  pose proof (used_bound b 127 G Hfit) as Hub.
  rewrite EnsureCapacity_ok by (unfold kBigitCapacity; cbn; lia). cbn [mbind option_bind].
  assert (G1 : big b1).
  { destruct G as [[W1 W2 W3 W4] G2 G3]. split; [by split|done|done]. }
  destruct (BigitsShiftLeft_denotes b1 (k mod kBigitSize) G1) as (b' & -> & [G' Hm He]).
  { apply Z.mod_pos_bound. unfold kBigitSize. lia. }
  { unfold kBigitCapacity. cbn. lia. }
  exists b'. split; [done|split; [done|]]. unfold val. rewrite Hm, He. cbn.
  change (mant b1) with (mant b). rewrite pw_add. unfold pw at 2. unfold kBigitSize.
  rewrite Z2Nat.id by (apply Z.div_pos; lia). unfold B. rewrite <- Z.pow_mul_r by (try apply Z.div_pos; lia).
  assert (E : 2 ^ k = 2 ^ (28 * (k / 28)) * 2 ^ (k mod 28)).
  { rewrite <- Z.pow_add_r by lia. f_equal. lia. }
  rewrite E. fold (mant b). ring.
Qed.

(** ** Powers of ten *)

Lemma kFive_powers :
  kFive27 = 5 ^ 27 /\ kFive13 = 5 ^ 13
  /\ forall i, (1 <= i <= 12)%nat -> kFive1_to_12 !! (i - 1)%nat = Some (5 ^ Z.of_nat i).
Proof.
  split; [reflexivity|split; [reflexivity|]]. intros i Hi.
  do 13 (destruct i as [|i]; [try lia; reflexivity|]). lia.
Qed.

Lemma pow5_fits (b : Bignum) n e : 0 <= mant b -> (n <= e)%nat -> mant b * 5 ^ Z.of_nat n <= mant b * 5 ^ Z.of_nat e.
Proof. intros Hm Hn. apply Z.mul_le_mono_nonneg_l; [done|]. apply Z.pow_le_mono_r; lia. Qed.

(** One of the loops of [MultiplyByPowerOfTen]: by [5^step] as long as it
    goes. *)
Lemma power_loop b e step mul b0 r0 :
  (forall b1, big b1 -> mant b1 * 5 ^ Z.of_nat step < pw 127 ->
     exists b', mul b1 = Some b' /\ denotes b' (mant b1 * 5 ^ Z.of_nat step) (exponent_ b1)) ->
  (0 < step)%nat -> 0 <= mant b -> mant b * 5 ^ Z.of_nat e < pw 127 -> (r0 <= e)%nat ->
  denotes b0 (mant b * 5 ^ Z.of_nat (e - r0)) (exponent_ b) ->
  exists b' r, while_loop (S e) (fun '(_, r) => (step <=? r)%nat)
      (fun '(b, r) => b ← mul b; Some (b, r - step)%nat) (b0, r0) = Some (b', r)
    /\ (r <= e)%nat /\ (r < step)%nat /\ denotes b' (mant b * 5 ^ Z.of_nat (e - r)) (exponent_ b).
Proof.
  intros Hmul Hstep Hm Hfit Hr H0.
  destruct (while_loop_inv (fun '(b', r) => (r <= e)%nat
      /\ denotes b' (mant b * 5 ^ Z.of_nat (e - r)) (exponent_ b)) (fun '(_, r) => r) (S e)
      (fun '(_, r) => (step <=? r)%nat) (fun '(b, r) => b ← mul b; Some (b, r - step)%nat) (b0, r0))
    as ([b' r] & -> & (Hle & H) & Hc); [done|lia| |].
  - intros [b1 r1] (Hr1 & D) Hle. breflect. pose proof (dn_mant _ _ _ D) as Hmant.
    assert (E : mant b1 * 5 ^ Z.of_nat step = mant b * 5 ^ Z.of_nat (e - (r1 - step))).
    { rewrite Hmant, <- Z.mul_assoc, <- Z.pow_add_r by lia. f_equal. f_equal. lia. }
    destruct (Hmul b1 (dn_big _ _ _ D)) as (b2 & -> & D2).
    { rewrite E. pose proof (pow5_fits b (e - (r1 - step)) e Hm ltac:(lia)). lia. }
    cbn [mbind option_bind]. eexists. split; [reflexivity|]. split; [|lia]. split; [lia|].
    rewrite E, (dn_exp _ _ _ D) in D2. exact D2.
  - exists b', r. breflect. done.
Qed.

Lemma MultiplyByPowerOfTen_val b e :
  big b -> mant b * 5 ^ Z.of_nat e < pw 127 ->
  exists b', MultiplyByPowerOfTen b e = Some b' /\ big b' /\ val b' = val b * 10 ^ Z.of_nat e.
Proof.
  intros G Hfit. unfold MultiplyByPowerOfTen. pose proof (mant_bound b (big_wf b G)) as Hm.
  assert (H127 : pw 127 <= pw kBigitCapacity) by (apply pw_mono; unfold kBigitCapacity; lia).
  destruct kFive_powers as (H27 & H13 & H12).
  destruct (Nat.eqb_spec e 0) as [->|He0]; [exists b; split; [done|split; [done|cbn; lia]]|].
  destruct (Nat.eqb_spec (used_digits_ b) 0) as [Hu|Hu].
  { exists b. split; [done|split; [done|]]. unfold val. rewrite (zero_used b (big_wf b G) Hu). lia. }
  destruct (power_loop b e 27 (fun b => MultiplyByUInt64 b kFive27) b e) as (b1 & r1 & -> & Hr1 & _ & D1).
  { intros b1 G1 F1. rewrite H27. apply MultiplyByUInt64_denotes; [done|lia|].
    change (Z.of_nat 27) with 27 in F1. lia. }
  { lia. } { lia. } { done. } { done. }
  { rewrite Nat.sub_diag, Z.pow_0_r, Z.mul_1_r. by apply denotes_refl. }
  cbn [mbind option_bind].
  destruct (power_loop b e 13 (fun b => MultiplyByUInt32 b kFive13) b1 r1) as (b2 & r2 & -> & Hr2 & Hlt2 & D2).
  { intros b2 G2 F2. rewrite H13. apply MultiplyByUInt32_denotes; [done|lia|].
    change (Z.of_nat 13) with 13 in F2. lia. }
  { lia. } { lia. } { done. } { done. } { done. }
  cbn [mbind option_bind].
  assert (Hlast : exists b3, (if (0 <? r2)%nat then f ← kFive1_to_12 !! (r2 - 1)%nat; MultiplyByUInt32 b2 f
                  else Some b2) = Some b3 /\ denotes b3 (mant b * 5 ^ Z.of_nat e) (exponent_ b)).
  { destruct (Nat.ltb_spec 0 r2) as [Hpos|Hz].
    - rewrite H12 by lia. cbn [mbind option_bind].
      assert (E : mant b2 * 5 ^ Z.of_nat r2 = mant b * 5 ^ Z.of_nat e).
      { rewrite (dn_mant _ _ _ D2), <- Z.mul_assoc, <- Z.pow_add_r by lia. f_equal. f_equal. lia. }
      destruct (MultiplyByUInt32_denotes b2 (5 ^ Z.of_nat r2)) as (b3 & -> & D3); [apply D2| |lia|].
      + split; [apply Z.pow_pos_nonneg; lia|]. apply Z.le_lt_trans with (5 ^ 12); [|lia].
        apply Z.pow_le_mono_r; lia.
      + exists b3. rewrite E, (dn_exp _ _ _ D2) in D3. split; [reflexivity|exact D3].
    - exists b2. replace r2 with 0%nat in D2 by lia. rewrite Nat.sub_0_r in D2.
      split; [reflexivity|exact D2]. }
  destruct Hlast as (b3 & -> & D3). cbn [mbind option_bind].
  destruct (ShiftLeft_val b3 (Z.of_nat e)) as (b' & -> & G' & Hv); [apply D3|lia|by rewrite (dn_mant _ _ _ D3)|].
  exists b'. split; [done|split; [done|]]. rewrite Hv. unfold val.
  rewrite (dn_mant _ _ _ D3), (dn_exp _ _ _ D3). change 10 with (5 * 2). rewrite Z.pow_mul_l. lia.
Qed.

(** ** Addition *)

Lemma value_ge bs i d : Forall bigit bs -> bs !! i = Some d -> d * pw i <= value bs.
Proof.
  intros Hb Hd. rewrite (value_split (S i)), (value_take_S _ _ d) by done.
  pose proof (value_bound (take i bs) ltac:(by apply Forall_take)).
  pose proof (value_bound (drop (S i) bs) ltac:(by apply Forall_drop)).
  pose proof (pw_pos (Nat.min (S i) (length bs))). nia.
Qed.

Lemma value_replicate_0 n : value (replicate n 0) = 0.
Proof. apply value_zeros. intros i d [-> _]%lookup_replicate. done. Qed.

(** The first loop of [Align]. *)
Lemma align_copy bs used z :
  (used + z <= length bs)%nat ->
  exists bs', for_loop used 0
      (fun k bs => let i := (used - 1 - k)%nat in d ← bs !! i; set_bigit bs (i + z) d) bs = Some bs'
    /\ length bs' = length bs
    /\ forall j, bs' !! j = if (z <=? j)%nat && (j <? used + z)%nat then bs !! (j - z)%nat else bs !! j.
Proof.
  intros Hl.
  destruct (for_loop_inv (fun k bs' => length bs' = length bs /\ forall j,
      bs' !! j = if (used - k + z <=? j)%nat && (j <? used + z)%nat then bs !! (j - z)%nat else bs !! j)
    used 0 (fun k bs => let i := (used - 1 - k)%nat in d ← bs !! i; set_bigit bs (i + z) d) bs)
    as (bs' & -> & Hl' & Hj).
  - split; [done|]. intros j. destruct (Nat.leb_spec (used - 0 + z) j), (Nat.ltb_spec j (used + z)); cbn; done || lia.
  - intros k bs1 Hk (Hl1 & Hj). cbv zeta. rewrite (Hj (used - 1 - k)%nat).
    destruct (Nat.leb_spec (used - k + z) (used - 1 - k)); [lia|]. cbn [andb].
    destruct (lookup_lt_is_Some_2 bs (used - 1 - k)) as [d Hd]; [lia|]. rewrite Hd. cbn [mbind option_bind].
    rewrite set_bigit_ok by lia. eexists. split; [done|]. split; [by rewrite length_insert|].
    intros j. destruct (decide (j = used - 1 - k + z)%nat) as [->|Hne].
    + rewrite list_lookup_insert_eq by lia.
      destruct (Nat.leb_spec (used - S k + z) (used - 1 - k + z)); [|lia].
      destruct (Nat.ltb_spec (used - 1 - k + z) (used + z)); [|lia]. cbn [andb]. rewrite <- Hd. f_equal. lia.
    + rewrite list_lookup_insert_ne, Hj by lia.
      destruct (Nat.leb_spec (used - k + z) j), (Nat.leb_spec (used - S k + z) j); cbn [andb]; done || lia.
  - exists bs'. split; [done|split; [done|]]. intros j. rewrite Hj.
    replace (used - (0 + used) + z)%nat with z by lia. done.
Qed.

(** The second one: [n] zero bigits at the bottom. *)
Lemma zero_loop bs n :
  (n <= length bs)%nat ->
  for_loop n 0 (fun i bs => set_bigit bs i 0) bs = Some (replicate n 0 ++ drop n bs).
Proof.
  intros Hn.
  destruct (for_loop_inv (fun i bs' => (i <= n)%nat -> bs' = replicate i 0 ++ drop i bs) n 0
    (fun i bs => set_bigit bs i 0) bs) as (bs' & -> & H); [done| |].
  - intros i bs1 Hi H. rewrite (H ltac:(lia)).
    rewrite set_bigit_ok by (rewrite length_app, length_replicate, length_drop; lia).
    eexists. split; [done|]. intros _.
    destruct (lookup_lt_is_Some_2 bs i) as [d Hd]; [lia|].
    rewrite (drop_S _ _ _ Hd). rewrite <- (length_replicate i 0) at 1.
    rewrite insert_app_r_alt, Nat.sub_diag by (rewrite length_replicate; lia). cbn.
    replace (replicate i 0 ++ 0 :: drop (S i) bs) with (replicate (i + 1) 0 ++ drop (S i) bs).
    { by replace (i + 1)%nat with (S i) by lia. }
    by rewrite replicate_add, <- app_assoc.
  - f_equal. apply H. lia.
Qed.

(** [b] aligned to the exponent [e]. *)
Lemma Align_spec b other :
  let e := Nat.min (exponent_ b) (exponent_ other) in
  big b -> (used_digits_ b + (exponent_ b - e) <= kBigitCapacity)%nat ->
  exists b', Align b other = Some b' /\ denotes b' (mant b * pw (exponent_ b - e)) e
    /\ used_digits_ b' = (used_digits_ b + (exponent_ b - e))%nat.
Proof.
  intros e G Hu. unfold Align. destruct (Nat.ltb_spec (exponent_ other) (exponent_ b)) as [Hlt|Hge].
  2: { exists b. replace (exponent_ b - e)%nat with 0%nat by lia. rewrite pw_0, Z.mul_1_r, Nat.add_0_r.
       split; [done|split; [|done]]. replace e with (exponent_ b) by lia. by apply denotes_refl. }
  replace (exponent_ b - exponent_ other)%nat with (exponent_ b - e)%nat by lia.
  set (z := (exponent_ b - e)%nat) in *. rewrite EnsureCapacity_ok by done. cbn [mbind option_bind].
  destruct G as [[W1 W2 W3 W4] G2 G3].
  destruct (align_copy (bigits_ b) (used_digits_ b) z) as (bs & E & Hl & Hj); [by rewrite W1|].
  match goal with
  | |- context [for_loop ?n ?i ?body (bigits_ b)] =>
      replace (for_loop n i body (bigits_ b)) with (Some bs) by (symmetry; exact E)
  end.
  cbn [mbind option_bind]. rewrite zero_loop by (rewrite Hl, W1; lia). cbn [mbind option_bind].
  assert (Hfinal : replicate z 0 ++ drop z bs = replicate z 0 ++ take (kBigitCapacity - z) (bigits_ b)).
  { f_equal. apply list_eq. intros i. rewrite lookup_drop, Hj.
    destruct (Nat.leb_spec z (z + i)); [|lia]. cbn [andb].
    destruct (decide (i < kBigitCapacity - z)%nat) as [Hi|Hi].
    - rewrite lookup_take_lt by done. destruct (Nat.ltb_spec (z + i) (used_digits_ b + z)) as [Hlt1|Hge1].
      + by replace (z + i - z)%nat with i by lia.
      + destruct (lookup_lt_is_Some_2 (bigits_ b) i) as [d Hd]; [lia|].
        destruct (lookup_lt_is_Some_2 (bigits_ b) (z + i)%nat) as [d' Hd']; [lia|].
        rewrite Hd, Hd'. rewrite (W4 i d), (W4 (z + i)%nat d') by (done || lia). done.
    - rewrite lookup_take_ge by lia.
      destruct (Nat.ltb_spec (z + i) (used_digits_ b + z)); [lia|]. apply lookup_ge_None_2. lia. }
  rewrite Hfinal.
  assert (Hv : value (replicate z 0 ++ take (kBigitCapacity - z) (bigits_ b)) = mant b * pw z).
  { rewrite value_app, value_replicate_0, length_replicate. unfold mant.
    rewrite (value_split (kBigitCapacity - z) (bigits_ b)), drop_zeros; [lia|].
    intros i d Hi. apply W4. lia. }
  eexists. split; [done|]. split; [|done]. split; [|exact Hv|cbn; unfold z, e; lia]. split.
  - split; cbn [bigits_ used_digits_].
    + rewrite length_app, length_replicate, length_take, W1. unfold kBigitCapacity in *. lia.
    + apply Forall_app. split; [|by apply Forall_take]. apply Forall_replicate. unfold bigit, B. lia.
    + done.
    + intros i d Hi. rewrite lookup_app_r by (rewrite length_replicate; lia). rewrite length_replicate.
      destruct (decide (i - z < kBigitCapacity - z)%nat).
      * rewrite lookup_take_lt by done. apply W4. lia.
      * rewrite lookup_take_ge by lia. done.
  - cbn [used_digits_ exponent_]. intros Hz. assert (H0 : used_digits_ b = 0%nat) by lia. specialize (G2 H0). unfold z, e in *. lia.
  - cbn [used_digits_ exponent_]. intros _. unfold mant at 1. cbn [bigits_]. rewrite Hv. destruct (decide (used_digits_ b = 0%nat)) as [H0|H0].
    + specialize (G2 H0). unfold z, e in *. lia.
    + replace (used_digits_ b + z - 1)%nat with ((used_digits_ b - 1) + z)%nat by lia.
      rewrite pw_add. specialize (G3 H0). pose proof (pw_pos z). apply Z.mul_le_mono_nonneg_r; lia.
Qed.

(** One bigit of a sum. *)
Lemma add_bigit_spec bs pos d o carry :
  Forall bigit bs -> bs !! pos = Some d -> bigit o -> 0 <= carry <= 1 ->
  exists bs' carry', add_bigit bs pos o carry = Some (bs', carry') /\ 0 <= carry' <= 1
    /\ length bs' = length bs /\ Forall bigit bs' /\ (forall j, j <> pos -> bs' !! j = bs !! j)
    /\ value bs' + carry' * pw (S pos) = value bs + (o + carry) * pw pos
    /\ (carry' = 0 -> bs' !! pos = Some (d + o + carry)).
Proof.
  intros Hb Hd Ho Hc. pose proof (Forall_lookup_1 _ _ _ _ Hb Hd) as Hdb. unfold bigit, B in Hdb, Ho.
  unfold add_bigit. rewrite Hd. cbn [mbind option_bind].
  assert (E : Chunk (d + o + carry) = d + o + carry) by (unfold Chunk, uint; apply Z.mod_small; lia).
  rewrite E, low_bigit, shiftr_bigit. pose proof (lookup_lt_Some _ _ _ Hd) as Hlt.
  rewrite set_bigit_ok by done. cbn [mbind option_bind].
  pose proof (Z.div_mod (d + o + carry) B ltac:(unfold B; lia)) as Hdm.
  eexists _, _. split; [done|]. split; [unfold B; lia|]. split; [by rewrite length_insert|].
  split; [apply Forall_insert; [done|apply low_bigit_bigit]|].
  split; [intros j Hj; by rewrite list_lookup_insert_ne by done|].
  split; [rewrite (value_insert _ _ d), pw_S by done; nia|].
  intros H0. rewrite list_lookup_insert_eq by done. f_equal. lia.
Qed.

(** The bigits [other] adds, from bigit [start] on. *)
Lemma add_loop b other start T :
  big b -> big other -> (start + used_digits_ other < kBigitCapacity)%nat ->
  T = mant b + mant other * pw start ->
  exists bs carry,
    for_loop (used_digits_ other) 0
      (fun i '(bs, carry) => o ← bigits_ other !! i; add_bigit bs (start + i) o carry)
      (bigits_ b, 0) = Some (bs, carry)
    /\ prefix_done (bigits_ b) bs (start + used_digits_ other) /\ 0 <= carry <= 1
    /\ value bs + carry * pw (start + used_digits_ other) = T.
Proof.
  intros G Go Hfit ->. pose proof (big_wf b G) as W. pose proof (big_wf other Go) as Wo.
  destruct (for_loop_inv (fun i '(bs, carry) =>
      prefix_done (bigits_ b) bs (start + i) /\ 0 <= carry <= 1
      /\ value bs + carry * pw (start + i) = mant b + value (take i (bigits_ other)) * pw start)
    (used_digits_ other) 0
    (fun i '(bs, carry) => o ← bigits_ other !! i; add_bigit bs (start + i) o carry) (bigits_ b, 0))
    as ([bs carry] & -> & Hpd & Hc & Hv).
  - split; [by apply prefix_done_refl, W|]. split; [lia|]. rewrite take_0. cbn [value]. unfold mant. lia.
  - intros i [bs carry] Hi ([Hl Hb Hr] & Hc & Hv). pose proof (wf_used other Wo).
    destruct (bigit_at other i Wo ltac:(lia)) as (o & Ho & Hob). rewrite Ho. cbn [mbind option_bind].
    destruct (bigit_at b (start + i) W ltac:(lia)) as (d & Hd & _).
    rewrite <- Hr in Hd by lia.
    destruct (add_bigit_spec bs (start + i) d o carry Hb Hd Hob Hc)
      as (bs' & carry' & -> & Hc' & Hl' & Hb' & Hr' & Hv' & _).
    eexists. split; [reflexivity|]. rewrite <- plus_n_Sm. split; [|split; [done|]].
    + split; [lia|done|]. intros j Hj. rewrite Hr' by lia. apply Hr. lia.
    + rewrite (value_take_S _ _ o Ho), Hv'. rewrite pw_add in *. lia.
  - exists bs, carry. split; [done|]. rewrite Nat.add_0_l in *. rewrite <- mant_take in Hv by done. done.
Qed.

Definition carry_inv (b : Bignum) (start : nat) (T : Z) (s : list Z * Z * nat) : Prop :=
  let '(bs, carry, pos) := s in
  prefix_done (bigits_ b) bs pos /\ 0 <= carry <= 1 /\ value bs + carry * pw pos = T
  /\ (start <= pos <= kBigitCapacity)%nat
  /\ (pos = start \/ (carry = 0 -> exists d, bs !! (pos - 1)%nat = Some d /\ 1 <= d)).

(** The carry it leaves. *)
Lemma carry_loop b bs carry start T :
  wf b -> carry_inv b start T (bs, carry, start) -> T < pw kBigitCapacity ->
  exists bs' pos,
    while_loop (S kBigitCapacity) (fun '(bs, carry, pos) => negb (carry =? 0))
      (fun '(bs, carry, pos) => '(bs, carry) ← add_bigit bs pos 0 carry; Some (bs, carry, S pos))
      (bs, carry, start) = Some (bs', 0, pos)
    /\ carry_inv b start T (bs', 0, pos).
Proof.
  intros W H0 HT.
  destruct (while_loop_inv (carry_inv b start T) (fun '(_, _, pos) => (kBigitCapacity - pos)%nat)
    (S kBigitCapacity) (fun '(bs, carry, pos) => negb (carry =? 0))
    (fun '(bs, carry, pos) => '(bs, carry) ← add_bigit bs pos 0 carry; Some (bs, carry, S pos))
    (bs, carry, start)) as ([[bs' c] pos] & -> & H & Hc); [done|lia| |].
  - intros [[bs1 c1] pos] ([Hl Hb Hr] & Hc & Hv & Hpos & _) Hne. breflect.
    pose proof (value_bound bs1 Hb). pose proof (pw_pos pos).
    assert (Hlt : (pos < kBigitCapacity)%nat) by (apply pw_lt_inv; nia).
    destruct (bigit_at b pos W Hlt) as (d & Hd & Hdb). rewrite <- Hr in Hd by lia.
    destruct (add_bigit_spec bs1 pos d 0 c1 Hb Hd ltac:(unfold bigit, B; lia) Hc)
      as (bs2 & c2 & -> & Hc2 & Hl2 & Hb2 & Hr2 & Hv2 & Hd2).
    cbn [mbind option_bind]. eexists. split; [reflexivity|]. unfold bigit in Hdb.
    split; [|lia]. split; [|split; [done|split; [lia|split; [lia|right]]]].
    + split; [lia|done|]. intros j Hj. rewrite Hr2 by lia. apply Hr. lia.
    + intros Hz. replace (S pos - 1)%nat with pos by lia. eexists. split; [by apply Hd2|]. lia.
  - apply negb_false_iff, Z.eqb_eq in Hc. subst c. by exists bs', pos.
Qed.

(** Room for one bigit more than the longer of the two has above the lower
    exponent. *)
Definition sum_fits (b other : Bignum) : Prop :=
  (Nat.max (BigitLength b) (BigitLength other)
   < Nat.min (exponent_ b) (exponent_ other) + kBigitCapacity)%nat.

Lemma AddBignum_denotes b other :
  let e := Nat.min (exponent_ b) (exponent_ other) in
  big b -> big other -> sum_fits b other ->
  exists b', AddBignum b other = Some b'
    /\ denotes b' (mant b * pw (exponent_ b - e) + mant other * pw (exponent_ other - e)) e.
Proof.
  intros e G Go Hfit. unfold AddBignum, sum_fits, BigitLength in *.
  destruct (Align_spec b other G) as (b1 & -> & [G1 Hm1 He1] & Hu1); [lia|].
  fold e in Hm1, He1, Hu1. cbn [mbind option_bind].
  rewrite EnsureCapacity_ok by lia. cbn [mbind option_bind]. rewrite He1.
  set (start := (exponent_ other - e)%nat). rewrite <- Hm1.
  set (T := mant b1 + mant other * pw start).
  assert (Hs : (start + used_digits_ other < kBigitCapacity)%nat) by (unfold start, e; lia).
  destruct (add_loop b1 other start T G1 Go Hs eq_refl) as (bs & carry & -> & Hpd & Hc & Hv).
  cbn [mbind option_bind]. pose proof (big_wf b1 G1) as W1.
  pose proof (mant_bound b1 W1) as Hb1. pose proof (mant_bound other (big_wf other Go)) as Hbo.
  assert (HT : T < pw kBigitCapacity).
  { assert (mant b1 < pw 127).
    { eapply Z.lt_le_trans; [apply Hb1|]. apply pw_mono. unfold kBigitCapacity in *. lia. }
    assert (mant other * pw start < pw 127).
    { eapply Z.lt_le_trans; [apply Z.mul_lt_mono_pos_r; [apply pw_pos|apply Hbo]|].
      rewrite <- pw_add. apply pw_mono. unfold kBigitCapacity in *. lia. }
    change kBigitCapacity with (S 127). rewrite pw_S. pose proof (pw_pos 127). unfold T, B. lia. }
  destruct (carry_loop b1 bs carry (start + used_digits_ other) T W1) as (bs' & pos & -> & H); [|done|].
  { split; [done|split; [done|split; [done|split; [lia|by left]]]]. }
  destruct H as ([Hl Hb Hr] & _ & Hv' & Hpos & Htop). cbn [mbind option_bind].
  rewrite Z.mul_0_l, Z.add_0_r in Hv'.
  eexists. split; [reflexivity|]. split; [|exact Hv'|reflexivity]. split.
  - split; cbn [bigits_ used_digits_].
    + rewrite Hl. apply W1.
    + done.
    + pose proof (wf_used b1 W1). lia.
    + intros i d Hi. rewrite Hr by lia. apply (wf_rest b1 W1). lia.
  - cbn [used_digits_ exponent_]. intros Hz. rewrite <- He1. apply (big_zero b1 G1). lia.
  - cbn [used_digits_]. intros Hz. change (pw (Nat.max pos (used_digits_ b1) - 1) <= value bs').
    rewrite Hv'. pose proof (pw_pos start) as Hps.
    destruct (decide (pos <= used_digits_ b1)%nat) as [Hle|Hgt].
    + rewrite Nat.max_r by done. pose proof (big_top b1 G1 ltac:(lia)). unfold T. nia.
    + rewrite Nat.max_l by lia. destruct Htop as [->|Htop].
      * assert (Hou : used_digits_ other <> 0%nat).
        { intros Ho. pose proof (big_zero other Go Ho). unfold start in *. lia. }
        pose proof (big_top other Go Hou) as Ht.
        replace (start + used_digits_ other - 1)%nat with (used_digits_ other - 1 + start)%nat by lia.
        rewrite pw_add. unfold T. nia.
      * destruct (Htop eq_refl) as (d & Hd & Hd1). pose proof (value_ge bs' _ d Hb Hd).
        pose proof (pw_pos (pos - 1)). nia.
Qed.

Lemma AddBignum_val b other :
  big b -> big other -> sum_fits b other ->
  exists b', AddBignum b other = Some b' /\ big b' /\ val b' = val b + val other.
Proof.
  intros G Go Hfit. destruct (AddBignum_denotes b other G Go Hfit) as (b' & E & [G' Hm He]).
  exists b'. split; [done|split; [done|]]. unfold val. rewrite Hm, He, Z.mul_add_distr_r.
  rewrite <- !Z.mul_assoc, <- !pw_add. f_equal; f_equal; f_equal; lia.
Qed.

(** ** Assignment and decimal strings *)

Lemma Bignum_new_big : big Bignum_new.
Proof.
  assert (H : forall i d, bigits_ Bignum_new !! i = Some d -> d = 0) by by intros i d [-> _]%lookup_replicate.
  split; [split| |]; try done.
  - apply (Forall_lookup_2 bigit). intros i d ->%H. unfold bigit, B. lia.
  - cbn. lia.
  - intros i d _. apply H.
Qed.

(** [Zero] gives back the fresh number. *)
Lemma Zero_ok b : wf b -> Zero b = Some Bignum_new.
Proof.
  intros W. unfold Zero. rewrite zero_loop by (rewrite (wf_length b W); apply W).
  cbn [mbind option_bind]. do 2 f_equal. unfold Bignum_new. f_equal. apply list_eq. intros i.
  pose proof (wf_used b W). pose proof (wf_length b W) as Hl.
  destruct (decide (i < used_digits_ b)%nat) as [Hi|Hi].
  - rewrite lookup_app_l by (rewrite length_replicate; lia).
    rewrite !lookup_replicate_2 by lia. done.
  - rewrite lookup_app_r by (rewrite length_replicate; lia). rewrite length_replicate, lookup_drop.
    replace (used_digits_ b + (i - used_digits_ b))%nat with i by lia.
    destruct (decide (i < kBigitCapacity)%nat) as [Hc|Hc].
    + destruct (bigit_at b i W Hc) as (d & Hd & _). rewrite lookup_replicate_2, Hd by lia.
      f_equal. apply (wf_rest b W i); [lia|done].
    + rewrite (proj2 (lookup_ge_None _ _)) by lia. symmetry. apply lookup_ge_None.
      rewrite length_replicate. lia.
Qed.

Lemma clamp_used_spec bs used :
  (used <= length bs)%nat ->
  exists u, clamp_used bs used = Some u /\ (u <= used)%nat
    /\ (forall i d, (u <= i < used)%nat -> bs !! i = Some d -> d = 0)
    /\ (u <> 0%nat -> exists d, bs !! (u - 1)%nat = Some d /\ d <> 0).
Proof.
  induction used as [|used IH]; intros Hl; cbn [clamp_used].
  - exists 0%nat. repeat split; try lia.
  - destruct (lookup_lt_is_Some_2 bs used) as [d Hd]; [lia|]. rewrite Hd. cbn [mbind option_bind].
    destruct (Z.eqb_spec d 0) as [->|Hne].
    + destruct (IH ltac:(lia)) as (u & -> & Hu & H0 & Ht). exists u. repeat split; [lia| |done].
      intros i d Hi Hd'. destruct (decide (i = used)) as [->|]; [congruence|]. apply (H0 i); [lia|done].
    + exists (S used). repeat split; try lia. intros _. exists d.
      replace (S used - 1)%nat with used by lia. done.
Qed.

Lemma Clamp_spec b :
  wf b -> exists b', Clamp b = Some b' /\ big b' /\ val b' = val b /\ (exponent_ b' <= exponent_ b)%nat.
Proof.
  intros W. unfold Clamp. pose proof (wf_used b W). pose proof (wf_length b W) as Hl.
  destruct (clamp_used_spec (bigits_ b) (used_digits_ b)) as (u & -> & Hu & H0 & Ht); [lia|].
  cbn [mbind option_bind]. eexists. split; [reflexivity|].
  assert (Hr : forall i d, (u <= i)%nat -> bigits_ b !! i = Some d -> d = 0).
  { intros i d Hi Hd. destruct (decide (i < used_digits_ b)%nat); [by apply (H0 i); [lia|]|].
    apply (wf_rest b W i); [lia|done]. }
  split; [split|split].
  - split; cbn [bigits_ used_digits_]; [done|apply W|lia|done].
  - cbn. by intros ->.
  - cbn [used_digits_]. intros Hn. destruct (Ht Hn) as (d & Hd & Hne).
    change (pw (u - 1) <= value (bigits_ b)). pose proof (value_ge _ _ d (wf_bigits b W) Hd).
    pose proof (Forall_lookup_1 _ _ _ _ (wf_bigits b W) Hd) as Hb. unfold bigit in Hb.
    pose proof (pw_pos (u - 1)). nia.
  - unfold val, mant. cbn [bigits_ exponent_]. destruct (Nat.eqb_spec u 0) as [->|]; [|done].
    rewrite (value_zeros (bigits_ b)); [done|]. intros i d Hd. apply (Hr i); [lia|done].
  - cbn [exponent_]. case_match; lia.
Qed.

Lemma AssignUInt64_val b v :
  wf b -> 0 <= v < 2 ^ 64 ->
  exists b', AssignUInt64 b v = Some b' /\ big b' /\ val b' = v.
Proof.
  intros W Hv. unfold AssignUInt64. rewrite Zero_ok by done. cbn [mbind option_bind].
  destruct (Z.eqb_spec v 0) as [->|Hne].
  { exists Bignum_new. split; [done|split; [apply Bignum_new_big|]]. unfold val.
    rewrite zero_used; [done|apply Bignum_new_big|done]. }
  change (Z.to_nat (64 / kBigitSize + 1)) with 3%nat. rewrite EnsureCapacity_ok by (unfold kBigitCapacity; lia).
  cbn [mbind option_bind]. pose proof (big_wf _ Bignum_new_big) as W0.
  destruct (for_loop_inv (fun i '(bs, value') => prefix_done (bigits_ Bignum_new) bs i
      /\ 0 <= value' /\ value bs + value' * pw i = v) 3 0
    (fun i '(bs, value) =>
       bs ← set_bigit bs i (Chunk (Z.land value kBigitMask)); Some (bs, Z.shiftr value kBigitSize))
    (bigits_ Bignum_new, v)) as ([bs v'] & -> & Hpd & Hv' & E).
  - split; [apply prefix_done_refl, W0|]. split; [lia|]. rewrite pw_0.
    change (value (bigits_ Bignum_new)) with (mant Bignum_new). rewrite zero_used by done. lia.
  - intros i [bs v'] Hi (Hpd & Hv' & E). rewrite low_bigit, shiftr_bigit, Chunk_bigit by apply low_bigit_bigit.
    rewrite set_bigit_ok by (rewrite (pd_length _ _ _ Hpd), (wf_length _ W0); unfold kBigitCapacity; lia).
    cbn [mbind option_bind]. eexists. split; [reflexivity|].
    split; [apply prefix_done_insert; [done|apply low_bigit_bigit]|]. split; [apply Z.div_pos; [done|unfold B; lia]|].
    assert (Hd : bs !! i = Some 0).
    { rewrite (pd_rest _ _ _ Hpd) by lia. apply lookup_replicate_2. unfold kBigitCapacity. lia. }
    rewrite (value_insert _ _ 0), pw_S by done. pose proof (Z.div_mod v' B ltac:(unfold B; lia)). nia.
  - cbn [mbind option_bind Nat.add] in *.
    assert (v' = 0).
    { pose proof (value_bound bs (pd_bigits _ _ _ Hpd)). assert (pw 3 > 2 ^ 64) by reflexivity. nia. }
    destruct (Clamp_spec (mkBignum bs 3 0)) as (b' & Ec & G & Eval & _).
    + destruct Hpd as [H1 H2 H3]. split; cbn [bigits_ used_digits_]; [by rewrite H1|done|unfold kBigitCapacity; lia|].
      intros i d Hi. rewrite H3 by done. apply (wf_rest _ W0). cbn. lia.
    + exists b'. split; [exact Ec|split; [done|]]. rewrite Eval. unfold val, mant. cbn [bigits_ exponent_].
      rewrite pw_0. lia.
Qed.

(** The number decimal digits stand for. *)
Definition decimal (cs : list Z) : Z := fold_left (fun r c => r * 10 + (c - 48)) cs 0.
Definition decimal_digit (c : Z) : Prop := 48 <= c <= 57.

Lemma decimal_snoc cs c : decimal (cs ++ [c]) = decimal cs * 10 + (c - 48).
Proof. unfold decimal. by rewrite fold_left_app. Qed.

Lemma decimal_app l1 l2 : decimal (l1 ++ l2) = decimal l1 * 10 ^ Z.of_nat (length l2) + decimal l2.
Proof.
  induction l2 as [|c l2 IH] using rev_ind; [rewrite app_nil_r; unfold decimal at 3; cbn; lia|].
  rewrite app_assoc, !decimal_snoc, IH, length_app. cbn [length].
  rewrite Nat2Z.inj_add, Z.pow_add_r by lia. change (10 ^ Z.of_nat 1) with 10. lia.
Qed.

Lemma decimal_bound cs : Forall decimal_digit cs -> 0 <= decimal cs < 10 ^ Z.of_nat (length cs).
Proof.
  induction cs as [|c cs IH] using rev_ind; intros H; [by cbn|].
  apply Forall_app in H as [H Hc]. apply Forall_cons in Hc as [Hc _]. unfold decimal_digit in Hc.
  rewrite decimal_snoc, length_app. cbn [length]. rewrite Nat2Z.inj_add, Z.pow_add_r by lia.
  change (10 ^ Z.of_nat 1) with 10. specialize (IH H). lia.
Qed.

Definition chunk (buffer : list Z) (from n : nat) : list Z := take n (drop from buffer).

Lemma chunk_S buffer from n c :
  buffer !! (from + n)%nat = Some c -> chunk buffer from (S n) = chunk buffer from n ++ [c].
Proof. intros H. unfold chunk. apply take_S_r. by rewrite lookup_drop. Qed.

Lemma chunk_digits buffer from n : Forall decimal_digit buffer -> Forall decimal_digit (chunk buffer from n).
Proof. intros H. by apply Forall_take, Forall_drop. Qed.

Lemma length_chunk buffer from n : (from + n <= length buffer)%nat -> length (chunk buffer from n) = n.
Proof. intros H. unfold chunk. rewrite length_take, length_drop. lia. Qed.

Lemma ReadUInt64_spec buffer from n :
  Forall decimal_digit buffer -> (from + n <= length buffer)%nat -> (n <= 19)%nat ->
  ReadUInt64 buffer from n = Some (decimal (chunk buffer from n)).
Proof.
  intros Hd Hl Hn. unfold ReadUInt64.
  destruct (for_loop_inv (fun i r => (i - from <= n)%nat -> r = decimal (chunk buffer from (i - from))) n from
    (fun i result => c ← buffer !! i; Some (DoubleChunk (result * 10 + (c - 48)))) 0) as (r & -> & H).
  - intros _. by rewrite Nat.sub_diag.
  - intros i r Hi H. specialize (H ltac:(lia)).
    destruct (lookup_lt_is_Some_2 buffer i) as [c Hc]; [lia|]. rewrite Hc. cbn [mbind option_bind].
    eexists. split; [reflexivity|]. intros Hle. replace (S i - from)%nat with (S (i - from)) in * by lia.
    rewrite (chunk_S _ _ _ c) by by replace (from + (i - from))%nat with i by lia.
    rewrite decimal_snoc, <- H. apply DoubleChunk_small.
    pose proof (decimal_bound _ (chunk_digits buffer from (i - from) Hd)) as Hb.
    rewrite length_chunk, <- H in Hb by lia.
    assert (10 ^ Z.of_nat (i - from) <= 10 ^ 18) by (apply Z.pow_le_mono_r; lia).
    pose proof (Forall_lookup_1 _ _ _ _ Hd Hc) as Hcd. unfold decimal_digit in Hcd. lia.
  - f_equal. replace (from + n - from)%nat with n in H by lia. by apply H.
Qed.

Lemma mant_le_val b : big b -> mant b <= val b.
Proof.
  intros G. unfold val. pose proof (mant_bound b (big_wf b G)). pose proof (pw_pos (exponent_ b)). nia.
Qed.

(** The bigits a number needs. *)
Lemma BigitLength_bound b n : big b -> val b < pw n -> (BigitLength b <= n)%nat.
Proof.
  intros G Hv. unfold BigitLength. destruct (decide (used_digits_ b = 0%nat)) as [Hu|Hu].
  - rewrite (big_zero b G Hu), Hu. lia.
  - pose proof (big_top b G Hu). unfold val in Hv. pose proof (pw_pos (exponent_ b)).
    assert (pw (used_digits_ b - 1 + exponent_ b) < pw n) by (rewrite pw_add; nia).
    assert (used_digits_ b - 1 + exponent_ b < n)%nat by by apply pw_lt_inv. lia.
Qed.

Lemma AddUInt64_val b v :
  big b -> 0 <= v < 2 ^ 64 -> val b < pw 127 ->
  exists b', AddUInt64 b v = Some b' /\ big b' /\ val b' = val b + v.
Proof.
  intros G Hv Hfit. unfold AddUInt64. destruct (Z.eqb_spec v 0) as [->|].
  { exists b. split; [done|split; [done|lia]]. }
  destruct (AssignUInt64_val Bignum_new v (big_wf _ Bignum_new_big) Hv) as (o & -> & Go & Eo).
  cbn [mbind option_bind]. destruct (AddBignum_val b o G Go) as (b' & -> & G' & E').
  - pose proof (BigitLength_bound b 127 G Hfit). assert (Hp : 2 ^ 64 < pw 127) by reflexivity.
    pose proof (BigitLength_bound o 127 Go ltac:(lia)). unfold sum_fits, kBigitCapacity. lia.
  - exists b'. rewrite E', Eo. done.
Qed.

(** What [n] more digits do to a number. *)
Lemma append_digits b n v :
  big b -> val b * 10 ^ Z.of_nat n < pw 127 -> 0 <= v < 2 ^ 64 ->
  exists b1 b2, MultiplyByPowerOfTen b n = Some b1 /\ AddUInt64 b1 v = Some b2
    /\ big b2 /\ val b2 = val b * 10 ^ Z.of_nat n + v.
Proof.
  intros G Hfit Hv. pose proof (mant_le_val b G). pose proof (mant_bound b (big_wf b G)).
  assert (H5 : 5 ^ Z.of_nat n <= 10 ^ Z.of_nat n) by (apply Z.pow_le_mono_l; lia).
  assert (0 < 5 ^ Z.of_nat n) by (apply Z.pow_pos_nonneg; lia).
  destruct (MultiplyByPowerOfTen_val b n G) as (b1 & E1 & G1 & V1).
  { apply Z.le_lt_trans with (val b * 10 ^ Z.of_nat n); [|done]. apply Z.mul_le_mono_nonneg; lia. }
  destruct (AddUInt64_val b1 v G1 Hv) as (b2 & E2 & G2 & V2); [by rewrite V1|].
  exists b1, b2. split; [done|split; [done|split; [done|]]]. by rewrite V2, V1.
Qed.

Lemma chunk_app (cs : list Z) i n :
  (i + n <= length cs)%nat -> take (i + n) cs = take i cs ++ chunk cs i n.
Proof. intros H. unfold chunk. by rewrite take_take_drop. Qed.

Lemma digits_fit : 10 ^ 1070 < pw 127.
Proof. vm_compute. reflexivity. Qed.

Lemma AssignDecimalString_val b cs :
  wf b -> Forall decimal_digit cs -> (length cs <= 1070)%nat ->
  exists b', AssignDecimalString b cs = Some b' /\ big b' /\ val b' = decimal cs.
Proof.
  intros W Hd Hlen. unfold AssignDecimalString. rewrite Zero_ok by done. cbn [mbind option_bind].
  assert (Hfit : forall i n, (i + n <= length cs)%nat -> decimal (take i cs) * 10 ^ Z.of_nat n < pw 127).
  { intros i n Hi. pose proof (decimal_bound (take i cs) ltac:(by apply Forall_take)) as Hb.
    rewrite length_take_le in Hb by lia.
    apply Z.lt_trans with (10 ^ Z.of_nat i * 10 ^ Z.of_nat n).
    - apply Z.mul_lt_mono_pos_r; [apply Z.pow_pos_nonneg; lia|lia].
    - rewrite <- Z.pow_add_r by lia. eapply Z.le_lt_trans; [|exact digits_fit].
      apply Z.pow_le_mono_r; lia. }
  assert (Hsmall : forall i n, (i + n <= length cs)%nat -> (n <= 19)%nat ->
            0 <= decimal (chunk cs i n) < 2 ^ 64).
  { intros i n Hi Hn. pose proof (decimal_bound _ (chunk_digits cs i n Hd)) as Hb.
    rewrite length_chunk in Hb by done. assert (10 ^ Z.of_nat n <= 10 ^ 19) by (apply Z.pow_le_mono_r; lia). lia. }
  destruct (while_loop_inv (fun '(b, pos, len) => big b /\ val b = decimal (take pos cs)
      /\ (pos + len = length cs)%nat) (fun '(_, _, len) => len) (S (length cs))
    (fun '(_, _, len) => (kMaxUint64DecimalDigits <=? len)%nat)
    (fun '(b, pos, len) =>
       digits ← ReadUInt64 cs pos kMaxUint64DecimalDigits;
       b ← MultiplyByPowerOfTen b kMaxUint64DecimalDigits;
       b ← AddUInt64 b digits;
       Some (b, pos + kMaxUint64DecimalDigits, len - kMaxUint64DecimalDigits)%nat)
    (Bignum_new, 0%nat, length cs)) as ([[b1 pos] len] & -> & (G1 & V1 & Hpos) & Hend).
  - split; [apply Bignum_new_big|split; [|done]]. unfold val.
    rewrite (zero_used Bignum_new) by (done || apply Bignum_new_big). done.
  - lia.
  - intros [[b1 pos] len] (G1 & V1 & Hpos) Hge. breflect. unfold kMaxUint64DecimalDigits in *.
    rewrite ReadUInt64_spec by (done || lia). cbn [mbind option_bind].
    destruct (append_digits b1 19 (decimal (chunk cs pos 19)) G1) as (b2 & b3 & -> & E & G3 & V3).
    { rewrite V1. apply Hfit. lia. } { apply Hsmall; lia. }
    cbn [mbind option_bind]. rewrite E. cbn [mbind option_bind]. eexists. split; [reflexivity|].
    split; [|lia]. split; [done|split; [|lia]].
    rewrite V3, V1, chunk_app, decimal_app, length_chunk by lia. done.
  - cbn [mbind option_bind]. unfold kMaxUint64DecimalDigits in Hend. breflect.
    rewrite ReadUInt64_spec by (done || lia). cbn [mbind option_bind].
    destruct (append_digits b1 len (decimal (chunk cs pos len)) G1) as (b2 & b3 & -> & E & G3 & V3).
    { rewrite V1. apply Hfit. lia. } { apply Hsmall; lia. }
    cbn [mbind option_bind]. rewrite E. cbn [mbind option_bind].
    destruct (Clamp_spec b3 (big_wf b3 G3)) as (b4 & -> & G4 & V4 & _). exists b4.
    split; [done|split; [done|]]. rewrite V4, V3, V1.
    rewrite <- (take_ge cs (pos + len)) at 3 by lia. rewrite chunk_app, decimal_app, length_chunk by lia. done.
Qed.

(** ** Comparison *)

Lemma value_digit bs j d :
  Forall bigit bs -> bs !! j = Some d -> value bs / pw j mod B = d.
Proof.
  intros Hb Hd. pose proof (lookup_lt_Some _ _ _ Hd) as Hj.
  rewrite (value_split j), Nat.min_l by lia. rewrite (drop_S _ _ _ Hd). cbn [value].
  pose proof (value_bound (take j bs) ltac:(by apply Forall_take)) as Ht. rewrite length_take_le in Ht by lia.
  pose proof (Forall_lookup_1 _ _ _ _ Hb Hd) as Hdb. unfold bigit in Hdb. pose proof (pw_pos j).
  rewrite Z.add_comm, Z.mul_comm, Z.div_add_l, Z.div_small, Z.add_0_r by lia.
  rewrite Z.add_comm, (Z.mul_comm B), Z.add_comm, Z.mod_add, Z.mod_small by (unfold B in *; lia). done.
Qed.

Lemma val_bound b : big b -> 0 <= val b < pw (BigitLength b).
Proof.
  intros G. unfold val, BigitLength. rewrite pw_add. pose proof (mant_bound b (big_wf b G)).
  pose proof (pw_pos (exponent_ b)). nia.
Qed.

(** [BigitAt] reads the bigits of the number itself. *)
Lemma BigitAt_val b i : big b -> BigitAt b i = Some (val b / pw i mod B).
Proof.
  intros G. pose proof (pw_pos i). pose proof (val_bound b G) as Hv. pose proof (wf_used b (big_wf b G)).
  unfold BigitAt. destruct (Nat.leb_spec (BigitLength b) i) as [Hi|Hi].
  { rewrite Z.div_small; [done|]. pose proof (pw_mono _ _ Hi). lia. }
  unfold BigitLength in *. destruct (Nat.ltb_spec i (exponent_ b)) as [Hlt|Hge].
  - unfold val. replace (exponent_ b) with (S (exponent_ b - S i) + i)%nat at 1 by lia.
    rewrite pw_add, pw_S, !Z.mul_assoc, Z.div_mul by lia.
    rewrite (Z.mul_comm (mant b)), <- Z.mul_assoc, Z.mul_comm, Z.mod_mul by (unfold B; lia). done.
  - destruct (bigit_at b (i - exponent_ b) (big_wf b G)) as (d & Hd & _); [lia|]. rewrite Hd. f_equal.
    unfold val, mant. replace (pw i) with (pw (i - exponent_ b) * pw (exponent_ b)) by (rewrite <- pw_add; f_equal; lia).
    rewrite Z.div_mul_cancel_r by (pose proof (pw_pos (exponent_ b)); pose proof (pw_pos (i - exponent_ b)); lia).
    symmetry. apply value_digit; [apply G|done].
Qed.

Lemma div_pw_S v i : 0 <= v -> v / pw i = B * (v / pw (S i)) + v / pw i mod B.
Proof.
  intros Hv. pose proof (pw_pos i). replace (pw (S i)) with (pw i * B) by (rewrite pw_S; lia).
  rewrite <- Z.div_div by (unfold B; lia). apply Z.div_mod. unfold B. lia.
Qed.

Lemma div_mono_pw x y j i : (j <= i)%nat -> x / pw i < y / pw i -> x / pw j < y / pw j.
Proof.
  intros Hj Hlt. apply Z.nle_gt. intros Hle. apply Z.nle_gt in Hlt. apply Hlt.
  pose proof (pw_pos j) as H1. pose proof (pw_pos (i - j)) as H2.
  replace (pw i) with (pw j * pw (i - j)) by (rewrite <- pw_add; f_equal; lia).
  rewrite <- !Z.div_div by (exact H2 || (apply Z.lt_neq; exact H1) || (apply not_eq_sym, Z.lt_neq; exact H1)).
  by apply Z.div_le_mono.
Qed.

Lemma compare_from_spec a b n i :
  big a -> big b -> (n <= i)%nat -> val a / pw i = val b / pw i ->
  compare_from a b n i = Some (Z.sgn (val a / pw (i - n) - val b / pw (i - n))).
Proof.
  intros Ga Gb. pose proof (val_bound a Ga) as Ha. pose proof (val_bound b Gb) as Hb.
  revert i. induction n as [|n IH]; intros i Hi E; cbn [compare_from].
  { rewrite Nat.sub_0_r, E, Z.sub_diag. done. }
  destruct i as [|i]; [lia|]. replace (S i - 1)%nat with i by lia. replace (S i - S n)%nat with (i - n)%nat by lia.
  rewrite !BigitAt_val by done. cbn [mbind option_bind].
  pose proof (div_pw_S (val a) i ltac:(lia)) as Da. pose proof (div_pw_S (val b) i ltac:(lia)) as Db.
  rewrite E in Da.
  pose proof (div_mono_pw (val a) (val b) (i - n) i (Nat.le_sub_l i n)) as Hab.
  pose proof (div_mono_pw (val b) (val a) (i - n) i (Nat.le_sub_l i n)) as Hba.
  specialize (IH i ltac:(clear - Hi; lia)).
  set (qa := val a / pw (i - n)) in *. set (qb := val b / pw (i - n)) in *.
  set (da := val a / pw i mod B) in *. set (db := val b / pw i mod B) in *.
  set (xa := val a / pw i) in *. set (xb := val b / pw i) in *. set (h := val b / pw (S i)) in *.
  clearbody qa qb da db xa xb h.
  destruct (Z.ltb_spec da db); [f_equal; symmetry; apply Z.sgn_neg; lia|].
  destruct (Z.ltb_spec db da); [f_equal; symmetry; apply Z.sgn_pos; lia|].
  apply IH. lia.
Qed.

Lemma Compare_val a b : big a -> big b -> Compare a b = Some (Z.sgn (val a - val b)).
Proof.
  intros Ga Gb. unfold Compare. pose proof (val_bound a Ga) as Ha. pose proof (val_bound b Gb) as Hb.
  destruct (Nat.ltb_spec (BigitLength a) (BigitLength b)) as [Hlt|Hge].
  { f_equal. symmetry. apply Z.sgn_neg. destruct (Z.lt_ge_cases (val a) (val b)) as [|H]; [lia|].
    pose proof (BigitLength_bound b (BigitLength a) Gb ltac:(lia)). lia. }
  destruct (Nat.ltb_spec (BigitLength b) (BigitLength a)) as [Hlt|Hge'].
  { f_equal. symmetry. apply Z.sgn_pos. destruct (Z.lt_ge_cases (val b) (val a)) as [|H]; [lia|].
    pose proof (BigitLength_bound a (BigitLength b) Ga ltac:(lia)). lia. }
  assert (El : BigitLength a = BigitLength b) by lia.
  set (m := Nat.min (exponent_ a) (exponent_ b)). assert (Hm : (m <= BigitLength a)%nat) by (unfold m, BigitLength; lia).
  rewrite compare_from_spec; [|done|done|lia|rewrite !Z.div_small by (rewrite ?El in *; lia); done].
  replace (BigitLength a - (BigitLength a - m))%nat with m by lia. f_equal.
  assert (Hexact : forall c, (m <= exponent_ c)%nat -> val c = val c / pw m * pw m).
  { clearbody m. intros c Hc. unfold val. replace (exponent_ c) with (exponent_ c - m + m)%nat by lia.
    rewrite pw_add, Z.mul_assoc, Z.div_mul by (pose proof (pw_pos m); lia). done. }
  pose proof (Hexact a ltac:(unfold m; lia)) as Ea. pose proof (Hexact b ltac:(unfold m; lia)) as Eb.
  generalize dependent (val a / pw m). intros xa Ea. generalize dependent (val b / pw m). intros xb Eb.
  rewrite Ea, Eb, <- Z.mul_sub_distr_r, Z.sgn_mul, (Z.sgn_pos (pw m)) by apply pw_pos. by rewrite Z.mul_1_r.
Qed.

(** ** Subtraction *)

(** The borrow of a difference. *)
Lemma borrow_bit x :
  - B <= x < B ->
  exists c, 0 <= c <= 1 /\ Z.shiftr (Chunk x) (kChunkSize - 1) = c
    /\ Z.land (Chunk x) kBigitMask = x + c * B /\ bigit (x + c * B).
Proof.
  intros Hx. assert (H : exists c, 0 <= c <= 1 /\ Z.shiftr (Chunk x) (kChunkSize - 1) = c
                      /\ Chunk x mod B = x + c * B).
  { unfold kChunkSize, Chunk, uint, B in *. rewrite Z.shiftr_div_pow2 by lia. change (2 ^ (32 - 1)) with (2 ^ 31).
    destruct (Z.lt_ge_cases x 0); [exists 1|exists 0]; (split; [lia|split]); lia. }
  destruct H as (c & Hc & H1 & H2). exists c. rewrite low_bigit. pose proof (low_bigit_bigit (Chunk x)) as Hn.
  rewrite H2 in Hn. done.
Qed.

(** One bigit of a difference. *)
Lemma sub_bigit_spec bs pos d o borrow :
  Forall bigit bs -> bs !! pos = Some d -> bigit o -> 0 <= borrow <= 1 ->
  exists bs' borrow', sub_bigit bs pos o borrow = Some (bs', borrow') /\ 0 <= borrow' <= 1
    /\ length bs' = length bs /\ Forall bigit bs' /\ (forall j, j <> pos -> bs' !! j = bs !! j)
    /\ value bs' - borrow' * pw (S pos) = value bs - (o + borrow) * pw pos.
Proof.
  intros Hb Hd Ho Hc. pose proof (Forall_lookup_1 _ _ _ _ Hb Hd) as Hdb.
  unfold sub_bigit. rewrite Hd. cbn [mbind option_bind]. pose proof (lookup_lt_Some _ _ _ Hd) as Hlt.
  rewrite set_bigit_ok by done. cbn [mbind option_bind].
  destruct (borrow_bit (d - o - borrow)) as (c & Hc01 & -> & -> & Hn); [unfold bigit in *; lia|].
  eexists _, c. split; [reflexivity|]. split; [done|]. split; [by rewrite length_insert|].
  split; [by apply Forall_insert|]. split; [intros j Hj; by rewrite list_lookup_insert_ne by done|].
  rewrite (value_insert _ _ d), pw_S by done. nia.
Qed.

(** The bigits [other] takes away, from bigit [offset] on. *)
Lemma sub_loop b other offset T :
  big b -> big other -> (used_digits_ other + offset <= kBigitCapacity)%nat ->
  T = mant b - mant other * pw offset ->
  exists bs borrow,
    for_loop (used_digits_ other) 0
      (fun i '(bs, borrow) => o ← bigits_ other !! i; sub_bigit bs (i + offset) o borrow)
      (bigits_ b, 0) = Some (bs, borrow)
    /\ prefix_done (bigits_ b) bs (used_digits_ other + offset) /\ 0 <= borrow <= 1
    /\ value bs - borrow * pw (used_digits_ other + offset) = T.
Proof.
  intros G Go Hfit ->. pose proof (big_wf b G) as W. pose proof (big_wf other Go) as Wo.
  destruct (for_loop_inv (fun i '(bs, borrow) =>
      prefix_done (bigits_ b) bs (i + offset) /\ 0 <= borrow <= 1
      /\ value bs - borrow * pw (i + offset) = mant b - value (take i (bigits_ other)) * pw offset)
    (used_digits_ other) 0
    (fun i '(bs, borrow) => o ← bigits_ other !! i; sub_bigit bs (i + offset) o borrow) (bigits_ b, 0))
    as ([bs borrow] & -> & Hpd & Hc & Hv).
  - split; [by apply prefix_done_refl, W|]. split; [lia|]. rewrite take_0. cbn [value]. unfold mant. lia.
  - intros i [bs borrow] Hi ([Hl Hb Hr] & Hc & Hv). pose proof (wf_used other Wo).
    destruct (bigit_at other i Wo ltac:(lia)) as (o & Ho & Hob). rewrite Ho. cbn [mbind option_bind].
    destruct (bigit_at b (i + offset) W ltac:(lia)) as (d & Hd & _).
    rewrite <- Hr in Hd by lia.
    destruct (sub_bigit_spec bs (i + offset) d o borrow Hb Hd Hob Hc)
      as (bs' & borrow' & -> & Hc' & Hl' & Hb' & Hr' & Hv').
    eexists. split; [reflexivity|]. change (S i + offset)%nat with (S (i + offset)).
    split; [|split; [done|]].
    + split; [lia|done|]. intros j Hj. rewrite Hr' by lia. apply Hr. lia.
    + rewrite (value_take_S _ _ o Ho), Hv'. rewrite pw_add in *. lia.
  - exists bs, borrow. split; [done|]. rewrite Nat.add_0_l in *. rewrite <- mant_take in Hv by done. done.
Qed.

Definition borrow_inv (b : Bignum) (offset : nat) (T : Z) (s : list Z * Z * nat) : Prop :=
  let '(bs, borrow, i) := s in
  prefix_done (bigits_ b) bs (i + offset) /\ 0 <= borrow <= 1
  /\ value bs - borrow * pw (i + offset) = T /\ (i + offset <= used_digits_ b)%nat.

(** The borrow is used up before the bigits are. *)
Lemma borrow_loop b bs borrow offset i T :
  wf b -> borrow_inv b offset T (bs, borrow, i) -> 0 <= T ->
  exists bs' i',
    while_loop (S kBigitCapacity) (fun '(bs, borrow, i) => negb (borrow =? 0))
      (fun '(bs, borrow, i) => '(bs, borrow) ← sub_bigit bs (i + offset) 0 borrow; Some (bs, borrow, S i))
      (bs, borrow, i) = Some (bs', 0, i')
    /\ borrow_inv b offset T (bs', 0, i').
Proof.
  intros W H0 HT.
  destruct (while_loop_inv (borrow_inv b offset T)
    (fun '(_, _, i) => (kBigitCapacity - i)%nat) (S kBigitCapacity) (fun '(bs, borrow, i) => negb (borrow =? 0))
    (fun '(bs, borrow, i) => '(bs, borrow) ← sub_bigit bs (i + offset) 0 borrow; Some (bs, borrow, S i))
    (bs, borrow, i)) as ([[bs' c] pos] & -> & H & Hc); [done|lia| |].
  - intros [[bs1 c1] pos] ([Hl Hb Hr] & Hc & Hv & Hpos) Hne. breflect. pose proof (wf_used b W).
    assert (Hlt : (pos + offset < used_digits_ b)%nat).
    { destruct (decide (pos + offset < used_digits_ b)%nat) as [|Hge]; [done|exfalso].
      assert (Eu : (pos + offset)%nat = used_digits_ b) by lia.
      assert (W' : wf (with_bigits b bs1)) by (apply prefix_done_wf; [done|split; [done|done|by rewrite <- Eu]]).
      pose proof (mant_bound _ W') as Hm. change (mant (with_bigits b bs1)) with (value bs1) in Hm.
      cbn [with_bigits used_digits_] in Hm. rewrite <- Eu in Hm. nia. }
    destruct (bigit_at b (pos + offset) W ltac:(lia)) as (d & Hd & _). rewrite <- Hr in Hd by lia.
    destruct (sub_bigit_spec bs1 (pos + offset) d 0 c1 Hb Hd ltac:(unfold bigit, B; lia) Hc)
      as (bs2 & c2 & -> & Hc2 & Hl2 & Hb2 & Hr2 & Hv2).
    cbn [mbind option_bind]. eexists. split; [reflexivity|]. split; [|lia].
    split; [|split; [done|split; [cbn [Nat.add]; lia|lia]]].
    split; [lia|done|]. intros j Hj. rewrite Hr2 by lia. apply Hr. lia.
  - apply negb_false_iff, Z.eqb_eq in Hc. subst c. by exists bs', pos.
Qed.

Lemma SubtractBignum_val b other :
  big b -> big other -> val other <= val b ->
  (BigitLength b <= Nat.min (exponent_ b) (exponent_ other) + kBigitCapacity)%nat ->
  exists b', SubtractBignum b other = Some b' /\ big b' /\ val b' = val b - val other
    /\ (exponent_ b' <= Nat.min (exponent_ b) (exponent_ other))%nat.
Proof.
  intros G Go Hle Hfit. set (e := Nat.min (exponent_ b) (exponent_ other)) in *.
  unfold SubtractBignum, BigitLength in *.
  destruct (Align_spec b other G) as (b1 & -> & [G1 Hm1 He1] & Hu1); [lia|].
  fold e in Hm1, He1, Hu1. cbn [mbind option_bind]. rewrite He1.
  set (offset := (exponent_ other - e)%nat). set (T := mant b1 - mant other * pw offset).
  assert (Hval : val b - val other = T * pw e).
  { unfold T, val. rewrite Z.mul_sub_distr_r, Hm1, <- !Z.mul_assoc, <- !pw_add.
    f_equal; f_equal; f_equal; lia. }
  assert (HT : 0 <= T) by (pose proof (pw_pos e); nia). clearbody e.
  pose proof (big_wf b1 G1) as W1. pose proof (mant_bound b1 W1) as Hb1.
  assert (Hpos : (used_digits_ other + offset <= used_digits_ b1)%nat).
  { destruct (decide (used_digits_ other = 0%nat)) as [Hu|Hu].
    - pose proof (big_zero other Go Hu). lia.
    - pose proof (big_top other Go Hu). pose proof (pw_pos offset).
      assert (used_digits_ other - 1 + offset < used_digits_ b1)%nat; [|lia].
      apply pw_lt_inv. rewrite pw_add. unfold T in HT. nia. }
  pose proof (wf_used b1 W1).
  destruct (sub_loop b1 other offset T G1 Go) as (bs & borrow & -> & Hpd & Hc & Hv); [lia|done|].
  cbn [mbind option_bind].
  destruct (borrow_loop b1 bs borrow offset (used_digits_ other) T W1) as (bs' & i & -> & Hpd' & _ & Hv' & Hi);
    [done|done|].
  cbn [mbind option_bind]. destruct (Clamp_spec (with_bigits b1 bs')) as (b' & -> & G' & V' & E').
  { apply prefix_done_wf; [done|]. destruct Hpd' as [H1 H2 H3]. split; [done|done|].
    intros j Hj. apply H3. lia. }
  exists b'. split; [done|split; [done|]]. split; [|cbn in E'; lia]. rewrite V', Hval, <- Hv'. unfold val, mant.
  cbn [with_bigits bigits_ exponent_]. rewrite He1. lia.
Qed.

(** ** Concrete numbers *)

(** The bigits [ds], the lowest first, with the exponent [e]. *)
Definition num (ds : list Z) (e : nat) : Bignum :=
  mkBignum (ds ++ replicate (kBigitCapacity - length ds) 0) (length ds) e.

(** [big] as a check. *)
Definition is_big (b : Bignum) : bool :=
  (length (bigits_ b) =? kBigitCapacity)%nat
  && forallb (fun d => (0 <=? d) && (d <? B)) (bigits_ b)
  && (used_digits_ b <=? kBigitCapacity)%nat
  && forallb (fun d => d =? 0) (drop (used_digits_ b) (bigits_ b))
  && (if (used_digits_ b =? 0)%nat then (exponent_ b =? 0)%nat else IsClamped b).

Lemma is_big_sound b : is_big b = true -> big b.
Proof.
  unfold is_big. intros [[[[Hl Hb]%andb_true_iff Hu]%andb_true_iff Hr]%andb_true_iff Hc]%andb_true_iff.
  apply Nat.eqb_eq in Hl. apply Nat.leb_le in Hu.
  assert (Hbig : Forall bigit (bigits_ b)).
  { apply List.Forall_forall. intros d Hd. rewrite forallb_forall in Hb. specialize (Hb d Hd).
    apply andb_true_iff in Hb as [H1 H2]. unfold bigit. lia. }
  assert (W : wf b).
  { split; [done|done|done|]. intros i d Hi Hd. rewrite forallb_forall in Hr. apply Z.eqb_eq, Hr.
    apply list_elem_of_In, (list_elem_of_lookup_2 _ (i - used_digits_ b)). rewrite lookup_drop.
    by replace (used_digits_ b + (i - used_digits_ b))%nat with i by lia. }
  destruct (Nat.eqb_spec (used_digits_ b) 0) as [E|E].
  - apply Nat.eqb_eq in Hc. by split.
  - split; [done|done|]. intros _. unfold IsClamped in Hc.
    destruct (used_digits_ b) as [|u]; [done|]. replace (S u - 1)%nat with u by lia.
    destruct (bigits_ b !! u) as [d|] eqn:Ed; [|done]. apply negb_true_iff, Z.eqb_neq in Hc.
    pose proof (value_ge _ _ _ Hbig Ed). pose proof (Forall_lookup_1 _ _ _ _ Hbig Ed) as Hd.
    pose proof (pw_pos u). unfold mant, bigit in *. nia.
Qed.

(** ** The main theorems *)

(** The product with a power of ten is exact, and it stays inside the
    array, as long as the mantissa times the power of five leaves a bigit free
    of the 128: 5^27 is split off with 64-bit factors, 5^13 and the rest with
    32-bit factors, the powers of two become the exponent and a local shift. *)
Theorem MultiplyByPowerOfTen_correct b e :
  big b -> mant b * 5 ^ Z.of_nat e < pw 127 ->
  exists b', MultiplyByPowerOfTen b e = Some b' /\ big b' /\ val b' = val b * 10 ^ Z.of_nat e.
Proof. apply MultiplyByPowerOfTen_val. Qed.

Lemma MultiplyByPowerOfTen_correct_witness :
  exists b', MultiplyByPowerOfTen (num [7; 3] 1) 100 = Some b' /\ big b'
    /\ val b' = val (num [7; 3] 1) * 10 ^ Z.of_nat 100.
Proof.
  apply (MultiplyByPowerOfTen_correct (num [7; 3] 1) 100); [apply is_big_sound|]; vm_compute; reflexivity.
Defined.

(** Numbers of different exponents are added exactly: the alignment, the
    bigits of the other number and the carry that runs past them; the sum is
    clamped again.  One bigit of the 128 has to be free above the lower
    exponent. *)
Theorem AddBignum_correct b other :
  big b -> big other -> sum_fits b other ->
  exists b', AddBignum b other = Some b' /\ big b' /\ val b' = val b + val other.
Proof. apply AddBignum_val. Qed.

Lemma AddBignum_correct_witness :
  let a := num [B - 1; B - 1] 3 in let b := num [1] 3 in
  exists b', AddBignum a b = Some b' /\ big b' /\ val b' = val a + val b.
Proof.
  apply (AddBignum_correct (num [B - 1; B - 1] 3) (num [1] 3)).
  - apply is_big_sound. vm_compute. reflexivity.
  - apply is_big_sound. vm_compute. reflexivity.
  - apply Nat.ltb_lt. vm_compute. reflexivity.
Defined.

(** The difference is exact when it is not negative: the borrow is used up
    inside the longer number, and the result is clamped. *)
Theorem SubtractBignum_correct b other :
  big b -> big other -> val other <= val b ->
  (BigitLength b <= Nat.min (exponent_ b) (exponent_ other) + kBigitCapacity)%nat ->
  exists b', SubtractBignum b other = Some b' /\ big b' /\ val b' = val b - val other.
Proof.
  intros G Go Hle Hfit. destruct (SubtractBignum_val b other G Go Hle Hfit) as (b' & E & G' & V' & _).
  by exists b'.
Qed.

Lemma SubtractBignum_correct_witness :
  let a := num [1] 5 in let b := num [3; 9] 1 in
  exists b', SubtractBignum a b = Some b' /\ big b' /\ val b' = val a - val b.
Proof.
  apply (SubtractBignum_correct (num [1] 5) (num [3; 9] 1)).
  - apply is_big_sound. vm_compute. reflexivity.
  - apply is_big_sound. vm_compute. reflexivity.
  - vm_compute. discriminate.
  - apply Nat.leb_le. vm_compute. reflexivity.
Defined.

(** A string of at most 1070 decimal digits is read as the number it
    denotes, whatever the bignum held before; the 19 digits of a step fit
    into 64 bits and no step needs more than the 128 bigits. *)
Theorem AssignDecimalString_correct b cs :
  wf b -> Forall decimal_digit cs -> (length cs <= 1070)%nat ->
  exists b', AssignDecimalString b cs = Some b' /\ big b' /\ val b' = decimal cs.
Proof. apply AssignDecimalString_val. Qed.

Lemma AssignDecimalString_correct_witness :
  exists b', AssignDecimalString (num [5] 0) (replicate 40 57) = Some b' /\ big b'
    /\ val b' = decimal (replicate 40 57).
Proof.
  apply (AssignDecimalString_correct (num [5] 0) (replicate 40 57)).
  - apply big_wf, is_big_sound. vm_compute. reflexivity.
  - apply Forall_replicate. unfold decimal_digit. lia.
  - apply Nat.leb_le. vm_compute. reflexivity.
Defined.

(** [Compare] gives the sign of the difference: clamped numbers of
    different lengths are ordered by them, and the bigits above the lower
    exponent decide otherwise. *)
Theorem Compare_correct a b : big a -> big b -> Compare a b = Some (Z.sgn (val a - val b)).
Proof. apply Compare_val. Qed.

Lemma Compare_correct_witness :
  let a := num [0; 1] 2 in let b := num [5; 0; 1] 1 in
  Compare a b = Some (Z.sgn (val a - val b)).
Proof. apply (Compare_correct (num [0; 1] 2) (num [5; 0; 1] 1)); apply is_big_sound; vm_compute; reflexivity. Defined.
