(* ===== verification/BignumArith.v ===== *)
(** * BignumArith: products, powers, quotients and hexadecimal strings

    Models the rest of src/bignum.cc on top of [Bignum]: the Comba squaring,
    powers of small integers, the comparison of a sum, the quotient by repeated
    subtraction and the conversions from and to hexadecimal. *)

From S2P Require Import Prelude Bignum.

Open Scope Z_scope.

Ltac Zify.zify_post_hook ::= idtac.

(** ** Squares *)

(** The inner loops of [Square]: a column of products of the copied bigits. *)
Definition column (cond : Z -> Z -> bool) (bs : list Z) (copy_offset : nat)
    (bigit_index1 bigit_index2 accumulator : Z) : option Z :=
  '(_, _, accumulator) ← while_loop (S kBigitCapacity) (fun '(i1, i2, _) => cond i1 i2)
    (fun '(i1, i2, accumulator) =>
       chunk1 ← bs !! Z.to_nat (Z.of_nat copy_offset + i1);
       chunk2 ← bs !! Z.to_nat (Z.of_nat copy_offset + i2);
       Some (i1 - 1, i2 + 1, DoubleChunk (accumulator + DoubleChunk (chunk1 * chunk2))))
    (bigit_index1, bigit_index2, accumulator);
  Some accumulator.

(** What both outer loops do with a column. *)
Definition store_column (bs : list Z) (i : nat) (accumulator : Z) : option (list Z * Z) :=
  bs ← set_bigit bs i (Z.land (Chunk accumulator) kBigitMask);
  Some (bs, Z.shiftr accumulator kBigitSize).

Definition Square (b : Bignum) : option Bignum :=
  let used := used_digits_ b in
  let product_length := (2 * used)%nat in
  _ ← EnsureCapacity product_length;
  if Z.shiftl 1 (2 * (kChunkSize - kBigitSize)) <=? Z.of_nat used then None
  else
    let copy_offset := used in
    bs ← for_loop used 0 (fun i bs => d ← bs !! i; set_bigit bs (copy_offset + i) d) (bigits_ b);
    '(bs, accumulator) ← for_loop used 0
      (fun i '(bs, accumulator) =>
         accumulator ← column (fun i1 _ => 0 <=? i1) bs copy_offset (Z.of_nat i) 0 accumulator;
         store_column bs i accumulator) (bs, 0);
    '(bs, _) ← for_loop (product_length - used) used
      (fun i '(bs, accumulator) =>
         let bigit_index1 := Z.of_nat used - 1 in
         accumulator ← column (fun _ i2 => i2 <? Z.of_nat used) bs copy_offset
                         bigit_index1 (Z.of_nat i - bigit_index1) accumulator;
         store_column bs i accumulator) (bs, accumulator);
    Clamp (mkBignum bs product_length (exponent_ b * 2)).

(** ** Powers *)

Definition max_32bits := 0xFFFFFFFF.

(** An iteration of the loop in 64 bits: squares, and multiplies by the base if
    there is room. *)
Definition power_step (base bit_size power_exponent : Z) (s : Z * Z * bool) : Z * Z * bool :=
  let '(mask, this_value, delayed) := s in
  let this_value := DoubleChunk (this_value * this_value) in
  let '(this_value, delayed) :=
    if negb (Z.land power_exponent mask =? 0) then
      let base_bits_mask := Z.lxor (DoubleChunk (Z.shiftl 1 (64 - bit_size) - 1)) (2 ^ 64 - 1) in
      if Z.land this_value base_bits_mask =? 0 then (DoubleChunk (this_value * base), delayed)
      else (this_value, true)
    else (this_value, delayed) in
  (Z.shiftr mask 1, this_value, delayed).

(** [base] is a [uint16_t]; its loops end after at most 16 halvings.  The [int]s
    [power_exponent] and [mask] stay below 2^31. *)
Definition AssignPowerUInt16 (b : Bignum) (base : Z) (power_exponent : Z) : option Bignum :=
  if power_exponent =? 0 then AssignUInt16 b 1
  else
    b ← Zero b;
    '(base, shifts) ← while_loop 17 (fun '(base, _) => Z.land base 1 =? 0)
      (fun '(base, shifts) => Some (Z.shiftr base 1, shifts + 1)) (base, 0);
    '(_, bit_size) ← while_loop 17 (fun '(tmp_base, _) => negb (tmp_base =? 0))
      (fun '(tmp_base, bit_size) => Some (Z.shiftr tmp_base 1, bit_size + 1)) (base, 0);
    let final_size := bit_size * power_exponent in
    _ ← EnsureCapacity (Z.to_nat (final_size / kBigitSize + 2));
    mask ← while_loop 32 (fun mask => mask <=? power_exponent)
      (fun mask => Some (Z.shiftl mask 1)) 1;
    '(mask, this_value, delayed) ← while_loop 32
      (fun '(mask, this_value, _) => negb (mask =? 0) && (this_value <=? max_32bits))
      (fun s => Some (power_step base bit_size power_exponent s)) (Z.shiftr mask 2, base, false);
    b ← AssignUInt64 b this_value;
    b ← (if (delayed : bool) then MultiplyByUInt32 b base else Some b);
    '(b, _) ← while_loop 32 (fun '(_, mask) => negb (mask =? 0))
      (fun '(b, mask) =>
         b ← Square b;
         b ← (if negb (Z.land power_exponent mask =? 0) then MultiplyByUInt32 b base else Some b);
         Some (b, Z.shiftr mask 1)) (b, mask);
    ShiftLeft b (shifts * power_exponent).

(** ** Comparison of a sum *)

(** The loop from bigit [i - 1] downwards, [n] times. *)
Fixpoint plus_compare_from (a b c : Bignum) (n i : nat) (borrow : Z) : option Z :=
  match n with
  | O => Some (if borrow =? 0 then 0 else -1)
  | S n =>
      chunk_a ← BigitAt a (i - 1);
      chunk_b ← BigitAt b (i - 1);
      chunk_c ← BigitAt c (i - 1);
      let sum := Chunk (chunk_a + chunk_b) in
      if Chunk (chunk_c + borrow) <? sum then Some 1
      else
        let borrow := Chunk (chunk_c + borrow - sum) in
        if 1 <? borrow then Some (-1)
        else plus_compare_from a b c n (i - 1) (Chunk (Z.shiftl borrow kBigitSize))
  end.

(** The body, once [a] is the longer one. *)
Definition plus_compare (a b c : Bignum) : option Z :=
  if (BigitLength a + 1 <? BigitLength c)%nat then Some (-1)
  else if (BigitLength c <? BigitLength a)%nat then Some 1
  else if ((BigitLength b <=? exponent_ a) && (BigitLength a <? BigitLength c))%nat then Some (-1)
  else
    let min_exponent := Nat.min (Nat.min (exponent_ a) (exponent_ b)) (exponent_ c) in
    plus_compare_from a b c (BigitLength c - min_exponent) (BigitLength c) 0.

Definition PlusCompare (a b c : Bignum) : option Z :=
  if (BigitLength a <? BigitLength b)%nat then plus_compare b a c else plus_compare a b c.

(** ** Quotients *)

(** The second loop advances [i] twice in each iteration; the value that comes
    with the bigits says that the loop returned early. *)
Fixpoint subtract_rest (fuel : nat) (bs : list Z) (used i : nat) (borrow : Z) : option (list Z * bool) :=
  if (i <? used)%nat then
    match fuel with
    | O => None
    | S fuel =>
        if borrow =? 0 then Some (bs, true)
        else
          d ← bs !! i;
          let difference := Chunk (d - borrow) in
          bs ← set_bigit bs i (Z.land difference kBigitMask);
          subtract_rest fuel bs used (i + 2) (Z.shiftr difference (kChunkSize - 1))
    end
  else Some (bs, false).

Definition SubtractTimes (b other : Bignum) (factor : Z) : option Bignum :=
  if factor <? 3 then for_loop (Z.to_nat factor) 0 (fun _ b => SubtractBignum b other) b
  else
    let exponent_diff := (exponent_ other - exponent_ b)%nat in
    '(bs, borrow) ← for_loop (used_digits_ other) 0
      (fun i '(bs, borrow) =>
         o ← bigits_ other !! i;
         let product := DoubleChunk (factor * o) in
         let remove := DoubleChunk (borrow + product) in
         d ← bs !! (i + exponent_diff)%nat;
         let difference := Chunk (d - Chunk (Z.land remove kBigitMask)) in
         bs ← set_bigit bs (i + exponent_diff) (Z.land difference kBigitMask);
         Some (bs, Chunk (Z.shiftr difference (kChunkSize - 1) + Z.shiftr remove kBigitSize)))
      (bigits_ b, 0);
    '(bs, early) ← subtract_rest kBigitCapacity bs (used_digits_ b) (used_digits_ other + exponent_diff) borrow;
    if (early : bool) then Some (with_bigits b bs) else Clamp (with_bigits b bs).

Definition LessEqual (a b : Bignum) : option bool := c ← Compare a b; Some (c <=? 0).

(** Iterations the loops of [DivideModuloIntBignum] are given: the quotient is
    below 2^16. *)
Definition division_fuel : nat := Z.to_nat 65537.

(** The remainder and the quotient, a [uint16_t]. *)
Definition DivideModuloIntBignum (b other : Bignum) : option (Bignum * Z) :=
  if (BigitLength b <? BigitLength other)%nat then Some (b, 0)
  else
    b ← Align b other;
    '(b, result) ← while_loop division_fuel (fun '(b, _) => (BigitLength other <? BigitLength b)%nat)
      (fun '(b, result) =>
         d ← bigits_ b !! (used_digits_ b - 1)%nat;
         b ← SubtractTimes b other d;
         Some (b, uint 16 (result + d))) (b, 0);
    this_bigit ← bigits_ b !! (used_digits_ b - 1)%nat;
    other_bigit ← bigits_ other !! (used_digits_ other - 1)%nat;
    if (used_digits_ other =? 1)%nat then
      let quotient := this_bigit / other_bigit in
      bs ← set_bigit (bigits_ b) (used_digits_ b - 1) (Chunk (this_bigit - other_bigit * quotient));
      b ← Clamp (with_bigits b bs);
      Some (b, uint 16 (result + quotient))
    else
      let division_estimate := this_bigit / (other_bigit + 1) in
      let result := uint 16 (result + division_estimate) in
      b ← SubtractTimes b other division_estimate;
      if this_bigit <? Chunk (other_bigit * (division_estimate + 1)) then Some (b, result)
      else
        le ← LessEqual other b;
        '(b, result, _) ← while_loop division_fuel (fun '(_, _, le) => (le : bool))
          (fun '(b, result, _) =>
             b ← SubtractBignum b other;
             le ← LessEqual other b;
             Some (b, uint 16 (result + 1), le)) (b, result, le);
        Some (b, result).

(** ** Hexadecimal strings *)

Definition HexCharValue (c : Z) : option Z :=
  if (48 <=? c) && (c <=? 57) then Some (c - 48)
  else if (97 <=? c) && (c <=? 102) then Some (10 + c - 97)
  else if (65 <=? c) && (c <=? 70) then Some (10 + c - 65)
  else None.

Definition kHexCharsPerBigit : nat := Z.to_nat (kBigitSize / 4).

Definition AssignHexString (b : Bignum) (value : list Z) : option Bignum :=
  b ← Zero b;
  let length := length value in
  let needed_bigits := (length * 4 / Z.to_nat kBigitSize + 1)%nat in
  _ ← EnsureCapacity needed_bigits;
  '(bs, string_index) ← for_loop (needed_bigits - 1) 0
    (fun i '(bs, string_index) =>
       '(current_bigit, string_index) ← for_loop kHexCharsPerBigit 0
         (fun j '(current_bigit, string_index) =>
            c ← value !! Z.to_nat string_index; v ← HexCharValue c;
            Some (Chunk (current_bigit + Z.shiftl v (Z.of_nat j * 4)), string_index - 1))
         (0, string_index);
       bs ← set_bigit bs i current_bigit; Some (bs, string_index))
    (bigits_ b, Z.of_nat length - 1);
  let used := (needed_bigits - 1)%nat in
  most_significant_bigit ← for_loop (Z.to_nat (string_index + 1)) 0
    (fun j most_significant_bigit =>
       c ← value !! j; v ← HexCharValue c;
       Some (Chunk (Chunk (Z.shiftl most_significant_bigit 4) + v))) 0;
  if most_significant_bigit =? 0 then Clamp (mkBignum bs used 0)
  else bs ← set_bigit bs used most_significant_bigit; Clamp (mkBignum bs (S used) 0).

(** [fuel] bounds the number of hexadecimal digits. *)
Definition SizeInHexChars (number : Z) : option Z :=
  '(_, result) ← while_loop 9 (fun '(number, _) => negb (number =? 0))
    (fun '(number, result) => Some (Z.shiftr number 4, result + 1)) (number, 0);
  Some result.

Definition HexCharOfValue (value : Z) : Z := if value <? 10 then value + 48 else value - 10 + 65.

(** [buffer[string_index--] = c]. *)
Definition put_back (buffer : list Z) (string_index : Z) (c : Z) : option (list Z * Z) :=
  if (0 <=? string_index) && (Z.to_nat string_index <? length buffer)%nat
  then Some (<[Z.to_nat string_index := c]> buffer, string_index - 1) else None.

(** [buffer_size] is the length of [buffer]; the buffer and whether the number
    fits. *)
Definition ToHexString (b : Bignum) (buffer : list Z) : option (list Z * bool) :=
  let buffer_size := Z.of_nat (length buffer) in
  if (used_digits_ b =? 0)%nat then
    if buffer_size <? 2 then Some (buffer, false) else Some (<[1%nat := 0]> (<[0%nat := 48]> buffer), true)
  else
    top ← bigits_ b !! (used_digits_ b - 1)%nat;
    size ← SizeInHexChars top;
    let needed_chars := (Z.of_nat (BigitLength b) - 1) * Z.of_nat kHexCharsPerBigit + size + 1 in
    if buffer_size <? needed_chars then Some (buffer, false)
    else
      s ← put_back buffer (needed_chars - 1) 0;
      s ← for_loop (exponent_ b) 0
        (fun _ s => for_loop kHexCharsPerBigit 0
           (fun _ '(buffer, string_index) => put_back buffer string_index 48) s) s;
      s ← for_loop (used_digits_ b - 1) 0
        (fun i s =>
           d ← bigits_ b !! i;
           '(s, _) ← for_loop kHexCharsPerBigit 0
             (fun _ '((buffer, string_index), current_bigit) =>
                s ← put_back buffer string_index (HexCharOfValue (Z.land current_bigit 15));
                Some (s, Z.shiftr current_bigit 4)) (s, d);
           Some s) s;
      '(s, _) ← while_loop 9 (fun '(_, most_significant_bigit) => negb (most_significant_bigit =? 0))
        (fun '((buffer, string_index), most_significant_bigit) =>
           s ← put_back buffer string_index (HexCharOfValue (Z.land most_significant_bigit 15));
           Some (s, Z.shiftr most_significant_bigit 4)) (s, top);
      Some (fst s, true).

(** ** Comparison of a sum: proof *)

Lemma div_scale x i j :
  (j <= i)%nat -> pw (i - j) * (x / pw i) <= x / pw j < pw (i - j) * (x / pw i + 1).
Proof.
  intros Hj. pose proof (pw_pos j) as H1. pose proof (pw_pos (i - j)) as H2.
  replace (pw i) with (pw j * pw (i - j)) by (rewrite <- pw_add; f_equal; lia).
  rewrite <- Z.div_div by lia. pose proof (Z.div_mod (x / pw j) (pw (i - j)) ltac:(lia)).
  pose proof (Z.mod_pos_bound (x / pw j) (pw (i - j)) H2). lia.
Qed.

Lemma plus_compare_from_spec a b c n i d :
  big a -> big b -> big c -> (n <= i)%nat ->
  d = val c / pw i - (val a / pw i + val b / pw i) -> 0 <= d <= 1 ->
  plus_compare_from a b c n i (d * B)
  = Some (Z.sgn (val a / pw (i - n) + val b / pw (i - n) - val c / pw (i - n))).
Proof.
  intros Ga Gb Gc. pose proof (val_bound a Ga) as [Ha _]. pose proof (val_bound b Gb) as [Hb _].
  pose proof (val_bound c Gc) as [Hc _]. revert i d.
  induction n as [|n IH]; intros i d Hi E Hd; cbn [plus_compare_from].
  { rewrite Nat.sub_0_r. f_equal. destruct (Z.eqb_spec (d * B) 0); unfold B in *.
    - symmetry. apply Z.sgn_null. lia.
    - symmetry. apply Z.sgn_neg. lia. }
  destruct i as [|i]; [lia|]. replace (S i - 1)%nat with i by lia. replace (S i - S n)%nat with (i - n)%nat by lia.
  rewrite !BigitAt_val by done. cbn [mbind option_bind].
  pose proof (div_pw_S (val a) i Ha) as Da. pose proof (div_pw_S (val b) i Hb) as Db.
  pose proof (div_pw_S (val c) i Hc) as Dc.
  pose proof (low_bigit_bigit (val a / pw i)) as Ba. pose proof (low_bigit_bigit (val b / pw i)) as Bb.
  pose proof (low_bigit_bigit (val c / pw i)) as Bc. unfold bigit in *.
  pose proof (div_scale (val a) i (i - n) (Nat.le_sub_l i n)) as Sa.
  pose proof (div_scale (val b) i (i - n) (Nat.le_sub_l i n)) as Sb.
  pose proof (div_scale (val c) i (i - n) (Nat.le_sub_l i n)) as Sc.
  pose proof (pw_pos (i - (i - n))) as Hp.
  set (ca := val a / pw i mod B) in *. set (cb := val b / pw i mod B) in *. set (cc := val c / pw i mod B) in *.
  set (e := val c / pw i - (val a / pw i + val b / pw i)).
  assert (He : e = d * B + cc - (ca + cb)) by (unfold e; lia).
  assert (Es : Chunk (ca + cb) = ca + cb) by (unfold Chunk, uint, B in *; apply Z.mod_small; lia).
  assert (Ec : Chunk (cc + d * B) = cc + d * B) by (unfold Chunk, uint, B in *; apply Z.mod_small; lia).
  rewrite Es, Ec. destruct (Z.ltb_spec (cc + d * B) (ca + cb)) as [Hlt|Hge].
  { f_equal. symmetry. apply Z.sgn_pos. assert (val c / pw i + 1 <= val a / pw i + val b / pw i) by lia. nia. }
  replace (cc + d * B - (ca + cb)) with e by lia.
  assert (Ee : Chunk e = e) by (unfold Chunk, uint, B in *; apply Z.mod_small; lia). rewrite Ee.
  destruct (Z.ltb_spec 1 e) as [Hlt|Hle].
  { f_equal. symmetry. apply Z.sgn_neg. assert (val a / pw i + val b / pw i + 2 <= val c / pw i) by lia. nia. }
  replace (Chunk (Z.shiftl e kBigitSize)) with (e * B).
  - apply IH; [lia|done|lia].
  - unfold kBigitSize. rewrite Z.shiftl_mul_pow2 by lia. symmetry. apply Z.mod_small. unfold B. lia.
Qed.

(** A number is a multiple of its exponent's power. *)
Lemma val_div_exact b m : (m <= exponent_ b)%nat -> val b = val b / pw m * pw m.
Proof.
  intros Hm. unfold val. replace (exponent_ b) with (exponent_ b - m + m)%nat by lia.
  pose proof (pw_pos m). rewrite pw_add, Z.mul_assoc, Z.div_mul by lia. done.
Qed.

(** A longer number is the greater one. *)
Lemma BigitLength_lower b n : big b -> (n < BigitLength b)%nat -> pw n <= val b.
Proof.
  intros G Hn. destruct (Z.lt_ge_cases (val b) (pw n)) as [H|H]; [|lia].
  pose proof (BigitLength_bound b n G H). lia.
Qed.

Lemma pw_double n : 2 * pw n <= pw (S n).
Proof. rewrite pw_S. pose proof (pw_pos n). unfold B. lia. Qed.

Lemma plus_compare_val a b c :
  big a -> big b -> big c -> (BigitLength b <= BigitLength a)%nat ->
  plus_compare a b c = Some (Z.sgn (val a + val b - val c)).
Proof.
  intros Ga Gb Gc Hba. unfold plus_compare.
  pose proof (val_bound a Ga) as Ha. pose proof (val_bound b Gb) as Hb. pose proof (val_bound c Gc) as Hc.
  pose proof (pw_mono _ _ Hba) as Hpba.
  destruct (Nat.ltb_spec (BigitLength a + 1) (BigitLength c)) as [H1|H1].
  { f_equal. symmetry. apply Z.sgn_neg. pose proof (BigitLength_lower c (BigitLength a + 1) Gc H1) as Hl.
    rewrite Nat.add_1_r in Hl. pose proof (pw_double (BigitLength a)). lia. }
  destruct (Nat.ltb_spec (BigitLength c) (BigitLength a)) as [H2|H2].
  { f_equal. symmetry. apply Z.sgn_pos. pose proof (BigitLength_lower a _ Ga H2). lia. }
  destruct (andb ((BigitLength b <=? exponent_ a)%nat) ((BigitLength a <? BigitLength c)%nat)) eqn:H3.
  { breflect. f_equal. symmetry. apply Z.sgn_neg.
    pose proof (BigitLength_lower c (BigitLength a) Gc ltac:(lia)) as Hl.
    pose proof (pw_mono (BigitLength b) (exponent_ a) ltac:(lia)) as Hpe.
    unfold BigitLength in Hl at 1. rewrite pw_add in Hl. unfold val in *.
    pose proof (mant_bound a (big_wf a Ga)). pose proof (pw_pos (exponent_ a)). nia. }
  clear H3. set (m := Nat.min (Nat.min (exponent_ a) (exponent_ b)) (exponent_ c)).
  assert (Hm : (m <= BigitLength c)%nat) by (unfold m, BigitLength; lia).
  assert (Hz : forall x, 0 <= x < pw (BigitLength a) -> x / pw (BigitLength c) = 0).
  { intros x Hx. apply Z.div_small. pose proof (pw_mono _ _ H2). lia. }
  rewrite (plus_compare_from_spec a b c _ _ 0); [|done|done|done|lia| |lia].
  - replace (BigitLength c - (BigitLength c - m))%nat with m by lia. f_equal.
    pose proof (val_div_exact a m ltac:(unfold m; lia)) as Ea.
    pose proof (val_div_exact b m ltac:(unfold m; lia)) as Eb.
    pose proof (val_div_exact c m ltac:(unfold m; lia)) as Ec.
    rewrite Ea, Eb, Ec at 2. rewrite <- Z.mul_add_distr_r, <- Z.mul_sub_distr_r, Z.sgn_mul.
    rewrite (Z.sgn_pos (pw m)) by apply pw_pos. lia.
  - rewrite (Hz (val a)), (Hz (val b)), Z.div_small by lia. done.
Qed.

Lemma PlusCompare_val a b c :
  big a -> big b -> big c -> PlusCompare a b c = Some (Z.sgn (val a + val b - val c)).
Proof.
  intros Ga Gb Gc. unfold PlusCompare. destruct (Nat.ltb_spec (BigitLength a) (BigitLength b)).
  - rewrite plus_compare_val by (done || lia). do 2 f_equal. lia.
  - apply plus_compare_val; done || lia.
Qed.

(** ** Squares: proof *)

(** Column [k] of the product of the bigits [f] and [g]. *)
Fixpoint conv (f : list Z) (g : nat -> Z) (k : nat) : Z :=
  match f with
  | [] => 0
  | x :: f => x * g k + match k with O => 0 | S k => conv f g k end
  end.

(** The first [n] columns. *)
Fixpoint columns (f : list Z) (g : nat -> Z) (n : nat) : Z :=
  match n with O => 0 | S n => columns f g n + conv f g n * pw n end.

Definition digit (l : list Z) (j : nat) : Z := default 0 (l !! j).

Lemma digit_bigit l j : Forall bigit l -> bigit (digit l j).
Proof.
  intros H. unfold digit. destruct (l !! j) as [d|] eqn:E; [by eapply Forall_lookup_1|].
  unfold bigit, B; cbn; lia.
Qed.

Lemma columns_nil g n : columns [] g n = 0.
Proof. induction n as [|n IH]; cbn [columns conv]; lia. Qed.

Lemma columns_cons x f g n :
  columns (x :: f) g (S n) = x * columns [1] g (S n) + B * columns f g n.
Proof.
  induction n as [|n IH]; [cbn [columns conv]; lia|].
  change (columns (x :: f) g (S (S n))) with (columns (x :: f) g (S n) + conv (x :: f) g (S n) * pw (S n)).
  rewrite IH. cbn [columns conv]. rewrite (pw_S n). destruct n; cbn [conv]; lia.
Qed.

Lemma columns_one l n : columns [1] (digit l) n = value (take n l).
Proof.
  induction n as [|n IH]; [done|]. cbn [columns conv].
  replace (match n with O => 0 | S _ => 0 end) with 0 by by destruct n.
  rewrite IH. unfold digit. destruct (l !! n) as [d|] eqn:E; cbn [default].
  - rewrite (value_take_S _ _ _ E). cbn. lia.
  - apply lookup_ge_None in E. rewrite !take_ge by lia. cbn. lia.
Qed.

(** All columns together are the product. *)
Lemma columns_product f l n :
  (length l <= n)%nat -> columns f (digit l) (length f + n) = value f * value l.
Proof.
  intros Hn. induction f as [|x f IH]; cbn [length value]; [rewrite columns_nil; lia|].
  change (S (length f) + n)%nat with (S (length f + n)). rewrite columns_cons, IH, columns_one, take_ge by lia. lia.
Qed.

Lemma conv_bound f g k :
  Forall bigit f -> (forall j, bigit (g j)) -> 0 <= conv f g k <= Z.of_nat (length f) * 2 ^ 56.
Proof.
  intros Hf Hg. revert k. induction Hf as [|x f Hx _ IH]; intros k; cbn [conv length]; [lia|].
  pose proof (Hg k) as Hk. unfold bigit, B in *.
  destruct k as [|k]; [|specialize (IH k)]; nia.
Qed.

(** Columns whose first products are 0. *)
Lemma conv_skip j f g k :
  (j <= k)%nat -> (forall i, (k - j < i)%nat -> g i = 0) -> conv f g k = conv (drop j f) g (k - j).
Proof.
  revert f k. induction j as [|j IH]; intros f k Hj Hg; [by rewrite drop_0, Nat.sub_0_r|].
  destruct f as [|x f]; [done|]. destruct k as [|k]; [lia|]. cbn [conv drop].
  rewrite (Hg (S k)) by lia. rewrite (IH f k); [|lia|done]. replace (S k - S j)%nat with (k - j)%nat by lia. lia.
Qed.

(** The inner loops compute a column: [m] products, down to bigit [low]. *)
Lemma column_run cond (bs : list Z) n low l m fuel i1 i2 acc :
  length l = n -> Forall bigit l ->
  (forall j, (low <= j < n)%nat -> bs !! (n + j)%nat = Some (digit l j)) ->
  (m < fuel)%nat -> (i1 < n)%nat -> (low <= i2)%nat -> (low + m <= S i1)%nat -> (i2 + m <= n)%nat ->
  (forall t, (t < m)%nat -> cond (Z.of_nat i1 - Z.of_nat t) (Z.of_nat (i2 + t)) = true) ->
  cond (Z.of_nat i1 - Z.of_nat m) (Z.of_nat (i2 + m)) = false ->
  m = S i1 \/ (i2 + m)%nat = n ->
  0 <= acc -> acc + conv (drop i2 l) (digit l) i1 < 2 ^ 64 ->
  exists j1 j2,
    while_loop fuel (fun '(i1, i2, _) => cond i1 i2)
      (fun '(i1, i2, accumulator) =>
         chunk1 ← bs !! Z.to_nat (Z.of_nat n + i1);
         chunk2 ← bs !! Z.to_nat (Z.of_nat n + i2);
         Some (i1 - 1, i2 + 1, DoubleChunk (accumulator + DoubleChunk (chunk1 * chunk2))))
      (Z.of_nat i1, Z.of_nat i2, acc)
    = Some (j1, j2, acc + conv (drop i2 l) (digit l) i1).
Proof.
  intros Hn Hl Hbs. revert fuel i1 i2 acc.
  induction m as [|m IH]; intros fuel i1 i2 acc Hf H1 H2 H3 H4 Hc Hend Hm Hacc Hfit;
    (destruct fuel as [|fuel]; [lia|]); cbn [while_loop].
  - rewrite Nat.add_0_r, Z.sub_0_r in Hend. rewrite Hend. rewrite drop_ge by lia. cbn [conv].
    do 2 eexists. do 2 f_equal. lia.
  - pose proof (Hc 0%nat ltac:(lia)) as Hc0. rewrite Nat.add_0_r, Z.sub_0_r in Hc0. rewrite Hc0.
    rewrite <- !Nat2Z.inj_add, !Nat2Z.id, !Hbs by lia. cbn [mbind option_bind].
    destruct (lookup_lt_is_Some_2 l i2) as [d Hd]; [lia|].
    assert (Ed : digit l i2 = d) by (unfold digit; by rewrite Hd).
    rewrite (drop_S _ _ _ Hd) in *. cbn [conv] in *. rewrite Ed.
    pose proof (digit_bigit l i1 Hl) as Hb1. pose proof (Forall_lookup_1 _ _ _ _ Hl Hd) as Hb2.
    pose proof (conv_bound (drop (S i2) l) (digit l) (i1 - 1) ltac:(by apply Forall_drop)
                  (fun j => digit_bigit l j Hl)) as Hcb.
    unfold bigit, B in Hb1, Hb2. assert (0 <= digit l i1 * d < 2 ^ 56) by nia.
    rewrite (DoubleChunk_small (digit l i1 * d)) by lia.
    destruct i1 as [|i1].
    + assert (m = 0)%nat as -> by lia. rewrite DoubleChunk_small by lia.
      destruct fuel as [|fuel]; [lia|]. cbn [while_loop].
      replace (cond (Z.of_nat 0 - 1) (Z.of_nat i2 + 1)) with false.
      { do 2 eexists. do 2 f_equal. lia. }
      rewrite <- Hend. f_equal; lia.
    + replace (S i1 - 1)%nat with i1 in Hcb by lia. rewrite DoubleChunk_small by lia.
      replace (Z.of_nat (S i1) - 1) with (Z.of_nat i1) by lia.
      replace (Z.of_nat i2 + 1) with (Z.of_nat (S i2)) by lia.
      destruct (IH fuel i1 (S i2) (acc + digit l (S i1) * d)) as (j1 & j2 & ->); try lia.
      * intros t Ht. rewrite <- (Hc (S t)) by lia. f_equal; lia.
      * rewrite <- Hend. f_equal; lia.
      * do 2 eexists. do 2 f_equal. lia.
Qed.

(** The copy of the bigits above themselves. *)
Lemma square_copy bs n :
  (n + n <= length bs)%nat ->
  exists bs', for_loop n 0 (fun i bs => d ← bs !! i; set_bigit bs (n + i) d) bs = Some bs'
    /\ length bs' = length bs
    /\ forall j, bs' !! j = if (n <=? j)%nat && (j <? n + n)%nat then bs !! (j - n)%nat else bs !! j.
Proof.
  intros Hl.
  destruct (for_loop_inv (fun i bs' => length bs' = length bs /\ forall j,
      bs' !! j = if (n <=? j)%nat && (j <? n + i)%nat then bs !! (j - n)%nat else bs !! j)
    n 0 (fun i bs => d ← bs !! i; set_bigit bs (n + i) d) bs) as (bs' & -> & Hl' & Hj).
  - split; [done|]. intros j. destruct (Nat.leb_spec n j), (Nat.ltb_spec j (n + 0)); cbn [andb]; done || lia.
  - intros i bs1 Hi (Hl1 & Hj). rewrite (Hj i). destruct (Nat.leb_spec n i); [lia|]. cbn [andb].
    destruct (lookup_lt_is_Some_2 bs i) as [d Hd]; [lia|]. rewrite Hd. cbn [mbind option_bind].
    rewrite set_bigit_ok by lia. eexists. split; [done|]. split; [by rewrite length_insert|].
    intros j. destruct (decide (j = n + i)%nat) as [->|Hne].
    + rewrite list_lookup_insert_eq by lia. destruct (Nat.leb_spec n (n + i)); [|lia].
      destruct (Nat.ltb_spec (n + i) (n + S i)); [|lia]. cbn [andb]. rewrite <- Hd. f_equal. lia.
    + rewrite list_lookup_insert_ne, Hj by lia.
      destruct (Nat.leb_spec n j), (Nat.ltb_spec j (n + i)), (Nat.ltb_spec j (n + S i)); cbn [andb]; done || lia.
  - exists bs'. done.
Qed.

(** What the loops of [Square] keep: [i] columns are done, the copy is intact
    from [i] on. *)
Record square_inv (l : list Z) (n i : nat) (bs : list Z) (acc : Z) : Prop := {
  sq_length : length bs = kBigitCapacity;
  sq_bigits : Forall bigit bs;
  sq_copy : forall j, (j < n)%nat -> (i <= n + j)%nat -> bs !! (n + j)%nat = Some (digit l j);
  sq_rest : forall j d, (n + n <= j)%nat -> bs !! j = Some d -> d = 0;
  sq_acc : 0 <= acc <= 2 ^ 36;
  sq_value : value (take i bs) + acc * pw i = columns l (digit l) i
}.

Lemma store_column_inv l n i bs acc :
  length l = n -> Forall bigit l -> (n <= 64)%nat -> (i < n + n)%nat ->
  square_inv l n i bs acc ->
  exists bs' acc', store_column bs i (acc + conv l (digit l) i) = Some (bs', acc')
    /\ square_inv l n (S i) bs' acc'.
Proof.
  intros Hn Hl Hn64 Hi [I1 I2 I3 I4 I5 I6]. unfold store_column.
  pose proof (conv_bound l (digit l) i Hl (fun j => digit_bigit l j Hl)) as Hc.
  set (a := acc + conv l (digit l) i). assert (Ha : 0 <= a <= 2 ^ 63) by (unfold a; lia).
  rewrite low_bigit, shiftr_bigit. unfold kBigitCapacity in *.
  destruct (lookup_lt_is_Some_2 bs i) as [d Hd]; [lia|]. rewrite set_bigit_ok by lia.
  cbn [mbind option_bind]. do 2 eexists. split; [reflexivity|].
  assert (Em : Chunk a mod B = a mod B).
  { unfold Chunk, uint. change (2 ^ 32) with (B * 16).
    rewrite Z.rem_mul_r by (unfold B; lia). rewrite (Z.mul_comm B), Z.mod_add, Z.mod_mod by (unfold B; lia). done. }
  rewrite Em. pose proof (Z.div_mod a B ltac:(unfold B; lia)) as Hdm. split.
  - by rewrite length_insert.
  - apply Forall_insert; [done|apply low_bigit_bigit].
  - intros j Hj Hij. rewrite list_lookup_insert_ne by lia. apply I3; lia.
  - intros j x Hj. rewrite list_lookup_insert_ne by lia. by apply I4.
  - split; [apply Z.div_pos; unfold B; lia|]. apply Z.div_le_upper_bound; unfold B; lia.
  - rewrite (value_take_S _ _ (a mod B)) by by rewrite list_lookup_insert_eq by lia.
    rewrite take_insert_ge by lia. cbn [columns]. rewrite <- I6, pw_S.
    unfold a in *. nia.
Qed.

Lemma low_column l n i bs acc :
  length l = n -> Forall bigit l -> (n <= 64)%nat -> (i < n)%nat -> square_inv l n i bs acc ->
  column (fun i1 _ => 0 <=? i1) bs n (Z.of_nat i) 0 acc = Some (acc + conv l (digit l) i).
Proof.
  intros Hn Hl Hn64 Hi I. unfold column.
  pose proof (conv_bound l (digit l) i Hl (fun j => digit_bigit l j Hl)) as Hc. pose proof (sq_acc _ _ _ _ _ I).
  destruct (column_run (fun i1 _ => 0 <=? i1) bs n 0 l (S i) (S kBigitCapacity) i 0 acc) as (j1 & j2 & E);
    rewrite ?drop_0; try done; try (unfold kBigitCapacity; lia).
  - intros j Hj. apply (sq_copy _ _ _ _ _ I); lia.
  - apply Z.leb_gt. lia.
  - change (Z.of_nat 0) with 0 in E. rewrite E, drop_0. done.
Qed.

Lemma high_column l n i bs acc :
  length l = n -> Forall bigit l -> (n <= 64)%nat -> (n <= i < n + n)%nat -> square_inv l n i bs acc ->
  column (fun _ i2 => i2 <? Z.of_nat n) bs n (Z.of_nat n - 1) (Z.of_nat i - (Z.of_nat n - 1)) acc
  = Some (acc + conv l (digit l) i).
Proof.
  intros Hn Hl Hn64 Hi I. unfold column. set (i2 := (i - (n - 1))%nat).
  pose proof (conv_bound l (digit l) i Hl (fun j => digit_bigit l j Hl)) as Hc. pose proof (sq_acc _ _ _ _ _ I).
  assert (Es : conv l (digit l) i = conv (drop i2 l) (digit l) (n - 1)).
  { rewrite (conv_skip i2 l (digit l) i); [|lia|].
    - f_equal. lia.
    - intros j Hj. unfold digit. rewrite (proj2 (lookup_ge_None l j)) by lia. done. }
  destruct (column_run (fun _ i2 => i2 <? Z.of_nat n) bs n i2 l (n - i2) (S kBigitCapacity) (n - 1) i2 acc)
    as (j1 & j2 & E); try done; try (unfold i2, kBigitCapacity; lia).
  - intros j Hj. apply (sq_copy _ _ _ _ _ I); lia.
  - intros t Ht. apply Z.ltb_lt. lia.
  - apply Z.ltb_ge. lia.
  - rewrite <- Es. lia.
  - replace (Z.of_nat n - 1) with (Z.of_nat (n - 1)) by lia.
    replace (Z.of_nat i - Z.of_nat (n - 1)) with (Z.of_nat i2) by lia. rewrite E, Es. done.
Qed.

Lemma Square_val b :
  big b -> (used_digits_ b <= 64)%nat ->
  exists b', Square b = Some b' /\ big b' /\ val b' = val b * val b.
Proof.
  intros G Hu. pose proof (big_wf b G) as W. pose proof (wf_length b W) as Hlen. unfold Square.
  set (n := used_digits_ b) in *. set (l := take n (bigits_ b)).
  assert (Hn : length l = n) by (unfold l; rewrite length_take, Hlen; unfold kBigitCapacity; lia).
  assert (Hl : Forall bigit l) by apply Forall_take, W.
  rewrite EnsureCapacity_ok by (unfold kBigitCapacity; lia). cbn [mbind option_bind].
  destruct (Z.leb_spec (Z.shiftl 1 (2 * (kChunkSize - kBigitSize))) (Z.of_nat n)) as [H|_].
  { change (Z.shiftl 1 (2 * (kChunkSize - kBigitSize))) with 256 in H. lia. }
  destruct (square_copy (bigits_ b) n) as (bs0 & -> & Hl0 & Hj0); [rewrite Hlen; unfold kBigitCapacity; lia|].
  cbn [mbind option_bind].
  destruct (for_loop_inv (fun i '(bs, acc) => (i <= n)%nat /\ square_inv l n i bs acc) n 0
    (fun i '(bs, accumulator) =>
       accumulator ← column (fun i1 _ => 0 <=? i1) bs n (Z.of_nat i) 0 accumulator;
       store_column bs i accumulator) (bs0, 0)) as ([bs1 acc1] & -> & _ & I1).
  - split; [lia|]. split; [congruence| | | | |]; try done.
    + apply Forall_lookup_2. intros j d. rewrite Hj0.
      case_match; intros Hd; (eapply Forall_lookup_1; [apply W|exact Hd]).
    + intros j Hj _. rewrite Hj0. destruct (Nat.leb_spec n (n + j)); [|lia].
      destruct (Nat.ltb_spec (n + j) (n + n)); [|lia]. cbn [andb]. replace (n + j - n)%nat with j by lia.
      unfold digit, l. rewrite lookup_take_lt by lia.
      destruct (bigit_at b j W) as (d & -> & _); [unfold kBigitCapacity; lia|]. done.
    + intros j d Hj. rewrite Hj0. destruct (Nat.ltb_spec j (n + n)); [lia|]. rewrite andb_false_r.
      apply (wf_rest b W). lia.
  - intros i [bs acc] Hi (_ & I). rewrite (low_column l n) by (done || lia). cbn [mbind option_bind].
    destruct (store_column_inv l n i bs acc Hn Hl Hu ltac:(lia) I) as (bs' & acc' & -> & I').
    eexists. split; [reflexivity|]. split; [lia|done].
  - cbn [mbind option_bind Nat.add] in *.
    match goal with
    | |- context [for_loop ?m n ?body (bs1, acc1)] =>
        destruct (for_loop_inv (fun i '(bs, acc) => square_inv l n i bs acc) m n body (bs1, acc1))
          as ([bs2 acc2] & -> & [J1 J2 _ J4 J5 J6])
    end.
    + done.
    + intros i [bs acc] Hi I. cbv zeta. rewrite (high_column l n) by (done || lia). cbn [mbind option_bind].
      destruct (store_column_inv l n i bs acc Hn Hl Hu ltac:(lia) I) as (bs' & acc' & -> & I').
      eexists. split; [reflexivity|done].
    + cbn [mbind option_bind]. replace (n + (2 * n - n))%nat with (n + n)%nat in J6 by lia.
      assert (Ec : columns l (digit l) (n + n) = value l * value l).
      { rewrite <- Hn at 1. apply columns_product. lia. }
      rewrite Ec in J6. assert (Ev : value bs2 = value (take (n + n) bs2)).
      { rewrite (value_split (n + n) bs2), (drop_zeros bs2) by done. lia. }
      assert (Hm : mant b = value l) by by apply mant_take.
      assert (acc2 = 0).
      { pose proof (value_bound l Hl) as Hb. rewrite Hn in Hb.
        pose proof (value_bound (take (n + n) bs2) ltac:(by apply Forall_take)).
        rewrite pw_add in J6. pose proof (pw_pos n). nia. }
      destruct (Clamp_spec (mkBignum bs2 (2 * n) (exponent_ b * 2))) as (b' & -> & G' & V' & _).
      { split; cbn [bigits_ used_digits_]; [done|done|unfold kBigitCapacity; lia|].
        intros j d Hj. apply J4. lia. }
      exists b'. split; [done|split; [done|]]. rewrite V'. unfold val. rewrite Hm.
      change (mant (mkBignum bs2 (2 * n) (exponent_ b * 2))) with (value bs2).
      cbn [exponent_]. rewrite Ev. replace (exponent_ b * 2)%nat with (exponent_ b + exponent_ b)%nat by lia.
      rewrite pw_add. lia.
Qed.

(** ** Powers: proof *)

Lemma testbit_spec (p i : Z) : 0 <= i -> negb (Z.land p (2 ^ i) =? 0) = Z.testbit p i.
Proof.
  intros Hi. destruct (Z.testbit p i) eqn:E.
  - apply negb_true_iff, Z.eqb_neq. intros H. assert (H' : Z.testbit (Z.land p (2 ^ i)) i = false) by by rewrite H, Z.bits_0.
    rewrite Z.land_spec, E, Z.pow2_bits_true in H' by done. done.
  - apply negb_false_iff, Z.eqb_eq. apply Z.bits_inj'. intros n Hn.
    rewrite Z.land_spec, Z.bits_0, Z.pow2_bits_eqb by done. destruct (Z.eqb_spec i n) as [->|]; [by rewrite E|].
    apply andb_false_r.
Qed.

Lemma high_bits_spec v k :
  0 <= v < 2 ^ 64 -> 0 <= k <= 64 ->
  (Z.land v (Z.lxor (2 ^ k - 1) (2 ^ 64 - 1)) =? 0) = (v <? 2 ^ k).
Proof.
  intros Hv Hk.
  assert (E : Z.land v (Z.lxor (2 ^ k - 1) (2 ^ 64 - 1)) = Z.shiftl (Z.shiftr v k) k).
  { apply Z.bits_inj'. intros n Hn.
    rewrite Z.land_spec, Z.lxor_spec, !Z.sub_1_r, <- !Z.ones_equiv.
    destruct (Z.lt_ge_cases n k) as [Hlt|Hge].
    - rewrite Z.shiftl_spec_low, !Z.ones_spec_low by lia. apply andb_false_r.
    - rewrite Z.shiftl_spec_high, Z.shiftr_spec, (Z.ones_spec_high k) by lia.
      replace (n - k + k) with n by lia. destruct (Z.lt_ge_cases n 64) as [H64|H64].
      + rewrite Z.ones_spec_low by lia. apply andb_true_r.
      + rewrite Z.ones_spec_high by lia. rewrite andb_false_r. symmetry.
        rewrite <- (Z.mod_small v (2 ^ 64)) by done. apply Z.mod_pow2_bits_high. lia. }
  rewrite E, Z.shiftl_mul_pow2, Z.shiftr_div_pow2 by lia.
  assert (0 < 2 ^ k) by (apply Z.pow_pos_nonneg; lia).
  destruct (Z.ltb_spec v (2 ^ k)) as [Hlt|Hge]; [by rewrite Z.div_small by lia|].
  apply Z.eqb_neq. assert (1 <= v / 2 ^ k) by (apply Z.div_le_lower_bound; lia). nia.
Qed.

(** The mask when [r] bits are left. *)
Definition mask_of (r : nat) : Z := Z.shiftr (2 ^ Z.of_nat r) 1.

Lemma mask_of_S r : mask_of (S r) = 2 ^ Z.of_nat r.
Proof.
  unfold mask_of. rewrite Z.shiftr_div_pow2, Nat2Z.inj_succ, Z.pow_succ_r, Z.mul_comm by lia.
  change (2 ^ 1) with 2. by rewrite Z.div_mul.
Qed.

Lemma mask_of_shift r : Z.shiftr (mask_of (S r)) 1 = mask_of r.
Proof. by rewrite mask_of_S. Qed.

Lemma mask_of_zero r : mask_of r = 0 <-> r = 0%nat.
Proof.
  destruct r as [|r]; [done|]. rewrite mask_of_S. split; [|done]. intros H.
  pose proof (Z.pow_pos_nonneg 2 (Z.of_nat r)). lia.
Qed.

(** One more bit of the exponent. *)
Lemma prefix_S p r :
  0 <= p -> p / 2 ^ Z.of_nat r = 2 * (p / 2 ^ Z.of_nat (S r)) + Z.b2z (Z.testbit p (Z.of_nat r)).
Proof.
  intros Hp. rewrite Z.testbit_spec' by lia. rewrite Nat2Z.inj_succ, Z.pow_succ_r by lia.
  rewrite (Z.mul_comm 2 (2 ^ _)), <- Z.div_div by (try apply Z.pow_nonzero; lia).
  apply Z.div_mod. lia.
Qed.

Lemma pow_prefix base p r :
  0 <= p ->
  base ^ (p / 2 ^ Z.of_nat r)
  = base ^ (p / 2 ^ Z.of_nat (S r)) * base ^ (p / 2 ^ Z.of_nat (S r))
    * (if Z.testbit p (Z.of_nat r) then base else 1).
Proof.
  intros Hp. assert (0 <= p / 2 ^ Z.of_nat (S r)) by (apply Z.div_pos; [done|apply Z.pow_pos_nonneg; lia]).
  rewrite (prefix_S p r Hp), Z.pow_add_r, Z.pow_mul_r, Z.pow_2_r, Z.pow_mul_l by (try destruct (Z.testbit _ _); cbn [Z.b2z]; lia).
  f_equal. destruct (Z.testbit p (Z.of_nat r)); [apply Z.pow_1_r|done].
Qed.

(** The loops that split off the factors of two and count the bits. *)
Lemma odd_part base :
  0 < base < 2 ^ 16 ->
  exists m s, while_loop 17 (fun '(base, _) => Z.land base 1 =? 0)
      (fun '(base, shifts) => Some (Z.shiftr base 1, shifts + 1)) (base, 0) = Some (m, s)
    /\ 0 < m <= base /\ 0 <= s /\ base = m * 2 ^ s.
Proof.
  intros Hb.
  destruct (while_loop_inv (fun '(m, s) => 0 < m <= base /\ 0 <= s /\ base = m * 2 ^ s)
    (fun '(m, _) => Z.to_nat (Z.log2 m)) 17 (fun '(base, _) => Z.land base 1 =? 0)
    (fun '(base, shifts) => Some (Z.shiftr base 1, shifts + 1)) (base, 0)) as ([m s] & E & H & _).
  - lia.
  - assert (Z.log2 base < 16) by (apply Z.log2_lt_pow2; lia). lia.
  - intros [m s] (Hm & Hs & E) Hc. apply Z.eqb_eq in Hc. eexists. split; [reflexivity|].
    change 1 with (Z.ones 1) in Hc. rewrite Z.land_ones in Hc by done. change (2 ^ 1) with 2 in Hc.
    rewrite Z.shiftr_div_pow2 by done. change (2 ^ 1) with 2.
    pose proof (Z.div_mod m 2 ltac:(done)) as Hdm. rewrite Hc, Z.add_0_r in Hdm.
    split; [split; [lia|split; [lia|]]|].
    + rewrite Z.pow_add_r, Z.pow_1_r, E, Hdm at 1 by lia. lia.
    + assert (El : Z.log2 m = Z.succ (Z.log2 (m / 2))) by (rewrite Hdm at 1; apply Z.log2_double; lia).
      pose proof (Z.log2_nonneg (m / 2)). lia.
  - exists m, s. done.
Qed.

Lemma count_bits base :
  0 < base < 2 ^ 16 ->
  exists t k, while_loop 17 (fun '(tmp_base, _) => negb (tmp_base =? 0))
      (fun '(tmp_base, bit_size) => Some (Z.shiftr tmp_base 1, bit_size + 1)) (base, 0) = Some (t, k)
    /\ 1 <= k <= 16 /\ base < 2 ^ k /\ 2 ^ (k - 1) <= base.
Proof.
  intros Hb.
  destruct (while_loop_inv (fun '(t, k) => 0 <= k <= 16 /\ t = base / 2 ^ k /\ (k = 0 \/ 2 ^ (k - 1) <= base))
    (fun '(_, k) => Z.to_nat (16 - k)) 17 (fun '(tmp_base, _) => negb (tmp_base =? 0))
    (fun '(tmp_base, bit_size) => Some (Z.shiftr tmp_base 1, bit_size + 1)) (base, 0)) as ([t k] & E & (H1 & H2 & H3) & Hc).
  - split; [lia|]. split; [|by left]. change (2 ^ 0) with 1. by rewrite Z.div_1_r.
  - lia.
  - intros [t k] (Hk & -> & _) Hc. apply negb_true_iff, Z.eqb_neq in Hc.
    assert (H2k : 0 < 2 ^ k) by (apply Z.pow_pos_nonneg; lia).
    assert (Hle : 2 ^ k <= base).
    { destruct (Z.lt_ge_cases base (2 ^ k)) as [Hlt|]; [|done]. rewrite Z.div_small in Hc by lia. done. }
    assert (Hk16 : k < 16) by (apply (Z.pow_lt_mono_r_iff 2); lia).
    eexists. split; [reflexivity|]. split; [|lia]. split; [lia|].
    rewrite Z.shiftr_div_pow2, Z.div_div, Z.pow_add_r by lia. split; [done|]. right.
    by replace (k + 1 - 1) with k by lia.
  - apply negb_false_iff, Z.eqb_eq in Hc. rewrite H2 in Hc. assert (H2k : 0 < 2 ^ k) by (apply Z.pow_pos_nonneg; lia).
    apply Z.div_small_iff in Hc; [|lia].
    exists t, k. destruct H3 as [->|H3]; [change (2 ^ 0) with 1 in Hc; lia|]. split; [done|].
    split; [|lia]. destruct (decide (k = 0)) as [->|]; [change (2 ^ 0) with 1 in Hc; lia|lia].
Qed.

(** The mask above the exponent's highest bit. *)
Lemma top_mask p :
  1 <= p < 2 ^ 31 ->
  exists t, while_loop 32 (fun mask => mask <=? p) (fun mask => Some (Z.shiftl mask 1)) 1 = Some (2 ^ Z.of_nat (S t))
    /\ (t < 31)%nat /\ p / 2 ^ Z.of_nat t = 1.
Proof.
  intros Hp.
  destruct (while_loop_inv (fun mask => exists j, (j <= 31)%nat /\ mask = 2 ^ Z.of_nat j
        /\ (j = 0%nat \/ 2 ^ (Z.of_nat j - 1) <= p))
    (fun mask => Z.to_nat (31 - Z.log2 mask)) 32 (fun mask => mask <=? p)
    (fun mask => Some (Z.shiftl mask 1)) 1) as (mask & E & (j & Hj & -> & H) & Hc).
  - exists 0%nat. split; [lia|split; [done|by left]].
  - cbn. lia.
  - intros mask (j & Hj & -> & _) Hc. apply Z.leb_le in Hc. eexists. split; [reflexivity|].
    assert (Z.of_nat j < 31) by (apply (Z.pow_lt_mono_r_iff 2); lia).
    rewrite Z.shiftl_mul_pow2 by done. change (2 ^ 1) with 2.
    assert (E : 2 ^ Z.of_nat j * 2 = 2 ^ Z.of_nat (S j)) by (rewrite Nat2Z.inj_succ, Z.pow_succ_r by lia; lia).
    rewrite E. split.
    + exists (S j). split; [lia|]. split; [done|]. right. by replace (Z.of_nat (S j) - 1) with (Z.of_nat j) by lia.
    + rewrite !Z.log2_pow2 by lia. lia.
  - apply Z.leb_gt in Hc. destruct H as [->|H]; [change (2 ^ Z.of_nat 0) with 1 in Hc; lia|].
    destruct j as [|t]; [change (2 ^ Z.of_nat 0) with 1 in Hc; lia|].
    exists t. split; [done|]. split; [lia|]. replace (Z.of_nat (S t) - 1) with (Z.of_nat t) in H by lia.
    rewrite Nat2Z.inj_succ, Z.pow_succ_r in Hc by lia.
    symmetry. apply (Z.div_unique p (2 ^ Z.of_nat t) 1 (p - 2 ^ Z.of_nat t)); lia.
Qed.

Lemma mask_measure r : Z.to_nat (Z.log2_up (2 * mask_of r)) = r.
Proof.
  destruct r as [|r]; [done|]. rewrite mask_of_S, <- Z.pow_succ_r, Z.log2_up_pow2 by lia. lia.
Qed.

Lemma Multiply_val b f :
  big b -> 0 < f < 2 ^ 32 -> val b * f < pw 128 ->
  exists b', MultiplyByUInt32 b f = Some b' /\ big b' /\ val b' = val b * f.
Proof.
  intros G Hf Hlt. pose proof (mant_le_val b G).
  destruct (MultiplyByUInt32_denotes b f G Hf) as (b' & E & [G' Hm He]).
  - change kBigitCapacity with 128%nat. nia.
  - exists b'. split; [done|split; [done|]]. unfold val. rewrite Hm, He. lia.
Qed.

Lemma pw_127_128 : pw 127 < pw 128.
Proof.
  change 128%nat with (S 127). pose proof (pw_double 127) as H. pose proof (pw_pos 127) as H0.
  generalize dependent (pw 127). intros x H H0. lia.
Qed.

Section power.
Context (base bits p : Z).
Hypothesis (Hbits : 1 <= bits <= 16) (Hbase : 2 ^ (bits - 1) <= base < 2 ^ bits).
Hypothesis (Hp : 1 <= p) (Hfit : bits * p <= 3555).

Let pre (r : nat) : Z := base ^ (p / 2 ^ Z.of_nat r).

Lemma base_small : 1 <= base < 2 ^ 16.
Proof.
  assert (0 < 2 ^ (bits - 1)) by (apply Z.pow_pos_nonneg; lia).
  assert (2 ^ bits <= 2 ^ 16) by (apply Z.pow_le_mono_r; lia). lia.
Qed.

Lemma pre_S r : pre r = pre (S r) * pre (S r) * (if Z.testbit p (Z.of_nat r) then base else 1).
Proof. apply pow_prefix. lia. Qed.

(** What the powers need. *)
Lemma pre_bound r : 1 <= pre r <= 2 ^ (3555 / 2 ^ Z.of_nat r).
Proof.
  pose proof base_small. unfold pre. assert (H2 : 0 < 2 ^ Z.of_nat r) by (apply Z.pow_pos_nonneg; lia).
  assert (Hq : 0 <= p / 2 ^ Z.of_nat r) by (apply Z.div_pos; lia). split.
  - pose proof (Z.pow_pos_nonneg base (p / 2 ^ Z.of_nat r)). lia.
  - apply Z.le_trans with ((2 ^ bits) ^ (p / 2 ^ Z.of_nat r)); [apply Z.pow_le_mono_l; lia|].
    rewrite <- Z.pow_mul_r by lia. apply Z.pow_le_mono_r; [lia|].
    apply Z.div_le_lower_bound; [done|].
    pose proof (Z.mul_div_le p (2 ^ Z.of_nat r) H2). nia.
Qed.

Definition power_inv (r : nat) (s : Z * Z * bool) : Prop :=
  let '(mask, v, delayed) := s in
  mask = mask_of r /\ 0 < v < 2 ^ 64 /\ v * (if delayed then base else 1) = pre r
  /\ (delayed = true -> max_32bits < v).

Lemma power_step_inv r s :
  power_inv (S r) s -> snd (fst s) <= max_32bits -> power_inv r (power_step base bits p s).
Proof.
  destruct s as [[mask v] delayed]. cbn [fst snd]. intros (-> & Hv & E & Hd) Hle.
  destruct delayed; [specialize (Hd eq_refl); lia|]. rewrite Z.mul_1_r in E.
  unfold power_step, power_inv, max_32bits in *.
  rewrite DoubleChunk_small by nia. rewrite mask_of_shift, mask_of_S, testbit_spec by lia.
  rewrite Z.shiftl_1_l, (DoubleChunk_small (2 ^ (64 - bits) - 1)).
  2: { assert (0 < 2 ^ (64 - bits)) by (apply Z.pow_pos_nonneg; lia).
       assert (2 ^ (64 - bits) <= 2 ^ 63) by (apply Z.pow_le_mono_r; lia). lia. }
  rewrite (pre_S r), <- E. pose proof base_small.
  destruct (Z.testbit p (Z.of_nat r)); [|split; [done|split; [nia|split; [lia|done]]]].
  rewrite high_bits_spec by nia.
  assert (E64 : 2 ^ 64 = 2 ^ (64 - bits) * 2 ^ bits) by (rewrite <- Z.pow_add_r by lia; f_equal; lia).
  destruct (Z.ltb_spec (v * v) (2 ^ (64 - bits))) as [Hlt|Hge].
  - assert (0 < 2 ^ (64 - bits)) by (apply Z.pow_pos_nonneg; lia).
    assert (v * v * base < 2 ^ 64) by (rewrite E64; apply Z.mul_lt_mono_nonneg; nia).
    rewrite DoubleChunk_small by nia. split; [done|split; [nia|split; [lia|done]]].
  - assert (2 ^ 48 <= 2 ^ (64 - bits)) by (apply Z.pow_le_mono_r; lia).
    split; [done|split; [nia|split; [done|intros _; lia]]].
Qed.

(** The loop in 64 bits. *)
Lemma small_power_loop t :
  (t < 31)%nat -> p / 2 ^ Z.of_nat t = 1 ->
  exists r v delayed,
    while_loop 32 (fun '(mask, this_value, _) => negb (mask =? 0) && (this_value <=? max_32bits))
      (fun s => Some (power_step base bits p s)) (mask_of t, base, false)
    = Some (mask_of r, v, delayed)
    /\ (r < 31)%nat /\ power_inv r (mask_of r, v, delayed).
Proof.
  intros Ht Htop. pose proof base_small as Hsm.
  destruct (while_loop_inv (fun s => exists r, (r < 31)%nat /\ power_inv r s)
    (fun '(mask, _, _) => Z.to_nat (Z.log2_up (2 * mask))) 32
    (fun '(mask, this_value, _) => negb (mask =? 0) && (this_value <=? max_32bits))
    (fun s => Some (power_step base bits p s)) (mask_of t, base, false))
    as ([[mask v] delayed] & E & (r & Hr & H) & _).
  - exists t. split; [done|]. split; [done|split; [lia|split; [|done]]]. unfold pre. rewrite Htop. lia.
  - rewrite mask_measure. lia.
  - intros [[mask v] delayed] (r & Hr & H) Hc. apply andb_true_iff in Hc as [Hm Hle].
    apply negb_true_iff, Z.eqb_neq in Hm. apply Z.leb_le in Hle.
    assert (mask = mask_of r) as -> by apply H.
    destruct r as [|r]; [done|]. eexists. split; [reflexivity|].
    pose proof (power_step_inv r _ H Hle) as H'.
    destruct (power_step base bits p (mask_of (S r), v, delayed)) as [[m' v'] d'].
    split; [exists r; split; [lia|done]|]. assert (m' = mask_of r) as -> by apply H'.
    rewrite !mask_measure. lia.
  - assert (mask = mask_of r) as -> by apply H. exists r, v, delayed. done.
Qed.

Lemma pre_fits r : pre r < pw 127.
Proof.
  pose proof (pre_bound r) as [_ H]. eapply Z.le_lt_trans; [exact H|].
  apply Z.le_lt_trans with (2 ^ 3555).
  - apply Z.pow_le_mono_r; [lia|]. apply Z.div_le_upper_bound; [apply Z.pow_pos_nonneg; lia|].
    pose proof (Z.pow_pos_nonneg 2 (Z.of_nat r) ltac:(lia) ltac:(lia)). nia.
  - unfold pw, B. rewrite <- Z.pow_mul_r by lia. apply Z.pow_lt_mono_r; lia.
Qed.

Lemma pre_half_fits r : pre (S r) < pw 64.
Proof.
  pose proof (pre_bound (S r)) as [_ H]. eapply Z.le_lt_trans; [exact H|].
  apply Z.le_lt_trans with (2 ^ 1777).
  - apply Z.pow_le_mono_r; [lia|]. apply Z.lt_succ_r. apply Z.div_lt_upper_bound; [apply Z.pow_pos_nonneg; lia|].
    rewrite Nat2Z.inj_succ, Z.pow_succ_r by lia. pose proof (Z.pow_pos_nonneg 2 (Z.of_nat r) ltac:(lia) ltac:(lia)). lia.
  - unfold pw, B. rewrite <- Z.pow_mul_r by lia. apply Z.pow_lt_mono_r; lia.
Qed.

(** The loop with bignums. *)
Lemma big_power_loop b r :
  (r < 31)%nat -> big b -> val b = pre r ->
  exists b' mask, while_loop 32 (fun '(_, mask) => negb (mask =? 0))
    (fun '(b, mask) =>
       b ← Square b;
       b ← (if negb (Z.land p mask =? 0) then MultiplyByUInt32 b base else Some b);
       Some (b, Z.shiftr mask 1)) (b, mask_of r) = Some (b', mask)
    /\ big b' /\ val b' = base ^ p.
Proof.
  intros Hr G V. pose proof base_small as Hsm.
  destruct (while_loop_inv (fun '(b, mask) => exists r, (r < 31)%nat /\ mask = mask_of r /\ big b /\ val b = pre r)
    (fun '(_, mask) => Z.to_nat (Z.log2_up (2 * mask))) 32 (fun '(_, mask) => negb (mask =? 0))
    (fun '(b, mask) =>
       b ← Square b;
       b ← (if negb (Z.land p mask =? 0) then MultiplyByUInt32 b base else Some b);
       Some (b, Z.shiftr mask 1)) (b, mask_of r)) as ([b' mask] & E & (r' & Hr' & -> & G' & V') & Hc).
  - exists r. done.
  - rewrite mask_measure. lia.
  - intros [b1 mask] (r1 & Hr1 & -> & G1 & V1) Hm. apply negb_true_iff, Z.eqb_neq in Hm.
    destruct r1 as [|r1]; [done|].
    destruct (Square_val b1 G1) as (b2 & -> & G2 & V2).
    { pose proof (BigitLength_bound b1 64 G1 ltac:(rewrite V1; apply pre_half_fits)) as Hl.
      unfold BigitLength in Hl. lia. }
    cbn [mbind option_bind]. rewrite mask_of_shift, mask_of_S, testbit_spec by lia.
    assert (Hnext : exists b3, (if Z.testbit p (Z.of_nat r1) then MultiplyByUInt32 b2 base else Some b2) = Some b3
              /\ big b3 /\ val b3 = pre r1).
    { pose proof (pre_S r1) as Ep. pose proof (pre_fits r1) as Hf.
      destruct (Z.testbit p (Z.of_nat r1)).
      - destruct (Multiply_val b2 base G2) as (b3 & -> & G3 & V3); [lia| |].
        + rewrite V2, V1, <- Ep. eapply Z.lt_trans; [exact Hf|exact pw_127_128].
        + exists b3. split; [done|split; [done|]]. by rewrite V3, V2, V1, Ep.
      - exists b2. split; [done|split; [done|]]. rewrite V2, V1, Ep. lia. }
    destruct Hnext as (b3 & -> & G3 & V3). cbn [mbind option_bind]. eexists. split; [reflexivity|].
    split; [exists r1; split; [lia|done]|]. rewrite <- mask_of_S, !mask_measure. lia.
  - exists b', (mask_of r'). split; [done|split; [done|]]. rewrite V'.
    apply negb_false_iff, Z.eqb_eq, mask_of_zero in Hc as ->. unfold pre. change (2 ^ Z.of_nat 0) with 1.
    by rewrite Z.div_1_r.
Qed.
End power.

(** The powers whose bits, counted from those of the base, fit. *)
Definition power_fits (base p : Z) : Prop := (Z.log2 base + 1) * p <= 3555.

Lemma AssignUInt16_val b v :
  wf b -> 0 < v < B -> exists b', AssignUInt16 b v = Some b' /\ big b' /\ val b' = v.
Proof.
  intros W Hv. unfold AssignUInt16. rewrite Zero_ok by done. cbn [mbind option_bind].
  destruct (Z.eqb_spec v 0); [lia|]. rewrite EnsureCapacity_ok by (unfold kBigitCapacity; lia).
  cbn [mbind option_bind]. pose proof (big_wf _ Bignum_new_big) as W0.
  rewrite set_bigit_ok by (rewrite (wf_length _ W0); unfold kBigitCapacity; lia).
  cbn [mbind option_bind]. eexists. split; [reflexivity|].
  assert (Hm : value (<[0%nat := v]> (bigits_ Bignum_new)) = v).
  { rewrite (value_insert _ _ 0) by done. change (value (bigits_ Bignum_new)) with (mant Bignum_new).
    rewrite zero_used by done. change (pw 0) with 1. lia. }
  split; [split; [split| |]|]; cbn [bigits_ used_digits_ exponent_].
  - by rewrite length_insert.
  - apply Forall_insert; [apply W0|unfold bigit; lia].
  - unfold kBigitCapacity. lia.
  - intros i d Hi. rewrite list_lookup_insert_ne by lia. apply (wf_rest _ W0). cbn. lia.
  - done.
  - intros _. unfold mant. cbn [bigits_]. rewrite Hm. change (pw (1 - 1)) with 1. lia.
  - unfold val, mant. cbn [bigits_ exponent_]. rewrite Hm. change (exponent_ Bignum_new) with 0%nat. change (pw 0) with 1. lia.
Qed.

Lemma AssignPowerUInt16_val b base p :
  wf b -> 0 < base < 2 ^ 16 -> 0 <= p -> power_fits base p ->
  exists b', AssignPowerUInt16 b base p = Some b' /\ big b' /\ val b' = base ^ p.
Proof.
  intros W Hb Hp Hfit. unfold AssignPowerUInt16, power_fits in *. pose proof (Z.log2_nonneg base) as Hlog.
  destruct (Z.eqb_spec p 0) as [->|Hp0].
  { destruct (AssignUInt16_val b 1 W) as (b' & E & G & V); [unfold B; lia|]. by exists b'. }
  rewrite Zero_ok by done. cbn [mbind option_bind].
  destruct (odd_part base Hb) as (m & s & -> & Hm & Hs & Ebase). cbn [mbind option_bind].
  destruct (count_bits m ltac:(lia)) as (t0 & k & -> & Hk & Hlt & Hge). cbn [mbind option_bind].
  assert (Hkp : k * p <= 3555).
  { assert (k - 1 <= Z.log2 base) by (apply Z.log2_le_pow2; lia). nia. }
  rewrite EnsureCapacity_ok.
  2: { unfold kBigitSize, kBigitCapacity. assert (k * p / 28 <= 126) by (apply Z.lt_succ_r, Z.div_lt_upper_bound; lia). lia. }
  cbn [mbind option_bind]. destruct (top_mask p ltac:(nia)) as (t & -> & Ht & Htop). cbn [mbind option_bind].
  replace (Z.shiftr (2 ^ Z.of_nat (S t)) 2) with (mask_of t).
  2: { unfold mask_of. rewrite !Z.shiftr_div_pow2, Nat2Z.inj_succ, Z.pow_succ_r by lia.
       change (2 ^ 2) with (2 * 2 ^ 1). rewrite Z.div_mul_cancel_l by lia. done. }
  destruct (small_power_loop m k p Hk ltac:(lia) ltac:(lia) t Ht Htop) as (r & v & delayed & -> & Hr & _ & Hv & Ev & _).
  cbn [mbind option_bind].
  destruct (AssignUInt64_val Bignum_new v (big_wf _ Bignum_new_big) ltac:(lia)) as (b1 & -> & G1 & V1).
  cbn [mbind option_bind]. pose proof (base_small m k Hk ltac:(lia)) as Hm16.
  pose proof (pre_fits m k p Hk ltac:(lia) ltac:(lia) Hkp r) as Hf.
  assert (H2 : exists b2, (if delayed then MultiplyByUInt32 b1 m else Some b1) = Some b2
            /\ big b2 /\ val b2 = m ^ (p / 2 ^ Z.of_nat r)).
  { destruct delayed.
    - destruct (Multiply_val b1 m G1) as (b2 & -> & G2 & V2); [lia| |].
      + rewrite V1, Ev. eapply Z.lt_trans; [exact Hf|exact pw_127_128].
      + exists b2. rewrite V2, V1. done.
    - exists b1. rewrite V1. split; [done|split; [done|lia]]. }
  destruct H2 as (b2 & -> & G2 & V2). cbn [mbind option_bind].
  destruct (big_power_loop m k p Hk ltac:(lia) ltac:(lia) Hkp b2 r Hr G2 V2) as (b3 & mask & -> & G3 & V3).
  cbn [mbind option_bind].
  pose proof (pre_fits m k p Hk ltac:(lia) ltac:(lia) Hkp 0) as Hf0. cbv beta in Hf0. change (2 ^ Z.of_nat 0) with 1 in Hf0.
  rewrite Z.div_1_r, <- V3 in Hf0.
  destruct (ShiftLeft_val b3 (s * p) G3) as (b4 & -> & G4 & V4); [nia| |].
  - eapply Z.le_lt_trans; [by apply mant_le_val|exact Hf0].
  - exists b4. split; [done|split; [done|]]. rewrite V4, V3, Ebase, Z.pow_mul_l, <- Z.pow_mul_r by lia. done.
Qed.

(** ** Quotients: proof *)

(** The highest bigit in use. *)
Lemma top_bigit b :
  big b -> used_digits_ b <> 0%nat ->
  exists d, bigits_ b !! (used_digits_ b - 1)%nat = Some d /\ 1 <= d < B
    /\ d * pw (BigitLength b - 1) <= val b < (d + 1) * pw (BigitLength b - 1).
Proof.
  intros G Hu. pose proof (big_wf b G) as W. pose proof (wf_used b W).
  destruct (bigit_at b (used_digits_ b - 1) W ltac:(lia)) as (d & Hd & Hb). exists d. split; [done|].
  pose proof (big_top b G Hu) as Ht. pose proof (mant_take b W) as Hm.
  replace (used_digits_ b) with (S (used_digits_ b - 1)) in Hm at 1 by lia.
  rewrite (value_take_S _ _ d Hd) in Hm.
  pose proof (value_bound (take (used_digits_ b - 1) (bigits_ b)) ltac:(apply Forall_take, W)) as Hl.
  rewrite length_take_le in Hl by (rewrite (wf_length b W); lia).
  unfold bigit in Hb. split; [split; [nia|lia]|].
  unfold val, BigitLength. replace (used_digits_ b + exponent_ b - 1)%nat with (used_digits_ b - 1 + exponent_ b)%nat by lia.
  rewrite pw_add. pose proof (pw_pos (exponent_ b)). nia.
Qed.

Lemma times_loop b other factor T :
  big b -> big other ->
  let offset := (exponent_ other - exponent_ b)%nat in
  (used_digits_ other + offset <= kBigitCapacity)%nat ->
  0 <= factor < B -> T = mant b - factor * mant other * pw offset ->
  exists bs borrow,
    for_loop (used_digits_ other) 0
      (fun i '(bs, borrow) =>
         o ← bigits_ other !! i;
         let product := DoubleChunk (factor * o) in
         let remove := DoubleChunk (borrow + product) in
         d ← bs !! (i + offset)%nat;
         let difference := Chunk (d - Chunk (Z.land remove kBigitMask)) in
         bs ← set_bigit bs (i + offset) (Z.land difference kBigitMask);
         Some (bs, Chunk (Z.shiftr difference (kChunkSize - 1) + Z.shiftr remove kBigitSize)))
      (bigits_ b, 0) = Some (bs, borrow)
    /\ prefix_done (bigits_ b) bs (used_digits_ other + offset) /\ 0 <= borrow <= factor
    /\ value bs - borrow * pw (used_digits_ other + offset) = T.
Proof.
  intros G Go offset Hfit Hf ->. pose proof (big_wf b G) as W. pose proof (big_wf other Go) as Wo.
  match goal with
  | |- context [for_loop ?m 0 ?body (bigits_ b, 0)] =>
      destruct (for_loop_inv (fun i '(bs, borrow) =>
        prefix_done (bigits_ b) bs (i + offset) /\ 0 <= borrow <= factor
        /\ value bs - borrow * pw (i + offset) = mant b - factor * value (take i (bigits_ other)) * pw offset)
        m 0 body (bigits_ b, 0)) as ([bs borrow] & -> & Hpd & Hc & Hv)
  end.
  - split; [by apply prefix_done_refl, W|]. split; [lia|]. rewrite take_0. cbn [value]. unfold mant. lia.
  - intros i [bs borrow] Hi ([Hl Hb Hr] & Hc & Hv). pose proof (wf_used other Wo).
    destruct (bigit_at other i Wo ltac:(lia)) as (o & Ho & Hob). rewrite Ho. cbn [mbind option_bind].
    destruct (bigit_at b (i + offset) W ltac:(lia)) as (d & Hd & Hdb).
    rewrite <- Hr in Hd by lia. rewrite Hd. cbn [mbind option_bind]. unfold bigit in Hob, Hdb.
    set (remove := borrow + factor * o).
    assert (Hre : 0 <= remove <= factor * B) by (unfold remove; nia).
    assert (E1 : DoubleChunk (borrow + DoubleChunk (factor * o)) = remove).
    { unfold B in *. rewrite (DoubleChunk_small (factor * o)), DoubleChunk_small by nia. done. }
    rewrite E1, low_bigit, shiftr_bigit, (Chunk_bigit (remove mod B)) by apply low_bigit_bigit.
    pose proof (low_bigit_bigit remove) as Hm. unfold bigit in Hm.
    destruct (borrow_bit (d - remove mod B)) as (c & Hc01 & -> & -> & Hn); [lia|].
    pose proof (lookup_lt_Some _ _ _ Hd) as Hlt. rewrite set_bigit_ok by done. cbn [mbind option_bind].
    pose proof (Z.div_mod remove B ltac:(unfold B; lia)) as Hdm.
    assert (Hq : 0 <= c + remove / B <= factor) by (unfold bigit in Hn; nia).
    assert (E2 : Chunk (c + remove / B) = c + remove / B) by (apply Chunk_bigit; unfold bigit; lia).
    rewrite E2. eexists. split; [reflexivity|]. change (S i + offset)%nat with (S (i + offset)).
    split; [|split; [done|]].
    + apply prefix_done_insert; [by split|done].
    + rewrite (value_insert _ _ d), (value_take_S _ _ o Ho), pw_S by done. rewrite pw_add in *.
      assert (Ev : value bs = mant b - factor * value (take i (bigits_ other)) * pw offset + borrow * (pw i * pw offset)) by lia.
      rewrite Ev. assert (Er : remove = borrow + factor * o) by done.
      set (q := remove / B) in *. set (rm := remove mod B) in *. clearbody q rm.
      replace rm with (borrow + factor * o - B * q) by lia. ring.
  - exists bs, borrow. split; [done|]. rewrite Nat.add_0_l in *. rewrite <- mant_take in Hv by done. done.
Qed.

(** Repeated subtraction. *)
Lemma subtract_repeat b other n :
  big b -> big other -> (exponent_ b <= exponent_ other)%nat -> Z.of_nat n * val other <= val b ->
  exists b', for_loop n 0 (fun _ b => SubtractBignum b other) b = Some b'
    /\ big b' /\ val b' = val b - Z.of_nat n * val other /\ (exponent_ b' <= exponent_ b)%nat.
Proof.
  intros G Go He Hle. pose proof (val_bound other Go).
  destruct (for_loop_inv (fun i b' => (i <= n)%nat -> big b' /\ val b' = val b - Z.of_nat i * val other
      /\ (exponent_ b' <= exponent_ b)%nat) n 0 (fun _ b => SubtractBignum b other) b) as (b' & E & H').
  - intros _. split; [done|split; [lia|lia]].
  - intros i b1 Hi H1. destruct (H1 ltac:(lia)) as (G1 & V1 & E1).
    destruct (SubtractBignum_val b1 other G1 Go) as (b2 & E2 & G2 & V2 & X2).
    + rewrite V1. nia.
    + pose proof (wf_used b1 (big_wf b1 G1)). unfold BigitLength. lia.
    + exists b2. split; [done|]. intros _. split; [done|split; [lia|lia]].
  - destruct (H' ltac:(lia)) as (G' & V' & X'). exists b'. done.
Qed.

(** The second loop, with at most one bigit left. *)
Lemma subtract_rest_spec fuel b bs i borrow T :
  (2 <= fuel)%nat -> big b -> prefix_done (bigits_ b) bs i -> (i <= used_digits_ b <= S i)%nat -> 0 <= borrow < B ->
  value bs - borrow * pw i = T -> 0 <= T ->
  exists bs' early, subtract_rest fuel bs (used_digits_ b) i borrow = Some (bs', early)
    /\ wf (with_bigits b bs') /\ value bs' = T /\ (early = true -> big (with_bigits b bs')).
Proof.
  intros Hfuel G Hpd Hi Hc Hv HT. destruct fuel as [|[|fuel]]; [lia|lia|]. pose proof (big_wf b G) as W. pose proof (wf_used b W) as Hcap.
  destruct Hpd as [Hl Hb Hr].
  assert (W' : wf (with_bigits b bs)) by (apply prefix_done_wf; [done|split; [done|done|]]; intros j Hj; apply Hr; lia).
  pose proof (mant_bound _ W') as Hm. change (mant (with_bigits b bs)) with (value bs) in Hm.
  change (used_digits_ (with_bigits b bs)) with (used_digits_ b) in Hm. pose proof (pw_pos i) as Hpi.
  cbn [subtract_rest]. destruct (Nat.ltb_spec i (used_digits_ b)) as [Hlt|Hge].
  - assert (Eu : used_digits_ b = S i) by lia.
    destruct (top_bigit b G ltac:(lia)) as (d & Hd & Hdb & _). rewrite Eu in Hd.
    replace (S i - 1)%nat with i in Hd by lia. rewrite <- Hr in Hd by lia.
    destruct (Z.eqb_spec borrow 0) as [->|Hne].
    + exists bs, true. split; [done|split; [done|split; [lia|]]]. intros _. split; [done| |].
      * cbn. lia.
      * intros _. change (pw (used_digits_ b - 1) <= value bs). rewrite Eu.
        replace (S i - 1)%nat with i by lia. pose proof (value_ge bs i d Hb Hd). nia.
    + rewrite Hd. cbn [mbind option_bind].
      pose proof (mant_take _ W') as Ht. change (mant (with_bigits b bs)) with (value bs) in Ht.
      cbn [with_bigits used_digits_ bigits_] in Ht. rewrite Eu, (value_take_S _ _ _ Hd) in Ht.
      pose proof (value_bound (take i bs) ltac:(by apply Forall_take)) as Hlow.
      pose proof (lookup_lt_Some _ _ _ Hd) as Hlen. rewrite length_take_le in Hlow by lia.
      assert (Hdc : borrow <= d) by nia.
      assert (Hx : bigit (d - borrow)) by (unfold bigit; lia).
      rewrite (Chunk_bigit _ Hx), low_bigit, (Z.mod_small (d - borrow)) by exact Hx.
      rewrite set_bigit_ok by done. cbn [mbind option_bind].
      destruct (Nat.ltb_spec (i + 2) (used_digits_ b)); [lia|]. cbn [subtract_rest].
      exists (<[i := d - borrow]> bs), false. split; [done|]. split; [|split; [|done]].
      * apply prefix_done_wf; [done|]. rewrite Eu. apply prefix_done_insert; [by split|done].
      * rewrite (value_insert _ _ d) by done. lia.
  - exists bs, false. split; [done|]. split; [done|split; [|done]].
    assert (Eu : used_digits_ b = i) by lia. rewrite Eu in Hm. assert (borrow = 0) by nia. lia.
Qed.

Lemma SubtractTimes_val b other factor :
  big b -> big other -> (exponent_ b <= exponent_ other)%nat -> 0 <= factor < B ->
  factor * val other <= val b -> (BigitLength b <= S (BigitLength other))%nat ->
  exists b', SubtractTimes b other factor = Some b'
    /\ big b' /\ val b' = val b - factor * val other /\ (exponent_ b' <= exponent_ b)%nat.
Proof.
  intros G Go He Hf Hle Hlen. unfold SubtractTimes. destruct (Z.ltb_spec factor 3) as [H3|H3].
  { destruct (subtract_repeat b other (Z.to_nat factor) G Go He) as (b' & E & G' & V' & X');
      rewrite ?Z2Nat.id in * by lia; [lia|]. exists b'. done. }
  pose proof (val_bound other Go) as Hvo. pose proof (val_bound b G) as Hvb.
  assert (Hlong : (BigitLength other <= BigitLength b)%nat).
  { apply BigitLength_bound; [done|]. nia. }
  pose proof (wf_used b (big_wf b G)) as Hu. unfold BigitLength in Hlen, Hlong.
  set (offset := (exponent_ other - exponent_ b)%nat).
  set (T := mant b - factor * mant other * pw offset).
  assert (Hval : val b - factor * val other = T * pw (exponent_ b)).
  { unfold T, val. replace (exponent_ other) with (offset + exponent_ b)%nat by lia. rewrite pw_add. lia. }
  assert (HT : 0 <= T) by (pose proof (pw_pos (exponent_ b)); nia).
  destruct (times_loop b other factor T G Go) as (bs & borrow & E & Hpd & Hc & Hv); [fold offset; lia|done|done|].
  fold offset in E, Hpd, Hv. cbv zeta in E |- *. rewrite E. cbn [mbind option_bind].
  destruct (subtract_rest_spec kBigitCapacity b bs (used_digits_ other + offset) borrow T ltac:(unfold kBigitCapacity; lia) G Hpd ltac:(lia) ltac:(lia) Hv HT)
    as (bs' & early & -> & W' & Hv' & Hearly). cbn [mbind option_bind].
  assert (Ev : val (with_bigits b bs') = val b - factor * val other).
  { rewrite Hval, <- Hv'. done. }
  destruct early.
  - exists (with_bigits b bs'). split; [done|split; [by apply Hearly|split; [done|done]]].
  - destruct (Clamp_spec (with_bigits b bs') W') as (b' & -> & G' & V' & X').
    exists b'. split; [done|split; [done|split; [by rewrite V'|done]]].
Qed.

Lemma LessEqual_val a b : big a -> big b -> LessEqual a b = Some (val a <=? val b).
Proof.
  intros Ga Gb. unfold LessEqual. rewrite Compare_val by done. cbn [mbind option_bind]. f_equal.
  destruct (Z.leb_spec (val a) (val b)).
  - apply Z.leb_le. apply Z.sgn_nonpos. lia.
  - apply Z.leb_gt. apply Z.sgn_pos_iff. lia.
Qed.

Section division.
Context (other : Bignum) (v0 : Z).
Hypothesis (Go : big other) (Hother : used_digits_ other <> 0%nat).
Hypothesis (Hquot : v0 < 2 ^ 16 * val other).

Let n := BigitLength other.

(** [result] multiples are gone. *)
Record div_inv (b : Bignum) (result : Z) : Prop := {
  dv_big : big b;
  dv_exp : (exponent_ b <= exponent_ other)%nat;
  dv_len : (BigitLength b <= S n)%nat;
  dv_result : 0 <= result;
  dv_sum : val b + result * val other = v0
}.

Lemma other_pos : 0 < val other.
Proof.
  unfold val. pose proof (nonzero_used other Go Hother). pose proof (pw_pos (exponent_ other)). nia.
Qed.

Lemma div_result b result : div_inv b result -> 0 <= result < 2 ^ 16.
Proof.
  intros [G _ _ Hr Hs]. pose proof other_pos. pose proof (val_bound b G). split; [done|]. nia.
Qed.

Lemma uint16_small r : 0 <= r < 2 ^ 16 -> uint 16 r = r.
Proof. apply Z.mod_small. Qed.

Lemma div_subtract b result factor :
  div_inv b result -> 0 <= factor < B -> factor * val other <= val b ->
  exists b', SubtractTimes b other factor = Some b' /\ div_inv b' (result + factor)
    /\ val b' = val b - factor * val other /\ uint 16 (result + factor) = result + factor.
Proof.
  intros I Hf Hle. pose proof I as [G He Hl Hr Hs]. pose proof other_pos. pose proof (val_bound b G) as Hb.
  destruct (SubtractTimes_val b other factor G Go He Hf Hle Hl) as (b' & E & G' & V' & X').
  assert (I' : div_inv b' (result + factor)).
  { split; [done|lia| |lia|lia]. apply BigitLength_bound; [done|].
    pose proof (pw_mono _ _ Hl). nia. }
  exists b'. split; [done|split; [done|split; [done|]]]. apply uint16_small. by apply (div_result b').
Qed.

Lemma div_subtract_one b result :
  div_inv b result -> val other <= val b ->
  exists b', SubtractBignum b other = Some b' /\ div_inv b' (result + 1)
    /\ val b' = val b - val other /\ uint 16 (result + 1) = result + 1.
Proof.
  intros I Hle. destruct (div_subtract b result 1 I ltac:(unfold B; lia) ltac:(lia)) as (b' & E & H).
  unfold SubtractTimes in E. cbn in E. change (Z.to_nat 1) with 1%nat in E. cbn [for_loop] in E. exists b'. rewrite Z.mul_1_l in H. split; [|done].
  destruct (SubtractBignum b other) as [b1|]; [exact E|done].
Qed.

(** The dividend while its highest bigit is above the divisor's: it never gets
    to 0; if it becomes the shorter one, the divisor starts with [B - 1]. *)
Definition long_inv (b : Bignum) : Prop :=
  (n <= BigitLength b)%nat
  \/ (0 < val b /\ used_digits_ other <> 1%nat /\ (BigitLength b < n)%nat
      /\ bigits_ other !! (used_digits_ other - 1)%nat = Some (B - 1)).

Lemma n_pos : (0 < n)%nat.
Proof. unfold n, BigitLength. lia. Qed.

Lemma long_subtract b b' d :
  big b -> big b' -> BigitLength b = S n -> 1 <= d < B -> d * pw n <= val b ->
  val b' = val b - d * val other -> long_inv b'.
Proof.
  intros G G' El Hd Hlow V'. unfold long_inv. destruct (Nat.le_gt_cases n (BigitLength b')) as [|Hshort]; [by left|right].
  pose proof (val_bound other Go) as Ho. fold n in Ho. pose proof n_pos as Hn.
  assert (Hpos : 0 < val b') by nia. split; [done|].
  pose proof (val_bound b' G') as Hb'. pose proof (pw_mono (BigitLength b') (n - 1) ltac:(lia)) as Hm.
  assert (En : pw n = B * pw (n - 1)) by (rewrite <- pw_S; f_equal; lia). pose proof (pw_pos (n - 1)) as Hp1.
  assert (Hov : (B - 1) * pw (n - 1) < val other) by nia.
  destruct (top_bigit other Go Hother) as (o & Eo & Hob & Hlo & Hhi). fold n in Hlo, Hhi.
  assert (o = B - 1) as -> by nia. split; [|done]. intros H1.
  assert (Ev : val other = (B - 1) * pw (n - 1)); [|lia].
  unfold val. rewrite (mant_take other (big_wf other Go)), H1. rewrite H1 in Eo.
  rewrite (value_take_S 0 _ (B - 1) Eo), take_0, pw_0. cbn [value].
  unfold n, BigitLength. rewrite H1. replace (1 + exponent_ other - 1)%nat with (exponent_ other) by lia. lia.
Qed.

(** The loop that shortens the dividend. *)
Lemma shorten_loop b :
  div_inv b 0 -> (n <= BigitLength b)%nat ->
  exists b' result, while_loop division_fuel (fun '(b, _) => (n <? BigitLength b)%nat)
    (fun '(b, result) =>
       d ← bigits_ b !! (used_digits_ b - 1)%nat;
       b ← SubtractTimes b other d;
       Some (b, uint 16 (result + d))) (b, 0) = Some (b', result)
    /\ div_inv b' result /\ (BigitLength b' <= n)%nat /\ long_inv b'.
Proof.
  intros I0 Hn.
  destruct (while_loop_inv (fun '(b, result) => div_inv b result /\ long_inv b)
    (fun '(_, result) => Z.to_nat (65536 - result)) division_fuel (fun '(b, _) => (n <? BigitLength b)%nat)
    (fun '(b, result) =>
       d ← bigits_ b !! (used_digits_ b - 1)%nat;
       b ← SubtractTimes b other d;
       Some (b, uint 16 (result + d))) (b, 0)) as ([b' result] & E & (I & L) & Hc).
  - split; [done|by left].
  - unfold division_fuel. apply Z2Nat.inj_lt; lia.
  - intros [b1 r1] (I1 & _) Hc. apply Nat.ltb_lt in Hc. pose proof (dv_big _ _ I1) as G1.
    pose proof (dv_len _ _ I1) as Hl1. assert (El : BigitLength b1 = S n) by lia.
    assert (Hu : used_digits_ b1 <> 0%nat).
    { intros Hu. pose proof (big_zero b1 G1 Hu). unfold BigitLength in El. lia. }
    destruct (top_bigit b1 G1 Hu) as (d & -> & Hd & Hlow & _). rewrite El in Hlow.
    replace (S n - 1)%nat with n in Hlow by lia. cbn [mbind option_bind].
    pose proof (val_bound other Go) as Ho. fold n in Ho.
    destruct (div_subtract b1 r1 d I1 ltac:(lia) ltac:(nia)) as (b2 & -> & I2 & V2 & E2).
    cbn [mbind option_bind]. rewrite E2. eexists. split; [reflexivity|]. pose proof (div_result _ _ I2).
    split; [split; [done|]|lia]. by apply (long_subtract b1 b2 d); try apply I2.
  - apply Nat.ltb_ge in Hc. exists b', result. done.
Qed.

(** The loop of single subtractions. *)
Lemma single_loop b result :
  div_inv b result ->
  exists b' result' le, while_loop division_fuel (fun '(_, _, le) => (le : bool))
    (fun '(b, result, _) =>
       b ← SubtractBignum b other;
       le ← LessEqual other b;
       Some (b, uint 16 (result + 1), le)) (b, result, val other <=? val b) = Some (b', result', le)
    /\ div_inv b' result' /\ val b' < val other.
Proof.
  intros I0.
  destruct (while_loop_inv (fun '(b, result, le) => div_inv b result /\ le = (val other <=? val b))
    (fun '(_, result, _) => Z.to_nat (65536 - result)) division_fuel (fun '(_, _, le) => (le : bool))
    (fun '(b, result, _) =>
       b ← SubtractBignum b other;
       le ← LessEqual other b;
       Some (b, uint 16 (result + 1), le)) (b, result, val other <=? val b)) as ([[b' r'] le] & E & (I & ->) & Hc).
  - done.
  - pose proof (div_result _ _ I0). unfold division_fuel. apply Z2Nat.inj_lt; lia.
  - intros [[b1 r1] le] (I1 & ->) Hc. apply Z.leb_le in Hc.
    destruct (div_subtract_one b1 r1 I1 Hc) as (b2 & -> & I2 & V2 & E2). cbn [mbind option_bind].
    rewrite LessEqual_val by (done || apply I2). cbn [mbind option_bind]. rewrite E2.
    eexists. split; [reflexivity|]. pose proof (div_result _ _ I2). split; [done|lia].
  - apply Z.leb_gt in Hc. exists b', r', (val other <=? val b'). done.
Qed.

(** What the quotient and the remainder have to be. *)
Definition division_result (s : option (Bignum * Z)) : Prop :=
  exists b' result, s = Some (b', result) /\ big b' /\ val b' = v0 mod val other /\ result = v0 / val other.

Lemma division_intro b result :
  big b -> 0 <= result -> val b + result * val other = v0 -> val b < val other ->
  division_result (Some (b, uint 16 result)).
Proof.
  intros G Hr Hs Hlt. pose proof (val_bound b G) as Hb. pose proof other_pos.
  rewrite uint16_small by nia. exists b, result. split; [done|split; [done|]].
  split; [apply (Z.mod_unique v0 (val other) result)|apply (Z.div_unique v0 (val other) result (val b))]; lia.
Qed.

Lemma div_done b result : div_inv b result -> val b < val other -> division_result (Some (b, result)).
Proof.
  intros I Hlt. rewrite <- (uint16_small result) by by apply (div_result b).
  apply division_intro; try apply I. done.
Qed.
End division.

(** The shortcut for a divisor of one bigit. *)
Lemma shortcut_val b other tb ob :
  big b -> big other -> used_digits_ b <> 0%nat -> used_digits_ other = 1%nat ->
  BigitLength b = BigitLength other ->
  bigits_ b !! (used_digits_ b - 1)%nat = Some tb -> bigits_ other !! 0%nat = Some ob ->
  exists b', (bs ← set_bigit (bigits_ b) (used_digits_ b - 1) (Chunk (tb - ob * (tb / ob)));
              Clamp (with_bigits b bs)) = Some b'
    /\ big b' /\ val b' = val b - tb / ob * val other /\ val b' < val other.
Proof.
  intros G Go Hu H1 El Htb Hob. pose proof (big_wf b G) as W. pose proof (wf_used b W).
  destruct (top_bigit b G Hu) as (d & Hd & Hdb & Hlo & Hhi). rewrite Htb in Hd. injection Hd as <-.
  destruct (top_bigit other Go ltac:(lia)) as (d' & Hd' & Hob' & _). rewrite H1 in Hd'. cbn in Hd'.
  rewrite Hob in Hd'. injection Hd' as <-.
  pose proof (Z.div_mod tb ob ltac:(lia)) as Hdm. pose proof (Z.mod_pos_bound tb ob ltac:(lia)) as Hmb.
  set (q := tb / ob) in *. set (m := tb mod ob) in *.
  assert (Ex : tb - ob * q = m) by lia. rewrite Ex, Chunk_bigit by (unfold bigit; lia).
  assert (Hlt : (used_digits_ b - 1 < length (bigits_ b))%nat) by (rewrite (wf_length b W); lia).
  rewrite set_bigit_ok by done. cbn [mbind option_bind].
  destruct (Clamp_spec (with_bigits b (<[(used_digits_ b - 1)%nat := m]> (bigits_ b)))) as (b' & -> & G' & V' & _).
  { apply prefix_done_wf; [done|]. replace (used_digits_ b) with (S (used_digits_ b - 1)) at 2 by lia.
    apply prefix_done_insert; [apply prefix_done_refl, W|unfold bigit; lia]. }
  exists b'. split; [done|split; [done|]].
  assert (Ev : val other = ob * pw (BigitLength b - 1)).
  { unfold val. rewrite (mant_take other (big_wf other Go)), H1, (value_take_S 0 _ ob Hob), take_0, pw_0.
    cbn [value]. rewrite El. unfold BigitLength. rewrite H1.
    replace (1 + exponent_ other - 1)%nat with (exponent_ other) by lia. lia. }
  assert (Eb : val b' = val b - q * val other).
  { rewrite V', Ev. unfold val, mant. cbn [with_bigits bigits_ exponent_]. rewrite (value_insert _ _ tb) by done.
    replace (BigitLength b - 1)%nat with (used_digits_ b - 1 + exponent_ b)%nat by (unfold BigitLength; lia).
    rewrite pw_add. rewrite Hdm. ring. }
  split; [done|]. rewrite Eb, Ev. pose proof (pw_pos (BigitLength b - 1)). nia.
Qed.

(** The estimate from the highest bigits; when it is not below the quotient. *)
Lemma estimate_spec b other tb ob :
  let est := tb / (ob + 1) in
  big b -> big other ->
  BigitLength b = BigitLength other \/ (val b < val other /\ ob = B - 1) ->
  1 <= tb < B -> 1 <= ob < B ->
  tb * pw (BigitLength b - 1) <= val b < (tb + 1) * pw (BigitLength b - 1) ->
  ob * pw (BigitLength other - 1) <= val other < (ob + 1) * pw (BigitLength other - 1) ->
  0 <= est < B /\ est * val other <= val b /\ Chunk (ob * (est + 1)) = ob * (est + 1)
  /\ (tb < ob * (est + 1) -> val b - est * val other < val other).
Proof.
  intros est G Go El Htb Hob Hb Ho. pose proof (pw_pos (BigitLength b - 1)) as Hp.
  pose proof (Z.div_mod tb (ob + 1) ltac:(lia)) as Hdm. pose proof (Z.mod_pos_bound tb (ob + 1) ltac:(lia)) as Hmb.
  fold est in Hdm. set (m := tb mod (ob + 1)) in *. clearbody est m.
  assert (He : 0 <= est < B) by nia. split; [done|].
  assert (Hsmall : 0 <= ob * (est + 1) < 2 ^ 32) by (unfold B in *; nia).
  split; [|split; [by apply Z.mod_small|]].
  - destruct El as [El|(Hlt & ->)].
    + rewrite El in *. apply Z.le_trans with (tb * pw (BigitLength other - 1)); [|lia].
      apply Z.le_trans with (est * ((ob + 1) * pw (BigitLength other - 1))); [nia|].
      rewrite Z.mul_assoc. apply Z.mul_le_mono_nonneg_r; [lia|]. nia.
    + assert (est = 0) as -> by nia. pose proof (val_bound b G). lia.
  - intros H. destruct El as [El|(Hlt & ->)].
    + rewrite El in *. assert ((tb + 1) * pw (BigitLength other - 1) <= ob * (est + 1) * pw (BigitLength other - 1))
        by (apply Z.mul_le_mono_nonneg_r; lia). nia.
    + pose proof (val_bound other Go). nia.
Qed.

Lemma DivideModulo_val b other :
  big b -> big other -> used_digits_ other <> 0%nat ->
  val b < 2 ^ 16 * val other -> (BigitLength b <= S (BigitLength other))%nat ->
  (BigitLength b <= Nat.min (exponent_ b) (exponent_ other) + kBigitCapacity)%nat ->
  division_result other (val b) (DivideModuloIntBignum b other).
Proof.
  intros G Go Hother Hquot Hlen Hcap. unfold DivideModuloIntBignum.
  pose proof (val_bound b G) as Hvb. pose proof (val_bound other Go) as Hvo.
  destruct (Nat.ltb_spec (BigitLength b) (BigitLength other)) as [Hlt|Hge].
  { pose proof (BigitLength_lower other _ Go Hlt).
    exists b, 0. split; [done|split; [done|]]. rewrite Z.mod_small, Z.div_small by lia. done. }
  destruct (Align_spec b other G) as (b1 & -> & [G1 M1 X1] & U1); [unfold BigitLength in *; lia|].
  cbn [mbind option_bind].
  assert (V1 : val b1 = val b).
  { unfold val at 1. rewrite M1, X1, <- Z.mul_assoc, <- pw_add. unfold val. do 2 f_equal. lia. }
  assert (L1 : BigitLength b1 = BigitLength b) by (unfold BigitLength in *; lia).
  assert (I1 : div_inv other (val b) b1 0) by (split; [done|lia|lia|lia|lia]).
  destruct (shorten_loop other (val b) Go Hother Hquot b1 I1) as (b2 & r2 & -> & I2 & L2 & Long2); [lia|].
  cbn [mbind option_bind]. pose proof I2 as [G2 X2 _ R2 S2].
  assert (U2 : used_digits_ b2 <> 0%nat).
  { intros Hz. pose proof (big_zero b2 G2 Hz) as Hx. destruct Long2 as [Hl|(Hpos & _)].
    - unfold BigitLength in Hl. lia.
    - unfold val in Hpos. rewrite (zero_used b2 (big_wf b2 G2) Hz) in Hpos. lia. }
  destruct (top_bigit b2 G2 U2) as (tb & Htb & Htbb & Htl & Hth).
  destruct (top_bigit other Go Hother) as (ob & Hob & Hobb & Hol & Hoh).
  rewrite Htb, Hob. cbn [mbind option_bind].
  assert (El2 : BigitLength b2 = BigitLength other \/ (val b2 < val other /\ ob = B - 1)).
  { destruct Long2 as [|(_ & _ & Hs & Hb1)]; [left; lia|right]. rewrite Hob in Hb1. injection Hb1 as ->.
    pose proof (BigitLength_lower other _ Go Hs). pose proof (val_bound b2 G2). lia. }
  destruct (Nat.eqb_spec (used_digits_ other) 1) as [H1|H1].
  - (* the shortcut *)
    assert (El : BigitLength b2 = BigitLength other) by (destruct Long2 as [|(_ & Hn & _)]; [lia|done]).
    rewrite H1 in Hob. cbn in Hob.
    destruct (shortcut_val b2 other tb ob G2 Go U2 H1 El Htb Hob) as (b3 & E3 & G3 & V3 & Lt3).
    destruct (set_bigit _ _ _) as [bs|]; [|done]. cbn [mbind option_bind] in *. rewrite E3. cbn [mbind option_bind].
    assert (Hq : 0 <= tb / ob) by (apply Z.div_pos; lia).
    apply division_intro; done || lia.
  - (* estimate, then single subtractions *)
    destruct (estimate_spec b2 other tb ob G2 Go El2 Htbb Hobb) as (He & Hle & Hc & Hlt); [done..|].
    set (est := tb / (ob + 1)) in *.
    destruct (div_subtract other (val b) Go Hother Hquot b2 r2 est I2 He Hle) as (b3 & -> & I3 & V3 & ->).
    cbn [mbind option_bind]. rewrite Hc. destruct (Z.ltb_spec tb (ob * (est + 1))) as [H|H].
    { apply div_done; [done..|]. specialize (Hlt H). lia. }
    rewrite LessEqual_val by (done || apply I3). cbn [mbind option_bind].
    destruct (single_loop other (val b) Go Hother Hquot b3 _ I3) as (b4 & r4 & le & -> & I4 & Lt4).
    cbn [mbind option_bind]. by apply div_done.
Qed.

(** ** The main theorems *)

(** The Comba squaring in place: the columns of the product, computed from
    the copy above the number while its lower half is overwritten, give the
    square of every number of at most 64 bigits. *)
Theorem Square_correct b :
  big b -> (used_digits_ b <= 64)%nat ->
  exists b', Square b = Some b' /\ big b' /\ val b' = val b * val b.
Proof. apply Square_val. Qed.

Lemma Square_correct_witness :
  exists b', Square (num [B - 1; 5; B - 1] 2) = Some b' /\ big b'
    /\ val b' = val (num [B - 1; 5; B - 1] 2) * val (num [B - 1; 5; B - 1] 2).
Proof.
  apply (Square_correct (num [B - 1; 5; B - 1] 2)); [apply is_big_sound|apply Nat.leb_le];
    vm_compute; reflexivity.
Defined.

(** C15: [AssignPowerUInt16] is the power, through the three phases: the factors
    of two are set aside, the exponent's leading bits are worked off in 64
    bits, with a product put off when the high bits do not leave room, and the
    rest with bignums; every loop ends. *)
Theorem AssignPowerUInt16_correct b base p :
  wf b -> 0 < base < 2 ^ 16 -> 0 <= p -> power_fits base p ->
  exists b', AssignPowerUInt16 b base p = Some b' /\ big b' /\ val b' = base ^ p.
Proof. apply AssignPowerUInt16_val. Qed.

Lemma AssignPowerUInt16_correct_witness :
  exists b', AssignPowerUInt16 Bignum_new 10 340 = Some b' /\ big b' /\ val b' = 10 ^ 340.
Proof.
  apply (AssignPowerUInt16_correct Bignum_new 10 340); [apply Bignum_new_big|lia|lia|].
  vm_compute. discriminate.
Defined.

(** [PlusCompare] gives the sign of [a + b - c] without the sum: the early
    returns by the lengths are right, and the borrow of at most one bigit
    decides from the highest bigit down. *)
Theorem PlusCompare_correct a b c :
  big a -> big b -> big c -> PlusCompare a b c = Some (Z.sgn (val a + val b - val c)).
Proof. apply PlusCompare_val. Qed.

Lemma PlusCompare_correct_witness :
  let a := num [B - 1; B - 1] 1 in let c := num [1] 3 in
  PlusCompare a (num [1] 1) c = Some (Z.sgn (val a + val (num [1] 1) - val c)).
Proof.
  apply (PlusCompare_correct (num [B - 1; B - 1] 1) (num [1] 1) (num [1] 3));
    apply is_big_sound; vm_compute; reflexivity.
Defined.

(** [DivideModuloIntBignum] returns the quotient and leaves the remainder
    when the quotient is below 2^16 and the dividend has at most one bigit more
    than the divisor: the naive loop, the shortcut, the estimate from the
    highest bigits and the single subtractions. *)
Theorem DivideModuloIntBignum_correct b other :
  big b -> big other -> used_digits_ other <> 0%nat ->
  val b < 2 ^ 16 * val other -> (BigitLength b <= S (BigitLength other))%nat ->
  (BigitLength b <= Nat.min (exponent_ b) (exponent_ other) + kBigitCapacity)%nat ->
  exists b' result, DivideModuloIntBignum b other = Some (b', result)
    /\ big b' /\ val b' = val b mod val other /\ result = val b / val other.
Proof. apply DivideModulo_val. Qed.

Lemma DivideModuloIntBignum_correct_witness :
  let b := num [4; 0; 9; 61] 0 in let other := num [5; 6; B / 16] 0 in
  exists b' result, DivideModuloIntBignum b other = Some (b', result)
    /\ big b' /\ val b' = val b mod val other /\ result = val b / val other.
Proof.
  apply (DivideModuloIntBignum_correct (num [4; 0; 9; 61] 0) (num [5; 6; B / 16] 0)).
  - apply is_big_sound. vm_compute. reflexivity.
  - apply is_big_sound. vm_compute. reflexivity.
  - discriminate.
  - vm_compute. reflexivity.
  - apply Nat.leb_le. vm_compute. reflexivity.
  - apply Nat.leb_le. vm_compute. reflexivity.
Defined.

(** The second loop of [SubtractTimes] advances its index twice: when the
    borrow runs through more than one bigit above the subtrahend, a bigit is
    skipped and the difference is wrong.  Here B^2 - 3 comes out as 2 B^2 - 3. *)
Theorem SubtractTimes_skips_bigit :
  big (num [0; 0; 1] 0) /\ big (num [1] 0)
  /\ exists b', SubtractTimes (num [0; 0; 1] 0) (num [1] 0) 3 = Some b'
    /\ val b' = 2 * B * B - 3 /\ val (num [0; 0; 1] 0) - 3 * val (num [1] 0) = B * B - 3.
Proof.
  split; [apply is_big_sound; vm_compute; reflexivity|].
  split; [apply is_big_sound; vm_compute; reflexivity|].
  eexists. split; [vm_compute; reflexivity|]. split; vm_compute; reflexivity.
Qed.

(** The naive loop of [DivideModuloIntBignum] can leave a number that is
    shorter than the divisor, which the [ASSERT] behind it excludes: B^2 by
    B^2 - 1 is one subtraction, and the 1 that is left has one bigit. *)
Theorem division_loop_overshoots :
  let b := num [0; 0; 1] 0 in
  let other := num [B - 1; B - 1] 0 in
  big b /\ big other /\ BigitLength b = S (BigitLength other)
  /\ exists b', SubtractTimes b other 1 = Some b' /\ (BigitLength b' < BigitLength other)%nat.
Proof.
  split; [apply is_big_sound; vm_compute; reflexivity|].
  split; [apply is_big_sound; vm_compute; reflexivity|]. split; [reflexivity|].
  eexists. split; [vm_compute; reflexivity|]. apply Nat.ltb_lt. vm_compute. reflexivity.
Qed.
