(* ===== verification/Double.v ===== *)
(** * Double: the fields of an IEEE double, and 64-bit floating point

    Models the classes [DiyFp] (src/diy-fp.h, src/diy-fp.cc) and [Double]
    (src/double.h).  A [double] is its 64 bits, a [uint64_t]; [BitCast] is the
    identity on them.  A [DiyFp] has a 64-bit significand without sign and an
    [int] exponent that stays far from its bounds. *)

From S2P Require Import Prelude.

Open Scope Z_scope.

Ltac Zify.zify_post_hook ::= idtac.

(** ** DiyFp *)

Record DiyFp := mkDiyFp { f_ : Z; e_ : Z }.

Definition u64 (z : Z) : Z := uint 64 z.

Definition DiyFp_kSignificandSize := 64.
Definition kUint64MSB := Z.shiftl 1 63.
Definition k10MSBits := Z.shiftl 0x3FF 54.
Definition kM32 := 0xFFFFFFFF.

Definition Subtract (a b : DiyFp) : DiyFp := mkDiyFp (u64 (f_ a - f_ b)) (e_ a).
Definition Minus (a b : DiyFp) : DiyFp := Subtract a b.

Definition Multiply (this other : DiyFp) : DiyFp :=
  let a := Z.shiftr (f_ this) 32 in
  let b := Z.land (f_ this) kM32 in
  let c := Z.shiftr (f_ other) 32 in
  let d := Z.land (f_ other) kM32 in
  let ac := u64 (a * c) in
  let bc := u64 (b * c) in
  let ad := u64 (a * d) in
  let bd := u64 (b * d) in
  let tmp := u64 (Z.shiftr bd 32 + Z.land ad kM32 + Z.land bc kM32) in
  let tmp := u64 (tmp + Z.shiftl 1 31) in
  let result_f := u64 (ac + Z.shiftr ad 32 + Z.shiftr bc 32 + Z.shiftr tmp 32) in
  mkDiyFp result_f (e_ this + (e_ other + 64)).

Definition Times (a b : DiyFp) : DiyFp := Multiply a b.

(** Shifts left by [n] bits at a time while no bit of [mask] is set; [None] when
    the fuel does not do, as for 0. *)
Definition shift_up (fuel : nat) (mask n : Z) (a : DiyFp) : option DiyFp :=
  while_loop fuel (fun a => Z.land (f_ a) mask =? 0)
    (fun a => Some (mkDiyFp (u64 (Z.shiftl (f_ a) n)) (e_ a - n))) a.

Definition Normalize (a : DiyFp) : option DiyFp :=
  a ← shift_up 8 k10MSBits 10 a; shift_up 11 kUint64MSB 1 a.

(** ** Double *)

Definition kSignMask := 0x8000000000000000.
Definition kExponentMask := 0x7FF0000000000000.
Definition kSignificandMask := 0x000FFFFFFFFFFFFF.
Definition kHiddenBit := 0x0010000000000000.
Definition kPhysicalSignificandSize := 52.
Definition kSignificandSize := 53.
Definition kExponentBias := 0x3FF + kPhysicalSignificandSize.
Definition kDenormalExponent := - kExponentBias + 1.
Definition kMaxExponent := 0x7FF - kExponentBias.
Definition kInfinity := 0x7FF0000000000000.

Definition IsDenormal (d64 : Z) : bool := Z.land d64 kExponentMask =? 0.
Definition IsSpecial (d64 : Z) : bool := Z.land d64 kExponentMask =? kExponentMask.
Definition IsNan (d64 : Z) : bool :=
  (Z.land d64 kExponentMask =? kExponentMask) && negb (Z.land d64 kSignificandMask =? 0).
Definition IsInfinite (d64 : Z) : bool :=
  (Z.land d64 kExponentMask =? kExponentMask) && (Z.land d64 kSignificandMask =? 0).
Definition Sign (d64 : Z) : Z := if Z.land d64 kSignMask =? 0 then 1 else -1.

Definition Exponent (d64 : Z) : Z :=
  if IsDenormal d64 then kDenormalExponent
  else
    let biased_e := Z.shiftr (Z.land d64 kExponentMask) kPhysicalSignificandSize in
    biased_e - kExponentBias.

Definition Significand (d64 : Z) : Z :=
  let significand := Z.land d64 kSignificandMask in
  if negb (IsDenormal d64) then u64 (significand + kHiddenBit) else significand.

Definition AsDiyFp (d64 : Z) : DiyFp := mkDiyFp (Significand d64) (Exponent d64).

Definition AsNormalizedDiyFp (d64 : Z) : option DiyFp :=
  a ← shift_up 54 kHiddenBit 1 (mkDiyFp (Significand d64) (Exponent d64));
  Some (mkDiyFp (u64 (Z.shiftl (f_ a) (DiyFp_kSignificandSize - kSignificandSize)))
          (e_ a - (DiyFp_kSignificandSize - kSignificandSize))).

Definition NextDouble (d64 : Z) : Z :=
  if d64 =? kInfinity then kInfinity
  else if (Sign d64 <? 0) && (Significand d64 =? 0) then 0
  else if Sign d64 <? 0 then u64 (d64 - 1)
  else u64 (d64 + 1).

Definition UpperBoundary (d64 : Z) : DiyFp :=
  mkDiyFp (u64 (Significand d64 * 2 + 1)) (Exponent d64 - 1).

(** The lower and the upper boundary. *)
Definition NormalizedBoundaries (d64 : Z) : option (DiyFp * DiyFp) :=
  let v := AsDiyFp d64 in
  let significand_is_zero := f_ v =? kHiddenBit in
  m_plus ← Normalize (mkDiyFp (u64 (Z.shiftl (f_ v) 1 + 1)) (e_ v - 1));
  let m_minus :=
    if significand_is_zero && negb (e_ v =? kDenormalExponent)
    then mkDiyFp (u64 (u64 (Z.shiftl (f_ v) 2) - 1)) (e_ v - 2)
    else mkDiyFp (u64 (u64 (Z.shiftl (f_ v) 1) - 1)) (e_ v - 1) in
  Some (mkDiyFp (u64 (Z.shiftl (f_ m_minus) (e_ m_minus - e_ m_plus))) (e_ m_plus), m_plus).

Definition SignificandSizeForOrderOfMagnitude (order : Z) : Z :=
  if kDenormalExponent + kSignificandSize <=? order then kSignificandSize
  else if order <=? kDenormalExponent then 0
  else order - kDenormalExponent.

Definition DiyFpToUint64 (diy_fp : DiyFp) : option Z :=
  a ← while_loop 12 (fun a => kHiddenBit + kSignificandMask <? f_ a)
        (fun a => Some (mkDiyFp (Z.shiftr (f_ a) 1) (e_ a + 1))) diy_fp;
  if kMaxExponent <=? e_ a then Some kInfinity
  else if e_ a <? kDenormalExponent then Some 0
  else
    b ← while_loop (S (Z.to_nat (e_ a - kDenormalExponent)))
          (fun b => (kDenormalExponent <? e_ b) && (Z.land (f_ b) kHiddenBit =? 0))
          (fun b => Some (mkDiyFp (u64 (Z.shiftl (f_ b) 1)) (e_ b - 1))) a;
    let biased_exponent :=
      if (e_ b =? kDenormalExponent) && (Z.land (f_ b) kHiddenBit =? 0) then 0
      else u64 (e_ b + kExponentBias) in
    Some (Z.lor (Z.land (f_ b) kSignificandMask)
            (u64 (Z.shiftl biased_exponent kPhysicalSignificandSize))).

(** ** Bit fields *)

Lemma land_field d lo len :
  0 <= lo -> 0 <= len ->
  Z.land d (Z.shiftl (2 ^ len - 1) lo) = (d / 2 ^ lo) mod 2 ^ len * 2 ^ lo.
Proof.
  intros Hlo Hlen.
  rewrite <- Z.land_ones, <- Z.shiftr_div_pow2, <- Z.shiftl_mul_pow2, Z.sub_1_r, <- Z.ones_equiv by lia.
  apply Z.bits_inj'. intros n Hn. rewrite Z.land_spec. destruct (Z.lt_ge_cases n lo) as [Hl|Hl].
  - rewrite !Z.shiftl_spec_low by lia. apply andb_false_r.
  - rewrite !Z.shiftl_spec_high, Z.land_spec, Z.shiftr_spec by lia. f_equal. f_equal. lia.
Qed.

Lemma significand_field d : Z.land d kSignificandMask = d mod 2 ^ 52.
Proof. change kSignificandMask with (2 ^ 52 - 1). by rewrite land_mask. Qed.

Lemma exponent_field d : Z.land d kExponentMask = (d / 2 ^ 52) mod 2 ^ 11 * 2 ^ 52.
Proof. change kExponentMask with (Z.shiftl (2 ^ 11 - 1) 52). by rewrite land_field. Qed.

(** Whether any of the highest bits is set. *)
Lemma high_mask x t w :
  0 <= t <= w -> 0 <= x < 2 ^ w -> (Z.land x (Z.shiftl (2 ^ (w - t) - 1) t) =? 0) = (x <? 2 ^ t).
Proof.
  intros Ht Hx. rewrite land_field by lia. assert (H2 : 0 < 2 ^ t) by (apply Z.pow_pos_nonneg; lia).
  rewrite (Z.mod_small (x / 2 ^ t)).
  2: { split; [apply Z.div_pos; lia|]. apply Z.div_lt_upper_bound; [done|].
       rewrite <- Z.pow_add_r by lia. replace (t + (w - t)) with w by lia. lia. }
  destruct (Z.ltb_spec x (2 ^ t)) as [Hlt|Hge]; [by rewrite Z.div_small by lia|].
  apply Z.eqb_neq. assert (1 <= x / 2 ^ t) by (apply Z.div_le_lower_bound; lia). nia.
Qed.

(** *** The finite doubles that are not negative *)

Definition finite (d64 : Z) : Prop := 0 <= d64 < kInfinity.

(** The value, in units of 2^-1074. *)
Definition dval (d64 : Z) : Z := Significand d64 * 2 ^ (Exponent d64 - kDenormalExponent).

Lemma IsDenormal_spec d : finite d -> IsDenormal d = (d / 2 ^ 52 =? 0).
Proof.
  intros Hd. unfold IsDenormal. rewrite exponent_field. unfold finite in Hd. change kInfinity with (2047 * 2 ^ 52) in Hd.
  assert (0 <= d / 2 ^ 52 < 2047) by (split; [apply Z.div_pos|apply Z.div_lt_upper_bound]; lia).
  rewrite Z.mod_small by lia. destruct (Z.eqb_spec (d / 2 ^ 52) 0) as [->|]; [done|]. apply Z.eqb_neq. lia.
Qed.

Lemma IsSpecial_spec d : finite d -> IsSpecial d = false.
Proof.
  intros Hd. unfold IsSpecial. rewrite exponent_field. unfold finite in Hd. change kInfinity with (2047 * 2 ^ 52) in Hd.
  assert (0 <= d / 2 ^ 52 < 2047) by (split; [apply Z.div_pos|apply Z.div_lt_upper_bound]; lia).
  rewrite Z.mod_small by lia. change kExponentMask with (2047 * 2 ^ 52). apply Z.eqb_neq. lia.
Qed.

(** The fields of a finite double, by its biased exponent and its mantissa. *)
Lemma decode d :
  finite d ->
  exists E M, d = E * 2 ^ 52 + M /\ 0 <= E < 2047 /\ 0 <= M < 2 ^ 52
    /\ IsDenormal d = (E =? 0)
    /\ Significand d = (if E =? 0 then M else 2 ^ 52 + M)
    /\ Exponent d = (if E =? 0 then kDenormalExponent else E - kExponentBias).
Proof.
  intros Hd. pose proof (IsDenormal_spec d Hd) as Hden. unfold finite in Hd.
  change kInfinity with (2047 * 2 ^ 52) in Hd.
  exists (d / 2 ^ 52), (d mod 2 ^ 52). pose proof (Z.div_mod d (2 ^ 52) ltac:(lia)).
  pose proof (Z.mod_pos_bound d (2 ^ 52) ltac:(lia)) as HM.
  assert (HE : 0 <= d / 2 ^ 52 < 2047) by (split; [apply Z.div_pos|apply Z.div_lt_upper_bound]; lia).
  split; [lia|]. split; [done|]. split; [done|]. split; [done|]. unfold Significand, Exponent. rewrite Hden.
  rewrite significand_field, exponent_field. rewrite (Z.mod_small (d / 2 ^ 52)) by lia.
  unfold kPhysicalSignificandSize. rewrite Z.shiftr_div_pow2, Z.div_mul by lia.
  destruct (Z.eqb_spec (d / 2 ^ 52) 0); [done|]. split; [|done]. cbn [negb].
  unfold u64, uint. change kHiddenBit with (2 ^ 52). rewrite Z.mod_small by lia. lia.
Qed.

Lemma fields_bound d :
  finite d -> 0 <= Significand d < 2 ^ 53 /\ kDenormalExponent <= Exponent d <= 971
    /\ (Exponent d <> kDenormalExponent -> 2 ^ 52 <= Significand d) /\ (d <> 0 -> Significand d <> 0).
Proof.
  intros Hd. destruct (decode d Hd) as (E & M & -> & HE & HM & _ & -> & ->).
  unfold kDenormalExponent, kExponentBias, kPhysicalSignificandSize.
  destruct (Z.eqb_spec E 0); lia.
Qed.

(** The value of a double and of its successor. *)
Lemma dval_next d :
  finite d -> finite (d + 1) -> dval (d + 1) = dval d + 2 ^ (Exponent d - kDenormalExponent).
Proof.
  intros Hd Hd'. unfold dval. destruct (decode d Hd) as (E & M & Ed & HE & HM & _ & -> & ->).
  destruct (decode (d + 1) Hd') as (E' & M' & Ed' & HE' & HM' & _ & -> & ->).
  assert (H : (E' = E /\ M' = M + 1) \/ (E' = E + 1 /\ M' = 0 /\ M = 2 ^ 52 - 1)) by lia.
  destruct H as [(-> & ->)|(-> & -> & ->)].
  - destruct (Z.eqb_spec E 0); lia.
  - unfold kDenormalExponent. destruct (Z.eqb_spec (E + 1) 0); [lia|]. destruct (Z.eqb_spec E 0) as [->|]; [done|].
    replace (E + 1 - kExponentBias - (- kExponentBias + 1)) with (1 + (E - kExponentBias - (- kExponentBias + 1))) by lia.
    rewrite Z.pow_add_r, Z.pow_1_r by lia. lia.
Qed.

Lemma dval_pos d : finite d -> d <> 0 -> 0 < dval d.
Proof.
  intros Hd H0. destruct (fields_bound d Hd) as (H1 & H2 & _ & H3). specialize (H3 H0).
  unfold dval. pose proof (Z.pow_pos_nonneg 2 (Exponent d - kDenormalExponent) ltac:(lia) ltac:(lia)). nia.
Qed.

(** ** Operations *)

Definition is_u64 (z : Z) : Prop := 0 <= z < 2 ^ 64.

Lemma u64_small z : is_u64 z -> u64 z = z.
Proof. apply Z.mod_small. Qed.

Lemma split32 z : is_u64 z ->
  exists h l, Z.shiftr z 32 = h /\ Z.land z kM32 = l /\ z = h * 2 ^ 32 + l /\ 0 <= h < 2 ^ 32 /\ 0 <= l < 2 ^ 32.
Proof.
  intros Hz. unfold is_u64 in Hz. exists (z / 2 ^ 32), (z mod 2 ^ 32). rewrite Z.shiftr_div_pow2 by lia.
  split; [done|]. change kM32 with (2 ^ 32 - 1). rewrite land_mask by lia. split; [done|].
  pose proof (Z.div_mod z (2 ^ 32) ltac:(lia)). pose proof (Z.mod_pos_bound z (2 ^ 32) ltac:(lia)).
  split; [lia|split; [|done]]. split; [apply Z.div_pos|apply Z.div_lt_upper_bound]; lia.
Qed.

Lemma Multiply_f x y :
  is_u64 (f_ x) -> is_u64 (f_ y) ->
  f_ (Multiply x y) = (f_ x * f_ y + 2 ^ 63) / 2 ^ 64 /\ is_u64 (f_ (Multiply x y)).
Proof.
  intros Hx Hy. unfold Multiply. cbn [f_].
  destruct (split32 _ Hx) as (a & b & -> & -> & Ex & Ha & Hb).
  destruct (split32 _ Hy) as (c & d & -> & -> & Ey & Hc & Hd).
  rewrite (u64_small (a * c)), (u64_small (b * c)), (u64_small (a * d)), (u64_small (b * d)) by (unfold is_u64; nia).
  destruct (split32 (a * d)) as (adh & adl & -> & -> & Ead & Hadh & Hadl); [unfold is_u64; nia|].
  destruct (split32 (b * c)) as (bch & bcl & -> & -> & Ebc & Hbch & Hbcl); [unfold is_u64; nia|].
  destruct (split32 (b * d)) as (bdh & bdl & -> & _ & Ebd & Hbdh & Hbdl); [unfold is_u64; nia|].
  change (Z.shiftl 1 31) with (2 ^ 31).
  rewrite (u64_small (bdh + adl + bcl)), (u64_small (bdh + adl + bcl + 2 ^ 31)) by (unfold is_u64; lia).
  rewrite Z.shiftr_div_pow2 by lia.
  set (t := bdh + adl + bcl + 2 ^ 31). pose proof (Z.div_mod t (2 ^ 32) ltac:(lia)) as Ht.
  pose proof (Z.mod_pos_bound t (2 ^ 32) ltac:(lia)) as Htm.
  assert (Hp : f_ x * f_ y + 2 ^ 63 = 2 ^ 64 * (a * c + adh + bch + t / 2 ^ 32) + (t mod 2 ^ 32 * 2 ^ 32 + bdl)).
  { rewrite Ex, Ey. unfold t in *. set (q := _ / 2 ^ 32) in *. set (r := _ mod 2 ^ 32) in *. clearbody q r.
    replace ((a * 2 ^ 32 + b) * (c * 2 ^ 32 + d)) with (a * c * 2 ^ 64 + (a * d + b * c) * 2 ^ 32 + b * d) by lia.
    rewrite Ead, Ebc, Ebd. lia. }
  assert (Eq : (f_ x * f_ y + 2 ^ 63) / 2 ^ 64 = a * c + adh + bch + t / 2 ^ 32).
  { symmetry. apply (Z.div_unique _ _ _ (t mod 2 ^ 32 * 2 ^ 32 + bdl)); [lia|exact Hp]. }
  assert (Hr : is_u64 ((f_ x * f_ y + 2 ^ 63) / 2 ^ 64)).
  { unfold is_u64 in *. split; [apply Z.div_pos; nia|]. apply Z.div_lt_upper_bound; nia. }
  rewrite <- Eq, u64_small by done. done.
Qed.

(** [shift_up] with a mask of the bits from [t] to [w]. *)
Lemma shift_up_spec fuel mask n t w a :
  0 < n -> 0 <= t -> t + n <= w <= 64 ->
  (forall x, 0 <= x < 2 ^ w -> (Z.land x mask =? 0) = (x <? 2 ^ t)) ->
  0 < f_ a < 2 ^ w -> Z.max 0 ((t - Z.log2 (f_ a)) / n + 1) < Z.of_nat fuel ->
  exists b, shift_up fuel mask n a = Some b /\ 2 ^ t <= f_ b < 2 ^ w
    /\ e_ b <= e_ a /\ f_ b = f_ a * 2 ^ (e_ a - e_ b) /\ (f_ a < 2 ^ t -> e_ b < e_ a /\ f_ b < 2 ^ (t + n)).
Proof.
  intros Hn Ht Hw Hmask Ha Hfuel. unfold shift_up.
  destruct (while_loop_inv (fun b => 0 < f_ b < 2 ^ w /\ e_ b <= e_ a /\ f_ b = f_ a * 2 ^ (e_ a - e_ b)
      /\ (e_ b < e_ a -> f_ b < 2 ^ (t + n)) )
    (fun b => Z.to_nat ((t - Z.log2 (f_ b)) / n + 1)) fuel
    (fun a => Z.land (f_ a) mask =? 0) (fun a => Some (mkDiyFp (u64 (Z.shiftl (f_ a) n)) (e_ a - n))) a)
    as (b & E & (Hb & He & Ef & Hlt) & Hc).
  - split; [done|split; [lia|]]. rewrite Z.sub_diag. split; lia.
  - lia.
  - intros b (Hb & He & Ef & _) Hc. rewrite Hmask in Hc by lia. apply Z.ltb_lt in Hc.
    eexists. split; [reflexivity|]. cbn [f_ e_]. rewrite Z.shiftl_mul_pow2 by lia.
    assert (Hp : 0 < 2 ^ n) by (apply Z.pow_pos_nonneg; lia).
    assert (Hup : f_ b * 2 ^ n < 2 ^ (t + n)) by (rewrite Z.pow_add_r by lia; nia).
    assert (Hw2 : 2 ^ (t + n) <= 2 ^ w) by (apply Z.pow_le_mono_r; lia).
    assert (H64 : 2 ^ w <= 2 ^ 64) by (apply Z.pow_le_mono_r; lia).
    rewrite u64_small by (unfold is_u64; nia). split.
    + split; [nia|]. split; [lia|]. split; [|lia]. rewrite Ef, <- Z.mul_assoc, <- Z.pow_add_r by lia. do 2 f_equal. lia.
    + rewrite Z.log2_mul_pow2 by lia.
      assert (Hl : Z.log2 (f_ b) < t) by (apply Z.log2_lt_pow2; lia).
      replace (t - (n + Z.log2 (f_ b))) with (t - Z.log2 (f_ b) + (-1) * n) by lia.
      rewrite Z.div_add by lia. pose proof (Z.div_pos (t - Z.log2 (f_ b)) n ltac:(lia) ltac:(lia)). lia.
  - exists b. split; [done|]. rewrite Hmask in Hc by lia. apply Z.ltb_ge in Hc. split; [lia|]. split; [done|].
    split; [done|]. intros H. assert (e_ b < e_ a); [|by auto].
    destruct (decide (e_ b = e_ a)) as [Ee|]; [|lia]. rewrite Ef, Ee, Z.sub_diag in Hc. lia.
Qed.

Lemma Normalize_spec a :
  0 < f_ a < 2 ^ 64 ->
  exists b, Normalize a = Some b /\ 2 ^ 63 <= f_ b < 2 ^ 64 /\ e_ b <= e_ a
    /\ f_ b = f_ a * 2 ^ (e_ a - e_ b).
Proof.
  intros Ha. unfold Normalize. assert (Hlog : 0 <= Z.log2 (f_ a) < 64).
  { split; [apply Z.log2_nonneg|apply Z.log2_lt_pow2; lia]. }
  destruct (shift_up_spec 8 k10MSBits 10 54 64 a) as (b & -> & Hb & He & Ef & _); [lia..| |lia| |].
  { intros x Hx. apply (high_mask x 54 64); lia. }
  { assert ((54 - Z.log2 (f_ a)) / 10 < 6) by (apply Z.div_lt_upper_bound; lia). lia. }
  cbn [mbind option_bind].
  assert (Hlb : 54 <= Z.log2 (f_ b)) by (apply Z.log2_le_pow2; lia).
  destruct (shift_up_spec 11 kUint64MSB 1 63 64 b) as (c & -> & Hc & Hec & Efc & _); [lia..| |lia| |].
  { intros x Hx. apply (high_mask x 63 64); lia. }
  { rewrite Z.div_1_r. lia. }
  exists c. split; [done|]. split; [done|]. split; [lia|].
  rewrite Efc, Ef, <- Z.mul_assoc, <- Z.pow_add_r by lia. do 2 f_equal. lia.
Qed.

Lemma DiyFpToUint64_AsDiyFp d : finite d -> DiyFpToUint64 (AsDiyFp d) = Some d.
Proof.
  intros Hd. destruct (decode d Hd) as (E & M & Ed & HE & HM & _ & ES & EE).
  destruct (fields_bound d Hd) as (HS & HX & Hn & _).
  unfold DiyFpToUint64, AsDiyFp. cbn [while_loop f_ e_].
  replace (kHiddenBit + kSignificandMask <? Significand d) with false.
  2: { symmetry. apply Z.ltb_ge. change (kHiddenBit + kSignificandMask) with (2 ^ 53 - 1). lia. }
  cbn [mbind option_bind f_ e_].
  destruct (Z.leb_spec kMaxExponent (Exponent d)) as [H|_]; [change kMaxExponent with 972 in H; lia|].
  destruct (Z.ltb_spec (Exponent d) kDenormalExponent) as [H|_]; [lia|].
  assert (Hbit : (Z.land (Significand d) kHiddenBit =? 0) = (E =? 0)).
  { change kHiddenBit with (Z.shiftl (2 ^ (53 - 52) - 1) 52). rewrite high_mask by lia. rewrite ES.
    destruct (Z.eqb_spec E 0); [apply Z.ltb_lt|apply Z.ltb_ge]; lia. }
  assert (Hcond : (kDenormalExponent <? Exponent d) && (Z.land (Significand d) kHiddenBit =? 0) = false).
  { rewrite Hbit, EE. destruct (E =? 0); [rewrite Z.ltb_irrefl; done|apply andb_false_r]. }
  cbn [while_loop f_ e_]. rewrite Hcond. cbn [mbind option_bind f_ e_]. rewrite Hbit. f_equal.
  rewrite significand_field.
  assert (Eb : (if (Exponent d =? kDenormalExponent) && (E =? 0) then 0 else u64 (Exponent d + kExponentBias)) = E).
  { rewrite EE. destruct (Z.eqb_spec E 0) as [->|]; [done|]. rewrite andb_false_r.
    replace (E - kExponentBias + kExponentBias) with E by lia. apply u64_small. unfold is_u64. lia. }
  rewrite Eb, u64_small.
  2: { unfold is_u64, kPhysicalSignificandSize. rewrite Z.shiftl_mul_pow2 by lia. lia. }
  assert (Em : Significand d mod 2 ^ 52 = M).
  { rewrite ES. destruct (E =? 0); [apply Z.mod_small; lia|].
    rewrite <- Z.add_mod_idemp_l, Z.mod_same, Z.add_0_l, Z.mod_small by lia. done. }
  rewrite Em, Z.lor_comm. unfold kPhysicalSignificandSize. rewrite lor_shiftl by lia. lia.
Qed.

Lemma finite_next d : finite d -> NextDouble d = d + 1.
Proof.
  intros Hd. unfold NextDouble. unfold finite in Hd. destruct (Z.eqb_spec d kInfinity); [lia|].
  change kInfinity with (2047 * 2 ^ 52) in Hd.
  assert (Es : Sign d = 1).
  { unfold Sign. change kSignMask with (Z.shiftl (2 ^ (64 - 63) - 1) 63). rewrite high_mask by lia.
    by destruct (Z.ltb_spec d (2 ^ 63)); [|lia]. }
  rewrite Es. cbn. apply u64_small. unfold is_u64. lia.
Qed.

Lemma UpperBoundary_f d : finite d -> f_ (UpperBoundary d) = 2 * Significand d + 1.
Proof.
  intros Hd. destruct (fields_bound d Hd) as (H & _). unfold UpperBoundary. cbn [f_].
  rewrite u64_small by (unfold is_u64; lia). lia.
Qed.

(** The predecessor is closer when the mantissa is 0 and it is not a denormal. *)
Lemma dval_pred d :
  finite d -> 0 < d ->
  2 * dval (d - 1) = 2 * dval d
    - (if (Significand d =? kHiddenBit) && negb (Exponent d =? kDenormalExponent) then 1 else 2)
      * 2 ^ (Exponent d - kDenormalExponent).
Proof.
  intros Hd H0. assert (Hd' : finite (d - 1)) by (unfold finite in *; lia).
  pose proof (dval_next (d - 1) Hd') as Hn. rewrite Z.sub_add in Hn. specialize (Hn Hd). rewrite Hn.
  destruct (decode d Hd) as (E & M & Ed & HE & HM & _ & -> & ->).
  destruct (decode (d - 1) Hd') as (E' & M' & Ed' & HE' & HM' & _ & _ & ->).
  change kHiddenBit with (2 ^ 52). unfold kDenormalExponent, kExponentBias, kPhysicalSignificandSize.
  assert (H : (E' = E /\ M' = M - 1) \/ (E' = E - 1 /\ M = 0)) by lia.
  destruct (Z.eqb_spec E 0) as [E0|E0].
  - rewrite Z.eqb_refl, andb_false_r. destruct (Z.eqb_spec E' 0); lia.
  - destruct H as [(-> & ->)|(-> & ->)].
    + destruct (Z.eqb_spec (2 ^ 52 + M) (2 ^ 52)); [lia|]. destruct (Z.eqb_spec E 0); [done|]. cbn [andb]. lia.
    + rewrite Z.add_0_r, Z.eqb_refl. cbn [andb]. destruct (Z.eqb_spec (E - 1) 0) as [E1|E1].
      * destruct (Z.eqb_spec (E - (1023 + 52)) (- (1023 + 52) + 1)) as [_|]; [|lia]. cbn [negb].
        replace E with 1 by lia. cbn. lia.
      * destruct (Z.eqb_spec (E - (1023 + 52)) (- (1023 + 52) + 1)) as [|_]; [lia|]. cbn [negb].
        replace (E - (1023 + 52) - (- (1023 + 52) + 1)) with (1 + (E - 1 - (1023 + 52) - (- (1023 + 52) + 1))) by lia.
        rewrite Z.pow_add_r, Z.pow_1_r by lia. lia.
Qed.

(** The value of a [DiyFp], in units of 2^-1139. *)
Definition diy_value (a : DiyFp) : Z := f_ a * 2 ^ (e_ a + 1139).

Lemma diy_value_shift a b :
  - 1139 <= e_ b <= e_ a -> f_ b = f_ a * 2 ^ (e_ a - e_ b) -> diy_value b = diy_value a.
Proof.
  intros He E. unfold diy_value. rewrite E, <- Z.mul_assoc, <- Z.pow_add_r by lia. do 2 f_equal. lia.
Qed.

(** What was shifted out of a 64-bit number. *)
Lemma shift_amount f k : 0 < f -> 0 <= k -> f * 2 ^ k < 2 ^ 64 -> k < 64.
Proof.
  intros Hf Hk H. destruct (Z.lt_ge_cases k 64) as [|Hge]; [done|].
  assert (2 ^ 64 <= 2 ^ k) by (apply Z.pow_le_mono_r; lia). nia.
Qed.

(** The boundaries of a positive finite double are the points half way to its
    neighbours - the lower one is closer when the mantissa is 0, but not at
    the smallest normal number - as [DiyFp]s of the same exponent, the upper
    one normalized. *)
Theorem NormalizedBoundaries_spec d :
  finite d -> finite (d + 1) -> 0 < d ->
  exists m_minus m_plus, NormalizedBoundaries d = Some (m_minus, m_plus)
    /\ e_ m_minus = e_ m_plus /\ 2 ^ 63 <= f_ m_plus < 2 ^ 64 /\ 0 <= f_ m_minus < f_ m_plus
    /\ diy_value m_plus = 2 ^ 64 * (dval d + dval (d + 1))
    /\ diy_value m_minus = 2 ^ 64 * (dval d + dval (d - 1)).
Proof.
  intros Hd Hd1 H0. destruct (fields_bound d Hd) as (HS & HX & Hn & Hne). specialize (Hne ltac:(lia)).
  pose proof (dval_next d Hd Hd1) as Hnext. pose proof (dval_pred d Hd H0) as Hpred.
  unfold NormalizedBoundaries, AsDiyFp. cbn [f_ e_]. rewrite !Z.shiftl_mul_pow2 by lia.
  change (2 ^ 1) with 2. change (2 ^ 2) with 4.
  set (P := dval (d - 1)) in *. clearbody P.
  set (S := Significand d) in *. set (X := Exponent d) in *. unfold dval in Hpred, Hnext |- *. fold S X in Hpred, Hnext |- *.
  set (U := 2 ^ (X - kDenormalExponent)) in *. change kDenormalExponent with (-1074) in *.
  rewrite (u64_small (S * 2 + 1)) by (unfold is_u64; lia).
  destruct (Normalize_spec (mkDiyFp (S * 2 + 1) (X - 1))) as (mp & -> & Hmp & Hep & Efp); [cbn; lia|].
  cbn [f_ e_] in Hep, Efp. cbn [mbind option_bind].
  pose proof (shift_amount (S * 2 + 1) (X - 1 - e_ mp) ltac:(lia) ltac:(lia) ltac:(lia)) as Hs64.
  assert (Hs10 : 10 <= X - 1 - e_ mp).
  { destruct (Z.lt_ge_cases (X - 1 - e_ mp) 10) as [H|]; [|done].
    assert (2 ^ (X - 1 - e_ mp) <= 2 ^ 9) by (apply Z.pow_le_mono_r; lia). nia. }
  assert (Vp : diy_value mp = 2 ^ 64 * (S * U + (S * U + U))).
  { rewrite (diy_value_shift (mkDiyFp (S * 2 + 1) (X - 1)) mp); cbn [f_ e_]; [|lia|done].
    unfold diy_value. cbn [f_ e_]. replace (X - 1 + 1139) with (64 + (X - -1074)) by lia.
    rewrite Z.pow_add_r by lia. fold U. lia. }
  set (mm0 := if (S =? kHiddenBit) && negb (X =? -1074)
              then mkDiyFp (u64 (u64 (S * 4) - 1)) (X - 2) else mkDiyFp (u64 (u64 (S * 2) - 1)) (X - 1)).
  assert (Hmm : f_ mm0 * 2 ^ (e_ mm0 + 1139) = 2 ^ 63 * (2 * (S * U) + 2 * P)
            /\ 0 < f_ mm0 /\ X - 2 <= e_ mm0 <= X - 1 /\ is_u64 (f_ mm0)).
  { rewrite Hpred. unfold mm0.
    assert (E63 : 2 ^ (X - 2 + 1139) = 2 ^ 63 * U) by (unfold U; rewrite <- Z.pow_add_r by lia; f_equal; lia).
    assert (E64 : 2 ^ (X - 1 + 1139) = 2 ^ 64 * U) by (unfold U; rewrite <- Z.pow_add_r by lia; f_equal; lia).
    destruct ((S =? kHiddenBit) && negb (X =? -1074)); cbn [f_ e_];
      [rewrite (u64_small (S * 4)), (u64_small (S * 4 - 1)) by (unfold is_u64; lia)
      |rewrite (u64_small (S * 2)), (u64_small (S * 2 - 1)) by (unfold is_u64; lia)];
      (split; [rewrite ?E63, ?E64; lia|unfold is_u64; lia]). }
  destruct Hmm as (Vm0 & Hf0 & He0 & Hu0). fold mm0.
  assert (Hle : f_ mm0 * 2 ^ (e_ mm0 - e_ mp) < f_ mp).
  { assert (Hlt : f_ mm0 * 2 ^ (e_ mm0 + 1139) < f_ mp * 2 ^ (e_ mp + 1139)).
    { fold (diy_value mp). rewrite Vm0, Vp, Hpred. assert (0 < U) by (apply Z.pow_pos_nonneg; lia).
      destruct (_ && _); lia. }
    replace (e_ mm0 + 1139) with ((e_ mm0 - e_ mp) + (e_ mp + 1139)) in Hlt by lia.
    rewrite Z.pow_add_r, Z.mul_assoc in Hlt by lia.
    apply (Z.mul_lt_mono_pos_r (2 ^ (e_ mp + 1139))); [apply Z.pow_pos_nonneg; lia|done]. }
  assert (Hnn : 0 <= f_ mm0 * 2 ^ (e_ mm0 - e_ mp)) by (apply Z.mul_nonneg_nonneg; [lia|apply Z.pow_nonneg; lia]).
  rewrite Z.shiftl_mul_pow2 by lia. rewrite u64_small by (unfold is_u64; lia).
  eexists _, mp. split; [reflexivity|]. cbn [f_ e_]. split; [done|]. split; [done|].
  split; [done|].
  rewrite Hnext. split; [exact Vp|].
  unfold diy_value. cbn [f_ e_]. rewrite <- Z.mul_assoc, <- Z.pow_add_r by lia.
  replace (e_ mm0 - e_ mp + (e_ mp + 1139)) with (e_ mm0 + 1139) by lia. rewrite Vm0. lia.
Qed.

Lemma NormalizedBoundaries_spec_witness :
  exists m_minus m_plus, NormalizedBoundaries 0x3FF0000000000000 = Some (m_minus, m_plus)
    /\ e_ m_minus = e_ m_plus /\ 2 ^ 63 <= f_ m_plus < 2 ^ 64 /\ 0 <= f_ m_minus < f_ m_plus
    /\ diy_value m_plus = 2 ^ 64 * (dval 0x3FF0000000000000 + dval (0x3FF0000000000000 + 1))
    /\ diy_value m_minus = 2 ^ 64 * (dval 0x3FF0000000000000 + dval (0x3FF0000000000000 - 1)).
Proof.
  apply (NormalizedBoundaries_spec 0x3FF0000000000000); [split; vm_compute; congruence..|lia].
Defined.

(** A finite double that is not negative is the one its significand and
    exponent are converted to, for normal and for denormal numbers; the value
    grows with the bits, and [NextDouble] is the next one. *)
Theorem Double_roundtrip d :
  finite d -> finite (d + 1) ->
  DiyFpToUint64 (AsDiyFp d) = Some d /\ NextDouble d = d + 1 /\ dval d < dval (NextDouble d).
Proof.
  intros Hd Hd1. rewrite (finite_next d Hd). split; [by apply DiyFpToUint64_AsDiyFp|]. split; [done|].
  rewrite (dval_next d Hd Hd1). destruct (fields_bound d Hd) as (_ & HX & _).
  pose proof (Z.pow_pos_nonneg 2 (Exponent d - kDenormalExponent) ltac:(lia) ltac:(lia)). lia.
Qed.

Lemma Double_roundtrip_witness :
  DiyFpToUint64 (AsDiyFp 3) = Some 3 /\ NextDouble 3 = 3 + 1 /\ dval 3 < dval (NextDouble 3).
Proof. apply (Double_roundtrip 3); split; vm_compute; congruence. Defined.
