(* ===== verification/BignumDtoa.v ===== *)
(** * BignumDtoa: exact conversion of doubles to decimal digits

    Models src/bignum-dtoa.cc on top of [Bignum], [BignumArith] and [Double]: the
    digits of a double in the modes SHORTEST, FIXED and PRECISION, computed with
    ratios of bignums.  A buffer is the list of its characters; a write outside
    of it, and [UNREACHABLE], are [None].  The floating-point arithmetic of
    [EstimatePower] is that of IEEE doubles, as in the standard library. *)

From Stdlib Require Import Floats.SpecFloat.
From S2P Require Import Prelude Bignum BignumArith Double.

Open Scope Z_scope.

Ltac Zify.zify_post_hook ::= idtac.

(** ** Characters *)

Definition set_char (buffer : list Z) (i : nat) (c : Z) : option (list Z) :=
  if (i <? length buffer)%nat then Some (<[i := c]> buffer) else None.

(** [buffer[i]++]. *)
Definition bump (buffer : list Z) (i : nat) : option (list Z) :=
  c ← buffer !! i; set_char buffer i (c + 1).

(** ** The estimated power *)

Definition NormalizedExponent (significand exponent : Z) : option Z :=
  '(_, exponent) ← while_loop 54 (fun '(significand, _) => Z.land significand kHiddenBit =? 0)
    (fun '(significand, exponent) => Some (u64 (Z.shiftl significand 1), exponent - 1))
    (significand, exponent);
  Some exponent.

(** 0.30102999566398114 and 1e-10. *)
Definition k1Log10 : spec_float := S754_finite false 5422874305198590 (-54).
Definition d1e_10 : spec_float := S754_finite false 7737125245533627 (-86).

Definition int_to_double (z : Z) : spec_float := binary_normalize 53 1024 z 0 false.

(** [static_cast<int>(ceil(x))]. *)
Definition int_ceil (x : spec_float) : Z :=
  match x with
  | S754_finite s m e =>
      let v := if s then Z.neg m else Z.pos m in
      if 0 <=? e then v * 2 ^ e else - ((- v) / 2 ^ (- e))
  | _ => 0
  end.

Definition EstimatePower (exponent : Z) : Z :=
  let kSignificandSize := 53 in
  let estimate := SFsub 53 1024
    (SFmul 53 1024 (int_to_double (exponent + kSignificandSize - 1)) k1Log10) d1e_10 in
  int_ceil estimate.

(** ** Start values *)

Record Scaled := mkScaled {
  numerator : Bignum;
  denominator : Bignum;
  delta_minus : Bignum;
  delta_plus : Bignum
}.

(** Adds a factor of 2 to the common denominator, and to all but [delta_minus]. *)
Definition closer_boundary (s : Scaled) : option Scaled :=
  den ← ShiftLeft (denominator s) 1;
  num ← ShiftLeft (numerator s) 1;
  plus ← ShiftLeft (delta_plus s) 1;
  Some (mkScaled num den (delta_minus s) plus).

Definition InitialScaledStartValuesPositiveExponent (v estimated_power : Z)
    (need_boundary_deltas : bool) (s : Scaled) : option Scaled :=
  num ← AssignUInt64 (numerator s) (Significand v);
  num ← ShiftLeft num (Exponent v);
  den ← AssignPowerUInt16 (denominator s) 10 estimated_power;
  if need_boundary_deltas then
    den ← ShiftLeft den 1;
    num ← ShiftLeft num 1;
    plus ← AssignUInt16 (delta_plus s) 1;
    plus ← ShiftLeft plus (Exponent v);
    minus ← AssignUInt16 (delta_minus s) 1;
    minus ← ShiftLeft minus (Exponent v);
    let s := mkScaled num den minus plus in
    if Z.land v kSignificandMask =? 0 then closer_boundary s else Some s
  else Some (mkScaled num den (delta_minus s) (delta_plus s)).

Definition InitialScaledStartValuesNegativeExponentPositivePower (v estimated_power : Z)
    (need_boundary_deltas : bool) (s : Scaled) : option Scaled :=
  let exponent := Exponent v in
  num ← AssignUInt64 (numerator s) (Significand v);
  den ← AssignPowerUInt16 (denominator s) 10 estimated_power;
  den ← ShiftLeft den (- exponent);
  if need_boundary_deltas then
    den ← ShiftLeft den 1;
    num ← ShiftLeft num 1;
    plus ← AssignUInt16 (delta_plus s) 1;
    minus ← AssignUInt16 (delta_minus s) 1;
    let s := mkScaled num den minus plus in
    if Z.land v kSignificandMask =? 0 then closer_boundary s else Some s
  else Some (mkScaled num den (delta_minus s) (delta_plus s)).

Definition kMinimalNormalizedExponent := 0x0010000000000000.

Definition InitialScaledStartValuesNegativeExponentNegativePower (v estimated_power : Z)
    (need_boundary_deltas : bool) (s : Scaled) : option Scaled :=
  let exponent := Exponent v in
  power_ten ← AssignPowerUInt16 (numerator s) 10 (- estimated_power);
  '(minus, plus) ← (if need_boundary_deltas then
      plus ← AssignBignum (delta_plus s) power_ten;
      minus ← AssignBignum (delta_minus s) power_ten;
      Some (minus, plus)
    else Some (delta_minus s, delta_plus s));
  num ← MultiplyByUInt64 power_ten (Significand v);
  den ← AssignUInt16 (denominator s) 1;
  den ← ShiftLeft den (- exponent);
  if need_boundary_deltas then
    num ← ShiftLeft num 1;
    den ← ShiftLeft den 1;
    if (Z.land v kSignificandMask =? 0)
       && negb (Z.land v kExponentMask =? kMinimalNormalizedExponent) then
      num ← ShiftLeft num 1;
      den ← ShiftLeft den 1;
      plus ← ShiftLeft plus 1;
      Some (mkScaled num den minus plus)
    else Some (mkScaled num den minus plus)
  else Some (mkScaled num den minus plus).

Definition InitialScaledStartValues (v estimated_power : Z) (need_boundary_deltas : bool)
    (s : Scaled) : option Scaled :=
  if 0 <=? Exponent v then
    InitialScaledStartValuesPositiveExponent v estimated_power need_boundary_deltas s
  else if 0 <=? estimated_power then
    InitialScaledStartValuesNegativeExponentPositivePower v estimated_power need_boundary_deltas s
  else InitialScaledStartValuesNegativeExponentNegativePower v estimated_power need_boundary_deltas s.

Definition Times10 (b : Bignum) : option Bignum := MultiplyByUInt32 b 10.

Definition Equal (a b : Bignum) : option bool := c ← Compare a b; Some (c =? 0).

(** The comparison with a boundary, which belongs to the interval when the
    significand is even. *)
Definition reaches (is_even : bool) (c : Z) : bool := if is_even then 0 <=? c else 0 <? c.

(** Also the decimal point. *)
Definition FixupMultiply10 (estimated_power : Z) (is_even : bool) (s : Scaled) : option (Scaled * Z) :=
  c ← PlusCompare (numerator s) (delta_plus s) (denominator s);
  if reaches is_even c then Some (s, estimated_power + 1)
  else
    num ← Times10 (numerator s);
    equal ← Equal (delta_minus s) (delta_plus s);
    if (equal : bool) then
      minus ← Times10 (delta_minus s);
      plus ← AssignBignum (delta_plus s) minus;
      Some (mkScaled num (denominator s) minus plus, estimated_power)
    else
      minus ← Times10 (delta_minus s);
      plus ← Times10 (delta_plus s);
      Some (mkScaled num (denominator s) minus plus, estimated_power).

(** ** Digits *)

(** The loop of [GenerateShortestDigits].  When [shared] is set, [delta_plus]
    is the same object as [delta_minus]. *)
Fixpoint shortest_loop (fuel : nat) (shared is_even : bool) (s : Scaled) (buffer : list Z) (len : nat)
    : option (list Z * nat) :=
  match fuel with
  | O => None
  | S fuel =>
      '(num, digit) ← DivideModuloIntBignum (numerator s) (denominator s);
      buffer ← set_char buffer len (digit + 48);
      let len := S len in
      let plus := if shared then delta_minus s else delta_plus s in
      c ← Compare num (delta_minus s);
      let in_delta_room_minus := reaches is_even (- c) in
      c ← PlusCompare num plus (denominator s);
      let in_delta_room_plus := reaches is_even c in
      if negb in_delta_room_minus && negb in_delta_room_plus then
        num ← Times10 num;
        minus ← Times10 (delta_minus s);
        plus ← (if shared then Some (delta_plus s) else Times10 (delta_plus s));
        shortest_loop fuel shared is_even (mkScaled num (denominator s) minus plus) buffer len
      else if in_delta_room_minus && in_delta_room_plus then
        compare ← PlusCompare num num (denominator s);
        if compare <? 0 then Some (buffer, len)
        else if 0 <? compare then buffer ← bump buffer (len - 1); Some (buffer, len)
        else
          last ← buffer !! (len - 1)%nat;
          if Z.rem (last - 48) 2 =? 0 then Some (buffer, len)
          else buffer ← bump buffer (len - 1); Some (buffer, len)
      else if in_delta_room_minus then Some (buffer, len)
      else buffer ← bump buffer (len - 1); Some (buffer, len)
  end.

Definition GenerateShortestDigits (s : Scaled) (is_even : bool) (buffer : list Z) : option (list Z * nat) :=
  shared ← Equal (delta_minus s) (delta_plus s);
  shortest_loop 17 shared is_even s buffer 0.

(** The correction of a digit 10 from [i] downwards, [n] digits. *)
Fixpoint propagate_carry (n i : nat) (buffer : list Z) : option (list Z) :=
  match n with
  | O => Some buffer
  | S n =>
      c ← buffer !! i;
      if c =? 48 + 10 then
        buffer ← set_char buffer i 48;
        buffer ← bump buffer (i - 1);
        propagate_carry n (i - 1) buffer
      else Some buffer
  end.

(** The buffer, the decimal point and the length. *)
Definition GenerateCountedDigits (count decimal_point : Z) (numerator denominator : Bignum)
    (buffer : list Z) : option (list Z * Z * nat) :=
  if count <? 1 then None
  else
    let n := Z.to_nat count in
    '(buffer, numerator) ← for_loop (n - 1) 0
      (fun i '(buffer, numerator) =>
         '(numerator, digit) ← DivideModuloIntBignum numerator denominator;
         buffer ← set_char buffer i (digit + 48);
         numerator ← Times10 numerator;
         Some (buffer, numerator)) (buffer, numerator);
    '(numerator, digit) ← DivideModuloIntBignum numerator denominator;
    c ← PlusCompare numerator numerator denominator;
    let digit := if 0 <=? c then uint 16 (digit + 1) else digit in
    buffer ← set_char buffer (n - 1) (digit + 48);
    buffer ← propagate_carry (n - 1) (n - 1) buffer;
    first ← buffer !! 0%nat;
    if first =? 48 + 10 then
      buffer ← set_char buffer 0 49; Some (buffer, decimal_point + 1, n)
    else Some (buffer, decimal_point, n).

Definition BignumToFixed (requested_digits decimal_point : Z) (numerator denominator : Bignum)
    (buffer : list Z) : option (list Z * Z * nat) :=
  if requested_digits <? - decimal_point then Some (buffer, - requested_digits, 0%nat)
  else if - decimal_point =? requested_digits then
    denominator ← Times10 denominator;
    c ← PlusCompare numerator numerator denominator;
    if 0 <=? c then buffer ← set_char buffer 0 49; Some (buffer, decimal_point + 1, 1%nat)
    else Some (buffer, decimal_point, 0%nat)
  else
    let needed_digits := decimal_point + requested_digits in
    GenerateCountedDigits needed_digits decimal_point numerator denominator buffer.

Inductive BignumDtoaMode := BIGNUM_DTOA_SHORTEST | BIGNUM_DTOA_FIXED | BIGNUM_DTOA_PRECISION.

Definition is_fixed (mode : BignumDtoaMode) : bool :=
  match mode with BIGNUM_DTOA_FIXED => true | _ => false end.
Definition is_shortest (mode : BignumDtoaMode) : bool :=
  match mode with BIGNUM_DTOA_SHORTEST => true | _ => false end.

(** The buffer, the length and the decimal point. *)
Definition BignumDtoa (v : Z) (mode : BignumDtoaMode) (requested_digits : Z) (buffer : list Z)
    : option (list Z * nat * Z) :=
  let significand := Significand v in
  let is_even := Z.land significand 1 =? 0 in
  let exponent := Exponent v in
  normalized_exponent ← NormalizedExponent significand exponent;
  let estimated_power := EstimatePower normalized_exponent in
  if is_fixed mode && (requested_digits <? - estimated_power - 1) then
    buffer ← set_char buffer 0 0; Some (buffer, 0%nat, - requested_digits)
  else
    s ← InitialScaledStartValues v estimated_power (is_shortest mode)
          (mkScaled Bignum_new Bignum_new Bignum_new Bignum_new);
    '(s, decimal_point) ← FixupMultiply10 estimated_power is_even s;
    '(buffer, decimal_point, len) ←
      match mode with
      | BIGNUM_DTOA_SHORTEST =>
          '(buffer, len) ← GenerateShortestDigits s is_even buffer; Some (buffer, decimal_point, len)
      | BIGNUM_DTOA_FIXED =>
          BignumToFixed requested_digits decimal_point (numerator s) (denominator s) buffer
      | BIGNUM_DTOA_PRECISION =>
          GenerateCountedDigits requested_digits decimal_point (numerator s) (denominator s) buffer
      end;
    buffer ← set_char buffer len 0;
    Some (buffer, len, decimal_point).

(** ** The estimate *)

(** Checks [n] exponents from [e] on, [k] being the estimate before them:
    [p2] is 2^(e + 52 + 1074) * 10^324 and [p10] is 10^(k + 323) * 2^1074. *)
Fixpoint check_estimates (n : nat) (e k p2 p10 : Z) : bool :=
  match n with
  | O => true
  | S n =>
      let k' := EstimatePower e in
      let p10 := if k' =? k then p10 else if k' =? k + 1 then 10 * p10 else 0 in
      (0 <? p10) && (p10 <=? p2) && (2 * p2 <? 100 * p10) && check_estimates n (e + 1) k' (2 * p2) p10
  end.

Lemma check_estimates_sound n e k p2 p10 i :
  check_estimates n e k p2 p10 = true ->
  p2 = 2 ^ (e + 52 + 1074) * 10 ^ 324 -> p10 = 10 ^ (k + 323) * 2 ^ 1074 ->
  - 1126 <= e -> - 323 <= k -> 0 <= i < Z.of_nat n ->
  let k' := EstimatePower (e + i) in
  10 ^ (k' + 323) * 2 ^ 1074 <= 2 ^ (e + i + 52 + 1074) * 10 ^ 324
  /\ 2 ^ (e + i + 53 + 1074) * 10 ^ 324 < 10 ^ (k' + 325) * 2 ^ 1074 /\ - 323 <= k' <= k + Z.of_nat n.
Proof.
  intros Hc E2 E10. revert e k p2 p10 i Hc E2 E10.
  induction n as [|n IH]; intros e k p2 p10 i Hc E2 E10 He Hk Hi; [lia|]. cbn [check_estimates] in Hc.
  apply andb_true_iff in Hc as [Hc Hrec]. apply andb_true_iff in Hc as [Hc H2].
  apply andb_true_iff in Hc as [H0 H1]. apply Z.ltb_lt in H0, H2. apply Z.leb_le in H1.
  set (k1 := EstimatePower e) in *.
  set (q10 := if k1 =? k then p10 else if k1 =? k + 1 then 10 * p10 else 0) in *.
  assert (Hk1 : (k1 = k \/ k1 = k + 1) /\ q10 = 10 ^ (k1 + 323) * 2 ^ 1074).
  { unfold q10 in *. destruct (Z.eqb_spec k1 k) as [Ek|]; [rewrite Ek; split; [lia|done]|].
    destruct (Z.eqb_spec k1 (k + 1)) as [Ek|]; [rewrite Ek|lia]. split; [lia|]. rewrite E10.
    replace (k + 1 + 323) with (Z.succ (k + 323)) by lia. rewrite Z.pow_succ_r by lia. ring. }
  destruct Hk1 as [Hk1 Eq]. clearbody q10.
  assert (E2' : 2 * p2 = 2 ^ (e + 1 + 52 + 1074) * 10 ^ 324).
  { rewrite E2. replace (e + 1 + 52 + 1074) with (Z.succ (e + 52 + 1074)) by lia. rewrite Z.pow_succ_r by lia. ring. }
  destruct (Z.eq_dec i 0) as [->|Hi0].
  - cbv zeta. rewrite Z.add_0_r. fold k1. rewrite Eq, E2 in H1. split; [exact H1|].
    replace (e + 53 + 1074) with (e + 1 + 52 + 1074) by lia. rewrite <- E2'.
    replace (k1 + 325) with (2 + (k1 + 323)) by lia. rewrite Z.pow_add_r by lia. change (10 ^ 2) with 100.
    rewrite <- Z.mul_assoc, <- Eq. split; [exact H2|lia].
  - specialize (IH (e + 1) k1 (2 * p2) q10 (i - 1) Hrec E2' Eq). 
    replace (e + 1 + (i - 1)) with (e + i) in IH by lia. cbv zeta in IH |- *.
    destruct IH as (I1 & I2 & I3); [lia..|]. split; [exact I1|split; [exact I2|lia]].
Qed.

(** The exponents from -1126 to 971. *)
Definition estimate_count : nat := Z.to_nat 2098.

Lemma estimates_checked : check_estimates estimate_count (-1126) (-323) (10 ^ 324) (2 ^ 1074) = true.
Proof. vm_compute. reflexivity. Qed.

Lemma EstimatePower_spec e :
  - 1126 <= e <= 971 ->
  let k := EstimatePower e in
  10 ^ (k + 323) * 2 ^ 1074 <= 2 ^ (e + 52 + 1074) * 10 ^ 324
  /\ 2 ^ (e + 53 + 1074) * 10 ^ 324 < 10 ^ (k + 325) * 2 ^ 1074 /\ - 323 <= k <= 1775.
Proof.
  intros He k. assert (Hn : Z.of_nat estimate_count = 2098) by by apply Z2Nat.id.
  pose proof (check_estimates_sound _ _ _ _ _ (e + 1126) estimates_checked) as H. rewrite Hn in H.
  replace (-1126 + (e + 1126)) with e in H by lia. fold k in H. clearbody k.
  assert (E2 : 10 ^ 324 = 2 ^ (-1126 + 52 + 1074) * 10 ^ 324).
  { change (-1126 + 52 + 1074) with 0. rewrite Z.pow_0_r. symmetry. apply Z.mul_1_l. }
  assert (E10 : 2 ^ 1074 = 10 ^ (-323 + 323) * 2 ^ 1074).
  { change (-323 + 323) with 0. rewrite Z.pow_0_r. symmetry. apply Z.mul_1_l. }
  specialize (H E2 E10 ltac:(clear; lia) ltac:(clear; lia) ltac:(clear - He; lia)).
  destruct H as (H1 & H2 & H3).
  split; [exact H1|split; [exact H2|]]. clear - H3. lia.
Qed.

Lemma NormalizedExponent_spec d :
  finite d -> d <> 0 ->
  exists e, NormalizedExponent (Significand d) (Exponent d) = Some e /\ - 1126 <= e <= 971
    /\ 2 ^ (e + 52 + 1074) <= dval d
    /\ dval d + 2 ^ (Exponent d - kDenormalExponent) <= 2 ^ (e + 53 + 1074).
Proof.
  intros Hd H0. destruct (fields_bound d Hd) as (HS & HX & _ & Hne). specialize (Hne H0).
  unfold NormalizedExponent, dval. set (f := Significand d) in *. set (X := Exponent d) in *.
  change kDenormalExponent with (-1074) in *.
  assert (Hmask : forall x, 0 <= x < 2 ^ 53 -> (Z.land x kHiddenBit =? 0) = (x <? 2 ^ 52)).
  { intros x Hx. apply (high_mask x 52 53); lia. }
  destruct (while_loop_inv (fun '(g, e) => 0 < g < 2 ^ 53 /\ e <= X /\ g = f * 2 ^ (X - e))
    (fun '(g, e) => Z.to_nat (52 - Z.log2 g)) 54
    (fun '(significand, _) => Z.land significand kHiddenBit =? 0)
    (fun '(significand, exponent) => Some (u64 (Z.shiftl significand 1), exponent - 1)) (f, X))
    as ([g e] & -> & (Hg & He & Eg) & Hc).
  - split; [lia|split; [lia|]]. rewrite Z.sub_diag. lia.
  - assert (0 <= Z.log2 f) by apply Z.log2_nonneg. lia.
  - intros [g e] (Hg & He & Eg) Hc. rewrite Hmask in Hc by lia. apply Z.ltb_lt in Hc.
    eexists. split; [reflexivity|]. rewrite Z.shiftl_mul_pow2 by lia. change (2 ^ 1) with 2.
    rewrite u64_small by (unfold is_u64; lia). split.
    + split; [lia|split; [lia|]]. rewrite Eg. replace (X - (e - 1)) with (Z.succ (X - e)) by lia.
      rewrite Z.pow_succ_r by lia. lia.
    + rewrite (Z.mul_comm g 2), Z.log2_double by lia. assert (Z.log2 g < 52) by (apply Z.log2_lt_pow2; lia). lia.
  - cbn [mbind option_bind]. exists e. split; [done|]. rewrite Hmask in Hc by lia. apply Z.ltb_ge in Hc.
    assert (Hs : X - e <= 52).
    { destruct (Z.le_gt_cases (X - e) 52) as [|H]; [done|].
      assert (2 ^ 53 <= 2 ^ (X - e)) by (apply Z.pow_le_mono_r; lia). nia. }
    split; [lia|].
    assert (Hp : 0 < 2 ^ (X - e)) by (apply Z.pow_pos_nonneg; lia).
    assert (Hu : 0 < 2 ^ (X - -1074)) by (apply Z.pow_pos_nonneg; lia).
    assert (E52 : 2 ^ (e + 52 + 1074) * 2 ^ (X - e) = 2 ^ 52 * 2 ^ (X - -1074)).
    { rewrite <- !Z.pow_add_r by lia. f_equal. lia. }
    assert (E53 : 2 ^ (e + 53 + 1074) * 2 ^ (X - e) = 2 ^ (53 - (X - e)) * 2 ^ (X - e) * 2 ^ (X - -1074)).
    { rewrite <- !Z.pow_add_r by lia. f_equal. lia. }
    assert (Hf : f + 1 <= 2 ^ (53 - (X - e))).
    { assert (E : 2 ^ 53 = 2 ^ (53 - (X - e)) * 2 ^ (X - e)) by (rewrite <- Z.pow_add_r by lia; f_equal; lia). nia. }
    split; apply (Z.mul_le_mono_pos_r _ _ (2 ^ (X - e)) Hp); [rewrite E52|rewrite E53]; nia.
Qed.

(** ** Operations of the bignums, for numbers far below the capacity *)

(** A bignum of the value [x]. *)
Definition has (b : Bignum) (x : Z) : Prop := big b /\ val b = x /\ 0 <= x < pw 100.

Lemma has_val b x : has b x -> val b = x.
Proof. intros H. apply H. Qed.

Lemma pw_100_127 x : x < pw 100 -> x < pw 127.
Proof. intros H. eapply Z.lt_le_trans; [exact H|]. apply pw_mono. lia. Qed.

Lemma pw_100_128 x f : 0 <= x < pw 100 -> 0 <= f <= 2 ^ 64 -> x * f < pw 128.
Proof.
  intros Hx Hf. apply Z.lt_le_trans with (pw 100 * pw 3).
  - apply Z.le_lt_trans with (x * 2 ^ 64); [nia|]. assert (H3 : 2 ^ 64 < pw 3) by reflexivity.
    pose proof (pw_pos 100). generalize dependent (pw 100). generalize dependent (pw 3). intros. nia.
  - rewrite <- pw_add. apply pw_mono. lia.
Qed.

Lemma new_has : has Bignum_new 0.
Proof.
  split; [apply Bignum_new_big|]. split; [|split; [lia|apply pw_pos]]. unfold val.
  by rewrite zero_used by (done || apply Bignum_new_big).
Qed.

Lemma has_AssignUInt64 b x v :
  has b x -> 0 <= v < 2 ^ 64 -> exists b', AssignUInt64 b v = Some b' /\ has b' v.
Proof.
  intros (G & _) Hv. destruct (AssignUInt64_val b v (big_wf b G) Hv) as (b' & E & G' & V).
  exists b'. split; [done|]. split; [done|split; [done|]]. split; [lia|].
  apply Z.lt_le_trans with (pw 3); [|apply pw_mono; lia]. eapply Z.lt_trans; [apply Hv|]. reflexivity.
Qed.

Lemma has_AssignOne b x : has b x -> exists b', AssignUInt16 b 1 = Some b' /\ has b' 1.
Proof.
  intros (G & _). destruct (AssignUInt16_val b 1 (big_wf b G)) as (b' & E & G' & V); [unfold B; lia|].
  exists b'. split; [done|]. split; [done|split; [done|]]. split; [lia|].
  apply Z.lt_le_trans with (pw 1); [reflexivity|apply pw_mono; lia].
Qed.

Lemma has_ShiftLeft b x k :
  has b x -> 0 <= k -> x * 2 ^ k < pw 100 -> exists b', ShiftLeft b k = Some b' /\ has b' (x * 2 ^ k).
Proof.
  intros (G & V & Hx) Hk Hf. destruct (ShiftLeft_val b k G Hk) as (b' & E & G' & V').
  - eapply Z.le_lt_trans; [by apply mant_le_val|]. rewrite V. apply pw_100_127, Hx.
  - exists b'. split; [done|]. split; [done|]. rewrite V', V. split; [done|]. split; [|done].
    apply Z.mul_nonneg_nonneg; [lia|apply Z.pow_nonneg; lia].
Qed.

Lemma has_Times10 b x : has b x -> x * 10 < pw 100 -> exists b', Times10 b = Some b' /\ has b' (x * 10).
Proof.
  intros (G & V & Hx) Hf. destruct (Multiply_val b 10 G) as (b' & E & G' & V'); [lia| |].
  - rewrite V. by apply pw_100_128.
  - exists b'. split; [done|]. split; [done|]. rewrite V', V. split; [done|lia].
Qed.

Lemma has_MultiplyByUInt64 b x f :
  has b x -> 0 < f < 2 ^ 64 -> x * f < pw 100 -> exists b', MultiplyByUInt64 b f = Some b' /\ has b' (x * f).
Proof.
  intros (G & V & Hx) Hf Hlt. pose proof (mant_le_val b G) as Hm. pose proof (mant_bound b (big_wf b G)) as Hm0.
  destruct (MultiplyByUInt64_denotes b f G Hf) as (b' & E & [G' M E']).
  - change kBigitCapacity with 128%nat. apply pw_100_128; [|lia]. split; [lia|]. lia.
  - exists b'. split; [done|]. split; [done|]. unfold val. rewrite M, E'.
    rewrite <- Z.mul_assoc, (Z.mul_comm f), Z.mul_assoc. fold (val b). rewrite V. split; [done|]. split; [|done]. nia.
Qed.

Lemma has_AssignPower b x p :
  has b x -> 0 <= p <= 400 -> 10 ^ p < pw 100 -> exists b', AssignPowerUInt16 b 10 p = Some b' /\ has b' (10 ^ p).
Proof.
  intros (G & _) Hp Hlt. destruct (AssignPowerUInt16_val b 10 p (big_wf b G)) as (b' & E & G' & V).
  - lia.
  - lia.
  - unfold power_fits. change (Z.log2 10) with 3. lia.
  - exists b'. split; [done|]. split; [done|split; [done|]]. split; [apply Z.pow_nonneg; lia|done].
Qed.

Lemma has_AssignBignum b x other y :
  has b x -> has other y -> exists b', AssignBignum b other = Some b' /\ has b' y.
Proof.
  intros (G & _) (Go & Vo & Hy). pose proof (big_wf b G) as W. pose proof (big_wf other Go) as Wo.
  pose proof (wf_length b W) as Hl. pose proof (wf_length other Wo) as Hlo. pose proof (wf_used b W) as Hu.
  pose proof (wf_used other Wo) as Huo. unfold AssignBignum.
  destruct (for_loop_inv (fun i bs => length bs = kBigitCapacity /\ forall j,
      bs !! j = if (j <? i)%nat then bigits_ other !! j else bigits_ b !! j) (used_digits_ other) 0
    (fun i bs => d ← bigits_ other !! i; set_bigit bs i d) (bigits_ b)) as (bs & -> & Hlb & Hj).
  - split; [done|]. intros j. by destruct (Nat.ltb_spec j 0); [lia|].
  - intros i bs Hi (Hlb & Hj). destruct (bigit_at other i Wo ltac:(lia)) as (d & Hd & _). rewrite Hd.
    cbn [mbind option_bind]. rewrite set_bigit_ok by lia. eexists. split; [done|].
    split; [by rewrite length_insert|]. intros j. destruct (decide (j = i)) as [->|Hne].
    + rewrite list_lookup_insert_eq by lia. by destruct (Nat.ltb_spec i (S i)); [|lia].
    + rewrite list_lookup_insert_ne, Hj by lia.
      destruct (Nat.ltb_spec j i), (Nat.ltb_spec j (S i)); done || lia.
  - cbn [mbind option_bind Nat.add] in *.
    destruct (for_loop_inv (fun i bs' => length bs' = kBigitCapacity /\ forall j,
        bs' !! j = if (used_digits_ other <=? j)%nat && (j <? i)%nat then Some 0 else bs !! j)
      (used_digits_ b - used_digits_ other) (used_digits_ other) (fun i bs => set_bigit bs i 0) bs)
      as (bs' & -> & Hlb' & Hj').
    + split; [done|]. intros j.
      destruct (Nat.leb_spec (used_digits_ other) j), (Nat.ltb_spec j (used_digits_ other)); cbn [andb]; done || lia.
    + intros i bs' Hi (Hlb' & Hj'). rewrite set_bigit_ok by lia. eexists. split; [done|].
      split; [by rewrite length_insert|]. intros j. destruct (decide (j = i)) as [->|Hne].
      * rewrite list_lookup_insert_eq by lia.
        destruct (Nat.leb_spec (used_digits_ other) i), (Nat.ltb_spec i (S i)); cbn [andb]; done || lia.
      * rewrite list_lookup_insert_ne, Hj' by lia.
        destruct (Nat.leb_spec (used_digits_ other) j), (Nat.ltb_spec j i), (Nat.ltb_spec j (S i)); cbn [andb]; done || lia.
    + cbn [mbind option_bind]. exists other. split; [|done]. destruct other as [ob ou oe].
      cbn [bigits_ used_digits_ exponent_] in *. do 2 f_equal. apply list_eq. intros j. rewrite Hj', Hj.
      assert (Hz : forall (z : nat), (ou <= z)%nat -> (z < kBigitCapacity)%nat -> ob !! z = Some 0).
      { intros z Hz Hz2. destruct (bigit_at (mkBignum ob ou oe) z Wo Hz2) as (d & Hd & _). cbn in Hd.
        rewrite Hd. f_equal. by apply (wf_rest _ Wo z). }
      destruct (Nat.leb_spec ou j) as [Hle|Hlt]; cbn [andb].
      * destruct (decide (j < kBigitCapacity)%nat) as [Hc|Hc].
        -- rewrite (Hz j Hle Hc). destruct (Nat.ltb_spec j (ou + (used_digits_ b - ou))); [done|].
           destruct (Nat.ltb_spec j ou); [lia|]. destruct (bigit_at b j W Hc) as (d & Hd & _). rewrite Hd.
           f_equal. apply (wf_rest b W j); [lia|done].
        -- destruct (Nat.ltb_spec j (ou + (used_digits_ b - ou))); [lia|]. destruct (Nat.ltb_spec j ou); [lia|].
           rewrite !(proj2 (lookup_ge_None _ _)) by lia. done.
      * destruct (Nat.ltb_spec j ou); [done|lia].
Qed.

Lemma has_Compare a x b y : has a x -> has b y -> Compare a b = Some (Z.sgn (x - y)).
Proof. intros (Ga & <- & _) (Gb & <- & _). by apply Compare_val. Qed.

Lemma has_PlusCompare a x b y c z :
  has a x -> has b y -> has c z -> PlusCompare a b c = Some (Z.sgn (x + y - z)).
Proof. intros (Ga & <- & _) (Gb & <- & _) (Gc & <- & _). by apply PlusCompare_val. Qed.

Lemma has_Divide a x b y :
  has a x -> has b y -> 0 < y -> x < 2 ^ 16 * y ->
  exists a', DivideModuloIntBignum a b = Some (a', x / y) /\ has a' (x mod y).
Proof.
  intros (Ga & Va & Hx) (Gb & Vb & Hy) Hy0 Hq.
  assert (Hu : used_digits_ b <> 0%nat).
  { intros Hu. unfold val in Vb. rewrite (zero_used b (big_wf b Gb) Hu) in Vb. lia. }
  pose proof (val_bound b Gb) as Hvb. pose proof (BigitLength_bound a 100 Ga ltac:(lia)) as Hl.
  destruct (DivideModulo_val a b Ga Gb Hu) as (a' & r & E & G' & V' & ->).
  - by rewrite Va, Vb.
  - apply BigitLength_bound; [done|]. rewrite pw_S, Va. unfold B. lia.
  - unfold kBigitCapacity. lia.
  - rewrite Va, Vb in *. exists a'. split; [done|]. split; [done|split; [done|]].
    pose proof (Z.mod_pos_bound x y Hy0). lia.
Qed.

(** ** Ratios *)

Definition pos (z : Z) : Z := Z.max 0 z.

(** [n / den] is [10^-k] times the double of [V] units of 2^-1074. *)
Definition ratio (n den V k : Z) : Prop := n * (2 ^ 1074 * 10 ^ pos k) = den * (V * 10 ^ pos (- k)).

Lemma pow_pos_lt b z : 0 < b -> 0 < b ^ pos z.
Proof. intros Hb. apply Z.pow_pos_nonneg; unfold pos; lia. Qed.

Lemma ratio_times10 n den V k : ratio n den V k -> ratio (n * 10) den V (k - 1).
Proof.
  unfold ratio. intros H. destruct (Z.lt_ge_cases 0 k) as [Hk|Hk].
  - replace (pos k) with (Z.succ (pos (k - 1))) in H by (unfold pos; lia).
    replace (pos (- (k - 1))) with (pos (- k)) by (unfold pos; lia).
    rewrite Z.pow_succ_r in H by (unfold pos; lia). lia.
  - replace (pos (- (k - 1))) with (Z.succ (pos (- k))) by (unfold pos; lia).
    replace (pos (k - 1)) with (pos k) by (unfold pos; lia).
    rewrite Z.pow_succ_r by (unfold pos; lia). lia.
Qed.

Lemma ratio_scale c n den V k : ratio n den V k -> ratio (n * c) (den * c) V k.
Proof.
  unfold ratio. generalize (2 ^ 1074 * 10 ^ pos k) (V * 10 ^ pos (- k)). intros t u H.
  transitivity (n * t * c); [ring|]. rewrite H. ring.
Qed.

(** From a bound of the double to one of the ratio; 324 and 323 keep the
    exponents positive. *)
Lemma ratio_ge n den V k :
  ratio n den V k -> 0 < den -> - 323 <= k ->
  10 ^ (k + 323) * 2 ^ 1074 <= V * 10 ^ 324 -> den <= n * 10.
Proof.
  unfold ratio. intros H Hd Hk Hle. set (T := 2 ^ 1074) in *.
  assert (HT : 0 < T) by (apply Z.pow_pos_nonneg; lia). clearbody T.
  assert (E1 : 10 ^ pos k * 10 ^ 324 = 10 ^ (pos k + 323) * 10).
  { rewrite <- Z.pow_add_r by (unfold pos; lia). replace (pos k + 324) with (Z.succ (pos k + 323)) by lia.
    rewrite Z.pow_succ_r by (unfold pos; lia). lia. }
  assert (E2 : 10 ^ pos (- k) * 10 ^ (k + 323) = 10 ^ (pos k + 323)).
  { rewrite <- Z.pow_add_r by (unfold pos; lia). f_equal. unfold pos. lia. }
  assert (Hpos : 0 < 10 ^ (pos k + 323)) by (apply Z.pow_pos_nonneg; unfold pos; lia).
  apply (Z.mul_le_mono_pos_r _ _ (T * 10 ^ (pos k + 323))); [nia|].
  replace (n * 10 * (T * 10 ^ (pos k + 323))) with (n * (T * 10 ^ pos k) * 10 ^ 324).
  2: { transitivity (n * (T * (10 ^ pos k * 10 ^ 324))); [ring|]. rewrite E1. ring. }
  rewrite H, <- E2. pose proof (pow_pos_lt 10 (- k) ltac:(lia)).
  assert (10 ^ pos (- k) * (10 ^ (k + 323) * T) <= 10 ^ pos (- k) * (V * 10 ^ 324)) by (apply Z.mul_le_mono_pos_l; done).
  generalize dependent (10 ^ 324). intros t. intros. nia.
Qed.

Lemma ratio_lt n den V k :
  ratio n den V k -> 0 < den -> - 323 <= k ->
  V * 10 ^ 324 < 10 ^ (k + 325) * 2 ^ 1074 -> n < 10 * den.
Proof.
  unfold ratio. intros H Hd Hk Hlt. set (T := 2 ^ 1074) in *.
  assert (HT : 0 < T) by (apply Z.pow_pos_nonneg; lia). clearbody T.
  assert (E1 : 10 ^ pos k * 10 ^ 324 = 10 ^ (pos k + 324)) by (rewrite <- Z.pow_add_r by (unfold pos; lia); done).
  assert (E2 : 10 ^ pos (- k) * 10 ^ (k + 325) = 10 ^ (pos k + 324) * 10).
  { rewrite <- Z.pow_add_r by (unfold pos; lia). replace (pos (- k) + (k + 325)) with (Z.succ (pos k + 324)) by (unfold pos; lia).
    rewrite Z.pow_succ_r by (unfold pos; lia). lia. }
  assert (Hpos : 0 < 10 ^ (pos k + 324)) by (apply Z.pow_pos_nonneg; unfold pos; lia).
  apply (Z.mul_lt_mono_pos_r (T * 10 ^ (pos k + 324))); [nia|].
  replace (n * (T * 10 ^ (pos k + 324))) with (n * (T * 10 ^ pos k) * 10 ^ 324).
  2: { transitivity (n * (T * (10 ^ pos k * 10 ^ 324))); [ring|]. rewrite E1. ring. }
  rewrite H. pose proof (pow_pos_lt 10 (- k) ltac:(lia)).
  assert (Hm : 10 ^ pos (- k) * (V * 10 ^ 324) < 10 ^ pos (- k) * (10 ^ (k + 325) * T)) by (apply Z.mul_lt_mono_pos_l; done).
  rewrite Z.mul_assoc, (Z.mul_assoc _ _ T), E2 in Hm.
  generalize dependent (10 ^ 324). intros t. intros. nia.
Qed.

(** *** Bounds

    Kept behind a definition, so that arithmetic tactics do not compute them. *)

Definition bounded (x a : Z) : Prop := 0 <= x <= 2 ^ a.

Lemma bounded_nonneg x a : bounded x a -> 0 <= x.
Proof. intros H. apply H. Qed.

Lemma bounded_le x y a : 0 <= x <= y -> bounded y a -> bounded x a.
Proof. unfold bounded. generalize (2 ^ a). lia. Qed.

Lemma bounded_mono x a b : bounded x a -> 0 <= a <= b -> bounded x b.
Proof.
  unfold bounded. intros Hx Ha. pose proof (Z.pow_le_mono_r 2 a b ltac:(lia) ltac:(lia)) as H.
  revert Hx H. clear. generalize (2 ^ a), (2 ^ b). lia.
Qed.

Lemma bounded_mul x y a b c :
  bounded x a -> bounded y b -> 0 <= a -> 0 <= b -> a + b <= c -> bounded (x * y) c.
Proof.
  intros Hx Hy Ha Hb Hc. apply (bounded_mono _ (a + b)); [|lia]. unfold bounded in *.
  rewrite Z.pow_add_r by done. revert Hx Hy. clear. generalize (2 ^ a), (2 ^ b). intros. nia.
Qed.

Lemma bounded_pow2 a b : 0 <= a <= b -> bounded (2 ^ a) b.
Proof. intros H. split; [apply Z.pow_nonneg; lia|apply Z.pow_le_mono_r; lia]. Qed.

Lemma bounded_const x : 0 <= x <= 16 -> bounded x 4.
Proof. done. Qed.

Lemma bounded_pow10 k : 0 <= k <= 400 -> bounded (10 ^ k) 1600.
Proof.
  intros Hk. split; [apply Z.pow_nonneg; lia|]. apply Z.le_trans with (16 ^ k); [apply Z.pow_le_mono_l; lia|].
  change 16 with (2 ^ 4). rewrite <- Z.pow_mul_r by lia. apply Z.pow_le_mono_r; lia.
Qed.

Lemma fits x a : bounded x a -> 0 <= a <= 2700 -> x < pw 100.
Proof.
  intros Hx Ha. eapply Z.le_lt_trans; [apply Hx|]. unfold pw, B. rewrite <- Z.pow_mul_r by lia. apply Z.pow_lt_mono_r; lia.
Qed.

Lemma fits_mul x y a b : bounded x a -> bounded y b -> 0 <= a -> 0 <= b -> a + b <= 2700 -> x * y < pw 100.
Proof. intros Hx Hy Ha Hb Hc. apply (fits _ (a + b)); [|lia]. by apply (bounded_mul x y a b). Qed.

Lemma fits_double x a : bounded x a -> 0 <= a <= 2690 -> x * 2 ^ 1 < pw 100.
Proof. intros Hx Ha. apply (fits_mul _ _ a 4); [done|by apply bounded_const|lia..]. Qed.

(** Numbers below ten times the denominator can be multiplied by ten. *)
Lemma fits_ten x d a : bounded d a -> 0 <= a <= 2690 -> x <= 10 * d -> x * 10 < pw 100.
Proof.
  intros Hd Ha Hx. apply Z.le_lt_trans with (d * (10 * 10)); [lia|].
  apply (fits_mul _ _ a 8); [done|split; [done|by vm_compute]|lia..].
Qed.

(** ** Start values *)

(** The values of the four numbers. *)
Definition scaled (s : Scaled) (n d m p : Z) : Prop :=
  has (numerator s) n /\ has (denominator s) d /\ has (delta_minus s) m /\ has (delta_plus s) p.

(** [n / d] with [m] and [p] half the distances to the neighbours; [c] is 2 when
    the lower neighbour is closer, [u / d] is the scaled unit of the significand. *)
Definition start_values (s : Scaled) (f u d c : Z) (deltas : bool) : Prop :=
  if deltas then scaled s (f * u * 2 * c) (d * 2 * c) u (u * c) else scaled s (f * u) d 0 0.

(** Twice the distance to the lower neighbour, in units. *)
Definition lower_gap (v : Z) : Z :=
  if (Significand v =? kHiddenBit) && negb (Exponent v =? kDenormalExponent) then 1 else 2.

Definition unit_of (v : Z) : Z := 2 ^ (Exponent v - kDenormalExponent).

Lemma dval_unit v : dval v = Significand v * unit_of v.
Proof. done. Qed.

Lemma closer_condition v :
  finite v -> v <> 0 ->
  (Z.land v kSignificandMask =? 0) && negb (Z.land v kExponentMask =? kMinimalNormalizedExponent)
    = (lower_gap v =? 1)
  /\ (Exponent v <> kDenormalExponent -> (Z.land v kSignificandMask =? 0) = (lower_gap v =? 1)).
Proof.
  intros Hv H0. destruct (decode v Hv) as (E & M & Ev & HE & HM & _ & ES & EX).
  unfold lower_gap. rewrite significand_field, exponent_field, ES, EX.
  replace (v / 2 ^ 52) with E by (apply (Z.div_unique v (2 ^ 52) E M); lia).
  replace (v mod 2 ^ 52) with M by (apply (Z.mod_unique v (2 ^ 52) E M); lia).
  rewrite Z.mod_small by lia. change kHiddenBit with (2 ^ 52).
  change kMinimalNormalizedExponent with (2 ^ 52).
  unfold kDenormalExponent, kExponentBias, kPhysicalSignificandSize.
  destruct (Z.eqb_spec E 0) as [->|HE0].
  - split; [|lia]. destruct (Z.eqb_spec M 0); [lia|]. cbn [andb]. rewrite Z.eqb_refl, andb_false_r. done.
  - destruct (Z.eqb_spec M 0) as [->|HM0].
    + rewrite Z.add_0_r, Z.eqb_refl. cbn [andb].
      destruct (Z.eqb_spec (E * 2 ^ 52) (2 ^ 52)), (Z.eqb_spec (E - (1023 + 52)) (- (1023 + 52) + 1));
        cbn [negb]; lia || done.
    + destruct (Z.eqb_spec (2 ^ 52 + M) (2 ^ 52)); [lia|]. done.
Qed.

(** One operation on a bignum of known value. *)
Ltac has_op op :=
  lazymatch op with
  | @mbind _ _ _ _ _ ?op => has_op op
  | AssignUInt64 ?b ?v => match goal with H : has b _ |- _ => destruct (has_AssignUInt64 b _ v H) as (? & -> & ?) end
  | AssignUInt16 ?b 1 => match goal with H : has b _ |- _ => destruct (has_AssignOne b _ H) as (? & -> & ?) end
  | AssignPowerUInt16 ?b 10 ?k =>
      match goal with H : has b _ |- _ => destruct (has_AssignPower b _ k H) as (? & -> & ?) end
  | AssignBignum ?b ?o =>
      match goal with H : has b _, H' : has o _ |- _ => destruct (has_AssignBignum b _ o _ H H') as (? & -> & ?) end
  | MultiplyByUInt64 ?b ?f =>
      match goal with H : has b _ |- _ => destruct (has_MultiplyByUInt64 b _ f H) as (? & -> & ?) end
  | ShiftLeft ?b ?k => match goal with H : has b _ |- _ => destruct (has_ShiftLeft b _ k H) as (? & -> & ?) end
  | Times10 ?b => match goal with H : has b _ |- _ => destruct (has_Times10 b _ H) as (? & -> & ?) end
  end.

Ltac has_step :=
  lazymatch goal with |- context [@mbind _ _ _ _ _ ?op] => has_op op end;
  cbn [mbind option_bind fst snd numerator denominator delta_minus delta_plus].

Lemma double_scaled s n d m p :
  scaled s n d m p -> bounded n 2690 -> bounded d 2690 -> bounded p 2690 ->
  exists s', closer_boundary s = Some s' /\ scaled s' (n * 2) (d * 2) m (p * 2).
Proof.
  intros (Hn & Hd & Hm & Hp) Bn Bd Bp.
  unfold closer_boundary. do 3 (has_step; [lia|by apply (fits_double _ 2690)|]).
  eexists. split; [done|]. done.
Qed.

(** The boundary factor that is common to the three cases. *)
Lemma closer_scaled v (b : bool) s n d m p :
  b = (lower_gap v =? 1) ->
  scaled s n d m p -> bounded n 2690 -> bounded d 2690 -> bounded p 2690 ->
  exists s', (if b then closer_boundary s else Some s) = Some s'
    /\ scaled s' (n * (3 - lower_gap v)) (d * (3 - lower_gap v)) m (p * (3 - lower_gap v)).
Proof.
  intros -> H Bn Bd Bp. unfold lower_gap. destruct (_ && _); cbn [Z.eqb Pos.eqb].
  - apply double_scaled; done.
  - exists s. split; [done|]. rewrite !Z.mul_1_r. done.
Qed.

Section start.
Context (v k : Z).
Hypothesis Hv : finite v.
Hypothesis H0 : v <> 0.
Hypothesis Hk : -323 <= k <= 400.
Context (deltas : bool).

Lemma start_significand : 0 < Significand v < 2 ^ 53.
Proof. destruct (fields_bound v Hv) as (HS & _ & _ & Hne). specialize (Hne H0). lia. Qed.

Lemma start_exponent : - 1074 <= Exponent v <= 971.
Proof. destruct (fields_bound v Hv) as (_ & HX & _). unfold kDenormalExponent, kExponentBias, kPhysicalSignificandSize in HX. lia. Qed.

Lemma significand_bounded : bounded (Significand v) 53.
Proof. pose proof start_significand. unfold bounded. lia. Qed.

Lemma significand_pow a b : 0 <= a <= b -> bounded (Significand v * 2 ^ a) (53 + b).
Proof.
  intros Ha. apply (bounded_mul _ _ 53 b); [apply significand_bounded|by apply bounded_pow2|lia..].
Qed.

Let initial := mkScaled Bignum_new Bignum_new Bignum_new Bignum_new.

Lemma initial_scaled : scaled initial 0 0 0 0.
Proof. repeat split; apply new_has. Qed.

Lemma start_power : 0 <= k -> bounded (10 ^ k) 1600.
Proof. intros H. apply bounded_pow10. lia. Qed.

Lemma start_negative_power : k <= 0 -> bounded (10 ^ (- k)) 1600.
Proof. intros H. apply bounded_pow10. lia. Qed.

Lemma le_bound x a : bounded x a -> 0 <= a <= 2690 -> bounded x 2690.
Proof. intros Hx Ha. by apply (bounded_mono _ a). Qed.

Lemma le_bound2 x a : bounded x a -> 0 <= a <= 2680 -> bounded (x * 2) 2690.
Proof. intros Hx Ha. apply (bounded_mul _ _ a 4); [done|by apply bounded_const|lia..]. Qed.

Lemma start_positive :
  0 <= Exponent v -> 0 <= k ->
  exists s, InitialScaledStartValuesPositiveExponent v k deltas initial = Some s
    /\ start_values s (Significand v) (2 ^ Exponent v) (10 ^ k) (3 - lower_gap v) deltas.
Proof.
  intros HX Hk0. pose proof start_significand as Hf. pose proof start_exponent as HXb.
  destruct initial_scaled as (Hn & Hd & Hm & Hp). pose proof (start_power Hk0) as H10.
  pose proof (significand_pow (Exponent v) 971 ltac:(lia)) as HfX. change (53 + 971) with 1024 in HfX.
  pose proof (bounded_pow2 (Exponent v) 971 ltac:(lia)) as HX2.
  unfold InitialScaledStartValuesPositiveExponent, start_values.
  has_step; [lia|]. has_step; [lia|by apply (fits _ 1024)|]. has_step; [lia|by apply (fits _ 1600)|].
  destruct deltas; [|eexists; split; [done|]; by repeat (split; [assumption|])].
  has_step; [lia|by apply (fits_double _ 1600)|]. has_step; [lia|by apply (fits_double _ 1024)|].
  has_step. has_step; [lia|rewrite Z.mul_1_l; by apply (fits _ 971)|].
  has_step. has_step; [lia|rewrite Z.mul_1_l; by apply (fits _ 971)|].
  destruct (closer_condition v Hv H0) as (_ & ->).
  2: { unfold kDenormalExponent, kExponentBias, kPhysicalSignificandSize. lia. }
  rewrite !Z.mul_1_l in *. change (2 ^ 1) with 2 in *.
  apply closer_scaled; [done|by repeat (split; [assumption|])|..].
  - by apply (le_bound2 _ 1024).
  - by apply (le_bound2 _ 1600).
  - by apply (le_bound _ 971).
Qed.

Lemma start_negative :
  Exponent v < 0 -> 0 <= k -> Exponent v <> kDenormalExponent ->
  exists s, InitialScaledStartValuesNegativeExponentPositivePower v k deltas initial = Some s
    /\ start_values s (Significand v) 1 (10 ^ k * 2 ^ (- Exponent v)) (3 - lower_gap v) deltas.
Proof.
  intros HX Hk0 Hne. pose proof start_significand as Hf. pose proof start_exponent as HXb.
  destruct initial_scaled as (Hn & Hd & Hm & Hp). pose proof (start_power Hk0) as H10.
  pose proof (bounded_pow2 (- Exponent v) 1074 ltac:(lia)) as HX2.
  assert (Hden : bounded (10 ^ k * 2 ^ (- Exponent v)) 2674) by by apply (bounded_mul _ _ 1600 1074).
  pose proof significand_bounded as Hfb.
  unfold InitialScaledStartValuesNegativeExponentPositivePower, start_values. rewrite !(Z.mul_1_r (Significand v)).
  has_step; [lia|]. has_step; [lia|by apply (fits _ 1600)|]. has_step; [lia|by apply (fits _ 2674)|].
  destruct deltas; [|eexists; split; [done|]; by repeat (split; [assumption|])].
  has_step; [lia|by apply (fits_double _ 2674)|]. has_step; [lia|by apply (fits_double _ 53)|].
  has_step. has_step. destruct (closer_condition v Hv H0) as (_ & ->); [|done].
  change (2 ^ 1) with 2 in *.
  apply closer_scaled; [done|by repeat (split; [assumption|])|..].
  - by apply (le_bound2 _ 53).
  - by apply (le_bound2 _ 2674).
  - apply (le_bound _ 4); [by apply bounded_const|lia].
Qed.

Lemma start_both_negative :
  Exponent v < 0 -> k < 0 ->
  exists s, InitialScaledStartValuesNegativeExponentNegativePower v k deltas initial = Some s
    /\ start_values s (Significand v) (10 ^ (- k)) (2 ^ (- Exponent v)) (3 - lower_gap v) deltas.
Proof.
  intros HX Hk0. pose proof start_significand as Hf. pose proof start_exponent as HXb.
  destruct initial_scaled as (Hn & Hd & Hm & Hp). pose proof (start_negative_power ltac:(lia)) as H10.
  pose proof (bounded_pow2 (- Exponent v) 1074 ltac:(lia)) as HX2.
  assert (Hnum : bounded (Significand v * 10 ^ (- k)) 1653).
  { apply (bounded_mul _ _ 53 1600); [apply significand_bounded|done..]. }
  unfold InitialScaledStartValuesNegativeExponentNegativePower, start_values.
  has_step; [lia|by apply (fits _ 1600)|].
  destruct deltas.
  - has_step. has_step. has_step; [lia|rewrite Z.mul_comm; by apply (fits _ 1653)|].
    has_step. has_step; [lia|rewrite Z.mul_1_l; by apply (fits _ 1074)|]. rewrite Z.mul_1_l in *.
    rewrite (Z.mul_comm (10 ^ (- k)) (Significand v)) in *.
    has_step; [lia|by apply (fits_double _ 1653)|]. has_step; [lia|by apply (fits_double _ 1074)|].
    change (2 ^ 1) with 2 in *. destruct (closer_condition v Hv H0) as (-> & _). unfold lower_gap.
    destruct (_ && _); cbn [Z.eqb Pos.eqb].
    + assert (Hnum2 : bounded (Significand v * 10 ^ (- k) * 2) 2690) by by apply (le_bound2 _ 1653).
      assert (Hden2 : bounded (2 ^ (- Exponent v) * 2) 2690) by by apply (le_bound2 _ 1074).
      has_step; [lia|by apply (fits_double _ 2690)|]. has_step; [lia|by apply (fits_double _ 2690)|].
      has_step; [lia|by apply (fits_double _ 1600)|]. change (2 ^ 1) with 2 in *.
      eexists; split; [done|]. change (3 - 1) with 2. by repeat (split; [assumption|]).
    + eexists; split; [done|]. change (3 - 2) with 1. rewrite !Z.mul_1_r. by repeat (split; [assumption|]).
  - cbn [mbind option_bind]. has_step; [lia|rewrite Z.mul_comm; by apply (fits _ 1653)|].
    has_step. has_step; [lia|rewrite Z.mul_1_l; by apply (fits _ 1074)|]. rewrite Z.mul_1_l in *.
    rewrite (Z.mul_comm (10 ^ (- k)) (Significand v)) in *.
    eexists; split; [done|]. by repeat (split; [assumption|]).
Qed.

End start.
