(* ===== verification/BignumDtoaScaled.v ===== *)
(** * The scaled start of the conversion of doubles

    The correctness of the first half of src/bignum-dtoa.cc, the definitions of
    [BignumDtoa]: the estimated power, the start values of the three exponent ranges
    as ratios, the first digit ([FixupMultiply10]), and how comparisons of
    the scaled bignums decide where a decimal lies relative to the midpoints between
    neighbouring doubles. *)

From Stdlib Require Import Floats.SpecFloat.
From S2P Require Import Prelude Bignum BignumArith Double BignumDtoa.

Open Scope Z_scope.

Ltac Zify.zify_post_hook ::= idtac.

(** ** The estimated power and the scaled start *)

(** What is needed of the estimated power. *)
Record estimated (v k : Z) : Prop := {
  est_low : 10 ^ (k + 323) * 2 ^ 1074 <= dval v * 10 ^ 324;
  est_high : (dval v + unit_of v) * 10 ^ 324 < 10 ^ (k + 325) * 2 ^ 1074;
  est_range : -323 <= k <= 308;
  est_integer : 0 <= Exponent v -> 0 <= k;
  est_small : Exponent v = kDenormalExponent -> k < 0
}.

Lemma pow10_lt_inv a b : 10 ^ a < 10 ^ b -> 0 <= b -> a < b.
Proof. intros H Hb. by apply (Z.pow_lt_mono_r_iff 10). Qed.

Lemma scale_above a b t w x y : 0 < t -> 0 < w -> a * t <= b * w -> b <= x * t -> x < y -> a < y * w.
Proof.
  intros Ht Hw H1 H2 H3. apply Z.le_lt_trans with (x * w); [|nia]. apply (Z.mul_le_mono_pos_r _ _ t Ht). nia.
Qed.

Lemma scale_below a t w x : 0 < t -> 0 < w -> t <= x -> x * w < a * t -> w < a.
Proof. intros Ht Hw H1 H2. nia. Qed.

Lemma EstimatePower_estimated v :
  finite v -> v <> 0 ->
  exists e, NormalizedExponent (Significand v) (Exponent v) = Some e /\ estimated v (EstimatePower e).
Proof.
  intros Hv H0. destruct (NormalizedExponent_spec v Hv H0) as (e & -> & He & Hlo & Hhi).
  exists e. split; [done|]. destruct (EstimatePower_spec e He) as (H1 & H2 & H3).
  set (k := EstimatePower e) in *. clearbody k. fold (unit_of v) in Hhi.
  assert (P324 : 0 < 10 ^ 324) by (apply Z.pow_pos_nonneg; lia).
  assert (P1074 : 0 < 2 ^ 1074) by (apply Z.pow_pos_nonneg; lia).
  assert (L : 10 ^ (k + 323) * 2 ^ 1074 <= dval v * 10 ^ 324).
  { eapply Z.le_trans; [exact H1|]. by apply Z.mul_le_mono_pos_r. }
  assert (G : (dval v + unit_of v) * 10 ^ 324 < 10 ^ (k + 325) * 2 ^ 1074).
  { eapply Z.le_lt_trans; [|exact H2]. by apply Z.mul_le_mono_pos_r. }
  assert (K : k <= 308).
  { assert (E : 2 ^ (e + 52 + 1074) <= 2 ^ 1023 * 2 ^ 1074).
    { rewrite <- Z.pow_add_r by lia. apply Z.pow_le_mono_r; lia. }
    assert (C : 2 ^ 1023 < 10 ^ 308) by by vm_compute.
    assert (M : 10 ^ (k + 323) < 10 ^ 632).
    { replace (10 ^ 632) with (10 ^ 308 * 10 ^ 324) by (by rewrite <- Z.pow_add_r).
      apply (scale_above _ _ _ _ _ _ P1074 P324 H1 E C). }
    apply pow10_lt_inv in M; clear - M; lia. }
  split; [done|done|lia| |].
  - intros HX. assert (D : 2 ^ 1074 <= dval v + unit_of v).
    { unfold unit_of. assert (2 ^ 1074 <= 2 ^ (Exponent v - kDenormalExponent)).
      { apply Z.pow_le_mono_r; [lia|]. unfold kDenormalExponent, kExponentBias, kPhysicalSignificandSize. lia. }
      pose proof (dval_pos v Hv H0). lia. }
    assert (M : 10 ^ 324 < 10 ^ (k + 325)) by exact (scale_below _ _ _ _ P1074 P324 D G).
    apply pow10_lt_inv in M; clear - M H3; lia.
  - intros HX. destruct (Z.lt_ge_cases k 0) as [|Hk]; [done|]. exfalso.
    assert (D : dval v <= 2 ^ 53).
    { rewrite dval_unit. unfold unit_of. rewrite HX, Z.sub_diag. destruct (fields_bound v Hv) as (HS & _). lia. }
    assert (C : 2 ^ 53 * 10 ^ 324 < 10 ^ 323 * 2 ^ 1074) by by vm_compute.
    assert (M : 10 ^ 323 <= 10 ^ (k + 323)) by (apply Z.pow_le_mono_r; lia).
    apply (Z.mul_le_mono_pos_r _ _ _ P1074) in M. apply (Z.mul_le_mono_pos_r _ _ _ P324) in D.
    exact (Z.lt_irrefl _ (Z.le_lt_trans _ _ _ (Z.le_trans _ _ _ M (Z.le_trans _ _ _ L D)) C)).
Qed.

Lemma pos_opp_sub k : pos k - pos (- k) = k.
Proof. unfold pos. lia. Qed.

Lemma unit_pos v : finite v -> 0 < unit_of v.
Proof. intros Hv. destruct (fields_bound v Hv). apply Z.pow_pos_nonneg; lia. Qed.

Lemma est_ratio_ge v k n d : estimated v k -> ratio n d (dval v) k -> 0 < d -> d <= n * 10.
Proof. intros [L _ K _ _] Hr Hd. apply (ratio_ge _ _ _ _ Hr Hd); [apply K|exact L]. Qed.

Lemma est_ratio_lt v k n d : estimated v k -> ratio n d (dval v + unit_of v) k -> 0 < d -> n < 10 * d.
Proof. intros [_ G K _ _] Hr Hd. apply (ratio_lt _ _ _ _ Hr Hd); [apply K|exact G]. Qed.

(** The scaled numbers of the start: [n / d] is the double times 10^-k. *)
Lemma start_spec v k deltas :
  finite v -> v <> 0 -> estimated v k ->
  exists s u d, InitialScaledStartValues v k deltas (mkScaled Bignum_new Bignum_new Bignum_new Bignum_new) = Some s
    /\ start_values s (Significand v) u d (3 - lower_gap v) deltas
    /\ 0 < u /\ 0 < d /\ bounded d 2674 /\ ratio u d (unit_of v) k.
Proof.
  intros Hv H0 [_ _ Hk HX HX']. pose proof (start_exponent v Hv) as HXb. unfold InitialScaledStartValues.
  assert (HU : unit_of v = 2 ^ (Exponent v + 1074)) by (unfold unit_of; f_equal).
  assert (H10 : forall a, 0 <= a -> 0 < 10 ^ a) by (intros; apply Z.pow_pos_nonneg; lia).
  assert (H2 : forall a, 0 <= a -> 0 < 2 ^ a) by (intros; apply Z.pow_pos_nonneg; lia).
  assert (Hsplit : Exponent v < 0 -> 2 ^ 1074 = 2 ^ (- Exponent v) * 2 ^ (Exponent v + 1074)).
  { intros He. rewrite <- Z.pow_add_r by lia. f_equal. lia. }
  assert (Hk' : -323 <= k <= 400) by lia. unfold ratio. rewrite HU.
  destruct (Z.leb_spec 0 (Exponent v)) as [He|He].
  - specialize (HX He). destruct (start_positive v k Hv H0 Hk' deltas He HX) as (s & -> & Hs).
    exists s, (2 ^ Exponent v), (10 ^ k). split; [done|]. split; [done|]. split; [auto|]. split; [auto|]. split.
    + apply (bounded_mono _ 1600); [by apply start_power|lia].
    + unfold pos. rewrite !Z.max_r by lia. rewrite (Z.max_l 0 (- k)), Z.pow_add_r, Z.pow_0_r by lia. ring.
  - destruct (Z.leb_spec 0 k) as [Hk0|Hk0].
    + destruct (start_negative v k Hv H0 Hk' deltas He Hk0) as (s & -> & Hs); [intros E; specialize (HX' E); lia|].
      eexists s, 1, _. split; [done|]. split; [exact Hs|]. split; [done|].
      split; [apply Z.mul_pos_pos; apply H10 || apply H2; lia|]. split.
      * apply (bounded_mul _ _ 1600 1074); [by apply start_power|apply bounded_pow2; lia|done..].
      * unfold pos. rewrite Z.max_r by lia. rewrite (Z.max_l 0 (- k)), Z.pow_0_r by lia. rewrite (Hsplit He). ring.
    + destruct (start_both_negative v k Hv H0 Hk' deltas He Hk0) as (s & -> & Hs).
      eexists s, _, _. split; [done|]. split; [exact Hs|]. split; [apply H10; lia|].
      split; [apply H2; lia|]. split; [apply bounded_pow2; lia|].
      unfold pos. rewrite Z.max_l by lia. rewrite (Z.max_r 0 (- k)), Z.pow_0_r by lia. rewrite (Hsplit He). ring.
Qed.

(** ** The leading digit *)

Lemma odd_factor_unique x y a b :
  Z.odd x = true -> Z.odd y = true -> 0 <= a -> 0 <= b -> x * 2 ^ a = y * 2 ^ b -> x = y /\ a = b.
Proof.
  intros Hx Hy Ha. revert b. pattern a. apply natlike_ind; [|clear a Ha|done].
  - intros b Hb E. destruct (Z.eq_dec b 0) as [->|H0]; [lia|]. exfalso.
    replace b with (Z.succ (Z.pred b)) in E by lia. rewrite Z.pow_succ_r, Z.pow_0_r, Z.mul_1_r in E by lia.
    rewrite E, Z.odd_mul, Z.odd_mul, andb_false_r in Hx. done.
  - intros a Ha IH b Hb E. rewrite Z.pow_succ_r in E by lia. destruct (Z.eq_dec b 0) as [->|H0].
    + exfalso. rewrite Z.pow_0_r, Z.mul_1_r in E. rewrite <- E, Z.odd_mul, Z.odd_mul, andb_false_r in Hy. done.
    + replace b with (Z.succ (Z.pred b)) in E by lia. rewrite Z.pow_succ_r in E by lia.
      destruct (IH (Z.pred b)); lia.
Qed.

Lemma odd_pow5 n : 0 <= n -> Z.odd (5 ^ n) = true.
Proof. intros Hn. destruct (Z.eq_dec n 0) as [->|]; [done|]. by rewrite Z.odd_pow by lia. Qed.

Lemma pow10_split n : 0 <= n -> 10 ^ n = 5 ^ n * 2 ^ n.
Proof. intros Hn. change 10 with (5 * 2). apply Z.pow_mul_l. Qed.

(** A double with an odd significand is not a power of ten. *)
Lemma odd_not_power v k :
  finite v -> v <> 0 -> Z.odd (Significand v) = true -> dval v * 10 ^ pos (- k) <> 2 ^ 1074 * 10 ^ pos k.
Proof.
  intros Hv H0 Hodd E. destruct (fields_bound v Hv) as (HS & HX & Hn & Hf). specialize (Hf H0).
  assert (HP : 0 <= pos k) by (unfold pos; lia). assert (HN : 0 <= pos (- k)) by (unfold pos; lia).
  rewrite dval_unit in E. unfold unit_of in E. rewrite !pow10_split in E by done.
  destruct (odd_factor_unique (Significand v * 5 ^ pos (- k)) (5 ^ pos k)
    (Exponent v - kDenormalExponent + pos (- k)) (1074 + pos k)) as [E1 E2].
  - by rewrite Z.odd_mul, Hodd, odd_pow5.
  - by apply odd_pow5.
  - lia.
  - lia.
  - rewrite !Z.pow_add_r by lia.
    transitivity (Significand v * 2 ^ (Exponent v - kDenormalExponent) * (5 ^ pos (- k) * 2 ^ pos (- k))); [ring|].
    rewrite E. ring.
  - clear E. unfold pos in *. destruct (Z.lt_ge_cases k 0) as [Hk|Hk].
    + rewrite (Z.max_l 0 k), Z.pow_0_r in E1 by lia.
      assert (5 ^ 1 <= 5 ^ Z.max 0 (- k)) by (apply Z.pow_le_mono_r; lia). nia.
    + rewrite (Z.max_l 0 (- k)), Z.pow_0_r, Z.mul_1_r in E1 by lia. rewrite Z.max_r in * by lia.
      assert (He : 2 ^ 52 <= Significand v) by (apply Hn; unfold kDenormalExponent, kExponentBias, kPhysicalSignificandSize in *; lia).
      destruct (Z.le_gt_cases k 22) as [H|H].
      * assert (5 ^ k <= 5 ^ 22) by (apply Z.pow_le_mono_r; lia). lia.
      * assert (5 ^ 23 <= 5 ^ k) by (apply Z.pow_le_mono_r; lia). lia.
Qed.

Lemma FixupMultiply10_spec s n d m p k ev :
  scaled s n d m p -> bounded n 2690 -> bounded m 2690 -> bounded p 2690 ->
  let yes := reaches ev (Z.sgn (n + p - d)) in
  let c := if yes then 1 else 10 in
  exists s', FixupMultiply10 k ev s = Some (s', if yes then k + 1 else k) /\ scaled s' (n * c) d (m * c) (p * c).
Proof.
  intros (Hn & Hd & Hm & Hp) Bn Bm Bp. unfold FixupMultiply10.
  rewrite (has_PlusCompare _ _ _ _ _ _ Hn Hp Hd). cbn [mbind option_bind].
  assert (B : forall x, bounded x 2690 -> x * 10 < pw 100).
  { intros x Hx. by apply (fits_mul _ _ 2690 4). }
  destruct (reaches _ _); cbn zeta.
  - exists s. split; [done|]. rewrite !Z.mul_1_r. done.
  - has_step; [by apply B|]. unfold Equal. rewrite (has_Compare _ _ _ _ Hm Hp). cbn [mbind option_bind].
    destruct (Z.eqb_spec (Z.sgn (m - p)) 0) as [E|E]; cbv iota.
    + assert (m = p) as -> by lia. has_step; [by apply B|]. has_step. eexists. split; [done|].
      by repeat (split; [assumption|]).
    + has_step; [by apply B|]. has_step; [by apply B|]. eexists. split; [done|].
      by repeat (split; [assumption|]).
Qed.

Lemma reaches_spec ev z : reaches ev (Z.sgn z) = true <-> if ev then 0 <= z else 0 < z.
Proof. unfold reaches. destruct ev; [rewrite Z.leb_le|rewrite Z.ltb_lt]; lia. Qed.

Lemma reaches_false ev z : reaches ev (Z.sgn z) = false <-> if ev then z < 0 else z <= 0.
Proof. unfold reaches. destruct ev; [rewrite Z.leb_gt|rewrite Z.ltb_ge]; lia. Qed.

Definition even_significand (v : Z) : bool := Z.land (Significand v) 1 =? 0.

Lemma even_significand_odd v : even_significand v = false -> Z.odd (Significand v) = true.
Proof.
  unfold even_significand. change 1 with (2 ^ 1 - 1). rewrite land_mask by lia. change (2 ^ 1) with 2.
  rewrite Zmod_odd. by destruct (Z.odd _).
Qed.

(** Numbers at the first digit: without and with the distances to the neighbours. *)
Lemma prepared_counted v k :
  finite v -> v <> 0 -> estimated v k ->
  exists s0 s n d pt,
    InitialScaledStartValues v k false (mkScaled Bignum_new Bignum_new Bignum_new Bignum_new) = Some s0
    /\ FixupMultiply10 k (even_significand v) s0 = Some (s, pt)
    /\ has (numerator s) n /\ has (denominator s) d
    /\ d <= n < 10 * d /\ 0 < d /\ bounded d 2674 /\ ratio n d (dval v) (pt - 1) /\ k <= pt <= k + 1.
Proof.
  intros Hv H0 Hk.
  destruct (start_spec v k false Hv H0 Hk) as (s0 & u & d & E0 & (Hn & Hd & Hm & Hp) & Hu & Hd0 & Hdb & Hr).
  assert (Hrat : forall z, ratio (z * u) d (z * unit_of v) k).
  { intros z. unfold ratio in *. rewrite <- Z.mul_assoc, Hr. ring. }
  assert (Hhi : (Significand v + 1) * u < 10 * d).
  { apply (est_ratio_lt v k); [done| |done]. rewrite dval_unit.
    replace (Significand v * unit_of v + unit_of v) with ((Significand v + 1) * unit_of v) by ring. apply Hrat. }
  specialize (Hrat (Significand v)). rewrite <- dval_unit in Hrat.
  assert (Hlo : d <= Significand v * u * 10) by by apply (est_ratio_ge v k).
  replace ((Significand v + 1) * u) with (Significand v * u + u) in Hhi by ring.
  set (n := Significand v * u) in *. clearbody n.
  assert (Bn : bounded n 2690).
  { apply (bounded_le _ (d * 16) 2690); [lia|]. apply (bounded_mul _ _ 2674 4); [done|by apply bounded_const|lia..]. }
  assert (B0 : bounded 0 2690) by (split; [done|by apply Z.pow_nonneg]).
  destruct (FixupMultiply10_spec s0 n d 0 0 k (even_significand v)) as (s & E & Hn' & Hd' & _); [done|done|done|done|].
  exists s0, s. rewrite Z.add_0_r in *.
  destruct (reaches (even_significand v) (Z.sgn (n - d))) eqn:Er.
  - exists (n * 1), d, (k + 1). rewrite Z.mul_1_r in *. replace (k + 1 - 1) with k by lia.
    apply reaches_spec in Er. assert (d <= n) by (destruct (even_significand v); lia).
    repeat (split; [first [done|lia]|]). lia.
  - exists (n * 10), d, k. assert (Hnd : n < d).
    { apply reaches_false in Er. destruct (even_significand v) eqn:Ev; [lia|].
      destruct (Z.eq_dec n d) as [->|]; [|lia]. exfalso.
      apply (odd_not_power v k Hv H0 (even_significand_odd v Ev)). unfold ratio in Hrat.
      apply (Z.mul_reg_l _ _ d) in Hrat; [done|lia]. }
    repeat (split; [first [done|lia]|]). split; [by apply ratio_times10|]. lia.
Qed.

(** The numbers of the shortest mode: [n / d] is the double at the scale of the
    leading digit, [p / d] and [m / d] half the distances to its neighbours. *)
Record shortest_numbers (v n d m p : Z) : Prop := {
  sn_d : 0 < d;
  sn_bounded : bounded d 2676;
  sn_m : 0 < m;
  sn_p : p = m * (3 - lower_gap v);
  sn_n : n = 2 * Significand v * p;
  sn_above : reaches (even_significand v) (Z.sgn (n + p - d)) = true;
  sn_below : reaches (even_significand v) (Z.sgn (n + p - 10 * d)) = false
}.

Lemma lower_gap_cases v : lower_gap v = 2 \/ lower_gap v = 1 /\ Significand v = 2 ^ 52.
Proof.
  unfold lower_gap. destruct (Z.eqb_spec (Significand v) kHiddenBit) as [->|]; [|by left].
  destruct (negb _); [right|left]; done.
Qed.

Lemma prepared_shortest v k :
  finite v -> v <> 0 -> estimated v k ->
  exists s0 s n d m p pt,
    InitialScaledStartValues v k true (mkScaled Bignum_new Bignum_new Bignum_new Bignum_new) = Some s0
    /\ FixupMultiply10 k (even_significand v) s0 = Some (s, pt)
    /\ scaled s n d m p /\ shortest_numbers v n d m p /\ ratio n d (dval v) (pt - 1) /\ k <= pt <= k + 1.
Proof.
  intros Hv H0 Hk.
  destruct (start_spec v k true Hv H0 Hk) as (s0 & u & d0 & E0 & Hs & Hu & Hd0 & Hdb & Hr).
  pose proof (start_significand v Hv H0) as Hf. unfold start_values in Hs.
  set (c := 3 - lower_gap v) in *.
  assert (Hc : 1 <= c <= 2) by (unfold c; destruct (lower_gap_cases v) as [->|[-> _]]; lia).
  set (f := Significand v) in *. set (d := d0 * 2 * c) in *.
  assert (Hrat : forall z, ratio (z * u * 2 * c) d (z * unit_of v) k).
  { intros z. unfold d. apply ratio_scale, ratio_scale. unfold ratio in *.
    rewrite <- Z.mul_assoc, Hr. ring. }
  assert (Hd : 0 < d) by (unfold d; lia).
  assert (Bd : bounded d 2676).
  { apply (bounded_le _ (d0 * 4)); [unfold d; nia|]. apply (bounded_mul _ _ 2674 2); [done..|lia]. }
  assert (Hlo : d <= f * u * 2 * c * 10) by (by apply (est_ratio_ge v k); [|rewrite dval_unit; apply Hrat|]).
  assert (Hhi : (f + 1) * u * 2 * c < 10 * d).
  { apply (est_ratio_lt v k); [done| |done]. rewrite dval_unit.
    replace (Significand v * unit_of v + unit_of v) with ((f + 1) * unit_of v) by (unfold f; ring). apply Hrat. }
  assert (Bn : bounded (d * 16) 2690) by (apply (bounded_mul _ _ 2676 4); [done|by apply bounded_const|lia..]).
  assert (Hn : f * u * 2 * c = 2 * f * (u * c)) by ring.
  assert (Hn1 : (f + 1) * u * 2 * c = f * u * 2 * c + 2 * (u * c)) by ring.
  rewrite Hn1 in Hhi. clear Hn1. specialize (Hrat f). unfold f in Hrat at 2. rewrite <- dval_unit in Hrat.
  assert (Hp : u <= u * c <= f * u * 2 * c) by nia.
  set (n := f * u * 2 * c) in *. set (p := u * c) in *.
  assert (Ep : p = u * c) by done. clearbody n p d.
  destruct (FixupMultiply10_spec s0 n d u p k (even_significand v) Hs) as (s & E & Hs');
    [apply (bounded_le _ (d * 16)); [lia|done]..|].
  exists s0, s. destruct (reaches _ (Z.sgn (n + p - d))) eqn:Er.
  - exists n, d, u, p, (k + 1). rewrite !Z.mul_1_r in Hs'. replace (k + 1 - 1) with k by lia.
    split; [done|]. split; [done|]. split; [done|]. split; [|split; [done|lia]].
    split; [done|done|done|done|done|done|]. apply reaches_false. destruct (even_significand v); lia.
  - exists (n * 10), d, (u * 10), (p * 10), k. split; [done|]. split; [done|]. split; [done|].
    split; [|split; [by apply ratio_times10|lia]]. apply reaches_false in Er.
    split; [done|done|lia|lia|lia|apply reaches_spec|apply reaches_false]; destruct (even_significand v); lia.
Qed.

(** ** Decimal numbers and doubles *)

(** The sign of [M * 10^t - x] for [x] in units of 2^-1076. *)
Definition cmp_decimal (M t x : Z) : Z := Z.sgn (M * (2 ^ 1076 * 10 ^ pos t) - x * 10 ^ pos (- t)).

(** The points half way to the neighbours, in units of 2^-1076. *)
Definition lower_midpoint (v : Z) : Z := 2 * (dval v + dval (v - 1)).
Definition upper_midpoint (v : Z) : Z := 4 * dval v + 2 * unit_of v.

(** The numbers that round to [v], ties to even. *)
Definition reads_back (v M t : Z) : Prop :=
  reaches (even_significand v) (cmp_decimal M t (lower_midpoint v)) = true
  /\ reaches (even_significand v) (- cmp_decimal M t (upper_midpoint v)) = true.

(** The distance from [v] to [M * 10^t], scaled. *)
Definition distance (v M t : Z) : Z := Z.abs (M * (2 ^ 1074 * 10 ^ pos t) - dval v * 10 ^ pos (- t)).

Lemma midpoints v :
  finite v -> 0 < v -> 2 * lower_midpoint v = 8 * dval v - 2 * (lower_gap v * unit_of v).
Proof. intros Hv H0. unfold lower_midpoint. pose proof (dval_pred v Hv H0) as H. fold (lower_gap v) (unit_of v) in H. lia. Qed.

Lemma four_units x : 2 ^ 1076 * x = 4 * (2 ^ 1074 * x).
Proof. replace (2 ^ 1076) with (4 * 2 ^ 1074) by (change 4 with (2 ^ 2); by rewrite <- Z.pow_add_r). ring. Qed.

(** Comparisons by the scaled numbers. *)
Lemma cmp_scaled x n d t M c :
  ratio n d x t -> 0 < d ->
  Z.sgn (M * (c * (2 ^ 1074 * 10 ^ pos t)) - x * 10 ^ pos (- t)) = Z.sgn (c * M * d - n).
Proof.
  unfold ratio. intros H Hd. assert (HA : 0 < 2 ^ 1074 * 10 ^ pos t).
  { apply Z.mul_pos_pos; [apply Z.pow_pos_nonneg; lia|by apply pow_pos_lt]. }
  generalize dependent (2 ^ 1074 * 10 ^ pos t). intros A H HA. generalize dependent (10 ^ pos (- t)). intros b H.
  assert (E : d * (M * (c * A) - x * b) = A * (c * M * d - n)).
  { transitivity (M * d * c * A - d * (x * b)); [ring|]. rewrite <- H. ring. }
  apply (f_equal Z.sgn) in E. rewrite !Z.sgn_mul, (Z.sgn_pos d), (Z.sgn_pos A) in E by done. lia.
Qed.

Lemma distance_scaled v n d t :
  ratio n d (dval v) t -> 0 < d ->
  exists A, 0 < A /\ forall M, d * distance v M t = A * Z.abs (M * d - n).
Proof.
  unfold ratio, distance. intros H Hd. assert (HA : 0 < 2 ^ 1074 * 10 ^ pos t).
  { apply Z.mul_pos_pos; [apply Z.pow_pos_nonneg; lia|by apply pow_pos_lt]. }
  generalize dependent (2 ^ 1074 * 10 ^ pos t). intros A H HA. exists A. split; [done|]. intros M'.
  generalize dependent (10 ^ pos (- t)). intros b H.
  rewrite <- (Z.abs_eq d) at 1 by lia. rewrite <- (Z.abs_eq A) at 2 by lia. rewrite <- !Z.abs_mul. f_equal.
  transitivity (M' * d * A - d * (dval v * b)); [ring|]. rewrite <- H. ring.
Qed.

Lemma ratio_linear a b n1 x1 n2 x2 d k :
  ratio n1 d x1 k -> ratio n2 d x2 k -> ratio (a * n1 + b * n2) d (a * x1 + b * x2) k.
Proof.
  unfold ratio. intros H1 H2. rewrite Z.mul_add_distr_r, <- !Z.mul_assoc, H1, H2. ring.
Qed.

Lemma ratio_cancel c n d x k : c <> 0 -> ratio (c * n) d (c * x) k -> ratio n d x k.
Proof.
  unfold ratio. intros Hc H. apply (Z.mul_reg_l _ _ c Hc). rewrite Z.mul_assoc, H. ring.
Qed.

Lemma ratio_shift n d x k i : ratio n d x k -> ratio (n * 10 ^ Z.of_nat i) d x (k - Z.of_nat i).
Proof.
  intros H. induction i as [|i IH]; [rewrite Z.sub_0_r; change (10 ^ Z.of_nat 0) with 1; by rewrite Z.mul_1_r|].
  rewrite Nat2Z.inj_succ, Z.pow_succ_r by lia. replace (k - Z.succ (Z.of_nat i)) with (k - Z.of_nat i - 1) by lia.
  replace (n * (10 * 10 ^ Z.of_nat i)) with (n * 10 ^ Z.of_nat i * 10) by ring. by apply ratio_times10.
Qed.

Lemma cmp_decimal_shift M t s x : 0 <= s -> cmp_decimal M (t + s) x = cmp_decimal (M * 10 ^ s) t x.
Proof.
  intros Hs. unfold cmp_decimal. set (g := pos (- t) - pos (- (t + s))).
  assert (Hg : 0 <= g) by (unfold g, pos; lia).
  assert (E : M * 10 ^ s * (2 ^ 1076 * 10 ^ pos t) - x * 10 ^ pos (- t)
     = (M * (2 ^ 1076 * 10 ^ pos (t + s)) - x * 10 ^ pos (- (t + s))) * 10 ^ g).
  { generalize (2 ^ 1076). intros K. rewrite Z.mul_sub_distr_r. f_equal.
    - replace (M * 10 ^ s * (K * 10 ^ pos t)) with (M * K * (10 ^ s * 10 ^ pos t)) by ring.
      replace (M * (K * 10 ^ pos (t + s)) * 10 ^ g) with (M * K * (10 ^ pos (t + s) * 10 ^ g)) by ring.
      rewrite <- !Z.pow_add_r by (unfold pos; lia). do 2 f_equal. unfold g, pos. lia.
    - rewrite <- Z.mul_assoc, <- Z.pow_add_r by (unfold pos; lia). do 2 f_equal. unfold g. lia. }
  rewrite E, Z.sgn_mul, (Z.sgn_pos (10 ^ g)) by (apply Z.pow_pos_nonneg; lia). lia.
Qed.

(** The numbers that read back, by the scaled numbers. *)
Lemma reads_back_scaled v n d m p k i M :
  finite v -> 0 < v -> shortest_numbers v n d m p -> ratio n d (dval v) k ->
  let T := 10 ^ Z.of_nat i in
  reads_back v M (k - Z.of_nat i)
  <-> reaches (even_significand v) (Z.sgn (M * d - (n - m) * T)) = true
      /\ reaches (even_significand v) (Z.sgn ((n + p) * T - M * d)) = true.
Proof.
  intros Hv H0 Hs Hr T. destruct Hs as [Hd _ Hm Ep En _ _]. pose proof (start_significand v Hv ltac:(lia)) as Hf.
  assert (HrU : ratio (2 * p) d (unit_of v) k).
  { apply (ratio_cancel (Significand v)); [lia|]. rewrite <- dval_unit. by replace (Significand v * (2 * p)) with n by lia. }
  assert (Hlow : ratio (4 * n * T - 4 * m * T) d (lower_midpoint v) (k - Z.of_nat i)).
  { replace (4 * n * T - 4 * m * T) with ((4 * n - 4 * m) * T) by ring. apply ratio_shift.
    pose proof (midpoints v Hv H0) as Hmid.
    replace (lower_midpoint v) with (4 * dval v + - lower_gap v * unit_of v) by lia.
    replace (4 * n - 4 * m) with (4 * n + - lower_gap v * (2 * p)); [by apply ratio_linear|].
    rewrite Ep. destruct (lower_gap_cases v) as [->|[-> _]]; lia. }
  assert (Hup : ratio (4 * n * T + 4 * p * T) d (upper_midpoint v) (k - Z.of_nat i)).
  { replace (4 * n * T + 4 * p * T) with ((4 * n + 2 * (2 * p)) * T) by ring. apply ratio_shift.
    unfold upper_midpoint. by apply ratio_linear. }
  unfold reads_back, cmp_decimal. rewrite !four_units, (cmp_scaled _ _ _ _ M 4 Hlow), (cmp_scaled _ _ _ _ M 4 Hup) by lia.
  rewrite <- Z.sgn_opp, !reaches_spec. destruct (even_significand v); lia.
Qed.
