(* ===== verification/BignumDtoaCorrect.v ===== *)
(** * Correctness of the conversion of doubles to decimal digits

    The theorems on [BignumDtoa.BignumDtoa] (src/bignum-dtoa.cc): what the modes
    SHORTEST, PRECISION and FIXED write, and that they end. *)

From Stdlib Require Import Floats.SpecFloat.
From S2P Require Import Prelude Bignum BignumArith Double BignumDtoa BignumDtoaScaled.

Open Scope Z_scope.

Ltac Zify.zify_post_hook ::= idtac.

(** ** The loop of the shortest digits *)

(** In an interval, whose ends belong to it when [ev] is set. *)
Definition inside (ev : bool) (lo x hi : Z) : Prop := if ev then lo <= x <= hi else lo < x < hi.

Lemma inside_shift ev lo x hi c : inside ev (lo + c) (x + c) (hi + c) <-> inside ev lo x hi.
Proof. unfold inside. destruct ev; lia. Qed.

(** What the loop finds: the decimal [D] with [S i] digits is inside of the interval
    of [n - m] and [n + p], none inside is closer to [n], and no coarser
    decimal is inside. *)
Record shortest_result (ev : bool) (d n m p : Z) (i : nat) (D : Z) : Prop := {
  sr_inside : inside ev ((n - m) * 10 ^ Z.of_nat i) (D * d) ((n + p) * 10 ^ Z.of_nat i);
  sr_closest : forall M, inside ev ((n - m) * 10 ^ Z.of_nat i) (M * d) ((n + p) * 10 ^ Z.of_nat i) ->
    Z.abs (D * d - n * 10 ^ Z.of_nat i) <= Z.abs (M * d - n * 10 ^ Z.of_nat i);
  sr_coarser : forall M, ~ inside ev ((n - m) * 10 ^ Z.of_nat i) (10 * M * d) ((n + p) * 10 ^ Z.of_nat i)
}.

Lemma shortest_result_step ev d q r m p i D :
  shortest_result ev d (r * 10) (m * 10) (p * 10) i D ->
  shortest_result ev d (q * d + r) m p (S i) (q * 10 ^ Z.of_nat (S i) + D).
Proof.
  intros [H1 H2 H3]. rewrite Nat2Z.inj_succ in *. set (T := 10 ^ Z.of_nat i) in *.
  assert (ET : 10 ^ Z.succ (Z.of_nat i) = 10 * T) by (rewrite Z.pow_succ_r by lia; done). rewrite ET in *.
  assert (Elo : (q * d + r - m) * (10 * T) = (r * 10 - m * 10) * T + q * d * (10 * T)) by ring.
  assert (Ehi : (q * d + r + p) * (10 * T) = (r * 10 + p * 10) * T + q * d * (10 * T)) by ring.
  split; rewrite ?Nat2Z.inj_succ, ?ET.
  - rewrite Elo, Ehi. replace ((q * (10 * T) + D) * d) with (D * d + q * d * (10 * T)) by ring. by apply inside_shift.
  - intros M. rewrite Elo, Ehi. replace (M * d) with ((M - q * (10 * T)) * d + q * d * (10 * T)) at 1 by ring.
    intros HM. apply inside_shift, H2 in HM.
    replace ((q * (10 * T) + D) * d - (q * d + r) * (10 * T)) with (D * d - r * 10 * T) by ring.
    replace (M * d - (q * d + r) * (10 * T)) with ((M - q * (10 * T)) * d - r * 10 * T) by ring. done.
  - intros M. rewrite Elo, Ehi. replace (10 * M * d) with (10 * (M - q * T) * d + q * d * (10 * T)) by ring.
    intros HM. apply inside_shift in HM. by apply (H3 (M - q * T)).
Qed.

(** The last digit. *)
Lemma shortest_result_last ev d q r m p x :
  0 < d -> 0 < m -> 0 < p -> 0 <= r < d ->
  reaches ev (Z.sgn (m - (q * d + r))) = false -> reaches ev (Z.sgn (q * d + r + p - 10 * d)) = false ->
  let in_minus := reaches ev (Z.sgn (m - r)) in
  let in_plus := reaches ev (Z.sgn (r + p - d)) in
  x = q /\ in_minus = true /\ (in_plus = true -> 2 * r <= d)
  \/ x = q + 1 /\ in_plus = true /\ (in_minus = true -> d <= 2 * r) ->
  0 <= q -> shortest_result ev d (q * d + r) m p 0 x /\ 0 < x <= 9.
Proof.
  intros Hd Hm Hp Hr Hlo Hhi in_minus in_plus H Hq.
  apply reaches_false in Hlo, Hhi.
  assert (Hin : in_minus = false -> if ev then m < r else m <= r).
  { intros E. apply reaches_false in E. destruct ev; lia. }
  assert (Hip : in_plus = false -> if ev then r + p < d else r + p <= d).
  { intros E. apply reaches_false in E. destruct ev; lia. }
  assert (Hin' : in_minus = true -> if ev then r <= m else r < m).
  { intros E. apply reaches_spec in E. destruct ev; lia. }
  assert (Hip' : in_plus = true -> if ev then d <= r + p else d < r + p).
  { intros E. apply reaches_spec in E. destruct ev; lia. }
  clearbody in_minus in_plus.
  assert (Hx : inside ev (q * d + r - m) (x * d) (q * d + r + p)).
  { destruct H as [(-> & E & _)|(-> & E & _)]; unfold inside; [specialize (Hin' E)|specialize (Hip' E)]; destruct ev; lia. }
  split.
  - split.
    + change (10 ^ Z.of_nat 0) with 1. rewrite !Z.mul_1_r. done.
    + intros M. change (10 ^ Z.of_nat 0) with 1. rewrite !Z.mul_1_r. intros HM. unfold inside in HM.
      assert (HM' : M <= q \/ q + 1 <= M) by lia.
      destruct H as [(-> & E & Hb)|(-> & E & Hb)], HM' as [HM'|HM'].
      * replace (q * d - (q * d + r)) with (- r) by lia. rewrite Z.abs_neq, Z.abs_neq by nia. nia.
      * replace (q * d - (q * d + r)) with (- r) by lia. assert ((q + 1) * d <= M * d) by nia.
        rewrite Z.abs_neq, Z.abs_eq by lia. destruct in_plus; [specialize (Hb eq_refl); lia|].
        exfalso. specialize (Hip eq_refl). destruct ev; lia.
      * replace ((q + 1) * d - (q * d + r)) with (d - r) by lia. assert (M * d <= q * d) by nia.
        rewrite Z.abs_eq, Z.abs_neq by lia. destruct in_minus; [specialize (Hb eq_refl); lia|].
        exfalso. specialize (Hin eq_refl). destruct ev; lia.
      * assert ((q + 1) * d <= M * d) by nia. rewrite !Z.abs_eq by lia. lia.
    + intros M. change (10 ^ Z.of_nat 0) with 1. rewrite !Z.mul_1_r. intros HM. unfold inside in HM.
      assert (HM' : M <= 0 \/ 1 <= M) by lia. destruct HM' as [HM'|HM'].
      * assert (10 * M * d <= 0) by nia. destruct ev; lia.
      * assert (10 * d <= 10 * M * d) by nia. destruct ev; lia.
  - unfold inside in Hx. split.
    + assert (0 < x * d) by (destruct ev; lia). nia.
    + assert (x * d < 10 * d) by (destruct ev; lia). nia.
Qed.

Lemma set_char_ok buffer i c : (i < length buffer)%nat -> set_char buffer i c = Some (<[i := c]> buffer).
Proof. intros H. unfold set_char. by rewrite (proj2 (Nat.ltb_lt _ _) H). Qed.

Lemma bump_ok buffer i c :
  (i < length buffer)%nat -> bump (<[i := c]> buffer) i = Some (<[i := c + 1]> buffer).
Proof.
  intros H. unfold bump. rewrite list_lookup_insert_eq by done. cbn [mbind option_bind].
  rewrite set_char_ok by by rewrite length_insert. by rewrite list_insert_insert_eq.
Qed.

Lemma decimal_cons c ds : decimal (c :: ds) = (c - 48) * 10 ^ Z.of_nat (length ds) + decimal ds.
Proof. change (c :: ds) with ([c] ++ ds). rewrite decimal_app. unfold decimal at 1. cbn [fold_left]. lia. Qed.

Lemma shortest_loop_spec fuel : forall (shared ev : bool) s buffer j n d m p,
  has (numerator s) n -> has (denominator s) d -> has (delta_minus s) m ->
  has (if shared then delta_minus s else delta_plus s) p ->
  0 < d -> bounded d 2676 -> 0 < m -> 0 < p ->
  reaches ev (Z.sgn (m - n)) = false -> reaches ev (Z.sgn (n + p - 10 * d)) = false ->
  d * 10 < (m + p) * 10 ^ Z.of_nat fuel -> (0 < fuel)%nat -> (j + fuel <= length buffer)%nat ->
  exists buffer' i ds,
    shortest_loop fuel shared ev s buffer j = Some (buffer', (j + S i)%nat)
    /\ length buffer' = length buffer /\ take (j + S i) buffer' = take j buffer ++ ds
    /\ length ds = S i /\ (i < fuel)%nat /\ Forall decimal_digit ds
    /\ shortest_result ev d n m p i (decimal ds).
Proof.
  induction fuel as [|fuel IH]; intros shared ev s buffer j n d m p Hn Hd Hm Hp Hd0 Hdb Hm0 Hp0 Hlo Hhi Hfuel H0 Hj; [lia|].
  clear H0. cbn [shortest_loop].
  assert (Hnd : n < 10 * d) by (apply reaches_false in Hhi; destruct ev; lia).
  assert (Hn0 : 0 < n) by (apply reaches_false in Hlo; destruct ev; lia).
  destruct (has_Divide _ _ _ _ Hn Hd) as (num & -> & Hnum); [lia..|]. cbn [mbind option_bind].
  pose proof (Z.div_mod n d ltac:(lia)) as En. pose proof (Z.mod_pos_bound n d ltac:(lia)) as Hr.
  assert (Hq : 0 <= n / d <= 9).
  { split; [apply Z.div_pos; lia|]. assert (n / d < 10) by (apply Z.div_lt_upper_bound; lia). lia. }
  set (q := n / d) in *. set (r := n mod d) in *. clearbody q r. rewrite Z.mul_comm in En. subst n.
  rewrite set_char_ok by lia. cbn [mbind option_bind].
  rewrite (has_Compare _ _ _ _ Hnum Hm). cbn [mbind option_bind].
  rewrite (has_PlusCompare _ _ _ _ _ _ Hnum Hp Hd). cbn [mbind option_bind].
  rewrite <- Z.sgn_opp. replace (- (r - m)) with (m - r) by lia.
  assert (Hmn : m <= 10 * d) by (apply reaches_false in Hlo; destruct ev; lia).
  assert (Hpn : p <= 10 * d) by (apply reaches_false in Hhi; destruct ev; lia).
  pose proof (fun x => shortest_result_last ev d q r m p x Hd0 Hm0 Hp0 Hr Hlo Hhi) as Hlast.
  cbn zeta in Hlast.
  assert (Hdone : forall x buffer', (buffer' = <[j := x + 48]> buffer) ->
     shortest_result ev d (q * d + r) m p 0 x /\ 0 < x <= 9 ->
     exists buffer'' i ds, Some (buffer', S j) = Some (buffer'', (j + S i)%nat)
      /\ length buffer'' = length buffer /\ take (j + S i) buffer'' = take j buffer ++ ds
      /\ length ds = S i /\ (i < S fuel)%nat /\ Forall decimal_digit ds
      /\ shortest_result ev d (q * d + r) m p i (decimal ds)).
  { intros x buffer' -> [Hx Hx9]. exists (<[j := x + 48]> buffer), 0%nat, [x + 48].
    rewrite Nat.add_1_r. split; [done|]. split; [apply length_insert|].
    split; [|split; [done|split; [lia|split]]].
    - rewrite (take_S_r _ _ (x + 48)) by (apply list_lookup_insert_eq; lia). by rewrite take_insert_ge by lia.
    - apply Forall_singleton. unfold decimal_digit. lia.
    - unfold decimal. cbn [fold_left]. by replace (0 * 10 + (x + 48 - 48)) with x by lia. }
  assert (Hj1 : (S j - 1)%nat = j) by lia. rewrite Hj1. rewrite bump_ok by lia.
  replace (q + 48 + 1) with (q + 1 + 48) by lia.
  destruct (reaches ev (Z.sgn (m - r))) eqn:Em, (reaches ev (Z.sgn (r + p - d))) eqn:Ep; cbn [negb andb].
  - rewrite (has_PlusCompare _ _ _ _ _ _ Hnum Hnum Hd). cbn [mbind option_bind].
    destruct (Z.ltb_spec (Z.sgn (r + r - d)) 0) as [Hc|Hc].
    { apply (Hdone q); [done|]. apply Hlast; [|apply Hq]. left. split; [done|split; [done|lia]]. }
    destruct (Z.ltb_spec 0 (Z.sgn (r + r - d))) as [Hc'|Hc'].
    { apply (Hdone (q + 1)); [done|]. apply Hlast; [|apply Hq]. right. split; [done|split; [done|lia]]. }
    rewrite list_lookup_insert_eq by lia. cbn [mbind option_bind].
    destruct (Z.rem _ _ =? 0).
    { apply (Hdone q); [done|]. apply Hlast; [|apply Hq]. left. split; [done|split; [done|lia]]. }
    apply (Hdone (q + 1)); [done|]. apply Hlast; [|apply Hq]. right. split; [done|split; [done|lia]].
  - apply (Hdone q); [done|]. apply Hlast; [|apply Hq]. left. done.
  - apply (Hdone (q + 1)); [done|]. apply Hlast; [|apply Hq]. right. done.
  - clear Hlast Hdone. apply reaches_false in Em as Em', Ep as Ep'.
    assert (B : forall x, x <= 10 * d -> x * 10 < pw 100).
    { intros x Hx. by apply (fits_ten x d 2676). }
    has_step; [apply B; lia|]. has_step; [by apply B|].
    assert (Hrec : forall s', has (numerator s') (r * 10) -> has (denominator s') d -> has (delta_minus s') (m * 10) ->
       has (if shared then delta_minus s' else delta_plus s') (p * 10) ->
       exists buffer' i ds, shortest_loop fuel shared ev s' (<[j:=q + 48]> buffer) (S j) = Some (buffer', (j + S i)%nat)
        /\ length buffer' = length buffer /\ take (j + S i) buffer' = take j buffer ++ ds
        /\ length ds = S i /\ (i < S fuel)%nat /\ Forall decimal_digit ds
        /\ shortest_result ev d (q * d + r) m p i (decimal ds)).
    { intros s' G1 G2 G3 G4.
      assert (Hf : d * 10 < (m * 10 + p * 10) * 10 ^ Z.of_nat fuel).
      { rewrite Nat2Z.inj_succ, Z.pow_succ_r in Hfuel by lia. lia. }
      assert (Hf0 : (0 < fuel)%nat).
      { destruct fuel; [|lia]. change (10 ^ Z.of_nat 0) with 1 in Hf. destruct ev; lia. }
      destruct (IH shared ev s' (<[j:=q + 48]> buffer) (S j) _ _ _ _ G1 G2 G3 G4 Hd0 Hdb ltac:(lia) ltac:(lia))
        as (buffer' & i & ds & E & El & Et & Eds & Hi & Hds & Hres).
      - apply reaches_false. destruct ev; lia.
      - apply reaches_false. destruct ev; lia.
      - done.
      - done.
      - rewrite length_insert. lia.
      - exists buffer', (S i), (q + 48 :: ds). replace (j + S (S i))%nat with (S j + S i)%nat by lia.
        split; [done|]. rewrite length_insert in El. split; [done|]. split.
        + rewrite Et, (take_S_r _ _ (q + 48)) by (apply list_lookup_insert_eq; lia).
          rewrite take_insert_ge by lia. by rewrite <- app_assoc.
        + split; [cbn [length]; by rewrite Eds|]. split; [lia|]. split; [apply Forall_cons; split; [unfold decimal_digit; lia|done]|].
          rewrite decimal_cons, Eds. replace (q + 48 - 48) with q by lia. by apply shortest_result_step. }
    destruct shared; cbv iota in Hp, Hrec; cbn [mbind option_bind]; [|has_step; [by apply B|]; by apply Hrec].
    assert (p = m) as -> by (transitivity (val (delta_minus s)); [symmetry|]; by apply has_val). by apply Hrec.
Qed.

(** 17 digits are enough: then the interval is wider than the unit. *)
Lemma shortest_fuel v m p d :
  Significand v < 2 ^ 53 -> 0 < m -> p = m * (3 - lower_gap v) -> d <= (2 * Significand v + 1) * p ->
  d * 10 < (m + p) * 10 ^ 17.
Proof.
  intros Hf Hm -> Hd. destruct (lower_gap_cases v) as [E|[E Ef]]; rewrite E in *.
  - assert ((2 * Significand v + 1) * (m * (3 - 2)) <= 2 ^ 54 * m) by nia. lia.
  - rewrite Ef in Hd. lia.
Qed.

(** [M * 10^t] reads back as [v], is the closest to it of the multiples of 10^t that
    do, and no multiple of a higher power of ten does. *)
Definition shortest_decimal (v M t : Z) : Prop :=
  reads_back v M t
  /\ (forall N, reads_back v N t -> distance v M t <= distance v N t)
  /\ (forall N t', t < t' -> ~ reads_back v N t').

Lemma GenerateShortestDigits_spec v s n d m p buffer :
  finite v -> v <> 0 -> scaled s n d m p -> shortest_numbers v n d m p -> (17 <= length buffer)%nat ->
  exists buffer' i ds,
    GenerateShortestDigits s (even_significand v) buffer = Some (buffer', S i)
    /\ length buffer' = length buffer /\ take (S i) buffer' = ds
    /\ length ds = S i /\ (i < 17)%nat /\ Forall decimal_digit ds
    /\ shortest_result (even_significand v) d n m p i (decimal ds).
Proof.
  intros Hv H0 (Hn & Hd & Hm & Hp) [Sd Sb Sm Sp Sn Sab Sbe] Hlen. unfold GenerateShortestDigits, Equal.
  rewrite (has_Compare _ _ _ _ Hm Hp). cbn [mbind option_bind].
  pose proof (start_significand v Hv H0) as Hf.
  assert (Hmp : m <= p <= 2 * m) by (destruct (lower_gap_cases v) as [E|[E _]]; rewrite E in Sp; lia).
  destruct (shortest_loop_spec 17 (Z.sgn (m - p) =? 0) (even_significand v) s buffer 0 n d m p)
    as (buffer' & i & ds & E & El & Et & Eds & Hi & Hds & Hres); [done..| |done|done|done|lia| |done| |lia|lia|].
  - destruct (Z.eqb_spec (Z.sgn (m - p)) 0) as [Es|]; [|done]. assert (p = m) as -> by lia. done.
  - apply reaches_false. assert (2 * m <= n) by (clear - Sn Hmp Sm Hf; nia). destruct (even_significand v); lia.
  - apply reaches_spec in Sab. apply (shortest_fuel v); [lia|done|done|].
    replace ((2 * Significand v + 1) * p) with (n + p) by (rewrite Sn; ring). clear - Sab. destruct (even_significand v); lia.
  - exists buffer', i, ds. rewrite Nat.add_0_l in *. done.
Qed.

Lemma set_char_lookup buffer i c :
  (i < length buffer)%nat -> exists buffer', set_char buffer i c = Some buffer' /\ length buffer' = length buffer
    /\ take i buffer' = take i buffer /\ buffer' !! i = Some c.
Proof.
  intros H. exists (<[i := c]> buffer). split; [by apply set_char_ok|]. split; [apply length_insert|].
  split; [by apply take_insert_ge|]. by apply list_lookup_insert_eq.
Qed.

(** C14: the shortest mode writes at most 17 digits, the first one not 0, of a
    decimal that lies between the midpoints to the neighbours of the double - at
    them only for an even significand - so that it reads back as the double; no
    decimal with fewer digits does, and none with as many is closer to the double. *)
Theorem BignumDtoa_shortest v requested_digits buffer :
  finite v -> v <> 0 -> (18 <= length buffer)%nat ->
  exists buffer' ds pt,
    BignumDtoa v BIGNUM_DTOA_SHORTEST requested_digits buffer = Some (buffer', length ds, pt)
    /\ take (length ds) buffer' = ds /\ buffer' !! length ds = Some 0
    /\ length buffer' = length buffer
    /\ Forall decimal_digit ds /\ (length ds <= 17)%nat
    /\ 10 ^ (Z.of_nat (length ds) - 1) <= decimal ds
    /\ shortest_decimal v (decimal ds) (pt - Z.of_nat (length ds)).
Proof.
  intros Hv H0 Hlen. assert (Hpos : 0 < v) by (unfold finite in Hv; lia).
  destruct (EstimatePower_estimated v Hv H0) as (e & E & Hk). unfold BignumDtoa. rewrite E.
  cbn [mbind option_bind is_fixed is_shortest andb]. set (k := EstimatePower e) in *. clearbody k. fold (even_significand v).
  destruct (prepared_shortest v k Hv H0 Hk) as (s0 & s & n & d & m & p & pt & -> & E2 & Hs & Hsn & Hr & _).
  cbn [mbind option_bind]. rewrite E2. cbn [mbind option_bind].
  destruct (GenerateShortestDigits_spec v s n d m p buffer Hv H0 Hs Hsn ltac:(lia))
    as (b1 & i & ds & -> & El & Et & Eds & Hi & Hds & Hres). cbn [mbind option_bind].
  destruct (set_char_lookup b1 (S i) 0) as (b2 & -> & El2 & Et2 & Hz); [lia|]. cbn [mbind option_bind].
  exists b2, ds, pt. rewrite Eds. split; [done|]. split; [congruence|]. split; [done|]. split; [congruence|].
  split; [done|]. split; [lia|]. replace (pt - Z.of_nat (S i)) with (pt - 1 - Z.of_nat i) by lia.
  pose proof (fun M => reads_back_scaled v n d m p (pt - 1) i M Hv Hpos Hsn Hr) as Hrb. cbn zeta in Hrb.
  set (T := 10 ^ Z.of_nat i) in *.
  assert (Hin : forall M, reads_back v M (pt - 1 - Z.of_nat i)
    <-> inside (even_significand v) ((n - m) * T) (M * d) ((n + p) * T)).
  { intros M. rewrite Hrb, !reaches_spec. unfold inside. destruct (even_significand v); lia. }
  destruct Hres as [R1 R2 R3]. fold T in R1, R2, R3. destruct Hsn as [Sd Sb Sm Sp Sn Sab Sbe].
  assert (Hcoarse : forall M t', pt - 1 - Z.of_nat i < t' -> ~ reads_back v M t').
  { intros M t' Ht'. unfold reads_back. replace t' with (pt - 1 - Z.of_nat i + (t' - (pt - 1 - Z.of_nat i))) by lia.
    rewrite !cmp_decimal_shift by lia. fold (reads_back v (M * 10 ^ (t' - (pt - 1 - Z.of_nat i))) (pt - 1 - Z.of_nat i)).
    rewrite Hin. replace (t' - (pt - 1 - Z.of_nat i)) with (Z.succ (t' - (pt - Z.of_nat i))) by lia.
    rewrite Z.pow_succ_r by lia. rewrite (Z.mul_comm 10), Z.mul_assoc, (Z.mul_comm _ 10). apply R3. }
  split; [|split; [by apply Hin|split; [|done]]].
  - (* the decimal is not below the leading power of ten *)
    replace (Z.of_nat (S i) - 1) with (Z.of_nat i) by lia. fold T.
    destruct (Z.le_gt_cases T (decimal ds)) as [|Hlt]; [done|]. exfalso.
    assert (HT : 0 < T) by (apply Z.pow_pos_nonneg; lia). apply reaches_spec in Sab.
    destruct i as [|i].
    + apply (R3 0). change T with 1 in *. unfold inside in *.
      assert (decimal ds <= 0) by lia. assert (decimal ds * d <= 0) by nia.
      assert (0 < p) by (destruct (lower_gap_cases v) as [Eg|[Eg _]]; rewrite Eg in Sp; lia).
      pose proof (start_significand v Hv H0). assert (0 < n) by nia. destruct (even_significand v); lia.
    + apply (R3 (10 ^ Z.of_nat i)). replace (10 * 10 ^ Z.of_nat i) with T.
      2: { unfold T. by rewrite Nat2Z.inj_succ, Z.pow_succ_r by lia. }
      assert (H1 : decimal ds * d < T * d) by (apply Z.mul_lt_mono_pos_r; lia).
      assert (H2 : if even_significand v then d * T <= (n + p) * T else d * T < (n + p) * T).
      { destruct (even_significand v); [apply Z.mul_le_mono_pos_r|apply Z.mul_lt_mono_pos_r]; lia. }
      clear - H1 H2 R1. unfold inside in *. rewrite (Z.mul_comm T d) in *. destruct (even_significand v); lia.
  - intros M HM. apply Hin, R2 in HM. apply (ratio_shift _ _ _ _ i) in Hr. fold T in Hr.
    destruct (distance_scaled v _ d _ Hr ltac:(lia)) as (A & HA & HdA).
    apply (Z.mul_le_mono_pos_l _ _ d); [lia|]. rewrite !HdA. by apply Z.mul_le_mono_pos_l.
Qed.

Theorem BignumDtoa_shortest_witness :
  exists buffer' ds pt,
    BignumDtoa 4607182418800017409 BIGNUM_DTOA_SHORTEST 0 (repeat 0 18) = Some (buffer', length ds, pt)
    /\ decimal ds = 10000000000000002 /\ pt = 1.
Proof.
  destruct (BignumDtoa_shortest 4607182418800017409 0 (repeat 0 18)) as (b & ds & pt & E & Et & _); [done|done|by cbn; lia|].
  exists b, ds, pt. split; [exact E|]. remember (BignumDtoa _ _ _ _) as o eqn:Eo. vm_compute in Eo. subst o.
  injection E as <- El <-. rewrite <- Et, <- El. split; vm_compute; done.
Defined.

(** ** Counted digits *)

(** Rounding a quotient to the nearest integer, halves upwards. *)
Definition round_div (a b : Z) : Z := (2 * a + b) / (2 * b).

Lemma round_div_spec a b q r : 0 <= r < b -> a = q * b + r -> round_div a b = if 0 <=? r + r - b then q + 1 else q.
Proof.
  intros Hr ->. unfold round_div. destruct (Z.leb_spec 0 (r + r - b)).
  - symmetry. apply (Z.div_unique _ _ _ (2 * r - b)); lia.
  - symmetry. apply (Z.div_unique _ _ _ (2 * r + b)); lia.
Qed.

Lemma round_div_scaled a b x y : 0 < b -> 0 < y -> a * y = b * x -> round_div a b = round_div x y.
Proof.
  intros Hb Hy H. unfold round_div. rewrite <- (Z.div_mul_cancel_r (2 * a + b) (2 * b) y) by lia.
  rewrite <- (Z.div_mul_cancel_r (2 * x + y) (2 * y) b) by lia. f_equal; lia.
Qed.

Lemma propagate_carry_spec i : forall buffer ds c,
  (i < length buffer)%nat -> take (S i) buffer = ds ++ [c] -> Forall decimal_digit ds -> 48 <= c <= 58 ->
  exists buffer' c0 ds', propagate_carry i i buffer = Some buffer' /\ length buffer' = length buffer
    /\ drop (S i) buffer' = drop (S i) buffer /\ take (S i) buffer' = c0 :: ds'
    /\ Forall decimal_digit ds' /\ 48 <= c0 <= 58 /\ (c0 = 58 -> Forall (eq 48) ds')
    /\ decimal (c0 :: ds') = decimal (ds ++ [c]).
Proof.
  induction i as [|i IH]; intros buffer ds c Hi Ht Hds Hc.
  - exists buffer, c, []. assert (El : length (ds ++ [c]) = 1%nat) by (rewrite <- Ht, length_take; lia).
    rewrite length_app in El. destruct ds; [|cbn in El; lia]. cbn [app] in *. repeat (split; [done|]). done.
  - cbn [propagate_carry]. assert (El : length ds = S i).
    { apply (f_equal length) in Ht. rewrite length_take, length_app in Ht. cbn [length] in Ht. lia. }
    assert (Hat : buffer !! S i = Some c).
    { rewrite <- (lookup_take_lt buffer (S (S i))) by lia. rewrite Ht. rewrite lookup_app_r by lia. by rewrite El, Nat.sub_diag. }
    rewrite Hat. cbn [mbind option_bind]. destruct (Z.eqb_spec c (48 + 10)) as [->|Hne].
    + destruct (@exists_last _ ds) as (ds0 & c1 & ->); [by intros ->|]. apply Forall_app in Hds as [Hds Hc1].
      apply Forall_cons in Hc1 as [Hc1 _]. unfold decimal_digit in Hc1. rewrite length_app in El. cbn [length] in El.
      assert (Ht' : take (S i) buffer = ds0 ++ [c1]).
      { rewrite (take_S_r _ _ _ Hat) in Ht. by apply app_inj_tail in Ht as [? _]. }
      rewrite set_char_ok by lia. cbn [mbind option_bind]. replace (S i - 1)%nat with i by lia.
      assert (Hat1 : buffer !! i = Some c1).
      { rewrite <- (lookup_take_lt buffer (S i)) by lia. rewrite Ht', lookup_app_r by lia. replace (i - length ds0)%nat with 0%nat by lia. done. }
      unfold bump. rewrite list_lookup_insert_ne, Hat1 by lia. cbn [mbind option_bind].
      rewrite set_char_ok by (rewrite length_insert; lia). cbn [mbind option_bind].
      set (b2 := <[i:=c1 + 1]> (<[S i:=48]> buffer)).
      assert (El2 : length b2 = length buffer) by (unfold b2; by rewrite !length_insert).
      destruct (IH b2 ds0 (c1 + 1)) as (b' & c0 & ds' & E & El' & Ed & Et & Hds' & Hc0 & Hz & Ev).
      * rewrite El2. lia.
      * unfold b2. rewrite (take_S_r _ _ (c1 + 1)) by (apply list_lookup_insert_eq; rewrite length_insert; lia).
        rewrite take_insert_ge, take_insert_ge by lia. rewrite (take_S_r _ _ _ Hat1) in Ht'.
        by apply app_inj_tail in Ht' as [-> _].
      * done.
      * lia.
      * exists b', c0, (ds' ++ [48]). split; [done|]. split; [congruence|].
        assert (Hd : drop (S i) b' = 48 :: drop (S (S i)) buffer).
        { rewrite Ed. unfold b2. rewrite drop_insert_lt by lia. rewrite (drop_S _ 48) by (apply list_lookup_insert_eq; lia).
          by rewrite drop_insert_lt by lia. }
        split; [|split; [|split; [|split; [done|split]]]].
        -- replace (S (S i)) with (S i + 1)%nat by lia. rewrite <- !drop_drop, Hd. 
           rewrite drop_drop. by replace (S i + 1)%nat with (S (S i)) by lia.
        -- rewrite (take_S_r _ _ 48), Et; [done|]. rewrite <- (Nat.add_0_r (S i)), <- lookup_drop, Hd. done.
        -- apply Forall_app. split; [done|]. apply Forall_singleton. unfold decimal_digit. lia.
        -- intros E0. apply Forall_app. split; [by apply Hz|]. by apply Forall_singleton.
        -- change (c0 :: ds' ++ [48]) with ((c0 :: ds') ++ [48]). rewrite !decimal_snoc, Ev, decimal_snoc. lia.
    + destruct ds as [|c0 ds]; [done|]. exists buffer, c0, (ds ++ [c]). apply Forall_cons in Hds as [Hc0 Hds].
      unfold decimal_digit in Hc0. split; [done|]. split; [done|]. split; [done|]. split; [done|]. split.
      { apply Forall_app. split; [done|]. apply Forall_singleton. unfold decimal_digit. lia. }
      split; [lia|]. split; [lia|done].
Qed.

Lemma decimal_zeros ds : Forall (eq 48) ds -> decimal ds = 0.
Proof.
  induction 1 as [|c ds <- H IH]; [done|]. rewrite decimal_cons, IH. lia.
Qed.

Lemma GenerateCountedDigits_spec count pt numerator denominator buffer n d :
  has numerator n -> has denominator d -> 0 <= n < 10 * d -> 0 < d -> bounded d 2676 ->
  0 < count -> (Z.to_nat count <= length buffer)%nat ->
  exists buffer' ds pt',
    GenerateCountedDigits count pt numerator denominator buffer = Some (buffer', pt', Z.to_nat count)
    /\ length buffer' = length buffer /\ take (Z.to_nat count) buffer' = ds /\ length ds = Z.to_nat count
    /\ Forall decimal_digit ds /\ pt <= pt' <= pt + 1
    /\ decimal ds * 10 ^ (pt' - pt) = round_div (n * 10 ^ (count - 1)) d
    /\ (pt' <> pt -> decimal ds = 10 ^ (count - 1)).
Proof.
  intros Hn Hd Hnd Hd0 Hdb Hcount Hlen. unfold GenerateCountedDigits. destruct (Z.ltb_spec count 1); [lia|].
  destruct (Z.to_nat count) as [|k] eqn:Ek; [lia|]. replace (S k - 1)%nat with k by lia.
  assert (B : forall x, x < 10 * d -> x * 10 < pw 100).
  { intros x Hx. apply (fits_ten x d 2676); [done..|lia]. }
  destruct (for_loop_inv (fun i '(b, num) => length b = length buffer /\ Forall decimal_digit (take i b)
      /\ exists m, has num m /\ 0 <= m < 10 * d /\ decimal (take i b) * (10 * d) + m = n * 10 ^ Z.of_nat i)
    k 0 (fun i '(buffer, numerator) =>
         '(numerator, digit) ← DivideModuloIntBignum numerator denominator;
         buffer ← set_char buffer i (digit + 48);
         numerator ← Times10 numerator;
         Some (buffer, numerator)) (buffer, numerator))
    as ([b num] & -> & Hb & Hds & m & Hm & Hmd & Em).
  - split; [done|]. split; [by rewrite take_0|]. exists n. split; [done|]. split; [done|].
    rewrite take_0. change (10 ^ Z.of_nat 0) with 1. unfold decimal. cbn [fold_left]. lia.
  - intros i [b num] Hi (Hb & Hds & m & Hm & Hmd & Em).
    destruct (has_Divide _ _ _ _ Hm Hd) as (num' & -> & Hr); [lia..|]. cbn [mbind option_bind].
    rewrite set_char_ok by lia. cbn [mbind option_bind].
    pose proof (Z.div_mod m d ltac:(lia)) as Edm. pose proof (Z.mod_pos_bound m d ltac:(lia)) as Hmod.
    assert (Hq : 0 <= m / d <= 9).
    { split; [apply Z.div_pos; lia|]. assert (m / d < 10) by (apply Z.div_lt_upper_bound; lia). lia. }
    set (q := m / d) in *. set (r := m mod d) in *. clearbody q r.
    has_step; [apply B; lia|]. eexists. split; [done|]. cbn beta iota.
    rewrite length_insert. split; [done|].
    assert (Et : take (S i) (<[i:=q + 48]> b) = take i b ++ [q + 48]).
    { rewrite (take_S_r _ _ (q + 48)) by (apply list_lookup_insert_eq; lia). by rewrite take_insert_ge by lia. }
    rewrite Et. split; [apply Forall_app; split; [done|]; apply Forall_cons; split; [unfold decimal_digit; lia|done]|].
    exists (r * 10). split; [done|]. split; [lia|]. rewrite decimal_snoc, Nat2Z.inj_succ, Z.pow_succ_r by lia. lia.
  - cbn [mbind option_bind Nat.add] in *.
    destruct (has_Divide _ _ _ _ Hm Hd) as (num' & -> & Hr); [lia..|]. cbn [mbind option_bind].
    rewrite (has_PlusCompare _ _ _ _ _ _ Hr Hr Hd). cbn [mbind option_bind].
    pose proof (Z.div_mod m d ltac:(lia)) as Edm. pose proof (Z.mod_pos_bound m d ltac:(lia)) as Hmod.
    assert (Hq : 0 <= m / d <= 9).
    { split; [apply Z.div_pos; lia|]. assert (m / d < 10) by (apply Z.div_lt_upper_bound; lia). lia. }
    set (q := m / d) in *. set (r := m mod d) in *. clearbody q r.
    assert (ER : round_div (n * 10 ^ (count - 1)) d
       = decimal (take k b) * 10 + (if 0 <=? Z.sgn (r + r - d) then q + 1 else q)).
    { replace (count - 1) with (Z.of_nat k) by lia. rewrite <- Em.
      rewrite (round_div_spec _ d (decimal (take k b) * 10 + q) r) by lia.
      destruct (Z.leb_spec 0 (r + r - d)), (Z.leb_spec 0 (Z.sgn (r + r - d))); lia. }
    assert (EU : (if 0 <=? Z.sgn (r + r - d) then uint 16 (q + 1) else q)
       = (if 0 <=? Z.sgn (r + r - d) then q + 1 else q)).
    { destruct (0 <=? _); [|done]. unfold uint. apply Z.mod_small. lia. }
    rewrite EU. set (c := if 0 <=? Z.sgn (r + r - d) then q + 1 else q) in *.
    assert (Hc : 0 <= c <= 10) by (unfold c; destruct (0 <=? _); lia). clearbody c.
    rewrite set_char_ok by lia. cbn [mbind option_bind].
    destruct (propagate_carry_spec k (<[k:=c + 48]> b) (take k b) (c + 48))
      as (b' & c0 & ds' & -> & El' & _ & Et & Hds' & Hc0 & Hz & Ev).
    + rewrite length_insert. lia.
    + rewrite (take_S_r _ _ (c + 48)) by (apply list_lookup_insert_eq; lia). by rewrite take_insert_ge by lia.
    + done.
    + lia.
    + cbn [mbind option_bind]. rewrite length_insert in El'. rewrite decimal_snoc in Ev.
      assert (Hat : b' !! 0%nat = Some c0) by (rewrite <- (lookup_take_lt b' (S k)), Et by lia; done).
      assert (El : length (c0 :: ds') = S k) by (rewrite <- Et, length_take; lia). cbn [length] in El.
      rewrite Hat. cbn [mbind option_bind]. destruct (Z.eqb_spec c0 (48 + 10)) as [->|Hne].
      * rewrite set_char_ok by lia. cbn [mbind option_bind]. exists (<[0%nat:=49]> b'), (49 :: ds'), (pt + 1).
        split; [done|]. rewrite length_insert. split; [congruence|].
        split; [rewrite take_insert_lt, Et by lia; done|]. split; [done|].
        split; [apply Forall_cons; split; [unfold decimal_digit; lia|done]|]. split; [lia|].
        replace (pt + 1 - pt) with 1 by lia. rewrite ER. specialize (Hz eq_refl). rewrite decimal_cons in *.
        rewrite (decimal_zeros ds' Hz) in *. split; [lia|]. intros _.
        replace (length ds') with k by lia. replace (count - 1) with (Z.of_nat k) by lia. lia.
      * exists b', (c0 :: ds'), pt. split; [done|]. split; [congruence|]. split; [done|]. split; [done|].
        split; [apply Forall_cons; split; [unfold decimal_digit; lia|done]|]. split; [lia|].
        rewrite Z.sub_diag, Z.pow_0_r, Z.mul_1_r, Ev, ER. split; [lia|done].
Qed.

(** The double rounded to a multiple of 10^t, halves upwards. *)
Definition round_decimal (v t : Z) : Z := round_div (dval v * 10 ^ pos (- t)) (2 ^ 1074 * 10 ^ pos t).

Lemma round_scaled v n d t : ratio n d (dval v) t -> 0 < d -> round_div n d = round_decimal v t.
Proof.
  intros H Hd. apply round_div_scaled; [done| |exact H].
  apply Z.mul_pos_pos; [apply Z.pow_pos_nonneg; lia|by apply pow_pos_lt].
Qed.

(** The decimal point before the leading digit. *)
Definition leading (v p0 : Z) : Prop :=
  cmp_decimal 1 (p0 - 1) (4 * dval v) <= 0 /\ 0 < cmp_decimal 1 p0 (4 * dval v).

Lemma leading_scaled v n d p0 :
  ratio n d (dval v) (p0 - 1) -> 0 < d -> d <= n < 10 * d -> leading v p0.
Proof.
  intros H Hd Hn. assert (H4 : ratio (4 * n + 0 * n) d (4 * dval v + 0 * dval v) (p0 - 1)) by by apply ratio_linear.
  replace (4 * dval v + 0 * dval v) with (4 * dval v) in H4 by lia.
  split.
  - unfold cmp_decimal. rewrite four_units, (cmp_scaled _ _ _ _ 1 4 H4) by done. lia.
  - replace p0 with (p0 - 1 + 1) by lia. rewrite cmp_decimal_shift by lia. unfold cmp_decimal.
    rewrite four_units, (cmp_scaled _ _ _ _ _ 4 H4) by done. change (1 * 10 ^ 1) with 10. lia.
Qed.

(** The first digit is not 0. *)
Lemma counted_leading n d count ds pt pt' :
  0 < d -> d <= n -> 0 < count -> pt <= pt' <= pt + 1 ->
  decimal ds * 10 ^ (pt' - pt) = round_div (n * 10 ^ (count - 1)) d ->
  (pt' <> pt -> decimal ds = 10 ^ (count - 1)) -> 10 ^ (count - 1) <= decimal ds.
Proof.
  intros Hd Hn Hc Hpt E Hcarry. assert (H : 10 ^ (count - 1) <= round_div (n * 10 ^ (count - 1)) d).
  { unfold round_div. apply Z.div_le_lower_bound; [lia|]. assert (0 < 10 ^ (count - 1)) by (apply Z.pow_pos_nonneg; lia). nia. }
  rewrite <- E in H. destruct (Z.eq_dec pt' pt) as [->|Hne].
  - rewrite Z.sub_diag, Z.pow_0_r in H. lia.
  - rewrite (Hcarry Hne). done.
Qed.

(** The precision mode writes exactly the requested number of digits, the
    first one not 0, of the double rounded half up at that place after its
    leading digit. *)
Theorem BignumDtoa_precision v requested_digits buffer :
  finite v -> v <> 0 -> 0 < requested_digits < Z.of_nat (length buffer) ->
  exists buffer' ds pt p0,
    BignumDtoa v BIGNUM_DTOA_PRECISION requested_digits buffer = Some (buffer', length ds, pt)
    /\ take (length ds) buffer' = ds /\ buffer' !! length ds = Some 0
    /\ Z.of_nat (length ds) = requested_digits
    /\ Forall decimal_digit ds /\ 10 ^ (requested_digits - 1) <= decimal ds
    /\ leading v p0 /\ p0 <= pt <= p0 + 1
    /\ decimal ds * 10 ^ (pt - p0) = round_decimal v (p0 - requested_digits).
Proof.
  intros Hv H0 Hlen. destruct (EstimatePower_estimated v Hv H0) as (e & E & Hk). unfold BignumDtoa. rewrite E.
  cbn [mbind option_bind is_fixed is_shortest andb]. set (k := EstimatePower e) in *. clearbody k. fold (even_significand v).
  destruct (prepared_counted v k Hv H0 Hk) as (s0 & s & n & d & p0 & -> & E2 & Hn & Hd & Hnd & Hd0 & Hdb & Hr & _).
  cbn [mbind option_bind]. rewrite E2. cbn [mbind option_bind].
  destruct (GenerateCountedDigits_spec requested_digits p0 _ _ buffer n d Hn Hd ltac:(lia) Hd0
    (bounded_mono _ _ 2676 Hdb ltac:(lia)) ltac:(lia) ltac:(lia))
    as (b1 & ds & pt & -> & El & Et & Eds & Hds & Hpt & ER & Hcarry). cbn [mbind option_bind].
  destruct (set_char_lookup b1 (Z.to_nat requested_digits) 0) as (b2 & -> & El2 & Et2 & Hz); [lia|]. cbn [mbind option_bind].
  exists b2, ds, pt, p0. rewrite Eds. split; [done|]. split; [congruence|]. split; [done|]. split; [lia|].
  split; [done|]. split; [apply (counted_leading n d _ _ p0 pt); done || lia|].
  split; [apply (leading_scaled v n d); done || lia|]. split; [done|]. rewrite ER. apply round_scaled; [|lia].
  replace (requested_digits - 1) with (Z.of_nat (Z.to_nat (requested_digits - 1))) by lia.
  replace (p0 - requested_digits) with (p0 - 1 - Z.of_nat (Z.to_nat (requested_digits - 1))) by lia.
  by apply ratio_shift.
Qed.

Theorem BignumDtoa_precision_witness :
  exists buffer' ds pt,
    BignumDtoa 4607182418800017407 BIGNUM_DTOA_PRECISION 3 (repeat 0 5) = Some (buffer', length ds, pt)
    /\ decimal ds = 100 /\ pt = 1.
Proof.
  destruct (BignumDtoa_precision 4607182418800017407 3 (repeat 0 5)) as (b & ds & pt & p0 & E & Et & _); [done|done|by cbn; lia|].
  exists b, ds, pt. split; [exact E|]. remember (BignumDtoa _ _ _ _) as o eqn:Eo. vm_compute in Eo. subst o.
  injection E as <- El <-. rewrite <- Et, <- El. split; vm_compute; done.
Defined.

(** Far below the unit of the last place. *)
Lemma round_small v n d k t :
  finite v -> ratio n d (dval v) k -> 0 < d -> n < 10 * d -> k + 2 <= t -> round_decimal v t = 0.
Proof.
  intros Hv H Hd Hn Ht. unfold round_decimal, round_div, ratio in *.
  assert (HV : 0 <= dval v).
  { unfold dval. destruct (fields_bound v Hv) as (HS & _). apply Z.mul_nonneg_nonneg; [lia|apply Z.pow_nonneg; lia]. }
  set (g := pos (- k) - pos (- t)). assert (Hg : 0 <= g) by (unfold g, pos; lia).
  assert (Hb : 0 < 10 ^ pos (- t)) by (by apply pow_pos_lt).
  assert (Hp : 0 < 10 ^ g) by (apply Z.pow_pos_nonneg; lia).
  assert (HA : 0 < 2 ^ 1074 * 10 ^ pos k) by (apply Z.mul_pos_pos; [apply Z.pow_pos_nonneg; lia|by apply pow_pos_lt]).
  assert (E1 : 10 ^ pos (- k) = 10 ^ pos (- t) * 10 ^ g) by (rewrite <- Z.pow_add_r by (unfold g, pos; lia); f_equal; unfold g; lia).
  assert (E2 : 2 ^ 1074 * 10 ^ pos t * 10 ^ g = 2 ^ 1074 * 10 ^ pos k * 10 ^ (t - k)).
  { rewrite <- !Z.mul_assoc, <- !Z.pow_add_r by (unfold g, pos; lia). do 2 f_equal. unfold g, pos. lia. }
  assert (E3 : 10 ^ 2 <= 10 ^ (t - k)) by (apply Z.pow_le_mono_r; lia). change (10 ^ 2) with 100 in E3.
  rewrite E1 in H. clear E1. revert H HA Hb Hp E2 E3.
  generalize (10 ^ (t - k)), (2 ^ 1074 * 10 ^ pos k), (2 ^ 1074 * 10 ^ pos t), (10 ^ pos (- t)), (10 ^ g).
  intros w A At b G H HA Hb HG E2 E3.
  assert (H1 : dval v * b * G < 10 * A).
  { apply (Z.mul_lt_mono_pos_l d); [done|]. replace (d * (dval v * b * G)) with (n * A) by (rewrite H; ring). nia. }
  assert (H2 : 100 * A <= At * G) by (rewrite E2; nia).
  assert (H3 : 2 * (dval v * b) < At) by (apply (Z.mul_lt_mono_pos_r G); [done|]; lia).
  apply Z.div_small. split; [|lia]. assert (0 <= dval v * b) by nia. lia.
Qed.

Lemma ratio_divide10 n d x k : ratio n d x k -> ratio n (d * 10) x (k + 1).
Proof.
  intros H. unfold ratio in *. destruct (Z.lt_ge_cases k 0) as [Hk|Hk].
  - replace (pos (- k)) with (Z.succ (pos (- (k + 1)))) in H by (unfold pos; lia).
    replace (pos (k + 1)) with (pos k) by (unfold pos; lia). rewrite Z.pow_succ_r in H by (unfold pos; lia). lia.
  - replace (pos (- (k + 1))) with (pos (- k)) by (unfold pos; lia).
    replace (pos (k + 1)) with (Z.succ (pos k)) by (unfold pos; lia). rewrite Z.pow_succ_r by (unfold pos; lia). lia.
Qed.

Lemma leading_digit_round n d : 0 < d -> 0 <= n < 10 * d -> round_div n (10 * d) = if 0 <=? Z.sgn (n + n - d * 10) then 1 else 0.
Proof.
  intros Hd Hn. rewrite (round_div_spec n (10 * d) 0 n) by lia.
  destruct (Z.leb_spec 0 (n + n - 10 * d)), (Z.leb_spec 0 (Z.sgn (n + n - d * 10))); lia.
Qed.

Lemma BignumToFixed_spec v requested_digits p0 numerator denominator buffer n d :
  finite v -> has numerator n -> has denominator d -> d <= n < 10 * d -> 0 < d -> bounded d 2674 ->
  ratio n d (dval v) (p0 - 1) -> p0 + requested_digits <= Z.of_nat (length buffer) -> (0 < length buffer)%nat ->
  exists buffer' ds pt,
    BignumToFixed requested_digits p0 numerator denominator buffer = Some (buffer', pt, length ds)
    /\ length buffer' = length buffer /\ take (length ds) buffer' = ds
    /\ Z.of_nat (length ds) <= Z.max 1 (p0 + requested_digits)
    /\ Forall decimal_digit ds /\ (ds <> [] -> 10 ^ (Z.of_nat (length ds) - 1) <= decimal ds)
    /\ 0 <= pt - Z.of_nat (length ds) + requested_digits <= 1
    /\ decimal ds * 10 ^ (pt - Z.of_nat (length ds) + requested_digits) = round_decimal v (- requested_digits).
Proof.
  intros Hv Hn Hd Hnd Hd0 Hdb Hr Hlen Hlen0. unfold BignumToFixed.
  destruct (Z.ltb_spec requested_digits (- p0)) as [Hlt|Hge].
  { exists buffer, [], (- requested_digits). split; [done|]. split; [done|]. split; [done|]. cbn [length]. split; [lia|].
    split; [done|]. split; [done|]. split; [lia|]. rewrite (round_small v n d (p0 - 1)) by (done || lia). done. }
  destruct (Z.eqb_spec (- p0) requested_digits) as [Heq|Hne].
  - assert (Hd10 : d * 10 < pw 100).
    { apply (fits_ten d d 2674); [done..|lia]. }
    has_step; [done|]. rewrite (has_PlusCompare _ _ _ _ _ _ Hn Hn H). cbn [mbind option_bind].
    assert (ER : round_decimal v (- requested_digits) = if 0 <=? Z.sgn (n + n - d * 10) then 1 else 0).
    { rewrite <- leading_digit_round by lia. symmetry. apply round_scaled; [|lia].
      replace (- requested_digits) with (p0 - 1 + 1) by lia. rewrite (Z.mul_comm 10). by apply ratio_divide10. }
    destruct (0 <=? _).
    + rewrite set_char_ok by lia. cbn [mbind option_bind]. exists (<[0%nat:=49]> buffer), [49], (p0 + 1).
      split; [done|]. split; [apply length_insert|]. cbn [length]. split; [destruct buffer; [cbn in Hlen0; lia|done]|].
      split; [lia|]. split; [apply Forall_cons; split; [unfold decimal_digit; lia|done]|]. split; [done|].
      split; [lia|]. replace (p0 + 1 - Z.of_nat 1 + requested_digits) with 0 by lia. by rewrite ER.
    + exists buffer, [], p0. split; [done|]. split; [done|]. split; [done|]. cbn [length]. split; [lia|].
      split; [done|]. split; [done|]. split; [lia|]. by rewrite ER.
  - destruct (GenerateCountedDigits_spec (p0 + requested_digits) p0 _ _ buffer n d Hn Hd) as
      (b1 & ds & pt & -> & El & Et & Eds & Hds & Hpt & ER & Hcarry);
      [lia|done|by apply (bounded_mono _ 2674)|lia|lia|].
    exists b1, ds, pt. rewrite Eds. split; [done|]. split; [done|]. split; [done|]. split; [lia|]. split; [done|].
    rewrite Z2Nat.id by lia. split; [intros _; apply (counted_leading n d _ _ p0 pt); done || lia|].
    replace (pt - (p0 + requested_digits) + requested_digits) with (pt - p0) by lia. split; [lia|].
    rewrite ER. apply round_scaled; [|lia]. set (i := Z.to_nat (p0 + requested_digits - 1)).
    replace (p0 + requested_digits - 1) with (Z.of_nat i) by lia.
    replace (- requested_digits) with (p0 - 1 - Z.of_nat i) by lia. by apply ratio_shift.
Qed.

(** The fixed mode writes the digits of the double rounded half up to the
    requested number of decimal places; none when that is 0. *)
Theorem BignumDtoa_fixed v requested_digits buffer :
  finite v -> v <> 0 -> 1 < Z.of_nat (length buffer) -> requested_digits + 310 < Z.of_nat (length buffer) ->
  exists buffer' ds pt,
    BignumDtoa v BIGNUM_DTOA_FIXED requested_digits buffer = Some (buffer', length ds, pt)
    /\ take (length ds) buffer' = ds /\ buffer' !! length ds = Some 0
    /\ Forall decimal_digit ds /\ (ds <> [] -> 10 ^ (Z.of_nat (length ds) - 1) <= decimal ds)
    /\ let z := pt - Z.of_nat (length ds) + requested_digits in
       0 <= z <= 1 /\ decimal ds * 10 ^ z = round_decimal v (- requested_digits).
Proof.
  intros Hv H0 Hlen1 Hlen. destruct (EstimatePower_estimated v Hv H0) as (e & E & Hk). unfold BignumDtoa. rewrite E.
  cbn [mbind option_bind is_fixed is_shortest andb]. set (k := EstimatePower e) in *. clearbody k. fold (even_significand v).
  destruct (prepared_counted v k Hv H0 Hk) as (s0 & s & n & d & p0 & E1 & E2 & Hn & Hd & Hnd & Hd0 & Hdb & Hr & Hp0).
  pose proof (est_range _ _ Hk) as Hkr.
  destruct (Z.ltb_spec requested_digits (- k - 1)) as [Hlt|Hge].
  - destruct (set_char_lookup buffer 0 0) as (b2 & -> & El2 & Et2 & Hz); [lia|]. cbn [mbind option_bind].
    exists b2, [], (- requested_digits). split; [done|]. split; [done|]. split; [done|]. split; [done|]. split; [done|].
    cbn [length]. split; [lia|]. rewrite (round_small v n d (p0 - 1)) by (done || lia). done.
  - rewrite E1. cbn [mbind option_bind]. rewrite E2. cbn [mbind option_bind].
    destruct (BignumToFixed_spec v requested_digits p0 _ _ buffer n d Hv Hn Hd Hnd Hd0 Hdb Hr) as
      (b1 & ds & pt & -> & El & Et & Hl & Hds & Hlead & Hz & ER); [lia..|]. cbn [mbind option_bind].
    destruct (set_char_lookup b1 (length ds) 0) as (b2 & -> & El2 & Et2 & Hnul); [lia|]. cbn [mbind option_bind].
    exists b2, ds, pt. split; [done|]. split; [congruence|]. done.
Qed.

Theorem BignumDtoa_fixed_witness :
  exists buffer' ds pt,
    BignumDtoa 4607178815920315512 BIGNUM_DTOA_FIXED 3 (repeat 0 320) = Some (buffer', length ds, pt)
    /\ decimal ds = 100 /\ pt = 1.
Proof.
  destruct (BignumDtoa_fixed 4607178815920315512 3 (repeat 0 320)) as (b & ds & pt & E & Et & _); [done|done|by cbn; lia|by cbn; lia|].
  exists b, ds, pt. split; [exact E|]. remember (BignumDtoa _ _ _ _) as o eqn:Eo. vm_compute in Eo. subst o.
  injection E as <- El <-. rewrite <- Et, <- El. split; vm_compute; done.
Defined.
