(* ===== verification/HashMap.v ===== *)
(** * HashMap: open addressing with linear probing

    Models src/hashmap.h and src/hashmap.cc.  The table is the list of its entries,
    an [Entry*] is an index, and [None] stands for an access outside of the table,
    a loop that does not end, or [FatalProcessOutOfMemory].  The comparison of
    keys and the allocator are the parameters of the class.

    The specification is the bag of the entries: every operation is proved
    against it, and a sequence of operations against an association list. *)

From S2P Require Import Prelude.

Open Scope Z_scope.

(** ** Data *)

(** A pointer is its address. *)
Definition NULL : Z := 0.

Record Entry := mkEntry { key : Z; value : Z; hash : Z }.

Record HashMap := mkHashMap { map_ : list Entry; capacity_ : Z; occupancy_ : Z }.

Definition empty (e : Entry) : bool := key e =? NULL.

(** [p->key = NULL]. *)
Definition clear_key (e : Entry) : Entry := mkEntry NULL (value e) (hash e).

Definition set_map (t : HashMap) (map : list Entry) : HashMap := mkHashMap map (capacity_ t) (occupancy_ t).

(** ** Operations *)

Section operations.
Context (match_ : Z -> Z -> bool).
(** [allocator_->New] for a number of entries. *)
Context (New : Z -> option (list Entry)).

(** The first slot for a hash. *)
Definition initial_position (t : HashMap) (hash : Z) : nat := Z.to_nat (Z.land hash (capacity_ t - 1)).

Definition map_end (t : HashMap) : nat := Z.to_nat (capacity_ t).

(** The slot behind [p]. *)
Definition next_slot (t : HashMap) (p : nat) : nat := if (map_end t <=? S p)%nat then 0%nat else S p.

(** The entry of a key: full hashes are compared first. *)
Definition same (k h : Z) (e : Entry) : bool := (h =? hash e) && match_ k (key e).

Fixpoint probe_loop (fuel : nat) (t : HashMap) (key hash : Z) (p : nat) : option nat :=
  match fuel with
  | O => None
  | S fuel =>
      e ← map_ t !! p;
      if negb (empty e) && negb (same key hash e) then probe_loop fuel t key hash (next_slot t p)
      else Some p
  end.

Definition Probe (t : HashMap) (key hash : Z) : option nat :=
  probe_loop (map_end t) t key hash (initial_position t hash).

Definition Clear (t : HashMap) : HashMap :=
  mkHashMap (clear_key <$> map_ t) (capacity_ t) 0.

Definition Initialize (t : HashMap) (capacity : Z) : option HashMap :=
  map ← New capacity;
  Some (Clear (mkHashMap map capacity (occupancy_ t))).

(** The constructor, with its [initial_capacity]. *)
Definition HashMap_new (initial_capacity : Z) : option HashMap :=
  Initialize (mkHashMap [] 0 0) initial_capacity.

(** [Lookup(...)->value = value]. *)
Definition set_value (t : HashMap) (p : nat) (value : Z) : option HashMap :=
  e ← map_ t !! p;
  Some (set_map t (<[p := mkEntry (key e) value (hash e)]> (map_ t))).

(** The loop of [Resize] over the old table, until [n] entries are copied. *)
Fixpoint rehash (lookup : HashMap -> Z -> Z -> option (HashMap * option nat))
    (old : list Entry) (n : nat) (t : HashMap) : option HashMap :=
  match n with
  | O => Some t
  | S n' =>
      match old with
      | [] => None
      | e :: old =>
          if negb (empty e) then
            '(t, p) ← lookup t (key e) (hash e);
            p ← p;
            t ← set_value t p (value e);
            rehash lookup old n' t
          else rehash lookup old n t
      end
  end.

(** With [lookup], a [Lookup] that inserts. *)
Definition Resize (lookup : HashMap -> Z -> Z -> option (HashMap * option nat)) (t : HashMap) : option HashMap :=
  let map := map_ t in
  let n := occupancy_ t in
  t ← Initialize t (uint 32 (capacity_ t * 2));
  rehash lookup map (Z.to_nat n) t.

(** [Lookup] and [Resize] call each other. *)
Fixpoint Lookup_rec (fuel : nat) (t : HashMap) (key hash : Z) (insert : bool) : option (HashMap * option nat) :=
  match fuel with
  | O => None
  | S fuel =>
      p ← Probe t key hash;
      e ← map_ t !! p;
      if negb (empty e) then Some (t, Some p)
      else if insert then
        let t := mkHashMap (<[p := mkEntry key NULL hash]> (map_ t)) (capacity_ t) (uint 32 (occupancy_ t + 1)) in
        if capacity_ t <=? uint 32 (occupancy_ t + occupancy_ t / 4) then
          t ← Resize (fun t key hash => Lookup_rec fuel t key hash true) t;
          p ← Probe t key hash;
          Some (t, Some p)
        else Some (t, Some p)
      else Some (t, None)
  end.

(** An insertion into the new table of [Resize] does not resize it again. *)
Definition Lookup (t : HashMap) (key hash : Z) (insert : bool) : option (HashMap * option nat) :=
  Lookup_rec 2 t key hash insert.

(** Whether the entry at [q], with the initial position [r], can be moved to [p]. *)
Definition movable (p q r : nat) : bool :=
  ((p <? q)%nat && ((r <=? p)%nat || (q <? r)%nat)) || ((q <? p)%nat && ((r <=? p)%nat && (q <? r)%nat)).

(** The loop of [Remove]: the table and the entry to clear. *)
Fixpoint remove_loop (fuel : nat) (t : HashMap) (p q : nat) : option (HashMap * nat) :=
  match fuel with
  | O => None
  | S fuel =>
      let q := next_slot t q in
      e ← map_ t !! q;
      if empty e then Some (t, p)
      else
        let r := initial_position t (hash e) in
        if movable p q r then remove_loop fuel (set_map t (<[p := e]> (map_ t))) q q
        else remove_loop fuel t p q
  end.

Definition Remove (t : HashMap) (key hash : Z) : option HashMap :=
  p ← Probe t key hash;
  e ← map_ t !! p;
  if empty e then Some t
  else
    '(t, p) ← remove_loop (map_end t) t p p;
    e ← map_ t !! p;
    Some (mkHashMap (<[p := clear_key e]> (map_ t)) (capacity_ t) (uint 32 (occupancy_ t - 1))).

End operations.

(** ** Iteration *)

(** The loop of [Next], from the slot [i] on. *)
Fixpoint next_from (es : list Entry) (i : nat) : option nat :=
  match es with
  | [] => None
  | e :: es => if negb (empty e) then Some i else next_from es (S i)
  end.

(** The entry behind the slot [p]; [Start] is given [map_ - 1]. *)
Definition Next (t : HashMap) (p : Z) : option nat :=
  let i := Z.to_nat (p + 1) in next_from (drop i (take (map_end t) (map_ t))) i.

Definition Start (t : HashMap) : option nat := Next t (-1).

(** [for (Entry* p = map.Start(); p != NULL; p = map.Next(p))], the entries in order. *)
Fixpoint iterate (fuel : nat) (t : HashMap) (p : option nat) : option (list Entry) :=
  match p with
  | None => Some []
  | Some p =>
      match fuel with
      | O => None
      | S fuel => e ← map_ t !! p; es ← iterate fuel t (Next t (Z.of_nat p)); Some (e :: es)
      end
  end.

(** ** Cyclic distance *)

(** The steps from [p] to [i] in a table of [n] slots. *)
Definition dist (n p i : nat) : nat := if (p <=? i)%nat then (i - p)%nat else (i + n - p)%nat.

(** Linear arithmetic with distances, by cases on the order of the slots. *)
Ltac cyc :=
  unfold dist in *;
  repeat match goal with
    | |- context [(?a <=? ?b)%nat] => destruct (Nat.leb_spec a b)
    | H : context [(?a <=? ?b)%nat] |- _ => destruct (Nat.leb_spec a b)
    end;
  lia.

Lemma dist_refl n p : dist n p p = 0%nat.
Proof. cyc. Qed.

Lemma dist_lt n p i : (p < n)%nat -> (i < n)%nat -> (dist n p i < n)%nat.
Proof. intros. cyc. Qed.

Lemma dist_inj n p i j : (p < n)%nat -> (i < n)%nat -> (j < n)%nat -> dist n p i = dist n p j -> i = j.
Proof. intros. cyc. Qed.

Lemma dist_0 n p i : (p < n)%nat -> (i < n)%nat -> dist n p i = 0%nat -> i = p.
Proof. intros. cyc. Qed.

(** ** Entries *)

Definition entry_bag (e : Entry) : list Entry := if empty e then [] else [e].

(** The entries of the table that are in use. *)
Definition entries (map : list Entry) : list Entry := bag entry_bag map.

Lemma elem_of_map_entries map e : e ∈ entries map <-> empty e = false /\ exists i, map !! i = Some e.
Proof.
  unfold entries, bag. rewrite list_elem_of_In, in_flat_map. split.
  - intros (e' & H1 & H2). unfold entry_bag in H2. destruct (empty e') eqn:E; [done|].
    destruct H2 as [->|[]]. split; [done|]. apply list_elem_of_In in H1. by apply list_elem_of_lookup in H1.
  - intros (E & i & H). exists e. split; [by eapply list_elem_of_In, list_elem_of_lookup_2|].
    unfold entry_bag. rewrite E. by left.
Qed.

Lemma entries_insert map i e e' :
  map !! i = Some e -> entries (<[i := e']> map) ++ entry_bag e ≡ₚ entries map ++ entry_bag e'.
Proof. apply bag_insert. Qed.

Lemma entry_bag_empty e : empty e = true -> entry_bag e = [].
Proof. unfold entry_bag. by intros ->. Qed.

Lemma entry_bag_used e : empty e = false -> entry_bag e = [e].
Proof. unfold entry_bag. by intros ->. Qed.

Lemma entries_clear_key map : entries (clear_key <$> map) = [].
Proof. unfold entries, bag. by induction map. Qed.

Lemma entries_length map : (length (entries map) <= length map)%nat.
Proof.
  unfold entries, bag. induction map as [|e map IH]; [done|]. cbn. rewrite length_app. unfold entry_bag at 1.
  destruct (empty e); cbn; lia.
Qed.

(** A table that is not full has an empty slot. *)
Lemma exists_empty map :
  (length (entries map) < length map)%nat -> exists i e, map !! i = Some e /\ empty e = true.
Proof.
  unfold entries, bag. induction map as [|e map IH]; cbn; [lia|]. rewrite length_app. unfold entry_bag at 1.
  destruct (empty e) eqn:E; cbn; [intros _; by exists 0%nat, e|]. intros H.
  destruct IH as (i & e' & Hi & He); [lia|]. by exists (S i), e'.
Qed.

Definition occupied (map : list Entry) (j : nat) : Prop := exists e, map !! j = Some e /\ empty e = false.

Lemma occupied_insert map p e j : (p < length map)%nat -> empty e = false -> occupied map j -> occupied (<[p := e]> map) j.
Proof.
  intros Hp He (e' & Hj & He'). destruct (decide (j = p)) as [->|Hne].
  - exists e. split; [by apply list_lookup_insert_eq|done].
  - exists e'. split; [by rewrite list_lookup_insert_ne|done].
Qed.

(** ** The invariant *)

Section invariant.
Context (match_ : Z -> Z -> bool).

(** [same] is an equivalence on keys with hashes. *)
Class Matching : Prop := {
  match_refl a : a <> NULL -> match_ a a = true;
  match_sym a b : a <> NULL -> b <> NULL -> match_ a b = true -> match_ b a = true;
  match_trans a b c : a <> NULL -> b <> NULL -> c <> NULL -> match_ a b = true -> match_ b c = true -> match_ a c = true
}.

Definition same_entry (e e' : Entry) : bool := same match_ (key e) (hash e) e'.

(** Every entry is reached from its initial position without an empty slot in between. *)
Definition reachable_slots (n : nat) (home : Z -> nat) (map : list Entry) : Prop :=
  forall i e j, map !! i = Some e -> empty e = false -> (j < n)%nat ->
    (dist n (home (hash e)) j < dist n (home (hash e)) i)%nat -> occupied map j.

Definition distinct_keys (map : list Entry) : Prop :=
  forall i j e e', map !! i = Some e -> map !! j = Some e' -> empty e = false -> empty e' = false ->
    same_entry e e' = true -> i = j.

Record table (t : HashMap) : Prop := {
  table_capacity : exists k, 0 <= k < 32 /\ capacity_ t = 2 ^ k;
  table_length : length (map_ t) = map_end t;
  table_occupancy : occupancy_ t = Z.of_nat (length (entries (map_ t)));
  table_reachable : reachable_slots (map_end t) (initial_position t) (map_ t);
  table_distinct : distinct_keys (map_ t)
}.

(** At most 80% of the slots are in use. *)
Record wf (t : HashMap) : Prop := {
  wf_table : table t;
  wf_room : occupancy_ t + occupancy_ t / 4 < capacity_ t
}.

Lemma empty_false e : empty e = false <-> key e <> NULL.
Proof. apply Z.eqb_neq. Qed.

Lemma table_size t : table t -> 0 < capacity_ t < 2 ^ 32 /\ Z.of_nat (map_end t) = capacity_ t.
Proof.
  intros [(k & Hk & E) _ _ _ _]. unfold map_end. rewrite E.
  assert (0 < 2 ^ k) by (apply Z.pow_pos_nonneg; lia).
  assert (2 ^ k < 2 ^ 32) by (apply Z.pow_lt_mono_r; lia). split; lia.
Qed.

Lemma initial_position_lt t h : table t -> (initial_position t h < map_end t)%nat.
Proof.
  intros H. pose proof (table_size t H) as [_ Hn]. destruct H as [(k & Hk & E) _ _ _ _].
  unfold initial_position. rewrite E in *. rewrite land_mask by lia.
  pose proof (Z.mod_pos_bound h (2 ^ k) ltac:(lia)). lia.
Qed.

Lemma next_slot_lt t p : table t -> (next_slot t p < map_end t)%nat.
Proof.
  intros H. destruct (table_size t H). unfold next_slot. destruct (Nat.leb_spec (map_end t) (S p)); lia.
Qed.

Lemma next_slot_dist t h p :
  table t -> (h < map_end t)%nat -> (p < map_end t)%nat -> (S (dist (map_end t) h p) < map_end t)%nat ->
  dist (map_end t) h (next_slot t p) = S (dist (map_end t) h p).
Proof. intros _ Hh Hp. unfold next_slot. generalize dependent (map_end t). intros. cyc. Qed.

Lemma same_spec k h e : same match_ k h e = true <-> h = hash e /\ match_ k (key e) = true.
Proof. unfold same. by rewrite andb_true_iff, Z.eqb_eq. Qed.

(** ** Probing *)

Section probing.
Context {HM : Matching}.
Context (t : HashMap).
Hypothesis Ht : table t.
Hypothesis Hroom : occupancy_ t < capacity_ t.

Let n := map_end t.

Lemma has_empty : exists z e, (z < n)%nat /\ map_ t !! z = Some e /\ empty e = true.
Proof.
  pose proof (table_size t Ht) as [_ Hn]. pose proof (table_length t Ht) as Hl. pose proof (table_occupancy t Ht) as Ho.
  destruct (exists_empty (map_ t)) as (z & e & Hz & He); [lia|]. exists z, e.
  apply lookup_lt_Some in Hz as Hlt. split; [unfold n; lia|done].
Qed.

Lemma slot_at p : (p < n)%nat -> exists e, map_ t !! p = Some e.
Proof. intros Hp. apply lookup_lt_is_Some. rewrite (table_length t Ht). exact Hp. Qed.

Lemma Probe_spec k h :
  exists p e, Probe match_ t k h = Some p /\ (p < n)%nat /\ map_ t !! p = Some e
    /\ (empty e = true \/ empty e = false /\ same match_ k h e = true)
    /\ forall j, (j < n)%nat -> (dist n (initial_position t h) j < dist n (initial_position t h) p)%nat ->
         exists e', map_ t !! j = Some e' /\ empty e' = false /\ same match_ k h e' = false.
Proof.
  destruct has_empty as (z & ez & Hz & Ez & Hez). pose proof (initial_position_lt t h Ht) as Hh. fold n in Hh.
  unfold Probe. fold n. set (home := initial_position t h) in *.
  assert (H : forall fuel p, (p < n)%nat -> (n <= dist n home p + fuel)%nat ->
    (forall j, (j < n)%nat -> (dist n home j < dist n home p)%nat ->
         exists e', map_ t !! j = Some e' /\ empty e' = false /\ same match_ k h e' = false) ->
    exists p' e, probe_loop match_ fuel t k h p = Some p' /\ (p' < n)%nat /\ map_ t !! p' = Some e
    /\ (empty e = true \/ empty e = false /\ same match_ k h e = true)
    /\ forall j, (j < n)%nat -> (dist n home j < dist n home p')%nat ->
         exists e', map_ t !! j = Some e' /\ empty e' = false /\ same match_ k h e' = false).
  { induction fuel as [|fuel IH]; intros p Hp Hf Hbefore; [pose proof (dist_lt n home p Hh Hp); lia|].
    cbn [probe_loop]. destruct (slot_at p Hp) as (e & Ee). rewrite Ee. cbn [mbind option_bind].
    destruct (empty e) eqn:Eem; cbn [negb andb]; [exists p, e; by repeat (split; [done|]); split; [left|]|].
    destruct (same match_ k h e) eqn:Es; cbn [negb]; [exists p, e; by repeat (split; [done|]); split; [right|]|].
    assert (Hzp : (dist n home p < dist n home z)%nat).
    { destruct (Nat.lt_total (dist n home p) (dist n home z)) as [|[E|Hgt]]; [done| |].
      - apply dist_inj in E; [|done..]. subst. congruence.
      - destruct (Hbefore z Hz Hgt) as (e' & ? & ? & _). congruence. }
    pose proof (dist_lt n home z Hh Hz) as Hzn.
    assert (Ed : dist n home (next_slot t p) = S (dist n home p)) by (apply next_slot_dist; [done..|fold n; lia]).
    apply IH; [by apply next_slot_lt|lia|]. rewrite Ed. intros j Hj Hjp.
    destruct (decide (j = p)) as [->|Hne]; [by exists e|]. apply Hbefore; [done|].
    assert (dist n home j <> dist n home p) by (intros E; by apply dist_inj in E). lia. }
  destruct (H n home Hh) as (p & e & Hp); [lia| |by exists p, e].
  intros j Hj Hd. rewrite dist_refl in Hd. lia.
Qed.

(** The entry of a key is found if there is one. *)
Lemma Probe_found k h i e :
  k <> NULL -> map_ t !! i = Some e -> empty e = false -> same match_ k h e = true -> Probe match_ t k h = Some i.
Proof.
  intros Hk Hi He Hs. destruct (Probe_spec k h) as (p & ep & -> & Hp & Ep & Hcase & Hbefore). f_equal.
  assert (Hin : (i < n)%nat) by (apply lookup_lt_Some in Hi; rewrite (table_length t Ht) in Hi; exact Hi).
  apply same_spec in Hs as Hs'. destruct Hs' as [-> Hm].
  destruct (Nat.lt_total (dist n (initial_position t (hash e)) i) (dist n (initial_position t (hash e)) p)) as [Hlt|[E|Hgt]].
  - destruct (Hbefore i Hin Hlt) as (e' & Hi' & _ & Hn). congruence.
  - symmetry. apply (dist_inj n (initial_position t (hash e))); [by apply initial_position_lt|done..].
  - destruct (table_reachable t Ht i e p Hi He Hp Hgt) as (e' & Hp' & He').
    destruct Hcase as [|[_ Hsp]]; [congruence|]. apply (table_distinct t Ht p i ep e Ep Hi); [congruence|done|].
    apply same_spec in Hsp as [Hh Hmp]. apply same_spec. split; [congruence|].
    apply empty_false in He. assert (He2 : key ep <> NULL) by (apply empty_false; congruence).
    apply (match_trans _ k); [done..|by apply match_sym|done].
Qed.

(** Probing and the bag of entries. *)
Lemma Probe_entries k h :
  k <> NULL ->
  exists p e, Probe match_ t k h = Some p /\ (p < n)%nat /\ map_ t !! p = Some e
    /\ match find_first (same match_ k h) (entries (map_ t)) with
       | Some e' => e' = e /\ empty e = false /\ same match_ k h e = true
       | None => empty e = true
       end.
Proof.
  intros Hk. destruct (Probe_spec k h) as (p & e & Hpr & Hp & Ep & Hcase & _). exists p, e.
  split; [done|]. split; [done|]. split; [done|].
  destruct (find_first _ _) as [e'|] eqn:F.
  - apply find_first_Some in F as [Hin Hs]. apply elem_of_map_entries in Hin as (He' & i & Hi).
    pose proof (Probe_found k h i e' Hk Hi He' Hs) as Hpi. assert (i = p) as -> by congruence.
    assert (e' = e) as -> by congruence. done.
  - destruct Hcase as [|[He Hs]]; [done|]. exfalso. apply (find_first_None (same match_ k h) (entries (map_ t))) with (a := e) in F.
    + congruence.
    + apply elem_of_map_entries. split; [done|]. by exists p.
Qed.

End probing.
End invariant.

(** ** Insertion *)

Section insertion.
Context (match_ : Z -> Z -> bool) {HM : Matching match_}.

Lemma initial_position_set_map t map h : initial_position (set_map t map) h = initial_position t h.
Proof. done. Qed.

(** Replacing an entry by one with the same key and hash. *)
Lemma table_set_value t p v :
  table match_ t -> occupied (map_ t) p ->
  exists e, map_ t !! p = Some e /\ set_value t p v = Some (set_map t (<[p := mkEntry (key e) v (hash e)]> (map_ t)))
    /\ table match_ (set_map t (<[p := mkEntry (key e) v (hash e)]> (map_ t)))
    /\ entries (<[p := mkEntry (key e) v (hash e)]> (map_ t)) ++ [e]
       ≡ₚ entries (map_ t) ++ [mkEntry (key e) v (hash e)].
Proof.
  intros [Hc Hl Ho Hr Hd] (e & Hp & He). exists e. unfold set_value. rewrite Hp. cbn [mbind option_bind].
  set (e' := mkEntry (key e) v (hash e)). assert (He' : empty e' = false) by done.
  assert (Hlt : (p < length (map_ t))%nat) by by eapply lookup_lt_Some.
  assert (Hperm : entries (<[p := e']> (map_ t)) ++ [e] ≡ₚ entries (map_ t) ++ [e']).
  { rewrite <- (entry_bag_used e He), <- (entry_bag_used e' He'). by apply entries_insert. }
  assert (Hold : forall i e1, <[p := e']> (map_ t) !! i = Some e1 ->
    exists e2, map_ t !! i = Some e2 /\ key e2 = key e1 /\ hash e2 = hash e1).
  { intros i e1 Hi. destruct (decide (i = p)) as [->|Hne].
    - rewrite list_lookup_insert_eq in Hi by done. injection Hi as <-. by exists e.
    - rewrite list_lookup_insert_ne in Hi by done. by exists e1. }
  split; [done|]. split; [done|]. split; [|done]. split; cbn [map_ capacity_ occupancy_ set_map].
  - done.
  - by rewrite length_insert.
  - rewrite Ho. apply Permutation_length in Hperm. rewrite !length_app in Hperm. cbn in Hperm. lia.
  - intros i e1 j Hi He1 Hj Hlt'. destruct (Hold i e1 Hi) as (e2 & Hi2 & Ek & Eh). apply occupied_insert; [done|done|].
    apply (Hr i e2); [done| |done|]; [unfold empty in *; by rewrite Ek|by rewrite Eh].
  - intros i j e1 e2 Hi Hj He1 He2 Hs. destruct (Hold i e1 Hi) as (e1' & Hi' & Ek1 & Eh1).
    destruct (Hold j e2 Hj) as (e2' & Hj' & Ek2 & Eh2). apply (Hd i j e1' e2'); [done|done| | |].
    + unfold empty in *. by rewrite Ek1.
    + unfold empty in *. by rewrite Ek2.
    + unfold same_entry, same in *. by rewrite Ek1, Ek2, Eh1, Eh2.
Qed.

(** A new entry in the empty slot that [Probe] finds. *)
Lemma table_insert t p k h e :
  table match_ t -> occupancy_ t < capacity_ t -> k <> NULL ->
  Probe match_ t k h = Some p -> map_ t !! p = Some e -> empty e = true ->
  let t' := mkHashMap (<[p := mkEntry k NULL h]> (map_ t)) (capacity_ t) (uint 32 (occupancy_ t + 1)) in
  table match_ t' /\ occupancy_ t' = occupancy_ t + 1 /\ entries (map_ t') ≡ₚ mkEntry k NULL h :: entries (map_ t).
Proof.
  intros Ht Hroom Hk Hpr Hp He. pose proof (table_size match_ t Ht) as [Hcap Hn].
  destruct (Probe_spec match_ t Ht Hroom k h) as (p' & e0 & E & Hpn & Hp' & _ & Hbefore).
  assert (p' = p) as -> by congruence. clear E Hp' e0. pose proof Ht as [Hc Hl Ho Hr Hd].
  set (e' := mkEntry k NULL h). assert (He' : empty e' = false) by by apply empty_false.
  assert (Hperm : entries (<[p := e']> (map_ t)) ≡ₚ e' :: entries (map_ t)).
  { pose proof (entries_insert _ _ _ e' Hp) as H. rewrite (entry_bag_empty e He), (entry_bag_used e' He') in H.
    rewrite app_nil_r in H. rewrite H. by rewrite Permutation_app_comm. }
  assert (Hlt : (p < length (map_ t))%nat) by lia.
  assert (Hocc : uint 32 (occupancy_ t + 1) = occupancy_ t + 1) by (apply Z.mod_small; lia).
  cbn zeta. rewrite Hocc. split; [|by split].
  assert (Hnew : forall i e1, i <> p -> map_ t !! i = Some e1 -> empty e1 = false -> same match_ k h e1 = false).
  { intros i e1 Hne Hi He1. destruct (same match_ k h e1) eqn:Es; [|done]. exfalso. apply Hne.
    pose proof (Probe_found match_ t Ht Hroom k h i e1 Hk Hi He1 Es) as E. rewrite Hpr in E. by injection E. }
  split; cbn [map_ capacity_ occupancy_].
  - done.
  - by rewrite length_insert.
  - rewrite Ho. apply Permutation_length in Hperm. rewrite Hperm. cbn [length]. lia.
  - intros i e1 j Hi He1 Hj Hlt'. destruct (decide (i = p)) as [->|Hne].
    + rewrite list_lookup_insert_eq in Hi by done. injection Hi as <-.
      destruct (Hbefore j Hj Hlt') as (e2 & ? & ? & _). apply occupied_insert; [done|done|]. by exists e2.
    + rewrite list_lookup_insert_ne in Hi by done. apply occupied_insert; [done|done|]. by apply (Hr i e1).
  - intros i j e1 e2 Hi Hj He1 He2 Hs.
    destruct (decide (i = p)) as [->|Hi'], (decide (j = p)) as [->|Hj']; [done| | |].
    + rewrite list_lookup_insert_eq in Hi by done. rewrite list_lookup_insert_ne in Hj by done. injection Hi as <-.
      exfalso. pose proof (Hnew j e2 Hj' Hj He2). change (same match_ k h e2 = true) in Hs. congruence.
    + rewrite list_lookup_insert_eq in Hj by done. rewrite list_lookup_insert_ne in Hi by done. injection Hj as <-.
      exfalso. pose proof (Hnew i e1 Hi' Hi He1) as Hn1. unfold same_entry in Hs. apply same_spec in Hs as [Eh Em].
      change (key e') with k in Em. change (hash e') with h in Eh.
      assert (same match_ k h e1 = true); [|congruence]. apply same_spec. split; [done|].
      apply match_sym; [done|by apply empty_false|done|done].
    + rewrite list_lookup_insert_ne in Hi, Hj by done. by apply (Hd i j e1 e2).
Qed.

Context (New : Z -> option (list Entry)).

(** A lookup that inserts while there is room. *)
Lemma Lookup_rec_absent fuel t k h :
  table match_ t -> k <> NULL ->
  find_first (same match_ k h) (entries (map_ t)) = None ->
  (occupancy_ t + 1) + (occupancy_ t + 1) / 4 < capacity_ t ->
  exists t' p, Lookup_rec match_ New (S fuel) t k h true = Some (t', Some p)
    /\ table match_ t' /\ occupancy_ t' = occupancy_ t + 1 /\ capacity_ t' = capacity_ t
    /\ map_ t' !! p = Some (mkEntry k NULL h) /\ entries (map_ t') ≡ₚ mkEntry k NULL h :: entries (map_ t).
Proof.
  intros Ht Hk F Hroom. pose proof (table_size match_ t Ht) as [Hcap Hn].
  assert (Ho : 0 <= occupancy_ t) by (rewrite (table_occupancy match_ t Ht); lia).
  assert (Hdiv : 0 <= (occupancy_ t + 1) / 4) by (apply Z.div_pos; lia).
  destruct (Probe_entries match_ t Ht ltac:(lia) k h Hk) as (p & e & Hpr & Hp & Ep & Hcase). rewrite F in Hcase.
  cbn [Lookup_rec]. rewrite Hpr. cbn [mbind option_bind]. rewrite Ep. cbn [mbind option_bind]. rewrite Hcase. cbn [negb].
  destruct (table_insert t p k h e Ht ltac:(lia) Hk Hpr Ep Hcase) as (Ht' & Ho' & He').
  cbn zeta in *. cbn [capacity_ occupancy_] in *. rewrite Ho' in *. 
  destruct (Z.leb_spec (capacity_ t) (uint 32 (occupancy_ t + 1 + (occupancy_ t + 1) / 4))) as [Hle|_].
  { exfalso. unfold uint in Hle. rewrite Z.mod_small in Hle by lia. lia. }
  eexists _, p. split; [done|]. split; [done|]. split; [done|]. split; [done|]. split; [|done].
  cbn [map_]. apply list_lookup_insert_eq. rewrite (table_length match_ t Ht). done.
Qed.

(** ** Growing *)

Lemma table_cons_distinct e map : distinct_keys match_ (e :: map) -> distinct_keys match_ map.
Proof. intros H i j e1 e2 Hi Hj He1 He2 Hs. by injection (H (S i) (S j) e1 e2 Hi Hj He1 He2 Hs). Qed.

Lemma entries_cons e map : entries (e :: map) = entry_bag e ++ entries map.
Proof. done. Qed.

(** The entries of a list are different from those behind them. *)
Lemma distinct_entries e map :
  distinct_keys match_ (e :: map) -> empty e = false ->
  forall e', e' ∈ entries map -> same_entry match_ e' e = false.
Proof.
  intros H He e' Hin. apply elem_of_map_entries in Hin as (He' & i & Hi).
  destruct (same_entry match_ e' e) eqn:Es; [|done]. by pose proof (H (S i) 0%nat e' e Hi eq_refl He' He Es).
Qed.

Lemma find_first_permutation {A} (f : A -> bool) l l' : l ≡ₚ l' -> find_first f l = None -> find_first f l' = None.
Proof. rewrite !find_first_None. intros Hp H a Ha. apply H. by rewrite Hp. Qed.

Definition unused (es : list Entry) (e : Entry) : Prop := find_first (same match_ (key e) (hash e)) es = None.

Definition fits (occupancy capacity : Z) : Prop := occupancy + occupancy / 4 < capacity.

Lemma fits_mono a b c : a <= b -> fits b c -> fits a c.
Proof. unfold fits. intros H Hf. pose proof (Z.div_le_mono a b 4 ltac:(lia) H). lia. Qed.

Lemma fits_lt a c : 0 <= a -> fits a c -> a < c.
Proof. unfold fits. intros H Hf. pose proof (Z.div_pos a 4 H ltac:(lia)). lia. Qed.

Lemma rehash_spec fuel old : forall t,
  table match_ t -> distinct_keys match_ old ->
  (forall e, e ∈ entries old -> unused (entries (map_ t)) e) ->
  fits (occupancy_ t + Z.of_nat (length (entries old))) (capacity_ t) ->
  exists t', rehash (fun t key hash => Lookup_rec match_ New (S fuel) t key hash true) old (length (entries old)) t = Some t'
    /\ table match_ t' /\ capacity_ t' = capacity_ t
    /\ occupancy_ t' = occupancy_ t + Z.of_nat (length (entries old))
    /\ entries (map_ t') ≡ₚ entries old ++ entries (map_ t).
Proof.
  induction old as [|e old IH]; intros t Ht Hd Hf Hfit.
  - exists t. cbn in *. split; [done|]. split; [done|]. split; [done|]. split; [lia|done].
  - pose proof (table_cons_distinct _ _ Hd) as Hd'. rewrite entries_cons in *. destruct (empty e) eqn:He.
    { rewrite (entry_bag_empty e He) in *. cbn [app] in *.
      destruct (IH t Ht Hd' Hf Hfit) as (t' & E & Ht' & Hc & Ho & Hp). exists t'. split; [|done].
      rewrite <- E. destruct (length (entries old)) eqn:El; [by destruct old|]. cbn [rehash]. by rewrite He. }
    rewrite (entry_bag_used e He) in *. cbn [app length] in *. cbn [rehash]. rewrite He. cbn [negb].
    destruct (Lookup_rec_absent fuel t (key e) (hash e) Ht) as (t1 & p & -> & Ht1 & Ho1 & Hc1 & Hp1 & Hperm1).
    { by apply empty_false. }
    { apply Hf. by left. }
    { apply (fits_mono _ _ _) with (2 := Hfit). lia. }
    cbn [mbind option_bind].
    assert (Hocc : occupied (map_ t1) p) by (eexists; split; [exact Hp1|done]).
    destruct (table_set_value t1 p (value e) Ht1 Hocc) as (e1 & Ep & -> & Ht2 & Hperm2). cbn [mbind option_bind].
    assert (e1 = mkEntry (key e) NULL (hash e)) as -> by congruence. cbn [key hash] in *.
    assert (Eta : mkEntry (key e) (value e) (hash e) = e) by by destruct e. rewrite Eta in *.
    set (t2 := set_map t1 _) in *.
    assert (Hperm : entries (map_ t2) ≡ₚ e :: entries (map_ t)).
    { apply (Permutation_app_inv_r [mkEntry (key e) NULL (hash e)]). unfold t2. cbn [map_ set_map].
      rewrite Hperm2, Hperm1. solve_Permutation. }
    destruct (IH t2 Ht2 Hd') as (t' & E & Ht' & Hc & Ho & Hp).
    { intros e' Hin. apply (find_first_permutation _ (e :: entries (map_ t))); [done|]. cbn [find_first].
      pose proof (distinct_entries e old Hd He e' Hin) as Hs. unfold same_entry in Hs. rewrite Hs. apply Hf. by right. }
    { unfold t2. cbn [occupancy_ capacity_ set_map]. rewrite Ho1, Hc1. apply (fits_mono _ _ _) with (2 := Hfit). lia. }
    exists t'. split; [exact E|]. split; [done|]. unfold t2 in *. cbn [occupancy_ capacity_ set_map] in *.
    split; [congruence|]. split; [rewrite Ho, Ho1; lia|]. rewrite Hp, Hperm. solve_Permutation.
Qed.

(** The allocator provides the table of twice the size. *)
Definition can_grow (t : HashMap) : Prop :=
  capacity_ t < 2 ^ 31 /\ exists map, New (capacity_ t * 2) = Some map /\ Z.of_nat (length map) = capacity_ t * 2.

Lemma table_cleared capacity map k occupancy :
  capacity = 2 ^ k -> 0 <= k < 32 -> Z.of_nat (length map) = capacity ->
  table match_ (Clear (mkHashMap map capacity occupancy)).
Proof.
  intros E Hk Hl. split; cbn [map_ capacity_ occupancy_ Clear].
  - by exists k.
  - rewrite length_fmap. unfold map_end. cbn [capacity_ Clear]. lia.
  - by rewrite entries_clear_key.
  - intros i e j Hi He. apply list_lookup_fmap_Some in Hi as (e' & -> & _). done.
  - intros i j e e' Hi _ He. apply list_lookup_fmap_Some in Hi as (e1 & -> & _). done.
Qed.

Lemma Resize_spec fuel t :
  table match_ t -> can_grow t -> fits (occupancy_ t) (capacity_ t * 2) ->
  exists t', Resize New (fun t key hash => Lookup_rec match_ New (S fuel) t key hash true) t = Some t'
    /\ table match_ t' /\ capacity_ t' = capacity_ t * 2 /\ occupancy_ t' = occupancy_ t
    /\ entries (map_ t') ≡ₚ entries (map_ t).
Proof.
  intros Ht (Hcap & map & Hnew & Hlen) Hfit. pose proof (table_size match_ t Ht) as [Hc _].
  unfold Resize, Initialize, uint. rewrite Z.mod_small by lia. rewrite Hnew. cbn [mbind option_bind].
  rewrite (table_occupancy match_ t Ht), Nat2Z.id.
  destruct (table_capacity match_ t Ht) as (k & Hk & Ek).
  assert (Hk' : k < 31) by (rewrite Ek in Hcap; by apply Z.pow_lt_mono_r_iff in Hcap).
  set (t0 := Clear _). assert (Ht0 : table match_ t0).
  { apply (table_cleared _ _ (k + 1)); [|lia|done]. rewrite Z.pow_add_r, Ek by lia. done. }
  destruct (rehash_spec fuel (map_ t) t0 Ht0 (table_distinct match_ t Ht)) as (t' & -> & Ht' & Ec & Eo & Hp).
  - intros e _. unfold t0, unused. cbn [map_ Clear]. by rewrite entries_clear_key.
  - unfold t0. cbn [occupancy_ capacity_ Clear]. rewrite Z.add_0_l, <- (table_occupancy match_ t Ht). done.
  - exists t'. unfold t0 in *. cbn [occupancy_ capacity_ map_ Clear] in *. split; [done|]. split; [done|].
    split; [done|]. split; [lia|]. by rewrite Hp, entries_clear_key, app_nil_r.
Qed.

(** ** Lookup *)

Lemma Lookup_spec t k h insert :
  wf match_ t -> k <> NULL -> can_grow t ->
  exists t' r, Lookup match_ New t k h insert = Some (t', r) /\ wf match_ t'
    /\ capacity_ t' <= Z.max (capacity_ t) (4 * occupancy_ t')
    /\ match find_first (same match_ k h) (entries (map_ t)) with
       | Some e => t' = t /\ exists p, r = Some p /\ map_ t !! p = Some e
       | None =>
           if insert then
             exists p, r = Some p /\ map_ t' !! p = Some (mkEntry k NULL h)
               /\ entries (map_ t') ≡ₚ mkEntry k NULL h :: entries (map_ t)
           else t' = t /\ r = None
       end.
Proof.
  intros [Ht Hroom] Hk Hgrow. pose proof (table_size match_ t Ht) as [Hcap Hn].
  assert (Ho : 0 <= occupancy_ t) by (rewrite (table_occupancy match_ t Ht); lia).
  assert (Hdiv : 0 <= occupancy_ t / 4) by (apply Z.div_pos; lia).
  destruct (Probe_entries match_ t Ht ltac:(lia) k h Hk) as (p & e & Hpr & Hp & Ep & Hcase).
  unfold Lookup. cbn [Lookup_rec]. rewrite Hpr. cbn [mbind option_bind]. rewrite Ep. cbn [mbind option_bind].
  destruct (find_first _ _) as [e0|] eqn:F.
  { destruct Hcase as (-> & -> & _). cbn [negb]. exists t, (Some p). split; [done|]. split; [done|]. split; [lia|]. split; [done|].
    by exists p. }
  rewrite Hcase. cbn [negb]. destruct insert; [|exists t, None; split; [done|]; split; [done|]; split; [lia|done]].
  destruct (table_insert t p k h e Ht ltac:(lia) Hk Hpr Ep Hcase) as (Ht' & Ho' & Hperm).
  cbn zeta in *. set (t1 := mkHashMap _ _ _) in *. change (capacity_ t1) with (capacity_ t).
  assert (Hgrow1 : can_grow t1) by done.
  assert (Hdiv1 : 0 <= occupancy_ t1 / 4 <= occupancy_ t / 4 + 1).
  { rewrite Ho'. split; [apply Z.div_pos; lia|]. apply Z.div_le_upper_bound; [lia|].
    pose proof (Z.mod_pos_bound (occupancy_ t) 4 ltac:(lia)). pose proof (Z.div_mod (occupancy_ t) 4 ltac:(lia)). lia. }
  assert (Hp1 : map_ t1 !! p = Some (mkEntry k NULL h)).
  { apply list_lookup_insert_eq. by rewrite (table_length match_ t Ht). }
  assert (Hsum : uint 32 (occupancy_ t1 + occupancy_ t1 / 4) = occupancy_ t1 + occupancy_ t1 / 4).
  { apply Z.mod_small. destruct Hgrow as [Hg _]. lia. }
  rewrite Hsum. destruct (Z.leb_spec (capacity_ t) (occupancy_ t1 + occupancy_ t1 / 4)) as [Hle|Hgt].
  - assert (Hfit : fits (occupancy_ t1) (capacity_ t1 * 2)).
    { unfold fits. change (capacity_ t1) with (capacity_ t).
      assert (occupancy_ t1 / 4 <= capacity_ t / 4) by (apply Z.div_le_mono; lia).
      assert (capacity_ t / 4 < capacity_ t) by (apply Z.div_lt; lia). lia. }
    destruct (Resize_spec 0 t1 Ht' Hgrow1 Hfit) as (t2 & E & Ht2 & Hc2 & Ho2 & Hperm2).
    cbn [Lookup_rec] in E. rewrite E. cbn [mbind option_bind].
    assert (Hroom2 : fits (occupancy_ t2) (capacity_ t2)) by by rewrite Hc2, Ho2.
    destruct (Probe_entries match_ t2 Ht2 (fits_lt (occupancy_ t2) _ ltac:(lia) Hroom2) k h Hk) as (p2 & e2 & -> & Hp2 & Ep2 & Hcase2).
    cbn [mbind option_bind]. exists t2, (Some p2). split; [done|]. split; [done|]. split.
    { rewrite Hc2, Ho2. change (capacity_ t1) with (capacity_ t).
      assert (occupancy_ t1 / 4 <= occupancy_ t1) by (apply Z.div_le_upper_bound; lia). lia. }
    exists p2. split; [done|].
    assert (Hall : entries (map_ t2) ≡ₚ mkEntry k NULL h :: entries (map_ t)) by by rewrite Hperm2.
    split; [|done]. rewrite Ep2. f_equal. destruct (find_first _ (entries (map_ t2))) as [e3|] eqn:F2.
    + destruct Hcase2 as (-> & _ & Hs). apply find_first_Some in F2 as [Hin _]. rewrite Hall in Hin.
      apply elem_of_cons in Hin as [->|Hin]; [done|]. exfalso.
      pose proof (proj1 (find_first_None _ _) F _ Hin). congruence.
    + exfalso. pose proof (proj1 (find_first_None _ _) F2 (mkEntry k NULL h)) as H. 
      assert (same match_ k h (mkEntry k NULL h) = true) by (apply same_spec; split; [done|by apply match_refl]).
      rewrite H in *; [done|]. rewrite Hall. by left.
  - exists t1, (Some p). split; [done|]. split; [by split|]. split; [change (capacity_ t1) with (capacity_ t); lia|].
    by exists p.
Qed.

End insertion.

(** ** Removal *)

Section removal.
Context (match_ : Z -> Z -> bool) {HM : Matching match_}.

Lemma movable_spec n p q r :
  (p < n)%nat -> (q < n)%nat -> (r < n)%nat -> p <> q ->
  movable p q r = false <-> (0 < dist n p r <= dist n p q)%nat.
Proof.
  intros Hp Hq Hr Hne. unfold movable, dist.
  destruct (Nat.ltb_spec p q), (Nat.leb_spec r p), (Nat.ltb_spec q r), (Nat.ltb_spec q p),
    (Nat.leb_spec p r), (Nat.leb_spec p q); cbn [andb orb]; split; intros; try done; lia.
Qed.

(** The table of the loop: the entry at [p] is to be cleared; those behind it up to [q]
    have their initial positions behind [p], too. *)
Record removing (t0 t : HashMap) (p0 p q : nat) : Prop := {
  rm_capacity : capacity_ t = capacity_ t0;
  rm_occupancy : occupancy_ t = occupancy_ t0;
  rm_length : length (map_ t) = map_end t0;
  rm_slots : (p0 < map_end t0)%nat /\ (p < map_end t0)%nat /\ (q < map_end t0)%nat;
  rm_order : (dist (map_end t0) p0 p <= dist (map_end t0) p0 q)%nat;
  rm_occupied : forall j, occupied (map_ t) j <-> occupied (map_ t0) j;
  rm_used : occupied (map_ t) p;
  rm_reachable : forall i e j, i <> p -> map_ t !! i = Some e -> empty e = false -> (j < map_end t0)%nat ->
    (dist (map_end t0) (initial_position t0 (hash e)) j < dist (map_end t0) (initial_position t0 (hash e)) i)%nat ->
    occupied (map_ t) j;
  rm_interval : forall i e, map_ t !! i = Some e -> (0 < dist (map_end t0) p i <= dist (map_end t0) p q)%nat ->
    empty e = false
    /\ (0 < dist (map_end t0) p (initial_position t0 (hash e)) <= dist (map_end t0) p i)%nat;
  rm_distinct : forall i j e e', i <> p -> j <> p -> map_ t !! i = Some e -> map_ t !! j = Some e' ->
    empty e = false -> empty e' = false -> same_entry match_ e e' = true -> i = j
}.

Lemma not_occupied map j e : map !! j = Some e -> empty e = true -> ~ occupied map j.
Proof. intros H He (e' & H' & He'). congruence. Qed.

Section loop.
Context (t0 : HashMap).
Hypothesis Ht0 : table match_ t0.

Lemma removing_init p0 :
  occupied (map_ t0) p0 -> removing t0 t0 p0 p0 p0.
Proof.
  intros Ho. assert (Hp : (p0 < map_end t0)%nat).
  { destruct Ho as (e & Hp & _). apply lookup_lt_Some in Hp. by rewrite (table_length match_ t0 Ht0) in Hp. }
  split; try done.
  - by apply (table_length match_ t0).
  - intros i e j _. apply (table_reachable match_ t0 Ht0).
  - intros i e _ Hd. rewrite dist_refl in Hd. lia.
  - intros i j e e' _ _. apply (table_distinct match_ t0 Ht0).
Qed.

(** The entry at [q] stays. *)
Lemma removing_skip t p0 p q e :
  removing t0 t p0 p q -> (S (dist (map_end t0) p0 q) < map_end t0)%nat ->
  map_ t !! next_slot t0 q = Some e -> empty e = false ->
  movable p (next_slot t0 q) (initial_position t0 (hash e)) = false ->
  removing t0 t p0 p (next_slot t0 q).
Proof.
  intros [R1 R2 R3 R4 R5 R6 R7 R8 R9 R10] Hd He Hee Hmv. set (n := map_end t0) in *. destruct R4 as (Hp0 & Hp & Hq).
  pose proof (next_slot_dist match_ t0 p0 q Ht0 Hp0 Hq Hd) as Hnext. fold n in Hnext.
  pose proof (next_slot_lt match_ t0 q Ht0) as Hq'. fold n in Hq'.
  pose proof (initial_position_lt match_ t0 (hash e) Ht0) as Hr. fold n in Hr.
  set (q' := next_slot t0 q) in *. clearbody q'.
  assert (Hpq' : p <> q') by (intros ->; lia).
  apply (movable_spec n) in Hmv; [|done..].
  assert (Hstep : dist n p q' = S (dist n p q)) by (clear - Hp0 Hp Hq Hq' R5 Hnext Hpq'; clearbody n; cyc).
  split; fold n; try done; [lia|].
  intros i e' Hi Hdi. destruct (decide (i = q')) as [->|Hne].
  - assert (e' = e) as -> by congruence. done.
  - apply R9; [done|]. assert (Hin : (i < n)%nat) by (apply lookup_lt_Some in Hi; lia).
    assert (dist n p i <> dist n p q') by (intros E; by apply dist_inj in E). lia.
Qed.

(** The entry at [q] is moved to [p]. *)
Lemma removing_move t p0 p q e :
  removing t0 t p0 p q -> (S (dist (map_end t0) p0 q) < map_end t0)%nat ->
  map_ t !! next_slot t0 q = Some e -> empty e = false ->
  movable p (next_slot t0 q) (initial_position t0 (hash e)) = true ->
  removing t0 (set_map t (<[p := e]> (map_ t))) p0 (next_slot t0 q) (next_slot t0 q).
Proof.
  intros [R1 R2 R3 R4 R5 R6 R7 R8 R9 R10] Hd He Hee Hmv. set (n := map_end t0) in *. destruct R4 as (Hp0 & Hp & Hq).
  pose proof (next_slot_dist match_ t0 p0 q Ht0 Hp0 Hq Hd) as Hnext. fold n in Hnext.
  pose proof (next_slot_lt match_ t0 q Ht0) as Hq'. fold n in Hq'.
  pose proof (initial_position_lt match_ t0 (hash e) Ht0) as Hr. fold n in Hr.
  set (q' := next_slot t0 q) in *. clearbody q'.
  assert (Hpq' : p <> q') by (intros ->; lia).
  assert (Hmv' : ~ (0 < dist n p (initial_position t0 (hash e)) <= dist n p q')%nat).
  { intros H. apply (movable_spec n) in H; [congruence|done..]. }
  assert (Hocc : forall j, occupied (<[p:=e]> (map_ t)) j <-> occupied (map_ t) j).
  { intros j. destruct (decide (j = p)) as [->|Hne].
    - split; [done|]. intros _. exists e. split; [apply list_lookup_insert_eq; lia|done].
    - unfold occupied. by rewrite list_lookup_insert_ne by done. }
  assert (Hold : forall i e', i <> q' -> <[p:=e]> (map_ t) !! i = Some e' ->
     i = p /\ e' = e \/ i <> p /\ map_ t !! i = Some e').
  { intros i e' Hi H. destruct (decide (i = p)) as [->|Hne].
    - left. rewrite list_lookup_insert_eq in H by lia. split; [done|congruence].
    - right. by rewrite list_lookup_insert_ne in H by done. }
  split; fold n; cbn [map_ capacity_ occupancy_ set_map]; try done.
  - by rewrite length_insert.
  - intros j. by rewrite Hocc.
  - rewrite Hocc. by exists e.
  - intros i e' j Hi Hi' He' Hj Hlt. apply Hocc. destruct (Hold i e' Hi Hi') as [(-> & ->)|(Hip & Hi2)].
    + apply (R8 q' e); [done..|].
      destruct (decide (initial_position t0 (hash e) = p)) as [E|Hne]; [rewrite E, dist_refl in Hlt; lia|].
      revert Hlt Hmv' Hne. generalize (initial_position t0 (hash e)), Hr. clear - Hp Hq' Hj Hpq'. clearbody n. intros. cyc.
    + by apply (R8 i e').
  - intros i e' _ Hdi. rewrite dist_refl in Hdi. lia.
  - intros i j e1 e2 Hi Hj Hi' Hj' He1 He2 Hs.
    destruct (Hold i e1 Hi Hi') as [(-> & ->)|(Hip & Hi2)], (Hold j e2 Hj Hj') as [(-> & ->)|(Hjp & Hj2)]; [done| | |].
    + exfalso. apply Hj. symmetry. by apply (R10 q' j e e2).
    + exfalso. apply Hi. by apply (R10 i q' e1 e).
    + by apply (R10 i j e1 e2).
Qed.

(** What is left when the entry at [p] is cleared. *)
Definition leaves (t : HashMap) (p : nat) (rest : list Entry) : Prop :=
  exists e, map_ t !! p = Some e /\ empty e = false /\ entries (map_ t) ≡ₚ e :: rest.

Lemma leaves_move t p q e rest :
  leaves t p rest -> p <> q -> map_ t !! q = Some e -> empty e = false ->
  leaves (set_map t (<[p := e]> (map_ t))) q rest.
Proof.
  intros (ep & Hp & Hep & Hperm) Hne Hq He. exists e. cbn [map_ set_map].
  split; [by rewrite list_lookup_insert_ne|]. split; [done|]. pose proof (entries_insert _ _ _ e Hp) as H.
  rewrite (entry_bag_used e He), (entry_bag_used ep Hep), Hperm in H.
  apply (Permutation_app_inv_r [ep]). rewrite H. solve_Permutation.
Qed.

Lemma same_positions t : capacity_ t = capacity_ t0 ->
  (forall q, next_slot t q = next_slot t0 q) /\ (forall h, initial_position t h = initial_position t0 h).
Proof. intros E. unfold next_slot, initial_position, map_end. by rewrite E. Qed.

Lemma remove_loop_spec z ez p0 rest fuel : forall t p q,
  (z < map_end t0)%nat -> map_ t0 !! z = Some ez -> empty ez = true ->
  removing t0 t p0 p q -> leaves t p rest ->
  (dist (map_end t0) p0 q < dist (map_end t0) p0 z)%nat ->
  (map_end t0 <= dist (map_end t0) p0 q + fuel)%nat ->
  exists t' p' q' e, remove_loop fuel t p q = Some (t', p') /\ removing t0 t' p0 p' q' /\ leaves t' p' rest
    /\ (S (dist (map_end t0) p0 q') < map_end t0)%nat /\ map_ t' !! next_slot t0 q' = Some e /\ empty e = true.
Proof.
  induction fuel as [|fuel IH]; intros t p q Hz Ez Hez Hrm Hl Hqz Hf.
  { pose proof (rm_slots _ _ _ _ _ Hrm) as (Hp0 & _ & _). pose proof (dist_lt (map_end t0) p0 z Hp0 Hz). lia. }
  pose proof (rm_slots _ _ _ _ _ Hrm) as (Hp0 & Hp & Hq). pose proof (rm_capacity _ _ _ _ _ Hrm) as Hcap.
  pose proof (dist_lt (map_end t0) p0 z Hp0 Hz) as Hzn.
  destruct (same_positions t Hcap) as [En Ei]. cbn [remove_loop]. rewrite En.
  pose proof (next_slot_lt match_ t0 q Ht0) as Hq'.
  pose proof (next_slot_dist match_ t0 p0 q Ht0 Hp0 Hq ltac:(lia)) as Hnext.
  assert (Hsl : exists e, map_ t !! next_slot t0 q = Some e).
  { apply lookup_lt_is_Some. by rewrite (rm_length _ _ _ _ _ Hrm). }
  destruct Hsl as (e & He). rewrite He. cbn [mbind option_bind]. destruct (empty e) eqn:Hee.
  { exists t, p, q, e. by repeat (split; [done || lia|]). }
  assert (Hnz : next_slot t0 q <> z).
  { intros E. apply (not_occupied (map_ t0) z ez Ez Hez), (rm_occupied _ _ _ _ _ Hrm). rewrite <- E. by exists e. }
  assert (Hlt : (dist (map_end t0) p0 (next_slot t0 q) < dist (map_end t0) p0 z)%nat).
  { assert (dist (map_end t0) p0 (next_slot t0 q) <> dist (map_end t0) p0 z) by (intros E; by apply dist_inj in E). lia. }
  rewrite Ei. destruct (movable p (next_slot t0 q) (initial_position t0 (hash e))) eqn:Hmv.
  - apply IH; try done.
    + apply removing_move; [done|lia|done..].
    + apply leaves_move; [done| |done..]. intros ->. pose proof (rm_order _ _ _ _ _ Hrm). lia.
    + lia.
  - apply IH; try done.
    + apply (removing_skip t p0 p q e); [done|lia|done..].
    + lia.
Qed.

(** Clearing the entry at [p] does not break the search for any other. *)
Lemma removing_done t p0 p q e rest :
  removing t0 t p0 p q -> leaves t0 p0 rest -> leaves t p rest -> (S (dist (map_end t0) p0 q) < map_end t0)%nat ->
  map_ t !! next_slot t0 q = Some e -> empty e = true ->
  exists ep, map_ t !! p = Some ep
    /\ let t' := mkHashMap (<[p := clear_key ep]> (map_ t)) (capacity_ t) (uint 32 (occupancy_ t - 1)) in
       table match_ t' /\ occupancy_ t' = occupancy_ t0 - 1 /\ capacity_ t' = capacity_ t0 /\ entries (map_ t') ≡ₚ rest.
Proof.
  intros [R1 R2 R3 R4 R5 R6 R7 R8 R9 R10] (e0 & _ & _ & Hperm0) (ep & Hep & Hepu & Hperm) Hd He Hee. set (n := map_end t0) in *.
  destruct R4 as (Hp0 & Hp & Hq).
  pose proof (next_slot_dist match_ t0 p0 q Ht0 Hp0 Hq Hd) as Hnext. fold n in Hnext.
  pose proof (next_slot_lt match_ t0 q Ht0) as Hq'. fold n in Hq'.
  set (q' := next_slot t0 q) in *. clearbody q'.
  assert (Hpq' : p <> q') by (intros ->; congruence).
  assert (Hstep : dist n p q' = S (dist n p q)) by (clear - Hp0 Hp Hq Hq' R5 Hnext Hpq'; clearbody n; cyc).
  exists ep. split; [done|]. cbn zeta. set (cl := clear_key ep). assert (Hcl : empty cl = true) by done.
  assert (Hents : entries (<[p := cl]> (map_ t)) ≡ₚ rest).
  { pose proof (entries_insert _ _ _ cl Hep) as H. rewrite (entry_bag_empty cl Hcl), (entry_bag_used ep Hepu), app_nil_r in H.
    apply (Permutation_app_inv_r [ep]). rewrite H, Hperm. solve_Permutation. }
  assert (Hcount : occupancy_ t0 = Z.of_nat (S (length rest))).
  { rewrite (table_occupancy match_ t0 Ht0). apply Permutation_length in Hperm0. by rewrite Hperm0. }
  destruct (table_size match_ t0 Ht0) as [Hcap Hn].
  assert (Hle : Z.of_nat (S (length rest)) <= capacity_ t0).
  { rewrite <- Hcount, (table_occupancy match_ t0 Ht0), <- Hn, <- (table_length match_ t0 Ht0).
    apply inj_le, entries_length. }
  assert (Hocc : uint 32 (occupancy_ t - 1) = occupancy_ t0 - 1) by (rewrite R2; apply Z.mod_small; lia).
  rewrite Hocc. split; [|split; [done|split; [done|exact Hents]]].
  assert (Hold : forall i e1, <[p := cl]> (map_ t) !! i = Some e1 -> empty e1 = false -> i <> p /\ map_ t !! i = Some e1).
  { intros i e1 Hi He1. destruct (decide (i = p)) as [->|Hne].
    - rewrite list_lookup_insert_eq in Hi by lia. congruence.
    - by rewrite list_lookup_insert_ne in Hi by done. }
  split; cbn [map_ capacity_ occupancy_].
  - rewrite R1. apply (table_capacity match_ t0 Ht0).
  - rewrite length_insert, R3. unfold n, map_end. by rewrite R1.
  - rewrite Hents, Hcount. lia.
  - change (map_end (mkHashMap _ (capacity_ t) _)) with (Z.to_nat (capacity_ t)).
    change (initial_position (mkHashMap _ (capacity_ t) _)) with (fun h => Z.to_nat (Z.land h (capacity_ t - 1))).
    rewrite R1. change (Z.to_nat (capacity_ t0)) with n.
    change (fun h => Z.to_nat (Z.land h (capacity_ t0 - 1))) with (initial_position t0).
    intros i e1 j Hi He1 Hj Hlt. destruct (Hold i e1 Hi He1) as [Hip Hi2].
    destruct (R8 i e1 j Hip Hi2 He1 Hj Hlt) as (e2 & Hj2 & He2).
    destruct (decide (j = p)) as [->|Hjp]; [exfalso|exists e2; by rewrite list_lookup_insert_ne].
    assert (Hin : (i < n)%nat) by (apply lookup_lt_Some in Hi2; lia).
    pose proof (initial_position_lt match_ t0 (hash e1) Ht0) as Hr. fold n in Hr.
    set (r := initial_position t0 (hash e1)) in *.
    destruct (Nat.le_gt_cases (dist n p i) (dist n p q)) as [Hle'|Hgt].
    + assert (H0 : (0 < dist n p i)%nat) by (destruct (dist n p i) eqn:E; [apply dist_0 in E; done|lia]).
      destruct (R9 i e1 Hi2 (conj H0 Hle')) as [_ Hint]. fold r in Hint.
      clear - Hp Hin Hr Hlt Hint. clearbody n r. cyc.
    + assert (Hiq : i <> q') by (intros ->; congruence).
      assert (Hq2 : (dist n r q' < dist n r i)%nat).
      { clear - Hp Hin Hr Hlt Hq' Hiq Hpq' Hip Hgt Hstep. clearbody n r. cyc. }
      apply (not_occupied (map_ t) q' e He Hee). by apply (R8 i e1 q').
  - intros i j e1 e2 Hi Hj He1 He2 Hs. destruct (Hold i e1 Hi He1), (Hold j e2 Hj He2). by apply (R10 i j e1 e2).
Qed.

End loop.

(** ** Remove *)

Lemma Remove_spec t k h :
  wf match_ t -> k <> NULL ->
  exists t', Remove match_ t k h = Some t' /\ wf match_ t' /\ capacity_ t' = capacity_ t
    /\ match find_first (same match_ k h) (entries (map_ t)) with
       | Some e => e :: entries (map_ t') ≡ₚ entries (map_ t)
       | None => t' = t
       end.
Proof.
  intros [Ht Hroom] Hk. pose proof (table_size match_ t Ht) as [Hcap Hn].
  assert (Ho : 0 <= occupancy_ t) by (rewrite (table_occupancy match_ t Ht); lia).
  assert (Hlt : occupancy_ t < capacity_ t) by by apply fits_lt.
  destruct (Probe_entries match_ t Ht Hlt k h Hk) as (p & e & Hpr & Hp & Ep & Hcase).
  unfold Remove. rewrite Hpr. cbn [mbind option_bind]. rewrite Ep. cbn [mbind option_bind].
  destruct (find_first _ _) as [e0|] eqn:F; [|rewrite Hcase; by exists t].
  destruct Hcase as (-> & He & _). rewrite He.
  destruct (has_empty match_ t Ht Hlt) as (z & ez & Hz & Ez & Hez).
  assert (Hin : e ∈ entries (map_ t)) by (apply elem_of_map_entries; split; [done|by exists p]).
  apply elem_of_Permutation in Hin as [rest Hrest].
  assert (Hl : leaves t p rest) by by exists e.
  destruct (remove_loop_spec t Ht z ez p rest (map_end t) t p p Hz Ez Hez)
    as (t1 & p1 & q1 & e1 & -> & Hrm & Hl1 & Hd1 & Hq1 & He1); [|done| |lia|].
  { apply removing_init; [done|by exists e]. }
  { rewrite dist_refl. destruct (dist (map_end t) p z) eqn:E; [|lia]. apply dist_0 in E; [congruence|done..]. }
  cbn [mbind option_bind]. destruct (removing_done t Ht t1 p p1 q1 e1 rest Hrm Hl Hl1 Hd1 Hq1 He1)
    as (ep & -> & Ht' & Ho' & Hc' & Hents). cbn zeta in *. cbn [mbind option_bind].
  eexists. split; [done|]. split; [|split; [done|by rewrite Hents]]. split; [done|].
  rewrite Ho', Hc'. apply (fits_mono _ (occupancy_ t)); [lia|done].
Qed.

End removal.

(** ** Iteration *)

Lemma next_from_cons e es i : next_from (e :: es) i = if negb (empty e) then Some i else next_from es (S i).
Proof. done. Qed.

Lemma Next_drop match_ t p :
  table match_ t -> Next t (Z.of_nat p) = next_from (drop (S p) (map_ t)) (S p).
Proof.
  intros Ht. unfold Next. replace (Z.to_nat (Z.of_nat p + 1)) with (S p) by lia.
  by rewrite <- (table_length match_ t Ht), firstn_all.
Qed.

Lemma iterate_from match_ t fuel : forall k,
  table match_ t -> (length (map_ t) < k + fuel)%nat ->
  iterate fuel t (next_from (drop k (map_ t)) k) = Some (entries (drop k (map_ t))).
Proof.
  induction fuel as [|fuel IH]; intros k Ht Hk.
  - rewrite drop_ge by lia. done.
  - remember (length (map_ t) - k)%nat as m eqn:Em. revert k Em Hk. induction m as [|m IHm]; intros k Em Hk.
    + rewrite drop_ge by lia. done.
    + destruct (lookup_lt_is_Some_2 (map_ t) k) as (e & He); [lia|]. rewrite (drop_S _ _ _ He), next_from_cons, entries_cons.
      destruct (empty e) eqn:Hee; cbn [negb].
      * rewrite (entry_bag_empty e Hee). cbn [app]. apply IHm; lia.
      * cbn [iterate]. rewrite He. cbn [mbind option_bind]. rewrite (Next_drop match_), IH by (done || lia).
        cbn [mbind option_bind]. by rewrite (entry_bag_used e Hee).
Qed.

(** From [Start] every entry is met once. *)
Theorem iterate_entries match_ t :
  wf match_ t -> iterate (S (map_end t)) t (Start t) = Some (entries (map_ t)).
Proof.
  intros [Ht _]. pose proof (table_length match_ t Ht) as Hl.
  assert (E : Start t = next_from (drop 0 (map_ t)) 0).
  { unfold Start, Next. cbn [Z.add Z.to_nat Z.opp Pos.of_succ_nat]. by rewrite <- Hl, firstn_all. }
  rewrite E, (iterate_from match_); [by rewrite drop_0|done|lia].
Qed.

(** ** Refinement of an association list *)

(** A sequence of calls of a client. *)
Inductive op := Put (k h v : Z) | Get (k h : Z) | Delete (k h : Z) | Reset_all.

Definition key_of (o : op) : Z :=
  match o with Put k _ _ | Get k _ | Delete k _ => k | Reset_all => 1 end.

(** The calls on the table, with the value that [Get] finds. *)
Definition run_op (match_ : Z -> Z -> bool) (New : Z -> option (list Entry)) (t : HashMap) (o : op)
    : option (HashMap * option Z) :=
  match o with
  | Put k h v =>
      '(t, p) ← Lookup match_ New t k h true;
      p ← p;
      t ← set_value t p v;
      Some (t, None)
  | Get k h =>
      '(t, p) ← Lookup match_ New t k h false;
      match p with
      | Some p => e ← map_ t !! p; Some (t, Some (value e))
      | None => Some (t, None)
      end
  | Delete k h => t ← Remove match_ t k h; Some (t, None)
  | Reset_all => Some (Clear t, None)
  end.

Fixpoint run_ops match_ New (t : HashMap) (os : list op) : option (HashMap * list (option Z)) :=
  match os with
  | [] => Some (t, [])
  | o :: os =>
      '(t, r) ← run_op match_ New t o;
      '(t, rs) ← run_ops match_ New t os;
      Some (t, r :: rs)
  end.

Fixpoint remove_first {A} (f : A -> bool) (l : list A) : list A :=
  match l with [] => [] | a :: l => if f a then l else a :: remove_first f l end.

(** The specification: an association list. *)
Definition spec_op (match_ : Z -> Z -> bool) (es : list Entry) (o : op) : list Entry * option Z :=
  match o with
  | Put k h v =>
      match find_first (same match_ k h) es with
      | Some e => (mkEntry (key e) v (hash e) :: remove_first (same match_ k h) es, None)
      | None => (mkEntry k v h :: es, None)
      end
  | Get k h => (es, value <$> find_first (same match_ k h) es)
  | Delete k h => (remove_first (same match_ k h) es, None)
  | Reset_all => ([], None)
  end.

Fixpoint spec_ops match_ (es : list Entry) (os : list op) : list Entry * list (option Z) :=
  match os with
  | [] => (es, [])
  | o :: os => let '(es, r) := spec_op match_ es o in let '(es, rs) := spec_ops match_ es os in (es, r :: rs)
  end.

Section refinement.
Context (match_ : Z -> Z -> bool) {HM : Matching match_}.
Context (New : Z -> option (list Entry)).
(** The allocator does not run out of memory. *)
Hypothesis HNew : forall n, 0 <= n < 2 ^ 32 -> exists map, New n = Some map /\ Z.of_nat (length map) = n.

Lemma remove_first_permutation {A} (f : A -> bool) l a : find_first f l = Some a -> a :: remove_first f l ≡ₚ l.
Proof.
  induction l as [|b l IH]; cbn; [done|]. destruct (f b); [by intros [= ->]|]. intros H.
  rewrite Permutation_swap. by apply perm_skip, IH.
Qed.

Lemma remove_first_None {A} (f : A -> bool) l : find_first f l = None -> remove_first f l = l.
Proof. induction l as [|b l IH]; cbn; [done|]. destruct (f b); [done|]. intros H. by rewrite (IH H). Qed.

(** The entry that is found does not depend on the order. *)
Lemma find_first_entries t k h es :
  table match_ t -> k <> NULL -> entries (map_ t) ≡ₚ es ->
  find_first (same match_ k h) es = find_first (same match_ k h) (entries (map_ t)).
Proof.
  intros Ht Hk Hp. destruct (find_first _ es) as [e|] eqn:F; destruct (find_first _ (entries (map_ t))) as [e'|] eqn:F'; try done.
  - apply find_first_Some in F as [Hin Hs], F' as [Hin' Hs']. rewrite <- Hp in Hin.
    apply elem_of_map_entries in Hin as (He & i & Hi), Hin' as (He' & i' & Hi').
    apply same_spec in Hs as [Eh Em], Hs' as [Eh' Em'].
    assert (i = i') as ->; [|congruence]. apply (table_distinct match_ t Ht i i' e e' Hi Hi' He He').
    apply same_spec. split; [congruence|]. apply empty_false in He, He'.
    apply (match_trans match_ _ k); [done..|by apply match_sym|done].
  - apply find_first_Some in F as [Hin Hs]. rewrite <- Hp in Hin. pose proof (proj1 (find_first_None _ _) F' e Hin). congruence.
  - apply find_first_Some in F' as [Hin Hs]. rewrite Hp in Hin. pose proof (proj1 (find_first_None _ _) F e' Hin). congruence.
Qed.

(** The table represents the list; it has at most [n] entries. *)
Record refines (limit : Z) (t : HashMap) (es : list Entry) : Prop := {
  ref_wf : wf match_ t;
  ref_entries : entries (map_ t) ≡ₚ es;
  ref_capacity : capacity_ t < 2 ^ 31;
  ref_limit : Z.of_nat (length es) <= limit
}.

Lemma refines_can_grow limit t es : refines limit t es -> can_grow New t.
Proof.
  intros [[Ht _] _ Hc _]. split; [done|]. pose proof (table_size match_ t Ht) as [Hcap _].
  destruct (HNew (capacity_ t * 2)) as (map & E & El); [lia|]. by exists map.
Qed.

Lemma set_value_refines t p v es e :
  wf match_ t -> map_ t !! p = Some e -> empty e = false -> entries (map_ t) ≡ₚ e :: es ->
  exists t', set_value t p v = Some t' /\ wf match_ t' /\ capacity_ t' = capacity_ t
    /\ entries (map_ t') ≡ₚ mkEntry (key e) v (hash e) :: es.
Proof.
  intros [Ht Hroom] Hp He Hperm. destruct (table_set_value match_ t p v Ht) as (e' & Hp' & E & Ht' & Hperm').
  { by exists e. }
  assert (e' = e) as -> by congruence. eexists. split; [exact E|]. split; [by split|]. split; [done|].
  cbn [map_ set_map]. apply (Permutation_app_inv_r [e]). rewrite Hperm', Hperm. solve_Permutation.
Qed.

Lemma run_op_refines limit t es o :
  refines limit t es -> 4 * (limit + 1) < 2 ^ 31 -> key_of o <> NULL ->
  exists t', run_op match_ New t o = Some (t', snd (spec_op match_ es o))
    /\ refines (limit + 1) t' (fst (spec_op match_ es o)).
Proof.
  intros Href Hlim Hk. pose proof (refines_can_grow _ _ _ Href) as Hgrow. destruct Href as [Hwf Hperm Hcap Hlen].
  pose proof (wf_table match_ t Hwf) as Ht. pose proof (Permutation_length Hperm) as Hpl.
  destruct o as [k h v|k h|k h|]; cbn [key_of run_op spec_op] in *.
  - destruct (Lookup_spec match_ New t k h true Hwf Hk Hgrow) as (t1 & r & -> & Hwf1 & Hcap1 & Hcase). cbn [mbind option_bind].
    rewrite (find_first_entries t k h es Ht Hk Hperm). destruct (find_first _ _) as [e|] eqn:F.
    + destruct Hcase as (-> & p & -> & Hp). cbn [mbind option_bind fst snd].
      assert (Fe : find_first (same match_ k h) es = Some e) by by rewrite (find_first_entries t).
      pose proof (remove_first_permutation _ _ _ Fe) as Hrem.
      apply find_first_Some in F as [Hin _]. apply elem_of_map_entries in Hin as [He _].
      destruct (set_value_refines t p v (remove_first (same match_ k h) es) e Hwf Hp He) as (t' & -> & Hwf' & Hc' & Hperm').
      { by rewrite Hperm, Hrem. }
      exists t'. split; [done|]. split; [done|done|lia|]. cbn [length]. apply Permutation_length in Hrem. cbn [length] in Hrem. lia.
    + destruct Hcase as (p & -> & Hp & Hents). cbn [mbind option_bind fst snd].
      destruct (set_value_refines t1 p v es (mkEntry k NULL h) Hwf1 Hp) as (t' & -> & Hwf' & Hc' & Hperm').
      { by apply empty_false. }
      { by rewrite Hents, Hperm. }
      exists t'. split; [done|]. split; [done|done| |cbn [length]; lia]. rewrite Hc'.
      assert (Ho1 : occupancy_ t1 = Z.of_nat (S (length es))).
      { rewrite (table_occupancy match_ t1 (wf_table match_ t1 Hwf1)). apply Permutation_length in Hents.
        cbn [length] in Hents. lia. }
      lia.
  - destruct (Lookup_spec match_ New t k h false Hwf Hk Hgrow) as (t1 & r & -> & Hwf1 & Hcap1 & Hcase). cbn [mbind option_bind].
    rewrite (find_first_entries t k h es Ht Hk Hperm). destruct (find_first _ _) as [e|] eqn:F.
    + destruct Hcase as (-> & p & -> & Hp). rewrite Hp. cbn [mbind option_bind]. exists t. split; [done|].
      split; [done|done|done|cbn [fst]; lia].
    + destruct Hcase as (-> & ->). exists t. split; [done|]. split; [done|done|done|cbn [fst]; lia].
  - destruct (Remove_spec match_ t k h Hwf Hk) as (t1 & -> & Hwf1 & Hc1 & Hcase). cbn [mbind option_bind fst snd].
    exists t1. split; [done|]. rewrite <- (find_first_entries t k h es Ht Hk Hperm) in Hcase.
    destruct (find_first _ _) as [e|] eqn:F.
    + pose proof (remove_first_permutation _ _ _ F) as Hrem. split; [done| |lia|].
      * apply (Permutation_cons_inv (a := e)). by rewrite Hcase, Hrem.
      * apply Permutation_length in Hrem. cbn [length] in Hrem. lia.
    + subst t1. rewrite (remove_first_None _ _ F). split; [done|done|done|lia].
  - exists (Clear t). split; [done|]. cbn [fst]. pose proof (table_size match_ t Ht) as [Hsz _]. split; [|by cbn [map_ Clear]; rewrite entries_clear_key|done|cbn [length]; lia].
    destruct (table_capacity match_ t Ht) as (k & Hk' & Ek). split; [|cbn [occupancy_ capacity_ Clear]; change (0 + 0 / 4) with 0; lia].
    destruct t as [map cap occ]. apply (table_cleared match_ _ _ k); [done|done|].
    pose proof (table_length match_ _ Ht) as Hl. cbn in *. rewrite Hl. unfold map_end. cbn. lia.
Qed.

Lemma HashMap_new_wf c k :
  c = 2 ^ k -> 0 <= k < 31 -> exists t, HashMap_new New c = Some t /\ refines 0 t [].
Proof.
  intros E Hk. assert (Hc : 0 < c < 2 ^ 31).
  { rewrite E. split; [apply Z.pow_pos_nonneg; lia|apply Z.pow_lt_mono_r; lia]. }
  destruct (HNew c) as (map & Em & El); [lia|]. unfold HashMap_new, Initialize. rewrite Em. cbn [mbind option_bind].
  eexists. split; [done|]. split; [|by cbn [map_ Clear]; rewrite entries_clear_key|cbn [capacity_ Clear]; lia|done].
  split; [by apply (table_cleared match_ _ _ k); [|lia|]|]. cbn [occupancy_ capacity_ Clear]. change (0 + 0 / 4) with 0. lia.
Qed.

Lemma run_ops_refines os : forall limit t es,
  refines limit t es -> 4 * (limit + Z.of_nat (length os)) < 2 ^ 31 -> Forall (fun o => key_of o <> NULL) os ->
  exists t', run_ops match_ New t os = Some (t', snd (spec_ops match_ es os))
    /\ refines (limit + Z.of_nat (length os)) t' (fst (spec_ops match_ es os)).
Proof.
  induction os as [|o os IH]; intros limit t es Href Hlim Hks.
  - exists t. split; [done|]. cbn [length Z.of_nat]. by rewrite Z.add_0_r.
  - apply Forall_cons in Hks as [Hk Hks]. cbn [length] in *. cbn [run_ops spec_ops].
    destruct (run_op_refines limit t es o Href ltac:(lia) Hk) as (t1 & -> & Href1). cbn [mbind option_bind].
    destruct (spec_op match_ es o) as [es1 r]. cbn [fst snd] in *.
    destruct (IH _ t1 es1 Href1 ltac:(lia) Hks) as (t2 & -> & Href2). cbn [mbind option_bind].
    destruct (spec_ops match_ es1 os) as [es2 rs]. cbn [fst snd] in *. exists t2. split; [done|].
    by replace (limit + Z.of_nat (S (length os))) with (limit + 1 + Z.of_nat (length os)) by lia.
Qed.

End refinement.

(** C16: a new table run through any sequence of insertions, lookups, removals and
    clearings gives the answers of an association list, through all collisions,
    shifts and resizings; in the end the iteration yields the entries of the list,
    and at most 80% of the slots are in use. *)
Theorem HashMap_refines (match_ : Z -> Z -> bool) (New : Z -> option (list Entry)) k os :
  Matching match_ ->
  (forall n, 0 <= n < 2 ^ 32 -> exists map, New n = Some map /\ Z.of_nat (length map) = n) ->
  0 <= k < 31 -> Z.of_nat (length os) < 2 ^ 29 -> Forall (fun o => key_of o <> NULL) os ->
  exists t t' es,
    HashMap_new New (2 ^ k) = Some t
    /\ run_ops match_ New t os = Some (t', snd (spec_ops match_ [] os))
    /\ iterate (S (map_end t')) t' (Start t') = Some es /\ es ≡ₚ fst (spec_ops match_ [] os)
    /\ 5 * occupancy_ t' < 4 * capacity_ t'.
Proof.
  intros HM HNew Hk Hlen Hks. destruct (HashMap_new_wf match_ New HNew (2 ^ k) k eq_refl Hk) as (t & -> & Href).
  destruct (run_ops_refines match_ New HNew os 0 t [] Href ltac:(lia) Hks) as (t' & E & Href').
  exists t, t', (entries (map_ t')). split; [done|]. split; [done|].
  split; [by apply (iterate_entries match_), (ref_wf match_ _ _ _ Href')|].
  split; [apply (ref_entries match_ _ _ _ Href')|].
  pose proof (wf_room match_ t' (ref_wf match_ _ _ _ Href')).
  pose proof (Z.div_mod (occupancy_ t') 4 ltac:(lia)). pose proof (Z.mod_pos_bound (occupancy_ t') 4 ltac:(lia)). lia.
Qed.

(** Keys that are compared as pointers, in a table of one slot at first. *)
Theorem HashMap_refines_witness :
  exists t t' es,
    HashMap_new (fun n => Some (replicate (Z.to_nat n) (mkEntry 7 7 7))) (2 ^ 0) = Some t
    /\ run_ops Z.eqb (fun n => Some (replicate (Z.to_nat n) (mkEntry 7 7 7))) t
         [Put 1 5 10; Put 2 1 20; Put 3 9 30; Delete 1 5; Get 3 9; Put 3 9 31; Get 3 9; Get 1 5]
       = Some (t', [None; None; None; None; Some 30; None; Some 31; None])
    /\ iterate (S (map_end t')) t' (Start t') = Some es.
Proof.
  destruct (HashMap_refines Z.eqb (fun n => Some (replicate (Z.to_nat n) (mkEntry 7 7 7))) 0
    [Put 1 5 10; Put 2 1 20; Put 3 9 30; Delete 1 5; Get 3 9; Put 3 9 31; Get 3 9; Get 1 5])
    as (t & t' & es & E1 & E2 & E3 & _).
  - split.
    + intros a _. apply Z.eqb_refl.
    + intros a b _ _ H. by rewrite Z.eqb_sym.
    + intros a b c _ _ _ H1 H2. apply Z.eqb_eq in H1, H2. apply Z.eqb_eq. congruence.
  - intros n Hn. eexists. split; [done|]. rewrite length_replicate. lia.
  - lia.
  - done.
  - by repeat apply Forall_cons_2.
  - exists t, t', es. done.
Defined.
