(* ===== verification/SplayTree.v ===== *)
(** * SplayTree: the top-down splay tree

    Models src/splay-tree-inl.h and src/splay-tree.h.  The template parameter [Config]
    is the order [Compare] and the value [kNoValue]; a tree is a value, [NULL] is
    [Leaf].  Keys never change while a node is in a tree, and no key occurs
    twice, so a [Locator] bound to a node is the key of the node.  The L and R trees
    that [Splay] hangs on its dummy node are lists of links, the last one first.
    [None] stands for an access through a null pointer. *)

From Stdlib Require Import Sorting.Sorted.
From S2P Require Import Prelude.

Inductive Tree {Key Value : Type} :=
  | Leaf
  | Node (left_ : Tree) (key_ : Key) (value_ : Value) (right_ : Tree).
Arguments Tree : clear implicits.

Section operations.
Context {Key Value : Type} (Compare : Key -> Key -> Z) (kNoValue : Value).
Local Abbreviation Tree := (Tree Key Value).
Local Abbreviation Locator := Key.

Definition is_empty (root_ : Tree) : bool := match root_ with Leaf => true | Node _ _ _ _ => false end.

(** The nodes linked into the L tree (each with its left subtree) and into the R
    tree (each with its right subtree). *)
Abbreviation Links := (list (Key * Value * Tree)).

(** [left->right_ = current->left_; ... root_ = current] *)
Definition hang_left (left : Links) (t : Tree) : Tree :=
  fold_left (fun acc '(k, v, l) => Node l k v acc) left t.

Definition hang_right (right : Links) (t : Tree) : Tree :=
  fold_left (fun acc '(k, v, r) => Node acc k v r) right t.

Definition Assemble (left right : Links) (current : Tree) : Tree :=
  match current with
  | Leaf => Leaf
  | Node l k v r => Node (hang_left left l) k v (hang_right right r)
  end.

Fixpoint splay_loop (key : Key) (left right : Links) (current : Tree) : Tree :=
  match current with
  | Leaf => Leaf
  | Node l k v r =>
      let cmp := Compare key k in
      if (cmp <? 0)%Z then
        match l with
        | Leaf => Assemble left right current
        | Node ll lk lv lr =>
            if (Compare key lk <? 0)%Z then
              (* Rotate right. *)
              match ll with
              | Leaf => Assemble left right (Node Leaf lk lv (Node lr k v r))
              | Node _ _ _ _ => splay_loop key left ((lk, lv, Node lr k v r) :: right) ll
              end
            else splay_loop key left ((k, v, r) :: right) l
        end
      else if (0 <? cmp)%Z then
        match r with
        | Leaf => Assemble left right current
        | Node rl rk rv rr =>
            if (0 <? Compare key rk)%Z then
              (* Rotate left. *)
              match rr with
              | Leaf => Assemble left right (Node (Node l k v rl) rk rv Leaf)
              | Node _ _ _ _ => splay_loop key ((rk, rv, Node l k v rl) :: left) right rr
              end
            else splay_loop key ((k, v, l) :: left) right r
        end
      else Assemble left right current
  end.

Definition Splay (key : Key) (root_ : Tree) : Tree :=
  if is_empty root_ then root_ else splay_loop key [] [] root_.

(** [node] is a new node without children. *)
Definition InsertInternal (cmp : Z) (key : Key) (value : Value) (root_ : Tree) : option Tree :=
  match root_ with
  | Leaf => None
  | Node l k v r =>
      Some (if (0 <? cmp)%Z then Node (Node l k v Leaf) key value r
            else Node l key value (Node Leaf k v r))
  end.

Definition root_key (root_ : Tree) : option Key :=
  match root_ with Leaf => None | Node _ k _ _ => Some k end.

(** The flag of the code, the locator, and the new tree. *)
Definition Insert (key : Key) (root_ : Tree) : option (Tree * bool * Locator) :=
  if is_empty root_ then Some (Node Leaf key kNoValue Leaf, true, key)
  else
    let root_ := Splay key root_ in
    k ← root_key root_;
    let cmp := Compare key k in
    if (cmp =? 0)%Z then Some (root_, false, k)
    else
      root_ ← InsertInternal cmp key kNoValue root_;
      k ← root_key root_;
      Some (root_, true, k).

Definition FindInternal (key : Key) (root_ : Tree) : option (Tree * bool) :=
  if is_empty root_ then Some (root_, false)
  else
    let root_ := Splay key root_ in
    k ← root_key root_;
    Some (root_, (Compare key k =? 0)%Z).

(** A locator that is not bound when the answer is false: [None]. *)
Definition Find (key : Key) (root_ : Tree) : option (Tree * option Locator) :=
  '(root_, found) ← FindInternal key root_;
  if found : bool then k ← root_key root_; Some (root_, Some k)
  else Some (root_, None).

Fixpoint go_right (k : Key) (right_ : Tree) : Key :=
  match right_ with Leaf => k | Node _ k' _ r => go_right k' r end.

Fixpoint go_left (left_ : Tree) (k : Key) : Key :=
  match left_ with Leaf => k | Node l k' _ _ => go_left l k' end.

Definition FindGreatest (root_ : Tree) : option Locator :=
  match root_ with Leaf => None | Node _ k _ r => Some (go_right k r) end.

Definition FindLeast (root_ : Tree) : option Locator :=
  match root_ with Leaf => None | Node l k _ _ => Some (go_left l k) end.

Definition FindGreatestLessThan (key : Key) (root_ : Tree) : option (Tree * option Locator) :=
  if is_empty root_ then Some (root_, None)
  else
    let root_ := Splay key root_ in
    match root_ with
    | Leaf => None
    | Node l k _ _ =>
        if (Compare k key <=? 0)%Z then Some (root_, Some k) else Some (root_, FindGreatest l)
    end.

Definition FindLeastGreaterThan (key : Key) (root_ : Tree) : option (Tree * option Locator) :=
  if is_empty root_ then Some (root_, None)
  else
    let root_ := Splay key root_ in
    match root_ with
    | Leaf => None
    | Node _ k _ r =>
        if (0 <=? Compare k key)%Z then Some (root_, Some k) else Some (root_, FindLeast r)
    end.

Definition RemoveRootNode (key : Key) (root_ : Tree) : option Tree :=
  match root_ with
  | Leaf => None
  | Node Leaf _ _ r => Some r
  | Node l _ _ right_ =>
      match Splay key l with
      | Leaf => None
      | Node l' k' v' _ => Some (Node l' k' v' right_)
      end
  end.

Definition Remove (key : Key) (root_ : Tree) : option (Tree * bool) :=
  '(root_, found) ← FindInternal key root_;
  if found : bool then root_ ← RemoveRootNode key root_; Some (root_, true)
  else Some (root_, false).

(** [node_to_move] keeps its value; its children are set by [InsertInternal]. *)
Definition Move (old_key new_key : Key) (root_ : Tree) : option (Tree * bool) :=
  '(root_, found) ← FindInternal old_key root_;
  if found : bool then
    match root_ with
    | Leaf => None
    | Node _ _ value _ =>
        root_ ← RemoveRootNode old_key root_;
        let root_ := Splay new_key root_ in
        k ← root_key root_;
        let cmp := Compare new_key k in
        if (cmp =? 0)%Z then Some (root_, false)
        else root_ ← InsertInternal cmp new_key value root_; Some (root_, true)
    end
  else Some (root_, false).

(** [loc.value()], and [loc.set_value(value)], of the node that [loc] is bound to. *)
Fixpoint value (loc : Locator) (t : Tree) : option Value :=
  match t with
  | Leaf => None
  | Node l k v r =>
      if (Compare loc k =? 0)%Z then Some v
      else match value loc l with Some v => Some v | None => value loc r end
  end.

Fixpoint set_value (loc : Locator) (x : Value) (t : Tree) : Tree :=
  match t with
  | Leaf => Leaf
  | Node l k v r =>
      Node (set_value loc x l) k (if (Compare loc k =? 0)%Z then x else v) (set_value loc x r)
  end.

Fixpoint size (t : Tree) : nat :=
  match t with Leaf => 0 | Node l _ _ r => S (size l + size r) end.

(** The loop over [nodes_to_visit], whose elements before [pos] are gone: the nodes
    in the order of the calls of the callback. *)
Fixpoint visit_loop (fuel : nat) (nodes_to_visit : list Tree) : list (Key * Value) :=
  match fuel, nodes_to_visit with
  | S fuel, Node l k v r :: rest =>
      (k, v) :: visit_loop fuel (rest ++ (if is_empty l then [] else [l])
                                      ++ (if is_empty r then [] else [r]))
  | _, _ => []
  end.

Definition ForEachNode (root_ : Tree) : list (Key * Value) :=
  visit_loop (size root_) (if is_empty root_ then [] else [root_]).

End operations.

(** ** The order, and the tree as a sorted list *)

(** What a [Config] promises: [Compare] is a total order. *)
Class ConfigOk {Key : Type} (Compare : Key -> Key -> Z) : Prop := {
  Compare_eq a b : Compare a b = 0%Z <-> a = b;
  Compare_anti a b : (Compare a b < 0)%Z <-> (0 < Compare b a)%Z;
  Compare_trans a b c : (Compare a b < 0)%Z -> (Compare b c < 0)%Z -> (Compare a c < 0)%Z;
}.

Fixpoint in_order {Key Value : Type} (t : Tree Key Value) : list (Key * Value) :=
  match t with Leaf => [] | Node l k v r => in_order l ++ (k, v) :: in_order r end.

Section order.
Context {Key Value : Type} (Compare : Key -> Key -> Z).
Implicit Types (xs ys lo hi : list (Key * Value)) (p q : Key * Value).

Definition entry_lt (p q : Key * Value) : Prop := (Compare p.1 q.1 < 0)%Z.

Definition ordered (xs : list (Key * Value)) : Prop := StronglySorted entry_lt xs.

(** The entries with a smaller and with a greater key, and the value of a key. *)
Definition below (key : Key) : list (Key * Value) -> list (Key * Value) :=
  filter (fun p => Compare p.1 key < 0)%Z.

Definition above (key : Key) : list (Key * Value) -> list (Key * Value) :=
  filter (fun p => Compare key p.1 < 0)%Z.

Definition assoc (key : Key) (xs : list (Key * Value)) : option Value :=
  snd <$> find_first (fun p => Compare key p.1 =? 0)%Z xs.

Definition at_key (key : Key) (xs : list (Key * Value)) : list (Key * Value) :=
  match assoc key xs with Some v => [(key, v)] | None => [] end.

Definition update (key : Key) (x : Value) (xs : list (Key * Value)) : list (Key * Value) :=
  map (fun p => if (Compare key p.1 =? 0)%Z then (p.1, x) else p) xs.

Lemma ordered_nil : ordered [].
Proof. constructor. Qed.

Lemma ordered_cons p xs : ordered (p :: xs) <-> ordered xs /\ Forall (entry_lt p) xs.
Proof. split; [by inversion 1|]. intros []. by constructor. Qed.

Lemma ordered_app xs ys :
  ordered (xs ++ ys) <-> ordered xs /\ ordered ys /\ Forall (fun p => Forall (entry_lt p) ys) xs.
Proof.
  induction xs as [|p xs IH]; cbn.
  - split; [intros; repeat split; by try constructor|by intros (_ & ? & _)].
  - rewrite !ordered_cons, IH, Forall_app, Forall_cons. tauto.
Qed.

Context {OK : ConfigOk Compare}.

Lemma Compare_refl a : Compare a a = 0%Z.
Proof. by apply Compare_eq. Qed.

Lemma Compare_cases a b :
  (Compare a b < 0 /\ 0 < Compare b a \/ a = b \/ Compare b a < 0 /\ 0 < Compare a b)%Z.
Proof.
  destruct (Z.lt_trichotomy (Compare a b) 0) as [H|[H|H]].
  - left. split; [done|by apply Compare_anti].
  - right. left. by apply Compare_eq.
  - right. right. split; [by apply Compare_anti|done].
Qed.

Lemma below_everything key xs : Forall (fun p => Compare p.1 key < 0)%Z xs -> below key xs = xs.
Proof.
  induction 1 as [|p xs Hp _ IH]; [done|]. unfold below in *. by rewrite filter_cons_True, IH.
Qed.

Lemma above_all key xs : Forall (fun p => Compare key p.1 < 0)%Z xs -> above key xs = xs.
Proof.
  induction 1 as [|p xs Hp _ IH]; [done|]. unfold above in *. by rewrite filter_cons_True, IH.
Qed.

Lemma below_none key xs : Forall (fun p => 0 <= Compare p.1 key)%Z xs -> below key xs = [].
Proof.
  induction 1 as [|p xs Hp _ IH]; [done|]. unfold below in *. rewrite filter_cons_False; [done|lia].
Qed.

Lemma above_none key xs : Forall (fun p => 0 <= Compare key p.1)%Z xs -> above key xs = [].
Proof.
  induction 1 as [|p xs Hp _ IH]; [done|]. unfold above in *. rewrite filter_cons_False; [done|lia].
Qed.

Lemma assoc_none key xs : Forall (fun p => p.1 <> key) xs -> assoc key xs = None.
Proof.
  intros H. unfold assoc. rewrite (proj2 (find_first_None _ _)); [done|].
  intros p Hp. rewrite Forall_forall in H. specialize (H p Hp).
  apply Z.eqb_neq. rewrite Compare_eq. congruence.
Qed.

Lemma assoc_app key xs ys :
  assoc key (xs ++ ys) = match assoc key xs with Some v => Some v | None => assoc key ys end.
Proof. unfold assoc. rewrite find_first_app. by destruct (find_first _ xs). Qed.

Lemma assoc_cons key k v xs :
  assoc key ((k, v) :: xs) = if (Compare key k =? 0)%Z then Some v else assoc key xs.
Proof. unfold assoc. cbn [find_first fst]. by destruct (_ =? _)%Z. Qed.

Lemma lt_neq key xs : Forall (fun p => Compare p.1 key < 0)%Z xs -> Forall (fun p => p.1 <> key) xs.
Proof. intros H0. eapply Forall_impl; [exact H0|]. intros p H E. cbn in H. rewrite E, Compare_refl in H. lia. Qed.

Lemma gt_neq key xs : Forall (fun p => Compare key p.1 < 0)%Z xs -> Forall (fun p => p.1 <> key) xs.
Proof. intros H0. eapply Forall_impl; [exact H0|]. intros p H E. cbn in H. rewrite E, Compare_refl in H. lia. Qed.

Lemma lt_not_above key xs :
  Forall (fun p => Compare p.1 key < 0)%Z xs -> Forall (fun p => 0 <= Compare key p.1)%Z xs.
Proof. intros H0. eapply Forall_impl; [exact H0|]. intros [k v] H%Compare_anti. cbn in *. lia. Qed.

Lemma gt_not_below key xs :
  Forall (fun p => Compare key p.1 < 0)%Z xs -> Forall (fun p => 0 <= Compare p.1 key)%Z xs.
Proof. intros H0. eapply Forall_impl; [exact H0|]. intros [k v] H%Compare_anti. cbn in *. lia. Qed.

Lemma lt_entries k v key xs :
  Forall (fun p => entry_lt p (k, v)) xs -> (Compare k key < 0)%Z ->
  Forall (fun p => Compare p.1 key < 0)%Z xs.
Proof. intros H Hk. eapply Forall_impl; [exact H|]. intros p Hp. cbn. by apply (Compare_trans _ k). Qed.

Lemma gt_entries k v key xs :
  Forall (entry_lt (k, v)) xs -> (Compare key k < 0)%Z -> Forall (fun p => Compare key p.1 < 0)%Z xs.
Proof. intros H Hk. eapply Forall_impl; [exact H|]. intros p Hp. cbn. by apply (Compare_trans _ k). Qed.

Lemma Forall_entry_snoc xs k v ys :
  Forall (fun p => Forall (entry_lt p) ((k, v) :: ys)) xs -> Forall (fun p => entry_lt p (k, v)) xs.
Proof. intros H. eapply Forall_impl; [exact H|]. intros p Hp. by inversion Hp. Qed.

(** A sorted list cut at a key. *)
Lemma cut_spec key lo ov hi :
  Forall (fun p => Compare p.1 key < 0)%Z lo -> Forall (fun p => Compare key p.1 < 0)%Z hi ->
  let xs := lo ++ match ov with Some v => [(key, v)] | None => [] end ++ hi in
  below key xs = lo /\ above key xs = hi /\ assoc key xs = ov.
Proof.
  intros Hlo Hhi. cbn.
  assert (Hb : below key hi = []) by (by apply below_none, gt_not_below).
  assert (Ha : above key lo = []) by (by apply above_none, lt_not_above).
  pose proof (below_everything key lo Hlo) as Hb'. pose proof (above_all key hi Hhi) as Ha'.
  rewrite assoc_app, (assoc_none key lo) by (by apply lt_neq).
  unfold below, above in *.
  rewrite !filter_app, Hb, Hb', Ha, Ha', !app_nil_r. destruct ov as [v|]; cbn [app].
  - rewrite assoc_cons, !filter_cons_False by (cbn; rewrite Compare_refl; lia).
    rewrite !filter_nil, Compare_refl, app_nil_r. cbn. split_and!; done.
  - rewrite !filter_nil, app_nil_r. split_and!; try done. by apply assoc_none, gt_neq.
Qed.

Lemma ordered_cut key xs :
  ordered xs ->
  xs = below key xs ++ at_key key xs ++ above key xs /\
  Forall (fun p => Compare p.1 key < 0)%Z (below key xs) /\
  Forall (fun p => Compare key p.1 < 0)%Z (above key xs).
Proof.
  intros Ho. enough (exists lo ov hi, xs = lo ++ match ov with Some v => [(key, v)] | None => [] end ++ hi
    /\ Forall (fun p => Compare p.1 key < 0)%Z lo /\ Forall (fun p => Compare key p.1 < 0)%Z hi)
    as (lo & ov & hi & -> & Hlo & Hhi).
  { unfold at_key. destruct (cut_spec key lo ov hi Hlo Hhi) as (-> & -> & ->). done. }
  induction xs as [|[k v] xs IH].
  { by exists [], None, []. }
  apply ordered_cons in Ho as [Ho Hk]. destruct (Compare_cases k key) as [[H _]|[->|[H _]]].
  - destruct (IH Ho) as (lo & ov & hi & -> & Hlo & Hhi).
    exists ((k, v) :: lo), ov, hi. split_and!; [done|by constructor|done].
  - exists [], (Some v), xs. split_and!; [done|constructor|done].
  - exists [], None, ((k, v) :: xs). split_and!; [done|constructor|].
    constructor; [done|]. by eapply gt_entries.
Qed.

End order.

(** ** Splay *)

(** What the L and R trees contribute to the sorted list. *)
Fixpoint left_list {Key Value : Type} (left : list (Key * Value * Tree Key Value)) : list (Key * Value) :=
  match left with [] => [] | (k, v, l) :: rest => left_list rest ++ in_order l ++ [(k, v)] end.

Fixpoint right_list {Key Value : Type} (right : list (Key * Value * Tree Key Value)) : list (Key * Value) :=
  match right with [] => [] | (k, v, r) :: rest => (k, v) :: in_order r ++ right_list rest end.

Lemma in_order_hang_left {Key Value : Type} (left : list (Key * Value * Tree Key Value)) t :
  in_order (hang_left left t) = left_list left ++ in_order t.
Proof.
  revert t. induction left as [|[[k v] l] rest IH]; intros t; [done|].
  unfold hang_left in *. cbn [fold_left left_list]. rewrite IH. cbn [in_order].
  by rewrite <- !app_assoc.
Qed.

Lemma in_order_hang_right {Key Value : Type} (right : list (Key * Value * Tree Key Value)) t :
  in_order (hang_right right t) = in_order t ++ right_list right.
Proof.
  revert t. induction right as [|[[k v] r] rest IH]; intros t; [by cbn; rewrite app_nil_r|].
  unfold hang_right in *. cbn [fold_left right_list]. rewrite IH. cbn [in_order].
  by rewrite <- !app_assoc.
Qed.

Section splay.
Context {Key Value : Type} (Compare : Key -> Key -> Z) {OK : ConfigOk Compare}.
Implicit Types (t l r : Tree Key Value) (xs : list (Key * Value)).

Local Abbreviation before key xs := (Forall (fun p => Compare (fst p) key < 0)%Z xs).
Local Abbreviation after key xs := (Forall (fun p => Compare key (fst p) < 0)%Z xs).
Local Abbreviation sorted t := (ordered Compare (in_order t)).

(** Where the key lies relative to a tree that was splayed on it. *)
Definition splayed (key : Key) (t : Tree Key Value) : Prop :=
  match t with
  | Leaf => False
  | Node l k v r =>
      (Compare key k = 0 \/ (Compare key k < 0 /\ before key (in_order l))
       \/ (Compare k key < 0 /\ after key (in_order r)))%Z
  end.

Lemma Assemble_in_order left right t :
  t <> Leaf -> in_order (Assemble left right t) = left_list left ++ in_order t ++ right_list right.
Proof.
  destruct t as [|l k v r]; [done|]. intros _. cbn [Assemble in_order].
  rewrite in_order_hang_left, in_order_hang_right. by rewrite <- !app_assoc.
Qed.

Lemma Assemble_splayed key left right t :
  before key (left_list left) -> after key (right_list right) ->
  splayed key t -> splayed key (Assemble left right t).
Proof.
  destruct t as [|l k v r]; [done|]. cbn [Assemble splayed]. intros Hl Hr.
  rewrite in_order_hang_left, in_order_hang_right, !Forall_app. tauto.
Qed.

Lemma sorted_node l k v r :
  sorted (Node l k v r) <-> sorted l /\ sorted r /\ Forall (fun p => entry_lt Compare p (k, v)) (in_order l)
    /\ Forall (entry_lt Compare (k, v)) (in_order r)
    /\ Forall (fun p => Forall (entry_lt Compare p) (in_order r)) (in_order l).
Proof.
  cbn [in_order]. rewrite ordered_app, ordered_cons.
  assert (Forall (fun p => Forall (entry_lt Compare p) ((k, v) :: in_order r)) (in_order l) <->
    Forall (fun p => entry_lt Compare p (k, v)) (in_order l)
    /\ Forall (fun p => Forall (entry_lt Compare p) (in_order r)) (in_order l)) as ->.
  { rewrite !Forall_forall. setoid_rewrite Forall_cons. firstorder. }
  tauto.
Qed.

(** The nodes of a tree to the right of one whose key is greater, and to the left of
    one whose key is smaller. *)
Lemma after_node key l k v r :
  sorted (Node l k v r) -> (Compare key k < 0)%Z -> after key ((k, v) :: in_order r).
Proof.
  intros Hs Hk. apply sorted_node in Hs as (_ & _ & _ & Hr & _).
  constructor; [done|]. by eapply gt_entries.
Qed.

Lemma before_node key l k v r :
  sorted (Node l k v r) -> (Compare k key < 0)%Z -> before key (in_order l ++ [(k, v)]).
Proof.
  intros Hs Hk. apply sorted_node in Hs as (_ & _ & Hl & _).
  apply Forall_app. split; [by eapply lt_entries|]. by constructor.
Qed.

Definition keeps (key : Key) (left right : list (Key * Value * Tree Key Value)) t t' : Prop :=
  in_order t' = left_list left ++ in_order t ++ right_list right /\
  (sorted t -> before key (left_list left) -> after key (right_list right) -> splayed key t').

Lemma keeps_Assemble key left right t t0 :
  t <> Leaf -> in_order t = in_order t0 -> (sorted t0 -> splayed key t) ->
  keeps key left right t0 (Assemble left right t).
Proof.
  intros Ht Hin Hs. split.
  - by rewrite Assemble_in_order, Hin.
  - intros. apply Assemble_splayed; [done..|]. auto.
Qed.

Lemma keeps_link_right key left right lk lv t r t0 t' :
  in_order t0 = in_order (Node t lk lv r) -> (Compare key lk < 0)%Z ->
  keeps key left ((lk, lv, r) :: right) t t' -> keeps key left right t0 t'.
Proof.
  intros Hin Hk [Hio Hsp]. split.
  - rewrite Hio, Hin. cbn [in_order right_list]. by rewrite <- !app_assoc.
  - intros Hs Hb Ha. unfold ordered in Hs. rewrite Hin in Hs. fold (ordered Compare (in_order (Node t lk lv r))) in Hs.
    apply Hsp; [by apply sorted_node in Hs as (? & _)|done|].
    cbn [right_list]. change (after key (((lk, lv) :: in_order r) ++ right_list right)).
    apply Forall_app. split; [by eapply after_node|done].
Qed.

Lemma keeps_link_left key left right rk rv t l t0 t' :
  in_order t0 = in_order (Node l rk rv t) -> (Compare rk key < 0)%Z ->
  keeps key ((rk, rv, l) :: left) right t t' -> keeps key left right t0 t'.
Proof.
  intros Hin Hk [Hio Hsp]. split.
  - rewrite Hio, Hin. cbn [in_order left_list]. by rewrite <- !app_assoc.
  - intros Hs Hb Ha. unfold ordered in Hs. rewrite Hin in Hs. fold (ordered Compare (in_order (Node l rk rv t))) in Hs.
    apply Hsp; [by apply sorted_node in Hs as (_ & ? & _)| |done].
    cbn [left_list]. apply Forall_app. split; [done|by eapply before_node].
Qed.

Lemma rotate_right_in_order ll lk lv lr k (v : Value) r :
  in_order (Node (Node ll lk lv lr) k v r) = in_order (Node ll lk lv (Node lr k v r)).
Proof. cbn [in_order]. by rewrite <- app_assoc. Qed.

Lemma rotate_left_in_order l k (v : Value) rl rk rv rr :
  in_order (Node l k v (Node rl rk rv rr)) = in_order (Node (Node l k v rl) rk rv rr).
Proof. cbn [in_order]. by rewrite <- app_assoc. Qed.

Lemma size_ind (P : Tree Key Value -> Prop) :
  (forall t, (forall t', size t' < size t -> P t') -> P t) -> forall t, P t.
Proof.
  intros H. enough (forall n t, size t < n -> P t) as Hn by (intros t; by apply (Hn (S (size t))); lia).
  induction n as [|n IH]; intros t Ht; [lia|]. apply H. intros t' Ht'. apply IH. lia.
Qed.

Lemma splay_loop_keeps key t : forall left right,
  t <> Leaf -> keeps key left right t (splay_loop Compare key left right t).
Proof.
  induction t as [t IH] using size_ind. intros left right Ht.
  destruct t as [|l k v r]; [done|]. cbn [splay_loop].
  destruct (Z.ltb_spec (Compare key k) 0) as [Hk|Hk].
  - destruct l as [|ll lk lv lr].
    { apply keeps_Assemble; [done..|]. intros _. right. left. split; [done|]. constructor. }
    destruct (Z.ltb_spec (Compare key lk) 0) as [Hlk|Hlk].
    + destruct ll as [|a b c d].
      { apply keeps_Assemble; [done|by rewrite rotate_right_in_order|]. intros _.
        right. left. split; [done|]. constructor. }
      eapply keeps_link_right; [apply rotate_right_in_order|done|].
      apply IH; [cbn; lia|done].
    + eapply keeps_link_right; [done|done|]. apply IH; [cbn; lia|done].
  - destruct (Z.ltb_spec 0 (Compare key k)) as [Hk'|Hk'].
    + apply (Compare_anti (Compare := Compare)) in Hk'. destruct r as [|rl rk rv rr].
      { apply keeps_Assemble; [done..|]. intros _. right. right. split; [done|]. constructor. }
      destruct (Z.ltb_spec 0 (Compare key rk)) as [Hrk|Hrk].
      * apply (Compare_anti (Compare := Compare)) in Hrk. destruct rr as [|a b c d].
        { apply keeps_Assemble; [done|by rewrite rotate_left_in_order|]. intros _.
          right. right. split; [done|]. constructor. }
        eapply keeps_link_left; [apply rotate_left_in_order|done|].
        apply IH; [cbn; lia|done].
      * eapply keeps_link_left; [done|done|]. apply IH; [cbn; lia|done].
    + apply keeps_Assemble; [done..|]. intros _. left. lia.
Qed.

Lemma Splay_in_order key t : in_order (Splay Compare key t) = in_order t.
Proof.
  destruct t as [|l k v r]; [done|]. unfold Splay. cbn [is_empty].
  destruct (splay_loop_keeps key (Node l k v r) [] []) as [-> _]; [done|].
  cbn [left_list right_list]. by rewrite app_nil_r.
Qed.

Lemma Splay_splayed key t : t <> Leaf -> sorted t -> splayed key (Splay Compare key t).
Proof.
  intros Ht Hs. unfold Splay. destruct t as [|l k v r]; [done|]. cbn [is_empty].
  destruct (splay_loop_keeps key (Node l k v r) [] []) as [_ H]; [done|]. by apply H; [|constructor..].
Qed.

(** The tree splayed on a key, as the list cut at the key. *)
Inductive root_at (key : Key) xs : Tree Key Value -> Prop :=
  | root_equal l v r :
      assoc Compare key xs = Some v -> in_order l = below Compare key xs ->
      in_order r = above Compare key xs -> root_at key xs (Node l key v r)
  | root_greater l k v r :
      (Compare key k < 0)%Z -> assoc Compare key xs = None -> in_order l = below Compare key xs ->
      (k, v) :: in_order r = above Compare key xs -> root_at key xs (Node l k v r)
  | root_less l k v r :
      (Compare k key < 0)%Z -> assoc Compare key xs = None -> in_order l ++ [(k, v)] = below Compare key xs ->
      in_order r = above Compare key xs -> root_at key xs (Node l k v r).

Lemma splayed_root_at key t : sorted t -> splayed key t -> root_at key (in_order t) t.
Proof.
  destruct t as [|l k v r]; [done|]. intros Hs Hsp.
  pose proof (cut_spec (Value := Value) Compare key) as Hcut. cbn [in_order].
  destruct Hsp as [H|[[H Hl]|[H Hr]]].
  - apply (Compare_eq (Compare := Compare)) in H as ->.
    apply sorted_node in Hs as (_ & _ & Hl & Hr & _).
    assert (before k (in_order l)) as Hl' by exact Hl. assert (after k (in_order r)) as Hr' by exact Hr.
    destruct (Hcut (in_order l) (Some v) (in_order r) Hl' Hr') as (H1 & H2 & H3).
    by apply root_equal.
  - pose proof (after_node _ _ _ _ _ Hs H) as Hr.
    destruct (Hcut (in_order l) None ((k, v) :: in_order r) Hl Hr) as (H1 & H2 & H3).
    by apply root_greater.
  - pose proof (before_node _ _ _ _ _ Hs H) as Hl.
    destruct (Hcut (in_order l ++ [(k, v)]) None (in_order r) Hl Hr) as (H1 & H2 & H3).
    rewrite <- app_assoc in H1, H2, H3. by apply root_less.
Qed.

Lemma Splay_root_at key t : t <> Leaf -> sorted t -> root_at key (in_order t) (Splay Compare key t).
Proof.
  intros Ht Hs. rewrite <- (Splay_in_order key t). apply splayed_root_at.
  - by rewrite Splay_in_order.
  - by apply Splay_splayed.
Qed.

End splay.

(** ** The operations on the sorted list *)

Section specifications.
Context {Key Value : Type} (Compare : Key -> Key -> Z) {OK : ConfigOk Compare} (kNoValue : Value).
Implicit Types (t l r : Tree Key Value) (xs : list (Key * Value)).

Local Abbreviation sorted t := (ordered Compare (in_order t)).
Local Abbreviation below := (below Compare).
Local Abbreviation above := (above Compare).
Local Abbreviation assoc := (assoc Compare).

Lemma sorted_Splay key t : sorted t -> sorted (Splay Compare key t).
Proof. by rewrite Splay_in_order. Qed.

Lemma FindInternal_spec key t :
  sorted t ->
  exists t', FindInternal Compare key t = Some (t', bool_decide (is_Some (assoc key (in_order t))))
    /\ in_order t' = in_order t
    /\ (is_Some (assoc key (in_order t)) -> root_at Compare key (in_order t) t').
Proof.
  intros Hs. unfold FindInternal. destruct t as [|l k v r] eqn:Et.
  { exists Leaf. split_and!; [done..|]. by intros [? [=]]. }
  rewrite <- Et in *. assert (t <> Leaf) as Hne by by subst.
  assert (is_empty t = false) as -> by by subst.
  pose proof (Splay_root_at Compare key t Hne Hs) as Hr. pose proof (Splay_in_order Compare key t) as Hi.
  clear Et l k v r. exists (Splay Compare key t).
  assert (forall b, is_Some (root_key (Splay Compare key t)) /\
    (match root_key (Splay Compare key t) with Some k => (Compare key k =? 0)%Z | None => b end)
    = bool_decide (is_Some (assoc key (in_order t)))) as H.
  { intros b. destruct Hr as [l' v' r' Ha _ _|l' k' v' r' Hk Ha _ _|l' k' v' r' Hk Ha _ _]; rewrite Ha; cbn [root_key].
    - rewrite Compare_refl by done. split; [eauto|]. by rewrite bool_decide_true by eauto.
    - split; [eauto|]. rewrite bool_decide_false by (by intros [? [=]]). apply Z.eqb_neq. lia.
    - split; [eauto|]. rewrite bool_decide_false by (by intros [? [=]]). apply Z.eqb_neq.
      apply (Compare_anti (Compare := Compare)) in Hk. lia. }
  destruct (H false) as [[k Hk] Hb]. cbv zeta. rewrite Hk in *. cbn. rewrite Hb. done.
Qed.

Lemma Find_spec key t :
  sorted t ->
  exists t', Find Compare key t = Some (t', (fun _ => key) <$> assoc key (in_order t))
    /\ in_order t' = in_order t.
Proof.
  intros Hs. destruct (FindInternal_spec key t Hs) as (t' & E & Hi & Hr).
  exists t'. unfold Find. rewrite E. cbn. split; [|done].
  destruct (assoc key (in_order t)) as [v|] eqn:Ea; [|done].
  rewrite bool_decide_true by eauto.
  destruct Hr as [l' v' r' Ha _ _|l' k' v' r' Hk Ha _ _|l' k' v' r' Hk Ha _ _]; [eauto|done|congruence..].
Qed.

Lemma Insert_spec key t :
  sorted t ->
  exists t', Insert Compare kNoValue key t = Some (t', bool_decide (assoc key (in_order t) = None), key)
    /\ in_order t' = below key (in_order t) ++ (key, default kNoValue (assoc key (in_order t)))
                       :: above key (in_order t).
Proof.
  intros Hs. unfold Insert. destruct t as [|l k v r] eqn:Et.
  { by exists (Node Leaf key kNoValue Leaf). }
  rewrite <- Et in *. assert (t <> Leaf) as Hne by by subst.
  assert (is_empty t = false) as -> by by subst.
  pose proof (Splay_root_at Compare key t Hne Hs) as Hr. clear Et l k v r. cbv zeta.
  destruct Hr as [l v r Ha Hl Hr|l k v r Hk Ha Hl Hr|l k v r Hk Ha Hl Hr];
    rewrite Ha; cbn [root_key InsertInternal mbind option_bind from_option id].
  - rewrite Compare_refl by done. cbn. eexists. split; [done|]. cbn [in_order]. by rewrite Hl, Hr.
  - rewrite (proj2 (Z.eqb_neq _ _)), (proj2 (Z.ltb_ge _ _)) by lia. cbn.
    eexists. split; [done|]. cbn [in_order]. by rewrite Hl, <- Hr.
  - apply (Compare_anti (Compare := Compare)) in Hk.
    rewrite (proj2 (Z.eqb_neq _ _)), (proj2 (Z.ltb_lt _ _)) by lia. cbn.
    eexists. split; [done|]. cbn [in_order]. by rewrite <- Hl, Hr, <- app_assoc.
Qed.

Lemma go_right_last k (v : Value) t xs :
  Some (go_right k t) = fst <$> last (xs ++ (k, v) :: in_order t).
Proof.
  revert k v xs. induction t as [|l _ k' v' r IH]; intros k v xs; cbn [go_right in_order].
  - by rewrite last_snoc.
  - rewrite (IH k' v' (xs ++ (k, v) :: in_order l)). by rewrite <- app_assoc.
Qed.

Lemma go_left_head k (v : Value) t xs :
  Some (go_left t k) = fst <$> head (in_order t ++ (k, v) :: xs).
Proof.
  revert k v xs. induction t as [|l IH k' v' r _]; intros k v xs; cbn [go_left in_order]; [done|].
  rewrite (IH k' v' (in_order r ++ (k, v) :: xs)). by rewrite <- app_assoc.
Qed.

Lemma FindGreatest_spec t : FindGreatest t = fst <$> last (in_order t).
Proof. destruct t as [|l k v r]; [done|]. apply go_right_last. Qed.

Lemma FindLeast_spec t : FindLeast t = fst <$> head (in_order t).
Proof. destruct t as [|l k v r]; [done|]. apply go_left_head. Qed.

Lemma FindGreatestLessThan_spec key t :
  sorted t ->
  exists t', FindGreatestLessThan Compare key t
             = Some (t', fst <$> last (below key (in_order t) ++ at_key Compare key (in_order t)))
    /\ in_order t' = in_order t.
Proof.
  intros Hs. unfold FindGreatestLessThan. destruct t as [|l k v r] eqn:Et; [by exists Leaf|].
  rewrite <- Et in *. assert (t <> Leaf) as Hne by by subst.
  assert (is_empty t = false) as -> by by subst.
  pose proof (Splay_root_at Compare key t Hne Hs) as Hr. pose proof (Splay_in_order Compare key t) as Hi.
  exists (Splay Compare key t). split; [|done]. clear Et l k v r Hi. cbv zeta. unfold at_key.
  destruct Hr as [l v r Ha Hl Hr|l k v r Hk Ha Hl Hr|l k v r Hk Ha Hl Hr]; rewrite Ha.
  - rewrite Compare_refl, last_snoc by done. done.
  - apply (Compare_anti (Compare := Compare)) in Hk.
    rewrite (proj2 (Z.leb_gt _ _)), app_nil_r, <- Hl, FindGreatest_spec by lia. done.
  - rewrite (proj2 (Z.leb_le _ _)), app_nil_r, <- Hl, last_snoc by lia. done.
Qed.

Lemma FindLeastGreaterThan_spec key t :
  sorted t ->
  exists t', FindLeastGreaterThan Compare key t
             = Some (t', fst <$> head (at_key Compare key (in_order t) ++ above key (in_order t)))
    /\ in_order t' = in_order t.
Proof.
  intros Hs. unfold FindLeastGreaterThan. destruct t as [|l k v r] eqn:Et; [by exists Leaf|].
  rewrite <- Et in *. assert (t <> Leaf) as Hne by by subst.
  assert (is_empty t = false) as -> by by subst.
  pose proof (Splay_root_at Compare key t Hne Hs) as Hr. pose proof (Splay_in_order Compare key t) as Hi.
  exists (Splay Compare key t). split; [|done]. clear Et l k v r Hi. cbv zeta. unfold at_key.
  destruct Hr as [l v r Ha Hl Hr|l k v r Hk Ha Hl Hr|l k v r Hk Ha Hl Hr]; rewrite Ha.
  - rewrite Compare_refl by done. done.
  - apply (Compare_anti (Compare := Compare)) in Hk.
    rewrite (proj2 (Z.leb_le _ _)) by lia. cbn [app]. by rewrite <- Hr.
  - rewrite (proj2 (Z.leb_gt _ _)) by lia. cbn [app]. by rewrite <- Hr, FindLeast_spec.
Qed.

(** After the node of the key was found. *)
Lemma RemoveRootNode_spec key t l v r :
  sorted t -> t = Node l key v r ->
  exists t', RemoveRootNode Compare key t = Some t' /\ in_order t' = in_order l ++ in_order r.
Proof.
  intros Hs ->. apply sorted_node in Hs as (Hl & _ & Hlt & _); [|done].
  destruct l as [|ll lk lv lr] eqn:El; [by exists r|].
  cbn [RemoveRootNode]. rewrite <- El in *. assert (l <> Leaf) as Hne by by subst. clear El ll lk lv lr.
  assert (Forall (fun p => Compare p.1 key < 0)%Z (in_order l)) as Hb by exact Hlt.
  destruct (cut_spec Compare key (in_order l) None [] Hb ltac:(constructor)) as (_ & Hab & Has).
  cbn [app] in *. rewrite app_nil_r in *.
  pose proof (Splay_root_at Compare key l Hne Hl) as Hr. pose proof (Splay_in_order Compare key l) as Hi.
  destruct Hr as [l' v' r' Ha _ _|l' k' v' r' Hk Ha _ Hr|l' k' v' r' Hk Ha _ Hr].
  - congruence.
  - rewrite Hab in Hr. discriminate.
  - rewrite Hab in Hr. exists (Node l' k' v' r). split; [done|].
    rewrite <- Hi. cbn [in_order]. rewrite Hr. by rewrite <- app_assoc.
Qed.

End specifications.

Section more_specifications.
Context {Key Value : Type} (Compare : Key -> Key -> Z) {OK : ConfigOk Compare} (kNoValue : Value).
Implicit Types (t l r : Tree Key Value) (xs ys : list (Key * Value)).

Local Abbreviation sorted t := (ordered Compare (in_order t)).
Local Abbreviation below := (below Compare).
Local Abbreviation above := (above Compare).
Local Abbreviation assoc := (assoc Compare).

Lemma below_above key xs : ordered Compare xs -> assoc key xs = None -> below key xs ++ above key xs = xs.
Proof.
  intros Ho Ha. destruct (ordered_cut Compare key xs Ho) as (Hx & _).
  unfold at_key in Hx. by rewrite Ha in Hx.
Qed.

Lemma ordered_replace key x xs :
  ordered Compare xs -> ordered Compare (below key xs ++ (key, x) :: above key xs).
Proof.
  intros Ho. destruct (ordered_cut Compare key xs Ho) as (Hx & Hb & Ha).
  rewrite Hx in Ho. apply ordered_app in Ho as (Ho1 & Ho2 & Ho3). apply ordered_app in Ho2 as (_ & Ho2 & _).
  apply ordered_app. split_and!; [done|rewrite ordered_cons; by split|].
  rewrite Forall_forall in *. intros p Hp. specialize (Hb p Hp). specialize (Ho3 p Hp).
  apply Forall_app in Ho3 as [_ Ho3]. by constructor.
Qed.

Lemma ordered_remove key xs : ordered Compare xs -> ordered Compare (below key xs ++ above key xs).
Proof.
  intros Ho. destruct (ordered_cut Compare key xs Ho) as (Hx & _).
  rewrite Hx in Ho. apply ordered_app in Ho as (Ho1 & Ho2 & Ho3). apply ordered_app in Ho2 as (_ & Ho2 & _).
  apply ordered_app. split_and!; [done..|].
  rewrite Forall_forall in *. intros p Hp. specialize (Ho3 p Hp). by apply Forall_app in Ho3 as [_ Ho3].
Qed.

(** *** What a key is bound to after an update *)

Lemma assoc_replace key key' x xs :
  ordered Compare xs ->
  assoc key' (below key xs ++ (key, x) :: above key xs)
  = if (Compare key' key =? 0)%Z then Some x else assoc key' xs.
Proof.
  intros Ho. destruct (ordered_cut Compare key xs Ho) as (Hx & Hb & Ha).
  rewrite assoc_app, assoc_cons. destruct (Z.eqb_spec (Compare key' key) 0) as [E|E].
  - apply (Compare_eq (Compare := Compare)) in E as ->.
    rewrite assoc_none by (done || by apply (lt_neq Compare)). done.
  - transitivity (assoc key' (below key xs ++ at_key Compare key xs ++ above key xs)); [|by rewrite <- Hx]. rewrite !assoc_app. unfold at_key. destruct (assoc key xs) as [v|]; [|done].
    rewrite assoc_cons. rewrite (proj2 (Z.eqb_neq _ _) E). done.
Qed.

Lemma assoc_remove key key' xs :
  ordered Compare xs ->
  assoc key' (below key xs ++ above key xs) = if (Compare key' key =? 0)%Z then None else assoc key' xs.
Proof.
  intros Ho. destruct (ordered_cut Compare key xs Ho) as (Hx & Hb & Ha).
  rewrite assoc_app. destruct (Z.eqb_spec (Compare key' key) 0) as [E|E].
  - apply (Compare_eq (Compare := Compare)) in E as ->.
    rewrite (assoc_none Compare key (below key xs)), (assoc_none Compare key (above key xs)); [done..| |]; [by apply (gt_neq Compare)|by apply (lt_neq Compare)].
  - transitivity (assoc key' (below key xs ++ at_key Compare key xs ++ above key xs)); [|by rewrite <- Hx]. rewrite !assoc_app. unfold at_key. destruct (assoc key xs) as [v|]; [|done].
    rewrite assoc_cons. rewrite (proj2 (Z.eqb_neq _ _) E). done.
Qed.

Lemma update_keys key x xs : fst <$> update Compare key x xs = fst <$> xs.
Proof.
  unfold update. induction xs as [|[k v] xs IH]; [done|]. cbn in *. rewrite IH. by destruct (_ =? _)%Z.
Qed.

Lemma ordered_keys xs ys : fst <$> xs = fst <$> ys -> ordered Compare xs -> ordered Compare ys.
Proof.
  revert ys. induction xs as [|p xs IH]; intros [|q ys]; cbn; try done.
  intros [= Hp Hk] [Ho Hall]%ordered_cons. apply ordered_cons. split; [by apply IH|].
  clear IH Ho. revert ys Hk. induction Hall as [|p' xs Hp' _ IH]; intros [|q' ys]; cbn; try done.
  intros [= Hq Hk]. constructor; [|by apply IH]. unfold entry_lt in *. congruence.
Qed.

Lemma ordered_update key x xs : ordered Compare xs -> ordered Compare (update Compare key x xs).
Proof. apply ordered_keys. by rewrite update_keys. Qed.

Lemma assoc_update key key' x xs :
  assoc key' (update Compare key x xs)
  = if (Compare key' key =? 0)%Z then (fun _ => x) <$> assoc key xs else assoc key' xs.
Proof.
  unfold update. induction xs as [|[k v] xs IH]; cbn [map fst].
  - by destruct (_ =? _)%Z.
  - destruct (Z.eqb_spec (Compare key' key) 0) as [E|E].
    + apply (Compare_eq (Compare := Compare)) in E as ->.
      destruct (Z.eqb_spec (Compare key k) 0) as [E|E]; rewrite !assoc_cons.
      * by rewrite E.
      * by rewrite (proj2 (Z.eqb_neq _ _) E), IH.
    + destruct (Z.eqb_spec (Compare key k) 0) as [Ek|Ek]; rewrite !assoc_cons, IH; [|done].
      apply (Compare_eq (Compare := Compare)) in Ek as <-. by rewrite (proj2 (Z.eqb_neq _ _) E).
Qed.

(** *** Values, removal, moves, visits *)

Lemma value_spec loc t : sorted t -> value Compare loc t = assoc loc (in_order t).
Proof.
  induction t as [|l IHl k v r IHr]; [done|]. intros (Hl & Hr & Hlt & _)%sorted_node; [|done].
  cbn [value in_order]. rewrite assoc_app, assoc_cons, IHl, IHr by done.
  destruct (Z.eqb_spec (Compare loc k) 0) as [E|E]; [|done].
  apply (Compare_eq (Compare := Compare)) in E as ->.
  rewrite assoc_none; [done..|]. by apply (lt_neq Compare).
Qed.

Lemma set_value_in_order loc x t : in_order (set_value Compare loc x t) = update Compare loc x (in_order t).
Proof.
  unfold update. induction t as [|l IHl k v r IHr]; [done|]. cbn [set_value in_order].
  rewrite IHl, IHr, map_app. cbn. by destruct (_ =? _)%Z.
Qed.

Lemma tree_Remove_spec key t :
  sorted t ->
  exists t', Remove Compare key t = Some (t', bool_decide (is_Some (assoc key (in_order t))))
    /\ in_order t' = below key (in_order t) ++ above key (in_order t).
Proof.
  intros Hs. destruct (FindInternal_spec Compare key t Hs) as (t' & E & Hi & Hr).
  unfold Remove. rewrite E. cbn. case_bool_decide as Hd.
  - specialize (Hr Hd). destruct Hd as [v0 Hv]. rewrite <- Hi in Hs.
    destruct Hr as [l' v' r' Ha Hl Hr|l' k' v' r' Hk Ha _ _|l' k' v' r' Hk Ha _ _]; [|congruence..].
    destruct (RemoveRootNode_spec Compare key _ l' v' r' Hs eq_refl) as (t'' & -> & Hi').
    exists t''. split; [done|]. by rewrite Hi', Hl, Hr.
  - exists t'. split; [done|]. rewrite Hi, below_above; [done..|].
    destruct (assoc key (in_order t)); [|done]. exfalso. eauto.
Qed.

Definition is_nil xs : bool := match xs with [] => true | _ :: _ => false end.

(** [Move] on the list: the entry goes from the one key to the other, and is dropped when the other has an entry. *)
Definition list_move (old_key new_key : Key) xs : list (Key * Value) * bool :=
  match assoc old_key xs with
  | None => (xs, false)
  | Some v =>
      let rest := below old_key xs ++ above old_key xs in
      match assoc new_key rest with
      | Some _ => (rest, false)
      | None => (below new_key rest ++ (new_key, v) :: above new_key rest, true)
      end
  end.

(** The key is the key of the only entry. *)
Definition only_entry (key : Key) xs : bool :=
  match assoc key xs with
  | None => false
  | Some _ => is_nil (below key xs ++ above key xs)
  end.

Lemma Move_spec old_key new_key t :
  sorted t ->
  (fun '(t, b) => (in_order t, b)) <$> Move Compare old_key new_key t
  = if only_entry old_key (in_order t) then None else Some (list_move old_key new_key (in_order t)).
Proof.
  intros Hs. destruct (FindInternal_spec Compare old_key t Hs) as (t' & E & Hi & Hr).
  unfold Move, list_move, only_entry. rewrite E. cbn. case_bool_decide as Hd; cbn.
  2: { destruct (assoc old_key (in_order t)); [exfalso; eauto|by rewrite Hi]. }
  specialize (Hr Hd). destruct Hd as [v0 Hv]. rewrite <- Hi in Hs.
  destruct Hr as [l' v' r' Ha Hl Hr|l' k' v' r' Hk Ha _ _|l' k' v' r' Hk Ha _ _]; [|congruence..].
  destruct (RemoveRootNode_spec Compare old_key _ l' v' r' Hs eq_refl) as (t'' & -> & Hi').
  rewrite Ha, <- Hl, <- Hr, <- Hi'.
  assert (Hs'' : sorted t'').
  { rewrite Hi', Hl, Hr, <- Hi. by apply ordered_remove. }
  clear Hi' E Ha Hl Hr Hs Hi Hv. cbn [mbind option_bind]. cbv zeta.
  assert (t'' = Leaf \/ t'' <> Leaf /\ is_nil (in_order t'') = false) as [->|[Hne Hne']].
  { destruct t'' as [|a b c d]; [by left|right]. split; [done|]. cbn. by destruct (in_order a). }
  { done. }
  rewrite Hne'. clear Hne'.
  pose proof (Splay_root_at Compare new_key t'' Hne Hs'') as Hr. pose proof (Splay_in_order Compare new_key t'') as Hi.
  destruct Hr as [l v r Ha Hl Hr|l k v r Hk Ha Hl Hr|l k v r Hk Ha Hl Hr];
    rewrite Ha; cbn [root_key mbind option_bind InsertInternal fmap option_fmap option_map].
  - rewrite Compare_refl by done. cbn. by rewrite <- Hi.
  - rewrite (proj2 (Z.eqb_neq _ _)), (proj2 (Z.ltb_ge _ _)) by lia. cbn. by rewrite Hl, <- Hr.
  - apply (Compare_anti (Compare := Compare)) in Hk.
    rewrite (proj2 (Z.eqb_neq _ _)), (proj2 (Z.ltb_lt _ _)) by lia. cbn.
    by rewrite <- Hl, Hr, <- app_assoc.
Qed.

Lemma length_in_order t : length (in_order t) = size t.
Proof. induction t as [|l IHl k v r IHr]; [done|]. cbn [in_order size]. rewrite length_app. cbn. lia. Qed.

Lemma visit_loop_spec fuel nodes :
  Forall (fun t => is_empty t = false) nodes ->
  (sum_list_with size nodes <= fuel)%nat -> visit_loop fuel nodes ≡ₚ concat (in_order <$> nodes).
Proof.
  revert nodes. induction fuel as [|fuel IH]; intros nodes Hne Hf.
  - destruct Hne as [|t nodes Ht _]; [done|]. destruct t; [done|]. cbn in Hf. lia.
  - destruct Hne as [|t nodes Ht Hne]; [done|]. destruct t as [|l k v r]; [done|].
    cbn [visit_loop fmap list_fmap concat in_order]. cbn [sum_list_with foldr size compose] in Hf.
    rewrite IH.
    + rewrite !fmap_app, !concat_app.
      assert (forall t : Tree Key Value, concat (in_order <$> (if is_empty t then [] else [t])) = in_order t) as Hc.
      { intros [|a b c d]; [done|]. cbn. by rewrite app_nil_r. }
      rewrite !Hc. solve_Permutation.
    + rewrite !Forall_app. split_and!; [done| |]; [destruct (is_empty l) eqn:E|destruct (is_empty r) eqn:E]; by repeat constructor.
    + rewrite !sum_list_with_app.
      assert (forall t : Tree Key Value, sum_list_with size (if is_empty t then [] else [t]) = size t) as Hc.
      { intros [|a b c d]; [done|]. cbn. lia. }
      rewrite !Hc. lia.
Qed.

Lemma ForEachNode_Permutation t : ForEachNode t ≡ₚ in_order t.
Proof.
  unfold ForEachNode. destruct t as [|l k v r] eqn:E; [done|]. rewrite <- E.
  assert (is_empty t = false) as -> by by subst.
  rewrite visit_loop_spec; [cbn; by rewrite app_nil_r| |cbn; lia]. constructor; [by subst|constructor].
Qed.

End more_specifications.

(** ** Refinement of a sorted association list *)

Inductive Op {Key Value : Type} :=
  | OpInsert (key : Key)
  | OpFind (key : Key)
  | OpFindGreatestLessThan (key : Key)
  | OpFindLeastGreaterThan (key : Key)
  | OpFindGreatest
  | OpFindLeast
  | OpMove (old_key new_key : Key)
  | OpRemove (key : Key)
  | OpValue (loc : Key)
  | OpSetValue (loc : Key) (x : Value).
Arguments Op : clear implicits.

Inductive Answer {Key Value : Type} :=
  | ABool (b : bool)
  | ALocator (loc : option Key)
  | AInserted (b : bool) (loc : Key)
  | AValue (v : option Value).
Arguments Answer : clear implicits.

Section refinement.
Context {Key Value : Type} (Compare : Key -> Key -> Z) (kNoValue : Value).
Local Abbreviation Answer := (Answer Key Value).

Definition tree_step (op : Op Key Value) (t : Tree Key Value) : option (Tree Key Value * Answer) :=
  match op with
  | OpInsert key => '(t, b, loc) ← Insert Compare kNoValue key t; Some (t, AInserted b loc)
  | OpFind key => '(t, loc) ← Find Compare key t; Some (t, ALocator loc)
  | OpFindGreatestLessThan key => '(t, loc) ← FindGreatestLessThan Compare key t; Some (t, ALocator loc)
  | OpFindLeastGreaterThan key => '(t, loc) ← FindLeastGreaterThan Compare key t; Some (t, ALocator loc)
  | OpFindGreatest => Some (t, ALocator (FindGreatest t))
  | OpFindLeast => Some (t, ALocator (FindLeast t))
  | OpMove old_key new_key => '(t, b) ← Move Compare old_key new_key t; Some (t, ABool b)
  | OpRemove key => '(t, b) ← Remove Compare key t; Some (t, ABool b)
  | OpValue loc => Some (t, AValue (value Compare loc t))
  | OpSetValue loc x => Some (set_value Compare loc x t, ABool true)
  end.

(** The same operations on a list of entries in the order of their keys. *)
Definition list_step (op : Op Key Value) (xs : list (Key * Value)) : list (Key * Value) * Answer :=
  let below key := below Compare key xs in
  let above key := above Compare key xs in
  let assoc key := assoc Compare key xs in
  let at_key key := at_key Compare key xs in
  match op with
  | OpInsert key =>
      (below key ++ (key, default kNoValue (assoc key)) :: above key, AInserted (bool_decide (assoc key = None)) key)
  | OpFind key => (xs, ALocator ((fun _ => key) <$> assoc key))
  | OpFindGreatestLessThan key => (xs, ALocator (fst <$> last (below key ++ at_key key)))
  | OpFindLeastGreaterThan key => (xs, ALocator (fst <$> head (at_key key ++ above key)))
  | OpFindGreatest => (xs, ALocator (fst <$> last xs))
  | OpFindLeast => (xs, ALocator (fst <$> head xs))
  | OpMove old_key new_key => let '(xs, b) := list_move Compare old_key new_key xs in (xs, ABool b)
  | OpRemove key => (below key ++ above key, ABool (bool_decide (is_Some (assoc key))))
  | OpValue loc => (xs, AValue (assoc loc))
  | OpSetValue loc x => (update Compare loc x xs, ABool true)
  end.

(** The operation moves the only entry of the list. *)
Definition moves_only_entry (op : Op Key Value) (xs : list (Key * Value)) : bool :=
  match op with OpMove old_key _ => only_entry Compare old_key xs | _ => false end.

Fixpoint run (ops : list (Op Key Value)) (t : Tree Key Value) : option (Tree Key Value * list Answer) :=
  match ops with
  | [] => Some (t, [])
  | op :: ops =>
      '(t, a) ← tree_step op t;
      '(t, answers) ← run ops t;
      Some (t, a :: answers)
  end.

Fixpoint list_run (ops : list (Op Key Value)) (xs : list (Key * Value)) : list (Key * Value) * list Answer :=
  match ops with
  | [] => (xs, [])
  | op :: ops =>
      let '(xs, a) := list_step op xs in
      let '(xs, answers) := list_run ops xs in
      (xs, a :: answers)
  end.

(** One of the operations moves the only entry of the list that it finds. *)
Fixpoint some_moves_only_entry (ops : list (Op Key Value)) (xs : list (Key * Value)) : bool :=
  match ops with
  | [] => false
  | op :: ops => moves_only_entry op xs || some_moves_only_entry ops (fst (list_step op xs))
  end.

Context {OK : ConfigOk Compare}.
Implicit Types (xs : list (Key * Value)) (t : Tree Key Value).

Lemma tree_step_refines op t :
  ordered Compare (in_order t) ->
  (fun '(t, a) => (in_order t, a)) <$> tree_step op t
  = if moves_only_entry op (in_order t) then None else Some (list_step op (in_order t)).
Proof.
  intros Hs. destruct op as [key|key|key|key| | |old_key new_key|key|loc|loc x]; cbn [tree_step list_step moves_only_entry].
  - by destruct (Insert_spec Compare kNoValue key t Hs) as (t' & -> & <-).
  - by destruct (Find_spec Compare key t Hs) as (t' & -> & <-).
  - by destruct (FindGreatestLessThan_spec Compare key t Hs) as (t' & -> & <-).
  - by destruct (FindLeastGreaterThan_spec Compare key t Hs) as (t' & -> & <-).
  - by rewrite FindGreatest_spec.
  - by rewrite FindLeast_spec.
  - pose proof (Move_spec Compare old_key new_key t Hs) as H.
    destruct (only_entry Compare old_key (in_order t)), (Move _ _ _ t) as [[t' b]|]; cbn in *; try done.
    by injection H as <-.
  - by destruct (tree_Remove_spec Compare key t Hs) as (t' & -> & <-).
  - by rewrite value_spec.
  - cbn [fmap option_fmap option_map]. by rewrite set_value_in_order.
Qed.

Lemma list_move_ordered old_key new_key xs :
  ordered Compare xs -> ordered Compare (fst (list_move Compare old_key new_key xs)).
Proof.
  intros Ho. unfold list_move. destruct (assoc _ old_key xs) as [v|]; [|done].
  pose proof (ordered_remove Compare old_key xs Ho) as Ho'. cbv zeta.
  destruct (assoc _ new_key _) as [w|]; [done|]. by apply ordered_replace.
Qed.

Lemma list_step_ordered op xs : ordered Compare xs -> ordered Compare (fst (list_step op xs)).
Proof.
  intros Ho. destruct op as [key|key|key|key| | |old_key new_key|key|loc|loc x]; cbn [list_step fst]; try done.
  - by apply ordered_replace.
  - pose proof (list_move_ordered old_key new_key xs Ho). by destruct (list_move _ _ _ xs).
  - by apply ordered_remove.
  - by apply ordered_update.
Qed.

Lemma run_refines ops t :
  ordered Compare (in_order t) ->
  if some_moves_only_entry ops (in_order t) then run ops t = None
  else exists t', run ops t = Some (t', snd (list_run ops (in_order t)))
    /\ in_order t' = fst (list_run ops (in_order t)) /\ ordered Compare (in_order t').
Proof.
  revert t. induction ops as [|op ops IH]; intros t Hs; [by exists t|]. cbn [run some_moves_only_entry list_run].
  pose proof (tree_step_refines op t Hs) as Hstep. pose proof (list_step_ordered op _ Hs) as Hs'.
  destruct (moves_only_entry op (in_order t)), (tree_step op t) as [[t' a]|]; cbn in *; try done.
  injection Hstep as Hstep. rewrite <- Hstep in *. cbn in *. specialize (IH t' Hs').
  destruct (some_moves_only_entry ops (in_order t')); [by rewrite IH|].
  destruct IH as (t'' & -> & H1 & H2). exists t''. by destruct (list_run ops (in_order t')).
Qed.

(** C24: For any order that keeps the laws of a Config, any sequence of operations of SplayTree, started with an
    empty tree, leaves the entries that the same operations on a sorted association list leave, in the order of
    their keys, and gives the same answers, however the tree is restructured, unless one of the operations is a
    [Move] of the only entry of the tree, of which splay-tree.h promises the same: then, and only then, the
    sequence ends with an access through a null pointer ([Move_only_node]). *)
Theorem SplayTree_refines ops :
  if some_moves_only_entry ops [] then run ops Leaf = None
  else exists t, run ops Leaf = Some (t, snd (list_run ops []))
    /\ in_order t = fst (list_run ops []) /\ ordered Compare (in_order t).
Proof. apply (run_refines ops Leaf). constructor. Qed.

(** ForEach and the destructor visit every node of the tree once, and the
    queue of ForEachNode becomes empty. *)
Theorem ForEachNode_visits_once t :
  ordered Compare (in_order t) -> ForEachNode t ≡ₚ in_order t /\ NoDup (fst <$> ForEachNode t).
Proof.
  intros Hs. split; [apply ForEachNode_Permutation|].
  rewrite (ForEachNode_Permutation t). induction (in_order t) as [|[k v] xs IH]; [constructor|].
  apply ordered_cons in Hs as [Hs Hall]. constructor; [|by apply IH].
  intros ([k' v'] & Hk & Hin)%list_elem_of_fmap. cbn in Hk. subst k'. rewrite Forall_forall in Hall.
  specialize (Hall _ Hin). unfold entry_lt in Hall. cbn in Hall. rewrite Compare_refl in Hall by done. lia.
Qed.

End refinement.

(** [CodeMap::CodeTreeConfig::Compare] and [DispatchTable::Config::Compare], on integers. *)
Definition CompareZ (a b : Z) : Z := if (a <? b)%Z then -1 else if (b <? a)%Z then 1 else 0.

#[export] Instance CompareZ_ok : ConfigOk CompareZ.
Proof.
  split; unfold CompareZ.
  - intros a b. destruct (Z.ltb_spec a b), (Z.ltb_spec b a); lia.
  - intros a b. destruct (Z.ltb_spec a b), (Z.ltb_spec b a); lia.
  - intros a b c. destruct (Z.ltb_spec a b), (Z.ltb_spec b a), (Z.ltb_spec b c), (Z.ltb_spec c b),
      (Z.ltb_spec a c), (Z.ltb_spec c a); lia.
Qed.

Lemma SplayTree_refines_witness :
  let ops := [OpInsert 5; OpSetValue 5 50; OpInsert 3; OpInsert 9; OpFindGreatestLessThan 8;
              OpFindLeastGreaterThan 4; OpRemove 5; OpMove 3 7; OpValue 7; OpFindGreatest]%Z in
  exists t, run CompareZ 0%Z ops Leaf
            = Some (t, [AInserted true 5; ABool true; AInserted true 3; AInserted true 9;
                        ALocator (Some 5); ALocator (Some 5); ABool true; ABool true;
                        AValue (Some 0); ALocator (Some 9)])%Z
            /\ in_order t = [(7, 0); (9, 0)]%Z /\ ordered CompareZ (in_order t).
Proof. intros ops. exact (SplayTree_refines CompareZ 0%Z ops). Defined.

(** The only node of a tree cannot be moved: [RemoveRootNode] leaves an empty tree,
    which [Splay] does not change, and the key of the null root is read, where the
    list has the entry under its new key ([list_move_only_entry]). *)
Lemma Move_only_node {Key Value : Type} (Compare : Key -> Key -> Z) {OK : ConfigOk Compare}
    (key new_key : Key) (v : Value) :
  Move Compare key new_key (Node Leaf key v Leaf) = None.
Proof.
  unfold Move, FindInternal, Splay. cbn [is_empty splay_loop].
  rewrite (Compare_refl Compare). cbn. by rewrite (Compare_refl Compare).
Qed.

Lemma list_move_only_entry {Key Value : Type} (Compare : Key -> Key -> Z) {OK : ConfigOk Compare}
    (key new_key : Key) (v : Value) :
  list_move Compare key new_key [(key, v)] = ([(new_key, v)], true).
Proof.
  unfold list_move, assoc, below, above. cbn [find_first fst]. rewrite (Compare_refl Compare). cbn.
  by rewrite !decide_False by (cbn; rewrite (Compare_refl Compare); lia).
Qed.

Lemma ForEachNode_visits_once_witness :
  ForEachNode (Node (Node Leaf 1 10 Leaf) 2 20 (Node Leaf 3 30 Leaf))%Z ≡ₚ [(1, 10); (2, 20); (3, 30)]%Z
  /\ NoDup (fst <$> ForEachNode (Node (Node Leaf 1 10 Leaf) 2 20 (Node Leaf 3 30 Leaf)))%Z.
Proof.
  apply (ForEachNode_visits_once CompareZ (Node (Node Leaf 1 10 Leaf) 2 20 (Node Leaf 3 30 Leaf))%Z).
  repeat constructor.
Defined.

(** ** Trees with integer keys, as finite maps *)

Lemma CompareZ_lt a b : (CompareZ a b < 0)%Z -> (a < b)%Z.
Proof. unfold CompareZ. destruct (Z.ltb_spec a b), (Z.ltb_spec b a); lia. Qed.

Lemma CompareZ_eqb a b : (CompareZ a b =? 0)%Z = (a =? b)%Z.
Proof. unfold CompareZ. destruct (Z.ltb_spec a b), (Z.ltb_spec b a), (Z.eqb_spec a b); cbn; lia || done. Qed.

Section integer_keys.
Context {Value : Type}.
Implicit Types (t : Tree Z Value) (xs : list (Z * Value)) (k key : Z).
Local Open Scope Z_scope.

Definition look t key : option Value := assoc CompareZ key (in_order t).
Definition good t : Prop := ordered CompareZ (in_order t).

Lemma assoc_elem xs key v : ordered CompareZ xs -> assoc CompareZ key xs = Some v <-> (key, v) ∈ xs.
Proof.
  induction xs as [|[k w] xs IH]; intros Ho.
  - split; [done|]. by intros ?%not_elem_of_nil.
  - apply ordered_cons in Ho as [Ho Hall]. rewrite assoc_cons, CompareZ_eqb, elem_of_cons.
    destruct (Z.eqb_spec key k) as [->|Hne].
    + split; [intros [= ->]; by left|]. intros [[= ->]|Hin]; [done|].
      rewrite Forall_forall in Hall. specialize (Hall _ Hin). unfold entry_lt in Hall.
      apply CompareZ_lt in Hall. cbn in Hall. lia.
    + rewrite IH by done. split; [by right|]. intros [[= -> ->]|?]; done.
Qed.

Lemma last_below xs key :
  ordered CompareZ xs ->
  match fst <$> last (below CompareZ key xs ++ at_key CompareZ key xs) with
  | Some k => exists v, assoc CompareZ k xs = Some v /\ k <= key
      /\ forall k' v', assoc CompareZ k' xs = Some v' -> k' <= key -> k' <= k
  | None => forall k v, assoc CompareZ k xs = Some v -> key < k
  end.
Proof.
  intros Ho. destruct (ordered_cut CompareZ key xs Ho) as (Hxs & Hb & Ha).
  set (lo := below CompareZ key xs ++ at_key CompareZ key xs).
  assert (Hxs' : xs = lo ++ above CompareZ key xs) by (unfold lo; by rewrite <- app_assoc).
  assert (Hlo : forall p, p ∈ lo -> p.1 <= key).
  { intros p [Hp|Hp]%elem_of_app.
    - rewrite Forall_forall in Hb. specialize (Hb p Hp). apply CompareZ_lt in Hb. lia.
    - unfold at_key in Hp. destruct (assoc _ key xs); [|by apply not_elem_of_nil in Hp].
      apply list_elem_of_singleton in Hp as ->. cbn. lia. }
  assert (Hhi : forall p, p ∈ above CompareZ key xs -> key < p.1).
  { intros p Hp. rewrite Forall_forall in Ha. specialize (Ha p Hp). by apply CompareZ_lt in Ha. }
  clearbody lo. destruct lo as [|p lo _] using rev_ind.
  - cbn. intros k v Hv. apply assoc_elem in Hv; [|done]. rewrite Hxs' in Hv. by apply (Hhi (k, v)).
  - rewrite last_snoc. cbn. exists p.2. split_and!.
    + apply assoc_elem; [done|]. rewrite Hxs'. apply elem_of_app. left. apply elem_of_app. right.
      apply list_elem_of_singleton. by destruct p.
    + apply Hlo. apply elem_of_app. right. by apply list_elem_of_singleton.
    + intros k' v' Hv' Hk. apply assoc_elem in Hv'; [|done]. rewrite Hxs' in Hv', Ho.
      apply elem_of_app in Hv' as [Hin|Hin]; [|specialize (Hhi _ Hin); cbn in Hhi; lia].
      apply elem_of_app in Hin as [Hin|Hin].
      * apply ordered_app in Ho as (Ho & _). apply ordered_app in Ho as (_ & _ & Hall).
        rewrite Forall_forall in Hall. specialize (Hall _ Hin). rewrite Forall_singleton in Hall.
        unfold entry_lt in Hall. apply CompareZ_lt in Hall. cbn in Hall. lia.
      * apply list_elem_of_singleton in Hin as <-. cbn. lia.
Qed.

Lemma head_above xs key :
  ordered CompareZ xs ->
  match fst <$> head (at_key CompareZ key xs ++ above CompareZ key xs) with
  | Some k => exists v, assoc CompareZ k xs = Some v /\ key <= k
      /\ forall k' v', assoc CompareZ k' xs = Some v' -> key <= k' -> k <= k'
  | None => forall k v, assoc CompareZ k xs = Some v -> k < key
  end.
Proof.
  intros Ho. destruct (ordered_cut CompareZ key xs Ho) as (Hxs & Hb & Ha).
  set (hi := at_key CompareZ key xs ++ above CompareZ key xs).
  assert (Hhi : forall p, p ∈ hi -> key <= p.1).
  { intros p [Hp|Hp]%elem_of_app.
    - unfold at_key in Hp. destruct (assoc _ key xs); [|by apply not_elem_of_nil in Hp].
      apply list_elem_of_singleton in Hp as ->. cbn. lia.
    - rewrite Forall_forall in Ha. specialize (Ha p Hp). apply CompareZ_lt in Ha. lia. }
  assert (Hlo : forall p, p ∈ below CompareZ key xs -> p.1 < key).
  { intros p Hp. rewrite Forall_forall in Hb. specialize (Hb p Hp). by apply CompareZ_lt in Hb. }
  fold hi in Hxs. clearbody hi. destruct hi as [|p hi].
  - cbn. intros k v Hv. apply assoc_elem in Hv; [|done]. rewrite Hxs, app_nil_r in Hv. by apply (Hlo (k, v)).
  - cbn. exists p.2. split_and!.
    + apply assoc_elem; [done|]. rewrite Hxs. apply elem_of_app. right. apply elem_of_cons. left. by destruct p.
    + apply Hhi. apply elem_of_cons. by left.
    + intros k' v' Hv' Hk. apply assoc_elem in Hv'; [|done]. rewrite Hxs in Hv', Ho.
      apply elem_of_app in Hv' as [Hin|Hin]; [specialize (Hlo _ Hin); cbn in Hlo; lia|].
      apply elem_of_cons in Hin as [<- |Hin]; [cbn; lia|].
      apply ordered_app in Ho as (_ & Ho & _). apply ordered_cons in Ho as [_ Hall].
      rewrite Forall_forall in Hall. specialize (Hall _ Hin). unfold entry_lt in Hall.
      apply CompareZ_lt in Hall. cbn in Hall. lia.
Qed.

Lemma look_FindGreatestLessThan t key :
  good t ->
  exists t' found, FindGreatestLessThan CompareZ key t = Some (t', found) /\ good t' /\ (forall k, look t' k = look t k)
    /\ match found with
       | Some k => exists v, look t k = Some v /\ k <= key
           /\ forall k' v', look t k' = Some v' -> k' <= key -> k' <= k
       | None => forall k v, look t k = Some v -> key < k
       end.
Proof.
  intros Hg. destruct (FindGreatestLessThan_spec CompareZ key t Hg) as (t' & -> & Hi).
  do 2 eexists. split; [done|]. unfold good, look. rewrite Hi. split_and!; [done..|]. by apply last_below.
Qed.

Lemma look_FindLeastGreaterThan t key :
  good t ->
  exists t' found, FindLeastGreaterThan CompareZ key t = Some (t', found) /\ good t' /\ (forall k, look t' k = look t k)
    /\ match found with
       | Some k => exists v, look t k = Some v /\ key <= k
           /\ forall k' v', look t k' = Some v' -> key <= k' -> k <= k'
       | None => forall k v, look t k = Some v -> k < key
       end.
Proof.
  intros Hg. destruct (FindLeastGreaterThan_spec CompareZ key t Hg) as (t' & -> & Hi).
  do 2 eexists. split; [done|]. unfold good, look. rewrite Hi. split_and!; [done..|]. by apply head_above.
Qed.

Lemma look_value t key : good t -> value CompareZ key t = look t key.
Proof. intros Hg. exact (value_spec CompareZ key t Hg). Qed.

Lemma look_set_value t loc x k :
  look (set_value CompareZ loc x t) k = if k =? loc then (fun _ => x) <$> look t loc else look t k.
Proof. unfold look. rewrite set_value_in_order, (assoc_update CompareZ), CompareZ_eqb. done. Qed.

Lemma good_set_value t loc x : good t -> good (set_value CompareZ loc x t).
Proof. intros Hg. unfold good. rewrite set_value_in_order. by apply (ordered_update CompareZ). Qed.

Lemma look_Find t key :
  good t ->
  exists t', Find CompareZ key t = Some (t', (fun _ => key) <$> look t key)
    /\ good t' /\ forall k, look t' k = look t k.
Proof.
  intros Hg. destruct (Find_spec CompareZ key t Hg) as (t' & -> & Hi).
  eexists. split; [done|]. unfold good, look. by rewrite Hi.
Qed.

Lemma look_Insert kNoValue t key :
  good t ->
  exists t', Insert CompareZ kNoValue key t = Some (t', bool_decide (look t key = None), key) /\ good t'
    /\ forall k, look t' k = if k =? key then Some (default kNoValue (look t key)) else look t k.
Proof.
  intros Hg. destruct (Insert_spec CompareZ kNoValue key t Hg) as (t' & -> & Hi).
  eexists. split; [done|]. unfold good, look. rewrite Hi. split; [exact (ordered_replace CompareZ key _ _ Hg)|].
  intros k. rewrite (assoc_replace CompareZ), CompareZ_eqb; done.
Qed.

Lemma look_Remove t key :
  good t ->
  exists t' b, Remove CompareZ key t = Some (t', b) /\ good t'
    /\ forall k, look t' k = if k =? key then None else look t k.
Proof.
  intros Hg. destruct (tree_Remove_spec CompareZ key t Hg) as (t' & -> & Hi).
  do 2 eexists. split; [done|]. unfold good, look. rewrite Hi. split; [exact (ordered_remove CompareZ key _ Hg)|].
  intros k. rewrite (assoc_remove CompareZ), CompareZ_eqb; done.
Qed.

Lemma look_Leaf k : look Leaf k = None.
Proof. done. Qed.

Lemma look_empty t k v : look t k = Some v -> is_empty t = false.
Proof. by destruct t. Qed.

Lemma look_elem t k v : good t -> look t k = Some v <-> (k, v) ∈ in_order t.
Proof. apply assoc_elem. Qed.
End integer_keys.
