(* ===== verification/CharacterRange.v ===== *)
(** * CharacterRange: sets of characters as lists of ranges

    Models [CharacterRange] and [SetRelation] of src/jsregexp.h and src/jsregexp.cc:
    the standard classes, the canonical form and how a list is brought to it in place,
    the merge of two sets into up to three, the negation, the relation
    to the characters of a word, and the analysis that uses it for [\b].
    A range has two 16-bit characters.  A [ZoneList] is a list; where the code is given
    pointers to lists, they are indices into the lists of a zone and may be null or
    equal.  [None] stands for an access out of bounds or through a null pointer,
    or for [UNREACHABLE]. *)

From S2P Require Import Prelude.
Local Open Scope Z_scope.

(** ** The class *)

Record CharacterRange := MkRange { from : Z; to : Z }.

#[export] Instance CharacterRange_eq_dec : EqDecision CharacterRange.
Proof. solve_decision. Defined.

(** [CharacterRange(uc16 from, uc16 to)]: the arguments are [int]s that the call converts. *)
Definition Range (f t : Z) : CharacterRange := MkRange (uint 16 f) (uint 16 t).

Definition kMaxUC16CharCode : Z := 0xFFFF.
Definition Everything : CharacterRange := Range 0 0xFFFF.
Definition Contains (r : CharacterRange) (i : Z) : bool := (from r <=? i) && (i <=? to r).
Definition is_valid (r : CharacterRange) : bool := from r <=? to r.

(** ** The standard classes *)

Definition kSpaceRanges : list Z :=
  [0x0009; 0x000D; 0x0020;
   0x0020; 0x00A0; 0x00A0; 0x1680; 0x1680; 0x180E; 0x180E; 0x2000; 0x200A;
   0x2028; 0x2029; 0x202F; 0x202F; 0x205F; 0x205F; 0x3000; 0x3000].

(** '0' '9' 'A' 'Z' '_' '_' 'a' 'z' *)
Definition kWordRanges : list Z := [48; 57; 65; 90; 95; 95; 97; 122].

Definition kDigitRanges : list Z := [48; 57].

Definition kLineTerminatorRanges : list Z := [0x000A; 0x000A; 0x000D; 0x000D; 0x2028; 0x2029].

Fixpoint AddClass (elmv : list Z) (ranges : list CharacterRange) : list CharacterRange :=
  match elmv with
  | f :: t :: elmv => AddClass elmv (ranges ++ [Range f t])
  | _ => ranges
  end.

Fixpoint negated_loop (last : Z) (elmv : list Z) (ranges : list CharacterRange) : Z * list CharacterRange :=
  match elmv with
  | f :: t :: elmv => negated_loop (uint 16 (t + 1)) elmv (ranges ++ [Range last (f - 1)])
  | _ => (last, ranges)
  end.

Definition AddClassNegated (elmv : list Z) (ranges : list CharacterRange) : list CharacterRange :=
  let '(last, ranges) := negated_loop 0 elmv ranges in ranges ++ [Range last kMaxUC16CharCode].

Definition AddClassEscape (type : Z) (ranges : list CharacterRange) : option (list CharacterRange) :=
  match type with
  | 115 (* 's' *) => Some (AddClass kSpaceRanges ranges)
  | 83 (* 'S' *) => Some (AddClassNegated kSpaceRanges ranges)
  | 119 (* 'w' *) => Some (AddClass kWordRanges ranges)
  | 87 (* 'W' *) => Some (AddClassNegated kWordRanges ranges)
  | 100 (* 'd' *) => Some (AddClass kDigitRanges ranges)
  | 68 (* 'D' *) => Some (AddClassNegated kDigitRanges ranges)
  | 46 (* '.' *) => Some (AddClassNegated kLineTerminatorRanges ranges)
  | 42 (* '*' *) => Some (ranges ++ [Everything])
  | 110 (* 'n' *) => Some (AddClass kLineTerminatorRanges ranges)
  | _ => None
  end.

(** ** The canonical form *)

Fixpoint canonical_after (max : Z) (ranges : list CharacterRange) : bool :=
  match ranges with
  | [] => true
  | next_range :: ranges =>
      if from next_range <=? max + 1 then false else canonical_after (to next_range) ranges
  end.

Definition IsCanonical (ranges : list CharacterRange) : bool :=
  match ranges with [] => true | r :: ranges => canonical_after (to r) ranges end.

(** [list->at(i) = r] *)
Definition put (l : list CharacterRange) (i : nat) (r : CharacterRange) : option (list CharacterRange) :=
  if decide (i < length l)%nat then Some (<[i := r]> l) else None.

Definition MoveRanges (l : list CharacterRange) (from_ to_ count : nat) : option (list CharacterRange) :=
  for_loop count 0
    (fun k l =>
       let i := if (from_ <? to_)%nat then (count - 1 - k)%nat else k in
       r ← l !! (from_ + i)%nat; put l (to_ + i) r) l.

(** The loop over [i], from [count - 1] down to 0, that finds [start_pos] and [end_pos]. *)
Fixpoint find_positions (l : list CharacterRange) (f t : Z) (n : nat) (end_pos : nat) : option (nat * nat) :=
  match n with
  | O => Some (0%nat, end_pos)
  | S i =>
      current ← l !! i;
      if t + 1 <? from current then find_positions l f t i i
      else if to current + 1 <? f then Some (S i, end_pos)
      else find_positions l f t i end_pos
  end.

Definition InsertRangeInCanonicalList (l : list CharacterRange) (count : nat) (insert : CharacterRange)
    : option (list CharacterRange * nat) :=
  let f := from insert in
  let t := to insert in
  '(start_pos, end_pos) ← find_positions l f t count count;
  if (start_pos =? end_pos)%nat then
    l ← (if (start_pos <? count)%nat then MoveRanges l start_pos (start_pos + 1) (count - start_pos)
         else Some l);
    l ← put l start_pos insert;
    Some (l, count + 1)%nat
  else if (start_pos + 1 =? end_pos)%nat then
    to_replace ← l !! start_pos;
    l ← put l start_pos (Range (Z.min (from to_replace) f) (Z.max (to to_replace) t));
    Some (l, count)
  else
    first ← l !! start_pos;
    last ← l !! (end_pos - 1)%nat;
    let new_from := Z.min (from first) f in
    let new_to := Z.max (to last) t in
    l ← (if (end_pos <? count)%nat then MoveRanges l end_pos (start_pos + 1) (count - end_pos)
         else Some l);
    l ← put l start_pos (Range new_from new_to);
    Some (l, count - (end_pos - start_pos) + 1)%nat.

(** The length of the part that is canonical already. *)
Fixpoint canonical_prefix (max : Z) (i : nat) (ranges : list CharacterRange) : nat :=
  match ranges with
  | [] => i
  | current :: ranges =>
      if from current <=? max + 1 then i else canonical_prefix (to current) (S i) ranges
  end.

(** [do { ... read++; } while (read < n)], with [todo] ranges to insert. *)
Fixpoint insert_loop (todo read : nat) (l : list CharacterRange) (num_canonical : nat)
    : option (list CharacterRange * nat) :=
  match todo with
  | O => Some (l, num_canonical)
  | S todo =>
      r ← l !! read;
      '(l, num_canonical) ← InsertRangeInCanonicalList l num_canonical r;
      insert_loop todo (S read) l num_canonical
  end.

Definition Canonicalize (character_ranges : list CharacterRange) : option (list CharacterRange) :=
  match character_ranges with
  | [] | [_] => Some character_ranges
  | first :: rest =>
      let n := length character_ranges in
      let i := canonical_prefix (to first) 1 rest in
      if (i =? n)%nat then Some character_ranges
      else
        '(l, num_canonical) ← insert_loop (n - i) i character_ranges i;
        Some (take num_canonical l)
  end.

(** ** Merging two sets *)

Definition kInsideNone : Z := 0.
Definition kInsideFirst : Z := 1.
Definition kInsideSecond : Z := 2.
Definition kInsideBoth : Z := 3.

(** The lists that output pointers refer to. *)
Abbreviation Zone := (list (list CharacterRange)).

Definition add_range (l : list CharacterRange) (range : CharacterRange) : list CharacterRange :=
  match last l with
  | Some lastRange =>
      if to lastRange =? from range - 1
      then <[(length l - 1)%nat := Range (from lastRange) (to range)]> l
      else l ++ [range]
  | None => l ++ [range]
  end.

Definition AddRangeToSet (zone : Zone) (set : option nat) (range : CharacterRange) : option Zone :=
  match set with
  | None => Some zone
  | Some p => l ← zone !! p; Some (<[p := add_range l range]> zone)
  end.

Definition AddRangeToSelectedSet (zone : Zone) (selector : Z) (first_set second_set intersection_set : option nat)
    (range : CharacterRange) : option Zone :=
  match selector with
  | 1 => AddRangeToSet zone first_set range
  | 2 => AddRangeToSet zone second_set range
  | 3 => AddRangeToSet zone intersection_set range
  | _ => Some zone
  end.

(** [set->AddAll( *other)] *)
Definition AddAll (zone : Zone) (set : option nat) (other : list CharacterRange) : option Zone :=
  p ← set; l ← zone !! p; Some (<[p := l ++ other]> zone).

(** The loop, for any way to select the set that a range is added to. *)
Section merge_loop.
Context {State : Type} (select : State -> Z -> Z -> Z -> option State).

(** The body of the loop for a range from [range_source]. *)
Definition merge_range (zone : State) (f t state : Z) (next_range : CharacterRange) (range_source : Z)
    : option (State * Z * Z * Z) :=
  if t <? from next_range then
    zone ← select zone state f t;
    Some (zone, from next_range, to next_range, range_source)
  else
    zone ← (if f <? from next_range then select zone state f (from next_range - 1) else Some zone);
    if t <? to next_range then
      zone ← select zone (Z.lor state range_source) (from next_range) t;
      Some (zone, t + 1, to next_range, range_source)
    else
      zone ← select zone (Z.lor state range_source) (from next_range) (to next_range);
      Some (zone, to next_range + 1, t, if to next_range =? t then kInsideNone else state).

(** [while (i1 < n1 || i2 < n2)], on the rests of the two lists. *)
Fixpoint merge_loop (n : nat) (first second : list CharacterRange) (zone : State) (f t state : Z)
    : option (State * Z * Z * Z) :=
  match n, first, second with
  | _, [], [] => Some (zone, f, t, state)
  | O, _, _ => None
  | S n, r1 :: first', [] =>
      '(zone, f, t, state) ← merge_range zone f t state r1 kInsideFirst;
      merge_loop n first' second zone f t state
  | S n, [], r2 :: second' =>
      '(zone, f, t, state) ← merge_range zone f t state r2 kInsideSecond;
      merge_loop n first second' zone f t state
  | S n, r1 :: first', r2 :: second' =>
      if from r1 <? from r2 then
        '(zone, f, t, state) ← merge_range zone f t state r1 kInsideFirst;
        merge_loop n first' second zone f t state
      else
        '(zone, f, t, state) ← merge_range zone f t state r2 kInsideSecond;
        merge_loop n first second' zone f t state
  end.

Definition merge_all (first_set second_set : list CharacterRange) (zone : State) : option State :=
  '(zone, f, t, state) ← merge_loop (length first_set + length second_set) first_set second_set
                           zone 0 (-1) kInsideNone;
  select zone state f t.
End merge_loop.

Definition Merge (first_set second_set : list CharacterRange)
    (first_set_only_out second_set_only_out both_sets_out : option nat) (zone : Zone) : option Zone :=
  match first_set, second_set with
  | [], _ => AddAll zone second_set_only_out second_set
  | _, [] => AddAll zone first_set_only_out first_set
  | _, _ =>
      merge_all (fun zone selector f t =>
                   AddRangeToSelectedSet zone selector first_set_only_out second_set_only_out both_sets_out
                     (Range f t))
        first_set second_set zone
  end.

(** ** Negation *)

Fixpoint negate_loop (f : Z) (ranges negated_ranges : list CharacterRange) : Z * list CharacterRange :=
  match ranges with
  | [] => (f, negated_ranges)
  | range :: ranges => negate_loop (to range) ranges (negated_ranges ++ [Range (f + 1) (from range - 1)])
  end.

Definition Negate (ranges negated_ranges : list CharacterRange) : list CharacterRange :=
  let '(f, rest) :=
    match ranges with
    | r :: rest => if from r =? 0 then (to r, rest) else (0, ranges)
    | [] => (0, ranges)
    end in
  let '(f, negated_ranges) := negate_loop f rest negated_ranges in
  if f <? kMaxUC16CharCode then negated_ranges ++ [Range (f + 1) kMaxUC16CharCode] else negated_ranges.

(** ** The relation to the characters of a word *)

Definition kInFirst : Z := Z.shiftl 1 kInsideFirst.
Definition kInSecond : Z := Z.shiftl 1 kInsideSecond.
Definition kInBoth : Z := Z.shiftl 1 kInsideBoth.

Definition SetElementsInFirstSet (bits_ : Z) : Z := Z.lor bits_ kInFirst.
Definition SetElementsInSecondSet (bits_ : Z) : Z := Z.lor bits_ kInSecond.
Definition SetElementsInBothSets (bits_ : Z) : Z := Z.lor bits_ kInBoth.
Definition Disjoint (bits_ : Z) : bool := Z.land bits_ kInBoth =? 0.
Definition Equals (bits_ : Z) : bool := Z.land bits_ (Z.lor kInFirst kInSecond) =? 0.
(** [SetRelation::Contains] *)
Definition ContainsSecond (bits_ : Z) : bool := Z.land bits_ kInSecond =? 0.
Definition ContainedIn (bits_ : Z) : bool := Z.land bits_ kInFirst =? 0.
Definition NonTrivialIntersection (bits_ : Z) : bool := bits_ =? Z.lor (Z.lor kInFirst kInSecond) kInBoth.

Definition compare_ranges (argument_range word_range : CharacterRange) (result : Z) : Z :=
  if to word_range <? from argument_range then SetElementsInSecondSet result
  else if to argument_range <? from word_range then SetElementsInFirstSet result
  else if (from word_range <=? from argument_range) && (from argument_range <=? to word_range) then
    let result := SetElementsInBothSets result in
    if (from word_range <? from argument_range) || (from argument_range <? to word_range)
    then SetElementsInSecondSet result else result
  else if (from argument_range <=? from word_range) && (to word_range <=? from argument_range) then
    SetElementsInFirstSet (SetElementsInBothSets result)
  else SetElementsInBothSets (SetElementsInSecondSet (SetElementsInFirstSet result)).

(** The loop, on the rests of the word ranges ([kWordRanges] from [i] on) and of the
    argument ranges (from [j] on). *)
Fixpoint relation_loop (fuel : nat) (words : list Z) (args : list CharacterRange) (result : Z) : option Z :=
  match fuel with
  | O => None
  | S fuel =>
      match words, args with
      | wf :: wt :: words', argument_range :: args' =>
          let word_range := Range wf wt in
          let result := compare_ranges argument_range word_range result in
          if NonTrivialIntersection result then Some result
          else
            relation_loop fuel
              (if to word_range <=? to argument_range then words' else words)
              (if to argument_range <=? to word_range then args' else args) result
      | _ :: _, _ => Some (SetElementsInSecondSet result)
      | [], _ :: _ => Some (SetElementsInFirstSet result)
      | [], [] => Some result
      end
  end.

Definition WordCharacterRelation (range : list CharacterRange) : option Z :=
  match range with
  | [] => Some (SetElementsInSecondSet 0)
  | _ => relation_loop (S (length kWordRanges + length range)) kWordRanges range 0
  end.

(** ** Classes that are standard ones *)

Record CharacterSet := MkSet { ranges_ : option (list CharacterRange); standard_set_type_ : Z }.

(** [ranges()] fills the list of a standard set in. *)
Definition ranges (s : CharacterSet) : option (CharacterSet * list CharacterRange) :=
  match ranges_ s with
  | Some l => Some (s, l)
  | None => l ← AddClassEscape (standard_set_type_ s) []; Some (MkSet (Some l) (standard_set_type_ s), l)
  end.

Fixpoint compare_loop (ranges : list CharacterRange) (special_class : list Z) : bool :=
  match special_class, ranges with
  | f :: t :: special_class, range :: ranges =>
      if negb (from range =? f) || negb (to range =? t) then false else compare_loop ranges special_class
  | _, _ => true
  end.

Definition CompareRanges (ranges : list CharacterRange) (special_class : list Z) : bool :=
  if (length ranges * 2 =? length special_class)%nat then compare_loop ranges special_class else false.

Fixpoint compare_inverse_loop (range : CharacterRange) (ranges : list CharacterRange) (special_class : list Z)
    : bool :=
  match special_class, ranges with
  | f :: t :: special_class, next :: ranges =>
      if negb (f =? to range + 1) then false
      else if negb (t =? from next - 1) then false
      else compare_inverse_loop next ranges special_class
  | _, _ => to range =? 0xffff
  end.

Definition CompareInverseRanges (ranges : list CharacterRange) (special_class : list Z) : bool :=
  if negb (length ranges =? (length special_class / 2) + 1)%nat then false
  else
    match ranges with
    | [] => false
    | range :: ranges =>
        if negb (from range =? 0) then false else compare_inverse_loop range ranges special_class
    end.

(** The answer, and the class with what was found out about it. *)
Definition is_standard (is_negated_ : bool) (set_ : CharacterSet) : option (bool * CharacterSet) :=
  if is_negated_ then Some (false, set_)
  else if negb (standard_set_type_ set_ =? 0) then Some (true, set_)
  else
    '(s, l) ← ranges set_;
    let standard type := Some (true, MkSet (ranges_ s) type) in
    if CompareRanges l kSpaceRanges then standard 115 (* 's' *)
    else if CompareInverseRanges l kSpaceRanges then standard 83 (* 'S' *)
    else if CompareInverseRanges l kLineTerminatorRanges then standard 46 (* '.' *)
    else if CompareRanges l kLineTerminatorRanges then standard 110 (* 'n' *)
    else if CompareRanges l kWordRanges then standard 119 (* 'w' *)
    else if CompareInverseRanges l kWordRanges then standard 87 (* 'W' *)
    else Some (false, s).

(** ** The first characters of a text, and word boundaries *)

Inductive TextElement :=
  | ATOM (data : list Z)
  | CHAR_CLASS (set_ : CharacterSet) (is_negated_ : bool).

(** [TextNode::ComputeFirstCharacterSet] within its budget: the first character set of
    a text that starts with the element. *)
Definition FirstCharacterSet (text : TextElement) : option (list CharacterRange) :=
  match text with
  | ATOM data => first_char ← head data; Some [Range first_char first_char]
  | CHAR_CLASS set_ is_negated_ =>
      '(_, l) ← ranges set_;
      l ← Canonicalize l;
      Some (if is_negated_ then Negate l [] else l)
  end.

Inductive AssertionNodeType :=
  | AT_END
  | AT_START
  | AT_BOUNDARY
  | AT_NON_BOUNDARY
  | AFTER_NEWLINE
  | AFTER_NONWORD_CHARACTER
  | AFTER_WORD_CHARACTER.

#[export] Instance AssertionNodeType_eq_dec : EqDecision AssertionNodeType.
Proof. solve_decision. Defined.

(** [Analysis::VisitAssertion], given the first character set of the node. *)
Definition VisitAssertion (type : AssertionNodeType) (following_chars : list CharacterRange)
    : option AssertionNodeType :=
  if bool_decide (type = AT_BOUNDARY) || bool_decide (type = AT_NON_BOUNDARY) then
    following_chars ← Canonicalize following_chars;
    word_relation ← WordCharacterRelation following_chars;
    Some (if Disjoint word_relation then
            if bool_decide (type = AT_BOUNDARY) then AFTER_WORD_CHARACTER else AFTER_NONWORD_CHARACTER
          else if ContainedIn word_relation then
            if bool_decide (type = AT_BOUNDARY) then AFTER_NONWORD_CHARACTER else AFTER_WORD_CHARACTER
          else type)
  else Some type.

(** ** Sets of characters *)

Definition in_ranges (c : Z) (l : list CharacterRange) : bool := existsb (fun r => Contains r c) l.

Definition valid (r : CharacterRange) : Prop := 0 <= from r <= to r /\ to r <= kMaxUC16CharCode.

Lemma Range_id f t : 0 <= f <= kMaxUC16CharCode -> 0 <= t <= kMaxUC16CharCode -> Range f t = MkRange f t.
Proof. unfold kMaxUC16CharCode, Range, uint. intros. by rewrite !Z.mod_small by lia. Qed.

Lemma Contains_spec r c : Contains r c = true <-> from r <= c <= to r.
Proof. unfold Contains. rewrite andb_true_iff, !Z.leb_le. lia. Qed.

Lemma in_ranges_nil c : in_ranges c [] = false.
Proof. done. Qed.

Lemma in_ranges_cons c r l : in_ranges c (r :: l) = true <-> from r <= c <= to r \/ in_ranges c l = true.
Proof. unfold in_ranges. cbn [existsb]. by rewrite orb_true_iff, Contains_spec. Qed.

Lemma in_ranges_app c l1 l2 :
  in_ranges c (l1 ++ l2) = true <-> in_ranges c l1 = true \/ in_ranges c l2 = true.
Proof. unfold in_ranges. by rewrite existsb_app, orb_true_iff. Qed.

Lemma not_in_ranges c l : in_ranges c l = false <-> ~ in_ranges c l = true.
Proof. by rewrite not_true_iff_false. Qed.

(** A canonical list whose characters are greater than [lo]. *)
Fixpoint can (lo : Z) (l : list CharacterRange) : Prop :=
  match l with
  | [] => True
  | r :: l => lo < from r <= to r /\ to r <= kMaxUC16CharCode /\ can (to r + 1) l
  end.

(** One more than the last character. *)
Fixpoint end_of (lo : Z) (l : list CharacterRange) : Z :=
  match l with [] => lo | r :: l => end_of (to r + 1) l end.

Lemma can_after max l : Forall valid l -> canonical_after max l = true <-> can (max + 1) l.
Proof.
  intros Hv. revert max. induction Hv as [|r l [Hr Hr'] Hv IH]; intros max; cbn; [done|].
  destruct (Z.leb_spec (from r) (max + 1)); [split; [done|lia]|]. rewrite IH. intuition lia.
Qed.

Lemma can_canonical l : Forall valid l -> IsCanonical l = true <-> can (-1) l.
Proof.
  intros Hv. destruct Hv as [|r l [Hr Hr'] Hv]; [done|]. cbn. rewrite can_after by done. intuition lia.
Qed.

Lemma can_valid lo l : -1 <= lo -> can lo l -> Forall valid l.
Proof.
  revert lo. induction l as [|r l IH]; intros lo Hlo; [constructor|]. intros (H1 & H2 & H3).
  constructor; [split; lia|]. apply (IH (to r + 1)); [lia|done].
Qed.

Lemma can_IsCanonical l : can (-1) l -> IsCanonical l = true.
Proof. intros H. by apply can_canonical; [eapply can_valid; [|exact H]; lia|]. Qed.

Lemma can_lower lo lo' l : lo' <= lo -> can lo l -> can lo' l.
Proof. destruct l as [|r l]; cbn; intuition lia. Qed.

Lemma can_change lo lo' l : can lo l -> Forall (fun r => lo' < from r) l -> can lo' l.
Proof. destruct l as [|r l]; cbn; [done|]. intros (H1 & H2) H%Forall_cons. intuition lia. Qed.

Lemma can_app lo l1 l2 : can lo (l1 ++ l2) <-> can lo l1 /\ can (end_of lo l1) l2.
Proof. revert lo. induction l1 as [|r l1 IH]; intros lo; cbn; [tauto|]. rewrite IH. tauto. Qed.

Lemma end_of_app lo l1 l2 : end_of lo (l1 ++ l2) = end_of (end_of lo l1) l2.
Proof. revert lo. induction l1 as [|r l1 IH]; intros lo; cbn; [done|]. apply IH. Qed.

Lemma end_of_le lo l : can lo l -> lo <= end_of lo l.
Proof.
  revert lo. induction l as [|r l IH]; intros lo; cbn; [lia|]. intros (H1 & H2 & H3).
  specialize (IH _ H3). lia.
Qed.

Lemma end_of_lt lo f l : lo < f -> Forall (fun r => to r + 1 < f) l -> end_of lo l < f.
Proof.
  revert lo. induction l as [|r l IH]; intros lo Hlo; cbn; [done|].
  intros [Hr Hl]%Forall_cons. by apply IH.
Qed.

Lemma can_in lo l c : can lo l -> in_ranges c l = true -> lo < c < end_of lo l.
Proof.
  revert lo. induction l as [|r l IH]; intros lo; [done|]. rewrite in_ranges_cons. cbn.
  intros (H1 & H2 & H3). pose proof (end_of_le _ _ H3). intros [Hc|Hc]; [lia|].
  specialize (IH _ H3 Hc). lia.
Qed.

Lemma can_from lo l : can lo l -> Forall (fun r => lo < from r) l.
Proof.
  revert lo. induction l as [|r l IH]; intros lo; [constructor|]. intros (H1 & H2 & H3).
  constructor; [lia|]. eapply Forall_impl; [by apply IH|]. cbn. lia.
Qed.

Lemma can_to lo l : can lo l -> Forall (fun r => to r < end_of lo l) l.
Proof.
  revert lo. induction l as [|r l IH]; intros lo; [constructor|]. intros (H1 & H2 & H3). cbn.
  constructor; [pose proof (end_of_le _ _ H3); lia|by apply IH].
Qed.

(** ** Inserting a range in place *)

(** [memmove]. *)
Lemma MoveRanges_spec l f t count :
  (f + count <= length l)%nat -> (t + count <= length l)%nat ->
  MoveRanges l f t count = Some (take t l ++ take count (drop f l) ++ drop (t + count) l).
Proof.
  intros Hf Ht. unfold MoveRanges.
  set (moved k j := if (f <? t)%nat then (t + count - k <=? j)%nat && (j <? t + count)%nat
                    else (t <=? j)%nat && (j <? t + k)%nat).
  set (P k l' := length l' = length l /\
    forall j, l' !! j = if moved k j then l !! (j - t + f)%nat else l !! j).
  lazymatch goal with |- for_loop _ _ ?b _ = _ =>
    destruct (for_loop_inv P count 0 b l) as (l' & -> & Hlen & Hl') end.
  - split; [done|]. intros j. subst moved. cbv beta. destruct (Nat.ltb_spec f t).
    + destruct (Nat.leb_spec (t + count - 0) j), (Nat.ltb_spec j (t + count)); cbn [andb]; done || lia.
    + destruct (Nat.leb_spec t j), (Nat.ltb_spec j (t + 0)); cbn [andb]; done || lia.
  - intros k l1 Hk [Hlen Hl1]. cbv zeta.
    set (i := if (f <? t)%nat then (count - 1 - k)%nat else k).
    assert (Hr : l1 !! (f + i)%nat = l !! (f + i)%nat).
    { rewrite Hl1. subst moved i. cbv beta. destruct (Nat.ltb_spec f t).
      - destruct (Nat.leb_spec (t + count - k) (f + (count - 1 - k))); [lia|done].
      - destruct (Nat.leb_spec t (f + k)), (Nat.ltb_spec (f + k) (t + k)); cbn [andb]; done || lia. }
    destruct (lookup_lt_is_Some_2 l (f + i)) as [r Er].
    { subst i. destruct (Nat.ltb_spec f t); lia. }
    rewrite Hr, Er. cbn [mbind option_bind]. unfold put. rewrite decide_True by (subst i; destruct (Nat.ltb_spec f t); lia).
    eexists. split; [done|]. split; [by rewrite length_insert|]. intros j.
    destruct (decide (j = t + i)%nat) as [->|Hj].
    + rewrite list_lookup_insert_eq by (subst i; destruct (Nat.ltb_spec f t); lia). subst moved i. cbv beta.
      destruct (Nat.ltb_spec f t).
      * rewrite (proj2 (Nat.leb_le _ _)), (proj2 (Nat.ltb_lt _ _)) by lia. cbn [andb]. rewrite <- Er. f_equal. lia.
      * rewrite (proj2 (Nat.leb_le _ _)), (proj2 (Nat.ltb_lt _ _)) by lia. cbn [andb]. rewrite <- Er. f_equal. lia.
    + rewrite list_lookup_insert_ne, Hl1 by done. subst moved i. cbv beta. destruct (Nat.ltb_spec f t).
      * destruct (Nat.leb_spec (t + count - k) j), (Nat.leb_spec (t + count - S k) j),
          (Nat.ltb_spec j (t + count)); cbn [andb]; done || lia.
      * destruct (Nat.leb_spec t j), (Nat.ltb_spec j (t + k)), (Nat.ltb_spec j (t + S k)); cbn [andb]; done || lia.
  - f_equal. apply list_eq. intros j. rewrite Hl'. subst moved. cbv beta.
    replace (0 + count)%nat with count by lia.
    assert ((if (f <? t)%nat then (t + count - count <=? j)%nat && (j <? t + count)%nat
             else (t <=? j)%nat && (j <? t + count)%nat) = (t <=? j)%nat && (j <? t + count)%nat) as ->.
    { destruct (Nat.ltb_spec f t); [|done]. by replace (t + count - count)%nat with t by lia. }
    assert (length (take t l) = t) as Hlt by (rewrite length_take; lia).
    assert (length (take count (drop f l)) = count) as Hlc by (rewrite length_take, length_drop; lia).
    destruct (Nat.leb_spec t j) as [H1|H1]; cbn [andb].
    + rewrite lookup_app_r, Hlt by lia. destruct (Nat.ltb_spec j (t + count)).
      * rewrite lookup_app_l by (rewrite Hlc; lia). rewrite lookup_take_lt, lookup_drop by lia. f_equal. lia.
      * rewrite lookup_app_r by (rewrite Hlc; lia). rewrite Hlc, lookup_drop. f_equal. lia.
    + rewrite lookup_app_l by (rewrite Hlt; lia). by rewrite lookup_take_lt by lia.
Qed.

(** The lists around the position of a new range. *)
Definition cut_at (l : list CharacterRange) (f t : Z) (A B C : list CharacterRange) : Prop :=
  l = A ++ B ++ C /\ Forall (fun r => to r + 1 < f) A /\ Forall (fun r => t + 1 < from r) C /\
  Forall (fun r => from r <= t + 1 /\ f <= to r + 1) B.

Lemma find_positions_spec l f t n e lo B C :
  take e l = take n l ++ B -> (n <= e <= length l)%nat ->
  can lo (take n l ++ B ++ C) -> f <= t ->
  Forall (fun r => t + 1 < from r) C -> Forall (fun r => from r <= t + 1 /\ f <= to r + 1) B ->
  exists A' B' C', find_positions l f t n e = Some (length A', length A' + length B')%nat
    /\ cut_at (take n l ++ B ++ C) f t A' B' C'.
Proof.
  revert e B C. induction n as [|i IH]; intros e B C He Hn Hcan Hft HC HB.
  - exists [], B, C. cbn. split; [|by split_and!].
    f_equal. f_equal. change (take e l = B) in He. rewrite <- He, length_take. lia.
  - cbn [find_positions].
    destruct (lookup_lt_is_Some_2 l i) as [r Er]; [lia|]. rewrite Er. cbn [mbind option_bind].
    rewrite (take_S_r _ _ _ Er) in *. rewrite <- !app_assoc in *. cbn [app] in *.
    destruct (Z.ltb_spec (t + 1) (from r)) as [Hr|Hr].
    + assert (B = []) as ->.
      { destruct HB as [|b B [Hb _] _]; [done|]. apply can_app in Hcan as [_ (H1 & _ & H2 & _)]. lia. }
      destruct (IH i [] (r :: C)) as (A' & B' & C' & -> & Hcut).
      * by rewrite app_nil_r.
      * lia.
      * done.
      * done.
      * by constructor.
      * constructor.
      * by exists A', B', C'.
    + destruct (Z.ltb_spec (to r + 1) f) as [Hr'|Hr'].
      * exists (take i l ++ [r]), B, C. rewrite length_app, length_take. cbn [length].
        split.
        { f_equal. f_equal; [lia|]. apply (f_equal length) in He. rewrite length_take, length_app in He.
          cbn [length] in He. rewrite length_take in He. lia. }
        split_and!; [by rewrite <- app_assoc| |done|done].
        apply Forall_app. split; [|by constructor]. apply can_app in Hcan as [H1 (H2 & _)].
        eapply Forall_impl; [by apply (can_to lo)|]. cbn. lia.
      * apply (IH e (r :: B) C); [done|lia|done|done|done|]. constructor; [lia|done].
Qed.

(** The union of the ranges that touch a range, and the range. *)
Definition merged (insert : CharacterRange) (B : list CharacterRange) : CharacterRange :=
  match B with
  | [] => insert
  | b :: B' => MkRange (Z.min (from b) (from insert)) (Z.max (end_of 0 B - 1) (to insert))
  end.

Lemma end_of_nonempty lo lo' b B : end_of lo (b :: B) = end_of lo' (b :: B).
Proof. done. Qed.

Lemma merged_can lo insert A B C :
  can lo (A ++ B ++ C) -> valid insert -> lo < from insert -> -1 <= lo ->
  cut_at (A ++ B ++ C) (from insert) (to insert) A B C ->
  can lo (A ++ merged insert B :: C) /\
  forall c, in_ranges c (A ++ merged insert B :: C) = true
            <-> in_ranges c (A ++ B ++ C) = true \/ from insert <= c <= to insert.
Proof.
  intros Hcan [Hv1 Hv2] Hlo Hlo1 (_ & HA & HC & HB).
  apply can_app in Hcan as [HcA Hcan]. apply can_app in Hcan as [HcB HcC].
  pose proof (end_of_le _ _ HcA) as HleA.
  pose proof (end_of_lt lo (from insert) A Hlo HA) as HltA.
  destruct B as [|b B]; cbn [merged app] in *.
  - split.
    + apply can_app. split; [done|]. cbn. split_and!; try lia. by eapply can_change.
    + intros c. rewrite !in_ranges_app, in_ranges_cons. tauto.
  - pose proof HcB as (Hb1 & Hb2 & Hb3). pose proof (end_of_le _ _ Hb3) as Hb4.
    apply Forall_cons in HB as [[Hb5 Hb6] HB]. cbn [end_of] in *.
    set (e := end_of (to b + 1) B) in *.
    assert (He : e <= kMaxUC16CharCode + 1).
    { subst e. clear -Hb2 Hb3. revert Hb2 Hb3. generalize (to b). induction B as [|b' B IH]; cbn; [lia|].
      intros z Hz (H1 & H2 & H3). by apply (IH (to b')). }
    (* the last range touches the new one *)
    assert (Hlast : forall c, to insert < c -> c < e -> in_ranges c (b :: B) = true).
    { subst e. clear -Hb5 Hb3 Hb1 HB. intros c Hc Hce. apply in_ranges_cons.
      assert (Hfb : from b <= c) by lia. clear Hb1 Hb5. revert b Hfb Hb3 Hce. induction B as [|b' B IH]; intros b Hfb Hcan Hce; cbn in Hce; [left; lia|].
      destruct Hcan as (H1 & H2 & H3). apply Forall_cons in HB as [[H4 H5] HB].
      right. apply in_ranges_cons. apply (IH HB b'); [lia|done|done]. }
    split.
    + apply can_app. split; [done|]. cbn [can from to]. split_and!; try lia.
      eapply can_change; [exact HcC|]. apply can_from in HcC. rewrite Forall_forall in *.
      intros r Hr. specialize (HC r Hr). specialize (HcC r Hr). cbn in *. lia.
    + intros c. change (b :: B ++ C) with ((b :: B) ++ C). rewrite !in_ranges_app, in_ranges_cons. cbn [from to].
      assert (in_ranges c (b :: B) = true -> from b <= c < e).
      { intros Hin. assert (can (from b - 1) (b :: B)) as Hcb by (cbn; repeat split; lia || done).
        pose proof (can_in _ _ _ Hcb Hin). cbn in *. subst e. lia. }
      assert (from b <= c <= to b -> in_ranges c (b :: B) = true) by (intros; apply in_ranges_cons; by left).
      specialize (Hlast c).
      destruct (decide (c < from insert)); [|destruct (decide (to insert < c))].
      * assert (Z.min (from b) (from insert) <= c <= Z.max (e - 1) (to insert) <-> in_ranges c (b :: B) = true);
          [|intuition lia]. split; [|intuition lia]. intros. apply H0. lia.
      * assert (Z.min (from b) (from insert) <= c <= Z.max (e - 1) (to insert) <-> in_ranges c (b :: B) = true);
          [|intuition lia]. split; [|intuition lia]. intros. apply Hlast; lia.
      * intuition lia.
Qed.

Lemma put_app A r x B : put (A ++ r :: B) (length A) x = Some (A ++ x :: B).
Proof.
  unfold put. rewrite decide_True by (rewrite length_app; cbn; lia). f_equal.
  rewrite insert_app_r_alt by lia. by rewrite Nat.sub_diag.
Qed.

Lemma merged_Range insert b B lo :
  valid insert -> can lo (b :: B) -> -1 <= lo ->
  Range (Z.min (from b) (from insert)) (Z.max (end_of lo (b :: B) - 1) (to insert)) = merged insert (b :: B).
Proof.
  intros [Hv1 Hv2] Hcan Hlo. pose proof Hcan as (H1 & H2 & H3). cbn [merged end_of].
  pose proof (end_of_le _ _ H3). assert (He : end_of (to b + 1) B <= kMaxUC16CharCode + 1).
  { clear -H2 H3. revert H2 H3. generalize (to b). induction B as [|b' B IH]; cbn; [lia|].
    intros z Hz (H1 & H2 & H3). by apply (IH (to b')). }
  apply Range_id; lia.
Qed.

Lemma last_end_of lo B b : to b + 1 = end_of lo (B ++ [b]).
Proof. by rewrite end_of_app. Qed.

(** The three ways to store the result, for a list [A ++ B ++ C ++ D] whose part [B]
    the new range replaces, and whose part [D] is not canonical yet. *)
Section store.
Context (l A B C D : list CharacterRange) (x : CharacterRange).
Context (Hl : l = A ++ B ++ C ++ D) (HD : (1 <= length D)%nat).
Local Abbreviation stored := (A ++ x :: C ++ drop (length A + 1 + length C) l).

(** Moving [C] next to the place of the result. *)
Lemma store_moved start :
  start = (length A + length B)%nat ->
  (if (start <? length A + length B + length C)%nat
   then MoveRanges l start (length A + 1) (length A + length B + length C - start) else Some l)
  = Some (take (length A + 1) l ++ C ++ drop (length A + 1 + length C) l).
Proof.
  intros ->. assert (drop (length A + length B) l = C ++ D) as HdC.
  { rewrite Hl, drop_app_add. by rewrite drop_app_length. }
  assert (length l = length A + length B + length C + length D)%nat as Hlen
    by (rewrite Hl, !length_app; lia).
  destruct (Nat.ltb_spec (length A + length B) (length A + length B + length C)) as [H|H].
  - rewrite MoveRanges_spec by lia. rewrite HdC.
    replace (length A + length B + length C - (length A + length B))%nat with (length C) by lia.
    by rewrite take_app_length.
  - assert (length C = 0)%nat as HC by lia. destruct C; [|done]. cbn [app length].
    rewrite Nat.add_0_r. by rewrite take_drop.
Qed.

Lemma store_put r R : take (length A + 1) l = A ++ [r] ->
  put (take (length A + 1) l ++ R) (length A) x = Some (A ++ x :: R).
Proof. intros ->. rewrite <- app_assoc. cbn [app]. apply put_app. Qed.

Lemma take_first : exists r, take (length A + 1) l = A ++ [r].
Proof.
  rewrite Hl. rewrite take_app_add. destruct (B ++ C ++ D) as [|r R] eqn:E; [|by exists r].
  apply (f_equal length) in E. rewrite !length_app in E. cbn in E. lia.
Qed.

Lemma store_put_moved :
  put (take (length A + 1) l ++ C ++ drop (length A + 1 + length C) l) (length A) x = Some stored.
Proof. destruct take_first as [r Hr]. by apply (store_put r). Qed.

Lemma store_single b : B = [b] -> put l (length A) x = Some stored.
Proof.
  intros HB. destruct take_first as [r Hr]. rewrite <- (take_drop (length A + 1) l) at 1.
  rewrite (store_put r) by done. f_equal. f_equal. f_equal.
  assert (drop (length A + 1) l = C ++ D) as HdC by (by rewrite Hl, HB, drop_app_add).
  rewrite <- (drop_drop l (length C)), HdC. by rewrite drop_app_length.
Qed.

Lemma store_last : B = [] -> C = [] -> put l (length A) x = Some stored.
Proof.
  intros HB HC. destruct take_first as [r Hr]. rewrite <- (take_drop (length A + 1) l) at 1.
  rewrite (store_put r) by done. rewrite HC. cbn [app length]. by rewrite Nat.add_0_r.
Qed.
End store.

(** The value of the function, when the positions are known. *)
Lemma InsertRange_stored l insert A B C D :
  l = A ++ B ++ C ++ D -> (1 <= length D)%nat -> can (-1) (A ++ B ++ C) -> valid insert ->
  find_positions l (from insert) (to insert) (length A + length B + length C) (length A + length B + length C)
    = Some (length A, length A + length B)%nat ->
  InsertRangeInCanonicalList l (length A + length B + length C) insert
  = Some (A ++ merged insert B :: C ++ drop (length A + 1 + length C) l, length A + 1 + length C)%nat.
Proof.
  intros Hl HD Hcan Hv Hpos. unfold InsertRangeInCanonicalList. rewrite Hpos. cbn [mbind option_bind].
  apply can_app in Hcan as [HcA Hcan]. apply can_app in Hcan as [HcB _]. pose proof (end_of_le _ _ HcA) as HleA.
  destruct B as [|b B].
  - cbn [length]. rewrite !Nat.add_0_r, Nat.eqb_refl. destruct (Nat.ltb_spec (length A) (length A + length C)) as [H|H].
    + pose proof (store_moved l A [] C D Hl HD (length A) ltac:(cbn; lia)) as Hm. cbn [length] in Hm.
      rewrite Nat.add_0_r, (proj2 (Nat.ltb_lt _ _)) in Hm by lia. rewrite Hm. cbn [mbind option_bind].
      rewrite (store_put_moved l A [] C D) by done. cbn [mbind option_bind merged].
      do 2 f_equal; lia.
    + assert (C = []) as -> by (destruct C; [done|cbn in *; lia]). cbn [mbind option_bind].
      rewrite (store_last l A [] [] D) by done. cbn [mbind option_bind merged]. do 2 f_equal; cbn; lia.
  - destruct (Nat.eqb_spec (length A) (length A + length (b :: B))) as [H|_]; [cbn in H; lia|].
    assert (Hfirst : l !! length A = Some b) by (rewrite Hl, lookup_app_r, Nat.sub_diag by lia; done).
    destruct (Nat.eqb_spec (length A + 1) (length A + length (b :: B))) as [HB|HB].
    + destruct B as [|b2 B]; [|cbn in HB; lia]. rewrite Hfirst. cbn [mbind option_bind].
      pose proof (merged_Range insert b [] _ Hv HcB HleA) as Hm. cbn [end_of] in Hm.
      replace (to b + 1 - 1) with (to b) in Hm by lia. rewrite Hm.
      rewrite (store_single l A [b] C D _ Hl HD b) by done. cbn [mbind option_bind length]. do 2 f_equal; lia.
    + rewrite Hfirst. cbn [mbind option_bind].
      destruct (exists_last (l := b :: B)) as (B' & b' & HB'); [done|].
      assert (Hlast : l !! (length A + length (b :: B) - 1)%nat = Some b').
      { rewrite Hl, HB', length_app. cbn [length].
        rewrite lookup_app_r, lookup_app_l, lookup_app_r by (rewrite ?length_app; cbn; lia).
        by replace (length A + (length B' + 1) - 1 - length A - length B')%nat with 0%nat by lia. }
      rewrite Hlast. cbn [mbind option_bind].
      replace (to b') with (end_of (end_of (-1) A) (b :: B) - 1) by (rewrite HB', <- last_end_of; lia).
      rewrite merged_Range, (store_moved l A (b :: B) C D) by done. cbn [mbind option_bind].
      rewrite (store_put_moved l A (b :: B) C D) by done. cbn [mbind option_bind].
      do 2 f_equal; lia.
Qed.

(** The part of the list after the result keeps what it holds. *)
Lemma InsertRangeInCanonicalList_spec l count insert :
  (count < length l)%nat -> can (-1) (take count l) -> valid insert ->
  exists l' n', InsertRangeInCanonicalList l count insert = Some (l', n')
    /\ (n' <= count + 1)%nat /\ length l' = length l /\ drop (count + 1) l' = drop (count + 1) l
    /\ can (-1) (take n' l')
    /\ forall c, in_ranges c (take n' l') = true
                 <-> in_ranges c (take count l) = true \/ from insert <= c <= to insert.
Proof.
  intros Hlen Hcan Hv. pose proof Hv as [Hv1 Hv2].
  destruct (find_positions_spec l (from insert) (to insert) count count (-1) [] [])
    as (A & B & C & Hpos & Hcut).
  { by rewrite app_nil_r. }
  { lia. }
  { by rewrite !app_nil_r. }
  { lia. }
  { constructor. }
  { constructor. }
  rewrite !app_nil_r in Hcut. pose proof Hcut as (Hl & _).
  destruct (merged_can (-1) insert A B C) as [Hcan' Hin]; [by rewrite <- Hl|done|lia|lia|by rewrite <- Hl|].
  rewrite <- Hl in Hin. set (X := A ++ merged insert B :: C) in *.
  assert (HD : l = A ++ B ++ C ++ drop count l).
  { rewrite !app_assoc, <- (app_assoc A), <- Hl. by rewrite take_drop. }
  set (D := drop count l) in *.
  assert (HlenD : (1 <= length D)%nat) by (subst D; rewrite length_drop; lia).
  assert (Hcount : count = (length A + length B + length C)%nat).
  { apply (f_equal length) in Hl. rewrite length_take, !length_app in Hl. lia. }
  assert (HlenX : length X = (length A + 1 + length C)%nat) by (subst X; rewrite length_app; cbn; lia).
  assert (HAC : (length X <= count + 1)%nat) by lia.
  enough (InsertRangeInCanonicalList l count insert = Some (X ++ drop (length X) l, length X)) as ->.
  { exists (X ++ drop (length X) l), (length X).
    split_and!; [done|done| | |by rewrite take_app_length|by rewrite take_app_length].
    - rewrite length_app, length_drop. lia.
    - rewrite drop_app_ge, drop_drop by lia. f_equal. lia. }
  replace (X ++ drop (length X) l) with (A ++ merged insert B :: C ++ drop (length A + 1 + length C) l)
    by (rewrite HlenX; subst X; by rewrite <- app_assoc).
  rewrite HlenX. clearbody X D. clear HAC HlenX Hin Hcan'. subst count.
  eapply InsertRange_stored; try done. by rewrite Hl in Hcan.
Qed.

Lemma insert_loop_spec todo read l num :
  (read + todo = length l)%nat -> (num <= read)%nat -> can (-1) (take num l) -> Forall valid (drop read l) ->
  exists l' num', insert_loop todo read l num = Some (l', num') /\ (num' <= length l)%nat /\ length l' = length l
    /\ can (-1) (take num' l')
    /\ forall c, in_ranges c (take num' l') = true
                 <-> in_ranges c (take num l) = true \/ in_ranges c (drop read l) = true.
Proof.
  revert read l num. induction todo as [|todo IH]; intros read l num Hlen Hnum Hcan Hv; cbn [insert_loop].
  - exists l, num. split_and!; [done|lia|done|done|]. intros c. rewrite drop_ge by lia. cbn. intuition done.
  - destruct (lookup_lt_is_Some_2 l read) as [r Er]; [lia|]. rewrite Er. cbn [mbind option_bind].
    rewrite (drop_S _ _ _ Er) in Hv |- *. apply Forall_cons in Hv as [Hr Hv].
    destruct (InsertRangeInCanonicalList_spec l num r) as (l1 & n1 & -> & Hn1 & Hl1 & Hdrop & Hcan1 & Hin1);
      [lia|done|done|]. cbn [mbind option_bind].
    assert (Hrest : drop (S read) l1 = drop (S read) l).
    { replace (S read) with (num + 1 + (read - num))%nat by lia. by rewrite <- !(drop_drop _ (read - num)), Hdrop. }
    destruct (IH (S read) l1 n1) as (l' & n' & -> & Hn' & Hl' & Hcan' & Hin'); [lia|lia|done|by rewrite Hrest|].
    exists l', n'. split_and!; [done|lia|lia|done|]. intros c.
    rewrite Hin', Hrest, Hin1, in_ranges_cons. tauto.
Qed.

Lemma canonical_prefix_spec max i rest :
  Forall valid rest ->
  let j := canonical_prefix max i rest in
  (i <= j <= i + length rest)%nat /\ can (max + 1) (take (j - i) rest).
Proof.
  intros Hv. revert max i. induction Hv as [|r rest [Hr1 Hr2] Hv IH]; intros max i; cbn [canonical_prefix length].
  - cbn. split; [lia|by rewrite Nat.sub_diag].
  - destruct (Z.leb_spec (from r) (max + 1)).
    + cbn zeta. split; [lia|by rewrite Nat.sub_diag].
    + cbn zeta in *. destruct (IH (to r) (S i)) as [H1 H2]. split; [lia|].
      replace (canonical_prefix (to r) (S i) rest - i)%nat with
        (S (canonical_prefix (to r) (S i) rest - S i)) by lia. cbn [take can]. split_and!; [lia|lia|done|done].
Qed.

Lemma Canonicalize_spec l :
  Forall valid l ->
  exists l', Canonicalize l = Some l' /\ can (-1) l' /\ (length l' <= length l)%nat
    /\ forall c, in_ranges c l' = in_ranges c l.
Proof.
  intros Hv. destruct l as [|first [|second rest]] eqn:El.
  - by exists [].
  - exists [first]. split_and!; [done| |done|done]. apply Forall_cons in Hv as [[H1 H2] _]. cbn. intuition lia.
  - pose proof Hv as Hv'. apply Forall_cons in Hv' as [[H1 H2] Hv'].
    destruct (canonical_prefix_spec (to first) 1 (second :: rest) Hv') as [Hi Hcan].
    unfold Canonicalize. cbv zeta. rewrite <- El in *.
    assert (Hlen : length l = S (length (second :: rest))) by (by rewrite El).
    set (i := canonical_prefix (to first) 1 (second :: rest)) in *.
    assert (Hcan1 : can (-1) (take i l)).
    { rewrite El. destruct i as [|i']; [lia|]. cbn [take can]. rewrite Nat.sub_succ, Nat.sub_0_r in Hcan.
      split_and!; [lia|lia|lia|done]. }
    destruct (Nat.eqb_spec i (length l)) as [E|E].
    + exists l. rewrite E, take_ge in Hcan1 by lia. split_and!; [done|done|lia|done].
    + destruct (insert_loop_spec (length l - i) i l i) as (l' & n' & -> & Hn' & Hl' & Hcan' & Hin');
        [lia|lia|done|by apply Forall_drop|].
      exists (take n' l'). split_and!; [done|done|rewrite length_take; lia|]. intros c.
      apply eq_iff_eq_true. rewrite Hin', <- in_ranges_app, take_drop. done.
Qed.

(** C25: Canonicalize ends with a canonical list of no more ranges, made in place, that
    covers the same characters. *)
Theorem Canonicalize_correct l :
  Forall valid l ->
  exists l', Canonicalize l = Some l' /\ IsCanonical l' = true /\ Forall valid l'
    /\ (length l' <= length l)%nat /\ forall c, in_ranges c l' = in_ranges c l.
Proof.
  intros Hv. destruct (Canonicalize_spec l Hv) as (l' & E & Hcan & Hlen & Hin).
  exists l'. split_and!; [done|by apply can_IsCanonical|by apply (can_valid (-1))|done|done].
Qed.

Lemma Canonicalize_correct_witness :
  exists l', Canonicalize [MkRange 10 20; MkRange 30 40; MkRange 5 9; MkRange 19 31; MkRange 60 70] = Some l'
    /\ l' = [MkRange 5 40; MkRange 60 70].
Proof.
  destruct (Canonicalize_correct [MkRange 10 20; MkRange 30 40; MkRange 5 9; MkRange 19 31; MkRange 60 70])
    as (l' & E & _).
  { repeat constructor; unfold kMaxUC16CharCode; cbn; lia. }
  exists l'. split; [exact E|]. vm_compute in E. by injection E.
Defined.

(** ** The standard classes *)

(** The characters that the lists of bounds stand for. *)
Fixpoint in_bounds (c : Z) (elmv : list Z) : bool :=
  match elmv with
  | f :: t :: elmv => ((f <=? c) && (c <=? t)) || in_bounds c elmv
  | _ => false
  end.

(** Bounds in order, with a gap before and after each pair. *)
Fixpoint bounds_ok (last : Z) (elmv : list Z) : Prop :=
  match elmv with
  | f :: t :: elmv => last < f <= t /\ t < kMaxUC16CharCode /\ bounds_ok (t + 1) elmv
  | [] => True
  | _ => False
  end.

Lemma pairs_ind (P : list Z -> Prop) :
  P [] -> (forall x, P [x]) -> (forall x y l, P l -> P (x :: y :: l)) -> forall l, P l.
Proof.
  intros H0 H1 H2. fix IH 1. intros [|x [|y l]]; [exact H0|apply H1|apply H2, IH].
Qed.

Lemma AddClass_spec elmv last l :
  bounds_ok last elmv -> -1 <= last ->
  exists l', AddClass elmv l = l ++ l' /\ can last l' /\ forall c, in_ranges c l' = in_bounds c elmv.
Proof.
  revert last l. induction elmv as [|x|f t elmv IH] using pairs_ind; intros last l Hb Hlast.
  - exists []. cbn. rewrite app_nil_r. done.
  - done.
  - destruct Hb as (H1 & H2 & H3). cbn [AddClass].
    destruct (IH (t + 1) (l ++ [Range f t]) H3 ltac:(lia)) as (l' & -> & Hcan & Hin).
    rewrite Range_id by lia. exists (MkRange f t :: l'). rewrite <- app_assoc. split_and!; [done| |].
    + cbn. split_and!; [lia|lia|lia|done].
    + intros c. apply eq_iff_eq_true. rewrite in_ranges_cons, Hin. cbn.
      rewrite orb_true_iff, andb_true_iff, !Z.leb_le. tauto.
Qed.


Lemma negated_spec elmv last l :
  bounds_ok last elmv -> 0 <= last <= kMaxUC16CharCode ->
  exists l', (let '(last, ranges) := negated_loop last elmv l in ranges ++ [Range last kMaxUC16CharCode]) = l ++ l'
    /\ can (last - 1) l'
    /\ forall c, last <= c <= kMaxUC16CharCode -> in_ranges c l' = negb (in_bounds c elmv).
Proof.
  revert last l. induction elmv as [|x|f t elmv IH] using pairs_ind; intros last l Hb Hlast.
  - exists [Range last kMaxUC16CharCode]. cbn [negated_loop]. unfold kMaxUC16CharCode in *.
    rewrite Range_id by (unfold kMaxUC16CharCode; lia). split_and!; [done|cbn; unfold kMaxUC16CharCode; lia|].
    intros c Hc. cbn [in_bounds negb]. apply in_ranges_cons. left. cbn. lia.
  - done.
  - destruct Hb as (H1 & H2 & H3). cbn [negated_loop].
    assert (uint 16 (t + 1) = t + 1) as -> by (unfold uint, kMaxUC16CharCode in *; rewrite Z.mod_small; lia).
    destruct (IH (t + 1) (l ++ [Range last (f - 1)]) H3 ltac:(lia)) as (l' & E & Hcan & Hin).
    rewrite E, Range_id by lia. exists (MkRange last (f - 1) :: l'). rewrite <- app_assoc.
    split_and!; [done| |].
    + cbn. split_and!; [lia|lia|lia|]. by apply (can_lower (t + 1 - 1)); [lia|].
    + intros c Hc. cbn [in_bounds]. destruct (decide (c <= t)) as [Hct|Hct].
      * assert (in_ranges c l' = false) as Hl'.
        { apply not_in_ranges. intros H. pose proof (can_in _ _ _ Hcan H). lia. }
        assert (in_bounds c elmv = false) as ->.
        { clear -H3 Hct. revert H3 Hct. generalize t as z. induction elmv as [|x|f' t' elmv IH] using pairs_ind;
            intros z Hb Hct; [done..|]. destruct Hb as (H1 & H2 & H3). cbn [in_bounds].
          rewrite (IH t' H3) by lia. destruct (Z.leb_spec f' c); [lia|done]. }
        rewrite orb_false_r. apply eq_iff_eq_true. rewrite in_ranges_cons, Hl', negb_true_iff.
        rewrite andb_false_iff, !Z.leb_gt. cbn [from to]. intuition (lia || done).
      * rewrite (proj2 (Z.leb_gt c t)) by lia. rewrite andb_false_r. cbn [orb]. rewrite <- Hin by lia.
        apply eq_iff_eq_true. rewrite in_ranges_cons. cbn [from to]. intuition lia.
Qed.

Lemma AddClassNegated_spec elmv l :
  bounds_ok 0 elmv ->
  exists l', AddClassNegated elmv l = l ++ l' /\ can (-1) l'
    /\ forall c, 0 <= c <= kMaxUC16CharCode -> in_ranges c l' = negb (in_bounds c elmv).
Proof. intros Hb. apply (negated_spec elmv 0 l Hb). unfold kMaxUC16CharCode. lia. Qed.

(** The set that an escape stands for, as a test of characters. *)
Definition class_escape (type c : Z) : option bool :=
  match type with
  | 115 => Some (in_bounds c kSpaceRanges)
  | 83 => Some (negb (in_bounds c kSpaceRanges))
  | 119 => Some (in_bounds c kWordRanges)
  | 87 => Some (negb (in_bounds c kWordRanges))
  | 100 => Some (in_bounds c kDigitRanges)
  | 68 => Some (negb (in_bounds c kDigitRanges))
  | 46 => Some (negb (in_bounds c kLineTerminatorRanges))
  | 42 => Some true
  | 110 => Some (in_bounds c kLineTerminatorRanges)
  | _ => None
  end.

Lemma word_bounds_ok : bounds_ok 0 kWordRanges.
Proof. cbn. unfold kMaxUC16CharCode. lia. Qed.

(** AddClassEscape appends a canonical list of exactly the characters of the class
    (and reaches UNREACHABLE exactly for a letter that is none of the nine). *)
Theorem AddClassEscape_correct type l :
  match AddClassEscape type l with
  | Some l' => exists added, l' = l ++ added /\ IsCanonical added = true /\ Forall valid added
      /\ forall c, 0 <= c <= kMaxUC16CharCode -> Some (in_ranges c added) = class_escape type c
  | None => forall c, class_escape type c = None
  end.
Proof.
  assert (Hs : bounds_ok 0 kSpaceRanges) by (cbn; unfold kMaxUC16CharCode; lia).
  assert (Hd : bounds_ok 0 kDigitRanges) by (cbn; unfold kMaxUC16CharCode; lia).
  assert (Hl : bounds_ok 0 kLineTerminatorRanges) by (cbn; unfold kMaxUC16CharCode; lia).
  pose proof word_bounds_ok as Hw.
  assert (Hpos : forall elmv, bounds_ok 0 elmv -> exists added, AddClass elmv l = l ++ added
    /\ IsCanonical added = true /\ Forall valid added
    /\ forall c, 0 <= c <= kMaxUC16CharCode -> Some (in_ranges c added) = Some (in_bounds c elmv)).
  { intros elmv Hb. destruct (AddClass_spec elmv 0 l Hb ltac:(lia)) as (l' & E & Hcan & Hin). exists l'.
    apply (can_lower 0 (-1)) in Hcan; [|lia].
    split_and!; [done|by apply can_IsCanonical|by apply (can_valid (-1))|]. intros c _. by rewrite Hin. }
  assert (Hneg : forall elmv, bounds_ok 0 elmv -> exists added, AddClassNegated elmv l = l ++ added
    /\ IsCanonical added = true /\ Forall valid added
    /\ forall c, 0 <= c <= kMaxUC16CharCode -> Some (in_ranges c added) = Some (negb (in_bounds c elmv))).
  { intros elmv Hb. destruct (AddClassNegated_spec elmv l Hb) as (l' & E & Hcan & Hin). exists l'.
    split_and!; [done|by apply can_IsCanonical|by apply (can_valid (-1))|]. intros c Hc. by rewrite Hin. }
  assert (Hall : exists added, l ++ [Everything] = l ++ added /\ IsCanonical added = true /\ Forall valid added
    /\ forall c, 0 <= c <= kMaxUC16CharCode -> Some (in_ranges c added) = Some true).
  { exists [Everything]. split_and!; [done|done| |].
    - repeat constructor; done.
    - intros c Hc. f_equal. apply in_ranges_cons. by left. }
  unfold AddClassEscape, class_escape.
  repeat first [done | case_goal];
    match goal with H : Some ?a = Some ?b |- _ => assert (b = a) as -> by congruence; clear H end;
    first [exact Hall | by apply Hpos | by apply Hneg].
Qed.

(** ** Negation *)

Lemma negate_loop_spec l f neg :
  can (f + 1) l -> -1 <= f ->
  exists l' f', negate_loop f l neg = (f', neg ++ l') /\ f <= f' /\ f' + 1 = end_of (f + 1) l
    /\ can f l' /\ Forall (fun r => to r < f') l'
    /\ forall c, f < c <= f' -> in_ranges c l' = negb (in_ranges c l).
Proof.
  revert f neg. induction l as [|r l IH]; intros f neg Hcan Hf; cbn [negate_loop].
  - exists [], f. rewrite app_nil_r. split_and!; done || lia.
  - destruct Hcan as (H1 & H2 & H3).
    destruct (IH (to r) (neg ++ [Range (f + 1) (from r - 1)]) H3 ltac:(lia))
      as (l' & f' & -> & Hf' & Hend & Hcan' & Hto & Hin).
    rewrite Range_id by lia. exists (MkRange (f + 1) (from r - 1) :: l'), f'.
    rewrite <- app_assoc. split_and!; [done|lia|done| | |].
    + cbn. split_and!; [lia|lia|lia|]. by apply (can_lower (to r)); [lia|].
    + constructor; [cbn; lia|done].
    + intros c Hc. apply eq_iff_eq_true. rewrite in_ranges_cons, negb_true_iff, not_in_ranges, in_ranges_cons.
      cbn [from to]. destruct (decide (c <= to r)).
      * assert (~ in_ranges c l = true) by (intros H; pose proof (can_in _ _ _ H3 H); lia).
        assert (~ in_ranges c l' = true) by (intros H'; pose proof (can_in _ _ _ Hcan' H'); lia).
        intuition lia.
      * rewrite Hin, negb_true_iff, not_in_ranges by lia. intuition lia.
Qed.


Definition negate_rest (f : Z) (rest negated_ranges : list CharacterRange) : list CharacterRange :=
  let '(f, negated_ranges) := negate_loop f rest negated_ranges in
  if f <? kMaxUC16CharCode then negated_ranges ++ [Range (f + 1) kMaxUC16CharCode] else negated_ranges.

Lemma can_end_le lo l : lo <= kMaxUC16CharCode + 1 -> can lo l -> end_of lo l <= kMaxUC16CharCode + 1.
Proof.
  revert lo. induction l as [|r l IH]; intros lo Hlo; cbn; [done|].
  intros (H1 & H2 & H3). apply IH; [lia|done].
Qed.

Lemma negate_rest_spec f rest neg :
  can (f + 1) rest -> 0 <= f <= kMaxUC16CharCode ->
  exists l', negate_rest f rest neg = neg ++ l' /\ can f l'
    /\ forall c, f < c <= kMaxUC16CharCode -> in_ranges c l' = negb (in_ranges c rest).
Proof.
  intros Hcan Hf. unfold negate_rest.
  destruct (negate_loop_spec rest f neg Hcan ltac:(lia)) as (l' & f' & -> & Hf' & Hend & Hcan' & Hto & Hin).
  assert (Hmax : f' <= kMaxUC16CharCode) by (pose proof (can_end_le (f + 1) rest ltac:(lia) Hcan); lia).
  assert (Hafter : forall c, f' < c -> in_ranges c rest = false).
  { intros c Hc. apply not_in_ranges. intros H. pose proof (can_in _ _ _ Hcan H). lia. }
  destruct (Z.ltb_spec f' kMaxUC16CharCode) as [Hlt|Hlt].
  - rewrite Range_id by (unfold kMaxUC16CharCode in *; lia).
    exists (l' ++ [MkRange (f' + 1) kMaxUC16CharCode]). rewrite app_assoc. split_and!; [done| |].
    + apply can_app. split; [done|]. cbn. split_and!; [|lia|lia|done].
      apply (end_of_lt f (f' + 1)); [lia|]. eapply Forall_impl; [exact Hto|]. cbn. lia.
    + intros c Hc. apply eq_iff_eq_true. rewrite in_ranges_app, in_ranges_cons. cbn [from to].
      destruct (decide (c <= f')) as [Hc'|Hc'].
      * rewrite Hin by lia. cbn. intuition (lia || done).
      * rewrite (Hafter c) by lia. cbn. intuition (lia || done).
  - exists l'. split_and!; [done|done|]. intros c Hc. apply Hin. lia.
Qed.

(** The result of a negation: an empty range comes first when the list starts with the
    character 1. *)
Lemma Negate_shape l :
  Forall valid l -> IsCanonical l = true ->
  exists pre l', Negate l [] = pre ++ l'
    /\ (pre = [] /\ can (-1) l' /\ from <$> head l <> Some 1
        \/ pre = [MkRange 1 0] /\ can 1 l' /\ from <$> head l = Some 1)
    /\ forall c, 0 <= c <= kMaxUC16CharCode -> in_ranges c l' = negb (in_ranges c l) && negb (c =? 0).
Proof.
  intros Hv Hcan. apply can_canonical in Hcan; [|done].
  assert (Hrest : forall f neg rest, 0 <= f <= kMaxUC16CharCode -> can (f + 1) rest ->
    (forall c, f < c <= kMaxUC16CharCode -> in_ranges c rest = in_ranges c l) ->
    (forall c, 0 < c <= f -> in_ranges c l = true) ->
    exists l', negate_rest f rest neg = neg ++ l' /\ can f l' /\
      forall c, 0 <= c <= kMaxUC16CharCode -> in_ranges c l' = negb (in_ranges c l) && negb (c =? 0)).
  { intros f neg rest Hf Hr Hgt Hle. destruct (negate_rest_spec f rest neg Hr Hf) as (l' & E & Hl' & Hin).
    exists l'. split_and!; [done..|]. intros c Hc. destruct (decide (c <= f)) as [Hcf|Hcf].
    - assert (in_ranges c l' = false) as ->.
      { apply not_in_ranges. intros H. pose proof (can_in _ _ _ Hl' H). lia. }
      destruct (Z.eqb_spec c 0); [by rewrite andb_false_r|]. by rewrite Hle by lia.
    - rewrite Hin, Hgt, (proj2 (Z.eqb_neq c 0)), andb_true_r by lia. done. }
  destruct l as [|r rest].
  - destruct (Hrest 0 [] []) as (l' & E & Hl' & Hin); [unfold kMaxUC16CharCode; lia|done|done|lia|].
    exists [], l'. split_and!; [exact E| |done]. left. split_and!; [done|by apply (can_lower 0)|done].
  - pose proof Hcan as (H1 & H2 & H3).
    assert (Hgt : forall c, to r < c <= kMaxUC16CharCode -> in_ranges c rest = in_ranges c (r :: rest)).
    { intros c Hc. apply eq_iff_eq_true. rewrite in_ranges_cons. intuition lia. }
    assert (Hle : from r <= 1 -> forall c, 0 < c <= to r -> in_ranges c (r :: rest) = true).
    { intros Hf c Hc. apply in_ranges_cons. left. lia. }
    destruct (decide (from r = 0)) as [E0|E0]; [|destruct (decide (from r = 1)) as [E1|E1]].
    + destruct (Hrest (to r) [] rest) as (l' & E & Hl' & Hin); [lia|done|done|apply Hle; lia|].
      exists [], l'. split_and!; [|left; split_and!; [done|apply (can_lower (to r)); [lia|done]|cbn; congruence]|done].
      rewrite <- E. unfold Negate. by rewrite E0.
    + destruct (Hrest (to r) [Range 1 0] rest) as (l' & E & Hl' & Hin); [lia|done|done|apply Hle; lia|].
      exists [MkRange 1 0], l'. split_and!; [| |done].
      * change [MkRange 1 0] with [Range 1 0]. rewrite <- E. unfold Negate. rewrite E1.
        unfold negate_rest. cbn [negate_loop Z.eqb app]. by rewrite E1.
      * right. split_and!; [done|apply (can_lower (to r)); [lia|done]|cbn; by rewrite E1].
    + destruct (Hrest 0 [] (r :: rest)) as (l' & E & Hl' & Hin);
        [unfold kMaxUC16CharCode; lia|cbn; split_and!; lia || done|done|lia|].
      exists [], l'. split_and!; [|left; split_and!; [done|by apply (can_lower 0)|cbn; congruence]|done].
      rewrite <- E. unfold Negate. by rewrite (proj2 (Z.eqb_neq _ _) E0).
Qed.

Lemma in_empty_range c l : in_ranges c (MkRange 1 0 :: l) = in_ranges c l.
Proof. apply eq_iff_eq_true. rewrite in_ranges_cons. cbn. intuition lia. Qed.

(** Negate of a canonical list covers exactly the other characters but the
    character 0, which is never in the result; the result is canonical unless the list
    starts with the character 1, where its first range is empty (from 1 to 0). *)
Theorem Negate_correct l :
  Forall valid l -> IsCanonical l = true ->
  (forall c, 0 <= c <= kMaxUC16CharCode ->
     in_ranges c (Negate l []) = negb (in_ranges c l) && negb (c =? 0)) /\
  (from <$> head l <> Some 1 -> IsCanonical (Negate l []) = true /\ Forall valid (Negate l [])).
Proof.
  intros Hv Hcan. destruct (Negate_shape l Hv Hcan) as (pre & l' & -> & [(-> & Hl' & _)|(-> & Hl' & H1)] & Hin).
  - split; [exact Hin|]. intros _. split; [by apply can_IsCanonical|by apply (can_valid (-1))].
  - split; [|done]. intros c Hc. cbn [app]. rewrite in_empty_range. by apply Hin.
Qed.

Lemma Negate_correct_witness : in_ranges 0 (Negate [MkRange 5 9] []) = false /\ in_ranges 4 (Negate [MkRange 5 9] []) = true.
Proof.
  destruct (Negate_correct [MkRange 5 9]) as [H _].
  - repeat constructor; cbn; unfold kMaxUC16CharCode; lia.
  - done.
  - split; rewrite H by (unfold kMaxUC16CharCode; lia); reflexivity.
Defined.
