(* ===== verification/CharacterRangeSets.v ===== *)
(** * CharacterRangeSets: relations, merges and word boundaries

    The theorems on the operations of the file CharacterRange that relate sets of
    characters: the relation to the characters of a word, the merge into up to three
    lists, the recognition of standard classes, and the analysis of a word boundary
    before a text (src/jsregexp.cc). *)

From S2P Require Import Prelude CharacterRange.
Local Open Scope Z_scope.

(** ** The relation to the characters of a word *)

(** The bits of a [SetRelation]. *)
Definition relation (first second both : bool) : Z :=
  (if first then 2 else 0) + (if second then 4 else 0) + (if both then 8 else 0).

Lemma SetElementsInFirstSet_relation f s b : SetElementsInFirstSet (relation f s b) = relation true s b.
Proof. by destruct f, s, b. Qed.
Lemma SetElementsInSecondSet_relation f s b : SetElementsInSecondSet (relation f s b) = relation f true b.
Proof. by destruct f, s, b. Qed.
Lemma SetElementsInBothSets_relation f s b : SetElementsInBothSets (relation f s b) = relation f s true.
Proof. by destruct f, s, b. Qed.

Lemma relation_tests f s b :
  Disjoint (relation f s b) = negb b /\ ContainedIn (relation f s b) = negb f /\
  ContainsSecond (relation f s b) = negb s /\
  NonTrivialIntersection (relation f s b) = f && s && b.
Proof. by destruct f, s, b. Qed.

Lemma in_bounds_cons c f t l : in_bounds c (f :: t :: l) = true <-> f <= c <= t \/ in_bounds c l = true.
Proof. cbn [in_bounds]. rewrite orb_true_iff, andb_true_iff, !Z.leb_le. tauto. Qed.

Lemma bounds_in lo l c : bounds_ok lo l -> in_bounds c l = true -> lo < c.
Proof.
  revert lo. induction l as [|x|f t l IH] using pairs_ind; intros lo; [done..|].
  intros (H1 & H2 & H3) [Hc|Hc]%in_bounds_cons; [lia|]. specialize (IH _ H3 Hc). lia.
Qed.

(** What one comparison adds. *)
Lemma compare_ranges_spec h wf wt f s b :
  from h <= to h -> wf <= wt ->
  exists f1 s1 b1, compare_ranges h (MkRange wf wt) (relation f s b) = relation f1 s1 b1
    /\ (b1 = true <-> b = true \/ (from h <= wt /\ wf <= to h))
    /\ (f1 = true <-> f = true \/ (from h < wf /\ from h <= wt))
    /\ (s = true -> s1 = true)
    /\ (s1 = false -> to h < wf \/ (wf = from h /\ wt = from h)).
Proof.
  intros Hh Hw. unfold compare_ranges. cbn [from to].
  destruct (Z.ltb_spec wt (from h)).
  { rewrite SetElementsInSecondSet_relation. exists f, true, b. split_and!; [done|intuition lia..|done]. }
  destruct (Z.ltb_spec (to h) wf).
  { rewrite SetElementsInFirstSet_relation. exists true, s, b. split_and!; [done|intuition lia..]. }
  destruct (Z.leb_spec wf (from h)), (Z.leb_spec (from h) wt); cbn [andb]; try lia.
  - rewrite SetElementsInBothSets_relation.
    destruct (Z.ltb_spec wf (from h)), (Z.ltb_spec (from h) wt); cbn [orb];
      rewrite ?SetElementsInSecondSet_relation.
    all: first [by exists f, true, true; split_and!; [done|intuition lia..|done]
               |exists f, s, true; split_and!; [done|intuition lia..]].
  - rewrite (proj2 (Z.leb_le (from h) wf)), (proj2 (Z.leb_gt wt (from h))) by lia. cbn [andb].
    rewrite SetElementsInFirstSet_relation, SetElementsInSecondSet_relation, SetElementsInBothSets_relation.
    exists true, true, true. split_and!; [done|intuition lia..|done].
Qed.


Lemma not_in_bounds c l : in_bounds c l = false <-> ~ in_bounds c l = true.
Proof. by rewrite not_true_iff_false. Qed.

(** One round of the loop: [a'] and [w'] are what it leaves of [h :: a] and of the
    word range and [w]; the ends of the ranges that were passed are [La'] and [Lw']. *)
Section round.
Context (h : CharacterRange) (a a' : list CharacterRange) (wf wt : Z) (w w' : list Z) (La La' Lw Lw' : Z).
Context (Hh : La + 1 < from h <= to h) (Hw : Lw + 1 < wf <= wt).
Context (Hgt_a : forall c, in_ranges c a = true -> to h + 1 < c).
Context (Hgt_w : forall c, in_bounds c w = true -> wt + 1 < c).
Context (Hto : Lw < to h).
Context (Ha' : forall c, in_ranges c a' = true <-> in_ranges c a = true \/ (wt < to h /\ from h <= c <= to h)).
Context (Hw' : forall c, in_bounds c w' = true <-> in_bounds c w = true \/ (to h < wt /\ wf <= c <= wt)).
Context (HLa' : La' = if to h <=? wt then to h else La) (HLw' : Lw' = if wt <=? to h then wt else Lw).

Lemma round_both b b1 :
  (b1 = true <-> b = true \/ (from h <= wt /\ wf <= to h)) ->
  (b1 = true \/ exists c, in_ranges c a' = true /\ in_bounds c w' = true) <->
  (b = true \/ exists c, in_ranges c (h :: a) = true /\ in_bounds c (wf :: wt :: w) = true).
Proof using All.
  intros ->. split.
  - intros [[?|?]|(c & H1 & H2)]; [by left| |]; right.
    + exists (Z.max (from h) wf). rewrite in_ranges_cons, in_bounds_cons. lia.
    + exists c. rewrite in_ranges_cons, in_bounds_cons. apply Ha' in H1. apply Hw' in H2. tauto.
  - intros [?|(c & H1 & H2)]; [by left; left|].
    apply in_ranges_cons in H1. apply in_bounds_cons in H2.
    destruct H1 as [H1|H1], H2 as [H2|H2].
    + left. right. lia.
    + right. exists c. rewrite Ha', Hw'. pose proof (Hgt_w _ H2). split; [right; lia|tauto].
    + right. exists c. rewrite Ha', Hw'. pose proof (Hgt_a _ H1). split; [tauto|right; lia].
    + right. exists c. rewrite Ha', Hw'. tauto.
Qed.

Lemma round_first f f1 :
  (f1 = true <-> f = true \/ (from h < wf /\ from h <= wt)) ->
  (f1 = true \/ exists c, Lw' < c /\ in_ranges c a' = true /\ in_bounds c w' = false) <->
  (f = true \/ exists c, Lw < c /\ in_ranges c (h :: a) = true /\ in_bounds c (wf :: wt :: w) = false).
Proof using All.
  intros ->. setoid_rewrite not_in_bounds. setoid_rewrite in_ranges_cons. setoid_rewrite in_bounds_cons.
  setoid_rewrite Ha'. setoid_rewrite Hw'. rewrite HLw'. split.
  - intros [[?|?]|(c & H0 & H1 & H2)]; [by left| |]; right.
    + exists (Z.min (to h) (wf - 1)). split_and!; [lia|left; lia|]. intros [?|Hx]; [lia|].
      specialize (Hgt_w _ Hx). lia.
    + exists c. destruct (Z.leb_spec wt (to h)); split_and!; [lia|tauto| |lia|tauto|].
      * intros [?|?]; [lia|tauto].
      * intros [?|?]; [|tauto]. apply H2. right. lia.
  - intros [?|(c & H0 & H1 & H2)]; [by left; left|].
    destruct (decide (from h < wf)); [left; right; lia|]. right. exists c.
    destruct H1 as [H1|H1].
    + assert (wt < c) by (destruct (decide (c <= wt)); [exfalso; apply H2; left|]; lia).
      rewrite (proj2 (Z.leb_le wt (to h))) by lia. split_and!; [lia|right; lia|].
      intros [?|?]; [tauto|lia].
    + specialize (Hgt_a _ H1). destruct (Z.leb_spec wt (to h)); (split_and!; [lia|tauto|]);
        intros [?|?]; (tauto || lia).
Qed.

Lemma round_second s1 :
  (s1 = false -> to h < wf \/ (wf = from h /\ wt = from h)) -> s1 = false ->
  (forall c, La' < c -> in_bounds c w' = true -> in_ranges c a' = true) ->
  forall c, La < c -> in_bounds c (wf :: wt :: w) = true -> in_ranges c (h :: a) = true.
Proof using All.
  intros Hs1 Hs H c Hc Hin. specialize (Hs1 Hs). rewrite in_ranges_cons. apply in_bounds_cons in Hin.
  setoid_rewrite Ha' in H. setoid_rewrite Hw' in H. rewrite HLa' in H. specialize (H c).
  destruct Hin as [Hin|Hin].
  - destruct Hs1 as [Hs1|Hs1]; [|left; lia]. rewrite (proj2 (Z.leb_le (to h) wt)) in H by lia.
    destruct H as [?|?]; [lia|right; lia|by right|lia].
  - specialize (Hgt_w _ Hin). destruct (Z.leb_spec (to h) wt).
    + destruct H as [?|?]; [lia|by left|by right|lia].
    + destruct H as [?|?]; [lia|by left|by right|left; lia].
Qed.
End round.

(** [La] and [Lw] are the ends of the ranges that were passed. *)
Lemma relation_loop_spec fuel w a f s b La Lw :
  (length w + length a < fuel)%nat -> -2 <= La -> -1 <= Lw -> bounds_ok (Lw + 1) w -> can (La + 1) a ->
  match a with h :: _ => Lw < to h | [] => True end ->
  match w with _ :: wt :: _ => La < wt | _ => True end ->
  exists f' s' b', relation_loop fuel w a (relation f s b) = Some (relation f' s' b')
    /\ (b' = true <-> b = true \/ exists c, in_ranges c a = true /\ in_bounds c w = true)
    /\ (f' = true <-> f = true \/ exists c, Lw < c /\ in_ranges c a = true /\ in_bounds c w = false)
    /\ (s = true -> s' = true)
    /\ (s' = false -> forall c, La < c -> in_bounds c w = true -> in_ranges c a = true).
Proof.
  revert w a f s b La Lw. induction fuel as [|fuel IH]; intros w a f s b La Lw Hfuel HLa HLw Hw Ha Hha Hhw; [lia|].
  destruct w as [|wf [|wt w]]; cbn [relation_loop]; [|done|].
  { destruct a as [|h a].
    - exists f, s, b. split_and!; try done; try tauto.
      + split; [by left|]. intros [?|(c & ? & ?)]; done.
      + split; [by left|]. intros [?|(c & _ & ? & _)]; done.
    - rewrite SetElementsInFirstSet_relation. exists true, s, b. split_and!; try done.
      + split; [by left|]. intros [?|(c & _ & ?)]; done.
      + split; [|done]. intros _. right. exists (to h). split_and!; [done| |done].
        apply in_ranges_cons. left. destruct Ha. lia. }
  destruct a as [|h a].
  { rewrite SetElementsInSecondSet_relation. exists f, true, b. split_and!; try done.
    - split; [by left|]. intros [?|(c & ? & _)]; done.
    - split; [by left|]. intros [?|(c & _ & ? & _)]; done. }
  destruct Hw as (Hw1 & Hw2 & Hw3). destruct Ha as (Ha1 & Ha2 & Ha3).
  rewrite Range_id by lia. cbv zeta. cbn [to].
  destruct (compare_ranges_spec h wf wt f s b) as (f1 & s1 & b1 & -> & Hb1 & Hf1 & Hss1 & Hs1); [lia|lia|].
  assert (Hgt_a : forall c, in_ranges c a = true -> to h + 1 < c) by (intros c H; pose proof (can_in _ _ _ Ha3 H); lia).
  assert (Hgt_w : forall c, in_bounds c w = true -> wt + 1 < c) by (intros c; apply bounds_in; done).
  set (a' := if to h <=? wt then a else h :: a). set (w' := if wt <=? to h then w else wf :: wt :: w).
  set (La' := if to h <=? wt then to h else La). set (Lw' := if wt <=? to h then wt else Lw).
  assert (Ha' : forall c, in_ranges c a' = true <-> in_ranges c a = true \/ (wt < to h /\ from h <= c <= to h)).
  { intros c. subst a'. destruct (Z.leb_spec (to h) wt); rewrite ?in_ranges_cons; intuition lia. }
  assert (Hw' : forall c, in_bounds c w' = true <-> in_bounds c w = true \/ (to h < wt /\ wf <= c <= wt)).
  { intros c. subst w'. destruct (Z.leb_spec wt (to h)); rewrite ?in_bounds_cons; intuition lia. }
  pose proof (round_both h a a' wf wt w w' La La' Lw Lw' Ha1 Hw1 Hgt_a Hgt_w Hha Ha' Hw' eq_refl eq_refl b b1 Hb1) as Hboth.
  pose proof (round_first h a a' wf wt w w' La La' Lw Lw' Ha1 Hw1 Hgt_a Hgt_w Hha Ha' Hw' eq_refl eq_refl f f1 Hf1) as Hfirst.
  pose proof (round_second h a a' wf wt w w' La La' Lw Lw' Ha1 Hw1 Hgt_a Hgt_w Hha Ha' Hw' eq_refl eq_refl s1 Hs1) as Hsecond.
  destruct (relation_tests f1 s1 b1) as (_ & _ & _ & ->).
  destruct (f1 && s1 && b1) eqn:E.
  - apply andb_true_iff in E as [[-> ->]%andb_true_iff ->]. exists true, true, true.
    split_and!; [done|rewrite <- Hboth; tauto|rewrite <- Hfirst; tauto|done|done].
  - destruct (IH w' a' f1 s1 b1 La' Lw') as (f' & s' & b' & Hloop & Hb' & Hf' & Hss' & Hs').
    + subst w' a'. destruct (Z.leb_spec (to h) wt), (Z.leb_spec wt (to h)); cbn [length] in *; lia.
    + subst La'. destruct (Z.leb_spec (to h) wt); lia.
    + subst Lw'. destruct (Z.leb_spec wt (to h)); lia.
    + subst w' Lw'. destruct (Z.leb_spec wt (to h)); [done|exact (conj Hw1 (conj Hw2 Hw3))].
    + subst a' La'. destruct (Z.leb_spec (to h) wt); [done|cbn; split_and!; done || lia].
    + subst a' Lw'. destruct (Z.leb_spec (to h) wt), (Z.leb_spec wt (to h)); try lia.
      * destruct a as [|h2 a]; [done|]. destruct Ha3. lia.
      * destruct a as [|h2 a]; [done|]. destruct Ha3. lia.
    + subst w' La'. destruct (Z.leb_spec (to h) wt), (Z.leb_spec wt (to h)); try lia.
      * destruct w as [|wf2 [|wt2 w]]; [done..|]. destruct Hw3. lia.
      * destruct w as [|wf2 [|wt2 w]]; [done..|]. destruct Hw3. lia.
    + exists f', s', b'. split_and!; [exact Hloop|by rewrite Hb'|by rewrite Hf'|by auto|].
      intros Hs. apply Hsecond; [|by apply Hs']. destruct s1; [|done]. by rewrite Hss' in Hs.
Qed.


Lemma WordCharacterRelation_spec range :
  Forall valid range -> IsCanonical range = true ->
  exists r, WordCharacterRelation range = Some r
    /\ (Disjoint r = true <-> forall c, in_ranges c range = true -> in_bounds c kWordRanges = false)
    /\ (ContainedIn r = true <-> forall c, in_ranges c range = true -> in_bounds c kWordRanges = true)
    /\ (ContainsSecond r = true -> forall c, in_bounds c kWordRanges = true -> in_ranges c range = true).
Proof.
  intros Hv Hcan. apply can_canonical in Hcan; [|done]. destruct range as [|h a].
  { exists (relation false true false). split_and!; [done|by split|by split|done]. }
  assert (Hpos : forall c, in_ranges c (h :: a) = true -> -1 < c) by (intros c Hc; pose proof (can_in (-1) _ _ Hcan Hc); lia).
  assert (Hposw : forall c, in_bounds c kWordRanges = true -> 0 < c).
  { intros c Hc. by apply (bounds_in 0 kWordRanges). }
  destruct (relation_loop_spec (S (length kWordRanges + length (h :: a))) kWordRanges (h :: a) false false false
    (-2) (-1)) as (f & s & b & E & Hb & Hf & _ & Hs); [lia|lia|lia|apply word_bounds_ok|done| |done|].
  { destruct Hcan as (H1 & _). lia. }
  exists (relation f s b). destruct (relation_tests f s b) as (-> & -> & -> & _).
  unfold WordCharacterRelation. split_and!; [exact E| | |].
  - rewrite negb_true_iff, <- not_true_iff_false, Hb. split.
    + intros H c Hc. apply not_true_iff_false. intros Hc'. apply H. right. by exists c.
    + intros H [?|(c & Hc & Hc')]; [done|]. by rewrite (H c Hc) in Hc'.
  - rewrite negb_true_iff, <- not_true_iff_false, Hf. split.
    + intros H c Hc. apply not_false_iff_true. intros Hc'. apply H. right. exists c. by split_and!; [apply Hpos| |].
    + intros H [?|(c & _ & Hc & Hc')]; [done|]. by rewrite (H c Hc) in Hc'.
  - intros H%negb_true_iff c Hc. apply Hs; [done| |done]. specialize (Hposw c Hc). lia.
Qed.

(** WordCharacterRelation of a canonical list: Disjoint and ContainedIn are
    exact, and Contains only answers true for a list that has every character of a
    word. *)
Theorem WordCharacterRelation_correct range :
  Forall valid range -> IsCanonical range = true ->
  exists r, WordCharacterRelation range = Some r
    /\ (Disjoint r = true <-> forall c, in_ranges c range = true -> in_bounds c kWordRanges = false)
    /\ (ContainedIn r = true <-> forall c, in_ranges c range = true -> in_bounds c kWordRanges = true)
    /\ (ContainsSecond r = true -> forall c, in_bounds c kWordRanges = true -> in_ranges c range = true).
Proof. apply WordCharacterRelation_spec. Qed.

Lemma WordCharacterRelation_correct_witness :
  exists r, WordCharacterRelation [MkRange 65 70; MkRange 97 97] = Some r /\ ContainedIn r = true.
Proof.
  destruct (WordCharacterRelation_correct [MkRange 65 70; MkRange 97 97]) as (r & E & _).
  - repeat constructor; cbn; unfold kMaxUC16CharCode; lia.
  - done.
  - exists r. split; [exact E|]. vm_compute in E. injection E as <-. reflexivity.
Defined.

(** The set of the characters of a word is not recognised as equal to itself. *)
Lemma Equals_incomplete :
  exists r, WordCharacterRelation (AddClass kWordRanges []) = Some r /\ Equals r = false.
Proof. by eexists. Qed.

(** ** Merge *)

(** *** The ranges in the order in which the loop adds them *)

Abbreviation Trace := (list (Z * Z * Z)).

Definition trace_select (tr : Trace) (selector f t : Z) : option Trace :=
  Some (if selector =? 0 then tr else tr ++ [(selector, f, t)]).

(** The set that a character is added to. *)
Fixpoint selected (c : Z) (tr : Trace) : Z :=
  match tr with
  | [] => 0
  | (s, f, t) :: tr => if (f <=? c) && (c <=? t) then s else selected c tr
  end.

Fixpoint increasing (lo : Z) (tr : Trace) : Prop :=
  match tr with
  | [] => True
  | (s, f, t) :: tr => lo <= f <= t /\ t <= kMaxUC16CharCode /\ 1 <= s <= 3 /\ increasing (t + 1) tr
  end.

Fixpoint trace_end (lo : Z) (tr : Trace) : Z :=
  match tr with [] => lo | (_, _, t) :: tr => trace_end (t + 1) tr end.

Lemma increasing_snoc lo tr s f t :
  increasing lo tr -> trace_end lo tr <= f <= t -> t <= kMaxUC16CharCode -> 1 <= s <= 3 ->
  increasing lo (tr ++ [(s, f, t)]) /\ trace_end lo (tr ++ [(s, f, t)]) = t + 1.
Proof.
  revert lo. induction tr as [|[[s' f'] t'] tr IH]; intros lo Hi Hf Ht Hs; cbn in *.
  - split_and!; done || lia.
  - destruct Hi as (H1 & H2 & H3 & H4). destruct (IH (t' + 1) H4 Hf Ht Hs) as [? ?]. split_and!; done || lia.
Qed.

Lemma trace_end_le lo tr : increasing lo tr -> lo <= trace_end lo tr.
Proof.
  revert lo. induction tr as [|[[s' f'] t'] tr IH]; intros lo; cbn; [lia|].
  intros (H1 & H2 & H3 & H4). specialize (IH _ H4). lia.
Qed.

Lemma selected_ge lo tr c : increasing lo tr -> trace_end lo tr <= c -> selected c tr = 0.
Proof.
  revert lo. induction tr as [|[[s' f'] t'] tr IH]; intros lo; cbn; [done|].
  intros (H1 & H2 & H3 & H4) Hc. pose proof (trace_end_le _ _ H4).
  rewrite (proj2 (Z.leb_gt c t')), andb_false_r by lia. by apply (IH (t' + 1)).
Qed.

Lemma selected_snoc lo tr s f t c :
  increasing lo tr -> trace_end lo tr <= f ->
  selected c (tr ++ [(s, f, t)]) = if (f <=? c) && (c <=? t) then s else selected c tr.
Proof.
  revert lo. induction tr as [|[[s' f'] t'] tr IH]; intros lo; cbn; [done|].
  intros (H1 & H2 & H3 & H4) Hf. pose proof (trace_end_le _ _ H4). rewrite (IH (t' + 1)) by done.
  destruct (Z.leb_spec f' c), (Z.leb_spec c t'); cbn [andb]; try done.
  by rewrite (proj2 (Z.leb_gt f c)) by lia.
Qed.

(** *** The loop keeps the characters apart *)

Section trace.
Context (A : Z -> Z -> bool).

(** Which of the two sets a character is in: [ElementInSetsRelation]. *)
Definition class (c : Z) : Z := (if A 1 c then 1 else 0) + (if A 2 c then 2 else 0).

Definition other (src : Z) : Z := 3 - src.

Lemma class_src src c : src = 1 \/ src = 2 ->
  class c = (if A src c then src else 0) + (if A (other src) c then other src else 0).
Proof.
  unfold class, other. intros [-> | ->]; [change (3 - 1) with 2|change (3 - 2) with 1];
    by destruct (A 1 c), (A 2 c).
Qed.

(** The characters before [b] are where they belong. *)
Definition done_until (b : Z) (tr : Trace) : Prop :=
  increasing 0 tr /\ trace_end 0 tr <= b /\ forall c, 0 <= c < b -> selected c tr = class c.

Lemma done_until_skip b b' tr :
  done_until b tr -> b <= b' -> 0 <= b -> (forall c, b <= c < b' -> class c = 0) -> done_until b' tr.
Proof.
  intros (H1 & H2 & H3) Hb H0 Hc. split_and!; [done|lia|]. intros c Hcb.
  destruct (decide (c < b)); [apply H3; lia|].
  rewrite Hc by lia. apply (selected_ge 0); [done|lia].
Qed.

Lemma done_until_emit b tr s f t tr' :
  done_until b tr -> trace_select tr s f t = Some tr' -> 1 <= s <= 3 -> 0 <= b -> b = f -> f <= t -> t <= kMaxUC16CharCode ->
  (forall c, f <= c <= t -> class c = s) -> done_until (t + 1) tr'.
Proof.
  intros (H1 & H2 & H3) Hsel Hs H0 -> Ht Hmax Hc. unfold trace_select in Hsel.
  rewrite (proj2 (Z.eqb_neq s 0)) in Hsel by lia. injection Hsel as <-.
  destruct (increasing_snoc 0 tr s f t H1) as [Hi He]; [lia|lia|lia|].
  split_and!; [done|lia|]. intros c Hcb. rewrite (selected_snoc 0) by done.
  destruct (Z.leb_spec f c), (Z.leb_spec c t); cbn [andb]; try lia.
  - symmetry. apply Hc. lia.
  - apply H3. lia.
Qed.

(** The state of the loop: the current range is [f, t] when [st] names a list, and
    [rsrc] and [roth] are the rests of the list [src] and of the other one. *)
Record merging (src : Z) (tr : Trace) (f t st : Z) (rsrc roth : list CharacterRange) : Prop := {
  mg_state : st = 0 \/ st = src \/ st = other src;
  mg_t : -1 <= t <= kMaxUC16CharCode;
  mg_current : st <> 0 -> 0 <= f <= t;
  mg_done : done_until (if st =? 0 then t + 1 else f) tr;
  mg_src : forall c, (if st =? 0 then t + 1 else f) <= c ->
             A src c = true <-> (st = src /\ c <= t) \/ in_ranges c rsrc = true;
  mg_oth : forall c, (if st =? 0 then t + 1 else f) <= c ->
             A (other src) c = true <-> (st = other src /\ c <= t) \/ in_ranges c roth = true;
  mg_rsrc : can (if st =? src then t + 1 else if st =? 0 then t else f - 1) rsrc;
  mg_roth : can (if st =? other src then t + 1 else if st =? 0 then t else f - 1) roth;
}.

Lemma merging_swap src tr f t st r1 r2 :
  src = 1 \/ src = 2 -> merging src tr f t st r1 r2 -> merging (other src) tr f t st r2 r1.
Proof.
  intros Hsrc []. assert (other (other src) = src) as E by (unfold other; lia).
  split; rewrite ?E; try done. tauto.
Qed.

Lemma class_of src c a o :
  src = 1 \/ src = 2 -> A src c = a -> A (other src) c = o ->
  class c = (if a then src else 0) + (if o then other src else 0).
Proof. intros Hsrc <- <-. by apply class_src. Qed.

Lemma false_iff (b : bool) (P : Prop) : (b = true <-> P) -> ~ P -> b = false.
Proof. intros H HP. apply not_true_iff_false. tauto. Qed.

Lemma below_head lo r l c : can lo (r :: l) -> c < from r -> in_ranges c (r :: l) = false.
Proof.
  intros (H1 & H2 & H3) Hc. apply not_in_ranges. rewrite in_ranges_cons. intros [?|H]; [lia|].
  pose proof (can_in _ _ _ H3 H). lia.
Qed.

Lemma below_all lo l c : can lo l -> c <= lo -> in_ranges c l = false.
Proof. intros H Hc. apply not_in_ranges. intros Hin. pose proof (can_in _ _ _ H Hin). lia. Qed.

Lemma after_head r l c lo : can lo (r :: l) -> to r < c -> in_ranges c (r :: l) = in_ranges c l.
Proof. intros (H1 & _) Hc. apply eq_iff_eq_true. rewrite in_ranges_cons. intuition lia. Qed.

Lemma in_head r l c lo : can lo (r :: l) -> c <= to r -> in_ranges c (r :: l) = true <-> from r <= c.
Proof.
  intros (H1 & H2 & H3) Hc. rewrite in_ranges_cons. split; [|lia]. intros [?|H]; [lia|].
  pose proof (can_in _ _ _ H3 H). lia.
Qed.

Lemma merging_bound src tr f t st n rsrc roth c :
  src = 1 \/ src = 2 -> merging src tr f t st (n :: rsrc) roth ->
  (if st =? 0 then t + 1 else f) <= c -> c < from n ->
  (A src c = true <-> st = src /\ c <= t).
Proof.
  intros Hsrc M Hc Hn. rewrite (mg_src _ _ _ _ _ _ _ M) by done.
  rewrite (below_head _ _ _ _ (mg_rsrc _ _ _ _ _ _ _ M)) by done. intuition done.
Qed.

(** The current range is before the next one. *)
Lemma merge_disjoint src tr f t st n rsrc roth tr' :
  src = 1 \/ src = 2 -> merging src tr f t st (n :: rsrc) roth -> can (from n - 1) roth ->
  t < from n -> trace_select tr st f t = Some tr' -> merging src tr' (from n) (to n) src rsrc roth.
Proof.
  intros Hsrc M Hroth Ht Hsel. pose proof (mg_rsrc _ _ _ _ _ _ _ M) as Hn. destruct Hn as (Hn1 & Hn2 & Hn3).
  pose proof (mg_state _ _ _ _ _ _ _ M) as Hst. pose proof (mg_t _ _ _ _ _ _ _ M) as Hmt.
  pose proof (mg_current _ _ _ _ _ _ _ M) as Hcur. pose proof (mg_done _ _ _ _ _ _ _ M) as Hd.
  assert (Hoth : forall c, (if st =? 0 then t + 1 else f) <= c -> c < from n ->
    (A (other src) c = true <-> st = other src /\ c <= t)).
  { intros c Hc Hcn. rewrite (mg_oth _ _ _ _ _ _ _ M) by done.
    rewrite (below_all _ roth c Hroth) by lia. intuition done. }
  assert (Hsrcb := fun c => merging_bound src tr f t st n rsrc roth c Hsrc M).
  assert (Hne : src <> 0 /\ other src <> 0 /\ src <> other src) by (unfold other; lia).
  assert (Hdone : done_until (from n) tr').
  { assert (Hgap : forall c, (if st =? 0 then t + 1 else f) <= c -> t < c -> c < from n -> class c = 0).
    { intros c Hc Hct Hcn. rewrite (class_of src c false false) by
        (done || (eapply false_iff; [by apply Hsrcb || by apply Hoth|lia])). done. }
    destruct (Z.eqb_spec st 0) as [->|Hst0].
    - unfold trace_select in Hsel. cbn in Hsel. injection Hsel as <-.
      apply (done_until_skip (t + 1)); [done|lia|lia|]. intros c Hc. apply Hgap; lia.
    - specialize (Hcur Hst0). apply (done_until_skip (t + 1)); [|lia|lia|intros c Hc; apply Hgap; lia].
      apply (done_until_emit f tr st f t); try done; [unfold other in *; lia|lia|lia|lia|].
      intros c Hc. destruct Hst as [?|[Hst|Hst]]; [done| |].
      + rewrite (class_of src c true false); [rewrite Hst; lia|done|apply Hsrcb; lia|].
        eapply false_iff; [apply Hoth; lia|lia].
      + rewrite (class_of src c false true); [rewrite Hst; lia|done| |apply Hoth; lia].
        eapply false_iff; [apply Hsrcb; lia|lia]. }
  assert (E0 : (src =? 0) = false) by (apply Z.eqb_neq; lia).
  assert (E1 : (src =? other src) = false) by (apply Z.eqb_neq; lia).
  split; rewrite ?E0, ?E1, ?Z.eqb_refl; try done; try lia.
  - intros c Hc. rewrite (mg_src _ _ _ _ _ _ _ M) by (destruct (Z.eqb_spec st 0); lia).
    rewrite in_ranges_cons. intuition lia.
  - intros c Hc. rewrite (mg_oth _ _ _ _ _ _ _ M) by (destruct (Z.eqb_spec st 0); lia).
    intuition (lia || congruence).
Qed.

Lemma merging_overlap_state src tr f t st n rsrc roth :
  merging src tr f t st (n :: rsrc) roth -> from n <= t -> st = other src /\ st <> 0.
Proof.
  intros M Ht. pose proof (mg_rsrc _ _ _ _ _ _ _ M) as (Hn1 & _). pose proof (mg_current _ _ _ _ _ _ _ M).
  destruct (mg_state _ _ _ _ _ _ _ M) as [Hst|[Hst|Hst]]; [|rewrite Hst, Z.eqb_refl in Hn1; lia|].
  - rewrite Hst in Hn1. destruct (0 =? src); cbn in Hn1; lia.
  - split; [done|]. intros Hst0. rewrite Hst0 in Hn1. destruct (0 =? src); cbn in Hn1; lia.
Qed.

(** The part of the current range before the next one. *)
Lemma merge_before src tr f t st n rsrc roth tr' :
  src = 1 \/ src = 2 -> merging src tr f t st (n :: rsrc) roth -> can (from n - 1) roth -> from n <= t ->
  (if f <? from n then trace_select tr st f (from n - 1) else Some tr) = Some tr' ->
  f <= from n /\ done_until (from n) tr'.
Proof.
  intros Hsrc M Hroth Ht Hsel. pose proof (merging_overlap_state _ _ _ _ _ _ _ _ M Ht) as [Hst Hst0].
  pose proof (mg_rsrc _ _ _ _ _ _ _ M) as (Hn1 & Hn2 & Hn3). pose proof (mg_current _ _ _ _ _ _ _ M Hst0) as Hcur.
  pose proof (mg_done _ _ _ _ _ _ _ M) as Hd. pose proof (mg_t _ _ _ _ _ _ _ M).
  assert (Hne : src <> 0 /\ other src <> 0 /\ src <> other src) by (unfold other; lia).
  rewrite (proj2 (Z.eqb_neq st 0)) in Hd by done.
  assert (Hf : f <= from n).
  { rewrite (proj2 (Z.eqb_neq st src)), (proj2 (Z.eqb_neq st 0)) in Hn1 by (done || lia). lia. }
  split; [done|]. destruct (Z.ltb_spec f (from n)) as [Hlt|Hge].
  - replace (from n) with (from n - 1 + 1) by lia.
    apply (done_until_emit f tr st f (from n - 1)); try done; [unfold other in *; lia|lia|lia|lia|].
    intros c Hc. rewrite (class_of src c false true); [rewrite Hst; lia|done| |].
    + eapply false_iff; [apply (merging_bound _ _ _ _ _ _ _ _ _ Hsrc M); [|lia]|lia].
      rewrite (proj2 (Z.eqb_neq st 0)) by done. lia.
    + apply (mg_oth _ _ _ _ _ _ _ M); [|left; split; [done|lia]].
      rewrite (proj2 (Z.eqb_neq st 0)) by done. lia.
  - injection Hsel as <-. by replace (from n) with f by lia.
Qed.

(** The characters that are in both. *)
Lemma merge_common src tr f t st n rsrc roth tr1 tr2 e :
  src = 1 \/ src = 2 -> merging src tr f t st (n :: rsrc) roth -> from n <= t -> f <= from n ->
  done_until (from n) tr1 -> trace_select tr1 (Z.lor st src) (from n) e = Some tr2 ->
  from n <= e -> e <= t -> e <= to n -> done_until (e + 1) tr2.
Proof.
  intros Hsrc M Ht Hf Hd Hsel He1 He2 He3.
  pose proof (merging_overlap_state _ _ _ _ _ _ _ _ M Ht) as [Hst Hst0].
  pose proof (mg_rsrc _ _ _ _ _ _ _ M) as Hn. pose proof (mg_current _ _ _ _ _ _ _ M Hst0).
  pose proof (mg_t _ _ _ _ _ _ _ M).
  assert (Z.lor st src = 3) as E3 by (rewrite Hst; unfold other; destruct Hsrc as [-> | ->]; done).
  rewrite E3 in Hsel. apply (done_until_emit (from n) tr1 3 (from n) e); try done; try lia.
  intros c Hc. assert ((if st =? 0 then t + 1 else f) <= c) as Hfc
    by (rewrite (proj2 (Z.eqb_neq st 0)) by done; lia).
  rewrite (class_of src c true true); [unfold other; lia|done| |].
  - apply (mg_src _ _ _ _ _ _ _ M); [done|]. right. eapply in_head; [exact Hn|lia|lia].
  - apply (mg_oth _ _ _ _ _ _ _ M); [done|]. left. split; [done|lia].
Qed.

Lemma merge_range_step src tr f t st n rsrc roth :
  src = 1 \/ src = 2 -> merging src tr f t st (n :: rsrc) roth -> can (from n - 1) roth ->
  exists tr' f' t' st', merge_range trace_select tr f t st n src = Some (tr', f', t', st')
    /\ merging src tr' f' t' st' rsrc roth.
Proof.
  intros Hsrc M Hroth. unfold merge_range. destruct (Z.ltb_spec t (from n)) as [Ht|Ht].
  { destruct (trace_select tr st f t) as [tr'|] eqn:Hsel; [|done]. cbn [mbind option_bind].
    do 4 eexists. split; [done|]. by eapply merge_disjoint. }
  destruct (if f <? from n then trace_select tr st f (from n - 1) else Some tr) as [tr1|] eqn:Hsel1;
    [|by destruct (f <? from n)]. cbn [mbind option_bind].
  destruct (merge_before src tr f t st n rsrc roth tr1 Hsrc M Hroth Ht Hsel1) as [Hf Hd1].
  pose proof (merging_overlap_state _ _ _ _ _ _ _ _ M Ht) as [Hst Hst0].
  pose proof (mg_rsrc _ _ _ _ _ _ _ M) as Hn. pose proof Hn as (Hn1 & Hn2 & Hn3).
  pose proof (mg_t _ _ _ _ _ _ _ M) as Hmt. pose proof (mg_current _ _ _ _ _ _ _ M Hst0) as Hcur.
  pose proof (mg_roth _ _ _ _ _ _ _ M) as Hro.
  assert (Hne : src <> 0 /\ other src <> 0 /\ src <> other src) by (unfold other; lia).
  assert (E0 : (st =? 0) = false) by (by apply Z.eqb_neq).
  assert (E1 : (src =? 0) = false) by (apply Z.eqb_neq; lia).
  assert (E2 : (src =? other src) = false) by (apply Z.eqb_neq; lia).
  assert (E3 : (other src =? src) = false) by (apply Z.eqb_neq; lia).
  assert (E4 : (other src =? 0) = false) by (apply Z.eqb_neq; lia).
  assert (E5 : (0 =? src) = false) by (apply Z.eqb_neq; lia).
  assert (E6 : (0 =? other src) = false) by (apply Z.eqb_neq; lia).
  assert (Hs : forall c, f <= c -> A src c = true <-> in_ranges c (n :: rsrc) = true).
  { intros c Hc. rewrite (mg_src _ _ _ _ _ _ _ M) by (by rewrite E0). intuition lia. }
  assert (Ho : forall c, f <= c -> A (other src) c = true <-> c <= t \/ in_ranges c roth = true).
  { intros c Hc. rewrite (mg_oth _ _ _ _ _ _ _ M) by (by rewrite E0). intuition lia. }
  assert (Hro' : can (t + 1) roth) by (by rewrite Hst, Z.eqb_refl in Hro).
  destruct (Z.ltb_spec t (to n)) as [Htn|Htn].
  - destruct (trace_select tr1 _ _ t) as [tr2|] eqn:Hsel2; [|done]. cbn [mbind option_bind].
    do 4 eexists. split; [done|].
    pose proof (merge_common _ _ _ _ _ _ _ _ _ _ t Hsrc M Ht Hf Hd1 Hsel2 Ht ltac:(lia) ltac:(lia)) as Hd2.
    split; rewrite ?E1, ?E2, ?Z.eqb_refl; try done; try lia.
    + intros c Hc. rewrite Hs, in_ranges_cons by lia. intuition lia.
    + intros c Hc. rewrite Ho by lia. intuition lia.
    + by apply (can_lower (t + 1)); [lia|].
  - destruct (trace_select tr1 _ _ (to n)) as [tr2|] eqn:Hsel2; [|done]. cbn [mbind option_bind].
    do 4 eexists. split; [done|].
    pose proof (merge_common _ _ _ _ _ _ _ _ _ _ (to n) Hsrc M Ht Hf Hd1 Hsel2 ltac:(lia) ltac:(lia) ltac:(lia)) as Hd2.
    unfold kInsideNone. destruct (Z.eqb_spec (to n) t) as [E|E]; [|rewrite Hst].
    + split; rewrite ?E5, ?E6; cbn [Z.eqb]; try done; try lia.
      * by rewrite <- E.
      * intros c Hc. rewrite Hs, in_ranges_cons by lia. intuition lia.
      * intros c Hc. rewrite Ho by lia. intuition lia.
      * by apply (can_lower (to n + 1)); [lia|].
      * by apply (can_lower (t + 1)); [lia|].
    + split; rewrite ?E3, ?E4, ?Z.eqb_refl; try done; try lia.
      * intros c Hc. rewrite Hs, in_ranges_cons by lia. intuition lia.
      * intros c Hc. rewrite Ho by lia. intuition lia.
      * by apply (can_lower (to n + 1)); [lia|].
Qed.

Lemma merging_start first second :
  (forall c, A 1 c = in_ranges c first) -> (forall c, A 2 c = in_ranges c second) ->
  can (-1) first -> can (-1) second -> merging 1 [] 0 (-1) 0 first second.
Proof.
  intros H1 H2 Hc1 Hc2. split; try done.
  - by left.
  - split_and!; [done|done|]. intros c. cbn. lia.
  - intros c _. rewrite H1. split; [by right|intros [[? _]|?]; done].
  - intros c _. change (other 1) with 2. rewrite H2. split; [by right|intros [[? _]|?]; done].
Qed.

Lemma merge_loop_spec m first second tr f t st :
  (length first + length second <= m)%nat -> merging 1 tr f t st first second ->
  exists tr' f' t' st', merge_loop trace_select m first second tr f t st = Some (tr', f', t', st')
    /\ merging 1 tr' f' t' st' [] [].
Proof.
  assert (Hempty : forall lo, can lo []) by done.
  assert (Hother : other 2 = 1) by done.
  revert first second tr f t st. induction m as [|m IH]; intros first second tr f t st Hm M.
  { destruct first, second; cbn [length] in Hm; try lia. by exists tr, f, t, st. }
  assert (Hstep1 : forall n first', first = n :: first' -> can (from n - 1) second ->
    exists tr' f' t' st', ('(zone, f, t, state) ← merge_range trace_select tr f t st n kInsideFirst;
      merge_loop trace_select m first' second zone f t state) = Some (tr', f', t', st')
    /\ merging 1 tr' f' t' st' [] []).
  { intros n first' -> Hcan. change kInsideFirst with 1.
    destruct (merge_range_step 1 tr f t st n first' second) as (tr1 & f1 & t1 & st1 & -> & M1); [by left|done|done|].
    cbn [mbind option_bind]. apply IH; [cbn [length] in Hm; lia|done]. }
  assert (Hstep2 : forall n second', second = n :: second' -> can (from n - 1) first ->
    exists tr' f' t' st', ('(zone, f, t, state) ← merge_range trace_select tr f t st n kInsideSecond;
      merge_loop trace_select m first second' zone f t state) = Some (tr', f', t', st')
    /\ merging 1 tr' f' t' st' [] []).
  { intros n second' -> Hcan. change kInsideSecond with 2. apply (merging_swap 1) in M; [|by left].
    destruct (merge_range_step 2 tr f t st n second' first) as (tr1 & f1 & t1 & st1 & -> & M1); [by right|done|done|].
    cbn [mbind option_bind]. apply (merging_swap 2) in M1; [|by right]. rewrite Hother in M1.
    apply IH; [cbn [length] in Hm; lia|done]. }
  destruct first as [|n1 first], second as [|n2 second]; cbn [merge_loop].
  - by exists tr, f, t, st.
  - by apply Hstep2.
  - by apply Hstep1.
  - pose proof (mg_rsrc _ _ _ _ _ _ _ M) as (Ha1 & Ha2 & Ha3). pose proof (mg_roth _ _ _ _ _ _ _ M) as (Hb1 & Hb2 & Hb3).
    destruct (Z.ltb_spec (from n1) (from n2)).
    + apply Hstep1; [done|]. cbn. split_and!; done || lia.
    + apply Hstep2; [done|]. cbn. split_and!; done || lia.
Qed.

Lemma merging_end tr f t st tr' :
  merging 1 tr f t st [] [] -> trace_select tr st f t = Some tr' ->
  increasing 0 tr' /\ forall c, 0 <= c -> selected c tr' = class c.
Proof.
  intros M Hsel. pose proof (mg_t _ _ _ _ _ _ _ M) as Ht.
  assert (Hbound : exists b, done_until b tr' /\ 0 <= b /\ t + 1 = b).
  { destruct (decide (st = 0)) as [-> | Hst].
    - injection Hsel as <-. exists (t + 1). split_and!; [exact (mg_done _ _ _ _ _ _ _ M)|lia|done].
    - pose proof (mg_current _ _ _ _ _ _ _ M Hst). pose proof (mg_done _ _ _ _ _ _ _ M) as Hd.
      pose proof (mg_state _ _ _ _ _ _ _ M) as Hs. pose proof (mg_src _ _ _ _ _ _ _ M) as H1.
      pose proof (mg_oth _ _ _ _ _ _ _ M) as H2. rewrite (proj2 (Z.eqb_neq st 0)) in Hd, H1, H2 by done.
      change (other 1) with 2 in *. exists (t + 1). split_and!; [|lia|done].
      apply (done_until_emit f tr st f t); try done; try lia.
      intros c Hc. specialize (H1 c ltac:(lia)). specialize (H2 c ltac:(lia)). rewrite in_ranges_nil in H1, H2.
      unfold class. destruct (A 1 c), (A 2 c); intuition (lia || done). }
  destruct Hbound as (b & Hd & Hb0 & Hb). pose proof Hd as (Hi & He & Hc). split; [done|].
  intros c Hc0. destruct (decide (c < b)); [by apply Hc|].
  rewrite (selected_ge 0) by (done || lia). symmetry.
  pose proof (mg_src _ _ _ _ _ _ _ M c) as H1. pose proof (mg_oth _ _ _ _ _ _ _ M c) as H2.
  pose proof (mg_current _ _ _ _ _ _ _ M). change (other 1) with 2 in *. rewrite in_ranges_nil in H1, H2.
  assert ((if st =? 0 then t + 1 else f) <= c) as Hfc by (destruct (Z.eqb_spec st 0); lia).
  specialize (H1 Hfc). specialize (H2 Hfc). unfold class.
  destruct (A 1 c), (A 2 c); intuition (lia || done).
Qed.

Lemma merge_all_spec first second :
  (forall c, A 1 c = in_ranges c first) -> (forall c, A 2 c = in_ranges c second) ->
  can (-1) first -> can (-1) second ->
  exists tr, merge_all trace_select first second [] = Some tr /\ increasing 0 tr
    /\ forall c, 0 <= c -> selected c tr = class c.
Proof.
  intros H1 H2 Hc1 Hc2. unfold merge_all.
  destruct (merge_loop_spec (length first + length second) first second [] 0 (-1) 0) as (tr & f & t & st & E & M);
    [lia|by apply merging_start|].
  change kInsideNone with 0. rewrite E. cbn [mbind option_bind].
  destruct (trace_select tr st f t) as [tr'|] eqn:Hsel; [|done]. exists tr'. split; [done|].
  by apply (merging_end tr f t st).
Qed.
End trace.

(** *** The lists behind the pointers *)

Lemma merge_loop_sim {S1 S2 : Type} (sel1 : S1 -> Z -> Z -> Z -> option S1) (sel2 : S2 -> Z -> Z -> Z -> option S2)
    (R : S1 -> S2 -> Prop) :
  (forall a b s f t a', R a b -> sel1 a s f t = Some a' -> exists b', sel2 b s f t = Some b' /\ R a' b') ->
  forall first second a b a', R a b -> merge_all sel1 first second a = Some a' ->
  exists b', merge_all sel2 first second b = Some b' /\ R a' b'.
Proof.
  intros Hsel. assert (Hrange : forall a b f t st n src r, R a b -> merge_range sel1 a f t st n src = Some r ->
    exists b', merge_range sel2 b f t st n src = Some (b', r.1.1.2, r.1.2, r.2) /\ R r.1.1.1 b').
  { intros a b f t st n src r HR. unfold merge_range. destruct (t <? from n).
    { destruct (sel1 a st f t) as [a1|] eqn:E; [|done]. intros [= <-].
      destruct (Hsel _ _ _ _ _ _ HR E) as (b1 & -> & HR1). by exists b1. }
    assert (Hif : forall a1, (if f <? from n then sel1 a st f (from n - 1) else Some a) = Some a1 ->
      exists b1, (if f <? from n then sel2 b st f (from n - 1) else Some b) = Some b1 /\ R a1 b1).
    { intros a1. destruct (f <? from n); [by apply Hsel|]. intros [= <-]. by exists b. }
    destruct (if f <? from n then sel1 a st f (from n - 1) else Some a) as [a1|]; [|done].
    destruct (Hif a1 eq_refl) as (b1 & -> & HR1). cbn [mbind option_bind].
    destruct (t <? to n); (destruct (sel1 a1 _ _ _) as [a2|] eqn:E; [|done]; intros [= <-];
      destruct (Hsel _ _ _ _ _ _ HR1 E) as (b2 & -> & HR2); by exists b2). }
  assert (Hloop : forall m first second a b f t st r, R a b -> merge_loop sel1 m first second a f t st = Some r ->
    exists b', merge_loop sel2 m first second b f t st = Some (b', r.1.1.2, r.1.2, r.2) /\ R r.1.1.1 b').
  { induction m as [|m IH]; intros first second a b f t st r HR.
    { destruct first, second; cbn [merge_loop]; try done. intros [= <-]. by exists b. }
    assert (Hnext : forall first second n src,
      ('(zone, f, t, state) ← merge_range sel1 a f t st n src; merge_loop sel1 m first second zone f t state) = Some r ->
      exists b', ('(zone, f, t, state) ← merge_range sel2 b f t st n src;
        merge_loop sel2 m first second zone f t state) = Some (b', r.1.1.2, r.1.2, r.2) /\ R r.1.1.1 b').
    { intros first' second' n src. destruct (merge_range sel1 a f t st n src) as [r1|] eqn:E; [|done].
      destruct (Hrange _ _ _ _ _ _ _ _ HR E) as (b1 & -> & HR1). destruct r1 as [[[a1 f1] t1] st1].
      cbn [mbind option_bind fst snd] in *. by apply IH. }
    destruct first as [|n1 first], second as [|n2 second]; cbn [merge_loop]; [|apply Hnext..|].
    - intros [= <-]. by exists b.
    - destruct (from n1 <? from n2); apply Hnext. }
  intros first second a b a' HR. unfold merge_all.
  destruct (merge_loop sel1 _ first second a _ _ _) as [r|] eqn:E; [|done].
  destruct (Hloop _ _ _ _ _ _ _ _ _ HR E) as (b1 & -> & HR1). destruct r as [[[a1 f1] t1] st1].
  cbn [mbind option_bind fst snd] in *. by apply Hsel.
Qed.

Lemma add_range_spec l r :
  can (-1) l -> end_of (-1) l <= from r -> valid r ->
  can (-1) (add_range l r) /\ end_of (-1) (add_range l r) = to r + 1
  /\ forall c, in_ranges c (add_range l r) = true <-> in_ranges c l = true \/ from r <= c <= to r.
Proof.
  intros Hcan He [Hv1 Hv2]. unfold add_range. destruct l as [|x l _] using rev_ind.
  { cbn. split_and!; try done; try lia. intros c. rewrite orb_false_r, Contains_spec. intuition done. }
  rewrite last_snoc. rewrite end_of_app in He. cbn [end_of] in He.
  apply can_app in Hcan as [Hcan (H1 & H2 & _)]. pose proof (end_of_le _ _ Hcan).
  destruct (Z.eqb_spec (to x) (from r - 1)) as [E|E].
  - rewrite length_app, insert_app_r_alt by (cbn; lia). cbn [length].
    replace (length l + 1 - 1 - length l)%nat with 0%nat by lia. cbn [insert list_insert].
    rewrite Range_id by lia. rewrite can_app, end_of_app. cbn [can end_of from to].
    split_and!; [done|lia|lia|lia|done|done|]. intros c. rewrite !in_ranges_app, !in_ranges_cons.
    cbn [from to]. rewrite in_ranges_nil. intuition lia.
  - rewrite !can_app, !end_of_app. cbn [can end_of]. split_and!; try done; try lia.
    intros c. rewrite (in_ranges_app c (l ++ [x])), in_ranges_cons, in_ranges_nil. intuition done.
Qed.

Section zone.
Context (first_set_only_out second_set_only_out both_sets_out : option nat).

(** The list that takes the characters of a class. *)
Definition out (selector : Z) : option nat :=
  match selector with
  | 1 => first_set_only_out
  | 2 => second_set_only_out
  | 3 => both_sets_out
  | _ => None
  end.

Definition added (p : nat) (tr : Trace) : list CharacterRange :=
  flat_map (fun '(s, f, t) => if decide (out s = Some p) then [Range f t] else []) tr.

Definition zone_select (zone : Zone) (selector f t : Z) : option Zone :=
  AddRangeToSelectedSet zone selector first_set_only_out second_set_only_out both_sets_out (Range f t).

Lemma zone_select_out zone s f t : zone_select zone s f t = AddRangeToSet zone (out s) (Range f t).
Proof. unfold zone_select, AddRangeToSelectedSet, out. by repeat case_goal. Qed.

Definition replayed (zone0 : Zone) (tr : Trace) (zone : Zone) : Prop :=
  forall p, zone !! p = (fun l => fold_left add_range (added p tr) l) <$> zone0 !! p.

Lemma replayed_select zone0 tr zone s f t tr' :
  (forall s p, out s = Some p -> is_Some (zone0 !! p)) ->
  replayed zone0 tr zone -> trace_select tr s f t = Some tr' ->
  exists zone', zone_select zone s f t = Some zone' /\ replayed zone0 tr' zone'.
Proof.
  intros Hout HR Hsel. rewrite zone_select_out. unfold trace_select in Hsel. injection Hsel as <-.
  assert (Hadd : forall p, added p (if s =? 0 then tr else tr ++ [(s, f, t)])
    = added p tr ++ if decide (out s = Some p) then [Range f t] else []).
  { intros p. destruct (Z.eqb_spec s 0) as [-> |_].
    - cbn. by rewrite app_nil_r.
    - unfold added. rewrite flat_map_app. cbn. by rewrite app_nil_r. }
  destruct (out s) as [q|] eqn:Es; cbn [AddRangeToSet].
  - destruct (Hout s q Es) as [l0 Hl0]. pose proof (HR q) as Hq. rewrite Hl0 in Hq. cbn in Hq. rewrite Hq.
    cbn [mbind option_bind]. eexists. split; [done|]. intros p. rewrite Hadd.
    destruct (decide (p = q)) as [-> |Hpq].
    + rewrite list_lookup_insert_eq by (by eapply lookup_lt_Some). rewrite decide_True by done.
      rewrite Hl0. cbn. by rewrite fold_left_app.
    + rewrite list_lookup_insert_ne by done. rewrite decide_False by congruence. by rewrite app_nil_r.
  - exists zone. split; [done|]. intros p. rewrite Hadd, decide_False by done. by rewrite app_nil_r.
Qed.

Lemma selected_lt lo tr c : increasing lo tr -> c < lo -> selected c tr = 0.
Proof.
  revert lo. induction tr as [|[[s' f'] t'] tr IH]; intros lo; cbn; [done|].
  intros (H1 & H2 & H3 & H4) Hc. rewrite (proj2 (Z.leb_gt f' c)) by lia. cbn. apply (IH (t' + 1)); [done|lia].
Qed.

Lemma added_spec p lo tr l :
  0 <= lo -> increasing lo tr -> can (-1) l -> end_of (-1) l <= lo ->
  can (-1) (fold_left add_range (added p tr) l)
  /\ forall c, in_ranges c (fold_left add_range (added p tr) l) = true
               <-> in_ranges c l = true \/ out (selected c tr) = Some p.
Proof.
  revert lo l. induction tr as [|[[s f] t] tr IH]; intros lo l Hlo Hi Hcan He; cbn [added flat_map fold_left selected].
  - split; [done|]. intros c. intuition done.
  - destruct Hi as (H1 & H2 & H3 & H4). fold (added p tr).
    assert (Hc : forall c, f <= c <= t -> selected c tr = 0) by (intros; apply (selected_lt (t + 1)); [done|lia]).
    destruct (decide (out s = Some p)) as [Hs|Hs]; cbn [app fold_left].
    + rewrite Range_id by lia.
      destruct (add_range_spec l (MkRange f t)) as (Hcan1 & Hend1 & Hin1); [done|cbn; lia|split; cbn; lia|].
      destruct (IH (t + 1) (add_range l (MkRange f t))) as [Hcan2 Hin2]; [lia|done|done|cbn in Hend1; lia|].
      split; [done|]. intros c. rewrite Hin2, Hin1. cbn [from to].
      destruct (Z.leb_spec f c), (Z.leb_spec c t); cbn [andb]; intuition lia.
    + destruct (IH (t + 1) l) as [Hcan2 Hin2]; [lia|done|done|lia|].
      split; [done|]. intros c. rewrite Hin2.
      destruct (Z.leb_spec f c), (Z.leb_spec c t); cbn [andb]; try tauto.
      rewrite Hc by lia. cbn [out]. intuition done.
Qed.

(** What Merge is to add to the list at [p]. *)
Definition merged_into (first second : list CharacterRange) (p : nat) (c : Z) : Prop :=
  (first_set_only_out = Some p /\ in_ranges c first = true /\ in_ranges c second = false)
  \/ (second_set_only_out = Some p /\ in_ranges c first = false /\ in_ranges c second = true)
  \/ (both_sets_out = Some p /\ in_ranges c first = true /\ in_ranges c second = true).

Lemma out_class first second p c :
  out (class (fun s c => if s =? 1 then in_ranges c first else in_ranges c second) c) = Some p
  <-> merged_into first second p c.
Proof.
  unfold class, merged_into. cbn [Z.eqb Pos.eqb].
  destruct (in_ranges c first), (in_ranges c second); cbn; intuition (congruence || done).
Qed.

Lemma AddAll_spec zone o other :
  is_Some o -> (forall p, o = Some p -> zone !! p = Some []) ->
  exists zone', AddAll zone o other = Some zone'
    /\ forall p, zone' !! p = if decide (o = Some p) then Some other else zone !! p.
Proof.
  intros [q ->] Hz. unfold AddAll. cbn [mbind option_bind]. rewrite (Hz q eq_refl). cbn [mbind option_bind app].
  eexists. split; [done|]. intros p. destruct (decide (Some q = Some p)) as [[= ->]|Hne].
  - rewrite list_lookup_insert_eq; [done|]. eapply lookup_lt_Some. by apply Hz.
  - rewrite list_lookup_insert_ne; [done|]. congruence.
Qed.

(** Merge of two canonical lists, into empty lists that may be null or the same, adds to
    each of them exactly the characters of the classes that it stands for, in
    canonical form, and changes no other list; the output for the second set must not be null when
    the first set is empty, nor the output for the first one when only the second is. *)
Theorem Merge_correct first second zone :
  Forall valid first -> IsCanonical first = true -> Forall valid second -> IsCanonical second = true ->
  (forall s p, out s = Some p -> zone !! p = Some []) ->
  (first = [] -> second_set_only_out <> None) ->
  (first <> [] -> second = [] -> first_set_only_out <> None) ->
  exists zone', Merge first second first_set_only_out second_set_only_out both_sets_out zone = Some zone'
    /\ (forall p, (forall s, out s <> Some p) -> zone' !! p = zone !! p)
    /\ (forall s p, out s = Some p -> exists l, zone' !! p = Some l /\ IsCanonical l = true
          /\ forall c, 0 <= c -> in_ranges c l = true <-> merged_into first second p c).
Proof.
  intros Hv1 Hc1 Hv2 Hc2 Hz Hn1 Hn2. apply can_canonical in Hc1 as Hcan1; [|done]. apply can_canonical in Hc2 as Hcan2; [|done].
  assert (Hsome : forall o : option nat, o <> None -> is_Some o) by (intros [?|] ?; [eauto|done]).
  assert (H1 : forall p, first_set_only_out = Some p -> zone !! p = Some []) by (intros p; apply (Hz 1)).
  assert (H2 : forall p, second_set_only_out = Some p -> zone !! p = Some []) by (intros p; apply (Hz 2)).
  destruct first as [|n1 first'] eqn:E1; [|destruct second as [|n2 second'] eqn:E2].
  - destruct (AddAll_spec zone second_set_only_out second (Hsome _ (Hn1 eq_refl)) H2) as (zone' & E & Hl).
    exists zone'. split_and!; [exact E| |].
    + intros p Hp. rewrite Hl, decide_False; [done|apply (Hp 2)].
    + intros s p Hp. rewrite Hl. unfold merged_into. setoid_rewrite in_ranges_nil.
      destruct (decide (second_set_only_out = Some p)) as [Hq|Hq].
      * exists second. split_and!; [done..|]. intros c _. intuition done.
      * exists []. split_and!; [by apply (Hz s)|done|]. intros c _. rewrite in_ranges_nil. intuition done.
  - destruct (AddAll_spec zone first_set_only_out (n1 :: first')) as (zone' & E & Hl); [auto|done|].
    exists zone'. split_and!; [exact E| |].
    + intros p Hp. rewrite Hl, decide_False; [done|apply (Hp 1)].
    + intros s p Hp. rewrite Hl. unfold merged_into. setoid_rewrite in_ranges_nil.
      destruct (decide (first_set_only_out = Some p)) as [Hq|Hq].
      * exists (n1 :: first'). split_and!; [done..|]. intros c _. intuition done.
      * exists []. split_and!; [by apply (Hz s)|done|]. intros c _. rewrite in_ranges_nil. intuition done.
  - rewrite <- E1, <- E2 in *.
    set (A := fun s c => if s =? 1 then in_ranges c first else in_ranges c second).
    destruct (merge_all_spec A first second) as (tr & Etr & Hi & Hsel); [done|done|done|done|].
    destruct (merge_loop_sim trace_select zone_select (replayed zone)) with (first := first) (second := second)
      (a := @nil (Z * Z * Z)) (b := zone) (a' := tr) as (zone' & E & HR); [|by intros p; destruct (zone !! p)|done|].
    { intros a b s f t a' HRab Hs. eapply replayed_select; [|done|done]. intros s0 p Hp. rewrite (Hz s0 p Hp). eauto. }
    exists zone'. split_and!; [by rewrite E1, E2 in *| |].
    + intros p Hp. rewrite HR. assert (added p tr = []) as ->; [|by destruct (zone !! p)].
      clear -Hp. induction tr as [|[[s f] t] tr IH]; [done|]. cbn. rewrite decide_False by apply Hp. apply IH.
    + intros s p Hp. rewrite HR, (Hz s p Hp). cbn [fmap option_fmap option_map].
      destruct (added_spec p 0 tr []) as [Hcan Hin]; [lia|done|done|done|].
      eexists. split_and!; [done|by apply can_IsCanonical|]. intros c Hc. rewrite Hin, in_ranges_nil, Hsel by done.
      unfold A. rewrite out_class. intuition done.
Qed.
End zone.

(** Merging with an empty first set dereferences a null output, although the
    declaration of Merge allows it. *)
Lemma Merge_null first_out both second zone : Merge [] second first_out None both zone = None.
Proof. done. Qed.

Lemma Merge_correct_witness :
  exists zone', Merge [MkRange 1 10; MkRange 20 30] [MkRange 5 25] None (Some 0%nat) (Some 1%nat) [[]; []] = Some zone'
    /\ zone' = [[MkRange 11 19]; [MkRange 5 10; MkRange 20 25]].
Proof.
  destruct (Merge_correct None (Some 0%nat) (Some 1%nat) [MkRange 1 10; MkRange 20 30] [MkRange 5 25] [[]; []])
    as (zone' & E & _).
  - repeat constructor; cbn; unfold kMaxUC16CharCode; lia.
  - done.
  - repeat constructor; cbn; unfold kMaxUC16CharCode; lia.
  - done.
  - intros s p. unfold out. repeat case_goal; try done; by intros [= <-].
  - done.
  - done.
  - exists zone'. split; [exact E|]. vm_compute in E. by injection E.
Defined.

(** ** Classes that are standard ones *)

Lemma compare_loop_spec l special c :
  (length l * 2 = length special)%nat -> compare_loop l special = true -> in_ranges c l = in_bounds c special.
Proof.
  revert l. induction special as [|x|f t special IH] using pairs_ind; intros [|r l] Hlen; cbn [length] in Hlen; try lia.
  - done.
  - cbn [compare_loop]. destruct (Z.eqb_spec (from r) f) as [<-|?], (Z.eqb_spec (to r) t) as [<-|?]; cbn [negb orb]; try done.
    intros Hl. apply eq_iff_eq_true. rewrite in_ranges_cons, in_bounds_cons, (IH l) by (done || lia). tauto.
Qed.

Lemma compare_inverse_can r l special lo :
  compare_inverse_loop r l special = true -> (length l * 2 = length special)%nat ->
  bounds_ok lo special -> Forall valid (r :: l) -> can (from r - 1) (r :: l).
Proof.
  revert r l lo. induction special as [|x|f t special IH] using pairs_ind; intros r [|n l] lo Hcmp Hlen Hb Hv;
    cbn [length] in Hlen; try lia; apply Forall_cons in Hv as [[Hr1 Hr2] Hv].
  - cbn. split_and!; lia || done.
  - cbn [compare_inverse_loop] in Hcmp. destruct (Z.eqb_spec f (to r + 1)) as [Hf|?]; [|done].
    destruct (Z.eqb_spec t (from n - 1)) as [Ht|?]; [|done]. destruct Hb as (H1 & H2 & H3).
    specialize (IH n l (t + 1) Hcmp ltac:(lia) H3 Hv). destruct IH as (H4 & H5 & H6).
    cbn [can]. split_and!; lia || done.
Qed.

Lemma compare_inverse_spec r l special c :
  compare_inverse_loop r l special = true -> (length l * 2 = length special)%nat ->
  bounds_ok (from r - 1) special -> Forall valid (r :: l) -> from r <= c <= kMaxUC16CharCode ->
  in_ranges c (r :: l) = negb (in_bounds c special).
Proof.
  revert r l. induction special as [|x|f t special IH] using pairs_ind; intros r [|n l] Hcmp Hlen Hb Hv Hc;
    cbn [length] in Hlen; try lia.
  - cbn [compare_inverse_loop] in Hcmp. apply Z.eqb_eq in Hcmp. cbn [in_bounds negb]. apply in_ranges_cons. left. unfold kMaxUC16CharCode in Hc. lia.
  - pose proof (compare_inverse_can _ _ _ _ Hcmp Hlen Hb Hv) as (_ & _ & Hcan).
    cbn [compare_inverse_loop] in Hcmp. destruct (Z.eqb_spec f (to r + 1)) as [Hf|?]; [|done].
    destruct (Z.eqb_spec t (from n - 1)) as [Ht|?]; [|done].
    cbn [negb] in Hcmp. destruct Hb as (H1 & H2 & H3). apply Forall_cons in Hv as [_ Hv].
    assert (bounds_ok (from n - 1) special) as Hb'.
    { replace (from n - 1) with t by lia. destruct special as [|x1 [|x2 l2]]; [done..|].
      destruct H3 as (? & ? & ?). split_and!; [lia|lia|done|done]. }
    apply eq_iff_eq_true. rewrite in_ranges_cons, negb_true_iff, not_in_bounds, in_bounds_cons.
    destruct (decide (from n <= c)) as [Hn|Hn].
    + rewrite (IH n l Hcmp ltac:(lia) Hb' Hv) by lia. rewrite negb_true_iff, not_in_bounds. intuition lia.
    + assert (~ in_bounds c special = true) by (intros H; pose proof (bounds_in _ _ _ H3 H); lia).
      assert (~ in_ranges c (n :: l) = true).
      { rewrite (below_head (to r + 1)); [done|done|lia]. }
      intuition lia.
Qed.

Lemma CompareRanges_spec l special c : CompareRanges l special = true -> in_ranges c l = in_bounds c special.
Proof.
  unfold CompareRanges. destruct (Nat.eqb_spec (length l * 2) (length special)); [|done]. by apply compare_loop_spec.
Qed.

Lemma CompareInverseRanges_spec l special c :
  Nat.Even (length special) -> bounds_ok 0 special -> Forall valid l -> 0 <= c <= kMaxUC16CharCode ->
  CompareInverseRanges l special = true -> in_ranges c l = negb (in_bounds c special).
Proof.
  intros [k Hk] Hb Hv Hc. unfold CompareInverseRanges.
  destruct (Nat.eqb_spec (length l) (length special / 2 + 1)) as [Hlen|?]; [|done]. cbn [negb].
  destruct l as [|r l]; [done|]. destruct (Z.eqb_spec (from r) 0) as [Hr|?]; [|done]. cbn [negb]. intros Hcmp.
  assert (length special / 2 = k)%nat as Hd by (rewrite Hk, Nat.mul_comm; by apply Nat.div_mul).
  cbn [length] in Hlen. apply (compare_inverse_spec r l special c); try done; try lia.
  rewrite Hr. destruct special as [|x1 [|x2 special]]; [done..|]. destruct Hb as (H1 & H2 & H3).
  split_and!; [lia|lia|done|done].
Qed.

(** When is_standard finds out that a class of valid ranges is a standard one, the class has
    exactly the characters of the escape that it is marked with. *)
Theorem is_standard_correct l set' :
  Forall valid l -> is_standard false (MkSet (Some l) 0) = Some (true, set') ->
  ranges_ set' = Some l
  /\ forall c, 0 <= c <= kMaxUC16CharCode -> class_escape (standard_set_type_ set') c = Some (in_ranges c l).
Proof.
  intros Hv. unfold is_standard. cbn [standard_set_type_ Z.eqb negb ranges ranges_ mbind option_bind]. cbv zeta.
  assert (Hs : bounds_ok 0 kSpaceRanges) by (cbn; unfold kMaxUC16CharCode; lia).
  assert (Hl : bounds_ok 0 kLineTerminatorRanges) by (cbn; unfold kMaxUC16CharCode; lia).
  pose proof word_bounds_ok as Hw.
  assert (Hes : Nat.Even (length kSpaceRanges)) by (by exists 10%nat).
  assert (Hel : Nat.Even (length kLineTerminatorRanges)) by (by exists 3%nat).
  assert (Hew : Nat.Even (length kWordRanges)) by (by exists 4%nat).
  repeat match goal with
  | |- context [if CompareRanges l ?b then _ else _] =>
      destruct (CompareRanges l b) eqn:E;
      [intros [= <-]; split; [done|]; intros c Hc; cbn [standard_set_type_ class_escape];
       by rewrite (CompareRanges_spec l b)|clear E]
  | |- context [if CompareInverseRanges l ?b then _ else _] =>
      destruct (CompareInverseRanges l b) eqn:E;
      [intros [= <-]; split; [done|]; intros c Hc; cbn [standard_set_type_ class_escape];
       by rewrite (CompareInverseRanges_spec l b)|clear E]
  end.
  done.
Qed.

Lemma is_standard_correct_witness :
  class_escape 87 48 = Some (in_ranges 48 (AddClassNegated kWordRanges [])).
Proof.
  destruct (is_standard_correct (AddClassNegated kWordRanges []) (MkSet (Some (AddClassNegated kWordRanges [])) 87))
    as [_ H].
  - change (AddClassNegated kWordRanges []) with
      [MkRange 0 47; MkRange 58 64; MkRange 91 94; MkRange 96 96; MkRange 123 0xFFFF].
    repeat constructor; cbn; unfold kMaxUC16CharCode; lia.
  - vm_compute. reflexivity.
  - apply (H 48). unfold kMaxUC16CharCode. lia.
Defined.

(** ** Word boundaries *)

Lemma canonical_prefix_all max i rest :
  canonical_after max rest = true -> canonical_prefix max i rest = (i + length rest)%nat.
Proof.
  revert max i. induction rest as [|r rest IH]; intros max i; cbn; [lia|].
  destruct (from r <=? max + 1); [done|]. intros H. rewrite (IH _ _ H). lia.
Qed.

Lemma Canonicalize_canonical l : IsCanonical l = true -> Canonicalize l = Some l.
Proof.
  destruct l as [|first [|second rest]]; [done..|]. intros H. unfold Canonicalize. cbv zeta.
  rewrite canonical_prefix_all by exact H. by rewrite Nat.eqb_refl.
Qed.

(** The relation of the list that a negation gives, with its empty first range. *)
Lemma WordCharacterRelation_empty_first l :
  can 1 l ->
  exists r, WordCharacterRelation (MkRange 1 0 :: l) = Some r
    /\ (Disjoint r = true <-> forall c, in_ranges c l = true -> in_bounds c kWordRanges = false)
    /\ ContainedIn r = false.
Proof.
  intros Hcan. unfold WordCharacterRelation.
  assert (Hstep : forall fuel, relation_loop (S fuel) kWordRanges (MkRange 1 0 :: l) 0
    = relation_loop fuel kWordRanges l (relation true false false)) by done.
  rewrite Hstep.
  destruct (relation_loop_spec (length kWordRanges + length (MkRange 1 0 :: l)) kWordRanges l true false false 0 (-1))
    as (f & s & b & E & Hb & Hf & _ & _); [cbn; lia|lia|lia|apply word_bounds_ok|done| |done|].
  { destruct l as [|h l]; [done|]. destruct Hcan. lia. }
  exists (relation f s b). destruct (relation_tests f s b) as (-> & -> & _ & _). split_and!; [exact E| |].
  - rewrite negb_true_iff, <- not_true_iff_false, Hb. split.
    + intros H c Hc. apply not_true_iff_false. intros Hc'. apply H. right. by exists c.
    + intros H [?|(c & Hc & Hc')]; [done|]. by rewrite (H c Hc) in Hc'.
  - apply negb_false_iff, Hf. by left.
Qed.

(** The characters that a text can start with. *)
Definition starts_with (text : TextElement) (c : Z) : bool :=
  match text with
  | ATOM data => match data with first_char :: _ => c =? first_char | [] => false end
  | CHAR_CLASS set_ is_negated_ =>
      match ranges set_ with
      | Some (_, l) => xorb is_negated_ (in_ranges c l)
      | None => false
      end
  end.

Definition text_ok (text : TextElement) : Prop :=
  match text with
  | ATOM data => exists first_char rest, data = first_char :: rest /\ 0 <= first_char <= kMaxUC16CharCode
  | CHAR_CLASS set_ _ => exists s l, ranges set_ = Some (s, l) /\ Forall valid l
  end.

(** The set that is found is the first characters of the text, except that the character 0
    of a negated class is missing: then it starts with an empty range, or the
    character 1 is in it. *)
Lemma FirstCharacterSet_spec text :
  text_ok text ->
  exists pre l', FirstCharacterSet text = Some (pre ++ l')
    /\ (pre = [] /\ can (-1) l' \/ pre = [MkRange 1 0] /\ can 1 l')
    /\ (forall c, 0 < c <= kMaxUC16CharCode -> in_ranges c l' = starts_with text c)
    /\ (starts_with text 0 = true -> pre = [] -> in_ranges 0 l' = true \/ in_ranges 1 l' = true).
Proof.
  destruct text as [data|set_ is_negated_]; cbn [text_ok FirstCharacterSet starts_with].
  - intros (first_char & rest & -> & Hc). cbn [head mbind option_bind]. rewrite Range_id by done.
    assert (Hin : forall c, in_ranges c [MkRange first_char first_char] = (c =? first_char)).
    { intros c. apply eq_iff_eq_true. rewrite in_ranges_cons, Z.eqb_eq. cbn. intuition lia. }
    exists [], [MkRange first_char first_char]. split_and!; [done|left; split; [done|cbn; lia]|done|].
    intros H _. left. by rewrite Hin.
  - intros (s & l & -> & Hv). cbn [mbind option_bind]. destruct (Canonicalize_spec l Hv) as (l1 & -> & Hcan & _ & Hin).
    cbn [mbind option_bind]. destruct is_negated_.
    + destruct (Negate_shape l1) as (pre & l' & -> & Hshape & Hl');
        [by apply (can_valid (-1))|by apply can_IsCanonical|].
      exists pre, l'. split_and!; [done|tauto| |].
      * intros c Hc. rewrite Hl', Hin, (proj2 (Z.eqb_neq c 0)), andb_true_r by lia. by destruct (in_ranges c l).
      * intros H0 ->. destruct Hshape as [(_ & _ & H1)|[? _]]; [|done]. right.
        rewrite Hl' by (unfold kMaxUC16CharCode; lia). cbn [Z.eqb negb]. rewrite andb_true_r.
        apply negb_true_iff, not_in_ranges. intros Hin1.
        assert (Hin0 : in_ranges 0 l1 = false) by (rewrite Hin; by destruct (in_ranges 0 l)).
        destruct l1 as [|r l1]; [done|]. apply H1. cbn. f_equal. apply not_in_ranges in Hin0.
        rewrite in_ranges_cons in Hin0. pose proof (in_head r l1 1 _ Hcan) as Hhead. destruct Hcan as (Hr & _).
        assert (from r <= 1) by (apply Hhead; [lia|done]). lia.
    + exists [], l1. split_and!; [done|by left|intros c _; rewrite Hin; by destruct (in_ranges c l)|].
      intros H0 _. left. rewrite Hin. by destruct (in_ranges 0 l).
Qed.

Definition is_word (c : Z) : bool := in_bounds c kWordRanges.

(** When an assertion between two characters holds; the other types are not about words. *)
Definition assertion_holds (type : AssertionNodeType) (before after : bool) : bool :=
  match type with
  | AT_BOUNDARY => xorb before after
  | AT_NON_BOUNDARY => negb (xorb before after)
  | AFTER_WORD_CHARACTER => before
  | AFTER_NONWORD_CHARACTER => negb before
  | AT_END | AT_START | AFTER_NEWLINE => true
  end.

Lemma VisitAssertion_spec type pre l' :
  (pre = [] /\ can (-1) l' \/ pre = [MkRange 1 0] /\ can 1 l') ->
  exists type', VisitAssertion type (pre ++ l') = Some type'
    /\ forall before c,
         in_ranges c l' = true \/
         (is_word c = false /\ (pre = [] -> exists c', in_ranges c' l' = true /\ is_word c' = false)) ->
         assertion_holds type' before (is_word c) = assertion_holds type before (is_word c).
Proof.
  intros Hshape. unfold VisitAssertion.
  destruct (bool_decide (type = AT_BOUNDARY) || bool_decide (type = AT_NON_BOUNDARY)) eqn:Etype;
    [|by exists type].
  assert (Hrel : IsCanonical (pre ++ l') = true /\ exists r, WordCharacterRelation (pre ++ l') = Some r
    /\ (Disjoint r = true -> forall c, in_ranges c l' = true -> is_word c = false)
    /\ (ContainedIn r = true -> pre = [] /\ forall c, in_ranges c l' = true -> is_word c = true)).
  { destruct Hshape as [[-> Hcan]|[-> Hcan]]; cbn [app].
    - pose proof (can_IsCanonical _ Hcan) as Hc. split; [done|].
      destruct (WordCharacterRelation_spec l') as (r & E & H1 & H2 & _); [by apply (can_valid (-1))|done|].
      exists r. split_and!; [done|by apply H1|]. intros Hc'. split; [done|by apply H2].
    - split.
      + cbn. apply can_after; [by apply (can_valid 1); [lia|]|done].
      + destruct (WordCharacterRelation_empty_first l' Hcan) as (r & E & H1 & H2).
        exists r. split_and!; [done|by apply H1|by rewrite H2]. }
  destruct Hrel as (Hcanon & r & Er & Hdis & Hcont).
  rewrite Canonicalize_canonical by done. cbn [mbind option_bind]. rewrite Er. cbn [mbind option_bind]. eexists. split; [done|].
  intros before c Hc. destruct (Disjoint r); [|destruct (ContainedIn r)].
  - assert (is_word c = false) as -> by (destruct Hc as [Hc|[Hc _]]; [by apply Hdis|done]).
    destruct type, before; done.
  - destruct (Hcont eq_refl) as [Hpre Hword].
    destruct Hc as [Hc|[_ Hc]]; [rewrite (Hword c Hc); destruct type, before; done|].
    destruct (Hc Hpre) as (c' & Hc' & Hw). by rewrite (Hword c' Hc') in Hw.
  - done.
Qed.

(** C26: The analysis of a word boundary before a text: the assertion that takes its place
    holds between the same characters, for every next character that the text can
    start with (also for the character 0, which the first character set of a negated
    class lacks). *)
Theorem VisitAssertion_correct type text :
  text_ok text ->
  exists l type', FirstCharacterSet text = Some l /\ VisitAssertion type l = Some type'
    /\ forall before c, 0 <= c <= kMaxUC16CharCode -> starts_with text c = true ->
         assertion_holds type' before (is_word c) = assertion_holds type before (is_word c).
Proof.
  intros Hok. destruct (FirstCharacterSet_spec text Hok) as (pre & l' & E & Hshape & Hin & Hzero).
  destruct (VisitAssertion_spec type pre l' Hshape) as (type' & Et & Ht).
  exists (pre ++ l'), type'. split_and!; [done..|]. intros before c Hc Hs. apply Ht.
  destruct (decide (c = 0)) as [-> |H0]; [|left; rewrite Hin by lia; done].
  right. split; [done|]. intros Hpre. destruct (Hzero Hs Hpre); [by exists 0|by exists 1].
Qed.

Lemma VisitAssertion_correct_witness :
  exists l type', FirstCharacterSet (CHAR_CLASS (MkSet None 87) false) = Some l
    /\ VisitAssertion AT_BOUNDARY l = Some type' /\ type' = AFTER_WORD_CHARACTER.
Proof.
  destruct (VisitAssertion_correct AT_BOUNDARY (CHAR_CLASS (MkSet None 87) false)) as (l & type' & E & Et & _).
  - exists (MkSet (Some (AddClassNegated kWordRanges [])) 87), [MkRange 0 47; MkRange 58 64; MkRange 91 94;
      MkRange 96 96; MkRange 123 0xFFFF].
    split; [vm_compute; reflexivity|]. repeat constructor; cbn; unfold kMaxUC16CharCode; lia.
  - exists l, type'. split_and!; [exact E|exact Et|]. vm_compute in E. injection E as <-.
    vm_compute in Et. by injection Et.
Defined.
