(* ===== verification/DispatchTable.v ===== *)
(** * DispatchTable: from characters to sets of choices

    Models [OutSet] and [DispatchTable] of src/jsregexp.h and src/jsregexp.cc, and what
    is built on them: [CharacterRange::Split] and the inverse of a class.  The
    sets and their lists of values live in a zone and are shared by pointers, so
    they are indices into a store; the entries are the values of a [SplayTree].
    [None] stands for an access through a null pointer. *)

From Stdlib Require Import Sorting.Sorted.
From stdpp Require Import sorting.
From S2P Require Import Prelude SplayTree CharacterRange.
Local Open Scope Z_scope.

(** ** Sets of unsigned integers *)

Record OutSet := MkOutSet {
  first_ : Z;
  remaining_ : option nat;
  successors_ : option (list nat)
}.

(** The sets and the [ZoneList<unsigned>]s. *)
Record Store := MkStore { sets : list OutSet; lists : list (list Z) }.

Definition kFirstLimit : Z := 32.

(** [1 << value] *)
Definition bit (value : Z) : Z := uint 32 (Z.shiftl 1 value).

Definition OutSet_Get (z : Store) (s : nat) (value : Z) : option bool :=
  set ← sets z !! s;
  if value <? kFirstLimit then Some (negb (Z.land (first_ set) (bit value) =? 0))
  else
    match remaining_ set with
    | None => Some false
    | Some l => values ← lists z !! l; Some (existsb (Z.eqb value) values)
    end.

Definition OutSet_Set (z : Store) (s : nat) (value : Z) : option Store :=
  set ← sets z !! s;
  if value <? kFirstLimit then
    Some (MkStore (<[s := MkOutSet (Z.lor (first_ set) (bit value)) (remaining_ set) (successors_ set)]> (sets z))
            (lists z))
  else
    let '(z, l) :=
      match remaining_ set with
      | None =>
          let l := length (lists z) in
          (MkStore (<[s := MkOutSet (first_ set) (Some l) (successors_ set)]> (sets z)) (lists z ++ [[]]), l)
      | Some l => (z, l)
      end in
    values ← lists z !! l;
    Some (if existsb (Z.eqb value) values then z
          else MkStore (sets z) (<[l := values ++ [value]]> (lists z))).

(** The loop over [successors()]. *)
Fixpoint find_successor (z : Store) (successors : list nat) (value : Z) : option (option nat) :=
  match successors with
  | [] => Some None
  | s :: successors =>
      found ← OutSet_Get z s value;
      if found : bool then Some (Some s) else find_successor z successors value
  end.

(** The new set starts with the list of values of the old one: the list itself, not a copy. *)
Definition Extend (z : Store) (s : nat) (value : Z) : option (Store * nat) :=
  has ← OutSet_Get z s value;
  if has : bool then Some (z, s)
  else
    set ← sets z !! s;
    let successors := default [] (successors_ set) in
    found ← find_successor z successors value;
    match found with
    | Some successor => Some (z, successor)
    | None =>
        let result := length (sets z) in
        z ← OutSet_Set (MkStore (sets z ++ [MkOutSet (first_ set) (remaining_ set) None]) (lists z)) result value;
        Some (MkStore (<[s := MkOutSet (first_ set) (remaining_ set) (Some (successors ++ [result]))]> (sets z))
                (lists z), result)
    end.

(** ** The table *)

Record Entry := MkEntry { e_from : Z; e_to : Z; out_set : option nat }.

(** [DispatchTable::Config::kNoValue] *)
Definition kNoValue : Entry := MkEntry 0 0 None.

Definition set_to (e : Entry) (value : Z) : Entry := MkEntry (e_from e) value (out_set e).

(** [empty_], a member of the table, is the set 0. *)
Definition empty : nat := 0.

Record DispatchTable := MkTable { tree_ : Tree Z Entry; zone : Store }.

Definition DispatchTable_new : DispatchTable := MkTable Leaf (MkStore [MkOutSet 0 None None] []).

(** [ASSERT_RESULT(tree()->Insert(key, &loc)); loc.set_value(entry)] *)
Definition insert_entry (key : Z) (e : Entry) (t : Tree Z Entry) : option (Tree Z Entry) :=
  '(t, _, loc) ← Insert CompareZ kNoValue key t;
  Some (set_value CompareZ loc e t).

(** The first range to the left that overlaps is snapped in two. *)
Definition snap_left (current : CharacterRange) (t : Tree Z Entry) : option (Tree Z Entry) :=
  '(t, found) ← FindGreatestLessThan CompareZ (from current) t;
  match found with
  | None => Some t
  | Some loc =>
      entry ← value CompareZ loc t;
      if (e_from entry <? from current) && (from current <=? e_to entry) then
        let left := Range (e_from entry) (from current - 1) in
        let right := Range (from current) (e_to entry) in
        let t := set_value CompareZ loc (set_to entry (to left)) t in
        insert_entry (from right) (MkEntry (from right) (to right) (out_set entry)) t
      else Some t
  end.

(** The body of the loop for an overlapping entry at [loc]: the table, and the new start of the
    range, or none for the [break]. *)
Definition add_to_entry (loc : Z) (current : CharacterRange) (value_ : Z) (table : DispatchTable)
    : option (DispatchTable * option CharacterRange) :=
  entry ← value CompareZ loc (tree_ table);
  '(table, current) ←
    (if from current <? e_from entry then
       '(z, s) ← Extend (zone table) empty value_;
       t ← insert_entry (from current) (MkEntry (from current) (uint 16 (e_from entry - 1)) (Some s)) (tree_ table);
       Some (MkTable t z, MkRange (e_from entry) (to current))
     else Some (table, current));
  '(t, entry) ←
    (if to current <? e_to entry then
       t ← insert_entry (uint 16 (to current + 1))
             (MkEntry (uint 16 (to current + 1)) (e_to entry) (out_set entry)) (tree_ table);
       Some (set_value CompareZ loc (set_to entry (to current)) t, set_to entry (to current))
     else Some (tree_ table, entry));
  s ← out_set entry;
  '(z, s) ← Extend (zone table) s value_;
  let t := set_value CompareZ loc (MkEntry (e_from entry) (e_to entry) (Some s)) t in
  Some (MkTable t z,
        if e_to entry =? kMaxUC16CharCode then None
        else Some (MkRange (uint 16 (e_to entry + 1)) (to current))).

(** [while (current.is_valid())] *)
Fixpoint add_loop (fuel : nat) (current : CharacterRange) (value_ : Z) (table : DispatchTable)
    : option DispatchTable :=
  match fuel with
  | O => None
  | S fuel =>
      if is_valid current then
        '(t, found) ← FindLeastGreaterThan CompareZ (from current) (tree_ table);
        let table := MkTable t (zone table) in
        overlap ←
          (match found with
           | None => Some false
           | Some loc => e ← value CompareZ loc t; Some ((e_from e <=? to current) && (from current <=? e_to e))
           end);
        if overlap : bool then
          loc ← found;
          '(table, next) ← add_to_entry loc current value_ table;
          match next with
          | None => Some table
          | Some current => add_loop fuel current value_ table
          end
        else
          '(z, s) ← Extend (zone table) empty value_;
          t ← insert_entry (from current) (MkEntry (from current) (to current) (Some s)) t;
          Some (MkTable t z)
      else Some table
  end.

(** A round of the loop moves the start of the range. *)
Definition AddRange (full_range : CharacterRange) (value_ : Z) (table : DispatchTable) : option DispatchTable :=
  let current := full_range in
  if is_empty (tree_ table) then
    '(z, s) ← Extend (zone table) empty value_;
    t ← insert_entry (from current) (MkEntry (from current) (to current) (Some s)) (tree_ table);
    Some (MkTable t z)
  else
    t ← snap_left current (tree_ table);
    add_loop (S (Z.to_nat (to current - from current + 1))) current value_ (MkTable t (zone table)).

Definition Get (value_ : Z) (table : DispatchTable) : option (DispatchTable * nat) :=
  '(t, found) ← FindGreatestLessThan CompareZ value_ (tree_ table);
  let table := MkTable t (zone table) in
  match found with
  | None => Some (table, empty)
  | Some loc =>
      entry ← value CompareZ loc t;
      if value_ <=? e_to entry then s ← out_set entry; Some (table, s) else Some (table, empty)
  end.

(** ** Users of the table *)

Definition kInBase : Z := 0.
Definition kInOverlay : Z := 1.

Fixpoint add_ranges (ranges : list CharacterRange) (value_ : Z) (table : DispatchTable) : option DispatchTable :=
  match ranges with
  | [] => Some table
  | r :: ranges => table ← AddRange r value_ table; add_ranges ranges value_ table
  end.

(** The loop over [overlay], two bounds at a time. *)
Fixpoint add_overlay (overlay : list Z) (value_ : Z) (table : DispatchTable) : option DispatchTable :=
  match overlay with
  | f :: t :: overlay => table ← AddRange (Range f t) value_ table; add_overlay overlay value_ table
  | [] => Some table
  | [_] => None
  end.

(** [CharacterRangeSplitter::Call], on the two target lists (null until the first range). *)
Definition Splitter_Call (z : Store) (entry : Entry) (targets : option (list CharacterRange) * option (list CharacterRange))
    : option (option (list CharacterRange) * option (list CharacterRange)) :=
  let '(included, excluded) := targets in
  s ← out_set entry;
  in_base ← OutSet_Get z s kInBase;
  if in_base : bool then
    in_overlay ← OutSet_Get z s kInOverlay;
    let add target := Some (default [] target ++ [Range (e_from entry) (e_to entry)]) in
    Some (if in_overlay : bool then (add included, excluded) else (included, add excluded))
  else Some targets.

Fixpoint call_all (z : Store) (entries : list (Z * Entry))
    (targets : option (list CharacterRange) * option (list CharacterRange))
    : option (option (list CharacterRange) * option (list CharacterRange)) :=
  match entries with
  | [] => Some targets
  | (_, e) :: entries => targets ← Splitter_Call z e targets; call_all z entries targets
  end.

Definition Split (base : list CharacterRange) (overlay : list Z)
    : option (option (list CharacterRange) * option (list CharacterRange)) :=
  table ← add_ranges base kInBase DispatchTable_new;
  table ← add_overlay overlay kInOverlay table;
  call_all (zone table) (ForEachNode (tree_ table)) (None, None).

(** [DispatchTableConstructor::AddInverse], after the list was sorted. *)
Fixpoint inverse_loop (last : Z) (ranges : list CharacterRange) (choice : Z) (table : DispatchTable)
    : option DispatchTable :=
  match ranges with
  | [] => AddRange (Range last kMaxUC16CharCode) choice table
  | range :: ranges =>
      table ← (if last <? from range then AddRange (Range last (from range - 1)) choice table else Some table);
      if last <=? to range then
        if to range =? kMaxUC16CharCode then Some table
        else inverse_loop (uint 16 (to range + 1)) ranges choice table
      else inverse_loop last ranges choice table
  end.

Section inverse.
(** [ranges->Sort(CompareRangeByFrom)], that is qsort. *)
Context (Sort : list CharacterRange -> list CharacterRange).

Definition AddInverse (ranges : list CharacterRange) (choice : Z) (table : DispatchTable) : option DispatchTable :=
  inverse_loop 0 (Sort ranges) choice table.
End inverse.

(** ** Sets of small values *)

Definition member (z : Store) (s : nat) (w : Z) : Prop := OutSet_Get z s w = Some true.

(** No set has a list of values, and a successor has one value more. *)
Definition small (z : Store) : Prop :=
  forall s set, sets z !! s = Some set ->
    remaining_ set = None /\
    forall j, j ∈ default [] (successors_ set) ->
      exists set' v, sets z !! j = Some set' /\ 0 <= v < kFirstLimit
        /\ first_ set' = Z.lor (first_ set) (bit v).

Lemma bit_pow v : 0 <= v < kFirstLimit -> bit v = 2 ^ v.
Proof.
  unfold kFirstLimit, bit, uint. intros Hv. rewrite Z.shiftl_mul_pow2, Z.mul_1_l by lia.
  apply Z.mod_small. split; [apply Z.pow_nonneg; lia|apply Z.pow_lt_mono_r; lia].
Qed.

Lemma land_bit x v : 0 <= v < kFirstLimit -> negb (Z.land x (bit v) =? 0) = Z.testbit x v.
Proof.
  intros Hv. rewrite bit_pow by done. destruct (Z.testbit x v) eqn:E.
  - apply negb_true_iff, Z.eqb_neq. intros H. apply (f_equal (fun y => Z.testbit y v)) in H.
    rewrite Z.land_spec, E, Z.pow2_bits_true, Z.bits_0 in H by lia. done.
  - apply negb_false_iff, Z.eqb_eq. apply Z.bits_inj'. intros n Hn.
    rewrite Z.land_spec, Z.bits_0. destruct (decide (n = v)) as [-> |Hne]; [by rewrite E|].
    rewrite Z.pow2_bits_false by lia. apply andb_false_r.
Qed.

Lemma testbit_lor_bit x v w :
  0 <= v < kFirstLimit -> 0 <= w -> Z.testbit (Z.lor x (bit v)) w = Z.testbit x w || (w =? v).
Proof.
  intros Hv Hw. rewrite Z.lor_spec, bit_pow by done. f_equal.
  destruct (Z.eqb_spec w v) as [-> |Hne]; [apply Z.pow2_bits_true; lia|apply Z.pow2_bits_false; lia].
Qed.

Lemma member_small z s set w :
  small z -> sets z !! s = Some set -> 0 <= w ->
  OutSet_Get z s w = Some ((w <? kFirstLimit) && Z.testbit (first_ set) w).
Proof.
  intros Hz Hs Hw. unfold OutSet_Get. rewrite Hs. cbn [mbind option_bind].
  destruct (Z.ltb_spec w kFirstLimit); [by rewrite land_bit|]. by destruct (Hz s set Hs) as [-> _].
Qed.

Lemma find_successor_spec z l v :
  small z -> 0 <= v -> (forall j, j ∈ l -> is_Some (sets z !! j)) ->
  exists found, find_successor z l v = Some found
    /\ match found with
       | Some j => j ∈ l /\ member z j v
       | None => True
       end.
Proof.
  intros Hz Hv Hl. induction l as [|j l IH]; cbn [find_successor]; [by exists None|].
  destruct (Hl j) as [set Hj]; [by left|].
  rewrite (member_small z j set v) by done. cbn [mbind option_bind]. destruct (_ && _) eqn:E.
  - exists (Some j). split; [done|]. split; [by left|]. unfold member. by rewrite (member_small z j set v), E.
  - destruct IH as (found & -> & Hf); [intros k Hk; apply Hl; by right|].
    exists found. split; [done|]. destruct found; [|done]. destruct Hf. split; [by right|done].
Qed.

(** The store after a new successor of a set was made. *)
Lemma add_successor z s set v :
  small z -> sets z !! s = Some set -> 0 <= v < kFirstLimit ->
  let new := MkOutSet (Z.lor (first_ set) (bit v)) (remaining_ set) None in
  let old := MkOutSet (first_ set) (remaining_ set) (Some (default [] (successors_ set) ++ [length (sets z)])) in
  let z' := MkStore (<[s := old]> (sets z ++ [new])) (lists z) in
  small z' /\ length (sets z') = S (length (sets z)) /\ sets z' !! length (sets z) = Some new
  /\ forall s0 set0, sets z !! s0 = Some set0 -> exists set1, sets z' !! s0 = Some set1
    /\ first_ set1 = first_ set0.
Proof.
  intros Hz Hset Hv new old z'. apply lookup_lt_Some in Hset as Hs. destruct (Hz s set Hset) as [Hrem Hsucc].
  assert (Hlen : length (sets z') = S (length (sets z))) by (cbn; rewrite length_insert, length_app; cbn; lia).
  assert (Hnew : sets z' !! length (sets z) = Some new).
  { cbn. rewrite list_lookup_insert_ne, lookup_app_r, Nat.sub_diag by lia. done. }
  assert (Hold : sets z' !! s = Some old).
  { cbn. rewrite list_lookup_insert_eq; [done|]. rewrite length_app. lia. }
  assert (Hother : forall s0, s0 <> s -> (s0 < length (sets z))%nat -> sets z' !! s0 = sets z !! s0).
  { intros s0 Hne Hlt. cbn. rewrite list_lookup_insert_ne, lookup_app_l by (done || lia). done. }
  assert (Hfirst : forall s0 set0, sets z !! s0 = Some set0 -> exists set1, sets z' !! s0 = Some set1
    /\ first_ set1 = first_ set0).
  { intros s0 set0 H0. destruct (decide (s0 = s)) as [-> |Hne].
    - exists old. rewrite Hset in H0. by injection H0 as <-.
    - exists set0. rewrite Hother; [done|done|]. by eapply lookup_lt_Some. }
  assert (Hz' : small z').
  { intros s0 set0 H0. destruct (decide (s0 = length (sets z))) as [-> |Hn].
    - rewrite Hnew in H0. injection H0 as <-. split; [done|]. cbn. by intros j ?%not_elem_of_nil.
    - destruct (decide (s0 = s)) as [-> |Hne].
      + rewrite Hold in H0. injection H0 as <-. split; [done|]. cbn. intros j [Hj|Hj]%elem_of_app.
        * destruct (Hsucc j Hj) as (set' & v' & Hj' & Hv' & Hf'). destruct (Hfirst j set' Hj') as (set1 & H1 & E1).
          exists set1, v'. split_and!; [done|lia|lia|congruence].
        * apply list_elem_of_singleton in Hj as ->. exists new, v. split_and!; [done|lia|lia|done].
      + apply lookup_lt_Some in H0 as Hlt. rewrite Hlen in Hlt. rewrite Hother in H0 by lia.
        destruct (Hz s0 set0 H0) as [H1 H2]. split; [done|]. intros j Hj.
        destruct (H2 j Hj) as (set' & v' & Hj' & Hv' & Hf'). destruct (Hfirst j set' Hj') as (set1 & H3 & E3).
        exists set1, v'. split_and!; [done|lia|lia|congruence]. }
  by split_and!.
Qed.

(** The set with one more value; the other sets, and the set itself, keep their values. *)
Lemma Extend_spec z s v :
  small z -> (s < length (sets z))%nat -> 0 <= v < kFirstLimit ->
  exists z' s', Extend z s v = Some (z', s') /\ small z' /\ (s' < length (sets z'))%nat
    /\ (length (sets z) <= length (sets z'))%nat
    /\ (forall w, 0 <= w -> member z' s' w <-> member z s w \/ w = v)
    /\ (forall s0 w, (s0 < length (sets z))%nat -> 0 <= w -> member z' s0 w <-> member z s0 w).
Proof.
  intros Hz Hs Hv. destruct (lookup_lt_is_Some_2 _ _ Hs) as [set Hset].
  destruct (Hz s set Hset) as [Hrem Hsucc]. unfold Extend.
  rewrite (member_small z s set v) by (done || lia). cbn [mbind option_bind].
  rewrite (proj2 (Z.ltb_lt v kFirstLimit)) by lia. cbn [andb].
  destruct (Z.testbit (first_ set) v) eqn:Ev.
  { exists z, s. split_and!; try done. intros w Hw. split; [by left|]. intros [?| ->]; [done|].
    unfold member. rewrite (member_small z s set v), Ev, (proj2 (Z.ltb_lt v kFirstLimit)) by (done || lia). done. }
  rewrite Hset. cbn [mbind option_bind].
  destruct (find_successor_spec z (default [] (successors_ set)) v) as (found & -> & Hf); [done|lia| |].
  { intros j Hj. destruct (Hsucc j Hj) as (set' & _ & -> & _). eauto. }
  cbn [mbind option_bind]. destruct found as [j|].
  { destruct Hf as [Hj Hm]. destruct (Hsucc j Hj) as (set' & v' & Hj' & Hv' & Hfirst).
    exists z, j. split_and!; try done; [by eapply lookup_lt_Some|]. intros w Hw.
    unfold member in *. rewrite (member_small z j set') in Hm |- * by (done || lia).
    rewrite (member_small z s set) by done. injection Hm as Hm. apply andb_true_iff in Hm as [_ Hm].
    rewrite Hfirst, testbit_lor_bit in Hm |- * by (done || lia). rewrite Ev in Hm. cbn [orb] in Hm.
    apply Z.eqb_eq in Hm as ->. destruct (Z.ltb_spec w kFirstLimit); cbn [andb].
    - destruct (Z.testbit (first_ set) w), (Z.eqb_spec w v'); cbn; intuition congruence.
    - intuition (congruence || lia). }
  unfold OutSet_Set. cbn [sets lists].
  rewrite lookup_app_r, Nat.sub_diag by lia. cbn [lookup list_lookup mbind option_bind].
  rewrite (proj2 (Z.ltb_lt v kFirstLimit)) by lia. cbn [mbind option_bind sets lists].
  rewrite insert_app_r_alt, Nat.sub_diag by lia. cbn [insert list_insert first_ remaining_ successors_].
  destruct (add_successor z s set v Hz Hset Hv) as (Hz' & Hlen & Hnew & Hfirst).
  set (z' := MkStore _ _) in *.
  exists z', (length (sets z)). split_and!; [done|done|lia|lia| |].
  - intros w Hw. unfold member. rewrite (member_small z' _ _ w Hz' Hnew) by done. rewrite (member_small z s set) by done.
    cbn [first_]. rewrite testbit_lor_bit by done.
    destruct (Z.ltb_spec w kFirstLimit); cbn [andb].
    + destruct (Z.testbit (first_ set) w), (Z.eqb_spec w v); cbn; intuition congruence.
    + intuition (congruence || lia).
  - intros s0 w Hs0 Hw. destruct (lookup_lt_is_Some_2 _ _ Hs0) as [set0 H0].
    destruct (Hfirst s0 set0 H0) as (set1 & H1 & E1). unfold member.
    by rewrite (member_small z' s0 set1), (member_small z s0 set0), E1.
Qed.

(** OutSet::Extend is not safe for values from 32 on: the new set shares the
    list of values of the old one, so that adding a value changes the old set too. *)
Theorem Extend_aliases :
  exists z1 s1 z2 s2,
    Extend (zone DispatchTable_new) empty 40 = Some (z1, s1) /\ Extend z1 s1 41 = Some (z2, s2)
    /\ OutSet_Get z1 s1 41 = Some false /\ OutSet_Get z2 s1 41 = Some true.
Proof. by do 4 eexists. Qed.

(** ** The table as a map from characters to sets *)

Lemma insert_entry_spec key e t :
  good t ->
  exists t', insert_entry key e t = Some t' /\ good t' /\ forall k, look t' k = if k =? key then Some e else look t k.
Proof.
  intros Hg. unfold insert_entry. destruct (look_Insert kNoValue t key Hg) as (t1 & -> & Hg1 & Hl1).
  cbn [mbind option_bind]. eexists. split; [done|]. split; [by apply good_set_value|].
  intros k. rewrite look_set_value, !Hl1, Z.eqb_refl. by destruct (k =? key).
Qed.

(** The entries are ranges that start at their key and do not overlap. *)
Record entries_ok (n : nat) (m : Z -> option Entry) : Prop := {
  eo_entry : forall k e, m k = Some e -> e_from e = k /\ 0 <= k <= e_to e /\ e_to e <= kMaxUC16CharCode
    /\ exists s, out_set e = Some s /\ (s < n)%nat;
  eo_apart : forall k1 e1 k2 e2, m k1 = Some e1 -> m k2 = Some e2 -> k1 < k2 -> e_to e1 < k2
}.

(** The value is in the set of the character. *)
Definition has (z : Store) (m : Z -> option Entry) (c w : Z) : Prop :=
  exists k e s, m k = Some e /\ k <= c <= e_to e /\ out_set e = Some s /\ member z s w.

(** A well-formed table. *)
Record table_ok (table : DispatchTable) : Prop := {
  to_good : good (tree_ table);
  to_entries : entries_ok (length (sets (zone table))) (look (tree_ table));
  to_small : small (zone table);
  to_empty : (0 < length (sets (zone table)))%nat /\ forall w, 0 <= w -> ~ member (zone table) empty w
}.

Definition table_has (table : DispatchTable) : Z -> Z -> Prop := has (zone table) (look (tree_ table)).

Definition with_entry (m : Z -> option Entry) (key : Z) (e : Entry) (k : Z) : option Entry :=
  if k =? key then Some e else m k.

Lemma with_entry_eq m key e : with_entry m key e key = Some e.
Proof. unfold with_entry. by rewrite Z.eqb_refl. Qed.

Lemma with_entry_Some m key e k e' :
  with_entry m key e k = Some e' <-> (k = key /\ e' = e) \/ (k <> key /\ m k = Some e').
Proof. unfold with_entry. destruct (Z.eqb_spec k key); intuition congruence. Qed.

(** A set that is larger, in a store that keeps the other ones. *)
Definition store_le (z z' : Store) : Prop :=
  (length (sets z) <= length (sets z'))%nat /\
  forall s w, (s < length (sets z))%nat -> 0 <= w -> member z' s w <-> member z s w.

Lemma store_le_refl z : store_le z z.
Proof. split; [lia|done]. Qed.

Lemma has_store z z' m c w :
  entries_ok (length (sets z)) m -> store_le z z' -> 0 <= w -> has z' m c w <-> has z m c w.
Proof.
  intros He [_ Hle] Hw. unfold has. split; intros (k & e & s & Hk & Hc & Hs & Hm);
    destruct (eo_entry _ _ He k e Hk) as (_ & _ & _ & s' & Hs' & Hlt);
    rewrite Hs in Hs'; injection Hs' as <-; exists k, e, s; (split_and!; [done|lia|lia|done|]); by apply (Hle s w).
Qed.

Lemma entries_ok_le n n' m : entries_ok n m -> (n <= n')%nat -> entries_ok n' m.
Proof.
  intros He Hn. split; [|apply He]. intros k e Hk.
  destruct (eo_entry _ _ He k e Hk) as (H1 & H2 & H3 & s & H4 & H5). split_and!; [done|lia|lia|lia|]. exists s. split; [done|lia].
Qed.

Lemma entries_ok_ext n m m' : (forall k, m' k = m k) -> entries_ok n m -> entries_ok n m'.
Proof. intros H [H1 H2]. split; [intros k e; rewrite H; apply H1|intros k1 e1 k2 e2; rewrite !H; apply H2]. Qed.

Lemma has_ext z m m' c w : (forall k, m' k = m k) -> has z m' c w <-> has z m c w.
Proof. intros H. unfold has. by setoid_rewrite H. Qed.

(** A new range where there is none. *)
Lemma add_gap n z m f t s :
  entries_ok n m -> 0 <= f <= t -> t <= kMaxUC16CharCode -> (s < n)%nat ->
  (forall k e, m k = Some e -> e_to e < f \/ t < k) ->
  entries_ok n (with_entry m f (MkEntry f t (Some s)))
  /\ forall c w, has z (with_entry m f (MkEntry f t (Some s))) c w <-> has z m c w \/ (f <= c <= t /\ member z s w).
Proof.
  intros He Hft Ht Hs Hgap. split; [split|].
  - intros k e [[-> ->]|[Hne Hk]]%with_entry_Some; [|by apply (eo_entry _ _ He)].
    cbn. split_and!; [done|lia|lia|lia|by exists s].
  - intros k1 e1 k2 e2 [[-> ->]|[Hne1 H1]]%with_entry_Some [[-> ->]|[Hne2 H2]]%with_entry_Some Hlt; cbn; [lia| | |].
    + destruct (Hgap k2 e2 H2); [|done]. destruct (eo_entry _ _ He k2 e2 H2). lia.
    + destruct (Hgap k1 e1 H1); [done|lia].
    + by apply (eo_apart _ _ He k1 e1 k2 e2).
  - intros c w. unfold has. split.
    + intros (k & e & s' & [[-> ->]|[Hne Hk]]%with_entry_Some & Hc & Hs' & Hm).
      * right. cbn in *. injection Hs' as <-. done.
      * left. by exists k, e, s'.
    + intros [(k & e & s' & Hk & Hc & Hs' & Hm)|[Hc Hm]].
      * exists k, e, s'. split_and!; [|lia|lia|done|done]. apply with_entry_Some. right. split; [|done].
        intros ->. destruct (Hgap f e Hk); lia.
      * exists f, (MkEntry f t (Some s)), s. split_and!; [apply with_entry_eq|cbn; lia|cbn; lia|done|done].
Qed.

(** A range cut in two, in either order of the two stores to the map. *)
Lemma cut_entry n z m k e c0 :
  entries_ok n m -> m k = Some e -> k < c0 <= e_to e ->
  let m' := with_entry (with_entry m k (MkEntry k (c0 - 1) (out_set e))) c0 (MkEntry c0 (e_to e) (out_set e)) in
  entries_ok n m' /\ (forall c w, has z m' c w <-> has z m c w).
Proof.
  intros He Hk Hc0 m'. destruct (eo_entry _ _ He k e Hk) as (Hf & Hb1 & Hb2 & s & Hs & Hlt).
  assert (Hm' : forall k' e', m' k' = Some e' <-> (k' = c0 /\ e' = MkEntry c0 (e_to e) (out_set e))
    \/ (k' = k /\ e' = MkEntry k (c0 - 1) (out_set e)) \/ (k' <> c0 /\ k' <> k /\ m k' = Some e')).
  { intros k' e'. unfold m'. rewrite !with_entry_Some. intuition lia. }
  assert (Hother : forall k' e', m k' = Some e' -> k' <> k -> e_to e' < k \/ e_to e < k').
  { intros k' e' Hk' Hne. destruct (decide (k' < k)).
    - left. by apply (eo_apart _ _ He k' e' k e).
    - right. apply (eo_apart _ _ He k e k' e'); [done|done|lia]. }
  split; [split|].
  - intros k' e' [[-> ->]|[[-> ->]|(_ & _ & H')]]%Hm'; [| |by apply (eo_entry _ _ He)];
      cbn; (split_and!; [done|lia|lia|lia|by exists s]).
  - intros k1 e1 k2 e2 H1%Hm' H2%Hm' Hlt12.
    assert (forall k' e', m k' = Some e' -> k' <= e_to e') as Hle
      by (intros k' e' H'; destruct (eo_entry _ _ He k' e' H'); lia).
    destruct H1 as [[-> ->]|[[-> ->]|(Hn1 & Hn2 & H1)]], H2 as [[-> ->]|[[-> ->]|(Hn3 & Hn4 & H2)]]; cbn; try lia.
    + destruct (Hother k2 e2 H2 Hn4); [|lia]. specialize (Hle _ _ H2). lia.
    + destruct (Hother k2 e2 H2 Hn4); [|lia]. specialize (Hle _ _ H2). lia.
    + destruct (Hother k1 e1 H1 Hn2); lia.
    + destruct (Hother k1 e1 H1 Hn2); lia.
    + by apply (eo_apart _ _ He k1 e1 k2 e2).
  - intros c w. unfold has. split.
    + intros (k' & e' & s' & [[-> ->]|[[-> ->]|(_ & _ & H')]]%Hm' & Hc & Hs' & Hm); cbn in *.
      * exists k, e, s'. split_and!; done || lia.
      * exists k, e, s'. split_and!; done || lia.
      * by exists k', e', s'.
    + intros (k' & e' & s' & H' & Hc & Hs' & Hm). destruct (decide (k' = k)) as [-> |Hne].
      * rewrite Hk in H'. injection H' as <-. destruct (decide (c < c0)).
        -- exists k, (MkEntry k (c0 - 1) (out_set e)), s'. split_and!; [|lia|cbn; lia|done|done].
           apply Hm'. right. by left.
        -- exists c0, (MkEntry c0 (e_to e) (out_set e)), s'. split_and!; [|lia|cbn; lia|done|done].
           apply Hm'. by left.
      * exists k', e', s'. split_and!; [|lia|lia|done|done]. apply Hm'. right. right. split_and!; [|done|done].
        intros ->. destruct (Hother c0 e' H' Hne); [|lia]. destruct (eo_entry _ _ He c0 e' H'). lia.
Qed.

(** A set of an entry replaced by a larger one. *)
Lemma add_value n n' z z' m k e s s' v :
  entries_ok n m -> n = length (sets z) -> n' = length (sets z') -> m k = Some e -> out_set e = Some s ->
  store_le z z' -> (s' < n')%nat -> (forall w, 0 <= w -> member z' s' w <-> member z s w \/ w = v) ->
  let m' := with_entry m k (MkEntry (e_from e) (e_to e) (Some s')) in
  entries_ok n' m' /\ forall c w, 0 <= w -> has z' m' c w <-> has z m c w \/ (k <= c <= e_to e /\ w = v).
Proof.
  intros He -> -> Hk Hs Hle Hs' Hmem m'. destruct (eo_entry _ _ He k e Hk) as (Hf & Hb1 & Hb2 & _).
  split; [split|].
  - intros k1 e1 [[-> ->]|[_ H1]]%with_entry_Some.
    + cbn. split_and!; [done|lia|lia|lia|by exists s'].
    + by apply (eo_entry _ _ (entries_ok_le _ _ _ He (proj1 Hle))).
  - intros k1 e1 k2 e2 [[-> ->]|[_ H1]]%with_entry_Some [[-> ->]|[_ H2]]%with_entry_Some Hlt; cbn; [lia| | |].
    + by apply (eo_apart _ _ He k e k2 e2).
    + by apply (eo_apart _ _ He k1 e1 k e).
    + by apply (eo_apart _ _ He k1 e1 k2 e2).
  - intros c w Hw. rewrite <- (has_store z z' m c w He Hle Hw). unfold has. split.
    + intros (k1 & e1 & s1 & [[-> ->]|[_ H1]]%with_entry_Some & Hc & Hs1 & Hm); [|left; by exists k1, e1, s1].
      cbn in *. injection Hs1 as <-. apply (Hmem w Hw) in Hm as [Hm| ->]; [left|by right].
      exists k, e, s. split_and!; [done|lia|lia|done|]. destruct (eo_entry _ _ He k e Hk) as (_ & _ & _ & s1 & Hs1 & Hlt).
      rewrite Hs in Hs1. injection Hs1 as <-. by apply (proj2 Hle s w).
    + intros [(k1 & e1 & s1 & H1 & Hc & Hs1 & Hm)|[Hc ->]].
      * destruct (decide (k1 = k)) as [-> |Hne].
        -- rewrite Hk in H1. injection H1 as <-. rewrite Hs in Hs1. injection Hs1 as <-.
           eexists k, _, s'. split_and!; [apply with_entry_eq|cbn; lia|cbn; lia|done|]. apply Hmem; [done|]. left.
           destruct (eo_entry _ _ He k e Hk) as (_ & _ & _ & s1 & Hs1 & Hlt).
           rewrite Hs in Hs1. injection Hs1 as <-. by apply (proj2 Hle s w).
        -- exists k1, e1, s1. split_and!; [|lia|lia|done|done]. apply with_entry_Some. by right.
      * eexists k, _, s'. split_and!; [apply with_entry_eq|cbn; lia|cbn; lia|done|]. apply Hmem; [done|]. by right.
Qed.

(** ** Adding a range *)

Lemma Range_valid f t : 0 <= f -> t <= kMaxUC16CharCode -> f <= kMaxUC16CharCode -> 0 <= t -> Range f t = MkRange f t.
Proof. intros. by apply Range_id. Qed.

(** No entry crosses [cur]. *)
Definition no_crossing (m : Z -> option Entry) (cur : Z) : Prop :=
  forall k e, m k = Some e -> k < cur -> e_to e < cur.

Lemma snap_left_spec z t current :
  good t -> entries_ok (length (sets z)) (look t) -> valid current ->
  exists t', snap_left current t = Some t' /\ good t' /\ entries_ok (length (sets z)) (look t')
    /\ no_crossing (look t') (from current) /\ (forall c w, has z (look t') c w <-> has z (look t) c w).
Proof.
  intros Hg He [Hv1 Hv2]. unfold snap_left.
  destruct (look_FindGreatestLessThan t (from current) Hg) as (t1 & found & -> & Hg1 & Hl1 & Hf).
  cbn [mbind option_bind]. pose proof (entries_ok_ext _ _ _ Hl1 He) as He1. destruct found as [k|].
  - destruct Hf as (e & Hk & Hle & Hmax). rewrite look_value, Hl1, Hk by done. cbn [mbind option_bind].
    destruct (eo_entry _ _ He k e Hk) as (Hfrom & Hb1 & Hb2 & _). rewrite Hfrom.
    destruct (Z.ltb_spec k (from current)) as [Hlt|Hge], (Z.leb_spec (from current) (e_to e)) as [Hto|Hto]; cbn [andb].
    + rewrite !Range_id by lia. cbn [from to].
      destruct (insert_entry_spec (from current) (MkEntry (from current) (e_to e) (out_set e))
        (set_value CompareZ k (set_to e (from current - 1)) t1)) as (t' & E & Hg' & Hl');
        [by apply good_set_value|].
      exists t'. unfold set_to in *. rewrite Hfrom in *. split; [exact E|]. split; [done|].
      assert (Hm : forall k', look t' k' = with_entry (with_entry (look t) k
        (MkEntry k (from current - 1) (out_set e))) (from current) (MkEntry (from current) (e_to e) (out_set e)) k').
      { intros k'. rewrite Hl', look_set_value, !Hl1, Hk. done. }
      destruct (cut_entry _ z _ k e (from current) He Hk ltac:(lia)) as [He' Hhas].
      split_and!.
      * exact (entries_ok_ext _ _ _ Hm He').
      * intros k' e'. rewrite Hm, !with_entry_Some. intros [[-> ->]|[Hn [[-> ->]|[Hn' Hk']]]] Hlt'; cbn; [lia|lia|].
        apply (eo_apart _ _ He k' e' k e) in Hk'; [lia|done|].
        destruct (decide (k' < k)); [done|]. specialize (Hmax k' e' Hk' ltac:(lia)). lia.
      * intros c w. rewrite (has_ext z _ _ c w Hm). apply Hhas.
    + exists t1. split_and!; [done..| |by intros; apply has_ext].
      intros k' e'. rewrite Hl1. intros Hk' Hlt'. destruct (decide (k' = k)) as [-> |Hne].
      * rewrite Hk in Hk'. by injection Hk' as <-.
      * specialize (Hmax k' e' Hk' ltac:(lia)). pose proof (eo_apart _ _ He k' e' k e Hk' Hk). lia.
    + exists t1. split_and!; [done..| |by intros; apply has_ext].
      intros k' e'. rewrite Hl1. intros Hk' Hlt'. specialize (Hmax k' e' Hk' ltac:(lia)).
      pose proof (eo_apart _ _ He k' e' k e Hk' Hk). lia.
    + exists t1. split_and!; [done..| |by intros; apply has_ext].
      intros k' e'. rewrite Hl1. intros Hk' Hlt'. specialize (Hmax k' e' Hk' ltac:(lia)).
      pose proof (eo_apart _ _ He k' e' k e Hk' Hk). lia.
  - exists t1. split_and!; [done..| |by intros; apply has_ext].
    intros k' e'. rewrite Hl1. intros Hk' Hlt'. specialize (Hf k' e' Hk'). lia.
Qed.

(** A range that does not touch any entry. *)
Lemma add_new_spec table f t v :
  table_ok table -> 0 <= v < kFirstLimit -> 0 <= f <= t -> t <= kMaxUC16CharCode ->
  (forall k e, look (tree_ table) k = Some e -> e_to e < f \/ t < k) ->
  exists z s t', Extend (zone table) empty v = Some (z, s)
    /\ insert_entry f (MkEntry f t (Some s)) (tree_ table) = Some t' /\ table_ok (MkTable t' z)
    /\ store_le (zone table) z
    /\ (forall k, look t' k = with_entry (look (tree_ table)) f (MkEntry f t (Some s)) k)
    /\ forall c w, 0 <= w -> table_has (MkTable t' z) c w <-> table_has table c w \/ (f <= c <= t /\ w = v).
Proof.
  intros [Hg He Hsm [Hlen Hemp]] Hv Hft Ht Hgap.
  destruct (Extend_spec (zone table) empty v Hsm Hlen Hv) as (z & s & E & Hsm' & Hs & Hle1 & Hmem & Hle2).
  assert (Hle : store_le (zone table) z) by (by split).
  destruct (insert_entry_spec f (MkEntry f t (Some s)) (tree_ table) Hg) as (t' & Et & Hg' & Hl').
  destruct (add_gap (length (sets z)) z (look (tree_ table)) f t s) as [He' Hhas'];
    [by eapply entries_ok_le|done|done|done|done|].
  exists z, s, t'. split_and!; [done|done| |done|done|].
  - split; [done|exact (entries_ok_ext _ _ _ Hl' He')|done|]. cbn. split; [lia|]. intros w Hw Hm. apply (Hle2 empty w) in Hm; [|done|done].
    by apply (Hemp w).
  - intros c w Hw. unfold table_has. cbn [zone tree_]. rewrite (has_ext z _ _ c w Hl'), Hhas', (has_store _ z) by done.
    rewrite Hmem by done. specialize (Hemp w Hw). tauto.
Qed.

(** A store to the value of an entry that is there. *)
Lemma set_entry t k e e' :
  look t k = Some e -> forall k', look (set_value CompareZ k e' t) k' = with_entry (look t) k e' k'.
Proof. intros Hk k'. rewrite look_set_value, Hk. done. Qed.

(** The part of the loop body after the gap: the entry starts where the range does. *)
Lemma add_to_found table k e cur v :
  table_ok table -> 0 <= v < kFirstLimit -> look (tree_ table) k = Some e -> k <= cur <= kMaxUC16CharCode ->
  exists t1 e1 s z s',
    (if cur <? e_to e then
       t ← insert_entry (uint 16 (cur + 1)) (MkEntry (uint 16 (cur + 1)) (e_to e) (out_set e)) (tree_ table);
       Some (set_value CompareZ k (set_to e cur) t, set_to e cur)
     else Some (tree_ table, e)) = Some (t1, e1)
    /\ e_from e1 = k /\ e_to e1 = Z.min (e_to e) cur /\ out_set e1 = Some s
    /\ Extend (zone table) s v = Some (z, s')
    /\ let t2 := set_value CompareZ k (MkEntry (e_from e1) (e_to e1) (Some s')) t1 in
       table_ok (MkTable t2 z) /\ look t2 k = Some (MkEntry k (e_to e1) (Some s'))
       /\ forall c w, 0 <= w -> table_has (MkTable t2 z) c w
                      <-> table_has table c w \/ (k <= c <= e_to e1 /\ w = v).
Proof.
  intros [Hg He Hsm [Hlen Hemp]] Hv Hk Hcur.
  destruct (eo_entry _ _ He k e Hk) as (Hf & Hb1 & Hb2 & s & Hs & Hlt).
  assert (Hcut : exists t1 e1,
    (if cur <? e_to e then
       t ← insert_entry (uint 16 (cur + 1)) (MkEntry (uint 16 (cur + 1)) (e_to e) (out_set e)) (tree_ table);
       Some (set_value CompareZ k (set_to e cur) t, set_to e cur)
     else Some (tree_ table, e)) = Some (t1, e1)
    /\ e_from e1 = k /\ e_to e1 = Z.min (e_to e) cur /\ out_set e1 = Some s /\ good t1
    /\ entries_ok (length (sets (zone table))) (look t1) /\ look t1 k = Some e1
    /\ forall c w, has (zone table) (look t1) c w <-> table_has table c w).
  { destruct (Z.ltb_spec cur (e_to e)) as [Hc|Hc].
    - assert (uint 16 (cur + 1) = cur + 1) as ->
        by (unfold uint, kMaxUC16CharCode in *; rewrite Z.mod_small; lia).
      destruct (insert_entry_spec (cur + 1) (MkEntry (cur + 1) (e_to e) (out_set e)) (tree_ table) Hg)
        as (t' & -> & Hg' & Hl'). cbn [mbind option_bind].
      assert (Hk' : look t' k = Some e) by (rewrite Hl'; by rewrite (proj2 (Z.eqb_neq k (cur + 1))) by lia).
      assert (Hm : forall k', look (set_value CompareZ k (set_to e cur) t') k' =
        with_entry (with_entry (look (tree_ table)) k (MkEntry k (cur + 1 - 1) (out_set e))) (cur + 1)
          (MkEntry (cur + 1) (e_to e) (out_set e)) k').
      { intros k'. rewrite (set_entry _ _ _ _ Hk'). unfold with_entry, set_to. rewrite Hl', Hf.
        replace (cur + 1 - 1) with cur by lia.
        destruct (Z.eqb_spec k' k), (Z.eqb_spec k' (cur + 1)); done || lia. }
      destruct (cut_entry _ (zone table) _ k e (cur + 1) He Hk ltac:(lia)) as [He' Hhas].
      do 2 eexists. split; [done|]. unfold set_to. cbn [e_from e_to out_set]. split_and!; [done|lia|done| | | |].
      + by apply good_set_value.
      + exact (entries_ok_ext _ _ _ Hm He').
      + by rewrite (set_entry _ _ _ _ Hk'), with_entry_eq.
      + intros c w. by rewrite (has_ext _ _ _ c w Hm), Hhas.
    - exists (tree_ table), e. split_and!; [done|done|lia|done..]. }
  destruct Hcut as (t1 & e1 & -> & Hf1 & Ht1 & Hs1 & Hg1 & He1 & Hk1 & Hhas1).
  destruct (Extend_spec (zone table) s v Hsm Hlt Hv) as (z & s' & E & Hsm' & Hs' & Hle1 & Hmem & Hle2).
  assert (Hle : store_le (zone table) z) by (by split).
  exists t1, e1, s, z, s'. split_and!; [done..|]. intros t2.
  destruct (add_value _ _ (zone table) z (look t1) k e1 s s' v He1 eq_refl eq_refl Hk1 Hs1 Hle Hs' Hmem) as [He2 Hhas2].
  assert (Hl2 : forall k', look t2 k' = with_entry (look t1) k (MkEntry (e_from e1) (e_to e1) (Some s')) k')
    by (by apply (set_entry _ _ e1)).
  split_and!.
  - split; [by apply good_set_value|exact (entries_ok_ext _ _ _ Hl2 He2)|done|]. split; [cbn; unfold empty in *; lia|].
    intros w Hw Hm. apply (Hle2 empty w) in Hm; [|done|done]. by apply (Hemp w).
  - by rewrite Hl2, with_entry_eq, Hf1.
  - intros c w Hw. unfold table_has at 1. cbn [zone tree_]. by rewrite (has_ext z _ _ c w Hl2), Hhas2, Hhas1.
Qed.

Lemma table_ok_tree table t' :
  table_ok table -> good t' -> (forall k, look t' k = look (tree_ table) k) ->
  table_ok (MkTable t' (zone table)) /\ forall c w, table_has (MkTable t' (zone table)) c w <-> table_has table c w.
Proof.
  intros [Hg He Hsm Hemp] Hg' Hl. split.
  - split; [done|exact (entries_ok_ext _ _ _ Hl He)|done|done].
  - intros c w. by apply has_ext.
Qed.

(** The gap before the entry, when there is one. *)
Lemma add_gap_before table k e current v :
  table_ok table -> 0 <= v < kFirstLimit -> look (tree_ table) k = Some e -> 0 <= from current <= k ->
  no_crossing (look (tree_ table)) (from current) ->
  (forall k' e', look (tree_ table) k' = Some e' -> from current <= k' -> k <= k') ->
  exists table', 
    (if from current <? e_from e then
       '(z, s) ← Extend (zone table) empty v;
       t ← insert_entry (from current) (MkEntry (from current) (uint 16 (e_from e - 1)) (Some s)) (tree_ table);
       Some (MkTable t z, MkRange (e_from e) (to current))
     else Some (table, current)) = Some (table', MkRange k (to current))
    /\ table_ok table' /\ look (tree_ table') k = Some e
    /\ forall c w, 0 <= w -> table_has table' c w <-> table_has table c w \/ (from current <= c < k /\ w = v).
Proof.
  intros Hok Hv Hk Hcur Hcross Hleast. pose proof (eo_entry _ _ (to_entries _ Hok) k e Hk) as (Hf & Hb1 & Hb2 & _).
  rewrite Hf. destruct (Z.ltb_spec (from current) k) as [Hlt|Hge].
  - assert (uint 16 (k - 1) = k - 1) as -> by (unfold uint, kMaxUC16CharCode in *; rewrite Z.mod_small; lia).
    destruct (add_new_spec table (from current) (k - 1) v) as (z & s & t' & -> & Et & Hok' & _ & Hl' & Hhas');
      [done|done|lia|lia| |].
    { intros k' e' Hk'. destruct (decide (k' < from current)); [left; by apply (Hcross k')|].
      right. specialize (Hleast k' e' Hk' ltac:(lia)). lia. }
    cbn [mbind option_bind]. rewrite Et. cbn [mbind option_bind]. eexists. split; [done|]. split_and!; [done| |].
    + cbn [tree_]. rewrite Hl'. unfold with_entry. by rewrite (proj2 (Z.eqb_neq k (from current))) by lia.
    + intros c w Hw. rewrite Hhas' by done. intuition lia.
  - exists table. destruct current as [f t]. cbn [from to] in *. split_and!; [do 3 f_equal; lia|done|done|].
    intros c w Hw. intuition lia.
Qed.

Lemma add_loop_spec fuel current v table :
  table_ok table -> 0 <= v < kFirstLimit -> 0 <= from current <= kMaxUC16CharCode -> to current <= kMaxUC16CharCode ->
  (Z.to_nat (to current - from current + 1) < fuel)%nat -> no_crossing (look (tree_ table)) (from current) ->
  exists table', add_loop fuel current v table = Some table' /\ table_ok table'
    /\ forall c w, 0 <= w -> table_has table' c w <-> table_has table c w \/ (from current <= c <= to current /\ w = v).
Proof.
  revert current table. induction fuel as [|fuel IH]; intros current table Hok Hv Hf Ht Hfuel Hcross; [lia|].
  cbn [add_loop]. unfold is_valid. destruct (Z.leb_spec (from current) (to current)) as [Hft|Hft].
  2: { exists table. split_and!; [done|done|]. intros c w Hw. intuition lia. }
  destruct (look_FindLeastGreaterThan (tree_ table) (from current) (to_good _ Hok)) as (t & found & -> & Hg & Hl & Hfound).
  cbn [mbind option_bind]. cbv zeta. destruct (table_ok_tree table t Hok Hg Hl) as [Hok1 Hhas1].
  set (table1 := MkTable t (zone table)) in *.
  assert (Hcross1 : no_crossing (look (tree_ table1)) (from current)) by (intros k e; unfold table1; cbn [tree_]; rewrite Hl; apply Hcross).
  assert (Hnew : (forall k e, look t k = Some e -> from current <= k -> to current < k) ->
    exists table', ('(z, s) ← Extend (zone table1) empty v;
      t0 ← insert_entry (from current) (MkEntry (from current) (to current) (Some s)) t;
      Some (MkTable t0 z)) = Some table' /\ table_ok table'
    /\ forall c w, 0 <= w -> table_has table' c w <-> table_has table c w \/ (from current <= c <= to current /\ w = v)).
  { intros Hgap. destruct (add_new_spec table1 (from current) (to current) v) as (z & s & t' & E & Et & Hok' & _ & _ & Hhas');
      [done|done|lia|lia| |].
    - intros k e Hk. destruct (decide (k < from current)); [left; by apply (Hcross1 k)|right; apply (Hgap k e Hk); lia].
    - rewrite E. cbn [mbind option_bind tree_ table1] in *. rewrite Et. eexists. split_and!; [done|done|].
      intros c w Hw. by rewrite Hhas', Hhas1. }
  destruct found as [k|]; cbn [mbind option_bind].
  2: { apply Hnew. intros k e Hk Hge. rewrite Hl in Hk. specialize (Hfound k e Hk). lia. }
  destruct Hfound as (e & Hk & Hge & Hleast). rewrite <- Hl in Hk. rewrite look_value, Hk by done. cbn [mbind option_bind].
  pose proof (eo_entry _ _ (to_entries _ Hok1) k e Hk) as (Hfrom & Hb1 & Hb2 & _).
  rewrite (proj2 (Z.leb_le (from current) (e_to e))), andb_true_r by lia. rewrite Hfrom.
  destruct (Z.leb_spec k (to current)) as [Hkt|Hkt].
  2: { apply Hnew. intros k' e' Hk' Hge'. rewrite Hl in Hk'. specialize (Hleast k' e' Hk' Hge'). lia. }
  unfold add_to_entry. rewrite (look_value (tree_ table1) k Hg). change (look (tree_ table1) k) with (look t k). rewrite Hk. cbn [mbind option_bind].
  destruct (add_gap_before table1 k e current v) as (table2 & -> & Hok2 & Hk2 & Hhas2); [done|done|done|lia|done| |].
  { intros k' e'. unfold table1. cbn [tree_]. rewrite Hl. apply Hleast. }
  cbn [mbind option_bind to].
  destruct (add_to_found table2 k e (to current) v) as (t3 & e3 & s & z & s' & -> & Hf3 & Ht3 & Hs3 & E3 & Hok3 & Hk3 & Hhas3);
    [done|done|done|lia|].
  cbn [mbind option_bind]. rewrite Hs3. cbn [mbind option_bind]. rewrite E3. cbn [mbind option_bind].
  set (table3 := MkTable _ z) in *.
  assert (Hhas : forall c w, 0 <= w -> table_has table3 c w <->
    table_has table c w \/ (from current <= c <= e_to e3 /\ w = v)).
  { intros c w Hw. rewrite Hhas3, Hhas2, Hhas1 by done. intuition lia. }
  destruct (Z.eqb_spec (e_to e3) kMaxUC16CharCode) as [Eend|Eend].
  { exists table3. split_and!; [done|done|]. intros c w Hw. rewrite Hhas by done. intuition lia. }
  assert (uint 16 (e_to e3 + 1) = e_to e3 + 1) as -> by (unfold uint, kMaxUC16CharCode in *; rewrite Z.mod_small; lia).
  destruct (IH (MkRange (e_to e3 + 1) (to current)) table3) as (table' & -> & Hok' & Hhas'); cbn [from to] in *;
    [done|done|lia|lia|lia| |].
  - intros k' e' Hk' Hlt. cbn [tree_ table3] in Hk'. destruct (decide (k' = k)) as [-> |Hne].
    + rewrite Hk3 in Hk'. injection Hk' as <-. cbn. lia.
    + pose proof (eo_apart _ _ (to_entries _ Hok3)) as Hap. cbn [tree_ table3] in Hap.
      destruct (decide (k' < k)).
      * specialize (Hap k' e' k _ Hk' Hk3 ltac:(lia)). lia.
      * specialize (Hap k _ k' e' Hk3 Hk' ltac:(lia)). cbn in Hap. lia.
  - exists table'. split_and!; [done|done|]. intros c w Hw. rewrite Hhas', Hhas by done. intuition lia.
Qed.

Lemma AddRange_spec r v table :
  table_ok table -> valid r -> 0 <= v < kFirstLimit ->
  exists table', AddRange r v table = Some table' /\ table_ok table'
    /\ forall c w, 0 <= w -> table_has table' c w <-> table_has table c w \/ (from r <= c <= to r /\ w = v).
Proof.
  intros Hok Hr Hv. pose proof Hr as [Hr1 Hr2]. unfold AddRange. cbv zeta. destruct (is_empty (tree_ table)) eqn:Ee.
  - destruct (add_new_spec table (from r) (to r) v) as (z & s & t' & -> & Et & Hok' & _ & _ & Hhas'); [done|done|lia|lia| |].
    { intros k e Hk. apply look_empty in Hk. congruence. }
    cbn [mbind option_bind]. rewrite Et. eexists. split_and!; done.
  - destruct (snap_left_spec (zone table) (tree_ table) r (to_good _ Hok) (to_entries _ Hok) Hr)
      as (t & -> & Hg & He & Hcross & Hhas).
    cbn [mbind option_bind].
    destruct (add_loop_spec (S (Z.to_nat (to r - from r + 1))) r v (MkTable t (zone table)))
      as (table' & -> & Hok' & Hhas'); [|done|lia|lia|lia|done|].
    { destruct Hok as [_ _ Hsm Hemp]. by split. }
    exists table'. split_and!; [done|done|]. intros c w Hw. rewrite Hhas' by done. unfold table_has at 1.
    cbn [zone tree_]. by rewrite Hhas.
Qed.

Lemma new_ok : table_ok DispatchTable_new /\ forall c w, 0 <= w -> ~ table_has DispatchTable_new c w.
Proof.
  assert (Hsm : small (zone DispatchTable_new)).
  { intros [|s] set; cbn; [|done]. intros [= <-]. split; [done|]. cbn. by intros j ?%not_elem_of_nil. }
  split; [split|].
  - constructor.
  - split; [by intros k e|by intros k1 e1 k2 e2].
  - done.
  - split; [cbn; lia|]. intros w Hw. unfold member.
    rewrite (member_small _ empty (MkOutSet 0 None None) w Hsm eq_refl Hw). cbn [first_].
    rewrite Z.bits_0, andb_false_r. done.
  - intros c w _ (k & e & s & H & _). done.
Qed.

Lemma Get_spec c table :
  table_ok table ->
  exists table' s, Get c table = Some (table', s) /\ table_ok table'
    /\ (forall c w, table_has table' c w <-> table_has table c w)
    /\ forall w, 0 <= w -> member (zone table') s w <-> table_has table c w.
Proof.
  intros Hok. unfold Get.
  destruct (look_FindGreatestLessThan (tree_ table) c (to_good _ Hok)) as (t & found & -> & Hg & Hl & Hf).
  cbn [mbind option_bind]. cbv zeta. destruct (table_ok_tree table t Hok Hg Hl) as [Hok1 Hhas1].
  destruct (to_empty _ Hok) as [_ Hemp].
  assert (Hnone : (forall k e, look (tree_ table) k = Some e -> k <= c -> e_to e < c) ->
    forall w, 0 <= w -> member (zone table) empty w <-> table_has table c w).
  { intros H w Hw. split; [intros Hm; by apply Hemp in Hm|]. intros (k & e & s & Hk & Hc & _).
    specialize (H k e Hk ltac:(lia)). lia. }
  destruct found as [k|].
  2: { do 2 eexists. split_and!; [done|done|done|]. apply Hnone. intros k e Hk Hc. specialize (Hf k e Hk). lia. }
  destruct Hf as (e & Hk & Hkc & Hmax). rewrite (look_value t k Hg), Hl, Hk. cbn [mbind option_bind].
  pose proof (eo_entry _ _ (to_entries _ Hok) k e Hk) as (Hfrom & Hb1 & Hb2 & s & Hs & Hlt).
  assert (Hother : forall k' e', look (tree_ table) k' = Some e' -> k' <= c -> k' <> k -> e_to e' < k).
  { intros k' e' Hk' Hle Hne. apply (eo_apart _ _ (to_entries _ Hok) k' e' k e); [done|done|].
    specialize (Hmax k' e' Hk' Hle). lia. }
  destruct (Z.leb_spec c (e_to e)) as [Hc|Hc].
  - rewrite Hs. cbn [mbind option_bind]. do 2 eexists. split_and!; [done|done|done|]. intros w Hw. cbn [zone]. split.
    + intros Hm. by exists k, e, s.
    + intros (k' & e' & s0 & Hk' & Hc' & Hs0 & Hm). destruct (decide (k' = k)) as [-> |Hne].
      * rewrite Hk in Hk'. injection Hk' as <-. rewrite Hs in Hs0. by injection Hs0 as <-.
      * specialize (Hother k' e' Hk' ltac:(lia) Hne). lia.
  - do 2 eexists. split_and!; [done|done|done|]. apply Hnone. intros k' e' Hk' Hle.
    destruct (decide (k' = k)) as [-> |Hne]; [rewrite Hk in Hk'; by injection Hk' as <-|].
    specialize (Hother k' e' Hk' Hle Hne). lia.
Qed.

(** C27: After any list of ranges with choices below 32 was added to a table that starts empty,
    Get answers, for every character, the set of the choices of the ranges
    that contain it. *)
Theorem DispatchTable_correct (added : list (CharacterRange * Z)) c w :
  Forall (fun rv => valid rv.1 /\ 0 <= rv.2 < kFirstLimit) added -> 0 <= w ->
  exists table s table',
    foldr (fun rv t => table ← t; AddRange rv.1 rv.2 table) (Some DispatchTable_new) added = Some table
    /\ Get c table = Some (table', s)
    /\ (OutSet_Get (zone table') s w = Some true <-> exists r, (r, w) ∈ added /\ Contains r c = true).
Proof.
  intros Hall Hw. enough (exists table, foldr (fun rv t => table ← t; AddRange rv.1 rv.2 table) (Some DispatchTable_new) added = Some table
    /\ table_ok table /\ forall c w, 0 <= w -> table_has table c w <-> exists r, (r, w) ∈ added /\ Contains r c = true)
    as (table & E & Hok & Hhas).
  { destruct (Get_spec c table Hok) as (table' & s & Eg & _ & _ & Hm). exists table, s, table'.
    split_and!; [done|done|]. change (OutSet_Get (zone table') s w = Some true) with (member (zone table') s w).
    by rewrite Hm, Hhas. }
  clear c w Hw. induction Hall as [|[r v] added [Hr Hv] Hall IH]; cbn [foldr].
  - destruct new_ok as [Hok Hno]. exists DispatchTable_new. split_and!; [done|done|]. intros c w Hw.
    split; [intros H; by apply Hno in H|]. by intros (r & ?%not_elem_of_nil & _).
  - destruct IH as (table & -> & Hok & Hhas). cbn [mbind option_bind fst snd] in *.
    destruct (AddRange_spec r v table Hok Hr Hv) as (table' & -> & Hok' & Hhas').
    exists table'. split_and!; [done|done|]. intros c w Hw. rewrite Hhas', Hhas by done.
    setoid_rewrite elem_of_cons. split.
    + intros [(r0 & Hin & Hc)|[Hc ->]].
      * exists r0. split; [by right|done].
      * exists r. split; [by left|]. by apply Contains_spec.
    + intros (r0 & [[= -> ->]|Hin] & Hc).
      * right. split; [by apply Contains_spec|done].
      * left. by exists r0.
Qed.

Lemma DispatchTable_correct_witness :
  exists table s table',
    foldr (fun rv t => table ← t; AddRange rv.1 rv.2 table) (Some DispatchTable_new)
      [(MkRange 5 15, 2); (MkRange 10 20, 1)] = Some table
    /\ Get 12 table = Some (table', s) /\ OutSet_Get (zone table') s 2 = Some true.
Proof.
  destruct (DispatchTable_correct [(MkRange 5 15, 2); (MkRange 10 20, 1)] 12 2) as (table & s & table' & E & Eg & H).
  - repeat constructor; cbn; unfold kMaxUC16CharCode; lia.
  - lia.
  - exists table, s, table'. split_and!; [exact E|exact Eg|]. apply H. exists (MkRange 5 15).
    split; [by left|done].
Defined.

(** ** Splitting and inverting classes *)

Lemma add_ranges_spec rs v table :
  Forall valid rs -> 0 <= v < kFirstLimit -> table_ok table ->
  exists table', add_ranges rs v table = Some table' /\ table_ok table'
    /\ forall c w, 0 <= w -> table_has table' c w <-> table_has table c w \/ (in_ranges c rs = true /\ w = v).
Proof.
  intros Hrs Hv. revert table. induction Hrs as [|r rs Hr Hrs IH]; intros table Hok; cbn [add_ranges].
  - exists table. split_and!; [done|done|]. intros c w Hw. rewrite in_ranges_nil. intuition done.
  - destruct (AddRange_spec r v table Hok Hr Hv) as (table1 & -> & Hok1 & Hhas1). cbn [mbind option_bind].
    destruct (IH table1 Hok1) as (table' & -> & Hok' & Hhas'). exists table'. split_and!; [done|done|].
    intros c w Hw. rewrite Hhas', Hhas1, in_ranges_cons by done. tauto.
Qed.

(** The array that lists the bounds of the ranges. *)
Definition bounds (rs : list CharacterRange) : list Z := flat_map (fun r => [from r; to r]) rs.

Lemma add_overlay_bounds rs v table : Forall valid rs -> add_overlay (bounds rs) v table = add_ranges rs v table.
Proof.
  intros Hrs. revert table. induction Hrs as [|[f t] rs [Hr1 Hr2] Hrs IH]; intros table; [done|].
  cbn [bounds flat_map from to app add_overlay add_ranges] in *. rewrite Range_valid by lia.
  destruct (AddRange _ v table); [apply IH|done].
Qed.

Lemma member_total z s w : small z -> (s < length (sets z))%nat -> 0 <= w -> exists b, OutSet_Get z s w = Some b.
Proof. intros Hz [set Hs]%lookup_lt_is_Some_2 Hw. eexists. by apply member_small. Qed.

(** A node that the splitter puts into the first list, or the second. *)
Definition split_entry (z : Store) (overlaid : Prop -> Prop) (c : Z) (e : Entry) : Prop :=
  e_from e <= c <= e_to e /\ exists s, out_set e = Some s /\ member z s kInBase /\ overlaid (member z s kInOverlay).

Definition split_some (z : Store) (overlaid : Prop -> Prop) (c : Z) (entries : list (Z * Entry)) : Prop :=
  exists k e, (k, e) ∈ entries /\ split_entry z overlaid c e.

Lemma split_some_cons z overlaid c k e entries :
  split_some z overlaid c ((k, e) :: entries) <-> split_entry z overlaid c e \/ split_some z overlaid c entries.
Proof.
  unfold split_some. setoid_rewrite elem_of_cons. split.
  - intros (k' & e' & [[= -> ->]|Hin] & He); [by left|right; by exists k', e'].
  - intros [He|(k' & e' & Hin & He)]; [exists k, e; split; [by left|done]|exists k', e'; split; [by right|done]].
Qed.

Lemma in_ranges_snoc c l f t :
  0 <= f <= t -> t <= kMaxUC16CharCode -> in_ranges c (l ++ [Range f t]) = true <-> in_ranges c l = true \/ f <= c <= t.
Proof.
  intros Hft Ht. rewrite Range_valid by lia. unfold in_ranges. rewrite existsb_app, orb_true_iff. cbn [existsb].
  by rewrite orb_false_r, Contains_spec.
Qed.

Lemma call_all_spec n z entries inc exc :
  n = length (sets z) -> small z ->
  (forall k e, (k, e) ∈ entries -> 0 <= e_from e <= e_to e /\ e_to e <= kMaxUC16CharCode
    /\ exists s, out_set e = Some s /\ (s < n)%nat) ->
  exists inc' exc', call_all z entries (inc, exc) = Some (inc', exc') /\ forall c,
    (in_ranges c (default [] inc') = true <-> in_ranges c (default [] inc) = true \/ split_some z id c entries)
    /\ (in_ranges c (default [] exc') = true <-> in_ranges c (default [] exc) = true \/ split_some z not c entries).
Proof.
  intros -> Hz. revert inc exc. induction entries as [|[k e] entries IH]; intros inc exc Hall; cbn [call_all].
  { exists inc, exc. split; [done|]. intros c. unfold split_some.
    split; (split; [by left|]; intros [?|(k & e & ?%not_elem_of_nil & _)]; done). }
  destruct (Hall k e) as (Hft & Hto & s & Hs & Hlt); [by left|].
  assert (Hall' : forall k e, (k, e) ∈ entries -> 0 <= e_from e <= e_to e /\ e_to e <= kMaxUC16CharCode
    /\ exists s, out_set e = Some s /\ (s < length (sets z))%nat) by (intros k' e' Hin; apply (Hall k'); by right).
  unfold Splitter_Call. rewrite Hs. cbn [mbind option_bind].
  destruct (member_total z s kInBase Hz Hlt) as [b Hb]; [done|].
  destruct (member_total z s kInOverlay Hz Hlt) as [o Ho]; [done|].
  assert (Hentry : forall overlaid c, split_entry z overlaid c e <->
    e_from e <= c <= e_to e /\ b = true /\ overlaid (member z s kInOverlay)).
  { intros overlaid c. unfold split_entry. split.
    - intros (Hc & s' & Hs' & H1 & H). rewrite Hs in Hs'. injection Hs' as <-. unfold member in H1.
      rewrite Hb in H1. injection H1 as ->. done.
    - intros (Hc & -> & H). split; [done|]. by exists s. }
  assert (Hover : member z s kInOverlay <-> o = true).
  { unfold member. rewrite Ho. split; congruence. }
  rewrite Hb. cbn [mbind option_bind]. rewrite Ho. cbn [mbind option_bind].
  destruct b, o; cbn [mbind option_bind];
    (edestruct IH as (inc' & exc' & -> & Hres); [exact Hall'|]); exists inc', exc';
    (split; [done|]); intros c; destruct (Hres c) as [-> ->]; rewrite !split_some_cons, !Hentry, Hover;
    cbn [from_option id]; rewrite ?in_ranges_snoc by lia; unfold id; intuition congruence.
Qed.

(** The sets of a character are those of its only entry. *)
Lemma has_entry table k e s c w :
  table_ok table -> look (tree_ table) k = Some e -> k <= c <= e_to e -> out_set e = Some s ->
  table_has table c w <-> member (zone table) s w.
Proof.
  intros Hok Hk Hc Hs. split; [|intros Hm; by exists k, e, s].
  intros (k' & e' & s' & Hk' & Hc' & Hs' & Hm).
  pose proof (eo_apart _ _ (to_entries _ Hok)) as Hap.
  destruct (decide (k' = k)) as [-> |Hne]; [congruence|]. destruct (decide (k' < k)).
  - specialize (Hap k' e' k e Hk' Hk ltac:(lia)). lia.
  - specialize (Hap k e k' e' Hk Hk' ltac:(lia)). lia.
Qed.

(** Splitting a class by an overlay divides its characters: the included ranges have
    those that are in the overlay too, the excluded ranges have the other ones.
    The overlay is an array of the bounds of its ranges. *)
Theorem Split_correct base overlay :
  Forall valid base -> Forall valid overlay ->
  exists included excluded, Split base (bounds overlay) = Some (included, excluded) /\ forall c,
    (in_ranges c (default [] included) = true <-> in_ranges c base = true /\ in_ranges c overlay = true)
    /\ (in_ranges c (default [] excluded) = true <-> in_ranges c base = true /\ in_ranges c overlay <> true).
Proof.
  intros Hb Ho. unfold Split. destruct new_ok as [Hok0 Hno].
  destruct (add_ranges_spec base kInBase DispatchTable_new Hb) as (table1 & -> & Hok1 & Hhas1); [by unfold kInBase, kFirstLimit|done|].
  cbn [mbind option_bind]. rewrite add_overlay_bounds by done.
  destruct (add_ranges_spec overlay kInOverlay table1 Ho) as (table & -> & Hok & Hhas2); [by unfold kInOverlay, kFirstLimit|done|].
  cbn [mbind option_bind].
  assert (Hin : forall k e, (k, e) ∈ ForEachNode (tree_ table) <-> look (tree_ table) k = Some e).
  { intros k e. rewrite look_elem by apply Hok. by rewrite (ForEachNode_Permutation (tree_ table)). }
  destruct (call_all_spec _ (zone table) (ForEachNode (tree_ table)) None None eq_refl) as (inc & exc & -> & Hres);
    [apply Hok| |].
  { intros k e Hk%Hin. destruct (eo_entry _ _ (to_entries _ Hok) k e Hk) as (-> & Hk1 & Hk2 & s & Hs). split_and!; [lia|lia|lia|by exists s]. }
  exists inc, exc. split; [done|]. intros c. destruct (Hres c) as [-> ->]. cbn [from_option id]. rewrite in_ranges_nil.
  assert (Hbase : table_has table c kInBase <-> in_ranges c base = true).
  { rewrite Hhas2, Hhas1 by done. specialize (Hno c kInBase ltac:(done)). unfold kInBase, kInOverlay in *. intuition (done || lia). }
  assert (Hover : table_has table c kInOverlay <-> in_ranges c overlay = true).
  { rewrite Hhas2, Hhas1 by done. specialize (Hno c kInOverlay ltac:(done)). unfold kInBase, kInOverlay in *. intuition (done || lia). }
  assert (Hsplit : forall overlaid : Prop -> Prop, (forall P Q, P <-> Q -> overlaid P <-> overlaid Q) ->
    split_some (zone table) overlaid c (ForEachNode (tree_ table))
    <-> table_has table c kInBase /\ overlaid (table_has table c kInOverlay)).
  { intros overlaid Hproper. split.
    - intros (k & e & Hk%Hin & Hc & s & Hs & H1 & H2).
      destruct (eo_entry _ _ (to_entries _ Hok) k e Hk) as (Hf & _). rewrite Hf in Hc.
      rewrite (has_entry table k e s c kInBase Hok Hk Hc Hs). split; [done|].
      by rewrite (Hproper _ _ (has_entry table k e s c kInOverlay Hok Hk Hc Hs)).
    - intros [(k & e & s & Hk & Hc & Hs & H1) H2].
      destruct (eo_entry _ _ (to_entries _ Hok) k e Hk) as (Hf & _). exists k, e. split; [by apply Hin|].
      split; [by rewrite Hf|]. exists s. split_and!; [done|done|].
      by rewrite (Hproper _ _ (has_entry table k e s c kInOverlay Hok Hk Hc Hs)) in H2. }
  rewrite !Hsplit, Hbase, Hover by (unfold id; tauto). unfold id. intuition discriminate.
Qed.

Lemma Split_correct_witness :
  exists included excluded, Split [MkRange 5 15] (bounds [MkRange 10 20]) = Some (included, excluded)
    /\ default [] included = [MkRange 10 15] /\ default [] excluded = [MkRange 5 9]
    /\ in_ranges 12 (default [] included) = true.
Proof.
  destruct (Split_correct [MkRange 5 15] [MkRange 10 20]) as (inc & exc & E & H);
    [repeat constructor; cbn; unfold kMaxUC16CharCode; lia..|].
  exists inc, exc. split; [exact E|]. pose proof E as E'. vm_compute in E'. injection E' as <- <-.
  split_and!; [done|done|]. by apply (proj1 (H 12)).
Defined.

Lemma inverse_loop_spec v rs last table :
  StronglySorted (fun r1 r2 => from r1 <= from r2) rs -> Forall valid rs -> 0 <= last <= kMaxUC16CharCode ->
  0 <= v < kFirstLimit -> table_ok table ->
  exists table', inverse_loop last rs v table = Some table' /\ table_ok table'
    /\ forall c w, 0 <= w -> table_has table' c w <->
        table_has table c w \/ (last <= c <= kMaxUC16CharCode /\ in_ranges c rs <> true /\ w = v).
Proof.
  intros Hsort Hrs. revert last table. induction Hrs as [|r rs Hr Hrs IH]; intros last table Hlast Hv Hok; cbn [inverse_loop].
  - rewrite Range_valid by lia. destruct (AddRange_spec (MkRange last kMaxUC16CharCode) v table) as (table' & -> & Hok' & Hhas');
      [done|split; cbn; lia|done|].
    exists table'. split_and!; [done|done|]. intros c w Hw. rewrite Hhas', in_ranges_nil by done. cbn [from to]. intuition done.
  - apply StronglySorted_inv in Hsort as [Hsort Hle]. specialize (IH Hsort). pose proof Hr as [Hr1 Hr2].
    assert (Hrest : forall c, c < from r -> in_ranges c (r :: rs) <> true).
    { intros c Hc. rewrite in_ranges_cons. intros [?|Hin]; [lia|]. clear -Hle Hin Hc.
      induction Hle as [|r' rs Hr' Hle IH]; [by rewrite in_ranges_nil in Hin|].
      apply in_ranges_cons in Hin as [?|Hin]; [lia|by apply IH]. }
    assert (Hgap : exists table1, (if last <? from r then AddRange (Range last (from r - 1)) v table else Some table) = Some table1
      /\ table_ok table1 /\ forall c w, 0 <= w -> table_has table1 c w <-> table_has table c w \/ (last <= c < from r /\ w = v)).
    { destruct (Z.ltb_spec last (from r)).
      - rewrite Range_valid by lia. destruct (AddRange_spec (MkRange last (from r - 1)) v table) as (table1 & -> & Hok1 & Hhas1);
          [done|split; cbn; lia|done|].
        exists table1. split_and!; [done|done|]. intros c w Hw. rewrite Hhas1 by done. cbn [from to]. intuition lia.
      - exists table. split_and!; [done|done|]. intros c w Hw. intuition lia. }
    destruct Hgap as (table1 & -> & Hok1 & Hhas1). cbn [mbind option_bind].
    destruct (Z.leb_spec last (to r)) as [Hto|Hto].
    + destruct (Z.eqb_spec (to r) kMaxUC16CharCode) as [E|E].
      * exists table1. split_and!; [done|done|]. intros c w Hw. rewrite Hhas1 by done. split.
        -- intros [?|[Hc ->]]; [by left|]. right. split_and!; [lia|lia|apply Hrest; lia|done].
        -- intros [?|(Hc & Hn & ->)]; [by left|]. right. split; [|done]. split; [lia|].
           rewrite in_ranges_cons in Hn. apply Z.nle_gt. intros ?. apply Hn. left. lia.
      * assert (uint 16 (to r + 1) = to r + 1) as -> by (unfold uint, kMaxUC16CharCode in *; rewrite Z.mod_small; lia).
        destruct (IH (to r + 1) table1) as (table' & -> & Hok' & Hhas'); [lia|done|done|].
        exists table'. split_and!; [done|done|]. intros c w Hw. rewrite Hhas', Hhas1 by done. split.
        -- intros [[?|[Hc ->]]|(Hc & Hn & ->)]; [by left|right..].
           ++ split_and!; [lia|lia|apply Hrest; lia|done].
           ++ split_and!; [lia|lia| |done]. rewrite in_ranges_cons. intros [?|?]; [lia|done].
        -- intros [?|(Hc & Hn & ->)]; [left; by left|]. rewrite in_ranges_cons in Hn.
           destruct (decide (c < from r)); [left; right; split; [lia|done]|]. right.
           assert (to r < c) by (apply Z.nle_gt; intros ?; apply Hn; left; lia).
           split_and!; [lia|lia| |done]. intros ?. apply Hn. by right.
    + destruct (IH last table1) as (table' & -> & Hok' & Hhas'); [lia|done|done|].
      exists table'. split_and!; [done|done|]. intros c w Hw. rewrite Hhas', Hhas1, in_ranges_cons by done.
      intuition lia.
Qed.

(** AddInverse adds the choice for exactly the characters that are in none of the ranges. *)
Theorem AddInverse_correct (Sort : list CharacterRange -> list CharacterRange) ranges choice table :
  (forall l, Sort l ≡ₚ l) -> (forall l, StronglySorted (fun r1 r2 => from r1 <= from r2) (Sort l)) ->
  Forall valid ranges -> 0 <= choice < kFirstLimit -> table_ok table ->
  exists table', AddInverse Sort ranges choice table = Some table' /\ table_ok table'
    /\ forall c w, 0 <= w -> table_has table' c w <->
        table_has table c w \/ (0 <= c <= kMaxUC16CharCode /\ in_ranges c ranges <> true /\ w = choice).
Proof.
  intros Hperm Hsort Hrs Hv Hok. unfold AddInverse.
  destruct (inverse_loop_spec choice (Sort ranges) 0 table) as (table' & -> & Hok' & Hhas'); [done|by rewrite Hperm|done|done|done|].
  exists table'. split_and!; [done|done|]. intros c w Hw. rewrite Hhas' by done.
  enough (in_ranges c (Sort ranges) = in_ranges c ranges) as -> by done.
  apply eq_true_iff_eq. unfold in_ranges. rewrite !existsb_exists. setoid_rewrite <- list_elem_of_In. by setoid_rewrite Hperm.
Qed.

#[local] Instance from_le_dec (r1 r2 : CharacterRange) : Decision (from r1 <= from r2).
Proof. apply _. Defined.

Lemma AddInverse_correct_witness :
  exists table, AddInverse (merge_sort (fun r1 r2 : CharacterRange => from r1 <= from r2))
      [MkRange 20 30; MkRange 5 15] 1 DispatchTable_new = Some table
    /\ table_has table 17 1.
Proof.
  destruct (AddInverse_correct (merge_sort (fun r1 r2 : CharacterRange => from r1 <= from r2))
    [MkRange 20 30; MkRange 5 15] 1 DispatchTable_new) as (table & E & _ & H).
  - intros l. apply merge_sort_Permutation.
  - intros l. apply StronglySorted_merge_sort; [intros r1 r2 r3; lia|intros r1 r2; lia].
  - repeat constructor; cbn; unfold kMaxUC16CharCode; lia.
  - done.
  - apply new_ok.
  - exists table. split; [exact E|]. apply (proj2 (H 17 1 ltac:(done))). right. split_and!; [done|done|vm_compute; discriminate|done].
Defined.
