(* ===== verification/CaseEquivalents.v ===== *)
(** * CaseEquivalents: case-independent regular expressions

    Models [CharacterRange::AddCaseEquivalents], [GetCaseIndependentLetters] and
    what emits a letter with it of src/jsregexp.cc, and the comparison of back references: the two
    [BackRefMatchesNoCase] of src/interpreter-irregexp.cc and [CaseInsensitiveCompareUC16] of
    src/regexp-macro-assembler.cc.  The conversions are reached through the
    caches of the isolate ([UnicodeCache]), which are threaded through. *)

From S2P Require Import Prelude UnicodeTables Unicode UnicodeCache UnicodeCase CharacterRange.

Local Open Scope Z_scope.

(** ** The code *)

(** The caches have 256 entries. *)
Definition kLogSize : Z := 8.

Definition kMaxAsciiCharCode : Z := 0x7F.

(** [jsregexp_uncanonicalize()] and [jsregexp_canonrange()] *)
Record Caches := MkCaches { uncanonicalize : list MappingEntry; canonrange : list MappingEntry }.

Definition get_uncanonicalize (c : Z) (caches : Caches) : option (list Z * Z * Caches) :=
  '(chars, length, entries) ← Mapping_get kLogSize Ecma262UnCanonicalize_Convert (uncanonicalize caches) c 0;
  Some (chars, length, MkCaches entries (canonrange caches)).

Definition get_canonrange (c : Z) (caches : Caches) : option (list Z * Z * Caches) :=
  '(chars, length, entries) ← Mapping_get kLogSize CanonicalizationRange_Convert (canonrange caches) c 0;
  Some (chars, length, MkCaches (uncanonicalize caches) entries).

Definition Singleton (value : Z) : CharacterRange := Range value value.

(** The loop of a singleton, over the first [length] elements of [chars]. *)
Fixpoint add_singletons (bottom : Z) (chars : list Z) (ranges : list CharacterRange) : list CharacterRange :=
  match chars with
  | [] => ranges
  | chr :: chars =>
      add_singletons bottom chars (if chr =? bottom then ranges else ranges ++ [Singleton chr])
  end.

(** The loop of a block, over the first [length] elements of [range]. *)
Fixpoint add_block (bottom top pos block_end end_ : Z) (chars : list Z) (ranges : list CharacterRange)
    : list CharacterRange :=
  match chars with
  | [] => ranges
  | c :: chars =>
      let range_from := uint 16 (c - (block_end - pos)) in
      let range_to := uint 16 (c - (block_end - end_)) in
      add_block bottom top pos block_end end_ chars
        (if (bottom <=? range_from) && (range_to <=? top) then ranges else ranges ++ [Range range_from range_to])
  end.

(** [while (pos < top)] *)
Fixpoint block_loop (fuel : nat) (bottom top pos : Z) (ranges : list CharacterRange) (caches : Caches)
    : option (list CharacterRange * Caches) :=
  match fuel with
  | O => None
  | S fuel =>
      if pos <? top then
        '(range, length, caches) ← get_canonrange pos caches;
        block_end ← (if length =? 0 then Some (uint 16 pos) else first ← range !! 0%nat; Some (uint 16 first));
        let end_ := if top <? block_end then top else block_end in
        '(range, length, caches) ← get_uncanonicalize block_end caches;
        block_loop fuel bottom top (end_ + 1)
          (add_block bottom top pos block_end end_ (take (Z.to_nat length) range) ranges) caches
      else Some (ranges, caches)
  end.

Definition AddCaseEquivalents (r : CharacterRange) (ranges : list CharacterRange) (is_ascii : bool) (caches : Caches)
    : option (list CharacterRange * Caches) :=
  let bottom := from r in
  if is_ascii && (kMaxAsciiCharCode <? bottom) then Some (ranges, caches)
  else
    let top := if is_ascii && (kMaxAsciiCharCode <? to r) then kMaxAsciiCharCode else to r in
    if top =? bottom then
      '(chars, length, caches) ← get_uncanonicalize bottom caches;
      Some (add_singletons bottom (take (Z.to_nat length) chars) ranges, caches)
    else block_loop (S (Z.to_nat (top - bottom))) bottom top bottom ranges caches.

(** The letters, at most [kMaxWidth] of them, and the length. *)
Definition GetCaseIndependentLetters (character : Z) (ascii_subject : bool) (caches : Caches)
    : option (list Z * Z * Caches) :=
  '(letters, length, caches) ← get_uncanonicalize character caches;
  let '(letters, length) := if length =? 0 then ([character], 1) else (letters, length) in
  Some (letters, if negb ascii_subject || (character <=? kMaxAsciiCharCode) then length else 0, caches).

(** ** Emitting a letter *)

(** What the macro assembler is told; [ok] is the only label that is bound, the other
    jumps go to [on_failure]. *)
Inductive Instr :=
  | LoadCurrentCharacter (cp_offset : Z) (check_bounds : bool)
  | CheckCharacter (c : Z)
  | CheckNotCharacter (c : Z)
  | CheckNotCharacterAfterAnd (c mask : Z)
  | CheckNotCharacterAfterMinusAnd (c minus mask : Z)
  | Bind_ok.

(** The instruction, or none when it answers false. *)
Definition ShortCutEmitCharacterPair (ascii : bool) (c1 c2 : Z) : option Instr :=
  let char_mask := if ascii then kMaxAsciiCharCode else kMaxUC16CharCode in
  let exor := Z.lxor c1 c2 in
  if Z.land (exor - 1) exor =? 0 then Some (CheckNotCharacterAfterAnd c1 (Z.lxor char_mask exor))
  else
    let diff := uint 16 (c2 - c1) in
    if (Z.land (diff - 1) diff =? 0) && (diff <=? c1) then
      Some (CheckNotCharacterAfterMinusAnd (uint 16 (c1 - diff)) diff (Z.lxor char_mask diff))
    else None.

(** The code, and whether the bounds are checked. *)
Definition EmitAtomNonLetter (ascii : bool) (c cp_offset : Z) (check preloaded : bool) (caches : Caches)
    : option (list Instr * bool * Caches) :=
  '(_, length, caches) ← GetCaseIndependentLetters c ascii caches;
  Some (if length <? 1 then ([], false, caches)
        else if length =? 1 then
          if ascii && (kMaxAsciiCharCode <? c) then ([], false, caches)
          else ((if preloaded then [] else [LoadCurrentCharacter cp_offset check]) ++ [CheckNotCharacter c],
                if preloaded then false else check, caches)
        else ([], false, caches)).

Definition EmitAtomLetter (ascii : bool) (c cp_offset : Z) (check preloaded : bool) (caches : Caches)
    : option (list Instr * bool * Caches) :=
  '(chars, length, caches) ← GetCaseIndependentLetters c ascii caches;
  if length <=? 1 then Some ([], false, caches)
  else
    code ←
      match length, chars with
      | 2, c0 :: c1 :: _ =>
          Some (match ShortCutEmitCharacterPair ascii c0 c1 with
                | Some i => [i]
                | None => [CheckCharacter c0; CheckNotCharacter c1; Bind_ok]
                end)
      | 4, c0 :: c1 :: c2 :: c3 :: _ =>
          Some [CheckCharacter c3; CheckCharacter c0; CheckCharacter c1; CheckNotCharacter c2; Bind_ok]
      | 3, c0 :: c1 :: c2 :: _ => Some [CheckCharacter c0; CheckCharacter c1; CheckNotCharacter c2; Bind_ok]
      | _, _ => None
      end;
    Some ((if preloaded then [] else [LoadCurrentCharacter cp_offset check]) ++ code, true, caches).

(** What the instructions do: the current character at the end of the code, or none for the jump to
    [on_failure].  [load] gives the character at an offset, none outside of the subject. *)
Fixpoint skip_to_ok (code : list Instr) : list Instr :=
  match code with
  | [] => []
  | Bind_ok :: code => code
  | _ :: code => skip_to_ok code
  end.

Fixpoint execute (fuel : nat) (load : Z -> option Z) (current_char : Z) (code : list Instr) : option Z :=
  match fuel, code with
  | O, _ => None
  | S _, [] => Some current_char
  | S fuel, i :: code =>
      let on_failure (fails : bool) := if fails then None else execute fuel load current_char code in
      match i with
      | LoadCurrentCharacter cp_offset _ => c ← load cp_offset; execute fuel load c code
      | CheckCharacter c => execute fuel load current_char (if c =? current_char then skip_to_ok code else code)
      | CheckNotCharacter c => on_failure (negb (c =? current_char))
      | CheckNotCharacterAfterAnd c mask => on_failure (negb (c =? Z.land current_char mask))
      | CheckNotCharacterAfterMinusAnd c minus mask =>
          on_failure (negb (c =? Z.land (uint 32 (current_char - minus)) mask))
      | Bind_ok => execute fuel load current_char code
      end
  end.

(** ** Comparing without case *)

Section compare.
(** The cache of [Ecma262Canonicalize]. *)
Abbreviation Cache := (list MappingEntry).

(** [s[0]] after [canonicalize->get(c, '\0', s)], where [s] held [c]. *)
Definition canonicalized (c : Z) (cache : Cache) : option (Z * Cache) :=
  '(chars, length, cache) ← Mapping_get kLogSize Ecma262Canonicalize_Convert cache c 0;
  Some (match chars with first :: _ => first | [] => c end, cache).

(** On the two-byte substrings of [byte_length / 2] characters. *)
Fixpoint CaseInsensitiveCompareUC16 (substring1 substring2 : list Z) (length : nat) (canonicalize : Cache)
    : option (Z * Cache) :=
  match length with
  | O => Some (1, canonicalize)
  | S length =>
      c1 ← head substring1;
      c2 ← head substring2;
      if c1 =? c2 then CaseInsensitiveCompareUC16 (tail substring1) (tail substring2) length canonicalize
      else
        '(s1, canonicalize) ← canonicalized c1 canonicalize;
        if s1 =? c2 then CaseInsensitiveCompareUC16 (tail substring1) (tail substring2) length canonicalize
        else
          '(s2, canonicalize) ← canonicalized c2 canonicalize;
          if s1 =? s2 then CaseInsensitiveCompareUC16 (tail substring1) (tail substring2) length canonicalize
          else Some (0, canonicalize)
  end.

(** For a subject of two-byte characters. *)
Fixpoint BackRefMatchesNoCase (interp_canonicalize : Cache) (from current : nat) (len : nat) (subject : list Z)
    : option (bool * Cache) :=
  match len with
  | O => Some (true, interp_canonicalize)
  | S len =>
      old_char ← subject !! from;
      new_char ← subject !! current;
      if old_char =? new_char then BackRefMatchesNoCase interp_canonicalize (S from) (S current) len subject
      else
        '(old_string, interp_canonicalize) ← canonicalized old_char interp_canonicalize;
        '(new_string, interp_canonicalize) ← canonicalized new_char interp_canonicalize;
        if old_string =? new_string then BackRefMatchesNoCase interp_canonicalize (S from) (S current) len subject
        else Some (false, interp_canonicalize)
  end.

(** [if (c - 'A' <= 'Z' - 'A') c |= 0x20;] *)
Definition ascii_lower (c : Z) : Z := if uint 32 (c - 65) <=? 25 then Z.lor c 0x20 else c.

(** For a subject of ASCII characters. *)
Fixpoint BackRefMatchesNoCase_ascii (from current : nat) (len : nat) (subject : list Z) : option bool :=
  match len with
  | O => Some true
  | S len =>
      old_char ← subject !! from;
      new_char ← subject !! current;
      if old_char =? new_char then BackRefMatchesNoCase_ascii (S from) (S current) len subject
      else if ascii_lower old_char =? ascii_lower new_char then BackRefMatchesNoCase_ascii (S from) (S current) len subject
      else Some false
  end.
End compare.

(** ** The caches answer with the classes *)

Lemma UnCanonicalize_safe c n allow : exists r, converts_safely (Ecma262UnCanonicalize_Convert c) 4 n allow r.
Proof. unfold Ecma262UnCanonicalize_Convert. conversion_safe c allow. Qed.

Lemma Canonicalize_safe c n allow : exists r, converts_safely (Ecma262Canonicalize_Convert c) 1 n allow r.
Proof. unfold Ecma262Canonicalize_Convert. conversion_safe c allow. Qed.

Lemma CanonicalizationRange_safe c n allow : exists r, converts_safely (CanonicalizationRange_Convert c) 1 n allow r.
Proof. unfold CanonicalizationRange_Convert. conversion_safe c allow. Qed.

Abbreviation cache_ok := (mapping_cache_ok kLogSize).

Definition caches_ok (caches : Caches) : Prop :=
  cache_ok Ecma262UnCanonicalize_Convert (uncanonicalize caches)
  /\ cache_ok CanonicalizationRange_Convert (canonrange caches).

Definition new_caches : Caches := MkCaches (Mapping_new kLogSize) (Mapping_new kLogSize).

Lemma Mapping_get_converts w Convert c cache :
  (forall c n, exists r, converts_safely (Convert c) w n true r) ->
  (forall n, Convert kNoChar n true = Some (mkConverted [] 0 true)) ->
  0 <= c < 2 ^ 16 -> cache_ok Convert cache ->
  exists chars len cache', Mapping_get kLogSize Convert cache c 0 = Some (chars, len, cache')
    /\ len = Z.of_nat (length chars) /\ (if len =? 0 then converts Convert c = [c] else chars = converts Convert c)
    /\ cache_ok Convert cache'.
Proof.
  intros Hsafe Hno Hc Hok.
  destruct (Mapping_get_spec kLogSize ltac:(unfold kLogSize; lia) Convert w cache c 0 Hsafe Hno ltac:(lia)) as [_ Hget].
  destruct (Hget Hok) as (chars & len & cache' & r & E & Er & Heff & Hlen & Hok'). exists chars, len, cache'.
  split; [done|]. split; [done|]. split; [|done]. unfold converts, converted. rewrite Er. cbn [mbind option_bind from_option id].
  unfold effective in Heff. destruct (Z.eqb_spec len 0); [by rewrite <- Heff|done].
Qed.

Lemma new_caches_ok : caches_ok new_caches /\ cache_ok Ecma262Canonicalize_Convert (Mapping_new kLogSize).
Proof.
  assert (H : 0 <= kLogSize <= 16) by (unfold kLogSize; lia).
  split; [split|].
  - by apply (Mapping_get_spec kLogSize H Ecma262UnCanonicalize_Convert 4 [] 0 0 (fun c n => UnCanonicalize_safe c n true)).
  - by apply (Mapping_get_spec kLogSize H CanonicalizationRange_Convert 1 [] 0 0 (fun c n => CanonicalizationRange_safe c n true)).
  - by apply (Mapping_get_spec kLogSize H Ecma262Canonicalize_Convert 1 [] 0 0 (fun c n => Canonicalize_safe c n true)).
Qed.

Lemma get_uncanonicalize_spec c caches :
  0 <= c < 2 ^ 16 -> caches_ok caches ->
  exists chars len caches', get_uncanonicalize c caches = Some (chars, len, caches') /\ caches_ok caches'
    /\ len = Z.of_nat (length chars) /\ if len =? 0 then class_of c = [c] else chars = class_of c.
Proof.
  intros Hc [Hu Hr]. unfold get_uncanonicalize.
  destruct (Mapping_get_converts 4 Ecma262UnCanonicalize_Convert c (uncanonicalize caches)) as (chars & len & u & -> & Hlen & H & Hok);
    [intros; apply UnCanonicalize_safe|done|done|done|].
  by eexists chars, len, _.
Qed.

Lemma get_canonrange_spec c caches :
  0 <= c < 2 ^ 16 -> caches_ok caches ->
  exists chars len caches', get_canonrange c caches = Some (chars, len, caches') /\ caches_ok caches'
    /\ len = Z.of_nat (length chars) /\ if len =? 0 then block_end c = [c] else chars = block_end c.
Proof.
  intros Hc [Hu Hr]. unfold get_canonrange.
  destruct (Mapping_get_converts 1 CanonicalizationRange_Convert c (canonrange caches)) as (chars & len & u & -> & Hlen & H & Hok);
    [intros; apply CanonicalizationRange_safe|done|done|done|].
  by eexists chars, len, _.
Qed.

Lemma canonicalized_spec c cache :
  0 <= c < 2 ^ 16 -> cache_ok Ecma262Canonicalize_Convert cache ->
  exists k cache', canonicalized c cache = Some (k, cache') /\ cache_ok Ecma262Canonicalize_Convert cache'
    /\ canonical c = [k].
Proof.
  intros Hc Hok. unfold canonicalized. destruct (class_facts c Hc) as (k & Hk & _).
  destruct (Mapping_get_converts 1 Ecma262Canonicalize_Convert c cache) as (chars & len & u & -> & Hlen & H & Hok');
    [intros; apply Canonicalize_safe|done|done|done|].
  cbn [mbind option_bind]. exists k, u. fold (canonical c) in H. rewrite Hk in *.
  destruct chars as [|x chars]; cbn [length] in Hlen.
  - subst len. cbn in H. by injection H as ->.
  - rewrite (proj2 (Z.eqb_neq len 0)) in H by lia. injection H as -> _. done.
Qed.

(** ** Adding the equivalents *)

Lemma in_ranges_add c l r : in_ranges c (l ++ [r]) = true <-> in_ranges c l = true \/ from r <= c <= to r.
Proof. unfold in_ranges. rewrite existsb_app, orb_true_iff. cbn [existsb]. by rewrite orb_false_r, Contains_spec. Qed.

Lemma add_singletons_spec bottom cs ranges :
  Forall (fun c => 0 <= c < 2 ^ 16) cs ->
  exists added, add_singletons bottom cs ranges = ranges ++ added /\ Forall valid added
    /\ forall d, in_ranges d added = true <-> d ∈ cs /\ d <> bottom.
Proof.
  intros Hcs. revert ranges. induction Hcs as [|c cs Hc Hcs IH]; intros ranges; cbn [add_singletons].
  { exists []. rewrite app_nil_r. split_and!; [done|constructor|]. intros d. rewrite in_ranges_nil, elem_of_nil. intuition done. }
  destruct (Z.eqb_spec c bottom) as [->|Hne].
  - destruct (IH ranges) as (added & -> & Hv & H). exists added. split_and!; [done|done|].
    intros d. rewrite H, elem_of_cons. intuition congruence.
  - destruct (IH (ranges ++ [Singleton c])) as (added & -> & Hv & H). exists (Singleton c :: added).
    assert (Singleton c = MkRange c c) as -> by (apply Range_id; unfold kMaxUC16CharCode; lia).
    split_and!; [by rewrite <- app_assoc|constructor; [split; cbn; unfold kMaxUC16CharCode; lia|done]|].
    intros d. rewrite in_ranges_cons, H, elem_of_cons. cbn [from to]. split.
    + intros [?|[? ?]]; [split; [left; lia|lia]|split; [by right|done]].
    + intros [[-> |?] ?]; [left; lia|right; done].
Qed.

Lemma add_block_spec bottom top pos e end_ cs ranges :
  pos <= end_ <= e -> Forall (fun u => 0 <= u - (e - pos) /\ u < 2 ^ 16) cs ->
  exists added, add_block bottom top pos e end_ cs ranges = ranges ++ added /\ Forall valid added
    /\ (forall d, in_ranges d added = true -> exists u, u ∈ cs /\ u - (e - pos) <= d <= u - (e - end_))
    /\ (forall u d, u ∈ cs -> u - (e - pos) <= d <= u - (e - end_) -> bottom <= d <= top \/ in_ranges d added = true).
Proof.
  intros Hpos Hcs. revert ranges. induction Hcs as [|u cs Hu Hcs IH]; intros ranges; cbn [add_block].
  { exists []. rewrite app_nil_r. split_and!; [done|constructor|done|]. by intros u d ?%elem_of_nil. }
  unfold uint. rewrite !Z.mod_small by lia.
  destruct (Z.leb_spec bottom (u - (e - pos))), (Z.leb_spec (u - (e - end_)) top); cbn [andb].
  1: { destruct (IH ranges) as (added & -> & Hv & H1 & H2). exists added. split_and!; [done|done| |].
       - intros d Hd. destruct (H1 d Hd) as (u' & Hu' & Hd'). exists u'. split; [by right|done].
       - intros u' d [->|Hu']%elem_of_cons Hd; [left; lia|by apply (H2 u')]. }
  all: destruct (IH (ranges ++ [Range (u - (e - pos)) (u - (e - end_))])) as (added & -> & Hv & H1 & H2);
    exists (MkRange (u - (e - pos)) (u - (e - end_)) :: added);
    (split_and!;
      [by rewrite Range_id, <- app_assoc by (unfold kMaxUC16CharCode; lia)
      |constructor; [split; cbn; unfold kMaxUC16CharCode; lia|done]
      |intros d [Hd|Hd]%in_ranges_cons;
        [exists u; split; [by left|exact Hd]
        |destruct (H1 d Hd) as (u' & Hu' & Hd'); exists u'; split; [by right|done]]
      |intros u' d [->|Hu']%elem_of_cons Hd;
        [right; apply in_ranges_cons; by left
        |destruct (H2 u' d Hu' Hd); [by left|right; apply in_ranges_cons; by right]]]).
Qed.

Lemma block_loop_spec fuel bottom top pos ranges caches :
  caches_ok caches -> 0 <= bottom <= pos -> top < 2 ^ 16 -> (Z.to_nat (top - pos) < fuel)%nat ->
  exists added caches', block_loop fuel bottom top pos ranges caches = Some (ranges ++ added, caches')
    /\ caches_ok caches' /\ Forall valid added
    /\ (forall d, in_ranges d added = true -> exists c, pos <= c <= top /\ d ∈ class_of c)
    /\ (forall c d, pos <= c < top -> d ∈ class_of c -> bottom <= d <= top \/ in_ranges d added = true).
Proof.
  revert pos ranges caches. induction fuel as [|fuel IH]; intros pos ranges caches Hok Hb Ht Hfuel; [lia|].
  cbn [block_loop]. destruct (Z.ltb_spec pos top) as [Hlt|Hge].
  2: { exists [], caches. rewrite app_nil_r. split_and!; [done|done|constructor|done|]. intros c d Hc. lia. }
  destruct (block_facts pos) as (e & He & Hpe & Hclass); [lia|].
  destruct (get_canonrange_spec pos caches) as (chars & len & caches1 & -> & Hok1 & Hlen & Hchars); [lia|done|].
  cbn [mbind option_bind]. rewrite He in Hchars.
  assert ((if len =? 0 then Some (uint 16 pos) else first ← chars !! 0%nat; Some (uint 16 first)) = Some e) as ->.
  { destruct (len =? 0); [injection Hchars as ->|subst chars; cbn [lookup list_lookup mbind option_bind]];
      (f_equal; apply Z.mod_small; lia). }
  cbn [mbind option_bind]. set (end_ := if top <? e then top else e).
  assert (Hend : pos <= end_ <= e /\ end_ <= top /\ (end_ = top \/ end_ = e)) by (unfold end_; destruct (Z.ltb_spec top e); lia).
  clearbody end_.
  destruct (get_uncanonicalize_spec e caches1) as (us & ulen & caches2 & -> & Hok2 & Hulen & Hus); [lia|done|].
  cbn [mbind option_bind]. rewrite Hulen, Nat2Z.id, firstn_all. rewrite Hulen in Hus. clear ulen Hulen.
  destruct (class_facts pos) as (k & _ & Hbounds & Hself & _); [lia|].
  assert (Hshift : forall c d, pos <= c <= e -> d ∈ class_of c <-> exists u, u ∈ class_of e /\ d = u - (e - c)).
  { intros c d Hc. rewrite (Hclass c Hc), list_elem_of_fmap. split; intros (u & H1 & H2); by exists u. }
  assert (Hall : Forall (fun u => 0 <= u - (e - pos) /\ u < 2 ^ 16) us).
  { rewrite Forall_forall. intros u Hu. destruct us as [|u0 us]; [by apply elem_of_nil in Hu|].
    rewrite (proj2 (Z.eqb_neq _ 0)) in Hus by (cbn; lia). rewrite Hus in Hu. split.
    - apply Hbounds, Hshift; [lia|by exists u].
    - destruct (class_facts e ltac:(lia)) as (? & _ & Hbe & _). by apply Hbe. }
  destruct (add_block_spec bottom top pos e end_ us ranges ltac:(lia) Hall) as (added1 & -> & Hv1 & Hs1 & Hc1).
  destruct (IH (end_ + 1) (ranges ++ added1) caches2) as (added2 & caches' & -> & Hok' & Hv2 & Hs2 & Hc2); [done|lia|lia|lia|].
  exists (added1 ++ added2), caches'. split_and!; [by rewrite app_assoc|done|by apply Forall_app| |].
  - intros d. rewrite in_ranges_app. intros [Hd|Hd].
    + destruct (Hs1 d Hd) as (u & Hu & Hdu). exists (d - u + e). split; [lia|]. apply Hshift; [lia|]. exists u.
      split; [|lia]. destruct us; [by apply elem_of_nil in Hu|]. rewrite (proj2 (Z.eqb_neq _ 0)) in Hus by (cbn; lia). by rewrite <- Hus.
    + destruct (Hs2 d Hd) as (c & Hc & Hdc). exists c. split; [lia|done].
  - intros c d Hc Hd. rewrite in_ranges_app. destruct (decide (c <= end_)) as [Hce|Hce].
    + apply Hshift in Hd as (u & Hu & ->); [|lia]. destruct us as [|u0 us].
      * cbn in Hus. rewrite Hus in Hu. apply list_elem_of_singleton in Hu as ->. left. lia.
      * rewrite (proj2 (Z.eqb_neq _ 0)) in Hus by (cbn; lia). rewrite Hus in Hc1.
        destruct (Hc1 u (u - (e - c)) Hu); [lia|by left|right; by left].
    + destruct (Hc2 c d); [lia|done|by left|right; by right].
Qed.

(** C28: The ranges that are added for the other cases hold only characters that differ in case from a
    character of the range, and every such character is in the range or is added,
    for all characters of the range but the last one.  The range is cut at U+007F for ASCII subjects. *)
Theorem AddCaseEquivalents_correct r ranges (is_ascii : bool) caches :
  valid r -> caches_ok caches ->
  let top := if is_ascii then Z.min kMaxAsciiCharCode (to r) else to r in
  exists added caches', AddCaseEquivalents r ranges is_ascii caches = Some (ranges ++ added, caches')
    /\ caches_ok caches' /\ Forall valid added
    /\ (forall d, in_ranges d added = true ->
          exists c, from r <= c <= top /\ d ∈ converts Ecma262UnCanonicalize_Convert c)
    /\ (forall c d, from r <= c <= top -> c < top \/ from r = top ->
          d ∈ converts Ecma262UnCanonicalize_Convert c -> from r <= d <= top \/ in_ranges d added = true).
Proof.
  intros [Hr1 Hr2] Hok top. unfold AddCaseEquivalents. change (converts Ecma262UnCanonicalize_Convert) with class_of.
  unfold kMaxUC16CharCode in *. destruct (is_ascii && (kMaxAsciiCharCode <? from r)) eqn:Eout.
  { apply andb_true_iff in Eout as [-> Hlt%Z.ltb_lt]. subst top. cbn match in *. exists [], caches. rewrite app_nil_r.
    split_and!; [done|apply Hok..|constructor|done|]. intros c d Hc. lia. }
  assert ((if is_ascii && (kMaxAsciiCharCode <? to r) then kMaxAsciiCharCode else to r) = top) as ->.
  { subst top. destruct is_ascii; [|done]. cbn [andb]. destruct (Z.ltb_spec kMaxAsciiCharCode (to r)); lia. }
  assert (Htop : from r <= top <= to r).
  { subst top. destruct is_ascii; [|lia]. cbn [andb] in Eout. apply Z.ltb_ge in Eout. lia. }
  clearbody top. destruct (Z.eqb_spec top (from r)) as [->|Hne].
  - destruct (get_uncanonicalize_spec (from r) caches) as (cs & len & caches' & -> & Hok' & Hlen & Hcs); [lia|done|].
    cbn [mbind option_bind]. rewrite Hlen, Nat2Z.id, firstn_all.
    destruct (class_facts (from r)) as (k & _ & Hbounds & _); [lia|].
    assert (Hin : forall d, d ∈ cs -> d ∈ class_of (from r)).
    { intros d Hd. destruct cs; [by apply elem_of_nil in Hd|]. rewrite (proj2 (Z.eqb_neq len 0)) in Hcs by (cbn in Hlen; lia). by rewrite <- Hcs. }
    destruct (add_singletons_spec (from r) cs ranges) as (added & -> & Hv & H).
    { rewrite Forall_forall. intros d Hd. by apply Hbounds, Hin. }
    exists added, caches'. split_and!; [done|apply Hok'..|done| |].
    + intros d Hd. apply H in Hd as [Hd _]. exists (from r). split; [lia|by apply Hin].
    + intros c d Hc _ Hd. replace c with (from r) in Hd by lia. destruct (decide (d = from r)); [left; lia|right].
      apply H. split; [|done]. destruct (Z.eqb_spec len 0) as [->|].
      * rewrite Hcs in Hd. by apply list_elem_of_singleton in Hd.
      * by rewrite Hcs.
  - destruct (block_loop_spec (S (Z.to_nat (top - from r))) (from r) top (from r) ranges caches)
      as (added & caches' & -> & Hok' & Hv & H1 & H2); [done|lia|lia|lia|].
    exists added, caches'. split_and!; [done|apply Hok'..|done|done|]. intros c d Hc [Hlt|?] Hd; [|lia]. by apply (H2 c); [lia|].
Qed.

Lemma AddCaseEquivalents_correct_witness :
  exists caches', AddCaseEquivalents (MkRange 97 102) [] false new_caches = Some ([MkRange 65 70], caches').
Proof.
  destruct (AddCaseEquivalents_correct (MkRange 97 102) [] false new_caches) as (added & caches' & E & _).
  - split; cbn; unfold kMaxUC16CharCode; lia.
  - apply new_caches_ok.
  - exists caches'. rewrite E. do 2 f_equal. vm_compute in E. injection E as <- _. reflexivity.
Defined.

(** The last character of a range is missed when it starts a block: the loop ends when
    its position reaches the last character.  The class of the characters from U+0040 to U+0041 does
    not get the small a. *)
Theorem AddCaseEquivalents_last :
  exists caches', AddCaseEquivalents (MkRange 64 65) [] false new_caches = Some ([], caches')
    /\ 97 ∈ converts Ecma262UnCanonicalize_Convert 65.
Proof. eexists. split; [vm_compute; reflexivity|]. vm_compute. right. left. Qed.

(** ** Two letters in one check *)

Lemma power_of_two e : 0 < e -> Z.land (e - 1) e = 0 -> exists n, 0 <= n /\ e = 2 ^ n.
Proof.
  intros He H. pose proof (Z.log2_nonneg e). exists (Z.log2 e). split; [done|].
  pose proof (Z.log2_spec e He) as [Hlo Hhi]. destruct (decide (e = 2 ^ Z.log2 e)) as [|Hne]; [done|].
  exfalso. apply (f_equal (fun x => Z.testbit x (Z.log2 e))) in H. rewrite Z.land_spec, Z.bits_0, Z.bit_log2, andb_true_r in H by done.
  assert (Z.log2 (e - 1) = Z.log2 e) as E by (apply Z.log2_unique; lia).
  rewrite <- E, Z.bit_log2 in H; [done|]. pose proof (Z.pow_pos_nonneg 2 (Z.log2 e) ltac:(lia) ltac:(done)). lia.
Qed.

Lemma add_bit b n : 0 <= n -> Z.testbit b n = false -> b + 2 ^ n = Z.setbit b n.
Proof.
  intros Hn Hb. rewrite Z.setbit_spec', Z.add_nocarry_lxor.
  - apply Z.bits_inj'. intros i Hi. rewrite Z.lxor_spec, Z.lor_spec. destruct (decide (i = n)) as [-> |Hne].
    + by rewrite Hb, Z.pow2_bits_true.
    + rewrite Z.pow2_bits_false by lia. by destruct (Z.testbit b i).
  - apply Z.bits_inj'. intros i Hi. rewrite Z.land_spec, Z.bits_0. destruct (decide (i = n)) as [-> |Hne].
    + by rewrite Hb.
    + rewrite Z.pow2_bits_false by lia. apply andb_false_r.
Qed.

Lemma mask_bits w n x :
  0 <= n < w -> Z.land x (Z.lxor (2 ^ w - 1) (2 ^ n)) = Z.clearbit (x mod 2 ^ w) n.
Proof.
  intros Hn. replace (2 ^ w - 1) with (Z.ones w) by (rewrite Z.ones_equiv; lia).
  apply Z.bits_inj'. intros i Hi. rewrite Z.land_spec, Z.lxor_spec, Z.clearbit_eqb by lia.
  rewrite Z.pow2_bits_eqb by lia. destruct (Z.ltb_spec i w) as [Hlt|Hge].
  - rewrite Z.ones_spec_low, Z.mod_pow2_bits_low by lia. by destruct (n =? i).
  - rewrite Z.ones_spec_high, Z.mod_pow2_bits_high by lia. destruct (Z.eqb_spec n i); [lia|]. apply andb_false_r.
Qed.

(** A check under a mask without one bit lets two values through. *)
Lemma mask_spec w n x b :
  0 <= n < w -> 0 <= b < 2 ^ w -> Z.testbit b n = false ->
  b = Z.land x (Z.lxor (2 ^ w - 1) (2 ^ n)) <-> x mod 2 ^ w = b \/ x mod 2 ^ w = b + 2 ^ n.
Proof.
  intros Hn Hb Hbit. rewrite mask_bits, add_bit by (done || lia). set (y := x mod 2 ^ w).
  assert (Hbits : forall a, a = y <-> forall i, 0 <= i -> Z.testbit a i = Z.testbit y i).
  { intros a. split; [by intros ->|]. intros H. by apply Z.bits_inj'. }
  split.
  - intros ->. destruct (Z.testbit y n) eqn:Ey; [right|left]; apply Z.bits_inj'; intros i Hi.
    + rewrite Z.setbit_eqb, Z.clearbit_eqb by lia. destruct (Z.eqb_spec n i) as [->|]; [done|]. by rewrite andb_true_r.
    + rewrite Z.clearbit_eqb by lia. destruct (Z.eqb_spec n i) as [->|]; [by rewrite Ey|]. by rewrite andb_true_r.
  - intros [-> | ->]; apply Z.bits_inj'; intros i Hi.
    + rewrite Z.clearbit_eqb by lia. destruct (Z.eqb_spec n i) as [->|]; [by rewrite Hbit|]. by rewrite andb_true_r.
    + rewrite Z.clearbit_eqb, Z.setbit_eqb by lia. destruct (Z.eqb_spec n i) as [->|]; [by rewrite Hbit|]. cbn. by rewrite andb_true_r.
Qed.

Lemma lxor_bit c1 c2 n : 0 <= n -> 0 <= c1 < c2 -> Z.lxor c1 c2 = 2 ^ n -> Z.testbit c1 n = false /\ c2 = c1 + 2 ^ n.
Proof.
  intros Hn Hc H. assert (E : c2 = Z.lxor c1 (2 ^ n)).
  { rewrite <- H, <- Z.lxor_assoc, Z.lxor_nilpotent. by rewrite Z.lxor_0_l. }
  destruct (Z.testbit c1 n) eqn:Eb.
  - exfalso. assert (c1 = c2 + 2 ^ n); [|pose proof (Z.pow_pos_nonneg 2 n); lia].
    rewrite add_bit by (done || (rewrite E, Z.lxor_spec, Eb, Z.pow2_bits_true by done; done)).
    rewrite E. apply Z.bits_inj'. intros i Hi. rewrite Z.setbit_eqb, Z.lxor_spec, Z.pow2_bits_eqb by lia.
    destruct (Z.eqb_spec n i) as [->|]; [done|]. by destruct (Z.testbit c1 i).
  - split; [done|]. rewrite add_bit, E by done. apply Z.bits_inj'. intros i Hi.
    rewrite Z.setbit_eqb, Z.lxor_spec, Z.pow2_bits_eqb by lia.
    destruct (Z.eqb_spec n i) as [->|]; [by rewrite Eb|]. by destruct (Z.testbit c1 i).
Qed.

Definition char_width (ascii : bool) : Z := if ascii then 7 else 16.

Lemma below_width n w e : 0 <= n -> e = 2 ^ n -> e < 2 ^ w -> n < w.
Proof. intros Hn -> H. apply Z.nle_gt. intros Hle. apply (Z.pow_le_mono_r 2) in Hle; lia. Qed.

Lemma lxor_below w a b : 0 <= w -> 0 <= a < 2 ^ w -> 0 <= b < 2 ^ w -> 0 <= Z.lxor a b < 2 ^ w.
Proof.
  intros Hw Ha Hb. assert (Z.lxor a b = Z.lxor a b mod 2 ^ w) as ->; [|apply Z.mod_pos_bound; lia].
  symmetry. apply Z.bits_inj'. intros i Hi. destruct (Z.ltb_spec i w).
  - by rewrite Z.mod_pow2_bits_low.
  - rewrite Z.mod_pow2_bits_high, Z.lxor_spec by lia.
    rewrite <- (Z.mod_small a (2 ^ w)), <- (Z.mod_small b (2 ^ w)), !Z.mod_pow2_bits_high by lia. done.
Qed.

(** The check that replaces two comparisons. *)
Definition passes (i : Instr) (ch : Z) : Prop := exists fuel, execute fuel (fun _ => None) ch [i] <> None.

Lemma passes_mask c mask ch : passes (CheckNotCharacterAfterAnd c mask) ch <-> c = Z.land ch mask.
Proof.
  split.
  - intros [[|[|fuel]] H]; [done| |]; cbn in H; destruct (Z.eqb_spec c (Z.land ch mask)); done.
  - intros ->. exists 2%nat. cbn [execute]. rewrite Z.eqb_refl. done.
Qed.

Lemma passes_minus c minus mask ch :
  passes (CheckNotCharacterAfterMinusAnd c minus mask) ch <-> c = Z.land (uint 32 (ch - minus)) mask.
Proof.
  split.
  - intros [[|[|fuel]] H]; [done| |]; cbn in H; destruct (Z.eqb_spec c (Z.land (uint 32 (ch - minus)) mask)); done.
  - intros ->. exists 2%nat. cbn [execute]. rewrite Z.eqb_refl. done.
Qed.

Lemma ShortCut_spec ascii c1 c2 i ch :
  0 <= c1 < c2 -> c2 < 2 ^ char_width ascii -> 0 <= ch < 2 ^ char_width ascii ->
  ShortCutEmitCharacterPair ascii c1 c2 = Some i -> passes i ch <-> ch = c1 \/ ch = c2.
Proof.
  intros Hc Hc2 Hch. unfold ShortCutEmitCharacterPair.
  assert ((if ascii then kMaxAsciiCharCode else kMaxUC16CharCode) = 2 ^ char_width ascii - 1) as -> by by destruct ascii.
  assert (Hw : 0 <= char_width ascii <= 16) by (destruct ascii; cbn; lia).
  assert (Hp : 2 ^ char_width ascii <= 2 ^ 16) by (apply Z.pow_le_mono_r; lia).
  set (w := char_width ascii) in *. clearbody w.
  assert (Hxpos : 0 < Z.lxor c1 c2).
  { pose proof (lxor_below w c1 c2 ltac:(lia) ltac:(lia) ltac:(lia)) as [H0 _].
    destruct (decide (Z.lxor c1 c2 = 0)) as [E|]; [|lia]. apply Z.lxor_eq in E. lia. }
  destruct (Z.eqb_spec (Z.land (Z.lxor c1 c2 - 1) (Z.lxor c1 c2)) 0) as [E|E].
  - intros [= <-]. rewrite passes_mask. destruct (power_of_two _ Hxpos E) as (n & Hn & Hx).
    destruct (lxor_bit c1 c2 n Hn Hc Hx) as [Hbit ->]. rewrite Hx.
    rewrite mask_spec by (done || (split; [done|]; eapply below_width; [done|exact Hx|by apply lxor_below; lia]) || lia).
    by rewrite Z.mod_small.
  - assert (uint 16 (c2 - c1) = c2 - c1) as -> by (unfold uint; apply Z.mod_small; lia).
    destruct (Z.eqb_spec (Z.land (c2 - c1 - 1) (c2 - c1)) 0) as [Ed|]; cbn [andb]; [|done].
    destruct (Z.leb_spec (c2 - c1) c1) as [Hle|]; [|done]. intros [= <-]. rewrite passes_minus.
    destruct (power_of_two (c2 - c1) ltac:(lia) Ed) as (n & Hn & Hd). rewrite Hd in *.
    assert (Hpos : 0 < 2 ^ n) by (apply Z.pow_pos_nonneg; lia).
    assert (uint 16 (c1 - 2 ^ n) = c1 - 2 ^ n) as -> by (unfold uint; apply Z.mod_small; lia).
    assert (Hbit : Z.testbit c1 n = true).
    { destruct (Z.testbit c1 n) eqn:Eb; [done|]. exfalso. apply E.
      assert (Z.lxor c1 c2 = 2 ^ n) as Hx; [|rewrite Hx, <- Hd; by rewrite Hd].
      replace c2 with (c1 + 2 ^ n) by lia. rewrite add_bit by done. apply Z.bits_inj'. intros i Hi.
      rewrite Z.lxor_spec, Z.setbit_eqb, Z.pow2_bits_eqb by lia.
      destruct (Z.eqb_spec n i) as [->|]; [by rewrite Eb|]. by rewrite xorb_nilpotent. }
    assert (Hb : Z.testbit (c1 - 2 ^ n) n = false).
    { assert (c1 - 2 ^ n = Z.clearbit c1 n) as ->; [|apply Z.clearbit_eq].
      assert (c1 = Z.clearbit c1 n + 2 ^ n) as Hsum; [|lia].
      rewrite add_bit by (done || apply Z.clearbit_eq). apply Z.bits_inj'. intros i Hi.
      rewrite Z.setbit_eqb, Z.clearbit_eqb by lia. destruct (Z.eqb_spec n i) as [->|]; [done|]. by rewrite andb_true_r. }
    rewrite mask_spec by (done || lia || (split; [done|]; eapply below_width; [done|exact eq_refl|]; lia)).
    replace (c1 - 2 ^ n + 2 ^ n) with c1 by lia. unfold uint.
    assert (((ch - 2 ^ n) mod 2 ^ 32) mod 2 ^ w = (ch - 2 ^ n) mod 2 ^ w) as ->.
    { replace (2 ^ 32) with (2 ^ w * 2 ^ (32 - w)) by (rewrite <- Z.pow_add_r by lia; f_equal; lia).
      rewrite Z.rem_mul_r by (pose proof (Z.pow_pos_nonneg 2 w); pose proof (Z.pow_pos_nonneg 2 (32 - w)); lia).
      rewrite Z.mul_comm, Z.mod_add by (pose proof (Z.pow_pos_nonneg 2 w); lia). apply Z.mod_mod.
      pose proof (Z.pow_pos_nonneg 2 w). lia. }
    destruct (decide (2 ^ n <= ch)).
    + rewrite Z.mod_small by lia. lia.
    + replace ((ch - 2 ^ n) mod 2 ^ w) with (ch - 2 ^ n + 2 ^ w); [lia|].
      rewrite <- (Z.mod_add _ 1) by lia. symmetry. rewrite Z.mul_1_l. apply Z.mod_small. lia.
Qed.

(** ** Emitting a letter *)

Definition letters_check (class_of : Z -> list Z) (c : Z) : bool :=
  match class_of c with
  | [_] | [_; _; _] | [_; _; _; _] => true
  | [c1; c2] => c1 <? c2
  | _ => false
  end.

Lemma cased_letters :
  (let U := maps_of class_rows in forallb (letters_check (mapped U)) (characters class_rows)) = true.
Proof. by vm_compute. Qed.

(** A class has at most four characters, and the larger of two is the last. *)
Lemma letters_checked c : 0 <= c < 2 ^ 16 -> letters_check class_of c = true.
Proof.
  intros Hc. unfold letters_check. rewrite class_mapped by done. destruct (decide (c ∈ characters class_rows)) as [Hin|Hin].
  - pose proof cased_letters as H. cbv zeta in H. rewrite forallb_forall in H. apply (H c). by apply list_elem_of_In.
  - by rewrite mapped_other.
Qed.

Lemma ascii_class c : 0 <= c < 128 -> forall d, d ∈ class_of c -> 0 <= d < 128.
Proof.
  intros Hc d Hd. assert (forallb (fun d => (0 <=? d) && (d <? 128)) (class_of c) = true) as H
    by (clear d Hd; revert c Hc; apply forall_below; by vm_compute).
  rewrite forallb_forall in H. apply list_elem_of_In, H in Hd. breflect. lia.
Qed.

Lemma GetCaseIndependentLetters_spec c ascii caches :
  0 <= c < 2 ^ char_width ascii -> caches_ok caches ->
  exists caches', GetCaseIndependentLetters c ascii caches = Some (class_of c, Z.of_nat (length (class_of c)), caches')
    /\ caches_ok caches'.
Proof.
  intros Hc Hok. unfold GetCaseIndependentLetters.
  assert (Hascii : negb ascii || (c <=? kMaxAsciiCharCode) = true).
  { destruct ascii; [|done]. apply Z.leb_le. cbn in Hc. unfold kMaxAsciiCharCode. lia. }
  destruct (get_uncanonicalize_spec c caches) as (chars & len & caches' & -> & Hok' & Hlen & H); [destruct ascii; cbn in Hc; lia|done|].
  cbn [mbind option_bind]. rewrite Hascii. exists caches'. split; [|done].
  destruct (Z.eqb_spec len 0); [by rewrite H|]. by rewrite <- H, <- Hlen.
Qed.

(** The code ends and does not jump to [on_failure]. *)
Definition accepts (load : Z -> option Z) (current_char : Z) (code : list Instr) : bool :=
  if execute (S (length code)) load current_char code is Some _ then true else false.

Lemma passes_accepts load ch i c mask minus :
  i = CheckNotCharacterAfterAnd c mask \/ i = CheckNotCharacterAfterMinusAnd c minus mask ->
  accepts load ch [i] = true <-> passes i ch.
Proof.
  intros [-> | ->]; [rewrite passes_mask|rewrite passes_minus]; unfold accepts; cbn [execute length].
  - by destruct (Z.eqb_spec c (Z.land ch mask)).
  - by destruct (Z.eqb_spec c (Z.land (uint 32 (ch - minus)) mask)).
Qed.

Lemma ShortCut_instr ascii c1 c2 i :
  ShortCutEmitCharacterPair ascii c1 c2 = Some i ->
  exists c mask minus, i = CheckNotCharacterAfterAnd c mask \/ i = CheckNotCharacterAfterMinusAnd c minus mask.
Proof.
  unfold ShortCutEmitCharacterPair. case_match; [intros [= <-]; do 2 eexists; exists 0; by left|].
  case_match; [|done]. intros [= <-]. do 3 eexists. by right.
Qed.

(** Every comparison in turn. *)
Ltac run_checks :=
  repeat (cbn [execute length skip_to_ok negb];
          match goal with |- context [?a =? ?b] => destruct (Z.eqb_spec a b) end);
  cbn [execute length skip_to_ok negb]; intuition congruence.

(** Of the two passes that emit a character of a case-independent atom, exactly one emits code, and
    it lets a subject character through when it has the same canonical character.
    The masks that replace two comparisons let nothing else through. *)
Theorem EmitAtom_correct ascii c cp_offset check preloaded load current_char ch caches :
  0 <= c < 2 ^ char_width ascii -> 0 <= ch < 2 ^ char_width ascii -> caches_ok caches ->
  (if preloaded : bool then current_char = ch else load cp_offset = Some ch) ->
  exists code1 checked1 caches1 code2 checked2 caches2,
    EmitAtomNonLetter ascii c cp_offset check preloaded caches = Some (code1, checked1, caches1)
    /\ EmitAtomLetter ascii c cp_offset check preloaded caches1 = Some (code2, checked2, caches2)
    /\ caches_ok caches2
    /\ (code1 = [] <-> code2 <> [])
    /\ (accepts load current_char code1 && accepts load current_char code2 = true
        <-> converts Ecma262Canonicalize_Convert ch = converts Ecma262Canonicalize_Convert c).
Proof.
  intros Hc Hch Hok Hload. unfold EmitAtomNonLetter, EmitAtomLetter.
  destruct (GetCaseIndependentLetters_spec c ascii caches Hc Hok) as (caches1 & -> & Hok1).
  destruct (GetCaseIndependentLetters_spec c ascii caches1 Hc Hok1) as (caches2 & Hget2 & Hok2).
  assert (Hc16 : 0 <= c < 2 ^ 16) by (destruct ascii; cbn in Hc; lia).
  assert (Hch16 : 0 <= ch < 2 ^ 16) by (destruct ascii; cbn in Hch; lia).
  pose proof (class_of_spec c ch Hc16 Hch16) as Hclass. change canonical with (converts Ecma262Canonicalize_Convert) in Hclass.
  assert (Hwidth : forall d, d ∈ class_of c -> 0 <= d < 2 ^ char_width ascii).
  { intros d Hd. destruct ascii; [by apply (ascii_class c)|]. destruct (class_facts c Hc16) as (k & _ & H & _). by apply H. }
  destruct (class_facts c Hc16) as (_ & _ & _ & Hself & _).
  assert (Hpre : forall code, accepts load current_char ((if preloaded then [] else [LoadCurrentCharacter cp_offset check]) ++ code)
    = accepts load ch code).
  { intros code. unfold accepts. destruct preloaded; [by subst|]. cbn [app length execute]. by rewrite Hload. }
  pose proof (letters_checked c Hc16) as Hletters. unfold letters_check in Hletters.
  cbn [mbind option_bind].
  destruct (class_of c) as [|c0 [|c1 [|c2 [|c3 [|]]]]]; try done; cbn [length Z.of_nat Pos.of_succ_nat Pos.succ] in *;
    cbn [Z.ltb Z.compare Z.eqb Pos.compare Pos.compare_cont Pos.eqb].
  - apply list_elem_of_singleton in Hself as <-.
    assert (ascii && (kMaxAsciiCharCode <? c) = false) as ->.
    { destruct ascii; [|done]. cbn in Hc. apply Z.ltb_ge. unfold kMaxAsciiCharCode. lia. }
    do 3 eexists. exists [], false, caches2. split; [done|]. rewrite Hget2. split; [done|]. split; [done|].
    split; [by destruct preloaded|]. rewrite Hpre, <- Hclass, list_elem_of_singleton. unfold accepts at 2. cbn [execute length].
    rewrite andb_true_r. unfold accepts. cbn [execute length]. destruct (Z.eqb_spec c ch); cbn; intuition congruence.
  - exists [], false, caches1. rewrite Hget2. cbn [mbind option_bind Z.leb Z.compare Pos.compare Pos.compare_cont].
    do 3 eexists. split; [done|]. split; [done|]. split; [done|].
    split; [by destruct preloaded, (ShortCutEmitCharacterPair ascii c0 c1)|].
    rewrite Hpre, <- Hclass. unfold accepts at 1. cbn [execute length andb]. rewrite !elem_of_cons, elem_of_nil.
    pose proof (Hwidth c0 ltac:(by left)) as H0. pose proof (Hwidth c1 ltac:(by right; left)) as H1. breflect.
    destruct (ShortCutEmitCharacterPair ascii c0 c1) as [i|] eqn:Ei.
    + destruct (ShortCut_instr _ _ _ _ Ei) as (c' & mask & minus & Hi). rewrite (passes_accepts _ _ _ _ _ _ Hi).
      rewrite (ShortCut_spec ascii c0 c1 i ch) by (done || lia). tauto.
    + unfold accepts. run_checks.
  - exists [], false, caches1. rewrite Hget2. cbn [mbind option_bind Z.leb Z.compare Pos.compare Pos.compare_cont].
    do 3 eexists. split; [done|]. split; [done|]. split; [done|]. split; [by destruct preloaded|].
    rewrite Hpre, <- Hclass. unfold accepts at 1. cbn [execute length andb]. rewrite !elem_of_cons, elem_of_nil.
    unfold accepts. run_checks.
  - exists [], false, caches1. rewrite Hget2. cbn [mbind option_bind Z.leb Z.compare Pos.compare Pos.compare_cont].
    do 3 eexists. split; [done|]. split; [done|]. split; [done|]. split; [by destruct preloaded|].
    rewrite Hpre, <- Hclass. unfold accepts at 1. cbn [execute length andb]. rewrite !elem_of_cons, elem_of_nil.
    unfold accepts. run_checks.
Qed.

Lemma EmitAtom_correct_witness :
  exists caches1 caches2,
    EmitAtomLetter true 97 0 true true caches1 = Some ([CheckNotCharacterAfterAnd 65 95], true, caches2)
    /\ accepts (fun _ => None) 97 [CheckNotCharacterAfterAnd 65 95] = true.
Proof.
  destruct (EmitAtom_correct true 97 0 true true (fun _ => None) 97 97 new_caches) as (code1 & b1 & caches1 & code2 & b2 & caches2 & E1 & E2 & _ & _ & H);
    [cbn; lia|cbn; lia|apply new_caches_ok|done|].
  vm_compute in E1. injection E1 as <- <- <-. eexists. exists caches2. split; [|reflexivity].
  rewrite E2. vm_compute in E2. injection E2 as <- <- _. reflexivity.
Defined.

(** ** Back references *)

Definition same_case (cs ds : list Z) : Prop :=
  Forall2 (fun c d => converts Ecma262Canonicalize_Convert c = converts Ecma262Canonicalize_Convert d) cs ds.

Lemma CaseInsensitiveCompareUC16_spec n l1 l2 cache :
  (n <= length l1)%nat -> (n <= length l2)%nat ->
  Forall (fun c => 0 <= c < 2 ^ 16) l1 -> Forall (fun c => 0 <= c < 2 ^ 16) l2 ->
  cache_ok Ecma262Canonicalize_Convert cache ->
  exists (same : bool) cache', CaseInsensitiveCompareUC16 l1 l2 n cache = Some (if same then 1 else 0, cache')
    /\ cache_ok Ecma262Canonicalize_Convert cache' /\ (same = true <-> same_case (take n l1) (take n l2)).
Proof.
  revert l1 l2 cache. induction n as [|n IH]; intros l1 l2 cache Hn1 Hn2 Hl1 Hl2 Hok; cbn [CaseInsensitiveCompareUC16].
  { exists true, cache. split_and!; [done|done|]. split; [intros _; constructor|done]. }
  destruct l1 as [|c1 l1], l2 as [|c2 l2]; cbn [length] in *; [lia..|]. apply Forall_cons in Hl1 as [Hc1 Hl1], Hl2 as [Hc2 Hl2].
  cbn [head mbind option_bind tail take].
  assert (Hnext : forall cache0, cache_ok Ecma262Canonicalize_Convert cache0 -> canonical c1 = canonical c2 ->
    exists (same : bool) cache', CaseInsensitiveCompareUC16 l1 l2 n cache0 = Some (if same then 1 else 0, cache')
    /\ cache_ok Ecma262Canonicalize_Convert cache' /\ (same = true <-> same_case (c1 :: take n l1) (c2 :: take n l2))).
  { intros cache0 Hok0 Heq. destruct (IH l1 l2 cache0) as (same & cache' & E & Hok' & H); [lia|lia|done..|].
    exists same, cache'. split_and!; [done|done|]. rewrite H. unfold same_case. rewrite Forall2_cons. by intuition. }
  destruct (Z.eqb_spec c1 c2) as [->|Hne]; [by apply Hnext|].
  destruct (canonicalized_spec c1 cache Hc1 Hok) as (k1 & cache1 & -> & Hok1 & Hk1). cbn [mbind option_bind].
  destruct (class_facts c1 Hc1) as (k & Hk & Hall & _ & Hin & _). rewrite Hk1 in Hk. injection Hk as <-.
  destruct (Z.eqb_spec k1 c2) as [->|Hne1].
  { apply Hnext; [done|]. rewrite Hk1. symmetry. by apply Hall. }
  destruct (canonicalized_spec c2 cache1 Hc2 Hok1) as (k2 & cache2 & -> & Hok2 & Hk2). cbn [mbind option_bind].
  destruct (Z.eqb_spec k1 k2) as [->|Hne2]; [apply Hnext; [done|congruence]|].
  exists false, cache2. split_and!; [done|done|]. unfold same_case. rewrite Forall2_cons.
  change (converts Ecma262Canonicalize_Convert) with canonical. split; [done|]. intros [H _]. congruence.
Qed.

Lemma BackRefMatchesNoCase_spec len from current subject cache :
  (from + len <= length subject)%nat -> (current + len <= length subject)%nat ->
  Forall (fun c => 0 <= c < 2 ^ 16) subject -> cache_ok Ecma262Canonicalize_Convert cache ->
  exists same cache', BackRefMatchesNoCase cache from current len subject = Some (same, cache')
    /\ cache_ok Ecma262Canonicalize_Convert cache'
    /\ (same = true <-> same_case (take len (drop from subject)) (take len (drop current subject))).
Proof.
  revert from current cache. induction len as [|len IH]; intros from current cache Hf Hcur Hsub Hok; cbn [BackRefMatchesNoCase].
  { exists true, cache. split_and!; [done|done|]. split; [intros _; constructor|done]. }
  destruct (lookup_lt_is_Some_2 subject from) as [c1 H1]; [lia|].
  destruct (lookup_lt_is_Some_2 subject current) as [c2 H2]; [lia|].
  rewrite H1, H2, (drop_S _ _ _ H1), (drop_S _ _ _ H2). cbn [mbind option_bind take].
  pose proof Hsub as Hall. rewrite Forall_lookup in Hall. pose proof (Hall _ _ H1) as Hc1. pose proof (Hall _ _ H2) as Hc2.
  assert (Hnext : forall cache0, cache_ok Ecma262Canonicalize_Convert cache0 -> canonical c1 = canonical c2 ->
    exists same cache', BackRefMatchesNoCase cache0 (S from) (S current) len subject = Some (same, cache')
    /\ cache_ok Ecma262Canonicalize_Convert cache'
    /\ (same = true <-> same_case (c1 :: take len (drop (S from) subject)) (c2 :: take len (drop (S current) subject)))).
  { intros cache0 Hok0 Heq. destruct (IH (S from) (S current) cache0) as (same & cache' & E & Hok' & H); [lia|lia|done..|].
    exists same, cache'. split_and!; [done|done|]. rewrite H. unfold same_case. rewrite Forall2_cons. by intuition. }
  destruct (Z.eqb_spec c1 c2) as [->|Hne]; [by apply Hnext|].
  destruct (canonicalized_spec c1 cache Hc1 Hok) as (k1 & cache1 & -> & Hok1 & Hk1). cbn [mbind option_bind].
  destruct (canonicalized_spec c2 cache1 Hc2 Hok1) as (k2 & cache2 & -> & Hok2 & Hk2). cbn [mbind option_bind].
  destruct (Z.eqb_spec k1 k2) as [->|Hne2]; [apply Hnext; [done|congruence]|].
  exists false, cache2. split_and!; [done|done|]. unfold same_case. rewrite Forall2_cons.
  change (converts Ecma262Canonicalize_Convert) with canonical. split; [done|]. intros [H _]. congruence.
Qed.

(** The interpreter and the native code compare a back reference in the same way: both accept when the
    characters pair up with equal canonical characters, although the native code has a
    shortcut, and whatever was looked up before. *)
Theorem BackRef_correct from current len subject cache1 cache2 :
  (from + len <= length subject)%nat -> (current + len <= length subject)%nat ->
  Forall (fun c => 0 <= c < 2 ^ 16) subject ->
  cache_ok Ecma262Canonicalize_Convert cache1 -> cache_ok Ecma262Canonicalize_Convert cache2 ->
  exists (same : bool) cache1' cache2',
    BackRefMatchesNoCase cache1 from current len subject = Some (same, cache1')
    /\ CaseInsensitiveCompareUC16 (drop from subject) (drop current subject) len cache2 = Some (if same then 1 else 0, cache2')
    /\ (same = true <-> same_case (take len (drop from subject)) (take len (drop current subject))).
Proof.
  intros Hf Hc Hsub Hok1 Hok2.
  destruct (BackRefMatchesNoCase_spec len from current subject cache1) as (same1 & cache1' & E1 & _ & H1); [done..|].
  destruct (CaseInsensitiveCompareUC16_spec len (drop from subject) (drop current subject) cache2)
    as (same2 & cache2' & E2 & _ & H2); [rewrite length_drop; lia|rewrite length_drop; lia|by apply Forall_drop|by apply Forall_drop|done|].
  exists same1, cache1', cache2'. split_and!; [done| |done]. rewrite E2. do 2 f_equal.
  assert (same1 = same2) as ->; [|done]. apply eq_true_iff_eq. tauto.
Qed.

Lemma BackRef_correct_witness :
  exists cache1' cache2',
    BackRefMatchesNoCase (Mapping_new kLogSize) 0 2 2 [97; 98; 65; 66] = Some (true, cache1')
    /\ CaseInsensitiveCompareUC16 [97; 98; 65; 66] [65; 66] 2 (Mapping_new kLogSize) = Some (1, cache2').
Proof.
  destruct (BackRef_correct 0 2 2 [97; 98; 65; 66] (Mapping_new kLogSize) (Mapping_new kLogSize))
    as (same & cache1' & cache2' & E1 & E2 & H); [cbn; lia|cbn; lia|repeat constructor; lia|apply new_caches_ok..|].
  assert (same = true) as -> by (apply H; repeat constructor; reflexivity).
  exists cache1', cache2'. split; [exact E1|exact E2].
Defined.

(** Lowering the ASCII letters is canonicalizing, for telling characters apart. *)
Lemma ascii_lower_canonical c d :
  0 <= c < 128 -> 0 <= d < 128 -> ascii_lower c = ascii_lower d <-> canonical c = canonical d.
Proof.
  assert (Hlower : forall c, 0 <= c < 128 -> ascii_lower c = if (65 <=? c) && (c <=? 90) then c + 32 else c).
  { intros x Hx. apply Z.eqb_eq. revert x Hx. apply forall_below. by vm_compute. }
  assert (Hupper : forall c, 0 <= c < 128 -> canonical c = [if (97 <=? c) && (c <=? 122) then c - 32 else c]).
  { intros x Hx. destruct (ascii_characters x Hx) as (_ & _ & _ & _ & _ & H). unfold canonical, converts. by rewrite H. }
  intros Hc Hd. rewrite !Hlower, !Hupper by done.
  destruct (Z.leb_spec 65 c), (Z.leb_spec c 90), (Z.leb_spec 97 c), (Z.leb_spec c 122),
    (Z.leb_spec 65 d), (Z.leb_spec d 90), (Z.leb_spec 97 d), (Z.leb_spec d 122); cbn [andb];
    (split; [intros E; f_equal; lia|intros [= E]; lia]).
Qed.

(** On a subject of ASCII characters the comparison of the interpreter that lowers the ASCII letters answers as the
    one that canonicalizes. *)
Theorem BackRef_ascii_agrees from current len subject cache :
  (from + len <= length subject)%nat -> (current + len <= length subject)%nat ->
  Forall (fun c => 0 <= c < 128) subject -> cache_ok Ecma262Canonicalize_Convert cache ->
  BackRefMatchesNoCase_ascii from current len subject = fst <$> BackRefMatchesNoCase cache from current len subject.
Proof.
  intros Hf Hcur Hsub. revert from current Hf Hcur cache. induction len as [|len IH]; intros from current Hf Hcur cache Hok; [done|].
  cbn [BackRefMatchesNoCase BackRefMatchesNoCase_ascii].
  destruct (lookup_lt_is_Some_2 subject from) as [c1 H1]; [lia|].
  destruct (lookup_lt_is_Some_2 subject current) as [c2 H2]; [lia|].
  rewrite H1, H2. cbn [mbind option_bind].
  rewrite Forall_lookup in Hsub. pose proof (Hsub _ _ H1) as Hc1. pose proof (Hsub _ _ H2) as Hc2. rewrite <- Forall_lookup in Hsub.
  destruct (Z.eqb_spec c1 c2) as [->|Hne]; [by apply IH; [lia..|]|].
  destruct (canonicalized_spec c1 cache ltac:(lia) Hok) as (k1 & cache1 & -> & Hok1 & Hk1). cbn [mbind option_bind].
  destruct (canonicalized_spec c2 cache1 ltac:(lia) Hok1) as (k2 & cache2 & -> & Hok2 & Hk2). cbn [mbind option_bind].
  assert ((ascii_lower c1 =? ascii_lower c2) = (k1 =? k2)) as ->.
  { pose proof (ascii_lower_canonical c1 c2 Hc1 Hc2) as H. rewrite Hk1, Hk2 in H.
    apply eq_true_iff_eq. rewrite !Z.eqb_eq, H. split; [by intros [= ->]|by intros ->]. }
  destruct (k1 =? k2); [by apply IH; [lia..|]|done].
Qed.

Lemma BackRef_ascii_agrees_witness :
  BackRefMatchesNoCase_ascii 0 2 2 [97; 98; 65; 66]
  = fst <$> BackRefMatchesNoCase (Mapping_new kLogSize) 0 2 2 [97; 98; 65; 66].
Proof.
  apply (BackRef_ascii_agrees 0 2 2 [97; 98; 65; 66] (Mapping_new kLogSize)); [cbn; lia|cbn; lia|repeat constructor; lia|apply new_caches_ok].
Defined.
