(* ===== verification/Irregexp.v ===== *)
(** * Irregexp: the bytecodes of regular expressions

    The bytecodes of src/bytecodes-irregexp.h, and memory as the assembler and the
    interpreter see it: bytes, with little-endian words of 16 and 32 bits.  An access outside
    of an array is [None]. *)

From S2P Require Import Prelude.
Local Open Scope Z_scope.

(** ** Words in memory *)

Definition read (n : nat) (memory : list Z) (pos : Z) : option Z :=
  if (0 <=? pos) && (pos + Z.of_nat n <=? Z.of_nat (length memory))
  then Some (of_bytes (take n (drop (Z.to_nat pos) memory))) else None.

Definition write (memory : list Z) (pos : Z) (bytes : list Z) : option (list Z) :=
  if (0 <=? pos) && (pos + Z.of_nat (length bytes) <=? Z.of_nat (length memory))
  then Some (take (Z.to_nat pos) memory ++ bytes ++ drop (Z.to_nat pos + length bytes) memory) else None.

(** [Load32Aligned] is signed, [Load16Aligned] is not. *)
Definition Load32Aligned (memory : list Z) (pc : Z) : option Z := w ← read 4 memory pc; Some (sint 32 w).
Definition Load16Aligned (memory : list Z) (pc : Z) : option Z := read 2 memory pc.

(** ** The bytecodes *)

Definition BYTECODE_MASK : Z := 0xff.
Definition MAX_FIRST_ARG : Z := 0x7fffff.
Definition BYTECODE_SHIFT : Z := 8.

Inductive Bytecode :=
  | BREAK | PUSH_CP | PUSH_BT | PUSH_REGISTER | SET_REGISTER_TO_CP | SET_CP_TO_REGISTER
  | SET_REGISTER_TO_SP | SET_SP_TO_REGISTER | SET_REGISTER | ADVANCE_REGISTER
  | POP_CP | POP_BT | POP_REGISTER | FAIL | SUCCEED | ADVANCE_CP | GOTO
  | LOAD_CURRENT_CHAR | LOAD_CURRENT_CHAR_UNCHECKED | LOAD_2_CURRENT_CHARS
  | LOAD_2_CURRENT_CHARS_UNCHECKED | LOAD_4_CURRENT_CHARS | LOAD_4_CURRENT_CHARS_UNCHECKED
  | CHECK_4_CHARS | CHECK_CHAR | CHECK_NOT_4_CHARS | CHECK_NOT_CHAR
  | AND_CHECK_4_CHARS | AND_CHECK_CHAR | AND_CHECK_NOT_4_CHARS | AND_CHECK_NOT_CHAR
  | MINUS_AND_CHECK_NOT_CHAR | CHECK_LT | CHECK_GT | CHECK_NOT_BACK_REF
  | CHECK_NOT_BACK_REF_NO_CASE | CHECK_NOT_REGS_EQUAL
  | LOOKUP_MAP1 | LOOKUP_MAP2 | LOOKUP_MAP8 | LOOKUP_HI_MAP8
  | CHECK_REGISTER_LT | CHECK_REGISTER_GE | CHECK_REGISTER_EQ_POS
  | CHECK_AT_START | CHECK_NOT_AT_START | CHECK_GREEDY | ADVANCE_CP_AND_GOTO
  | SET_CURRENT_POSITION_FROM_END.

(** The name, the code and the length of the instruction. *)
Definition BYTECODE_ITERATOR : list (Bytecode * Z * Z) :=
  [(BREAK, 0, 4); (PUSH_CP, 1, 4); (PUSH_BT, 2, 8); (PUSH_REGISTER, 3, 4);
   (SET_REGISTER_TO_CP, 4, 8); (SET_CP_TO_REGISTER, 5, 4); (SET_REGISTER_TO_SP, 6, 4);
   (SET_SP_TO_REGISTER, 7, 4); (SET_REGISTER, 8, 8); (ADVANCE_REGISTER, 9, 8);
   (POP_CP, 10, 4); (POP_BT, 11, 4); (POP_REGISTER, 12, 4); (FAIL, 13, 4); (SUCCEED, 14, 4);
   (ADVANCE_CP, 15, 4); (GOTO, 16, 8); (LOAD_CURRENT_CHAR, 17, 8);
   (LOAD_CURRENT_CHAR_UNCHECKED, 18, 4); (LOAD_2_CURRENT_CHARS, 19, 8);
   (LOAD_2_CURRENT_CHARS_UNCHECKED, 20, 4); (LOAD_4_CURRENT_CHARS, 21, 8);
   (LOAD_4_CURRENT_CHARS_UNCHECKED, 22, 4); (CHECK_4_CHARS, 23, 12); (CHECK_CHAR, 24, 8);
   (CHECK_NOT_4_CHARS, 25, 12); (CHECK_NOT_CHAR, 26, 8); (AND_CHECK_4_CHARS, 27, 16);
   (AND_CHECK_CHAR, 28, 12); (AND_CHECK_NOT_4_CHARS, 29, 16); (AND_CHECK_NOT_CHAR, 30, 12);
   (MINUS_AND_CHECK_NOT_CHAR, 31, 12); (CHECK_LT, 32, 8); (CHECK_GT, 33, 8);
   (CHECK_NOT_BACK_REF, 34, 8); (CHECK_NOT_BACK_REF_NO_CASE, 35, 8);
   (CHECK_NOT_REGS_EQUAL, 36, 12); (LOOKUP_MAP1, 37, 12); (LOOKUP_MAP2, 38, 96);
   (LOOKUP_MAP8, 39, 96); (LOOKUP_HI_MAP8, 40, 96); (CHECK_REGISTER_LT, 41, 12);
   (CHECK_REGISTER_GE, 42, 12); (CHECK_REGISTER_EQ_POS, 43, 8); (CHECK_AT_START, 44, 8);
   (CHECK_NOT_AT_START, 45, 8); (CHECK_GREEDY, 46, 8); (ADVANCE_CP_AND_GOTO, 47, 8);
   (SET_CURRENT_POSITION_FROM_END, 48, 4)].

#[export] Instance Bytecode_eq_dec : EqDecision Bytecode.
Proof. solve_decision. Defined.

Definition row (b : Bytecode) : Bytecode * Z * Z :=
  default (BREAK, 0, 4) (find_first (fun r => bool_decide (r.1.1 = b)) BYTECODE_ITERATOR).

(** [BC_##name] and [BC_##name##_LENGTH] *)
Definition BC (b : Bytecode) : Z := (row b).1.2.
Definition BC_LENGTH (b : Bytecode) : Z := (row b).2.

(** The [case] that a code selects. *)
Definition bytecode_of (code : Z) : option Bytecode :=
  (fun r => r.1.1) <$> find_first (fun r => r.1.2 =? code) BYTECODE_ITERATOR.

(** ** Words that were written are read *)

Lemma bytecode_of_BC b : bytecode_of (BC b) = Some b.
Proof. by destruct b. Qed.

Lemma BC_range b : 0 <= BC b < 2 ^ 8.
Proof. destruct b; vm_compute; (split; [discriminate|reflexivity]). Qed.

Lemma read_app n pre bytes post :
  length bytes = n -> read n (pre ++ bytes ++ post) (Z.of_nat (length pre)) = Some (of_bytes bytes).
Proof.
  intros Hn. unfold read. rewrite !length_app, (proj2 (Z.leb_le 0 _)), (proj2 (Z.leb_le (_ + _) _)) by lia.
  cbn [andb]. rewrite Nat2Z.id, drop_app_length. by rewrite <- Hn, take_app_length.
Qed.

Lemma Load32_app pre z post :
  Load32Aligned (pre ++ le_bytes 4 z ++ post) (Z.of_nat (length pre)) = Some (sint 32 z).
Proof.
  unfold Load32Aligned. rewrite read_app, of_bytes_le by apply length_le_bytes. cbn [mbind option_bind]. f_equal.
  apply sint_uint.
Qed.

Lemma Load16_app pre z post :
  Load16Aligned (pre ++ le_bytes 2 z ++ post) (Z.of_nat (length pre)) = Some (z mod 2 ^ 16).
Proof. unfold Load16Aligned. by rewrite read_app, of_bytes_le by apply length_le_bytes. Qed.

Lemma write_app pre old bytes post :
  length old = length bytes ->
  write (pre ++ old ++ post) (Z.of_nat (length pre)) bytes = Some (pre ++ bytes ++ post).
Proof.
  intros Hl. unfold write. rewrite !length_app, (proj2 (Z.leb_le 0 _)), (proj2 (Z.leb_le (_ + _) _)) by lia.
  cbn [andb]. rewrite Nat2Z.id, take_app_length, <- Hl, drop_app_add, drop_app_length. done.
Qed.
