(* ===== verification/IrregexpAssembler.v ===== *)
(** * IrregexpAssembler: emitting the bytecodes of a regular expression

    Models [class RegExpMacroAssemblerIrregexp] (src/regexp-macro-assembler-irregexp.cc and
    -inl.h) and the labels of src/assembler.h.  Labels are objects of the compiler that the
    assembler changes, so they are a map in its state; a label that is not in
    the map is unused, and the label [None] is the null pointer, which stands for the member
    [backtrack_].  A write outside of the buffer is [None]. *)

From stdpp Require Import functions.
From S2P Require Import Prelude Irregexp.
Local Open Scope Z_scope.

Abbreviation Label := (option nat).

Record Assembler := MkAssembler {
  buffer_ : list Z;
  pc_ : Z;
  advance_current_start_ : Z;
  advance_current_offset_ : Z;
  advance_current_end_ : Z;
  label_pos_ : Label -> Z
}.

Definition with_buffer (b : list Z) (a : Assembler) : Assembler :=
  MkAssembler b (pc_ a) (advance_current_start_ a) (advance_current_offset_ a) (advance_current_end_ a) (label_pos_ a).
Definition with_pc (pc : Z) (a : Assembler) : Assembler :=
  MkAssembler (buffer_ a) pc (advance_current_start_ a) (advance_current_offset_ a) (advance_current_end_ a) (label_pos_ a).
Definition with_end (e : Z) (a : Assembler) : Assembler :=
  MkAssembler (buffer_ a) (pc_ a) (advance_current_start_ a) (advance_current_offset_ a) e (label_pos_ a).
Definition with_advance (start offset : Z) (a : Assembler) : Assembler :=
  MkAssembler (buffer_ a) (pc_ a) start offset (advance_current_end_ a) (label_pos_ a).
Definition with_label (l : Label) (pos : Z) (a : Assembler) : Assembler :=
  MkAssembler (buffer_ a) (pc_ a) (advance_current_start_ a) (advance_current_offset_ a) (advance_current_end_ a)
    (<[l := pos]> (label_pos_ a)).

Definition kInvalidPC : Z := -1.

(** ** Labels *)

Definition is_bound (pos_ : Z) : bool := pos_ <? 0.
Definition is_linked (pos_ : Z) : bool := 0 <? pos_.

(** [Label::pos()], [None] for [UNREACHABLE]. *)
Definition pos (pos_ : Z) : option Z :=
  if pos_ <? 0 then Some (- pos_ - 1) else if 0 <? pos_ then Some (pos_ - 1) else None.

Definition bind_to (l : Label) (p : Z) (a : Assembler) : Assembler := with_label l (- p - 1) a.
Definition link_to (l : Label) (p : Z) (a : Assembler) : Assembler := with_label l (p + 1) a.

(** ** Emitting *)

Section assembler.
(** What a new buffer holds, by its index. *)
Context (raw : nat -> Z).

Definition RegExpMacroAssemblerIrregexp (buffer : list Z) : Assembler :=
  MkAssembler buffer 0 0 0 kInvalidPC (fun _ => 0).

Definition Expand (a : Assembler) : Assembler :=
  let n := length (buffer_ a) in with_buffer (buffer_ a ++ map raw (seq n n)) a.

(** [n] bytes at the program counter; [Expand] if they do not fit. *)
Definition EmitBytes (n : nat) (word : Z) (a : Assembler) : option Assembler :=
  let a := if Z.of_nat (length (buffer_ a)) <=? pc_ a + (Z.of_nat n - 1) then Expand a else a in
  b ← write (buffer_ a) (pc_ a) (le_bytes n word);
  Some (with_pc (pc_ a + Z.of_nat n) (with_buffer b a)).

Definition Emit (byte twenty_four_bits : Z) (a : Assembler) : option Assembler :=
  let word := uint 32 (Z.lor (Z.shiftl (uint 32 twenty_four_bits) BYTECODE_SHIFT) byte) in
  EmitBytes 4 word a.

Definition Emit16 (word : Z) (a : Assembler) : option Assembler := EmitBytes 2 (uint 32 word) a.
Definition Emit32 (word : Z) (a : Assembler) : option Assembler := EmitBytes 4 (uint 32 word) a.

(** [while (pos != 0)]: every link holds the position of the one before it. *)
Fixpoint patch (fuel : nat) (buffer : list Z) (pos pc : Z) : option (list Z) :=
  match fuel with
  | O => None
  | S fuel =>
      if pos =? 0 then Some buffer
      else
        let fixup := pos in
        pos ← Load32Aligned buffer fixup;
        buffer ← write buffer fixup (le_bytes 4 (uint 32 pc));
        patch fuel buffer pos pc
  end.

Definition Bind (l : Label) (a : Assembler) : option Assembler :=
  let a := with_end kInvalidPC a in
  a ← (if is_linked (label_pos_ a l) then
         p ← pos (label_pos_ a l);
         b ← patch (S (Z.to_nat p)) (buffer_ a) p (pc_ a);
         Some (with_buffer b a)
       else Some a);
  Some (bind_to l (pc_ a) a).

Definition EmitOrLink (l : Label) (a : Assembler) : option Assembler :=
  if is_bound (label_pos_ a l) then p ← pos (label_pos_ a l); Emit32 p a
  else
    p ← (if is_linked (label_pos_ a l) then pos (label_pos_ a l) else Some 0);
    Emit32 p (link_to l (pc_ a) a).

(** ** The macro assembler *)

Definition PopRegister (register_index : Z) (a : Assembler) := Emit (BC POP_REGISTER) register_index a.
Definition PushRegister (register_index : Z) (a : Assembler) := Emit (BC PUSH_REGISTER) register_index a.

Definition WriteCurrentPositionToRegister (register_index cp_offset : Z) (a : Assembler) :=
  a ← Emit (BC SET_REGISTER_TO_CP) register_index a; Emit32 cp_offset a.

Definition ReadCurrentPositionFromRegister (register_index : Z) (a : Assembler) :=
  Emit (BC SET_CP_TO_REGISTER) register_index a.
Definition WriteStackPointerToRegister (register_index : Z) (a : Assembler) :=
  Emit (BC SET_REGISTER_TO_SP) register_index a.
Definition ReadStackPointerFromRegister (register_index : Z) (a : Assembler) :=
  Emit (BC SET_SP_TO_REGISTER) register_index a.
Definition SetCurrentPositionFromEnd (by_ : Z) (a : Assembler) :=
  Emit (BC SET_CURRENT_POSITION_FROM_END) by_ a.

Definition SetRegister (register_index to : Z) (a : Assembler) :=
  a ← Emit (BC SET_REGISTER) register_index a; Emit32 to a.
Definition AdvanceRegister (register_index by_ : Z) (a : Assembler) :=
  a ← Emit (BC ADVANCE_REGISTER) register_index a; Emit32 by_ a.

(** The loop over the registers from [reg_from] on. *)
Fixpoint clear_loop (n : nat) (reg : Z) (a : Assembler) : option Assembler :=
  match n with
  | O => Some a
  | S n => a ← SetRegister reg (-1) a; clear_loop n (reg + 1) a
  end.

Definition ClearRegisters (reg_from reg_to : Z) (a : Assembler) : option Assembler :=
  clear_loop (Z.to_nat (reg_to + 1 - reg_from)) reg_from a.

Definition PopCurrentPosition (a : Assembler) := Emit (BC POP_CP) 0 a.
Definition PushCurrentPosition (a : Assembler) := Emit (BC PUSH_CP) 0 a.
Definition Backtrack (a : Assembler) := Emit (BC POP_BT) 0 a.

Definition GoTo (l : Label) (a : Assembler) : option Assembler :=
  if advance_current_end_ a =? pc_ a then
    (* Combine advance current and goto. *)
    let a := with_pc (advance_current_start_ a) a in
    a ← Emit (BC ADVANCE_CP_AND_GOTO) (advance_current_offset_ a) a;
    a ← EmitOrLink l a;
    Some (with_end kInvalidPC a)
  else
    a ← Emit (BC GOTO) 0 a; EmitOrLink l a.

Definition PushBacktrack (l : Label) (a : Assembler) := a ← Emit (BC PUSH_BT) 0 a; EmitOrLink l a.
Definition Succeed (a : Assembler) := Emit (BC SUCCEED) 0 a.
Definition Fail (a : Assembler) := Emit (BC FAIL) 0 a.

Definition AdvanceCurrentPosition (by_ : Z) (a : Assembler) : option Assembler :=
  let a := with_advance (pc_ a) by_ a in
  a ← Emit (BC ADVANCE_CP) by_ a;
  Some (with_end (pc_ a) a).

Definition CheckGreedyLoop (on_tos_equals_current_position : Label) (a : Assembler) :=
  a ← Emit (BC CHECK_GREEDY) 0 a; EmitOrLink on_tos_equals_current_position a.

Definition LoadCurrentCharacter (cp_offset : Z) (on_failure : Label) (check_bounds : bool) (characters : Z) (a : Assembler) :=
  let bytecode :=
    if check_bounds then
      if characters =? 4 then LOAD_4_CURRENT_CHARS
      else if characters =? 2 then LOAD_2_CURRENT_CHARS else LOAD_CURRENT_CHAR
    else
      if characters =? 4 then LOAD_4_CURRENT_CHARS_UNCHECKED
      else if characters =? 2 then LOAD_2_CURRENT_CHARS_UNCHECKED else LOAD_CURRENT_CHAR_UNCHECKED in
  a ← Emit (BC bytecode) cp_offset a;
  if check_bounds then EmitOrLink on_failure a else Some a.

Definition CheckCharacterLT (limit : Z) (on_less : Label) (a : Assembler) :=
  a ← Emit (BC CHECK_LT) limit a; EmitOrLink on_less a.
Definition CheckCharacterGT (limit : Z) (on_greater : Label) (a : Assembler) :=
  a ← Emit (BC CHECK_GT) limit a; EmitOrLink on_greater a.

(** A constant that does not fit behind the bytecode has a word of its own. *)
Definition emit_constant (long short : Bytecode) (c : Z) (a : Assembler) : option Assembler :=
  if MAX_FIRST_ARG <? c then a ← Emit (BC long) 0 a; Emit32 c a else Emit (BC short) c a.

Definition CheckCharacter (c : Z) (on_equal : Label) (a : Assembler) :=
  a ← emit_constant CHECK_4_CHARS CHECK_CHAR c a; EmitOrLink on_equal a.

Definition CheckAtStart (on_at_start : Label) (a : Assembler) :=
  a ← Emit (BC CHECK_AT_START) 0 a; EmitOrLink on_at_start a.
Definition CheckNotAtStart (on_not_at_start : Label) (a : Assembler) :=
  a ← Emit (BC CHECK_NOT_AT_START) 0 a; EmitOrLink on_not_at_start a.

Definition CheckNotCharacter (c : Z) (on_not_equal : Label) (a : Assembler) :=
  a ← emit_constant CHECK_NOT_4_CHARS CHECK_NOT_CHAR c a; EmitOrLink on_not_equal a.

Definition CheckCharacterAfterAnd (c mask : Z) (on_equal : Label) (a : Assembler) :=
  a ← emit_constant AND_CHECK_4_CHARS AND_CHECK_CHAR c a; a ← Emit32 mask a; EmitOrLink on_equal a.
Definition CheckNotCharacterAfterAnd (c mask : Z) (on_not_equal : Label) (a : Assembler) :=
  a ← emit_constant AND_CHECK_NOT_4_CHARS AND_CHECK_NOT_CHAR c a; a ← Emit32 mask a; EmitOrLink on_not_equal a.

Definition CheckNotCharacterAfterMinusAnd (c minus mask : Z) (on_not_equal : Label) (a : Assembler) :=
  a ← Emit (BC MINUS_AND_CHECK_NOT_CHAR) c a; a ← Emit16 minus a; a ← Emit16 mask a; EmitOrLink on_not_equal a.

Definition CheckNotBackReference (start_reg : Z) (on_not_equal : Label) (a : Assembler) :=
  a ← Emit (BC CHECK_NOT_BACK_REF) start_reg a; EmitOrLink on_not_equal a.
Definition CheckNotBackReferenceIgnoreCase (start_reg : Z) (on_not_equal : Label) (a : Assembler) :=
  a ← Emit (BC CHECK_NOT_BACK_REF_NO_CASE) start_reg a; EmitOrLink on_not_equal a.
Definition CheckNotRegistersEqual (reg1 reg2 : Z) (on_not_equal : Label) (a : Assembler) :=
  a ← Emit (BC CHECK_NOT_REGS_EQUAL) reg1 a; a ← Emit32 reg2 a; EmitOrLink on_not_equal a.

(** The loop runs backwards: the [n] first characters are still to be emitted. *)
Fixpoint check_characters_loop (n : nat) (str : list Z) (cp_offset : Z) (on_failure : Label)
    (check_end_of_string : bool) (a : Assembler) : option Assembler :=
  match n with
  | O => Some a
  | S i =>
      c ← str !! i;
      a ← (if check_end_of_string && (i =? length str - 1)%nat then
             a ← Emit (BC LOAD_CURRENT_CHAR) (cp_offset + Z.of_nat i) a; EmitOrLink on_failure a
           else Emit (BC LOAD_CURRENT_CHAR_UNCHECKED) (cp_offset + Z.of_nat i) a);
      a ← Emit (BC CHECK_NOT_CHAR) c a;
      a ← EmitOrLink on_failure a;
      check_characters_loop i str cp_offset on_failure check_end_of_string a
  end.

Definition CheckCharacters (str : list Z) (cp_offset : Z) (on_failure : Label) (check_end_of_string : bool) (a : Assembler) :=
  check_characters_loop (length str) str cp_offset on_failure check_end_of_string a.

Definition IfRegisterLT (register_index comparand : Z) (on_less_than : Label) (a : Assembler) :=
  a ← Emit (BC CHECK_REGISTER_LT) register_index a; a ← Emit32 comparand a; EmitOrLink on_less_than a.
Definition IfRegisterGE (register_index comparand : Z) (on_greater_or_equal : Label) (a : Assembler) :=
  a ← Emit (BC CHECK_REGISTER_GE) register_index a; a ← Emit32 comparand a; EmitOrLink on_greater_or_equal a.
Definition IfRegisterEqPos (register_index : Z) (on_eq : Label) (a : Assembler) :=
  a ← Emit (BC CHECK_REGISTER_EQ_POS) register_index a; EmitOrLink on_eq a.

Definition Copy (a : Assembler) : list Z := take (Z.to_nat (pc_ a)) (buffer_ a).

Definition GetCode (a : Assembler) : option (list Z) :=
  a ← Bind None a;
  a ← Emit (BC POP_BT) 0 a;
  Some (Copy a).
End assembler.

(** ** Programs *)

(** A call of the macro assembler.  [ClearRegisters] and [CheckCharacters] are sequences of them. *)
Inductive Op :=
  | OpBind (l : Label)
  | OpPopRegister (r : Z)
  | OpPushRegister (r : Z)
  | OpWriteCurrentPositionToRegister (r cp_offset : Z)
  | OpReadCurrentPositionFromRegister (r : Z)
  | OpWriteStackPointerToRegister (r : Z)
  | OpReadStackPointerFromRegister (r : Z)
  | OpSetCurrentPositionFromEnd (by_ : Z)
  | OpSetRegister (r to : Z)
  | OpAdvanceRegister (r by_ : Z)
  | OpPopCurrentPosition
  | OpPushCurrentPosition
  | OpBacktrack
  | OpGoTo (l : Label)
  | OpPushBacktrack (l : Label)
  | OpSucceed
  | OpFail
  | OpAdvanceCurrentPosition (by_ : Z)
  | OpCheckGreedyLoop (l : Label)
  | OpLoadCurrentCharacter (cp_offset : Z) (l : Label) (check_bounds : bool) (characters : Z)
  | OpCheckCharacterLT (limit : Z) (l : Label)
  | OpCheckCharacterGT (limit : Z) (l : Label)
  | OpCheckCharacter (c : Z) (l : Label)
  | OpCheckAtStart (l : Label)
  | OpCheckNotAtStart (l : Label)
  | OpCheckNotCharacter (c : Z) (l : Label)
  | OpCheckCharacterAfterAnd (c mask : Z) (l : Label)
  | OpCheckNotCharacterAfterAnd (c mask : Z) (l : Label)
  | OpCheckNotCharacterAfterMinusAnd (c minus mask : Z) (l : Label)
  | OpCheckNotBackReference (r : Z) (l : Label)
  | OpCheckNotBackReferenceIgnoreCase (r : Z) (l : Label)
  | OpCheckNotRegistersEqual (r1 r2 : Z) (l : Label)
  | OpIfRegisterLT (r comparand : Z) (l : Label)
  | OpIfRegisterGE (r comparand : Z) (l : Label)
  | OpIfRegisterEqPos (r : Z) (l : Label).

Section programs.
Context (raw : nat -> Z).

Definition perform (op : Op) : Assembler -> option Assembler :=
  match op with
  | OpBind l => Bind l
  | OpPopRegister r => PopRegister raw r
  | OpPushRegister r => PushRegister raw r
  | OpWriteCurrentPositionToRegister r o => WriteCurrentPositionToRegister raw r o
  | OpReadCurrentPositionFromRegister r => ReadCurrentPositionFromRegister raw r
  | OpWriteStackPointerToRegister r => WriteStackPointerToRegister raw r
  | OpReadStackPointerFromRegister r => ReadStackPointerFromRegister raw r
  | OpSetCurrentPositionFromEnd n => SetCurrentPositionFromEnd raw n
  | OpSetRegister r n => SetRegister raw r n
  | OpAdvanceRegister r n => AdvanceRegister raw r n
  | OpPopCurrentPosition => PopCurrentPosition raw
  | OpPushCurrentPosition => PushCurrentPosition raw
  | OpBacktrack => Backtrack raw
  | OpGoTo l => GoTo raw l
  | OpPushBacktrack l => PushBacktrack raw l
  | OpSucceed => Succeed raw
  | OpFail => Fail raw
  | OpAdvanceCurrentPosition n => AdvanceCurrentPosition raw n
  | OpCheckGreedyLoop l => CheckGreedyLoop raw l
  | OpLoadCurrentCharacter o l check n => LoadCurrentCharacter raw o l check n
  | OpCheckCharacterLT c l => CheckCharacterLT raw c l
  | OpCheckCharacterGT c l => CheckCharacterGT raw c l
  | OpCheckCharacter c l => CheckCharacter raw c l
  | OpCheckAtStart l => CheckAtStart raw l
  | OpCheckNotAtStart l => CheckNotAtStart raw l
  | OpCheckNotCharacter c l => CheckNotCharacter raw c l
  | OpCheckCharacterAfterAnd c mask l => CheckCharacterAfterAnd raw c mask l
  | OpCheckNotCharacterAfterAnd c mask l => CheckNotCharacterAfterAnd raw c mask l
  | OpCheckNotCharacterAfterMinusAnd c minus mask l => CheckNotCharacterAfterMinusAnd raw c minus mask l
  | OpCheckNotBackReference r l => CheckNotBackReference raw r l
  | OpCheckNotBackReferenceIgnoreCase r l => CheckNotBackReferenceIgnoreCase raw r l
  | OpCheckNotRegistersEqual r1 r2 l => CheckNotRegistersEqual raw r1 r2 l
  | OpIfRegisterLT r n l => IfRegisterLT raw r n l
  | OpIfRegisterGE r n l => IfRegisterGE raw r n l
  | OpIfRegisterEqPos r l => IfRegisterEqPos raw r l
  end.

Fixpoint perform_all (ops : list Op) (a : Assembler) : option Assembler :=
  match ops with
  | [] => Some a
  | op :: ops => a ← perform op a; perform_all ops a
  end.

(** The code of a program, from a fresh assembler. *)
Definition assemble (buffer : list Z) (ops : list Op) : option (list Z) :=
  a ← perform_all ops (RegExpMacroAssemblerIrregexp buffer);
  GetCode raw a.

Lemma perform_all_app ops1 ops2 a :
  perform_all (ops1 ++ ops2) a = (a ← perform_all ops1 a; perform_all ops2 a).
Proof.
  revert a. induction ops1 as [|op ops1 IH]; intros a; [done|]. cbn [app perform_all].
  destruct (perform op a); cbn [mbind option_bind]; [apply IH|done].
Qed.

(** The two that are loops. *)
Definition clear_ops (reg_from reg_to : Z) : list Op :=
  (fun r => OpSetRegister r (-1)) <$> seqZ reg_from (reg_to + 1 - reg_from).

Lemma ClearRegisters_ops reg_from reg_to a :
  ClearRegisters raw reg_from reg_to a = perform_all (clear_ops reg_from reg_to) a.
Proof.
  unfold ClearRegisters, clear_ops, seqZ. remember (Z.to_nat (reg_to + 1 - reg_from)) as n eqn:En. clear En.
  revert reg_from a. induction n as [|n IH]; intros r a; [done|]. cbn [clear_loop seq fmap list_fmap perform_all perform].
  rewrite Z.add_0_l. destruct (SetRegister raw r (-1) a); cbn [mbind option_bind]; [|done].
  rewrite IH, <- fmap_S_seq, <- !list_fmap_compose.
  match goal with |- perform_all ?l _ = perform_all ?l' _ => replace l with l'; [done|] end.
  apply list_fmap_ext. intros _ i _. cbn. f_equal. lia.
Qed.

Fixpoint check_ops (n : nat) (str : list Z) (cp_offset : Z) (l : Label) (check : bool) : list Op :=
  match n with
  | O => []
  | S i =>
      [OpLoadCurrentCharacter (cp_offset + Z.of_nat i) l (check && (i =? length str - 1)%nat) 1;
       OpCheckNotCharacter (default 0 (str !! i)) l] ++ check_ops i str cp_offset l check
  end.

Lemma CheckCharacters_ops str cp_offset l check a :
  Forall (fun c => c <= MAX_FIRST_ARG) str ->
  CheckCharacters raw str cp_offset l check a = perform_all (check_ops (length str) str cp_offset l check) a.
Proof.
  intros Hstr. unfold CheckCharacters.
  enough (H : forall n a, (n <= length str)%nat ->
    check_characters_loop raw n str cp_offset l check a = perform_all (check_ops n str cp_offset l check) a) by by apply H.
  clear a. induction n as [|i IH]; intros a Hn; [done|].
  cbn [check_characters_loop check_ops app perform_all perform].
  destruct (lookup_lt_is_Some_2 str i) as [c Hc]; [lia|]. rewrite Hc. cbn [mbind option_bind from_option id].
  pose proof Hstr as Hall. rewrite Forall_lookup in Hall. specialize (Hall i c Hc). cbn beta in Hall.
  unfold LoadCurrentCharacter. change (1 =? 4) with false. change (1 =? 2) with false.
  destruct (check && (i =? length str - 1)%nat); cbn match.
  - destruct (Emit raw (BC LOAD_CURRENT_CHAR) (cp_offset + Z.of_nat i) a) as [a1|]; cbn [mbind option_bind]; [|done].
    destruct (EmitOrLink raw l a1) as [a2|]; cbn [mbind option_bind]; [|done].
    unfold CheckNotCharacter, emit_constant. rewrite (proj2 (Z.ltb_ge MAX_FIRST_ARG c)) by lia.
    destruct (Emit raw (BC CHECK_NOT_CHAR) c a2) as [a3|]; cbn [mbind option_bind]; [|done].
    destruct (EmitOrLink raw l a3) as [a4|]; cbn [mbind option_bind]; [|done]. apply IH. lia.
  - destruct (Emit raw (BC LOAD_CURRENT_CHAR_UNCHECKED) (cp_offset + Z.of_nat i) a) as [a1|]; cbn [mbind option_bind]; [|done].
    unfold CheckNotCharacter, emit_constant. rewrite (proj2 (Z.ltb_ge MAX_FIRST_ARG c)) by lia.
    destruct (Emit raw (BC CHECK_NOT_CHAR) c a1) as [a3|]; cbn [mbind option_bind]; [|done].
    destruct (EmitOrLink raw l a3) as [a4|]; cbn [mbind option_bind]; [|done]. apply IH. lia.
Qed.
End programs.

