(* ===== verification/IrregexpLayout.v ===== *)
(** * IrregexpLayout: the code that the assembler produces

    A specification of [RegExpMacroAssemblerIrregexp] without buffers and chains of links: a
    program is fused ([AdvanceCurrentPosition] and a [GoTo] behind it are one instruction), its
    instructions are put in a row, and a label stands for the position where it is bound.  The
    assembler is proved to produce exactly the bytes of that. *)

From stdpp Require Import functions.
From S2P Require Import Prelude Irregexp IrregexpAssembler.
Local Open Scope Z_scope.

(** ** Cells *)

(** What is emitted: a word with its bytecode, an operand, or the position of a label. *)
Inductive Cell :=
  | CWord (b : Bytecode) (arg : Z)
  | C32 (word : Z)
  | C16 (word : Z)
  | CRef (l : Label).

#[export] Instance Cell_eq_dec : EqDecision Cell.
Proof. solve_decision. Defined.

Definition cell_size (c : Cell) : Z := match c with C16 _ => 2 | _ => 4 end.

Fixpoint code_size (cells : list Cell) : Z :=
  match cells with [] => 0 | c :: cells => cell_size c + code_size cells end.

(** The bytes, when the word of a label is known. *)
Definition cell_bytes (ref : Label -> Z) (c : Cell) : list Z :=
  match c with
  | CWord b arg => le_bytes 4 (uint 32 (Z.lor (Z.shiftl (uint 32 arg) BYTECODE_SHIFT) (BC b)))
  | C32 word => le_bytes 4 (uint 32 word)
  | C16 word => le_bytes 2 (uint 32 word)
  | CRef l => le_bytes 4 (uint 32 (ref l))
  end.

Definition code_bytes (ref : Label -> Z) (cells : list Cell) : list Z := flat_map (cell_bytes ref) cells.

Lemma length_cell_bytes ref c : Z.of_nat (length (cell_bytes ref c)) = cell_size c.
Proof. destruct c; unfold cell_bytes; rewrite length_le_bytes; done. Qed.

Lemma length_code_bytes ref cells : Z.of_nat (length (code_bytes ref cells)) = code_size cells.
Proof.
  induction cells as [|c cells IH]; [done|]. cbn [code_bytes flat_map code_size].
  rewrite length_app, Nat2Z.inj_add, length_cell_bytes. unfold code_bytes in IH. lia.
Qed.

Lemma cell_size_pos c : 2 <= cell_size c <= 4.
Proof. destruct c; cbn; lia. Qed.

Lemma code_size_app cells1 cells2 : code_size (cells1 ++ cells2) = code_size cells1 + code_size cells2.
Proof. induction cells1 as [|c cells IH]; [done|]. cbn [app code_size]. lia. Qed.

Lemma code_size_nonneg cells : 0 <= code_size cells.
Proof. induction cells as [|c cells IH]; [done|]. cbn. pose proof (cell_size_pos c). lia. Qed.

(** ** The layout of a program *)

Inductive Instr := IOp (op : Op) | IAdvanceGoTo (by_ : Z) (l : Label).

Fixpoint fuse (ops : list Op) : list Instr :=
  match ops with
  | OpAdvanceCurrentPosition by_ :: OpGoTo l :: ops => IAdvanceGoTo by_ l :: fuse ops
  | op :: ops => IOp op :: fuse ops
  | [] => []
  end.

Definition constant_cells (long short : Bytecode) (c : Z) : list Cell :=
  if MAX_FIRST_ARG <? c then [CWord long 0; C32 c] else [CWord short c].

Definition load_bytecode (check_bounds : bool) (characters : Z) : Bytecode :=
  if check_bounds then
    if characters =? 4 then LOAD_4_CURRENT_CHARS
    else if characters =? 2 then LOAD_2_CURRENT_CHARS else LOAD_CURRENT_CHAR
  else
    if characters =? 4 then LOAD_4_CURRENT_CHARS_UNCHECKED
    else if characters =? 2 then LOAD_2_CURRENT_CHARS_UNCHECKED else LOAD_CURRENT_CHAR_UNCHECKED.

Definition op_cells (op : Op) : list Cell :=
  match op with
  | OpBind l => []
  | OpPopRegister r => [CWord POP_REGISTER r]
  | OpPushRegister r => [CWord PUSH_REGISTER r]
  | OpWriteCurrentPositionToRegister r o => [CWord SET_REGISTER_TO_CP r; C32 o]
  | OpReadCurrentPositionFromRegister r => [CWord SET_CP_TO_REGISTER r]
  | OpWriteStackPointerToRegister r => [CWord SET_REGISTER_TO_SP r]
  | OpReadStackPointerFromRegister r => [CWord SET_SP_TO_REGISTER r]
  | OpSetCurrentPositionFromEnd n => [CWord SET_CURRENT_POSITION_FROM_END n]
  | OpSetRegister r n => [CWord SET_REGISTER r; C32 n]
  | OpAdvanceRegister r n => [CWord ADVANCE_REGISTER r; C32 n]
  | OpPopCurrentPosition => [CWord POP_CP 0]
  | OpPushCurrentPosition => [CWord PUSH_CP 0]
  | OpBacktrack => [CWord POP_BT 0]
  | OpGoTo l => [CWord GOTO 0; CRef l]
  | OpPushBacktrack l => [CWord PUSH_BT 0; CRef l]
  | OpSucceed => [CWord SUCCEED 0]
  | OpFail => [CWord FAIL 0]
  | OpAdvanceCurrentPosition n => [CWord ADVANCE_CP n]
  | OpCheckGreedyLoop l => [CWord CHECK_GREEDY 0; CRef l]
  | OpLoadCurrentCharacter o l check n => CWord (load_bytecode check n) o :: (if check then [CRef l] else [])
  | OpCheckCharacterLT c l => [CWord CHECK_LT c; CRef l]
  | OpCheckCharacterGT c l => [CWord CHECK_GT c; CRef l]
  | OpCheckCharacter c l => constant_cells CHECK_4_CHARS CHECK_CHAR c ++ [CRef l]
  | OpCheckAtStart l => [CWord CHECK_AT_START 0; CRef l]
  | OpCheckNotAtStart l => [CWord CHECK_NOT_AT_START 0; CRef l]
  | OpCheckNotCharacter c l => constant_cells CHECK_NOT_4_CHARS CHECK_NOT_CHAR c ++ [CRef l]
  | OpCheckCharacterAfterAnd c mask l => constant_cells AND_CHECK_4_CHARS AND_CHECK_CHAR c ++ [C32 mask; CRef l]
  | OpCheckNotCharacterAfterAnd c mask l =>
      constant_cells AND_CHECK_NOT_4_CHARS AND_CHECK_NOT_CHAR c ++ [C32 mask; CRef l]
  | OpCheckNotCharacterAfterMinusAnd c minus mask l => [CWord MINUS_AND_CHECK_NOT_CHAR c; C16 minus; C16 mask; CRef l]
  | OpCheckNotBackReference r l => [CWord CHECK_NOT_BACK_REF r; CRef l]
  | OpCheckNotBackReferenceIgnoreCase r l => [CWord CHECK_NOT_BACK_REF_NO_CASE r; CRef l]
  | OpCheckNotRegistersEqual r1 r2 l => [CWord CHECK_NOT_REGS_EQUAL r1; C32 r2; CRef l]
  | OpIfRegisterLT r n l => [CWord CHECK_REGISTER_LT r; C32 n; CRef l]
  | OpIfRegisterGE r n l => [CWord CHECK_REGISTER_GE r; C32 n; CRef l]
  | OpIfRegisterEqPos r l => [CWord CHECK_REGISTER_EQ_POS r; CRef l]
  end.

Definition instr_cells (i : Instr) : list Cell :=
  match i with
  | IOp op => op_cells op
  | IAdvanceGoTo by_ l => [CWord ADVANCE_CP_AND_GOTO by_; CRef l]
  end.

Definition layout (instrs : list Instr) : list Cell := flat_map instr_cells instrs.

(** Where the labels are bound, when the code starts at [base]. *)
Fixpoint resolve (base : Z) (instrs : list Instr) (env : Label -> option Z) : Label -> option Z :=
  match instrs with
  | [] => env
  | IOp (OpBind l) :: instrs => resolve base instrs (<[l := Some base]> env)
  | i :: instrs => resolve (base + code_size (instr_cells i)) instrs env
  end.

Definition bound_labels (ops : list Op) : list Label :=
  flat_map (fun op => match op with OpBind l => [l] | _ => [] end) ops.

Definition used_labels (cells : list Cell) : list Label :=
  flat_map (fun c => match c with CRef l => [l] | _ => [] end) cells.

(** What [GetCode] adds. *)
Definition program (ops : list Op) : list Op := ops ++ [OpBind None; OpBacktrack].

Definition program_cells (ops : list Op) : list Cell := layout (fuse (program ops)).

Definition program_labels (ops : list Op) : Label -> option Z := resolve 0 (fuse (program ops)) (fun _ => None).

(** A label is bound once, and every label that is used is bound; the code fits in an [int]. *)
Record well_formed (ops : list Op) : Prop := {
  bound_once : NoDup (bound_labels (program ops));
  used_bound : used_labels (program_cells ops) ⊆ bound_labels (program ops);
  code_fits : code_size (program_cells ops) < 2 ^ 31
}.

(** ** Links *)

(** The position of the last reference to [l]. *)
Fixpoint last_ref (l : Label) (base : Z) (cells : list Cell) : option Z :=
  match cells with
  | [] => None
  | c :: cells =>
      match last_ref l (base + cell_size c) cells with
      | Some q => Some q
      | None => if decide (c = CRef l) then Some base else None
      end
  end.

(** What the assembler stores behind [cells] for a reference to [l]. *)
Definition link (env : Label -> option Z) (cells : list Cell) (l : Label) : Z :=
  match env l with Some p => p | None => default 0 (last_ref l 0 cells) end.

Fixpoint linked_from (env : Label -> option Z) (before cells : list Cell) : list Z :=
  match cells with
  | [] => []
  | c :: cells => cell_bytes (link env before) c ++ linked_from env (before ++ [c]) cells
  end.

Definition linked_bytes (env : Label -> option Z) (cells : list Cell) : list Z := linked_from env [] cells.

Lemma last_ref_snoc l base cells c :
  last_ref l base (cells ++ [c]) =
    if decide (c = CRef l) then Some (base + code_size cells) else last_ref l base cells.
Proof.
  revert base. induction cells as [|c0 cells IH]; intros base; cbn [app last_ref code_size].
  { rewrite Z.add_0_r. by destruct (decide _). }
  rewrite IH. destruct (decide (c = CRef l)); [f_equal; lia|done].
Qed.

Lemma linked_from_app env before cells1 cells2 :
  linked_from env before (cells1 ++ cells2) = linked_from env before cells1 ++ linked_from env (before ++ cells1) cells2.
Proof.
  revert before. induction cells1 as [|c cells IH]; intros before; cbn [app linked_from].
  { by rewrite app_nil_r. }
  by rewrite IH, <- !app_assoc.
Qed.

Lemma linked_snoc env cells c : linked_bytes env (cells ++ [c]) = linked_bytes env cells ++ cell_bytes (link env cells) c.
Proof. unfold linked_bytes. rewrite linked_from_app. cbn [linked_from app]. by rewrite app_nil_r. Qed.

Lemma length_linked env cells : Z.of_nat (length (linked_bytes env cells)) = code_size cells.
Proof.
  induction cells as [|c cells IH] using rev_ind; [done|].
  rewrite linked_snoc, length_app, Nat2Z.inj_add, IH, length_cell_bytes, code_size_app. cbn. lia.
Qed.

Lemma last_ref_range l base cells q : last_ref l base cells = Some q -> base <= q < base + code_size cells.
Proof.
  revert base. induction cells as [|c cells IH]; intros base; cbn [last_ref code_size]; [done|].
  pose proof (cell_size_pos c). pose proof (code_size_nonneg cells).
  destruct (last_ref l _ cells) as [q'|] eqn:E; [|destruct (decide _); [|done]]; intros [= <-]; [apply IH in E|]; lia.
Qed.

(** A reference is not the first word: position 0 ends a chain of links. *)
Definition starts_well (cells : list Cell) : Prop := match cells with CRef _ :: _ => False | _ => True end.

Lemma last_ref_pos l cells q : starts_well cells -> last_ref l 0 cells = Some q -> 0 < q.
Proof.
  destruct cells as [|c cells]; [done|]. intros Hs. cbn [last_ref]. pose proof (cell_size_pos c).
  destruct (last_ref l _ cells) as [q'|] eqn:E.
  - intros [= <-]. apply last_ref_range in E. lia.
  - destruct (decide (c = CRef l)) as [->|]; [by cbn in Hs|done].
Qed.

Lemma starts_well_app cells1 cells2 : starts_well cells1 -> starts_well cells2 -> starts_well (cells1 ++ cells2).
Proof. by destruct cells1. Qed.

Lemma starts_well_app_inv cells1 cells2 : starts_well (cells1 ++ cells2) -> starts_well cells1.
Proof. by destruct cells1. Qed.

Lemma cell_bytes_ext f g c : (forall l, c = CRef l -> f l = g l) -> cell_bytes f c = cell_bytes g c.
Proof. intros H. destruct c; [done..|]. cbn. by rewrite (H l). Qed.

Lemma link_insert_ne (env : Label -> option Z) cells l l' p : l' <> l -> link (<[l := Some p]> env) cells l' = link env cells l'.
Proof. intros H. unfold link. by rewrite fn_lookup_insert_ne by done. Qed.

(** The loop of [Bind] turns every link of the chain into the position. *)
Lemma patch_spec (env : Label -> option Z) l pc cells rest fuel :
  starts_well cells -> env l = None -> code_size cells < 2 ^ 31 ->
  (Z.to_nat (default 0%Z (last_ref l 0%Z cells)) < fuel)%nat ->
  patch fuel (linked_bytes env cells ++ rest) (default 0 (last_ref l 0 cells)) pc
    = Some (linked_bytes (<[l := Some pc]> env) cells ++ rest).
Proof.
  intros Hs Henv. revert rest fuel. induction cells as [|c cells IH] using rev_ind; intros rest fuel Hsize Hfuel.
  { destruct fuel; [lia|]. done. }
  pose proof (starts_well_app_inv _ _ Hs) as Hs'. specialize (IH Hs').
  rewrite code_size_app in Hsize. cbn [code_size] in Hsize. pose proof (cell_size_pos c). pose proof (code_size_nonneg cells).
  rewrite !linked_snoc, <- !app_assoc. revert Hfuel. rewrite last_ref_snoc.
  destruct (decide (c = CRef l)) as [->|Hc]; intros Hfuel.
  - rewrite Z.add_0_l in *. cbn [default from_option id] in *. destruct fuel as [|fuel]; [lia|]. cbn [patch].
    assert (Hpos : 0 < code_size cells).
    { apply (last_ref_pos l (cells ++ [CRef l])); [done|]. rewrite last_ref_snoc. by rewrite decide_True by done. }
    rewrite (proj2 (Z.eqb_neq (code_size cells) 0)) by lia. cbn [cell_bytes].
    rewrite <- (length_linked env cells), Load32_app. cbn [mbind option_bind].
    rewrite write_app by (by rewrite !length_le_bytes). cbn [mbind option_bind].
    assert (Hold : link env cells l = default 0 (last_ref l 0 cells)) by (unfold link; by rewrite Henv).
    assert (Hnew : link (<[l := Some pc]> env) cells l = pc) by (unfold link; by rewrite fn_lookup_insert).
    rewrite Hold, Hnew.
    assert (Hprev : 0 <= default 0 (last_ref l 0 cells) < code_size cells).
    { destruct (last_ref l 0 cells) as [q|] eqn:E; cbn; [|lia]. apply last_ref_range in E. lia. }
    rewrite sint_uint, sint_id by (change (2 ^ (32 - 1)) with (2 ^ 31); lia).
    apply IH; lia.
  - rewrite IH by (done || lia). do 2 f_equal. f_equal. apply cell_bytes_ext. intros l' ->. symmetry. apply link_insert_ne. congruence.
Qed.

(** ** The assembler represents a row of cells *)

Definition label_word (env : Label -> option Z) (cells : list Cell) (l : Label) : Z :=
  match env l with
  | Some p => - p - 1
  | None => match last_ref l 0 cells with Some q => q + 1 | None => 0 end
  end.

Record repr (env : Label -> option Z) (cells : list Cell) (a : Assembler) : Prop := {
  repr_room : (4 <= length (buffer_ a))%nat;
  repr_pc : pc_ a = code_size cells;
  repr_fits : pc_ a <= Z.of_nat (length (buffer_ a));
  repr_bytes : take (Z.to_nat (pc_ a)) (buffer_ a) = linked_bytes env cells;
  repr_labels : forall l, label_pos_ a l = label_word env cells l;
  repr_bound : forall l p, env l = Some p -> 0 <= p
}.

Definition same_advance (a a' : Assembler) : Prop :=
  advance_current_start_ a' = advance_current_start_ a
  /\ advance_current_offset_ a' = advance_current_offset_ a
  /\ advance_current_end_ a' = advance_current_end_ a.

(** A method that appends cells, and binds nothing. *)
Definition emits (f : Assembler -> option Assembler) (cells : list Cell) : Prop :=
  forall env before a, repr env before a ->
  exists a', f a = Some a' /\ repr env (before ++ cells) a' /\ same_advance a a'.

Lemma emits_bind f g cells1 cells2 :
  emits f cells1 -> emits g cells2 -> emits (fun a => a ← f a; g a) (cells1 ++ cells2).
Proof.
  intros Hf Hg env before a Ha. destruct (Hf _ _ _ Ha) as (a1 & E1 & R1 & (? & ? & ?)).
  destruct (Hg _ _ _ R1) as (a2 & E2 & R2 & (? & ? & ?)). exists a2. rewrite E1. cbn [mbind option_bind].
  rewrite app_assoc. split; [done|]. split; [done|]. unfold same_advance. by intuition congruence.
Qed.

Section emit.
Context (raw : nat -> Z).

Lemma EmitBytes_spec n w a :
  (4 <= length (buffer_ a))%nat -> 0 <= pc_ a <= Z.of_nat (length (buffer_ a)) -> (n <= 4)%nat ->
  exists buffer, EmitBytes raw n w a = Some (with_pc (pc_ a + Z.of_nat n) (with_buffer buffer a))
  /\ (length (buffer_ a) <= length buffer)%nat /\ pc_ a + Z.of_nat n <= Z.of_nat (length buffer)
  /\ take (Z.to_nat (pc_ a + Z.of_nat n)) buffer = take (Z.to_nat (pc_ a)) (buffer_ a) ++ le_bytes n w.
Proof.
  intros Hroom Hpc Hn. unfold EmitBytes.
  assert (exists more, (if Z.of_nat (length (buffer_ a)) <=? pc_ a + (Z.of_nat n - 1) then Expand raw a else a)
      = with_buffer (buffer_ a ++ more) a /\ pc_ a + Z.of_nat n <= Z.of_nat (length (buffer_ a ++ more))) as (more & -> & Hfits).
  { destruct (Z.leb_spec (Z.of_nat (length (buffer_ a))) (pc_ a + (Z.of_nat n - 1))).
    - eexists. split; [reflexivity|]. rewrite length_app, length_map, length_seq. lia.
    - exists []. rewrite app_nil_r. split; [by destruct a|lia]. }
  remember (buffer_ a ++ more) as b eqn:Eb. cbn [buffer_ with_buffer pc_].
  assert (Hlen : (Z.to_nat (pc_ a) + n <= length b)%nat) by lia.
  assert (Hold : (length (buffer_ a) <= length b)%nat) by (subst b; rewrite length_app; lia).
  assert (Htake : take (Z.to_nat (pc_ a)) b = take (Z.to_nat (pc_ a)) (buffer_ a)).
  { subst b. rewrite take_app_le by lia. done. }
  set (pre := take (Z.to_nat (pc_ a)) b). set (old := take n (drop (Z.to_nat (pc_ a)) b)).
  set (post := drop n (drop (Z.to_nat (pc_ a)) b)).
  assert (Hb : b = pre ++ old ++ post) by (unfold pre, old, post; by rewrite !take_drop).
  assert (Hpre : Z.of_nat (length pre) = pc_ a) by (unfold pre; rewrite length_take; lia).
  assert (Hl : length old = n) by (unfold old; rewrite length_take, length_drop; lia).
  exists (pre ++ le_bytes n w ++ post). rewrite Hb at 1. rewrite <- Hpre at 1.
  rewrite write_app by (by rewrite length_le_bytes). cbn [mbind option_bind]. split; [done|].
  assert (length (pre ++ le_bytes n w ++ post) = length b) as ->.
  { rewrite Hb, !length_app, length_le_bytes. lia. }
  split; [done|]. split; [lia|].
  rewrite app_assoc. rewrite take_app_length'; [unfold pre; by rewrite Htake|]. rewrite length_app, length_le_bytes. lia.
Qed.

(** A cell that is not a reference. *)
Lemma emits_bytes n w c :
  (forall ref, cell_bytes ref c = le_bytes n w) -> (n <= 4)%nat -> (forall l, c <> CRef l) -> emits (EmitBytes raw n w) [c].
Proof.
  intros Hc Hn Hnot env before a [Hroom Hpc Hfits Hbytes Hlabels Hbound]. pose proof (code_size_nonneg before).
  destruct (EmitBytes_spec n w a) as (b & E & Hlen & Hfits' & Htake); [done|lia|done|].
  pose proof (length_cell_bytes (fun _ => 0) c) as Hsize. rewrite Hc, length_le_bytes in Hsize.
  eexists. split; [exact E|]. split; [|done]. split; cbn [buffer_ pc_ label_pos_ with_pc with_buffer]; try done.
  - lia.
  - rewrite code_size_app. cbn [code_size]. lia.
  - by rewrite Htake, Hbytes, linked_snoc, Hc.
  - intros l. rewrite Hlabels. unfold label_word. rewrite last_ref_snoc. by rewrite decide_False by apply Hnot.
Qed.

Lemma emits_word b arg : emits (Emit raw (BC b) arg) [CWord b arg].
Proof. by apply emits_bytes; [|lia|]. Qed.

Lemma emits_32 w : emits (Emit32 raw w) [C32 w].
Proof. by apply emits_bytes; [|lia|]. Qed.

Lemma emits_16 w : emits (Emit16 raw w) [C16 w].
Proof. by apply emits_bytes; [|lia|]. Qed.

Lemma pos_spec p : 0 <= p -> pos (- p - 1) = Some p /\ pos (p + 1) = Some p.
Proof.
  intros Hp. unfold pos. destruct (Z.ltb_spec (- p - 1) 0); [|lia]. destruct (Z.ltb_spec (p + 1) 0); [lia|].
  destruct (Z.ltb_spec 0 (p + 1)); [|lia]. split; f_equal; lia.
Qed.

Lemma emits_ref l : emits (EmitOrLink raw l) [CRef l].
Proof.
  intros env before a [Hroom Hpc Hfits Hbytes Hlabels Hbound]. pose proof (code_size_nonneg before).
  unfold EmitOrLink, Emit32. rewrite Hlabels. unfold label_word.
  assert (Hlast : forall q, last_ref l 0 before = Some q -> 0 <= q) by (intros q Hq; apply last_ref_range in Hq; lia).
  assert (Hother : forall l', l' <> l -> label_word env (before ++ [CRef l]) l' = label_word env before l').
  { intros l' Hne. unfold label_word. rewrite last_ref_snoc. by rewrite decide_False by congruence. }
  destruct (env l) as [p|] eqn:El.
  - pose proof (Hbound _ _ El) as Hp. unfold is_bound. rewrite (proj2 (Z.ltb_lt _ _)) by lia.
    rewrite (proj1 (pos_spec p Hp)). cbn [mbind option_bind].
    destruct (EmitBytes_spec 4 (uint 32 p) a) as (b & E & Hlen & Hfits' & Htake); [done|lia|done|].
    eexists. split; [exact E|]. split; [|done]. split; cbn [buffer_ pc_ label_pos_ with_pc with_buffer]; try done.
    + lia.
    + rewrite code_size_app. cbn. lia.
    + rewrite Htake, Hbytes, linked_snoc. unfold cell_bytes, link. by rewrite El.
    + intros l'. rewrite Hlabels. destruct (decide (l' = l)) as [->|]; [|by rewrite Hother].
      unfold label_word. by rewrite El.
  - assert (Hnb : is_bound (match last_ref l 0 before with Some q => q + 1 | None => 0 end) = false).
    { unfold is_bound. destruct (last_ref l 0 before) as [q|] eqn:Eq; [specialize (Hlast q eq_refl)|]; apply Z.ltb_ge; lia. }
    rewrite Hnb.
    assert (Hp : (if is_linked (match last_ref l 0 before with Some q => q + 1 | None => 0 end)
        then pos (match last_ref l 0 before with Some q => q + 1 | None => 0 end) else Some 0) = Some (link env before l)).
    { unfold link, is_linked. rewrite El. destruct (last_ref l 0 before) as [q|] eqn:Eq; [|done].
      specialize (Hlast q eq_refl). rewrite (proj2 (Z.ltb_lt _ _)) by lia. by apply (pos_spec q). }
    rewrite Hp. cbn [mbind option_bind].
    destruct (EmitBytes_spec 4 (uint 32 (link env before l)) (link_to l (pc_ a) a)) as (b & E & Hlen & Hfits' & Htake);
      cbn [link_to with_label buffer_ pc_] in *; [done|lia|done|].
    eexists. split; [exact E|]. split; [|done]. split; cbn [buffer_ pc_ label_pos_ with_pc with_buffer with_label link_to]; try done.
    + lia.
    + rewrite code_size_app. cbn. lia.
    + by rewrite Htake, Hbytes, linked_snoc.
    + intros l'. destruct (decide (l' = l)) as [->|].
      * rewrite fn_lookup_insert. unfold label_word. rewrite El, last_ref_snoc, decide_True by done. lia.
      * rewrite fn_lookup_insert_ne, Hother by done. apply Hlabels.
Qed.

Lemma emits_constant long short c : emits (emit_constant raw long short c) (constant_cells long short c).
Proof.
  unfold emit_constant, constant_cells. destruct (MAX_FIRST_ARG <? c); [|apply emits_word].
  apply (emits_bind (Emit raw (BC long) 0) (Emit32 raw c) [CWord long 0]); [apply emits_word|apply emits_32].
Qed.

Ltac emits_step :=
  match goal with
  | |- emits _ [CWord _ _] => apply emits_word
  | |- emits _ [C32 _] => apply emits_32
  | |- emits _ [C16 _] => apply emits_16
  | |- emits _ [CRef _] => apply emits_ref
  | |- emits _ (CWord ?b ?arg :: ?cells) => apply (emits_bind (Emit raw (BC b) arg) _ [CWord b arg] cells); [apply emits_word|]
  | |- emits _ (C32 ?w :: ?cells) => apply (emits_bind (Emit32 raw w) _ [C32 w] cells); [apply emits_32|]
  | |- emits _ (C16 ?w :: ?cells) => apply (emits_bind (Emit16 raw w) _ [C16 w] cells); [apply emits_16|]
  | |- emits _ (constant_cells ?long ?short ?c ++ ?cells) =>
      apply (emits_bind (emit_constant raw long short c) _ (constant_cells long short c) cells); [apply emits_constant|]
  end.

(** The methods that only emit. *)
Definition plain (op : Op) : Prop :=
  match op with OpBind _ | OpGoTo _ | OpAdvanceCurrentPosition _ => False | _ => True end.

Lemma emits_perform op : plain op -> emits (perform raw op) (op_cells op).
Proof.
  destruct op; cbn [plain perform op_cells]; intros Hop; try done;
    try (match goal with |- emits (?f _) _ => idtac | |- emits ?f _ => unfold f end; repeat emits_step; fail).
  all: try (repeat emits_step; fail).
  unfold LoadCurrentCharacter. fold (load_bytecode check_bounds characters).
  destruct check_bounds; [repeat emits_step|].
  intros env before a Ha. destruct (emits_word (load_bytecode false characters) cp_offset env before a Ha) as (a1 & -> & H1 & Hs).
  by exists a1.
Qed.

Lemma emits_goto l : emits (fun a => a ← Emit raw (BC GOTO) 0 a; EmitOrLink raw l a) [CWord GOTO 0; CRef l].
Proof. repeat emits_step. Qed.

Lemma emits_advance_goto by_ l :
  emits (fun a => a ← Emit raw (BC ADVANCE_CP_AND_GOTO) by_ a; EmitOrLink raw l a) [CWord ADVANCE_CP_AND_GOTO by_; CRef l].
Proof. repeat emits_step. Qed.

Lemma starts_well_instr i : starts_well (instr_cells i).
Proof.
  destruct i as [op|]; [|done]. destruct op; try done; cbn [instr_cells op_cells];
    unfold constant_cells; by destruct (MAX_FIRST_ARG <? c).
Qed.

Lemma starts_well_layout instrs : starts_well (layout instrs).
Proof. induction instrs as [|i instrs IH]; [done|]. apply starts_well_app; [apply starts_well_instr|done]. Qed.

Lemma Bind_repr l env cells a :
  repr env cells a -> starts_well cells -> env l = None -> code_size cells < 2 ^ 31 ->
  exists a', Bind l a = Some a' /\ repr (<[l := Some (code_size cells)]> env) cells a' /\ advance_current_end_ a' = kInvalidPC.
Proof.
  intros [Hroom Hpc Hfits Hbytes Hlabels Hbound] Hs Henv Hsize. pose proof (code_size_nonneg cells).
  unfold Bind. set (a1 := with_end kInvalidPC a). change (label_pos_ a1 l) with (label_pos_ a l).
  assert (exists b, (if is_linked (label_pos_ a l) then p ← pos (label_pos_ a l); b ← patch (S (Z.to_nat p)) (buffer_ a1) p (pc_ a1);
      Some (with_buffer b a1) else Some a1) = Some (with_buffer b a1)
    /\ length b = length (buffer_ a) /\ take (Z.to_nat (pc_ a)) b = linked_bytes (<[l := Some (pc_ a)]> env) cells) as (b & E & Hlen & Htake).
  { rewrite Hlabels. unfold label_word. rewrite Henv. unfold is_linked.
    change (buffer_ a1) with (buffer_ a). change (pc_ a1) with (pc_ a).
    pose proof (patch_spec env l (pc_ a) cells (drop (Z.to_nat (pc_ a)) (buffer_ a))) as Hpatch.
    rewrite <- Hbytes, take_drop in Hpatch.
    assert (Hres : forall b, Some b = Some (linked_bytes (<[l := Some (pc_ a)]> env) cells ++ drop (Z.to_nat (pc_ a)) (buffer_ a)) ->
        length b = length (buffer_ a) /\ take (Z.to_nat (pc_ a)) b = linked_bytes (<[l := Some (pc_ a)]> env) cells).
    { intros b [= ->]. pose proof (length_linked (<[l := Some (pc_ a)]> env) cells) as Hl.
      split; [rewrite length_app, length_drop; lia|]. apply take_app_length'. lia. }
    destruct (last_ref l 0 cells) as [q|] eqn:Eq; cbn [default from_option id] in Hpatch.
    - assert (0 < q) by (by apply (last_ref_pos l cells)). rewrite (proj2 (Z.ltb_lt _ _)) by lia.
      rewrite (proj2 (pos_spec q ltac:(lia))). cbn [mbind option_bind].
      rewrite Hpatch by (done || lia). cbn [mbind option_bind]. eexists. split; [done|]. by apply Hres.
    - exists (buffer_ a). split; [by destruct a|]. apply Hres. rewrite <- (Hpatch 1%nat) by (done || cbn; lia). done. }
  rewrite E. cbn [mbind option_bind]. eexists. split; [done|]. split; [|done].
  split; cbn [buffer_ pc_ label_pos_ with_pc with_buffer with_label bind_to with_end]; change (pc_ a1) with (pc_ a); try done.
  - lia.
  - lia.
  - by rewrite Htake, Hpc.
  - intros l'. unfold label_word. destruct (decide (l' = l)) as [->|].
    + rewrite !fn_lookup_insert. by rewrite Hpc.
    + rewrite !fn_lookup_insert_ne by done. apply Hlabels.
  - intros l' p. destruct (decide (l' = l)) as [->|].
    + rewrite fn_lookup_insert. intros [= <-]. lia.
    + rewrite fn_lookup_insert_ne by done. apply Hbound.
Qed.

(** ** A program is performed *)

Definition starts_with_goto (ops : list Op) : Prop := match ops with OpGoTo _ :: _ => True | _ => False end.

Definition unfused (op : Op) (ops : list Op) : Prop :=
  match op with OpAdvanceCurrentPosition _ => ~ starts_with_goto ops | _ => True end.

Lemma fuse_cons op ops : unfused op ops -> fuse (op :: ops) = IOp op :: fuse ops.
Proof. destruct op; intros H; try done. destruct ops as [|[] ops]; try done. by destruct H. Qed.

Lemma unfused_or op ops :
  unfused op ops \/ exists by_ l ops', op = OpAdvanceCurrentPosition by_ /\ ops = OpGoTo l :: ops'.
Proof. destruct op; try (by left). destruct ops as [|[] ops]; try (by left; intros []). right. eauto. Qed.

Lemma fuse_ind (P : list Op -> Prop) :
  P [] -> (forall op ops, unfused op ops -> P ops -> P (op :: ops)) ->
  (forall by_ l ops, P ops -> P (OpAdvanceCurrentPosition by_ :: OpGoTo l :: ops)) -> forall ops, P ops.
Proof.
  intros Hnil Hcons Hfused ops. remember (length ops) as n eqn:En. assert (length ops <= n)%nat as Hn by lia. clear En.
  revert ops Hn. induction n as [|n IH]; intros [|op ops] Hn; cbn in Hn; try done; [lia|].
  destruct (unfused_or op ops) as [Hun|(by_ & l & ops' & -> & ->)]; [apply Hcons; [done|]|apply Hfused]; apply IH; [lia|]. cbn in Hn. lia.
Qed.

Lemma resolve_cons base i instrs env :
  (forall l, i <> IOp (OpBind l)) -> resolve base (i :: instrs) env = resolve (base + code_size (instr_cells i)) instrs env.
Proof. intros H. destruct i as [op|]; [|done]. destruct op; try done. by destruct (H l). Qed.

Lemma layout_cons i instrs : layout (i :: instrs) = instr_cells i ++ layout instrs.
Proof. done. Qed.

Lemma bound_labels_cons op ops : (forall l, op <> OpBind l) -> bound_labels (op :: ops) = bound_labels ops.
Proof. intros H. destruct op; try done. by destruct (H l). Qed.

(** The state between two calls. *)
Record ready (env : Label -> option Z) (cells : list Cell) (ops : list Op) (a : Assembler) : Prop := {
  ready_repr : repr env cells a;
  ready_starts : starts_well cells;
  ready_end : advance_current_end_ a <= pc_ a;
  ready_merge : advance_current_end_ a = pc_ a -> ~ starts_with_goto ops;
  ready_once : NoDup (bound_labels ops);
  ready_free : forall l, l ∈ bound_labels ops -> env l = None;
  ready_fits : code_size (cells ++ layout (fuse ops)) < 2 ^ 31
}.

Lemma cells_nonempty op : (forall l, op <> OpBind l) -> 0 < code_size (op_cells op).
Proof.
  intros H. destruct op; try (by destruct (H l)); cbn [op_cells]; unfold constant_cells;
    try destruct (MAX_FIRST_ARG <? c); try destruct check_bounds; cbn; lia.
Qed.

(** One call that is not merged with the next. *)
Lemma perform_ready op ops env cells a :
  ready env cells (op :: ops) a -> unfused op ops ->
  exists a' env', perform raw op a = Some a' /\ ready env' (cells ++ op_cells op) ops a'
    /\ resolve (code_size cells) (IOp op :: fuse ops) env = resolve (code_size (cells ++ op_cells op)) (fuse ops) env'.
Proof.
  intros [Hrepr Hs Hend Hmerge Honce Hfree Hfits] Hun. rewrite fuse_cons, layout_cons, app_assoc in Hfits by done.
  cbn [instr_cells] in Hfits. pose proof (code_size_nonneg cells) as Hpos.
  assert (Hs' : starts_well (cells ++ op_cells op)) by (apply starts_well_app; [done|apply (starts_well_instr (IOp op))]).
  assert (Hplain : forall f, emits f (op_cells op) -> (forall l, op <> OpBind l) ->
    perform raw op a = f a ->
    exists a' env', perform raw op a = Some a' /\ ready env' (cells ++ op_cells op) ops a'
    /\ resolve (code_size cells) (IOp op :: fuse ops) env = resolve (code_size (cells ++ op_cells op)) (fuse ops) env').
  { intros f Hf Hnb ->. destruct (Hf _ _ _ Hrepr) as (a' & -> & Hrepr' & _ & _ & Hsame).
    exists a', env. split; [done|]. rewrite bound_labels_cons in * by done. pose proof (cells_nonempty op Hnb).
    assert (advance_current_end_ a' < pc_ a').
    { rewrite Hsame, (repr_pc _ _ _ Hrepr'), code_size_app. rewrite (repr_pc _ _ _ Hrepr) in Hend. lia. }
    split; [|rewrite resolve_cons by congruence; by rewrite code_size_app].
    split; try done; lia. }
  destruct op.
  1: { destruct (Bind_repr l env cells a) as (a' & E & Hrepr' & Hend'); [done|done|..].
    { apply Hfree. cbn. by left. }
    { rewrite code_size_app in Hfits. cbn [op_cells] in Hfits. rewrite app_nil_r in Hfits. pose proof (code_size_nonneg (layout (fuse ops))). lia. }
    cbn [op_cells]. rewrite app_nil_r. exists a', (<[l := Some (code_size cells)]> env). split; [exact E|]. split; [|done].
    cbn in Honce. apply NoDup_cons in Honce as [Hnotin Honce].
    assert (0 <= pc_ a') by (rewrite (repr_pc _ _ _ Hrepr'); lia).
    split; try done.
    - rewrite Hend'. unfold kInvalidPC. lia.
    - rewrite Hend'. unfold kInvalidPC. lia.
    - intros l' Hl'. rewrite fn_lookup_insert_ne by (intros ->; done). apply Hfree. cbn. by right.
    - cbn [op_cells] in Hfits. by rewrite app_nil_r in Hfits. }
  all: try (eapply Hplain; [apply emits_perform; exact I|done|done]).
  - eapply Hplain; [apply emits_goto|done|]. cbn [perform]. unfold GoTo.
    destruct (Z.eqb_spec (advance_current_end_ a) (pc_ a)) as [E|]; [|done]. by destruct (Hmerge E).
  - cbn [perform]. unfold AdvanceCurrentPosition. set (a0 := with_advance (pc_ a) by_ a).
    assert (Hrepr0 : repr env cells a0) by (by destruct Hrepr).
    destruct (emits_word ADVANCE_CP by_ env cells a0 Hrepr0) as (a1 & -> & Hrepr1 & Hstart & Hoff & _). cbn [mbind option_bind].
    exists (with_end (pc_ a1) a1), env. split; [done|]. split; [|rewrite resolve_cons by done; by rewrite code_size_app].
    split; try done. by destruct Hrepr1.
Qed.

(** [AdvanceCurrentPosition] and [GoTo]: the second call replaces the first. *)
Lemma perform_advance_goto by_ l ops env cells a :
  ready env cells (OpAdvanceCurrentPosition by_ :: OpGoTo l :: ops) a ->
  exists a1 a', perform raw (OpAdvanceCurrentPosition by_) a = Some a1 /\ perform raw (OpGoTo l) a1 = Some a'
    /\ ready env (cells ++ instr_cells (IAdvanceGoTo by_ l)) ops a'.
Proof.
  intros [Hrepr Hs Hend Hmerge Honce Hfree Hfits]. cbn [perform]. unfold AdvanceCurrentPosition.
  set (a0 := with_advance (pc_ a) by_ a). pose proof (code_size_nonneg cells) as Hpos.
  assert (Hrepr0 : repr env cells a0) by (by destruct Hrepr).
  destruct (emits_word ADVANCE_CP by_ env cells a0 Hrepr0) as (a1 & -> & Hrepr1 & Hstart & Hoff & _). cbn [mbind option_bind].
  exists (with_end (pc_ a1) a1). unfold GoTo. cbn [advance_current_end_ with_end pc_ advance_current_start_ advance_current_offset_].
  rewrite Z.eqb_refl, Hstart. change (advance_current_start_ a0) with (pc_ a).
  change (advance_current_offset_ (with_pc (pc_ a) (with_end (pc_ a1) a1))) with (advance_current_offset_ a1).
  rewrite Hoff. change (advance_current_offset_ a0) with by_.
  assert (Hrepr2 : repr env cells (with_pc (pc_ a) (with_end (pc_ a1) a1))).
  { destruct Hrepr1 as [Hroom1 Hpc1 Hfits1 Hbytes1 Hlabels1 Hbound1]. destruct Hrepr as [Hroom Hpc Hfits0 Hbytes Hlabels Hbound].
    rewrite code_size_app in Hpc1. cbn in Hpc1. split; cbn [buffer_ pc_ label_pos_ with_pc with_end]; try done; [lia| |].
    - apply (f_equal (take (Z.to_nat (pc_ a)))) in Hbytes1. rewrite linked_snoc, take_take in Hbytes1.
      rewrite Nat.min_l in Hbytes1 by lia. rewrite Hbytes1. apply take_app_length'. pose proof (length_linked env cells). lia.
    - intros l'. rewrite Hlabels1. unfold label_word. rewrite last_ref_snoc. by rewrite decide_False by done. }
  destruct (emits_advance_goto by_ l _ _ _ Hrepr2) as (a2 & E & Hrepr3 & _).
  cbn [fuse] in Hfits. rewrite layout_cons, app_assoc in Hfits. pose proof (repr_pc _ _ _ Hrepr3) as Hpc3.
  rewrite code_size_app in Hpc3. cbn in Hpc3.
  exists (with_end kInvalidPC a2). split; [done|]. split.
  - destruct (Emit raw (BC ADVANCE_CP_AND_GOTO) by_ _) as [a3|]; [|done]. cbn [mbind option_bind] in *. by rewrite E.
  - split; try done.
    + by destruct Hrepr3.
    + by apply starts_well_app.
    + cbn. unfold kInvalidPC. lia.
    + cbn. unfold kInvalidPC. lia.
Qed.

Lemma perform_all_repr ops env cells a :
  ready env cells ops a ->
  exists a', perform_all raw ops a = Some a' /\ repr (resolve (code_size cells) (fuse ops) env) (cells ++ layout (fuse ops)) a'.
Proof.
  revert env cells a. induction ops as [|op ops Hun IH|by_ l ops' IH] using fuse_ind; intros env cells a Hready.
  - exists a. split; [done|]. cbn. rewrite app_nil_r. by destruct Hready.
  - destruct (perform_ready op ops env cells a Hready Hun) as (a1 & env1 & E1 & Hready1 & Hres).
    destruct (IH _ _ _ Hready1) as (a' & E & Hrepr'). exists a'. cbn [perform_all]. rewrite E1.
    rewrite fuse_cons, layout_cons, app_assoc, Hres by done. done.
  - destruct (perform_advance_goto by_ l ops' env cells a Hready) as (a1 & a2 & E1 & E2 & Hready2).
    destruct (IH _ _ _ Hready2) as (a' & E & Hrepr'). exists a'. cbn [perform_all].
    rewrite E1. cbn [mbind option_bind]. rewrite E2. cbn [mbind option_bind]. split; [done|].
    cbn [fuse]. rewrite layout_cons, app_assoc, resolve_cons by done. by rewrite code_size_app in Hrepr'.
Qed.
End emit.

(** ** Labels *)

Definition bound_instrs (instrs : list Instr) : list Label :=
  flat_map (fun i => match i with IOp (OpBind l) => [l] | _ => [] end) instrs.

Lemma bound_fuse ops : bound_instrs (fuse ops) = bound_labels ops.
Proof.
  induction ops as [|op ops Hun IH|by_ l ops IH] using fuse_ind; [done| |done].
  rewrite fuse_cons by done. unfold bound_instrs, bound_labels in *. cbn [flat_map]. rewrite <- IH. by destruct op.
Qed.

(** Code is fused on both sides of a call that is not a [GoTo]. *)
Lemma fuse_app pre op ops : ~ starts_with_goto (op :: ops) -> fuse (pre ++ op :: ops) = fuse pre ++ fuse (op :: ops).
Proof.
  intros Hop. induction pre as [|op' pre Hun IH|by_ l pre IH] using fuse_ind; [done| |].
  - cbn [app]. rewrite fuse_cons.
    + by rewrite (fuse_cons op' pre), IH by done.
    + destruct op'; try done. by destruct pre as [|[] pre].
  - cbn [app fuse]. by rewrite IH.
Qed.

Lemma layout_app instrs1 instrs2 : layout (instrs1 ++ instrs2) = layout instrs1 ++ layout instrs2.
Proof. apply flat_map_app. Qed.

Lemma resolve_free base instrs env l : l ∉ bound_instrs instrs -> resolve base instrs env l = env l.
Proof.
  revert base env. induction instrs as [|i instrs IH]; intros base env Hl; [done|].
  destruct i as [op|]; [|by apply IH]. destruct op; try (by apply IH). cbn in Hl. apply not_elem_of_cons in Hl as [Hne Hl].
  cbn [resolve]. rewrite IH by done. by rewrite fn_lookup_insert_ne by done.
Qed.

Lemma resolve_app base instrs1 instrs2 env :
  resolve base (instrs1 ++ instrs2) env = resolve (base + code_size (layout instrs1)) instrs2 (resolve base instrs1 env).
Proof.
  revert base env. induction instrs1 as [|i instrs1 IH]; intros base env; cbn [app]; [cbn; by rewrite Z.add_0_r|].
  rewrite layout_cons, code_size_app, Z.add_assoc.
  destruct i as [op|]; [|rewrite !resolve_cons by done; apply IH].
  destruct op; try (rewrite !resolve_cons by done; apply IH). cbn [resolve]. rewrite IH. do 2 f_equal. cbn. lia.
Qed.

(** A label stands for the size of the code in front of the call that binds it. *)
Lemma program_labels_bind ops pre l post :
  well_formed ops -> program ops = pre ++ OpBind l :: post ->
  program_labels ops l = Some (code_size (layout (fuse pre))).
Proof.
  intros [Honce _ _] E. unfold program_labels. rewrite E in *. rewrite fuse_app, resolve_app by (intros []).
  rewrite fuse_cons by done. cbn [resolve]. rewrite resolve_free; [by rewrite fn_lookup_insert|].
  rewrite bound_fuse. unfold bound_labels in Honce. rewrite flat_map_app in Honce. apply NoDup_app in Honce as (_ & _ & Honce).
  by apply NoDup_cons in Honce as [H _].
Qed.

Lemma bound_split ops l : l ∈ bound_labels ops -> exists pre post, ops = pre ++ OpBind l :: post.
Proof.
  induction ops as [|op ops IH]; intros H; [by apply not_elem_of_nil in H|].
  unfold bound_labels in H. cbn [flat_map] in H. apply elem_of_app in H as [H|H].
  - destruct op; try (by apply not_elem_of_nil in H). apply list_elem_of_singleton in H as ->. by exists [], ops.
  - destruct (IH H) as (pre & post & ->). by exists (op :: pre), post.
Qed.

Lemma program_labels_used ops l : well_formed ops -> l ∈ used_labels (program_cells ops) -> is_Some (program_labels ops l).
Proof.
  intros Hwf Hl. apply (used_bound _ Hwf), bound_split in Hl as (pre & post & E).
  rewrite (program_labels_bind ops pre l post); eauto.
Qed.

Lemma linked_resolved env cells :
  (forall l, l ∈ used_labels cells -> is_Some (env l)) -> linked_bytes env cells = code_bytes (fun l => default 0 (env l)) cells.
Proof.
  induction cells as [|c cells IH] using rev_ind; intros H; [done|].
  rewrite linked_snoc. unfold code_bytes. rewrite flat_map_app. fold (code_bytes (fun l => default 0 (env l)) cells).
  unfold used_labels in H. setoid_rewrite flat_map_app in H. rewrite IH by (intros l Hl; apply H, elem_of_app; by left).
  f_equal. cbn [flat_map]. rewrite app_nil_r. apply cell_bytes_ext. intros l ->. unfold link.
  destruct (H l) as [p ->]; [|done]. apply elem_of_app. right. cbn. by left.
Qed.

(** ** The code *)

Definition program_ref (ops : list Op) (l : Label) : Z := default 0 (program_labels ops l).

Definition program_bytes (ops : list Op) : list Z := code_bytes (program_ref ops) (program_cells ops).

(** What the interpreter relies on. *)
Lemma assemble_bytes raw buffer ops :
  (4 <= length buffer)%nat -> well_formed ops -> assemble raw buffer ops = Some (program_bytes ops).
Proof.
  intros Hroom Hwf. destruct (perform_all_repr raw (program ops) (fun _ => None) [] (RegExpMacroAssemblerIrregexp buffer))
    as (a & E & Hrepr).
  { split; cbn; try done; try (intros; unfold kInvalidPC in *; lia); [|apply (bound_once _ Hwf)|apply (code_fits _ Hwf)].
    split; cbn; try done. lia. }
  unfold assemble. unfold program in E. rewrite perform_all_app in E.
  destruct (perform_all raw ops _) as [a1|]; [|done]. cbn [mbind option_bind] in *. unfold GetCode. cbn [perform_all perform] in E.
  destruct (Bind None a1) as [a2|]; [|done]. cbn [mbind option_bind] in *. unfold Backtrack in E.
  destruct (Emit raw (BC POP_BT) 0 a2) as [a3|]; [|done]. cbn [mbind option_bind] in *. injection E as ->.
  f_equal. unfold Copy. rewrite (repr_bytes _ _ _ Hrepr). cbn [app code_size].
  apply linked_resolved. intros l Hl. by apply program_labels_used.
Qed.

(** C39: The code that the assembler produces, for a program that binds every label it uses once and whatever
    memory holds: the instructions in a row, [AdvanceCurrentPosition] merged
    with a [GoTo] behind it, and every reference the position of its label, the size of the code in front of the
    call that binds it; the chains of links through unresolved references, that go through
    the buffer and survive its growth, leave no trace. *)
Theorem assemble_correct raw buffer ops :
  (4 <= length buffer)%nat -> well_formed ops ->
  exists position, assemble raw buffer ops = Some (code_bytes position (layout (fuse (program ops))))
  /\ (forall pre l post, program ops = pre ++ OpBind l :: post -> position l = code_size (layout (fuse pre))).
Proof.
  intros Hroom Hwf. exists (program_ref ops). split; [by apply assemble_bytes|].
  intros pre l post E. unfold program_ref. by rewrite (program_labels_bind ops pre l post).
Qed.

Definition sample_program : list Op :=
  [OpPushBacktrack (Some 1%nat); OpCheckCharacter 97 (Some 0%nat); OpAdvanceCurrentPosition 1; OpGoTo (Some 0%nat);
   OpBind (Some 1%nat); OpFail; OpBind (Some 0%nat); OpCheckCharacter 0x1000000 (Some 1%nat); OpGoTo None].

Lemma sample_well_formed : well_formed sample_program.
Proof. split; [apply (bool_decide_unpack _); vm_compute; exact I..|reflexivity]. Qed.

Lemma assemble_correct_witness :
  exists position, assemble (fun i => Z.of_nat i) (replicate 4 0) sample_program = Some (code_bytes position (layout (fuse (program sample_program))))
  /\ (forall pre l post, program sample_program = pre ++ OpBind l :: post -> position l = code_size (layout (fuse pre))).
Proof. apply (assemble_correct (fun i => Z.of_nat i) (replicate 4 0) sample_program); [cbn; lia|apply sample_well_formed]. Defined.

Lemma sample_code :
  assemble (fun _ => 0) (replicate 1024 0) sample_program
  = Some (program_bytes sample_program).
Proof. vm_compute. reflexivity. Qed.
