(* ===== verification/IrregexpInterpreter.v ===== *)
(** * IrregexpInterpreter: running the bytecodes of a regular expression

    Models [RawMatch], [BacktrackStack] and [IrregexpInterpreter::Match] of
    src/interpreter-irregexp.cc.  The program counter is an offset from [code_base] and the
    stack pointer an index into the array of the stack.  An access outside of an array, and
    [UNREACHABLE], are [None]; arithmetic on [int] wraps around. *)

From S2P Require Import Prelude UnicodeCache CharacterRange CaseEquivalents Irregexp.
Local Open Scope Z_scope.

(** The cache of [unibrow::Mapping<unibrow::Ecma262Canonicalize>] *)
Abbreviation Cache := (list MappingEntry).

Definition kBacktrackStackSize : Z := 10000.

(** What the interpreter uses of the isolate. *)
Record Isolate := MkIsolate {
  irregexp_interpreter_backtrack_stack_cache : option (list Z);
  interp_canonicalize_mapping : Cache
}.

(** The constructor takes the stack out of the cache; a new array holds what memory holds. *)
Definition BacktrackStack (raw : list Z) (isolate : Isolate) : list Z * Isolate :=
  match irregexp_interpreter_backtrack_stack_cache isolate with
  | Some data => (data, MkIsolate None (interp_canonicalize_mapping isolate))
  | None => (raw, isolate)
  end.

(** The destructor puts it back. *)
Definition BacktrackStack_dispose (data : list Z) (isolate : Isolate) : Isolate :=
  match irregexp_interpreter_backtrack_stack_cache isolate with
  | None => MkIsolate (Some data) (interp_canonicalize_mapping isolate)
  | Some _ => isolate
  end.

(** The variables of [RawMatch]. *)
Record Machine := MkMachine {
  pc : Z;
  current : Z;
  current_char : Z;
  registers : list Z;
  backtrack_stack : list Z;
  backtrack_sp : Z;
  backtrack_stack_space : Z;
  canonicalize : Cache
}.

Definition set_pc (p : Z) (m : Machine) : Machine :=
  MkMachine p (current m) (current_char m) (registers m) (backtrack_stack m) (backtrack_sp m) (backtrack_stack_space m) (canonicalize m).
Definition set_current (c : Z) (m : Machine) : Machine :=
  MkMachine (pc m) c (current_char m) (registers m) (backtrack_stack m) (backtrack_sp m) (backtrack_stack_space m) (canonicalize m).
Definition set_current_char (c : Z) (m : Machine) : Machine :=
  MkMachine (pc m) (current m) c (registers m) (backtrack_stack m) (backtrack_sp m) (backtrack_stack_space m) (canonicalize m).
Definition set_registers (r : list Z) (m : Machine) : Machine :=
  MkMachine (pc m) (current m) (current_char m) r (backtrack_stack m) (backtrack_sp m) (backtrack_stack_space m) (canonicalize m).
Definition set_stack (data : list Z) (sp space : Z) (m : Machine) : Machine :=
  MkMachine (pc m) (current m) (current_char m) (registers m) data sp space (canonicalize m).
Definition set_canonicalize (c : Cache) (m : Machine) : Machine :=
  MkMachine (pc m) (current m) (current_char m) (registers m) (backtrack_stack m) (backtrack_sp m) (backtrack_stack_space m) c.

(** The loop goes on, or [RawMatch] returns. *)
Inductive Outcome := Continue (m : Machine) | Return (result : bool) (m : Machine).

(** ** Arrays and [int] *)

Definition plus (a b : Z) : Z := sint 32 (a + b).

Definition nth_of (l : list Z) (i : Z) : option Z := if 0 <=? i then l !! Z.to_nat i else None.

Definition store (l : list Z) (i v : Z) : option (list Z) :=
  if (0 <=? i) && (i <? Z.of_nat (length l)) then Some (<[Z.to_nat i := v]> l) else None.

(** ** The subject *)

Section RawMatch.
(** [Char] is [char] for an ASCII subject and [uc16] for the others. *)
Context (is_ascii : bool) (code_base : list Z) (subject : list Z).

Definition kBitsPerChar : Z := if is_ascii then 8 else 16.

Definition subject_length : Z := Z.of_nat (length subject).

Definition load_1 (pos : Z) : option Z := nth_of subject pos.

Definition load_2 (pos : Z) : option Z :=
  next ← nth_of subject (plus pos 1);
  c ← nth_of subject pos;
  Some (uint 32 (Z.lor c (Z.shiftl next kBitsPerChar))).

Definition load_4 (pos : Z) : option Z :=
  next1 ← nth_of subject (plus pos 1);
  next2 ← nth_of subject (plus pos 2);
  next3 ← nth_of subject (plus pos 3);
  c ← nth_of subject pos;
  Some (uint 32 (Z.lor (Z.lor (Z.lor c (Z.shiftl next1 8)) (Z.shiftl next2 16)) (Z.shiftl next3 24))).

(** The loop of [CHECK_NOT_BACK_REF]. *)
Fixpoint same_chars (from current : Z) (len : nat) : option bool :=
  match len with
  | O => Some true
  | S len =>
      c1 ← nth_of subject from;
      c2 ← nth_of subject current;
      if c1 =? c2 then same_chars (plus from 1) (plus current 1) len else Some false
  end.

(** [BackRefMatchesNoCase], by the type of the subject. *)
Definition same_chars_no_case (from current : Z) (len : nat) (cache : Cache) : option (bool * Cache) :=
  if (from <? 0) || (current <? 0) then None
  else if is_ascii then
    same ← BackRefMatchesNoCase_ascii (Z.to_nat from) (Z.to_nat current) len subject; Some (same, cache)
  else BackRefMatchesNoCase cache (Z.to_nat from) (Z.to_nat current) len subject.

(** ** Instructions *)

(** [pc += BC_##name##_LENGTH] *)
Definition next (b : Bytecode) (m : Machine) : option Outcome := Some (Continue (set_pc (pc m + BC_LENGTH b) m)).

(** [pc = code_base + Load32Aligned(pc + offset)] *)
Definition jump (offset : Z) (m : Machine) : option Outcome :=
  target ← Load32Aligned code_base (pc m + offset); Some (Continue (set_pc target m)).

(** The value is computed after the check of the space. *)
Definition push (b : Bytecode) (v : option Z) (m : Machine) : option Outcome :=
  let space := backtrack_stack_space m - 1 in
  if space <? 0 then Some (Return false (set_stack (backtrack_stack m) (backtrack_sp m) space m))
  else
    v ← v;
    data ← store (backtrack_stack m) (backtrack_sp m) v;
    next b (set_stack data (backtrack_sp m + 1) space m).

Definition pop (m : Machine) : option (Z * Machine) :=
  let sp := backtrack_sp m - 1 in
  v ← nth_of (backtrack_stack m) sp;
  Some (v, set_stack (backtrack_stack m) sp (backtrack_stack_space m + 1) m).

Definition set_register (r v : Z) (m : Machine) : option Machine :=
  regs ← store (registers m) r v; Some (set_registers regs m).

(** The bodies of the four loads: [n] characters at [pos]. *)
Definition load_checked (b : Bytecode) (beyond : bool) (c : option Z) (m : Machine) : option Outcome :=
  if beyond then jump 4 m else c ← c; next b (set_current_char c m).

Definition load_unchecked (b : Bytecode) (c : option Z) (m : Machine) : option Outcome :=
  c ← c; next b (set_current_char c m).

(** The operands of an instruction are behind it. *)
Definition load (offset : Z) (m : Machine) : option Z := Load32Aligned code_base (pc m + offset).

Definition branch (b : bool) (offset : Z) (otherwise : Bytecode) (m : Machine) : option Outcome :=
  if b then jump offset m else next otherwise m.

(** The stack, the registers, the position and jumps. *)
Definition step_stack (bytecode : Bytecode) (arg : Z) (m : Machine) : option Outcome :=
  match bytecode with
  | PUSH_CP => push PUSH_CP (Some (current m)) m
  | PUSH_BT => push PUSH_BT (load 4 m) m
  | PUSH_REGISTER => push PUSH_REGISTER (nth_of (registers m) arg) m
  | SET_REGISTER => v ← load 4 m; m ← set_register arg v m; next SET_REGISTER m
  | ADVANCE_REGISTER =>
      v ← load 4 m; old ← nth_of (registers m) arg; m ← set_register arg (plus old v) m; next ADVANCE_REGISTER m
  | SET_REGISTER_TO_CP => v ← load 4 m; m ← set_register arg (plus (current m) v) m; next SET_REGISTER_TO_CP m
  | SET_CP_TO_REGISTER => v ← nth_of (registers m) arg; next SET_CP_TO_REGISTER (set_current v m)
  | SET_REGISTER_TO_SP => m ← set_register arg (backtrack_sp m) m; next SET_REGISTER_TO_SP m
  | SET_SP_TO_REGISTER =>
      v ← nth_of (registers m) arg;
      next SET_SP_TO_REGISTER (set_stack (backtrack_stack m) v (kBacktrackStackSize - v) m)
  | POP_CP => '(v, m) ← pop m; next POP_CP (set_current v m)
  | POP_BT => '(v, m) ← pop m; Some (Continue (set_pc v m))
  | POP_REGISTER => '(v, m) ← pop m; m ← set_register arg v m; next POP_REGISTER m
  | FAIL => Some (Return false m)
  | SUCCEED => Some (Return true m)
  | ADVANCE_CP => next ADVANCE_CP (set_current (plus (current m) arg) m)
  | GOTO => jump 4 m
  | ADVANCE_CP_AND_GOTO => jump 4 (set_current (plus (current m) arg) m)
  | CHECK_GREEDY =>
      top ← nth_of (backtrack_stack m) (backtrack_sp m - 1);
      if current m =? top
      then jump 4 (set_stack (backtrack_stack m) (backtrack_sp m - 1) (backtrack_stack_space m + 1) m)
      else next CHECK_GREEDY m
  | _ => None
  end.

(** Loading characters. *)
Definition step_load (bytecode : Bytecode) (arg : Z) (m : Machine) : option Outcome :=
  match bytecode with
  | LOAD_CURRENT_CHAR =>
      let pos := plus (current m) arg in load_checked LOAD_CURRENT_CHAR (subject_length <=? pos) (load_1 pos) m
  | LOAD_CURRENT_CHAR_UNCHECKED => load_unchecked LOAD_CURRENT_CHAR_UNCHECKED (load_1 (plus (current m) arg)) m
  | LOAD_2_CURRENT_CHARS =>
      let pos := plus (current m) arg in load_checked LOAD_2_CURRENT_CHARS (subject_length <? plus pos 2) (load_2 pos) m
  | LOAD_2_CURRENT_CHARS_UNCHECKED => load_unchecked LOAD_2_CURRENT_CHARS_UNCHECKED (load_2 (plus (current m) arg)) m
  | LOAD_4_CURRENT_CHARS =>
      let pos := plus (current m) arg in load_checked LOAD_4_CURRENT_CHARS (subject_length <? plus pos 4) (load_4 pos) m
  | LOAD_4_CURRENT_CHARS_UNCHECKED => load_unchecked LOAD_4_CURRENT_CHARS_UNCHECKED (load_4 (plus (current m) arg)) m
  | _ => None
  end.

(** Comparing the current character and registers. *)
Definition step_check (bytecode : Bytecode) (arg : Z) (m : Machine) : option Outcome :=
  match bytecode with
  | CHECK_4_CHARS => c ← load 4 m; branch (uint 32 c =? current_char m) 8 CHECK_4_CHARS m
  | CHECK_CHAR => branch (uint 32 arg =? current_char m) 4 CHECK_CHAR m
  | CHECK_NOT_4_CHARS => c ← load 4 m; branch (negb (uint 32 c =? current_char m)) 8 CHECK_NOT_4_CHARS m
  | CHECK_NOT_CHAR => branch (negb (uint 32 arg =? current_char m)) 4 CHECK_NOT_CHAR m
  | AND_CHECK_4_CHARS =>
      c ← load 4 m; mask ← load 8 m;
      branch (uint 32 c =? Z.land (current_char m) (uint 32 mask)) 12 AND_CHECK_4_CHARS m
  | AND_CHECK_CHAR =>
      mask ← load 4 m; branch (uint 32 arg =? Z.land (current_char m) (uint 32 mask)) 8 AND_CHECK_CHAR m
  | AND_CHECK_NOT_4_CHARS =>
      c ← load 4 m; mask ← load 8 m;
      branch (negb (uint 32 c =? Z.land (current_char m) (uint 32 mask))) 12 AND_CHECK_NOT_4_CHARS m
  | AND_CHECK_NOT_CHAR =>
      mask ← load 4 m; branch (negb (uint 32 arg =? Z.land (current_char m) (uint 32 mask))) 8 AND_CHECK_NOT_CHAR m
  | MINUS_AND_CHECK_NOT_CHAR =>
      minus ← Load16Aligned code_base (pc m + 4);
      mask ← Load16Aligned code_base (pc m + 6);
      branch (negb (uint 32 arg =? Z.land (uint 32 (current_char m - minus)) mask)) 8 MINUS_AND_CHECK_NOT_CHAR m
  | CHECK_LT => branch (current_char m <? uint 32 arg) 4 CHECK_LT m
  | CHECK_GT => branch (uint 32 arg <? current_char m) 4 CHECK_GT m
  | CHECK_REGISTER_LT => r ← nth_of (registers m) arg; v ← load 4 m; branch (r <? v) 8 CHECK_REGISTER_LT m
  | CHECK_REGISTER_GE => r ← nth_of (registers m) arg; v ← load 4 m; branch (v <=? r) 8 CHECK_REGISTER_GE m
  | CHECK_REGISTER_EQ_POS => r ← nth_of (registers m) arg; branch (r =? current m) 4 CHECK_REGISTER_EQ_POS m
  | _ => None
  end.

(** Tables of characters in the code. *)
Definition step_lookup (bytecode : Bytecode) (arg : Z) (m : Machine) : option Outcome :=
  match bytecode with
  | LOOKUP_MAP1 =>
      let index := sint 32 (current_char m - arg) in
      base ← load 4 m;
      map ← nth_of code_base (base + Z.shiftr index 3);
      branch (Z.land (Z.shiftr map (Z.land index 7)) 1 =? 0) 8 LOOKUP_MAP1 m
  | LOOKUP_MAP2 =>
      let index := sint 32 (Z.shiftl (current_char m - arg) 1) in
      base ← load 3 m;
      map ← nth_of code_base (base + Z.shiftr index 3);
      let map := Z.land (Z.shiftr map (Z.land index 7)) 3 in
      if map <? 2 then if map =? 0 then jump 8 m else jump 12 m
      else if map =? 2 then jump 16 m else jump 20 m
  | LOOKUP_MAP8 =>
      let index := sint 32 (current_char m - arg) in
      base ← load 4 m;
      map ← nth_of code_base (base + index);
      table ← load 8 m;
      target ← Load32Aligned code_base (table + Z.shiftl map 2);
      Some (Continue (set_pc target m))
  | LOOKUP_HI_MAP8 =>
      let index := sint 32 (Z.shiftr (current_char m) 8 - arg) in
      base ← load 4 m;
      map ← nth_of code_base (base + index);
      table ← load 8 m;
      target ← Load32Aligned code_base (table + Z.shiftl map 2);
      Some (Continue (set_pc target m))
  | _ => None
  end.

(** Back references and the ends of the subject. *)
Definition step_subject (bytecode : Bytecode) (insn arg : Z) (m : Machine) : option Outcome :=
  match bytecode with
  | CHECK_NOT_REGS_EQUAL =>
      r1 ← nth_of (registers m) arg;
      index ← load 4 m;
      r2 ← nth_of (registers m) index;
      if r1 =? r2 then next CHECK_NOT_REGS_EQUAL m else jump 8 m
  | CHECK_NOT_BACK_REF =>
      from ← nth_of (registers m) arg;
      to ← nth_of (registers m) (arg + 1);
      let len := sint 32 (to - from) in
      if (from <? 0) || (len <=? 0) then next CHECK_NOT_BACK_REF m
      else if subject_length <? plus (current m) len then jump 4 m
      else
        same ← same_chars from (current m) (Z.to_nat len);
        if (same : bool) then next CHECK_NOT_BACK_REF (set_current (plus (current m) len) m) else jump 4 m
  | CHECK_NOT_BACK_REF_NO_CASE =>
      from ← nth_of (registers m) arg;
      to ← nth_of (registers m) (arg + 1);
      let len := sint 32 (to - from) in
      if (from <? 0) || (len <=? 0) then next CHECK_NOT_BACK_REF_NO_CASE m
      else if subject_length <? plus (current m) len then jump 4 m
      else
        '(same, cache) ← same_chars_no_case from (current m) (Z.to_nat len) (canonicalize m);
        let m := set_canonicalize cache m in
        if (same : bool) then next CHECK_NOT_BACK_REF_NO_CASE (set_current (plus (current m) len) m) else jump 4 m
  | CHECK_AT_START => branch (current m =? 0) 4 CHECK_AT_START m
  | CHECK_NOT_AT_START => if current m =? 0 then next CHECK_NOT_AT_START m else jump 4 m
  | SET_CURRENT_POSITION_FROM_END =>
      let by_ := Z.shiftr (uint 32 insn) BYTECODE_SHIFT in
      if by_ <? plus subject_length (- current m) then
        let at_end := plus subject_length (- by_) in
        c ← nth_of subject (plus at_end (-1));
        next SET_CURRENT_POSITION_FROM_END (set_current_char c (set_current at_end m))
      else next SET_CURRENT_POSITION_FROM_END m
  | _ => None
  end.

Definition step (m : Machine) : option Outcome :=
  insn ← Load32Aligned code_base (pc m);
  bytecode ← bytecode_of (Z.land insn BYTECODE_MASK);
  let arg := Z.shiftr insn BYTECODE_SHIFT in
  match bytecode with
  | BREAK => None
  | PUSH_CP | PUSH_BT | PUSH_REGISTER | SET_REGISTER
  | ADVANCE_REGISTER | SET_REGISTER_TO_CP | SET_CP_TO_REGISTER | SET_REGISTER_TO_SP
  | SET_SP_TO_REGISTER | POP_CP | POP_BT | POP_REGISTER
  | FAIL | SUCCEED | ADVANCE_CP | GOTO
  | ADVANCE_CP_AND_GOTO | CHECK_GREEDY => step_stack bytecode arg m
  | LOAD_CURRENT_CHAR | LOAD_CURRENT_CHAR_UNCHECKED | LOAD_2_CURRENT_CHARS | LOAD_2_CURRENT_CHARS_UNCHECKED
  | LOAD_4_CURRENT_CHARS | LOAD_4_CURRENT_CHARS_UNCHECKED => step_load bytecode arg m
  | CHECK_4_CHARS | CHECK_CHAR | CHECK_NOT_4_CHARS | CHECK_NOT_CHAR
  | AND_CHECK_4_CHARS | AND_CHECK_CHAR | AND_CHECK_NOT_4_CHARS | AND_CHECK_NOT_CHAR
  | MINUS_AND_CHECK_NOT_CHAR | CHECK_LT | CHECK_GT | CHECK_REGISTER_LT
  | CHECK_REGISTER_GE | CHECK_REGISTER_EQ_POS => step_check bytecode arg m
  | LOOKUP_MAP1 | LOOKUP_MAP2 | LOOKUP_MAP8 | LOOKUP_HI_MAP8 => step_lookup bytecode arg m
  | CHECK_NOT_REGS_EQUAL | CHECK_NOT_BACK_REF | CHECK_NOT_BACK_REF_NO_CASE | CHECK_AT_START
  | CHECK_NOT_AT_START | SET_CURRENT_POSITION_FROM_END => step_subject bytecode insn arg m
  end.

(** [while (true)]; [None] also when the fuel is not enough. *)
Fixpoint run (fuel : nat) (m : Machine) : option (bool * Machine) :=
  match fuel with
  | O => None
  | S fuel =>
      outcome ← step m;
      match outcome with
      | Continue m => run fuel m
      | Return result m => Some (result, m)
      end
  end.

Definition RawMatch (raw : list Z) (fuel : nat) (isolate : Isolate) (regs : list Z) (start char : Z)
    : option (bool * list Z * Isolate) :=
  let '(data, isolate) := BacktrackStack raw isolate in
  '(result, m) ← run fuel (MkMachine 0 start char regs data 0 kBacktrackStackSize (interp_canonicalize_mapping isolate));
  Some (result, registers m,
    BacktrackStack_dispose (backtrack_stack m)
      (MkIsolate (irregexp_interpreter_backtrack_stack_cache isolate) (canonicalize m))).
End RawMatch.

(** [String::FlatContent] *)
Inductive FlatContent := Ascii (chars : list Z) | TwoByte (chars : list Z).

Definition Match (raw : list Z) (fuel : nat) (isolate : Isolate) (code_array : list Z) (subject : FlatContent)
    (regs : list Z) (start_position : Z) : option (bool * list Z * Isolate) :=
  let '(is_ascii, chars) := match subject with Ascii chars => (true, chars) | TwoByte chars => (false, chars) end in
  previous_char ← (if start_position =? 0 then Some 10 else nth_of chars (start_position - 1));
  RawMatch is_ascii code_array chars raw fuel isolate regs start_position previous_char.
