(* ===== verification/IrregexpSemantics.v ===== *)
(** * IrregexpSemantics: what a program of the macro assembler means

    The contract of [class RegExpMacroAssembler] (src/regexp-macro-assembler.h), as a machine
    that runs the calls themselves: the code that is left is the list of the calls that are left, a label
    stands for the calls behind its [Bind], and the backtrack stack holds integers and code.
    There are no bytes and no addresses, integers do not wrap around, characters are packed as a number and back references are compared as
    sequences of (canonical) characters.  What the interface leaves undefined is [None]: an overflow, an access outside of
    the subject or the registers, an integer that is used as code. *)

From S2P Require Import Prelude UnicodeTables Unicode UnicodeCache CaseEquivalents Irregexp IrregexpAssembler.
Local Open Scope Z_scope.

Inductive Value := VInt (z : Z) | VCode (ops : list Op).

Record State := MkState {
  rest : list Op;
  position : Z;
  character : Z;
  regs : list Z;
  stack : list Value
}.

Inductive Result := More (s : State) | Answer (b : bool) (s : State).

Definition with_rest (ops : list Op) (s : State) : State := MkState ops (position s) (character s) (regs s) (stack s).
Definition with_position (p : Z) (s : State) : State := MkState (rest s) p (character s) (regs s) (stack s).
Definition with_character (c : Z) (s : State) : State := MkState (rest s) (position s) c (regs s) (stack s).
Definition with_regs (r : list Z) (s : State) : State := MkState (rest s) (position s) (character s) r (stack s).
Definition with_stack (st : list Value) (s : State) : State := MkState (rest s) (position s) (character s) (regs s) st.

(** Integers that fit. *)
Definition in_int (z : Z) : bool := (- 2 ^ 31 <=? z) && (z <? 2 ^ 31).

Definition add (a b : Z) : option Z := if in_int (a + b) then Some (a + b) else None.

Definition get_reg (r : Z) (s : State) : option Z := regs s !! Z.to_nat r.

Definition put_reg (r v : Z) (s : State) : option State :=
  if r <? Z.of_nat (length (regs s)) then Some (with_regs (<[Z.to_nat r := v]> (regs s)) s) else None.

(** The first character is in the lowest bits. *)
Fixpoint pack (bits : Z) (chars : list Z) : Z :=
  match chars with [] => 0 | c :: chars => c + 2 ^ bits * pack bits chars end.

#[export] Instance same_case_dec cs ds : Decision (same_case cs ds).
Proof. unfold same_case. apply Forall2_dec. intros c d. apply _. Defined.

(** The code behind the [Bind] of a label. *)
Fixpoint find_label (l : Label) (prog : list Op) : option (list Op) :=
  match prog with
  | [] => None
  | OpBind l' :: ops => if decide (l' = l) then Some ops else find_label l ops
  | _ :: ops => find_label l ops
  end.

Section semantics.
Context (is_ascii : bool) (subject : list Z) (prog : list Op).

Definition size : Z := Z.of_nat (length subject).

Definition substring (pos n : Z) : option (list Z) :=
  if (0 <=? pos) && (pos + n <=? size) then Some (take (Z.to_nat n) (drop (Z.to_nat pos) subject)) else None.

(** One, two or, in an ASCII subject, four characters. *)
Definition width (characters : Z) : Z := if characters =? 4 then 4 else if characters =? 2 then 2 else 1.

Definition packed (pos n : Z) : option Z :=
  if negb is_ascii && (n =? 4) then None else pack (if is_ascii then 8 else 16) <$> substring pos n.

Definition continue (s : State) : option Result := Some (More s).

Definition goto (l : Label) (s : State) : option Result := ops ← find_label l prog; Some (More (with_rest ops s)).

Definition branch (b : bool) (l : Label) (s : State) : option Result := if b then goto l s else continue s.

(** A full stack is a failure of the match. *)
Definition push_value (v : option Value) (s : State) : option Result :=
  if 10000 <=? Z.of_nat (length (stack s)) then Some (Answer false s)
  else v ← v; continue (with_stack (v :: stack s) s).

Definition pop_value (s : State) : option (Value * State) :=
  match stack s with v :: st => Some (v, with_stack st s) | [] => None end.

Definition pop_int (s : State) : option (Z * State) :=
  '(v, s) ← pop_value s; match v with VInt z => Some (z, s) | VCode _ => None end.

(** A back reference to a group that did not take part, or that is empty, matches. *)
Definition back_reference (same : list Z -> list Z -> bool) (r : Z) (l : Label) (s : State) : option Result :=
  from ← get_reg r s;
  to ← get_reg (r + 1) s;
  len ← add to (- from);
  if (from <? 0) || (len <=? 0) then continue s
  else
    at_end ← add (position s) len;
    if size <? at_end then goto l s
    else
      group ← substring from len;
      here ← substring (position s) len;
      if same group here then continue (with_position at_end s) else goto l s.

Definition perform_op (op : Op) (s : State) : option Result :=
  match op with
  | OpBind _ => continue s
  | OpPushRegister r => push_value (VInt <$> get_reg r s) s
  | OpPopRegister r => '(v, s) ← pop_int s; s ← put_reg r v s; continue s
  | OpSetRegister r v => s ← put_reg r v s; continue s
  | OpAdvanceRegister r n => old ← get_reg r s; v ← add old n; s ← put_reg r v s; continue s
  | OpWriteCurrentPositionToRegister r o => v ← add (position s) o; s ← put_reg r v s; continue s
  | OpReadCurrentPositionFromRegister r => v ← get_reg r s; continue (with_position v s)
  | OpWriteStackPointerToRegister r => s ← put_reg r (Z.of_nat (length (stack s))) s; continue s
  | OpReadStackPointerFromRegister r =>
      (* the stack is cut back to the height it had *)
      v ← get_reg r s;
      if (0 <=? v) && (v <=? Z.of_nat (length (stack s)))
      then continue (with_stack (drop (length (stack s) - Z.to_nat v) (stack s)) s) else None
  | OpSetCurrentPositionFromEnd n =>
      distance ← add size (- position s);
      if n <? distance then
        c ← packed (size - n - 1) 1; continue (with_character c (with_position (size - n) s))
      else continue s
  | OpPushCurrentPosition => push_value (Some (VInt (position s))) s
  | OpPopCurrentPosition => '(v, s) ← pop_int s; continue (with_position v s)
  | OpPushBacktrack l => push_value (VCode <$> find_label l prog) s
  | OpBacktrack =>
      '(v, s) ← pop_value s; match v with VCode ops => continue (with_rest ops s) | VInt _ => None end
  | OpGoTo l => goto l s
  | OpSucceed => Some (Answer true s)
  | OpFail => Some (Answer false s)
  | OpAdvanceCurrentPosition n => p ← add (position s) n; continue (with_position p s)
  | OpCheckGreedyLoop l =>
      '(v, popped) ← pop_int s; if position s =? v then goto l popped else continue s
  | OpLoadCurrentCharacter o l check n =>
      pos ← add (position s) o;
      at_end ← add pos (width n);
      if check && (size <? at_end) then goto l s
      else c ← packed pos (width n); continue (with_character c s)
  | OpCheckCharacterLT limit l => branch (character s <? limit) l s
  | OpCheckCharacterGT limit l => branch (limit <? character s) l s
  | OpCheckCharacter c l => branch (c =? character s) l s
  | OpCheckNotCharacter c l => branch (negb (c =? character s)) l s
  | OpCheckCharacterAfterAnd c mask l => branch (c =? Z.land (character s) mask) l s
  | OpCheckNotCharacterAfterAnd c mask l => branch (negb (c =? Z.land (character s) mask)) l s
  | OpCheckNotCharacterAfterMinusAnd c minus mask l =>
      branch (negb (c =? Z.land ((character s - minus) mod 2 ^ 32) mask)) l s
  | OpCheckAtStart l => branch (position s =? 0) l s
  | OpCheckNotAtStart l => branch (negb (position s =? 0)) l s
  | OpCheckNotBackReference r l => back_reference (fun a b => bool_decide (a = b)) r l s
  | OpCheckNotBackReferenceIgnoreCase r l => back_reference (fun a b => bool_decide (same_case a b)) r l s
  | OpCheckNotRegistersEqual r1 r2 l => v1 ← get_reg r1 s; v2 ← get_reg r2 s; branch (negb (v1 =? v2)) l s
  | OpIfRegisterLT r n l => v ← get_reg r s; branch (v <? n) l s
  | OpIfRegisterGE r n l => v ← get_reg r s; branch (n <=? v) l s
  | OpIfRegisterEqPos r l => v ← get_reg r s; branch (v =? position s) l s
  end.

Definition step_op (s : State) : option Result :=
  match rest s with [] => None | op :: ops => perform_op op (with_rest ops s) end.

Fixpoint run_ops (fuel : nat) (s : State) : option (bool * State) :=
  match fuel with
  | O => None
  | S fuel =>
      result ← step_op s;
      match result with
      | More s => run_ops fuel s
      | Answer b s => Some (b, s)
      end
  end.
End semantics.

(** What the calls of the compiler respect (the assertions of the assembler and the types of the arguments). *)
Definition kMaxRegister : Z := 2 ^ 16 - 1.
Definition kMaxCPOffset : Z := 2 ^ 15 - 1.
Definition kMinCPOffset : Z := - 2 ^ 15.

Definition op_ok (op : Op) : bool :=
  let reg r := (0 <=? r) && (r <=? kMaxRegister) in
  let offset o := (kMinCPOffset <=? o) && (o <=? kMaxCPOffset) in
  let word w c := (0 <=? c) && (c <? 2 ^ w) in
  match op with
  | OpPushRegister r | OpPopRegister r | OpReadCurrentPositionFromRegister r | OpWriteStackPointerToRegister r
  | OpReadStackPointerFromRegister r | OpIfRegisterEqPos r _ | OpCheckNotBackReference r _
  | OpCheckNotBackReferenceIgnoreCase r _ => reg r
  | OpSetRegister r v | OpAdvanceRegister r v | OpIfRegisterLT r v _ | OpIfRegisterGE r v _
  | OpWriteCurrentPositionToRegister r v => reg r && in_int v
  | OpCheckNotRegistersEqual r1 r2 _ => reg r1 && reg r2
  | OpSetCurrentPositionFromEnd n => word 24 n
  | OpAdvanceCurrentPosition n => offset n
  | OpLoadCurrentCharacter o _ _ _ => offset o
  | OpCheckCharacterLT c _ | OpCheckCharacterGT c _ => word 16 c
  | OpCheckCharacter c _ | OpCheckNotCharacter c _ => word 32 c
  | OpCheckCharacterAfterAnd c mask _ | OpCheckNotCharacterAfterAnd c mask _ => word 32 c && word 32 mask
  | OpCheckNotCharacterAfterMinusAnd c minus mask _ => word 16 c && word 16 minus && word 16 mask
  | _ => true
  end.

(** ** A literal string *)

Section literal.
Context (is_ascii : bool) (subject : list Z) (prog : list Op).

(** One call. *)
Definition advances (s1 s2 : State) : Prop := step_op is_ascii subject prog s1 = Some (More s2).

Lemma add_in a b : - 2 ^ 31 <= a + b < 2 ^ 31 -> add a b = Some (a + b).
Proof.
  intros H. unfold add, in_int. rewrite (proj2 (Z.leb_le _ _)), (proj2 (Z.ltb_lt _ _)) by lia. done.
Qed.

Lemma packed_1 pos c : 0 <= pos -> subject !! Z.to_nat pos = Some c -> packed is_ascii subject pos 1 = Some c.
Proof.
  intros Hpos Hc. unfold packed, substring. rewrite andb_false_r. pose proof (lookup_lt_Some _ _ _ Hc).
  rewrite (proj2 (Z.leb_le 0 pos)) by lia. rewrite (proj2 (Z.leb_le (pos + 1) (size subject))) by (unfold size; lia). cbn [andb].
  rewrite (drop_S _ _ _ Hc). change (Z.to_nat 1) with 1%nat. cbn [andb take pack fmap option_fmap option_map]. by rewrite Z.mul_0_r, Z.add_0_r.
Qed.

Lemma same_string_snoc i pos str c d :
  0 <= pos -> subject !! Z.to_nat (pos + Z.of_nat i) = Some c -> str !! i = Some d ->
  take (S i) (drop (Z.to_nat pos) subject) = take (S i) str
  <-> c = d /\ take i (drop (Z.to_nat pos) subject) = take i str.
Proof.
  intros Hpos Hc Hd. rewrite (take_S_r _ _ d Hd).
  rewrite (take_S_r _ i c) by (rewrite lookup_drop; by replace (Z.to_nat pos + i)%nat with (Z.to_nat (pos + Z.of_nat i)) by lia).
  split; [intros H; apply app_inj_tail in H as [-> ->]|intros [-> ->]]; done.
Qed.

Context (str : list Z) (cp_offset : Z) (l : Label) (check : bool) (k : list Op) (failure : list Op).
Context (Hfailure : find_label l prog = Some failure) (Hsize : size subject < 2 ^ 31).

Abbreviation ops_of n := (check_ops n str cp_offset l check ++ k).

(** After the character [i] is loaded. *)
Lemma compare_character i s pos c d :
  rest s = OpCheckNotCharacter d l :: ops_of i -> character s = c ->
  str !! i = Some d -> 0 <= pos -> subject !! Z.to_nat (pos + Z.of_nat i) = Some c ->
  (exists c', rtc advances (with_rest (ops_of i) s) (MkState
     (if decide (take i (drop (Z.to_nat pos) subject) = take i str) then k else failure) (position s) c' (regs s) (stack s))) ->
  exists c', rtc advances s (MkState
     (if decide (take (S i) (drop (Z.to_nat pos) subject) = take (S i) str) then k else failure) (position s) c' (regs s) (stack s)).
Proof.
  intros Hrest Hchar Hd Hpos Hc [c' H]. pose proof (same_string_snoc i pos str c d Hpos Hc Hd) as Hsnoc.
  assert (Hstep : step_op is_ascii subject prog s = branch prog (negb (d =? c)) l (with_rest (ops_of i) s)).
  { unfold step_op. rewrite Hrest. cbn [perform_op]. by rewrite <- Hchar. }
  destruct (Z.eqb_spec d c) as [->|Hne].
  - exists c'. eapply rtc_l; [exact Hstep|].
    destruct (decide (take i _ = _)), (decide (take (S i) _ = _)) as [E|E]; try done; tauto.
  - exists (character s). destruct (decide (take (S i) _ = _)) as [E|E]; [apply Hsnoc in E as [-> _]; done|].
    apply rtc_once. unfold advances. rewrite Hstep. cbn [negb branch]. unfold goto. by rewrite Hfailure.
Qed.

(** A character of the subject is loaded and compared. *)
Lemma load_and_compare (b : bool) i s d :
  rest s = OpLoadCurrentCharacter (cp_offset + Z.of_nat i) l b 1 :: OpCheckNotCharacter d l :: ops_of i ->
  str !! i = Some d -> 0 <= position s + cp_offset -> position s + cp_offset + Z.of_nat (S i) <= size subject ->
  (forall c, exists c', rtc advances (with_character c (with_rest (ops_of i) s)) (MkState
     (if decide (take i (drop (Z.to_nat (position s + cp_offset)) subject) = take i str) then k else failure)
     (position s) c' (regs s) (stack s))) ->
  exists c', rtc advances s (MkState
    (if decide (take (S i) (drop (Z.to_nat (position s + cp_offset)) subject) = take (S i) str) then k else failure)
    (position s) c' (regs s) (stack s)).
Proof.
  intros Hrest Hd Hpos Hend IH.
  destruct (lookup_lt_is_Some_2 subject (Z.to_nat (position s + cp_offset + Z.of_nat i))) as [c Hc]; [unfold size in Hend; lia|].
  set (s1 := with_character c (with_rest (OpCheckNotCharacter d l :: ops_of i) s)).
  assert (Hload : advances s s1).
  { unfold advances, step_op. rewrite Hrest. cbn [perform_op position with_rest]. rewrite add_in by lia. cbn [mbind option_bind].
    change (width 1) with 1. rewrite add_in by lia. cbn [mbind option_bind].
    rewrite (proj2 (Z.ltb_ge _ _)), andb_false_r by lia.
    rewrite Z.add_assoc, (packed_1 _ c) by (done || lia). done. }
  destruct (compare_character i s1 (position s + cp_offset) c d) as [c' H]; try done; [apply IH|].
  exists c'. by eapply rtc_l.
Qed.

(** The characters in front of one that is in the subject. *)
Lemma check_before i s :
  rest s = ops_of i -> (i <= length str)%nat -> (check = true -> (i < length str)%nat) ->
  0 <= position s + cp_offset -> position s + cp_offset + Z.of_nat i <= size subject ->
  exists c', rtc advances s (MkState
    (if decide (take i (drop (Z.to_nat (position s + cp_offset)) subject) = take i str) then k else failure)
    (position s) c' (regs s) (stack s)).
Proof.
  revert s. induction i as [|i IH]; intros s Hrest Hi Hcheck Hpos Hend.
  { exists (character s). rewrite decide_True by done. destruct s. cbn in Hrest. cbn [regs stack position character]. by rewrite Hrest. }
  destruct (lookup_lt_is_Some_2 str i) as [d Hd]; [lia|].
  cbn [check_ops app] in Hrest. rewrite Hd in Hrest. eapply load_and_compare; [exact Hrest|done..|].
  intros c. apply (IH (with_character c (with_rest (ops_of i) s))); cbn [position with_rest with_character]; try done; lia.
Qed.

(** C40: [CheckCharacters] compares the subject with a string: from the current position and the
    offset on, it goes on behind the calls if the characters are those of the string and to the label if they are not,
    also when the subject ends before the string does; the loop that runs backwards, and checks the end of the subject only with the last character,
    never reads outside of the subject, and the position, the registers and the stack stay. *)
Theorem CheckCharacters_correct raw s :
  Forall (fun c => c <= MAX_FIRST_ARG) str -> str <> [] ->
  rest s = check_ops (length str) str cp_offset l check ++ k ->
  0 <= position s + cp_offset < 2 ^ 30 -> Z.of_nat (length str) < 2 ^ 30 ->
  (check = false -> position s + cp_offset + Z.of_nat (length str) <= size subject) ->
  (forall a, CheckCharacters raw str cp_offset l check a = perform_all raw (check_ops (length str) str cp_offset l check) a)
  /\ exists c, rtc advances s (MkState
      (if decide (substring subject (position s + cp_offset) (Z.of_nat (length str)) = Some str) then k else failure)
      (position s) c (regs s) (stack s)).
Proof.
  intros Hstr Hne Hrest Hpos Hlen Hend. split; [intros a; by apply CheckCharacters_ops|].
  assert (Hsub : position s + cp_offset + Z.of_nat (length str) <= size subject ->
    (substring subject (position s + cp_offset) (Z.of_nat (length str)) = Some str
     <-> take (length str) (drop (Z.to_nat (position s + cp_offset)) subject) = take (length str) str)).
  { intros Hfit. unfold substring. rewrite (proj2 (Z.leb_le 0 _)), (proj2 (Z.leb_le (_ + _) _)) by lia. cbn [andb].
    rewrite Nat2Z.id, firstn_all. split; [by intros [= ->]|by intros ->]. }
  assert (Hgoal : position s + cp_offset + Z.of_nat (length str) <= size subject -> (exists c, rtc advances s (MkState
      (if decide (take (length str) (drop (Z.to_nat (position s + cp_offset)) subject) = take (length str) str) then k else failure)
      (position s) c (regs s) (stack s))) -> exists c, rtc advances s (MkState
      (if decide (substring subject (position s + cp_offset) (Z.of_nat (length str)) = Some str) then k else failure)
      (position s) c (regs s) (stack s))).
  { intros Hfit [c H]. exists c. specialize (Hsub Hfit).
    destruct (decide (substring _ _ _ = _)) as [E|E], (decide (take _ _ = _)) as [E'|E']; tauto. }
  destruct (decide (check = false)) as [Hc|Hc].
  { apply Hgoal; [by apply Hend|]. apply check_before; [done|lia|congruence|lia|by apply Hend]. }
  apply not_false_is_true in Hc. destruct str as [|d0 str'] eqn:Estr; [done|]. rewrite <- Estr in *.
  assert (Hi : length str = S (length str')) by (by rewrite Estr).
  destruct (lookup_lt_is_Some_2 str (length str')) as [d Hd]; [lia|].
  assert (Hb : check && (length str' =? length str - 1)%nat = true).
  { rewrite Hc, Hi. apply Nat.eqb_eq. lia. }
  rewrite Hi in Hrest. cbn [check_ops app] in Hrest. rewrite Hd, Hb in Hrest. cbn [default from_option id] in Hrest.
  destruct (Z.leb_spec (position s + cp_offset + Z.of_nat (length str)) (size subject)) as [Hfit|Hbeyond].
  - apply Hgoal; [done|]. rewrite Hi. eapply load_and_compare; [exact Hrest|done|lia|lia|].
    intros c. apply (check_before (length str') (with_character c (with_rest (ops_of (length str')) s))); cbn [position with_rest with_character]; try done; lia.
  - exists (character s). rewrite decide_False.
    + apply rtc_once. unfold advances, step_op. rewrite Hrest. cbn [perform_op position with_rest]. rewrite add_in by lia.
      cbn [mbind option_bind]. change (width 1) with 1. rewrite add_in by lia. cbn [mbind option_bind andb].
      rewrite (proj2 (Z.ltb_lt _ _)) by lia. unfold goto. by rewrite Hfailure.
    + unfold substring. rewrite (proj2 (Z.leb_gt (_ + _) _)) by lia. by rewrite andb_false_r.
Qed.
End literal.

Definition program_of_check : list Op :=
  check_ops 2 [97; 98] 1 None true ++ [OpSucceed; OpBind None; OpBacktrack].

Lemma CheckCharacters_correct_witness :
  (forall a, CheckCharacters (fun _ => 0) [97; 98] 1 None true a
     = perform_all (fun _ => 0) (check_ops 2 [97; 98] 1 None true) a)
  /\ exists c, rtc (advances true [120; 97; 98] (program_of_check))
       (MkState program_of_check 0 10 [] []) (MkState [OpSucceed; OpBind None; OpBacktrack] 0 c [] []).
Proof.
  destruct (CheckCharacters_correct true [120; 97; 98] program_of_check [97; 98] 1 None true [OpSucceed; OpBind None; OpBacktrack]
    [OpBacktrack] eq_refl eq_refl (fun _ => 0) (MkState program_of_check 0 10 [] [])) as [H1 [c H2]];
    [repeat constructor; discriminate|done|done|cbn; lia|cbn; lia|done|].
  split; [exact H1|]. exists c. rewrite decide_True in H2 by done. exact H2.
Defined.
