(* ===== verification/IrregexpCorrect.v ===== *)
(** * IrregexpCorrect: the bytecodes do what the program says

    The composition of the assembler and the interpreter: [RawMatch] on the bytes of [GetCode]
    simulates the machine of [IrregexpSemantics] on the calls that were made.  A continuation is
    represented by the position of its code, and the stack by the part of the array below the
    stack pointer. *)

From S2P Require Import Prelude UnicodeTables Unicode UnicodeCache UnicodeCase CharacterRange CaseEquivalents.
From S2P Require Import Irregexp IrregexpAssembler IrregexpLayout IrregexpInterpreter IrregexpSemantics.
Local Open Scope Z_scope.

(** ** Words and instructions *)

Definition instruction (b : Bytecode) (arg : Z) : Z :=
  sint 32 (Z.lor (Z.shiftl (uint 32 arg) BYTECODE_SHIFT) (BC b)).

Lemma uint_sint w z : 0 < w -> uint w (sint w z) = uint w z.
Proof. intros Hw. destruct (sint_cong w z Hw) as [k ->]. unfold uint. by rewrite Z_mod_plus_full. Qed.

Lemma uint_small w z : 0 <= z < 2 ^ w -> uint w z = z.
Proof. apply Z.mod_small. Qed.

Lemma instruction_eq b arg :
  - 2 ^ 23 <= arg < 2 ^ 23 -> instruction b arg = 2 ^ 8 * arg + BC b.
Proof.
  intros Harg. pose proof (BC_range b). unfold instruction, BYTECODE_SHIFT. rewrite lor_shiftl by (done || lia).
  rewrite <- sint_uint. replace (uint 32 (uint 32 arg * 2 ^ 8 + BC b)) with (uint 32 (2 ^ 8 * arg + BC b)).
  - rewrite sint_uint. apply sint_id; [done|]. change (2 ^ (32 - 1)) with (2 ^ 31). lia.
  - unfold uint. by rewrite <- (Zplus_mod_idemp_l (_ * 2 ^ 8)), Zmult_mod_idemp_l, Zplus_mod_idemp_l, (Z.mul_comm arg).
Qed.

Lemma instruction_bytecode b arg : bytecode_of (Z.land (instruction b arg) BYTECODE_MASK) = Some b.
Proof.
  pose proof (BC_range b). rewrite <- (bytecode_of_BC b). f_equal. unfold BYTECODE_MASK. change 0xff with (Z.ones 8).
  rewrite Z.land_ones by lia. unfold instruction, BYTECODE_SHIFT. rewrite lor_shiftl by (done || lia).
  destruct (sint_cong 32 (uint 32 arg * 2 ^ 8 + BC b) ltac:(lia)) as [k ->].
  replace (uint 32 arg * 2 ^ 8 + BC b + k * 2 ^ 32) with (BC b + (uint 32 arg + k * 2 ^ 24) * 2 ^ 8) by lia.
  rewrite Z_mod_plus_full. by apply Z.mod_small.
Qed.

Lemma instruction_arg b arg : - 2 ^ 23 <= arg < 2 ^ 23 -> Z.shiftr (instruction b arg) BYTECODE_SHIFT = arg.
Proof.
  intros Harg. pose proof (BC_range b). rewrite instruction_eq by done. unfold BYTECODE_SHIFT.
  rewrite Z.shiftr_div_pow2 by lia. rewrite Z.mul_comm, Z.div_add_l by lia. rewrite Z.div_small by done. lia.
Qed.

(** [static_cast<uint32_t>(insn) >> BYTECODE_SHIFT] *)
Lemma instruction_uarg b arg : 0 <= arg < 2 ^ 24 -> Z.shiftr (uint 32 (instruction b arg)) BYTECODE_SHIFT = arg.
Proof.
  intros Harg. pose proof (BC_range b). unfold instruction, BYTECODE_SHIFT. rewrite lor_shiftl, uint_sint by (done || lia).
  rewrite (uint_small 32 arg) by lia. rewrite uint_small by lia.
  rewrite Z.shiftr_div_pow2 by lia. rewrite Z.div_add_l by lia. rewrite Z.div_small by done. lia.
Qed.

(** ** The code in memory *)

Section correct.
Context (is_ascii : bool) (subject : list Z) (ops : list Op).
Context (Hwf : well_formed ops).
Context (Hsubject : Forall (fun c => 0 <= c < if is_ascii then 128 else 2 ^ 16) subject).
Context (Hsize : size subject < 2 ^ 31).

Abbreviation code := (program_bytes ops).
Abbreviation prog := (program ops).

Definition cells_at (cells : list Cell) (p : Z) : Prop :=
  exists pre post, program_cells ops = pre ++ cells ++ post /\ p = code_size pre.

Lemma cells_at_tail c cells p : cells_at (c :: cells) p -> cells_at cells (p + cell_size c).
Proof.
  intros (pre & post & E & ->). exists (pre ++ [c]), post. rewrite E, <- app_assoc. split; [done|].
  rewrite code_size_app. cbn. lia.
Qed.

Lemma cells_at_bytes c cells p :
  cells_at (c :: cells) p ->
  exists pre post, code = pre ++ cell_bytes (program_ref ops) c ++ post /\ Z.of_nat (length pre) = p.
Proof.
  intros (pre & post & E & ->). unfold program_bytes, code_bytes. rewrite E, flat_map_app. cbn [flat_map app].
  do 2 eexists. split; [reflexivity|]. apply length_code_bytes.
Qed.

Lemma load_word b arg cells p : cells_at (CWord b arg :: cells) p -> Load32Aligned code p = Some (instruction b arg).
Proof. intros H. apply cells_at_bytes in H as (pre & post & -> & <-). cbn [cell_bytes]. rewrite Load32_app. by rewrite sint_uint. Qed.

Lemma load_32 w cells p : cells_at (C32 w :: cells) p -> Load32Aligned code p = Some (sint 32 w).
Proof. intros H. apply cells_at_bytes in H as (pre & post & -> & <-). cbn [cell_bytes]. rewrite Load32_app. by rewrite sint_uint. Qed.

Lemma load_16 w cells p : 0 <= w < 2 ^ 16 -> cells_at (C16 w :: cells) p -> Load16Aligned code p = Some w.
Proof.
  intros Hw H. apply cells_at_bytes in H as (pre & post & -> & <-). cbn [cell_bytes]. rewrite Load16_app, uint_small by lia.
  by rewrite Z.mod_small.
Qed.

(** Code that is left, and where it is. *)
Definition located (instrs : list Instr) (p : Z) : Prop :=
  exists pre, fuse prog = pre ++ instrs /\ p = code_size (layout pre).

Lemma located_cells i instrs p : located (i :: instrs) p -> cells_at (instr_cells i) p.
Proof.
  intros (pre & E & ->). exists (layout pre), (layout instrs). split; [|done].
  unfold program_cells. by rewrite E, layout_app, layout_cons.
Qed.

Lemma located_tail i instrs p : located (i :: instrs) p -> located instrs (p + code_size (instr_cells i)).
Proof.
  intros (pre & E & ->). exists (pre ++ [i]). rewrite E, <- app_assoc. split; [done|].
  rewrite layout_app, code_size_app. cbn. by rewrite app_nil_r.
Qed.

Lemma located_range instrs p : located instrs p -> 0 <= p < 2 ^ 31.
Proof.
  intros (pre & E & ->). pose proof (code_fits _ Hwf) as H. unfold program_cells in H. rewrite E, layout_app, code_size_app in H.
  pose proof (code_size_nonneg (layout instrs)). pose proof (code_size_nonneg (layout pre)). lia.
Qed.

Lemma find_label_split l program k : find_label l program = Some k -> exists pre, program = pre ++ OpBind l :: k.
Proof.
  induction program as [|op program IH]; [done|]. intros H.
  assert (Hnext : find_label l program = Some k -> exists pre, op :: program = pre ++ OpBind l :: k).
  { intros H'. destruct (IH H') as [pre ->]. by exists (op :: pre). }
  destruct op; try (by apply Hnext). cbn [find_label] in H. destruct (decide _) as [->|]; [|by apply Hnext].
  injection H as ->. by exists [].
Qed.

(** A label is the position of the code behind its [Bind]. *)
Lemma located_label l k : find_label l prog = Some k -> located (fuse k) (program_ref ops l).
Proof.
  intros H. apply find_label_split in H as [pre E]. exists (fuse pre ++ [IOp (OpBind l)]).
  unfold program_ref. rewrite (program_labels_bind ops pre l k Hwf E). cbn [default from_option id].
  rewrite E, fuse_app, fuse_cons, <- app_assoc by (done || intros []). split; [done|].
  rewrite layout_app, code_size_app. cbn. lia.
Qed.

Lemma load_ref l k cells p :
  cells_at (CRef l :: cells) p -> find_label l prog = Some k -> Load32Aligned code p = Some (program_ref ops l).
Proof.
  intros H Hk. apply located_label, located_range in Hk. apply cells_at_bytes in H as (pre & post & -> & <-).
  cbn [cell_bytes]. rewrite Load32_app. rewrite sint_uint, sint_id; [done|done|]. change (2 ^ (32 - 1)) with (2 ^ 31). lia.
Qed.

(** ** The states *)

Definition value_repr (v : Value) (z : Z) : Prop :=
  match v with VInt z' => z = z' | VCode k => located (fuse k) z end.

Record stack_repr (st : list Value) (data : list Z) (sp space : Z) : Prop := {
  stack_size : Z.of_nat (length data) = kBacktrackStackSize;
  stack_sp : sp = Z.of_nat (length st);
  stack_space : space = kBacktrackStackSize - sp;
  stack_values : Forall2 value_repr (rev st) (take (length st) data)
}.

(** The state but for the code. *)
Record data_repr (s : State) (m : Machine) : Prop := {
  data_position : current m = position s;
  data_character : current_char m = character s;
  data_registers : registers m = regs s;
  data_stack : stack_repr (stack s) (backtrack_stack m) (backtrack_sp m) (backtrack_stack_space m);
  data_cache : cache_ok Ecma262Canonicalize_Convert (canonicalize m)
}.

Definition sim (s : State) (m : Machine) : Prop := located (fuse (rest s)) (pc m) /\ data_repr s m.

Definition sim_outcome (r : Result) (o : Outcome) : Prop :=
  match r, o with
  | More s, Continue m => sim s m
  | Answer b s, Return b' m => b' = b /\ registers m = regs s
      /\ Z.of_nat (length (backtrack_stack m)) = kBacktrackStackSize /\ cache_ok Ecma262Canonicalize_Convert (canonicalize m)
  | _, _ => False
  end.

Lemma stack_fits st data sp space : stack_repr st data sp space -> 0 <= sp <= kBacktrackStackSize.
Proof.
  intros [Hsize' -> _ Hvalues]. apply Forall2_length in Hvalues. rewrite length_rev, length_take in Hvalues. lia.
Qed.

Lemma stack_push st data sp space v z :
  stack_repr st data sp space -> Z.of_nat (length st) < kBacktrackStackSize -> value_repr v z ->
  exists data', store data sp z = Some data' /\ stack_repr (v :: st) data' (sp + 1) (space - 1).
Proof.
  intros [Hlen -> -> Hvalues] Hroom Hv. unfold store.
  rewrite (proj2 (Z.leb_le _ _)), (proj2 (Z.ltb_lt _ _)) by lia. cbn [andb]. eexists. split; [reflexivity|].
  rewrite Nat2Z.id. split.
  - by rewrite length_insert.
  - cbn. lia.
  - lia.
  - cbn [length rev]. rewrite (take_S_r _ _ z) by (apply list_lookup_insert_eq; lia).
    rewrite take_insert_ge by lia. apply Forall2_app; [done|]. by constructor.
Qed.

Lemma stack_pop v st data sp space :
  stack_repr (v :: st) data sp space ->
  exists z, nth_of data (sp - 1) = Some z /\ value_repr v z /\ stack_repr st data (sp - 1) (space + 1).
Proof.
  intros Hst. pose proof (stack_fits _ _ _ _ Hst) as Hfits. destruct Hst as [Hlen -> -> Hvalues]. cbn [length rev] in *.
  destruct (lookup_lt_is_Some_2 data (length st)) as [z Hz]; [lia|]. exists z.
  rewrite (take_S_r _ _ z) in Hvalues by done. apply Forall2_app_inv in Hvalues as [Hvalues Htop].
  - split; [|split].
    + unfold nth_of. rewrite (proj2 (Z.leb_le _ _)) by lia. rewrite <- Hz. f_equal. lia.
    + by inversion Htop.
    + split; [done|lia|lia|done].
  - rewrite length_rev, length_take. lia.
Qed.

Lemma stack_cut st data sp space n :
  stack_repr st data sp space -> (n <= length st)%nat ->
  stack_repr (drop (length st - n) st) data (Z.of_nat n) (kBacktrackStackSize - Z.of_nat n).
Proof.
  intros Hst Hn. pose proof (stack_fits _ _ _ _ Hst) as Hfits. destruct Hst as [Hlen -> -> Hvalues].
  assert (Hl : length (drop (length st - n) st) = n) by (rewrite length_drop; lia).
  split; [done|lia|done|]. rewrite Hl. apply (Forall2_take _ _ _ n) in Hvalues.
  rewrite take_take, Nat.min_l in Hvalues by lia. rewrite <- (take_drop (length st - n) st) in Hvalues at 1.
  rewrite rev_app_distr, take_app_length' in Hvalues; [done|]. by rewrite length_rev.
Qed.

(** ** One call *)

(** The interpreter follows the machine over a call that is not a [Bind]. *)
Definition simulates (op : Op) : Prop :=
  forall s m r,
  op_ok op = true -> cells_at (op_cells op) (pc m) ->
  located (fuse (rest s)) (pc m + code_size (op_cells op)) -> data_repr s m ->
  perform_op is_ascii subject prog op s = Some r ->
  exists o, step is_ascii code subject m = Some o /\ sim_outcome r o.

Lemma sim_next b s m :
  located (fuse (rest s)) (pc m + BC_LENGTH b) -> data_repr s m ->
  exists o, next b m = Some o /\ sim_outcome (More s) o.
Proof. intros Hloc Hdata. eexists. split; [reflexivity|]. split; [done|]. by destruct Hdata. Qed.

Lemma sim_jump l cells offset s m r :
  cells_at (CRef l :: cells) (pc m + offset) -> data_repr s m -> goto prog l s = Some r ->
  exists o, jump code offset m = Some o /\ sim_outcome r o.
Proof.
  intros Hcells Hdata Hr. unfold goto in Hr. destruct (find_label l prog) as [k|] eqn:Hk; [|done]. injection Hr as <-.
  unfold jump. rewrite (load_ref _ _ _ _ Hcells Hk). cbn [mbind option_bind]. eexists. split; [reflexivity|].
  split; [by apply located_label|]. by destruct Hdata.
Qed.

Lemma sim_branch (b : bool) bc l offset s m r :
  cells_at [CRef l] (pc m + offset) -> located (fuse (rest s)) (pc m + BC_LENGTH bc) -> data_repr s m ->
  branch prog b l s = Some r ->
  exists o, (if b then jump code offset m else next bc m) = Some o /\ sim_outcome r o.
Proof.
  intros Hcells Hloc Hdata Hr. destruct b; [by apply (sim_jump l [] offset s)|].
  injection Hr as <-. by apply sim_next.
Qed.

(** The arguments, from [op_ok]. *)
Ltac ranges H :=
  cbn [op_ok] in H; unfold kMaxRegister, kMinCPOffset, kMaxCPOffset, in_int in H;
  repeat (rewrite andb_true_iff in H); repeat (rewrite Z.leb_le in H); repeat (rewrite Z.ltb_lt in H).

(** Fetch the instruction at the program counter, and move [Hcells] to its first operand. *)
Ltac fetch Hcells :=
  unfold step; rewrite (load_word _ _ _ _ Hcells); cbn [mbind option_bind]; rewrite instruction_bytecode;
  cbn [mbind option_bind step_stack step_load step_check step_lookup step_subject]; unfold load, IrregexpInterpreter.branch; apply cells_at_tail in Hcells; cbn [cell_size] in Hcells.

Ltac skip Hcells :=
  apply cells_at_tail in Hcells; cbn [cell_size] in Hcells; rewrite <- Z.add_assoc in Hcells;
  match type of Hcells with
  | context [Z.add (Zpos ?a) (Zpos ?b)] => let c := eval vm_compute in (Z.add (Zpos a) (Zpos b)) in change (Z.add (Zpos a) (Zpos b)) with c in Hcells
  end.

Ltac operand Hcells := rewrite (load_32 _ _ _ Hcells); cbn [mbind option_bind]; skip Hcells.

Lemma sim_CheckCharacterLT c l : simulates (OpCheckCharacterLT c l).
Proof.
  intros s m r Hok Hcells Hloc Hdata Hr. ranges Hok. cbn [op_cells] in Hcells. fetch Hcells.
  rewrite instruction_arg, (uint_small 32 c), (data_character _ _ Hdata) by lia. by apply (sim_branch _ _ l _ s).
Qed.

Lemma sim_CheckCharacterGT c l : simulates (OpCheckCharacterGT c l).
Proof.
  intros s m r Hok Hcells Hloc Hdata Hr. ranges Hok. cbn [op_cells] in Hcells. fetch Hcells.
  rewrite instruction_arg, (uint_small 32 c), (data_character _ _ Hdata) by lia. by apply (sim_branch _ _ l _ s).
Qed.

Lemma uint_operand c : 0 <= c < 2 ^ 32 -> uint 32 (sint 32 c) = c.
Proof. intros Hc. rewrite uint_sint by lia. by apply uint_small. Qed.

(** The constant is behind the bytecode, or a word of its own. *)
Lemma constant_cases long short c cells p :
  0 <= c < 2 ^ 32 -> cells_at (constant_cells long short c ++ cells) p ->
  (constant_cells long short c = [CWord long 0; C32 c] /\ cells_at (CWord long 0 :: C32 c :: cells) p)
  \/ (constant_cells long short c = [CWord short c] /\ c < 2 ^ 23 /\ cells_at (CWord short c :: cells) p).
Proof.
  intros Hc. unfold constant_cells. change MAX_FIRST_ARG with (2 ^ 23 - 1).
  destruct (Z.ltb_spec (2 ^ 23 - 1) c); intros H'; [by left|right]. by split; [|split; [lia|]].
Qed.

Lemma sim_CheckCharacter c l : simulates (OpCheckCharacter c l).
Proof.
  intros s m r Hok Hcells Hloc Hdata Hr. ranges Hok. cbn [op_cells] in *.
  destruct (constant_cases _ _ _ _ _ Hok Hcells) as [[E Hcells']|(E & Hc & Hcells')]; rewrite E in Hloc; fetch Hcells'.
  - operand Hcells'. rewrite uint_operand, (data_character _ _ Hdata) by done. by apply (sim_branch _ _ l _ s).
  - rewrite instruction_arg, (uint_small 32 c), (data_character _ _ Hdata) by lia. by apply (sim_branch _ _ l _ s).
Qed.

Lemma sim_CheckNotCharacter c l : simulates (OpCheckNotCharacter c l).
Proof.
  intros s m r Hok Hcells Hloc Hdata Hr. ranges Hok. cbn [op_cells] in *.
  destruct (constant_cases _ _ _ _ _ Hok Hcells) as [[E Hcells']|(E & Hc & Hcells')]; rewrite E in Hloc; fetch Hcells'.
  - operand Hcells'. rewrite uint_operand, (data_character _ _ Hdata) by done. by apply (sim_branch _ _ l _ s).
  - rewrite instruction_arg, (uint_small 32 c), (data_character _ _ Hdata) by lia. by apply (sim_branch _ _ l _ s).
Qed.

Lemma sim_CheckCharacterAfterAnd c mask l : simulates (OpCheckCharacterAfterAnd c mask l).
Proof.
  intros s m r Hok Hcells Hloc Hdata Hr. ranges Hok. destruct Hok as [Hc Hmask]. cbn [op_cells] in *.
  destruct (constant_cases _ _ _ _ _ Hc Hcells) as [[E Hcells']|(E & Hc' & Hcells')]; rewrite E in Hloc; fetch Hcells'.
  - do 2 operand Hcells'. rewrite !uint_operand, (data_character _ _ Hdata) by done. by apply (sim_branch _ _ l _ s).
  - operand Hcells'. rewrite instruction_arg, (uint_small 32 c), uint_operand, (data_character _ _ Hdata) by lia.
    by apply (sim_branch _ _ l _ s).
Qed.

Lemma sim_CheckNotCharacterAfterAnd c mask l : simulates (OpCheckNotCharacterAfterAnd c mask l).
Proof.
  intros s m r Hok Hcells Hloc Hdata Hr. ranges Hok. destruct Hok as [Hc Hmask]. cbn [op_cells] in *.
  destruct (constant_cases _ _ _ _ _ Hc Hcells) as [[E Hcells']|(E & Hc' & Hcells')]; rewrite E in Hloc; fetch Hcells'.
  - do 2 operand Hcells'. rewrite !uint_operand, (data_character _ _ Hdata) by done. by apply (sim_branch _ _ l _ s).
  - operand Hcells'. rewrite instruction_arg, (uint_small 32 c), uint_operand, (data_character _ _ Hdata) by lia.
    by apply (sim_branch _ _ l _ s).
Qed.

Lemma sim_CheckNotCharacterAfterMinusAnd c minus mask l : simulates (OpCheckNotCharacterAfterMinusAnd c minus mask l).
Proof.
  intros s m r Hok Hcells Hloc Hdata Hr. ranges Hok. destruct Hok as [[Hc Hminus] Hmask]. cbn [op_cells] in *. fetch Hcells.
  rewrite (load_16 minus _ _ Hminus Hcells). cbn [mbind option_bind]. skip Hcells.
  rewrite (load_16 mask _ _ Hmask Hcells). cbn [mbind option_bind]. skip Hcells.
  rewrite instruction_arg, (uint_small 32 c), (data_character _ _ Hdata) by lia. by apply (sim_branch _ _ l _ s).
Qed.

Lemma sim_CheckAtStart l : simulates (OpCheckAtStart l).
Proof.
  intros s m r Hok Hcells Hloc Hdata Hr. cbn [op_cells] in *. fetch Hcells.
  rewrite (data_position _ _ Hdata). by apply (sim_branch _ _ l _ s).
Qed.

Lemma sim_CheckNotAtStart l : simulates (OpCheckNotAtStart l).
Proof.
  intros s m r Hok Hcells Hloc Hdata Hr. cbn [op_cells] in *. fetch Hcells. rewrite (data_position _ _ Hdata).
  cbn [perform_op] in Hr. rewrite <- if_negb. by apply (sim_branch _ _ l _ s).
Qed.

(** ** Registers *)

Lemma sim_get r s m : 0 <= r -> data_repr s m -> nth_of (registers m) r = get_reg r s.
Proof. intros Hr Hdata. unfold nth_of, get_reg. rewrite (proj2 (Z.leb_le _ _)) by done. by rewrite (data_registers _ _ Hdata). Qed.

(** A register is set, and the interpreter goes on behind the instruction. *)
Lemma sim_put b r v s m res :
  0 <= r -> data_repr s m -> located (fuse (rest s)) (pc m + BC_LENGTH b) ->
  (s ← put_reg r v s; continue s) = Some res ->
  exists o, (m ← set_register r v m; next b m) = Some o /\ sim_outcome res o.
Proof.
  intros Hr Hdata Hloc. unfold put_reg, set_register, store. rewrite (data_registers _ _ Hdata).
  destruct (Z.ltb_spec r (Z.of_nat (length (regs s)))); [|done]. intros [= <-].
  rewrite (proj2 (Z.leb_le _ _)) by done. cbn [andb mbind option_bind].
  apply sim_next; [done|]. by destruct Hdata.
Qed.

Lemma sim_SetRegister r v : simulates (OpSetRegister r v).
Proof.
  intros s m res Hok Hcells Hloc Hdata Hr. ranges Hok. cbn [op_cells] in *. fetch Hcells.
  rewrite instruction_arg by lia. operand Hcells. rewrite sint_id by (change (2 ^ (32 - 1)) with (2 ^ 31); lia).
  by apply (sim_put _ _ _ s); [lia|..].
Qed.

Lemma plus_add a b c : add a b = Some c -> plus a b = c.
Proof.
  unfold add, plus, in_int. destruct ((- 2 ^ 31 <=? a + b) && (a + b <? 2 ^ 31)) eqn:E; [|done]. intros [= <-].
  apply andb_true_iff in E as [E1 E2]. rewrite Z.leb_le in E1. rewrite Z.ltb_lt in E2. apply sint_id; [done|].
  change (2 ^ (32 - 1)) with (2 ^ 31). lia.
Qed.

Lemma sint_arg z : - 2 ^ 31 <= z < 2 ^ 31 -> sint 32 z = z.
Proof. intros Hz. apply sint_id; [done|]. by change (2 ^ (32 - 1)) with (2 ^ 31). Qed.

Lemma bind_Some {A B} (x : option A) (f : A -> option B) y :
  (z ← x; f z) = Some y -> exists z, x = Some z /\ f z = Some y.
Proof. destruct x as [z|]; [|done]. intros H. by exists z. Qed.

(** Take the next value that the machine computed out of [H]. *)
Tactic Notation "value" hyp(H) "as" simple_intropattern(p) ident(E) :=
  apply bind_Some in H as (p & E & H).

Lemma sim_AdvanceRegister r n : simulates (OpAdvanceRegister r n).
Proof.
  intros s m res Hok Hcells Hloc Hdata Hr. ranges Hok. cbn [op_cells perform_op] in *. fetch Hcells.
  rewrite instruction_arg by lia. operand Hcells. rewrite sint_arg by lia.
  value Hr as old Eold. value Hr as v Ev. rewrite (sim_get r s m), Eold by (done || lia). cbn [mbind option_bind].
  rewrite (plus_add _ _ _ Ev). by apply (sim_put _ _ _ s); [lia|..].
Qed.

Lemma sim_WriteCurrentPositionToRegister r n : simulates (OpWriteCurrentPositionToRegister r n).
Proof.
  intros s m res Hok Hcells Hloc Hdata Hr. ranges Hok. cbn [op_cells perform_op] in *. fetch Hcells.
  rewrite instruction_arg by lia. operand Hcells. rewrite sint_arg by lia.
  value Hr as v Ev. rewrite (data_position _ _ Hdata), (plus_add _ _ _ Ev). by apply (sim_put _ _ _ s); [lia|..].
Qed.

Lemma sim_ReadCurrentPositionFromRegister r : simulates (OpReadCurrentPositionFromRegister r).
Proof.
  intros s m res Hok Hcells Hloc Hdata Hr. ranges Hok. cbn [op_cells perform_op] in *. fetch Hcells.
  rewrite instruction_arg by lia. value Hr as v Ev. rewrite (sim_get r s m), Ev by (done || lia). cbn [mbind option_bind].
  injection Hr as <-. apply sim_next; [done|]. by destruct Hdata.
Qed.

Lemma sim_IfRegisterLT r n l : simulates (OpIfRegisterLT r n l).
Proof.
  intros s m res Hok Hcells Hloc Hdata Hr. ranges Hok. cbn [op_cells perform_op] in *. fetch Hcells.
  rewrite instruction_arg by lia. value Hr as v Ev. rewrite (sim_get r s m), Ev by (done || lia). cbn [mbind option_bind].
  operand Hcells. rewrite sint_arg by lia. by apply (sim_branch _ _ l _ s).
Qed.

Lemma sim_IfRegisterGE r n l : simulates (OpIfRegisterGE r n l).
Proof.
  intros s m res Hok Hcells Hloc Hdata Hr. ranges Hok. cbn [op_cells perform_op] in *. fetch Hcells.
  rewrite instruction_arg by lia. value Hr as v Ev. rewrite (sim_get r s m), Ev by (done || lia). cbn [mbind option_bind].
  operand Hcells. rewrite sint_arg by lia. by apply (sim_branch _ _ l _ s).
Qed.

Lemma sim_IfRegisterEqPos r l : simulates (OpIfRegisterEqPos r l).
Proof.
  intros s m res Hok Hcells Hloc Hdata Hr. ranges Hok. cbn [op_cells perform_op] in *. fetch Hcells.
  rewrite instruction_arg by lia. value Hr as v Ev. rewrite (sim_get r s m), Ev by (done || lia). cbn [mbind option_bind].
  rewrite (data_position _ _ Hdata). by apply (sim_branch _ _ l _ s).
Qed.

Lemma sim_CheckNotRegistersEqual r1 r2 l : simulates (OpCheckNotRegistersEqual r1 r2 l).
Proof.
  intros s m res Hok Hcells Hloc Hdata Hr. ranges Hok. cbn [op_cells perform_op] in *. fetch Hcells.
  rewrite instruction_arg by lia. value Hr as v1 Ev1. value Hr as v2 Ev2.
  rewrite (sim_get r1 s m), Ev1 by (done || lia). cbn [mbind option_bind]. operand Hcells. rewrite sint_arg by lia.
  rewrite (sim_get r2 s m), Ev2 by (done || lia). cbn [mbind option_bind].
  rewrite <- if_negb. by apply (sim_branch _ _ l _ s).
Qed.

(** ** The stack *)

Lemma sim_push b v z s m res :
  data_repr s m -> located (fuse (rest s)) (pc m + BC_LENGTH b) ->
  (forall v', v = Some v' -> exists z', z = Some z' /\ value_repr v' z') ->
  push_value v s = Some res -> exists o, push b z m = Some o /\ sim_outcome res o.
Proof.
  intros Hdata Hloc Hv Hr. pose proof (data_stack _ _ Hdata) as Hst. unfold push_value in Hr. unfold push.
  pose proof (stack_fits _ _ _ _ Hst) as Hfits. pose proof (stack_space _ _ _ _ Hst) as Hspace.
  pose proof (stack_sp _ _ _ _ Hst) as Hsp. unfold kBacktrackStackSize in Hfits, Hspace.
  destruct (Z.leb_spec 10000 (Z.of_nat (length (stack s)))).
  - injection Hr as <-. rewrite (proj2 (Z.ltb_lt _ _)) by lia. eexists. split; [reflexivity|]. cbn.
    split; [done|]. split; [by destruct Hdata|]. split; [apply Hst|by destruct Hdata].
  - value Hr as v' Ev. injection Hr as <-. destruct (Hv _ Ev) as (z' & -> & Hz). cbn [mbind option_bind].
    rewrite (proj2 (Z.ltb_ge _ _)) by lia.
    destruct (stack_push _ _ _ _ v' z' Hst) as (data' & E & Hst'); [unfold kBacktrackStackSize; lia|done|].
    rewrite E. cbn [mbind option_bind]. apply sim_next; [done|]. by destruct Hdata.
Qed.

(** A value is popped. *)
Lemma sim_pop s m v s' :
  data_repr s m -> pop_value s = Some (v, s') ->
  exists z m', pop m = Some (z, m') /\ value_repr v z /\ data_repr s' m' /\ pc m' = pc m /\ rest s' = rest s.
Proof.
  intros Hdata Hr. unfold pop_value in Hr. destruct (stack s) as [|v0 st] eqn:Est; [done|]. injection Hr as -> <-.
  pose proof (data_stack _ _ Hdata) as Hst. rewrite Est in Hst. destruct (stack_pop _ _ _ _ _ Hst) as (z & E & Hz & Hst').
  unfold pop. rewrite E. cbn [mbind option_bind]. do 2 eexists. split; [reflexivity|]. split; [done|].
  split; [by destruct Hdata|done].
Qed.

Lemma sim_pop_int s m v s' :
  data_repr s m -> pop_int s = Some (v, s') ->
  exists m', pop m = Some (v, m') /\ data_repr s' m' /\ pc m' = pc m /\ rest s' = rest s.
Proof.
  intros Hdata Hr. unfold pop_int in Hr. destruct (pop_value s) as [[[z|] s1]|] eqn:E; try done. injection Hr as -> ->.
  destruct (sim_pop _ _ _ _ Hdata E) as (z & m' & Hpop & Hz & H). cbn in Hz. subst z. by exists m'.
Qed.

Lemma sim_PushRegister r : simulates (OpPushRegister r).
Proof.
  intros s m res Hok Hcells Hloc Hdata Hr. ranges Hok. cbn [op_cells perform_op] in *. fetch Hcells.
  rewrite instruction_arg, (sim_get r s m) by (done || lia). apply (sim_push _ (VInt <$> get_reg r s) _ s); try done.
  intros v. destruct (get_reg r s) as [z|]; [|done]. intros [= <-]. by exists z.
Qed.

Lemma sim_PushCurrentPosition : simulates OpPushCurrentPosition.
Proof.
  intros s m res Hok Hcells Hloc Hdata Hr. cbn [op_cells perform_op] in *. fetch Hcells.
  apply (sim_push _ (Some (VInt (position s))) _ s); try done.
  intros v [= <-]. rewrite (data_position _ _ Hdata). eexists. by split.
Qed.

Lemma sim_PushBacktrack l : simulates (OpPushBacktrack l).
Proof.
  intros s m res Hok Hcells Hloc Hdata Hr. cbn [op_cells perform_op] in *. fetch Hcells.
  apply (sim_push _ (VCode <$> find_label l prog) _ s); try done.
  intros v Hv. destruct (find_label l prog) as [k|] eqn:Hk; [|done]. injection Hv as <-.
  rewrite (load_ref _ _ _ _ Hcells Hk). eexists. split; [reflexivity|]. by apply located_label.
Qed.

Lemma sim_PopRegister r : simulates (OpPopRegister r).
Proof.
  intros s m res Hok Hcells Hloc Hdata Hr. ranges Hok. cbn [op_cells perform_op] in *. fetch Hcells.
  rewrite instruction_arg by lia. value Hr as [v s1] Ev.
  destruct (sim_pop_int _ _ _ _ Hdata Ev) as (m1 & -> & Hdata1 & Hpc & Hrest). cbn [mbind option_bind].
  apply (sim_put _ _ _ s1); [lia|done| |done]. by rewrite Hpc, Hrest.
Qed.

Lemma sim_PopCurrentPosition : simulates OpPopCurrentPosition.
Proof.
  intros s m res Hok Hcells Hloc Hdata Hr. cbn [op_cells perform_op] in *. fetch Hcells.
  value Hr as [v s1] Ev. destruct (sim_pop_int _ _ _ _ Hdata Ev) as (m1 & -> & Hdata1 & Hpc & Hrest). cbn [mbind option_bind].
  injection Hr as <-. apply sim_next; [cbn [rest with_position pc set_current]; by rewrite Hpc, Hrest|]. by destruct Hdata1.
Qed.

Lemma sim_Backtrack : simulates OpBacktrack.
Proof.
  intros s m res Hok Hcells Hloc Hdata Hr. cbn [op_cells perform_op] in *. fetch Hcells.
  value Hr as [v s1] Ev. destruct (sim_pop _ _ _ _ Hdata Ev) as (z & m1 & -> & Hv & Hdata1 & Hpc & Hrest).
  cbn [mbind option_bind]. destruct v as [|k]; [done|]. injection Hr as <-. eexists. split; [reflexivity|].
  split; [exact Hv|]. by destruct Hdata1.
Qed.

Lemma sim_CheckGreedyLoop l : simulates (OpCheckGreedyLoop l).
Proof.
  intros s m res Hok Hcells Hloc Hdata Hr. cbn [op_cells perform_op] in *. fetch Hcells.
  value Hr as [v s1] Ev. destruct (sim_pop_int _ _ _ _ Hdata Ev) as (m1 & Hpop & Hdata1 & Hpc & Hrest).
  unfold pop in Hpop. destruct (nth_of (backtrack_stack m) (backtrack_sp m - 1)) as [z|]; [|done].
  cbn [mbind option_bind] in *. injection Hpop as -> <-. rewrite (data_position _ _ Hdata).
  destruct (position s =? v); [by apply (sim_jump l [] _ s1)|]. injection Hr as <-. by apply sim_next.
Qed.

Lemma sim_WriteStackPointerToRegister r : simulates (OpWriteStackPointerToRegister r).
Proof.
  intros s m res Hok Hcells Hloc Hdata Hr. ranges Hok. cbn [op_cells perform_op] in *. fetch Hcells.
  rewrite instruction_arg, (stack_sp _ _ _ _ (data_stack _ _ Hdata)) by lia. by apply (sim_put _ _ _ s); [lia|..].
Qed.

Lemma sim_ReadStackPointerFromRegister r : simulates (OpReadStackPointerFromRegister r).
Proof.
  intros s m res Hok Hcells Hloc Hdata Hr. ranges Hok. cbn [op_cells perform_op] in *. fetch Hcells.
  rewrite instruction_arg by lia. value Hr as v Ev. rewrite (sim_get r s m), Ev by (done || lia). cbn [mbind option_bind].
  destruct (Z.leb_spec 0 v); [|done]. destruct (Z.leb_spec v (Z.of_nat (length (stack s)))); [|done]. injection Hr as <-.
  apply sim_next; [done|]. pose proof (stack_cut _ _ _ _ (Z.to_nat v) (data_stack _ _ Hdata) ltac:(lia)) as Hst.
  rewrite Z2Nat.id in Hst by lia. by destruct Hdata.
Qed.

(** ** Jumps and answers *)

Lemma sim_GoTo l : simulates (OpGoTo l).
Proof.
  intros s m res Hok Hcells Hloc Hdata Hr. cbn [op_cells perform_op] in *. fetch Hcells. by apply (sim_jump l [] _ s).
Qed.

Lemma sim_answer b s m : data_repr s m -> sim_outcome (Answer b s) (Return b m).
Proof. intros [Hp Hc Hreg Hst Hcache]. cbn. split; [done|]. split; [done|]. split; [apply Hst|done]. Qed.

Lemma sim_Succeed : simulates OpSucceed.
Proof.
  intros s m res Hok Hcells Hloc Hdata Hr. cbn [op_cells perform_op] in *. fetch Hcells. injection Hr as <-.
  eexists. split; [reflexivity|]. by apply sim_answer.
Qed.

Lemma sim_Fail : simulates OpFail.
Proof.
  intros s m res Hok Hcells Hloc Hdata Hr. cbn [op_cells perform_op] in *. fetch Hcells. injection Hr as <-.
  eexists. split; [reflexivity|]. by apply sim_answer.
Qed.

Lemma sim_AdvanceCurrentPosition n : simulates (OpAdvanceCurrentPosition n).
Proof.
  intros s m res Hok Hcells Hloc Hdata Hr. ranges Hok. cbn [op_cells perform_op] in *. fetch Hcells.
  rewrite instruction_arg by lia. value Hr as p Ep. injection Hr as <-.
  rewrite (data_position _ _ Hdata), (plus_add _ _ _ Ep). apply sim_next; [done|]. by destruct Hdata.
Qed.

(** ** Characters *)

Lemma substring_lookup pos n chars i :
  substring subject pos n = Some chars -> (i < Z.to_nat n)%nat ->
  exists c, nth_of subject (plus pos (Z.of_nat i)) = Some c /\ chars !! i = Some c /\ 0 <= c < (if is_ascii then 128 else 2 ^ 16).
Proof.
  unfold substring. destruct (Z.leb_spec 0 pos); [|done]. destruct (Z.leb_spec (pos + n) (size subject)); [|done].
  intros [= <-] Hi. unfold plus. rewrite sint_arg by lia. unfold nth_of. rewrite (proj2 (Z.leb_le _ _)) by lia.
  unfold size in *. destruct (lookup_lt_is_Some_2 subject (Z.to_nat (pos + Z.of_nat i))) as [c Hc]; [lia|].
  exists c. split; [done|]. split.
  - rewrite lookup_take_lt, lookup_drop by lia.
    by replace (Z.to_nat pos + i)%nat with (Z.to_nat (pos + Z.of_nat i)) by lia.
  - rewrite Forall_lookup in Hsubject. by apply (Hsubject _ _ Hc).
Qed.

Lemma substring_first pos n chars :
  substring subject pos n = Some chars -> 1 <= n ->
  exists c, nth_of subject pos = Some c /\ chars !! 0%nat = Some c /\ 0 <= c < (if is_ascii then 128 else 2 ^ 16).
Proof.
  intros E Hn. destruct (substring_lookup pos n chars 0 E ltac:(lia)) as (c & Hc & H).
  unfold substring in E. destruct (Z.leb_spec 0 pos); [|done]. destruct (Z.leb_spec (pos + n) (size subject)); [|done].
  unfold plus in Hc. rewrite Z.add_0_r, sint_arg in Hc by lia. by exists c.
Qed.

Lemma substring_length pos n chars : 0 <= n -> substring subject pos n = Some chars -> length chars = Z.to_nat n.
Proof.
  unfold substring, size. intros Hn. destruct (Z.leb_spec 0 pos); [|done].
  destruct (Z.leb_spec (pos + n) (Z.of_nat (length subject))); [|done]. intros [= <-]. rewrite length_take, length_drop. lia.
Qed.

Lemma load_1_packed pos c : packed is_ascii subject pos 1 = Some c -> load_1 subject pos = Some c.
Proof.
  unfold packed. rewrite andb_false_r. destruct (substring subject pos 1) as [chars|] eqn:E; [|done]. intros [= <-].
  destruct (substring_first _ _ _ E) as (c & Hc & H0 & _); [lia|]. apply substring_length in E; [|lia].
  destruct chars as [|c0 [|]]; try done. injection H0 as ->. cbn [pack]. unfold load_1. rewrite Hc. f_equal. lia.
Qed.

Lemma lor_shiftl_low a b k : 0 <= a < 2 ^ k -> 0 <= k -> Z.lor a (Z.shiftl b k) = a + 2 ^ k * b.
Proof. intros Ha Hk. rewrite Z.lor_comm, lor_shiftl by done. lia. Qed.

Lemma load_2_packed pos c : packed is_ascii subject pos 2 = Some c -> load_2 is_ascii subject pos = Some c.
Proof.
  unfold packed. rewrite andb_false_r. destruct (substring subject pos 2) as [chars|] eqn:E; [|done]. intros [= <-].
  destruct (substring_first _ _ _ E) as (c0 & Hc0 & H0 & R0); [lia|].
  destruct (substring_lookup _ _ _ 1 E) as (c1 & Hc1 & H1 & R1); [lia|]. apply substring_length in E; [|lia].
  destruct chars as [|d0 [|d1 [|]]]; try done. injection H0 as ->. injection H1 as ->. cbn [pack].
  unfold load_2. change (Z.of_nat 1) with 1 in Hc1. rewrite Hc1, Hc0. cbn [mbind option_bind]. f_equal. unfold kBitsPerChar.
  destruct is_ascii eqn:Ha in R0, R1 |- *; rewrite lor_shiftl_low by lia; rewrite uint_small; lia.
Qed.

Lemma load_4_packed pos c : packed is_ascii subject pos 4 = Some c -> load_4 subject pos = Some c.
Proof.
  unfold packed. rewrite andb_true_r. destruct (negb is_ascii) eqn:Ha; [done|]. apply negb_false_iff in Ha.
  destruct (substring subject pos 4) as [chars|] eqn:E; [|done]. intros [= <-].
  destruct (substring_first _ _ _ E) as (c0 & Hc0 & H0 & R0); [lia|].
  destruct (substring_lookup _ _ _ 1 E) as (c1 & Hc1 & H1 & R1); [lia|].
  destruct (substring_lookup _ _ _ 2 E) as (c2 & Hc2 & H2 & R2); [lia|].
  destruct (substring_lookup _ _ _ 3 E) as (c3 & Hc3 & H3 & R3); [lia|]. apply substring_length in E; [|lia].
  destruct chars as [|d0 [|d1 [|d2 [|d3 [|]]]]]; try done.
  injection H0 as ->. injection H1 as ->. injection H2 as ->. injection H3 as ->. rewrite Ha in R0, R1, R2, R3 |- *. cbn match in *. cbn [pack].
  unfold load_4. change (Z.of_nat 1) with 1 in Hc1. change (Z.of_nat 2) with 2 in Hc2. change (Z.of_nat 3) with 3 in Hc3.
  rewrite Hc1, Hc2, Hc3, Hc0. cbn [mbind option_bind]. f_equal.
  rewrite (lor_shiftl_low c0 c1 8), (lor_shiftl_low _ c2 16), (lor_shiftl_low _ c3 24) by lia. rewrite uint_small; lia.
Qed.

(** The two kinds of loads. *)
Lemma sim_load_checked bc l (beyond : bool) c packed_c s m r :
  cells_at [CRef l] (pc m + 4) -> located (fuse (rest s)) (pc m + BC_LENGTH bc) -> data_repr s m ->
  (forall c', packed_c = Some c' -> c = Some c') ->
  (if beyond then goto prog l s else c ← packed_c; continue (with_character c s)) = Some r ->
  exists o, load_checked code bc beyond c m = Some o /\ sim_outcome r o.
Proof.
  intros Hcells Hloc Hdata Hc Hr. unfold load_checked. destruct beyond; [by apply (sim_jump l [] _ s)|].
  value Hr as c' Ec. rewrite (Hc _ Ec). cbn [mbind option_bind]. injection Hr as <-. apply sim_next; [done|].
  by destruct Hdata.
Qed.

Lemma sim_load_unchecked bc c packed_c s m r :
  located (fuse (rest s)) (pc m + BC_LENGTH bc) -> data_repr s m -> (forall c', packed_c = Some c' -> c = Some c') ->
  (c ← packed_c; continue (with_character c s)) = Some r ->
  exists o, load_unchecked bc c m = Some o /\ sim_outcome r o.
Proof.
  intros Hloc Hdata Hc Hr. unfold load_unchecked. value Hr as c' Ec. rewrite (Hc _ Ec). cbn [mbind option_bind].
  injection Hr as <-. apply sim_next; [done|]. by destruct Hdata.
Qed.

Lemma sim_LoadCurrentCharacter o l check n : simulates (OpLoadCurrentCharacter o l check n).
Proof.
  intros s m res Hok Hcells Hloc Hdata Hr. ranges Hok. cbn [op_cells perform_op] in *.
  value Hr as pos Epos. value Hr as at_end Eend. pose proof (plus_add _ _ _ Eend) as Hend.
  assert (Hadd : at_end = pos + width n).
  { unfold add in Eend. destruct (in_int _); [by injection Eend as <-|done]. }
  unfold load_bytecode, width in *.
  destruct check; cbn [andb] in Hr;
    (destruct (n =? 4); [|destruct (n =? 2)]); fetch Hcells;
    rewrite instruction_arg, (data_position _ _ Hdata), (plus_add _ _ _ Epos) by lia.
  - rewrite Hend. by apply (sim_load_checked _ l _ _ (packed is_ascii subject pos 4) s); [..|apply load_4_packed|].
  - rewrite Hend. by apply (sim_load_checked _ l _ _ (packed is_ascii subject pos 2) s); [..|apply load_2_packed|].
  - assert (Hbeyond : (subject_length subject <=? pos) = (size subject <? at_end)).
    { unfold subject_length, size. rewrite Hadd. apply eq_true_iff_eq. rewrite Z.leb_le, Z.ltb_lt. lia. }
    rewrite Hbeyond. by apply (sim_load_checked _ l _ _ (packed is_ascii subject pos 1) s); [..|apply load_1_packed|].
  - by apply (sim_load_unchecked _ _ (packed is_ascii subject pos 4) s); [..|apply load_4_packed|].
  - by apply (sim_load_unchecked _ _ (packed is_ascii subject pos 2) s); [..|apply load_2_packed|].
  - by apply (sim_load_unchecked _ _ (packed is_ascii subject pos 1) s); [..|apply load_1_packed|].
Qed.

Lemma sim_SetCurrentPositionFromEnd n : simulates (OpSetCurrentPositionFromEnd n).
Proof.
  intros s m res Hok Hcells Hloc Hdata Hr. ranges Hok. cbn [op_cells perform_op] in *. fetch Hcells.
  rewrite instruction_uarg by lia. value Hr as distance Ed. rewrite (data_position _ _ Hdata).
  change (subject_length subject) with (size subject). rewrite (plus_add _ _ _ Ed).
  destruct (n <? distance); [|injection Hr as <-; by apply sim_next]. value Hr as c Ec. injection Hr as <-.
  pose proof Ec as Hc. apply load_1_packed in Hc. unfold load_1 in Hc.
  assert (0 <= size subject - n - 1).
  { unfold nth_of in Hc. destruct (Z.leb_spec 0 (size subject - n - 1)); [lia|done]. }
  assert (Hend : plus (size subject) (- n) = size subject - n) by (unfold plus; rewrite sint_arg; lia).
  rewrite Hend. assert (Hlast : plus (size subject - n) (-1) = size subject - n - 1) by (unfold plus; rewrite sint_arg; lia).
  rewrite Hlast, Hc. cbn [mbind option_bind]. apply sim_next; [done|]. by destruct Hdata.
Qed.

(** ** Back references *)

Lemma substring_bounds pos n chars :
  substring subject pos n = Some chars -> 0 <= pos /\ pos + n <= size subject /\ chars = take (Z.to_nat n) (drop (Z.to_nat pos) subject).
Proof.
  unfold substring. destruct (Z.leb_spec 0 pos); [|done]. destruct (Z.leb_spec (pos + n) (size subject)); [|done].
  by intros [= <-].
Qed.

Lemma same_chars_spec len from here :
  0 <= from -> 0 <= here -> from + Z.of_nat len <= size subject -> here + Z.of_nat len <= size subject ->
  same_chars subject from here len
  = Some (bool_decide (take len (drop (Z.to_nat from) subject) = take len (drop (Z.to_nat here) subject))).
Proof.
  revert from here. induction len as [|len IH]; intros from here Hf Hh Hfl Hhl; [done|]. cbn [same_chars].
  unfold nth_of. rewrite !(proj2 (Z.leb_le _ _)) by lia. unfold size in *.
  destruct (lookup_lt_is_Some_2 subject (Z.to_nat from)) as [c1 H1]; [lia|].
  destruct (lookup_lt_is_Some_2 subject (Z.to_nat here)) as [c2 H2]; [lia|].
  rewrite H1, H2, (drop_S _ _ _ H1), (drop_S _ _ _ H2). cbn [mbind option_bind take].
  destruct (Z.eqb_spec c1 c2) as [->|Hne].
  - unfold plus. rewrite !sint_arg, IH by lia. f_equal. rewrite !Z2Nat.inj_add by lia.
    change (Z.to_nat 1) with 1%nat. rewrite !Nat.add_1_r. apply bool_decide_ext. split; [by intros ->|by intros [= ->]].
  - f_equal. symmetry. apply bool_decide_eq_false. congruence.
Qed.

Lemma same_chars_no_case_spec from here len cache :
  0 <= from -> 0 <= here -> from + Z.of_nat len <= size subject -> here + Z.of_nat len <= size subject ->
  cache_ok Ecma262Canonicalize_Convert cache ->
  exists cache', same_chars_no_case is_ascii subject from here len cache
    = Some (bool_decide (same_case (take len (drop (Z.to_nat from) subject)) (take len (drop (Z.to_nat here) subject))), cache')
    /\ cache_ok Ecma262Canonicalize_Convert cache'.
Proof.
  intros Hf Hh Hfl Hhl Hcache. unfold same_chars_no_case, size in *. rewrite !(proj2 (Z.ltb_ge _ _)) by lia. cbn [orb].
  assert (H16 : Forall (fun c => 0 <= c < 2 ^ 16) subject).
  { eapply Forall_impl; [exact Hsubject|]. intros c Hc. cbn beta in Hc. destruct is_ascii in Hc; lia. }
  destruct (BackRefMatchesNoCase_spec len (Z.to_nat from) (Z.to_nat here) subject cache) as (same & cache' & E & Hok' & Hsame);
    [lia|lia|done|done|].
  assert (Hb : same = bool_decide (same_case (take len (drop (Z.to_nat from) subject)) (take len (drop (Z.to_nat here) subject)))).
  { apply eq_true_iff_eq. by rewrite bool_decide_eq_true. }
  rewrite <- Hb. destruct (decide (is_ascii = true)) as [Ha|Ha].
  - exists cache. split; [|done]. rewrite Ha. rewrite (BackRef_ascii_agrees _ _ _ _ cache), E; [done|lia|lia| |done].
    eapply Forall_impl; [exact Hsubject|]. intros c Hc. cbn beta in Hc. by rewrite Ha in Hc.
  - apply not_true_is_false in Ha. rewrite Ha. by exists cache'.
Qed.

Lemma sim_back_reference_guard r s m from to len :
  0 <= r -> data_repr s m -> get_reg r s = Some from -> get_reg (r + 1) s = Some to -> add to (- from) = Some len ->
  nth_of (registers m) r = Some from /\ nth_of (registers m) (r + 1) = Some to /\ sint 32 (to - from) = len.
Proof.
  intros Hr Hdata Hf Ht Hl. rewrite (sim_get r s m), (sim_get (r + 1) s m) by (done || lia). split; [done|]. split; [done|].
  apply plus_add in Hl. exact Hl.
Qed.

(** What both instructions do before the comparison. *)
Ltac back_reference_guards Hr Hdata r l s m :=
  let from := fresh "from" in let to := fresh "to" in let len := fresh "len" in
  let H1 := fresh in let H2 := fresh in let H3 := fresh in let Eend := fresh "Eend" in let at_end := fresh "at_end" in
  let Eg := fresh in let Eh := fresh in let Ef := fresh in let Et := fresh in let El := fresh in
  let group := fresh in let here := fresh in let Hguard := fresh in let Hfrom := fresh in let Hlen := fresh in
  unfold back_reference in Hr;
  value Hr as from Ef; value Hr as to Et; value Hr as len El;
  destruct (sim_back_reference_guard r s m from to len) as (H1 & H2 & H3); [lia|done..|];
  rewrite instruction_arg, H1 by lia; cbn [mbind option_bind]; rewrite H2; cbn [mbind option_bind]; rewrite H3;
  destruct ((from <? 0) || (len <=? 0)) eqn:Hguard; [injection Hr as <-; by apply sim_next|];
  apply orb_false_iff in Hguard as [Hfrom Hlen]; rewrite Z.ltb_ge in Hfrom; rewrite Z.leb_gt in Hlen;
  value Hr as at_end Eend; rewrite (data_position _ _ Hdata), (plus_add _ _ _ Eend);
  change (subject_length subject) with (size subject);
  destruct (size subject <? at_end); [by apply (sim_jump l [] _ s)|];
  value Hr as group Eg; value Hr as here Eh;
  apply substring_bounds in Eg as (_ & ? & ->); apply substring_bounds in Eh as (? & ? & ->).

Lemma sim_CheckNotBackReference r l : simulates (OpCheckNotBackReference r l).
Proof.
  intros s m res Hok Hcells Hloc Hdata Hr. ranges Hok. cbn [op_cells perform_op] in *. fetch Hcells.
  back_reference_guards Hr Hdata r l s m. rewrite same_chars_spec by lia. cbn [mbind option_bind].
  case_bool_decide; [|by apply (sim_jump l [] _ s)]. injection Hr as <-. apply sim_next; [done|]. by destruct Hdata.
Qed.

Lemma sim_CheckNotBackReferenceIgnoreCase r l : simulates (OpCheckNotBackReferenceIgnoreCase r l).
Proof.
  intros s m res Hok Hcells Hloc Hdata Hr. ranges Hok. cbn [op_cells perform_op] in *. fetch Hcells.
  back_reference_guards Hr Hdata r l s m.
  match goal with |- context [same_chars_no_case _ _ ?from ?here ?n ?cache] =>
    destruct (same_chars_no_case_spec from here n cache) as (cache' & -> & Hcache'); [lia..|by destruct Hdata|] end.
  cbn [mbind option_bind]. assert (Hdata' : data_repr s (set_canonicalize cache' m)) by (by destruct Hdata).
  rewrite (data_position _ _ Hdata'). erewrite plus_add by eassumption.
  case_bool_decide; [|by apply (sim_jump l [] _ s)]. injection Hr as <-. apply sim_next; [done|].
  by destruct Hdata'.
Qed.

(** Every call but [Bind]. *)
Lemma perform_simulates op : (forall l, op <> OpBind l) -> simulates op.
Proof.
  destruct op; intros H; [by destruct (H l)|..];
    [apply sim_PopRegister|apply sim_PushRegister|apply sim_WriteCurrentPositionToRegister|apply sim_ReadCurrentPositionFromRegister
    |apply sim_WriteStackPointerToRegister|apply sim_ReadStackPointerFromRegister|apply sim_SetCurrentPositionFromEnd
    |apply sim_SetRegister|apply sim_AdvanceRegister|apply sim_PopCurrentPosition|apply sim_PushCurrentPosition|apply sim_Backtrack
    |apply sim_GoTo|apply sim_PushBacktrack|apply sim_Succeed|apply sim_Fail|apply sim_AdvanceCurrentPosition
    |apply sim_CheckGreedyLoop|apply sim_LoadCurrentCharacter|apply sim_CheckCharacterLT|apply sim_CheckCharacterGT
    |apply sim_CheckCharacter|apply sim_CheckAtStart|apply sim_CheckNotAtStart|apply sim_CheckNotCharacter
    |apply sim_CheckCharacterAfterAnd|apply sim_CheckNotCharacterAfterAnd|apply sim_CheckNotCharacterAfterMinusAnd
    |apply sim_CheckNotBackReference|apply sim_CheckNotBackReferenceIgnoreCase|apply sim_CheckNotRegistersEqual
    |apply sim_IfRegisterLT|apply sim_IfRegisterGE|apply sim_IfRegisterEqPos].
Qed.

(** ** A run *)

Definition instr_ok (i : Instr) : bool :=
  match i with IOp op => op_ok op | IAdvanceGoTo by_ l => op_ok (OpAdvanceCurrentPosition by_) end.

Lemma fuse_ok k : Forall op_ok k -> Forall instr_ok (fuse k).
Proof.
  induction k as [|op k Hun IH|by_ l k IH] using fuse_ind; intros H; [constructor| |].
  - apply Forall_cons in H as [Hop H]. rewrite fuse_cons by done. constructor; [done|by apply IH].
  - apply Forall_cons in H as [Hop H]. apply Forall_cons in H as [_ H]. constructor; [done|by apply IH].
Qed.

Lemma run_mono fuel fuel' m r :
  run is_ascii code subject fuel m = Some r -> (fuel <= fuel')%nat -> run is_ascii code subject fuel' m = Some r.
Proof.
  revert fuel' m. induction fuel as [|fuel IH]; intros fuel' m H Hle; [done|]. destruct fuel' as [|fuel']; [lia|].
  cbn [run] in *. destruct (step is_ascii code subject m) as [[m'|b m']|]; cbn [mbind option_bind] in *; [|done|done].
  apply IH; [done|lia].
Qed.

Context (Hops : Forall op_ok ops).

Lemma located_ok i instrs p : located (i :: instrs) p -> instr_ok i = true.
Proof.
  intros (pre & E & _). assert (H : Forall instr_ok (fuse prog)).
  { apply fuse_ok. unfold program. apply Forall_app. split; [done|]. by repeat constructor. }
  rewrite E, Forall_app, Forall_cons in H. destruct H as (_ & H & _). by apply Is_true_true.
Qed.

Definition answers (b : bool) (s : State) (r : option (bool * Machine)) : Prop :=
  exists m, r = Some (b, m) /\ sim_outcome (Answer b s) (Return b m).

Lemma answers_mono b s fuel fuel' m :
  answers b s (run is_ascii code subject fuel m) -> (fuel <= fuel')%nat -> answers b s (run is_ascii code subject fuel' m).
Proof. intros (m' & E & H) Hle. exists m'. split; [by apply (run_mono fuel)|done]. Qed.

(** [AdvanceCurrentPosition] and the [GoTo] behind it are one instruction. *)
Lemma sim_advance_goto by_ l k s m s1 r :
  rest s = OpAdvanceCurrentPosition by_ :: OpGoTo l :: k -> sim s m ->
  step_op is_ascii subject prog s = Some (More s1) -> step_op is_ascii subject prog s1 = Some r ->
  exists o, step is_ascii code subject m = Some o /\ sim_outcome r o.
Proof.
  intros Hrest [Hloc Hdata] H1 H2. rewrite Hrest in Hloc. cbn [fuse] in Hloc.
  pose proof (located_ok _ _ _ Hloc) as Hok. cbn [instr_ok] in Hok. ranges Hok. pose proof (located_cells _ _ _ Hloc) as Hcells.
  cbn [instr_cells] in Hcells. fetch Hcells. rewrite instruction_arg by lia. unfold step_op in H1. rewrite Hrest in H1.
  cbn [perform_op] in H1. value H1 as p Ep. injection H1 as <-. cbn [position with_rest] in Ep.
  rewrite (data_position _ _ Hdata), (plus_add _ _ _ Ep).
  apply (sim_jump l [] _ (with_rest k (with_position p (with_rest (OpGoTo l :: k) s)))); [done| |exact H2].
  by destruct Hdata.
Qed.

Lemma run_sim fuel s m b s' :
  sim s m -> run_ops is_ascii subject prog fuel s = Some (b, s') -> answers b s' (run is_ascii code subject fuel m).
Proof.
  revert s m. induction fuel as [fuel IH] using lt_wf_ind. intros s m Hsim Hrun.
  destruct fuel as [|fuel]; [done|]. cbn [run_ops] in Hrun. value Hrun as res Eres.
  assert (Hgo : forall fuel' res o, (fuel' <= fuel)%nat -> step is_ascii code subject m = Some o -> sim_outcome res o ->
    match res with More s => run_ops is_ascii subject prog fuel' s | Answer b s => Some (b, s) end = Some (b, s') ->
    answers b s' (run is_ascii code subject (S fuel) m)).
  { intros fuel' res' o Hle Eo Ho Hres. cbn [run]. rewrite Eo. cbn [mbind option_bind].
    destruct res' as [s1|b1 s1], o as [m1|b2 m1]; try done.
    - apply (answers_mono b s' fuel'); [|done]. apply (IH fuel' ltac:(lia) s1); done.
    - injection Hres as -> ->. destruct Ho as [-> Ho]. by exists m1. }
  destruct (rest s) as [|op k] eqn:Hrest; [unfold step_op in Eres; by rewrite Hrest in Eres|].
  destruct (unfused_or op k) as [Hun|(by_ & l & k' & -> & ->)].
  - pose proof Hsim as [Hloc Hdata]. rewrite Hrest, fuse_cons in Hloc by done.
    unfold step_op in Eres. rewrite Hrest in Eres.
    assert (Hbind : (exists l, op = OpBind l) \/ (forall l, op <> OpBind l)) by (destruct op; eauto).
    destruct Hbind as [[l ->]|Hbind].
    + injection Eres as <-. apply (answers_mono b s' fuel); [|lia]. apply (IH fuel ltac:(lia) (with_rest k s)); [|done].
      apply located_tail in Hloc. cbn in Hloc. rewrite Z.add_0_r in Hloc. split; [exact Hloc|]. by destruct Hdata.
    + destruct (perform_simulates op) with (s := with_rest k s) (m := m) (r := res) as (o & Eo & Ho); try done.
      * apply (located_ok _ _ _ Hloc).
      * apply (located_cells _ _ _ Hloc).
      * apply (located_tail _ _ _ Hloc).
      * by destruct Hdata.
      * by apply (Hgo fuel res o).
  - destruct res as [s1|b1 s1]; [|unfold step_op in Eres; rewrite Hrest in Eres; cbn [perform_op] in Eres; by value Eres as p Ep].
    destruct fuel as [|fuel]; [done|]. cbn [run_ops] in Hrun. value Hrun as res Eres2.
    destruct (sim_advance_goto by_ l k' s m s1 res Hrest Hsim Eres Eres2) as (o & Eo & Ho).
    apply (Hgo fuel res o); [lia|done..].
Qed.
End correct.

(** ** The whole *)

(** The cached stack has the size of a stack, and the cache of the mapping holds what it maps. *)
Definition isolate_ok (isolate : Isolate) : Prop :=
  (forall data, irregexp_interpreter_backtrack_stack_cache isolate = Some data -> Z.of_nat (length data) = kBacktrackStackSize)
  /\ cache_ok Ecma262Canonicalize_Convert (interp_canonicalize_mapping isolate).

Definition content (is_ascii : bool) (subject : list Z) : FlatContent := if is_ascii then Ascii subject else TwoByte subject.

(** Where a match begins: the character in front of the start counts as read. *)
Definition start_state (ops : list Op) (subject : list Z) (registers : list Z) (start : Z) : option State :=
  c ← (if start =? 0 then Some 10 else subject !! Z.to_nat (start - 1));
  Some (MkState (program ops) start c registers []).

(** C38: Assembler and interpreter together keep the contract of the macro assembler: if the calls of the compiler, run as
    they are on a machine without addresses, jumps into bytes and wrap-around, answer [b] after some number of calls, then the code that
    [GetCode] produces for them exists and [IrregexpInterpreter::Match] on it answers [b] with the same registers, within as many instructions;
    also when memory, the stack of an earlier match and the cache of canonical characters hold something else, and it leaves a stack in the cache of
    the isolate. *)
Theorem Match_correct (is_ascii : bool) subject ops memory buffer raw (isolate : Isolate) fuel (registers : list Z) start s b s' :
  (4 <= length buffer)%nat -> well_formed ops -> Forall op_ok ops ->
  Forall (fun c => 0 <= c < if is_ascii then 128 else 2 ^ 16) subject -> size subject < 2 ^ 31 -> 0 <= start ->
  Z.of_nat (length raw) = kBacktrackStackSize -> isolate_ok isolate ->
  start_state ops subject registers start = Some s ->
  run_ops is_ascii subject (program ops) fuel s = Some (b, s') ->
  exists code (isolate' : Isolate), assemble memory buffer ops = Some code
    /\ Match raw fuel isolate code (content is_ascii subject) registers start = Some (b, regs s', isolate')
    /\ isolate_ok isolate' /\ irregexp_interpreter_backtrack_stack_cache isolate' <> None.
Proof.
  intros Hroom Hwf Hops Hsubject Hsize Hstart Hraw [Hstack Hcache] Hs Hrun.
  exists (program_bytes ops). unfold start_state in Hs. apply bind_Some in Hs as (c & Hc & [= <-]).
  assert (Hchar : (if start =? 0 then Some 10 else nth_of subject (start - 1)) = Some c).
  { destruct (Z.eqb_spec start 0); [done|]. unfold nth_of. by rewrite (proj2 (Z.leb_le _ _)) by lia. }
  assert (HMatch : Match raw fuel isolate (program_bytes ops) (content is_ascii subject) registers start
    = RawMatch is_ascii (program_bytes ops) subject raw fuel isolate registers start c).
  { unfold Match. destruct is_ascii; cbn [content]; by rewrite Hchar. }
  rewrite HMatch. unfold RawMatch.
  assert (exists data cached, BacktrackStack raw isolate = (data, MkIsolate cached (interp_canonicalize_mapping isolate))
    /\ cached = None /\ Z.of_nat (length data) = kBacktrackStackSize) as (data & cached & -> & -> & Hdata).
  { unfold BacktrackStack. destruct isolate as [[data|] mapping]; do 2 eexists; (split; [reflexivity|]); [|done].
    split; [done|]. by apply Hstack. }
  destruct (run_sim is_ascii subject ops Hwf Hsubject Hsize Hops fuel (MkState (program ops) start c registers [])
    (MkMachine 0 start c registers data 0 kBacktrackStackSize (interp_canonicalize_mapping isolate)) b s') as (m & E & _ & Hregs & Hlen & Hcache').
  - split; [by exists []|]. split; done.
  - exact Hrun.
  - cbn [interp_canonicalize_mapping irregexp_interpreter_backtrack_stack_cache]. rewrite E. cbn [mbind option_bind]. rewrite Hregs.
    eexists. split; [by apply assemble_bytes|]. split; [reflexivity|]. split; [|done]. split; [|done].
    by intros data' [= <-].
Qed.

(** A group of any number of the letter a and a back reference to it, without case, at the start of "aaAA". *)
Definition sample_match : list Op :=
  [OpPushBacktrack (Some 2%nat); OpWriteCurrentPositionToRegister 0 0;
   OpBind (Some 0%nat); OpLoadCurrentCharacter 0 (Some 1%nat) true 1; OpCheckNotCharacter 97 (Some 1%nat);
   OpAdvanceCurrentPosition 1; OpGoTo (Some 0%nat);
   OpBind (Some 1%nat); OpWriteCurrentPositionToRegister 1 0; OpCheckNotBackReferenceIgnoreCase 0 None;
   OpWriteCurrentPositionToRegister 2 0; OpSucceed; OpBind (Some 2%nat); OpFail].

Lemma Match_correct_witness :
  exists code (isolate' : Isolate), assemble (fun _ => 7) (replicate 8 0) sample_match = Some code
    /\ Match (replicate (Z.to_nat kBacktrackStackSize) 0) 30 (MkIsolate None (Mapping_new kLogSize)) code (content true [97; 97; 65; 65]) [-1; -1; -1] 0
       = Some (true, [0; 2; 4], isolate')
    /\ isolate_ok isolate' /\ irregexp_interpreter_backtrack_stack_cache isolate' <> None.
Proof.
  apply (Match_correct true [97; 97; 65; 65] sample_match (fun _ => 7) (replicate 8 0) (replicate (Z.to_nat kBacktrackStackSize) 0)
    (MkIsolate None (Mapping_new kLogSize)) 30 [-1; -1; -1] 0
    (MkState (program sample_match) 0 10 [-1; -1; -1] []) true
    (MkState [OpBind (Some 2%nat); OpFail; OpBind None; OpBacktrack] 4 65 [0; 2; 4] [VCode [OpFail; OpBind None; OpBacktrack]])).
  - cbn. lia.
  - split; [apply (bool_decide_unpack _); vm_compute; exact I..|reflexivity].
  - repeat constructor.
  - repeat (constructor; [cbn; lia|]). constructor.
  - reflexivity.
  - lia.
  - by rewrite length_replicate.
  - split; [done|apply new_caches_ok].
  - reflexivity.
  - vm_compute. reflexivity.
Defined.
