(* ===== verification/RelocInfo.v ===== *)
(** * RelocInfo: relocation information

    Models [RelocInfoWriter] and [RelocIterator] of src/assembler.cc and assembler.h.  The records are
    written from high addresses to low ones, byte by byte, and read in the same
    order.  The memory is the list of bytes of the buffer and [pos_] an index into it; an access outside of the
    buffer is [None].  Addresses of code are integers.  [kIntptrSize] is 4 or 8. *)

From S2P Require Import Prelude.
Local Open Scope Z_scope.

(** ** Records *)

Inductive Mode :=
  | CODE_TARGET | CODE_TARGET_WITH_ID | CONSTRUCT_CALL | CODE_TARGET_CONTEXT | DEBUG_BREAK
  | EMBEDDED_OBJECT | GLOBAL_PROPERTY_CELL | RUNTIME_ENTRY | JS_RETURN | COMMENT
  | POSITION | STATEMENT_POSITION | DEBUG_BREAK_SLOT | EXTERNAL_REFERENCE | INTERNAL_REFERENCE.

#[export] Instance Mode_eq_dec : EqDecision Mode.
Proof. solve_decision. Defined.

(** The numbers of the enumeration. *)
Definition mode_value (m : Mode) : Z :=
  match m with
  | CODE_TARGET => 0 | CODE_TARGET_WITH_ID => 1 | CONSTRUCT_CALL => 2 | CODE_TARGET_CONTEXT => 3
  | DEBUG_BREAK => 4 | EMBEDDED_OBJECT => 5 | GLOBAL_PROPERTY_CELL => 6 | RUNTIME_ENTRY => 7
  | JS_RETURN => 8 | COMMENT => 9 | POSITION => 10 | STATEMENT_POSITION => 11
  | DEBUG_BREAK_SLOT => 12 | EXTERNAL_REFERENCE => 13 | INTERNAL_REFERENCE => 14
  end.

Definition all_modes : list Mode :=
  [CODE_TARGET; CODE_TARGET_WITH_ID; CONSTRUCT_CALL; CODE_TARGET_CONTEXT; DEBUG_BREAK; EMBEDDED_OBJECT;
   GLOBAL_PROPERTY_CELL; RUNTIME_ENTRY; JS_RETURN; COMMENT; POSITION; STATEMENT_POSITION; DEBUG_BREAK_SLOT;
   EXTERNAL_REFERENCE; INTERNAL_REFERENCE].

(** [static_cast<Mode>], [None] for the pseudo-types and beyond. *)
Definition mode_of (n : Z) : option Mode := find_first (fun m => mode_value m =? n) all_modes.

Definition LAST_COMPACT_ENUM : Z := 1.

Definition IsPosition (m : Mode) : bool := bool_decide (m = POSITION \/ m = STATEMENT_POSITION).
Definition IsComment (m : Mode) : bool := bool_decide (m = COMMENT).

Definition kPositionMask : Z := Z.lor (Z.shiftl 1 10) (Z.shiftl 1 11).

Record RelocInfo := MkRelocInfo { pc : Z; rmode : Mode; data : Z }.

(** ** Constants of the encoding *)

Definition kTagBits : Z := 2.
Definition kTagMask : Z := Z.shiftl 1 kTagBits - 1.
Definition kExtraTagBits : Z := 4.
Definition kLocatableTypeTagBits : Z := 2.
Definition kSmallDataBits : Z := 8 - kLocatableTypeTagBits.

Definition kEmbeddedObjectTag : Z := 0.
Definition kCodeTargetTag : Z := 1.
Definition kLocatableTag : Z := 2.
Definition kDefaultTag : Z := 3.

Definition kPCJumpExtraTag : Z := Z.shiftl 1 kExtraTagBits - 1.

Definition kSmallPCDeltaBits : Z := 8 - kTagBits.
Definition kSmallPCDeltaMask : Z := Z.shiftl 1 kSmallPCDeltaBits - 1.

Definition kVariableLengthPCJumpTopTag : Z := 1.
Definition kChunkBits : Z := 7.
Definition kChunkMask : Z := Z.shiftl 1 kChunkBits - 1.
Definition kLastChunkTagBits : Z := 1.
Definition kLastChunkTagMask : Z := 1.
Definition kLastChunkTag : Z := 1.

Definition kDataJumpExtraTag : Z := kPCJumpExtraTag - 1.

Definition kCodeWithIdTag : Z := 0.
Definition kNonstatementPositionTag : Z := 1.
Definition kStatementPositionTag : Z := 2.
Definition kCommentTag : Z := 3.

Definition kIntSize : nat := 4.

Definition kMaxSize : Z := 16.
Definition kMaxCallSize : Z := 6.
Definition kMinRelocCommentSize (kPointerSize : nat) : Z := 3 + Z.of_nat kPointerSize.

Definition is_intn (x n : Z) : bool := (- Z.shiftl 1 (n - 1) <=? x) && (x <? Z.shiftl 1 (n - 1)).
Definition is_uintn (x n : Z) : bool := Z.land (sint 32 x) (- Z.shiftl 1 n) =? 0.

(** ** The writer *)

Section RelocInfo.
Context (kIntptrSize : nat).

Record RelocInfoWriter := MkWriter {
  memory : list Z;
  pos_ : Z;
  last_pc_ : Z;
  last_id_ : Z;
  last_position_ : Z
}.

Definition RelocInfoWriter_new (mem : list Z) (pos pc : Z) : RelocInfoWriter := MkWriter mem pos pc 0 0.

Definition set_memory (mem : list Z) (pos : Z) (w : RelocInfoWriter) : RelocInfoWriter :=
  MkWriter mem pos (last_pc_ w) (last_id_ w) (last_position_ w).

(** The buffer was moved: the contents of the new one come with it. *)
Definition Reposition (mem : list Z) (pos pc : Z) (w : RelocInfoWriter) : RelocInfoWriter :=
  MkWriter mem pos pc (last_id_ w) (last_position_ w).

(** [*--pos_ = b], a byte *)
Definition put (b : Z) (w : RelocInfoWriter) : option RelocInfoWriter :=
  let pos := pos_ w - 1 in
  if (0 <=? pos) && (pos <? Z.of_nat (length (memory w)))
  then Some (set_memory (<[Z.to_nat pos := uint 8 b]> (memory w)) pos w) else None.

Definition WriteExtraTag (extra_tag top_tag : Z) (w : RelocInfoWriter) : option RelocInfoWriter :=
  put (Z.lor (Z.lor (Z.shiftl top_tag (kTagBits + kExtraTagBits)) (Z.shiftl extra_tag kTagBits)) kDefaultTag) w.

(** A chunk of seven bits in each round, so four rounds are enough for the 26 bits that are left. *)
Fixpoint chunk_loop (fuel : nat) (pc_jump : Z) (w : RelocInfoWriter) : option RelocInfoWriter :=
  match fuel with
  | O => None
  | S fuel =>
      if 0 <? pc_jump then
        w ← put (Z.shiftl (Z.land pc_jump kChunkMask) kLastChunkTagBits) w;
        chunk_loop fuel (Z.shiftr pc_jump kChunkBits) w
      else Some w
  end.

Definition WriteVariableLengthPCJump (pc_delta : Z) (w : RelocInfoWriter) : option (Z * RelocInfoWriter) :=
  if is_uintn pc_delta kSmallPCDeltaBits then Some (pc_delta, w)
  else
    w ← WriteExtraTag kPCJumpExtraTag kVariableLengthPCJumpTopTag w;
    w ← chunk_loop 5 (Z.shiftr pc_delta kSmallPCDeltaBits) w;
    last ← memory w !! Z.to_nat (pos_ w);
    Some (Z.land pc_delta kSmallPCDeltaMask,
      set_memory (<[Z.to_nat (pos_ w) := Z.lor last kLastChunkTag]> (memory w)) (pos_ w) w).

Definition WriteTaggedPC (pc_delta tag : Z) (w : RelocInfoWriter) : option RelocInfoWriter :=
  '(pc_delta, w) ← WriteVariableLengthPCJump pc_delta w;
  put (Z.lor (Z.shiftl pc_delta kTagBits) tag) w.

Definition WriteTaggedData (data_delta tag : Z) (w : RelocInfoWriter) : option RelocInfoWriter :=
  put (Z.lor (Z.shiftl data_delta kLocatableTypeTagBits) tag) w.

Definition WriteExtraTaggedPC (pc_delta extra_tag : Z) (w : RelocInfoWriter) : option RelocInfoWriter :=
  '(pc_delta, w) ← WriteVariableLengthPCJump pc_delta w;
  w ← WriteExtraTag extra_tag 0 w;
  put pc_delta w.

(** The loop over the bytes of a number. *)
Fixpoint data_loop (n : nat) (data_delta : Z) (w : RelocInfoWriter) : option RelocInfoWriter :=
  match n with
  | O => Some w
  | S n => w ← put data_delta w; data_loop n (Z.shiftr data_delta 8) w
  end.

Definition WriteExtraTaggedIntData (data_delta top_tag : Z) (w : RelocInfoWriter) : option RelocInfoWriter :=
  w ← WriteExtraTag kDataJumpExtraTag top_tag w; data_loop kIntSize data_delta w.

Definition WriteExtraTaggedData (data_delta top_tag : Z) (w : RelocInfoWriter) : option RelocInfoWriter :=
  w ← WriteExtraTag kDataJumpExtraTag top_tag w; data_loop kIntptrSize data_delta w.

Definition set_last_pc (pc : Z) (w : RelocInfoWriter) : RelocInfoWriter :=
  MkWriter (memory w) (pos_ w) pc (last_id_ w) (last_position_ w).
Definition set_last_id (id : Z) (w : RelocInfoWriter) : RelocInfoWriter :=
  MkWriter (memory w) (pos_ w) (last_pc_ w) id (last_position_ w).
Definition set_last_position (p : Z) (w : RelocInfoWriter) : RelocInfoWriter :=
  MkWriter (memory w) (pos_ w) (last_pc_ w) (last_id_ w) p.

(** Delta encoding of an id or of a position. *)
Definition write_locatable (pc_delta delta tag : Z) (w : RelocInfoWriter) : option RelocInfoWriter :=
  if is_intn delta kSmallDataBits then
    w ← WriteTaggedPC pc_delta kLocatableTag w; WriteTaggedData delta tag w
  else
    w ← WriteExtraTaggedPC pc_delta kPCJumpExtraTag w; WriteExtraTaggedIntData delta tag w.

Definition Write (rinfo : RelocInfo) (w : RelocInfoWriter) : option RelocInfoWriter :=
  let pc_delta := uint 32 (pc rinfo - last_pc_ w) in
  w ← (match rmode rinfo with
       | EMBEDDED_OBJECT => WriteTaggedPC pc_delta kEmbeddedObjectTag w
       | CODE_TARGET => WriteTaggedPC pc_delta kCodeTargetTag w
       | CODE_TARGET_WITH_ID =>
           let id_delta := sint 32 (sint 32 (data rinfo) - last_id_ w) in
           w ← write_locatable pc_delta id_delta kCodeWithIdTag w;
           Some (set_last_id (sint 32 (data rinfo)) w)
       | POSITION | STATEMENT_POSITION =>
           let pos_delta := sint 32 (sint 32 (data rinfo) - last_position_ w) in
           let pos_type_tag := if bool_decide (rmode rinfo = POSITION) then kNonstatementPositionTag else kStatementPositionTag in
           w ← write_locatable pc_delta pos_delta pos_type_tag w;
           Some (set_last_position (sint 32 (data rinfo)) w)
       | COMMENT =>
           w ← WriteExtraTaggedPC pc_delta kPCJumpExtraTag w; WriteExtraTaggedData (data rinfo) kCommentTag w
       | mode =>
           let saved_mode := mode_value mode - LAST_COMPACT_ENUM in
           WriteExtraTaggedPC pc_delta saved_mode w
       end);
  Some (set_last_pc (pc rinfo) w).

Fixpoint write_all (rinfos : list RelocInfo) (w : RelocInfoWriter) : option RelocInfoWriter :=
  match rinfos with
  | [] => Some w
  | rinfo :: rinfos => w ← Write rinfo w; write_all rinfos w
  end.

(** ** The iterator *)

Record RelocIterator := MkIterator {
  it_memory : list Z;
  it_pos : Z;
  end_ : Z;
  rinfo_ : RelocInfo;
  done_ : bool;
  mode_mask_ : Z;
  it_last_id : Z;
  it_last_position : Z
}.

Definition with_pos (p : Z) (it : RelocIterator) : RelocIterator :=
  MkIterator (it_memory it) p (end_ it) (rinfo_ it) (done_ it) (mode_mask_ it) (it_last_id it) (it_last_position it).
Definition with_rinfo (r : RelocInfo) (it : RelocIterator) : RelocIterator :=
  MkIterator (it_memory it) (it_pos it) (end_ it) r (done_ it) (mode_mask_ it) (it_last_id it) (it_last_position it).
Definition with_done (d : bool) (it : RelocIterator) : RelocIterator :=
  MkIterator (it_memory it) (it_pos it) (end_ it) (rinfo_ it) d (mode_mask_ it) (it_last_id it) (it_last_position it).
Definition with_last_id (x : Z) (it : RelocIterator) : RelocIterator :=
  MkIterator (it_memory it) (it_pos it) (end_ it) (rinfo_ it) (done_ it) (mode_mask_ it) x (it_last_position it).
Definition with_last_position (x : Z) (it : RelocIterator) : RelocIterator :=
  MkIterator (it_memory it) (it_pos it) (end_ it) (rinfo_ it) (done_ it) (mode_mask_ it) (it_last_id it) x.

Definition add_pc (d : Z) (it : RelocIterator) : RelocIterator :=
  with_rinfo (MkRelocInfo (pc (rinfo_ it) + d) (rmode (rinfo_ it)) (data (rinfo_ it))) it.
Definition set_data (x : Z) (it : RelocIterator) : RelocIterator :=
  with_rinfo (MkRelocInfo (pc (rinfo_ it)) (rmode (rinfo_ it)) x) it.

Definition Advance (bytes : Z) (it : RelocIterator) : RelocIterator := with_pos (it_pos it - bytes) it.

(** [*pos_] *)
Definition current (it : RelocIterator) : option Z :=
  if 0 <=? it_pos it then it_memory it !! Z.to_nat (it_pos it) else None.

(** [*--pos_] *)
Definition fetch (it : RelocIterator) : option (Z * RelocIterator) :=
  let it := Advance 1 it in b ← current it; Some (b, it).

Definition AdvanceGetTag (it : RelocIterator) : option (Z * RelocIterator) :=
  '(b, it) ← fetch it; Some (Z.land b kTagMask, it).

Definition GetExtraTag (it : RelocIterator) : option Z :=
  b ← current it; Some (Z.land (Z.shiftr b kTagBits) (Z.shiftl 1 kExtraTagBits - 1)).

Definition GetTopTag (it : RelocIterator) : option Z :=
  b ← current it; Some (Z.shiftr b (kTagBits + kExtraTagBits)).

Definition ReadTaggedPC (it : RelocIterator) : option RelocIterator :=
  b ← current it; Some (add_pc (Z.shiftr b kTagBits) it).

Definition AdvanceReadPC (it : RelocIterator) : option RelocIterator :=
  '(b, it) ← fetch it; Some (add_pc b it).

(** [n] bytes from the lowest one on, into a number of [w] bits. *)
Fixpoint read_loop (n i : nat) (x : Z) (it : RelocIterator) : option (Z * RelocIterator) :=
  match n with
  | O => Some (x, it)
  | S n => '(b, it) ← fetch it; read_loop n (S i) (Z.lor x (Z.shiftl b (Z.of_nat i * 8))) it
  end.

Definition AdvanceReadId (it : RelocIterator) : option RelocIterator :=
  '(x, it) ← read_loop kIntSize 0 0 it;
  let id := sint 32 (it_last_id it + sint 32 x) in
  Some (set_data id (with_last_id id it)).

Definition AdvanceReadPosition (it : RelocIterator) : option RelocIterator :=
  '(x, it) ← read_loop kIntSize 0 0 it;
  let p := sint 32 (it_last_position it + sint 32 x) in
  Some (set_data p (with_last_position p it)).

Definition AdvanceReadData (it : RelocIterator) : option RelocIterator :=
  '(x, it) ← read_loop kIntptrSize 0 0 it;
  Some (set_data (sint (8 * Z.of_nat kIntptrSize) x) it).

Fixpoint read_chunks (n i : nat) (pc_jump : Z) (it : RelocIterator) : option (Z * RelocIterator) :=
  match n with
  | O => Some (pc_jump, it)
  | S n =>
      '(pc_jump_part, it) ← fetch it;
      let pc_jump := uint 32 (Z.lor pc_jump (Z.shiftl (Z.shiftr pc_jump_part kLastChunkTagBits) (Z.of_nat i * kChunkBits))) in
      if Z.land pc_jump_part kLastChunkTagMask =? 1 then Some (pc_jump, it)
      else read_chunks n (S i) pc_jump it
  end.

Definition AdvanceReadVariableLengthPCJump (it : RelocIterator) : option RelocIterator :=
  '(pc_jump, it) ← read_chunks kIntSize 0 0 it;
  Some (add_pc (uint 32 (Z.shiftl pc_jump kSmallPCDeltaBits)) it).

Definition GetLocatableTypeTag (it : RelocIterator) : option Z :=
  b ← current it; Some (Z.land b (Z.shiftl 1 kLocatableTypeTagBits - 1)).

Definition ReadTaggedId (it : RelocIterator) : option RelocIterator :=
  b ← current it;
  let id := sint 32 (it_last_id it + Z.shiftr (sint 8 b) kLocatableTypeTagBits) in
  Some (set_data id (with_last_id id it)).

Definition ReadTaggedPosition (it : RelocIterator) : option RelocIterator :=
  b ← current it;
  let p := sint 32 (it_last_position it + Z.shiftr (sint 8 b) kLocatableTypeTagBits) in
  Some (set_data p (with_last_position p it)).

Definition GetPositionModeFromTag (tag : Z) : Mode :=
  if tag =? kNonstatementPositionTag then POSITION else STATEMENT_POSITION.

(** Whether the mode is wanted. *)
Definition wanted (mask : Z) (mode : Mode) : bool := negb (Z.land mask (Z.shiftl 1 (mode_value mode)) =? 0).

Definition SetMode (mode : Mode) (it : RelocIterator) : bool * RelocIterator :=
  if wanted (mode_mask_ it) mode
  then (true, with_rinfo (MkRelocInfo (pc (rinfo_ it)) mode (data (rinfo_ it))) it) else (false, it).

Definition positions_wanted (mask : Z) : bool := negb (Z.land mask kPositionMask =? 0).

(** One round of the loop of [next]; the flag tells that it returns. *)
Definition short_record (it : RelocIterator) : option (bool * RelocIterator) :=
  it ← ReadTaggedPC it;
  let it := Advance 1 it in
  locatable_tag ← GetLocatableTypeTag it;
  if locatable_tag =? kCodeWithIdTag then
    let '(set, it) := SetMode CODE_TARGET_WITH_ID it in
    if (set : bool) then it ← ReadTaggedId it; Some (true, it) else Some (false, it)
  else if positions_wanted (mode_mask_ it) then
    it ← ReadTaggedPosition it; Some (SetMode (GetPositionModeFromTag locatable_tag) it)
  else Some (false, it).

Definition data_record (it : RelocIterator) : option (bool * RelocIterator) :=
  locatable_tag ← GetTopTag it;
  if locatable_tag =? kCodeWithIdTag then
    let '(set, it) := SetMode CODE_TARGET_WITH_ID it in
    if (set : bool) then it ← AdvanceReadId it; Some (true, it) else Some (false, Advance (Z.of_nat kIntSize) it)
  else if negb (locatable_tag =? kCommentTag) then
    if positions_wanted (mode_mask_ it) then
      it ← AdvanceReadPosition it; Some (SetMode (GetPositionModeFromTag locatable_tag) it)
    else Some (false, Advance (Z.of_nat kIntSize) it)
  else
    let '(set, it) := SetMode COMMENT it in
    if (set : bool) then it ← AdvanceReadData it; Some (true, it) else Some (false, Advance (Z.of_nat kIntptrSize) it).

Definition next_record (it : RelocIterator) : option (bool * RelocIterator) :=
  '(tag, it) ← AdvanceGetTag it;
  if tag =? kEmbeddedObjectTag then it ← ReadTaggedPC it; Some (SetMode EMBEDDED_OBJECT it)
  else if tag =? kCodeTargetTag then it ← ReadTaggedPC it; Some (SetMode CODE_TARGET it)
  else if tag =? kLocatableTag then short_record it
  else
    extra_tag ← GetExtraTag it;
    if extra_tag =? kPCJumpExtraTag then
      top_tag ← GetTopTag it;
      if top_tag =? kVariableLengthPCJumpTopTag then it ← AdvanceReadVariableLengthPCJump it; Some (false, it)
      else it ← AdvanceReadPC it; Some (false, it)
    else if extra_tag =? kDataJumpExtraTag then data_record it
    else
      it ← AdvanceReadPC it;
      mode ← mode_of (extra_tag + LAST_COMPACT_ENUM);
      Some (SetMode mode it).

(** [while (pos_ > end_)]: every round takes a byte at least. *)
Fixpoint next_loop (fuel : nat) (it : RelocIterator) : option RelocIterator :=
  match fuel with
  | O => None
  | S fuel =>
      if end_ it <? it_pos it then
        '(set, it) ← next_record it;
        if (set : bool) then Some it else next_loop fuel it
      else Some (with_done true it)
  end.

Definition next (it : RelocIterator) : option RelocIterator :=
  next_loop (S (Z.to_nat (it_pos it - end_ it))) it.

(** [CodeDesc]: the buffer, with the relocation information at its end. *)
Record CodeDesc := MkCodeDesc { buffer : Z; bytes : list Z; buffer_size : Z; reloc_size : Z }.

(** The members that the constructor does not set hold what memory holds. *)
Definition RelocIterator_new (raw_mode : Mode) (desc : CodeDesc) (mode_mask : Z) : option RelocIterator :=
  let pos := buffer_size desc in
  let end_ := pos - reloc_size desc in
  let pos := if mode_mask =? 0 then end_ else pos in
  next (MkIterator (bytes desc) pos end_ (MkRelocInfo (buffer desc) raw_mode 0) false mode_mask 0 0).

(** [for (...; !it.done(); it.next())], with the records seen. *)
Fixpoint iterate (fuel : nat) (it : RelocIterator) : option (list RelocInfo) :=
  match fuel with
  | O => None
  | S fuel =>
      if done_ it then Some []
      else
        it' ← next it;
        rest ← iterate fuel it';
        Some (rinfo_ it :: rest)
  end.
End RelocInfo.

(** ** The encoding *)

(** Bits 6 to 31 of a distance, in chunks of seven bits. *)
Fixpoint chunk_bytes (n : nat) (x : Z) : list Z :=
  match n with
  | O => []
  | S n => if x <? 128 then [2 * x + 1] else 2 * (x mod 128) :: chunk_bytes n (x / 128)
  end.

Definition jump_bytes (d : Z) : list Z := if d <? 64 then [] else 0x7f :: chunk_bytes 4 (d / 64).

Definition extra_byte (extra_tag top_tag : Z) : Z := top_tag * 64 + extra_tag * 4 + 3.

(** An id or a position: small in six bits, or four bytes behind a record of its own. *)
Definition locatable_bytes (low delta tag : Z) : list Z :=
  if is_intn delta kSmallDataBits then [4 * low + 2; uint 8 (4 * delta + tag)]
  else [extra_byte 15 0; low; extra_byte 14 tag] ++ le_bytes 4 delta.

Section encode.
Context (kIntptrSize : nat).

Definition body_bytes (low id_delta pos_delta : Z) (r : RelocInfo) : list Z :=
  match rmode r with
  | EMBEDDED_OBJECT => [4 * low + 0]
  | CODE_TARGET => [4 * low + 1]
  | CODE_TARGET_WITH_ID => locatable_bytes low id_delta 0
  | POSITION => locatable_bytes low pos_delta 1
  | STATEMENT_POSITION => locatable_bytes low pos_delta 2
  | COMMENT => [extra_byte 15 0; low; extra_byte 14 3] ++ le_bytes kIntptrSize (data r)
  | mode => [extra_byte (mode_value mode - 1) 0; low]
  end.

(** What a record is encoded against: the record before it, its id and its position. *)
Record Base := MkBase { base_pc : Z; base_id : Z; base_position : Z }.

Definition after (r : RelocInfo) (b : Base) : Base :=
  MkBase (pc r) (if bool_decide (rmode r = CODE_TARGET_WITH_ID) then sint 32 (data r) else base_id b)
    (if IsPosition (rmode r) then sint 32 (data r) else base_position b).

Definition encode (b : Base) (r : RelocInfo) : list Z :=
  let d := pc r - base_pc b in
  jump_bytes d ++
  body_bytes (d mod 64) (sint 32 (sint 32 (data r) - base_id b)) (sint 32 (sint 32 (data r) - base_position b)) r.

Fixpoint encode_all (b : Base) (rs : list RelocInfo) : list Z :=
  match rs with
  | [] => []
  | r :: rs => encode b r ++ encode_all (after r b) rs
  end.

(** The addresses do not decrease, and are less than 4 GB apart. *)
Fixpoint ascending (p : Z) (rs : list RelocInfo) : Prop :=
  match rs with
  | [] => True
  | r :: rs => 0 <= pc r - p < 2 ^ 32 /\ ascending (pc r) rs
  end.
End encode.

(** ** The writer writes the encoding *)

(** The memory below and from the position on. *)
Definition writing (low high : list Z) (w : RelocInfoWriter) : Prop :=
  memory w = low ++ high /\ pos_ w = Z.of_nat (length low).

Definition same_base (w w' : RelocInfoWriter) : Prop :=
  last_pc_ w' = last_pc_ w /\ last_id_ w' = last_id_ w /\ last_position_ w' = last_position_ w.

(** A method that writes some bytes into the room below the position, whatever is there. *)
Definition emits (f : RelocInfoWriter -> option RelocInfoWriter) (bs : list Z) : Prop :=
  forall low room high w, writing (low ++ room) high w -> length room = length bs ->
  exists w', f w = Some w' /\ writing low (rev bs ++ high) w' /\ same_base w w'.

Lemma same_base_trans w1 w2 w3 : same_base w1 w2 -> same_base w2 w3 -> same_base w1 w3.
Proof. unfold same_base. intuition congruence. Qed.

Lemma emits_seq f g bs1 bs2 : emits f bs1 -> emits g bs2 -> emits (fun w => w ← f w; g w) (bs1 ++ bs2).
Proof.
  intros Hf Hg low room high w Hw Hroom. rewrite length_app in Hroom.
  assert (Hsplit : low ++ room = (low ++ take (length bs2) room) ++ drop (length bs2) room).
  { by rewrite <- app_assoc, take_drop. }
  rewrite Hsplit in Hw. destruct (Hf _ _ _ _ Hw) as (w1 & E1 & Hw1 & Hs1); [rewrite length_drop; lia|].
  destruct (Hg _ _ _ _ Hw1) as (w2 & E2 & Hw2 & Hs2); [rewrite length_take; lia|].
  exists w2. rewrite E1. cbn [mbind option_bind]. split; [done|]. rewrite rev_app_distr, <- app_assoc.
  split; [done|]. by eapply same_base_trans.
Qed.

Lemma emits_put b : emits (put b) [uint 8 b].
Proof.
  intros low room high w [Hmem Hpos] Hroom. destruct room as [|x [|]]; try done.
  unfold put. rewrite Hpos, Hmem, !length_app. cbn [length].
  rewrite (proj2 (Z.leb_le _ _)), (proj2 (Z.ltb_lt _ _)) by lia. cbn [andb]. eexists. split; [reflexivity|].
  replace (Z.to_nat (Z.of_nat (length low + 1) - 1)) with (length low + 0)%nat by lia.
  split; [|done]. split; cbn [memory pos_ set_memory]; [|lia].
  rewrite <- app_assoc. by rewrite insert_app_r.
Qed.

Lemma emits_ext f g bs : (forall w, f w = g w) -> emits f bs -> emits g bs.
Proof. intros H Hf low room high w Hw Hroom. rewrite <- H. by apply (Hf low room). Qed.

Lemma emits_byte b b' : uint 8 b = b' -> emits (put b) [b'].
Proof. intros <-. apply emits_put. Qed.

Lemma lor_low a k b : 0 <= k -> 0 <= b < 2 ^ k -> Z.lor (Z.shiftl a k) b = a * 2 ^ k + b.
Proof. apply lor_shiftl. Qed.

Lemma emits_extra_tag extra top :
  0 <= extra < 16 -> 0 <= top < 4 -> emits (WriteExtraTag extra top) [extra_byte extra top].
Proof.
  intros He Ht. apply emits_byte. unfold extra_byte, kTagBits, kExtraTagBits, kDefaultTag, uint.
  assert (Hin : Z.lor (Z.shiftl top (2 + 4)) (Z.shiftl extra 2) = Z.shiftl (top * 16 + extra) 2).
  { replace (Z.shiftl top (2 + 4)) with (Z.shiftl (Z.shiftl top 4) 2) by (by rewrite Z.shiftl_shiftl by lia).
    rewrite <- Z.shiftl_lor. by rewrite lor_low by lia. }
  rewrite Hin, lor_low by lia. rewrite Z.mod_small by lia. lia.
Qed.

Lemma emits_data n d : emits (data_loop n d) (le_bytes n d).
Proof.
  revert d. induction n as [|n IH]; intros d; cbn [data_loop le_bytes].
  - intros low room high w Hw Hroom. destruct room; [|done]. rewrite app_nil_r in Hw. by exists w.
  - apply (emits_seq (put d) (data_loop n (Z.shiftr d 8)) [d mod 256]); [by apply emits_byte|].
    rewrite Z.shiftr_div_pow2 by lia. apply IH.
Qed.

Lemma is_uintn_6 d : 0 <= d < 2 ^ 32 -> is_uintn d kSmallPCDeltaBits = (d <? 64).
Proof.
  intros Hd. unfold is_uintn. change (- Z.shiftl 1 kSmallPCDeltaBits) with (Z.lnot (Z.ones 6)).
  rewrite <- Z.ldiff_land, Z.ldiff_ones_r by lia. apply eq_true_iff_eq. rewrite Z.eqb_eq, Z.ltb_lt.
  rewrite Z.shiftl_mul_pow2, Z.shiftr_div_pow2 by lia. unfold sint. change (2 ^ (32 - 1)) with (2 ^ 31).
  destruct (Z.ltb_spec d (2 ^ 31)).
  - rewrite Z.mod_small by lia. rewrite Z.add_simpl_r. pose proof (Z_div_mod_eq_full d (2 ^ 6)). pose proof (Z.mod_pos_bound d (2 ^ 6)). lia.
  - replace (d + 2 ^ 31) with (d - 2 ^ 31 + 1 * 2 ^ 32) by lia. rewrite Z_mod_plus_full, Z.mod_small by lia.
    pose proof (Z_div_mod_eq_full (d - 2 ^ 31 - 2 ^ 31) (2 ^ 6)). pose proof (Z.mod_pos_bound (d - 2 ^ 31 - 2 ^ 31) (2 ^ 6)). lia.
Qed.

(** The chunks without the mark of the last one, as the loop writes them. *)
Fixpoint plain_chunks (n : nat) (x : Z) : list Z :=
  match n with
  | O => []
  | S n => if 0 <? x then 2 * (x mod 128) :: plain_chunks n (x / 128) else []
  end.

Lemma chunk_loop_emits n x : 0 <= x < 128 ^ Z.of_nat n -> emits (chunk_loop (S n) x) (plain_chunks n x).
Proof.
  revert x. induction n as [|n IH]; intros x Hx; cbn [chunk_loop plain_chunks].
  - rewrite (proj2 (Z.ltb_ge _ _)) by lia. intros low room high w Hw Hroom. destruct room; [|done].
    rewrite app_nil_r in Hw. by exists w.
  - destruct (Z.ltb_spec 0 x).
    + apply (emits_seq (put _) (chunk_loop (S n) (Z.shiftr x kChunkBits)) [2 * (x mod 128)]).
      * apply emits_byte. unfold kChunkMask, kChunkBits, kLastChunkTagBits, uint. change (Z.shiftl 1 7 - 1) with (Z.ones 7).
        rewrite Z.land_ones, Z.shiftl_mul_pow2 by lia. change (2 ^ 7) with 128. pose proof (Z.mod_pos_bound x 128).
        rewrite Z.mod_small; lia.
      * unfold kChunkBits. rewrite Z.shiftr_div_pow2 by lia. change (2 ^ 7) with 128. apply IH.
        split; [apply Z.div_pos; lia|]. apply Z.div_lt_upper_bound; [lia|]. replace (Z.of_nat (S n)) with (1 + Z.of_nat n) in Hx by lia.
        rewrite Z.pow_add_r in Hx by lia. lia.
    + intros low room high w Hw Hroom. destruct room; [|done]. rewrite app_nil_r in Hw. by exists w.
Qed.

(** The mark is in the byte that was written last. *)
Lemma chunk_bytes_plain n x :
  0 < x < 128 ^ Z.of_nat n -> exists bs c, plain_chunks n x = bs ++ [2 * c] /\ chunk_bytes n x = bs ++ [2 * c + 1] /\ 0 <= c < 128.
Proof.
  revert x. induction n as [|n IH]; intros x Hx; [lia|]. cbn [plain_chunks chunk_bytes]. rewrite (proj2 (Z.ltb_lt _ _)) by lia.
  replace (Z.of_nat (S n)) with (1 + Z.of_nat n) in Hx by lia. rewrite Z.pow_add_r in Hx by lia.
  destruct (Z.ltb_spec x 128).
  - exists [], x. rewrite Z.mod_small, Z.div_small by lia. destruct n; cbn; (split; [done|split; [done|lia]]).
  - destruct (IH (x / 128)) as (bs & c & -> & -> & Hc).
    { split; [|apply Z.div_lt_upper_bound; lia]. apply Z.lt_le_trans with 1; [lia|]. apply Z.div_le_lower_bound; lia. }
    by exists (2 * (x mod 128) :: bs), c.
Qed.

Lemma land_low d : Z.land d kSmallPCDeltaMask = d mod 64.
Proof. change kSmallPCDeltaMask with (Z.ones 6). rewrite Z.land_ones by lia. done. Qed.

Lemma emits_jump_tag : emits (WriteExtraTag kPCJumpExtraTag kVariableLengthPCJumpTopTag) [0x7f].
Proof. change [0x7f] with [extra_byte 15 1]. by apply emits_extra_tag. Qed.

Lemma WriteVariableLengthPCJump_spec d low room high w :
  0 <= d < 2 ^ 32 -> writing (low ++ room) high w -> length room = length (jump_bytes d) ->
  exists w', WriteVariableLengthPCJump d w = Some (d mod 64, w') /\ writing low (rev (jump_bytes d) ++ high) w' /\ same_base w w'.
Proof.
  intros Hd Hw Hroom. unfold WriteVariableLengthPCJump. rewrite is_uintn_6 by done. unfold jump_bytes in *.
  destruct (Z.ltb_spec d 64).
  { destruct room; [|done]. rewrite app_nil_r in Hw. exists w. rewrite Z.mod_small by lia. done. }
  assert (Hx : 0 < d / 64 < 128 ^ Z.of_nat 4).
  { split; [|apply Z.div_lt_upper_bound; lia]. apply Z.lt_le_trans with 1; [lia|]. apply Z.div_le_lower_bound; lia. }
  destruct (chunk_bytes_plain 4 _ Hx) as (bs & c & Eplain & Echunk & Hc). rewrite Echunk in *.
  unfold kSmallPCDeltaBits, kTagBits. rewrite Z.shiftr_div_pow2 by lia. change (2 ^ (8 - 2)) with 64.
  assert (Hemits : emits (fun w => w ← WriteExtraTag kPCJumpExtraTag kVariableLengthPCJumpTopTag w; chunk_loop 5 (d / 64) w)
    ([0x7f] ++ bs ++ [2 * c])).
  { apply emits_seq; [apply emits_jump_tag|]. rewrite <- Eplain. apply (chunk_loop_emits 4). lia.
  }
  destruct (Hemits low room high w Hw) as (w1 & E1 & [Hmem Hpos] & Hsame).
  { rewrite Hroom. cbn [length app]. by rewrite !length_app. }
  destruct (WriteExtraTag kPCJumpExtraTag kVariableLengthPCJumpTopTag w) as [w0|]; [|done]. cbn [mbind option_bind] in *.
  rewrite E1. cbn [mbind option_bind]. rewrite Hpos, Nat2Z.id, Hmem.
  rewrite (app_assoc [127]), rev_app_distr, <- (app_assoc (rev [_])). cbn [rev app].
  rewrite list_lookup_middle by done. cbn [mbind option_bind]. eexists. rewrite land_low. split; [reflexivity|]. split; [|done].
  split; cbn [memory pos_ set_memory]; [|done]. rewrite insert_app_r_alt, Nat.sub_diag by done. cbn [insert list_insert].
  rewrite (Z.mul_comm 2 c). change (c * 2) with (c * 2 ^ 1). rewrite <- Z.shiftl_mul_pow2, lor_shiftl by (unfold kLastChunkTag; lia).
  rewrite !rev_app_distr, Z.shiftl_mul_pow2 by lia. cbn [rev app]. by rewrite <- app_assoc.
Qed.

(** What comes behind the jump. *)
Lemma emits_pc d g bs :
  0 <= d < 2 ^ 32 -> (forall low, 0 <= low < 64 -> low = d mod 64 -> emits (g low) bs) ->
  emits (fun w => '(pc_delta, w) ← WriteVariableLengthPCJump d w; g pc_delta w) (jump_bytes d ++ bs).
Proof.
  intros Hd Hg low room high w Hw Hroom. rewrite length_app in Hroom.
  assert (Hsplit : low ++ room = (low ++ take (length bs) room) ++ drop (length bs) room).
  { by rewrite <- app_assoc, take_drop. }
  rewrite Hsplit in Hw.
  destruct (WriteVariableLengthPCJump_spec d _ _ _ _ Hd Hw) as (w1 & E1 & Hw1 & Hs1); [rewrite length_drop; lia|].
  destruct (Hg (d mod 64) ltac:(apply Z.mod_pos_bound; lia) eq_refl _ _ _ _ Hw1) as (w2 & E2 & Hw2 & Hs2); [rewrite length_take; lia|].
  exists w2. rewrite E1. cbn [mbind option_bind]. split; [done|]. rewrite rev_app_distr, <- app_assoc.
  split; [done|]. by eapply same_base_trans.
Qed.

Lemma emits_tagged_pc d tag :
  0 <= d < 2 ^ 32 -> 0 <= tag < 4 -> emits (WriteTaggedPC d tag) (jump_bytes d ++ [4 * (d mod 64) + tag]).
Proof.
  intros Hd Ht. apply (emits_pc d (fun pc_delta => put (Z.lor (Z.shiftl pc_delta kTagBits) tag))); [done|].
  intros low Hlow ->. apply emits_byte. unfold kTagBits, uint. rewrite lor_shiftl by lia. rewrite Z.mod_small by lia. lia.
Qed.

Lemma emits_extra_tagged_pc d extra :
  0 <= d < 2 ^ 32 -> 0 <= extra < 16 -> emits (WriteExtraTaggedPC d extra) (jump_bytes d ++ [extra_byte extra 0; d mod 64]).
Proof.
  intros Hd He. apply (emits_pc d (fun pc_delta w => w ← WriteExtraTag extra 0 w; put pc_delta w)); [done|].
  intros low Hlow ->. apply (emits_seq (WriteExtraTag extra 0) (put (d mod 64)) [extra_byte extra 0]); [by apply emits_extra_tag|].
  apply emits_byte. apply Z.mod_small. lia.
Qed.

Lemma emits_app_assoc f bs1 bs2 bs3 : emits f ((bs1 ++ bs2) ++ bs3) -> emits f (bs1 ++ bs2 ++ bs3).
Proof. by rewrite app_assoc. Qed.

Lemma emits_locatable d delta tag :
  0 <= d < 2 ^ 32 -> 0 <= tag < 4 ->
  emits (write_locatable d delta tag) (jump_bytes d ++ locatable_bytes (d mod 64) delta tag).
Proof.
  intros Hd Ht. unfold write_locatable, locatable_bytes. destruct (is_intn delta kSmallDataBits).
  - apply (emits_app_assoc _ _ [_] [_]). apply emits_seq; [by apply (emits_tagged_pc d 2)|].
    apply emits_byte. unfold kLocatableTypeTagBits. rewrite lor_shiftl by lia. f_equal. lia.
  - apply (emits_app_assoc _ _ [_; _] (_ :: _)). apply emits_seq; [by apply (emits_extra_tagged_pc d 15)|].
    apply (emits_seq (WriteExtraTag 14 tag) (data_loop 4 delta) [extra_byte 14 tag]); [by apply emits_extra_tag|apply emits_data].
Qed.

Section write.
Context (kIntptrSize : nat).

Definition base (w : RelocInfoWriter) : Base := MkBase (last_pc_ w) (last_id_ w) (last_position_ w).

(** The room for the records is enough, and below it nothing is written. *)
Lemma Write_spec r low room high w :
  0 <= pc r - last_pc_ w < 2 ^ 32 -> writing (low ++ room) high w -> length room = length (encode kIntptrSize (base w) r) ->
  exists w', Write kIntptrSize r w = Some w' /\ writing low (rev (encode kIntptrSize (base w) r) ++ high) w' /\ base w' = after r (base w).
Proof.
  intros Hd Hw Hroom. unfold Write, encode, base, body_bytes in *. cbn [base_pc base_id base_position] in *.
  assert (Hu : uint 32 (pc r - last_pc_ w) = pc r - last_pc_ w) by by apply Z.mod_small. rewrite Hu.
  assert (Hgo : forall f bs, emits f (jump_bytes (pc r - last_pc_ w) ++ bs) -> length room = length (jump_bytes (pc r - last_pc_ w) ++ bs) ->
    exists w', f w = Some w' /\ writing low (rev (jump_bytes (pc r - last_pc_ w) ++ bs) ++ high) w' /\ same_base w w').
  { intros f bs Hf Hl. by apply (Hf low room). }
  assert (Hother : forall m, 0 <= m < 16 ->
    emits (WriteExtraTaggedPC (pc r - last_pc_ w) m) (jump_bytes (pc r - last_pc_ w) ++ [extra_byte m 0; (pc r - last_pc_ w) mod 64])).
  { intros m Hm. by apply emits_extra_tagged_pc. }
  assert (Hcomment : emits (fun w0 => w0 ← WriteExtraTaggedPC (pc r - last_pc_ w) kPCJumpExtraTag w0;
      WriteExtraTaggedData kIntptrSize (data r) kCommentTag w0)
    (jump_bytes (pc r - last_pc_ w) ++ [extra_byte 15 0; (pc r - last_pc_ w) mod 64; extra_byte 14 3] ++ le_bytes kIntptrSize (data r))).
  { apply (emits_app_assoc _ _ [_; _] (_ :: _)). apply emits_seq; [by apply (emits_extra_tagged_pc _ 15)|].
    apply (emits_seq (WriteExtraTag 14 3) (data_loop kIntptrSize (data r)) [extra_byte 14 3]); [by apply emits_extra_tag|apply emits_data]. }
  unfold after, IsPosition. destruct (rmode r) eqn:Hmode; cbn [mode_value];
    [ pose proof (emits_tagged_pc _ kCodeTargetTag Hd ltac:(by vm_compute)) as Hf
    | pose proof (fun delta => emits_locatable _ delta kCodeWithIdTag Hd ltac:(by vm_compute)) as Hf
    | pose proof (Hother (2 - LAST_COMPACT_ENUM) ltac:(by vm_compute)) as Hf | pose proof (Hother (3 - LAST_COMPACT_ENUM) ltac:(by vm_compute)) as Hf
    | pose proof (Hother (4 - LAST_COMPACT_ENUM) ltac:(by vm_compute)) as Hf | pose proof (emits_tagged_pc _ kEmbeddedObjectTag Hd ltac:(by vm_compute)) as Hf
    | pose proof (Hother (6 - LAST_COMPACT_ENUM) ltac:(by vm_compute)) as Hf | pose proof (Hother (7 - LAST_COMPACT_ENUM) ltac:(by vm_compute)) as Hf
    | pose proof (Hother (8 - LAST_COMPACT_ENUM) ltac:(by vm_compute)) as Hf | pose proof Hcomment as Hf
    | pose proof (fun delta => emits_locatable _ delta kNonstatementPositionTag Hd ltac:(by vm_compute)) as Hf | pose proof (fun delta => emits_locatable _ delta kStatementPositionTag Hd ltac:(by vm_compute)) as Hf
    | pose proof (Hother (12 - LAST_COMPACT_ENUM) ltac:(by vm_compute)) as Hf | pose proof (Hother (13 - LAST_COMPACT_ENUM) ltac:(by vm_compute)) as Hf
    | pose proof (Hother (14 - LAST_COMPACT_ENUM) ltac:(by vm_compute)) as Hf ];
    (destruct (Hgo _ _ (Hf _) Hroom) as (w1 & E & [Hmem Hpos] & (H1 & H2 & H3))
     || destruct (Hgo _ _ Hf Hroom) as (w1 & E & [Hmem Hpos] & (H1 & H2 & H3))).
  all: try change (bool_decide (POSITION = POSITION)) with true; try change (bool_decide (STATEMENT_POSITION = POSITION)) with false.
  all: cbv zeta; cbn match; try setoid_rewrite E; cbn [mbind option_bind]; eexists; (split; [reflexivity|]).
  all: (split; [by split|]); cbn; by rewrite ?H1, ?H2, ?H3.
Qed.
End write.

(** ** The iterator reads the encoding *)

(** The bytes that are left, the next one first. *)
Definition stream (l : list Z) (it : RelocIterator) : Prop :=
  exists low high, it_memory it = low ++ rev l ++ high /\ end_ it = Z.of_nat (length low)
  /\ it_pos it = Z.of_nat (length low) + Z.of_nat (length l).

Lemma stream_more b l it : stream (b :: l) it -> end_ it < it_pos it.
Proof. intros (low & high & _ & -> & ->). cbn. lia. Qed.

Lemma stream_done it : stream [] it -> it_pos it = end_ it.
Proof. intros (low & high & _ & -> & ->). cbn. lia. Qed.

Lemma fetch_spec b l it :
  stream (b :: l) it -> fetch it = Some (b, Advance 1 it) /\ current (Advance 1 it) = Some b /\ stream l (Advance 1 it).
Proof.
  intros (low & high & Hmem & Hend & Hpos). cbn [length] in Hpos.
  assert (Hcur : current (Advance 1 it) = Some b).
  { unfold current, Advance. cbn [it_pos with_pos it_memory]. rewrite Hpos, Hmem, (proj2 (Z.leb_le _ _)) by lia. cbn [rev].
    rewrite app_assoc. rewrite app_assoc, <- (app_assoc (low ++ rev l)). apply list_lookup_middle. rewrite length_app, length_rev. lia. }
  unfold fetch. rewrite Hcur. split; [done|]. split; [done|].
  exists low, (b :: high). unfold Advance. cbn [it_memory with_pos end_ it_pos]. rewrite Hmem. cbn [rev].
  rewrite <- app_assoc. split; [done|]. split; [done|]. lia.
Qed.

Lemma Advance_0 it : Advance 0 it = it.
Proof. destruct it. unfold Advance, with_pos. cbn. by rewrite Z.sub_0_r. Qed.

Lemma Advance_add a b it : Advance b (Advance a it) = Advance (a + b) it.
Proof. unfold Advance, with_pos. cbn. f_equal. lia. Qed.

Lemma read_loop_spec n i x d l it :
  stream (le_bytes n d ++ l) it -> 0 <= x < 2 ^ (8 * Z.of_nat i) ->
  read_loop n i x it = Some (x + 2 ^ (8 * Z.of_nat i) * (d mod 2 ^ (8 * Z.of_nat n)), Advance (Z.of_nat n) it)
  /\ stream l (Advance (Z.of_nat n) it).
Proof.
  revert i x d it. induction n as [|n IH]; intros i x d it Hst Hx; cbn [read_loop le_bytes app] in *.
  { change (2 ^ (8 * Z.of_nat 0)) with 1. rewrite Z.mod_1_r, Z.mul_0_r, Z.add_0_r. by rewrite Advance_0. }
  apply fetch_spec in Hst as (-> & _ & Hst). cbn [mbind option_bind].
  rewrite (Z.mul_comm (Z.of_nat i) 8), Z.lor_comm, lor_shiftl by lia.
  pose proof (Z.mod_pos_bound d 256 ltac:(lia)).
  destruct (IH (S i) (d mod 256 * 2 ^ (8 * Z.of_nat i) + x) (d / 256) _ Hst) as [E Hst'].
  { replace (8 * Z.of_nat (S i)) with (8 * Z.of_nat i + 8) by lia. rewrite Z.pow_add_r by lia. change (2 ^ 8) with 256. nia. }
  rewrite Advance_add in *. replace (1 + Z.of_nat n) with (Z.of_nat (S n)) in * by lia. split; [|done]. rewrite E. do 2 f_equal.
  replace (8 * Z.of_nat (S i)) with (8 * Z.of_nat i + 8) by lia. replace (8 * Z.of_nat (S n)) with (8 + 8 * Z.of_nat n) by lia.
  rewrite !Z.pow_add_r by lia. change (2 ^ 8) with 256.
  rewrite (Z.rem_mul_r d 256) by (lia || apply Z.pow_pos_nonneg; lia). lia.
Qed.

Lemma read_chunks_spec n i x y l it :
  stream (chunk_bytes n y ++ l) it -> 0 < y < 128 ^ Z.of_nat n -> 0 <= x < 2 ^ (7 * Z.of_nat i) ->
  x + 2 ^ (7 * Z.of_nat i) * y < 2 ^ 32 ->
  exists k, read_chunks n i x it = Some (x + 2 ^ (7 * Z.of_nat i) * y, Advance k it) /\ stream l (Advance k it).
Proof.
  revert i x y it. induction n as [|n IH]; intros i x y it Hst Hy Hx Hsum; [lia|]. cbn [read_chunks chunk_bytes] in *.
  assert (0 < 2 ^ (7 * Z.of_nat i)) by (apply Z.pow_pos_nonneg; lia).
  replace (Z.of_nat (S n)) with (1 + Z.of_nat n) in Hy by lia. rewrite Z.pow_add_r in Hy by lia.
  rewrite (Z.mul_comm (Z.of_nat i) kChunkBits). unfold kChunkBits.
  assert (Hpart : forall c t, 0 <= t < 2 -> 0 <= c ->
    Z.shiftr (2 * c + t) kLastChunkTagBits = c /\ Z.land (2 * c + t) kLastChunkTagMask = t).
  { intros c t Ht Hc. unfold kLastChunkTagBits, kLastChunkTagMask. change 1 with (Z.ones 1) at 2. rewrite Z.land_ones, Z.shiftr_div_pow2 by lia.
    change (2 ^ 1) with 2. split; [symmetry; apply Z.div_unique with t; lia|]. rewrite Z.mul_comm, Z.add_comm, Z_mod_plus_full. by apply Z.mod_small. }
  destruct (Z.ltb_spec y 128); cbn [app] in Hst; apply fetch_spec in Hst as (-> & _ & Hst); cbn [mbind option_bind].
  - destruct (Hpart y 1) as [-> ->]; [lia|lia|]. rewrite Z.lor_comm, lor_shiftl by lia. unfold uint. rewrite Z.mod_small by lia.
    exists 1. change (1 =? 1) with true. cbn match. split; [|done]. do 2 f_equal. lia.
  - pose proof (Z.mod_pos_bound y 128 ltac:(lia)). pose proof (Z_div_mod_eq_full y 128) as Hdiv.
    destruct (Hpart (y mod 128) 0) as [E1 E2]; [lia|lia|]. rewrite Z.add_0_r in E1, E2. rewrite E1, E2. change (0 =? 1) with false. cbn match.
    rewrite Z.lor_comm, lor_shiftl by lia.
    assert (Hpow : 2 ^ (7 * Z.of_nat (S i)) = 128 * 2 ^ (7 * Z.of_nat i)).
    { replace (7 * Z.of_nat (S i)) with (7 + 7 * Z.of_nat i) by lia. rewrite Z.pow_add_r by lia. done. }
    assert (Hx' : y mod 128 * 2 ^ (7 * Z.of_nat i) + x + 2 ^ (7 * Z.of_nat (S i)) * (y / 128) = x + 2 ^ (7 * Z.of_nat i) * y) by (rewrite Hpow; nia).
    assert (0 < y / 128) by (apply Z.lt_le_trans with 1; [lia|]; apply Z.div_le_lower_bound; lia).
    assert (Hu : uint 32 (y mod 128 * 2 ^ (7 * Z.of_nat i) + x) = y mod 128 * 2 ^ (7 * Z.of_nat i) + x).
    { apply Z.mod_small. nia. }
    rewrite Hu. destruct (IH (S i) (y mod 128 * 2 ^ (7 * Z.of_nat i) + x) (y / 128) _ Hst) as (k & E & Hst').
    + split; [done|]. apply Z.div_lt_upper_bound; lia.
    + rewrite Hpow. nia.
    + lia.
    + exists (1 + k). rewrite E, Hx', <- Advance_add. done.
Qed.

(** A round of the loop that goes on. *)
Definition turn (kIntptrSize : nat) (it it' : RelocIterator) : Prop :=
  end_ it < it_pos it /\ next_record kIntptrSize it = Some (false, it').

(** Only the address and the position changed. *)
Record moved (d : Z) (it it' : RelocIterator) : Prop := {
  moved_pc : pc (rinfo_ it') = pc (rinfo_ it) + d;
  moved_mode : rmode (rinfo_ it') = rmode (rinfo_ it);
  moved_data : data (rinfo_ it') = data (rinfo_ it);
  moved_mask : mode_mask_ it' = mode_mask_ it;
  moved_done : done_ it' = done_ it;
  moved_id : it_last_id it' = it_last_id it;
  moved_position : it_last_position it' = it_last_position it
}.

Lemma tag_byte low t : 0 <= t < 4 -> Z.land (4 * low + t) 3 = t /\ Z.shiftr (4 * low + t) 2 = low.
Proof.
  intros Ht. change 3 with (Z.ones 2). rewrite Z.land_ones, Z.shiftr_div_pow2 by lia. change (2 ^ 2) with 4. split.
  - rewrite Z.mul_comm, Z.add_comm, Z_mod_plus_full. by apply Z.mod_small.
  - symmetry. apply Z.div_unique with t; lia.
Qed.

Lemma extra_byte_fields e t :
  0 <= e < 16 -> 0 <= t < 4 ->
  Z.land (extra_byte e t) kTagMask = kDefaultTag
  /\ Z.land (Z.shiftr (extra_byte e t) kTagBits) (Z.shiftl 1 kExtraTagBits - 1) = e
  /\ Z.shiftr (extra_byte e t) (kTagBits + kExtraTagBits) = t.
Proof.
  intros He Ht. unfold extra_byte. replace (t * 64 + e * 4 + 3) with (4 * (16 * t + e) + 3) by lia.
  destruct (tag_byte (16 * t + e) 3 ltac:(lia)) as [H1 H2]. unfold kTagMask, kTagBits, kExtraTagBits, kDefaultTag.
  change (Z.shiftl 1 2 - 1) with 3. split; [done|]. rewrite H2. change (Z.shiftl 1 4 - 1) with (Z.ones 4).
  rewrite Z.land_ones by lia. split.
  - rewrite Z.mul_comm, Z.add_comm, Z_mod_plus_full. by apply Z.mod_small.
  - rewrite Z.shiftr_div_pow2 by lia. change (2 ^ (2 + 4)) with 64. symmetry. apply Z.div_unique with (4 * e + 3); lia.
Qed.

Section read.
Context (kIntptrSize : nat).

Abbreviation next_record := (next_record kIntptrSize).
Abbreviation turn := (turn kIntptrSize).

(** The beginning of a round, by the low tag of the byte. *)
Lemma round_extra e t l it :
  0 <= e < 16 -> 0 <= t < 4 -> stream (extra_byte e t :: l) it ->
  end_ it < it_pos it /\ stream l (Advance 1 it) /\ GetTopTag (Advance 1 it) = Some t /\
  next_record it =
    (if e =? kPCJumpExtraTag then
      if t =? kVariableLengthPCJumpTopTag then it ← AdvanceReadVariableLengthPCJump (Advance 1 it); Some (false, it)
      else it ← AdvanceReadPC (Advance 1 it); Some (false, it)
    else if e =? kDataJumpExtraTag then data_record kIntptrSize (Advance 1 it)
    else it ← AdvanceReadPC (Advance 1 it); mode ← mode_of (e + LAST_COMPACT_ENUM); Some (SetMode mode it)).
Proof.
  intros He Ht Hst. split; [by eapply stream_more|]. apply fetch_spec in Hst as (Hf & Hc & Hst). split; [done|].
  destruct (extra_byte_fields e t He Ht) as (H1 & H2 & H3). split; [unfold GetTopTag; rewrite Hc; cbn [mbind option_bind]; by rewrite H3|]. unfold next_record, AdvanceGetTag. rewrite Hf. cbn [mbind option_bind].
  rewrite H1. change (kDefaultTag =? kEmbeddedObjectTag) with false. change (kDefaultTag =? kCodeTargetTag) with false.
  change (kDefaultTag =? kLocatableTag) with false. cbn match.
  unfold GetExtraTag, GetTopTag. rewrite Hc. cbn [mbind option_bind]. rewrite H2, H3. done.
Qed.

(** The short jump in front of a record with data. *)
Lemma turn_pc low l it :
  stream (extra_byte 15 0 :: low :: l) it ->
  turn it (add_pc low (Advance 2 it)) /\ stream l (add_pc low (Advance 2 it)) /\ moved low it (add_pc low (Advance 2 it)).
Proof.
  intros Hst. destruct (round_extra 15 0 _ _ ltac:(lia) ltac:(lia) Hst) as (Hmore & Hst1 & _ & E).
  apply fetch_spec in Hst1 as (Hf & _ & Hst2). rewrite Advance_add in *. change (1 + 1) with 2 in *.
  split; [|split; [exact Hst2|by split]]. split; [done|]. rewrite E. change (15 =? kPCJumpExtraTag) with true.
  change (0 =? kVariableLengthPCJumpTopTag) with false. cbn match. unfold AdvanceReadPC. by rewrite Hf.
Qed.

(** The jump of variable length. *)
Lemma turn_jump d l it :
  0 <= d < 2 ^ 32 -> stream (jump_bytes d ++ l) it ->
  exists k it', nsteps turn k it it' /\ (k <= length (jump_bytes d))%nat /\ stream l it' /\ moved (d - d mod 64) it it'.
Proof.
  intros Hd Hst. unfold jump_bytes in *. destruct (Z.ltb_spec d 64).
  { exists 0%nat, it. rewrite Z.mod_small by lia. split; [constructor|]. split; [lia|]. split; [done|]. split; (done || lia). }
  cbn [app] in Hst. change 0x7f with (extra_byte 15 1) in Hst.
  destruct (round_extra 15 1 _ _ ltac:(lia) ltac:(lia) Hst) as (Hmore & Hst1 & _ & E).
  assert (Hy : 0 < d / 64 < 128 ^ Z.of_nat 4).
  { split; [|apply Z.div_lt_upper_bound; lia]. apply Z.lt_le_trans with 1; [lia|]. apply Z.div_le_lower_bound; lia. }
  pose proof (Z_div_mod_eq_full d 64) as Hdiv. pose proof (Z.mod_pos_bound d 64 ltac:(lia)).
  destruct (read_chunks_spec 4 0 0 (d / 64) l _ Hst1 Hy) as (k & Ek & Hst2); [lia|lia|].
  change (2 ^ (7 * Z.of_nat 0)) with 1 in Ek. rewrite Z.mul_1_l, Z.add_0_l in Ek.
  exists 1%nat, (add_pc (64 * (d / 64)) (Advance k (Advance 1 it))). split.
  - apply nsteps_once. split; [done|]. rewrite E. change (15 =? kPCJumpExtraTag) with true.
    change (1 =? kVariableLengthPCJumpTopTag) with true. cbn match. unfold AdvanceReadVariableLengthPCJump. change kIntSize with 4%nat.
    rewrite Ek. cbn [mbind option_bind]. unfold kSmallPCDeltaBits, kTagBits. rewrite Z.shiftl_mul_pow2 by lia.
    change (2 ^ (8 - 2)) with 64. unfold uint. rewrite (Z.mul_comm (d / 64)), Z.mod_small by lia. done.
  - split; [cbn [length]; lia|]. split; [exact Hst2|]. replace (d - d mod 64) with (64 * (d / 64)) by lia. by split.
Qed.

(** What is known after the round that reads a record. *)
Record read_record (r : RelocInfo) (low id_delta pos_delta : Z) (it it' : RelocIterator) : Prop := {
  read_pc : pc (rinfo_ it') = pc (rinfo_ it) + low;
  read_mask : mode_mask_ it' = mode_mask_ it;
  read_done : done_ it' = done_ it;
  read_mode : wanted (mode_mask_ it) (rmode r) = true -> rmode (rinfo_ it') = rmode r;
  read_id : it_last_id it' = if bool_decide (rmode r = CODE_TARGET_WITH_ID) && wanted (mode_mask_ it) CODE_TARGET_WITH_ID
    then sint 32 (it_last_id it + id_delta) else it_last_id it;
  read_position : it_last_position it' = if IsPosition (rmode r) && positions_wanted (mode_mask_ it)
    then sint 32 (it_last_position it + pos_delta) else it_last_position it;
  read_data : wanted (mode_mask_ it) (rmode r) = true ->
    match rmode r with
    | CODE_TARGET_WITH_ID => data (rinfo_ it') = it_last_id it'
    | POSITION | STATEMENT_POSITION => data (rinfo_ it') = it_last_position it'
    | COMMENT => data (rinfo_ it') = sint (8 * Z.of_nat kIntptrSize) (data r)
    | _ => True
    end
}.

(** A part of the stream that holds one record. *)
Definition reads (bs : list Z) (r : RelocInfo) (low id_delta pos_delta : Z) : Prop :=
  forall l it, stream (bs ++ l) it ->
  exists k it1 it', nsteps turn k it it1 /\ (k < length bs)%nat /\ end_ it1 < it_pos it1
  /\ next_record it1 = Some (wanted (mode_mask_ it) (rmode r), it') /\ stream l it'
  /\ read_record r low id_delta pos_delta it it'.

Lemma reads_tagged r low t :
  (rmode r = EMBEDDED_OBJECT /\ t = 0) \/ (rmode r = CODE_TARGET /\ t = 1) -> reads [4 * low + t] r low 0 0.
Proof.
  intros Hr l it Hst. exists 0%nat, it. cbn [app] in Hst. pose proof (stream_more _ _ _ Hst) as Hmore.
  apply fetch_spec in Hst as (Hf & Hc & Hst). destruct (tag_byte low t ltac:(lia)) as [H1 H2].
  exists (snd (SetMode (rmode r) (add_pc low (Advance 1 it)))). split; [constructor|]. split; [cbn; lia|]. split; [done|].
  assert (Hset : forall m it, SetMode m it = (wanted (mode_mask_ it) m, snd (SetMode m it))).
  { intros m it0. unfold SetMode. by destruct (wanted _ _). }
  split; [|split; [unfold SetMode; by destruct (wanted _ _)|]].
  - unfold next_record, AdvanceGetTag. rewrite Hf. cbn [mbind option_bind]. change kTagMask with 3. rewrite H1.
    unfold ReadTaggedPC. rewrite Hc. cbn [mbind option_bind]. change kTagBits with 2. rewrite H2.
    destruct Hr as [[-> ->]|[-> ->]]; cbn [Z.eqb kEmbeddedObjectTag kCodeTargetTag Pos.eqb]; by rewrite Hset.
  - destruct Hr as [[Hm _]|[Hm _]]; split; unfold SetMode; rewrite ?Hm; (try by destruct (wanted _ _)); cbn; destruct (wanted _ _); done.
Qed.

Lemma sint_small z : - 2 ^ 31 <= z < 2 ^ 31 -> sint 32 z = z.
Proof. intros Hz. apply sint_id; [done|]. by change (2 ^ (32 - 1)) with (2 ^ 31). Qed.

(** The signed byte of a small difference. *)
Lemma small_byte delta t :
  - 32 <= delta < 32 -> 0 <= t < 4 ->
  Z.land (uint 8 (4 * delta + t)) 3 = t /\ Z.shiftr (sint 8 (uint 8 (4 * delta + t))) 2 = delta.
Proof.
  intros Hd Ht. rewrite sint_uint, sint_id by (change (2 ^ (8 - 1)) with 128; lia). destruct (tag_byte delta t Ht) as [H1 H2].
  split; [|done]. change 3 with (Z.ones 2) in *. unfold uint. rewrite Z.land_ones in * by lia. change (2 ^ 8) with (4 * 64). change (2 ^ 2) with 4 in *.
  rewrite Z.rem_mul_r by lia. rewrite (Z.mul_comm 4 (_ mod 64)), Z_mod_plus_full. by rewrite Zmod_mod.
Qed.

Lemma is_intn_6 delta : is_intn delta kSmallDataBits = true <-> - 32 <= delta < 32.
Proof.
  unfold is_intn. change (Z.shiftl 1 (kSmallDataBits - 1)) with 32. rewrite andb_true_iff, Z.leb_le, Z.ltb_lt. lia.
Qed.

(** The round of a short record up to its tag. *)
Lemma round_short low b l it :
  stream (4 * low + 2 :: b :: l) it ->
  end_ it < it_pos it /\ stream l (add_pc low (Advance 2 it)) /\ current (add_pc low (Advance 2 it)) = Some b
  /\ next_record it =
    (let it := add_pc low (Advance 2 it) in
     let locatable_tag := Z.land b 3 in
     if locatable_tag =? kCodeWithIdTag then
       let '(set, it) := SetMode CODE_TARGET_WITH_ID it in
       if (set : bool) then it ← ReadTaggedId it; Some (true, it) else Some (false, it)
     else if positions_wanted (mode_mask_ it) then
       it ← ReadTaggedPosition it; Some (SetMode (GetPositionModeFromTag locatable_tag) it)
     else Some (false, it)).
Proof.
  intros Hst. split; [by eapply stream_more|]. apply fetch_spec in Hst as (Hf & Hc & Hst). destruct (tag_byte low 2 ltac:(lia)) as [H1 H2].
  apply fetch_spec in Hst as (_ & Hc2 & Hst2). rewrite Advance_add in *. change (1 + 1) with 2 in *.
  split; [exact Hst2|]. split; [exact Hc2|].
  unfold next_record, AdvanceGetTag. rewrite Hf. cbn [mbind option_bind]. change kTagMask with 3. rewrite H1.
  change (2 =? kEmbeddedObjectTag) with false. change (2 =? kCodeTargetTag) with false. change (2 =? kLocatableTag) with true. cbn match.
  unfold short_record, ReadTaggedPC. rewrite Hc. cbn [mbind option_bind]. change kTagBits with 2. rewrite H2.
  assert (E : Advance 1 (add_pc low (Advance 1 it)) = add_pc low (Advance 2 it)).
  { unfold Advance, add_pc, with_pos, with_rinfo. cbn. f_equal. lia. }
  rewrite E. unfold GetLocatableTypeTag. change (current (add_pc low (Advance 2 it))) with (current (Advance 2 it)). rewrite Hc2. cbn [mbind option_bind]. done.
Qed.

(** A difference in four bytes. *)
Lemma read_int delta l it :
  - 2 ^ 31 <= delta < 2 ^ 31 -> stream (le_bytes 4 delta ++ l) it ->
  exists x, read_loop kIntSize 0 0 it = Some (x, Advance 4 it) /\ sint 32 x = delta /\ stream l (Advance 4 it).
Proof.
  intros Hdelta Hst. destruct (read_loop_spec 4 0 0 delta l it Hst) as [E Hst']; [done|].
  eexists. split; [exact E|]. split; [|done]. change (2 ^ (8 * Z.of_nat 0)) with 1. rewrite Z.add_0_l, Z.mul_1_l.
  change (delta mod 2 ^ (8 * Z.of_nat 4)) with (uint 32 delta). rewrite sint_uint. by apply sint_small.
Qed.

(** An id: with its difference in one byte, or in a record of its own. *)
Lemma reads_id r low delta p :
  rmode r = CODE_TARGET_WITH_ID -> - 2 ^ 31 <= delta < 2 ^ 31 -> reads (locatable_bytes low delta 0) r low delta p.
Proof.
  intros Hm Hdelta l it Hst. unfold locatable_bytes in *. destruct (is_intn delta kSmallDataBits) eqn:Hsmall; cbn [app] in Hst.
  - apply is_intn_6 in Hsmall. destruct (round_short _ _ _ _ Hst) as (Hmore & Hst' & Hc & E).
    destruct (small_byte delta 0 Hsmall ltac:(lia)) as [H1 H2]. rewrite H1 in E. change (0 =? kCodeWithIdTag) with true in E. cbn match in E.
    exists 0%nat, it. rewrite E, Hm. unfold SetMode. change (mode_mask_ (add_pc low (Advance 2 it))) with (mode_mask_ it).
    destruct (wanted (mode_mask_ it) CODE_TARGET_WITH_ID) eqn:Hw; cbv zeta; cbn match; eexists;
      (split; [constructor|]); (split; [cbn; lia|]); (split; [done|]).
    + unfold ReadTaggedId. change (current (with_rinfo _ (add_pc low (Advance 2 it)))) with (current (add_pc low (Advance 2 it))).
      rewrite Hc. cbn [mbind option_bind]. change kLocatableTypeTagBits with 2. rewrite H2.
      split; [reflexivity|]. split; [exact Hst'|]. split; rewrite ?Hm, ?Hw; done.
    + split; [reflexivity|]. split; [exact Hst'|]. split; rewrite ?Hm, ?Hw; done.
  - destruct (turn_pc _ _ _ Hst) as (Hturn & Hst1 & [Hpc Hmode Hdata Hmask Hdone Hid Hposition]).
    remember (add_pc low (Advance 2 it)) as it1 eqn:E1. clear E1.
    destruct (round_extra 14 0 _ _ ltac:(lia) ltac:(lia) Hst1) as (Hmore & Hst2 & Htop & E).
    change (14 =? kPCJumpExtraTag) with false in E. change (14 =? kDataJumpExtraTag) with true in E. cbn match in E.
    exists 1%nat, it1. rewrite E, Hm. unfold data_record. rewrite Htop. cbn [mbind option_bind]. change (0 =? kCodeWithIdTag) with true. cbn match.
    unfold SetMode. change (mode_mask_ (Advance 1 it1)) with (mode_mask_ it1). rewrite Hmask.
    destruct (wanted (mode_mask_ it) CODE_TARGET_WITH_ID) eqn:Hw; cbn match; eexists;
      (split; [by apply nsteps_once|]); (split; [cbn; lia|]); (split; [done|]).
    + unfold AdvanceReadId. match goal with |- context [read_loop kIntSize 0 0 ?i] => destruct (read_int delta l i Hdelta Hst2) as (x & -> & Hx & Hst3) end.
      cbn [mbind option_bind]. rewrite Hx. split; [reflexivity|]. split; [exact Hst3|].
      split; rewrite ?Hm, ?Hw; cbn; rewrite ?Hid; done.
    + destruct (read_int delta l _ Hdelta Hst2) as (x & _ & _ & Hst3). split; [reflexivity|]. split; [exact Hst3|].
      split; rewrite ?Hm, ?Hw; cbn; done.
Qed.

Lemma position_mode r tag :
  (rmode r = POSITION /\ tag = 1) \/ (rmode r = STATEMENT_POSITION /\ tag = 2) ->
  (tag =? kCodeWithIdTag) = false /\ (tag =? kCommentTag) = false /\ GetPositionModeFromTag tag = rmode r
  /\ IsPosition (rmode r) = true /\ bool_decide (rmode r = CODE_TARGET_WITH_ID) = false.
Proof. by intros [[-> ->]|[-> ->]]. Qed.

Lemma SetMode_eq m it :
  SetMode m it = (wanted (mode_mask_ it) m, if wanted (mode_mask_ it) m then with_rinfo (MkRelocInfo (pc (rinfo_ it)) m (data (rinfo_ it))) it else it).
Proof. unfold SetMode. by destruct (wanted _ _). Qed.

Lemma wanted_testbit mask m : wanted mask m = Z.testbit mask (mode_value m).
Proof.
  unfold wanted. assert (H : 0 <= mode_value m) by (by destruct m). rewrite Z.shiftl_1_l.
  apply eq_true_iff_eq. rewrite negb_true_iff, Z.eqb_neq. split.
  - intros Hne. destruct (Z.testbit mask (mode_value m)) eqn:Hb; [done|]. destruct Hne. apply Z.bits_inj'. intros n Hn.
    rewrite Z.land_spec, Z.bits_0. destruct (Z.eqb_spec (mode_value m) n) as [<-|Hd]; [by rewrite Hb|].
    rewrite Z.pow2_bits_false by done. apply andb_false_r.
  - intros Hb E. apply (f_equal (fun z => Z.testbit z (mode_value m))) in E. rewrite Z.land_spec, Hb, Z.pow2_bits_true, Z.bits_0 in E by done. done.
Qed.

Lemma positions_wanted_spec mask : positions_wanted mask = wanted mask POSITION || wanted mask STATEMENT_POSITION.
Proof.
  unfold positions_wanted, wanted. change kPositionMask with (Z.lor (Z.shiftl 1 10) (Z.shiftl 1 11)). rewrite Z.land_lor_distr_r.
  cbn [mode_value]. apply eq_true_iff_eq. rewrite orb_true_iff, !negb_true_iff, !Z.eqb_neq, Z.lor_eq_0_iff. 
  destruct (Z.eq_dec (Z.land mask (Z.shiftl 1 10)) 0), (Z.eq_dec (Z.land mask (Z.shiftl 1 11)) 0); tauto.
Qed.

(** A position. *)
Lemma reads_position r low delta i tag :
  (rmode r = POSITION /\ tag = 1) \/ (rmode r = STATEMENT_POSITION /\ tag = 2) -> - 2 ^ 31 <= delta < 2 ^ 31 ->
  reads (locatable_bytes low delta tag) r low i delta.
Proof.
  intros Hr Hdelta l it Hst. destruct (position_mode r tag Hr) as (Hnid & Hncom & Hmode & Hpos & Hid0).
  assert (Htag : 0 <= tag < 4) by (destruct Hr as [[_ ->]|[_ ->]]; lia).
  assert (Hunwanted : positions_wanted (mode_mask_ it) = false -> wanted (mode_mask_ it) (rmode r) = false).
  { rewrite positions_wanted_spec, orb_false_iff. intros [H1 H2]. destruct Hr as [[-> _]|[-> _]]; done. }
  unfold locatable_bytes in *. destruct (is_intn delta kSmallDataBits) eqn:Hsmall; cbn [app] in Hst.
  - apply is_intn_6 in Hsmall. destruct (round_short _ _ _ _ Hst) as (Hmore & Hst' & Hc & E).
    destruct (small_byte delta tag Hsmall Htag) as [H1 H2]. rewrite H1 in E. cbv zeta in E. rewrite Hnid in E.
    exists 0%nat, it. rewrite E. change (mode_mask_ (add_pc low (Advance 2 it))) with (mode_mask_ it).
    destruct (positions_wanted (mode_mask_ it)) eqn:Hw in |- *; eexists; (split; [constructor|]); (split; [cbn; lia|]); (split; [done|]).
    + unfold ReadTaggedPosition. rewrite Hc. cbn [mbind option_bind]. change kLocatableTypeTagBits with 2. rewrite H2, Hmode, SetMode_eq.
      change (mode_mask_ (set_data _ _)) with (mode_mask_ it).
      split; [reflexivity|]. split; [destruct (wanted _ _); assumption|].
      split; rewrite ?Hpos, ?Hw, ?Hid0; cbn; (destruct (wanted _ _); cbn; try done); intros _; destruct Hr as [[-> _]|[-> _]]; done.
    + rewrite Hunwanted by done. split; [reflexivity|]. split; [exact Hst'|].
      split; rewrite ?Hpos, ?Hw, ?Hid0, ?Hunwanted by done; done.
  - destruct (turn_pc _ _ _ Hst) as (Hturn & Hst1 & [Hpc Hmd Hdata Hmask Hdone Hid Hposition]).
    remember (add_pc low (Advance 2 it)) as it1 eqn:E1. clear E1.
    destruct (round_extra 14 tag _ _ ltac:(lia) Htag Hst1) as (Hmore & Hst2 & Htop & E).
    change (14 =? kPCJumpExtraTag) with false in E. change (14 =? kDataJumpExtraTag) with true in E. cbn match in E.
    exists 1%nat, it1. rewrite E. unfold data_record. rewrite Htop. cbn [mbind option_bind]. rewrite Hnid, Hncom. cbn [negb].
    change (mode_mask_ (Advance 1 it1)) with (mode_mask_ it1). rewrite Hmask.
    destruct (read_int delta l _ Hdelta Hst2) as (x & Ex & Hx & Hst3).
    destruct (positions_wanted (mode_mask_ it)) eqn:Hw in |- *; eexists; (split; [by apply nsteps_once|]); (split; [cbn; lia|]); (split; [done|]).
    + unfold AdvanceReadPosition. rewrite Ex. cbn [mbind option_bind]. rewrite Hx, Hmode, SetMode_eq.
      change (mode_mask_ (set_data _ _)) with (mode_mask_ it1). rewrite Hmask. split; [reflexivity|]. split; [destruct (wanted _ _); assumption|].
      split; rewrite ?Hpos, ?Hw, ?Hid0; cbn; (destruct (wanted _ _); cbn; rewrite ?Hposition; try done); intros _; destruct Hr as [[-> _]|[-> _]]; done.
    + rewrite Hunwanted by done. split; [reflexivity|]. split; [exact Hst3|].
      split; rewrite ?Hpos, ?Hw, ?Hid0, ?Hunwanted by done; done.
Qed.

(** A comment: its data is an address. *)
Lemma reads_comment r low i p :
  rmode r = COMMENT -> reads ([extra_byte 15 0; low; extra_byte 14 3] ++ le_bytes kIntptrSize (data r)) r low i p.
Proof.
  intros Hm l it Hst. cbn [app] in Hst. destruct (turn_pc _ _ _ Hst) as (Hturn & Hst1 & [Hpc Hmd Hdata Hmask Hdone Hid Hposition]).
  remember (add_pc low (Advance 2 it)) as it1 eqn:E1. clear E1.
  destruct (round_extra 14 3 _ _ ltac:(lia) ltac:(lia) Hst1) as (Hmore & Hst2 & Htop & E).
  change (14 =? kPCJumpExtraTag) with false in E. change (14 =? kDataJumpExtraTag) with true in E. cbn match in E.
  exists 1%nat, it1. rewrite E, Hm. unfold data_record. rewrite Htop. cbn [mbind option_bind].
  change (3 =? kCodeWithIdTag) with false. change (3 =? kCommentTag) with true. cbn [negb]. rewrite SetMode_eq.
  change (mode_mask_ (Advance 1 it1)) with (mode_mask_ it1). rewrite Hmask.
  destruct (wanted (mode_mask_ it) COMMENT) eqn:Hw; eexists; (split; [by apply nsteps_once|]); (split; [cbn; lia|]); (split; [done|]).
  - unfold AdvanceReadData. match goal with |- context [read_loop kIntptrSize 0 0 ?i] =>
      destruct (read_loop_spec kIntptrSize 0 0 (data r) l i Hst2) as [-> Hst3]; [done|] end.
    cbn [mbind option_bind]. split; [reflexivity|]. split; [exact Hst3|]. split; rewrite ?Hm, ?Hw; cbn; try done.
    intros _. change (2 ^ (8 * Z.of_nat 0)) with 1. rewrite Z.mul_1_l. apply (sint_uint (8 * Z.of_nat kIntptrSize)).
  - destruct (read_loop_spec kIntptrSize 0 0 (data r) l _ Hst2) as [_ Hst3]; [done|]. split; [reflexivity|]. split; [exact Hst3|].
    split; rewrite ?Hm, ?Hw; cbn; done.
Qed.

(** The modes without data. *)
Definition plain_mode (m : Mode) : Prop :=
  match m with
  | CODE_TARGET | CODE_TARGET_WITH_ID | EMBEDDED_OBJECT | COMMENT | POSITION | STATEMENT_POSITION => False
  | _ => True
  end.

Lemma reads_other r low i p : plain_mode (rmode r) -> reads [extra_byte (mode_value (rmode r) - 1) 0; low] r low i p.
Proof.
  intros Hm l it Hst. cbn [app] in Hst.
  assert (He : 0 <= mode_value (rmode r) - 1 < 14) by (destruct (rmode r); cbn in *; done || lia).
  assert (He16 : 0 <= mode_value (rmode r) - 1 < 16) by lia.
  destruct (round_extra _ 0 _ _ He16 ltac:(lia) Hst) as (Hmore & Hst1 & _ & E).
  change kPCJumpExtraTag with 15 in E. change kDataJumpExtraTag with 14 in E.
  rewrite (proj2 (Z.eqb_neq _ 15)), (proj2 (Z.eqb_neq _ 14)) in E by lia.
  apply fetch_spec in Hst1 as (Hf & _ & Hst2). unfold AdvanceReadPC in E. rewrite Hf in E. cbn [mbind option_bind] in E.
  assert (Hmode : mode_of (mode_value (rmode r) - 1 + LAST_COMPACT_ENUM) = Some (rmode r)) by (destruct (rmode r); done).
  rewrite Hmode in E. cbn [mbind option_bind] in E. rewrite SetMode_eq in E.
  exists 0%nat, it. eexists. split; [constructor|]. split; [cbn; lia|]. split; [done|]. split; [exact E|].
  change (mode_mask_ (add_pc low (Advance 1 (Advance 1 it)))) with (mode_mask_ it).
  assert (Hnid : bool_decide (rmode r = CODE_TARGET_WITH_ID) = false /\ IsPosition (rmode r) = false) by (by destruct (rmode r)).
  destruct Hnid as [Hnid Hnpos].
  split; [destruct (wanted _ _); exact Hst2|]. split; rewrite ?Hnid, ?Hnpos; destruct (wanted (mode_mask_ it) (rmode r)); cbn; try done;
    intros _; destruct (rmode r); done.
Qed.

Lemma reads_weaken bs r low i i' p p' :
  rmode r <> CODE_TARGET_WITH_ID -> IsPosition (rmode r) = false -> reads bs r low i p -> reads bs r low i' p'.
Proof.
  intros Hid Hpos H l it Hst. destruct (H l it Hst) as (k & it1 & it' & Hk & Hlt & Hmore & E & Hst' & [R1 R2 R3 R4 R5 R6 R7]).
  exists k, it1, it'. do 5 (split; [done|]). rewrite Hpos in R6. rewrite bool_decide_eq_false_2 in R5 by done.
  split; rewrite ?Hpos, ?bool_decide_eq_false_2 by done; done.
Qed.

Lemma reads_body r low i p :
  - 2 ^ 31 <= i < 2 ^ 31 -> - 2 ^ 31 <= p < 2 ^ 31 -> reads (body_bytes kIntptrSize low i p r) r low i p.
Proof.
  intros Hi Hp. unfold body_bytes. destruct (rmode r) eqn:Hm;
    try (rewrite <- Hm; apply reads_other; by rewrite Hm).
  - apply (reads_weaken _ _ _ 0 _ 0); [congruence|by rewrite Hm|]. apply reads_tagged. by right.
  - by apply reads_id.
  - apply (reads_weaken _ _ _ 0 _ 0); [congruence|by rewrite Hm|]. apply reads_tagged. by left.
  - by apply reads_comment.
  - apply reads_position; [by left|done].
  - apply reads_position; [by right|done].
Qed.

(** ** Records *)

(** What the iterator knows of the record before. *)
Record knows (b : Base) (it : RelocIterator) : Prop := {
  knows_pc : pc (rinfo_ it) = base_pc b;
  knows_id : wanted (mode_mask_ it) CODE_TARGET_WITH_ID = true -> it_last_id it = base_id b;
  knows_position : positions_wanted (mode_mask_ it) = true -> it_last_position it = base_position b;
  knows_going : done_ it = false
}.

(** The record that the iterator shows; the data of a mode without data is not specified. *)
Definition shows (r r' : RelocInfo) : Prop :=
  pc r' = pc r /\ rmode r' = rmode r /\
  match rmode r with
  | CODE_TARGET_WITH_ID | POSITION | STATEMENT_POSITION | COMMENT => data r' = data r
  | _ => True
  end.

(** The data of a record fits in its encoding. *)
Definition data_ok (r : RelocInfo) : Prop :=
  match rmode r with
  | CODE_TARGET_WITH_ID | POSITION | STATEMENT_POSITION => - 2 ^ 31 <= data r < 2 ^ 31
  | COMMENT => - 2 ^ (8 * Z.of_nat kIntptrSize - 1) <= data r < 2 ^ (8 * Z.of_nat kIntptrSize - 1)
  | _ => True
  end.

Lemma sint_range z : - 2 ^ 31 <= sint 32 z < 2 ^ 31.
Proof.
  unfold sint. change (2 ^ (32 - 1)) with (2 ^ 31). pose proof (Z.mod_pos_bound (z + 2 ^ 31) (2 ^ 32) ltac:(lia)). lia.
Qed.

Lemma sint_delta a d : sint 32 (a + sint 32 (sint 32 d - a)) = sint 32 d.
Proof.
  rewrite <- (sint_small (sint 32 d) (sint_range d)) at 2. generalize (sint 32 d). intros c.
  destruct (sint_cong 32 (c - a) ltac:(lia)) as [k ->]. unfold sint. f_equal.
  replace (a + (c - a + k * 2 ^ 32) + 2 ^ (32 - 1)) with (c + 2 ^ (32 - 1) + k * 2 ^ 32) by lia. apply Z_mod_plus_full.
Qed.

Lemma reads_encode b r l it :
  (0 < kIntptrSize)%nat -> 0 <= pc r - base_pc b < 2 ^ 32 -> data_ok r -> knows b it -> stream (encode kIntptrSize b r ++ l) it ->
  exists k it1 it', nsteps turn k it it1 /\ (k < length (encode kIntptrSize b r))%nat /\ end_ it1 < it_pos it1
  /\ next_record it1 = Some (wanted (mode_mask_ it) (rmode r), it') /\ stream l it' /\ mode_mask_ it' = mode_mask_ it
  /\ knows (after r b) it' /\ (wanted (mode_mask_ it) (rmode r) = true -> shows r (rinfo_ it')).
Proof.
  intros Hsize Hd Hdata [Kpc Kid Kpos Kgo] Hst. unfold encode in *. rewrite <- app_assoc in Hst.
  destruct (turn_jump _ _ _ Hd Hst) as (k & it0 & Hk & Hkl & Hst0 & [M1 M2 M3 M4 M5 M6 M7]).
  destruct (reads_body r ((pc r - base_pc b) mod 64) _ _ (sint_range _) (sint_range _) _ _ Hst0)
    as (k' & it1 & it' & Hk' & Hkl' & Hmore & E & Hst' & [R1 R2 R3 R4 R5 R6 R7]).
  rewrite M4 in *. exists (k + k')%nat, it1, it'. split; [by eapply nsteps_trans|]. split; [rewrite length_app; lia|].
  do 3 (split; [done|]). split; [done|].
  assert (Hpc : pc (rinfo_ it') = pc r) by (rewrite R1, M1, Kpc; lia).
  split; [split; unfold after; cbn [base_pc base_id base_position]; rewrite ?R2|].
  - done.
  - intros Hw. rewrite R5, Hw, andb_true_r, M6, Kid by done. case_bool_decide; [apply sint_delta|done].
  - intros Hw. rewrite R6, Hw, andb_true_r, M7, Kpos by done. destruct (IsPosition (rmode r)); [apply sint_delta|done].
  - by rewrite R3, M5.
  - intros Hw. split; [done|]. split; [by apply R4|]. specialize (R7 Hw). unfold data_ok in Hdata. rewrite R5, R6 in R7.
    destruct (rmode r) eqn:Hm; try done.
    + rewrite R7. cbn [bool_decide]. rewrite bool_decide_eq_true_2 by done. cbn [andb]. rewrite Hw, M6, Kid, sint_delta by done. by apply sint_small.
    + rewrite R7. apply sint_id; lia.
    + rewrite R7. assert (Hpw : positions_wanted (mode_mask_ it) = true) by (by rewrite positions_wanted_spec, Hw).
      rewrite Hpw. cbn [IsPosition andb]. change (IsPosition POSITION) with true. cbn [andb]. rewrite M7, Kpos, sint_delta by done. by apply sint_small.
    + rewrite R7. assert (Hpw : positions_wanted (mode_mask_ it) = true) by (by rewrite positions_wanted_spec, Hw, orb_true_r).
      rewrite Hpw. change (IsPosition STATEMENT_POSITION) with true. cbn [andb]. rewrite M7, Kpos, sint_delta by done. by apply sint_small.
Qed.

(** ** The loop of the iterator *)

Lemma next_loop_turns k fuel it it1 :
  nsteps turn k it it1 -> next_loop kIntptrSize (k + fuel) it = next_loop kIntptrSize fuel it1.
Proof.
  induction 1 as [it|k it it0 it1 [Hmore E] _ IH]; [done|]. cbn [Nat.add next_loop].
  rewrite (proj2 (Z.ltb_lt _ _) Hmore), E. exact IH.
Qed.

Definition is_wanted (mask : Z) (r : RelocInfo) : bool := wanted mask (rmode r).

(** The iterator stands in front of the records. *)
Record before (b : Base) (rs : list RelocInfo) (it : RelocIterator) : Prop := {
  before_stream : stream (encode_all kIntptrSize b rs) it;
  before_knows : knows b it;
  before_ascending : ascending (base_pc b) rs;
  before_data : Forall data_ok rs
}.

(** [next] goes to the next record that is wanted. *)
Definition next_shows (mask : Z) (rs : list RelocInfo) (it' : RelocIterator) : Prop :=
  match List.filter (is_wanted mask) rs with
  | [] => done_ it' = true
  | r :: wanted_rest => shows r (rinfo_ it') /\ exists b' rest, before b' rest it' /\ (length rest < length rs)%nat
      /\ mode_mask_ it' = mask /\ wanted_rest = List.filter (is_wanted mask) rest
  end.

Lemma next_loop_spec (Hsize : (0 < kIntptrSize)%nat) b rs it fuel :
  before b rs it -> (length (encode_all kIntptrSize b rs) < fuel)%nat ->
  exists it', next_loop kIntptrSize fuel it = Some it' /\ next_shows (mode_mask_ it) rs it'.
Proof.
  revert b it fuel. induction rs as [|r rs IH]; intros b it fuel [Hst Hk Hasc Hdata] Hfuel; cbn [encode_all] in *.
  { destruct fuel as [|fuel]; [lia|]. cbn [next_loop]. rewrite (stream_done _ Hst), Z.ltb_irrefl. by eexists. }
  cbn [ascending] in Hasc. destruct Hasc as [Hd Hasc]. apply Forall_cons in Hdata as [Hdr Hdata]. rewrite length_app in Hfuel.
  destruct (reads_encode _ _ _ _ Hsize Hd Hdr Hk Hst) as (k & it1 & it' & Hturns & Hlt & Hmore & E & Hst' & Hmask & Hk' & Hshows).
  assert (Hb : before (after r b) rs it') by by split.
  destruct fuel as [|fuel]; [lia|]. replace (S fuel) with (k + S (fuel - k))%nat by lia.
  rewrite (next_loop_turns _ _ _ _ Hturns). cbn [next_loop]. rewrite (proj2 (Z.ltb_lt _ _) Hmore), E. cbn [mbind option_bind].
  unfold next_shows. cbn [List.filter]. unfold is_wanted at 1. destruct (wanted (mode_mask_ it) (rmode r)).
  - exists it'. split; [done|]. split; [by apply Hshows|]. exists (after r b), rs. repeat split; (by apply Hb) || cbn; done || lia.
  - destruct (IH _ _ (fuel - k)%nat Hb) as (it2 & E2 & Hshow2); [lia|]. exists it2. split; [done|]. unfold next_shows in Hshow2. rewrite Hmask in Hshow2.
    destruct (List.filter _ _); [done|]. destruct Hshow2 as (H1 & b' & rest & H2 & H3 & H4). split; [done|]. exists b', rest.
    split; [done|]. split; [cbn; lia|done].
Qed.

Lemma next_spec (Hsize : (0 < kIntptrSize)%nat) b rs it :
  before b rs it -> exists it', next kIntptrSize it = Some it' /\ next_shows (mode_mask_ it) rs it'.
Proof.
  intros Hb. unfold next. apply (next_loop_spec Hsize b); [done|]. destruct Hb as [(low & high & _ & -> & ->) _ _ _].
  unfold encode_all. lia.
Qed.

Lemma knows_going_on b it : knows b it -> done_ it = false.
Proof. by intros []. Qed.

Lemma iterate_spec (Hsize : (0 < kIntptrSize)%nat) mask rs it' :
  next_shows mask rs it' -> forall fuel, (length rs < fuel)%nat ->
  exists seen, iterate kIntptrSize fuel it' = Some seen /\ Forall2 shows (List.filter (is_wanted mask) rs) seen.
Proof.
  remember (length rs) as n eqn:Hn. revert rs it' Hn. induction n as [n IH] using lt_wf_ind. intros rs it' -> Hnext fuel Hfuel.
  destruct fuel as [|fuel]; [lia|]. cbn [iterate]. unfold next_shows in Hnext. destruct (List.filter (is_wanted mask) rs) as [|r wanted_rest].
  { rewrite Hnext. eexists. by split. }
  destruct Hnext as (Hshows & b & rest & Hb & Hlen & Hmask & ->). rewrite (knows_going_on b) by apply Hb.
  destruct (next_spec Hsize _ _ _ Hb) as (it2 & -> & Hnext). rewrite Hmask in Hnext. cbn [mbind option_bind].
  destruct (IH (length rest) Hlen rest it2 eq_refl Hnext fuel) as (seen & -> & Hseen); [lia|]. cbn [mbind option_bind].
  eexists. split; [done|]. by constructor.
Qed.
End read.

(** ** Sizes of records *)

Lemma chunk_bytes_size n x : (length (chunk_bytes n x) <= n)%nat.
Proof. revert x. induction n as [|n IH]; intros x; cbn [chunk_bytes]; [done|]. destruct (x <? 128); cbn [length]; [lia|]. specialize (IH (x / 128)). lia. Qed.

Lemma jump_bytes_size d : (length (jump_bytes d) <= 5)%nat.
Proof. unfold jump_bytes. destruct (d <? 64); cbn [length]; [lia|]. pose proof (chunk_bytes_size 4 (d / 64)). lia. Qed.

Lemma body_bytes_size size low i p r :
  (length (body_bytes size low i p r) <= if bool_decide (rmode r = COMMENT) then 3 + size else 7)%nat
  /\ (0 < length (body_bytes size low i p r))%nat
  /\ (rmode r = CODE_TARGET -> length (body_bytes size low i p r) = 1%nat)
  /\ (rmode r = COMMENT -> length (body_bytes size low i p r) = 3 + size)%nat.
Proof.
  unfold body_bytes, locatable_bytes. destruct (rmode r); case_bool_decide; try done;
    try destruct (is_intn _ _); rewrite ?length_app, ?length_le_bytes; cbn [length]; repeat split; intros; try done; lia.
Qed.

Lemma encode_size size b r :
  (size <= 8)%nat ->
  0 < Z.of_nat (length (encode size b r)) <= kMaxSize
  /\ (rmode r <> COMMENT -> Z.of_nat (length (encode size b r)) <= 12)
  /\ (rmode r = CODE_TARGET -> Z.of_nat (length (encode size b r)) <= kMaxCallSize)
  /\ (rmode r = COMMENT -> kMinRelocCommentSize size <= Z.of_nat (length (encode size b r))).
Proof.
  intros Hs. unfold encode, kMaxSize, kMaxCallSize, kMinRelocCommentSize. rewrite length_app.
  pose proof (jump_bytes_size (pc r - base_pc b)).
  destruct (body_bytes_size size ((pc r - base_pc b) mod 64) (sint 32 (sint 32 (data r) - base_id b))
    (sint 32 (sint 32 (data r) - base_position b)) r) as (H1 & H2 & H3 & H4).
  case_bool_decide as Hc; (split; [lia|]); (split; [intros; try done; lia|]); split; intros Hm;
    try specialize (H3 Hm); try specialize (H4 Hm); try congruence; lia.
Qed.

Lemma encode_all_size size b rs :
  (size <= 8)%nat -> Z.of_nat (length (encode_all size b rs)) <= kMaxSize * Z.of_nat (length rs).
Proof.
  intros Hs. revert b. induction rs as [|r rs IH]; intros b; cbn [encode_all length]; [lia|]. rewrite length_app.
  destruct (encode_size size b r Hs) as [H _]. specialize (IH (after r b)). lia.
Qed.

Section writer.
Context (kIntptrSize : nat).

Lemma write_records_spec rs low room high w :
  ascending (last_pc_ w) rs -> writing (low ++ room) high w -> length room = length (encode_all kIntptrSize (base w) rs) ->
  exists w', write_all kIntptrSize rs w = Some w' /\ writing low (rev (encode_all kIntptrSize (base w) rs) ++ high) w'.
Proof.
  revert room high w. induction rs as [|r rs IH]; intros room high w Hasc Hw Hroom; cbn [encode_all write_all rev] in *.
  { destruct room; [|done]. rewrite app_nil_r in Hw. by exists w. }
  destruct Hasc as [Hd Hasc]. rewrite length_app in Hroom. set (n := length (encode_all kIntptrSize (after r (base w)) rs)) in *.
  rewrite <- (take_drop n room), app_assoc in Hw.
  destruct (Write_spec kIntptrSize r _ _ _ _ Hd Hw) as (w1 & -> & Hw1 & Hb); [rewrite length_drop; lia|]. cbn [mbind option_bind].
  destruct (IH (take n room) (rev (encode kIntptrSize (base w) r) ++ high) w1) as (w' & E & Hw'); [|exact Hw1|rewrite Hb, length_take; lia|].
  - assert (Hpc : last_pc_ w1 = pc r) by (by change (last_pc_ w1) with (base_pc (base w1)); rewrite Hb). by rewrite Hpc.
  - exists w'. split; [done|]. rewrite Hb in Hw'. by rewrite rev_app_distr, <- app_assoc.
Qed.

(** The memory around a position. *)
Lemma writing_split (n : nat) w :
  0 <= Z.of_nat n <= pos_ w -> pos_ w <= Z.of_nat (length (memory w)) ->
  let low := take (Z.to_nat (pos_ w) - n) (memory w) in
  let room := drop (Z.to_nat (pos_ w) - n) (take (Z.to_nat (pos_ w)) (memory w)) in
  writing (low ++ room) (drop (Z.to_nat (pos_ w)) (memory w)) w /\ length room = n /\ Z.of_nat (length low) = pos_ w - Z.of_nat n.
Proof.
  intros Hn Hpos low room. unfold low, room.
  assert (Hall : take (Z.to_nat (pos_ w) - n) (memory w) ++ drop (Z.to_nat (pos_ w) - n) (take (Z.to_nat (pos_ w)) (memory w)) = take (Z.to_nat (pos_ w)) (memory w)).
  { rewrite <- (take_drop (Z.to_nat (pos_ w) - n) (take (Z.to_nat (pos_ w)) (memory w))) at 2. f_equal. rewrite take_take. f_equal. lia. }
  split; [|rewrite length_drop, !length_take; lia]. rewrite Hall. split; [by rewrite take_drop|]. rewrite length_take. lia.
Qed.

(** C30: The size of a record (the assertions of [Write]).  A record is written into any room of [kMaxSize] bytes; it
    takes a byte at least, [kMaxSize] bytes at most, [kMaxCallSize] for a target of a call and 12 for
    everything but a comment, whose size is [kMinRelocCommentSize] at least; nothing outside of its bytes is changed. *)
Theorem Write_size r w :
  (kIntptrSize <= 8)%nat -> 0 <= pc r - last_pc_ w < 2 ^ 32 -> kMaxSize <= pos_ w <= Z.of_nat (length (memory w)) ->
  exists w', Write kIntptrSize r w = Some w' /\ 0 < pos_ w - pos_ w' <= kMaxSize
  /\ (rmode r <> COMMENT -> pos_ w - pos_ w' <= 12) /\ (rmode r = CODE_TARGET -> pos_ w - pos_ w' <= kMaxCallSize)
  /\ (rmode r = COMMENT -> kMinRelocCommentSize kIntptrSize <= pos_ w - pos_ w')
  /\ take (Z.to_nat (pos_ w')) (memory w') = take (Z.to_nat (pos_ w')) (memory w)
  /\ drop (Z.to_nat (pos_ w)) (memory w') = drop (Z.to_nat (pos_ w)) (memory w).
Proof.
  intros Hs Hd Hpos. destruct (encode_size kIntptrSize (base w) r Hs) as (Hmax & H12 & Hcall & Hcomment).
  set (n := length (encode kIntptrSize (base w) r)) in *. destruct (writing_split n w) as (Hw & Hroom & Hlow); [lia|lia|].
  destruct (Write_spec kIntptrSize r _ _ _ _ Hd Hw Hroom) as (w' & -> & [Hmem' Hpos'] & _). exists w'. split; [done|].
  rewrite Hpos', Hlow. replace (pos_ w - (pos_ w - Z.of_nat n)) with (Z.of_nat n) by lia. do 4 (split; [done|]).
  rewrite Hmem'. split.
  - rewrite take_app_le by lia. rewrite take_take. f_equal. lia.
  - rewrite app_assoc, drop_app_length'; [done|]. rewrite length_app, length_rev. fold n. lia.
Qed.

End writer.

Lemma Write_size_witness :
  exists w', Write 8 (MkRelocInfo 100 COMMENT 0x12345678) (RelocInfoWriter_new (repeat 0 32) 32 0) = Some w'
  /\ 0 < 32 - pos_ w' <= kMaxSize.
Proof.
  destruct (Write_size 8 (MkRelocInfo 100 COMMENT 0x12345678) (RelocInfoWriter_new (repeat 0 32) 32 0))
    as (w' & H1 & H2 & _); [lia|cbn; lia|split; vm_compute; discriminate|]. exists w'. split; [exact H1|exact H2].
Defined.

(** ** Round trip *)

(** C29: The iterator reads what the writer wrote.  For records with ascending addresses whose data fits, and a buffer
    with [kMaxSize] bytes for each below [pos], [write_all] succeeds without a change below its last position, and
    the iterator over the bytes it wrote sees just the records whose mode is in the mask, in their order: their
    addresses, modes and data.  It never reads outside of the buffer and comes to its end, whatever the bytes below. *)
Theorem Write_iterate size mem position start rs raw_mode mask :
  (0 < size <= 8)%nat -> ascending start rs -> Forall (data_ok size) rs ->
  kMaxSize * Z.of_nat (length rs) <= position <= Z.of_nat (length mem) ->
  exists w', write_all size rs (RelocInfoWriter_new mem position start) = Some w'
  /\ take (Z.to_nat (pos_ w')) (memory w') = take (Z.to_nat (pos_ w')) mem
  /\ exists it seen, RelocIterator_new size raw_mode (MkCodeDesc start (memory w') position (position - pos_ w')) mask = Some it
  /\ iterate size (S (length rs)) it = Some seen
  /\ Forall2 shows (List.filter (fun r => wanted mask (rmode r)) rs) seen.
Proof.
  intros Hs Hasc Hdata Hpos. assert (Hs0 : (0 < size)%nat) by lia. set (w := RelocInfoWriter_new mem position start).
  pose proof (encode_all_size size (base w) rs ltac:(lia)) as Hmax. set (n := length (encode_all size (base w) rs)) in *.
  destruct (writing_split n w) as (Hw & Hroom & Hlow); [cbn; lia|cbn; lia|].
  set (low := take _ _) in Hw, Hlow. destruct (write_records_spec size rs low _ _ w Hasc Hw Hroom) as (w' & -> & Hmem' & Hpos'). exists w'. split; [done|].
  cbn [memory pos_ w RelocInfoWriter_new] in *. rewrite Hpos', Hlow. split.
  { rewrite Hmem', take_app_le by lia. unfold low. rewrite take_take. f_equal. lia. }
  unfold RelocIterator_new. cbn [buffer bytes buffer_size reloc_size].
  replace (position - (position - (position - Z.of_nat n))) with (position - Z.of_nat n) by lia.
  set (it0 := MkIterator _ _ _ _ _ _ _ _).
  assert (Hnext : exists it, next size it0 = Some it /\ next_shows size mask rs it).
  { destruct (Z.eqb_spec mask 0) as [Hm|_].
    - exists (with_done true it0). split.
      + unfold next, it0. cbn [it_pos end_ next_loop]. by rewrite Z.ltb_irrefl.
      + unfold next_shows. assert (Hnil : List.filter (is_wanted mask) rs = []); [|by rewrite Hnil].
        rewrite Hm. clear. induction rs as [|r rs IH]; [done|]. cbn [List.filter]. unfold is_wanted at 1. by rewrite wanted_testbit, Z.bits_0.
    - apply (next_spec size Hs0 (base w) rs it0). split; try done. exists low, (drop (Z.to_nat position) mem).
      cbn [it_memory end_ it_pos it0]. fold n. by rewrite Hlow, Z.sub_add. }
  destruct Hnext as (it & -> & Hnext). exists it. destruct (iterate_spec size Hs0 mask rs it Hnext (S (length rs))) as (seen & E & Hseen); [lia|].
  exists seen. done.
Qed.

Definition example_records : list RelocInfo :=
  [MkRelocInfo 1003 EMBEDDED_OBJECT 7; MkRelocInfo 1010 STATEMENT_POSITION 40; MkRelocInfo 1010 POSITION (-3);
   MkRelocInfo 1500000 CODE_TARGET_WITH_ID 12; MkRelocInfo 1500001 COMMENT 0x1234; MkRelocInfo 1500002 INTERNAL_REFERENCE 0;
   MkRelocInfo 1500300 CODE_TARGET 0; MkRelocInfo 1500300 CODE_TARGET_WITH_ID 11].

Lemma Write_iterate_witness :
  exists w', write_all 4 example_records (RelocInfoWriter_new (repeat 0xcc 200) 200 1000) = Some w'
  /\ exists it seen, RelocIterator_new 4 CODE_TARGET (MkCodeDesc 1000 (memory w') 200 (200 - pos_ w')) (-1) = Some it
  /\ iterate 4 9 it = Some seen /\ Forall2 shows example_records seen.
Proof.
  destruct (Write_iterate 4 (repeat 0xcc 200) 200 1000 example_records CODE_TARGET (-1)) as (w' & H1 & _ & it & seen & H2 & H3 & H4).
  - lia.
  - repeat split; vm_compute; done.
  - repeat (constructor; [cbn; try done; split; vm_compute; done|]). constructor.
  - split; vm_compute; discriminate.
  - exists w'. split; [exact H1|]. exists it, seen. split; [exact H2|]. split; [exact H3|exact H4].
Defined.

(** All the kinds of record of the example, in 35 bytes. *)
Example example_bytes :
  option_map (fun w => 200 - pos_ w) (write_all 4 example_records (RelocInfoWriter_new (repeat 0xcc 200) 200 1000)) = Some 35.
Proof. vm_compute. reflexivity. Qed.
