(* ===== verification/SortPairs.v ===== *)
(** * SortPairs: sorting an array by the numbers of another

    Models [FixedArray::SortPairs] of src/objects.cc, with its insertion sort, heap sort and placement in linear
    time.  [SwapPairs] swaps two elements of the array and of the array of numbers, which may be the same
    array.  Elements of the array of numbers are the numbers ([NumberToUint32]).  Indices are below the
    length of an array, so they are [nat]; a read or write outside of an array is [None]. *)

From Stdlib Require Import Sorting.Permutation.
From S2P Require Import Prelude.
Local Open Scope Z_scope.

(** ** The algorithms *)

Section sort.
Context {Element : Type}.

(** The array with its numbers, or the array of numbers itself. *)
Inductive Arrays :=
  | Separate (content : list Element) (numbers : list Z)
  | Same (numbers : list Z).

Definition numbers (a : Arrays) : list Z := match a with Separate _ n => n | Same n => n end.

Definition number (a : Arrays) (i : nat) : option Z := numbers a !! i.

Definition swap {A} (l : list A) (i j : nat) : option (list A) :=
  temp ← l !! i; y ← l !! j; Some (<[j := temp]> (<[i := y]> l)).

Definition SwapPairs (a : Arrays) (i j : nat) : option Arrays :=
  match a with
  | Separate content numbers => content ← swap content i j; numbers ← swap numbers i j; Some (Separate content numbers)
  | Same numbers => numbers ← swap numbers i j; Some (Same numbers)
  end.

(** [for (i = i; i < i + n; i++)] *)
Fixpoint for_up {St} (body : nat -> St -> option St) (i n : nat) (s : St) : option St :=
  match n with
  | O => Some s
  | S n => s ← body i s; for_up body (i + 1) n s
  end.

(** [for (i = n; i > 0; --i)] *)
Fixpoint for_down {St} (body : nat -> St -> option St) (n : nat) (s : St) : option St :=
  match n with
  | O => Some s
  | S n' => s ← body n s; for_down body n' s
  end.

Fixpoint insert_down (j : nat) (a : Arrays) : option Arrays :=
  match j with
  | O => Some a
  | S j' =>
      x ← number a j'; y ← number a j;
      if y <? x then a ← SwapPairs a j' j; insert_down j' a else Some a
  end.

Definition InsertionSortPairs (a : Arrays) (len : nat) : option Arrays := for_up insert_down 1 (len - 1) a.

Definition parent_of (child_index : nat) : nat := Nat.div2 (child_index + 1) - 1.
Definition child_of (parent_index : nat) : nat := (parent_index + 1) * 2 - 1.

Fixpoint sift_up (fuel child_index : nat) (a : Arrays) : option Arrays :=
  match fuel with
  | O => None
  | S fuel =>
      if (0 <? child_index)%nat then
        let parent_index := parent_of child_index in
        parent_value ← number a parent_index; child_value ← number a child_index;
        if parent_value <? child_value then a ← SwapPairs a parent_index child_index; sift_up fuel parent_index a
        else Some a
      else Some a
  end.

Fixpoint sift_down (fuel i parent_index : nat) (a : Arrays) : option Arrays :=
  match fuel with
  | O => None
  | S fuel =>
      let child_index := child_of parent_index in
      if (i <=? child_index)%nat then Some a
      else
        child1_value ← number a child_index; child2_value ← number a (child_index + 1);
        parent_value ← number a parent_index;
        if (i <=? child_index + 1)%nat || (child2_value <? child1_value) then
          if child1_value <? parent_value then Some a
          else a ← SwapPairs a parent_index child_index; sift_down fuel i child_index a
        else
          if child2_value <? parent_value then Some a
          else a ← SwapPairs a parent_index (child_index + 1); sift_down fuel i (child_index + 1) a
  end.

Definition HeapSortPairs (a : Arrays) (len : nat) : option Arrays :=
  a ← for_up (fun i a => sift_up (S i) i a) 1 (len - 1) a;
  for_down (fun i a => a ← SwapPairs a 0 i; sift_down (S i) i 0 a) (len - 1) a.

(** The least and the greatest number. *)
Definition range_step (a : Arrays) (i : nat) (range : Z * Z) : option (Z * Z) :=
  x ← number a i;
  let '(min_index, max_index) := range in
  Some (if x <? min_index then (x, max_index) else if max_index <? x then (min_index, x) else range).

(** [rounds] is [len - j]. *)
Fixpoint place (min_index : Z) (i rounds : nat) (a : Arrays) : option Arrays :=
  x ← number a i;
  let p := uint 32 (x - min_index) in
  if p =? Z.of_nat i then Some a
  else
    match rounds with
    | O => Some a
    | S rounds => a ← SwapPairs a i (Z.to_nat p); place min_index i rounds a
    end.

Definition SortPairs (a : Arrays) (len : nat) : option Arrays :=
  if (len <=? 10)%nat then InsertionSortPairs a len
  else
    first ← number a 0;
    '(min_index, max_index) ← for_up (range_step a) 1 (len - 1) (first, first);
    if uint 32 (max_index - min_index + 1) =? Z.of_nat len then for_up (fun i a => place min_index i len a) 0 len a
    else HeapSortPairs a len.

(** ** Pairs *)

Definition pairs (a : Arrays) : list (Z * option Element) :=
  match a with
  | Separate content numbers => zip numbers (Some <$> content)
  | Same numbers => (fun x => (x, None)) <$> numbers
  end.

(** The arrays have the same length. *)
Definition wf (a : Arrays) : Prop :=
  match a with Separate content numbers => length content = length numbers | Same _ => True end.

Definition same_shape (a a' : Arrays) : Prop :=
  match a, a' with Separate _ _, Separate _ _ => True | Same _, Same _ => True | _, _ => False end.

Definition num (a : Arrays) (i : nat) : Z := default 0 (number a i).

(** The first [n] pairs are permuted and the others are untouched. *)
Record permuted (n : nat) (a a' : Arrays) : Prop := {
  permuted_wf : wf a';
  permuted_shape : same_shape a a';
  permuted_length : length (numbers a') = length (numbers a);
  permuted_front : take n (pairs a') ≡ₚ take n (pairs a);
  permuted_back : drop n (pairs a') = drop n (pairs a)
}.

Lemma numbers_pairs a : wf a -> numbers a = (pairs a).*1.
Proof.
  destruct a as [c n|n]; cbn; intros H; [by rewrite fst_zip by (rewrite length_fmap; lia)|].
  rewrite <- list_fmap_compose. by rewrite list_fmap_id.
Qed.

Lemma length_pairs a : wf a -> length (pairs a) = length (numbers a).
Proof. intros H. by rewrite (numbers_pairs a), length_fmap by done. Qed.

Lemma permuted_refl n a : wf a -> permuted n a a.
Proof. intros H. split; try done. by destruct a. Qed.

Lemma permuted_trans n a b c : permuted n a b -> permuted n b c -> permuted n a c.
Proof.
  intros [H1 H2 H3 H4 H5] [I1 I2 I3 I4 I5]. split; [done| |lia|by rewrite I4|congruence].
  by destruct a, b, c.
Qed.

Lemma permuted_mono m n a b : (m <= n)%nat -> permuted m a b -> permuted n a b.
Proof.
  intros Hmn [H1 H2 H3 H4 H5]. split; try done.
  - rewrite <- (take_drop m (take n (pairs b))), <- (take_drop m (take n (pairs a))), !take_take, !Nat.min_l by done.
    rewrite H4. replace n with (m + (n - m))%nat by lia. by rewrite <- !firstn_skipn_comm, H5.
  - replace n with (m + (n - m))%nat by lia. by rewrite <- !drop_drop, H5.
Qed.

(** ** A swap *)

Lemma swap_inside {A} (l : list A) i j :
  (i < length l)%nat -> (j < length l)%nat ->
  exists x y, l !! i = Some x /\ l !! j = Some y /\ swap l i j = Some (<[j := x]> (<[i := y]> l)).
Proof.
  intros Hi Hj. destruct (lookup_lt_is_Some_2 l i Hi) as [x Hx], (lookup_lt_is_Some_2 l j Hj) as [y Hy].
  exists x, y. unfold swap. by rewrite Hx, Hy.
Qed.

(** The pairs are swapped. *)
Lemma SwapPairs_pairs a i j :
  wf a -> (i < length (numbers a))%nat -> (j < length (numbers a))%nat ->
  exists a' x y, SwapPairs a i j = Some a' /\ wf a' /\ same_shape a a' /\ pairs a !! i = Some x /\ pairs a !! j = Some y
  /\ pairs a' = <[j := x]> (<[i := y]> (pairs a)).
Proof.
  destruct a as [c n|n]; cbn [numbers wf SwapPairs pairs]; intros Hwf Hi Hj.
  - destruct (swap_inside n i j Hi Hj) as (x & y & Hx & Hy & ->).
    destruct (swap_inside c i j) as (u & v & Hu & Hv & ->); [lia|lia|]. cbn [mbind option_bind].
    exists (Separate (<[j := u]> (<[i := v]> c)) (<[j := x]> (<[i := y]> n))), (x, Some u), (y, Some v).
    split; [done|]. split; [cbn; by rewrite !length_insert|]. split; [done|]. cbn [pairs].
    rewrite !lookup_zip_with, !list_lookup_fmap, Hx, Hy, Hu, Hv. split; [done|]. split; [done|].
    rewrite !list_fmap_insert. by rewrite <- !insert_zip_with.
  - destruct (swap_inside n i j Hi Hj) as (x & y & Hx & Hy & ->). cbn [mbind option_bind].
    exists (Same (<[j := x]> (<[i := y]> n))), (x, None), (y, None). split; [done|]. split; [done|]. split; [done|]. cbn [pairs].
    rewrite !list_lookup_fmap, Hx, Hy. split; [done|]. split; [done|]. by rewrite !list_fmap_insert.
Qed.

Lemma num_pairs a i x : wf a -> pairs a !! i = Some x -> number a i = Some x.1.
Proof. intros Hwf Hx. unfold number. rewrite (numbers_pairs a Hwf), list_lookup_fmap, Hx. done. Qed.

Lemma number_inside a i : (i < length (numbers a))%nat -> number a i = Some (num a i).
Proof. intros Hi. unfold num, number. by destruct (lookup_lt_is_Some_2 (numbers a) i Hi) as [x ->]. Qed.

Lemma SwapPairs_spec n a i j :
  wf a -> (i < n)%nat -> (j < n)%nat -> (n <= length (numbers a))%nat ->
  exists a', SwapPairs a i j = Some a' /\ permuted n a a'
  /\ forall k, num a' k = if decide (k = j) then num a i else if decide (k = i) then num a j else num a k.
Proof.
  intros Hwf Hi Hj Hn. destruct (SwapPairs_pairs a i j Hwf) as (a' & x & y & E1 & Hwf' & Hsh & Hx & Hy & Hp); [lia|lia|].
  pose proof (length_pairs a Hwf). exists a'. split; [done|]. split.
  - split; [done|done| | |].
    + by rewrite <- (length_pairs a' Hwf'), Hp, !length_insert.
    + rewrite Hp, !take_insert_lt by lia. apply Permutation_insert_swap; by rewrite lookup_take_lt.
    + rewrite Hp, !drop_insert_lt by lia. done.
  - intros k. unfold num, number. rewrite (numbers_pairs a' Hwf'), Hp, !list_fmap_insert, <- (numbers_pairs a Hwf).
    pose proof (num_pairs a i x Hwf Hx) as Nx. pose proof (num_pairs a j y Hwf Hy) as Ny. unfold number in *. rewrite Nx, Ny.
    case_decide as Hkj; [subst k; rewrite list_lookup_insert_eq by (rewrite length_insert; lia); done|].
    rewrite list_lookup_insert_ne by done. case_decide as Hki; [subst k; rewrite list_lookup_insert_eq by lia; done|].
    by rewrite list_lookup_insert_ne.
Qed.

(** A number of the front of a permuted array was in the front before. *)
Lemma permuted_num n a a' i :
  permuted n a a' -> wf a -> (i < n)%nat -> (n <= length (numbers a))%nat -> exists k, (k < n)%nat /\ num a' i = num a k.
Proof.
  intros [Hwf' _ Hlen Hp _] Hwf Hi Hn. destruct (lookup_lt_is_Some_2 (pairs a') i) as [x Hx].
  { rewrite length_pairs by done. lia. }
  assert (Hin : x ∈ take n (pairs a)).
  { rewrite <- Hp. apply list_elem_of_lookup. exists i. by rewrite lookup_take_lt. }
  apply list_elem_of_lookup in Hin as [k Hk]. assert (k < n)%nat as Hkn.
  { apply lookup_lt_Some in Hk. rewrite length_take in Hk. lia. }
  rewrite lookup_take_lt in Hk by done. exists k. split; [done|]. unfold num.
  by rewrite (num_pairs a' i x), (num_pairs a k x).
Qed.

Lemma permuted_num_back n a a' i : permuted n a a' -> wf a -> (n <= i)%nat -> num a' i = num a i.
Proof.
  intros [Hwf' _ _ _ Hd] Hwf Hi. unfold num, number. rewrite (numbers_pairs a'), (numbers_pairs a), !list_lookup_fmap by done.
  replace i with (n + (i - n))%nat by lia. by rewrite <- !lookup_drop, Hd.
Qed.

(** ** Insertion sort *)

Lemma permuted_bound n a a' : permuted n a a' -> (n <= length (numbers a))%nat -> (n <= length (numbers a'))%nat.
Proof. intros H ?. by rewrite (permuted_length _ _ _ H). Qed.

Lemma for_up_S {St} (body : nat -> St -> option St) i n s :
  for_up body i (n + 1) s = s' ← for_up body i n s; body (i + n)%nat s'.
Proof.
  revert i s. induction n as [|n IH]; intros i s; cbn [for_up Nat.add].
  - rewrite Nat.add_0_r. cbn [mbind option_bind]. by destruct (body i s).
  - destruct (body i s) as [s'|]; cbn [mbind option_bind]; [|done]. rewrite IH. by replace (i + 1 + n)%nat with (i + S n)%nat by lia.
Qed.

(** The rule of the loop: an invariant of the index. *)
Lemma for_up_rule {St} (I : nat -> St -> Prop) body i n s :
  I i s -> (forall j s, (i <= j < i + n)%nat -> I j s -> exists s', body j s = Some s' /\ I (j + 1)%nat s') ->
  exists s', for_up body i n s = Some s' /\ I (i + n)%nat s'.
Proof.
  intros Hinit Hstep. induction n as [|n IH].
  - exists s. by rewrite Nat.add_0_r.
  - destruct IH as (s1 & E1 & I1). { intros j s1 Hj. apply Hstep. lia. }
    destruct (Hstep (i + n)%nat s1 ltac:(lia) I1) as (s2 & E2 & I2). exists s2. replace (Datatypes.S n) with (n + 1)%nat by lia.
    rewrite for_up_S, E1. cbn [mbind option_bind]. split; [done|]. by replace (i + (n + 1))%nat with (i + n + 1)%nat by lia.
Qed.

(** The numbers below [n] ascend. *)
Definition ascends (n : nat) (a : Arrays) : Prop := forall x y, (x < y < n)%nat -> num a x <= num a y.

Ltac num_cases Hnum := rewrite ?Hnum; repeat case_decide; subst; try lia.

Lemma insert_down_spec n i j a :
  wf a -> (j <= i < n)%nat -> (n <= length (numbers a))%nat ->
  (forall x y, (x < y <= i)%nat -> y <> j -> num a x <= num a y) ->
  exists a', insert_down j a = Some a' /\ permuted n a a' /\ ascends (i + 1) a'.
Proof.
  intros Hwf Hji Hn Hasc. revert a Hwf Hn Hji Hasc. induction j as [|j IH]; intros a Hwf Hn Hji Hasc; cbn [insert_down].
  { exists a. split; [done|]. split; [by apply permuted_refl|]. intros x y Hxy. apply Hasc; lia. }
  rewrite !number_inside by lia. cbn [mbind option_bind]. destruct (Z.ltb_spec (num a (S j)) (num a j)) as [Hlt|Hge].
  - destruct (SwapPairs_spec n a j (S j) Hwf) as (a1 & E & Hp & Hnum); [lia|lia|lia|]. rewrite E. cbn [mbind option_bind].
    destruct (IH a1) as (a' & E' & Hp' & Hasc'); [by apply Hp|by apply (permuted_bound n a)|lia| |].
    + intros x y Hxy Hy. pose proof (Hasc x y). pose proof (Hasc x j).
      pose proof (Hasc j y). pose proof (Hasc (S j) y). num_cases Hnum.
    + exists a'. split; [done|]. split; [by eapply permuted_trans|done].
  - exists a. split; [done|]. split; [by apply permuted_refl|]. intros x y Hxy.
    destruct (decide (y = S j)) as [->|Hne]; [|apply Hasc; lia].
    destruct (decide (x = j)) as [->|]; [done|]. pose proof (Hasc x j ltac:(lia) ltac:(lia)). lia.
Qed.

Lemma InsertionSortPairs_spec a len :
  wf a -> (len <= length (numbers a))%nat ->
  exists a', InsertionSortPairs a len = Some a' /\ permuted len a a' /\ ascends len a'.
Proof.
  intros Hwf Hlen. unfold InsertionSortPairs.
  destruct (for_up_rule (fun i a' => permuted len a a' /\ ascends i a') insert_down 1 (len - 1) a) as (a' & E & Hp & Hasc).
  - split; [by apply permuted_refl|]. intros x y Hxy. lia.
  - intros j a1 Hj [Hp Hasc]. destruct (insert_down_spec len j j a1) as (a2 & E2 & Hp2 & Hasc2);
      [by apply Hp|lia|by apply (permuted_bound len a)|intros; apply Hasc; lia|].
    exists a2. split; [done|]. split; [by eapply permuted_trans|done].
  - exists a'. split; [done|]. split; [done|]. intros x y Hxy. apply Hasc. lia.
Qed.

(** ** Heap sort *)

Lemma parent_of_spec c : (0 < c)%nat -> (c = 2 * parent_of c + 1 \/ c = 2 * parent_of c + 2)%nat.
Proof.
  intros Hc. unfold parent_of. rewrite Nat.div2_div. pose proof (Nat.div_mod_eq (c + 1) 2). pose proof (Nat.mod_upper_bound (c + 1) 2 ltac:(lia)). lia.
Qed.

Lemma child_of_spec p : child_of p = (2 * p + 1)%nat.
Proof. unfold child_of. lia. Qed.

(** No number below [n] is greater than that of its parent. *)
Definition heap (n : nat) (a : Arrays) : Prop := forall c, (0 < c < n)%nat -> num a c <= num a (parent_of c).

(** But for the element at [h], whose children are below its parent. *)
Definition heap_but (h n : nat) (a : Arrays) : Prop :=
  (forall c, (0 < c < n)%nat -> c <> h -> parent_of c <> h -> num a c <= num a (parent_of c))
  /\ (forall c, (0 < c < n)%nat -> (0 < h)%nat -> parent_of c = h -> num a c <= num a (parent_of h)).

Lemma heap_root n a k : heap n a -> (k < n)%nat -> num a k <= num a 0.
Proof.
  intros Hheap. induction k as [k IH] using lt_wf_ind. intros Hk. destruct (decide (k = 0%nat)) as [->|]; [done|].
  pose proof (parent_of_spec k ltac:(lia)). specialize (Hheap k ltac:(lia)). specialize (IH (parent_of k) ltac:(lia) ltac:(lia)). lia.
Qed.

(** The element at [c] may be greater than its parent; it is not less than its children. *)
Lemma sift_up_spec n i fuel c a :
  wf a -> (c <= i < n)%nat -> (n <= length (numbers a))%nat -> (c < fuel)%nat -> heap_but c (i + 1) a ->
  (forall k, (0 < k <= i)%nat -> parent_of k = c -> num a k <= num a c) ->
  exists a', sift_up fuel c a = Some a' /\ permuted n a a' /\ heap (i + 1) a'.
Proof.
  revert c a. induction fuel as [|fuel IH]; intros c a Hwf Hc Hn Hfuel [Hheap Hgrand] Hchild; [lia|]. cbn [sift_up].
  destruct (Nat.ltb_spec 0 c) as [Hpos|Hzero].
  2: { exists a. split; [done|]. split; [by apply permuted_refl|]. intros k Hk. destruct (decide (parent_of k = c)) as [E|]; [|apply Hheap; lia].
       rewrite E. apply Hchild; lia. }
  pose proof (parent_of_spec c Hpos) as Hpc. remember (parent_of c) as p eqn:Ep. rewrite !number_inside by lia. cbn [mbind option_bind].
  destruct (Z.ltb_spec (num a p) (num a c)) as [Hlt|Hge].
  - destruct (SwapPairs_spec n a p c Hwf) as (a1 & E & Hp & Hnum); [lia|lia|lia|]. rewrite E. cbn [mbind option_bind].
    destruct (IH p a1) as (a' & E' & Hp' & Hheap'); [by apply Hp|lia|by apply (permuted_bound n a)|lia|split| |].
    + intros k Hk Hkp Hpk. pose proof (parent_of_spec k ltac:(lia)).
      specialize (Hheap k ltac:(lia)). specialize (Hgrand k ltac:(lia) ltac:(lia)). num_cases Hnum. 
    + intros k Hk Hp0 Hpk. pose proof (parent_of_spec k ltac:(lia)). pose proof (parent_of_spec p ltac:(lia)).
      pose proof (Hheap k ltac:(lia)). pose proof (Hheap p ltac:(lia)). rewrite Hpk in *. num_cases Hnum.
    + intros k Hk Hpk. pose proof (parent_of_spec k ltac:(lia)). pose proof (Hheap k ltac:(lia)). rewrite Hpk in *. num_cases Hnum.
    + exists a'. split; [done|]. split; [by eapply permuted_trans|done].
  - exists a. split; [done|]. split; [by apply permuted_refl|]. intros k Hk. destruct (decide (k = c)) as [->|]; [by rewrite <- Ep|].
    destruct (decide (parent_of k = c)) as [E|]; [rewrite E; apply Hchild; lia|apply Hheap; lia].
Qed.

Lemma heap_build a len :
  wf a -> (len <= length (numbers a))%nat ->
  exists a', for_up (fun i a => sift_up (S i) i a) 1 (len - 1) a = Some a' /\ permuted len a a' /\ heap len a'.
Proof.
  intros Hwf Hlen.
  destruct (for_up_rule (fun i a' => permuted len a a' /\ heap i a') (fun i a => sift_up (S i) i a) 1 (len - 1) a) as (a' & E & Hp & Hheap).
  - split; [by apply permuted_refl|]. intros c Hc. lia.
  - intros j a1 Hj [Hp Hheap]. destruct (sift_up_spec len j (S j) j a1) as (a2 & E2 & Hp2 & Hheap2);
      [by apply Hp|lia|by apply (permuted_bound len a)|lia| | |].
    + split; [intros c Hc Hne _; apply Hheap; lia|]. intros c Hc _ Hpc. pose proof (parent_of_spec c ltac:(lia)). lia.
    + intros k Hk Hpk. pose proof (parent_of_spec k ltac:(lia)). lia.
    + exists a2. split; [done|]. split; [by eapply permuted_trans|done].
  - exists a'. split; [done|]. split; [done|]. intros c Hc. apply Hheap. lia.
Qed.

(** The element at [h] may be less than its children. *)
Lemma sift_down_spec n fuel h a :
  wf a -> (h < n)%nat -> (n < length (numbers a))%nat -> (n <= fuel + h)%nat -> heap_but h n a ->
  (forall k, (0 < k < n)%nat -> k = h -> num a k <= num a (parent_of k)) ->
  exists a', sift_down fuel n h a = Some a' /\ permuted n a a' /\ heap n a'.
Proof.
  revert h a. induction fuel as [|fuel IH]; intros h a Hwf Hh Hn Hfuel [Hheap Hgrand] Hroot; [lia|]. cbn [sift_down].
  rewrite !child_of_spec. destruct (Nat.leb_spec n (2 * h + 1)) as [Hleaf|Hchild].
  { exists a. split; [done|]. split; [by apply permuted_refl|]. intros k Hk. pose proof (parent_of_spec k ltac:(lia)).
    destruct (decide (k = h)) as [E|]; [by apply Hroot|]. apply Hheap; lia. }
  rewrite !number_inside by lia. cbn [mbind option_bind].
  (* the child that is compared *)
  assert (Hgo : forall c, (c < n)%nat -> (0 < c)%nat -> parent_of c = h -> 
    (forall k, (0 < k < n)%nat -> parent_of k = h -> num a k <= num a c) ->
    exists a', (if num a c <? num a h then Some a else a ← SwapPairs a h c; sift_down fuel n c a) = Some a'
      /\ permuted n a a' /\ heap n a').
  { intros c Hc Hc0 Hpc Hmax. pose proof (parent_of_spec c Hc0) as Hch. rewrite Hpc in Hch. destruct (Z.ltb_spec (num a c) (num a h)) as [Hlt|Hge].
    - exists a. split; [done|]. split; [by apply permuted_refl|]. intros k Hk.
      destruct (decide (k = h)) as [E|]; [by apply Hroot|]. destruct (decide (parent_of k = h)) as [E|]; [|by apply Hheap].
      rewrite E. specialize (Hmax k Hk E). lia.
    - destruct (SwapPairs_spec n a h c Hwf) as (a1 & E & Hp & Hnum); [lia|lia|lia|]. rewrite E. cbn [mbind option_bind].
      destruct (IH c a1) as (a' & E' & Hp' & Hheap'); [by apply Hp|lia| |lia|split| |].
      + rewrite (permuted_length _ _ _ Hp). lia.
      + intros k Hk Hkc Hpk. pose proof (parent_of_spec k ltac:(lia)). pose proof (Hheap k ltac:(lia)). pose proof (Hmax k ltac:(lia)).
        pose proof (Hroot k ltac:(lia)). pose proof (Hgrand c ltac:(lia)).
        destruct (decide (parent_of k = h)) as [Ek|]; [rewrite Ek in *|]; destruct (decide (k = h)) as [Eh|]; [subst k| |subst k|]; num_cases Hnum.
      + intros k Hk _ Hpk. pose proof (parent_of_spec k ltac:(lia)). pose proof (Hheap k ltac:(lia)). rewrite Hpk, Hpc in *. num_cases Hnum.
      + intros k Hk ->. rewrite Hpc. num_cases Hnum.
      + exists a'. split; [done|]. split; [by eapply permuted_trans|done]. }
  assert (H1 : parent_of (2 * h + 1) = h) by (pose proof (parent_of_spec (2 * h + 1) ltac:(lia)); lia).
  assert (H2 : parent_of (2 * h + 1 + 1) = h) by (pose proof (parent_of_spec (2 * h + 1 + 1) ltac:(lia)); lia).
  assert (Hk : forall k, (0 < k < n)%nat -> parent_of k = h -> k = (2 * h + 1)%nat \/ k = (2 * h + 1 + 1)%nat).
  { intros k Hk Hpk. pose proof (parent_of_spec k ltac:(lia)). lia. }
  destruct (Nat.leb_spec n (2 * h + 1 + 1)); cbn [orb].
  - apply Hgo; [lia|lia|done|]. intros k Hkn Hpk. destruct (Hk k Hkn Hpk) as [->| ->]; lia.
  - destruct (Z.ltb_spec (num a (2 * h + 1 + 1)) (num a (2 * h + 1))); apply Hgo; try done; try lia;
      intros k Hkn Hpk; destruct (Hk k Hkn Hpk) as [->| ->]; lia.
Qed.

(** What is known when the elements up to [i] are left in the heap. *)
Record extracting (len i : nat) (a : Arrays) : Prop := {
  extracting_heap : heap (i + 1) a;
  extracting_split : forall x y, (x <= i < y)%nat -> (y < len)%nat -> num a x <= num a y;
  extracting_back : forall x y, (i < x < y)%nat -> (y < len)%nat -> num a x <= num a y
}.

Lemma extract_step len i a :
  wf a -> (0 < i < len)%nat -> (len <= length (numbers a))%nat -> extracting len i a ->
  exists a', (a ← SwapPairs a 0 i; sift_down (S i) i 0 a) = Some a' /\ permuted len a a' /\ extracting len (i - 1) a'.
Proof.
  intros Hwf Hi Hlen [Hheap Hsplit Hback].
  destruct (SwapPairs_spec len a 0 i Hwf) as (a1 & E & Hp & Hnum); [lia|lia|lia|]. rewrite E. cbn [mbind option_bind].
  assert (Hlen1 : (i < length (numbers a1))%nat) by (rewrite (permuted_length _ _ _ Hp); lia).
  destruct (sift_down_spec i (S i) 0 a1) as (a' & E' & Hp' & Hheap'); [by apply Hp|lia|lia|lia| | |].
  - split; [|intros; lia]. intros c Hc Hc0 Hpc. pose proof (parent_of_spec c ltac:(lia)). specialize (Hheap c ltac:(lia)). rewrite !Hnum.
    repeat case_decide; try lia. 
  - intros k Hk ->. lia.
  - exists a'. split; [done|]. split; [eapply permuted_trans; [done|apply (permuted_mono i); [lia|done]]|].
    assert (Hwf1 : wf a1) by apply Hp.
    assert (Hbk : forall y, (i <= y)%nat -> num a' y = num a1 y) by (intros y Hy; by apply (permuted_num_back i)).
    assert (Hfront : forall x, (x < i)%nat -> exists k, (k < i)%nat /\ num a' x = num a1 k).
    { intros x Hx. apply (permuted_num i a1); done || lia. }
    assert (Hroot : forall k, (k <= i)%nat -> num a k <= num a 0) by (intros k Hk; apply (heap_root (i + 1)); [done|lia]).
    split; replace (i - 1 + 1)%nat with i by lia; [done| |].
    + intros x y Hx Hy. destruct (Hfront x ltac:(lia)) as (k & Hk & ->). rewrite Hbk, !Hnum by lia.
      pose proof (Hroot k). pose proof (Hroot i). pose proof (Hsplit k y). pose proof (Hsplit i y). repeat case_decide; lia.
    + intros x y Hx Hy. rewrite !Hbk, !Hnum by lia. pose proof (Hsplit 0%nat y). pose proof (Hback x y). repeat case_decide; try lia; subst; lia.
Qed.

Lemma extract_spec len i a :
  wf a -> (i < len)%nat -> (len <= length (numbers a))%nat -> extracting len i a ->
  exists a', for_down (fun i a => a ← SwapPairs a 0 i; sift_down (S i) i 0 a) i a = Some a' /\ permuted len a a' /\ ascends len a'.
Proof.
  revert a. induction i as [|i IH]; intros a Hwf Hi Hlen He; cbn [for_down].
  { exists a. split; [done|]. split; [by apply permuted_refl|]. destruct He as [_ H1 H2]. intros x y Hxy.
    destruct (decide (x = 0%nat)) as [->|]; [apply H1; lia|apply H2; lia]. }
  destruct (extract_step len (S i) a Hwf) as (a1 & E & Hp & He1); [lia|done|done|]. rewrite E. cbn [mbind option_bind].
  replace (S i - 1)%nat with i in He1 by lia.
  destruct (IH a1) as (a' & E' & Hp' & Hasc); [by apply Hp|lia|by apply (permuted_bound len a)|done|].
  exists a'. split; [done|]. split; [by eapply permuted_trans|done].
Qed.

Lemma HeapSortPairs_spec a len :
  wf a -> (0 < len <= length (numbers a))%nat ->
  exists a', HeapSortPairs a len = Some a' /\ permuted len a a' /\ ascends len a'.
Proof.
  intros Hwf Hlen. unfold HeapSortPairs. destruct (heap_build a len Hwf ltac:(lia)) as (a1 & E & Hp & Hheap). rewrite E. cbn [mbind option_bind].
  destruct (extract_spec len (len - 1) a1) as (a' & E' & Hp' & Hasc); [by apply Hp|lia|apply (permuted_bound len a); [done|lia]| |].
  - split; [by replace (len - 1 + 1)%nat with len by lia|lia|lia].
  - exists a'. split; [done|]. split; [by eapply permuted_trans|done].
Qed.

(** ** Placement *)

Lemma permuted_numbers n a a' : permuted n a a' -> wf a -> take n (numbers a') ≡ₚ take n (numbers a).
Proof.
  intros Hp Hwf. rewrite (numbers_pairs a'), (numbers_pairs a) by (done || apply Hp).
  rewrite <- !fmap_take. by rewrite (permuted_front _ _ _ Hp).
Qed.

(** The number of elements at their positions. *)
Definition placed (min_index : Z) (a : Arrays) (i : nat) : bool := num a i =? min_index + Z.of_nat i.
Definition placed_count (min_index : Z) (len : nat) (a : Arrays) : nat := length (List.filter (placed min_index a) (seq 0 len)).

Lemma filter_more {A} (P Q : A -> bool) l x :
  (forall y, P y = true -> Q y = true) -> In x l -> P x = false -> Q x = true ->
  (length (List.filter P l) < length (List.filter Q l))%nat.
Proof.
  intros Hsub. induction l as [|y l IH]; intros Hin HP HQ; [done|].
  assert (Hle : (length (List.filter P l) <= length (List.filter Q l))%nat).
  { clear -Hsub. induction l as [|y l IH]; [done|]. cbn [List.filter]. specialize (Hsub y).
    destruct (P y), (Q y); cbn [length]; lia. }
  cbn [List.filter]. destruct Hin as [->|Hin].
  - rewrite HP, HQ. cbn [length]. lia.
  - specialize (IH Hin HP HQ). specialize (Hsub y). destruct (P y), (Q y); cbn [length]; lia.
Qed.

(** The numbers of the front are in the range of [len] numbers from [min_index] on. *)
Definition in_range (min_index : Z) (len : nat) (a : Arrays) : Prop :=
  forall k, (k < len)%nat -> min_index <= num a k < min_index + Z.of_nat len.

Definition distinct (len : nat) (a : Arrays) : Prop :=
  forall x y, (x < len)%nat -> (y < len)%nat -> num a x = num a y -> x = y.

Lemma in_range_permuted m n a a' :
  permuted n a a' -> wf a -> (n <= length (numbers a))%nat -> in_range m n a -> in_range m n a'.
Proof. intros Hp Hwf Hn Hr k Hk. destruct (permuted_num n a a' k Hp Hwf Hk Hn) as (j & Hj & ->). by apply Hr. Qed.

Lemma distinct_NoDup len a : (len <= length (numbers a))%nat -> NoDup (take len (numbers a)) -> distinct len a.
Proof.
  intros Hlen Hnd x y Hx Hy E. rewrite NoDup_alt in Hnd. apply (Hnd x y (num a x)); rewrite lookup_take_lt by done.
  - by apply number_inside; lia.
  - rewrite E. apply number_inside. lia.
Qed.

Lemma placed_all m len a k : (len <= placed_count m len a)%nat -> (k < len)%nat -> placed m a k = true.
Proof.
  intros Hc Hk. destruct (placed m a k) eqn:E; [done|].
  pose proof (filter_more (placed m a) (fun _ => true) (seq 0 len) k ltac:(done) ltac:(by apply in_seq; lia) E eq_refl) as Hmore.
  assert (Hall : forall l : list nat, List.filter (fun _ => true) l = l) by (induction l as [|x l IH]; [done|]; cbn [List.filter]; by rewrite IH).
  rewrite Hall, length_seq in Hmore. unfold placed_count in Hc. lia.
Qed.

Lemma place_spec m len i rounds a :
  wf a -> (i < len)%nat -> (len <= length (numbers a))%nat -> 0 <= m -> m + Z.of_nat len <= 2 ^ 32 -> in_range m len a ->
  exists a', place m i rounds a = Some a' /\ permuted len a a'
  /\ (NoDup (take len (numbers a)) -> (len <= placed_count m len a + rounds)%nat ->
      (forall k, (k < i)%nat -> placed m a k = true) -> forall k, (k <= i)%nat -> placed m a' k = true).
Proof.
  intros Hwf Hi Hlen Hm Hmax Hr. revert a Hwf Hlen Hr. induction rounds as [|rounds IH]; intros a Hwf Hlen Hr; cbn [place];
    rewrite number_inside by lia; cbn [mbind option_bind]; pose proof (Hr i Hi) as Hri; unfold uint;
    rewrite Z.mod_small by lia; destruct (Z.eqb_spec (num a i - m) (Z.of_nat i)) as [E|Hne].
  - exists a. split; [done|]. split; [by apply permuted_refl|]. intros _ _ Hbelow k Hk. destruct (decide (k = i)) as [->|]; [|apply Hbelow; lia].
    apply Z.eqb_eq. lia.
  - exists a. split; [done|]. split; [by apply permuted_refl|]. intros _ Hc. pose proof (placed_all m len a i ltac:(lia) Hi) as Hp.
    apply Z.eqb_eq in Hp. lia.
  - exists a. split; [done|]. split; [by apply permuted_refl|]. intros _ _ Hbelow k Hk. destruct (decide (k = i)) as [->|]; [|apply Hbelow; lia].
    apply Z.eqb_eq. lia.
  - set (p := Z.to_nat (num a i - m)). assert (Hp : (p < len)%nat) by lia. assert (Hpi : p <> i) by lia.
    destruct (SwapPairs_spec len a i p Hwf Hi Hp Hlen) as (a1 & E & Hperm & Hnum). rewrite E. cbn [mbind option_bind].
    destruct (IH a1) as (a' & E' & Hperm' & Hplaced); [by apply Hperm|by apply (permuted_bound len a)|by apply (in_range_permuted m len a)|].
    exists a'. split; [done|]. split; [by eapply permuted_trans|]. intros Hnd Hc Hbelow.
    pose proof (distinct_NoDup len a Hlen Hnd) as Hdist.
    assert (Hkeep : forall y, (y < len)%nat -> placed m a y = true -> placed m a1 y = true).
    { unfold placed. intros y Hy. rewrite !Z.eqb_eq, Hnum. intros Hy'. repeat case_decide; subst; try lia. }
    assert (Hp1 : placed m a1 p = true). { unfold placed. rewrite Z.eqb_eq, Hnum, decide_True by done. lia. }
    assert (Hp0 : placed m a p = false). { unfold placed. apply Z.eqb_neq. intros Ep. apply Hpi, (Hdist p i Hp Hi). lia. }
    apply Hplaced; [by rewrite (permuted_numbers _ _ _ Hperm Hwf)| |intros k Hk; apply Hkeep; [lia|by apply Hbelow]].
    assert (Hmore : (placed_count m len a < placed_count m len a1)%nat); [|lia]. unfold placed_count.
    rewrite (List.filter_ext_in (placed m a1) (fun y => placed m a1 y || placed m a y)).
    + apply (filter_more _ _ _ p); [intros y ->; apply orb_true_r|apply in_seq; lia|done|by rewrite Hp1].
    + intros y Hy%in_seq. specialize (Hkeep y ltac:(lia)). destruct (placed m a y), (placed m a1 y); try done. by specialize (Hkeep eq_refl).
Qed.

Lemma place_all_spec m len a :
  wf a -> (len <= length (numbers a))%nat -> 0 <= m -> m + Z.of_nat len <= 2 ^ 32 -> in_range m len a ->
  exists a', for_up (fun i a => place m i len a) 0 len a = Some a' /\ permuted len a a'
  /\ (NoDup (take len (numbers a)) -> ascends len a').
Proof.
  intros Hwf Hlen Hm Hmax Hr.
  destruct (for_up_rule (fun i a' => permuted len a a' /\ (NoDup (take len (numbers a)) -> forall k, (k < i)%nat -> placed m a' k = true))
    (fun i a => place m i len a) 0 len a) as (a' & E & Hp & Hplaced).
  - split; [by apply permuted_refl|]. intros _ k Hk. lia.
  - intros i a1 Hi [Hp1 Hbelow]. destruct (place_spec m len i len a1) as (a2 & E2 & Hp2 & H2); try done; try lia;
      [by apply Hp1|by apply (permuted_bound len a)|by apply (in_range_permuted m len a)|].
    exists a2. split; [done|]. split; [by eapply permuted_trans|]. intros Hnd k Hk. apply H2; [|lia|by apply Hbelow|lia].
    by rewrite (permuted_numbers _ _ _ Hp1 Hwf).
  - exists a'. split; [done|]. split; [done|]. intros Hnd x y Hxy.
    pose proof (Hplaced Hnd x ltac:(lia)) as Hx. pose proof (Hplaced Hnd y ltac:(lia)) as Hy. unfold placed in *. rewrite Z.eqb_eq in *. lia.
Qed.

(** The least and the greatest number. *)
Lemma range_spec a len :
  (0 < len <= length (numbers a))%nat ->
  exists lo hi, for_up (range_step a) 1 (len - 1) (num a 0, num a 0) = Some (lo, hi)
  /\ (forall k, (k < len)%nat -> lo <= num a k <= hi) /\ (exists k, (k < len)%nat /\ num a k = lo) /\ (exists k, (k < len)%nat /\ num a k = hi).
Proof.
  intros Hlen.
  destruct (for_up_rule (fun i '(lo, hi) => (forall k, (k < i)%nat -> lo <= num a k <= hi) /\ (exists k, (k < len)%nat /\ num a k = lo)
    /\ (exists k, (k < len)%nat /\ num a k = hi)) (range_step a) 1 (len - 1) (num a 0, num a 0)) as ([lo hi] & E & H1 & H2 & H3).
  - split; [intros k Hk; replace k with 0%nat by lia; lia|]. split; exists 0%nat; (split; [lia|done]).
  - intros j [lo hi] Hj (H1 & H2 & H3). unfold range_step. rewrite number_inside by lia. cbn [mbind option_bind].
    assert (Hk : forall k, (k < j + 1)%nat -> (k < j)%nat \/ k = j) by lia.
    destruct (Z.ltb_spec (num a j) lo); [|destruct (Z.ltb_spec hi (num a j))]; eexists; (split; [done|]); cbn beta iota.
    + split; [|split; [exists j; split; [lia|done]|done]]. intros k [Hkj| ->]%Hk; [specialize (H1 k Hkj); lia|].
      destruct H3 as (k3 & _ & E3). destruct H2 as (k2 & _ & E2). specialize (H1 0%nat ltac:(lia)). lia.
    + split; [|split; [done|exists j; split; [lia|done]]]. intros k [Hkj| ->]%Hk; [specialize (H1 k Hkj); lia|].
      specialize (H1 0%nat ltac:(lia)). lia.
    + split; [|done]. intros k [Hkj| ->]%Hk; [by apply H1|lia].
  - exists lo, hi. split; [done|]. split; [|done]. intros k Hk. apply H1. lia.
Qed.

(** The numbers are numbers of 32 bits. *)
Definition is_uint32 (x : Z) : Prop := 0 <= x < 2 ^ 32.

Lemma SortPairs_spec a len :
  wf a -> (len <= length (numbers a))%nat -> Forall is_uint32 (numbers a) ->
  exists a', SortPairs a len = Some a' /\ permuted len a a' /\ (NoDup (take len (numbers a)) -> ascends len a').
Proof.
  intros Hwf Hlen Hu. unfold SortPairs. destruct (Nat.leb_spec len 10) as [Hsmall|Hlarge].
  { destruct (InsertionSortPairs_spec a len Hwf Hlen) as (a' & E & Hp & Hasc). by exists a'. }
  rewrite number_inside by lia. cbn [mbind option_bind].
  destruct (range_spec a len ltac:(lia)) as (lo & hi & -> & Hall & (k1 & Hk1 & E1) & (k2 & Hk2 & E2)). cbn [mbind option_bind].
  assert (Hnum : forall k, (k < len)%nat -> is_uint32 (num a k)).
  { intros k Hk. rewrite Forall_lookup in Hu. apply (Hu k). apply number_inside. lia. }
  pose proof (Hnum k1 Hk1) as Hlo. pose proof (Hnum k2 Hk2) as Hhi. unfold is_uint32 in Hlo, Hhi. rewrite E1 in Hlo. rewrite E2 in Hhi.
  pose proof (Hall k1 Hk1) as Hrange. unfold uint.
  destruct (Z.eqb_spec ((hi - lo + 1) mod 2 ^ 32) (Z.of_nat len)) as [E|_].
  - destruct (decide (hi - lo + 1 = 2 ^ 32)) as [Eq|]; [rewrite Eq, Z_mod_same_full in E; lia|]. rewrite Z.mod_small in E by lia.
    destruct (place_all_spec lo len a) as (a' & E' & Hp & Hasc); try done; try lia.
    + intros k Hk. specialize (Hall k Hk). lia.
    + by exists a'.
  - destruct (HeapSortPairs_spec a len) as (a' & E' & Hp & Hasc); [done|lia|]. by exists a'.
Qed.

Lemma ascends_distinct len a a' x y :
  permuted len a a' -> wf a -> (len <= length (numbers a))%nat -> NoDup (take len (numbers a)) -> ascends len a' ->
  (x < y < len)%nat -> num a' x < num a' y.
Proof.
  intros Hp Hwf Hlen Hnd Hasc Hxy. pose proof (Hasc x y Hxy). destruct (Z.eq_dec (num a' x) (num a' y)) as [E|]; [|lia].
  rewrite <- (permuted_numbers _ _ _ Hp Hwf) in Hnd. pose proof (permuted_bound _ _ _ Hp Hlen) as Hlen'.
  pose proof (distinct_NoDup len a' Hlen' Hnd x y ltac:(lia) ltac:(lia) E). lia.
Qed.

(** C31: Sorting terminates inside of the arrays: the first [len] pairs are permuted, whatever the numbers, and the others
    stay.  When the numbers are distinct they ascend afterwards, by each of the three algorithms, for an array with separate
    numbers and for an array of numbers. *)
Theorem SortPairs_correct a len :
  wf a -> (len <= length (numbers a))%nat -> Forall is_uint32 (numbers a) ->
  exists a', SortPairs a len = Some a' /\ wf a' /\ same_shape a a'
  /\ take len (pairs a') ≡ₚ take len (pairs a) /\ drop len (pairs a') = drop len (pairs a)
  /\ (NoDup (take len (numbers a)) -> forall x y, (x < y < len)%nat -> num a' x < num a' y).
Proof.
  intros Hwf Hlen Hu. destruct (SortPairs_spec a len Hwf Hlen Hu) as (a' & E & Hp & Hasc). exists a'. split; [done|].
  destruct Hp as [H1 H2 H3 H4 H5] eqn:EH. do 4 (split; [done|]). intros Hnd x y. apply (ascends_distinct len a); auto.
Qed.
End sort.

Lemma SortPairs_correct_witness :
  let a := Separate [0; 1; 2; 3; 4; 5; 6; 7; 8; 9; 10; 11]%nat [30; 7; 19; 4; 25; 100; 1; 2; 90; 55; 41; 0] in
  exists a', SortPairs a 11 = Some a' /\ take 11 (pairs a') ≡ₚ take 11 (pairs a) /\ num a' 3 < num a' 4.
Proof.
  intros a. destruct (SortPairs_correct a 11) as (a' & E & _ & _ & Hp & _ & Hasc).
  - done.
  - cbn. lia.
  - repeat constructor; vm_compute; done.
  - exists a'. split; [exact E|]. split; [exact Hp|]. apply Hasc; [|lia].
    apply (bool_decide_eq_true_1 _). vm_compute. reflexivity.
Defined.

(** Fewer than eleven numbers are sorted by insertion, a range of numbers by placement. *)
Example SortPairs_small : SortPairs (Separate [3; 1; 2]%nat [3; 1; 2]) 3 = Some (Separate [1; 2; 3]%nat [1; 2; 3]).
Proof. vm_compute. reflexivity. Qed.

Example SortPairs_range :
  SortPairs (Element := nat) (Same [11; 1; 10; 2; 9; 3; 8; 4; 7; 5; 6]) 11 = Some (Same [1; 2; 3; 4; 5; 6; 7; 8; 9; 10; 11]).
Proof. vm_compute. reflexivity. Qed.

(** With duplicates in a range of [len] numbers the result need not be sorted. *)
Example SortPairs_duplicates :
  SortPairs (Element := nat) (Same [11; 1; 10; 10; 9; 3; 8; 4; 7; 5; 6]) 11 = Some (Same [1; 10; 3; 4; 5; 6; 7; 8; 9; 10; 11]).
Proof. vm_compute. reflexivity. Qed.
