(* ===== verification/HashTable.v ===== *)
(** * HashTable: the hash tables of the heap

    Models [HashTable<Shape, Key>] of src/objects.h, objects-inl.h and objects.cc.  A table is a fixed array: three
    numbers, a prefix and the entries, each a key slot with its payload.  A slot is undefined (empty), null
    (deleted) or a key.  The class [Shape] has the methods of the C++ class of the same
    name; [ShapeOk] says that keys and objects stand for identities, by which they match and are hashed.
    The allocation of an array can fail; no operation of this file changes the table before it fails.  Probing that would
    not end is [None]. *)

From stdpp Require Import gmap.
From S2P Require Import Prelude.
Local Open Scope Z_scope.

(** An object or a failure. *)
Inductive MaybeObject (A : Type) := Success (a : A) | RetryAfterGC | OutOfMemoryException.
Arguments Success {A} a.
Arguments RetryAfterGC {A}.
Arguments OutOfMemoryException {A}.

Inductive Element (Obj : Type) := undefined | null | object (o : Obj).
Arguments undefined {Obj}.
Arguments null {Obj}.
Arguments object {Obj} o.

Class Shape (Key Obj : Type) := {
  IsMatch : Key -> Obj -> bool;
  Hash : Key -> Z;
  HashForObject : Key -> Obj -> Z;
  AsObject : Key -> option Obj;
  kPrefixSize : Z;
  kEntrySize : Z
}.

(** ** Capacities *)

(** Numbers of 32 bits. *)
Definition smear (s x : Z) : Z := Z.lor x (Z.shiftr x s).

Definition RoundUpToPowerOf2 (x : Z) : Z :=
  let x := uint 32 (x - 1) in
  uint 32 (smear 16 (smear 8 (smear 4 (smear 2 (smear 1 x)))) + 1).

Definition ComputeCapacity (at_least_space_for : Z) : Z :=
  let kMinCapacity := 32 in
  let capacity := sint 32 (RoundUpToPowerOf2 (uint 32 (at_least_space_for * 2))) in
  if capacity <? kMinCapacity then kMinCapacity else capacity.

Definition kNotFound : Z := -1.

(** ** Probes *)

Definition FirstProbe (hash size : Z) : Z := Z.land hash (size - 1).
Definition NextProbe (last number size : Z) : Z := Z.land (uint 32 (last + number)) (size - 1).

Definition GetProbeOffset (n : Z) : Z := Z.shiftr (uint 32 (n + n * n)) 1.
Definition GetProbe (hash number size : Z) : Z := Z.land (uint 32 (hash + GetProbeOffset number)) (size - 1).

(** ** Tables *)

Section HashTable.
Context {Key Obj P X : Type} `{Shape Key Obj}.
(** An empty prefix and the payload of a fresh entry. *)
Context (x0 : X) (p0 : P).
(** Whether an array for a number of entries can be allocated now. *)
Context (kPointerSize : Z) (allocates : Z -> bool).

(** [FixedArray::kMaxLength] and the header of a fixed array. *)
Definition FixedArray_kHeaderSize : Z := 2 * kPointerSize.
Definition FixedArray_kMaxLength : Z := (512 * 2 ^ 20 - FixedArray_kHeaderSize) / kPointerSize.

Definition kElementsStartIndex : Z := 3 + kPrefixSize.
Definition kElementsStartOffset : Z := FixedArray_kHeaderSize + kElementsStartIndex * kPointerSize.
Definition kMaxCapacity : Z := (FixedArray_kMaxLength - kElementsStartOffset) / kEntrySize.

Record HashTable := MkHashTable {
  NumberOfElements : Z;
  NumberOfDeletedElements : Z;
  Capacity : Z;
  prefix : X;
  entries : list (Element Obj * P)
}.

Definition SetNumberOfElements (nof : Z) (t : HashTable) : HashTable :=
  MkHashTable nof (NumberOfDeletedElements t) (Capacity t) (prefix t) (entries t).
Definition SetNumberOfDeletedElements (nod : Z) (t : HashTable) : HashTable :=
  MkHashTable (NumberOfElements t) nod (Capacity t) (prefix t) (entries t).
Definition set_prefix (x : X) (t : HashTable) : HashTable :=
  MkHashTable (NumberOfElements t) (NumberOfDeletedElements t) (Capacity t) x (entries t).
Definition set_entries (es : list (Element Obj * P)) (t : HashTable) : HashTable :=
  MkHashTable (NumberOfElements t) (NumberOfDeletedElements t) (Capacity t) (prefix t) es.

Definition ElementAdded (t : HashTable) : HashTable := SetNumberOfElements (NumberOfElements t + 1) t.
Definition ElementsRemoved (n : Z) (t : HashTable) : HashTable :=
  SetNumberOfDeletedElements (NumberOfDeletedElements t + n) (SetNumberOfElements (NumberOfElements t - n) t).
Definition ElementRemoved (t : HashTable) : HashTable := ElementsRemoved 1 t.

Definition entry_at (t : HashTable) (entry : Z) : option (Element Obj * P) :=
  if 0 <=? entry then entries t !! Z.to_nat entry else None.

Definition KeyAt (t : HashTable) (entry : Z) : option (Element Obj) := fst <$> entry_at t entry.

Definition IsKey (k : Element Obj) : bool := match k with object _ => true | _ => false end.

(** The entry, all of its words. *)
Definition set_entry (entry : Z) (e : Element Obj * P) (t : HashTable) : option HashTable :=
  _ ← entry_at t entry; Some (set_entries (<[Z.to_nat entry := e]> (entries t)) t).

(** [while (true)].  After [Capacity()] probes every entry was seen, so more would not end it. *)
Fixpoint find_loop (fuel : nat) (t : HashTable) (key : Key) (entry count : Z) : option Z :=
  match fuel with
  | O => None
  | S fuel =>
      element ← KeyAt t entry;
      match element with
      | undefined => Some kNotFound
      | null => find_loop fuel t key (NextProbe entry count (Capacity t)) (count + 1)
      | object o =>
          if IsMatch key o then Some entry
          else find_loop fuel t key (NextProbe entry count (Capacity t)) (count + 1)
      end
  end.

Definition FindEntry (t : HashTable) (key : Key) : option Z :=
  find_loop (Z.to_nat (Capacity t)) t key (FirstProbe (Hash key) (Capacity t)) 1.

Fixpoint insertion_loop (fuel : nat) (t : HashTable) (entry count : Z) : option Z :=
  match fuel with
  | O => None
  | S fuel =>
      element ← KeyAt t entry;
      if IsKey element then insertion_loop fuel t (NextProbe entry count (Capacity t)) (count + 1) else Some entry
  end.

Definition FindInsertionEntry (t : HashTable) (hash : Z) : option Z :=
  insertion_loop (Z.to_nat (Capacity t)) t (FirstProbe hash (Capacity t)) 1.

Definition Allocate (at_least_space_for : Z) : MaybeObject HashTable :=
  let capacity := ComputeCapacity at_least_space_for in
  if kMaxCapacity <? capacity then OutOfMemoryException
  else if allocates capacity then Success (MkHashTable 0 0 capacity x0 (repeat (undefined, p0) (Z.to_nat capacity)))
  else RetryAfterGC.

(** The loop over the entries of the old table. *)
Fixpoint rehash_loop (key : Key) (es : list (Element Obj * P)) (new_table : HashTable) : option HashTable :=
  match es with
  | [] => Some new_table
  | (k, p) :: es =>
      new_table ←
        (match k with
         | object o =>
             insertion_index ← FindInsertionEntry new_table (HashForObject key o);
             set_entry insertion_index (k, p) new_table
         | _ => Some new_table
         end);
      rehash_loop key es new_table
  end.

Definition Rehash (t new_table : HashTable) (key : Key) : option HashTable :=
  let new_table := set_prefix (prefix t) new_table in
  new_table ← rehash_loop key (entries t) new_table;
  Some (SetNumberOfDeletedElements 0 (SetNumberOfElements (NumberOfElements t) new_table)).

(** Rehash into a table that is allocated for a number of elements. *)
Definition rehash_for (t : HashTable) (at_least_space_for : Z) (key : Key) : option (MaybeObject HashTable) :=
  match Allocate at_least_space_for with
  | Success new_table => new_table ← Rehash t new_table key; Some (Success new_table)
  | failure => Some failure
  end.

Definition EnsureCapacity (t : HashTable) (n : Z) (key : Key) : option (MaybeObject HashTable) :=
  let capacity := Capacity t in
  let nof := NumberOfElements t + n in
  let nod := NumberOfDeletedElements t in
  if (nod <=? Z.shiftr (capacity - nof) 1) && (nof + Z.shiftr nof 1 <=? capacity) then Some (Success t)
  else rehash_for t (nof * 2) key.

Definition Shrink (t : HashTable) (key : Key) : option (MaybeObject HashTable) :=
  let capacity := Capacity t in
  let nof := NumberOfElements t in
  if Z.shiftr capacity 2 <? nof then Some (Success t)
  else
    let at_least_room_for := nof in
    if at_least_room_for <? 16 then Some (Success t)
    else rehash_for t at_least_room_for key.
End HashTable.

(** ** Capacities are powers of two *)

(** The highest [w] bits from bit [n] down are set, none is above. *)
Definition top (w n y : Z) : Prop :=
  (forall i, n < i -> Z.testbit y i = false) /\ (forall i, n - w < i <= n -> 0 <= i -> Z.testbit y i = true).

Lemma smear_top w n y : 0 < w -> top w n y -> top (2 * w) n (smear w y).
Proof.
  intros Hw [Hhigh Hset]. unfold smear. split; intros i Hi.
  - destruct (Z.ltb_spec i 0); [by apply Z.testbit_neg_r|]. rewrite Z.lor_spec, Z.shiftr_spec, !Hhigh by lia. done.
  - intros Hi0. rewrite Z.lor_spec, Z.shiftr_spec by lia. destruct (Z.leb_spec i (n - w)).
    + rewrite (Hset (i + w)) by lia. apply orb_true_r.
    + by rewrite (Hset i) by lia.
Qed.

Lemma top_ones n y : 0 <= n < 32 -> top 32 n y -> y = Z.ones (n + 1).
Proof.
  intros Hn [Hhigh Hset]. apply Z.bits_inj'. intros i Hi. rewrite Z.testbit_ones_nonneg by lia.
  destruct (Z.ltb_spec i (n + 1)); [apply Hset; lia|apply Hhigh; lia].
Qed.

Lemma RoundUpToPowerOf2_spec x :
  1 <= x <= 2 ^ 31 -> exists k, 0 <= k <= 31 /\ RoundUpToPowerOf2 x = 2 ^ k /\ x <= 2 ^ k < 2 * x.
Proof.
  intros Hx. unfold RoundUpToPowerOf2. unfold uint at 2. rewrite (Z.mod_small (x - 1)) by lia.
  destruct (Z.eq_dec x 1) as [->|Hne]; [by exists 0|].
  set (y := x - 1). assert (Hy : 0 < y < 2 ^ 31) by lia. pose proof (Z.log2_spec y ltac:(lia)) as Hlog.
  set (n := Z.log2 y) in *. assert (Hn : 0 <= n < 31) by (split; [apply Z.log2_nonneg|apply Z.log2_lt_pow2; lia]).
  assert (Htop : top 1 n y).
  { split; intros i Hi; [apply Z.bits_above_log2; lia|]. intros _. replace i with n by lia. apply Z.bit_log2. lia. }
  apply (smear_top 1 n y eq_refl), (smear_top 2 n _ eq_refl), (smear_top 4 n _ eq_refl), (smear_top 8 n _ eq_refl), (smear_top 16 n _ eq_refl),
    top_ones in Htop; [|lia]. rewrite Htop, Z.ones_equiv. replace (Z.pred (2 ^ (n + 1)) + 1) with (2 ^ (n + 1)) by lia.
  exists (n + 1). split; [lia|]. assert (2 ^ (n + 1) <= 2 ^ 31) by (apply Z.pow_le_mono_r; lia).
  split; [apply Z.mod_small; split; [apply Z.pow_nonneg; lia|lia]|]. rewrite <- Z.add_1_r in Hlog. rewrite Z.pow_add_r in * by lia. lia.
Qed.

Lemma ComputeCapacity_spec n :
  0 <= n <= 2 ^ 29 -> exists k, 5 <= k <= 30 /\ ComputeCapacity n = 2 ^ k /\ n * 2 <= 2 ^ k /\ 2 ^ k <= Z.max 32 (n * 4).
Proof.
  intros Hn. destruct (Z.eq_dec n 0) as [->|Hne]; [exists 5; by vm_compute|].
  destruct (RoundUpToPowerOf2_spec (n * 2)) as (k & Hk & E & Hle); [lia|].
  assert (Hk30 : k <= 30). { destruct (Z.leb_spec k 30); [done|]. replace k with 31 in * by lia. lia. }
  assert (2 ^ k <= 2 ^ 30) by (apply Z.pow_le_mono_r; lia). assert (0 < 2 ^ k) by (apply Z.pow_pos_nonneg; lia).
  assert (Hc : sint 32 (RoundUpToPowerOf2 (uint 32 (n * 2))) = 2 ^ k).
  { unfold uint. rewrite (Z.mod_small (n * 2)), E by lia. apply sint_id; [done|]. change (2 ^ (32 - 1)) with (2 ^ 31). lia. }
  unfold ComputeCapacity. rewrite Hc. destruct (Z.ltb_spec (2 ^ k) 32) as [Hlt|Hge].
  - exists 5. change (2 ^ 5) with 32. repeat split; lia.
  - exists k. assert (5 <= k); [|repeat split; lia]. change 32 with (2 ^ 5) in Hge. apply (Z.pow_le_mono_r_iff 2); lia.
Qed.

(** ** The probes visit every entry *)

Definition triangle (n : Z) : Z := n * (n + 1) / 2.

Lemma triangle_double n : 2 * triangle n = n * (n + 1).
Proof.
  unfold triangle. pose proof (Z_div_mod_eq_full (n * (n + 1)) 2). assert (Hm : (n * (n + 1)) mod 2 = 0); [|lia].
  rewrite Zmult_mod. pose proof (Z.mod_pos_bound n 2 ltac:(lia)). rewrite (Zplus_mod n 1).
  destruct (Z.eq_dec (n mod 2) 0) as [->|]; [done|]. by replace (n mod 2) with 1 by lia.
Qed.

Lemma triangle_S n : triangle (n + 1) = triangle n + (n + 1).
Proof. pose proof (triangle_double n). pose proof (triangle_double (n + 1)). lia. Qed.

(** Probe [n] of a hash in a table of [2 ^ k] entries. *)
Definition probe (k h n : Z) : Z := (h + triangle n) mod 2 ^ k.

Lemma land_pow2_mask x k : 0 <= k -> Z.land x (2 ^ k - 1) = x mod 2 ^ k.
Proof. intros Hk. rewrite <- Z.land_ones by done. by rewrite Z.ones_equiv, <- Z.sub_1_r. Qed.

Lemma mod_pow_mod x j k : 0 <= j <= k -> (x mod 2 ^ k) mod 2 ^ j = x mod 2 ^ j.
Proof.
  intros Hjk. replace k with (j + (k - j)) by lia. rewrite Z.pow_add_r by lia.
  rewrite Z.rem_mul_r by (apply Z.pow_pos_nonneg || apply Z.pow_nonzero; lia).
  rewrite (Z.mul_comm (2 ^ j)), Z_mod_plus_full. apply Zmod_mod.
Qed.

Lemma FirstProbe_probe h k : 0 <= k -> FirstProbe h (2 ^ k) = probe k h 0.
Proof. intros Hk. unfold FirstProbe, probe. rewrite land_pow2_mask by done. by rewrite Z.add_0_r. Qed.

Lemma NextProbe_probe h k n : 0 <= k <= 32 -> NextProbe (probe k h n) (n + 1) (2 ^ k) = probe k h (n + 1).
Proof.
  intros Hk. unfold NextProbe, probe, uint. rewrite land_pow2_mask, mod_pow_mod by lia. rewrite triangle_S, Zplus_mod_idemp_l. f_equal. lia.
Qed.

(** The probes that are computed from their numbers, though the square overflows. *)
Lemma GetProbe_probe h k n : 0 <= k <= 31 -> GetProbe h n (2 ^ k) = probe k h n.
Proof.
  intros Hk. unfold GetProbe, GetProbeOffset, probe, uint. rewrite land_pow2_mask, mod_pow_mod by lia.
  rewrite Zplus_mod, (Zplus_mod h (triangle n)). f_equal. f_equal.
  rewrite Z.shiftr_div_pow2 by lia. change (2 ^ 1) with 2. replace (n + n * n) with (2 * triangle n) by (rewrite triangle_double; lia).
  change (2 ^ 32) with (2 * 2 ^ 31). rewrite Zmult_mod_distr_l, (Z.mul_comm 2), Z.div_mul by lia. by apply mod_pow_mod.
Qed.

Lemma divide_odd_l k a b : 0 <= k -> Z.odd a = true -> (2 ^ k | a * b) -> (2 ^ k | b).
Proof.
  intros Hk Hodd. revert b. pattern k. apply natlike_ind; [intros b _; apply Z.divide_1_l| |done].
  clear k Hk. intros k Hk IH b. rewrite Z.pow_succ_r by done. intros [z Hz].
  assert (Heven : Z.even b = true).
  { assert (He : Z.even (a * b) = true) by (rewrite Hz, (Z.mul_comm 2), Z.mul_assoc, Z.even_mul; apply orb_true_r).
    rewrite Z.even_mul in He. rewrite <- Z.negb_odd, Hodd in He. done. }
  apply Z.even_spec in Heven as [c ->]. apply Z.mul_divide_mono_l. apply IH. exists z. lia.
Qed.

Lemma probe_inj k h m n : 0 <= k -> 0 <= m < 2 ^ k -> 0 <= n < 2 ^ k -> probe k h m = probe k h n -> m = n.
Proof.
  intros Hk Hm Hn E. unfold probe in E.
  assert (Hdiv : (2 ^ k | triangle m - triangle n)).
  { apply Z.mod_divide; [apply Z.pow_nonzero; lia|]. replace (triangle m - triangle n) with ((h + triangle m) - (h + triangle n)) by lia.
    by rewrite Zminus_mod, E, Z.sub_diag. }
  assert (Hdiv2 : (2 ^ (k + 1) | (m - n) * (m + n + 1))).
  { rewrite Z.pow_add_r by lia. replace ((m - n) * (m + n + 1)) with ((triangle m - triangle n) * 2).
    - by apply Z.mul_divide_mono_r.
    - pose proof (triangle_double m). pose proof (triangle_double n). nia. }
  assert (Hpow : 2 ^ (k + 1) = 2 * 2 ^ k) by (rewrite Z.pow_add_r by lia; lia).
  destruct (Z.odd (m - n)) eqn:Hodd.
  - apply divide_odd_l in Hdiv2; [|lia|done]. apply Z.divide_pos_le in Hdiv2; lia.
  - assert (Hodd' : Z.odd (m + n + 1) = true).
    { replace (m + n + 1) with ((m - n) + (1 + 2 * n)) by lia. rewrite Z.odd_add, Hodd, Z.odd_add_mul_2. done. }
    rewrite Z.mul_comm in Hdiv2. apply divide_odd_l in Hdiv2; [|lia|done]. destruct Hdiv2 as [z Hz]. rewrite Hpow in Hz.
    destruct (Z.lt_trichotomy z 0) as [|[->|]]; nia.
Qed.

Lemma probe_bound k h n : 0 <= k -> 0 <= probe k h n < 2 ^ k.
Proof. intros Hk. apply Z.mod_pos_bound, Z.pow_pos_nonneg; lia. Qed.

Lemma probe_surj k h p : 0 <= k -> 0 <= p < 2 ^ k -> exists n, 0 <= n < 2 ^ k /\ probe k h n = p.
Proof.
  intros Hk Hp. assert (Hperm : probe k h <$> seqZ 0 (2 ^ k) ≡ₚ seqZ 0 (2 ^ k)).
  { apply submseteq_length_Permutation; [|by rewrite length_fmap]. apply NoDup_submseteq.
    - apply NoDup_fmap_2_strong; [|apply NoDup_seqZ]. intros m n Hm%elem_of_seqZ Hn%elem_of_seqZ. apply probe_inj; lia.
    - intros x (n & -> & Hn)%list_elem_of_fmap. apply elem_of_seqZ. pose proof (probe_bound k h n Hk). lia. }
  assert (Hin : p ∈ probe k h <$> seqZ 0 (2 ^ k)) by (rewrite Hperm; apply elem_of_seqZ; lia).
  apply list_elem_of_fmap in Hin as (n & -> & Hn%elem_of_seqZ). exists n. split; [lia|done].
Qed.

(** ** The invariant *)

(** Keys and objects stand for identities. *)
Class ShapeOk (Key Obj I : Type) `{Shape Key Obj} := {
  ident : Key -> I;
  object_ident : Obj -> I;
  hash_of : I -> Z;
  IsMatch_ident key o : IsMatch key o = true <-> object_ident o = ident key;
  Hash_ident key : Hash key = hash_of (ident key);
  HashForObject_ident key o : HashForObject key o = hash_of (object_ident o);
  AsObject_ident key o : AsObject key = Some o -> object_ident o = ident key;
  sizes_ok : 0 <= kPrefixSize /\ 1 <= kEntrySize
}.

Section table.
Context {Key Obj P X I : Type} `{ShapeOk Key Obj I}.
Context `{Countable I}.

Abbreviation Entry := (Element Obj * P)%type.
Abbreviation HashTable := (@HashTable Obj P X).

(** The keys that are in the table, with their payloads. *)
Definition live_of (e : Entry) : list (Obj * P) := match e.1 with object o => [(o, e.2)] | _ => [] end.
Definition live (es : list Entry) : list (Obj * P) := flat_map live_of es.

Definition null_of (e : Entry) : nat := match e.1 with null => 1 | _ => 0 end.
Definition nulls (es : list Entry) : nat := sum_list_with null_of es.

Definition idents (l : list (Obj * P)) : list I := (fun e => object_ident e.1) <$> l.

#[export] Instance idents_Permutation : Proper ((≡ₚ) ==> (≡ₚ)) idents.
Proof. intros l l' Hl. unfold idents. by rewrite Hl. Qed.

Definition is_undefined (e : Entry) : bool := match e.1 with undefined => true | _ => false end.

(** The entry is on the path of the probes of its hash. *)
Definition reachable (k : Z) (es : list Entry) (h : Z) (p : nat) : Prop :=
  exists n, 0 <= n < 2 ^ k /\ probe k h n = Z.of_nat p
  /\ forall m, 0 <= m < n -> exists e, es !! Z.to_nat (probe k h m) = Some e /\ is_undefined e = false.

Definition reaching (k : Z) (es : list Entry) : Prop :=
  forall p o x, es !! p = Some (object o, x) -> reachable k es (hash_of (object_ident o)) p.

Record table_ok (k : Z) (t : HashTable) : Prop := {
  ok_exponent : 5 <= k <= 27;
  ok_capacity : Capacity t = 2 ^ k;
  ok_length : Z.of_nat (length (entries t)) = 2 ^ k;
  ok_elements : NumberOfElements t = Z.of_nat (length (live (entries t)));
  ok_deleted : Z.of_nat (nulls (entries t)) <= NumberOfDeletedElements t;
  ok_reaching : reaching k (entries t);
  ok_unique : NoDup (idents (live (entries t)))
}.

(** There is an empty entry. *)
Definition room (t : HashTable) : Prop := NumberOfElements t + NumberOfDeletedElements t < Capacity t.

(** The map that the table implements. *)
Definition contents (t : HashTable) : gmap I P := list_to_map ((fun e => (object_ident e.1, e.2)) <$> live (entries t)).

(** ** Changing an entry *)

Lemma live_app es es' : live (es ++ es') = live es ++ live es'.
Proof. apply flat_map_app. Qed.

Lemma live_cons e es : live (e :: es) = live_of e ++ live es.
Proof. done. Qed.

Lemma live_insert es p e e' :
  es !! p = Some e -> live_of e ++ live (<[p := e']> es) ≡ₚ live_of e' ++ live es.
Proof.
  intros He. rewrite <- (take_drop_middle es p e He) at 2.
  rewrite insert_take_drop by (by eapply lookup_lt_Some). rewrite !live_app. cbn [live flat_map].
  fold (live (drop (S p) es)). solve_Permutation.
Qed.

Lemma nulls_insert es p e e' : es !! p = Some e -> (null_of e + nulls (<[p := e']> es) = null_of e' + nulls es)%nat.
Proof.
  intros He. rewrite <- (take_drop_middle es p e He) at 2.
  rewrite insert_take_drop by (by eapply lookup_lt_Some). unfold nulls. rewrite !sum_list_with_app. cbn. lia.
Qed.

Lemma live_length es : (length (live es) + nulls es <= length es)%nat.
Proof.
  induction es as [|[e x] es IH]; [done|]. unfold live, nulls in *. cbn [flat_map sum_list_with length]. rewrite length_app.
  unfold live_of at 1, null_of at 1. destruct e; cbn [fst length]; lia.
Qed.

Lemma empty_entry es : (length (live es) + nulls es < length es)%nat -> exists p e, es !! p = Some e /\ is_undefined e = true.
Proof.
  induction es as [|[e x] es IH]; cbn [length]; [lia|]. unfold live, nulls in *. cbn [flat_map sum_list_with]. rewrite length_app.
  unfold live_of at 1, null_of at 1. destruct e; cbn [fst length]; intros Hlt.
  - by exists 0%nat, (undefined, x).
  - destruct IH as (p & e & He); [lia|]. by exists (S p), e.
  - destruct IH as (p & e & He); [lia|]. by exists (S p), e.
Qed.

Lemma live_lookup es o x : (o, x) ∈ live es <-> exists p, es !! p = Some (object o, x).
Proof.
  unfold live. rewrite list_elem_of_In, in_flat_map. split.
  - intros (e & He & Hin). apply list_elem_of_In, list_elem_of_lookup in He as [p Hp]. exists p. rewrite Hp.
    destruct e as [[| |o'] x']; cbn in Hin; [done|done|]. by destruct Hin as [[= -> ->]|].
  - intros [p Hp]. exists (object o, x). split; [by eapply list_elem_of_In, list_elem_of_lookup_2|by left].
Qed.

Lemma reaching_insert k es p e e' :
  es !! p = Some e -> is_undefined e' = false -> reaching k es ->
  (forall o, e'.1 = object o -> reachable k es (hash_of (object_ident o)) p) -> reaching k (<[p := e']> es).
Proof.
  intros He Hdef Hr Hnew q o x Hq.
  assert (Hreach : reachable k es (hash_of (object_ident o)) q).
  { destruct (decide (q = p)) as [->|Hne]; [|rewrite list_lookup_insert_ne in Hq by done; by eapply Hr].
    rewrite list_lookup_insert_eq in Hq by (by eapply lookup_lt_Some). apply Hnew. by injection Hq as ->. }
  destruct Hreach as (n & Hn & Hp & Hbefore). exists n. split; [done|]. split; [done|]. intros m Hm.
  destruct (Hbefore m Hm) as (e1 & He1 & Hd1). destruct (decide (p = Z.to_nat (probe k (hash_of (object_ident o)) m))) as [->|Hne].
  - exists e'. split; [|done]. apply list_lookup_insert_eq. by eapply lookup_lt_Some.
  - exists e1. by rewrite list_lookup_insert_ne.
Qed.

(** The contents as a relation. *)
Lemma contents_lookup t i x :
  NoDup (idents (live (entries t))) ->
  contents t !! i = Some x <-> exists p o, entries t !! p = Some (object o, x) /\ object_ident o = i.
Proof.
  intros Hnd. unfold contents. rewrite <- elem_of_list_to_map.
  - split.
    + intros ([o x'] & [= -> ->] & Hin)%list_elem_of_fmap. apply live_lookup in Hin as [p Hp]. by exists p, o.
    + intros (p & o & Hp & <-). apply list_elem_of_fmap. exists (o, x). split; [done|]. apply live_lookup. by exists p.
  - rewrite <- list_fmap_compose. exact Hnd.
Qed.

Lemma contents_Permutation (t t' : HashTable) :
  NoDup (idents (live (entries t))) -> live (entries t') ≡ₚ live (entries t) -> contents t' = contents t.
Proof.
  intros Hnd Hp. unfold contents. apply list_to_map_proper; [|by rewrite Hp].
  rewrite <- list_fmap_compose. change (NoDup (idents (live (entries t')))). unfold idents. by rewrite Hp.
Qed.

(** ** The first entry on the path that ends a loop *)

Lemma least_stop (stop : nat -> bool) n :
  stop n = true -> exists m, (m <= n)%nat /\ stop m = true /\ forall j, (j < m)%nat -> stop j = false.
Proof.
  induction n as [n IH] using lt_wf_ind. intros Hstop. destruct (existsb stop (seq 0 n)) eqn:E.
  - apply existsb_exists in E as (j & Hj%in_seq & Hs). destruct (IH j ltac:(lia) Hs) as (m & Hm & Hr). exists m. split; [lia|done].
  - exists n. split; [lia|]. split; [done|]. intros j Hj. destruct (stop j) eqn:Es; [|done].
    rewrite <- E. symmetry. apply existsb_exists. exists j. split; [apply in_seq; lia|done].
Qed.

(** The entry of a probe. *)
Definition probed (k : Z) (es : list Entry) (h n : Z) : option Entry := es !! Z.to_nat (probe k h n).

Lemma probed_inside k es h n : 0 <= k -> Z.of_nat (length es) = 2 ^ k -> exists e, probed k es h n = Some e.
Proof. intros Hk Hlen. pose proof (probe_bound k h n Hk). apply lookup_lt_is_Some_2. lia. Qed.

Lemma first_stop k es h (stop : Entry -> bool) p e :
  0 <= k -> Z.of_nat (length es) = 2 ^ k -> es !! p = Some e -> stop e = true ->
  exists n e', 0 <= n < 2 ^ k /\ probed k es h n = Some e' /\ stop e' = true
  /\ forall m, 0 <= m < n -> exists e'', probed k es h m = Some e'' /\ stop e'' = false.
Proof.
  intros Hk Hlen He Hstop. pose proof (lookup_lt_Some _ _ _ He) as Hp.
  destruct (probe_surj k h (Z.of_nat p) Hk ltac:(lia)) as (n & Hn & Hpn).
  set (stop' := fun j : nat => match probed k es h (Z.of_nat j) with Some e => stop e | None => false end).
  destruct (least_stop stop' (Z.to_nat n)) as (m & Hm & Hsm & Hbefore).
  { unfold stop', probed. by rewrite Z2Nat.id, Hpn, Nat2Z.id, He by lia. }
  unfold stop' in Hsm. destruct (probed k es h (Z.of_nat m)) as [e'|] eqn:E; [|done]. exists (Z.of_nat m), e'.
  split; [lia|]. split; [done|]. split; [done|]. intros j Hj. destruct (probed_inside k es h j Hk Hlen) as [e'' Ee''].
  exists e''. split; [done|]. specialize (Hbefore (Z.to_nat j) ltac:(lia)). unfold stop' in Hbefore. rewrite Z2Nat.id, Ee'' in Hbefore by lia. done.
Qed.

Lemma entry_at_probe (t : HashTable) k h n : 0 <= k -> entry_at t (probe k h n) = probed k (entries t) h n.
Proof. intros Hk. unfold entry_at. pose proof (probe_bound k h n Hk). by rewrite (proj2 (Z.leb_le _ _)) by lia. Qed.

(** ** Lookup *)

Definition find_stops (key : Key) (e : Entry) : bool :=
  match e.1 with undefined => true | null => false | object o => IsMatch key o end.

Lemma find_loop_stops (t : HashTable) k key n e j :
  5 <= k <= 27 -> Capacity t = 2 ^ k -> 0 <= j <= n -> n < 2 ^ k ->
  probed k (entries t) (Hash key) n = Some e -> find_stops key e = true ->
  (forall m, 0 <= m < n -> exists e', probed k (entries t) (Hash key) m = Some e' /\ find_stops key e' = false) ->
  find_loop (Z.to_nat (2 ^ k - j)) t key (probe k (Hash key) j) (j + 1)
  = Some (if is_undefined e then kNotFound else probe k (Hash key) n).
Proof.
  intros Hk Hcap Hj Hn He Hs Hbefore. remember (Z.to_nat (n - j)) as d eqn:Hd. revert j Hj Hd.
  induction d as [|d IH]; intros j Hj Hd; (destruct (Z.to_nat (2 ^ k - j)) as [|fuel] eqn:Hfuel; [lia|]); cbn [find_loop];
    unfold KeyAt; rewrite entry_at_probe by lia.
  - replace j with n by lia. rewrite He. destruct e as [[| |o] x]; cbn in *; [done|done|]. by rewrite Hs.
  - destruct (Hbefore j ltac:(lia)) as (e' & -> & Hs'). specialize (IH (j + 1) ltac:(lia) ltac:(lia)).
    replace (Z.to_nat (2 ^ k - (j + 1))) with fuel in IH by lia.
    rewrite Hcap, NextProbe_probe, IH by lia. destruct e' as [[| |o] x]; cbn in *; [done|done|]. by rewrite Hs'.
Qed.

(** The loop ends, at the entry of the key or with [kNotFound]. *)
Lemma FindEntry_spec k (t : HashTable) key :
  table_ok k t -> room t ->
  (exists p o x, FindEntry t key = Some (Z.of_nat p) /\ entries t !! p = Some (object o, x) /\ object_ident o = ident key)
  \/ (FindEntry t key = Some kNotFound /\ contents t !! ident key = None).
Proof.
  intros [Hk Hcap Hlen Hnof Hnod Hreach Hnd] Hroom. unfold room in Hroom.
  destruct (empty_entry (entries t)) as (p & e & He & Hu); [lia|].
  destruct (first_stop k (entries t) (Hash key) (find_stops key) p e) as (n & e' & Hn & He' & Hs & Hbefore); [lia|done|done| |].
  { unfold find_stops. unfold is_undefined in Hu. by destruct (e.1). }
  pose proof (find_loop_stops t k key n e' 0 Hk Hcap ltac:(lia) ltac:(lia) He' Hs Hbefore) as Hloop.
  rewrite Z.sub_0_r, <- FirstProbe_probe, <- Hcap in Hloop by lia. change (0 + 1) with 1 in Hloop. unfold FindEntry. rewrite Hloop.
  pose proof (probe_bound k (Hash key) n ltac:(lia)) as Hb.
  destruct e' as [[| |o] x]; cbn in Hs; [right|done|left].
  - split; [done|]. destruct (contents t !! ident key) as [y|] eqn:Ey; [|done]. exfalso.
    apply contents_lookup in Ey as (q & o & Hq & Hid); [|done]. destruct (Hreach q o y Hq) as (n' & Hn' & Hpn' & Hdef).
    rewrite Hid, <- Hash_ident in Hpn', Hdef. destruct (Z.lt_trichotomy n n') as [Hlt|[->|Hgt]].
    + destruct (Hdef n ltac:(lia)) as (e1 & He1 & Hd1). unfold probed in He'. by replace e1 with (@undefined Obj, x) in Hd1 by congruence.
    + unfold probed in He'. rewrite Hpn', Nat2Z.id in He'. congruence.
    + destruct (Hbefore n' ltac:(lia)) as (e1 & He1 & Hs1). unfold probed in He1. rewrite Hpn', Nat2Z.id in He1.
      replace e1 with (object o, y) in Hs1 by congruence. cbn in Hs1. apply IsMatch_ident in Hid. congruence.
  - exists (Z.to_nat (probe k (Hash key) n)), o, x. rewrite Z2Nat.id by lia. split; [done|]. split; [done|]. by apply IsMatch_ident.
Qed.

(** ** Insertion *)

Lemma insertion_loop_spec (t : HashTable) k h n e j :
  5 <= k <= 27 -> Capacity t = 2 ^ k -> 0 <= j <= n -> n < 2 ^ k ->
  probed k (entries t) h n = Some e -> IsKey e.1 = false ->
  (forall m, 0 <= m < n -> exists e', probed k (entries t) h m = Some e' /\ negb (IsKey e'.1) = false) ->
  insertion_loop (Z.to_nat (2 ^ k - j)) t (probe k h j) (j + 1) = Some (probe k h n).
Proof.
  intros Hk Hcap Hj Hn He Hs Hbefore. remember (Z.to_nat (n - j)) as d eqn:Hd. revert j Hj Hd.
  induction d as [|d IH]; intros j Hj Hd; (destruct (Z.to_nat (2 ^ k - j)) as [|fuel] eqn:Hfuel; [lia|]); cbn [insertion_loop];
    unfold KeyAt; rewrite entry_at_probe by lia.
  - replace j with n by lia. rewrite He. cbn. by rewrite Hs.
  - destruct (Hbefore j ltac:(lia)) as (e' & -> & Hs'). specialize (IH (j + 1) ltac:(lia) ltac:(lia)).
    replace (Z.to_nat (2 ^ k - (j + 1))) with fuel in IH by lia. apply negb_false_iff in Hs'. cbn. rewrite Hs'.
    by rewrite Hcap, NextProbe_probe, IH by lia.
Qed.

(** What holds while a table is filled. *)
Record slots_ok (k : Z) (t : HashTable) : Prop := {
  slots_exponent : 5 <= k <= 27;
  slots_capacity : Capacity t = 2 ^ k;
  slots_length : Z.of_nat (length (entries t)) = 2 ^ k;
  slots_reaching : reaching k (entries t);
  slots_unique : NoDup (idents (live (entries t)))
}.

Lemma table_slots k t : table_ok k t -> slots_ok k t.
Proof. intros []. by split. Qed.

Lemma FindInsertionEntry_spec k (t : HashTable) h :
  slots_ok k t -> Z.of_nat (length (live (entries t))) < 2 ^ k ->
  exists p e, FindInsertionEntry t h = Some (Z.of_nat p) /\ entries t !! p = Some e /\ IsKey e.1 = false /\ reachable k (entries t) h p.
Proof.
  intros [Hk Hcap Hlen Hreach Hnd] Hfree.
  assert (Hslot : exists p e, entries t !! p = Some e /\ negb (IsKey e.1) = true).
  { clear -Hlen Hfree. rewrite <- Hlen in Hfree. clear Hlen. assert (Hlt : (length (live (entries t)) < length (entries t))%nat) by lia. clear Hfree.
    induction (entries t) as [|[e x] es IH]; cbn [length] in *; [lia|]. unfold live in *. cbn [flat_map] in Hlt. rewrite length_app in Hlt.
    destruct e; [by exists 0%nat, (undefined, x)|by exists 0%nat, (null, x)|]. cbn in Hlt. destruct IH as (p & e & He); [lia|]. by exists (S p), e. }
  destruct Hslot as (p & e & He & Hs).
  destruct (first_stop k (entries t) h (fun e => negb (IsKey e.1)) p e) as (n & e' & Hn & He' & Hs' & Hbefore); [lia|done|done|done|].
  apply negb_true_iff in Hs'. pose proof (insertion_loop_spec t k h n e' 0 Hk Hcap ltac:(lia) ltac:(lia) He' Hs' Hbefore) as Hloop.
  rewrite Z.sub_0_r, <- FirstProbe_probe, <- Hcap in Hloop by lia. change (0 + 1) with 1 in Hloop. unfold FindInsertionEntry. rewrite Hloop.
  pose proof (probe_bound k h n ltac:(lia)). exists (Z.to_nat (probe k h n)), e'. rewrite Z2Nat.id by lia. split; [done|]. split; [done|]. split; [done|].
  exists n. rewrite Z2Nat.id by lia. split; [done|]. split; [done|]. intros m Hm. destruct (Hbefore m Hm) as (e1 & He1 & Hs1).
  exists e1. split; [done|]. unfold is_undefined. by destruct (e1.1).
Qed.

Lemma set_entry_inside (t : HashTable) p e e' :
  entries t !! p = Some e -> set_entry (Z.of_nat p) e' t = Some (set_entries (<[p := e']> (entries t)) t).
Proof.
  intros He. unfold set_entry, entry_at. rewrite (proj2 (Z.leb_le _ _)), Nat2Z.id, He by lia. done.
Qed.

Lemma live_of_key (e : Entry) : IsKey e.1 = false -> live_of e = [].
Proof. destruct e as [[] ?]; done. Qed.

Lemma insert_slots k t p e o x :
  slots_ok k t -> entries t !! p = Some e -> IsKey e.1 = false -> reachable k (entries t) (hash_of (object_ident o)) p ->
  object_ident o ∉ idents (live (entries t)) ->
  let t' := set_entries (<[p := (object o, x)]> (entries t)) t in
  slots_ok k t' /\ live (entries t') ≡ₚ (o, x) :: live (entries t) /\ (nulls (entries t') <= nulls (entries t))%nat.
Proof.
  intros [Hk Hcap Hlen Hreach Hnd] He Hkey Hr Hnew t'. unfold t'. clear t'. cbn [entries set_entries].
  pose proof (live_insert (entries t) p e (object o, x) He) as Hlive. rewrite (live_of_key e Hkey) in Hlive. cbn [live_of app fst] in Hlive.
  pose proof (nulls_insert (entries t) p e (object o, x) He) as Hnull. unfold null_of at 2 in Hnull. cbn [fst] in Hnull.
  split; [|split; [exact Hlive|lia]]. split; cbn [entries set_entries Capacity]; [done|done|by rewrite length_insert| |].
  - apply (reaching_insert k _ p e); [done|done|done|]. by intros o' [= <-].
  - unfold idents. rewrite Hlive. cbn. by constructor.
Qed.

(** ** Rehashing *)

Lemma rehash_loop_spec k key es (t : HashTable) :
  slots_ok k t -> NoDup (idents (live es ++ live (entries t))) ->
  Z.of_nat (length (live es) + length (live (entries t))) < 2 ^ k ->
  exists t', rehash_loop key es t = Some t' /\ slots_ok k t' /\ live (entries t') ≡ₚ live es ++ live (entries t)
  /\ prefix t' = prefix t /\ (nulls (entries t') <= nulls (entries t))%nat.
Proof.
  revert t. induction es as [|[e x] es IH]; intros t Hok Hnd Hfree; cbn [rehash_loop]; [by exists t|].
  rewrite live_cons in Hnd, Hfree. rewrite live_cons. unfold live_of in *. destruct e as [| |o]; cbn [fst snd app length] in *; [by apply IH|by apply IH|].
  destruct (FindInsertionEntry_spec k t (HashForObject key o) Hok) as (p & e & -> & He & Hkey & Hr); [lia|].
  cbn [mbind option_bind]. rewrite (set_entry_inside t p e) by done. cbn [mbind option_bind]. rewrite HashForObject_ident in Hr.
  unfold idents in Hnd. cbn [fmap list_fmap] in Hnd. apply NoDup_cons in Hnd as [Hnew Hnd]. cbn [fst] in Hnew.
  destruct (insert_slots k t p e o x Hok He Hkey Hr) as (Hok' & Hlive & Hnull).
  { intros Hin. apply Hnew. rewrite fmap_app. apply elem_of_app. by right. }
  destruct (IH (set_entries (<[p := (object o, x)]> (entries t)) t) Hok') as (t' & -> & Hok2 & Hlive2 & Hpre & Hnull2).
  - unfold idents. rewrite Hlive, <- Permutation_middle. cbn [fmap list_fmap fst]. by apply NoDup_cons.
  - rewrite Hlive. cbn [length]. lia.
  - exists t'. split; [done|]. split; [done|]. split; [|split; [done|lia]]. rewrite Hlive2, Hlive. symmetry. apply Permutation_middle.
Qed.

Context (x0 : X) (p0 : P) (kPointerSize : Z) (allocates : Z -> bool).
Context (kPointerSize_ok : 4 <= kPointerSize).

Abbreviation kMaxCapacity := (kMaxCapacity kPointerSize).
Abbreviation Allocate := (Allocate x0 p0 kPointerSize allocates).
Abbreviation rehash_for := (rehash_for x0 p0 kPointerSize allocates).
Abbreviation EnsureCapacity := (EnsureCapacity x0 p0 kPointerSize allocates).
Abbreviation Shrink := (Shrink x0 p0 kPointerSize allocates).

Definition fresh (k : Z) : HashTable := MkHashTable 0 0 (2 ^ k) x0 (repeat (undefined, p0) (Z.to_nat (2 ^ k))).

Lemma live_fresh n : live (repeat (@undefined Obj, p0) n) = [].
Proof. induction n; [done|]. cbn [repeat]. rewrite live_cons. done. Qed.

Lemma nulls_fresh n : nulls (repeat (@undefined Obj, p0) n) = 0%nat.
Proof. by induction n. Qed.

Lemma fresh_ok k : 5 <= k <= 27 -> table_ok k (fresh k).
Proof.
  intros Hk. assert (0 < 2 ^ k) by (apply Z.pow_pos_nonneg; lia). unfold fresh. split; cbn [Capacity entries NumberOfElements NumberOfDeletedElements]; try done.
  - rewrite repeat_length. lia.
  - by rewrite live_fresh.
  - by rewrite nulls_fresh.
  - intros p o x Hp. apply list_elem_of_lookup_2, list_elem_of_In, repeat_spec in Hp. done.
  - rewrite live_fresh. constructor.
Qed.

(** A table with the same keys and payloads, and without deleted entries. *)
Lemma Rehash_spec k k' (t : HashTable) key :
  table_ok k t -> 5 <= k' <= 27 -> NumberOfElements t < 2 ^ k' ->
  exists t', Rehash t (fresh k') key = Some t' /\ table_ok k' t' /\ live (entries t') ≡ₚ live (entries t) /\ prefix t' = prefix t
  /\ NumberOfDeletedElements t' = 0.
Proof.
  intros [Hk Hcap Hlen Hnof Hnod Hreach Hnd] Hk' Hfit. pose proof (table_slots k' _ (fresh_ok k' Hk')) as Hfresh.
  destruct (rehash_loop_spec k' key (entries t) (set_prefix (prefix t) (fresh k'))) as (t' & E & Hok & Hlive & Hpre & Hnull).
  - by destruct Hfresh; split.
  - cbn [entries set_prefix fresh]. by rewrite live_fresh, app_nil_r.
  - cbn [entries set_prefix fresh]. rewrite live_fresh. cbn [length]. lia.
  - unfold Rehash. rewrite E. cbn [mbind option_bind]. eexists. split; [done|]. cbn [entries set_prefix fresh] in *.
    rewrite live_fresh, app_nil_r in Hlive. rewrite nulls_fresh in Hnull.
    split; [|done]. destruct Hok as [H1' H2' H3' H4' H5']. split; cbn [Capacity entries NumberOfElements NumberOfDeletedElements SetNumberOfDeletedElements SetNumberOfElements];
      [done|done|done| |lia|done|done]. by rewrite Hnof, Hlive.
Qed.

Lemma kMaxCapacity_bound : kMaxCapacity <= 2 ^ 27.
Proof.
  destruct sizes_ok as [Hp He]. unfold kMaxCapacity, FixedArray_kMaxLength, kElementsStartOffset, kElementsStartIndex, FixedArray_kHeaderSize.
  set (l := (512 * 2 ^ 20 - 2 * kPointerSize) / kPointerSize).
  assert (Hl : l <= 2 ^ 27). { apply Z.div_le_upper_bound; [lia|]. lia. }
  assert (Ho : 0 <= 2 * kPointerSize + (3 + kPrefixSize) * kPointerSize) by nia.
  apply Z.le_trans with (2 ^ 27 / kEntrySize); [apply Z.div_le_mono; lia|]. apply Z.div_le_upper_bound; [lia|]. nia.
Qed.

Lemma Allocate_spec n :
  0 <= n <= 2 ^ 29 ->
  match Allocate n with
  | Success t => exists k, 5 <= k <= 27 /\ t = fresh k /\ n * 2 <= 2 ^ k
  | RetryAfterGC => exists c, allocates c = false
  | OutOfMemoryException => kMaxCapacity < Z.max 32 (n * 4)
  end.
Proof.
  intros Hn. unfold Allocate. destruct (ComputeCapacity_spec n Hn) as (k & Hk & -> & Hle & Hmax).
  destruct (Z.ltb_spec kMaxCapacity (2 ^ k)) as [Hlt|Hge]; [lia|]. destruct (allocates (2 ^ k)) eqn:Ha; [|by exists (2 ^ k)].
  exists k. split; [|done]. pose proof kMaxCapacity_bound. split; [lia|]. apply (Z.pow_le_mono_r_iff 2); lia.
Qed.

(** What a table becomes: one with the same contents and with room, unless an allocation fails. *)
Definition resized (limit : Z) (enough : HashTable -> Prop) (t : HashTable) (r : option (MaybeObject HashTable)) : Prop :=
  match r with
  | None => False
  | Some (Success t') => (exists k, table_ok k t') /\ enough t' /\ live (entries t') ≡ₚ live (entries t) /\ prefix t' = prefix t
  | Some RetryAfterGC => exists c, allocates c = false
  | Some OutOfMemoryException => kMaxCapacity < limit
  end.

Lemma ok_same_elements k k' t t' :
  table_ok k t -> table_ok k' t' -> live (entries t') ≡ₚ live (entries t) -> NumberOfElements t' = NumberOfElements t.
Proof. intros [] [] Hl. by rewrite ok_elements0, ok_elements1, Hl. Qed.

Lemma rehash_for_spec k (t : HashTable) n key :
  table_ok k t -> NumberOfElements t <= n <= 2 ^ 29 ->
  resized (Z.max 32 (n * 4)) (fun t' => Z.max 32 (n * 2) <= Capacity t' /\ NumberOfDeletedElements t' = 0) t (rehash_for t n key).
Proof.
  intros Hok Hn. unfold rehash_for. assert (H0n : 0 <= NumberOfElements t) by (rewrite (ok_elements _ _ Hok); lia).
  pose proof (Allocate_spec n ltac:(lia)) as Ha. destruct (Allocate n) as [new_table| |]; [|done|done].
  destruct Ha as (k' & Hk' & -> & Hle). assert (H32 : 2 ^ 5 <= 2 ^ k') by (apply Z.pow_le_mono_r; lia). change (2 ^ 5) with 32 in H32.
  destruct (Rehash_spec k k' t key Hok) as (t' & -> & Hok' & Hlive & Hpre & Hnod); [lia|lia|]. cbn.
  split; [by exists k'|]. split; [|done]. rewrite (ok_capacity _ _ Hok'). split; [lia|done].
Qed.

Lemma EnsureCapacity_spec k (t : HashTable) n key :
  table_ok k t -> 0 <= n <= 2 ^ 26 ->
  resized (Z.max 32 ((NumberOfElements t + n) * 8))
    (fun t' => NumberOfElements t' + n + NumberOfDeletedElements t' < Capacity t') t (EnsureCapacity t n key).
Proof.
  intros Hok Hn. unfold EnsureCapacity. assert (Hnof : 0 <= NumberOfElements t <= 2 ^ 27).
  { destruct Hok as [Hk _ Hlen Hnof _ _ _]. rewrite Hnof. pose proof (live_length (entries t)).
    assert (2 ^ k <= 2 ^ 27) by (apply Z.pow_le_mono_r; lia). lia. }
  rewrite !Z.shiftr_div_pow2 by lia. change (2 ^ 1) with 2.
  destruct (_ && _) eqn:Hroom.
  - apply andb_true_iff in Hroom as [Hnod%Z.leb_le Hfree%Z.leb_le]. split; [by exists k|]. split; [|done].
    assert (Hcap : 2 ^ 5 <= Capacity t). { rewrite (ok_capacity _ _ Hok). apply Z.pow_le_mono_r; [lia|]. apply (ok_exponent _ _ Hok). }
    change (2 ^ 5) with 32 in Hcap.
    pose proof (Z_div_mod_eq_full (Capacity t - (NumberOfElements t + n)) 2).
    pose proof (Z.mod_pos_bound (Capacity t - (NumberOfElements t + n)) 2 ltac:(lia)).
    pose proof (Z_div_mod_eq_full (NumberOfElements t + n) 2). pose proof (Z.mod_pos_bound (NumberOfElements t + n) 2 ltac:(lia)). lia.
  - pose proof (rehash_for_spec k t ((NumberOfElements t + n) * 2) key Hok ltac:(lia)) as Hr.
    destruct (rehash_for _ _ _) as [[t'| |]|]; cbn in *; [|done| |done].
    + destruct Hr as ([k' Hok'] & [Hcap Hnod] & Hlive & Hpre). split; [by exists k'|]. split; [|done].
      rewrite (ok_same_elements k k' t t') by done. lia.
    + replace ((NumberOfElements t + n) * 8) with ((NumberOfElements t + n) * 2 * 4) by lia. done.
Qed.

Lemma Shrink_spec k (t : HashTable) key :
  table_ok k t -> room t -> resized (Z.max 32 (NumberOfElements t * 4)) room t (Shrink t key).
Proof.
  intros Hok Hroom. unfold Shrink. assert (Hnof : 0 <= NumberOfElements t <= 2 ^ 27).
  { destruct Hok as [Hk _ Hlen Hnof _ _ _]. rewrite Hnof. pose proof (live_length (entries t)).
    assert (2 ^ k <= 2 ^ 27) by (apply Z.pow_le_mono_r; lia). lia. }
  assert (Hsame : resized (Z.max 32 (NumberOfElements t * 4)) room t (Some (Success t))) by (split; [by exists k|done]).
  destruct (_ <? _); [done|]. destruct (_ <? 16); [done|].
  pose proof (rehash_for_spec k t (NumberOfElements t) key Hok ltac:(lia)) as Hr.
  destruct (rehash_for _ _ _) as [[t'| |]|]; cbn in *; [|done|done|done].
  destruct Hr as ([k' Hok'] & [Hcap Hnod] & Hlive & Hpre). split; [by exists k'|]. split; [|done]. unfold room.
  rewrite (ok_same_elements k k' t t') by done. lia.
Qed.


(** ** Operations on an entry *)

Lemma live_split es p e :
  es !! p = Some e -> exists rest, live es ≡ₚ live_of e ++ rest /\ forall e', live (<[p := e']> es) ≡ₚ live_of e' ++ rest.
Proof.
  intros He. exists (live (take p es) ++ live (drop (S p) es)). split.
  - rewrite <- (take_drop_middle es p e He) at 1. rewrite live_app, live_cons. solve_Permutation.
  - intros e'. rewrite insert_take_drop by (by eapply lookup_lt_Some). rewrite live_app, live_cons. solve_Permutation.
Qed.

(** The map of a list of keys with payloads. *)
Definition map_of (l : list (Obj * P)) : gmap I P := list_to_map ((fun e => (object_ident e.1, e.2)) <$> l).

Lemma idents_fst l : ((fun e : Obj * P => (object_ident e.1, e.2)) <$> l).*1 = idents l.
Proof. unfold idents. by rewrite <- list_fmap_compose. Qed.

Lemma map_of_Permutation l l' : NoDup (idents l) -> l ≡ₚ l' -> map_of l = map_of l'.
Proof. intros Hnd Hp. apply list_to_map_proper; [by rewrite idents_fst|by rewrite Hp]. Qed.

Lemma map_of_lookup_None l i : map_of l !! i = None <-> i ∉ idents l.
Proof. unfold map_of. rewrite <- not_elem_of_list_to_map, idents_fst. done. Qed.

Lemma map_of_cons o x l : map_of ((o, x) :: l) = <[object_ident o := x]> (map_of l).
Proof. done. Qed.

Lemma contents_add (t t' : HashTable) o x :
  NoDup (idents (live (entries t'))) -> live (entries t') ≡ₚ (o, x) :: live (entries t) ->
  contents t' = <[object_ident o := x]> (contents t).
Proof. intros Hnd Hp. unfold contents. fold (map_of (live (entries t'))). rewrite (map_of_Permutation _ _ Hnd Hp). done. Qed.

Lemma contents_delete (t t' : HashTable) o x :
  NoDup (idents (live (entries t))) -> live (entries t) ≡ₚ (o, x) :: live (entries t') ->
  contents t' = delete (object_ident o) (contents t).
Proof.
  intros Hnd Hp. rewrite (contents_add t' t o x Hnd Hp), delete_insert_id; [done|].
  unfold idents in Hnd. rewrite Hp in Hnd. cbn in Hnd. apply NoDup_cons in Hnd as [Hnew _]. by apply map_of_lookup_None.
Qed.

(** A table after the entry of a key was changed. *)
Lemma update_slot k t p o o' x x' :
  table_ok k t -> entries t !! p = Some (object o, x) -> object_ident o' = object_ident o ->
  let t' := set_entries (<[p := (object o', x')]> (entries t)) t in
  table_ok k t' /\ contents t' = <[object_ident o := x']> (contents t)
  /\ (exists rest, live (entries t) ≡ₚ (o, x) :: rest /\ live (entries t') ≡ₚ (o', x') :: rest).
Proof.
  intros [Hk Hcap Hlen Hnof Hnod Hreach Hnd] Hp Hid t'. destruct (live_split (entries t) p _ Hp) as (rest & Hlive & Hlive').
  specialize (Hlive' (object o', x')). cbn [live_of fst snd app] in Hlive, Hlive'.
  assert (Hids : idents (live (entries t')) ≡ₚ idents (live (entries t))).
  { unfold t', idents. cbn [entries set_entries]. rewrite Hlive, Hlive'. cbn. by rewrite Hid. }
  pose proof (nulls_insert (entries t) p _ (object o', x') Hp) as Hnull. cbn in Hnull.
  split; [split; unfold t'; cbn [Capacity entries NumberOfElements NumberOfDeletedElements set_entries]|split].
  - done.
  - done.
  - by rewrite length_insert.
  - by rewrite Hlive', Hnof, Hlive.
  - lia.
  - apply (reaching_insert k _ p (object o, x)); [done|done|done|]. intros o'' [= <-]. rewrite Hid. by eapply Hreach.
  - change (NoDup (idents (live (entries t')))). by rewrite Hids.
  - assert (Hnd' : NoDup (idents (live (entries t')))) by by rewrite Hids.
    unfold contents. fold (map_of (live (entries t'))). fold (map_of (live (entries t))).
    rewrite (map_of_Permutation _ _ Hnd' Hlive'), (map_of_Permutation _ _ Hnd Hlive), !map_of_cons, Hid. by rewrite insert_insert_eq.
  - by exists rest.
Qed.

(** A table after the entry of a key was deleted. *)
Lemma delete_slot k t p o x x' :
  table_ok k t -> room t -> entries t !! p = Some (object o, x) ->
  let t' := ElementRemoved (set_entries (<[p := (null, x')]> (entries t)) t) in
  table_ok k t' /\ room t' /\ contents t' = delete (object_ident o) (contents t)
  /\ live (entries t) ≡ₚ (o, x) :: live (entries t').
Proof.
  intros [Hk Hcap Hlen Hnof Hnod Hreach Hnd] Hroom Hp t'. destruct (live_split (entries t) p _ Hp) as (rest & Hlive & Hlive').
  specialize (Hlive' (null, x')). cbn [live_of fst snd app] in Hlive, Hlive'.
  pose proof (nulls_insert (entries t) p _ (null, x') Hp) as Hnull. cbn in Hnull.
  assert (Hl : live (entries t) ≡ₚ (o, x) :: live (entries t')). { unfold t'. cbn [entries set_entries ElementRemoved ElementsRemoved SetNumberOfElements SetNumberOfDeletedElements]. by rewrite Hlive'. }
  split; [split; unfold t'; cbn [Capacity entries NumberOfElements NumberOfDeletedElements set_entries ElementRemoved ElementsRemoved SetNumberOfElements SetNumberOfDeletedElements]|].
  - done.
  - done.
  - by rewrite length_insert.
  - rewrite Hlive', Hnof, Hlive. cbn [length]. lia.
  - lia.
  - apply (reaching_insert k _ p (object o, x)); [done|done|done|by intros ? ?].
  - rewrite Hlive'. unfold idents in *. rewrite Hlive in Hnd. cbn in Hnd. by apply NoDup_cons in Hnd as [_ ?].
  - split; [unfold room, t' in *; cbn in *; lia|]. split; [by apply (contents_delete t t' o x)|done].
Qed.

(** A table after a key was added, in the entry that was found for it. *)
Lemma add_slot k t o x :
  table_ok k t -> NumberOfElements t + 1 + NumberOfDeletedElements t < Capacity t -> contents t !! object_ident o = None ->
  exists p e, FindInsertionEntry t (hash_of (object_ident o)) = Some (Z.of_nat p) /\ entries t !! p = Some e
  /\ let t' := ElementAdded (set_entries (<[p := (object o, x)]> (entries t)) t) in
     table_ok k t' /\ room t' /\ contents t' = <[object_ident o := x]> (contents t) /\ live (entries t') ≡ₚ (o, x) :: live (entries t).
Proof.
  intros Hok Hroom Hnew. pose proof (table_slots k t Hok) as Hslots. destruct Hok as [Hk Hcap Hlen Hnof Hnod Hreach Hnd].
  destruct (FindInsertionEntry_spec k t (hash_of (object_ident o)) Hslots) as (p & e & Hfind & He & Hkey & Hr); [lia|].
  exists p, e. split; [done|]. split; [done|]. intros t'. fold (map_of (live (entries t))) in Hnew. apply map_of_lookup_None in Hnew.
  destruct (insert_slots k t p e o x Hslots He Hkey Hr Hnew) as ([S1 S2 S3 S4 S5] & Hlive & Hnull). cbn [entries set_entries] in *.
  assert (Hok' : table_ok k t').
  { split; unfold t'; cbn [Capacity entries NumberOfElements NumberOfDeletedElements set_entries ElementAdded SetNumberOfElements];
      [done|done|done|rewrite Hlive; cbn [length]; lia|lia|done|done]. }
  split; [done|]. split; [unfold room, t'; cbn; lia|]. split; [apply contents_add; [apply Hok'|done]|done].
Qed.

(** The entry that is found. *)
Lemma FindEntry_found k (t : HashTable) key x :
  table_ok k t -> room t -> contents t !! ident key = Some x ->
  exists p o, FindEntry t key = Some (Z.of_nat p) /\ entries t !! p = Some (object o, x) /\ object_ident o = ident key.
Proof.
  intros Hok Hroom Hx. destruct (FindEntry_spec k t key Hok Hroom) as [(p & o & y & Hf & Hp & Hid)|[_ Hnone]]; [|congruence].
  exists p, o. split; [done|]. assert (Hy : contents t !! ident key = Some y) by (apply contents_lookup; [apply Hok|by exists p, o]).
  by replace y with x in Hp by congruence.
Qed.

Lemma FindEntry_missing k (t : HashTable) key :
  table_ok k t -> room t -> contents t !! ident key = None -> FindEntry t key = Some kNotFound.
Proof.
  intros Hok Hroom Hx. destruct (FindEntry_spec k t key Hok Hroom) as [(p & o & y & Hf & Hp & Hid)|[? _]]; [|done].
  assert (Hy : contents t !! ident key = Some y) by (apply contents_lookup; [apply Hok|by exists p, o]). congruence.
Qed.
End table.
