(* ===== verification/StringHash.v ===== *)
(** * StringHash: the hashes of strings

    Models [StringHasher], [String::ComputeHashField], [HashSequentialString], [String::Hash],
    [String::AsArrayIndex] and [TwoCharHashTableKey] of src/objects.cc, objects-inl.h and objects.h.  A string is the
    list of its characters with its hash field, which keeps the hash, or the number itself when the string
    is an array index.  [NumberDictionaryShape] uses [ComputeIntegerHash] of utils.h. *)

From S2P Require Import Prelude.
Local Open Scope Z_scope.

(** ** The hash field *)

Definition kHashNotComputedMask : Z := 1.
Definition kIsNotArrayIndexMask : Z := Z.shiftl 1 1.
Definition kNofHashBitFields : Z := 2.
Definition kHashShift : Z := kNofHashBitFields.
Definition kMaxArrayIndexSize : Z := 10.
Definition kMaxCachedArrayIndexLength : Z := 7.
Definition kArrayIndexValueBits : Z := 24.
Definition kArrayIndexHashLengthShift : Z := kArrayIndexValueBits + kNofHashBitFields.
Definition kArrayIndexHashMask : Z := Z.shiftl 1 kArrayIndexHashLengthShift - 1.
Definition kEmptyHashField : Z := Z.lor kIsNotArrayIndexMask kHashNotComputedMask.
Definition kMaxHashCalcLength : Z := 16383.

(** ** The hasher *)

Record StringHasher := MkHasher {
  length_ : Z;
  raw_running_hash_ : Z;
  array_index_ : Z;
  is_array_index_ : bool
}.

Definition StringHasher_new (length : Z) : StringHasher :=
  MkHasher length 0 0 ((0 <? length) && (length <=? kMaxArrayIndexSize)).

Definition has_trivial_hash (h : StringHasher) : bool := kMaxHashCalcLength <? length_ h.

Definition mix (raw c : Z) : Z :=
  let raw := uint 32 (uint 32 (raw + c) * 1025) in Z.lxor raw (Z.shiftr raw 6).

Definition AddCharacter (c : Z) (h : StringHasher) : StringHasher :=
  let raw := mix (raw_running_hash_ h) c in
  if is_array_index_ h then
    let digit := uint 32 (c - 48) in
    if (9 <? digit) || (uint 32 (429496729 - Z.shiftr (uint 32 (digit + 2)) 3) <? array_index_ h) then
      MkHasher (length_ h) raw (array_index_ h) false
    else
      let array_index := uint 32 (array_index_ h * 10 + digit) in
      MkHasher (length_ h) raw array_index (negb ((array_index =? 0) && (1 <? length_ h)))
  else MkHasher (length_ h) raw (array_index_ h) false.

Definition AddCharacterNoIndex (c : Z) (h : StringHasher) : StringHasher :=
  MkHasher (length_ h) (mix (raw_running_hash_ h) c) (array_index_ h) (is_array_index_ h).

Definition finish (raw : Z) : Z :=
  let result := uint 32 (raw + Z.shiftl raw 3) in
  let result := Z.lxor result (Z.shiftr result 11) in
  let result := uint 32 (result + Z.shiftl result 15) in
  if result =? 0 then 27 else result.

Definition GetHash (h : StringHasher) : Z := finish (raw_running_hash_ h).

Definition MakeArrayIndexHash (value length : Z) : Z :=
  Z.lor (uint 32 (Z.shiftl value kHashShift)) (uint 32 (Z.shiftl length kArrayIndexHashLengthShift)).

Definition GetHashField (h : StringHasher) : Z :=
  if length_ h <=? kMaxHashCalcLength then
    if is_array_index_ h then MakeArrayIndexHash (array_index_ h) (length_ h)
    else Z.lor (uint 32 (Z.shiftl (GetHash h) kHashShift)) kIsNotArrayIndexMask
  else Z.lor (uint 32 (Z.shiftl (length_ h) kHashShift)) kIsNotArrayIndexMask.

(** The two loops: as long as there is a chance that this is an index, and the rest. *)
Fixpoint hash_loop (s : list Z) (h : StringHasher) : StringHasher :=
  match s with
  | [] => h
  | c :: s' =>
      if is_array_index_ h then hash_loop s' (AddCharacter c h)
      else fold_left (fun h c => AddCharacterNoIndex c h) s h
  end.

(** [HashSequentialString] and [ComputeHashField]; the length is that of the characters. *)
Definition ComputeHashField (s : list Z) : Z :=
  let hasher := StringHasher_new (Z.of_nat (length s)) in
  if has_trivial_hash hasher then GetHashField hasher else GetHashField (hash_loop s hasher).

(** ** Strings *)

Record String := MkString { chars : list Z; hash_field : Z }.

Definition IsHashFieldComputed (field : Z) : bool := Z.land field kHashNotComputedMask =? 0.

(** The hash, with the field that it stores. *)
Definition ComputeAndSetHash (s : String) : Z * String :=
  let field := ComputeHashField (chars s) in (Z.shiftr field kHashShift, MkString (chars s) field).

Definition Hash (s : String) : Z * String :=
  if IsHashFieldComputed (hash_field s) then (Z.shiftr (hash_field s) kHashShift, s) else ComputeAndSetHash s.

(** The loop over the characters behind the first one. *)
Fixpoint index_loop (s : list Z) (result : Z) : option Z :=
  match s with
  | [] => Some result
  | c :: s =>
      let d := c - 48 in
      if (d <? 0) || (9 <? d) then None
      else if (429496729 - (if 5 <? d then 1 else 0)) <? result then None
      else index_loop s (uint 32 (result * 10 + d))
  end.

Definition ComputeArrayIndex (s : list Z) : option Z :=
  let len := Z.of_nat (length s) in
  if (len =? 0) || (kMaxArrayIndexSize <? len) then None
  else
    match s with
    | [] => None
    | ch :: s =>
        if ch =? 48 then (if len =? 1 then Some 0 else None)
        else
          let d := ch - 48 in
          if (d <? 0) || (9 <? d) then None else index_loop s d
    end.

Definition SlowAsArrayIndex (s : String) : option Z * String :=
  if Z.of_nat (length (chars s)) <=? kMaxCachedArrayIndexLength then
    let '(_, s) := Hash s in
    let field := hash_field s in
    if negb (Z.land field kIsNotArrayIndexMask =? 0) then (None, s)
    else (Some (Z.shiftr (Z.land kArrayIndexHashMask field) kHashShift), s)
  else (ComputeArrayIndex (chars s), s).

Definition AsArrayIndex (s : String) : option Z * String :=
  let field := hash_field s in
  if IsHashFieldComputed field && negb (Z.land field kIsNotArrayIndexMask =? 0) then (None, s) else SlowAsArrayIndex s.

(** ** Other hashes *)

(** The constructor of [TwoCharHashTableKey], with the loop of the hasher unrolled. *)
Definition TwoCharHashTableKey (c1 c2 : Z) : Z :=
  let hash := uint 32 (c1 + Z.shiftl c1 10) in
  let hash := Z.lxor hash (Z.shiftr hash 6) in
  let hash := uint 32 (hash + c2) in
  let hash := uint 32 (hash + Z.shiftl hash 10) in
  let hash := Z.lxor hash (Z.shiftr hash 6) in
  let hash := uint 32 (hash + Z.shiftl hash 3) in
  let hash := Z.lxor hash (Z.shiftr hash 11) in
  let hash := uint 32 (hash + Z.shiftl hash 15) in
  if hash =? 0 then 27 else hash.

Definition ComputeIntegerHash (key : Z) : Z :=
  let hash := uint 32 key in
  let hash := uint 32 (Z.lnot hash + Z.shiftl hash 15) in
  let hash := Z.lxor hash (Z.shiftr hash 12) in
  let hash := uint 32 (hash + Z.shiftl hash 2) in
  let hash := Z.lxor hash (Z.shiftr hash 4) in
  let hash := uint 32 (hash * 2057) in
  Z.lxor hash (Z.shiftr hash 16).

(** ** Specification *)

(** The decimal numeral of a number of at most [n] digits, without leading zeros. *)
Fixpoint digits (n : nat) (x : Z) (acc : list Z) : list Z :=
  match n with
  | O => acc
  | S n => let acc := (48 + x mod 10) :: acc in if x <? 10 then acc else digits n (x / 10) acc
  end.

Definition decimal (x : Z) : list Z := digits 10 x [].

(** The hash field is computed or it is not. *)
Definition well_hashed (s : String) : Prop := hash_field s = kEmptyHashField \/ hash_field s = ComputeHashField (chars s).

(** A lower-case identifier whose hash is 0, although [GetHash] avoids 0: the two highest bits are shifted out of the field. *)
Example Hash_zero :
  fst (Hash (MkString [100; 109; 111; 97; 118; 97] kEmptyHashField)) = 0.
Proof. vm_compute. reflexivity. Qed.

(** ** Numerals *)

Lemma digits_app n x acc : digits n x acc = digits n x [] ++ acc.
Proof.
  revert x acc. induction n as [|n IH]; intros x acc; [done|]. cbn [digits]. destruct (x <? 10); [done|].
  rewrite (IH (x / 10) (_ :: acc)), (IH (x / 10) [_]), <- app_assoc. done.
Qed.

Lemma digits_S n x acc :
  digits (S n) x acc = if x <? 10 then (48 + x mod 10) :: acc else digits n (x / 10) [] ++ (48 + x mod 10) :: acc.
Proof. cbn [digits]. destruct (x <? 10); [done|]. apply digits_app. Qed.

Lemma digits_more n x : 0 <= x < 10 ^ Z.of_nat n -> (0 < n)%nat -> digits (S n) x [] = digits n x [].
Proof.
  revert x. induction n as [|n IH]; intros x Hx Hn; [lia|]. rewrite (digits_S (S n) x []), (digits_S n x []). destruct (Z.ltb_spec x 10); [done|].
  f_equal. destruct n as [|n]; [cbn in Hx; lia|]. apply IH; [|lia]. split; [apply Z.div_pos; lia|].
  apply Z.div_lt_upper_bound; [lia|]. rewrite <- Z.pow_succ_r by lia. rewrite <- Nat2Z.inj_succ. lia.
Qed.

Lemma divide_ten r d : 0 <= d < 10 -> (r * 10 + d) / 10 = r /\ (r * 10 + d) mod 10 = d.
Proof.
  intros Hd. split; [symmetry; apply Z.div_unique with d; lia|symmetry; apply Z.mod_unique with r; lia].
Qed.

Lemma numeral_snoc r d : 0 < r -> 0 <= d < 10 -> r * 10 + d < 2 ^ 32 -> decimal (r * 10 + d) = decimal r ++ [48 + d].
Proof.
  intros Hr Hd Hmax. unfold decimal. destruct (divide_ten r d Hd) as [Hq Hm].
  rewrite (digits_S 9), (proj2 (Z.ltb_ge _ _)), Hq, Hm by lia. f_equal. symmetry. apply digits_more; [|lia].
  change (10 ^ Z.of_nat 9) with 1000000000. lia.
Qed.

Lemma decimal_small d : 0 <= d < 10 -> decimal d = [48 + d].
Proof.
  intros Hd. unfold decimal. rewrite digits_S, (proj2 (Z.ltb_lt _ _)) by lia. by rewrite Z.mod_small.
Qed.

Lemma digits_length n x acc : (length (digits n x acc) <= n + length acc)%nat.
Proof.
  revert x acc. induction n as [|n IH]; intros x acc; cbn [digits]; [lia|]. destruct (x <? 10); cbn [length]; [lia|].
  specialize (IH (x / 10) ((48 + x mod 10) :: acc)). cbn [length] in IH. lia.
Qed.

(** ** The loop computes the number of a numeral *)

Lemma index_loop_app s s' r : index_loop (s ++ s') r = (r' ← index_loop s r; index_loop s' r').
Proof.
  revert r. induction s as [|c s IH]; intros r; cbn [index_loop app]; [done|].
  destruct (_ || _); [done|]. destruct (_ <? _); [done|]. apply IH.
Qed.

(** One character more. *)
Lemma index_step c r n s :
  0 <= r < 2 ^ 32 -> index_loop (c :: s) r = Some n <->
  0 <= c - 48 <= 9 /\ r * 10 + (c - 48) < 2 ^ 32 /\ index_loop s (r * 10 + (c - 48)) = Some n.
Proof.
  intros Hr. cbn [index_loop].
  assert (Hlim : 0 <= c - 48 <= 9 -> ((429496729 - (if 5 <? c - 48 then 1 else 0)) <? r) = negb (r * 10 + (c - 48) <? 2 ^ 32)).
  { intros Hc. destruct (Z.ltb_spec 5 (c - 48)), (Z.ltb_spec (r * 10 + (c - 48)) (2 ^ 32)); cbn [negb];
      (apply Z.ltb_lt || apply Z.ltb_ge); lia. }
  destruct (Z.ltb_spec (c - 48) 0), (Z.ltb_spec 9 (c - 48)); cbn [orb]; try (split; [done|lia]).
  rewrite Hlim by lia. destruct (Z.ltb_spec (r * 10 + (c - 48)) (2 ^ 32)); cbn [negb]; [|split; [done|lia]].
  unfold uint. rewrite Z.mod_small by lia. split; [done|by intros (_ & _ & ->)].
Qed.

Lemma index_loop_decimal s r n : 0 < r < 2 ^ 32 -> index_loop s r = Some n -> decimal n = decimal r ++ s /\ 0 < n < 2 ^ 32.
Proof.
  revert r. induction s as [|c s IH]; intros r Hr.
  - intros [= <-]. by rewrite app_nil_r.
  - rewrite index_step by lia. intros (Hc & Hmax & Hn). destruct (IH (r * 10 + (c - 48)) ltac:(lia) Hn) as [-> Hb]. split; [|done].
    rewrite numeral_snoc by lia. rewrite <- app_assoc. by replace (48 + (c - 48)) with c by lia.
Qed.

Lemma decimal_index_loop n :
  0 < n < 2 ^ 32 -> exists c s, decimal n = c :: s /\ 1 <= c - 48 <= 9 /\ index_loop s (c - 48) = Some n.
Proof.
  intros Hn. induction n as [n IH] using (well_founded_ind (Z.lt_wf 0)). destruct (Z.ltb_spec n 10).
  - rewrite decimal_small by lia. exists (48 + n), []. split; [done|]. split; [lia|]. cbn [index_loop]. f_equal. lia.
  - pose proof (Z_div_mod_eq_full n 10). pose proof (Z.mod_pos_bound n 10 ltac:(lia)). set (r := n / 10) in *. set (d := n mod 10) in *.
    destruct (IH r ltac:(lia) ltac:(lia)) as (c & s & E & Hc & Hloop).
    exists c, (s ++ [48 + d]). replace n with (r * 10 + d) at 1 by lia. rewrite numeral_snoc, E by lia. split; [done|]. split; [done|].
    rewrite index_loop_app, Hloop. cbn [mbind option_bind]. apply index_step; [lia|]. replace (48 + d - 48) with d by lia.
    split; [lia|]. split; [lia|]. cbn [index_loop]. f_equal. lia.
Qed.

(** [ComputeArrayIndex] accepts the numerals of the numbers of 32 bits. *)
Lemma ComputeArrayIndex_spec s n : ComputeArrayIndex s = Some n <-> 0 <= n < 2 ^ 32 /\ s = decimal n.
Proof.
  split.
  - unfold ComputeArrayIndex. destruct (_ || _); [done|]. destruct s as [|ch s]; [done|]. destruct (Z.eqb_spec ch 48) as [->|Hne].
    + destruct s as [|c s]; cbn [length].
      * intros [= <-]. by split.
      * rewrite (proj2 (Z.eqb_neq _ _)) by lia. done.
    + destruct (Z.ltb_spec (ch - 48) 0), (Z.ltb_spec 9 (ch - 48)); cbn [orb]; try done.
      intros Hn. apply index_loop_decimal in Hn as [E Hb]; [|lia]. split; [lia|]. rewrite E, decimal_small by lia.
      cbn. f_equal. lia.
  - intros [Hn ->]. unfold ComputeArrayIndex. pose proof (digits_length 10 n []) as Hlen. change (digits 10 n []) with (decimal n) in Hlen.
    cbn [length Nat.add] in Hlen. destruct (Z.eq_dec n 0) as [->|Hn0]; [done|].
    destruct (decimal_index_loop n ltac:(lia)) as (c & s & E & Hc & Hloop). rewrite E in *. cbn [length] in *.
    rewrite (proj2 (Z.eqb_neq _ 0)), (proj2 (Z.ltb_ge kMaxArrayIndexSize _)) by (unfold kMaxArrayIndexSize; lia). cbn [orb].
    rewrite (proj2 (Z.eqb_neq c 48)), (proj2 (Z.ltb_ge (c - 48) 0)), (proj2 (Z.ltb_ge 9 (c - 48))) by lia. done.
Qed.

(** ** The hasher finds the same index *)

Lemma fold_no_index s h :
  length_ (fold_left (fun h c => AddCharacterNoIndex c h) s h) = length_ h
  /\ is_array_index_ (fold_left (fun h c => AddCharacterNoIndex c h) s h) = is_array_index_ h.
Proof. revert h. induction s as [|c s IH]; intros h; [done|]. cbn [fold_left]. destruct (IH (AddCharacterNoIndex c h)) as [-> ->]. done. Qed.

(** What the hasher knows of the index: [None] when the characters are none. *)
Definition index_of (h : StringHasher) : option Z := if is_array_index_ h then Some (array_index_ h) else None.

Lemma hash_loop_stopped s h :
  is_array_index_ h = false -> length_ (hash_loop s h) = length_ h /\ index_of (hash_loop s h) = None.
Proof.
  intros Hi. unfold index_of. destruct s as [|c s]; cbn [hash_loop]; [by rewrite Hi|]. rewrite Hi.
  destruct (fold_no_index (c :: s) h) as [-> ->]. by rewrite Hi.
Qed.

Definition is_char (c : Z) : Prop := 0 <= c < 2 ^ 16.

Lemma char_digit c : is_char c -> (9 <? uint 32 (c - 48)) = (c - 48 <? 0) || (9 <? c - 48) /\ (0 <= c - 48 -> uint 32 (c - 48) = c - 48).
Proof.
  intros Hc. unfold is_char, uint in *. destruct (Z.ltb_spec (c - 48) 0) as [Hneg|Hpos]; cbn [orb].
  - split; [|lia]. apply Z.ltb_lt. rewrite <- (Z_mod_plus_full (c - 48) 1), Z.mod_small by lia. lia.
  - by rewrite Z.mod_small by lia.
Qed.

(** The test for the overflow is that of [ComputeArrayIndex]. *)
Lemma digit_limit d : 0 <= d <= 9 -> uint 32 (429496729 - Z.shiftr (uint 32 (d + 2)) 3) = 429496729 - (if 5 <? d then 1 else 0).
Proof.
  intros Hd. assert (d = 0 \/ d = 1 \/ d = 2 \/ d = 3 \/ d = 4 \/ d = 5 \/ d = 6 \/ d = 7 \/ d = 8 \/ d = 9) as Hcases by lia.
  repeat destruct Hcases as [->|Hcases]; try subst d; reflexivity.
Qed.

Lemma hash_loop_index s h :
  Forall is_char s -> is_array_index_ h = true -> 0 < array_index_ h < 2 ^ 32 ->
  length_ (hash_loop s h) = length_ h /\ index_of (hash_loop s h) = index_loop s (array_index_ h).
Proof.
  intros Hs. revert h. induction Hs as [|c s Hc _ IH]; intros h Hi Hb; cbn [hash_loop index_loop].
  { unfold index_of. by rewrite Hi. }
  rewrite Hi. destruct (char_digit c Hc) as [Hdigit Hid]. unfold AddCharacter. rewrite Hi, Hdigit.
  destruct ((c - 48 <? 0) || (9 <? c - 48)) eqn:Hd; cbn [orb].
  { destruct (hash_loop_stopped s (MkHasher (length_ h) (mix (raw_running_hash_ h) c) (array_index_ h) false) eq_refl) as [-> ->]. done. }
  apply orb_false_iff in Hd as [H0%Z.ltb_ge H9%Z.ltb_ge]. rewrite Hid, digit_limit by lia.
  destruct (_ <? array_index_ h) eqn:Hlim.
  { destruct (hash_loop_stopped s (MkHasher (length_ h) (mix (raw_running_hash_ h) c) (array_index_ h) false) eq_refl) as [-> ->]. done. }
  apply Z.ltb_ge in Hlim. assert (Hmax : array_index_ h * 10 + (c - 48) < 2 ^ 32) by (destruct (Z.ltb_spec 5 (c - 48)); lia).
  unfold uint. rewrite Z.mod_small by lia. rewrite (proj2 (Z.eqb_neq _ 0)) by lia. cbn [andb negb].
  apply (IH (MkHasher _ _ _ true)); cbn [array_index_]; [done|lia].
Qed.

(** The field of a string that is an index, and of one that is none. *)
Lemma hash_loop_spec s :
  Forall is_char s -> let h := hash_loop s (StringHasher_new (Z.of_nat (length s))) in
  length_ h = Z.of_nat (length s) /\ index_of h = ComputeArrayIndex s.
Proof.
  intros Hs. unfold StringHasher_new, ComputeArrayIndex. set (len := Z.of_nat (length s)).
  destruct ((0 <? len) && (len <=? kMaxArrayIndexSize)) eqn:Hlen; cbv zeta.
  2: { assert (Hor : (len =? 0) || (kMaxArrayIndexSize <? len) = true).
       { apply andb_false_iff in Hlen as [Hl%Z.ltb_ge|Hl%Z.leb_gt]; apply orb_true_iff; [left; apply Z.eqb_eq; lia|right; by apply Z.ltb_lt]. }
       rewrite Hor. by apply hash_loop_stopped. }
  apply andb_true_iff in Hlen as [H0%Z.ltb_lt Hmax%Z.leb_le].
  rewrite (proj2 (Z.eqb_neq len 0)), (proj2 (Z.ltb_ge kMaxArrayIndexSize len)) by lia. cbn [orb].
  destruct Hs as [|c s Hc Hs]; [done|]. cbn [hash_loop is_array_index_]. unfold AddCharacter. cbn [is_array_index_ array_index_ length_ raw_running_hash_].
  destruct (char_digit c Hc) as [Hdigit Hid]. rewrite Hdigit.
  destruct ((c - 48 <? 0) || (9 <? c - 48)) eqn:Hd; cbn [orb].
  { destruct (hash_loop_stopped s (MkHasher len (mix 0 c) 0 false) eq_refl) as [-> ->]. split; [done|].
    apply orb_true_iff in Hd. rewrite (proj2 (Z.eqb_neq c 48)); [done|]. destruct Hd as [Hd%Z.ltb_lt|Hd%Z.ltb_lt]; lia. }
  pose proof Hd as Hd'. apply orb_false_iff in Hd' as [Hlo%Z.ltb_ge Hhi%Z.ltb_ge]. rewrite Hid, digit_limit by lia.
  rewrite (proj2 (Z.ltb_ge _ 0)) by (destruct (5 <? c - 48); lia). rewrite Z.mul_0_l, Z.add_0_l. unfold uint. rewrite Z.mod_small by lia.
  destruct (Z.eqb_spec (c - 48) 0) as [Hzero|Hnz]; cbn [andb].
  - rewrite (proj2 (Z.eqb_eq c 48)) by lia. destruct (Z.ltb_spec 1 len) as [Hlong|Hshort]; cbn [negb].
    + rewrite (proj2 (Z.eqb_neq len 1)) by lia. by apply (hash_loop_stopped s (MkHasher len _ _ false)).
    + rewrite (proj2 (Z.eqb_eq len 1)) by lia. destruct s; [|unfold len in *; cbn [length] in *; lia]. unfold index_of. cbn. by rewrite Hzero.
  - rewrite (proj2 (Z.eqb_neq c 48)) by lia. apply (hash_loop_index s (MkHasher len _ _ true)); [done|done|cbn [array_index_]; lia].
Qed.

(** ** The field *)

Lemma land_pow2_testbit x n : 0 <= n -> (Z.land x (2 ^ n) =? 0) = negb (Z.testbit x n).
Proof.
  intros Hn. apply eq_true_iff_eq. rewrite Z.eqb_eq, negb_true_iff. split.
  - intros E. apply (f_equal (fun z => Z.testbit z n)) in E. by rewrite Z.land_spec, Z.pow2_bits_true, Z.bits_0, andb_true_r in E by done.
  - intros E. apply Z.bits_inj'. intros i Hi. rewrite Z.land_spec, Z.bits_0. destruct (Z.eqb_spec n i) as [<-|Hne]; [by rewrite E|].
    by rewrite Z.pow2_bits_false, andb_false_r by done.
Qed.

Lemma computed_testbit f : IsHashFieldComputed f = negb (Z.testbit f 0).
Proof. apply (land_pow2_testbit f 0). lia. Qed.

Lemma not_index_testbit f : negb (Z.land f kIsNotArrayIndexMask =? 0) = Z.testbit f 1.
Proof. change kIsNotArrayIndexMask with (2 ^ 1). rewrite (land_pow2_testbit f 1) by lia. apply negb_involutive. Qed.

Lemma shifted_low x k i : 0 <= i < k -> k <= 32 -> Z.testbit (uint 32 (Z.shiftl x k)) i = false.
Proof. intros Hi Hk. unfold uint. rewrite Z.mod_pow2_bits_low, Z.shiftl_spec_low by lia. done. Qed.

Lemma not_index_field x : Z.testbit (Z.lor (uint 32 (Z.shiftl x kHashShift)) kIsNotArrayIndexMask) 0 = false
  /\ Z.testbit (Z.lor (uint 32 (Z.shiftl x kHashShift)) kIsNotArrayIndexMask) 1 = true.
Proof. rewrite !Z.lor_spec, !(shifted_low _ kHashShift) by (unfold kHashShift, kNofHashBitFields; lia). done. Qed.

Lemma MakeArrayIndexHash_bits v len : Z.testbit (MakeArrayIndexHash v len) 0 = false /\ Z.testbit (MakeArrayIndexHash v len) 1 = false.
Proof.
  unfold MakeArrayIndexHash. change kHashShift with 2. change kArrayIndexHashLengthShift with 26.
  rewrite !Z.lor_spec, !(shifted_low _ 2), !(shifted_low _ 26) by lia. done.
Qed.

Lemma GetHashField_bits h :
  Z.testbit (GetHashField h) 0 = false
  /\ Z.testbit (GetHashField h) 1 = negb ((length_ h <=? kMaxHashCalcLength) && is_array_index_ h).
Proof.
  unfold GetHashField. destruct (_ <=? _); [destruct (is_array_index_ h)|]; cbn [andb negb];
    [apply MakeArrayIndexHash_bits|apply not_index_field|apply not_index_field].
Qed.

Lemma ComputeArrayIndex_length s n : ComputeArrayIndex s = Some n -> 0 < Z.of_nat (length s) <= kMaxArrayIndexSize.
Proof.
  unfold ComputeArrayIndex. destruct (_ || _) eqn:Hl; [done|]. apply orb_false_iff in Hl as [H0%Z.eqb_neq H1%Z.ltb_ge]. lia.
Qed.

(** The flags of the field. *)
Lemma ComputeHashField_bits s :
  Forall is_char s -> Z.testbit (ComputeHashField s) 0 = false
  /\ Z.testbit (ComputeHashField s) 1 = bool_decide (ComputeArrayIndex s = None).
Proof.
  intros Hs. unfold ComputeHashField. destruct (hash_loop_spec s Hs) as [Hlen Hidx]. unfold has_trivial_hash.
  destruct (Z.ltb_spec kMaxHashCalcLength (length_ (StringHasher_new (Z.of_nat (length s))))) as [Hlong|Hshort].
  - destruct (GetHashField_bits (StringHasher_new (Z.of_nat (length s)))) as [-> ->]. split; [done|]. cbn [length_ StringHasher_new] in *.
    rewrite (proj2 (Z.leb_gt _ _) Hlong). cbn [andb negb]. symmetry. apply bool_decide_eq_true_2.
    destruct (ComputeArrayIndex s) as [n|] eqn:E; [|done]. apply ComputeArrayIndex_length in E. unfold kMaxArrayIndexSize, kMaxHashCalcLength in *. lia.
  - destruct (GetHashField_bits (hash_loop s (StringHasher_new (Z.of_nat (length s))))) as [-> ->]. split; [done|].
    rewrite Hlen. cbn [length_ StringHasher_new] in Hshort. rewrite (proj2 (Z.leb_le _ _) Hshort). cbn [andb]. rewrite <- Hidx. unfold index_of.
    by destruct (is_array_index_ _).
Qed.

Lemma index_loop_bound s r n : 0 <= r < 2 ^ 32 -> index_loop s r = Some n -> 0 <= n < (r + 1) * 10 ^ Z.of_nat (length s).
Proof.
  revert r. induction s as [|c s IH]; intros r Hr.
  - intros [= <-]. cbn [length]. lia.
  - rewrite index_step by done. intros (Hc & Hmax & Hn). apply IH in Hn; [|lia]. cbn [length].
    rewrite Nat2Z.inj_succ, Z.pow_succ_r by lia. assert (0 < 10 ^ Z.of_nat (length s)) by (apply Z.pow_pos_nonneg; lia). nia.
Qed.

(** The number is in the field of a short string. *)
Lemma ComputeHashField_index s n :
  Forall is_char s -> Z.of_nat (length s) <= kMaxCachedArrayIndexLength -> ComputeArrayIndex s = Some n ->
  Z.shiftr (Z.land kArrayIndexHashMask (ComputeHashField s)) kHashShift = n.
Proof.
  intros Hs Hlen Hn. assert (Hbound : 0 <= n < 2 ^ 24).
  { apply ComputeArrayIndex_spec in Hn as Hd. destruct Hd as [Hn32 _]. unfold ComputeArrayIndex in Hn. destruct (_ || _); [done|].
    destruct s as [|ch s]; [done|]. destruct (ch =? 48); [destruct (_ =? 1); [injection Hn as <-; lia|done]|].
    destruct (_ || _) eqn:Hd; [done|]. apply orb_false_iff in Hd as [Hlo%Z.ltb_ge Hhi%Z.ltb_ge].
    apply index_loop_bound in Hn; [|lia]. unfold kMaxCachedArrayIndexLength in Hlen. cbn [length] in Hlen.
    assert (10 ^ Z.of_nat (length s) <= 10 ^ 6) by (apply Z.pow_le_mono_r; lia). change (10 ^ 6) with 1000000 in *. nia. }
  unfold ComputeHashField, has_trivial_hash. destruct (hash_loop_spec s Hs) as [Hl Hidx]. cbn [length_ StringHasher_new] in *.
  unfold kMaxCachedArrayIndexLength in Hlen. rewrite (proj2 (Z.ltb_ge kMaxHashCalcLength _)) by (unfold kMaxHashCalcLength; lia).
  unfold GetHashField. rewrite Hl, (proj2 (Z.leb_le _ kMaxHashCalcLength)) by (unfold kMaxHashCalcLength; lia).
  rewrite Hn in Hidx. unfold index_of in Hidx. destruct (is_array_index_ _); [|done]. injection Hidx as ->.
  unfold MakeArrayIndexHash. change kHashShift with 2. change kArrayIndexHashLengthShift with 26. change kArrayIndexHashMask with (Z.ones 26).
  rewrite Z.land_comm, Z.land_ones by lia. apply Z.bits_inj'. intros i Hi. rewrite Z.shiftr_spec by done.
  destruct (Z.ltb_spec i 24) as [Hlt|Hge].
  - rewrite Z.mod_pow2_bits_low, Z.lor_spec, (shifted_low _ 26), orb_false_r by lia. unfold uint.
    rewrite Z.mod_pow2_bits_low, Z.shiftl_spec by lia. f_equal. lia.
  - rewrite Z.mod_pow2_bits_high by lia. symmetry. destruct (Z.eq_dec n 0) as [->|]; [apply Z.bits_0|].
    apply Z.bits_above_log2; [lia|]. apply Z.lt_le_trans with 24; [apply Z.log2_lt_pow2; lia|done].
Qed.

(** ** Array indices *)

(** C32: [AsArrayIndex] accepts just the numerals of the numbers of 32 bits, without leading zeros, and returns the number,
    whether the hash of the string is computed, with the number in its field when it is short, or not; the string keeps
    its characters and a field that is not computed or right. *)
Theorem AsArrayIndex_correct s n :
  Forall is_char (chars s) -> well_hashed s ->
  (fst (AsArrayIndex s) = Some n <-> 0 <= n < 2 ^ 32 /\ chars s = decimal n)
  /\ chars (snd (AsArrayIndex s)) = chars s /\ well_hashed (snd (AsArrayIndex s)).
Proof.
  intros Hs Hwell. rewrite <- ComputeArrayIndex_spec. destruct (ComputeHashField_bits (chars s) Hs) as [B0 B1].
  unfold AsArrayIndex. rewrite not_index_testbit, computed_testbit.
  destruct (negb (Z.testbit (hash_field s) 0) && Z.testbit (hash_field s) 1) eqn:Hfast.
  { apply andb_true_iff in Hfast as [F0%negb_true_iff F1]. destruct Hwell as [E|E]; rewrite E in F0, F1; [done|].
    rewrite B1 in F1. apply bool_decide_eq_true_1 in F1. rewrite F1. cbn [fst snd]. split; [by split|]. split; [done|by right]. }
  unfold SlowAsArrayIndex. destruct (Z.leb_spec (Z.of_nat (length (chars s))) kMaxCachedArrayIndexLength) as [Hshort|Hlong]; [|by split].
  assert (Hhash : snd (Hash s) = MkString (chars s) (ComputeHashField (chars s))).
  { unfold Hash. rewrite computed_testbit. destruct s as [cs f]. cbn [chars hash_field] in *. destruct Hwell as [E|E]; cbn [hash_field chars] in E; subst f; [done|].
    by rewrite B0. }
  destruct (Hash s) as [h s'] eqn:EH. cbn [snd] in Hhash. subst s'. cbn [hash_field chars]. rewrite not_index_testbit, B1.
  destruct (ComputeArrayIndex (chars s)) as [m|] eqn:Em.
  - rewrite bool_decide_eq_false_2 by done. cbn [fst snd chars]. rewrite (ComputeHashField_index (chars s) m) by done. split; [done|]. split; [done|by right].
  - rewrite bool_decide_eq_true_2 by done. cbn [fst snd chars]. split; [done|]. split; [done|by right].
Qed.

Lemma AsArrayIndex_correct_witness :
  let s := MkString [52; 50; 57; 52; 57; 54; 55; 50; 57; 53] kEmptyHashField in
  (fst (AsArrayIndex s) = Some 4294967295 <-> 0 <= 4294967295 < 2 ^ 32 /\ chars s = decimal 4294967295)
  /\ fst (AsArrayIndex s) = Some 4294967295.
Proof.
  intros s. split; [|vm_compute; reflexivity]. apply (AsArrayIndex_correct s 4294967295); [|by left].
  repeat (constructor; [by vm_compute|]). constructor.
Defined.

(** ** Strings of two characters *)

Lemma mul_1025 x : x + Z.shiftl x 10 = x * 1025.
Proof. rewrite Z.shiftl_mul_pow2 by lia. lia. Qed.

(** The unrolled hash is that of the hasher. *)
Lemma TwoCharHashTableKey_spec c1 c2 :
  0 <= c1 < 2 ^ 32 -> TwoCharHashTableKey c1 c2 = GetHash (AddCharacterNoIndex c2 (AddCharacterNoIndex c1 (StringHasher_new 2))).
Proof.
  intros Hc. unfold TwoCharHashTableKey, GetHash, AddCharacterNoIndex, finish, mix. cbn [raw_running_hash_ StringHasher_new].
  assert (Hu : uint 32 c1 = c1) by by apply Z.mod_small. by rewrite !mul_1025, Z.add_0_l, Hu.
Qed.

Lemma fold_raw s h : raw_running_hash_ (fold_left (fun h c => AddCharacterNoIndex c h) s h) = fold_left mix s (raw_running_hash_ h).
Proof. revert h. induction s as [|c s IH]; intros h; [done|]. cbn [fold_left]. by rewrite IH. Qed.

Lemma AddCharacter_raw c h : raw_running_hash_ (AddCharacter c h) = mix (raw_running_hash_ h) c.
Proof. unfold AddCharacter. destruct (is_array_index_ h); [|done]. by destruct (_ || _). Qed.

Lemma hash_loop_raw s h : raw_running_hash_ (hash_loop s h) = fold_left mix s (raw_running_hash_ h).
Proof.
  revert h. induction s as [|c s IH]; intros h; cbn [hash_loop]; [done|]. destruct (is_array_index_ h).
  - by rewrite IH, AddCharacter_raw.
  - apply (fold_raw (c :: s)).
Qed.

(** The hash of a string of two characters that are no index is the unrolled one, but for the two highest bits: in a table of up to
    [2 ^ 30] entries both begin with the same probe. *)
Lemma TwoCharHashTableKey_Hash c1 c2 :
  is_char c1 -> is_char c2 -> ComputeArrayIndex [c1; c2] = None ->
  fst (ComputeAndSetHash (MkString [c1; c2] kEmptyHashField)) = TwoCharHashTableKey c1 c2 mod 2 ^ 30.
Proof.
  intros H1 H2 Hidx. rewrite TwoCharHashTableKey_spec by (unfold is_char in H1; lia). unfold ComputeAndSetHash, ComputeHashField. cbn [fst chars].
  destruct (hash_loop_spec [c1; c2]) as [Hl Hi]; [constructor; [done|constructor; [done|constructor]]|]. rewrite Hidx in Hi. unfold index_of in Hi.
  change (has_trivial_hash _) with false. cbn match. unfold GetHashField. rewrite Hl. change (Z.of_nat (length [c1; c2]) <=? kMaxHashCalcLength) with true.
  destruct (is_array_index_ _); [done|]. cbn match. unfold GetHash. rewrite hash_loop_raw.
  cbn [fold_left AddCharacterNoIndex raw_running_hash_ StringHasher_new]. generalize (finish (mix (mix 0 c1) c2)). intros g.
  change kHashShift with 2. change kIsNotArrayIndexMask with 2. apply Z.bits_inj'. intros i Hi0. rewrite Z.shiftr_spec, Z.lor_spec by done. unfold uint.
  assert (Hz : Z.testbit 2 (i + 2) = false) by (change 2 with (2 ^ 1) at 1; apply Z.pow2_bits_false; lia).
  rewrite Hz, orb_false_r. destruct (Z.ltb_spec i 30).
  - rewrite !Z.mod_pow2_bits_low, Z.shiftl_spec by lia. f_equal. lia.
  - by rewrite !Z.mod_pow2_bits_high by lia.
Qed.
