(* ===== verification/Dictionary.v ===== *)
(** * Dictionary: the dictionaries of the heap

    Models [PropertyDetails] and [Dictionary<Shape, Key>] of src/objects.h, objects-inl.h and objects.cc, on top
    of HashTable and SortPairs.  The payload of an entry is a value and the details of a property as a
    small integer of [kSmiValueSize] bits (31 or 32); the prefix is the greatest number key and the next enumeration
    index.  An operation that can change the receiver before it fails returns the receiver too. *)

From stdpp Require Import gmap.
From S2P Require Import Prelude SortPairs HashTable.
Local Open Scope Z_scope.

(** ** Details of a property *)

(** [BitField<T, shift, size>] *)
Definition kMask (shift size : Z) : Z := uint 32 (uint 32 (Z.shiftl (uint 32 (Z.shiftl 1 shift)) size) - uint 32 (Z.shiftl 1 shift)).
Definition kMax (size : Z) : Z := uint 32 (Z.shiftl 1 size - 1).
Definition is_valid (size value : Z) : bool := Z.land (uint 32 value) (uint 32 (Z.lnot (kMax size))) =? 0.
Definition encode (shift value : Z) : Z := uint 32 (Z.shiftl (uint 32 value) shift).
Definition decode (shift size value : Z) : Z := Z.shiftr (Z.land value (kMask shift size)) shift.

(** [PropertyAttributes] are bits, [PropertyType] is a number; this one is in slow mode. *)
Definition NONE : Z := 0.
Definition READ_ONLY : Z := 1.
Definition DONT_ENUM : Z := 2.
Definition DONT_DELETE : Z := 4.
Definition NORMAL : Z := 0.

Definition kInitialIndex : Z := 1.

(** [PropertyDetails(attributes, type, index)] and its fields, of the value of 32 bits. *)
Definition PropertyDetails (attributes type index : Z) : Z := Z.lor (Z.lor (encode 0 type) (encode 4 attributes)) (encode 8 index).
Definition type (details : Z) : Z := decode 0 4 details.
Definition attributes (details : Z) : Z := decode 4 3 details.
Definition IsDeleted (details : Z) : bool := negb (decode 7 1 details =? 0).
Definition index (details : Z) : Z := decode 8 24 details.
Definition IsReadOnly (details : Z) : bool := negb (Z.land (attributes details) READ_ONLY =? 0).
Definition IsDontDelete (details : Z) : bool := negb (Z.land (attributes details) DONT_DELETE =? 0).
Definition IsDontEnum (details : Z) : bool := negb (Z.land (attributes details) DONT_ENUM =? 0).
Definition IsValidIndex (index : Z) : bool := is_valid 24 index.

(** As a small integer, and back. *)
Definition AsSmi (kSmiValueSize details : Z) : Z := sint kSmiValueSize details.
Definition FromSmi (smi : Z) : Z := uint 32 smi.

(** ** Dictionaries *)

Inductive DeleteMode := NORMAL_DELETION | STRICT_DELETION | FORCE_DELETION.

#[export] Instance DeleteMode_eq_dec : EqDecision DeleteMode.
Proof. solve_decision. Defined.

(** The two words of the prefix: undefined or a small integer, and an index, which is set when the dictionary is allocated. *)
Record Prefix := MkPrefix { max_number_key_word : option Z; next_enumeration_index_word : Z }.

Definition empty_prefix : Prefix := MkPrefix None 0.

Section Dictionary.
Context {Key Obj V : Type} `{Shape Key Obj}.
(** Values: those of null and undefined, and whether one is the hole; the equality of objects. *)
Context (null_value undefined_value : V) (IsTheHole : V -> bool).
Context (kIsEnumerable : bool) (kSmiValueSize kPointerSize : Z).
(** Whether a table of a capacity, and an array of a length, can be allocated now. *)
Context (allocates allocates_array : Z -> bool).

Abbreviation Payload := (V * Z)%type.
Abbreviation Entry := (Element Obj * Payload)%type.
Abbreviation Dictionary := (HashTable (Obj := Obj) (P := Payload) (X := Prefix)).

Definition fresh_payload : Payload := (undefined_value, 0).

Abbreviation HashTable_Allocate := (HashTable.Allocate (Obj := Obj) empty_prefix fresh_payload kPointerSize allocates).
Abbreviation HashTable_EnsureCapacity := (HashTable.EnsureCapacity empty_prefix fresh_payload kPointerSize allocates).

(** The receiver after an operation, and its result. *)
Record Outcome := MkOutcome { this : Dictionary; result : MaybeObject Dictionary }.

Definition NextEnumerationIndex (t : Dictionary) : Z := next_enumeration_index_word (prefix t).
Definition SetNextEnumerationIndex (index : Z) (t : Dictionary) : Dictionary :=
  set_prefix (MkPrefix (max_number_key_word (prefix t)) index) t.

Definition ValueAt (t : Dictionary) (entry : Z) : option V := e ← entry_at t entry; Some (fst (snd e)).
Definition DetailsAt (t : Dictionary) (entry : Z) : option Z := e ← entry_at t entry; Some (FromSmi (snd (snd e))).

Definition SetEntry (entry : Z) (key : Element Obj) (value : V) (details : Z) (t : Dictionary) : option Dictionary :=
  set_entry entry (key, (value, AsSmi kSmiValueSize details)) t.

Definition DetailsAtPut (entry details : Z) (t : Dictionary) : option Dictionary :=
  '(key, (value, _)) ← entry_at t entry; set_entry entry (key, (value, AsSmi kSmiValueSize details)) t.

Definition ValueAtPut (entry : Z) (value : V) (t : Dictionary) : option (bool * Dictionary) :=
  details ← DetailsAt t entry;
  old_value ← ValueAt t entry;
  if IsReadOnly details && negb (IsTheHole old_value) then Some (false, t)
  else
    '(key, (_, smi)) ← entry_at t entry;
    t ← set_entry entry (key, (value, smi)) t;
    Some (true, t).

Definition Allocate (at_least_space_for : Z) : MaybeObject Dictionary :=
  match HashTable_Allocate at_least_space_for with
  | Success obj => Success (SetNextEnumerationIndex kInitialIndex obj)
  | failure => failure
  end.

(** The indices of the entries with keys, in the order of the table. *)
Definition key_details (es : list Entry) : list Z :=
  flat_map (fun e => match e.1 with object _ => [FromSmi e.2.2] | _ => [] end) es.

(** [for (int i = 0; i < length; i++) enumeration_order->set(iteration_order->get(i), kInitialIndex + i)] *)
Fixpoint write_order (iteration_order : list Z) (i : Z) (enumeration_order : list Z) : option (list Z) :=
  match iteration_order with
  | [] => Some enumeration_order
  | index :: rest =>
      _ ← enumeration_order !! Z.to_nat index;
      write_order rest (i + 1) (<[Z.to_nat index := kInitialIndex + i]> enumeration_order)
  end.

(** The new indices are written to the entries with keys. *)
Fixpoint renumber (es : list Entry) (enumeration_order : list Z) : option (list Entry) :=
  match es with
  | [] => Some []
  | (object k, (v, smi)) :: es =>
      match enumeration_order with
      | enum_index :: enumeration_order =>
          let details := FromSmi smi in
          let new_details := PropertyDetails (attributes details) (type details) enum_index in
          rest ← renumber es enumeration_order;
          Some ((object k, (v, AsSmi kSmiValueSize new_details)) :: rest)
      | [] => None
      end
  | e :: es => rest ← renumber es enumeration_order; Some (e :: rest)
  end.

Definition GenerateNewEnumerationIndices (t : Dictionary) : option (MaybeObject Dictionary) :=
  let length := NumberOfElements t in
  if negb (allocates_array length) then Some RetryAfterGC
  else
    let iteration_order := seqZ 0 length in
    let enumeration_order := index <$> key_details (entries t) in
    if negb (Z.of_nat (List.length enumeration_order) =? length) then None
    else
    sorted ← SortPairs (Separate iteration_order enumeration_order) (Z.to_nat length);
    match sorted with
    | Same _ => None
    | Separate iteration_order enumeration_order =>
        enumeration_order ← write_order iteration_order 0 enumeration_order;
        es ← renumber (entries t) enumeration_order;
        Some (Success (SetNextEnumerationIndex (kInitialIndex + length) (set_entries es t)))
    end.

Definition EnsureCapacity (t : Dictionary) (n : Z) (key : Key) : option Outcome :=
  generated ←
    (if kIsEnumerable && negb (IsValidIndex (NextEnumerationIndex t + n)) then GenerateNewEnumerationIndices t
     else Some (Success t));
  match generated with
  | Success t =>
      obj ← HashTable_EnsureCapacity t n key; Some (MkOutcome t obj)
  | failure => Some (MkOutcome t failure)
  end.

(** [AddEntry] fails before it changes anything. *)
Definition AddEntry (t : Dictionary) (key : Key) (value : V) (details hash : Z) : option (MaybeObject Dictionary) :=
  match AsObject key with
  | None => Some RetryAfterGC
  | Some k =>
      entry ← FindInsertionEntry t hash;
      let '(details, t) :=
        if negb (IsDeleted details) && (index details =? 0) && kIsEnumerable then
          let index := NextEnumerationIndex t in
          (PropertyDetails (attributes details) (type details) index, SetNextEnumerationIndex (index + 1) t)
        else (details, t) in
      t ← SetEntry entry (object k) value details t;
      Some (Success (ElementAdded t))
  end.

Definition add_to (o : Outcome) (key : Key) (value : V) (details : Z) : option Outcome :=
  match result o with
  | Success obj => r ← AddEntry obj key value details (Hash key); Some (MkOutcome (this o) r)
  | _ => Some o
  end.

Definition Add (t : Dictionary) (key : Key) (value : V) (details : Z) : option Outcome :=
  o ← EnsureCapacity t 1 key; add_to o key value details.

Definition AtPut (t : Dictionary) (key : Key) (value : V) : option Outcome :=
  entry ← FindEntry t key;
  if negb (entry =? kNotFound) then
    '(_, t) ← ValueAtPut entry value t; Some (MkOutcome t (Success t))
  else
    o ← EnsureCapacity t 1 key;
    match AsObject key with
    | None => match result o with Success _ => Some (MkOutcome (this o) RetryAfterGC) | _ => Some o end
    | Some _ => add_to o key value (PropertyDetails NONE NORMAL 0)
    end.

Definition DeleteProperty (t : Dictionary) (entry : Z) (mode : DeleteMode) : option (bool * Dictionary) :=
  details ← DetailsAt t entry;
  if IsDontDelete details && negb (bool_decide (mode = FORCE_DELETION)) then Some (false, t)
  else
    t ← SetEntry entry null null_value 0 t;
    Some (true, ElementRemoved t).

(** ** Walks over the entries *)

Fixpoint count_filtered (filter : Z) (es : list Entry) : Z :=
  match es with
  | [] => 0
  | (object _, (_, smi)) :: es =>
      let details := FromSmi smi in
      if IsDeleted details then count_filtered filter es
      else (if Z.land (attributes details) filter =? 0 then 1 else 0) + count_filtered filter es
  | _ :: es => count_filtered filter es
  end.

Definition NumberOfElementsFilterAttributes (t : Dictionary) (filter : Z) : Z := count_filtered filter (entries t).
Definition NumberOfEnumElements (t : Dictionary) : Z := NumberOfElementsFilterAttributes t DONT_ENUM.

(** [storage->set(index++, k)] *)
Definition store {A} (storage : list A) (index : nat) (a : A) : option (list A) :=
  _ ← storage !! index; Some (<[index := a]> storage).

(** The keys that pass a filter are stored from an index on. *)
Fixpoint copy_keys (filter : Z) (es : list Entry) (storage : list (option Obj)) (i : nat) : option (list (option Obj) * nat) :=
  match es with
  | [] => Some (storage, i)
  | (object k, (_, smi)) :: es =>
      let details := FromSmi smi in
      if negb (IsDeleted details) && (Z.land (attributes details) filter =? 0) then
        storage ← store storage i (Some k); copy_keys filter es storage (S i)
      else copy_keys filter es storage i
  | _ :: es => copy_keys filter es storage i
  end.

Definition CopyKeysTo_UNSORTED (t : Dictionary) (storage : list (option Obj)) (filter : Z) : option (list (option Obj)) :=
  '(storage, _) ← copy_keys filter (entries t) storage 0; Some storage.

(** The loop of [CopyEnumKeysTo]: keys and their indices. *)
Fixpoint copy_enum_keys (es : list Entry) (storage : list (option Obj)) (sort_array : list Z) (i : nat)
    : option (list (option Obj) * list Z) :=
  match es with
  | [] => Some (storage, sort_array)
  | (object k, (_, smi)) :: es =>
      let details := FromSmi smi in
      if IsDeleted details || IsDontEnum details then copy_enum_keys es storage sort_array i
      else
        storage ← store storage i (Some k);
        sort_array ← store sort_array i (index details);
        copy_enum_keys es storage sort_array (S i)
  | _ :: es => copy_enum_keys es storage sort_array i
  end.

Definition CopyEnumKeysTo (t : Dictionary) (storage : list (option Obj)) (sort_array : list Z)
    : option (list (option Obj) * list Z) :=
  '(storage, sort_array) ← copy_enum_keys (entries t) storage sort_array 0;
  sorted ← SortPairs (Separate storage sort_array) (length sort_array);
  match sorted with Separate storage sort_array => Some (storage, sort_array) | Same _ => None end.
End Dictionary.

(** ** Bit fields *)

Lemma decode_spec shift size x : kMask shift size = Z.shiftl (Z.ones size) shift -> 0 <= shift -> 0 <= size ->
  decode shift size x = (x / 2 ^ shift) mod 2 ^ size.
Proof.
  intros Hmask Hs Hz. apply Z.bits_inj'. intros i Hi. unfold decode.
  rewrite Hmask, Z.shiftr_spec, Z.land_spec, Z.shiftl_spec by lia. replace (i + shift - shift) with i by lia.
  destruct (Z.ltb_spec i size).
  - rewrite Z.mod_pow2_bits_low, Z.div_pow2_bits, Z.ones_spec_low by lia. by rewrite andb_true_r.
  - rewrite Z.mod_pow2_bits_high, Z.ones_spec_high by lia. apply andb_false_r.
Qed.

Lemma PropertyDetails_value a ty i :
  0 <= a < 8 -> 0 <= ty < 16 -> 0 <= i < 2 ^ 24 -> PropertyDetails a ty i = i * 256 + a * 16 + ty.
Proof.
  intros Ha Ht Hi. unfold PropertyDetails.
  assert (He : forall k x, 0 <= k -> 0 <= x -> x * 2 ^ k < 2 ^ 32 -> encode k x = x * 2 ^ k).
  { intros k x Hk Hx Hmax. assert (0 < 2 ^ k) by (apply Z.pow_pos_nonneg; lia). unfold encode, uint. rewrite (Z.mod_small x) by nia.
    rewrite Z.shiftl_mul_pow2 by done. apply Z.mod_small. nia. }
  rewrite (He 0 ty), (He 4 a), (He 8 i) by lia.
  assert (E1 : Z.lor (ty * 2 ^ 0) (a * 2 ^ 4) = a * 16 + ty).
  { rewrite Z.lor_comm, <- (Z.shiftl_mul_pow2 a), lor_shiftl by lia. lia. }
  rewrite E1, Z.lor_comm, <- (Z.shiftl_mul_pow2 i), lor_shiftl by lia. lia.
Qed.

Section details.
Context (a ty i : Z) (Ha : 0 <= a < 8) (Ht : 0 <= ty < 16) (Hi : 0 <= i < 2 ^ 24).

Lemma details_index : index (PropertyDetails a ty i) = i.
Proof. unfold index. rewrite PropertyDetails_value, decode_spec by (done || lia). change (2 ^ 8) with 256. rewrite <- (Z.div_unique (i * 256 + a * 16 + ty) 256 i (a * 16 + ty)) by lia. by apply Z.mod_small. Qed.

Lemma details_attributes : attributes (PropertyDetails a ty i) = a.
Proof.
  unfold attributes. rewrite PropertyDetails_value, decode_spec by (done || lia). change (2 ^ 4) with 16. change (2 ^ 3) with 8.
  rewrite <- (Z.div_unique (i * 256 + a * 16 + ty) 16 (i * 16 + a) ty) by lia. symmetry. apply Z.mod_unique with (i * 2); lia.
Qed.

Lemma details_type : type (PropertyDetails a ty i) = ty.
Proof.
  unfold type. rewrite PropertyDetails_value, decode_spec by (done || lia). change (2 ^ 0) with 1. rewrite Z.div_1_r. change (2 ^ 4) with 16.
  symmetry. apply Z.mod_unique with (i * 16 + a); lia.
Qed.

Lemma details_deleted : IsDeleted (PropertyDetails a ty i) = false.
Proof.
  unfold IsDeleted. rewrite PropertyDetails_value, decode_spec by (done || lia). change (2 ^ 7) with 128. change (2 ^ 1) with 2.
  rewrite <- (Z.div_unique (i * 256 + a * 16 + ty) 128 (i * 2) (a * 16 + ty)) by lia. by rewrite Z_mod_mult.
Qed.

Lemma details_range : 0 <= PropertyDetails a ty i < 2 ^ 32.
Proof. rewrite PropertyDetails_value by lia. lia. Qed.
End details.

(** Small integers of 32 bits hold the details; those of 31 bits do not: index [2 ^ 23] is read as 0, though it is valid. *)
Lemma FromSmi_AsSmi x : 0 <= x < 2 ^ 32 -> FromSmi (AsSmi 32 x) = x.
Proof.
  intros Hx. unfold FromSmi, AsSmi. destruct (sint_cong 32 x ltac:(lia)) as [k ->]. unfold uint. rewrite Z_mod_plus_full. by apply Z.mod_small.
Qed.

(** Those of 31 bits hold the details of an index below [2 ^ 22]. *)
Lemma FromSmi_AsSmi_31 x : 0 <= x < 2 ^ 30 -> FromSmi (AsSmi 31 x) = x.
Proof. intros Hx. unfold FromSmi, AsSmi. rewrite sint_id by (change (2 ^ (31 - 1)) with (2 ^ 30); lia). apply Z.mod_small. lia. Qed.

Lemma AsSmi_31_loses_index :
  IsValidIndex (2 ^ 23) = true /\ index (FromSmi (AsSmi 31 (PropertyDetails NONE NORMAL (2 ^ 23)))) = 0
  /\ index (FromSmi (AsSmi 31 (PropertyDetails NONE NORMAL (2 ^ 22)))) = 2 ^ 23 + 2 ^ 22.
Proof. by vm_compute. Qed.

(** ** The operations on the entries *)

Section operations.
Context {Key Obj V I : Type} `{ShapeOk Key Obj I} `{Countable I}.
Context (null_value undefined_value : V) (IsTheHole : V -> bool).
Context (kIsEnumerable : bool) (kSmiValueSize kPointerSize : Z) (kPointerSize_ok : 4 <= kPointerSize).
Context (allocates allocates_array : Z -> bool).

Abbreviation Payload := (V * Z)%type.
Abbreviation Dictionary := (HashTable (Obj := Obj) (P := Payload) (X := Prefix)).

(** A dictionary with room. *)
Definition dictionary_ok (t : Dictionary) : Prop := (exists k, table_ok k t) /\ room t.

(** The details that [AddEntry] stores, and the prefix that it leaves. *)
Definition assigned (t : Dictionary) (details : Z) : Z * Prefix :=
  if negb (IsDeleted details) && (index details =? 0) && kIsEnumerable then
    (PropertyDetails (attributes details) (type details) (NextEnumerationIndex t),
     MkPrefix (max_number_key_word (prefix t)) (NextEnumerationIndex t + 1))
  else (details, prefix t).

Definition pay (value : V) (details : Z) : Payload := (value, AsSmi kSmiValueSize details).

Lemma AddEntry_spec k (t : Dictionary) key o value details :
  table_ok k t -> NumberOfElements t + 1 + NumberOfDeletedElements t < Capacity t -> contents t !! ident key = None ->
  AsObject key = Some o ->
  exists t', AddEntry kIsEnumerable kSmiValueSize t key value details (Hash key) = Some (Success t')
  /\ dictionary_ok t' /\ contents t' = <[ident key := pay value (fst (assigned t details))]> (contents t)
  /\ live (entries t') ≡ₚ (o, pay value (fst (assigned t details))) :: live (entries t) /\ prefix t' = snd (assigned t details).
Proof.
  intros Hok Hroom Hnew Ho. pose proof (AsObject_ident key o Ho) as Hid. rewrite <- Hid in Hnew |- *.
  destruct (add_slot k t o (pay value (fst (assigned t details))) Hok Hroom Hnew) as (p & e & Hfind & He & Hok' & Hroom' & Hc & Hl).
  unfold AddEntry. rewrite Ho, Hash_ident, <- Hid, Hfind. cbn [mbind option_bind].
  assert (Hset : forall d x, SetEntry kSmiValueSize (Z.of_nat p) (object o) value d (set_prefix x t)
    = Some (set_entries (<[p := (object o, pay value d)]> (entries t)) (set_prefix x t))).
  { intros d x. unfold SetEntry. by rewrite (set_entry_inside _ p e). }
  unfold assigned in *. destruct (_ && _) eqn:Hassign.
  - cbn beta iota zeta. unfold SetNextEnumerationIndex. rewrite Hset. cbn [mbind option_bind fst snd] in *. eexists. split; [done|].
    split; [split; [exists k; destruct Hok'; by split|exact Hroom']|]. split; [exact Hc|]. split; [exact Hl|done].
  - cbn beta iota zeta. assert (Hsame : set_prefix (prefix t) t = t) by (by destruct t). pose proof (Hset details (prefix t)) as Hs. rewrite Hsame in Hs. rewrite Hs. cbn [mbind option_bind fst snd] in *. eexists. split; [done|].
    split; [split; [exists k; destruct Hok'; by split|exact Hroom']|]. split; [exact Hc|]. split; [exact Hl|done].
Qed.

(** The value of an entry is changed, unless it is read only and set. *)
Definition writable (x : Payload) : bool := negb (IsReadOnly (FromSmi (snd x)) && negb (IsTheHole (fst x))).

Lemma ValueAtPut_spec k (t : Dictionary) p o x value :
  table_ok k t -> entries t !! p = Some (object o, x) ->
  exists t', ValueAtPut IsTheHole (Z.of_nat p) value t = Some (writable x, t')
  /\ (writable x = false -> t' = t)
  /\ (writable x = true -> t' = set_entries (<[p := (object o, (value, snd x))]> (entries t)) t).
Proof.
  intros Hok Hp. assert (Hat : entry_at t (Z.of_nat p) = Some (object o, x)).
  { unfold entry_at. rewrite (proj2 (Z.leb_le _ _)), Nat2Z.id by lia. done. }
  unfold ValueAtPut, DetailsAt, ValueAt. rewrite !Hat. cbn [mbind option_bind fst snd]. unfold writable.
  destruct (_ && _); cbn [negb]; [by exists t|]. destruct x as [v smi]. cbn [fst snd]. rewrite (set_entry_inside t p _ _ Hp).
  cbn [mbind option_bind]. eexists. split; [done|]. by split.
Qed.

Lemma DeleteProperty_spec k (t : Dictionary) p o x mode :
  table_ok k t -> room t -> entries t !! p = Some (object o, x) ->
  let deletes := negb (IsDontDelete (FromSmi (snd x)) && negb (bool_decide (mode = FORCE_DELETION))) in
  exists t', DeleteProperty null_value kSmiValueSize t (Z.of_nat p) mode = Some (deletes, t')
  /\ (deletes = false -> t' = t)
  /\ (deletes = true -> dictionary_ok t' /\ contents t' = delete (object_ident o) (contents t)
      /\ live (entries t) ≡ₚ (o, x) :: live (entries t') /\ prefix t' = prefix t).
Proof.
  intros Hok Hroom Hp deletes. assert (Hat : entry_at t (Z.of_nat p) = Some (object o, x)).
  { unfold entry_at. rewrite (proj2 (Z.leb_le _ _)), Nat2Z.id by lia. done. }
  unfold DeleteProperty, DetailsAt. rewrite Hat. cbn [mbind option_bind snd]. unfold deletes. destruct (_ && _); cbn [negb]; [by exists t|].
  unfold SetEntry. rewrite (set_entry_inside t p _ _ Hp). cbn [mbind option_bind].
  destruct (delete_slot k t p o x (null_value, AsSmi kSmiValueSize 0) Hok Hroom Hp) as (Hok' & Hroom' & Hc & Hl).
  eexists. split; [done|]. split; [done|]. intros _. split; [split; [by exists k|done]|]. done.
Qed.
End operations.
