(* ===== verification/NumberDictionary.v ===== *)
(** * NumberDictionary: dictionaries of elements

    Models [NumberDictionary] of src/objects.h, objects-inl.h and objects.cc: the dictionary whose keys are numbers of 32
    bits, hashed by [ComputeIntegerHash], with the greatest key in its prefix.  It refines a finite map:
    every command succeeds as the map says, or fails for want of memory and leaves the contents alone. *)

From stdpp Require Import gmap.
From S2P Require Import Prelude SortPairs HashTable StringHash Dictionary.
Local Open Scope Z_scope.

Definition kRequiresSlowElementsMask : Z := 1.
Definition kRequiresSlowElementsTagSize : Z := 1.
Definition kRequiresSlowElementsLimit : Z := Z.shiftl 1 29 - 1.

(** A number object is its value; a key is converted to 32 bits when it is passed.  A large number is allocated. *)
Definition NumberDictionaryShape (allocates_number : Z -> bool) : Shape Z Z := {|
  IsMatch key other := uint 32 key =? uint 32 other;
  HashTable.Hash key := ComputeIntegerHash (uint 32 key);
  HashForObject _ other := ComputeIntegerHash (uint 32 other);
  AsObject key := if allocates_number (uint 32 key) then Some (uint 32 key) else None;
  kPrefixSize := 2;
  kEntrySize := 3
|}.

Section NumberDictionary.
Context {V : Type} (null_value undefined_value : V) (IsTheHole : V -> bool).
Context (kSmiValueSize kPointerSize : Z) (allocates allocates_number : Z -> bool).

#[local] Instance shape : Shape Z Z := NumberDictionaryShape allocates_number.

Abbreviation NumberDictionary := (HashTable (Obj := Z) (P := (V * Z)%type) (X := Prefix)).
Abbreviation Outcome := (Outcome (Obj := Z) (V := V)).

Definition requires_slow_elements (t : NumberDictionary) : bool :=
  match max_number_key_word (prefix t) with
  | None => false
  | Some smi => negb (Z.land smi kRequiresSlowElementsMask =? 0)
  end.

Definition max_number_key (t : NumberDictionary) : Z :=
  match max_number_key_word (prefix t) with
  | None => 0
  | Some smi => Z.shiftr (uint 32 smi) kRequiresSlowElementsTagSize
  end.

Definition set_max_number_key_word (smi : Z) (t : NumberDictionary) : NumberDictionary :=
  set_prefix (MkPrefix (Some smi) (next_enumeration_index_word (prefix t))) t.

Definition set_requires_slow_elements (t : NumberDictionary) : NumberDictionary :=
  set_max_number_key_word kRequiresSlowElementsMask t.

Definition UpdateMaxNumberKey (key : Z) (t : NumberDictionary) : NumberDictionary :=
  let key := uint 32 key in
  if requires_slow_elements t then t
  else if kRequiresSlowElementsLimit <? key then set_requires_slow_elements t
  else
    if (match max_number_key_word (prefix t) with None => true | Some _ => false end) || (max_number_key t <? key)
    then set_max_number_key_word (AsSmi kSmiValueSize (Z.shiftl key kRequiresSlowElementsTagSize)) t else t.

Definition Number_EnsureCapacity := EnsureCapacity undefined_value false kSmiValueSize kPointerSize allocates (fun _ => true).
Definition Number_Add := Add undefined_value false kSmiValueSize kPointerSize allocates (fun _ => true).
Definition Number_AtPut := AtPut undefined_value IsTheHole false kSmiValueSize kPointerSize allocates (fun _ => true).

Definition AddNumberEntry (t : NumberDictionary) (key : Z) (value : V) (details : Z) : option Outcome :=
  Number_Add (UpdateMaxNumberKey key t) key value details.

Definition AtNumberPut (t : NumberDictionary) (key : Z) (value : V) : option Outcome :=
  Number_AtPut (UpdateMaxNumberKey key t) key value.

Definition Set_ (t : NumberDictionary) (key : Z) (value : V) (details : Z) : option Outcome :=
  entry ← FindEntry t key;
  if entry =? kNotFound then AddNumberEntry t key value details
  else
    old_details ← DetailsAt t entry;
    let details := PropertyDetails (attributes details) (type details) (index old_details) in
    match AsObject key with
    | None => Some (MkOutcome t RetryAfterGC)
    | Some object_key =>
        t ← SetEntry kSmiValueSize entry (object object_key) value details t;
        Some (MkOutcome t (Success t))
    end.

(** The loop over the entries, with the number of those that are removed. *)
Fixpoint remove_loop (from to : Z) (es : list (Element Z * (V * Z))) : list (Element Z * (V * Z)) * Z :=
  match es with
  | [] => ([], 0)
  | e :: es =>
      let '(rest, removed_entries) := remove_loop from to es in
      match e.1 with
      | object k =>
          let number := uint 32 k in
          if (from <=? number) && (number <? to) then ((null, (null_value, AsSmi kSmiValueSize 0)) :: rest, removed_entries + 1)
          else (e :: rest, removed_entries)
      | _ => (e :: rest, removed_entries)
      end
  end.

Definition RemoveNumberEntries (from to : Z) (t : NumberDictionary) : NumberDictionary :=
  if to <=? from then t
  else
    let '(es, removed_entries) := remove_loop from to (entries t) in
    ElementsRemoved removed_entries (set_entries es t).

(** [CopyKeysTo(storage, filter, sort_mode)]: the keys are numbers, so the array can be sorted by itself. *)
Inductive SortMode := UNSORTED | SORTED.

Definition CopyKeysTo (t : NumberDictionary) (storage : list (option Z)) (filter : Z) (sort_mode : SortMode) : option (list (option Z)) :=
  '(storage, i) ← copy_keys filter (entries t) storage 0;
  match sort_mode with
  | UNSORTED => Some storage
  | SORTED =>
      (* the keys, and behind them what the array held *)
      numbers ← mapM (fun o => o) (take i storage);
      sorted ← SortPairs (Element := Empty_set) (Same numbers) i;
      Some ((Some <$> SortPairs.numbers sorted) ++ drop i storage)
  end.

(** ** Commands *)

Inductive Command :=
  | CSet (key : Z) (value : V) (details : Z)
  | CAtPut (key : Z) (value : V)
  | CDelete (key : Z) (mode : DeleteMode)
  | CShrink (key : Z)
  | CRemove (from to : Z).

(** A deletion looks the entry up. *)
Definition execute (t : NumberDictionary) (c : Command) : option Outcome :=
  match c with
  | CSet key value details => Set_ t key value details
  | CAtPut key value => AtNumberPut t key value
  | CDelete key mode =>
      entry ← FindEntry t key;
      if entry =? kNotFound then Some (MkOutcome t (Success t))
      else '(_, t) ← DeleteProperty null_value kSmiValueSize t entry mode; Some (MkOutcome t (Success t))
  | CShrink key =>
      r ← Shrink empty_prefix (fresh_payload undefined_value) kPointerSize allocates t key; Some (MkOutcome t r)
  | CRemove from to => let t := RemoveNumberEntries from to t in Some (MkOutcome t (Success t))
  end.

(** The map of the keys to what their entries hold. *)
Abbreviation Map := (gmap Z (V * Z)).

Definition pay := (pay kSmiValueSize (V := V)).

Definition apply (m : Map) (c : Command) : Map :=
  match c with
  | CSet key value details =>
      match m !! uint 32 key with
      | None => <[uint 32 key := pay value details]> m
      | Some x => <[uint 32 key := pay value (PropertyDetails (attributes details) (type details) (index (FromSmi x.2)))]> m
      end
  | CAtPut key value =>
      match m !! uint 32 key with
      | None => <[uint 32 key := pay value (PropertyDetails NONE NORMAL 0)]> m
      | Some x => if writable IsTheHole x then <[uint 32 key := (value, x.2)]> m else m
      end
  | CDelete key mode =>
      match m !! uint 32 key with
      | None => m
      | Some x =>
          if IsDontDelete (FromSmi x.2) && negb (bool_decide (mode = FORCE_DELETION)) then m else delete (uint 32 key) m
      end
  | CShrink _ => m
  | CRemove from to => filter (fun '(k, _) => ~ from <= k < to) m
  end.

(** The table after an outcome, and whether the command had an effect. *)
Definition after (o : Outcome) : NumberDictionary := match result o with Success t => t | _ => this o end.
Definition succeeded (o : Outcome) : bool := match result o with Success _ => true | _ => false end.

Fixpoint execute_all (t : NumberDictionary) (cs : list Command) : option (NumberDictionary * list bool) :=
  match cs with
  | [] => Some (t, [])
  | c :: cs => o ← execute t c; '(t, done) ← execute_all (after o) cs; Some (t, succeeded o :: done)
  end.

Fixpoint apply_all (m : Map) (cs : list Command) (done : list bool) : Map :=
  match cs, done with
  | c :: cs, d :: done => apply_all (if (d : bool) then apply m c else m) cs done
  | _, _ => m
  end.

(** ** The invariant *)

Lemma uint_idem x : uint 32 (uint 32 x) = uint 32 x.
Proof. apply Zmod_mod. Qed.

#[local] Instance shape_ok : ShapeOk Z Z Z.
Proof.
  refine {| ident := uint 32; object_ident := uint 32; hash_of := ComputeIntegerHash |}; try done.
  - intros key o. cbn. rewrite Z.eqb_eq. split; intros; congruence.
  - intros key o. cbn. destruct (allocates_number _); [|done]. intros [= <-]. apply uint_idem.
Defined.

Context (kSmiValueSize_ok : 31 <= kSmiValueSize <= 32) (kPointerSize_ok : 4 <= kPointerSize).

(** No key is greater than the one that is recorded, or it is marked as too great. *)
Definition max_ok (t : NumberDictionary) : Prop :=
  requires_slow_elements t = true \/ forall k x, contents t !! k = Some x -> k <= max_number_key t.

Definition state_ok (t : NumberDictionary) : Prop := dictionary_ok t /\ max_ok t.

(** Why a command can fail. *)
Definition excused (t : NumberDictionary) (o : Outcome) : Prop :=
  (result o = RetryAfterGC -> (exists c, allocates c = false) \/ exists n, allocates_number n = false)
  /\ (result o = OutOfMemoryException -> kMaxCapacity kPointerSize < Z.max 32 ((NumberOfElements t + 1) * 8)).

Lemma max_ok_prefix (t t' : NumberDictionary) :
  prefix t' = prefix t -> (forall k x, contents t' !! k = Some x -> exists y, contents t !! k = Some y) -> max_ok t -> max_ok t'.
Proof.
  intros Hp Hsub [Hslow|Hmax]; unfold max_ok, requires_slow_elements, max_number_key in *; rewrite Hp; [by left|right].
  intros k x Hk. destruct (Hsub k x Hk) as [y Hy]. by eapply Hmax.
Qed.

Lemma set_prefix_ok (t : NumberDictionary) x : dictionary_ok t -> dictionary_ok (set_prefix x t).
Proof. intros [[k []] Hroom]. split; [exists k; by split|exact Hroom]. Qed.

Lemma uint_range x : 0 <= uint 32 x < 2 ^ 32.
Proof. apply Z.mod_pos_bound. lia. Qed.

(** The word of the prefix holds a key up to the limit. *)
Lemma max_word k : 0 <= k <= kRequiresSlowElementsLimit ->
  let smi := AsSmi kSmiValueSize (Z.shiftl k kRequiresSlowElementsTagSize) in
  Z.land smi kRequiresSlowElementsMask = 0 /\ Z.shiftr (uint 32 smi) kRequiresSlowElementsTagSize = k.
Proof.
  intros Hk smi. change kRequiresSlowElementsLimit with (2 ^ 29 - 1) in Hk.
  assert (Hsmi : smi = k * 2).
  { unfold smi, AsSmi. change kRequiresSlowElementsTagSize with 1. rewrite Z.shiftl_mul_pow2 by lia. change (2 ^ 1) with 2. apply sint_id; [lia|].
    assert (2 ^ 30 <= 2 ^ (kSmiValueSize - 1)) by (apply Z.pow_le_mono_r; lia). change (2 ^ 30) with (2 * 2 ^ 29) in *. lia. }
  rewrite Hsmi. change kRequiresSlowElementsMask with (Z.ones 1). change kRequiresSlowElementsTagSize with 1. split.
  - rewrite Z.land_ones by lia. change (2 ^ 1) with 2. apply Z_mod_mult.
  - unfold uint. rewrite Z.mod_small by lia. rewrite Z.shiftr_div_pow2 by lia. change (2 ^ 1) with 2. apply Z_div_mult. lia.
Qed.

Lemma UpdateMaxNumberKey_spec t key :
  state_ok t -> let t' := UpdateMaxNumberKey key t in
  dictionary_ok t' /\ contents t' = contents t /\ live (entries t') = live (entries t) /\ NumberOfElements t' = NumberOfElements t
  /\ (requires_slow_elements t' = true \/ (uint 32 key <= max_number_key t' /\ forall k x, contents t' !! k = Some x -> k <= max_number_key t')).
Proof.
  intros [Hok Hmax] t'. unfold t', UpdateMaxNumberKey. clear t'. pose proof (uint_range key). set (n := uint 32 key) in *.
  destruct (requires_slow_elements t) eqn:Hslow; [by split; [done|]; repeat split; left|].
  destruct Hmax as [Hmax|Hmax]; [congruence|]. destruct (Z.ltb_spec kRequiresSlowElementsLimit n) as [Hbig|Hfits].
  { split; [by apply set_prefix_ok|]. repeat split; by left. }
  destruct (max_word n ltac:(lia)) as [H1 H2].
  destruct (_ || _) eqn:Hset.
  - split; [by apply set_prefix_ok|]. repeat split. right. unfold max_number_key at 1 2. cbn [prefix set_prefix set_max_number_key_word max_number_key_word].
    rewrite H2. split; [lia|]. intros k x Hk. specialize (Hmax k x Hk). unfold max_number_key in *.
    destruct (max_number_key_word (prefix t)); cbn [orb] in *; [apply Z.ltb_lt in Hset; lia|lia].
  - split; [done|]. repeat split. right. apply orb_false_iff in Hset as [_ Hle%Z.ltb_ge]. split; [lia|done].
Qed.

(** ** The commands *)

(** An outcome does what the map says, or fails and leaves the contents. *)
Definition outcome_ok (t : NumberDictionary) (m : Map) (o : Outcome) : Prop :=
  state_ok (after o) /\ contents (after o) = (if succeeded o then m else contents t) /\ excused t o.

(** Where a new key would be known. *)
Definition covers (t : NumberDictionary) (key : Z) : Prop :=
  requires_slow_elements t = true \/ (uint 32 key <= max_number_key t /\ forall k x, contents t !! k = Some x -> k <= max_number_key t).

Lemma covers_max_ok t key : covers t key -> max_ok t.
Proof. intros [?|[_ ?]]; [by left|by right]. Qed.

Lemma covers_insert (t t' : NumberDictionary) key x :
  covers t key -> prefix t' = prefix t -> contents t' = <[uint 32 key := x]> (contents t) -> max_ok t'.
Proof.
  intros Hc Hp Hm. unfold covers, max_ok, requires_slow_elements, max_number_key in *. rewrite Hp. destruct Hc as [Hs|[Hk Hall]]; [by left|right].
  rewrite Hm. intros k y Hy. apply lookup_insert_Some in Hy as [[<- _]|[_ Hy]]; [done|by eapply Hall].
Qed.

Lemma same_contents (t t' : NumberDictionary) k :
  table_ok k t -> live (entries t') ≡ₚ live (entries t) -> contents t' = contents t.
Proof. intros Hok Hl. apply contents_Permutation; [apply Hok|done]. Qed.

(** Adding a key that is missing. *)
Lemma Number_Add_spec t key value details :
  dictionary_ok t -> covers t key -> contents t !! uint 32 key = None ->
  exists o, Number_Add t key value details = Some o /\ outcome_ok t (<[uint 32 key := pay value details]> (contents t)) o.
Proof.
  intros Hd Hcov Hnew. pose proof Hd as [[k Hok] Hroom]. unfold Number_Add, Add, EnsureCapacity. cbn [andb mbind option_bind].
  pose proof (EnsureCapacity_spec empty_prefix (fresh_payload undefined_value) kPointerSize allocates kPointerSize_ok k t 1 key Hok ltac:(lia)) as Hens.
  destruct (HashTable.EnsureCapacity _ _ _ _ _ _ _) as [r|]; [|done]. cbn [mbind option_bind]. unfold add_to. cbn [result].
  assert (Hsame : state_ok t) by (split; [done|by eapply covers_max_ok]).
  destruct r as [t1| |]; cbn [resized] in Hens.
  - destruct Hens as ([k' Hok'] & Hfree & Hlive & Hpre). pose proof (same_contents t t1 k Hok Hlive) as Hc.
    destruct (AsObject key) as [ob|] eqn:Eo.
    + destruct (AddEntry_spec false kSmiValueSize k' t1 key ob value details Hok' Hfree) as (t2 & E & Hd2 & Hc2 & Hl2 & Hp2); [by rewrite Hc|done|].
      rewrite E. cbn [mbind option_bind]. eexists. split; [done|]. unfold assigned in Hc2, Hp2. rewrite andb_false_r in Hc2, Hp2. cbn [fst snd] in *.
      rewrite Hc in Hc2. split; [split; [done|apply (covers_insert t t2 key (pay value details) Hcov); [by rewrite Hp2|exact Hc2]]|]. by split.
    + unfold AddEntry. rewrite Eo. cbn [mbind option_bind]. eexists. split; [done|]. split; [done|]. split; [done|]. split; [|done].
      intros _. right. cbn in Eo. exists (uint 32 key). by destruct (allocates_number (uint 32 key)).
  - eexists. split; [done|]. split; [done|]. split; [done|]. split; [|done]. intros _. by left.
  - eexists. split; [done|]. split; [done|]. split; [done|]. split; done.
Qed.

(** An entry with another payload. *)
Lemma changed_ok (t : NumberDictionary) k p ob ob' x x' :
  table_ok k t -> room t -> max_ok t -> entries t !! p = Some (object ob, x) -> uint 32 ob' = uint 32 ob ->
  let t' := set_entries (<[p := (object ob', x')]> (entries t)) t in
  state_ok t' /\ contents t' = <[uint 32 ob := x']> (contents t).
Proof.
  intros Hok Hroom Hmax Hp Hid t'. destruct (update_slot k t p ob ob' x x' Hok Hp Hid) as (Hok' & Hc & _).
  split; [|done]. split; [split; [by exists k|exact Hroom]|]. apply (max_ok_prefix t); [done| |done].
  intros i y Hy. change (contents t' !! i = Some y) in Hy. unfold t' in Hy. rewrite Hc in Hy.
  apply lookup_insert_Some in Hy as [[<- _]|[_ Hy]]; [|by exists y]. exists x. apply contents_lookup; [apply Hok|by exists p, ob].
Qed.

Lemma succeed_ok t u t' m : state_ok t' -> contents t' = m -> outcome_ok t m (MkOutcome u (Success t')).
Proof. intros H1 H2. split; [done|]. split; [done|]. by split. Qed.

Lemma outcome_ok_same t t' m o : contents t' = contents t -> NumberOfElements t' = NumberOfElements t -> outcome_ok t' m o -> outcome_ok t m o.
Proof. unfold outcome_ok, excused. by intros -> ->. Qed.

Lemma Set_spec t key value details :
  state_ok t -> exists o, Set_ t key value details = Some o /\ outcome_ok t (apply (contents t) (CSet key value details)) o.
Proof.
  intros Hst. pose proof Hst as [[[k Hok] Hroom] Hmax]. unfold Set_, apply. destruct (contents t !! uint 32 key) as [x|] eqn:Ex.
  - destruct (FindEntry_found k t key x Hok Hroom Ex) as (p & ob & -> & Hp & Hid). cbn [mbind option_bind].
    rewrite (proj2 (Z.eqb_neq _ kNotFound)) by (unfold kNotFound; lia). unfold DetailsAt, entry_at. rewrite (proj2 (Z.leb_le _ _)), Nat2Z.id, Hp by lia.
    cbn [mbind option_bind snd]. destruct (AsObject key) as [ob'|] eqn:Eo.
    + unfold SetEntry. rewrite (set_entry_inside t p _ _ Hp). cbn [mbind option_bind]. eexists. split; [done|].
      pose proof (AsObject_ident key ob' Eo) as Hid'. cbn in Hid, Hid'.
      destruct (changed_ok t k p ob ob' x (pay value (PropertyDetails (attributes details) (type details) (index (FromSmi x.2)))) Hok Hroom Hmax Hp) as [H1 H2]; [congruence|].
      apply succeed_ok; [exact H1|]. by rewrite <- Hid.
    + eexists. split; [done|]. split; [done|]. split; [done|]. split; [|done]. intros _. right. cbn in Eo. exists (uint 32 key). by destruct (allocates_number (uint 32 key)).
  - rewrite (FindEntry_missing k t key Hok Hroom Ex). cbn [mbind option_bind]. change (kNotFound =? kNotFound) with true. cbn match.
    destruct (UpdateMaxNumberKey_spec t key Hst) as (Hd & Hc & _ & Hn & Hcov). unfold AddNumberEntry.
    destruct (Number_Add_spec (UpdateMaxNumberKey key t) key value details Hd Hcov) as (o & Ho & Hout); [by rewrite Hc|].
    exists o. split; [done|]. rewrite Hc in Hout. by apply (outcome_ok_same t (UpdateMaxNumberKey key t)).
Qed.

Lemma AtNumberPut_spec t key value :
  state_ok t -> exists o, AtNumberPut t key value = Some o /\ outcome_ok t (apply (contents t) (CAtPut key value)) o.
Proof.
  intros Hst. destruct (UpdateMaxNumberKey_spec t key Hst) as (Hd & Hc & _ & Hn & Hcov). unfold AtNumberPut, Number_AtPut, AtPut.
  set (t1 := UpdateMaxNumberKey key t) in *. pose proof Hd as [[k Hok] Hroom]. pose proof (covers_max_ok t1 key Hcov) as Hmax. unfold apply. rewrite <- Hc.
  destruct (contents t1 !! uint 32 key) as [x|] eqn:Ex.
  - destruct (FindEntry_found k t1 key x Hok Hroom Ex) as (p & ob & -> & Hp & Hid). cbn [mbind option_bind].
    rewrite (proj2 (Z.eqb_neq _ kNotFound)) by (unfold kNotFound; lia). cbn [negb].
    destruct (ValueAtPut_spec IsTheHole k t1 p ob x value Hok Hp) as (t2 & -> & Hno & Hyes). cbn [mbind option_bind]. eexists. split; [done|].
    destruct (writable IsTheHole x) eqn:Hw.
    + rewrite (Hyes eq_refl). destruct (changed_ok t1 k p ob ob x (value, x.2) Hok Hroom Hmax Hp eq_refl) as [H1 H2].
      apply succeed_ok; [exact H1|]. cbn in Hid. by rewrite <- Hid.
    + rewrite (Hno eq_refl). by apply succeed_ok.
  - rewrite (FindEntry_missing k t1 key Hok Hroom Ex). cbn [mbind option_bind]. change (kNotFound =? kNotFound) with true. cbn [negb].
    pose proof (Number_Add_spec t1 key value (PropertyDetails NONE NORMAL 0) Hd Hcov Ex) as (o & Ho & Hout).
    unfold Number_Add, Add in Ho. destruct (EnsureCapacity _ _ _ _ _ _ _ _ _) as [oe|] eqn:Ee; [|done]. cbn [mbind option_bind] in *.
    destruct (AsObject key) as [ob|] eqn:Eo; [exists o; split; [done|by apply (outcome_ok_same t t1)]|].
    unfold add_to in Ho. destruct oe as [th r]. cbn [result] in *. destruct r as [t2| |].
    + unfold AddEntry in Ho. rewrite Eo in Ho. cbn [mbind option_bind] in Ho. injection Ho as <-. exists (MkOutcome th RetryAfterGC). split; [done|].
      by apply (outcome_ok_same t t1).
    + injection Ho as <-. eexists. split; [done|]. by apply (outcome_ok_same t t1).
    + injection Ho as <-. eexists. split; [done|]. by apply (outcome_ok_same t t1).
Qed.

Lemma CDelete_spec t key mode :
  state_ok t -> exists o, execute t (CDelete key mode) = Some o /\ outcome_ok t (apply (contents t) (CDelete key mode)) o.
Proof.
  intros Hst. pose proof Hst as [[[k Hok] Hroom] Hmax]. unfold execute, apply. destruct (contents t !! uint 32 key) as [x|] eqn:Ex.
  - destruct (FindEntry_found k t key x Hok Hroom Ex) as (p & ob & -> & Hp & Hid). cbn [mbind option_bind].
    rewrite (proj2 (Z.eqb_neq _ kNotFound)) by (unfold kNotFound; lia).
    destruct (DeleteProperty_spec null_value kSmiValueSize k t p ob x mode Hok Hroom Hp) as (t' & -> & Hno & Hyes). cbn [mbind option_bind].
    eexists. split; [done|]. destruct (_ && _); cbn [negb] in *; [rewrite (Hno eq_refl); by apply succeed_ok|].
    destruct (Hyes eq_refl) as (Hd & Hc & _ & Hp'). rewrite Hid in Hc. change (contents t' = delete (uint 32 key) (contents t)) in Hc. apply succeed_ok; [|done]. split; [done|].
    apply (max_ok_prefix t); [done| |done]. intros i y. rewrite Hc. intros [_ Hy]%lookup_delete_Some. by exists y.
  - rewrite (FindEntry_missing k t key Hok Hroom Ex). cbn [mbind option_bind]. change (kNotFound =? kNotFound) with true. cbn match.
    eexists. split; [done|]. by apply succeed_ok.
Qed.

Lemma CShrink_spec t key :
  state_ok t -> exists o, execute t (CShrink key) = Some o /\ outcome_ok t (apply (contents t) (CShrink key)) o.
Proof.
  intros Hst. pose proof Hst as [[[k Hok] Hroom] Hmax]. unfold execute, apply.
  pose proof (Shrink_spec empty_prefix (fresh_payload undefined_value) kPointerSize allocates kPointerSize_ok k t key Hok Hroom) as Hs.
  assert (Hn0 : 0 <= NumberOfElements t) by (rewrite (ok_elements _ _ Hok); lia).
  destruct (HashTable.Shrink _ _ _ _ _ _) as [[t'| |]|]; [| | |done]; cbn [mbind option_bind]; eexists; (split; [done|]); cbn [resized] in Hs.
  - destruct Hs as ([k' Hok'] & Hroom' & Hlive & Hpre). pose proof (same_contents t t' k Hok Hlive) as Hc. apply succeed_ok; [|done].
    split; [split; [by exists k'|done]|]. apply (max_ok_prefix t); [done| |done]. intros i y. rewrite Hc. intros Hy. by exists y.
  - split; [done|]. split; [done|]. split; [|done]. intros _. by left.
  - split; [done|]. split; [done|]. split; [done|]. intros _. lia.
Qed.

(** ** Removing a range of keys *)

Definition removed (from to : Z) (e : Element Z * (V * Z)) : bool :=
  match e.1 with object k => (from <=? uint 32 k) && (uint 32 k <? to) | _ => false end.

Definition remove_entry (from to : Z) (e : Element Z * (V * Z)) : Element Z * (V * Z) :=
  if removed from to e then (null, (null_value, AsSmi kSmiValueSize 0)) else e.

Lemma remove_loop_map from to es : fst (remove_loop from to es) = remove_entry from to <$> es.
Proof.
  induction es as [|[e x] es IH]; [done|]. cbn [remove_loop]. destruct (remove_loop from to es) as [rest n]. cbn [fst] in IH.
  rewrite fmap_cons, <- IH. unfold remove_entry, removed. destruct e; cbn [fst]; [done|done|]. by destruct (_ && _).
Qed.

(** What is removed is counted, and becomes null. *)
Lemma remove_loop_counts from to es :
  let '(es', n) := remove_loop from to es in
  0 <= n /\ Z.of_nat (length (live es)) = Z.of_nat (length (live es')) + n /\ Z.of_nat (nulls es') = Z.of_nat (nulls es) + n.
Proof.
  induction es as [|[e x] es IH]; [done|]. cbn [remove_loop]. destruct (remove_loop from to es) as [rest n]. rewrite live_cons.
  destruct e as [| |o]; cbn [fst]; [| |destruct (_ && _)]; rewrite live_cons; unfold nulls in *; cbn [sum_list_with live_of null_of fst length app]; lia.
Qed.

Lemma live_remove from to es :
  live (remove_entry from to <$> es) = filter (fun '(k, _) => ~ from <= uint 32 k < to) (live es).
Proof.
  induction es as [|[e x] es IH]; [done|]. rewrite fmap_cons, !live_cons, IH. destruct e as [| |o]; [done|done|].
  unfold remove_entry, removed. cbn [fst live_of app]. destruct (Z.leb_spec from (uint 32 o)), (Z.ltb_spec (uint 32 o) to); cbn [andb live_of fst snd app].
  - rewrite filter_cons_False; [done|]. intros Hn. apply Hn. lia.
  - by rewrite filter_cons_True by lia.
  - by rewrite filter_cons_True by lia.
  - by rewrite filter_cons_True by lia.
Qed.

Lemma reaching_remove k from to es : reaching k es -> reaching k (remove_entry from to <$> es).
Proof.
  intros Hr p o x Hp. rewrite list_lookup_fmap in Hp. destruct (es !! p) as [[e y]|] eqn:Ep; [|done]. cbn in Hp.
  assert (He : e = object o).
  { unfold remove_entry in Hp. destruct (removed from to (e, y)); [done|]. by injection Hp as -> ->. }
  subst e. destruct (Hr p o y Ep) as (n & Hn & Hpn & Hbefore). exists n. split; [done|]. split; [done|]. intros m Hm.
  destruct (Hbefore m Hm) as (e1 & He1 & Hd1). exists (remove_entry from to e1). rewrite list_lookup_fmap, He1. split; [done|].
  unfold remove_entry. by destruct (removed from to e1).
Qed.

Lemma CRemove_spec t from to :
  state_ok t -> exists o, execute t (CRemove from to) = Some o /\ outcome_ok t (apply (contents t) (CRemove from to)) o.
Proof.
  intros Hst. pose proof Hst as [[[k Hok] Hroom] Hmax]. pose proof Hok as [Hk Hcap Hlen Hnof Hnod Hreach Hnd]. unfold execute.
  eexists. split; [done|]. unfold RemoveNumberEntries, apply. destruct (Z.leb_spec to from) as [Hempty|Hrange].
  { apply succeed_ok; [done|]. symmetry. apply map_filter_id. intros i x _. lia. }
  pose proof (remove_loop_counts from to (entries t)) as Hcount. pose proof (remove_loop_map from to (entries t)) as Hmap.
  destruct (remove_loop from to (entries t)) as [es n]. cbn [fst] in Hmap. subst es. destruct Hcount as (Hn0 & Hlive & Hnull).
  set (t' := ElementsRemoved n (set_entries (remove_entry from to <$> entries t) t)).
  assert (Hnd' : NoDup (idents (live (entries t')))).
  { unfold t'. cbn [entries ElementsRemoved set_entries SetNumberOfElements SetNumberOfDeletedElements]. rewrite live_remove. unfold idents in *.
    eapply sublist_NoDup; [exact Hnd|]. apply fmap_sublist, sublist_filter. }
  assert (Hok' : table_ok k t').
  { split; unfold t'; cbn [Capacity entries NumberOfElements NumberOfDeletedElements ElementsRemoved set_entries SetNumberOfElements SetNumberOfDeletedElements];
      [done|done|by rewrite length_fmap|lia|lia|by apply reaching_remove|exact Hnd']. }
  assert (Hc : contents t' = filter (fun '(i, _) => ~ from <= i < to) (contents t)).
  { apply map_eq. intros i. apply option_eq. intros x. rewrite map_lookup_filter_Some, !contents_lookup by done. split.
    - intros (p & o & Hp & Hid). unfold t' in Hp. cbn [entries ElementsRemoved set_entries SetNumberOfElements SetNumberOfDeletedElements] in Hp.
      rewrite list_lookup_fmap in Hp. destruct (entries t !! p) as [[e y]|] eqn:Ep; [|done]. cbn in Hp. unfold remove_entry, removed in Hp. cbn [fst] in Hp.
      destruct e as [| |o']; [done|done|]. destruct (_ && _) eqn:Hin; [done|]. injection Hp as -> ->. split; [by exists p, o|].
      cbn in Hid. subst i. apply andb_false_iff in Hin. rewrite Z.leb_gt, Z.ltb_ge in Hin. lia.
    - intros [(p & o & Hp & Hid) Hout]. exists p, o. split; [|done]. unfold t'.
      cbn [entries ElementsRemoved set_entries SetNumberOfElements SetNumberOfDeletedElements]. rewrite list_lookup_fmap, Hp. cbn. unfold remove_entry, removed. cbn [fst].
      cbn in Hid. rewrite Hid. destruct (Z.leb_spec from i), (Z.ltb_spec i to); cbn [andb]; done || lia. }
  apply succeed_ok; [|done]. split.
  - split; [by exists k|]. unfold room, t' in *. cbn [Capacity NumberOfElements NumberOfDeletedElements ElementsRemoved set_entries SetNumberOfElements SetNumberOfDeletedElements]. lia.
  - apply (max_ok_prefix t); [done| |done]. intros i y. change (contents t' !! i = Some y -> exists y, contents t !! i = Some y). rewrite Hc.
    intros [Hy _]%map_lookup_filter_Some. by exists y.
Qed.

Lemma execute_spec t c : state_ok t -> exists o, execute t c = Some o /\ outcome_ok t (apply (contents t) c) o.
Proof.
  intros Hst. destruct c; [by apply Set_spec|by apply AtNumberPut_spec|by apply CDelete_spec|by apply CShrink_spec|by apply CRemove_spec].
Qed.

(** A new dictionary. *)
Lemma Allocate_ok n t :
  0 <= n <= 2 ^ 29 -> Allocate undefined_value kPointerSize allocates n = Success t -> state_ok t /\ contents t = ∅.
Proof.
  intros Hn. unfold Allocate. pose proof (Allocate_spec empty_prefix (fresh_payload undefined_value) kPointerSize allocates kPointerSize_ok n Hn) as Ha.
  destruct (HashTable.Allocate _ _ _ _ _) as [t0| |]; [|done|done]. destruct Ha as (k & Hk & -> & _). intros [= <-].
  pose proof (fresh_ok empty_prefix (fresh_payload undefined_value) k ltac:(lia)) as Hfresh.
  assert (Hc : contents (fresh empty_prefix (fresh_payload undefined_value) k) = ∅).
  { unfold contents, fresh. cbn [entries]. by rewrite live_fresh. }
  split; [|exact Hc]. split.
  - apply set_prefix_ok. split; [by exists k|]. unfold room. cbn. apply Z.pow_pos_nonneg; lia.
  - right. intros i x Hx. change (contents (fresh empty_prefix (fresh_payload undefined_value) k) !! i = Some x) in Hx. by rewrite Hc in Hx.
Qed.

(** ** Refinement *)

Lemma elements_size (t : NumberDictionary) k : table_ok k t -> NumberOfElements t = Z.of_nat (size (contents t)).
Proof.
  intros [_ _ _ Hnof _ _ Hnd]. rewrite Hnof. f_equal. unfold contents. rewrite map_size_list_to_map, length_fmap; [done|].
  by rewrite idents_fst.
Qed.

Lemma apply_size m c : (size (apply m c) <= size m + 1)%nat.
Proof.
  destruct c as [key v d|key v|key mode|key|from to]; cbn [apply].
  - destruct (m !! uint 32 key) eqn:E; rewrite map_size_insert, E; cbn; lia.
  - destruct (m !! uint 32 key) eqn:E; [destruct (writable _ _)|]; rewrite ?map_size_insert, ?E; cbn; lia.
  - destruct (m !! uint 32 key) eqn:E; [destruct (_ && _)|]; rewrite ?map_size_delete, ?E; cbn; lia.
  - lia.
  - pose proof (map_subseteq_size _ _ (map_filter_subseteq (fun '(k, _) => ~ from <= k < to) m)). lia.
Qed.

(** Enough memory for a number of keys. *)
Definition memory_for (n : Z) : Prop :=
  (forall c, allocates c = true) /\ (forall x, allocates_number x = true) /\ Z.max 32 (n * 8) <= kMaxCapacity kPointerSize.

Lemma outcome_succeeds t o n :
  excused t o -> memory_for n -> NumberOfElements t + 1 <= n -> succeeded o = true.
Proof.
  intros [H1 H2] (Ha & Hx & Hmax) Hn. unfold succeeded. destruct (result o); [done| |].
  - destruct (H1 eq_refl) as [[c Hc]|[x Hc]]; [by rewrite Ha in Hc|by rewrite Hx in Hc].
  - specialize (H2 eq_refl). lia.
Qed.

Lemma execute_all_spec cs t :
  state_ok t -> exists t' done, execute_all t cs = Some (t', done) /\ length done = length cs
  /\ state_ok t' /\ contents t' = apply_all (contents t) cs done
  /\ (forall n, memory_for n -> NumberOfElements t + Z.of_nat (length cs) <= n -> Forall (fun b => b = true) done).
Proof.
  revert t. induction cs as [|c cs IH]; intros t Hst; cbn [execute_all].
  { exists t, []. repeat split; try done; apply Hst. }
  destruct (execute_spec t c Hst) as (o & -> & Hst' & Hc & Hex). cbn [mbind option_bind].
  destruct (IH (after o) Hst') as (t' & done & -> & Hlen & Hst'' & Hcs & Hmem). cbn [mbind option_bind].
  exists t', (succeeded o :: done). split; [reflexivity|]. split; [cbn; lia|]. split; [exact Hst''|]. split; [cbn; by rewrite Hcs, Hc|].
  intros n Hn Hfit. cbn [length] in Hfit. destruct Hst as [[[k Hok] _] _]. destruct Hst' as [[[k' Hok'] _] _].
  assert (Hs : succeeded o = true) by (apply (outcome_succeeds t o n Hex Hn); lia). constructor; [done|]. apply (Hmem n Hn).
  rewrite (elements_size _ _ Hok'), Hc, Hs. rewrite (elements_size _ _ Hok) in Hfit. pose proof (apply_size (contents t) c). lia.
Qed.

(** What a lookup sees. *)
Lemma lookup_spec t key :
  state_ok t -> exists entry, FindEntry t key = Some entry
  /\ match contents t !! uint 32 key with
     | None => entry = kNotFound
     | Some x => ValueAt t entry = Some x.1 /\ DetailsAt t entry = Some (FromSmi x.2)
     end.
Proof.
  intros [[[k Hok] Hroom] _]. destruct (contents t !! uint 32 key) as [x|] eqn:Ex.
  - destruct (FindEntry_found k t key x Hok Hroom Ex) as (p & o & Hf & Hp & _). exists (Z.of_nat p). split; [done|].
    unfold ValueAt, DetailsAt, entry_at. rewrite (proj2 (Z.leb_le _ _)), Nat2Z.id, Hp by lia. done.
  - exists kNotFound. split; [|done]. by apply (FindEntry_missing k).
Qed.

(** C33: The dictionary refines a finite map from numbers.  Any sequence of commands on a new dictionary runs to its end: no
    probing is endless and no access is outside of the table, also when keys collide, entries are deleted and the table grows
    and shrinks.  Every command has the effect of the map or, when memory is not available, none on the contents; with
    memory for the keys all succeed.  Afterwards a lookup finds just the keys of the map, with their values and details, the
    number of elements is that of the map, and the greatest key is known as an upper bound of the keys, or marked as too great. *)
Theorem NumberDictionary_refines n t cs :
  0 <= n <= 2 ^ 29 -> Allocate undefined_value kPointerSize allocates n = Success t ->
  exists t' done, execute_all t cs = Some (t', done) /\ length done = length cs
  /\ (memory_for (Z.of_nat (length cs)) -> Forall (fun b => b = true) done)
  /\ let m := apply_all ∅ cs done in
     (forall key, exists entry, FindEntry t' key = Some entry
      /\ match m !! uint 32 key with
         | None => entry = kNotFound
         | Some x => ValueAt t' entry = Some x.1 /\ DetailsAt t' entry = Some (FromSmi x.2)
         end)
     /\ NumberOfElements t' = Z.of_nat (size m)
     /\ (requires_slow_elements t' = true \/ forall k x, m !! k = Some x -> k <= max_number_key t').
Proof.
  intros Hn Ha. destruct (Allocate_ok n t Hn Ha) as [Hst Hempty].
  destruct (execute_all_spec cs t Hst) as (t' & done & E & Hlen & Hst' & Hc & Hmem). exists t', done. split; [exact E|]. split; [exact Hlen|].
  pose proof Hst as [[[k Hok] _] _]. pose proof Hst' as [[[k' Hok'] _] Hmax]. split.
  - intros Hm. apply (Hmem _ Hm). rewrite (elements_size _ _ Hok), Hempty, map_size_empty. lia.
  - cbv zeta. rewrite Hempty in Hc. rewrite <- Hc. split; [intros key; by apply lookup_spec|]. split; [by eapply elements_size|exact Hmax].
Qed.
End NumberDictionary.

Lemma all_true n (l : list bool) : length l = n -> Forall (fun b => b = true) l -> l = repeat true n.
Proof. intros <- Hl. induction Hl as [|b l -> _ IH]; [done|]. cbn. by rewrite <- IH. Qed.

#[local] Instance always : Shape Z Z := NumberDictionaryShape (fun _ => true).

Lemma NumberDictionary_refines_witness :
  let cs := [CSet 7 70 0; CAtPut 4294967295 1; CAtPut 7 71; CDelete 4294967295 NORMAL_DELETION; CSet 8 80 0; CRemove 0 8; CShrink 8] in
  exists t t' done, Allocate 0 4 (fun _ => true) 4 = Success t /\
  execute_all (-1) 0 (fun _ => false) 31 4 (fun _ => true) (fun _ => true) t cs = Some (t', done) /\ length done = 7%nat /\ NumberOfElements t' = 1.
Proof.
  intros cs. destruct (Allocate 0 4 (fun _ => true) 4) as [t| |] eqn:E; [|by vm_compute in E|by vm_compute in E].
  destruct (NumberDictionary_refines (-1) 0 (fun _ => false) 31 4 (fun _ => true) (fun _ => true) ltac:(lia) ltac:(lia) 4 t cs ltac:(lia) E)
    as (t' & done & H1 & H2 & H3 & _ & H4 & _).
  exists t, t', done. split; [reflexivity|]. split; [exact H1|]. split; [exact H2|]. rewrite H4.
  assert (Hmem : memory_for 4 (fun _ => true) (fun _ => true) (Z.of_nat (length cs))) by (split; [done|]; split; [done|by vm_compute]).
  rewrite (all_true 7 done H2 (H3 Hmem)). vm_compute. reflexivity.
Defined.
