(* ===== verification/StringDictionary.v ===== *)
(** * StringDictionary: dictionaries of properties

    Models [StringDictionary] of src/objects.h, objects-inl.h and objects.cc, and the functions of [JSObject] that use one for an
    object that is not global.  Properties get enumeration indices in the order in which they are added; the
    dictionary refines the list of the properties in that order, also when the indices are exhausted and made anew.
    Small integers have 31 bits on 32-bit targets and 32 bits on 64-bit targets; those of 31 bits do not hold every index.
    A symbol is the only one with its characters, so it is its characters; another string has an address. *)

From stdpp Require Import gmap sorting.
From S2P Require Import Prelude SortPairs HashTable StringHash Dictionary.
Local Open Scope Z_scope.

(** ** Strings as keys *)

Inductive StringObject := Symbol (chars : list Z) | NonSymbol (address : Z) (chars : list Z).

#[export] Instance StringObject_eq_dec : EqDecision StringObject.
Proof. solve_decision. Defined.

Definition characters (s : StringObject) : list Z := match s with Symbol c => c | NonSymbol _ c => c end.
Definition IsSymbol (s : StringObject) : bool := match s with Symbol _ => true | NonSymbol _ _ => false end.

(** [String::Hash] of a string whose hash may be computed or not. *)
Definition hash_of_chars (chars : list Z) : Z := Z.shiftr (ComputeHashField chars) kHashShift.
Definition String_Hash (s : StringObject) : Z := hash_of_chars (characters s).

(** Strings of the same length, character by character; comparing blocks of characters has the same result. *)
Fixpoint CompareStringContents (ia ib : list Z) : bool :=
  match ia, ib with
  | [], _ => true
  | ca :: ia, cb :: ib => if negb (ca =? cb) then false else CompareStringContents ia ib
  | _ :: _, [] => false
  end.

(** The hashes of a key and of a string in a table are computed. *)
Definition SlowEquals (s other : StringObject) : bool :=
  let len := length (characters s) in
  if negb (len =? length (characters other))%nat then false
  else if (len =? 0)%nat then true
  else if negb (String_Hash s =? String_Hash other) then false
  else if negb (bool_decide (characters s !! 0%nat = characters other !! 0%nat)) then false
  else CompareStringContents (characters s) (characters other).

Definition Equals (s other : StringObject) : bool :=
  if bool_decide (other = s) then true
  else if IsSymbol s && IsSymbol other then false
  else SlowEquals s other.

#[export] Instance StringDictionaryShape : Shape StringObject StringObject := {|
  IsMatch key other := if negb (String_Hash key =? String_Hash other) then false else Equals key other;
  HashTable.Hash := String_Hash;
  HashForObject _ other := String_Hash other;
  AsObject key := Some key;
  kPrefixSize := 2;
  kEntrySize := 3
|}.

Section StringDictionary.
Context {V : Type} (null_value undefined_value : V).
Context (kSmiValueSize kPointerSize : Z) (allocates allocates_array : Z -> bool).

Abbreviation StringDictionary := (HashTable (Obj := StringObject) (P := (V * Z)%type) (X := Prefix)).
Abbreviation Outcome := (Outcome (Obj := StringObject) (V := V)).

Definition String_Add := Add undefined_value true kSmiValueSize kPointerSize allocates allocates_array.

(** The loop of [FindEntry] for a symbol; a key that is no symbol is replaced when it is found. *)
Fixpoint symbol_loop (fuel : nat) (t : StringDictionary) (key : StringObject) (entry count : Z) : option (Z * StringDictionary) :=
  match fuel with
  | O => None
  | S fuel =>
      '(element, payload) ← entry_at t entry;
      match element with
      | undefined => Some (kNotFound, t)
      | null => symbol_loop fuel t key (NextProbe entry count (Capacity t)) (count + 1)
      | object o =>
          if bool_decide (key = o) then Some (entry, t)
          else if negb (IsSymbol o) && Equals o key then
            t ← set_entry entry (object key, payload) t; Some (entry, t)
          else symbol_loop fuel t key (NextProbe entry count (Capacity t)) (count + 1)
      end
  end.

Definition String_FindEntry (t : StringDictionary) (key : StringObject) : option (Z * StringDictionary) :=
  if negb (IsSymbol key) then entry ← FindEntry t key; Some (entry, t)
  else symbol_loop (Z.to_nat (Capacity t)) t key (FirstProbe (String_Hash key) (Capacity t)) 1.

(** [JSObject::SetNormalizedProperty] of an object that is not global. *)
Definition SetNormalizedProperty (t : StringDictionary) (name : StringObject) (value : V) (details : Z) : option Outcome :=
  '(entry, t) ← String_FindEntry t name;
  if entry =? kNotFound then String_Add t name value details
  else
    old_details ← DetailsAt t entry;
    let details := PropertyDetails (attributes details) (type details) (index old_details) in
    t ← SetEntry kSmiValueSize entry (object name) value details t;
    Some (MkOutcome t (Success t)).

(** [JSObject::DeleteNormalizedProperty] of an object that is not global. *)
Definition DeleteNormalizedProperty (t : StringDictionary) (name : StringObject) (mode : DeleteMode) : option Outcome :=
  '(entry, t) ← String_FindEntry t name;
  if entry =? kNotFound then Some (MkOutcome t (Success t))
  else
    '(deleted, t) ← DeleteProperty null_value kSmiValueSize t entry mode;
    if (deleted : bool) then
      new_properties ← Shrink empty_prefix (fresh_payload undefined_value) kPointerSize allocates t name;
      Some (MkOutcome t new_properties)
    else Some (MkOutcome t (Success t)).

(** [GetEnumPropertyKeys] of an object with a dictionary: two new arrays for the enumerable properties. *)
Definition GetEnumPropertyKeys (t : StringDictionary) : option (list (option StringObject)) :=
  let num_enum := Z.to_nat (NumberOfEnumElements t) in
  '(storage, _) ← CopyEnumKeysTo t (repeat None num_enum) (repeat 0 num_enum); Some storage.

Inductive Command :=
  | SSet (name : StringObject) (value : V) (attributes type : Z)
  | SDelete (name : StringObject) (mode : DeleteMode).

Definition execute (t : StringDictionary) (c : Command) : option Outcome :=
  match c with
  | SSet name value attributes type => SetNormalizedProperty t name value (PropertyDetails attributes type 0)
  | SDelete name mode => DeleteNormalizedProperty t name mode
  end.

(** ** Specification: the properties in the order of their addition *)

Record Property := MkProperty { p_name : list Z; p_value : V; p_attributes : Z; p_type : Z }.

(** Replace the property of a name where it is, or add it at the end. *)
Fixpoint set_property (q : Property) (l : list Property) : list Property :=
  match l with
  | [] => [q]
  | p :: l => if bool_decide (p_name p = p_name q) then q :: l else p :: set_property q l
  end.

Definition can_delete (mode : DeleteMode) (p : Property) : bool :=
  (Z.land (p_attributes p) DONT_DELETE =? 0) || bool_decide (mode = FORCE_DELETION).

Definition apply (l : list Property) (c : Command) : list Property :=
  match c with
  | SSet name value attributes type => set_property (MkProperty (characters name) value attributes type) l
  | SDelete name mode => List.filter (fun p => negb (bool_decide (p_name p = characters name) && can_delete mode p)) l
  end.

(** The names that are enumerated. *)
Definition enumerated (l : list Property) : list (list Z) :=
  p_name <$> List.filter (fun p => Z.land (p_attributes p) DONT_ENUM =? 0) l.

Definition property_ok (p : Property) : Prop := 0 <= p_attributes p < 8 /\ 0 <= p_type p < 16.
Definition command_ok (c : Command) : Prop :=
  match c with SSet _ _ attributes type => 0 <= attributes < 8 /\ 0 <= type < 16 | SDelete _ _ => True end.


(** ** Keys are their characters *)

Lemma CompareStringContents_spec a b : length a = length b -> CompareStringContents a b = true <-> a = b.
Proof.
  revert b. induction a as [|x a IH]; intros [|y b] Hlen; try done. cbn [CompareStringContents].
  destruct (Z.eqb_spec x y) as [->|Hne]; cbn [negb]; [|split; congruence]. rewrite IH by (by injection Hlen). split; congruence.
Qed.

Lemma SlowEquals_spec s other : SlowEquals s other = true <-> characters s = characters other.
Proof.
  unfold SlowEquals, String_Hash. split.
  - destruct (Nat.eqb_spec (length (characters s)) (length (characters other))) as [Hlen|]; cbn [negb]; [|done].
    destruct (Nat.eqb_spec (length (characters s)) 0) as [H0|_]; [intros _; rewrite H0 in Hlen; by rewrite (nil_length_inv _ H0), (nil_length_inv _ (eq_sym Hlen))|].
    destruct (negb _); [done|]. destruct (negb _); [done|]. by apply CompareStringContents_spec.
  - intros ->. rewrite Nat.eqb_refl, Z.eqb_refl, bool_decide_eq_true_2 by done. cbn [negb]. destruct (_ =? 0)%nat; [done|]. by apply CompareStringContents_spec.
Qed.

Lemma Equals_spec s other : Equals s other = true <-> characters other = characters s.
Proof.
  unfold Equals. destruct (decide (other = s)) as [->|Hne]; [by rewrite bool_decide_eq_true_2|].
  rewrite bool_decide_eq_false_2 by done. destruct (IsSymbol s && IsSymbol other) eqn:E; [|rewrite SlowEquals_spec; split; congruence].
  destruct s as [c|a c], other as [c'|a' c']; try done. cbn. split; [done|]. intros Hc. by rewrite Hc in Hne.
Qed.

#[local] Instance shape_ok : ShapeOk StringObject StringObject (list Z).
Proof.
  refine {| ident := characters; object_ident := characters; hash_of := hash_of_chars |}; try done.
  - intros key o. cbn. unfold String_Hash. destruct (Z.eqb_spec (hash_of_chars (characters key)) (hash_of_chars (characters o))) as [E|Hne]; cbn [negb].
    + by rewrite Equals_spec.
    + split; [done|]. intros E. by rewrite E in Hne.
  - by intros key o [= ->].
Defined.

Context (kPointerSize_ok : 4 <= kPointerSize).

(** The search for a symbol finds what the general one finds, and puts the symbol there. *)
Lemma symbol_loop_spec fuel (t : StringDictionary) key entry count :
  IsSymbol key = true -> symbol_loop fuel t key entry count =
    (r ← find_loop fuel t key entry count;
     if r =? kNotFound then Some (kNotFound, t)
     else
       '(element, payload) ← entry_at t r;
       match element with
       | object o => if bool_decide (key = o) then Some (r, t) else t ← set_entry r (object key, payload) t; Some (r, t)
       | _ => None
       end).
Proof.
  intros Hkey. revert entry count. induction fuel as [|fuel IH]; intros entry count; [done|]. cbn [symbol_loop find_loop]. unfold KeyAt.
  destruct (entry_at t entry) as [[e x]|] eqn:E; [|done]. cbn [fmap option_fmap option_map fst mbind option_bind].
  destruct e as [| |o]; [done|apply IH|].
  assert (Hent : (entry =? kNotFound) = false).
  { apply Z.eqb_neq. unfold entry_at in E. destruct (Z.leb_spec 0 entry); [unfold kNotFound; lia|done]. }
  assert (Hm : IsMatch key o = bool_decide (key = o) || negb (IsSymbol o) && Equals o key).
  { apply eq_true_iff_eq. rewrite (IsMatch_ident key o), orb_true_iff, andb_true_iff, Equals_spec, bool_decide_eq_true, negb_true_iff.
    cbn. destruct key as [c|a c]; [|done]. destruct o as [c'|a' c']; cbn; split; intros Hs; try (right; split; congruence); try (left; congruence).
    - destruct Hs as [[= ->]|[? _]]; done.
    - destruct Hs as [|[_ ?]]; congruence. }
  rewrite Hm. destruct (bool_decide (key = o)) eqn:Eq; cbn [orb].
  - cbn [mbind option_bind]. rewrite Hent, E. cbn [mbind option_bind]. by rewrite Eq.
  - destruct (negb (IsSymbol o) && Equals o key); [|apply IH]. cbn [mbind option_bind]. rewrite Hent, E. cbn [mbind option_bind]. by rewrite Eq.
Qed.

Definition ok := dictionary_ok (Key := StringObject) (I := list Z) (V := V).

(** The entry of a name, with the name itself or with a string that is equal. *)
Lemma String_FindEntry_found t name x :
  ok t -> contents t !! characters name = Some x ->
  exists p o o' t', String_FindEntry t name = Some (Z.of_nat p, t') /\ ok t' /\ prefix t' = prefix t
  /\ entries t' !! p = Some (object o', x) /\ characters o' = characters name /\ characters o = characters name
  /\ contents t' = contents t /\ exists rest, live (entries t) ≡ₚ (o, x) :: rest /\ live (entries t') ≡ₚ (o', x) :: rest.
Proof.
  intros [[k Hok] Hroom] Hx. destruct (FindEntry_found k t name x Hok Hroom Hx) as (p & o & Hf & Hp & Hid). cbn in Hid.
  pose proof (update_slot k t p o o x x Hok Hp eq_refl) as (_ & _ & rest & Hl & _).
  unfold String_FindEntry. destruct (IsSymbol name) eqn:Es; cbn [negb].
  - rewrite symbol_loop_spec by done. unfold FindEntry in Hf. cbn [HashTable.Hash StringDictionaryShape] in Hf. rewrite Hf. cbn [mbind option_bind].
    rewrite (proj2 (Z.eqb_neq _ kNotFound)) by (unfold kNotFound; lia). unfold entry_at at 1. rewrite (proj2 (Z.leb_le _ _)), Nat2Z.id, Hp by lia.
    cbn [mbind option_bind]. destruct (bool_decide (name = o)).
    + exists p, o, o, t. repeat (split; [by try (split; [by exists k|])|]). by exists rest.
    + rewrite (set_entry_inside t p _ _ Hp). cbn [mbind option_bind].
      destruct (update_slot k t p o name x x Hok Hp) as (Hok' & Hc & Hlive); [done|].
      eexists p, o, name, _. split; [done|]. split; [split; [by exists k|exact Hroom]|]. split; [done|]. split.
      { cbn [entries set_entries]. apply list_lookup_insert_eq. by eapply lookup_lt_Some. }
      split; [done|]. split; [done|]. split; [|exact Hlive]. rewrite Hc. apply insert_id. cbn. by rewrite Hid.
  - rewrite Hf. cbn [mbind option_bind]. exists p, o, o, t. repeat (split; [by try (split; [by exists k|])|]). by exists rest.
Qed.

Lemma String_FindEntry_missing t name :
  ok t -> contents t !! characters name = None -> String_FindEntry t name = Some (kNotFound, t).
Proof.
  intros [[k Hok] Hroom] Hx. pose proof (FindEntry_missing k t name Hok Hroom Hx) as Hf. unfold String_FindEntry.
  destruct (IsSymbol name) eqn:Es; cbn [negb]; [|by rewrite Hf].
  rewrite symbol_loop_spec by done. unfold FindEntry in Hf. cbn [HashTable.Hash StringDictionaryShape] in Hf. by rewrite Hf.
Qed.

(** ** Properties and their indices *)

(** The sizes of small integers on the targets. *)
Context (kSmiValueSize_ok : 31 <= kSmiValueSize <= 32).

(** Small integers of 32 bits hold every valid index, those of 31 bits the indices whose details are not negative. *)
Definition index_limit : Z := if kSmiValueSize =? 32 then 2 ^ 24 else 2 ^ 22.

Lemma index_limit_cases :
  kSmiValueSize = 32 /\ index_limit = 2 ^ 24 \/ kSmiValueSize = 31 /\ index_limit = 2 ^ 22.
Proof. unfold index_limit. destruct (Z.eqb_spec kSmiValueSize 32); [by left|right; split; [lia|done]]. Qed.

Lemma index_limit_bound : 2 ^ 22 <= index_limit <= 2 ^ 24.
Proof. destruct index_limit_cases as [[_ ->]|[_ ->]]; lia. Qed.

Abbreviation View := (list Z * (V * Z))%type.

(** What an entry says of its property, and what it should say of property [p] with index [i]. *)
Definition view (e : StringObject * (V * Z)) : View := (characters e.1, e.2).
Definition stored (p : Property) (i : Z) : View := (p_name p, (p_value p, AsSmi kSmiValueSize (PropertyDetails (p_attributes p) (p_type p) i))).

Definition index_ok (i : Z) : Prop := 0 <= i < index_limit.

Lemma index_ok_24 i : index_ok i -> 0 <= i < 2 ^ 24.
Proof. unfold index_ok. pose proof index_limit_bound. lia. Qed.

(** The properties have ascending indices below the next one. *)
Record indexed (t : StringDictionary) (l : list Property) (is_ : list Z) : Prop := {
  indexed_length : length is_ = length l;
  indexed_sorted : StronglySorted Z.lt is_;
  indexed_range : Forall (fun i => 1 <= i < NextEnumerationIndex t) is_;
  indexed_next : 1 <= NextEnumerationIndex t <= index_limit;
  indexed_entries : view <$> live (entries t) ≡ₚ zip_with stored l is_
}.

Definition related (t : StringDictionary) (l : list Property) : Prop :=
  ok t /\ Forall property_ok l /\ exists is_, indexed t l is_.

Lemma read_stored p i : property_ok p -> index_ok i ->
  let d := FromSmi (snd (snd (stored p i))) in
  index d = i /\ attributes d = p_attributes p /\ type d = p_type p /\ IsDeleted d = false.
Proof.
  intros [Ha Ht] Hi d. pose proof (index_ok_24 i Hi). unfold d, stored. cbn [snd].
  assert (E : FromSmi (AsSmi kSmiValueSize (PropertyDetails (p_attributes p) (p_type p) i)) = PropertyDetails (p_attributes p) (p_type p) i).
  { unfold index_ok in Hi. destruct index_limit_cases as [[-> El]|[-> El]]; rewrite El in Hi; [by apply FromSmi_AsSmi, details_range|].
    apply FromSmi_AsSmi_31. rewrite PropertyDetails_value; lia. }
  rewrite E. split; [by apply details_index|]. split; [by apply details_attributes|]. split; [by apply details_type|by apply details_deleted].
Qed.

Lemma indexed_ok t l is_ : indexed t l is_ -> Forall index_ok is_.
Proof. intros []. eapply Forall_impl; [eassumption|]. unfold index_ok. cbn. lia. Qed.

Lemma names_stored l is_ : length is_ = length l -> (zip_with stored l is_).*1 = p_name <$> l.
Proof.
  revert is_. induction l as [|p l IH]; intros [|i is_] Hlen; try done. cbn [zip_with fmap list_fmap]. f_equal. apply IH. by injection Hlen.
Qed.

Lemma idents_view l : idents (P := V * Z) (Key := StringObject) l = (view <$> l).*1.
Proof. unfold idents. rewrite <- list_fmap_compose. done. Qed.

Lemma names_unique t l is_ : ok t -> indexed t l is_ -> NoDup (p_name <$> l).
Proof.
  intros [[k Hok] _] Hi. pose proof (ok_unique _ _ Hok) as Hnd. rewrite idents_view, (indexed_entries _ _ _ Hi) in Hnd.
  by rewrite names_stored in Hnd by apply Hi.
Qed.

(** The position of a property. *)
Lemma zip_with_middle {A B C} (f : A -> B -> C) l is_ j p i :
  l !! j = Some p -> is_ !! j = Some i ->
  zip_with f l is_ = zip_with f (take j l) (take j is_) ++ f p i :: zip_with f (drop (S j) l) (drop (S j) is_).
Proof.
  intros Hp Hi. rewrite <- (take_drop_middle l j p Hp) at 1. rewrite <- (take_drop_middle is_ j i Hi) at 1.
  rewrite zip_with_app; [done|]. rewrite !length_take. apply lookup_lt_Some in Hp. apply lookup_lt_Some in Hi. lia.
Qed.

Lemma indexed_lookup t l is_ o x rest :
  indexed t l is_ -> live (entries t) ≡ₚ (o, x) :: rest ->
  exists j p i, l !! j = Some p /\ is_ !! j = Some i /\ p_name p = characters o /\ x = snd (stored p i)
  /\ view <$> rest ≡ₚ zip_with stored (take j l) (take j is_) ++ zip_with stored (drop (S j) l) (drop (S j) is_).
Proof.
  intros Hi Hl. pose proof (indexed_entries _ _ _ Hi) as He. rewrite Hl in He. cbn [fmap list_fmap] in He.
  assert (Hin : view (o, x) ∈ zip_with stored l is_) by (rewrite <- He; by left).
  apply list_elem_of_lookup in Hin as [j Hj]. rewrite lookup_zip_with in Hj.
  destruct (l !! j) as [p|] eqn:Ep; [|done]. destruct (is_ !! j) as [i|] eqn:Ei; [|done]. cbn in Hj. injection Hj as Hn Hx.
  exists j, p, i. split; [done|]. split; [done|]. split; [done|]. split; [done|].
  rewrite (zip_with_middle stored l is_ j p i Ep Ei) in He. rewrite <- Permutation_middle in He.
  assert (Hv : view (o, x) = stored p i) by (unfold view, stored; cbn; by rewrite <- Hn, <- Hx).
  rewrite Hv in He. by apply (inj (cons (stored p i))) in He.
Qed.

(** Operations on the list at the position of a name. *)
Lemma set_property_at l j p q :
  NoDup (p_name <$> l) -> l !! j = Some p -> p_name q = p_name p -> set_property q l = take j l ++ q :: drop (S j) l.
Proof.
  revert j. induction l as [|p' l IH]; intros j Hnd Hj Hq; [done|]. cbn [fmap list_fmap] in Hnd. apply NoDup_cons in Hnd as [Hnew Hnd].
  destruct j as [|j]; cbn [set_property].
  - injection Hj as ->. by rewrite bool_decide_eq_true_2.
  - rewrite bool_decide_eq_false_2; [cbn; f_equal; by apply IH|]. intros E. apply Hnew. rewrite E, Hq.
    apply list_elem_of_fmap. exists p. split; [done|]. by apply list_elem_of_lookup_2 with j.
Qed.

Lemma set_property_new l q : p_name q ∉ p_name <$> l -> set_property q l = l ++ [q].
Proof.
  induction l as [|p l IH]; [done|]. cbn [fmap list_fmap set_property]. rewrite not_elem_of_cons. intros [Hne Hnew].
  rewrite bool_decide_eq_false_2 by congruence. cbn. f_equal. by apply IH.
Qed.

Lemma filter_other l name mode :
  name ∉ p_name <$> l -> List.filter (fun p => negb (bool_decide (p_name p = name) && can_delete mode p)) l = l.
Proof.
  induction l as [|p l IH]; [done|]. cbn [fmap list_fmap List.filter]. rewrite not_elem_of_cons. intros [Hne Hnew].
  rewrite bool_decide_eq_false_2 by congruence. cbn [andb negb]. f_equal. by apply IH.
Qed.

Lemma filter_middle l1 l2 p mode :
  NoDup (p_name <$> l1 ++ p :: l2) ->
  List.filter (fun p' => negb (bool_decide (p_name p' = p_name p) && can_delete mode p')) (l1 ++ p :: l2)
  = if can_delete mode p then l1 ++ l2 else l1 ++ p :: l2.
Proof.
  intros Hnd. rewrite fmap_app in Hnd. apply NoDup_app in Hnd as (_ & H1 & H2). cbn [fmap list_fmap] in H1, H2. apply NoDup_cons in H2 as [H2 _].
  rewrite List.filter_app. cbn [List.filter]. rewrite (bool_decide_eq_true_2 (p_name p = p_name p)) by done. cbn [andb].
  rewrite (filter_other l2), (filter_other l1); [destruct (can_delete mode p); cbn [negb]; done| |done].
  intros Hin. apply (H1 _ Hin). by left.
Qed.

Lemma filter_at l j p mode :
  NoDup (p_name <$> l) -> l !! j = Some p ->
  List.filter (fun p' => negb (bool_decide (p_name p' = p_name p) && can_delete mode p')) l
  = if can_delete mode p then take j l ++ drop (S j) l else l.
Proof.
  intros Hnd Hj. pose proof (filter_middle (take j l) (drop (S j) l) p mode) as Hm. by rewrite (take_drop_middle l j p Hj) in Hm; apply Hm.
Qed.

(** A sorted list without an element, and with one more. *)
Lemma sorted_remove {A} (R : A -> A -> Prop) l j : StronglySorted R l -> StronglySorted R (take j l ++ drop (S j) l).
Proof.
  revert j. induction l as [|x l IH]; intros j Hl; [by rewrite take_nil, drop_nil|]. apply StronglySorted_inv in Hl as [Hl Hx].
  destruct j as [|j]; [done|]. cbn. constructor; [by apply IH|]. apply Forall_app. split; [by apply Forall_take|by apply Forall_drop].
Qed.

Lemma sorted_snoc (l : list Z) x : StronglySorted Z.lt l -> Forall (fun y => y < x) l -> StronglySorted Z.lt (l ++ [x]).
Proof.
  intros Hl Hx. induction Hl as [|y l _ IH Hy]; [repeat constructor|]. apply Forall_cons in Hx as [Hyx Hx]. cbn. constructor; [by apply IH|].
  apply Forall_app. split; [done|by repeat constructor].
Qed.

(** ** Sorting by distinct numbers *)

Lemma sorted_lookups (l : list Z) : (forall i j x y, (i < j)%nat -> l !! i = Some x -> l !! j = Some y -> x < y) -> StronglySorted Z.lt l.
Proof.
  induction l as [|x l IH]; intros Hl; [constructor|]. constructor.
  - apply IH. intros i j y z Hij Hy Hz. apply (Hl (S i) (S j)); [lia|done|done].
  - apply Forall_lookup. intros j y Hy. apply (Hl 0%nat (S j)); [lia|done|done].
Qed.

Lemma sorted_unique l l' : StronglySorted Z.lt l -> StronglySorted Z.lt l' -> l ≡ₚ l' -> l = l'.
Proof. apply (StronglySorted_unique_strong Z.lt). lia. Qed.

Lemma sorted_NoDup l : StronglySorted Z.lt l -> NoDup l.
Proof.
  induction 1 as [|x l _ IH Hx]; [constructor|]. apply NoDup_cons. split; [|done]. intros Hin. rewrite Forall_forall in Hx. specialize (Hx x Hin). lia.
Qed.

Lemma zip_Some {A} (n : list Z) (c : list A) : omap (fun x : Z * option A => pair x.1 <$> x.2) (zip n (Some <$> c)) = zip n c.
Proof. revert c. induction n as [|x n IH]; intros [|y c]; try done. cbn. f_equal. apply IH. Qed.

(** An array with distinct numbers is sorted by them. *)
Lemma SortPairs_distinct {A} (c : list A) n :
  length c = length n -> NoDup n -> Forall is_uint32 n ->
  exists c' n', SortPairs (Separate c n) (length n) = Some (Separate c' n') /\ length c' = length n'
  /\ StronglySorted Z.lt n' /\ zip n' c' ≡ₚ zip n c.
Proof.
  intros Hlen Hnd Hu. destruct (SortPairs_spec (Separate c n) (length n) Hlen (le_n _) Hu) as (a' & E & Hp & Hasc). cbn [numbers] in Hasc.
  rewrite take_ge in Hasc by lia. specialize (Hasc Hnd). pose proof (fun x y => ascends_distinct (length n) (Separate c n) a' x y Hp Hlen) as Hlt.
  cbn [numbers] in Hlt. rewrite (take_ge n) in Hlt by lia. destruct Hp as [Hwf Hsh Hl Hfront _]. destruct a' as [c' n'|]; [|done].
  cbn [wf numbers] in Hwf, Hl. exists c', n'. split; [done|]. split; [done|]. split.
  - apply sorted_lookups. intros i j x y Hij Hx Hy. pose proof (lookup_lt_Some _ _ _ Hy).
    specialize (Hlt i j (le_n _) Hnd Hasc). unfold num, number in Hlt. cbn [numbers] in Hlt. rewrite Hx, Hy in Hlt. cbn in Hlt. apply Hlt. lia.
  - cbn [pairs] in Hfront. rewrite !take_ge in Hfront by (rewrite length_zip, length_fmap; lia).
    rewrite <- (zip_Some n' c'), <- (zip_Some n c). by rewrite Hfront.
Qed.

(** ** New indices *)

(** The rank of an index, from 1 on. *)
Fixpoint rank (i : Z) (l : list Z) : Z :=
  match l with [] => 0 | x :: l => if x =? i then 1 else 1 + rank i l end.

Lemma rank_lookup l k i : NoDup l -> l !! k = Some i -> rank i l = 1 + Z.of_nat k.
Proof.
  revert k. induction l as [|x l IH]; intros k Hnd Hk; [done|]. apply NoDup_cons in Hnd as [Hx Hnd]. cbn [rank].
  destruct k as [|k]; [injection Hk as ->; by rewrite Z.eqb_refl|]. cbn [lookup list_lookup] in Hk.
  rewrite (proj2 (Z.eqb_neq _ _)); [rewrite (IH k) by done; lia|]. intros ->. apply Hx. by apply list_elem_of_lookup_2 with k.
Qed.

Lemma write_order_spec it i eo :
  NoDup it -> Forall (fun x => 0 <= x < Z.of_nat (length eo)) it ->
  exists eo', write_order it i eo = Some eo' /\ length eo' = length eo
  /\ (forall k x, it !! k = Some x -> eo' !! Z.to_nat x = Some (1 + i + Z.of_nat k))
  /\ (forall j, Z.of_nat j ∉ it -> eo' !! j = eo !! j).
Proof.
  revert i eo. induction it as [|x it IH]; intros i eo Hnd Hr; cbn [write_order]; [by exists eo|].
  apply NoDup_cons in Hnd as [Hx Hnd]. apply Forall_cons in Hr as [Hr0 Hr].
  destruct (lookup_lt_is_Some_2 eo (Z.to_nat x)) as [y Hy]; [lia|]. rewrite Hy. cbn [mbind option_bind].
  destruct (IH (i + 1) (<[Z.to_nat x := kInitialIndex + i]> eo)) as (eo' & E & Hlen & Hat & Hother); [done|by rewrite length_insert|].
  rewrite length_insert in Hlen. exists eo'. split; [exact E|]. split; [done|]. split.
  - intros [|k] z Hz; [|rewrite (Hat k z Hz); f_equal; lia]. injection Hz as ->.
    rewrite Hother by (by rewrite Z2Nat.id by lia). rewrite list_lookup_insert_eq by lia. unfold kInitialIndex. f_equal. lia.
  - intros j Hj. apply not_elem_of_cons in Hj as [Hj Hj']. rewrite Hother by done. apply list_lookup_insert_ne. lia.
Qed.

(** The sorted positions give every index its rank. *)
Lemma order_ranks (idx is_ : list Z) :
  StronglySorted Z.lt is_ -> idx ≡ₚ is_ -> Forall is_uint32 is_ ->
  let n := Z.of_nat (length is_) in
  exists it so eo, SortPairs (Separate (seqZ 0 n) idx) (length is_) = Some (Separate it so)
  /\ write_order it 0 so = Some eo /\ eo = (fun i => rank i is_) <$> idx.
Proof.
  intros Hs Hperm Hu n. pose proof (Permutation_length Hperm) as Hlen. pose proof (sorted_NoDup _ Hs) as Hnd.
  destruct (SortPairs_distinct (seqZ 0 n) idx) as (it & so & E & Hl & Hso & Hz); [rewrite length_seqZ; lia|by rewrite Hperm|by rewrite Hperm|].
  assert (Hso' : so = is_).
  { apply sorted_unique; [done|done|]. rewrite <- Hperm. apply (fmap_Permutation fst) in Hz. rewrite !fst_zip in Hz; [done|rewrite length_seqZ; lia|lia]. }
  assert (Hit : it ≡ₚ seqZ 0 n).
  { apply (fmap_Permutation snd) in Hz. rewrite !snd_zip in Hz; [done|rewrite length_seqZ; lia|lia]. }
  assert (Hitr : Forall (fun x => 0 <= x < Z.of_nat (length so)) it).
  { rewrite Hit. apply Forall_forall. intros x Hx%elem_of_seqZ. subst so. lia. }
  destruct (write_order_spec it 0 so) as (eo & Ew & Hleo & Hat & _); [rewrite Hit; apply NoDup_seqZ|done|].
  exists it, so, eo. rewrite <- Hlen. split; [exact E|]. split; [exact Ew|]. subst so. apply list_eq_same_length with (length is_); [by rewrite length_fmap|done|].
  intros j x y Hj Hx Hy. rewrite list_lookup_fmap in Hy. destruct (idx !! j) as [i|] eqn:Ei; [|done]. injection Hy as <-.
  assert (Hin : (i, Z.of_nat j) ∈ zip is_ it).
  { rewrite Hz. apply list_elem_of_lookup. exists j. rewrite lookup_zip_with, Ei. cbn. rewrite lookup_seqZ_lt by lia. done. }
  apply list_elem_of_lookup in Hin as [k Hk]. rewrite lookup_zip_with in Hk. destruct (is_ !! k) as [i'|] eqn:Ek; [|done].
  destruct (it !! k) as [p|] eqn:Ep; [|done]. injection Hk as -> ->. pose proof (Hat k _ Ep) as Hr. rewrite Nat2Z.id, Hx in Hr.
  rewrite (rank_lookup is_ k i) by done. injection Hr as ->. lia.
Qed.

(** An entry with a new index. *)
Definition reindexed (x : V * Z) (i : Z) : V * Z :=
  (fst x, AsSmi kSmiValueSize (PropertyDetails (attributes (FromSmi (snd x))) (type (FromSmi (snd x))) i)).

Lemma key_details_live (es : list (Element StringObject * (V * Z))) : key_details es = (fun e => FromSmi (snd (snd e))) <$> live es.
Proof. induction es as [|[[| |o] x] es IH]; [done|apply IH|apply IH|].
  change (FromSmi (snd x) :: key_details es = FromSmi (snd x) :: ((fun e => FromSmi (snd (snd e))) <$> live es)). by rewrite IH.
Qed.

Lemma renumber_spec (es : list (Element StringObject * (V * Z))) (f : Z -> Z) :
  let eo := f <$> (index <$> key_details es) in
  exists es', renumber kSmiValueSize es eo = Some es' /\ fst <$> es' = fst <$> es
  /\ live es' = (fun e => (e.1, reindexed e.2 (f (index (FromSmi (snd (snd e))))))) <$> live es.
Proof.
  induction es as [|[[| |o] [v smi]] es (es' & E & Hk & Hl)]; cbn [renumber]; [by exists []| | |].
  - change (key_details ((undefined, (v, smi)) :: es)) with (key_details es). rewrite E. eexists. split; [done|]. split; [cbn; by f_equal|exact Hl].
  - change (key_details ((null, (v, smi)) :: es)) with (key_details es). rewrite E. eexists. split; [done|]. split; [cbn; by f_equal|exact Hl].
  - change (key_details ((object o, (v, smi)) :: es)) with (FromSmi smi :: key_details es). cbn [fmap list_fmap]. rewrite E.
    eexists. split; [done|]. split; [cbn; by f_equal|]. rewrite !live_cons. cbn. by f_equal.
Qed.

(** A table with other payloads and another prefix. *)
Lemma payloads_ok (t : StringDictionary) es x :
  fst <$> es = fst <$> entries t -> ok t -> ok (set_prefix x (set_entries es t)).
Proof.
  intros Hfst [[k [Hk Hcap Hlen Hnof Hnod Hreach Hnd]] Hroom].
  assert (Hat : forall p, fst <$> es !! p = fst <$> entries t !! p) by (intros p; by rewrite <- !list_lookup_fmap, Hfst).
  assert (Hlive : fst <$> live es = fst <$> live (entries t) /\ nulls es = nulls (entries t)).
  { clear Hk Hcap Hlen Hnof Hnod Hreach Hnd Hroom Hat. revert Hfst. generalize (entries t). induction es as [|[e y] es IH]; intros [|[e' y'] es'] Hfst; try done.
    cbn in Hfst. injection Hfst as -> Hfst. destruct (IH es' Hfst) as [H1 H2]. rewrite !live_cons, !fmap_app, H1. destruct e'; cbn; split; try done; by f_equal. }
  destruct Hlive as [Hl Hn]. pose proof (f_equal length Hl) as Hll. rewrite !length_fmap in Hll.
  assert (Hids : idents (live es) = idents (live (entries t))).
  { assert (Hc : forall l : list (StringObject * (V * Z)), idents l = characters <$> (fst <$> l)) by (intros ?; by rewrite <- list_fmap_compose). by rewrite !Hc, Hl. }
  split; [exists k; split; cbn [Capacity entries NumberOfElements NumberOfDeletedElements set_entries set_prefix]|exact Hroom].
  - done.
  - done.
  - pose proof (f_equal length Hfst) as Hle. rewrite !length_fmap in Hle. lia.
  - lia.
  - lia.
  - intros p o y Hp. specialize (Hat p) as Hat'. rewrite Hp in Hat'. destruct (entries t !! p) as [[e y']|] eqn:Ep; [|done]. injection Hat' as <-.
    destruct (Hreach p o y' Ep) as (n & Hn' & Hpr & Hb). exists n. split; [done|]. split; [done|]. intros m Hm.
    destruct (Hb m Hm) as (e1 & He1 & Hd). specialize (Hat (Z.to_nat (probe k (hash_of (object_ident o)) m))). rewrite He1 in Hat.
    destruct (es !! _) as [e2|] eqn:E2; [|done]. injection Hat as Hat. exists e2. split; [done|]. unfold is_undefined in *. by rewrite Hat.
  - by rewrite Hids.
Qed.

Lemma stored_rank l is_ js :
  length is_ = length l -> NoDup is_ -> Forall property_ok l -> Forall index_ok is_ -> js = seqZ 1 (Z.of_nat (length is_)) ->
  (fun e : View => (fst e, reindexed (snd e) (rank (index (FromSmi (snd (snd e)))) is_))) <$> zip_with stored l is_ = zip_with stored l js.
Proof.
  intros Hlen Hnd Hp Hi ->. apply list_eq. intros j. rewrite list_lookup_fmap, !lookup_zip_with.
  destruct (l !! j) as [p|] eqn:Ep; [|done]. cbn [mbind option_bind]. destruct (is_ !! j) as [i|] eqn:Ei; [|].
  2:{ apply lookup_ge_None in Ei. apply lookup_lt_Some in Ep. lia. }
  rewrite lookup_seqZ_lt by (apply lookup_lt_Some in Ei; lia). cbn [mbind option_bind fmap option_fmap option_map]. f_equal.
  rewrite Forall_lookup in Hp. rewrite Forall_lookup in Hi. destruct (read_stored p i (Hp j p Ep) (Hi j i Ei)) as (H1 & H2 & H3 & _).
  unfold reindexed. rewrite H1, H2, H3, (rank_lookup is_ j i) by done. done.
Qed.

(** The indices made anew are in the same order. *)
Lemma GenerateNewEnumerationIndices_spec (t : StringDictionary) l :
  related t l -> Z.of_nat (length l) + 2 <= index_limit ->
  match GenerateNewEnumerationIndices kSmiValueSize allocates_array t with
  | None | Some OutOfMemoryException => False
  | Some RetryAfterGC => exists n, allocates_array n = false
  | Some (Success t') => related t' l /\ NextEnumerationIndex t' = 1 + Z.of_nat (length l)
  end.
Proof.
  intros (Hok & Hpl & is_ & Hi) Hn. pose proof Hok as [[k Hk] _]. pose proof (indexed_ok _ _ _ Hi) as Hio. destruct Hi as [Hlen Hs Hr Hnext He].
  assert (Hnof : NumberOfElements t = Z.of_nat (length is_)).
  { rewrite (ok_elements _ _ Hk). pose proof (Permutation_length He) as Hl. rewrite length_fmap, length_zip_with in Hl. lia. }
  unfold GenerateNewEnumerationIndices. rewrite Hnof. destruct (allocates_array _) eqn:Ea; cbn [negb]; [|by eexists].
  assert (Hidx : index <$> key_details (entries t) ≡ₚ is_).
  { rewrite key_details_live, <- list_fmap_compose.
    change (index ∘ (fun e => FromSmi (snd (snd e)))) with ((fun x : View => index (FromSmi (snd (snd x)))) ∘ view).
    rewrite list_fmap_compose, He. assert (Hz : (fun x : View => index (FromSmi (snd (snd x)))) <$> zip_with stored l is_ = is_); [|by rewrite Hz].
    clear - kSmiValueSize_ok Hlen Hpl Hio. revert is_ Hlen Hio. induction l as [|p l IH]; intros [|i is_] Hlen Hio; try done.
    apply Forall_cons in Hpl as [Hp Hpl]. apply Forall_cons in Hio as [Hi Hio]. cbn [zip_with fmap list_fmap].
    destruct (read_stored p i Hp Hi) as (-> & _). f_equal. apply IH; [done|by injection Hlen|done]. }
  rewrite (proj2 (Z.eqb_eq _ _)) by (by rewrite (Permutation_length Hidx)). cbn [negb]. rewrite Nat2Z.id.
  destruct (order_ranks _ is_ Hs Hidx) as (it & so & eo & -> & Hw & ->).
  { eapply Forall_impl; [exact Hio|]. intros x Hx%index_ok_24. unfold is_uint32. lia. }
  cbn [mbind option_bind]. rewrite Hw. cbn [mbind option_bind].
  destruct (renumber_spec (entries t) (fun i => rank i is_)) as (es' & -> & Hfst & Hlive). cbn [mbind option_bind].
  split; [|unfold kInitialIndex; cbn; lia]. split; [by apply payloads_ok|]. split; [done|]. exists (seqZ 1 (Z.of_nat (length is_))). split.
  - rewrite length_seqZ. lia.
  - apply sorted_lookups. intros i j x y Hij Hx%lookup_seqZ Hy%lookup_seqZ. lia.
  - apply Forall_forall. intros x Hx%elem_of_seqZ. unfold NextEnumerationIndex, kInitialIndex. cbn. lia.
  - unfold NextEnumerationIndex, kInitialIndex. cbn. lia.
  - cbn [entries set_prefix set_entries SetNextEnumerationIndex]. unfold SetNextEnumerationIndex. cbn [entries set_prefix set_entries]. rewrite Hlive, <- list_fmap_compose.
    rewrite <- (stored_rank l is_ _ Hlen (sorted_NoDup _ Hs) Hpl Hio eq_refl), <- He, <- list_fmap_compose. done.
Qed.

(** ** The commands *)

Lemma IsValidIndex_intro v : 0 <= v < 2 ^ 24 -> IsValidIndex v = true.
Proof.
  intros Hv. unfold IsValidIndex, is_valid. assert (Hu : uint 32 v = v) by (apply Z.mod_small; lia). rewrite Hu.
  apply Z.eqb_eq. change (uint 32 (Z.lnot (kMax 24))) with (Z.shiftl (Z.ones 8) 24). apply Z.bits_inj'. intros i Hi.
  rewrite Z.land_spec, Z.bits_0, Z.shiftl_spec by lia. destruct (Z.ltb_spec i 24); [by rewrite (Z.testbit_neg_r (Z.ones 8)), andb_false_r by lia|].
  rewrite Z.bits_above_log2; [done|lia|]. destruct (Z.eq_dec v 0) as [->|]; [cbn; lia|]. apply Z.log2_lt_pow2; [lia|].
  apply Z.lt_le_trans with (2 ^ 24); [lia|]. apply Z.pow_le_mono_r; lia.
Qed.

Lemma IsValidIndex_bound v : 0 <= v < 2 ^ 32 -> IsValidIndex v = true -> v < 2 ^ 24.
Proof.
  intros Hv Hvalid%Z.eqb_eq. unfold is_valid in Hvalid. assert (Hu : uint 32 v = v) by by apply Z.mod_small. rewrite Hu in Hvalid.
  pose proof (decode_spec 24 8 v eq_refl ltac:(lia) ltac:(lia)) as Hd. unfold decode in Hd.
  change (kMask 24 8) with (uint 32 (Z.lnot (kMax 24))) in Hd. rewrite Hvalid in Hd. change (Z.shiftr 0 24) with 0 in Hd.
  change (2 ^ 8) with 256 in Hd. pose proof (Z_div_mod_eq_full v (2 ^ 24)). assert (0 <= v / 2 ^ 24 < 256).
  { split; [apply Z.div_pos; lia|apply Z.div_lt_upper_bound; lia]. }
  rewrite Z.mod_small in Hd by lia. pose proof (Z.mod_pos_bound v (2 ^ 24) ltac:(lia)). lia.
Qed.

Lemma related_view (t t' : StringDictionary) l :
  related t l -> ok t' -> view <$> live (entries t') ≡ₚ view <$> live (entries t) -> prefix t' = prefix t -> related t' l.
Proof.
  intros (Hok & Hpl & is_ & [Hlen Hs Hr Hnext He]) Hok' Hl Hp. assert (Hn : NextEnumerationIndex t' = NextEnumerationIndex t) by (unfold NextEnumerationIndex; by rewrite Hp).
  split; [done|]. split; [done|]. exists is_. split; rewrite ?Hn; try done. by rewrite Hl.
Qed.

Lemma related_live (t t' : StringDictionary) l :
  related t l -> ok t' -> live (entries t') ≡ₚ live (entries t) -> prefix t' = prefix t -> related t' l.
Proof. intros Hrel Hok Hl. apply related_view; [done|done|by rewrite Hl]. Qed.

Lemma contents_names (t : StringDictionary) l c : related t l -> contents t !! c = None <-> c ∉ p_name <$> l.
Proof.
  intros (Hok & Hpl & is_ & [Hlen Hs Hr Hnext He]). unfold contents. fold (map_of (live (entries t))). rewrite map_of_lookup_None.
  rewrite idents_view, He, names_stored by done. done.
Qed.

Lemma indexed_replace (t t' : StringDictionary) l is_ j p i q e rest :
  indexed t l is_ -> l !! j = Some p -> is_ !! j = Some i -> view e = stored q i ->
  view <$> rest ≡ₚ zip_with stored (take j l) (take j is_) ++ zip_with stored (drop (S j) l) (drop (S j) is_) ->
  live (entries t') ≡ₚ e :: rest -> prefix t' = prefix t -> indexed t' (take j l ++ q :: drop (S j) l) is_.
Proof.
  intros [Hlen Hs Hr Hnext He] Hp Hi Hv Hrest Hl Hpre. assert (Hn : NextEnumerationIndex t' = NextEnumerationIndex t) by (unfold NextEnumerationIndex; by rewrite Hpre).
  pose proof (lookup_lt_Some _ _ _ Hp) as Hj. split; rewrite ?Hn; try done.
  - rewrite length_app. cbn [length]. rewrite length_take, length_drop. lia.
  - rewrite Hl. rewrite fmap_cons, Hv, Hrest, Permutation_middle. rewrite <- (take_drop_middle is_ j i Hi) at 3. rewrite zip_with_app; [done|].
    apply lookup_lt_Some in Hi. rewrite !length_take. lia.
Qed.

Lemma indexed_remove (t t' : StringDictionary) l is_ j p i rest :
  indexed t l is_ -> l !! j = Some p -> is_ !! j = Some i ->
  view <$> rest ≡ₚ zip_with stored (take j l) (take j is_) ++ zip_with stored (drop (S j) l) (drop (S j) is_) ->
  live (entries t') ≡ₚ rest -> prefix t' = prefix t -> indexed t' (take j l ++ drop (S j) l) (take j is_ ++ drop (S j) is_).
Proof.
  intros [Hlen Hs Hr Hnext He] Hp Hi Hrest Hl Hpre. assert (Hn : NextEnumerationIndex t' = NextEnumerationIndex t) by (unfold NextEnumerationIndex; by rewrite Hpre).
  pose proof (lookup_lt_Some _ _ _ Hp) as Hj. split; rewrite ?Hn; try done.
  - rewrite !length_app, !length_take, !length_drop. lia.
  - by apply sorted_remove.
  - apply Forall_app. split; [by apply Forall_take|by apply Forall_drop].
  - rewrite Hl, Hrest, zip_with_app; [done|]. rewrite !length_take. lia.
Qed.

Lemma indexed_add (t t' : StringDictionary) l is_ q e :
  indexed t l is_ -> view e = stored q (NextEnumerationIndex t) -> NextEnumerationIndex t < index_limit ->
  live (entries t') ≡ₚ e :: live (entries t) -> NextEnumerationIndex t' = NextEnumerationIndex t + 1 ->
  indexed t' (l ++ [q]) (is_ ++ [NextEnumerationIndex t]).
Proof.
  intros [Hlen Hs Hr Hnext He] Hv Hlt Hl Hn. split; rewrite ?Hn.
  - rewrite !length_app. cbn. lia.
  - apply sorted_snoc; [done|]. eapply Forall_impl; [exact Hr|]. cbn. lia.
  - apply Forall_app. split; [eapply Forall_impl; [exact Hr|]; cbn; lia|]. constructor; [lia|constructor].
  - lia.
  - rewrite Hl. cbn [fmap list_fmap]. rewrite Hv, zip_with_app by done. cbn [zip_with]. rewrite <- Permutation_cons_append. by f_equiv.
Qed.

(** The dictionary after an outcome, and whether the command had its effect: a deletion has it before the table shrinks. *)
Definition after (o : Outcome) : StringDictionary := match result o with Success t => t | _ => this o end.
Definition has_effect (c : Command) (o : Outcome) : bool :=
  match c with
  | SDelete _ _ => true
  | SSet _ _ _ _ => match result o with Success _ => true | _ => false end
  end.

(** Why a command can fail, with a number of properties. *)
Definition excused (n : Z) (o : Outcome) : Prop :=
  match result o with
  | Success _ => True
  | RetryAfterGC => (exists c, allocates c = false) \/ exists n, allocates_array n = false
  | OutOfMemoryException => kMaxCapacity kPointerSize < Z.max 32 ((n + 1) * 8)
  end.

Lemma related_size (t : StringDictionary) l : related t l -> NumberOfElements t = Z.of_nat (length l).
Proof.
  intros ([[k Hk] _] & _ & is_ & [Hlen _ _ _ He]). rewrite (ok_elements _ _ Hk). pose proof (Permutation_length He) as Hl.
  rewrite length_fmap, length_zip_with in Hl. lia.
Qed.

(** Indices for [n] more keys: with small integers of 32 bits they are made anew in time, with those of 31 bits they are not. *)
Definition indices_for (n : Z) (t : StringDictionary) : Prop := kSmiValueSize = 32 \/ NextEnumerationIndex t + n <= 2 ^ 22.

(** The next index after at most [n] keys are added. *)
Definition advances (n : Z) (t t' : StringDictionary) : Prop := kSmiValueSize = 32 \/ NextEnumerationIndex t' <= NextEnumerationIndex t + n.

Lemma advances_prefix (t t' : StringDictionary) n : prefix t' = prefix t -> 0 <= n -> advances n t t'.
Proof. intros Hp Hn. right. unfold NextEnumerationIndex. rewrite Hp. lia. Qed.

Lemma indices_after n (t t' : StringDictionary) : indices_for (n + 1) t -> advances 1 t t' -> indices_for n t'.
Proof. intros [->|H1] [H2|H2]; [by left..|right; lia]. Qed.

(** A new key: the index and the room for it. *)
Lemma EnsureCapacity_related (t : StringDictionary) l key :
  related t l -> Z.of_nat (length l) + 2 <= 2 ^ 24 -> indices_for 1 t ->
  exists o, EnsureCapacity undefined_value true kSmiValueSize kPointerSize allocates allocates_array t 1 key = Some o /\ related (this o) l /\ excused (Z.of_nat (length l)) o
  /\ advances 0 t (this o)
  /\ forall t', result o = Success t' -> related t' l /\ NextEnumerationIndex t' < index_limit /\ advances 0 t t'
     /\ NumberOfElements t' + 1 + NumberOfDeletedElements t' < Capacity t'.
Proof.
  intros Hrel Hn Hfor. unfold EnsureCapacity.
  assert (Hgen : exists r, (if true && negb (IsValidIndex (NextEnumerationIndex t + 1)) then GenerateNewEnumerationIndices kSmiValueSize allocates_array t
      else Some (Success t)) = Some r /\ match r with OutOfMemoryException => False | RetryAfterGC => (exists n, allocates_array n = false)
      | Success t' => related t' l /\ NextEnumerationIndex t' < index_limit /\ advances 0 t t' end).
  { pose proof Hrel as (_ & _ & is_ & Hi). pose proof (indexed_next _ _ _ Hi) as Hnext. pose proof index_limit_bound.
    destruct (IsValidIndex _) eqn:Ev; cbn [negb andb].
    - exists (Success t). split; [done|]. split; [done|]. split; [|by apply advances_prefix].
      apply IsValidIndex_bound in Ev; [|lia]. destruct Hfor as [E32|]; [|lia]. destruct index_limit_cases as [[_ ->]|[? _]]; lia.
    - destruct index_limit_cases as [[E32 El]|[E31 El]].
      + pose proof (GenerateNewEnumerationIndices_spec t l Hrel) as Hg. rewrite El in Hg |- *. specialize (Hg Hn).
        destruct (GenerateNewEnumerationIndices _ _ t) as [[t'| |]|]; try done.
        * exists (Success t'). split; [done|]. destruct Hg as [? Hg]. split; [done|]. split; [lia|by left].
        * exists RetryAfterGC. done.
      + exfalso. destruct Hfor as [?|Hfor]; [lia|]. rewrite IsValidIndex_intro in Ev; [done|lia]. }
  destruct Hgen as (r & -> & Hr). cbn [mbind option_bind]. destruct r as [t1| |]; [|exists (MkOutcome t RetryAfterGC)|done].
  2:{ split; [done|]. split; [done|]. split; [by right|]. split; [by apply advances_prefix|done]. }
  destruct Hr as (Hrel1 & Hlt & Hadv). pose proof Hrel1 as ([[k Hk] _] & _).
  pose proof (EnsureCapacity_spec empty_prefix (fresh_payload undefined_value) kPointerSize allocates kPointerSize_ok k t1 1 key Hk) as He. specialize (He ltac:(lia)).
  destruct (HashTable.EnsureCapacity _ _ _ _ t1 1 key) as [r|]; [|done]. cbn [mbind option_bind]. exists (MkOutcome t1 r). split; [done|]. split; [done|].
  destruct r as [t2| |]; cbn in He |- *.
  - destruct He as (Hok2 & Hroom & Hl & Hp). split; [done|]. split; [done|]. intros t' [= <-]. split; [|split; [|split; [|done]]].
    + apply (related_live t1); try done. split; [done|]. unfold room. lia.
    + unfold NextEnumerationIndex in *. by rewrite Hp.
    + unfold advances, NextEnumerationIndex in *. by rewrite Hp.
  - split; [by left|]. by split.
  - rewrite (related_size t1 l Hrel1) in He. split; [exact He|]. by split.
Qed.

Lemma Add_related (t : StringDictionary) l name value a ty :
  related t l -> Z.of_nat (length l) + 2 <= 2 ^ 24 -> indices_for 1 t -> 0 <= a < 8 -> 0 <= ty < 16 -> characters name ∉ p_name <$> l ->
  let q := MkProperty (characters name) value a ty in
  exists o, String_Add t name value (PropertyDetails a ty 0) = Some o /\ excused (Z.of_nat (length l)) o
  /\ related (after o) (if has_effect (SSet name value a ty) o then l ++ [q] else l) /\ advances 1 t (after o).
Proof.
  intros Hrel Hn Hfor Ha Hty Hnew q. unfold String_Add, Add.
  destruct (EnsureCapacity_related t l name Hrel Hn Hfor) as (o & -> & Hthis & Hex & Hadv & Hsucc). cbn [mbind option_bind]. unfold add_to.
  assert (Hadv1 : advances 1 t (this o)) by (destruct Hadv as [|]; [by left|right; lia]).
  destruct o as [t1 [t2| |]]; cbn [result this] in *; [|eexists; done|eexists; done].
  destruct (Hsucc t2 eq_refl) as (Hrel2 & Hlt & Hadv2 & Hroom). pose proof Hrel2 as ([[k Hk] _] & Hpl & is_ & Hi).
  pose proof (proj2 (contents_names t2 l _ Hrel2) Hnew) as Hc.
  destruct (AddEntry_spec true kSmiValueSize k t2 name name value (PropertyDetails a ty 0) Hk Hroom Hc eq_refl) as (t3 & -> & Hok3 & _ & Hl3 & Hp3).
  cbn [mbind option_bind]. eexists. split; [done|]. split; [done|]. cbn [has_effect result after]. unfold after. cbn [result].
  pose proof (indexed_next _ _ _ Hi) as Hnext. unfold assigned in Hl3, Hp3.
  rewrite details_deleted, details_index, details_attributes, details_type in Hl3, Hp3 by lia. cbn [negb andb fst snd] in Hl3, Hp3.
  change (0 =? 0) with true in Hl3, Hp3. cbn [andb fst snd] in Hl3, Hp3.
  assert (Hn3 : NextEnumerationIndex t3 = NextEnumerationIndex t2 + 1) by (unfold NextEnumerationIndex; by rewrite Hp3).
  split; [|destruct Hadv2 as [|]; [by left|right; lia]].
  split; [exact Hok3|]. split; [apply Forall_app; split; [done|by apply Forall_singleton]|]. exists (is_ ++ [NextEnumerationIndex t2]).
  eapply indexed_add; [exact Hi| |exact Hlt|exact Hl3|exact Hn3]. done.
Qed.

(** The entry of a property that is there. *)
Lemma find_related (t : StringDictionary) l name :
  related t l -> characters name ∈ p_name <$> l ->
  exists e o x t' is_ j p i, String_FindEntry t name = Some (Z.of_nat e, t') /\ related t' l /\ prefix t' = prefix t /\ indexed t' l is_
  /\ entries t' !! e = Some (object o, x) /\ characters o = characters name /\ l !! j = Some p /\ is_ !! j = Some i
  /\ p_name p = characters name /\ x = snd (stored p i) /\ property_ok p /\ index_ok i
  /\ forall rest, live (entries t') ≡ₚ (o, x) :: rest ->
     view <$> rest ≡ₚ zip_with stored (take j l) (take j is_) ++ zip_with stored (drop (S j) l) (drop (S j) is_).
Proof.
  intros Hrel Hin. destruct (contents t !! characters name) as [x|] eqn:Ex; [|by apply (contents_names t l) in Ex].
  destruct (String_FindEntry_found t name x (proj1 Hrel) Ex) as (e & o0 & o & t' & Hf & Hok' & Hp' & He & Ho & Ho0 & _ & rest & Hl & Hl').
  assert (Hrel' : related t' l).
  { apply (related_view t); [done|done| |done]. rewrite Hl, Hl', !fmap_cons. unfold view at 1 3. cbn [fst snd]. by rewrite Ho, Ho0. }
  pose proof Hrel' as (_ & Hpl & is_ & Hi). destruct (indexed_lookup t' l is_ o x rest Hi Hl') as (j & p & i & Hp & Hij & Hn & Hx & _).
  exists e, o, x, t', is_, j, p, i. do 8 (split; [done|]). split; [congruence|]. split; [done|].
  pose proof (indexed_ok _ _ _ Hi) as Hio. rewrite Forall_lookup in Hpl. rewrite Forall_lookup in Hio. split; [by eapply Hpl|]. split; [by eapply Hio|].
  intros rest2 Hl2. rewrite Hl2 in Hl'. apply (inj (cons (o, x))) in Hl'. rewrite Hl'.
  destruct (indexed_lookup t' l is_ o x rest Hi ltac:(rewrite Hl2, Hl'; done)) as (j2 & p2 & i2 & Hp2 & Hij2 & Hn2 & _ & Hr).
  assert (j2 = j) as ->; [|by rewrite Hr].
  pose proof (names_unique t' l is_ Hok' Hi) as Hnd. apply (NoDup_lookup _ j2 j (characters o) Hnd); by rewrite list_lookup_fmap, ?Hp2, ?Hp; cbn; rewrite ?Hn2, ?Hn.
Qed.

Lemma Set_related (t : StringDictionary) l name value a ty :
  related t l -> Z.of_nat (length l) + 2 <= 2 ^ 24 -> indices_for 1 t -> 0 <= a < 8 -> 0 <= ty < 16 ->
  let c := SSet name value a ty in
  exists o, execute t c = Some o /\ excused (Z.of_nat (length l)) o /\ related (after o) (if has_effect c o then apply l c else l)
  /\ advances 1 t (after o).
Proof.
  intros Hrel Hn Hfor Ha Hty c. unfold c. cbn [execute apply]. unfold SetNormalizedProperty. set (q := MkProperty (characters name) value a ty).
  destruct (decide (characters name ∈ p_name <$> l)) as [Hin|Hnew].
  - destruct (find_related t l name Hrel Hin) as (e & o & x & t' & is_ & j & p & i & -> & Hrel' & Hpre & Hi & He & Ho & Hp & Hij & Hn' & Hx & Hpok & Hio & Hrest).
    cbn [mbind option_bind]. rewrite (proj2 (Z.eqb_neq _ kNotFound)) by (unfold kNotFound; lia).
    unfold DetailsAt, entry_at. rewrite (proj2 (Z.leb_le _ _)), Nat2Z.id, He by lia. cbn [mbind option_bind snd].
    pose proof index_limit_bound. destruct (read_stored p i Hpok Hio) as (Hidx & _). rewrite <- Hx in Hidx. rewrite Hidx, details_attributes, details_type by lia.
    unfold SetEntry. rewrite (set_entry_inside t' e _ _ He). cbn [mbind option_bind]. eexists. split; [done|]. split; [done|].
    unfold after. cbn [result has_effect]. split; [|apply advances_prefix; [exact Hpre|lia]]. pose proof Hrel' as ([[k Hk] Hroom] & Hpl & _).
    destruct (update_slot k t' e o name x (value, AsSmi kSmiValueSize (PropertyDetails a ty i)) Hk He ltac:(done)) as (Hk' & _ & rest & Hl & Hl').
    pose proof (names_unique t' l is_ (proj1 Hrel') Hi) as Hnd.
    rewrite (set_property_at l j p q Hnd Hp) by (by rewrite Hn'). split; [split; [by exists k|exact Hroom]|].
    split; [apply Forall_app; split; [by apply Forall_take|constructor; [done|by apply Forall_drop]]|]. exists is_.
    eapply (indexed_replace t'); [exact Hi|exact Hp|exact Hij| |exact (Hrest rest Hl)|exact Hl'|done].
    done.
  - rewrite (String_FindEntry_missing t name (proj1 Hrel)) by (by apply (contents_names t l)). cbn [mbind option_bind].
    change (kNotFound =? kNotFound) with true. cbn match. destruct (Add_related t l name value a ty Hrel Hn Hfor Ha Hty Hnew) as (o & -> & Hex & Hr).
    exists o. split; [done|]. split; [done|]. rewrite set_property_new by done. exact Hr.
Qed.

Lemma Delete_related (t : StringDictionary) l name mode :
  related t l -> exists o, execute t (SDelete name mode) = Some o /\ excused (Z.of_nat (length l)) o /\ related (after o) (apply l (SDelete name mode))
  /\ advances 1 t (after o).
Proof.
  intros Hrel. cbn [execute apply]. unfold DeleteNormalizedProperty. destruct (decide (characters name ∈ p_name <$> l)) as [Hin|Hnew].
  - destruct (find_related t l name Hrel Hin) as (e & o & x & t' & is_ & j & p & i & -> & Hrel' & Hpre & Hi & He & Ho & Hp & Hij & Hn' & Hx & Hpok & Hio & Hrest).
    cbn [mbind option_bind]. rewrite (proj2 (Z.eqb_neq _ kNotFound)) by (unfold kNotFound; lia). pose proof Hrel' as ([[k Hk] Hroom] & Hpl & _).
    destruct (DeleteProperty_spec null_value kSmiValueSize k t' e o x mode Hk Hroom He) as (t2 & -> & Hkeep & Hdel). cbn [mbind option_bind].
    assert (Hcan : negb (IsDontDelete (FromSmi (snd x)) && negb (bool_decide (mode = FORCE_DELETION))) = can_delete mode p).
    { unfold IsDontDelete, can_delete. destruct (read_stored p i Hpok Hio) as (_ & Hat & _). rewrite <- Hx in Hat. rewrite Hat.
      by rewrite negb_andb, !negb_involutive. }
    rewrite Hcan in *. rewrite <- Hn', (filter_at l j p mode (names_unique t' l is_ (proj1 Hrel') Hi) Hp).
    destruct (can_delete mode p); [|eexists; split; [done|]; split; [done|]; unfold after; cbn [result]; rewrite Hkeep; split; [done|by apply advances_prefix]].
    destruct (Hdel eq_refl) as (Hok2 & _ & Hl & Hp2). specialize (Hrest _ Hl).
    assert (Hrel2 : related t2 (take j l ++ drop (S j) l)).
    { split; [exact Hok2|]. split; [apply Forall_app; split; [by apply Forall_take|by apply Forall_drop]|].
      eexists. by eapply (indexed_remove t'). }
    destruct Hok2 as [[k2 Hk2] Hroom2].
    pose proof (Shrink_spec empty_prefix (fresh_payload undefined_value) kPointerSize allocates kPointerSize_ok k2 t2 name Hk2 Hroom2) as Hs.
    destruct (Shrink _ _ _ _ t2 name) as [r|]; [|done]. cbn [mbind option_bind]. eexists. split; [done|].
    assert (Hadv : advances 1 t t2) by (apply advances_prefix; [by rewrite Hp2|lia]).
    destruct r as [t3| |]; cbn in Hs |- *; [|split; [by left|by split]|split; [|by split]; rewrite (related_size _ _ Hrel2), length_app, length_take, length_drop in Hs; lia].
    destruct Hs as (Hok3 & Hroom3 & Hl3 & Hp3). split; [done|]. split; [by apply (related_live t2)|]. apply advances_prefix; [congruence|lia].
  - rewrite (String_FindEntry_missing t name (proj1 Hrel)) by (by apply (contents_names t l)). cbn [mbind option_bind].
    change (kNotFound =? kNotFound) with true. cbn match. eexists. split; [done|]. split; [done|]. unfold after. cbn [result].
    rewrite filter_other by done. split; [done|by apply advances_prefix].
Qed.

(** ** Enumeration *)

(** The index and the name of an entry that is enumerated. *)
Definition enum_key (e : StringObject * (V * Z)) : option (Z * StringObject) :=
  let details := FromSmi (snd (snd e)) in
  if IsDeleted details || IsDontEnum details then None else Some (index details, fst e).

Definition enum_view (v : View) : option (Z * list Z) :=
  let details := FromSmi (snd (snd v)) in
  if IsDeleted details || IsDontEnum details then None else Some (index details, fst v).

Lemma enum_views (es : list (StringObject * (V * Z))) :
  (fun x : Z * StringObject => (fst x, characters (snd x))) <$> omap enum_key es = omap enum_view (view <$> es).
Proof.
  induction es as [|e es IH]; [done|]. cbn [fmap list_fmap omap list_omap]. unfold enum_key at 1, enum_view at 1. unfold view at 1 2 3 4. cbn [fst snd].
  destruct (_ || _); [exact IH|]. cbn [fmap list_fmap fst snd]. f_equal. exact IH.
Qed.

Lemma NumberOfEnumElements_spec (t : StringDictionary) :
  NumberOfEnumElements t = Z.of_nat (length (omap enum_key (live (entries t)))).
Proof.
  unfold NumberOfEnumElements, NumberOfElementsFilterAttributes. induction (entries t) as [|[[| |o] [v smi]] es IH]; [done|exact IH|exact IH|].
  rewrite live_cons. cbn [live_of fst snd app omap list_omap count_filtered]. unfold enum_key at 1. cbn [fst snd]. rewrite IH. unfold IsDontEnum.
  destruct (IsDeleted _); [done|]. cbn [orb]. destruct (_ =? 0); cbn [negb length]; lia.
Qed.

(** The loop stores the keys and their indices. *)
Lemma store_next {A} (l : list A) i n x : (i + S n <= length l)%nat ->
  store l i x = Some (<[i := x]> l) /\ take (S i) (<[i := x]> l) = take i l ++ [x] /\ drop (S i + n) (<[i := x]> l) = drop (i + S n) l.
Proof.
  intros Hlen. destruct (lookup_lt_is_Some_2 l i) as [y Hy]; [lia|]. unfold store. rewrite Hy. split; [done|]. split.
  - rewrite (take_S_r _ _ x) by (apply list_lookup_insert_eq; lia). by rewrite take_insert_ge by lia.
  - rewrite drop_insert_lt by lia. f_equal. lia.
Qed.

Lemma copy_enum_keys_spec (es : list (Element StringObject * (V * Z))) storage sort_array i :
  let E := omap enum_key (live es) in
  length storage = length sort_array -> (i + length E <= length storage)%nat ->
  copy_enum_keys es storage sort_array i =
    Some (take i storage ++ (Some <$> E.*2) ++ drop (i + length E) storage, take i sort_array ++ E.*1 ++ drop (i + length E) sort_array).
Proof.
  revert storage sort_array i. induction es as [|[[| |o] [v smi]] es IH]; intros storage sort_array i E Hlen Hi; [|by apply IH|by apply IH|].
  - cbn. by rewrite Nat.add_0_r, !take_drop.
  - assert (HE : E = if IsDeleted (FromSmi smi) || IsDontEnum (FromSmi smi) then omap enum_key (live es) else (index (FromSmi smi), o) :: omap enum_key (live es)).
    { change E with (match enum_key (o, (v, smi)) with Some y => y :: omap enum_key (live es) | None => omap enum_key (live es) end).
      unfold enum_key at 1. cbn [fst snd]. by destruct (_ || _). }
    rewrite HE in *. clear E HE. cbn [copy_enum_keys]. destruct (_ || _); [by apply IH|]. rewrite !fmap_cons. cbn [length fst snd] in *.
    destruct (store_next storage i _ (Some o) Hi) as (-> & T1 & D1). rewrite Hlen in Hi.
    destruct (store_next sort_array i _ (index (FromSmi smi)) Hi) as (Hs & T2 & D2). cbn [mbind option_bind]. rewrite Hs. cbn [mbind option_bind].
    rewrite IH by (rewrite ?length_insert; lia). by rewrite T1, T2, D1, D2, <- !app_assoc.
Qed.

(** The properties that are enumerated, with their indices. *)
Lemma enum_stored l is_ :
  length is_ = length l -> Forall property_ok l -> Forall index_ok is_ ->
  let E := omap enum_view (zip_with stored l is_) in E.*2 = enumerated l /\ E.*1 `sublist_of` is_.
Proof.
  revert is_. induction l as [|p l IH]; intros [|i is_] Hlen Hp Hi; try done. apply Forall_cons in Hp as [Hp0 Hp]. apply Forall_cons in Hi as [Hi0 Hi].
  injection Hlen as Hlen. destruct (IH is_ Hlen Hp Hi) as [H1 H2]. cbn [zip_with omap list_omap].
  destruct (read_stored p i Hp0 Hi0) as (Hx & Ha & _ & Hd).
  assert (Hv : enum_view (stored p i) = if Z.land (p_attributes p) DONT_ENUM =? 0 then Some (i, p_name p) else None).
  { unfold enum_view. rewrite Hd, Hx. unfold IsDontEnum. rewrite Ha. cbn [orb]. by destruct (_ =? 0). }
  rewrite Hv. unfold enumerated. cbn [List.filter]. destruct (Z.land (p_attributes p) DONT_ENUM =? 0); cbn [negb fmap list_fmap fst snd].
  - split; [f_equal; exact H1|by apply sublist_skip].
  - split; [exact H1|by apply sublist_cons].
Qed.

Lemma sorted_sublist (l l' : list Z) : l `sublist_of` l' -> StronglySorted Z.lt l' -> StronglySorted Z.lt l.
Proof.
  induction 1 as [|x l l' Hsub IH|x l l' Hsub IH]; intros Hs; [constructor| |]; apply StronglySorted_inv in Hs as [Hs Hx]; [|by apply IH].
  constructor; [by apply IH|]. rewrite Forall_forall in Hx |- *. intros y Hy. apply Hx. by eapply elem_of_sublist.
Qed.

Lemma sorted_pairs {A} (l : list (Z * A)) : StronglySorted Z.lt l.*1 -> StronglySorted (fun x y => x.1 < y.1) l.
Proof.
  induction l as [|x l IH]; intros Hs; [constructor|]. rewrite fmap_cons in Hs. apply StronglySorted_inv in Hs as [Hs Hx]. constructor; [by apply IH|]. rewrite Forall_forall. rewrite Forall_forall in Hx. intros y Hy. apply Hx. by apply list_elem_of_fmap_2.
Qed.

(** The names in an array of keys. *)
Definition names (c : list (option StringObject)) : list (option (list Z)) := (fun o : option StringObject => characters <$> o) <$> c.

(** The names come in the order in which the properties were added. *)
Lemma GetEnumPropertyKeys_spec (t : StringDictionary) l :
  related t l -> exists storage, GetEnumPropertyKeys t = Some storage /\ names storage = Some <$> enumerated l.
Proof.
  intros (Hok & Hpl & is_ & Hi). pose proof (indexed_ok _ _ _ Hi) as Hio. destruct Hi as [Hlen Hs Hr Hnext He].
  unfold GetEnumPropertyKeys, CopyEnumKeysTo. rewrite NumberOfEnumElements_spec, Nat2Z.id. set (E := omap enum_key (live (entries t))).
  rewrite copy_enum_keys_spec by (rewrite !repeat_length; fold E; lia). fold E. cbn [mbind option_bind].
  rewrite !take_0, !drop_ge, !app_nil_r by (rewrite repeat_length; lia). cbn [app].
  destruct (enum_stored l is_ Hlen Hpl Hio) as [Hnames Hsub]. set (L := omap enum_view (zip_with stored l is_)) in *.
  assert (HE : (fun x : Z * StringObject => (fst x, characters (snd x))) <$> E ≡ₚ L) by (unfold E, L; by rewrite enum_views, He).
  pose proof (sorted_sublist _ _ Hsub Hs) as HsL. assert (H1 : E.*1 ≡ₚ L.*1) by (rewrite <- HE, <- list_fmap_compose; done).
  destruct (SortPairs_distinct (Some <$> E.*2) E.*1) as (c & n & -> & Hcn & Hsn & Hz).
  - by rewrite !length_fmap.
  - rewrite H1. by apply sorted_NoDup.
  - rewrite H1. apply Forall_forall. intros x Hx. rewrite Forall_forall in Hio. specialize (Hio x (elem_of_sublist _ _ _ Hx Hsub)). apply index_ok_24 in Hio. unfold is_uint32. lia.
  - cbn [mbind option_bind]. exists c. split; [done|].
    assert (Heq : zip n (names c) = (fun x : Z * list Z => (fst x, Some (snd x))) <$> L).
    { apply (StronglySorted_unique_strong (fun x y : Z * option (list Z) => x.1 < y.1)); [lia| | |].
      - apply sorted_pairs. by rewrite fst_zip by (unfold names; rewrite length_fmap; lia).
      - apply sorted_pairs. by rewrite <- list_fmap_compose.
      - rewrite <- HE, <- list_fmap_compose.
        assert (Hm : forall (n : list Z) c, zip n (names c) = (fun x : Z * option StringObject => (fst x, characters <$> snd x)) <$> zip n c).
        { clear. induction n as [|x n IH]; intros [|y c]; try done. cbn. f_equal. apply IH. }
        rewrite Hm, Hz. clear. induction E as [|[x o] E IH]; [done|]. cbn. by rewrite IH. }
    apply (f_equal (fmap snd)) in Heq. rewrite snd_zip, <- list_fmap_compose in Heq by (unfold names; rewrite length_fmap; lia). rewrite Heq, <- Hnames.
    by rewrite <- list_fmap_compose.
Qed.

(** ** Sequences of commands *)

Fixpoint execute_all (t : StringDictionary) (cs : list Command) : option (StringDictionary * list bool) :=
  match cs with
  | [] => Some (t, [])
  | c :: cs => o ← execute t c; '(t, done) ← execute_all (after o) cs; Some (t, has_effect c o :: done)
  end.

Fixpoint apply_all (l : list Property) (cs : list Command) (done : list bool) : list Property :=
  match cs, done with
  | c :: cs, d :: done => apply_all (if (d : bool) then apply l c else l) cs done
  | _, _ => l
  end.

(** The names that a sequence of commands sets. *)
Definition sets (c : Command) : option (list Z) := match c with SSet name _ _ _ => Some (characters name) | SDelete _ _ => None end.
Definition names_set (cs : list Command) : gset (list Z) := list_to_set (omap sets cs).

Definition named_in (S : gset (list Z)) (l : list Property) : Prop := Forall (fun p => p_name p ∈ S) l.

Lemma set_property_names (P : Property -> Prop) q l : Forall P l -> P q -> Forall P (set_property q l).
Proof.
  intros Hl Hq. induction Hl as [|p l Hp Hl IH]; cbn [set_property]; [by apply Forall_singleton|]. destruct (bool_decide _); constructor; done.
Qed.

Lemma apply_names S l c : named_in S l -> (forall name, sets c = Some name -> name ∈ S) -> named_in S (apply l c).
Proof.
  intros Hl Hc. unfold named_in in *. destruct c as [name value a ty|name mode]; cbn [apply]; [apply set_property_names; [done|by apply Hc]|].
  rewrite Forall_forall in Hl |- *. intros p Hp. apply Hl. by apply list_elem_of_In, List.filter_In, proj1, list_elem_of_In in Hp.
Qed.

Lemma named_length (t : StringDictionary) l S : related t l -> named_in S l -> (length l <= size S)%nat.
Proof.
  intros (Hok & _ & is_ & Hi) Hl. pose proof (names_unique t l is_ Hok Hi) as Hnd.
  rewrite <- (length_fmap p_name l), <- (size_list_to_set (C := gset (list Z)) _ Hnd). apply subseteq_size.
  intros x Hx%elem_of_list_to_set. apply list_elem_of_fmap in Hx as (p & -> & Hp). unfold named_in in Hl. rewrite Forall_forall in Hl. by apply Hl.
Qed.

(** Enough memory for a number of properties. *)
Definition memory_for (n : Z) : Prop :=
  (forall c, allocates c = true) /\ (forall n, allocates_array n = true) /\ Z.max 32 ((n + 1) * 8) <= kMaxCapacity kPointerSize.

Lemma effect_unless_excused c o n m : excused n o -> memory_for m -> n <= m -> has_effect c o = true.
Proof.
  intros Hex (Ha & Hb & Hm) Hn. destruct c as [name value a ty|]; [|done]. cbn [has_effect]. unfold excused in Hex. destruct (result o); [done| |lia].
  destruct Hex as [[c Hc]|[x Hx]]; [by rewrite Ha in Hc|by rewrite Hb in Hx].
Qed.

Lemma commands_related (S : gset (list Z)) cs (t : StringDictionary) l :
  related t l -> named_in S l -> (forall c name, c ∈ cs -> sets c = Some name -> name ∈ S) -> Forall command_ok cs -> Z.of_nat (size S) + 2 <= 2 ^ 24 ->
  indices_for (Z.of_nat (length cs)) t ->
  exists t' done, execute_all t cs = Some (t', done) /\ length done = length cs /\ related t' (apply_all l cs done)
  /\ (memory_for (Z.of_nat (size S)) -> Forall (fun b => b = true) done).
Proof.
  intros Hrel Hl Hcs Hok HS. revert t l Hrel Hl Hcs. induction Hok as [|c cs Hc Hok IH]; intros t l Hrel Hl Hcs Hfor; cbn [execute_all]; [by exists t, []|].
  pose proof (named_length t l S Hrel Hl) as Hlen.
  assert (Hstep : exists o, execute t c = Some o /\ excused (Z.of_nat (length l)) o /\ related (after o) (if has_effect c o then apply l c else l)
    /\ advances 1 t (after o)).
  { destruct c as [name value a ty|name mode]; [apply Set_related; [done|lia| |apply Hc|apply Hc]|by apply Delete_related].
    destruct Hfor as [|Hfor]; [by left|right; cbn [length] in Hfor; lia]. }
  destruct Hstep as (o & -> & Hex & Hrel' & Hadv). cbn [mbind option_bind].
  destruct (IH (after o) _ Hrel') as (t' & done & -> & Hd & Hr & Hmem).
  - destruct (has_effect c o); [|done]. apply apply_names; [done|]. intros name. apply Hcs. by left.
  - intros c' name Hc'. apply Hcs. by right.
  - eapply indices_after; [|exact Hadv]. destruct Hfor as [|Hfor]; [by left|right; cbn [length] in Hfor; lia].
  - cbn [mbind option_bind]. exists t', (has_effect c o :: done). split; [done|]. split; [cbn; lia|]. split; [exact Hr|].
    intros Hm. constructor; [|by apply Hmem]. eapply effect_unless_excused; [exact Hex|exact Hm|lia].
Qed.

Lemma Allocate_related n (t : StringDictionary) :
  0 <= n <= 2 ^ 29 -> Allocate undefined_value kPointerSize allocates n = Success t -> related t [].
Proof.
  intros Hn. unfold Allocate. pose proof (Allocate_spec (P := (V * Z)%type) (X := Prefix) empty_prefix (fresh_payload undefined_value) kPointerSize allocates kPointerSize_ok n Hn) as Ha.
  destruct (HashTable.Allocate _ _ _ _ n) as [t0| |]; [|done|done]. destruct Ha as (k & Hk & -> & _). intros [= <-].
  set (t0 := fresh empty_prefix (fresh_payload undefined_value) k).
  split; [|split; [done|exists []; split; try done]].
  - apply (payloads_ok t0 (entries t0) (MkPrefix None kInitialIndex) eq_refl).
    split; [exists k; by apply fresh_ok|]. unfold room. cbn. apply Z.pow_pos_nonneg; lia.
  - constructor.
  - pose proof index_limit_bound. change (1 <= 1 <= index_limit). lia.
  - unfold SetNextEnumerationIndex, t0. cbn [entries set_prefix fresh]. by rewrite live_fresh.
Qed.

(** ** What a lookup sees *)

Definition find_property (name : list Z) (l : list Property) : option Property := List.find (fun p => bool_decide (p_name p = name)) l.

Lemma find_property_at l j p : NoDup (p_name <$> l) -> l !! j = Some p -> find_property (p_name p) l = Some p.
Proof.
  revert j. induction l as [|p' l IH]; intros j Hnd Hj; [done|]. rewrite fmap_cons in Hnd. apply NoDup_cons in Hnd as [Hnew Hnd]. unfold find_property. cbn [List.find].
  destruct j as [|j]; [injection Hj as ->; by rewrite bool_decide_eq_true_2|]. rewrite bool_decide_eq_false_2; [by eapply IH|].
  intros E. apply Hnew. rewrite E. apply list_elem_of_fmap. exists p. split; [done|]. by apply list_elem_of_lookup_2 with j.
Qed.

Lemma find_property_new l name : name ∉ p_name <$> l -> find_property name l = None.
Proof.
  induction l as [|p l IH]; [done|]. rewrite fmap_cons, not_elem_of_cons. intros [Hne Hnew]. unfold find_property. cbn [List.find].
  rewrite bool_decide_eq_false_2 by congruence. by apply IH.
Qed.

(** A property that is there, or none. *)
Definition seen (t : StringDictionary) (entry : Z) (p : option Property) : Prop :=
  match p with
  | None => entry = kNotFound
  | Some p => ValueAt t entry = Some (p_value p) /\ exists details, DetailsAt t entry = Some details
      /\ attributes details = p_attributes p /\ type details = p_type p /\ IsDeleted details = false
  end.

Lemma lookup_related (t : StringDictionary) l name :
  related t l -> exists entry t', String_FindEntry t name = Some (entry, t') /\ seen t' entry (find_property (characters name) l) /\ related t' l.
Proof.
  intros Hrel. destruct (decide (characters name ∈ p_name <$> l)) as [Hin|Hnew].
  - destruct (find_related t l name Hrel Hin) as (e & o & x & t' & is_ & j & p & i & Hf & Hrel' & _ & Hi & He & Ho & Hp & Hij & Hn' & Hx & Hpok & Hio & _).
    exists (Z.of_nat e), t'. split; [exact Hf|]. split; [|done]. rewrite <- Hn', (find_property_at l j p (names_unique t' l is_ (proj1 Hrel') Hi) Hp).
    unfold seen, ValueAt, DetailsAt, entry_at. rewrite (proj2 (Z.leb_le _ _)), Nat2Z.id, He by lia. cbn [mbind option_bind fst snd].
    destruct (read_stored p i Hpok Hio) as (_ & H2 & H3 & H4). rewrite <- Hx in H2, H3, H4. split; [by rewrite Hx|]. by eexists.
  - exists kNotFound, t. rewrite find_property_new by done. split; [|done]. apply String_FindEntry_missing; [apply Hrel|by apply (contents_names t l)].
Qed.

Lemma names_set_sets cs c name : c ∈ cs -> sets c = Some name -> name ∈ names_set cs.
Proof. intros Hc Hs. apply elem_of_list_to_set, list_elem_of_omap. by exists c. Qed.

(** A new dictionary starts with the first index. *)
Lemma Allocate_indices n (t : StringDictionary) (cs : list Command) :
  Allocate undefined_value kPointerSize allocates n = Success t ->
  kSmiValueSize = 32 \/ Z.of_nat (length cs) < 2 ^ 22 -> indices_for (Z.of_nat (length cs)) t.
Proof.
  intros Ha [|Hcs]; [by left|right]. unfold Allocate in Ha. destruct (HashTable.Allocate _ _ _ _ n) as [t0| |]; [|done|done].
  injection Ha as <-. change (1 + Z.of_nat (length cs) <= 2 ^ 22). lia.
Qed.

(** C34: The dictionary of an object refines the list of its properties in the order of their addition.  On a target with small
    integers of 32 bits any sequence of sets and deletions on a new dictionary, with fewer than [2 ^ 24 - 1] names but any number of
    commands, runs to its end; with small integers of 31 bits, any such sequence of fewer than [2 ^ 22] commands.  Every set has its
    effect or, when memory is not available, none; a deletion always has its effect, unless the property is not deletable and the
    deletion is not forced.  Afterwards each string finds the property of its characters, also when the key in the
    table is another string, with its value, attributes and type, and the search for it, which can replace the key, leaves the
    properties as they are. *)
Theorem StringDictionary_refines n t cs :
  0 <= n <= 2 ^ 29 -> Allocate undefined_value kPointerSize allocates n = Success t ->
  Forall command_ok cs -> Z.of_nat (size (names_set cs)) + 2 <= 2 ^ 24 -> kSmiValueSize = 32 \/ Z.of_nat (length cs) < 2 ^ 22 ->
  exists t' done, execute_all t cs = Some (t', done) /\ length done = length cs
  /\ (memory_for (Z.of_nat (size (names_set cs))) -> Forall (fun b => b = true) done)
  /\ let l := apply_all [] cs done in
     NumberOfElements t' = Z.of_nat (length l)
     /\ forall name, exists entry t'', String_FindEntry t' name = Some (entry, t'') /\ seen t'' entry (find_property (characters name) l)
        /\ related t'' l.
Proof.
  intros Hn Ha Hok HS Hsmi. pose proof (Allocate_related n t Hn Ha) as Hrel0. pose proof (Allocate_indices n t cs Ha Hsmi) as Hfor.
  destruct (commands_related (names_set cs) cs t [] Hrel0 (Forall_nil_2 _) (fun c name => names_set_sets cs c name) Hok HS Hfor) as (t' & done & E & Hlen & Hrel & Hmem).
  exists t', done. split; [exact E|]. split; [exact Hlen|]. split; [exact Hmem|]. split; [by apply related_size|]. intros name. by apply lookup_related.
Qed.

(** C35: The names of the enumerable properties come in the order in which the properties were added, whatever the order of the hash
    table: a property that is set again keeps its place, one that was deleted and is added again comes last.  On a target with small
    integers of 32 bits and fewer than [2 ^ 24 - 1] names this holds for any number of commands, also after the indices of
    enumeration were exhausted and made anew; with small integers of 31 bits it holds for fewer than [2 ^ 22] commands, and
    [Examples.order_lost] shows a dictionary with greater indices whose order is lost. *)
Theorem GetEnumPropertyKeys_order n t cs :
  0 <= n <= 2 ^ 29 -> Allocate undefined_value kPointerSize allocates n = Success t ->
  Forall command_ok cs -> Z.of_nat (size (names_set cs)) + 2 <= 2 ^ 24 -> kSmiValueSize = 32 \/ Z.of_nat (length cs) < 2 ^ 22 ->
  exists t' done storage, execute_all t cs = Some (t', done) /\ GetEnumPropertyKeys t' = Some storage
  /\ names storage = Some <$> enumerated (apply_all [] cs done).
Proof.
  intros Hn Ha Hok HS Hsmi. pose proof (Allocate_related n t Hn Ha) as Hrel0. pose proof (Allocate_indices n t cs Ha Hsmi) as Hfor.
  destruct (commands_related (names_set cs) cs t [] Hrel0 (Forall_nil_2 _) (fun c name => names_set_sets cs c name) Hok HS Hfor) as (t' & done & E & _ & Hrel & _).
  destruct (GetEnumPropertyKeys_spec t' _ Hrel) as (storage & Hg & Hnames). exists t', done, storage. done.
Qed.
End StringDictionary.

(** ** Examples *)

Module Examples.
Definition a := Symbol [97].
Definition b := Symbol [98].
Definition c := NonSymbol 1 [99].
Definition d := Symbol [100].

(** A dictionary with a great next index. *)
Definition late (next_index : Z) : option (HashTable (Obj := StringObject) (P := (Z * Z)%type) (X := Prefix)) :=
  match Allocate 0 8 (fun _ => true) 4 with Success t => Some (SetNextEnumerationIndex next_index t) | _ => None end.

Definition run_from (kSmiValueSize next_index : Z) (cs : list (Command (V := Z))) : option (list (option StringObject) * Z) :=
  t ← late next_index;
  '(t, _) ← execute_all (-1) 0 kSmiValueSize 8 (fun _ => true) (fun _ => true) t cs;
  keys ← GetEnumPropertyKeys t; Some (keys, NextEnumerationIndex t).

(** Indices that are soon exhausted. *)
Definition run := run_from 32 (2 ^ 24 - 4).

(** The fourth key makes new indices; the order stays. *)
Example new_indices : run [SSet d 1 0 0; SSet b 2 0 0; SSet a 3 0 0; SSet c 4 0 0] = Some ([Some d; Some b; Some a; Some c], 5).
Proof. vm_compute. reflexivity. Qed.

(** A symbol replaces the equal string; a hidden property is not enumerated. *)
Example symbol_replaces : run [SSet c 1 0 0; SSet d 2 DONT_ENUM 0; SSet (Symbol [99]) 3 0 0] = Some ([Some (Symbol [99])], 2 ^ 24 - 2).
Proof. vm_compute. reflexivity. Qed.

(** With small integers of 31 bits the index [2 ^ 23] is read as 0: the property that was added last is enumerated first.  With
    those of 32 bits the order is kept. *)
Example order_lost : run_from 31 (2 ^ 23 - 1) [SSet d 1 0 0; SSet b 2 0 0] = Some ([Some b; Some d], 2 ^ 23 + 1).
Proof. vm_compute. reflexivity. Qed.

Example order_kept : run_from 32 (2 ^ 23 - 1) [SSet d 1 0 0; SSet b 2 0 0] = Some ([Some d; Some b], 2 ^ 23 + 1).
Proof. vm_compute. reflexivity. Qed.
End Examples.

Lemma StringDictionary_refines_witness :
  let cs := [SSet (Symbol [97]) 1 0 0; SSet (NonSymbol 1 [98]) 2 DONT_DELETE 0; SDelete (Symbol [98]) NORMAL_DELETION; SDelete (Symbol [97]) NORMAL_DELETION] in
  exists t t' done entry t'', Allocate 0 8 (fun _ => true) 4 = Success t
  /\ execute_all (-1) 0 32 8 (fun _ => true) (fun _ => true) t cs = Some (t', done) /\ NumberOfElements t' = 1
  /\ String_FindEntry t' (Symbol [98]) = Some (entry, t'') /\ ValueAt t'' entry = Some 2.
Proof.
  intros cs. destruct (Allocate 0 8 (fun _ => true) 4) as [t| |] eqn:E; [|by vm_compute in E|by vm_compute in E].
  assert (Hok : Forall (command_ok (V := Z)) cs) by (repeat constructor; vm_compute; done).
  destruct (StringDictionary_refines (-1) 0 32 8 (fun _ => true) (fun _ => true) ltac:(lia) ltac:(lia) 4 t cs ltac:(lia) E Hok ltac:(by vm_compute) ltac:(by left))
    as (t' & done & H1 & H2 & H3 & H4 & H5).
  assert (Hdone : done = [true; true; true; true]).
  { assert (Hm : memory_for 8 (fun _ => true) (fun _ => true) (Z.of_nat (size (names_set cs)))) by (split; [done|]; split; [done|by vm_compute]).
    specialize (H3 Hm). destruct done as [|? [|? [|? [|? [|? ?]]]]]; try done.
    apply Forall_cons in H3 as [-> H3]. apply Forall_cons in H3 as [-> H3]. apply Forall_cons in H3 as [-> H3]. by apply Forall_cons in H3 as [-> _]. }
  subst done. destruct (H5 (Symbol [98])) as (entry & t'' & Hf & [Hv _] & _). exists t, t', [true; true; true; true], entry, t''.
  split; [reflexivity|]. split; [exact H1|]. split; [exact H4|]. split; [exact Hf|exact Hv].
Defined.

Lemma GetEnumPropertyKeys_order_witness :
  let cs := [SSet (Symbol [122]) 1 0 0; SSet (Symbol [97]) 2 0 0; SDelete (Symbol [122]) NORMAL_DELETION; SSet (Symbol [98]) 3 DONT_ENUM 0; SSet (Symbol [122]) 4 0 0] in
  exists t t' done storage, Allocate 0 8 (fun _ => true) 4 = Success t
  /\ execute_all (-1) 0 32 8 (fun _ => true) (fun _ => true) t cs = Some (t', done) /\ GetEnumPropertyKeys t' = Some storage
  /\ names storage = Some <$> enumerated (apply_all [] cs done) /\ enumerated (apply_all [] cs [true; true; true; true; true]) = [[97]; [122]].
Proof.
  intros cs. destruct (Allocate 0 8 (fun _ => true) 4) as [t| |] eqn:E; [|by vm_compute in E|by vm_compute in E].
  assert (Hok : Forall (command_ok (V := Z)) cs) by (repeat constructor; vm_compute; done).
  destruct (GetEnumPropertyKeys_order (-1) 0 32 8 (fun _ => true) (fun _ => true) ltac:(lia) ltac:(lia) 4 t cs ltac:(lia) E Hok ltac:(by vm_compute) ltac:(by left))
    as (t' & done & storage & H1 & H2 & H3).
  exists t, t', done, storage. split; [reflexivity|]. split; [exact H1|]. split; [exact H2|]. split; [exact H3|vm_compute; reflexivity].
Defined.
