(* ===== verification/Dates.v ===== *)
(** * Dates: from days to dates and back

    Models the functions on dates of src/runtime.cc: [MakeDay] and [DateYMDFromTime] with its two variants and the tables
    of four years.  Days are counted from the first of January 1970, months from 0.  The type is [int]: an
    overflow is undefined and so is an index out of a table; both are [None], and the theorems say that there is none.
    The specification is a calendar: the first date and the date that follows a date. *)

From S2P Require Import Prelude.
Local Open Scope Z_scope.

(** ** The functions *)

(** The value of an expression of type [int]. *)
Definition int (x : Z) : option Z := if (- 2 ^ 31 <=? x) && (x <? 2 ^ 31) then Some x else None.

Definition element (table : list Z) (i : Z) : option Z := if 0 <=? i then table !! Z.to_nat i else None.

Definition day_from_month : list Z := [0; 31; 59; 90; 120; 151; 181; 212; 243; 273; 304; 334].
Definition day_from_month_leap : list Z := [0; 31; 60; 91; 121; 152; 182; 213; 244; 274; 305; 335].

Definition year_delta : Z := 399999.
Definition base_day : Z :=
  365 * (1970 + year_delta) + Z.quot (1970 + year_delta) 4 - Z.quot (1970 + year_delta) 100 + Z.quot (1970 + year_delta) 400.

Definition day_from_year (year : Z) : option Z :=
  year1 ← int (year + year_delta);
  d ← int (365 * year1);
  d ← int (d + Z.quot year1 4);
  d ← int (d - Z.quot year1 100);
  d ← int (d + Z.quot year1 400);
  int (d - base_day).

Definition MakeDay (year month day : Z) : option Z :=
  year ← int (year + Z.quot month 12);
  let month := Z.rem month 12 in
  year ← (if month <? 0 then int (year - 1) else Some year);
  let month := if month <? 0 then month + 12 else month in
  day_from_year ← day_from_year year;
  let table :=
    if negb (Z.rem year 4 =? 0) || (Z.rem year 100 =? 0) && negb (Z.rem year 400 =? 0) then day_from_month else day_from_month_leap in
  days ← element table month;
  d ← int (day_from_year + days);
  d ← int (d + day);
  int (d - 1).

Definition kDaysIn4Years : Z := 4 * 365 + 1.
Definition kDaysIn100Years : Z := 25 * kDaysIn4Years - 1.
Definition kDaysIn400Years : Z := 4 * kDaysIn100Years + 1.
Definition kDays1970to2000 : Z := 30 * 365 + 7.
Definition kDaysOffset : Z := 1000 * kDaysIn400Years + 5 * kDaysIn400Years - kDays1970to2000.
Definition kYearsOffset : Z := 400000.

(** Days and months of four years, of which the third is a leap year. *)
Definition kDayInYear : list Z :=
  [1; 2; 3; 4; 5; 6; 7; 8; 9; 10; 11; 12; 13; 14; 15; 16; 17; 18; 19; 20; 21; 22; 23; 24; 25; 26; 27; 28; 29; 30; 31;
    1; 2; 3; 4; 5; 6; 7; 8; 9; 10; 11; 12; 13; 14; 15; 16; 17; 18; 19; 20; 21; 22; 23; 24; 25; 26; 27; 28; 1; 2; 3; 4;
    5; 6; 7; 8; 9; 10; 11; 12; 13; 14; 15; 16; 17; 18; 19; 20; 21; 22; 23; 24; 25; 26; 27; 28; 29; 30; 31; 1; 2; 3; 4;
    5; 6; 7; 8; 9; 10; 11; 12; 13; 14; 15; 16; 17; 18; 19; 20; 21; 22; 23; 24; 25; 26; 27; 28; 29; 30; 1; 2; 3; 4; 5;
    6; 7; 8; 9; 10; 11; 12; 13; 14; 15; 16; 17; 18; 19; 20; 21; 22; 23; 24; 25; 26; 27; 28; 29; 30; 31; 1; 2; 3; 4; 5;
    6; 7; 8; 9; 10; 11; 12; 13; 14; 15; 16; 17; 18; 19; 20; 21; 22; 23; 24; 25; 26; 27; 28; 29; 30; 1; 2; 3; 4; 5; 6;
    7; 8; 9; 10; 11; 12; 13; 14; 15; 16; 17; 18; 19; 20; 21; 22; 23; 24; 25; 26; 27; 28; 29; 30; 31; 1; 2; 3; 4; 5; 6;
    7; 8; 9; 10; 11; 12; 13; 14; 15; 16; 17; 18; 19; 20; 21; 22; 23; 24; 25; 26; 27; 28; 29; 30; 31; 1; 2; 3; 4; 5; 6;
    7; 8; 9; 10; 11; 12; 13; 14; 15; 16; 17; 18; 19; 20; 21; 22; 23; 24; 25; 26; 27; 28; 29; 30; 1; 2; 3; 4; 5; 6; 7;
    8; 9; 10; 11; 12; 13; 14; 15; 16; 17; 18; 19; 20; 21; 22; 23; 24; 25; 26; 27; 28; 29; 30; 31; 1; 2; 3; 4; 5; 6; 7;
    8; 9; 10; 11; 12; 13; 14; 15; 16; 17; 18; 19; 20; 21; 22; 23; 24; 25; 26; 27; 28; 29; 30; 1; 2; 3; 4; 5; 6; 7; 8;
    9; 10; 11; 12; 13; 14; 15; 16; 17; 18; 19; 20; 21; 22; 23; 24; 25; 26; 27; 28; 29; 30; 31; 1; 2; 3; 4; 5; 6; 7; 8;
    9; 10; 11; 12; 13; 14; 15; 16; 17; 18; 19; 20; 21; 22; 23; 24; 25; 26; 27; 28; 29; 30; 31; 1; 2; 3; 4; 5; 6; 7; 8;
    9; 10; 11; 12; 13; 14; 15; 16; 17; 18; 19; 20; 21; 22; 23; 24; 25; 26; 27; 28; 1; 2; 3; 4; 5; 6; 7; 8; 9; 10; 11;
    12; 13; 14; 15; 16; 17; 18; 19; 20; 21; 22; 23; 24; 25; 26; 27; 28; 29; 30; 31; 1; 2; 3; 4; 5; 6; 7; 8; 9; 10; 11;
    12; 13; 14; 15; 16; 17; 18; 19; 20; 21; 22; 23; 24; 25; 26; 27; 28; 29; 30; 1; 2; 3; 4; 5; 6; 7; 8; 9; 10; 11; 12;
    13; 14; 15; 16; 17; 18; 19; 20; 21; 22; 23; 24; 25; 26; 27; 28; 29; 30; 31; 1; 2; 3; 4; 5; 6; 7; 8; 9; 10; 11; 12;
    13; 14; 15; 16; 17; 18; 19; 20; 21; 22; 23; 24; 25; 26; 27; 28; 29; 30; 1; 2; 3; 4; 5; 6; 7; 8; 9; 10; 11; 12; 13;
    14; 15; 16; 17; 18; 19; 20; 21; 22; 23; 24; 25; 26; 27; 28; 29; 30; 31; 1; 2; 3; 4; 5; 6; 7; 8; 9; 10; 11; 12; 13;
    14; 15; 16; 17; 18; 19; 20; 21; 22; 23; 24; 25; 26; 27; 28; 29; 30; 31; 1; 2; 3; 4; 5; 6; 7; 8; 9; 10; 11; 12; 13;
    14; 15; 16; 17; 18; 19; 20; 21; 22; 23; 24; 25; 26; 27; 28; 29; 30; 1; 2; 3; 4; 5; 6; 7; 8; 9; 10; 11; 12; 13; 14;
    15; 16; 17; 18; 19; 20; 21; 22; 23; 24; 25; 26; 27; 28; 29; 30; 31; 1; 2; 3; 4; 5; 6; 7; 8; 9; 10; 11; 12; 13; 14;
    15; 16; 17; 18; 19; 20; 21; 22; 23; 24; 25; 26; 27; 28; 29; 30; 1; 2; 3; 4; 5; 6; 7; 8; 9; 10; 11; 12; 13; 14; 15;
    16; 17; 18; 19; 20; 21; 22; 23; 24; 25; 26; 27; 28; 29; 30; 31; 1; 2; 3; 4; 5; 6; 7; 8; 9; 10; 11; 12; 13; 14; 15;
    16; 17; 18; 19; 20; 21; 22; 23; 24; 25; 26; 27; 28; 29; 30; 31; 1; 2; 3; 4; 5; 6; 7; 8; 9; 10; 11; 12; 13; 14; 15;
    16; 17; 18; 19; 20; 21; 22; 23; 24; 25; 26; 27; 28; 29; 1; 2; 3; 4; 5; 6; 7; 8; 9; 10; 11; 12; 13; 14; 15; 16; 17;
    18; 19; 20; 21; 22; 23; 24; 25; 26; 27; 28; 29; 30; 31; 1; 2; 3; 4; 5; 6; 7; 8; 9; 10; 11; 12; 13; 14; 15; 16; 17;
    18; 19; 20; 21; 22; 23; 24; 25; 26; 27; 28; 29; 30; 1; 2; 3; 4; 5; 6; 7; 8; 9; 10; 11; 12; 13; 14; 15; 16; 17; 18;
    19; 20; 21; 22; 23; 24; 25; 26; 27; 28; 29; 30; 31; 1; 2; 3; 4; 5; 6; 7; 8; 9; 10; 11; 12; 13; 14; 15; 16; 17; 18;
    19; 20; 21; 22; 23; 24; 25; 26; 27; 28; 29; 30; 1; 2; 3; 4; 5; 6; 7; 8; 9; 10; 11; 12; 13; 14; 15; 16; 17; 18; 19;
    20; 21; 22; 23; 24; 25; 26; 27; 28; 29; 30; 31; 1; 2; 3; 4; 5; 6; 7; 8; 9; 10; 11; 12; 13; 14; 15; 16; 17; 18; 19;
    20; 21; 22; 23; 24; 25; 26; 27; 28; 29; 30; 31; 1; 2; 3; 4; 5; 6; 7; 8; 9; 10; 11; 12; 13; 14; 15; 16; 17; 18; 19;
    20; 21; 22; 23; 24; 25; 26; 27; 28; 29; 30; 1; 2; 3; 4; 5; 6; 7; 8; 9; 10; 11; 12; 13; 14; 15; 16; 17; 18; 19; 20;
    21; 22; 23; 24; 25; 26; 27; 28; 29; 30; 31; 1; 2; 3; 4; 5; 6; 7; 8; 9; 10; 11; 12; 13; 14; 15; 16; 17; 18; 19; 20;
    21; 22; 23; 24; 25; 26; 27; 28; 29; 30; 1; 2; 3; 4; 5; 6; 7; 8; 9; 10; 11; 12; 13; 14; 15; 16; 17; 18; 19; 20; 21;
    22; 23; 24; 25; 26; 27; 28; 29; 30; 31; 1; 2; 3; 4; 5; 6; 7; 8; 9; 10; 11; 12; 13; 14; 15; 16; 17; 18; 19; 20; 21;
    22; 23; 24; 25; 26; 27; 28; 29; 30; 31; 1; 2; 3; 4; 5; 6; 7; 8; 9; 10; 11; 12; 13; 14; 15; 16; 17; 18; 19; 20; 21;
    22; 23; 24; 25; 26; 27; 28; 1; 2; 3; 4; 5; 6; 7; 8; 9; 10; 11; 12; 13; 14; 15; 16; 17; 18; 19; 20; 21; 22; 23; 24;
    25; 26; 27; 28; 29; 30; 31; 1; 2; 3; 4; 5; 6; 7; 8; 9; 10; 11; 12; 13; 14; 15; 16; 17; 18; 19; 20; 21; 22; 23; 24;
    25; 26; 27; 28; 29; 30; 1; 2; 3; 4; 5; 6; 7; 8; 9; 10; 11; 12; 13; 14; 15; 16; 17; 18; 19; 20; 21; 22; 23; 24; 25;
    26; 27; 28; 29; 30; 31; 1; 2; 3; 4; 5; 6; 7; 8; 9; 10; 11; 12; 13; 14; 15; 16; 17; 18; 19; 20; 21; 22; 23; 24; 25;
    26; 27; 28; 29; 30; 1; 2; 3; 4; 5; 6; 7; 8; 9; 10; 11; 12; 13; 14; 15; 16; 17; 18; 19; 20; 21; 22; 23; 24; 25; 26;
    27; 28; 29; 30; 31; 1; 2; 3; 4; 5; 6; 7; 8; 9; 10; 11; 12; 13; 14; 15; 16; 17; 18; 19; 20; 21; 22; 23; 24; 25; 26;
    27; 28; 29; 30; 31; 1; 2; 3; 4; 5; 6; 7; 8; 9; 10; 11; 12; 13; 14; 15; 16; 17; 18; 19; 20; 21; 22; 23; 24; 25; 26;
    27; 28; 29; 30; 1; 2; 3; 4; 5; 6; 7; 8; 9; 10; 11; 12; 13; 14; 15; 16; 17; 18; 19; 20; 21; 22; 23; 24; 25; 26; 27;
    28; 29; 30; 31; 1; 2; 3; 4; 5; 6; 7; 8; 9; 10; 11; 12; 13; 14; 15; 16; 17; 18; 19; 20; 21; 22; 23; 24; 25; 26; 27;
    28; 29; 30; 1; 2; 3; 4; 5; 6; 7; 8; 9; 10; 11; 12; 13; 14; 15; 16; 17; 18; 19; 20; 21; 22; 23; 24; 25; 26; 27; 28;
    29; 30; 31].

Definition kMonthInYear : list Z :=
  [0; 0; 0; 0; 0; 0; 0; 0; 0; 0; 0; 0; 0; 0; 0; 0; 0; 0; 0; 0; 0; 0; 0; 0; 0; 0; 0; 0; 0; 0; 0; 1; 1; 1; 1; 1; 1; 1;
    1; 1; 1; 1; 1; 1; 1; 1; 1; 1; 1; 1; 1; 1; 1; 1; 1; 1; 1; 1; 1; 2; 2; 2; 2; 2; 2; 2; 2; 2; 2; 2; 2; 2; 2; 2; 2; 2;
    2; 2; 2; 2; 2; 2; 2; 2; 2; 2; 2; 2; 2; 2; 3; 3; 3; 3; 3; 3; 3; 3; 3; 3; 3; 3; 3; 3; 3; 3; 3; 3; 3; 3; 3; 3; 3; 3;
    3; 3; 3; 3; 3; 3; 4; 4; 4; 4; 4; 4; 4; 4; 4; 4; 4; 4; 4; 4; 4; 4; 4; 4; 4; 4; 4; 4; 4; 4; 4; 4; 4; 4; 4; 4; 4; 5;
    5; 5; 5; 5; 5; 5; 5; 5; 5; 5; 5; 5; 5; 5; 5; 5; 5; 5; 5; 5; 5; 5; 5; 5; 5; 5; 5; 5; 5; 6; 6; 6; 6; 6; 6; 6; 6; 6;
    6; 6; 6; 6; 6; 6; 6; 6; 6; 6; 6; 6; 6; 6; 6; 6; 6; 6; 6; 6; 6; 6; 7; 7; 7; 7; 7; 7; 7; 7; 7; 7; 7; 7; 7; 7; 7; 7;
    7; 7; 7; 7; 7; 7; 7; 7; 7; 7; 7; 7; 7; 7; 7; 8; 8; 8; 8; 8; 8; 8; 8; 8; 8; 8; 8; 8; 8; 8; 8; 8; 8; 8; 8; 8; 8; 8;
    8; 8; 8; 8; 8; 8; 8; 9; 9; 9; 9; 9; 9; 9; 9; 9; 9; 9; 9; 9; 9; 9; 9; 9; 9; 9; 9; 9; 9; 9; 9; 9; 9; 9; 9; 9; 9; 9;
    10; 10; 10; 10; 10; 10; 10; 10; 10; 10; 10; 10; 10; 10; 10; 10; 10; 10; 10; 10; 10; 10; 10; 10; 10; 10; 10; 10;
    10; 10; 11; 11; 11; 11; 11; 11; 11; 11; 11; 11; 11; 11; 11; 11; 11; 11; 11; 11; 11; 11; 11; 11; 11; 11; 11; 11;
    11; 11; 11; 11; 11; 0; 0; 0; 0; 0; 0; 0; 0; 0; 0; 0; 0; 0; 0; 0; 0; 0; 0; 0; 0; 0; 0; 0; 0; 0; 0; 0; 0; 0; 0; 0;
    1; 1; 1; 1; 1; 1; 1; 1; 1; 1; 1; 1; 1; 1; 1; 1; 1; 1; 1; 1; 1; 1; 1; 1; 1; 1; 1; 1; 2; 2; 2; 2; 2; 2; 2; 2; 2; 2;
    2; 2; 2; 2; 2; 2; 2; 2; 2; 2; 2; 2; 2; 2; 2; 2; 2; 2; 2; 2; 2; 3; 3; 3; 3; 3; 3; 3; 3; 3; 3; 3; 3; 3; 3; 3; 3; 3;
    3; 3; 3; 3; 3; 3; 3; 3; 3; 3; 3; 3; 3; 4; 4; 4; 4; 4; 4; 4; 4; 4; 4; 4; 4; 4; 4; 4; 4; 4; 4; 4; 4; 4; 4; 4; 4; 4;
    4; 4; 4; 4; 4; 4; 5; 5; 5; 5; 5; 5; 5; 5; 5; 5; 5; 5; 5; 5; 5; 5; 5; 5; 5; 5; 5; 5; 5; 5; 5; 5; 5; 5; 5; 5; 6; 6;
    6; 6; 6; 6; 6; 6; 6; 6; 6; 6; 6; 6; 6; 6; 6; 6; 6; 6; 6; 6; 6; 6; 6; 6; 6; 6; 6; 6; 6; 7; 7; 7; 7; 7; 7; 7; 7; 7;
    7; 7; 7; 7; 7; 7; 7; 7; 7; 7; 7; 7; 7; 7; 7; 7; 7; 7; 7; 7; 7; 7; 8; 8; 8; 8; 8; 8; 8; 8; 8; 8; 8; 8; 8; 8; 8; 8;
    8; 8; 8; 8; 8; 8; 8; 8; 8; 8; 8; 8; 8; 8; 9; 9; 9; 9; 9; 9; 9; 9; 9; 9; 9; 9; 9; 9; 9; 9; 9; 9; 9; 9; 9; 9; 9; 9;
    9; 9; 9; 9; 9; 9; 9; 10; 10; 10; 10; 10; 10; 10; 10; 10; 10; 10; 10; 10; 10; 10; 10; 10; 10; 10; 10; 10; 10; 10;
    10; 10; 10; 10; 10; 10; 10; 11; 11; 11; 11; 11; 11; 11; 11; 11; 11; 11; 11; 11; 11; 11; 11; 11; 11; 11; 11; 11;
    11; 11; 11; 11; 11; 11; 11; 11; 11; 11; 0; 0; 0; 0; 0; 0; 0; 0; 0; 0; 0; 0; 0; 0; 0; 0; 0; 0; 0; 0; 0; 0; 0; 0; 0;
    0; 0; 0; 0; 0; 0; 1; 1; 1; 1; 1; 1; 1; 1; 1; 1; 1; 1; 1; 1; 1; 1; 1; 1; 1; 1; 1; 1; 1; 1; 1; 1; 1; 1; 1; 2; 2; 2;
    2; 2; 2; 2; 2; 2; 2; 2; 2; 2; 2; 2; 2; 2; 2; 2; 2; 2; 2; 2; 2; 2; 2; 2; 2; 2; 2; 2; 3; 3; 3; 3; 3; 3; 3; 3; 3; 3;
    3; 3; 3; 3; 3; 3; 3; 3; 3; 3; 3; 3; 3; 3; 3; 3; 3; 3; 3; 3; 4; 4; 4; 4; 4; 4; 4; 4; 4; 4; 4; 4; 4; 4; 4; 4; 4; 4;
    4; 4; 4; 4; 4; 4; 4; 4; 4; 4; 4; 4; 4; 5; 5; 5; 5; 5; 5; 5; 5; 5; 5; 5; 5; 5; 5; 5; 5; 5; 5; 5; 5; 5; 5; 5; 5; 5;
    5; 5; 5; 5; 5; 6; 6; 6; 6; 6; 6; 6; 6; 6; 6; 6; 6; 6; 6; 6; 6; 6; 6; 6; 6; 6; 6; 6; 6; 6; 6; 6; 6; 6; 6; 6; 7; 7;
    7; 7; 7; 7; 7; 7; 7; 7; 7; 7; 7; 7; 7; 7; 7; 7; 7; 7; 7; 7; 7; 7; 7; 7; 7; 7; 7; 7; 7; 8; 8; 8; 8; 8; 8; 8; 8; 8;
    8; 8; 8; 8; 8; 8; 8; 8; 8; 8; 8; 8; 8; 8; 8; 8; 8; 8; 8; 8; 8; 9; 9; 9; 9; 9; 9; 9; 9; 9; 9; 9; 9; 9; 9; 9; 9; 9;
    9; 9; 9; 9; 9; 9; 9; 9; 9; 9; 9; 9; 9; 9; 10; 10; 10; 10; 10; 10; 10; 10; 10; 10; 10; 10; 10; 10; 10; 10; 10; 10;
    10; 10; 10; 10; 10; 10; 10; 10; 10; 10; 10; 10; 11; 11; 11; 11; 11; 11; 11; 11; 11; 11; 11; 11; 11; 11; 11; 11;
    11; 11; 11; 11; 11; 11; 11; 11; 11; 11; 11; 11; 11; 11; 11; 0; 0; 0; 0; 0; 0; 0; 0; 0; 0; 0; 0; 0; 0; 0; 0; 0; 0;
    0; 0; 0; 0; 0; 0; 0; 0; 0; 0; 0; 0; 0; 1; 1; 1; 1; 1; 1; 1; 1; 1; 1; 1; 1; 1; 1; 1; 1; 1; 1; 1; 1; 1; 1; 1; 1; 1;
    1; 1; 1; 2; 2; 2; 2; 2; 2; 2; 2; 2; 2; 2; 2; 2; 2; 2; 2; 2; 2; 2; 2; 2; 2; 2; 2; 2; 2; 2; 2; 2; 2; 2; 3; 3; 3; 3;
    3; 3; 3; 3; 3; 3; 3; 3; 3; 3; 3; 3; 3; 3; 3; 3; 3; 3; 3; 3; 3; 3; 3; 3; 3; 3; 4; 4; 4; 4; 4; 4; 4; 4; 4; 4; 4; 4;
    4; 4; 4; 4; 4; 4; 4; 4; 4; 4; 4; 4; 4; 4; 4; 4; 4; 4; 4; 5; 5; 5; 5; 5; 5; 5; 5; 5; 5; 5; 5; 5; 5; 5; 5; 5; 5; 5;
    5; 5; 5; 5; 5; 5; 5; 5; 5; 5; 5; 6; 6; 6; 6; 6; 6; 6; 6; 6; 6; 6; 6; 6; 6; 6; 6; 6; 6; 6; 6; 6; 6; 6; 6; 6; 6; 6;
    6; 6; 6; 6; 7; 7; 7; 7; 7; 7; 7; 7; 7; 7; 7; 7; 7; 7; 7; 7; 7; 7; 7; 7; 7; 7; 7; 7; 7; 7; 7; 7; 7; 7; 7; 8; 8; 8;
    8; 8; 8; 8; 8; 8; 8; 8; 8; 8; 8; 8; 8; 8; 8; 8; 8; 8; 8; 8; 8; 8; 8; 8; 8; 8; 8; 9; 9; 9; 9; 9; 9; 9; 9; 9; 9; 9;
    9; 9; 9; 9; 9; 9; 9; 9; 9; 9; 9; 9; 9; 9; 9; 9; 9; 9; 9; 9; 10; 10; 10; 10; 10; 10; 10; 10; 10; 10; 10; 10; 10;
    10; 10; 10; 10; 10; 10; 10; 10; 10; 10; 10; 10; 10; 10; 10; 10; 10; 11; 11; 11; 11; 11; 11; 11; 11; 11; 11; 11;
    11; 11; 11; 11; 11; 11; 11; 11; 11; 11; 11; 11; 11; 11; 11; 11; 11; 11; 11; 11].

(** Year, month and day. *)
Definition Date : Type := Z * Z * Z.

Definition DateYMDFromTimeAfter1970 (date : Z) : option Date :=
  x ← int (4 * date);
  x ← int (x + 2);
  year ← int (1970 + Z.quot x kDaysIn4Years);
  let date := Z.rem date kDaysIn4Years in
  month ← element kMonthInYear date;
  day ← element kDayInYear date;
  Some (year, month, day).

Definition DateYMDFromTimeSlow (date : Z) : option Date :=
  date ← int (date + kDaysOffset);
  year ← int (400 * Z.quot date kDaysIn400Years);
  year ← int (year - kYearsOffset);
  let date := Z.rem date kDaysIn400Years in
  date ← int (date - 1);
  let yd1 := Z.quot date kDaysIn100Years in
  let date := Z.rem date kDaysIn100Years in
  year ← int (year + 100 * yd1);
  date ← int (date + 1);
  let yd2 := Z.quot date kDaysIn4Years in
  let date := Z.rem date kDaysIn4Years in
  year ← int (year + 4 * yd2);
  date ← int (date - 1);
  let yd3 := Z.quot date 365 in
  let date := Z.rem date 365 in
  year ← int (year + yd3);
  let is_leap := ((yd1 =? 0) || negb (yd2 =? 0)) && (yd3 =? 0) in
  let entry := if is_leap then 2 * 365 + 1 + date else date in
  day ← element kDayInYear entry;
  month ← element kMonthInYear entry;
  Some (year, month, day).

Definition DateYMDFromTime (date : Z) : option Date :=
  if (0 <=? date) && (date <? 32 * kDaysIn4Years) then DateYMDFromTimeAfter1970 date else DateYMDFromTimeSlow date.

(** ** The calendar *)

Definition is_leap_year (year : Z) : bool := (year mod 4 =? 0) && (negb (year mod 100 =? 0) || (year mod 400 =? 0)).

Definition month_lengths (leap : bool) : list Z := [31; if leap then 29 else 28; 31; 30; 31; 30; 31; 31; 30; 31; 30; 31].

Definition days_in_month (year month : Z) : Z := nth (Z.to_nat month) (month_lengths (is_leap_year year)) 0.

Definition valid (d : Date) : Prop := let '(year, month, day) := d in 0 <= month < 12 /\ 1 <= day <= days_in_month year month.

(** The day after a date. *)
Definition next_day (d : Date) : Date :=
  let '(year, month, day) := d in
  if day <? days_in_month year month then (year, month, day + 1)
  else if month <? 11 then (year, month + 1, 1) else (year + 1, 0, 1).

Example epoch : DateYMDFromTime 0 = Some (1970, 0, 1).
Proof. vm_compute. reflexivity. Qed.
Example leap_days : (DateYMDFromTime 11016, DateYMDFromTime 47540, DateYMDFromTime (-25509), DateYMDFromTime (-100000000))
  = (Some (2000, 1, 29), Some (2100, 1, 28), Some (1900, 1, 28), Some (-271821, 3, 20)).
Proof. vm_compute. reflexivity. Qed.

(** ** Days as numbers *)

Definition year_length (leap : bool) : Z := if leap then 366 else 365.

(** The days from 1970 to a year, and from the first of January to a month. *)
Definition before_year (y : Z) : Z := 365 * (y - 1970) + (y - 1969) / 4 - (y - 1901) / 100 + (y - 1601) / 400.
Definition before_month (leap : bool) (m : Z) : Z := foldr Z.add 0 (take (Z.to_nat m) (month_lengths leap)).

Definition number (d : Date) : Z := let '(y, m, d) := d in before_year y + before_month (is_leap_year y) m + d - 1.

Lemma is_leap_year_spec y : is_leap_year y = true <-> y mod 4 = 0 /\ (y mod 100 <> 0 \/ y mod 400 = 0).
Proof. unfold is_leap_year. rewrite andb_true_iff, orb_true_iff, negb_true_iff, !Z.eqb_eq, Z.eqb_neq. done. Qed.

Lemma before_year_next y : before_year (y + 1) = before_year y + year_length (is_leap_year y).
Proof.
  unfold before_year, year_length. destruct (is_leap_year y) eqn:E.
  - apply is_leap_year_spec in E. Z.to_euclidean_division_equations. lia.
  - assert (Hn : ~ (y mod 4 = 0 /\ (y mod 100 <> 0 \/ y mod 400 = 0))) by (rewrite <- is_leap_year_spec; congruence).
    Z.to_euclidean_division_equations. lia.
Qed.

Lemma year_length_pos leap : 0 < year_length leap.
Proof. by destruct leap. Qed.

Lemma before_year_mono y y' : y < y' -> before_year y + year_length (is_leap_year y) <= before_year y'.
Proof.
  intros Hlt. rewrite <- before_year_next. replace y' with (y + 1 + Z.of_nat (Z.to_nat (y' - (y + 1)))) by lia.
  induction (Z.to_nat (y' - (y + 1))) as [|n IH]; [by rewrite Z.add_0_r|].
  replace (y + 1 + Z.of_nat (S n)) with (y + 1 + Z.of_nat n + 1) by lia. rewrite (before_year_next (y + 1 + Z.of_nat n)). pose proof (year_length_pos (is_leap_year (y + 1 + Z.of_nat n))). lia.
Qed.

Ltac month_cases m := assert (m = 0 \/ m = 1 \/ m = 2 \/ m = 3 \/ m = 4 \/ m = 5 \/ m = 6 \/ m = 7 \/ m = 8 \/ m = 9 \/ m = 10 \/ m = 11) as Hmonth by lia;
  decompose [or] Hmonth; clear Hmonth; subst m.

Lemma before_month_next leap m : 0 <= m < 12 -> before_month leap (m + 1) = before_month leap m + nth (Z.to_nat m) (month_lengths leap) 0.
Proof. intros Hm. month_cases m; by destruct leap. Qed.

Lemma month_length_pos leap m : 0 <= m < 12 -> 28 <= nth (Z.to_nat m) (month_lengths leap) 0.
Proof.
  intros Hm. apply Z.leb_le. revert m Hm. apply (forall_below (fun m => 28 <=? nth (Z.to_nat m) (month_lengths leap) 0) 12). by destruct leap.
Qed.

Lemma before_month_mono leap m m' : 0 <= m < m' -> m' < 12 -> before_month leap m + nth (Z.to_nat m) (month_lengths leap) 0 <= before_month leap m'.
Proof.
  intros Hm Hm'. rewrite <- before_month_next by lia. assert (Hn : exists n, m' = m + 1 + Z.of_nat n) by (exists (Z.to_nat (m' - (m + 1))); lia).
  destruct Hn as [n ->]. induction n as [|n IH]; [by rewrite Z.add_0_r|].
  replace (m + 1 + Z.of_nat (S n)) with (m + 1 + Z.of_nat n + 1) in * by lia. rewrite (before_month_next leap (m + 1 + Z.of_nat n)) by lia.
  pose proof (month_length_pos leap (m + 1 + Z.of_nat n) ltac:(lia)). lia.
Qed.

Lemma before_year_end leap m d : 0 <= m < 12 -> 1 <= d <= nth (Z.to_nat m) (month_lengths leap) 0 -> 0 <= before_month leap m + d - 1 < year_length leap.
Proof.
  intros Hm Hd. assert (Hb : (0 <=? before_month leap m) && (before_month leap m + nth (Z.to_nat m) (month_lengths leap) 0 <=? year_length leap) = true); [|lia].
  clear Hd. revert m Hm. apply (forall_below (fun m => (0 <=? before_month leap m) && (before_month leap m + nth (Z.to_nat m) (month_lengths leap) 0 <=? year_length leap)) 12).
  by destruct leap.
Qed.

Lemma number_inj a b : valid a -> valid b -> number a = number b -> a = b.
Proof.
  destruct a as [[y m] d], b as [[y' m'] d']. cbn [valid number]. unfold days_in_month. intros [Hm Hd] [Hm' Hd'] E.
  pose proof (before_year_end _ _ _ Hm Hd) as B. pose proof (before_year_end _ _ _ Hm' Hd') as B'.
  assert (y = y') as ->.
  { destruct (Z.lt_trichotomy y y') as [Hlt|[|Hlt]]; [|done|]; pose proof (before_year_mono _ _ Hlt); lia. }
  assert (m = m') as ->.
  { destruct (Z.lt_trichotomy m m') as [Hlt|[|Hlt]]; [|done|].
    - pose proof (before_month_mono (is_leap_year y') m m' ltac:(lia) ltac:(lia)). lia.
    - pose proof (before_month_mono (is_leap_year y') m' m ltac:(lia) ltac:(lia)). lia. }
  f_equal. lia.
Qed.

Lemma next_day_spec a : valid a -> valid (next_day a) /\ number (next_day a) = number a + 1.
Proof.
  destruct a as [[y m] d]. cbn [valid next_day]. intros [Hm Hd]. destruct (Z.ltb_spec d (days_in_month y m)) as [Hlt|Hge].
  - split; [split; lia|]. cbn [number]. lia.
  - assert (d = days_in_month y m) as -> by lia. destruct (Z.ltb_spec m 11) as [Hlt|Hge'].
    + assert (Hpos : 1 <= days_in_month y (m + 1)) by (pose proof (month_length_pos (is_leap_year y) (m + 1) ltac:(lia)); unfold days_in_month; lia).
      split; [split; lia|]. cbn [number]. rewrite before_month_next by lia. unfold days_in_month. lia.
    + assert (m = 11) as -> by lia. assert (Hlast : before_month (is_leap_year y) 11 + days_in_month y 11 = year_length (is_leap_year y)).
      { unfold days_in_month. by destruct (is_leap_year y). }
      pose proof (month_length_pos (is_leap_year (y + 1)) 0 ltac:(lia)). split; [split; [lia|unfold days_in_month; lia]|]. cbn [number].
      rewrite before_year_next. change (before_month (is_leap_year (y + 1)) 0) with 0. lia.
Qed.

(** ** The tables *)

(** The entry for a day of a year, the first at [base], has its month and its day. *)
Definition entry_ok (leap : bool) (base doy : Z) : bool :=
  match element kMonthInYear (base + doy), element kDayInYear (base + doy) with
  | Some m, Some d =>
      (0 <=? m) && (m <? 12) && (1 <=? d) && (d <=? nth (Z.to_nat m) (month_lengths leap) 0) && (before_month leap m + d - 1 =? doy)
  | _, _ => false
  end.

Lemma tables_ok :
  forallb (entry_ok false 0) (seqZ 0 365) = true /\ forallb (entry_ok false 365) (seqZ 0 365) = true
  /\ forallb (entry_ok true 730) (seqZ 0 366) = true /\ forallb (entry_ok false 1096) (seqZ 0 365) = true.
Proof. split; [vm_compute; reflexivity|]. split; [vm_compute; reflexivity|]. split; vm_compute; reflexivity. Qed.

Definition in_year (leap : bool) (base doy : Z) : Prop :=
  exists m d, element kMonthInYear (base + doy) = Some m /\ element kDayInYear (base + doy) = Some d
  /\ 0 <= m < 12 /\ 1 <= d <= nth (Z.to_nat m) (month_lengths leap) 0 /\ before_month leap m + d - 1 = doy.

Lemma entry_in_year leap base doy : entry_ok leap base doy = true -> in_year leap base doy.
Proof.
  unfold entry_ok, in_year. destruct (element kMonthInYear _) as [m|]; [|done]. destruct (element kDayInYear _) as [d|]; [|done]. intros H. exists m, d. split; [done|]. split; [done|]. lia.
Qed.

Lemma table_entry leap base doy :
  (leap = false /\ (base = 0 \/ base = 365 \/ base = 1096)) \/ (leap = true /\ base = 730) -> 0 <= doy < year_length leap -> in_year leap base doy.
Proof.
  intros Hcase Hd. apply entry_in_year. destruct tables_ok as (T0 & T1 & T2 & T3).
  destruct Hcase as [[-> [->|[->| ->]]]|[-> ->]]; cbn [year_length] in Hd.
  - exact (forall_below _ _ T0 doy Hd).
  - exact (forall_below _ _ T1 doy Hd).
  - exact (forall_below _ _ T3 doy Hd).
  - exact (forall_below _ _ T2 doy Hd).
Qed.

(** The date of a year and a day of it. *)
Lemma date_in_year y doy base :
  in_year (is_leap_year y) base doy -> exists m d, element kMonthInYear (base + doy) = Some m /\ element kDayInYear (base + doy) = Some d
  /\ valid (y, m, d) /\ number (y, m, d) = before_year y + doy.
Proof.
  intros (m & d & Em & Ed & Hm & Hd & E). exists m, d. split; [done|]. split; [done|]. split; [split; done|]. cbn [number]. lia.
Qed.

(** ** From days to dates *)

Lemma int_spec x : - 2 ^ 31 <= x < 2 ^ 31 -> int x = Some x.
Proof. intros Hx. unfold int. by rewrite (proj2 (Z.leb_le _ _)), (proj2 (Z.ltb_lt _ _)) by lia. Qed.

Ltac int_step := rewrite int_spec by lia; cbn [mbind option_bind].

Lemma DateYMDFromTimeAfter1970_spec n : 0 <= n < 32 * kDaysIn4Years ->
  exists v, DateYMDFromTimeAfter1970 n = Some v /\ valid v /\ number v = n.
Proof.
  intros Hn. unfold DateYMDFromTimeAfter1970. change kDaysIn4Years with 1461 in *.
  set (q := n / 1461). set (r := n mod 1461). assert (Hq : n = 1461 * q + r /\ 0 <= r < 1461 /\ 0 <= q < 32) by (unfold q, r; Z.to_euclidean_division_equations; lia).
  rewrite Z.rem_mod_nonneg by lia. fold r. int_step. int_step. rewrite Z.quot_div_nonneg by lia.
  set (e := if r <? 365 then 0 else if r <? 730 then 1 else if r <? 1096 then 2 else 3).
  set (base := if r <? 365 then 0 else if r <? 730 then 365 else if r <? 1096 then 730 else 1096).
  assert (Hy : (4 * n + 2) / 1461 = 4 * q + e) by (unfold e; repeat case_match; Z.to_euclidean_division_equations; lia).
  assert (He : 0 <= e < 4) by (unfold e; repeat case_match; lia). rewrite Hy. int_step.
  assert (Hb : before_year (1970 + (4 * q + e)) = 1461 * q + base).
  { unfold before_year, e, base. repeat case_match; Z.to_euclidean_division_equations; lia. }
  assert (Hleap : is_leap_year (1970 + (4 * q + e)) = (e =? 2)).
  { apply eq_true_iff_eq. rewrite is_leap_year_spec, Z.eqb_eq. clear Hy. clearbody e. Z.to_euclidean_division_equations. lia. }
  destruct (date_in_year (1970 + (4 * q + e)) (r - base) base) as (m & d & Em & Ed & Hv & Hnum).
  { apply table_entry; rewrite Hleap; unfold e, base; repeat case_match; cbn [year_length Z.eqb Pos.eqb]; try lia; auto. }
  replace (base + (r - base)) with r in * by lia. rewrite Em, Ed. cbn [mbind option_bind]. eexists. split; [done|]. split; [done|]. rewrite Hnum, Hb. lia.
Qed.

(** The parts of a day of 400 years: hundreds, fours and single years, and whether the year is a leap year. *)
Record parts (r b c e doy : Z) (leap : bool) : Prop := {
  parts_b : 0 <= b < 4;
  parts_c : 0 <= c < 25;
  parts_e : 0 <= e < 4;
  parts_leap : leap = true <-> (b = 0 \/ c <> 0) /\ e = 0;
  parts_doy : 0 <= doy < year_length leap;
  parts_day : r = 36524 * b + 1461 * c + 365 * e + doy + (if leap then 0 else 1)
}.

Lemma year_of_parts a b c e doy leap r :
  parts r b c e doy leap -> let y := 400 * a - 400000 + 100 * b + 4 * c + e in
  is_leap_year y = leap /\ before_year y + doy = 146097 * a + r - kDaysOffset.
Proof.
  intros [Hb Hc He Hl Hd ->] y. split.
  - apply eq_true_iff_eq. rewrite is_leap_year_spec, Hl. unfold y. clear Hl Hd. Z.to_euclidean_division_equations. lia.
  - change kDaysOffset with 146816528. unfold before_year.
    replace ((y - 1969) / 4) with (100 * a - 100493 + 25 * b + c + (e + 3) / 4) by (unfold y; clear - He; Z.to_euclidean_division_equations; lia).
    replace ((y - 1901) / 100) with (4 * a - 4020 + b + (4 * c + e + 99) / 100) by (unfold y; clear - He Hc; Z.to_euclidean_division_equations; lia).
    replace ((y - 1601) / 400) with (a - 1005 + (100 * b + 4 * c + e + 399) / 400) by (unfold y; clear - He Hc Hb; Z.to_euclidean_division_equations; lia).
    unfold y. clear - Hb Hc He Hl.
    assert (H4 : (e + 3) / 4 = if e =? 0 then 0 else 1) by (destruct (Z.eqb_spec e 0); cbn match; Z.to_euclidean_division_equations; lia).
    assert (H100 : (4 * c + e + 99) / 100 = if c =? 0 then if e =? 0 then 0 else 1 else 1).
    { destruct (Z.eqb_spec c 0), (Z.eqb_spec e 0); cbn match; Z.to_euclidean_division_equations; lia. }
    assert (H400 : (100 * b + 4 * c + e + 399) / 400 = if b =? 0 then if c =? 0 then if e =? 0 then 0 else 1 else 1 else 1).
    { destruct (Z.eqb_spec b 0), (Z.eqb_spec c 0), (Z.eqb_spec e 0); cbn match; Z.to_euclidean_division_equations; lia. }
    rewrite H4, H100, H400. destruct (Z.eqb_spec b 0), (Z.eqb_spec c 0), (Z.eqb_spec e 0), leap; cbn match; lia.
Qed.

(** The divisions of the code find the parts. *)
Lemma parts_exist r : 0 <= r < kDaysIn400Years ->
  let date := r - 1 in
  let yd1 := Z.quot date kDaysIn100Years in
  let date := Z.rem date kDaysIn100Years + 1 in
  let yd2 := Z.quot date kDaysIn4Years in
  let date := Z.rem date kDaysIn4Years - 1 in
  let yd3 := Z.quot date 365 in
  let date := Z.rem date 365 in
  let leap := ((yd1 =? 0) || negb (yd2 =? 0)) && (yd3 =? 0) in
  parts r yd1 yd2 yd3 (if leap then date + 1 else date) leap /\ -1 <= date < 366.
Proof.
  change kDaysIn400Years with 146097. change kDaysIn100Years with 36524. change kDaysIn4Years with 1461. intros Hr.
  cbv zeta. destruct (Z.eq_dec r 0) as [->|Hne]; [vm_compute; repeat split; intros; try done; lia|].
  rewrite (Z.quot_div_nonneg (r - 1)), (Z.rem_mod_nonneg (r - 1)) by lia. set (b := (r - 1) / 36524). set (d1 := (r - 1) mod 36524).
  assert (H1 : r - 1 = 36524 * b + d1 /\ 0 <= d1 < 36524 /\ 0 <= b < 4) by (unfold b, d1; Z.to_euclidean_division_equations; lia). clearbody b d1.
  rewrite (Z.quot_div_nonneg (d1 + 1)), (Z.rem_mod_nonneg (d1 + 1)) by lia. set (c := (d1 + 1) / 1461). set (d2 := (d1 + 1) mod 1461).
  assert (H2 : d1 + 1 = 1461 * c + d2 /\ 0 <= d2 < 1461 /\ 0 <= c < 25) by (unfold c, d2; Z.to_euclidean_division_equations; lia). clearbody c d2.
  set (e := Z.quot (d2 - 1) 365). set (d3 := Z.rem (d2 - 1) 365).
  assert (H3 : d2 - 1 = 365 * e + d3 /\ (d2 = 0 -> e = 0 /\ d3 = -1) /\ (d2 <> 0 -> 0 <= d3 < 365) /\ 0 <= e < 4).
  { unfold e, d3. destruct (Z.eq_dec d2 0) as [->|]; [by vm_compute|]. rewrite Z.quot_div_nonneg, Z.rem_mod_nonneg by lia. Z.to_euclidean_division_equations; lia. }
  clearbody e d3. split; [|lia].
  assert (Hl : ((b =? 0) || negb (c =? 0)) && (e =? 0) = true <-> (b = 0 \/ c <> 0) /\ e = 0) by lia.
  destruct (((b =? 0) || negb (c =? 0)) && (e =? 0)) eqn:E; split; try lia; try exact Hl; cbn [year_length] in *; try lia.
Qed.

Ltac int_at x := rewrite (int_spec x) by lia; cbn [mbind option_bind].

Lemma DateYMDFromTimeSlow_spec n : - kDaysOffset <= n < 2 ^ 31 - kDaysOffset ->
  exists v, DateYMDFromTimeSlow n = Some v /\ valid v /\ number v = n.
Proof.
  intros Hn. unfold DateYMDFromTimeSlow. change kYearsOffset with 400000. change kDaysOffset with 146816528 in *. int_step.
  set (date := n + 146816528). assert (Hdate : 0 <= date < 2 ^ 31) by (unfold date; lia).
  rewrite Z.rem_mod_nonneg, (Z.quot_div_nonneg date) by (done || lia). change (date / kDaysIn400Years) with (date / 146097).
  set (a := date / 146097). pose proof (Z.mod_pos_bound date kDaysIn400Years eq_refl) as Hr. set (r := date mod kDaysIn400Years) in *.
  assert (Ha : date = 146097 * a + r) by (apply Z.div_mod; lia). change kDaysIn400Years with 146097 in Hr.
  assert (Ha' : 0 <= a < 14700) by (clearbody a r; lia). clearbody a r. pose proof (parts_exist r Hr) as Hp. cbv zeta in Hp.
  int_at (400 * a). int_at (400 * a - 400000). int_at (r - 1).
  set (b := Z.quot (r - 1) kDaysIn100Years) in *. set (d1 := Z.rem (r - 1) kDaysIn100Years) in *.
  assert (Hd1 : - 36524 < d1 < 36524) by (pose proof (Z.rem_bound_abs (r - 1) kDaysIn100Years ltac:(done)); unfold d1; change (Z.abs kDaysIn100Years) with 36524 in *; lia).
  pose proof (parts_b _ _ _ _ _ _ (proj1 Hp)) as Hb. clearbody b d1. int_at (400 * a - 400000 + 100 * b). int_at (d1 + 1).
  set (c := Z.quot (d1 + 1) kDaysIn4Years) in *. set (d2 := Z.rem (d1 + 1) kDaysIn4Years) in *.
  assert (Hd2 : - 1461 < d2 < 1461) by (pose proof (Z.rem_bound_abs (d1 + 1) kDaysIn4Years ltac:(done)); unfold d2; change (Z.abs kDaysIn4Years) with 1461 in *; lia).
  pose proof (parts_c _ _ _ _ _ _ (proj1 Hp)) as Hc. clearbody c d2. int_at (400 * a - 400000 + 100 * b + 4 * c). int_at (d2 - 1).
  set (e := Z.quot (d2 - 1) 365) in *. set (d3 := Z.rem (d2 - 1) 365) in *. clearbody d3.
  pose proof (parts_e _ _ _ _ _ _ (proj1 Hp)) as He. clearbody e. int_at (400 * a - 400000 + 100 * b + 4 * c + e).
  destruct Hp as [Hp Hd3]. set (leap := ((b =? 0) || negb (c =? 0)) && (e =? 0)) in *. pose proof (parts_doy _ _ _ _ _ _ Hp) as Hdoy. clearbody leap.
  destruct (year_of_parts a b c e _ leap r Hp) as [Hleap Hnum]. cbv zeta in Hnum, Hleap.
  set (y := 400 * a - 400000 + 100 * b + 4 * c + e) in *.
  destruct (date_in_year y (if leap then d3 + 1 else d3) (if leap then 730 else 0)) as (m & d & Em & Ed & Hv & Hy).
  { rewrite Hleap. apply table_entry; [destruct leap; auto|done]. }
  replace ((if leap then 730 else 0) + (if leap then d3 + 1 else d3)) with (if leap then 2 * 365 + 1 + d3 else d3) in Em, Ed by (destruct leap; lia).
  rewrite Em, Ed. cbn [mbind option_bind]. exists (y, m, d). split; [done|]. split; [done|]. rewrite Hy, Hnum. change kDaysOffset with 146816528. lia.
Qed.

(** Every day has the valid date of its number. *)
Lemma DateYMDFromTime_spec n : - kDaysOffset <= n < 2 ^ 31 - kDaysOffset ->
  exists v, DateYMDFromTime n = Some v /\ valid v /\ number v = n.
Proof.
  intros Hn. unfold DateYMDFromTime. destruct (_ && _) eqn:E; [|by apply DateYMDFromTimeSlow_spec].
  apply DateYMDFromTimeAfter1970_spec. lia.
Qed.

(** ** From dates to days *)

Lemma before_year_euclid y : - 399999 <= y <= 3000000 -> day_from_year y = Some (before_year y).
Proof.
  intros Hy. unfold day_from_year. change year_delta with 399999. change base_day with 146816162. int_step.
  rewrite !Z.quot_div_nonneg by lia.
  assert (0 <= (y + 399999) / 4 <= 850000 /\ 0 <= (y + 399999) / 100 <= 34000 /\ 0 <= (y + 399999) / 400 <= 8500) by (Z.to_euclidean_division_equations; lia).
  do 5 int_step. f_equal. unfold before_year.
  replace ((y - 1969) / 4) with ((y + 399999) / 4 - 100492) by (clear; Z.to_euclidean_division_equations; lia).
  replace ((y - 1901) / 100) with ((y + 399999) / 100 - 4019) by (clear; Z.to_euclidean_division_equations; lia).
  replace ((y - 1601) / 400) with ((y + 399999) / 400 - 1004) by (clear; Z.to_euclidean_division_equations; lia). lia.
Qed.

(** The condition on the remainders is the one on the year. *)
Lemma leap_condition y : negb (Z.rem y 4 =? 0) || (Z.rem y 100 =? 0) && negb (Z.rem y 400 =? 0) = negb (is_leap_year y).
Proof.
  assert (H : forall k, k <> 0 -> (Z.rem y k =? 0) = (y mod k =? 0)).
  { intros k Hk. apply eq_true_iff_eq. rewrite !Z.eqb_eq. by rewrite Z.rem_mod_eq_0. }
  rewrite !H by done. unfold is_leap_year. by destruct (y mod 4 =? 0), (y mod 100 =? 0), (y mod 400 =? 0).
Qed.

Lemma month_table (leap : bool) m : 0 <= m < 12 -> element (if leap then day_from_month_leap else day_from_month) m = Some (before_month leap m).
Proof. intros Hm. month_cases m; by destruct leap. Qed.

(** The number of the first day of a month, with months counted on. *)
Lemma MakeDay_spec year month day :
  let y := year + month / 12 in let m := month mod 12 in
  Z.abs year <= 1000000 -> Z.abs month <= 10000000 -> Z.abs day <= 100000000 -> - 399999 <= y ->
  MakeDay year month day = Some (number (y, m, 1) + day - 1).
Proof.
  intros y m Hyear Hmonth Hday Hy. unfold MakeDay.
  assert (Hq : Z.quot month 12 = (if Z.rem month 12 <? 0 then month / 12 + 1 else month / 12) /\ m = (if Z.rem month 12 <? 0 then Z.rem month 12 + 12 else Z.rem month 12)).
  { unfold m. destruct (Z.ltb_spec (Z.rem month 12) 0); clear - H; Z.to_euclidean_division_equations; lia. }
  destruct Hq as [Hq Hm]. assert (Hmb : 0 <= m < 12) by apply (Z.mod_pos_bound month 12 eq_refl).
  assert (Hqb : Z.abs (month / 12) <= 833334) by (clear - Hmonth; Z.to_euclidean_division_equations; lia).
  assert (Hy' : - 399999 <= y <= 2000000) by (unfold y; lia). rewrite Hq. rewrite <- Hm.
  assert (Hstep : (year' ← int (year + (if Z.rem month 12 <? 0 then month / 12 + 1 else month / 12)); (if Z.rem month 12 <? 0 then int (year' - 1) else Some year')) = Some y).
  { destruct (_ <? 0); [int_step; rewrite int_spec by lia; f_equal; unfold y; lia|by int_step]. }
  destruct (int (year + _)) as [year'|]; [|done]. cbn [mbind option_bind] in Hstep |- *. rewrite Hstep. cbn [mbind option_bind].
  rewrite before_year_euclid by lia. cbn [mbind option_bind]. rewrite leap_condition.
  assert (Ht : (if negb (is_leap_year y) then day_from_month else day_from_month_leap) = if is_leap_year y then day_from_month_leap else day_from_month) by by destruct (is_leap_year y).
  rewrite Ht, month_table by done. cbn [mbind option_bind].
  assert (Hb : 0 <= before_month (is_leap_year y) m < 366).
  { pose proof (before_year_end (is_leap_year y) m 1 Hmb). pose proof (month_length_pos (is_leap_year y) m Hmb). destruct (is_leap_year y); cbn [year_length] in *; lia. }
  assert (Hby : - 150000000 <= before_year y <= 800000000) by (unfold before_year; clear - Hy'; Z.to_euclidean_division_equations; lia).
  do 3 int_step. f_equal. cbn [number]. lia.
Qed.

(** ** Properties *)

(** C36: [DateYMDFromTime] follows the calendar, by the fast way and by the slow one: day 0 is the first of January 1970, and
    for every day of a range that contains the hundred million days on either side of it, which the language allows, there is no
    overflow and no index outside of the tables, the date is a date, the next day has the next date, and [MakeDay] returns
    the day. *)
Theorem DateYMDFromTime_calendar n :
  - kDaysOffset <= n < 2 ^ 31 - 1 - kDaysOffset ->
  DateYMDFromTime 0 = Some (1970, 0, 1)
  /\ exists year month day, DateYMDFromTime n = Some (year, month, day) /\ valid (year, month, day)
     /\ DateYMDFromTime (n + 1) = Some (next_day (year, month, day))
     /\ (- 399999 <= year <= 1000000 -> MakeDay year month day = Some n).
Proof.
  intros Hn. split; [vm_compute; reflexivity|]. destruct (DateYMDFromTime_spec n ltac:(lia)) as ([[y m] d] & E & Hv & Hnum).
  exists y, m, d. split; [exact E|]. split; [exact Hv|]. split.
  - destruct (DateYMDFromTime_spec (n + 1) ltac:(lia)) as (v & -> & Hv' & Hnum'). f_equal.
    destruct (next_day_spec _ Hv) as [Hnext Hnn]. apply number_inj; [done|done|lia].
  - intros Hy. destruct Hv as [Hm Hd]. pose proof (before_year_end _ m d Hm Hd) as Hb. assert (d <= 366).
    { assert (H0 : 0 <= before_month (is_leap_year y) m).
      { pose proof (before_year_end (is_leap_year y) m 1 Hm). pose proof (month_length_pos (is_leap_year y) m Hm). lia. }
      destruct (is_leap_year y); cbn [year_length] in Hb; lia. }
    assert (Hdiv : m / 12 = 0 /\ m mod 12 = m) by (split; [by apply Z.div_small|by apply Z.mod_small]).
    pose proof (MakeDay_spec y m d) as Hs. cbv zeta in Hs. rewrite (proj1 Hdiv), (proj2 Hdiv), Z.add_0_r in Hs.
    rewrite Hs by lia. f_equal. rewrite <- Hnum. cbn [number]. lia.
Qed.

Lemma DateYMDFromTime_calendar_witness :
  exists year month day, DateYMDFromTime (-100000000) = Some (year, month, day) /\ DateYMDFromTime (-99999999) = Some (next_day (year, month, day))
  /\ MakeDay year month day = Some (-100000000) /\ (year, month, day) = (-271821, 3, 20).
Proof.
  destruct (DateYMDFromTime_calendar (-100000000)) as [_ (y & m & d & H1 & _ & H2 & H3)]; [split; vm_compute; done|].
  assert (E : (y, m, d) = (-271821, 3, 20)).
  { assert (H0 : DateYMDFromTime (-100000000) = Some (-271821, 3, 20)) by (vm_compute; reflexivity). congruence. }
  injection E as -> -> ->. exists (-271821), 3, 20. split; [exact H1|]. split; [exact H2|]. split; [apply H3; lia|reflexivity].
Defined.

(** C37: [MakeDay] counts on from the first day of the month, whatever the month, the days and their signs: with the arguments that
    date.js lets through there is no overflow, months beyond the year go to other years, and days are added to the first of
    the month, as the calendar of [DateYMDFromTime] has it; provided that the year of the month is not before -399999. *)
Theorem MakeDay_calendar year month day :
  Z.abs year <= 1000000 -> Z.abs month <= 10000000 -> Z.abs day <= 100000000 -> - 399999 <= year + month / 12 ->
  exists first, MakeDay year month day = Some (first + day - 1) /\ DateYMDFromTime first = Some (year + month / 12, month mod 12, 1).
Proof.
  intros Hy Hm Hd Hmin. pose proof (MakeDay_spec year month day Hy Hm Hd Hmin) as E. cbv zeta in E. set (y := year + month / 12) in *. set (m := month mod 12) in *.
  assert (Hmb : 0 <= m < 12) by apply (Z.mod_pos_bound month 12 eq_refl).
  assert (Hv : valid (y, m, 1)) by (pose proof (month_length_pos (is_leap_year y) m Hmb); split; [done|unfold days_in_month; lia]).
  exists (number (y, m, 1)). split; [exact E|].
  assert (Hrange : - kDaysOffset <= number (y, m, 1) < 2 ^ 31 - kDaysOffset).
  { cbn [number]. destruct Hv as [_ Hd1]. pose proof (before_year_end _ m 1 Hmb Hd1) as Hb. change kDaysOffset with 146816528.
    assert (y <= 2000000) by (unfold y; clear - Hy Hm; Z.to_euclidean_division_equations; lia).
    assert (- 146816162 <= before_year y <= 800000000) by (unfold before_year; clearbody y m; clear - Hmin H; Z.to_euclidean_division_equations; lia).
    destruct (is_leap_year y); cbn [year_length] in Hb; lia. }
  destruct (DateYMDFromTime_spec _ Hrange) as (v & -> & Hv' & Hnum). f_equal. by apply number_inj.
Qed.

Lemma MakeDay_calendar_witness :
  exists first, MakeDay 2007 (-33) 60 = Some (first + 59) /\ DateYMDFromTime first = Some (2004, 3, 1).
Proof.
  destruct (MakeDay_calendar 2007 (-33) 60 ltac:(lia) ltac:(lia) ltac:(lia) ltac:(by vm_compute)) as (first & H1 & H2).
  exists first. split; [rewrite H1; f_equal; lia|exact H2].
Defined.

(** Before that year the quotients are those of negative numbers: the first of January -400000 is taken for the second, though with
    enough days added the result is a day that the language allows. *)
Lemma MakeDay_early :
  MakeDay (-400000) 0 100000000 = Some (-46816528) /\ DateYMDFromTime (-46816528 - 99999999) = Some (-400000, 0, 2).
Proof. split; vm_compute; reflexivity. Qed.
