(* ===== verification/StringSearch.v ===== *)
(** * StringSearch: searching a string in a string

    Models src/string-search.h: the strategies from the single character up to
    Boyer-Moore, the tables they build, and how a search object changes its
    strategy when the work done so far is too much.  A template instance is given
    by two flags, for two-byte characters of the pattern and of the subject;
    the tables are those of the thread ([ThreadLocalTop]), whatever an earlier
    search has left in them.  [None] stands for an access out of bounds and for
    a loop that does not end; lengths are far from the bounds of [int]. *)

From S2P Require Import Prelude.

Open Scope Z_scope.

(** ** Arrays with integer indices *)

Definition at_ (l : list Z) (i : Z) : option Z := if 0 <=? i then l !! Z.to_nat i else None.

Definition put (l : list Z) (i v : Z) : option (list Z) :=
  if (0 <=? i) && (i <? Z.of_nat (length l)) then Some (<[Z.to_nat i := v]> l) else None.

Definition len (l : list Z) : Z := Z.of_nat (length l).

(** ** Constants and state *)

Definition kBMMaxShift := 250.
Definition kAsciiAlphabetSize := 128.
Definition kUC16AlphabetSize := 256.
Definition kBMMinPatternLength := 7.
Definition kMaxAsciiCharCodeU := 127.

Inductive Strategy :=
  | FailSearch | SingleCharSearch | LinearSearch | InitialSearch | BoyerMooreHorspoolSearch | BoyerMooreSearch.

(** The tables of the thread. *)
Record Tables := mkTables {
  bad_char_shift_table : list Z;
  good_suffix_shift_table : list Z;
  suffix_table : list Z
}.

Record StringSearch := mkStringSearch { pattern_ : list Z; strategy_ : Strategy; start_ : Z }.

Definition set_strategy (s : StringSearch) (f : Strategy) : StringSearch := mkStringSearch (pattern_ s) f (start_ s).

Definition IsAscii (chars : list Z) : bool := forallb (fun c => c <=? kMaxAsciiCharCodeU) chars.

Section template.
(** Two-byte characters, of the pattern and of the subject. *)
Context (pw sw : bool).

Definition StringSearch_new (pattern : list Z) : StringSearch :=
  let start := Z.max 0 (len pattern - kBMMaxShift) in
  mkStringSearch pattern
    (if pw && negb sw && negb (IsAscii pattern) then FailSearch
     else if len pattern <? kBMMinPatternLength then
       if len pattern =? 1 then SingleCharSearch else LinearSearch
     else InitialSearch) start.

Definition AlphabetSize : Z := if pw then kUC16AlphabetSize else kAsciiAlphabetSize.

(** [static_cast<SubjectChar>]. *)
Definition to_subject_char (c : Z) : Z := if sw then uint 16 c else sint 8 c.

Definition CharOccurrence (bad_char_occurrence : list Z) (char_code : Z) : option Z :=
  if negb sw then at_ bad_char_occurrence char_code
  else if negb pw then
    if kMaxAsciiCharCodeU <? uint 32 char_code then Some (-1) else at_ bad_char_occurrence (uint 32 char_code)
  else at_ bad_char_occurrence (char_code mod kUC16AlphabetSize).

(** ** The simple strategies *)

(** [memchr(subject.start() + i, c, n)]: the index of the character. *)
Fixpoint memchr (subject : list Z) (i c : Z) (n : nat) : option (option Z) :=
  match n with
  | O => Some None
  | S n =>
      d ← at_ subject i;
      if uint 8 d =? uint 8 c then Some (Some i) else memchr subject (i + 1) c n
  end.

(** The loop of [SingleCharSearch] over two-byte characters. *)
Fixpoint single_loop (fuel : nat) (subject : list Z) (search_char i : Z) : option Z :=
  match fuel with
  | O => None
  | S fuel =>
      if i <? len subject then
        d ← at_ subject i;
        if d =? search_char then Some i else single_loop fuel subject search_char (i + 1)
      else Some (-1)
  end.

Definition SingleCharSearch_run (pattern subject : list Z) (index : Z) : option Z :=
  pattern_first_char ← at_ pattern 0;
  if negb sw && negb pw then
    r ← memchr subject index pattern_first_char (Z.to_nat (len subject - index));
    Some (default (-1) r)
  else if pw && negb sw && (kMaxAsciiCharCodeU <? uint 16 pattern_first_char) then Some (-1)
  else single_loop (S (length subject)) subject (to_subject_char pattern_first_char) index.

(** The comparison from [pos] on, at least one character. *)
Fixpoint CharCompare (fuel : nat) (pattern : list Z) (p : Z) (subject : list Z) (i pos length : Z) : option bool :=
  match fuel with
  | O => None
  | S fuel =>
      a ← at_ pattern (p + pos);
      b ← at_ subject (i + pos);
      if negb (a =? b) then Some false
      else if pos + 1 <? length then CharCompare fuel pattern p subject i (pos + 1) length
      else Some true
  end.

Fixpoint linear_loop (fuel : nat) (pattern subject : list Z) (first i n : Z) : option Z :=
  match fuel with
  | O => None
  | S fuel =>
      if i <=? n then
        '(found, i) ← (if negb sw && negb pw then
            r ← memchr subject i first (Z.to_nat (n - i + 1));
            Some (match r with Some pos => (Some true, pos + 1) | None => (None, i) end)
          else
            d ← at_ subject i;
            Some (Some (d =? first), i + 1));
        match found with
        | None => Some (-1)
        | Some false => linear_loop fuel pattern subject first i n
        | Some true =>
            equal ← CharCompare (length pattern) pattern 1 subject i 0 (len pattern - 1);
            if (equal : bool) then Some (i - 1) else linear_loop fuel pattern subject first i n
        end
      else Some (-1)
  end.

Definition LinearSearch_run (pattern subject : list Z) (index : Z) : option Z :=
  pattern_first_char ← at_ pattern 0;
  linear_loop (S (length subject)) pattern subject pattern_first_char index (len subject - len pattern).

(** ** Boyer-Moore *)

(** The inner loop on the last character; [None] inside stands for [return -1]. *)
Fixpoint bm_skip (fuel : nat) (bad_char subject : list Z) (last_char j n index : Z) : option (option (Z * Z)) :=
  match fuel with
  | O => None
  | S fuel =>
      c ← at_ subject (index + j);
      if last_char =? c then Some (Some (index, c))
      else
        occ ← CharOccurrence bad_char c;
        let index := index + (j - occ) in
        if n <? index then Some None else bm_skip fuel bad_char subject last_char j n index
  end.

(** [while (j >= 0 && pattern[j] == (c = subject[index + j])) j--], with the last [c]. *)
Fixpoint match_back (fuel : nat) (pattern subject : list Z) (index j c : Z) : option (Z * Z) :=
  match fuel with
  | O => None
  | S fuel =>
      if 0 <=? j then
        p ← at_ pattern j;
        c ← at_ subject (index + j);
        if p =? c then match_back fuel pattern subject index (j - 1) c else Some (j, c)
      else Some (j, c)
  end.

Fixpoint bm_loop (fuel : nat) (pattern : list Z) (t : Tables) (start : Z) (subject : list Z) (last_char index : Z)
    : option Z :=
  match fuel with
  | O => None
  | S fuel =>
      let n := len subject - len pattern in
      if index <=? n then
        let j := len pattern - 1 in
        r ← bm_skip (S (length subject)) (bad_char_shift_table t) subject last_char j n index;
        match r with
        | None => Some (-1)
        | Some (index, c) =>
            '(j, c) ← match_back (S (length pattern)) pattern subject index j c;
            if j <? 0 then Some index
            else if j <? start then
              occ ← CharOccurrence (bad_char_shift_table t) (to_subject_char last_char);
              bm_loop fuel pattern t start subject last_char (index + (len pattern - 1 - occ))
            else
              gs_shift ← at_ (good_suffix_shift_table t) (j + 1 - start);
              bc_occ ← CharOccurrence (bad_char_shift_table t) c;
              let shift := if j - bc_occ <? gs_shift then gs_shift else j - bc_occ in
              bm_loop fuel pattern t start subject last_char (index + shift)
        end
      else Some (-1)
  end.

Definition BoyerMooreSearch_run (s : StringSearch) (t : Tables) (subject : list Z) (start_index : Z) : option Z :=
  last_char ← at_ (pattern_ s) (len (pattern_ s) - 1);
  bm_loop (S (length subject)) (pattern_ s) t (start_ s) subject last_char start_index.

(** ** The good suffix table *)

(** [for (int i = a; i < b; i++) shift_table[i] = length], the table biased by [start]. *)
Fixpoint fill (n : nat) (table : list Z) (i v : Z) : option (list Z) :=
  match n with
  | O => Some table
  | S n => table ← put table i v; fill n table (i + 1) v
  end.

(** [if (shift_table[i] == length) shift_table[i] = v]. *)
Definition set_shift (shift : list Z) (start length i v : Z) : option (list Z) :=
  old ← at_ shift (i - start);
  if old =? length then put shift (i - start) v else Some shift.

(** The innermost loop that follows the suffixes. *)
Fixpoint follow_suffixes (fuel : nat) (pattern : list Z) (start c i : Z) (shift suffixes : list Z) (suffix : Z)
    : option (list Z * Z) :=
  match fuel with
  | O => None
  | S fuel =>
      let pattern_length := len pattern in
      if suffix <=? pattern_length then
        d ← at_ pattern (suffix - 1);
        if negb (c =? d) then
          shift ← set_shift shift start (pattern_length - start) suffix (suffix - i);
          suffix ← at_ suffixes (suffix - start);
          follow_suffixes fuel pattern start c i shift suffixes suffix
        else Some (shift, suffix)
      else Some (shift, suffix)
  end.

(** The loop that looks for the last character only. *)
Fixpoint find_last_char (fuel : nat) (pattern : list Z) (start last_char : Z) (shift suffixes : list Z) (i : Z)
    : option (list Z * list Z * Z) :=
  match fuel with
  | O => None
  | S fuel =>
      let pattern_length := len pattern in
      if start <? i then
        d ← at_ pattern (i - 1);
        if negb (d =? last_char) then
          shift ← set_shift shift start (pattern_length - start) pattern_length (pattern_length - i);
          suffixes ← put suffixes (i - 1 - start) pattern_length;
          find_last_char fuel pattern start last_char shift suffixes (i - 1)
        else Some (shift, suffixes, i)
      else Some (shift, suffixes, i)
  end.

Fixpoint find_suffixes (fuel : nat) (pattern : list Z) (start last_char : Z) (shift suffixes : list Z) (i suffix : Z)
    : option (list Z * list Z * Z) :=
  match fuel with
  | O => None
  | S fuel =>
      let pattern_length := len pattern in
      if start <? i then
        c ← at_ pattern (i - 1);
        '(shift, suffix) ← follow_suffixes (S (S (length pattern))) pattern start c i shift suffixes suffix;
        let i := i - 1 in
        let suffix := suffix - 1 in
        suffixes ← put suffixes (i - start) suffix;
        if suffix =? pattern_length then
          '(shift, suffixes, i) ← find_last_char (S (length pattern)) pattern start last_char shift suffixes i;
          if start <? i then
            let i := i - 1 in
            let suffix := suffix - 1 in
            suffixes ← put suffixes (i - start) suffix;
            find_suffixes fuel pattern start last_char shift suffixes i suffix
          else find_suffixes fuel pattern start last_char shift suffixes i suffix
        else find_suffixes fuel pattern start last_char shift suffixes i suffix
      else Some (shift, suffixes, suffix)
  end.

(** [for (int i = start; i <= pattern_length; i++)], [n] times from [i]. *)
Fixpoint shift_by_suffixes (n : nat) (start length : Z) (shift suffixes : list Z) (i suffix : Z) : option (list Z) :=
  match n with
  | O => Some shift
  | S n =>
      shift ← set_shift shift start length i (suffix - start);
      suffix ← (if i =? suffix then at_ suffixes (suffix - start) else Some suffix);
      shift_by_suffixes n start length shift suffixes (i + 1) suffix
  end.

Definition PopulateBoyerMooreTable (s : StringSearch) (t : Tables) : option Tables :=
  let pattern := pattern_ s in
  let pattern_length := len pattern in
  let start := start_ s in
  let length := pattern_length - start in
  shift ← fill (Z.to_nat length) (good_suffix_shift_table t) 0 length;
  shift ← put shift (pattern_length - start) 1;
  suffixes ← put (suffix_table t) (pattern_length - start) (pattern_length + 1);
  last_char ← at_ pattern (pattern_length - 1);
  '(shift, suffixes, suffix) ← find_suffixes (S (Datatypes.length pattern)) pattern start last_char shift suffixes
                                 pattern_length (pattern_length + 1);
  shift ← (if suffix <? pattern_length then
             shift_by_suffixes (S (Z.to_nat length)) start length shift suffixes start suffix
           else Some shift);
  Some (mkTables (bad_char_shift_table t) shift suffixes).

(** ** Boyer-Moore-Horspool *)

(** What a loop does next. *)
Inductive Outcome := Return (i : Z) | Bailout (i : Z).

Fixpoint bmh_skip (fuel : nat) (bad_char subject : list Z) (last_char j n index badness : Z) : option (option (Z * Z)) :=
  match fuel with
  | O => None
  | S fuel =>
      c ← at_ subject (index + j);
      if last_char =? c then Some (Some (index, badness))
      else
        bc_occ ← CharOccurrence bad_char c;
        let shift := j - bc_occ in
        let index := index + shift in
        let badness := badness + (1 - shift) in
        if n <? index then Some None else bmh_skip fuel bad_char subject last_char j n index badness
  end.

Fixpoint bmh_loop (fuel : nat) (pattern bad_char subject : list Z) (last_char last_char_shift index badness : Z)
    : option Outcome :=
  match fuel with
  | O => None
  | S fuel =>
      let n := len subject - len pattern in
      if index <=? n then
        let j := len pattern - 1 in
        r ← bmh_skip (S (length subject)) bad_char subject last_char j n index badness;
        match r with
        | None => Some (Return (-1))
        | Some (index, badness) =>
            '(j, _) ← match_back (S (length pattern)) pattern subject index (j - 1) 0;
            if j <? 0 then Some (Return index)
            else
              let index := index + last_char_shift in
              let badness := badness + ((len pattern - j) - last_char_shift) in
              if 0 <? badness then Some (Bailout index)
              else bmh_loop fuel pattern bad_char subject last_char last_char_shift index badness
        end
      else Some (Return (-1))
  end.

(** The search object, the tables and the result. *)
Definition BoyerMooreHorspoolSearch_run (s : StringSearch) (t : Tables) (subject : list Z) (start_index : Z)
    : option (StringSearch * Tables * Z) :=
  let pattern := pattern_ s in
  let badness := - len pattern in
  last_char ← at_ pattern (len pattern - 1);
  occ ← CharOccurrence (bad_char_shift_table t) (to_subject_char last_char);
  let last_char_shift := len pattern - 1 - occ in
  o ← bmh_loop (S (length subject)) pattern (bad_char_shift_table t) subject last_char last_char_shift start_index badness;
  match o with
  | Return r => Some (s, t, r)
  | Bailout index =>
      t ← PopulateBoyerMooreTable s t;
      let s := set_strategy s BoyerMooreSearch in
      r ← BoyerMooreSearch_run s t subject index;
      Some (s, t, r)
  end.

(** The loop over the pattern without its last character. *)
Fixpoint fill_occurrences (n : nat) (pattern bad_char : list Z) (i : Z) : option (list Z) :=
  match n with
  | O => Some bad_char
  | S n =>
      c ← at_ pattern i;
      let bucket := if negb pw then c else c mod AlphabetSize in
      bad_char ← put bad_char bucket i;
      fill_occurrences n pattern bad_char (i + 1)
  end.

Definition PopulateBoyerMooreHorspoolTable (s : StringSearch) (t : Tables) : option Tables :=
  let pattern := pattern_ s in
  let start := start_ s in
  bad_char ← fill (Z.to_nat AlphabetSize) (bad_char_shift_table t) 0 (if start =? 0 then -1 else start - 1);
  bad_char ← fill_occurrences (Z.to_nat (len pattern - 1 - start)) pattern bad_char start;
  Some (mkTables bad_char (good_suffix_shift_table t) (suffix_table t)).

(** ** Linear search that bails out *)

(** [do ... while (j < pattern_length)], the first difference. *)
Fixpoint match_forward (fuel : nat) (pattern subject : list Z) (i j : Z) : option Z :=
  match fuel with
  | O => None
  | S fuel =>
      a ← at_ pattern j;
      b ← at_ subject (i + j);
      if negb (a =? b) then Some j
      else if j + 1 <? len pattern then match_forward fuel pattern subject i (j + 1)
      else Some (j + 1)
  end.

Fixpoint initial_loop (fuel : nat) (pattern subject : list Z) (first i n badness : Z) : option Outcome :=
  match fuel with
  | O => None
  | S fuel =>
      if i <=? n then
        let badness := badness + 1 in
        if badness <=? 0 then
          '(found, i) ← (if negb sw && negb pw then
              r ← memchr subject i first (Z.to_nat (n - i + 1));
              Some (match r with Some pos => (Some true, pos) | None => (None, i) end)
            else
              d ← at_ subject i;
              Some (Some (d =? first), i));
          match found with
          | None => Some (Return (-1))
          | Some false => initial_loop fuel pattern subject first (i + 1) n badness
          | Some true =>
              j ← match_forward (length pattern) pattern subject i 1;
              if j =? len pattern then Some (Return i)
              else initial_loop fuel pattern subject first (i + 1) n (badness + j)
          end
        else Some (Bailout i)
      else Some (Return (-1))
  end.

Definition InitialSearch_run (s : StringSearch) (t : Tables) (subject : list Z) (index : Z)
    : option (StringSearch * Tables * Z) :=
  let pattern := pattern_ s in
  let badness := -10 - Z.shiftl (len pattern) 2 in
  pattern_first_char ← at_ pattern 0;
  o ← initial_loop (S (length subject)) pattern subject pattern_first_char index (len subject - len pattern) badness;
  match o with
  | Return r => Some (s, t, r)
  | Bailout i =>
      t ← PopulateBoyerMooreHorspoolTable s t;
      BoyerMooreHorspoolSearch_run (set_strategy s BoyerMooreHorspoolSearch) t subject i
  end.

(** ** Search *)

Definition Search (s : StringSearch) (t : Tables) (subject : list Z) (index : Z) : option (StringSearch * Tables * Z) :=
  match strategy_ s with
  | FailSearch => Some (s, t, -1)
  | SingleCharSearch => r ← SingleCharSearch_run (pattern_ s) subject index; Some (s, t, r)
  | LinearSearch => r ← LinearSearch_run (pattern_ s) subject index; Some (s, t, r)
  | InitialSearch => InitialSearch_run s t subject index
  | BoyerMooreHorspoolSearch => BoyerMooreHorspoolSearch_run s t subject index
  | BoyerMooreSearch => r ← BoyerMooreSearch_run s t subject index; Some (s, t, r)
  end.

Definition SearchString (t : Tables) (subject pattern : list Z) (start_index : Z) : option (Tables * Z) :=
  '(_, t, r) ← Search (StringSearch_new pattern) t subject start_index;
  Some (t, r).

End template.
