(* ===== verification/StringSearchTables.v ===== *)
(** * StringSearchTables: the specification of a string search, and the good suffix table

    What it means to find the first occurrence of a pattern, and that the table
    that [PopulateBoyerMooreTable] builds never skips an occurrence: the suffix
    table holds the least borders, and a shift is never more than the least
    distance that agrees with what a comparison has found. *)

From S2P Require Import Prelude StringSearch.

Open Scope Z_scope.

(** ** Arrays *)

(** The element, for an index in range. *)
Definition ch (l : list Z) (i : Z) : Z := default 0 (at_ l i).

Definition upd (l : list Z) (i v : Z) : list Z := <[Z.to_nat i := v]> l.

Lemma at_ch l i : 0 <= i < len l -> at_ l i = Some (ch l i).
Proof.
  unfold ch, at_, len. intros Hi. destruct (Z.leb_spec 0 i); [|lia].
  destruct (lookup_lt_is_Some_2 l (Z.to_nat i)) as [x ->]; [lia|done].
Qed.

Lemma put_ok l i v : 0 <= i < len l -> put l i v = Some (upd l i v).
Proof.
  unfold put, len. intros Hi. destruct (Z.leb_spec 0 i); [|lia]. destruct (Z.ltb_spec i (Z.of_nat (length l))); [done|lia].
Qed.

Lemma len_upd l i v : len (upd l i v) = len l.
Proof. unfold len, upd. by rewrite length_insert. Qed.

Lemma ch_upd l i v k : 0 <= i < len l -> 0 <= k -> ch (upd l i v) k = if k =? i then v else ch l k.
Proof.
  unfold ch, at_, upd, len. intros Hi Hk. destruct (Z.leb_spec 0 k); [|lia]. destruct (Z.eqb_spec k i) as [->|Hne].
  - by rewrite list_lookup_insert_eq by lia.
  - by rewrite list_lookup_insert_ne by lia.
Qed.

Lemma ch_Forall (P : Z -> Prop) l i : Forall P l -> 0 <= i < len l -> P (ch l i).
Proof.
  intros H Hi. pose proof (at_ch l i Hi) as E. unfold at_ in E. destruct (0 <=? i); [|done].
  by apply (Forall_lookup_1 _ _ _ _ H E).
Qed.

Lemma len_nonneg l : 0 <= len l.
Proof. unfold len. lia. Qed.

(** ** The specification *)

Definition occurs (pattern subject : list Z) (i : Z) : Prop :=
  0 <= i /\ i + len pattern <= len subject /\ forall k, 0 <= k < len pattern -> ch subject (i + k) = ch pattern k.

Definition none_before (pattern subject : list Z) (a b : Z) : Prop := forall i, a <= i < b -> ~ occurs pattern subject i.

(** The first occurrence from [index] on, or -1. *)
Definition first_from (pattern subject : list Z) (index r : Z) : Prop :=
  (r = -1 /\ forall i, index <= i -> ~ occurs pattern subject i)
  \/ (index <= r /\ occurs pattern subject r /\ none_before pattern subject index r).

Lemma first_from_skip p s a b r : a <= b -> none_before p s a b -> first_from p s b r -> first_from p s a r.
Proof.
  intros Hab Hn [(-> & H)|(Hr & Ho & H)].
  - left. split; [done|]. intros i Hi. destruct (Z.lt_ge_cases i b); [apply Hn; lia|apply H; lia].
  - right. split; [lia|]. split; [done|]. intros i Hi. destruct (Z.lt_ge_cases i b); [apply Hn; lia|apply H; lia].
Qed.

Lemma first_from_here p s a : occurs p s a -> first_from p s a a.
Proof. intros H. right. split; [lia|]. split; [done|]. intros i Hi. lia. Qed.

Lemma first_from_past p s a : len s - len p < a -> first_from p s a (-1).
Proof. intros H. left. split; [done|]. intros i Hi (_ & Ho & _). lia. Qed.

Lemma first_from_none p s a b : none_before p s a b -> len s - len p < b -> first_from p s a (-1).
Proof.
  intros Hn Hb. left. split; [done|]. intros i Hi Ho. destruct (Z.lt_ge_cases i b); [by apply (Hn i)|].
  destruct Ho as (_ & Ho & _). lia.
Qed.

Lemma none_before_empty p s a : none_before p s a a.
Proof. intros i Hi. lia. Qed.

Lemma none_before_app p s a b c : none_before p s a b -> none_before p s b c -> none_before p s a c.
Proof. intros H1 H2 i Hi. destruct (Z.lt_ge_cases i b); [apply H1|apply H2]; lia. Qed.

Lemma none_before_step p s a : ~ occurs p s a -> none_before p s a (a + 1).
Proof. intros H i Hi. by replace i with a by lia. Qed.

(** A difference at one position excludes an occurrence. *)
Lemma occurs_not p s i k : 0 <= k < len p -> ch s (i + k) <> ch p k -> ~ occurs p s i.
Proof. intros Hk Hne (_ & _ & H). by apply Hne, H. Qed.

(** Characters of one or of two bytes; one-byte strings are ASCII. *)
Definition char_ok (w : bool) (c : Z) : Prop := 0 <= c < if w then 65536 else 128.

Lemma char_ok_byte w c : char_ok w c -> 0 <= c < 65536 /\ (w = false -> c < 128).
Proof. unfold char_ok. destruct w; lia. Qed.

Lemma fill_spec v n : forall t i,
  0 <= i -> i + Z.of_nat n <= len t ->
  exists t', fill n t i v = Some t' /\ len t' = len t
    /\ forall k, 0 <= k -> ch t' k = if (i <=? k) && (k <? i + Z.of_nat n) then v else ch t k.
Proof.
  induction n as [|n IH]; intros t i Hi Hn; cbn [fill].
  - exists t. split; [done|]. split; [done|]. intros k Hk.
    destruct (Z.leb_spec i k), (Z.ltb_spec k (i + Z.of_nat 0)); cbn [andb]; done || lia.
  - rewrite put_ok by lia. cbn [mbind option_bind].
    destruct (IH (upd t i v) (i + 1)) as (t' & -> & Hl & H); [lia|rewrite len_upd; lia|].
    exists t'. split; [done|]. rewrite len_upd in Hl. split; [done|]. intros k Hk. rewrite H by done.
    rewrite ch_upd by lia.
    destruct (Z.leb_spec (i + 1) k), (Z.ltb_spec k (i + 1 + Z.of_nat n)), (Z.leb_spec i k),
      (Z.ltb_spec k (i + Z.of_nat (S n))), (Z.eqb_spec k i); cbn [andb]; done || lia.
Qed.

(** ** The good suffix table *)

Section suffixes.
(** The pattern, and the first position that the tables cover. *)
Context (p : list Z) (st : Z).
Hypothesis Hst : 0 <= st.
Hypothesis Hlen : 1 < len p - st <= kBMMaxShift.


(** [p[b..m)] is also found at [i]: a border of [p[i..m)]. *)
Definition border (i b : Z) : Prop :=
  st <= i < b /\ b <= len p /\ forall k, b <= k < len p -> ch p (k - (b - i)) = ch p k.

(** The longest one. *)
Definition least_border (i b : Z) : Prop := border i b /\ forall b', border i b' -> b <= b'.

Lemma border_end i : st <= i < len p -> border i (len p).
Proof. intros Hi. split; [lia|]. split; [lia|]. lia. Qed.

Lemma border_step i b : border i b -> st < i -> ch p (i - 1) = ch p (b - 1) -> border (i - 1) (b - 1).
Proof.
  intros (Hi & Hb & H) Hi' E. split; [lia|]. split; [lia|]. intros k Hk.
  destruct (Z.eq_dec k (b - 1)) as [->|Hne].
  - by replace (b - 1 - (b - 1 - (i - 1))) with (i - 1) by lia.
  - replace (k - (b - 1 - (i - 1))) with (k - (b - i)) by lia. apply H. lia.
Qed.

Lemma border_unstep i b : st < i -> border (i - 1) b -> b < len p -> border i (b + 1) /\ ch p (i - 1) = ch p b.
Proof.
  intros Hi (Hi' & Hb & H) Hbm. split.
  - split; [lia|]. split; [lia|]. intros k Hk. rewrite <- (H k) by lia. f_equal. lia.
  - rewrite <- (H b) by lia. f_equal. lia.
Qed.

Lemma border_trans i b c : border i b -> border b c -> border i c.
Proof.
  intros (Hi & Hb & H) (Hi' & Hb' & H'). split; [lia|]. split; [done|]. intros k Hk.
  rewrite <- (H' k) by lia. rewrite <- (H (k - (c - b))) by lia. f_equal. lia.
Qed.

Lemma border_between i b c : border i b -> border i c -> b < c -> border b c.
Proof.
  intros (Hi & Hb & H) (Hi' & Hb' & H') Hbc. split; [lia|]. split; [done|]. intros k Hk.
  rewrite <- (H' k) by lia. rewrite <- (H (k - (c - b))) by lia. f_equal. lia.
Qed.

(** The borders of [i] after [b] are those of [b]. *)
Lemma border_next i b c : border i b -> border i c -> b < c -> forall d, least_border b d -> d <= c.
Proof. intros Hb Hc Hlt d (_ & Hd). by apply Hd, (border_between i). Qed.

(** ** Tables with a bias *)

Definition T (t : list Z) (i : Z) : Z := ch t (i - st).

Lemma T_upd t i v k : st <= i < st + len t -> st <= k -> T (upd t (i - st) v) k = if k =? i then v else T t k.
Proof.
  intros Hi Hk. unfold T. rewrite ch_upd by lia.
  destruct (Z.eqb_spec (k - st) (i - st)), (Z.eqb_spec k i); done || lia.
Qed.

Lemma at_T t i : st <= i < st + len t -> at_ t (i - st) = Some (T t i).
Proof. intros Hi. apply at_ch. lia. Qed.

(** The suffix table from [i] on. *)
Definition suffixes_ok (i : Z) (t : list Z) : Prop :=
  len t = kBMMaxShift + 1 /\ T t (len p) = len p + 1 /\ forall k, i <= k < len p -> least_border k (T t k).

(** The shift table when the suffixes that begin after [i] have been compared with those of them
    that end before [x]. *)
Definition shifts_ok (i x : Z) (t : list Z) : Prop :=
  len t = kBMMaxShift + 1 /\ T t (len p) = 1
  /\ (forall j, st < j < len p -> T t j = len p - st \/ 1 <= T t j <= j - i)
  /\ (forall i' j, border i' j -> st < i' -> ch p (i' - 1) <> ch p (j - 1) -> i < i' \/ (i' = i /\ j < x) -> T t j <= j - i').

Lemma set_shift_spec t i v :
  len t = kBMMaxShift + 1 -> st <= i <= len p ->
  exists t', set_shift t st (len p - st) i v = Some t' /\ len t' = len t
    /\ forall k, st <= k -> T t' k = if (k =? i) && (T t i =? len p - st) then v else T t k.
Proof.
  intros Hl Hi. unfold set_shift. rewrite at_T by lia. cbn [mbind option_bind].
  destruct (T t i =? len p - st).
  - rewrite put_ok by lia. eexists. split; [done|]. split; [apply len_upd|]. intros k Hk.
    rewrite T_upd by lia. by rewrite andb_true_r.
  - exists t. split; [done|]. split; [done|]. intros k Hk. by rewrite andb_false_r.
Qed.

(** A shift for the border [x] of [i]. *)
Lemma set_shift_ok t i x :
  shifts_ok i x t -> border i x -> st < i -> exists t', set_shift t st (len p - st) x (x - i) = Some t' /\
    (forall x', (forall b, border i b -> x < b -> b < x' -> False) -> shifts_ok i x' t').
Proof.
  intros (Hl & Hm & H1 & H2) Hb Hi. assert (Hx : i < x <= len p) by (destruct Hb as (?&?&?); lia).
  destruct (set_shift_spec t x (x - i)) as (t' & -> & Hl' & Ht); [done|lia|]. exists t'. split; [done|].
  assert (HT : T t' x <= x - i).
  { rewrite Ht by lia. rewrite Z.eqb_refl. destruct (Z.eqb_spec (T t x) (len p - st)); cbn [andb]; [lia|].
    destruct (Z.eq_dec x (len p)) as [->|]; [lia|]. destruct (H1 x); lia. }
  assert (Hle : forall k, st < k <= len p -> T t' k <= T t k).
  { intros k Hk. rewrite Ht by lia. destruct (Z.eqb_spec k x) as [->|]; cbn [andb]; [|lia].
    destruct (Z.eqb_spec (T t x) (len p - st)); lia. }
  intros x' Hx'. split; [lia|]. split; [|split].
  - rewrite Ht by lia. destruct (Z.eqb_spec (len p) x); cbn [andb]; [|done]. subst x.
    destruct (Z.eqb_spec (T t (len p)) (len p - st)); lia.
  - intros j Hj. rewrite Ht by lia. destruct (Z.eqb_spec j x) as [->|]; cbn [andb]; [|by apply H1].
    destruct (Z.eqb_spec (T t x) (len p - st)); [right; lia|by apply H1].
  - intros i' j Hb' Hi' Hne Hor. assert (Hj : i' < j <= len p) by (destruct Hb' as (?&?&?); lia).
    specialize (Hle j ltac:(lia)). destruct Hor as [Hlt|[-> Hjx]].
    + specialize (H2 i' j Hb' Hi' Hne (or_introl Hlt)). lia.
    + destruct (Z.lt_total j x) as [Hlt|[->|Hgt]].
      * specialize (H2 i j Hb' Hi' Hne (or_intror (conj eq_refl Hlt))). lia.
      * done.
      * by destruct (Hx' j Hb' Hgt Hjx).
Qed.

(** ** Following the suffixes *)

(** [x] is where the search among the borders of [i] stands: none before it is followed by [c]. *)
Definition following (i c x : Z) : Prop :=
  i < x <= len p + 1 /\ (x <= len p -> border i x) /\ forall b, border i b -> b < x -> ch p (b - 1) <> c.

Lemma follow_suffixes_spec i sx fuel : forall t x,
  st < i <= len p -> suffixes_ok i sx -> shifts_ok i x t -> following i (ch p (i - 1)) x -> len p + 1 - x < Z.of_nat fuel ->
  exists t' x', follow_suffixes fuel p st (ch p (i - 1)) i t sx x = Some (t', x')
    /\ shifts_ok i x' t' /\ following i (ch p (i - 1)) x' /\ (x' <= len p -> ch p (x' - 1) = ch p (i - 1)).
Proof.
  induction fuel as [|fuel IH]; intros t x Hi Hsx Ht Hx Hf; [destruct Hx; lia|]. cbn [follow_suffixes].
  pose proof Hx as (Hx0 & Hxb & Hxn). destruct (Z.leb_spec x (len p)) as [Hle|Hgt].
  2: { exists t, x. split; [done|]. split; [done|]. split; [done|]. lia. }
  rewrite (at_ch p) by lia. cbn [mbind option_bind].
  destruct (Z.eqb_spec (ch p (i - 1)) (ch p (x - 1))) as [E|Hne]; cbn [negb].
  { exists t, x. split; [done|]. split; [done|]. split; [done|]. by intros _. }
  specialize (Hxb Hle). destruct (set_shift_ok t i x Ht Hxb) as (t' & -> & Ht'); [lia|]. cbn [mbind option_bind].
  pose proof Hsx as (Hls & Hsm & Hsl). rewrite at_T by lia. cbn [mbind option_bind].
  assert (Hnext : x < T sx x <= len p + 1 /\ (T sx x <= len p -> border i (T sx x))
    /\ forall b, border i b -> x < b -> b < T sx x -> False).
  { destruct (Z.eq_dec x (len p)) as [->|Hxm].
    - rewrite Hsm. split; [lia|]. split; [lia|]. intros b (? & ? & _). lia.
    - pose proof (Hsl x ltac:(lia)) as Hlb. pose proof Hlb as [Hb0 _]. split; [destruct Hb0 as (?&?&?); lia|].
      split; [intros _; by apply (border_trans _ x)|]. intros b Hb Hxb' Hbx.
      specialize (border_next i x b Hxb Hb Hxb' _ Hlb). lia. }
  destruct Hnext as (Hr & Hrb & Hrn). apply IH; [done|done|by apply Ht'| |lia].
  split; [lia|]. split; [done|]. intros b Hb Hbx. destruct (Z.lt_total b x) as [Hlt|[->|Hgt]].
  - by apply Hxn.
  - congruence.
  - by destruct (Hrn b Hb Hgt Hbx).
Qed.

Lemma suffixes_put i b t :
  suffixes_ok i t -> st < i <= len p -> least_border (i - 1) b ->
  exists t', put t (i - 1 - st) b = Some t' /\ suffixes_ok (i - 1) t'.
Proof.
  intros (Hl & Hm & H) Hi Hb. rewrite put_ok by lia. eexists. split; [done|]. split; [by rewrite len_upd|].
  split; [rewrite T_upd by lia; destruct (Z.eqb_spec (len p) (i - 1)); done || lia|].
  intros k Hk. rewrite T_upd by lia. destruct (Z.eqb_spec k (i - 1)) as [->|]; [done|]. apply H. lia.
Qed.

(** The border of [i - 1] that extends the one found. *)
Lemma following_extend i x :
  st < i <= len p -> following i (ch p (i - 1)) x -> (x <= len p -> ch p (x - 1) = ch p (i - 1)) ->
  least_border (i - 1) (x - 1).
Proof.
  intros Hi (Hx & Hb & Hn) E. split.
  - destruct (Z.le_gt_cases x (len p)) as [Hle|Hgt].
    + apply border_step; [by apply Hb|lia|]. symmetry. by apply E.
    + replace (x - 1) with (len p) by lia. apply border_end. lia.
  - intros b Hb'. destruct (Z.le_gt_cases (x - 1) b) as [|Hlt]; [done|exfalso].
    destruct (border_unstep i b) as [H1 H2]; [lia|done|lia|].
    apply (Hn (b + 1) H1); [lia|]. by replace (b + 1 - 1) with b by lia.
Qed.

(** The least border starts the next search. *)
Lemma following_least i c b : least_border i b -> following i c b.
Proof.
  intros (Hb & Hl). pose proof Hb as (? & ? & _). split; [lia|]. split; [done|].
  intros b' Hb' Hlt. specialize (Hl b' Hb'). lia.
Qed.

Lemma following_start c : following (len p) c (len p + 1).
Proof. split; [lia|]. split; [lia|]. intros b (? & ? & _). lia. Qed.

(** Once the borders of [i] are done, the next position. *)
Lemma shifts_step i x t :
  st < i -> shifts_ok i x t -> following i (ch p (i - 1)) x -> (x <= len p -> ch p (x - 1) = ch p (i - 1)) ->
  forall x', least_border (i - 1) x' -> shifts_ok (i - 1) x' t.
Proof.
  intros Hst' (Hl & Hm & H1 & H2) (Hx & Hb & Hn) E x' (Hb0 & Hl0). split; [done|]. split; [done|]. split.
  - intros j Hj. destruct (H1 j Hj); [by left|right; lia].
  - intros i' j Hb' Hi' Hne Hor. pose proof Hb' as (? & ? & _). destruct Hor as [Hlt|[-> Hj]].
    2: { specialize (Hl0 j Hb'). lia. }
    destruct (Z.eq_dec i' i) as [->|]; [|apply H2; [done..|lia]].
    destruct (Z.lt_total j x) as [|[->|Hgt]]; [apply H2; [done..|lia]|exfalso; apply Hne; symmetry; apply E; lia|].
    (* beyond the border found, a border of it *)
    assert (Hbx : border x j) by (apply (border_between i); [apply Hb; lia|done|done]).
    assert (T t j <= j - x); [|lia]. apply H2; [done|lia| |lia]. rewrite E by lia. done.
Qed.

(** ** The loop for the last character *)

Lemma shifts_end i t :
  st < i -> shifts_ok i (len p) t -> ch p (i - 1) <> ch p (len p - 1) -> least_border i (len p) -> shifts_ok (i - 1) (len p) t.
Proof.
  intros Hi (Hl & Hm & H1 & H2) Hne (Hb & Hlb). split; [done|]. split; [done|]. split.
  - intros j Hj. destruct (H1 j Hj); [by left|right; lia].
  - intros i' j Hb' Hi' Hne' Hor. pose proof Hb' as (? & ? & _). destruct (Z.eq_dec j (len p)) as [->|]; [lia|].
    destruct (Z.eq_dec i' i) as [->|]; [specialize (Hlb j Hb'); lia|].
    destruct (Z.eq_dec i' (i - 1)) as [->|]; [|apply H2; [done..|lia]].
    destruct (border_unstep i j) as [H3 _]; [lia|done|lia|]. specialize (Hlb _ H3).
    replace j with (len p - 1) in * by lia. exfalso.
    destruct (border_unstep i (len p - 1)) as [_ H4]; [lia|done|lia|]. done.
Qed.

Lemma least_border_end i :
  st < i -> least_border i (len p) -> ch p (i - 1) <> ch p (len p - 1) -> least_border (i - 1) (len p).
Proof.
  intros Hi (Hb & Hl) Hne. pose proof Hb as (? & ? & _). split; [apply border_end; lia|]. intros b Hb'.
  destruct (Z.le_gt_cases (len p) b) as [|Hlt]; [done|exfalso].
  destruct (border_unstep i b) as [H1 H2]; [lia|done|lia|]. specialize (Hl _ H1).
  replace b with (len p - 1) in * by lia. done.
Qed.

Lemma set_shift_last t v :
  len t = kBMMaxShift + 1 -> T t (len p) = 1 -> set_shift t st (len p - st) (len p) v = Some t.
Proof.
  intros Hl Hm. unfold set_shift. rewrite at_T by lia. cbn [mbind option_bind]. rewrite Hm.
  destruct (Z.eqb_spec 1 (len p - st)); [lia|done].
Qed.

Lemma find_last_char_spec fuel : forall t sx i,
  st <= i < len p -> suffixes_ok i sx -> shifts_ok i (len p) t -> least_border i (len p) -> i - st < Z.of_nat fuel ->
  exists t' sx' i', find_last_char fuel p st (ch p (len p - 1)) t sx i = Some (t', sx', i')
    /\ st <= i' <= i /\ suffixes_ok i' sx' /\ shifts_ok i' (len p) t' /\ least_border i' (len p)
    /\ (st < i' -> ch p (i' - 1) = ch p (len p - 1)).
Proof.
  induction fuel as [|fuel IH]; intros t sx i Hi Hsx Ht Hb Hf; [lia|]. cbn [find_last_char].
  destruct (Z.ltb_spec st i) as [Hlt|Hge].
  2: { exists t, sx, i. split; [done|]. repeat (split; [done || lia|]). lia. }
  rewrite at_ch by lia. cbn [mbind option_bind].
  destruct (Z.eqb_spec (ch p (i - 1)) (ch p (len p - 1))) as [E|Hne]; cbn [negb].
  { exists t, sx, i. split; [done|]. repeat (split; [done || lia|]). done. }
  rewrite set_shift_last by apply Ht. cbn [mbind option_bind].
  pose proof (least_border_end i Hlt Hb Hne) as Hb'.
  destruct (suffixes_put i (len p) sx) as (sx' & -> & Hsx'); [done|lia|done|]. cbn [mbind option_bind].
  destruct (IH t sx' (i - 1)) as (t1 & sx1 & i1 & -> & Hi1 & H); [lia|done|by apply shifts_end|done|lia|].
  exists t1, sx1, i1. split; [done|]. split; [lia|done].
Qed.

(** One round of the loop, up to the test of the last character. *)
Lemma find_suffixes_spec fuel : forall t sx i x,
  st <= i <= len p -> suffixes_ok i sx -> shifts_ok i x t -> following i (ch p (i - 1)) x -> (i < len p -> least_border i x) ->
  i - st < Z.of_nat fuel ->
  exists t' sx' x', find_suffixes fuel p st (ch p (len p - 1)) t sx i x = Some (t', sx', x')
    /\ suffixes_ok st sx' /\ shifts_ok st x' t' /\ (st < len p -> least_border st x').
Proof.
  induction fuel as [|fuel IH]; intros t sx i x Hi Hsx Ht Hx Hlb Hf; [lia|]. cbn [find_suffixes].
  destruct (Z.ltb_spec st i) as [Hlt|Hge].
  2: { assert (i = st) as -> by lia. exists t, sx, x. done. }
  rewrite at_ch by lia. cbn [mbind option_bind].
  destruct (follow_suffixes_spec i sx (S (S (length p))) t x) as (t1 & x1 & -> & Ht1 & Hx1 & E1); [lia|done|done|done|destruct Hx; unfold len in *; lia|].
  cbn [mbind option_bind].
  assert (Hlb1 : least_border (i - 1) (x1 - 1)) by (by apply following_extend; [lia| |]).
  destruct (suffixes_put i (x1 - 1) sx) as (sx1 & -> & Hsx1); [done|lia|done|]. cbn [mbind option_bind].
  assert (Ht1' : shifts_ok (i - 1) (x1 - 1) t1) by (by apply (shifts_step i x1)).
  destruct (Z.eqb_spec (x1 - 1) (len p)) as [El|Hne].
  2: { apply IH; [lia|done|done|by apply following_least|done|lia]. }
  rewrite El in *.
  destruct (find_last_char_spec (S (length p)) t1 sx1 (i - 1)) as (t2 & sx2 & i2 & -> & Hi2 & Hsx2 & Ht2 & Hlb2 & E2);
    [lia|done|done|done|unfold len in *; lia|]. cbn [mbind option_bind].
  destruct (Z.ltb_spec st i2) as [Hlt2|Hge2].
  2: { apply IH; [lia|done|done|by apply following_least|done|lia]. }
  assert (Hlb3 : least_border (i2 - 1) (len p - 1)).
  { apply following_extend; [lia|by apply following_least|]. intros _. symmetry. by apply E2. }
  destruct (suffixes_put i2 (len p - 1) sx2) as (sx3 & -> & Hsx3); [done|lia|done|]. cbn [mbind option_bind].
  apply IH; [lia|done| |by apply following_least|done|lia].
  apply (shifts_step i2 (len p)); [lia|done|by apply following_least| |done]. intros _. symmetry. by apply E2.
Qed.

(** ** The shifts of the whole pattern *)

(** No smaller distance than the shift is compatible with what the comparison has found: the
    characters after [j] are equal, the one at [j] differs. *)
Definition compatible (j d : Z) : Prop :=
  (forall k, j < k < len p -> st <= k - d -> ch p (k - d) = ch p k) /\ (st <= j - d -> ch p (j - d) <> ch p j).

Definition good_suffix_ok (t : list Z) : Prop :=
  len t = kBMMaxShift + 1
  /\ forall j, st <= j < len p -> 1 <= T t (j + 1) /\ forall d, 0 < d < T t (j + 1) -> ~ compatible j d.

(** The shifts that the borders of the start bound. *)
Definition bounded_shift (t : list Z) (j : Z) : Prop :=
  1 <= T t j <= len p - st /\ forall b, border st b -> j <= b -> T t j <= b - st.

Lemma good_suffix_intro x t t' :
  shifts_ok st x t -> len t' = len t -> (forall j, st < j <= len p -> T t' j <= T t j /\ bounded_shift t' j) ->
  good_suffix_ok t'.
Proof.
  intros (Hl & Hm & H1 & H2) Hl' Hb. split; [lia|]. intros j Hj. destruct (Hb (j + 1)) as (Hle & (Hge & Hub) & Hbb); [lia|].
  split; [done|]. intros d Hd (Heq & Hne). destruct (Z.le_gt_cases (j + 1 - d) st) as [Hds|Hds].
  - (* a border of the start *)
    destruct (Z.le_gt_cases (st + d) (len p)) as [Hdm|Hdm]; [|lia].
    assert (T t' (j + 1) <= st + d - st); [|lia]. apply Hbb; [|lia]. split; [lia|]. split; [done|].
    intros k Hk. rewrite <- (Heq k) by lia. f_equal. lia.
  - assert (T t (j + 1) <= j + 1 - (j + 1 - d)); [|lia]. apply H2; [|lia| |lia].
    + split; [lia|]. split; [lia|]. intros k Hk. rewrite <- (Heq k) by lia. f_equal. lia.
    + replace (j + 1 - d - 1) with (j - d) by lia. replace (j + 1 - 1) with j by lia. apply Hne. lia.
Qed.

(** A shift as the first loop leaves it. *)
Definition unset_or_small (t : list Z) (j : Z) : Prop := T t j = len p - st \/ 1 <= T t j <= j - st.

Lemma shifts_unset x t j : shifts_ok st x t -> st < j <= len p -> unset_or_small t j.
Proof. intros (_ & Hm & H1 & _) Hj. destruct (Z.eq_dec j (len p)) as [->|]; [right; lia|apply H1; lia]. Qed.

(** [x] is the least border of the start from [i] on. *)
Definition next_border (i x : Z) : Prop := border st x /\ i <= x /\ forall b, border st b -> i <= b -> x <= b.

Lemma bounded_small t j : st < j -> T t j <= len p - st -> 1 <= T t j <= j - st -> bounded_shift t j.
Proof. intros Hj Hl Hs. split; [lia|]. intros b (_ & _ & _). lia. Qed.

Lemma bounded_next t j x : next_border j x -> T t j = x - st -> bounded_shift t j.
Proof.
  intros ((? & ? & _) & _ & Hn) E. unfold bounded_shift. rewrite E. split; [lia|]. intros b Hb Hjb. specialize (Hn b Hb Hjb). lia.
Qed.

Lemma next_border_step i x sx :
  suffixes_ok st sx -> next_border i x -> i < len p ->
  next_border (i + 1) (if i =? x then T sx x else x).
Proof.
  intros (_ & _ & Hs) (Hb & Hi & Hn) Him. pose proof Hb as (? & ? & _). destruct (Z.eqb_spec i x) as [->|Hne].
  - destruct (Hs x) as (Hb' & Hl'); [lia|]. pose proof Hb' as (? & ? & _).
    split; [by apply (border_trans _ x)|]. split; [lia|]. intros b Hbb Hib. apply Hl', (border_between st); [done..|lia].
  - split; [done|]. split; [lia|]. intros b Hbb Hib. apply Hn; [done|lia].
Qed.

Lemma shift_by_suffixes_spec sx n : forall t i x,
  len t = kBMMaxShift + 1 -> suffixes_ok st sx -> st <= i -> i + Z.of_nat n = len p + 1 -> (i <= len p -> next_border i x) ->
  (forall j, i <= j <= len p -> st < j -> unset_or_small t j) ->
  exists t', shift_by_suffixes n st (len p - st) t sx i x = Some t' /\ len t' = len t
    /\ forall j, st < j <= len p -> if j <? i then T t' j = T t j else T t' j <= T t j /\ bounded_shift t' j.
Proof.
  induction n as [|n IH]; intros t i x Hl Hsx Hi Hn Hx Hu; cbn [shift_by_suffixes].
  { exists t. split; [done|]. split; [done|]. intros j Hj. destruct (Z.ltb_spec j i); [done|lia]. }
  specialize (Hx ltac:(lia)). pose proof Hx as ((Hxr & Hxm & _) & Hix & _).
  destruct (set_shift_spec t i (x - st)) as (t1 & -> & Hl1 & H1); [done|lia|]. cbn [mbind option_bind].
  pose proof Hsx as (Hls & Hsm & _).
  assert (Hsuf : exists x', (if i =? x then at_ sx (x - st) else Some x) = Some x' /\ (i < len p -> next_border (i + 1) x')).
  { exists (if i =? x then T sx x else x). split; [destruct (i =? x); [by rewrite at_T by lia|done]|].
    by apply next_border_step. }
  destruct Hsuf as (x' & -> & Hx'). cbn [mbind option_bind].
  destruct (IH t1 (i + 1) x') as (t' & -> & Hl' & H'); [lia|done|lia|lia|intros; apply Hx'; lia| |].
  { intros j Hj Hsj. unfold unset_or_small. rewrite H1 by lia. destruct (Z.eqb_spec j i); [lia|cbn [andb]].
    apply Hu; lia. }
  exists t'. split; [done|]. split; [lia|]. intros j Hj. specialize (H' j Hj).
  destruct (Z.ltb_spec j i), (Z.ltb_spec j (i + 1)); try lia.
  - rewrite H', H1 by lia. by destruct (Z.eqb_spec j i); [lia|].
  - assert (j = i) as -> by lia. unfold bounded_shift. rewrite H'. fold (bounded_shift t1 i).
    pose proof (H1 i ltac:(lia)) as Hi1. rewrite Z.eqb_refl in Hi1. cbn [andb] in Hi1.
    destruct (Z.eqb_spec (T t i) (len p - st)) as [E|Hne].
    + split; [lia|]. by apply (bounded_next _ _ x).
    + destruct (Hu i ltac:(lia) ltac:(lia)) as [|Hs]; [done|]. split; [lia|]. apply bounded_small; lia.
  - destruct H' as (Hle & Hb). split; [|done]. rewrite H1 in Hle by lia. destruct (Z.eqb_spec j i); [lia|done].
Qed.

Lemma next_border_first x : least_border st x -> next_border st x.
Proof. intros (Hb & Hl). pose proof Hb as (? & ? & _). split; [done|]. split; [lia|]. intros b Hbb _. by apply Hl. Qed.

Lemma unset_bounded t x j :
  least_border st x -> len p <= x -> unset_or_small t j -> st < j <= len p -> bounded_shift t j.
Proof.
  intros (Hb & Hl) Hx Hu Hj. pose proof Hb as (? & ? & _). destruct Hu as [Hu|Hu].
  - split; [lia|]. intros b Hbb _. specialize (Hl b Hbb). lia.
  - apply bounded_small; lia.
Qed.

(** ** The two tables *)

Lemma PopulateBoyerMooreTable_spec f t :
  len (good_suffix_shift_table t) = kBMMaxShift + 1 -> len (suffix_table t) = kBMMaxShift + 1 ->
  exists t', PopulateBoyerMooreTable (mkStringSearch p f st) t = Some t'
    /\ bad_char_shift_table t' = bad_char_shift_table t /\ len (suffix_table t') = kBMMaxShift + 1
    /\ good_suffix_ok (good_suffix_shift_table t').
Proof.
  intros Hg Hs. unfold PopulateBoyerMooreTable. cbn [pattern_ start_].
  destruct (fill_spec (len p - st) (Z.to_nat (len p - st)) (good_suffix_shift_table t) 0) as (g0 & -> & Hg0 & H0); [lia..|].
  cbn [mbind option_bind]. rewrite put_ok by lia. cbn [mbind option_bind]. rewrite put_ok by lia. cbn [mbind option_bind].
  rewrite at_ch by lia. cbn [mbind option_bind].
  set (g1 := upd g0 (len p - st) 1). set (s1 := upd (suffix_table t) (len p - st) (len p + 1)).
  assert (Hs1 : suffixes_ok (len p) s1).
  { split; [by unfold s1; rewrite len_upd|]. split; [unfold s1; rewrite T_upd by lia; by rewrite Z.eqb_refl|]. lia. }
  assert (Hg1 : shifts_ok (len p) (len p + 1) g1).
  { split; [unfold g1; rewrite len_upd; lia|]. split; [unfold g1; rewrite T_upd by lia; by rewrite Z.eqb_refl|]. split.
    - intros j Hj. left. unfold g1. rewrite T_upd by lia. destruct (Z.eqb_spec j (len p)); [lia|]. unfold T.
      rewrite H0 by lia. destruct (Z.leb_spec 0 (j - st)), (Z.ltb_spec (j - st) (0 + Z.of_nat (Z.to_nat (len p - st)))); done || lia.
    - intros i' j (? & ? & _). lia. }
  destruct (find_suffixes_spec (S (length p)) g1 s1 (len p) (len p + 1)) as (g2 & s2 & x & -> & Hs2 & Hg2 & Hx);
    [lia|done|done|apply following_start|lia|unfold len; lia|].
  cbn [mbind option_bind]. specialize (Hx ltac:(lia)). pose proof Hg2 as (Hlg2 & _). pose proof Hs2 as (Hls2 & _).
  destruct (Z.ltb_spec x (len p)) as [Hlt|Hge].
  - destruct (shift_by_suffixes_spec s2 (S (Z.to_nat (len p - st))) g2 st x) as (g3 & -> & Hg3 & H3);
      [done|done|lia|lia|intros _; by apply next_border_first|intros; by apply (shifts_unset x); [|lia]|].
    cbn [mbind option_bind]. eexists. split; [done|]. split; [done|]. split; [done|].
    apply (good_suffix_intro x g2); [done|done|]. intros j Hj. specialize (H3 j Hj). by destruct (Z.ltb_spec j st); [lia|].
  - eexists. split; [done|]. split; [done|]. split; [done|]. apply (good_suffix_intro x g2); [done|done|].
    intros j Hj. cbn [good_suffix_shift_table]. split; [lia|]. apply (unset_bounded _ x); [done|done| |done]. by apply (shifts_unset x).
Qed.

End suffixes.
