(* ===== verification/StringSearchCorrect.v ===== *)
(** * StringSearchCorrect: the searches find the first occurrence

    Each strategy of StringSearch.v, from any state of the tables that a search
    object may rely on, answers the first occurrence from the index on; the
    changes of strategy keep what the next search relies on. *)

From S2P Require Import Prelude StringSearch StringSearchTables.

Open Scope Z_scope.

Section proofs.
Context (pw sw : bool).
Context (p s : list Z).
Hypothesis Hp : Forall (char_ok pw) p.
Hypothesis Hs : Forall (char_ok sw) s.

Lemma pattern_char k : 0 <= k < len p -> char_ok pw (ch p k).
Proof. by apply ch_Forall. Qed.

Lemma subject_char k : 0 <= k < len s -> char_ok sw (ch s k).
Proof. by apply ch_Forall. Qed.

(** ** The simple strategies *)

Lemma uint8_ascii c d : 0 <= c < 128 -> 0 <= d < 128 -> (uint 8 d =? uint 8 c) = (d =? c).
Proof. intros Hc Hd. unfold uint. by rewrite !Z.mod_small by lia. Qed.

Lemma memchr_spec c n : forall i,
  sw = false -> 0 <= c < 128 -> 0 <= i -> i + Z.of_nat n <= len s ->
  exists r, memchr s i c n = Some r
    /\ match r with
       | Some j => i <= j < i + Z.of_nat n /\ ch s j = c /\ forall k, i <= k < j -> ch s k <> c
       | None => forall k, i <= k < i + Z.of_nat n -> ch s k <> c
       end.
Proof.
  induction n as [|n IH]; intros i Hsw Hc Hi Hn; cbn [memchr].
  - exists None. split; [done|]. lia.
  - rewrite at_ch by lia. cbn [mbind option_bind]. destruct (char_ok_byte _ _ (subject_char i ltac:(lia))) as [Hd Hd'].
    specialize (Hd' Hsw). rewrite uint8_ascii by lia. destruct (Z.eqb_spec (ch s i) c) as [E|Hne].
    + exists (Some i). split; [done|]. split; [lia|]. split; [done|]. lia.
    + destruct (IH (i + 1) Hsw Hc ltac:(lia) ltac:(lia)) as (r & -> & Hr). exists r. split; [done|].
      destruct r as [j|].
      * destruct Hr as (Hj & Ej & Hk). split; [lia|]. split; [done|]. intros k Hk'.
        destruct (Z.eq_dec k i) as [->|]; [done|]. apply Hk. lia.
      * intros k Hk. destruct (Z.eq_dec k i) as [->|]; [done|]. apply Hr. lia.
Qed.

Lemma single_loop_spec c fuel : forall i,
  0 <= i <= len s -> len s - i < Z.of_nat fuel ->
  exists r, single_loop fuel s c i = Some r
    /\ ((r = -1 /\ forall k, i <= k < len s -> ch s k <> c)
        \/ (i <= r < len s /\ ch s r = c /\ forall k, i <= k < r -> ch s k <> c)).
Proof.
  induction fuel as [|fuel IH]; intros i Hi Hf; cbn [single_loop]; [lia|].
  destruct (Z.ltb_spec i (len s)) as [Hlt|Hge]; [|exists (-1); split; [done|]; left; split; [done|lia]].
  rewrite at_ch by lia. cbn [mbind option_bind]. destruct (Z.eqb_spec (ch s i) c) as [E|Hne].
  - exists i. split; [done|]. right. split; [lia|]. split; [done|]. lia.
  - destruct (IH (i + 1)) as (r & -> & Hr); [lia..|]. exists r. split; [done|].
    destruct Hr as [(-> & H)|(Hr & E & H)]; [left|right].
    + split; [done|]. intros k Hk. destruct (Z.eq_dec k i) as [->|]; [done|]. apply H. lia.
    + split; [lia|]. split; [done|]. intros k Hk. destruct (Z.eq_dec k i) as [->|]; [done|]. apply H. lia.
Qed.

(** Characters that are the same in both strings. *)
Definition convertible (c : Z) : Prop := pw = true -> sw = false -> c <= 127.

Lemma to_subject_char_id c : char_ok pw c -> convertible c -> to_subject_char sw c = c.
Proof.
  unfold char_ok, convertible, to_subject_char, uint, sint. intros Hc Hv. destruct sw.
  - apply Z.mod_small. destruct pw; lia.
  - assert (0 <= c < 128) by (destruct pw; [specialize (Hv eq_refl eq_refl)|]; lia).
    rewrite Z.mod_small; cbn; lia.
Qed.

(** A first character excludes occurrences. *)
Lemma none_before_first a b :
  0 < len p -> (forall k, a <= k < b -> ch s k <> ch p 0) -> none_before p s a b.
Proof. intros Hl H i Hi. apply (occurs_not p s i 0); [lia|]. rewrite Z.add_0_r. by apply H. Qed.

Lemma SingleCharSearch_spec index :
  len p = 1 -> convertible (ch p 0) -> 0 <= index <= len s ->
  exists r, SingleCharSearch_run pw sw p s index = Some r /\ first_from p s index r.
Proof.
  intros Hl Hc Hi. unfold SingleCharSearch_run. rewrite at_ch by lia. cbn [mbind option_bind].
  assert (Hocc : forall r, 0 <= r < len s -> ch s r = ch p 0 -> occurs p s r).
  { intros r Hr E. split; [lia|]. split; [lia|]. intros k Hk. replace k with 0 by lia. by rewrite Z.add_0_r. }
  assert (Hp0 : char_ok pw (ch p 0)) by (apply pattern_char; lia).
  assert (Hloop : exists r, single_loop (S (length s)) s (ch p 0) index = Some r /\ first_from p s index r).
  { destruct (single_loop_spec (ch p 0) (S (length s)) index) as (r & -> & Hr); [lia|unfold len; lia|].
    exists r. split; [done|]. destruct Hr as [(-> & H)|(Hr & E & H)].
    - apply (first_from_none _ _ _ (len s)); [|lia]. apply none_before_first; [lia|]. done.
    - right. split; [lia|]. split; [apply Hocc; [lia|done]|]. by apply none_before_first; [lia|]. }
  destruct (negb sw && negb pw) eqn:E.
  - apply andb_true_iff in E as [Es Ep]. apply negb_true_iff in Es, Ep.
    destruct (memchr_spec (ch p 0) (Z.to_nat (len s - index)) index Es) as (r & -> & Hr).
    + unfold char_ok in Hp0. by rewrite Ep in Hp0.
    + lia.
    + lia.
    + cbn [mbind option_bind]. eexists. split; [done|]. destruct r as [j|]; cbn [from_option id].
      * destruct Hr as (Hj & Ej & H). right. split; [lia|]. split; [apply Hocc; [lia|done]|].
        by apply none_before_first; [lia|].
      * apply (first_from_none _ _ _ (len s)); [|lia]. apply none_before_first; [lia|]. intros k Hk. apply Hr. lia.
  - rewrite to_subject_char_id by done. destruct (pw && negb sw && _) eqn:E2; [|done]. exfalso.
    apply andb_true_iff in E2 as [E2 E3]. apply andb_true_iff in E2 as [E2 E4]. apply negb_true_iff in E4.
    apply Z.ltb_lt in E3. unfold uint in E3. rewrite Z.mod_small in E3 by (destruct (char_ok_byte _ _ Hp0); lia).
    specialize (Hc E2 E4). unfold kMaxAsciiCharCodeU in E3. lia.
Qed.

Lemma CharCompare_spec fuel : forall i pos,
  0 <= i -> 0 <= pos < len p - 1 -> i + len p - 1 <= len s -> len p - 1 - pos <= Z.of_nat fuel ->
  (forall k, 0 <= k < pos -> ch s (i + k) = ch p (1 + k)) ->
  exists b, CharCompare fuel p 1 s i pos (len p - 1) = Some b
    /\ (b = true -> forall k, 0 <= k < len p - 1 -> ch s (i + k) = ch p (1 + k))
    /\ (b = false -> exists k, 0 <= k < len p - 1 /\ ch s (i + k) <> ch p (1 + k)).
Proof.
  induction fuel as [|fuel IH]; intros i pos Hi Hpos Hl Hf Heq; [lia|]. cbn [CharCompare].
  rewrite !at_ch by lia. cbn [mbind option_bind]. destruct (Z.eqb_spec (ch p (1 + pos)) (ch s (i + pos))) as [E|Hne]; cbn [negb].
  - assert (Heq' : forall k, 0 <= k < pos + 1 -> ch s (i + k) = ch p (1 + k)).
    { intros k Hk. destruct (Z.eq_dec k pos) as [->|]; [done|]. apply Heq. lia. }
    destruct (Z.ltb_spec (pos + 1) (len p - 1)); [apply IH; done || lia|].
    exists true. split; [done|]. split; [|done]. intros _ k Hk. apply Heq'. lia.
  - exists false. split; [done|]. split; [done|]. intros _. exists pos. split; [lia|done].
Qed.

Lemma occurs_tail i :
  1 < len p -> 0 <= i -> i + len p <= len s -> ch s i = ch p 0 ->
  (forall k, 0 <= k < len p - 1 -> ch s (i + 1 + k) = ch p (1 + k)) -> occurs p s i.
Proof.
  intros Hl Hi Hn E H. split; [done|]. split; [done|]. intros k Hk. destruct (Z.eq_dec k 0) as [->|]; [by rewrite Z.add_0_r|].
  replace (i + k) with (i + 1 + (k - 1)) by lia. rewrite H by lia. f_equal. lia.
Qed.

Lemma linear_loop_spec fuel : forall i,
  1 < len p -> 0 <= i <= len s -> len s - i < Z.of_nat fuel ->
  exists r, linear_loop pw sw fuel p s (ch p 0) i (len s - len p) = Some r /\ first_from p s i r.
Proof.
  induction fuel as [|fuel IH]; intros i Hl Hi Hf; [lia|]. cbn [linear_loop].
  destruct (Z.leb_spec i (len s - len p)) as [Hle|Hgt]; [|exists (-1); split; [done|by apply first_from_past]].
  assert (Hp0 : char_ok pw (ch p 0)) by (apply pattern_char; lia).
  (* after a first character at [j] *)
  assert (Hnext : forall j, i <= j <= len s - len p -> none_before p s i j -> ch s j = ch p 0 ->
    exists r, (equal ← CharCompare (length p) p 1 s (j + 1) 0 (len p - 1);
      if (equal : bool) then Some (j + 1 - 1) else linear_loop pw sw fuel p s (ch p 0) (j + 1) (len s - len p)) = Some r
      /\ first_from p s i r).
  { intros j Hj Hn Ej. destruct (CharCompare_spec (length p) (j + 1) 0) as (b & -> & Ht & Hfalse); [lia..|unfold len; lia|lia|].
    cbn [mbind option_bind]. destruct b.
    - eexists. split; [done|]. replace (j + 1 - 1) with j by lia. right. split; [lia|]. split; [|done].
      apply occurs_tail; [lia..|done|]. by apply Ht.
    - destruct (IH (j + 1)) as (r & -> & Hr); [lia..|]. exists r. split; [done|].
      apply (first_from_skip _ _ _ (j + 1)); [lia| |done].
      apply (none_before_app _ _ _ j); [done|]. apply none_before_step.
      destruct (Hfalse eq_refl) as (k & Hk & Hne). apply (occurs_not p s j (1 + k)); [lia|].
      by replace (j + (1 + k)) with (j + 1 + k) by lia. }
  destruct (negb sw && negb pw) eqn:E.
  - apply andb_true_iff in E as [Es Ep]. apply negb_true_iff in Es, Ep.
    destruct (memchr_spec (ch p 0) (Z.to_nat (len s - len p - i + 1)) i Es) as (r & -> & Hr).
    + unfold char_ok in Hp0. by rewrite Ep in Hp0.
    + lia.
    + lia.
    + cbn [mbind option_bind]. destruct r as [j|].
      * destruct Hr as (Hj & Ej & H). apply Hnext; [lia| |done]. apply none_before_first; [lia|]. done.
      * exists (-1). split; [done|]. apply (first_from_none _ _ _ (len s - len p + 1)); [|lia].
        apply none_before_first; [lia|]. intros k Hk. apply Hr. lia.
  - rewrite at_ch by lia. cbn [mbind option_bind]. destruct (Z.eqb_spec (ch s i) (ch p 0)) as [Ei|Hne].
    + apply Hnext; [lia|apply none_before_empty|done].
    + destruct (IH (i + 1)) as (r & -> & Hr); [lia..|]. exists r. split; [done|].
      apply (first_from_skip _ _ _ (i + 1)); [lia| |done]. apply none_before_first; [lia|].
      intros k Hk. by replace k with i by lia.
Qed.

Lemma LinearSearch_spec index :
  1 < len p -> 0 <= index <= len s ->
  exists r, LinearSearch_run pw sw p s index = Some r /\ first_from p s index r.
Proof.
  intros Hl Hi. unfold LinearSearch_run. rewrite at_ch by lia. cbn [mbind option_bind].
  apply linear_loop_spec; [done|done|unfold len; lia].
Qed.

(** ** Boyer-Moore-Horspool *)

(** A character of the subject with no equal in the pattern between [o] and [q] shifts the pattern by [q - o]. *)
Lemma char_shift index q o :
  ~ occurs p s index -> 0 <= q < len p -> -1 <= o -> (forall k, o < k < q -> ch p k <> ch s (index + q)) ->
  none_before p s index (index + (q - o)).
Proof.
  intros H0 Hq Ho Hk i Hi. destruct (Z.eq_dec i index) as [->|]; [done|].
  apply (occurs_not p s i (index + q - i)); [lia|]. replace (i + (index + q - i)) with (index + q) by lia.
  intros E. by apply (Hk (index + q - i)); [lia|].
Qed.

(** What [CharOccurrence] answers: a position of the pattern, without its last one, after which the
    character does not occur. *)
Definition bad_char_ok (t : list Z) : Prop :=
  forall c, char_ok sw c -> exists o, CharOccurrence pw sw t c = Some o
    /\ -1 <= o <= len p - 2 /\ forall k, o < k < len p - 1 -> ch p k <> c.

Lemma match_back_spec fuel : forall index j c,
  0 <= index -> index + len p <= len s -> -1 <= j < len p -> j + 1 < Z.of_nat fuel ->
  exists j' c', match_back fuel p s index j c = Some (j', c') /\ -1 <= j' <= j
    /\ (forall k, j' < k <= j -> ch s (index + k) = ch p k)
    /\ (0 <= j' -> c' = ch s (index + j') /\ ch s (index + j') <> ch p j').
Proof.
  induction fuel as [|fuel IH]; intros index j c Hi Hn Hj Hf; [lia|]. cbn [match_back].
  destruct (Z.leb_spec 0 j) as [H0|H0].
  - rewrite !at_ch by lia. cbn [mbind option_bind]. destruct (Z.eqb_spec (ch p j) (ch s (index + j))) as [E|Hne].
    + destruct (IH index (j - 1) (ch s (index + j))) as (j' & c' & -> & Hj' & He & Hd); [lia..|].
      exists j', c'. split; [done|]. split; [lia|]. split; [|done].
      intros k Hk. destruct (Z.eq_dec k j) as [->|]; [done|]. apply He. lia.
    + exists j, (ch s (index + j)). split; [done|]. split; [lia|]. split; [lia|]. intros _. split; [done|congruence].
  - exists j, c. split; [done|]. split; [lia|]. split; lia.
Qed.

Lemma bmh_skip_spec t fuel : forall index badness,
  bad_char_ok t -> 0 < len p -> 0 <= index <= len s - len p -> len s - len p - index < Z.of_nat fuel ->
  exists r, bmh_skip pw sw fuel t s (ch p (len p - 1)) (len p - 1) (len s - len p) index badness = Some r
    /\ match r with
       | None => first_from p s index (-1)
       | Some (i, _) => index <= i <= len s - len p /\ none_before p s index i
                        /\ ch s (i + (len p - 1)) = ch p (len p - 1)
       end.
Proof.
  induction fuel as [|fuel IH]; intros index badness Ht Hp0 Hi Hf; [lia|]. cbn [bmh_skip].
  rewrite at_ch by lia. cbn [mbind option_bind].
  destruct (Z.eqb_spec (ch p (len p - 1)) (ch s (index + (len p - 1)))) as [E|Hne].
  - eexists. split; [done|]. cbn. split; [lia|]. split; [apply none_before_empty|done].
  - destruct (Ht (ch s (index + (len p - 1)))) as (o & -> & Ho & Hk); [apply subject_char; lia|].
    cbn [mbind option_bind].
    assert (Hn : none_before p s index (index + (len p - 1 - o))).
    { apply char_shift; [|lia..|by intros k Hk'; apply Hk; lia]. apply (occurs_not p s index (len p - 1)); [lia|congruence]. }
    destruct (Z.ltb_spec (len s - len p) (index + (len p - 1 - o))) as [Hlt|Hge].
    + exists None. split; [done|]. by apply (first_from_none _ _ _ _ Hn).
    + destruct (IH (index + (len p - 1 - o)) (badness + (1 - (len p - 1 - o)))) as (r & -> & Hr); [done|lia..|].
      exists r. split; [done|]. destruct r as [[i b]|].
      * destruct Hr as (Hr & Hn' & E). split; [lia|]. split; [|done]. by apply (none_before_app _ _ _ _ _ Hn).
      * apply (first_from_skip _ _ _ (index + (len p - 1 - o))); [lia|done|done].
Qed.

(** What a loop promises: a result, or where to go on. *)
Definition outcome_ok (index : Z) (o : Outcome) : Prop :=
  match o with
  | Return r => first_from p s index r
  | Bailout i => index <= i /\ none_before p s index i
  end.

Lemma outcome_skip a b o : a <= b -> none_before p s a b -> outcome_ok b o -> outcome_ok a o.
Proof.
  intros Hab Hn. destruct o as [r|i]; cbn; [by apply first_from_skip|].
  intros (Hi & Hn'). split; [lia|]. by apply (none_before_app _ _ _ b).
Qed.

(** The shift of the last character. *)
Lemma last_char_shift_spec t :
  bad_char_ok t -> 0 < len p -> convertible (ch p (len p - 1)) ->
  exists o, CharOccurrence pw sw t (to_subject_char sw (ch p (len p - 1))) = Some o /\ -1 <= o <= len p - 2
    /\ forall index, ch s (index + (len p - 1)) = ch p (len p - 1) -> ~ occurs p s index ->
         none_before p s index (index + (len p - 1 - o)).
Proof.
  intros Ht Hl Hc. assert (Hcp : char_ok pw (ch p (len p - 1))) by (apply pattern_char; lia).
  rewrite to_subject_char_id by done. destruct (Ht (ch p (len p - 1))) as (o & -> & Ho & Hk).
  - unfold char_ok, convertible in *. destruct pw, sw; try lia.
  - exists o. split; [done|]. split; [done|]. intros index E H0. apply char_shift; [done|lia..|].
    intros k Hk'. rewrite E. apply Hk. lia.
Qed.

Lemma occurs_full i j :
  0 <= i -> i + len p <= len s -> j < 0 -> (forall k, j < k <= len p - 1 -> ch s (i + k) = ch p k) -> occurs p s i.
Proof. intros Hi Hn Hj H. split; [done|]. split; [done|]. intros k Hk. apply H. lia. Qed.

Lemma bmh_loop_spec t shift fuel : forall index badness,
  bad_char_ok t -> 0 < len p -> 0 < shift ->
  (forall index, ch s (index + (len p - 1)) = ch p (len p - 1) -> ~ occurs p s index ->
     none_before p s index (index + shift)) ->
  0 <= index -> Z.max 0 (len s - len p - index + 1) < Z.of_nat fuel ->
  exists o, bmh_loop pw sw fuel p t s (ch p (len p - 1)) shift index badness = Some o /\ outcome_ok index o.
Proof.
  induction fuel as [|fuel IH]; intros index badness Ht Hl Hs0 Hshift Hi Hf; [lia|]. cbn [bmh_loop].
  destruct (Z.leb_spec index (len s - len p)) as [Hle|Hgt].
  2: { eexists. split; [done|]. cbn. by apply first_from_past. }
  destruct (bmh_skip_spec t (S (length s)) index badness) as (r & -> & Hr); [done|lia|lia|unfold len; lia|].
  cbn [mbind option_bind]. destruct r as [[i b]|]; [|eexists; split; [done|exact Hr]].
  destruct Hr as (Hi' & Hn & El).
  destruct (match_back_spec (S (length p)) i (len p - 1 - 1) 0) as (j & c & -> & Hj & He & Hd); [lia..|unfold len; lia|].
  cbn [mbind option_bind]. destruct (Z.ltb_spec j 0) as [Hlt|Hge].
  - eexists. split; [done|]. apply (outcome_skip _ i); [lia|done|]. apply first_from_here.
    apply (occurs_full i j); [lia..|]. intros k Hk. destruct (Z.eq_dec k (len p - 1)) as [->|]; [done|]. apply He. lia.
  - assert (Hn' : none_before p s index (i + shift)).
    { apply (none_before_app _ _ _ i); [done|]. apply Hshift; [done|].
      apply (occurs_not p s i j); [lia|]. by apply Hd. }
    destruct (0 <? _); [eexists; split; [done|cbn; split; [lia|done]]|].
    destruct (IH (i + shift) (b + (len p - j - shift))) as (o & -> & Ho); [done..|lia|lia|].
    exists o. split; [done|]. by apply (outcome_skip _ (i + shift)); [lia| |].
Qed.

(** ** The table of the last occurrences *)

(** The equivalence class of a character of the pattern. *)
Definition bucket (c : Z) : Z := if negb pw then c else c mod AlphabetSize pw.

Lemma AlphabetSize_pos : 0 < AlphabetSize pw <= 256.
Proof. unfold AlphabetSize, kUC16AlphabetSize, kAsciiAlphabetSize. destruct pw; lia. Qed.

Lemma bucket_range c : char_ok pw c -> 0 <= bucket c < AlphabetSize pw.
Proof.
  pose proof AlphabetSize_pos. unfold bucket, char_ok. destruct pw; cbn [negb]; intros Hc; [by apply Z.mod_pos_bound|].
  unfold AlphabetSize, kAsciiAlphabetSize. lia.
Qed.

Definition last_occurrences (start i : Z) (t : list Z) : Prop :=
  forall b, 0 <= b < AlphabetSize pw ->
    start - 1 <= ch t b < i /\ forall k, ch t b < k < i -> bucket (ch p k) <> b.

Lemma fill_occurrences_spec start n : forall t i,
  AlphabetSize pw <= len t -> 0 <= start <= i -> i + Z.of_nat n <= len p -> last_occurrences start i t ->
  exists t', fill_occurrences pw n p t i = Some t' /\ len t' = len t /\ last_occurrences start (i + Z.of_nat n) t'.
Proof.
  induction n as [|n IH]; intros t i Hl Hi Hn H; cbn [fill_occurrences].
  - exists t. split; [done|]. split; [done|]. by rewrite Z.add_0_r.
  - rewrite at_ch by lia. cbn [mbind option_bind]. fold (bucket (ch p i)).
    pose proof (bucket_range (ch p i) ltac:(apply pattern_char; lia)) as Hb.
    rewrite put_ok by lia. cbn [mbind option_bind].
    destruct (IH (upd t (bucket (ch p i)) i) (i + 1)) as (t' & -> & Hl' & H'); [rewrite len_upd; lia|lia|lia| |].
    + intros b Hb'. destruct (H b Hb') as (Hr & Hk). rewrite ch_upd by lia. destruct (Z.eqb_spec b (bucket (ch p i))) as [->|Hne].
      * split; [lia|]. intros k Hk'. lia.
      * split; [lia|]. intros k Hk'. destruct (Z.eq_dec k i) as [->|]; [done|]. apply Hk. lia.
    + exists t'. split; [done|]. rewrite len_upd in Hl'. split; [done|]. by replace (i + Z.of_nat (S n)) with (i + 1 + Z.of_nat n) by lia.
Qed.

Lemma last_occurrences_ok start t :
  256 <= len t -> 0 <= start -> last_occurrences start (len p - 1) t -> bad_char_ok t.
Proof.
  intros Hl Hst H c Hc. assert (Hbk : forall b, 0 <= b < AlphabetSize pw -> exists o, at_ t b = Some o
    /\ -1 <= o <= len p - 2 /\ forall k, o < k < len p - 1 -> bucket (ch p k) <> b).
  { intros b Hb. pose proof AlphabetSize_pos. destruct (H b Hb) as (Hr & Hk). exists (ch t b).
    split; [apply at_ch; lia|]. split; [lia|done]. }
  assert (Hst' : start - 1 < len p - 1) by (pose proof AlphabetSize_pos; destruct (H 0); lia).
  assert (Hcp : forall k, -1 < k < len p - 1 -> char_ok pw (ch p k)) by (intros; apply pattern_char; lia).
  unfold CharOccurrence, bucket, char_ok, AlphabetSize, kMaxAsciiCharCodeU, kUC16AlphabetSize, kAsciiAlphabetSize, uint in *.
  destruct sw, pw; cbn [negb] in *.
  - destruct (Hbk (c mod 256)) as (o & -> & Ho & Hk); [by apply Z.mod_pos_bound|]. exists o. split; [done|]. split; [done|].
    intros k Hk' E. apply (Hk k Hk'). by rewrite E.
  - rewrite Z.mod_small by lia. destruct (Z.ltb_spec 127 c).
    + exists (-1). split; [done|]. split; [lia|]. intros k Hk. specialize (Hcp k ltac:(lia)). lia.
    + apply Hbk. lia.
  - destruct (Hbk c) as (o & -> & Ho & Hk); [lia|]. exists o. split; [done|]. split; [done|].
    intros k Hk' E. apply (Hk k Hk'). rewrite E. apply Z.mod_small. lia.
  - by apply Hbk.
Qed.

(** The tables of the thread have room for every pattern. *)
Definition tables_sized (t : Tables) : Prop :=
  len (bad_char_shift_table t) = 256 /\ len (good_suffix_shift_table t) = kBMMaxShift + 1
  /\ len (suffix_table t) = kBMMaxShift + 1.

Lemma PopulateBoyerMooreHorspoolTable_spec f t start :
  tables_sized t -> 0 < len p -> 0 <= start < len p ->
  exists t', PopulateBoyerMooreHorspoolTable pw (mkStringSearch p f start) t = Some t'
    /\ tables_sized t' /\ bad_char_ok (bad_char_shift_table t').
Proof.
  intros (Hb & Hg & Hx) Hl Hst. unfold PopulateBoyerMooreHorspoolTable. cbn [pattern_ start_].
  pose proof AlphabetSize_pos as Ha. replace (if start =? 0 then -1 else start - 1) with (start - 1) by (destruct (Z.eqb_spec start 0); lia).
  destruct (fill_spec (start - 1) (Z.to_nat (AlphabetSize pw)) (bad_char_shift_table t) 0) as (t1 & -> & Hl1 & H1); [lia..|].
  cbn [mbind option_bind].
  destruct (fill_occurrences_spec start (Z.to_nat (len p - 1 - start)) t1 start) as (t2 & -> & Hl2 & H2); [lia..| |].
  - intros b Hb'. rewrite H1 by lia. destruct (Z.leb_spec 0 b), (Z.ltb_spec b (0 + Z.of_nat (Z.to_nat (AlphabetSize pw)))); cbn [andb]; lia || (split; intros; lia).
  - cbn [mbind option_bind]. eexists. split; [done|]. cbn. split; [repeat split; cbn; lia|].
    apply (last_occurrences_ok start); [lia..|]. by replace (len p - 1) with (start + Z.of_nat (Z.to_nat (len p - 1 - start))) by lia.
Qed.

(** ** The search that bails out *)

Lemma match_forward_spec fuel : forall i j,
  0 <= i -> 1 <= j < len p -> i + len p <= len s -> len p - j <= Z.of_nat fuel ->
  exists j', match_forward fuel p s i j = Some j' /\ j <= j' <= len p
    /\ (forall k, j <= k < j' -> ch s (i + k) = ch p k) /\ (j' < len p -> ch s (i + j') <> ch p j').
Proof.
  induction fuel as [|fuel IH]; intros i j Hi Hj Hn Hf; [lia|]. cbn [match_forward].
  rewrite !at_ch by lia. cbn [mbind option_bind]. destruct (Z.eqb_spec (ch p j) (ch s (i + j))) as [E|Hne]; cbn [negb].
  - destruct (Z.ltb_spec (j + 1) (len p)).
    + destruct (IH i (j + 1)) as (j' & -> & Hj' & He & Hd); [lia..|]. exists j'. split; [done|]. split; [lia|]. split; [|done].
      intros k Hk. destruct (Z.eq_dec k j) as [->|]; [done|]. apply He. lia.
    + exists (j + 1). split; [done|]. split; [lia|]. split; [|lia]. intros k Hk. by replace k with j by lia.
  - exists j. split; [done|]. split; [lia|]. split; [lia|]. intros _. congruence.
Qed.

Lemma initial_loop_spec fuel : forall i badness,
  1 < len p -> 0 <= i -> Z.max 0 (len s - len p - i + 1) < Z.of_nat fuel ->
  exists o, initial_loop pw sw fuel p s (ch p 0) i (len s - len p) badness = Some o /\ outcome_ok i o.
Proof.
  induction fuel as [|fuel IH]; intros i badness Hl Hi Hf; [lia|]. cbn [initial_loop].
  destruct (Z.leb_spec i (len s - len p)) as [Hle|Hgt].
  2: { eexists. split; [done|]. cbn. by apply first_from_past. }
  destruct (badness + 1 <=? 0).
  2: { eexists. split; [done|]. cbn. split; [lia|]. apply none_before_empty. }
  assert (Hp0 : char_ok pw (ch p 0)) by (apply pattern_char; lia).
  assert (Hnext : forall j, i <= j <= len s - len p -> none_before p s i j -> ch s j = ch p 0 ->
    exists o, (j' ← match_forward (length p) p s j 1;
      if j' =? len p then Some (Return j)
      else initial_loop pw sw fuel p s (ch p 0) (j + 1) (len s - len p) (badness + 1 + j')) = Some o /\ outcome_ok i o).
  { intros j Hj Hn Ej. destruct (match_forward_spec (length p) j 1) as (j' & -> & Hj' & He & Hd); [lia..|unfold len; lia|].
    cbn [mbind option_bind]. destruct (Z.eqb_spec j' (len p)) as [->|Hne].
    - eexists. split; [done|]. apply (outcome_skip _ j); [lia|done|]. apply first_from_here.
      split; [lia|]. split; [lia|]. intros k Hk. destruct (Z.eq_dec k 0) as [->|]; [by rewrite Z.add_0_r|]. apply He. lia.
    - destruct (IH (j + 1) (badness + 1 + j')) as (o & -> & Ho); [lia..|]. exists o. split; [done|].
      apply (outcome_skip _ (j + 1)); [lia| |done]. apply (none_before_app _ _ _ j); [done|]. apply none_before_step.
      apply (occurs_not p s j j'); [lia|]. apply Hd. lia. }
  destruct (negb sw && negb pw) eqn:E.
  - apply andb_true_iff in E as [Es Ep]. apply negb_true_iff in Es, Ep.
    destruct (memchr_spec (ch p 0) (Z.to_nat (len s - len p - i + 1)) i Es) as (r & -> & Hr).
    + unfold char_ok in Hp0. by rewrite Ep in Hp0.
    + lia.
    + lia.
    + cbn [mbind option_bind]. destruct r as [j|].
      * destruct Hr as (Hj & Ej & H). apply Hnext; [lia| |done]. by apply none_before_first; [lia|].
      * eexists. split; [done|]. cbn. apply (first_from_none _ _ _ (len s - len p + 1)); [|lia].
        apply none_before_first; [lia|]. intros k Hk. apply Hr. lia.
  - rewrite at_ch by lia. cbn [mbind option_bind]. destruct (Z.eqb_spec (ch s i) (ch p 0)) as [Ei|Hne].
    + apply Hnext; [lia|apply none_before_empty|done].
    + destruct (IH (i + 1) (badness + 1)) as (o & -> & Ho); [lia..|]. exists o. split; [done|].
      apply (outcome_skip _ (i + 1)); [lia| |done]. apply none_before_first; [lia|].
      intros k Hk. by replace k with i by lia.
Qed.

(** ** Boyer-Moore *)

(** The same inner loop without the count. *)
Lemma bm_skip_bmh t last j n fuel : forall index badness,
  bm_skip pw sw fuel t s last j n index
  = option_map (option_map (fun r => (fst r, last))) (bmh_skip pw sw fuel t s last j n index badness).
Proof.
  induction fuel as [|fuel IH]; intros index badness; cbn [bm_skip bmh_skip]; [done|].
  destruct (at_ s (index + j)) as [c|]; cbn [mbind option_bind]; [|done].
  destruct (Z.eqb_spec last c) as [->|]; [done|]. destruct (CharOccurrence pw sw t c); cbn [mbind option_bind]; [|done].
  destruct (_ <? _); [done|]. apply IH.
Qed.

(** A shift by the good suffix table. *)
Lemma good_suffix_shift st t index j :
  0 <= st -> good_suffix_ok p st t -> st <= j < len p ->
  (forall k, j < k < len p -> ch s (index + k) = ch p k) -> ch s (index + j) <> ch p j ->
  none_before p s index (index + T st t (j + 1)).
Proof.
  intros Hst (_ & H) Hj Heq Hne i Hi. destruct (H j Hj) as (_ & Hc). destruct (Z.eq_dec i index) as [->|].
  { by apply (occurs_not p s index j); [lia|]. }
  intros (_ & _ & Ho). apply (Hc (i - index)); [lia|]. split.
  - intros k Hk Hd. rewrite <- (Heq k) by lia. rewrite <- Ho by lia. f_equal. lia.
  - intros Hd E. apply Hne. rewrite <- E. rewrite <- Ho by lia. f_equal. lia.
Qed.

(** What the Boyer-Moore search needs of the tables. *)
Definition tables_ok (st : Z) (t : Tables) : Prop :=
  bad_char_ok (bad_char_shift_table t) /\ good_suffix_ok p st (good_suffix_shift_table t).

(** The shift after a comparison that has stopped at [j]. *)
Lemma bm_shift_spec st t index j :
  tables_ok st t -> 0 <= st -> len p - st <= kBMMaxShift -> 0 < len p -> convertible (ch p (len p - 1)) ->
  0 <= index <= len s - len p -> 0 <= j < len p - 1 ->
  (forall k, j < k < len p -> ch s (index + k) = ch p k) -> ch s (index + j) <> ch p j ->
  exists shift, 0 < shift /\ none_before p s index (index + shift)
    /\ forall next : Z -> option Z,
      (if j <? st then
         occ ← CharOccurrence pw sw (bad_char_shift_table t) (to_subject_char sw (ch p (len p - 1)));
         next (index + (len p - 1 - occ))
       else
         gs_shift ← at_ (good_suffix_shift_table t) (j + 1 - st);
         bc_occ ← CharOccurrence pw sw (bad_char_shift_table t) (ch s (index + j));
         let shift := if j - bc_occ <? gs_shift then gs_shift else j - bc_occ in
         next (index + shift)) = next (index + shift).
Proof.
  intros (Hbc & Hgs) Hst Hmax Hl Hcv Hi Hj Heq Hne.
  assert (Hno : ~ occurs p s index) by (by apply (occurs_not p s index j); [lia|]).
  destruct (Z.ltb_spec j st) as [Hjs|Hjs].
  - destruct (last_char_shift_spec _ Hbc Hl Hcv) as (o & -> & Ho & Hs'). exists (len p - 1 - o). split; [lia|].
    split; [|done]. apply Hs'; [|done]. apply Heq. lia.
  - pose proof Hgs as (Hlg & Hg). destruct (Hg j) as (Hg1 & _); [lia|]. rewrite at_T by lia. cbn [mbind option_bind].
    destruct (Hbc (ch s (index + j))) as (o & -> & Ho & Hk); [apply subject_char; lia|]. cbn [mbind option_bind].
    destruct (Z.ltb_spec (j - o) (T st (good_suffix_shift_table t) (j + 1))) as [Hlt|Hge].
    + exists (T st (good_suffix_shift_table t) (j + 1)). split; [lia|]. split; [|done].
      apply good_suffix_shift; [done|done|lia|done|done].
    + exists (j - o). split; [lia|]. split; [|done]. apply char_shift; [done|lia..|]. intros k Hk'. apply Hk. lia.
Qed.

Lemma bm_loop_spec st t fuel : forall index,
  tables_ok st t -> 0 <= st -> len p - st <= kBMMaxShift -> 0 < len p -> convertible (ch p (len p - 1)) ->
  0 <= index -> Z.max 0 (len s - len p - index + 1) < Z.of_nat fuel ->
  exists r, bm_loop pw sw fuel p t st s (ch p (len p - 1)) index = Some r /\ first_from p s index r.
Proof.
  induction fuel as [|fuel IH]; intros index Ht Hst Hmax Hl Hcv Hi Hf; [lia|]. cbn [bm_loop].
  destruct (Z.leb_spec index (len s - len p)) as [Hle|Hgt].
  2: { eexists. split; [done|]. by apply first_from_past. }
  rewrite (bm_skip_bmh _ _ _ _ _ index 0).
  destruct (bmh_skip_spec (bad_char_shift_table t) (S (length s)) index 0) as (r & -> & Hr); [apply Ht|lia|lia|unfold len; lia|].
  cbn [option_map mbind option_bind]. destruct r as [[i b]|]; [|eexists; split; [done|exact Hr]].
  destruct Hr as (Hi' & Hn & El). cbn [option_map fst].
  destruct (match_back_spec (S (length p)) i (len p - 1) (ch p (len p - 1))) as (j & c & -> & Hj & He & Hd);
    [lia..|unfold len; lia|].
  cbn [mbind option_bind]. destruct (Z.ltb_spec j 0) as [Hlt|Hge].
  - eexists. split; [done|]. apply (first_from_skip _ _ _ i); [lia|done|]. apply first_from_here.
    by apply (occurs_full i j); [lia..|].
  - destruct (Hd Hge) as (-> & Hne). destruct (Z.eq_dec j (len p - 1)) as [->|Hjl]; [done|].
    destruct (bm_shift_spec st t i j) as (shift & Hs0 & Hn' & E); [done|done|done|done|done|lia|lia| |done|].
    { intros k Hk. apply He. lia. }
    rewrite E. destruct (IH (i + shift)) as (r & -> & Hr); [done|done|done|done|done|lia|lia|].
    exists r. split; [done|]. apply (first_from_skip _ _ _ (i + shift)); [lia| |done]. by apply (none_before_app _ _ _ i).
Qed.

(** ** Search *)

(** The search object for the pattern, with the tables of the thread as it expects them. *)
Definition search_ok (search : StringSearch) (t : Tables) : Prop :=
  pattern_ search = p /\ start_ search = Z.max 0 (len p - kBMMaxShift) /\ tables_sized t
  /\ match strategy_ search with
     | FailSearch => pw = true /\ sw = false /\ exists k, 0 <= k < len p /\ 127 < ch p k
     | strategy =>
         (forall k, 0 <= k < len p -> convertible (ch p k))
         /\ match strategy with
            | SingleCharSearch => len p = 1
            | LinearSearch => 1 < len p
            | BoyerMooreHorspoolSearch => kBMMinPatternLength <= len p /\ bad_char_ok (bad_char_shift_table t)
            | BoyerMooreSearch => kBMMinPatternLength <= len p /\ tables_ok (start_ search) t
            | _ => kBMMinPatternLength <= len p
            end
     end.

(** What a strategy does with the search object. *)
Definition searches (index : Z) (o : option (StringSearch * Tables * Z)) : Prop :=
  exists search t r, o = Some (search, t, r) /\ first_from p s index r /\ search_ok search t.

Lemma BoyerMooreSearch_spec search t index :
  search_ok search t -> strategy_ search = BoyerMooreSearch -> 0 <= index ->
  exists r, BoyerMooreSearch_run pw sw search t s index = Some r /\ first_from p s index r.
Proof.
  intros (Ep & Est & _ & H) E Hi. rewrite E in H. destruct H as (Hcv & Hl & Ht). unfold BoyerMooreSearch_run.
  unfold kBMMinPatternLength in *. rewrite Ep, at_ch by lia. cbn [mbind option_bind].
  apply bm_loop_spec; [done|unfold kBMMaxShift in *; lia|unfold kBMMaxShift in *; lia|lia|apply Hcv; lia|done|unfold len in *; lia].
Qed.

Lemma BoyerMooreHorspoolSearch_spec search t index :
  search_ok search t -> strategy_ search = BoyerMooreHorspoolSearch -> 0 <= index ->
  searches index (BoyerMooreHorspoolSearch_run pw sw search t s index).
Proof.
  intros Hok E Hi. pose proof Hok as (Ep & Est & Hsz & H). rewrite E in H. destruct H as (Hcv & Hl & Hb).
  unfold BoyerMooreHorspoolSearch_run. unfold kBMMinPatternLength in *. rewrite Ep, at_ch by lia. cbn [mbind option_bind].
  destruct (last_char_shift_spec _ Hb) as (o & -> & Ho & Hs'); [lia|apply Hcv; lia|]. cbn [mbind option_bind].
  destruct (bmh_loop_spec (bad_char_shift_table t) (len p - 1 - o) (S (length s)) index (- len p)) as (r & -> & Hr);
    [done|lia|lia|done|done|unfold len in *; lia|].
  cbn [mbind option_bind]. destruct r as [r|i]; [by exists search, t, r|]. destruct Hr as (Hi' & Hn).
  destruct search as [p' f st]. cbn [pattern_ start_ strategy_] in *. subst p'.
  destruct (PopulateBoyerMooreTable_spec p st ltac:(lia) ltac:(unfold kBMMaxShift in *; lia) f t) as (t' & -> & Eb & Hx & Hg);
    [apply Hsz..|].
  cbn [mbind option_bind set_strategy pattern_ start_].
  assert (Hok' : search_ok (mkStringSearch p BoyerMooreSearch st) t').
  { split; [done|]. split; [done|]. split; [split; [rewrite Eb; apply Hsz|split; [apply Hg|done]]|]. cbn.
    split; [done|]. split; [done|]. unfold tables_ok. by rewrite Eb. }
  destruct (BoyerMooreSearch_spec _ t' i Hok' eq_refl) as (r & E' & Hr); [lia|].
  change (set_strategy _ _) with (mkStringSearch p BoyerMooreSearch st). rewrite E'. cbn [mbind option_bind].
  exists (mkStringSearch p BoyerMooreSearch st), t', r. split; [done|]. split; [|done]. by apply (first_from_skip _ _ _ i).
Qed.

Lemma InitialSearch_spec search t index :
  search_ok search t -> strategy_ search = InitialSearch -> 0 <= index ->
  searches index (InitialSearch_run pw sw search t s index).
Proof.
  intros Hok E Hi. pose proof Hok as (Ep & Est & Hsz & H). rewrite E in H. destruct H as (Hcv & Hl).
  unfold InitialSearch_run. unfold kBMMinPatternLength in *. rewrite Ep, at_ch by lia. cbn [mbind option_bind].
  destruct (initial_loop_spec (S (length s)) index (-10 - Z.shiftl (len p) 2)) as (r & -> & Hr); [lia|done|unfold len in *; lia|].
  cbn [mbind option_bind]. destruct r as [r|i]; [by exists search, t, r|]. destruct Hr as (Hi' & Hn).
  destruct search as [p' f st]. cbn [pattern_ start_ strategy_] in *. subst p'.
  destruct (PopulateBoyerMooreHorspoolTable_spec f t st) as (t' & -> & Hsz' & Hb); [done|lia|unfold kBMMaxShift in *; lia|].
  cbn [mbind option_bind].
  assert (Hok' : search_ok (mkStringSearch p BoyerMooreHorspoolSearch st) t') by done.
  destruct (BoyerMooreHorspoolSearch_spec _ t' i Hok' eq_refl) as (search' & t2 & r & E' & Hr & Hok2); [lia|].
  change (set_strategy _ _) with (mkStringSearch p BoyerMooreHorspoolSearch st). exists search', t2, r.
  split; [done|]. split; [|done]. by apply (first_from_skip _ _ _ i).
Qed.

Lemma Search_spec search t index :
  search_ok search t -> 0 <= index <= len s -> searches index (Search pw sw search t s index).
Proof.
  intros Hok Hi. pose proof Hok as (Ep & Est & Hsz & H). unfold Search. destruct (strategy_ search) eqn:E.
  - exists search, t, (-1). split; [done|]. split; [|done]. left. split; [done|]. destruct H as (Hpw & Hsw & k & Hk & Hc).
    intros i Hi' (Hi0 & Hin & Ho). specialize (Ho k Hk). pose proof (subject_char (i + k) ltac:(lia)) as Hck.
    unfold char_ok in Hck. rewrite Hsw in Hck. lia.
  - destruct H as (Hcv & Hl). destruct (SingleCharSearch_spec index) as (r & E' & Hr); [done|apply Hcv; lia|done|].
    rewrite Ep, E'. by exists search, t, r.
  - destruct H as (Hcv & Hl). destruct (LinearSearch_spec index) as (r & E' & Hr); [done|done|].
    rewrite Ep, E'. by exists search, t, r.
  - by apply InitialSearch_spec; [| |lia].
  - by apply BoyerMooreHorspoolSearch_spec; [| |lia].
  - destruct (BoyerMooreSearch_spec search t index) as (r & E' & Hr); [done|done|lia|]. rewrite E'. by exists search, t, r.
Qed.

(** The constructor makes a search object that can be used. *)
Lemma StringSearch_new_ok t : 1 <= len p -> tables_sized t -> search_ok (StringSearch_new pw sw p) t.
Proof.
  intros Hl Hsz. unfold StringSearch_new. destruct (pw && negb sw && negb (IsAscii p)) eqn:E.
  - apply andb_true_iff in E as [E Ea]. apply andb_true_iff in E as [Ep Es]. apply negb_true_iff in Es, Ea.
    split; [done|]. split; [done|]. split; [done|]. cbn. split; [done|]. split; [done|].
    unfold IsAscii in Ea. destruct (decide (Exists (fun c => 127 < c) p)) as [Hex|Hno].
    + apply Exists_exists in Hex as (c & Hc & Hlt). apply list_elem_of_lookup_1 in Hc as (k & Hk).
      pose proof (lookup_lt_Some _ _ _ Hk). exists (Z.of_nat k). split; [unfold len; lia|].
      unfold ch, at_. destruct (Z.leb_spec 0 (Z.of_nat k)); [|lia]. by rewrite Nat2Z.id, Hk.
    + apply not_true_iff_false in Ea. exfalso. apply Ea, forallb_forall. intros c Hc. apply Z.leb_le.
      unfold kMaxAsciiCharCodeU. destruct (Z.le_gt_cases c 127); [done|]. exfalso. apply Hno, Exists_exists.
      exists c. split; [by apply list_elem_of_In|lia].
  - assert (Hcv : forall k, 0 <= k < len p -> convertible (ch p k)).
    { intros k Hk Ep Es. rewrite Ep, Es in E. cbn in E. apply negb_false_iff in E. unfold IsAscii in E.
      rewrite forallb_forall in E. apply Z.leb_le, E, list_elem_of_In.
      apply (ch_Forall (fun c => c ∈ p)); [by apply Forall_forall|done]. }
    split; [done|]. split; [done|]. split; [done|]. cbn [strategy_].
    destruct (Z.ltb_spec (len p) kBMMinPatternLength); cbn [strategy_]; [|done].
    destruct (Z.eqb_spec (len p) 1); cbn; split; done || lia.
Qed.

End proofs.

(** The constructor, then a search. *)
Lemma SearchString_spec pw sw p s t index :
  Forall (char_ok pw) p -> Forall (char_ok sw) s -> 1 <= len p -> tables_sized t -> 0 <= index <= len s ->
  exists t' r, SearchString pw sw t s p index = Some (t', r) /\ first_from p s index r /\ tables_sized t'.
Proof.
  intros Hp Hs Hl Hsz Hi. unfold SearchString.
  destruct (Search_spec pw sw p s Hp Hs (StringSearch_new pw sw p) t index) as (search & t' & r & -> & Hr & Hok);
    [by apply StringSearch_new_ok|done|].
  cbn [mbind option_bind]. exists t', r. split; [done|]. split; [done|]. apply Hok.
Qed.

(** ** The theorems *)

(** C17: One search with a search object, whatever strategy it has come to, finds the first occurrence of the
    pattern from the index on, or answers -1 when there is none; it never reads outside the strings and the
    tables, always ends, and leaves the search object and the tables of the thread ready for the next search.
    Any of the four combinations of one- and two-byte strings. *)
Theorem Search_correct pw sw p s search t index :
  Forall (char_ok pw) p -> Forall (char_ok sw) s -> search_ok pw sw p search t -> 0 <= index <= len s ->
  exists search' t' r, Search pw sw search t s index = Some (search', t', r)
    /\ first_from p s index r /\ search_ok pw sw p search' t'.
Proof. intros Hp Hs Hok Hi. by apply Search_spec. Qed.

Lemma Search_correct_witness : exists search' t' r,
  Search false false (mkStringSearch [97; 98; 97] LinearSearch 0)
    (mkTables (replicate 256 0) (replicate 251 0) (replicate 251 0)) [97; 98; 98; 97; 98; 97] 1 = Some (search', t', r)
  /\ first_from [97; 98; 97] [97; 98; 98; 97; 98; 97] 1 r /\ r = 3.
Proof.
  destruct (Search_correct false false [97; 98; 97] [97; 98; 98; 97; 98; 97] (mkStringSearch [97; 98; 97] LinearSearch 0)
    (mkTables (replicate 256 0) (replicate 251 0) (replicate 251 0)) 1) as (search' & t' & r & E & Hr & _).
  - repeat constructor; cbn; lia.
  - repeat constructor; cbn; lia.
  - split; [done|]. split; [done|]. split; [done|]. cbn. split; [by intros k _|done].
  - by vm_compute.
  - exists search', t', r. split; [exact E|]. split; [exact Hr|].
    remember (Search _ _ _ _ _ _) as o eqn:Eo. vm_compute in Eo. subst o. by injection E.
Defined.

(** A stand-alone search is the search for the first occurrence, whatever tables an earlier search has left:
    the constructor chooses a strategy that can search for the pattern. *)
Theorem SearchString_first pw sw p s t index :
  Forall (char_ok pw) p -> Forall (char_ok sw) s -> 1 <= len p -> tables_sized t -> 0 <= index <= len s ->
  exists t' r, SearchString pw sw t s p index = Some (t', r) /\ first_from p s index r /\ tables_sized t'.
Proof. apply SearchString_spec. Qed.

(** A subject that makes the search pass through all strategies. *)
Definition long_subject : list Z := replicate 60 97 ++ [98; 97; 97; 97; 97; 98; 97; 97; 97; 97].

Lemma SearchString_first_witness : exists t' r,
  SearchString true true (mkTables (replicate 256 7) (replicate 251 8) (replicate 251 9)) long_subject
    [97; 98; 97; 97; 97; 97; 98; 97] 0 = Some (t', r)
  /\ first_from [97; 98; 97; 97; 97; 97; 98; 97] long_subject 0 r /\ r = 59.
Proof.
  destruct (SearchString_first true true [97; 98; 97; 97; 97; 97; 98; 97] long_subject
    (mkTables (replicate 256 7) (replicate 251 8) (replicate 251 9)) 0) as (t' & r & E & Hr & _).
  - repeat constructor; cbn; lia.
  - unfold long_subject. apply Forall_app. split; [apply Forall_replicate; unfold char_ok; lia|repeat constructor; cbn; lia].
  - by vm_compute.
  - done.
  - by vm_compute.
  - exists t', r. split; [exact E|]. split; [exact Hr|].
    remember (SearchString _ _ _ _ _ _) as o eqn:Eo. vm_compute in Eo. subst o. by injection E.
Defined.
