(* ===== verification/StringMatching.v ===== *)
(** * StringMatching: the matching functions of the runtime

    Models the part of src/runtime.cc that finds a pattern in a string: indexOf,
    lastIndexOf, the list of all matches, and split.  A string is its flat content
    ([String::FlatContent] of src/objects.h): the flags of its representation and
    its characters; flattening does not change it.  The answers of split are the
    substrings themselves; the cache of split answers, which stands before the
    code modelled here, is left out. *)

From S2P Require Import Prelude StringSearch StringSearchTables StringSearchCorrect.

Open Scope Z_scope.

(** ** Strings *)

(** [ascii_data_hint] is the bit of a two-byte external string whose characters are known to be ASCII. *)
Record Str := mkStrHint { two_byte : bool; ascii_data_hint : bool; chars : list Z }.

Definition mkStr (two_byte : bool) (chars : list Z) : Str := mkStrHint two_byte false chars.

Definition IsAsciiRepresentation (s : Str) : bool := negb (two_byte s).

Definition HasOnlyAsciiChars (s : Str) : bool := negb (two_byte s) || ascii_data_hint s.

Definition str_length (s : Str) : Z := len (chars s).

Definition kMaxLength : Z := Z.shiftl 1 (32 - 2) - 1.

(** [subject[from, to)]. *)
Definition slice (s : list Z) (from to : Z) : list Z := take (Z.to_nat (to - from)) (drop (Z.to_nat from) s).

(** A string of at most two characters is made anew, with one-byte characters if they allow it. *)
Definition AllocateSubString (s : Str) (start end_ : Z) : Str :=
  let text := slice (chars s) start end_ in
  mkStr (if end_ - start <=? 2 then existsb (fun c => kMaxAsciiCharCodeU <? c) text else two_byte s) text.

Definition NewProperSubString (s : Str) (begin end_ : Z) : Str := AllocateSubString s begin end_.

Definition NewSubString (s : Str) (begin end_ : Z) : Str :=
  if (begin =? 0) && (end_ =? str_length s) then s else AllocateSubString s begin end_.

(** ** The first match *)

Definition StringMatch (t : Tables) (sub pat : Str) (start_index : Z) : option (Tables * Z) :=
  let pattern_length := str_length pat in
  if pattern_length =? 0 then Some (t, start_index)
  else
    let subject_length := str_length sub in
    if subject_length <? start_index + pattern_length then Some (t, -1)
    else SearchString (two_byte pat) (two_byte sub) t (chars sub) (chars pat) start_index.

(** ** The last match *)

Fixpoint match_while (fuel : nat) (pattern subject : list Z) (i j : Z) : option Z :=
  match fuel with
  | O => None
  | S fuel =>
      if j <? len pattern then
        a ← at_ pattern j;
        b ← at_ subject (i + j);
        if negb (a =? b) then Some j else match_while fuel pattern subject i (j + 1)
      else Some j
  end.

Fixpoint backwards_loop (fuel : nat) (pattern subject : list Z) (pattern_first_char i : Z) : option Z :=
  match fuel with
  | O => None
  | S fuel =>
      if 0 <=? i then
        d ← at_ subject i;
        if negb (d =? pattern_first_char) then backwards_loop fuel pattern subject pattern_first_char (i - 1)
        else
          j ← match_while (S (length pattern)) pattern subject i 1;
          if j =? len pattern then Some i else backwards_loop fuel pattern subject pattern_first_char (i - 1)
      else Some (-1)
  end.

Definition StringMatchBackwards (pw sw : bool) (subject pattern : list Z) (idx : Z) : option Z :=
  if negb sw && pw && existsb (fun c => kMaxAsciiCharCodeU <? c) pattern then Some (-1)
  else
    pattern_first_char ← at_ pattern 0;
    backwards_loop (S (length subject)) pattern subject pattern_first_char idx.

(** [start_index] is a [uint32_t]; the result is a small integer. *)
Definition StringLastIndexOf (sub pat : Str) (start_index : Z) : option Z :=
  let pat_length := str_length pat in
  let sub_length := str_length sub in
  let start_index := if sub_length <? uint 32 (start_index + pat_length) then uint 32 (sub_length - pat_length) else start_index in
  if pat_length =? 0 then Some (sint 32 start_index)
  else StringMatchBackwards (two_byte pat) (two_byte sub) (chars sub) (chars pat) (sint 32 start_index).

(** ** All matches *)

Fixpoint FindAsciiStringIndices (fuel : nat) (subject : list Z) (pattern pos limit : Z) (indices : list Z) : option (list Z) :=
  match fuel with
  | O => None
  | S fuel =>
      if 0 <? limit then
        r ← memchr subject pos pattern (Z.to_nat (len subject - pos));
        match r with
        | None => Some indices
        | Some pos => FindAsciiStringIndices fuel subject pattern (pos + 1) (limit - 1) (indices ++ [pos])
        end
      else Some indices
  end.

(** The loop of [FindStringIndices]. *)
Fixpoint find_loop (pw sw : bool) (fuel : nat) (search : StringSearch) (t : Tables) (subject : list Z)
    (pattern_length index limit : Z) (indices : list Z) : option (Tables * list Z) :=
  match fuel with
  | O => None
  | S fuel =>
      if 0 <? limit then
        '(search, t, index) ← Search pw sw search t subject index;
        if index <? 0 then Some (t, indices)
        else find_loop pw sw fuel search t subject pattern_length (index + pattern_length) (limit - 1) (indices ++ [index])
      else Some (t, indices)
  end.

Definition FindStringIndices (pw sw : bool) (t : Tables) (subject pattern : list Z) (limit : Z) : option (Tables * list Z) :=
  find_loop pw sw (S (S (length subject))) (StringSearch_new pw sw pattern) t subject (len pattern) 0 limit [].

Definition FindStringIndicesDispatch (t : Tables) (subject pattern : Str) (limit : Z) : option (Tables * list Z) :=
  if negb (two_byte subject) && negb (two_byte pattern) && (str_length pattern =? 1) then
    c ← at_ (chars pattern) 0;
    indices ← FindAsciiStringIndices (S (S (length (chars subject)))) (chars subject) c 0 limit [];
    Some (t, indices)
  else FindStringIndices (two_byte pattern) (two_byte subject) t (chars subject) (chars pattern) limit.

(** ** Split *)

(** The loop that creates the parts. *)
Fixpoint split_parts (subject : Str) (pattern_length part_start : Z) (indices : list Z) : list Str :=
  match indices with
  | [] => []
  | part_end :: indices =>
      NewProperSubString subject part_start part_end :: split_parts subject pattern_length (part_end + pattern_length) indices
  end.

(** The tables and the parts; [limit] is a [uint32_t] that is not 0. *)
Definition StringSplit (t : Tables) (subject pattern : Str) (limit : Z) : option (Tables * list Str) :=
  let subject_length := str_length subject in
  let pattern_length := str_length pattern in
  '(t, indices) ← FindStringIndicesDispatch t subject pattern limit;
  let indices := if uint 32 (len indices) <? limit then indices ++ [subject_length] else indices in
  Some (t,
    match indices with
    | [index] => if index =? subject_length then [subject] else split_parts subject pattern_length 0 indices
    | _ => split_parts subject pattern_length 0 indices
    end).

(** ** Strings as the heap has them *)

Definition str_ok (s : Str) : Prop :=
  Forall (char_ok (two_byte s)) (chars s) /\ str_length s <= kMaxLength
  /\ (ascii_data_hint s = true -> Forall (char_ok false) (chars s)).

(** A string without the hint. *)
Lemma str_ok_intro w l : Forall (char_ok w) l -> len l <= kMaxLength -> str_ok (mkStr w l).
Proof. by intros H1 H2. Qed.

Lemma str_length_range s : str_ok s -> 0 <= str_length s < 2 ^ 30.
Proof. intros (_ & H & _). unfold str_length, len in *. change kMaxLength with (2 ^ 30 - 1) in H. lia. Qed.

(** [i] is the last occurrence that begins at or before [index], or -1. *)
Definition last_upto (p s : list Z) (index r : Z) : Prop :=
  (r = -1 /\ forall i, i <= index -> ~ occurs p s i)
  \/ (r <= index /\ occurs p s r /\ forall i, r < i <= index -> ~ occurs p s i).

(** The matches from an index on, each from the end of the one before. *)
Inductive matches (p s : list Z) : Z -> list Z -> Prop :=
  | matches_none i : first_from p s i (-1) -> matches p s i []
  | matches_some i r l : first_from p s i r -> 0 <= r -> matches p s (r + len p) l -> matches p s i (r :: l).

Lemma first_from_le p s i r : first_from p s i r -> 0 <= r -> i <= r /\ r + len p <= len s.
Proof. intros [(-> & _)|(Hi & (_ & H & _) & _)] Hr; lia. Qed.

(** ** The first match *)

(** IndexOf: the empty pattern is found at the start index; otherwise the answer is the first occurrence from
    the start index on, or -1, for all four combinations of representations, and whatever an earlier search has
    left in the tables of the thread. *)
Theorem StringMatch_correct t sub pat start_index :
  str_ok sub -> str_ok pat -> tables_sized t -> 0 <= start_index <= str_length sub ->
  exists t' r, StringMatch t sub pat start_index = Some (t', r) /\ tables_sized t'
    /\ first_from (chars pat) (chars sub) start_index r.
Proof.
  intros (Hs & _ & _) (Hp & _ & _) Ht Hi. unfold StringMatch, str_length in *. pose proof (len_nonneg (chars pat)).
  destruct (Z.eqb_spec (len (chars pat)) 0) as [E|Hne].
  - exists t, start_index. split; [done|]. split; [done|]. apply first_from_here. split; [lia|]. split; lia.
  - destruct (Z.ltb_spec (len (chars sub)) (start_index + len (chars pat))).
    + exists t, (-1). split; [done|]. split; [done|]. apply first_from_past. lia.
    + destruct (SearchString_spec _ _ _ _ t start_index Hp Hs) as (t' & r & E & Hr & Ht'); [lia|done|lia|].
      exists t', r. by rewrite E.
Qed.

Lemma StringMatch_correct_witness : exists t' r,
  StringMatch (mkTables (replicate 256 0) (replicate 251 0) (replicate 251 0))
    (mkStr true [960; 97; 98; 97; 98; 99]) (mkStr false [97; 98; 99]) 1 = Some (t', r)
  /\ first_from [97; 98; 99] [960; 97; 98; 97; 98; 99] 1 r /\ r = 3.
Proof.
  destruct (StringMatch_correct (mkTables (replicate 256 0) (replicate 251 0) (replicate 251 0))
    (mkStr true [960; 97; 98; 97; 98; 99]) (mkStr false [97; 98; 99]) 1) as (t' & r & E & _ & Hr).
  - apply str_ok_intro; [repeat constructor; cbn; lia|by vm_compute].
  - apply str_ok_intro; [repeat constructor; cbn; lia|by vm_compute].
  - done.
  - by vm_compute.
  - exists t', r. split; [exact E|]. split; [exact Hr|].
    remember (StringMatch _ _ _ _) as o eqn:Eo. vm_compute in Eo. subst o. by injection E.
Defined.

(** ** The last match *)

Lemma match_while_spec p s fuel : forall i j,
  0 <= i -> 1 <= j <= len p -> i + len p <= len s -> len p - j < Z.of_nat fuel ->
  exists j', match_while fuel p s i j = Some j' /\ j <= j' <= len p
    /\ (forall k, j <= k < j' -> ch s (i + k) = ch p k) /\ (j' < len p -> ch s (i + j') <> ch p j').
Proof.
  induction fuel as [|fuel IH]; intros i j Hi Hj Hn Hf; [lia|]. cbn [match_while].
  destruct (Z.ltb_spec j (len p)) as [Hlt|Hge].
  2: { exists j. split; [done|]. split; [lia|]. split; lia. }
  rewrite !at_ch by lia. cbn [mbind option_bind]. destruct (Z.eqb_spec (ch p j) (ch s (i + j))) as [E|Hne]; cbn [negb].
  - destruct (IH i (j + 1)) as (j' & -> & Hj' & He & Hd); [lia..|]. exists j'. split; [done|]. split; [lia|]. split; [|done].
    intros k Hk. destruct (Z.eq_dec k j) as [->|]; [done|]. apply He. lia.
  - exists j. split; [done|]. split; [lia|]. split; [lia|]. congruence.
Qed.

Lemma last_upto_skip p s i r : ~ occurs p s i -> last_upto p s (i - 1) r -> last_upto p s i r.
Proof.
  intros Hn [(-> & H)|(Hr & Ho & H)].
  - left. split; [done|]. intros k Hk. destruct (Z.eq_dec k i) as [->|]; [done|]. apply H. lia.
  - right. split; [lia|]. split; [done|]. intros k Hk. destruct (Z.eq_dec k i) as [->|]; [done|]. apply H. lia.
Qed.

Lemma last_upto_negative p s i : i < 0 -> last_upto p s i (-1).
Proof. intros Hi. left. split; [done|]. intros k Hk (? & _). lia. Qed.

Lemma backwards_loop_spec p s fuel : forall i,
  1 <= len p -> -1 <= i -> i + len p <= len s -> i + 1 < Z.of_nat fuel ->
  exists r, backwards_loop fuel p s (ch p 0) i = Some r /\ last_upto p s i r.
Proof.
  induction fuel as [|fuel IH]; intros i Hl Hi Hn Hf; [lia|]. cbn [backwards_loop].
  destruct (Z.leb_spec 0 i) as [H0|H0]; [|exists (-1); split; [done|by apply last_upto_negative]].
  assert (Hskip : ~ occurs p s i -> exists r, backwards_loop fuel p s (ch p 0) (i - 1) = Some r /\ last_upto p s i r).
  { intros Hno. destruct (IH (i - 1)) as (r & -> & Hr); [lia..|]. exists r. split; [done|]. by apply last_upto_skip. }
  rewrite at_ch by lia. cbn [mbind option_bind]. destruct (Z.eqb_spec (ch s i) (ch p 0)) as [E|Hne]; cbn [negb].
  - destruct (match_while_spec p s (S (length p)) i 1) as (j & -> & Hj & He & Hd); [lia..|unfold len; lia|].
    cbn [mbind option_bind]. destruct (Z.eqb_spec j (len p)) as [->|Hjne].
    + exists i. split; [done|]. right. split; [lia|]. split; [|lia]. split; [done|]. split; [done|]. intros k Hk.
      destruct (Z.eq_dec k 0) as [->|]; [by rewrite Z.add_0_r|]. apply He. lia.
    + apply Hskip, (occurs_not p s i j); [lia|]. apply Hd. lia.
  - apply Hskip, (occurs_not p s i 0); [lia|]. by rewrite Z.add_0_r.
Qed.

Lemma sint32_uint32 x : - 2 ^ 31 <= x < 2 ^ 31 -> sint 32 (uint 32 x) = x.
Proof.
  intros Hx. unfold sint, uint. rewrite Zplus_mod_idemp_l. by apply sint_id.
Qed.

Lemma uint_id x : 0 <= x < 2 ^ 32 -> uint 32 x = x.
Proof. apply Z.mod_small. Qed.

Lemma StringMatchBackwards_spec pw sw p s idx :
  Forall (char_ok pw) p -> Forall (char_ok sw) s -> 1 <= len p -> idx + len p <= len s ->
  exists r, StringMatchBackwards pw sw s p idx = Some r /\ last_upto p s idx r.
Proof.
  intros Hp Hs Hl Hi. unfold StringMatchBackwards. destruct (negb sw && pw && existsb _ p) eqn:E.
  - exists (-1). split; [done|]. left. split; [done|]. apply andb_true_iff in E as [E Ex].
    apply andb_true_iff in E as [Es Ep]. apply negb_true_iff in Es.
    apply existsb_exists in Ex as (c & Hc & Hlt). apply list_elem_of_In, list_elem_of_lookup_1 in Hc as (k & Hk).
    apply Z.ltb_lt in Hlt. unfold kMaxAsciiCharCodeU in Hlt. pose proof (lookup_lt_Some _ _ _ Hk).
    assert (Ec : ch p (Z.of_nat k) = c).
    { unfold ch, at_. destruct (Z.leb_spec 0 (Z.of_nat k)); [|lia]. by rewrite Nat2Z.id, Hk. }
    intros i Hi' (Hi0 & Hin & Ho). unfold len in *. specialize (Ho (Z.of_nat k) ltac:(lia)).
    pose proof (ch_Forall _ s (i + Z.of_nat k) Hs ltac:(unfold len; lia)) as Hck. rewrite Es in Hck. unfold char_ok in Hck. lia.
  - rewrite at_ch by lia. cbn [mbind option_bind]. destruct (Z.le_gt_cases (-1) idx).
    + apply backwards_loop_spec; [lia..|unfold len in *; lia].
    + exists (-1). split; [|apply last_upto_negative; lia]. cbn [backwards_loop]. destruct (Z.leb_spec 0 idx); [lia|done].
Qed.

(** LastIndexOf: the start index is brought down to the last place where the pattern fits; the answer is then
    the last occurrence at or before it, or -1; a pattern longer than the subject is not found although the
    subtraction of the unsigned lengths wraps around, and the empty pattern is found at the start index. *)
Theorem StringLastIndexOf_correct sub pat start_index :
  str_ok sub -> str_ok pat -> 0 <= start_index <= str_length sub ->
  exists r, StringLastIndexOf sub pat start_index = Some r
    /\ last_upto (chars pat) (chars sub) start_index r
    /\ (str_length pat = 0 -> r = start_index).
Proof.
  intros Hsub Hpat Hi. pose proof (str_length_range _ Hsub). pose proof (str_length_range _ Hpat).
  unfold StringLastIndexOf. rewrite (uint_id (start_index + _)) by lia.
  set (start := if _ <? _ then _ else _).
  assert (Hst : sint 32 start = Z.min start_index (str_length sub - str_length pat)).
  { subst start. destruct (Z.ltb_spec (str_length sub) (start_index + str_length pat)).
    - rewrite sint32_uint32 by lia. lia.
    - rewrite sint_id by lia. lia. }
  rewrite Hst. clearbody start. unfold str_length in *. destruct (Z.eqb_spec (len (chars pat)) 0) as [E|Hne].
  - exists start_index. rewrite Z.min_l by lia. split; [done|]. split; [|done]. right. split; [lia|].
    split; [|lia]. split; [lia|]. split; lia.
  - destruct (StringMatchBackwards_spec (two_byte pat) (two_byte sub) (chars pat) (chars sub)
      (Z.min start_index (len (chars sub) - len (chars pat)))) as (r & -> & Hr); [apply Hpat|apply Hsub|lia|lia|].
    exists r. split; [done|]. split; [|lia]. destruct Hr as [(-> & H1)|(Hr & Ho & H1)]; [left|right].
    + split; [done|]. intros i Hi' Ho. apply (H1 i); [|done]. destruct Ho as (_ & Ho & _). lia.
    + split; [lia|]. split; [done|]. intros i Hi' Ho'. apply (H1 i); [|done]. destruct Ho' as (_ & Ho' & _). lia.
Qed.

Lemma StringLastIndexOf_correct_witness :
  StringLastIndexOf (mkStr true [97; 98; 97; 98; 960]) (mkStr false [97; 98]) 5 = Some 2
  /\ last_upto [97; 98] [97; 98; 97; 98; 960] 5 2.
Proof.
  destruct (StringLastIndexOf_correct (mkStr true [97; 98; 97; 98; 960]) (mkStr false [97; 98]) 5) as (r & E & Hr & _).
  - apply str_ok_intro; [repeat constructor; cbn; lia|by vm_compute].
  - apply str_ok_intro; [repeat constructor; cbn; lia|by vm_compute].
  - by vm_compute.
  - split; [by vm_compute|]. cbn [chars] in Hr. remember (StringLastIndexOf _ _ _) as o eqn:Eo. vm_compute in Eo. subst o.
    injection E as <-. exact Hr.
Defined.

(** ** All matches *)

Section all_matches.
Context (pw sw : bool) (p s : list Z).
Hypothesis Hp : Forall (char_ok pw) p.
Hypothesis Hs : Forall (char_ok sw) s.
Hypothesis Hl : 1 <= len p.

(** There is always a list of matches. *)
Lemma first_exists i : 0 <= i <= len s -> exists r, first_from p s i r.
Proof.
  intros Hi. destruct (Search_spec pw sw p s Hp Hs (StringSearch_new pw sw p)
    (mkTables (replicate 256 0) (replicate 251 0) (replicate 251 0)) i) as (? & ? & r & _ & Hr & _); [|done|by exists r].
  by apply StringSearch_new_ok.
Qed.

Lemma matches_exist n : forall i, 0 <= i <= len s -> len s - i <= Z.of_nat n -> exists l, matches p s i l.
Proof.
  induction n as [|n IH]; intros i Hi Hn; (destruct (first_exists i Hi) as [r Hr]).
  all: destruct (Z.ltb_spec r 0); [exists []; apply matches_none; destruct Hr as [(-> & Hr)|(? & (? & _) & _)]; [by left|lia]|].
  - pose proof (first_from_le _ _ _ _ Hr ltac:(lia)). lia.
  - pose proof (first_from_le _ _ _ _ Hr ltac:(lia)). destruct (IH (r + len p)) as [l Hm]; [lia..|].
    exists (r :: l). by apply matches_some.
Qed.

Lemma take_limit_cons {A} (r : A) (limit : Z) l : 0 < limit -> take (Z.to_nat limit) (r :: l) = r :: take (Z.to_nat (limit - 1)) l.
Proof. intros H. replace (Z.to_nat limit) with (S (Z.to_nat (limit - 1))) by lia. done. Qed.

Lemma find_loop_spec fuel : forall search t index limit acc,
  search_ok pw sw p search t -> 0 <= index <= len s -> len s - index + 1 < Z.of_nat fuel ->
  exists t' l, find_loop pw sw fuel search t s (len p) index limit acc = Some (t', acc ++ take (Z.to_nat limit) l)
    /\ tables_sized t' /\ matches p s index l.
Proof.
  induction fuel as [|fuel IH]; intros search t index limit acc Hok Hi Hf; [lia|]. cbn [find_loop].
  destruct (Z.ltb_spec 0 limit) as [Hlim|Hlim].
  2: { destruct (matches_exist (Z.to_nat (len s - index)) index Hi) as [l Hm]; [lia|]. exists t, l.
       replace (Z.to_nat limit) with 0%nat by lia. rewrite take_0, app_nil_r. split; [done|]. split; [apply Hok|done]. }
  destruct (Search_spec pw sw p s Hp Hs search t index Hok Hi) as (search' & t' & r & -> & Hr & Hok').
  cbn [mbind option_bind]. destruct (Z.ltb_spec r 0) as [Hneg|Hpos].
  - exists t', []. rewrite take_nil, app_nil_r. split; [done|]. split; [apply Hok'|]. apply matches_none.
    destruct Hr as [(-> & Hr)|(? & (? & _) & _)]; [by left|lia].
  - pose proof (first_from_le _ _ _ _ Hr Hpos).
    destruct (IH search' t' (r + len p) (limit - 1) (acc ++ [r])) as (t2 & l & -> & Ht2 & Hm); [done|lia|lia|].
    exists t2, (r :: l). rewrite <- app_assoc. cbn [app]. rewrite take_limit_cons by done. split; [done|]. split; [done|].
    by apply matches_some.
Qed.

Lemma FindStringIndices_spec t limit :
  tables_sized t -> exists t' l, FindStringIndices pw sw t s p limit = Some (t', take (Z.to_nat limit) l)
    /\ tables_sized t' /\ matches p s 0 l.
Proof.
  intros Ht. unfold FindStringIndices. apply (find_loop_spec _ _ _ _ _ []); [by apply StringSearch_new_ok|unfold len; lia..].
Qed.

Lemma FindAsciiStringIndices_spec fuel : forall pos limit acc,
  pw = false -> sw = false -> len p = 1 -> 0 <= pos <= len s -> len s - pos + 1 < Z.of_nat fuel ->
  exists l, FindAsciiStringIndices fuel s (ch p 0) pos limit acc = Some (acc ++ take (Z.to_nat limit) l) /\ matches p s pos l.
Proof.
  induction fuel as [|fuel IH]; intros pos limit acc Hpw Hsw H1 Hi Hf; [lia|]. cbn [FindAsciiStringIndices].
  destruct (Z.ltb_spec 0 limit) as [Hlim|Hlim].
  2: { destruct (matches_exist (Z.to_nat (len s - pos)) pos Hi) as [l Hm]; [lia|]. exists l.
       replace (Z.to_nat limit) with 0%nat by lia. by rewrite take_0, app_nil_r. }
  destruct (memchr_spec sw s Hs (ch p 0) (Z.to_nat (len s - pos)) pos Hsw) as (r & -> & Hr); [|lia|lia|].
  { pose proof (ch_Forall _ p 0 Hp ltac:(lia)) as Hc. unfold char_ok in Hc. by rewrite Hpw in Hc. }
  cbn [mbind option_bind]. destruct r as [r|].
  - destruct Hr as (Hr & E & Hn). destruct (IH (r + 1) (limit - 1) (acc ++ [r]) Hpw Hsw H1) as (l & -> & Hm); [lia|lia|].
    exists (r :: l). rewrite <- app_assoc. cbn [app]. rewrite take_limit_cons by done. split; [done|].
    apply matches_some; [|lia|by rewrite H1]. right. split; [lia|]. split; [|by apply none_before_first; [lia|]].
    split; [lia|]. split; [lia|]. intros k Hk. replace k with 0 by lia. by rewrite Z.add_0_r.
  - exists []. rewrite take_nil, app_nil_r. split; [done|]. apply matches_none, (first_from_none _ _ _ (len s)); [|lia].
    apply none_before_first; [lia|]. intros k Hk. apply Hr. lia.
Qed.

End all_matches.

Lemma FindStringIndicesDispatch_spec t subject pattern limit :
  str_ok subject -> str_ok pattern -> 1 <= str_length pattern -> tables_sized t ->
  exists t' l, FindStringIndicesDispatch t subject pattern limit = Some (t', take (Z.to_nat limit) l)
    /\ tables_sized t' /\ matches (chars pattern) (chars subject) 0 l.
Proof.
  intros (Hs & _ & _) (Hp & _ & _) Hl Ht. unfold FindStringIndicesDispatch, str_length in *.
  destruct (negb _ && negb _ && _) eqn:E; [|by apply FindStringIndices_spec].
  apply andb_true_iff in E as [E E1]. apply andb_true_iff in E as [Es Ep]. apply negb_true_iff in Es, Ep. apply Z.eqb_eq in E1.
  rewrite at_ch by lia. cbn [mbind option_bind].
  destruct (FindAsciiStringIndices_spec _ _ _ _ Hp Hs Hl (S (S (length (chars subject)))) 0 limit [] Ep Es E1)
    as (l & -> & Hm); [unfold len; lia|unfold len; lia|].
  cbn [mbind option_bind]. by exists t, l.
Qed.

(** The runtime's list of matches, as split and replace use it, is the greedy one: each match is the first one
    from the end of the match before; a limit keeps that many of the first ones.  The separate loop for a one-byte
    pattern of one character agrees with the general search. *)
Theorem FindStringIndices_correct t subject pattern limit :
  str_ok subject -> str_ok pattern -> 1 <= str_length pattern -> tables_sized t -> 0 < limit < 2 ^ 32 ->
  exists t' l, FindStringIndicesDispatch t subject pattern limit = Some (t', take (Z.to_nat limit) l)
    /\ tables_sized t' /\ matches (chars pattern) (chars subject) 0 l.
Proof. intros Hs Hp Hl Ht _. by apply FindStringIndicesDispatch_spec. Qed.

Lemma FindStringIndices_correct_witness : exists t' l,
  FindStringIndicesDispatch (mkTables (replicate 256 0) (replicate 251 0) (replicate 251 0))
    (mkStr false [97; 97; 97; 97; 97]) (mkStr false [97; 97]) 7 = Some (t', take 7 l)
  /\ matches [97; 97] [97; 97; 97; 97; 97] 0 l /\ take 7 l = [0; 2].
Proof.
  destruct (FindStringIndices_correct (mkTables (replicate 256 0) (replicate 251 0) (replicate 251 0))
    (mkStr false [97; 97; 97; 97; 97]) (mkStr false [97; 97]) 7) as (t' & l & E & _ & Hm).
  - apply str_ok_intro; [repeat constructor; cbn; lia|by vm_compute].
  - apply str_ok_intro; [repeat constructor; cbn; lia|by vm_compute].
  - by vm_compute.
  - done.
  - lia.
  - exists t', l. split; [exact E|]. split; [exact Hm|]. change (Z.to_nat 7) with 7%nat in E.
    remember (FindStringIndicesDispatch _ _ _ _) as o eqn:Eo. vm_compute in Eo. subst o. injection E as <- E. by rewrite <- E.
Defined.

(** ** Split *)

Lemma AllocateSubString_ok s a b : str_ok s -> str_ok (AllocateSubString s a b).
Proof.
  intros (H & Hl & _). unfold AllocateSubString. apply str_ok_intro.
  - assert (Hw : Forall (char_ok (two_byte s)) (slice (chars s) a b)) by (by apply Forall_take, Forall_drop).
    destruct (b - a <=? 2); [|done]. apply Forall_forall. intros c Hc. rewrite Forall_forall in Hw. specialize (Hw c Hc).
    destruct (existsb _ _) eqn:E; [unfold char_ok in *; destruct (two_byte s); lia|].
    destruct (Z.lt_ge_cases 127 c); [|unfold char_ok in *; destruct (two_byte s); lia]. exfalso.
    apply not_true_iff_false in E. apply E, existsb_exists. exists c. split; [by apply list_elem_of_In|by apply Z.ltb_lt].
  - unfold str_length, slice, len in *. rewrite length_take, length_drop. lia.
Qed.

Lemma len_slice s a b : 0 <= a <= b -> b <= len s -> len (slice s a b) = b - a.
Proof. unfold slice, len. intros H1 H2. rewrite length_take, length_drop. lia. Qed.

Lemma ch_slice s a b k : 0 <= a <= b -> b <= len s -> 0 <= k < b - a -> ch (slice s a b) k = ch s (a + k).
Proof.
  unfold ch, at_, slice. intros H1 H2 Hk. destruct (Z.leb_spec 0 k), (Z.leb_spec 0 (a + k)); try lia.
  rewrite lookup_take_lt by lia. rewrite lookup_drop. do 2 f_equal. lia.
Qed.

Lemma slice_drop s a b : 0 <= a <= b -> slice s a b ++ drop (Z.to_nat b) s = drop (Z.to_nat a) s.
Proof.
  intros H. unfold slice. replace (Z.to_nat b) with (Z.to_nat a + Z.to_nat (b - a))%nat by lia.
  rewrite <- drop_drop. apply take_drop.
Qed.

Lemma slice_all s : slice s 0 (len s) = s.
Proof. unfold slice, len. rewrite Z.sub_0_r, Nat2Z.id. cbn. by rewrite take_ge. Qed.

(** Lists of characters with the same characters. *)
Lemma ch_ext l1 l2 : len l1 = len l2 -> (forall k, 0 <= k < len l1 -> ch l1 k = ch l2 k) -> l1 = l2.
Proof.
  unfold len. intros Hl H. apply (list_eq_same_length _ _ (length l1)); [lia|done|]. intros i x y Hi Hx Hy.
  specialize (H (Z.of_nat i) ltac:(lia)). unfold ch, at_ in H. destruct (Z.leb_spec 0 (Z.of_nat i)); [|lia].
  by rewrite Nat2Z.id, Hx, Hy in H.
Qed.

Lemma occurs_slice p s i : occurs p s i -> slice s i (i + len p) = p.
Proof.
  intros (Hi & Hn & H). pose proof (len_nonneg p). apply ch_ext; rewrite len_slice by lia; [lia|]. intros k Hk.
  rewrite ch_slice by lia. apply H. lia.
Qed.

Lemma slice_no_occurrence p s a b :
  0 <= a <= b -> b <= len s -> (forall i, a <= i -> i + len p <= b -> ~ occurs p s i) -> forall k, ~ occurs p (slice s a b) k.
Proof.
  intros H1 H2 H k (Hk & Hn & Ho). rewrite len_slice in Hn by lia. apply (H (a + k)); [lia..|].
  split; [lia|]. split; [lia|]. intros k' Hk'. rewrite <- Ho by lia. rewrite ch_slice by lia. f_equal. lia.
Qed.

(** The parts with the separator between them. *)
Fixpoint join (sep : list Z) (parts : list (list Z)) : list Z :=
  match parts with
  | [] => []
  | [part] => part
  | part :: parts => part ++ sep ++ join sep parts
  end.

Lemma join_cons sep part parts : parts <> [] -> join sep (part :: parts) = part ++ sep ++ join sep parts.
Proof. by destruct parts. Qed.

Lemma split_parts_join p subject i l :
  matches p (chars subject) i l -> 1 <= len p -> 0 <= i <= str_length subject ->
  let parts := split_parts subject (len p) i (l ++ [str_length subject]) in
  join p (map chars parts) = drop (Z.to_nat i) (chars subject)
  /\ Forall (fun part => forall k, ~ occurs p (chars part) k) parts /\ parts <> [].
Proof.
  unfold str_length. intros Hm Hl. induction Hm as [i Hf|i r l Hf Hr Hm IH]; intros Hi; cbn [app split_parts].
  - split; [|split; [|done]]; cbn [map join chars NewProperSubString].
    + rewrite <- (slice_drop (chars subject) i (len (chars subject))) by lia.
      rewrite (drop_ge (chars subject)) by (unfold len; lia). by rewrite app_nil_r.
    + apply Forall_singleton, slice_no_occurrence; [lia..|]. intros k Hk _.
      destruct Hf as [(_ & Hf)|(? & (? & _) & _)]; [by apply Hf|lia].
  - pose proof (first_from_le _ _ _ _ Hf Hr). destruct IH as (Ej & Hn & Hne); [lia|].
    destruct Hf as [(-> & _)|(_ & Ho & Hf)]; [lia|]. split; [|split; [|done]].
    + cbn [map]. rewrite join_cons by (intros E; by apply map_eq_nil in E). rewrite Ej. cbn [chars NewProperSubString].
      rewrite <- (slice_drop (chars subject) i r), <- (slice_drop (chars subject) r (r + len p)) by lia.
      by rewrite (occurs_slice _ _ _ Ho).
    + apply Forall_cons. split; [|done]. apply slice_no_occurrence; [lia..|]. intros k Hk Hkr. apply Hf. lia.
Qed.

Lemma split_parts_take subject n l : forall plen i,
  split_parts subject plen i (take n l) = take n (split_parts subject plen i l).
Proof. revert n. induction l as [|e l IH]; intros [|n] plen i; cbn; try done. f_equal. apply IH. Qed.

Lemma matches_length p s i l : matches p s i l -> 1 <= len p -> i <= len s -> Z.of_nat (length l) <= len s - i.
Proof.
  intros Hm Hl. induction Hm as [i Hf|i r l Hf Hr Hm IH]; intros Hi; cbn [length]; [lia|].
  pose proof (first_from_le _ _ _ _ Hf Hr). specialize (IH ltac:(lia)). lia.
Qed.

Lemma take_snoc_limit (l : list Z) e limit :
  0 < limit ->
  (if len (take (Z.to_nat limit) l) <? limit then take (Z.to_nat limit) l ++ [e] else take (Z.to_nat limit) l)
  = take (Z.to_nat limit) (l ++ [e]).
Proof.
  intros H. unfold len. rewrite length_take. destruct (Z.ltb_spec (Z.of_nat (Z.to_nat limit `min` length l)) limit).
  - rewrite !take_ge; [done|rewrite length_app; cbn; lia|lia].
  - by rewrite take_app_le by lia.
Qed.

(** The case of a subject without a match copies nothing. *)
Lemma split_single subject plen limit l :
  0 < limit -> Forall (fun r => r < str_length subject) l ->
  exists parts, take (Z.to_nat limit) parts = (match take (Z.to_nat limit) (l ++ [str_length subject]) with
    | [index] => if index =? str_length subject then [subject]
                 else split_parts subject plen 0 (take (Z.to_nat limit) (l ++ [str_length subject]))
    | _ => split_parts subject plen 0 (take (Z.to_nat limit) (l ++ [str_length subject]))
    end) /\ map chars parts = map chars (split_parts subject plen 0 (l ++ [str_length subject])).
Proof.
  intros Hlim Hl. destruct l as [|r l].
  - exists [subject]. rewrite take_limit_cons by lia. cbn [app]. rewrite take_limit_cons by lia. rewrite !take_nil.
    rewrite Z.eqb_refl. split; [done|]. cbn. unfold str_length. by rewrite slice_all.
  - exists (split_parts subject plen 0 ((r :: l) ++ [str_length subject])). split; [|done]. rewrite <- split_parts_take.
    apply Forall_cons in Hl as [Hr _]. cbn [app]. rewrite take_limit_cons by lia.
    destruct (take _ (l ++ _)); [|done]. by destruct (Z.eqb_spec r (str_length subject)); [lia|].
Qed.

Lemma matches_before p s i l : matches p s i l -> 1 <= len p -> Forall (fun r => r < len s) l.
Proof.
  intros Hm Hl. induction Hm as [i Hf|i r l Hf Hr Hm IH]; constructor; [|done].
  pose proof (first_from_le _ _ _ _ Hf Hr). lia.
Qed.

(** C18: split: the answer is the first [limit] of the parts that, joined with the separator, give the subject back,
    and in none of which the separator occurs. *)
Theorem StringSplit_join t subject pattern limit :
  str_ok subject -> str_ok pattern -> 1 <= str_length pattern -> tables_sized t -> 0 < limit < 2 ^ 32 ->
  exists t' parts, StringSplit t subject pattern limit = Some (t', take (Z.to_nat limit) parts) /\ tables_sized t'
    /\ join (chars pattern) (map chars parts) = chars subject
    /\ Forall (fun part => forall k, ~ occurs (chars pattern) (chars part) k) parts.
Proof.
  intros Hs Hp Hl Ht Hlim. pose proof (str_length_range _ Hs). unfold StringSplit.
  destruct (FindStringIndicesDispatch_spec t subject pattern limit Hs Hp Hl Ht) as (t' & l & -> & Ht' & Hm).
  cbn [mbind option_bind]. unfold str_length in *.
  pose proof (matches_length _ _ _ _ Hm Hl ltac:(lia)).
  destruct (split_parts_join _ _ _ _ Hm Hl) as (Hj & Hn & _); [unfold str_length; lia|].
  destruct (split_single subject (len (chars pattern)) limit l) as (parts & E & Ec); [lia|by apply (matches_before (chars pattern) _ 0)|].
  exists t', parts. rewrite Ec. split; [|split; [done|split; [done|]]].
  - rewrite uint_id by (unfold len in *; rewrite length_take; lia). rewrite take_snoc_limit by lia. by rewrite E.
  - apply Forall_forall. intros part Hin. apply (list_elem_of_fmap_2 chars) in Hin. change (chars part ∈ map chars parts) in Hin. rewrite Ec in Hin.
    apply (list_elem_of_fmap chars) in Hin as (part' & -> & Hin').
    rewrite Forall_forall in Hn. by apply Hn.
Qed.

Lemma StringSplit_join_witness : exists t' parts,
  StringSplit (mkTables (replicate 256 0) (replicate 251 0) (replicate 251 0))
    (mkStr true [44; 97; 44; 44; 960]) (mkStr false [44]) 3 = Some (t', take 3 parts)
  /\ join [44] (map chars parts) = [44; 97; 44; 44; 960]
  /\ take 3 parts = [mkStr false []; mkStr false [97]; mkStr false []].
Proof.
  destruct (StringSplit_join (mkTables (replicate 256 0) (replicate 251 0) (replicate 251 0))
    (mkStr true [44; 97; 44; 44; 960]) (mkStr false [44]) 3) as (t' & parts & E & _ & Hj & _).
  - apply str_ok_intro; [repeat constructor; cbn; lia|by vm_compute].
  - apply str_ok_intro; [repeat constructor; cbn; lia|by vm_compute].
  - by vm_compute.
  - done.
  - lia.
  - exists t', parts. split; [exact E|]. split; [exact Hj|]. change (Z.to_nat 3) with 3%nat in E.
    remember (StringSplit _ _ _ _) as o eqn:Eo. vm_compute in Eo. subst o. injection E as <- E. by rewrite <- E.
Defined.
