(* ===== verification/StringBuilder.v ===== *)
(** * StringBuilder: building strings from slices and pieces

    Models the builders of src/runtime.cc: [FixedArrayBuilder], [ReplacementStringBuilder],
    the encoding of a slice of the subject as one or two small integers, and
    [Runtime_StringBuilderConcat], which puts together an array that JavaScript code may
    have changed.  An allocation within the limits of the string classes is taken to
    succeed; the memory of a fresh string has arbitrary contents ([raw]).  Failed
    assertions and accesses out of bounds are the error [Fault]. *)

From S2P Require Import Prelude StringSearch StringSearchTables StringSearchCorrect StringMatching.

Open Scope Z_scope.

(** ** Results *)

Inductive Failure := Fault | FatalOutOfMemory | OutOfMemoryException | IllegalArgument | Exception.

Inductive Res (A : Type) :=
  | Ok (a : A)
  | Err (e : Failure).
Arguments Ok {A} a.
Arguments Err {A} e.

#[export] Instance Res_ret : MRet Res := fun A a => Ok a.
#[export] Instance Res_bind : MBind Res := fun A B f m => match m with Ok a => f a | Err e => Err e end.

Definition of_option {A} (o : option A) : Res A := match o with Some a => Ok a | None => Err Fault end.

Definition check (b : bool) : Res () := if b then Ok () else Err Fault.

(** ** Bit fields *)

Section bit_field.
Context (shift size : Z).

Definition kMask : Z := uint 32 (Z.shiftl (Z.shiftl 1 shift) size - Z.shiftl 1 shift).
Definition kMax : Z := Z.shiftl 1 size - 1.
Definition is_valid (value : Z) : bool := Z.land (uint 32 value) (uint 32 (Z.lnot kMax)) =? 0.
Definition encode (value : Z) : Z := uint 32 (Z.shiftl (uint 32 value) shift).
Definition decode (value : Z) : Z := sint 32 (Z.shiftr (Z.land (uint 32 value) kMask) shift).
End bit_field.

Definition kStringBuilderConcatHelperLengthBits := 11.
Definition kStringBuilderConcatHelperPositionBits := 19.

Definition length_is_valid := is_valid kStringBuilderConcatHelperLengthBits.
Definition length_encode := encode 0.
Definition length_decode := decode 0 kStringBuilderConcatHelperLengthBits.
Definition position_is_valid := is_valid kStringBuilderConcatHelperPositionBits.
Definition position_encode := encode kStringBuilderConcatHelperLengthBits.
Definition position_decode := decode kStringBuilderConcatHelperLengthBits kStringBuilderConcatHelperPositionBits.

(** ** Arrays of parts *)

(** The objects of the array; anything but a small integer and a string is [OtherElement]. *)
Inductive Element :=
  | SmiElement (value : Z)
  | StringElement (string : Str)
  | OtherElement.

(** [elements] are the [length_] first elements; the rest of the array has holes. *)
Record FixedArrayBuilder := mkBuilder { capacity : Z; elements : list Element; has_non_smi_elements_ : bool }.

Definition FixedArrayBuilder_new (initial_capacity : Z) : FixedArrayBuilder := mkBuilder initial_capacity [] false.

Definition builder_length (b : FixedArrayBuilder) : Z := Z.of_nat (length (elements b)).

Definition HasCapacity (b : FixedArrayBuilder) (n : Z) : bool := builder_length b + n <=? capacity b.

(** [do new_length *= 2; while (new_length < required_length)]. *)
Fixpoint grow (fuel : nat) (new_length required_length : Z) : Res Z :=
  match fuel with
  | O => Err Fault
  | S fuel =>
      let new_length := new_length * 2 in
      if new_length <? required_length then grow fuel new_length required_length else Ok new_length
  end.

Definition EnsureCapacity (b : FixedArrayBuilder) (n : Z) : Res FixedArrayBuilder :=
  let required_length := builder_length b + n in
  if capacity b <? required_length then
    new_length ← grow (Z.to_nat required_length) (capacity b) required_length;
    Ok (mkBuilder new_length (elements b) (has_non_smi_elements_ b))
  else Ok b.

Definition Add (b : FixedArrayBuilder) (value : Element) : Res FixedArrayBuilder :=
  _ ← check (builder_length b <? capacity b);
  Ok (mkBuilder (capacity b) (elements b ++ [value])
        (match value with SmiElement _ => has_non_smi_elements_ b | _ => true end)).

(** [ReplacementStringBuilder::AddSubjectSlice] on an array builder. *)
Definition AddSlice (b : FixedArrayBuilder) (from to : Z) : Res FixedArrayBuilder :=
  _ ← check (0 <=? from);
  let length := to - from in
  _ ← check (0 <? length);
  if length_is_valid length && position_is_valid from then
    Add b (SmiElement (Z.lor (length_encode length) (position_encode from)))
  else
    b ← Add b (SmiElement (- length));
    Add b (SmiElement from).

(** ** Characters into a string *)

(** [String::WriteToFlat(source, sink + position, from, to)], into characters of one or two bytes. *)
Definition WriteToFlat (w : bool) (source sink : list Z) (position from to : Z) : Res (list Z) :=
  _ ← check ((0 <=? from) && (from <=? to) && (to <=? len source) && (0 <=? position) && (position + (to - from) <=? len sink));
  Ok (take (Z.to_nat position) sink ++ map (to_subject_char w) (slice source from to)
        ++ drop (Z.to_nat (position + (to - from))) sink).

(** [position] cannot wrap around: a slice of negative length or outside of [special] fails the assertion of [WriteToFlat]. *)
Fixpoint StringBuilderConcatHelper (w : bool) (special : list Z) (sink : list Z) (position : Z) (array : list Element)
    : Res (list Z) :=
  match array with
  | [] => Ok sink
  | SmiElement encoded_slice :: array =>
      if 0 <? encoded_slice then
        let pos := position_decode encoded_slice in
        let len := length_decode encoded_slice in
        sink ← WriteToFlat w special sink position pos (pos + len);
        StringBuilderConcatHelper w special sink (position + len) array
      else
        match array with
        | SmiElement pos :: array =>
            let len := sint 32 (- encoded_slice) in
            sink ← WriteToFlat w special sink position pos (pos + len);
            StringBuilderConcatHelper w special sink (position + len) array
        | _ => Err Fault
        end
  | StringElement string :: array =>
      let element_length := str_length string in
      sink ← WriteToFlat w (chars string) sink position 0 element_length;
      StringBuilderConcatHelper w special sink (position + element_length) array
  | OtherElement :: _ => Err Fault
  end.

(** ** Fresh strings *)

Definition kMaxSize : Z := 512 * 2 ^ 20 - 1.

Section memory.
(** The size of the header of a string, and the contents of fresh memory. *)
Context (kHeaderSize : Z) (raw : Z -> list Z).

(** The greatest length of a sequential string of one- or two-byte characters. *)
Definition kMaxSeqLength (w : bool) : Z := if w then (kMaxSize - kHeaderSize) / 2 else kMaxSize - kHeaderSize.

(** [Heap::AllocateRawAsciiString] and [AllocateRawTwoByteString]. *)
Definition AllocateRawString (w : bool) (length : Z) : Res (list Z) :=
  if (length <? 0) || (kMaxSeqLength w <? length) then Err OutOfMemoryException else Ok (raw length).

(** [Factory::NewRawAsciiString] and [NewRawTwoByteString]: an out of memory failure is fatal. *)
Definition NewRawString (w : bool) (length : Z) : Res (list Z) :=
  match AllocateRawString w length with Err OutOfMemoryException => Err FatalOutOfMemory | r => r end.

(** ** The builder of replacements *)

Record ReplacementStringBuilder := mkReplacementStringBuilder {
  array_builder_ : FixedArrayBuilder;
  subject_ : Str;
  character_count_ : Z;
  is_ascii_ : bool
}.

Definition ReplacementStringBuilder_new (subject : Str) (estimated_part_count : Z) : ReplacementStringBuilder :=
  mkReplacementStringBuilder (FixedArrayBuilder_new estimated_part_count) subject 0 (IsAsciiRepresentation subject).

Definition with_array (b : ReplacementStringBuilder) (a : FixedArrayBuilder) : ReplacementStringBuilder :=
  mkReplacementStringBuilder a (subject_ b) (character_count_ b) (is_ascii_ b).

Definition IncrementCharacterCount (b : ReplacementStringBuilder) (by_ : Z) : Res ReplacementStringBuilder :=
  if kMaxLength - by_ <? character_count_ b then Err FatalOutOfMemory
  else Ok (mkReplacementStringBuilder (array_builder_ b) (subject_ b) (character_count_ b + by_) (is_ascii_ b)).

Definition AddSubjectSlice (b : ReplacementStringBuilder) (from to : Z) : Res ReplacementStringBuilder :=
  a ← AddSlice (array_builder_ b) from to;
  IncrementCharacterCount (with_array b a) (to - from).

Definition AddString (b : ReplacementStringBuilder) (string : Str) : Res ReplacementStringBuilder :=
  let length := str_length string in
  _ ← check (0 <? length);
  a ← Add (array_builder_ b) (StringElement string);
  IncrementCharacterCount
    (mkReplacementStringBuilder a (subject_ b) (character_count_ b) (is_ascii_ b && IsAsciiRepresentation string)) length.

Definition BuilderEnsureCapacity (b : ReplacementStringBuilder) (n : Z) : Res ReplacementStringBuilder :=
  a ← EnsureCapacity (array_builder_ b) n;
  Ok (with_array b a).

Definition ToString (b : ReplacementStringBuilder) : Res Str :=
  if builder_length (array_builder_ b) =? 0 then Ok (mkStr false [])
  else
    let w := negb (is_ascii_ b) in
    char_buffer ← NewRawString w (character_count_ b);
    char_buffer ← StringBuilderConcatHelper w (chars (subject_ b)) char_buffer 0 (elements (array_builder_ b));
    Ok (mkStr w char_buffer).

(** ** Concatenation for JavaScript *)

(** The loop that checks the array and adds up the length.  The counts are ints, with the wrap-around of the
    compiled code.  The two assertions on [pos] and [len] are not part of it: a release build has none. *)
Fixpoint concat_check (special_length : Z) (array : list Element) (ascii : bool) (position : Z) : Res (bool * Z) :=
  match array with
  | [] => Ok (ascii, position)
  | SmiElement smi_value :: array =>
      let advance pos len array :=
        if (special_length <? pos) || (special_length - pos <? len) then Err IllegalArgument
        else if sint 32 (kMaxLength - position) <? len then Err OutOfMemoryException
        else concat_check special_length array ascii (sint 32 (position + len)) in
      if 0 <? smi_value then advance (position_decode smi_value) (length_decode smi_value) array
      else
        match array with
        | SmiElement pos :: array => if pos <? 0 then Err IllegalArgument else advance pos (sint 32 (- smi_value)) array
        | _ => Err IllegalArgument
        end
  | StringElement element :: array =>
      let increment := str_length element in
      if sint 32 (kMaxLength - position) <? increment then Err OutOfMemoryException
      else concat_check special_length array (ascii && HasOnlyAsciiChars element) (sint 32 (position + increment))
  | OtherElement :: _ => Err IllegalArgument
  end.

(** [fixed_array] is the store of the fast elements of the array, if it has them; [array_length] the second
    argument, if it is a small integer. *)
Definition StringBuilderConcat (fixed_array : option (list Element)) (array_length : option Z) (special : Str) : Res Str :=
  match array_length, fixed_array with
  | None, _ => Err OutOfMemoryException
  | Some _, None => Err IllegalArgument
  | Some array_length, Some fixed_array =>
      let array_length := if Z.of_nat (length fixed_array) <? array_length then Z.of_nat (length fixed_array) else array_length in
      let array := take (Z.to_nat array_length) fixed_array in
      if array_length =? 0 then Ok (mkStr false [])
      else
        match (if array_length =? 1 then head fixed_array else None) with
        | Some (StringElement first) => Ok first
        | _ =>
            '(ascii, length) ← concat_check (str_length special) array (HasOnlyAsciiChars special) 0;
            answer ← AllocateRawString (negb ascii) length;
            answer ← StringBuilderConcatHelper (negb ascii) (chars special) answer 0 array;
            Ok (mkStr (negb ascii) answer)
        end
  end.
End memory.

(** ** Slices as small integers *)

Lemma uint32_id v : 0 <= v < 2 ^ 32 -> uint 32 v = v.
Proof. apply Z.mod_small. Qed.

Lemma sint_mod x n : 0 <= n < 31 -> sint 32 (x mod 2 ^ n) = x mod 2 ^ n.
Proof.
  intros Hn. assert (2 ^ n <= 2 ^ 31) by (apply Z.pow_le_mono_r; lia).
  pose proof (Z.mod_pos_bound x (2 ^ n) ltac:(apply Z.pow_pos_nonneg; lia)). apply sint_id; [done|].
  change (2 ^ (32 - 1)) with (2 ^ 31). lia.
Qed.

Lemma position_decode_value v : 0 <= v < 2 ^ 31 -> position_decode v = (v / 2 ^ 11) mod 2 ^ 19.
Proof.
  intros Hv. unfold position_decode, decode. rewrite uint32_id by lia. rewrite Z.shiftr_land.
  change (Z.shiftr (kMask _ _) _) with (Z.ones 19). rewrite Z.land_ones by lia. rewrite Z.shiftr_div_pow2 by done.
  by apply sint_mod.
Qed.

Lemma length_decode_value v : 0 <= v < 2 ^ 31 -> length_decode v = v mod 2 ^ 11.
Proof.
  intros Hv. unfold length_decode, decode. rewrite uint32_id by lia. rewrite Z.shiftr_0_r.
  change (kMask 0 kStringBuilderConcatHelperLengthBits) with (Z.ones 11). rewrite Z.land_ones by lia.
  by apply sint_mod.
Qed.

(** A value that fits into a field of [size] bits. *)
Lemma is_valid_fits size value :
  0 <= size < 32 -> 0 <= value < 2 ^ 31 -> is_valid size value = true -> value < 2 ^ size.
Proof.
  intros Hs Hv H. unfold is_valid in H. rewrite uint32_id in H by lia. apply Z.eqb_eq in H.
  destruct (Z.lt_ge_cases value (2 ^ size)) as [|Hge]; [done|exfalso].
  set (n := Z.log2 value). assert (Hn : size <= n < 32).
  { split; [apply Z.log2_le_pow2; lia|]. apply Z.log2_lt_pow2; lia. }
  assert (Hb : Z.testbit (Z.land value (uint 32 (Z.lnot (kMax size)))) n = true); [|by rewrite H, Z.bits_0 in Hb].
  rewrite Z.land_spec. unfold n at 1. rewrite Z.bit_log2 by lia. unfold uint. rewrite Z.mod_pow2_bits_low by lia.
  rewrite Z.lnot_spec by lia. unfold kMax. rewrite Z.shiftl_1_l. replace (2 ^ size - 1) with (Z.ones size) by (rewrite Z.ones_equiv; lia). by rewrite Z.ones_spec_high by lia.
Qed.

Lemma encode_slice_value length from :
  0 <= length < 2 ^ 11 -> 0 <= from < 2 ^ 19 ->
  Z.lor (length_encode length) (position_encode from) = from * 2 ^ 11 + length.
Proof.
  intros Hl Hf. unfold length_encode, position_encode, encode. rewrite Z.shiftl_0_r, Z.lor_comm.
  rewrite (uint32_id length), (uint32_id from), (uint32_id length) by lia.
  rewrite uint32_id by (rewrite Z.shiftl_mul_pow2 by done; unfold kStringBuilderConcatHelperLengthBits; lia).
  by apply lor_shiftl.
Qed.

(** ** What an array of parts stands for *)

Definition in_slice (special : list Z) (pos len_ : Z) : option (list Z) :=
  if (0 <=? pos) && (0 <=? len_) && (pos + len_ <=? len special) then Some (slice special pos (pos + len_)) else None.

Fixpoint expand (special : list Z) (array : list Element) : option (list Z) :=
  match array with
  | [] => Some []
  | SmiElement v :: array =>
      if 0 <? v then
        x ← in_slice special (position_decode v) (length_decode v);
        y ← expand special array;
        Some (x ++ y)
      else
        match array with
        | SmiElement pos :: array =>
            x ← in_slice special pos (- v);
            y ← expand special array;
            Some (x ++ y)
        | _ => None
        end
  | StringElement s :: array => y ← expand special array; Some (chars s ++ y)
  | OtherElement :: _ => None
  end.

(** Induction over the parts: a slice may take two elements. *)
Lemma parts_ind (P : list Element -> Prop) :
  P [] ->
  (forall v array, 0 < v -> P array -> P (SmiElement v :: array)) ->
  (forall v pos array, v <= 0 -> P array -> P (SmiElement v :: SmiElement pos :: array)) ->
  (forall v array, v <= 0 -> (forall pos rest, array <> SmiElement pos :: rest) -> P (SmiElement v :: array)) ->
  (forall s array, P array -> P (StringElement s :: array)) ->
  (forall array, P (OtherElement :: array)) ->
  forall array, P array.
Proof.
  intros H0 H1 H2 H3 H4 H5 array. remember (length array) as n eqn:En. assert (Hn : (length array <= n)%nat) by lia. clear En.
  revert array Hn. induction n as [|n IH]; intros array Hn; [by destruct array; [|cbn in Hn; lia]|].
  destruct array as [|[v|s|] array]; [done| |apply H4, IH; cbn in Hn; lia|done].
  destruct (Z.lt_ge_cases 0 v); [apply H1, IH; [done|cbn in Hn; lia]|].
  destruct array as [|[pos|s|] array]; [by apply H3|apply H2, IH; [done|cbn in Hn; lia]|by apply H3..].
Qed.

Lemma expand_pos special v array :
  0 < v -> expand special (SmiElement v :: array)
    = (x ← in_slice special (position_decode v) (length_decode v); y ← expand special array; Some (x ++ y)).
Proof. intros H. cbn [expand]. by destruct (Z.ltb_spec 0 v); [|lia]. Qed.

Lemma expand_neg special v pos array :
  v <= 0 -> expand special (SmiElement v :: SmiElement pos :: array)
    = (x ← in_slice special pos (- v); y ← expand special array; Some (x ++ y)).
Proof. intros H. cbn [expand]. by destruct (Z.ltb_spec 0 v); [lia|]. Qed.

Lemma expand_bad special v array :
  v <= 0 -> (forall pos rest, array <> SmiElement pos :: rest) -> expand special (SmiElement v :: array) = None.
Proof.
  intros H Hr. cbn [expand]. destruct (Z.ltb_spec 0 v); [lia|]. destruct array as [|[pos|s|] array]; try done.
  by destruct (Hr pos array).
Qed.

Lemma expand_app special a b x :
  expand special a = Some x -> expand special (a ++ b) = (y ← expand special b; Some (x ++ y)).
Proof.
  revert x. induction a as [|v a Hv IH|v pos a Hv IH|v a Hv Hbad|s a IH|a] using parts_ind; intros x.
  - intros [= <-]. cbn. by destruct (expand special b).
  - cbn [app]. rewrite !expand_pos by done. destruct (in_slice _ _ _) as [y|]; cbn [mbind option_bind]; [|done].
    destruct (expand special a) as [z|] eqn:E; cbn [mbind option_bind]; [|done]. intros [= <-]. rewrite (IH z eq_refl).
    destruct (expand special b); cbn [mbind option_bind]; [|done]. by rewrite <- app_assoc.
  - cbn [app]. rewrite !expand_neg by done. destruct (in_slice _ _ _) as [y|]; cbn [mbind option_bind]; [|done].
    destruct (expand special a) as [z|] eqn:E; cbn [mbind option_bind]; [|done]. intros [= <-]. rewrite (IH z eq_refl).
    destruct (expand special b); cbn [mbind option_bind]; [|done]. by rewrite <- app_assoc.
  - by rewrite expand_bad.
  - cbn [app expand]. destruct (expand special a) as [z|] eqn:E; cbn [mbind option_bind]; [|done]. intros [= <-].
    rewrite (IH z eq_refl). destruct (expand special b); cbn [mbind option_bind]; [|done]. by rewrite <- app_assoc.
  - done.
Qed.

(** ** Slices into an array *)

(** What [Add] and [AddSlice] do to the array, when there is room. *)
Definition added (b b' : FixedArrayBuilder) (n : Z) : Prop :=
  capacity b' = capacity b /\ builder_length b <= builder_length b' <= builder_length b + n.

Lemma Add_ok b e :
  builder_length b < capacity b ->
  exists b', Add b e = Ok b' /\ elements b' = elements b ++ [e] /\ capacity b' = capacity b.
Proof. intros H. unfold Add, check. destruct (Z.ltb_spec (builder_length b) (capacity b)); [|lia]. eexists. by split. Qed.

Lemma builder_length_app b b' l : elements b' = elements b ++ l -> builder_length b' = builder_length b + Z.of_nat (length l).
Proof. unfold builder_length. intros ->. rewrite length_app. lia. Qed.

Lemma AddSlice_spec special b from to :
  0 <= from < to -> to <= len special -> len special <= kMaxLength -> builder_length b + 2 <= capacity b ->
  exists b' l, AddSlice b from to = Ok b' /\ elements b' = elements b ++ l /\ (1 <= length l <= 2)%nat /\ capacity b' = capacity b
    /\ (forall s, StringElement s ∉ l) /\ forall rest, expand special (l ++ rest) = (y ← expand special rest; Some (slice special from to ++ y)).
Proof.
  intros Hft Ht Hmax Hcap. change kMaxLength with (2 ^ 30 - 1) in Hmax. unfold AddSlice, check.
  destruct (Z.leb_spec 0 from); [|lia]. cbn [mbind Res_bind]. destruct (Z.ltb_spec 0 (to - from)); [|lia]. cbn [mbind Res_bind].
  destruct (length_is_valid (to - from) && position_is_valid from) eqn:E.
  - apply andb_true_iff in E as [E1 E2]. apply is_valid_fits in E1; [|done|lia]. apply is_valid_fits in E2; [|done|lia].
    unfold kStringBuilderConcatHelperLengthBits, kStringBuilderConcatHelperPositionBits in *.
    destruct (Add_ok b (SmiElement (Z.lor (length_encode (to - from)) (position_encode from)))) as (b' & -> & El & Ec); [lia|].
    exists b', [SmiElement (Z.lor (length_encode (to - from)) (position_encode from))].
    split; [done|]. split; [done|]. split; [cbn; lia|]. split; [done|]. split; [intros s Hin; by apply list_elem_of_singleton in Hin|]. intros rest. cbn [app].
    rewrite encode_slice_value by lia. rewrite expand_pos by lia.
    rewrite position_decode_value, length_decode_value by lia.
    rewrite Z.div_add_l by lia. rewrite (Z.div_small (to - from)) by lia. rewrite Z.add_0_r, (Z.mod_small from) by lia.
    rewrite Z.add_comm, Z.mod_add by lia. rewrite Z.mod_small by lia. unfold in_slice.
    destruct (Z.leb_spec 0 from), (Z.leb_spec 0 (to - from)), (Z.leb_spec (from + (to - from)) (len special)); try lia.
    cbn [andb mbind option_bind]. by replace (from + (to - from)) with to by lia.
  - destruct (Add_ok b (SmiElement (- (to - from)))) as (b1 & -> & El1 & Ec1); [lia|]. cbn [mbind Res_bind].
    pose proof (builder_length_app _ _ _ El1) as Hl1. cbn in Hl1.
    destruct (Add_ok b1 (SmiElement from)) as (b' & -> & El & Ec); [lia|].
    exists b', [SmiElement (- (to - from)); SmiElement from]. split; [done|].
    split; [by rewrite El, El1, <- app_assoc|]. split; [cbn; lia|]. split; [lia|].
    split; [intros s Hin; by repeat (apply elem_of_cons in Hin as [|Hin]; [done|]); apply not_elem_of_nil in Hin|]. intros rest. cbn [app].
    rewrite expand_neg by lia. unfold in_slice.
    destruct (Z.leb_spec 0 from), (Z.leb_spec 0 (- - (to - from))), (Z.leb_spec (from + - - (to - from)) (len special)); try lia.
    cbn [andb mbind option_bind]. by replace (from + - - (to - from)) with to by lia.
Qed.

(** ** The characters that are written *)

Lemma in_slice_Some special pos n x :
  in_slice special pos n = Some x -> 0 <= pos /\ 0 <= n /\ pos + n <= len special /\ x = slice special pos (pos + n).
Proof.
  unfold in_slice. destruct (Z.leb_spec 0 pos), (Z.leb_spec 0 n), (Z.leb_spec (pos + n) (len special)); cbn; try done.
  by intros [= <-].
Qed.

Lemma len_app l1 l2 : len (l1 ++ l2) = len l1 + len l2.
Proof. unfold len. rewrite length_app. lia. Qed.

Lemma len_map (f : Z -> Z) l : len (map f l) = len l.
Proof. unfold len. by rewrite length_map. Qed.

(** The text [x] written after [pre]. *)
Lemma WriteToFlat_ok w source pre rest from to :
  0 <= from <= to -> to <= len source -> to - from <= len rest ->
  WriteToFlat w source (pre ++ rest) (len pre) from to
  = Ok ((pre ++ map (to_subject_char w) (slice source from to)) ++ drop (Z.to_nat (to - from)) rest).
Proof.
  intros H1 H2 H3. pose proof (len_nonneg pre). unfold WriteToFlat, check. rewrite len_app.
  destruct (Z.leb_spec 0 from), (Z.leb_spec from to), (Z.leb_spec to (len source)), (Z.leb_spec 0 (len pre)),
    (Z.leb_spec (len pre + (to - from)) (len pre + len rest)); try lia.
  cbn [andb mbind Res_bind]. f_equal. rewrite <- app_assoc. f_equal; [|f_equal].
  - rewrite take_app_le by (unfold len; lia). apply take_ge. unfold len. lia.
  - rewrite drop_app_ge by (unfold len; lia). f_equal. unfold len. lia.
Qed.

Lemma len_slice_text special pos n : 0 <= pos -> 0 <= n -> pos + n <= len special -> len (slice special pos (pos + n)) = n.
Proof. intros. rewrite len_slice; lia. Qed.

Lemma drop_drop_Z (l : list Z) a b : 0 <= a -> 0 <= b -> drop (Z.to_nat b) (drop (Z.to_nat a) l) = drop (Z.to_nat (a + b)) l.
Proof. intros Ha Hb. rewrite drop_drop. f_equal. lia. Qed.

(** The array is written as the text that it stands for. *)
Lemma StringBuilderConcatHelper_spec w special array : forall pre rest text,
  expand special array = Some text -> len special < 2 ^ 31 -> len text <= len rest ->
  StringBuilderConcatHelper w special (pre ++ rest) (len pre) array
  = Ok (pre ++ map (to_subject_char w) text ++ drop (Z.to_nat (len text)) rest).
Proof.
  assert (Hstep : forall source pos n y pre rest array',
    0 <= pos -> 0 <= n -> pos + n <= len source -> n + len y <= len rest ->
    (forall pre rest, len y <= len rest -> StringBuilderConcatHelper w special (pre ++ rest) (len pre) array'
       = Ok (pre ++ map (to_subject_char w) y ++ drop (Z.to_nat (len y)) rest)) ->
    (sink ← WriteToFlat w source (pre ++ rest) (len pre) pos (pos + n);
     StringBuilderConcatHelper w special sink (len pre + n) array')
    = Ok (pre ++ map (to_subject_char w) (slice source pos (pos + n) ++ y)
            ++ drop (Z.to_nat (len (slice source pos (pos + n) ++ y))) rest)).
  { intros source pos n y pre rest array' Hp Hn Hs Hr IH. pose proof (len_nonneg y).
    rewrite WriteToFlat_ok by lia. cbn [mbind Res_bind]. replace (pos + n - pos) with n by lia.
    assert (El : len pre + n = len (pre ++ map (to_subject_char w) (slice source pos (pos + n)))).
    { rewrite len_app, len_map, len_slice_text by lia. done. }
    rewrite El, IH by (unfold len in *; rewrite length_drop; lia). rewrite len_app, len_slice_text by lia.
    rewrite drop_drop_Z, map_app, <- !app_assoc by lia. done. }
  induction array as [|v a Hv IH|v pos a Hv IH|v a Hv Hbad|s a IH|a] using parts_ind; intros pre rest text E Hs Hr.
  - injection E as <-. cbn. done.
  - rewrite expand_pos in E by done. destruct (in_slice _ _ _) as [x|] eqn:Ex; cbn [mbind option_bind] in E; [|done].
    destruct (expand special a) as [y|]; cbn [mbind option_bind] in E; [|done]. injection E as <-.
    apply in_slice_Some in Ex as (Hp & Hn & Hl & ->). rewrite len_app, len_slice_text in Hr by lia.
    cbn [StringBuilderConcatHelper]. destruct (Z.ltb_spec 0 v); [|lia]. apply Hstep; [done..|]. intros; by apply IH.
  - rewrite expand_neg in E by done. destruct (in_slice _ _ _) as [x|] eqn:Ex; cbn [mbind option_bind] in E; [|done].
    destruct (expand special a) as [y|]; cbn [mbind option_bind] in E; [|done]. injection E as <-.
    apply in_slice_Some in Ex as (Hp & Hn & Hl & ->). rewrite len_app, len_slice_text in Hr by lia.
    cbn [StringBuilderConcatHelper]. destruct (Z.ltb_spec 0 v); [lia|]. rewrite sint_id by lia. apply Hstep; [done..|]. intros; by apply IH.
  - by rewrite expand_bad in E.
  - cbn [expand] in E. destruct (expand special a) as [y|]; cbn [mbind option_bind] in E; [|done]. injection E as <-.
    rewrite len_app in Hr. cbn [StringBuilderConcatHelper]. unfold str_length. pose proof (len_nonneg (chars s)).
    pose proof (Hstep (chars s) 0 (len (chars s)) y pre rest a ltac:(lia) ltac:(lia) ltac:(lia) ltac:(lia)) as Hc.
    rewrite Z.add_0_l, slice_all in Hc. apply Hc. intros; by apply IH.
  - done.
Qed.

(** ** Characters of the text *)

(** [Smi::IsValid], with [kMinValue] and [kMaxValue]; [kSmiValueSize] is 31 on 32-bit and 32 on 64-bit targets. *)
Definition Smi_IsValid (kSmiValueSize value : Z) : bool :=
  let kMinValue := Z.shiftl (-1) (kSmiValueSize - 1) in
  let kMaxValue := - (kMinValue + 1) in
  (kMinValue <=? value) && (value <=? kMaxValue).

(** The objects that an array can hold. *)
Definition element_ok (kSmiValueSize : Z) (e : Element) : Prop :=
  match e with
  | SmiElement v => Smi_IsValid kSmiValueSize v = true
  | StringElement s => str_ok s
  | OtherElement => True
  end.

(** The least int is not the negation of a length. *)
Definition part_ok (e : Element) : Prop :=
  match e with
  | SmiElement v => - 2 ^ 31 < v < 2 ^ 31
  | StringElement s => str_ok s
  | OtherElement => True
  end.

Definition kMinInt : Z := - 2 ^ 31.

(** The small integers of the target are ints, and with 31 bits the least int is none of them. *)
Lemma elements_parts kSmiValueSize array :
  Forall (element_ok kSmiValueSize) array ->
  kSmiValueSize = 31 \/ kSmiValueSize = 32 /\ SmiElement kMinInt ∉ array ->
  Forall part_ok array.
Proof.
  rewrite !Forall_forall. intros H Hk e He. specialize (H e He). destruct e as [v|s|]; [|done..].
  cbn in *. unfold Smi_IsValid in H. apply andb_true_iff in H as [H1%Z.leb_le H2%Z.leb_le].
  destruct Hk as [->|[-> Hmin]]; [change (Z.shiftl (-1) (31 - 1)) with (- 2 ^ 30) in *; lia|].
  change (Z.shiftl (-1) (32 - 1)) with (- 2 ^ 31) in *.
  destruct (Z.eq_dec v (- 2 ^ 31)) as [->|]; [by destruct Hmin|lia].
Qed.

Lemma Forall_slice (P : Z -> Prop) l a b : Forall P l -> Forall P (slice l a b).
Proof. intros H. by apply Forall_take, Forall_drop. Qed.

Lemma char_ok_wide w c : char_ok w c -> char_ok true c.
Proof. unfold char_ok. destruct w; lia. Qed.

Lemma str_chars_wide s : str_ok s -> Forall (char_ok true) (chars s).
Proof. intros (H & _). eapply Forall_impl; [exact H|]. intros c. apply char_ok_wide. Qed.

Lemma HasOnlyAscii_chars s : str_ok s -> HasOnlyAsciiChars s = true -> Forall (char_ok false) (chars s).
Proof.
  intros (H & _ & Hh) Ha. unfold HasOnlyAsciiChars in Ha. destruct (two_byte s) eqn:E; [by apply Hh|done].
Qed.

Lemma convert_id w l : Forall (char_ok true) l -> (w = false -> Forall (char_ok false) l) -> map (to_subject_char w) l = l.
Proof.
  intros Ht Hf. rewrite <- (map_id l) at 2. apply map_ext_in. intros c Hc. apply list_elem_of_In in Hc.
  rewrite Forall_forall in Ht. specialize (Ht c Hc). unfold char_ok, to_subject_char in *. destruct w.
  - by apply Z.mod_small.
  - specialize (Hf eq_refl). rewrite Forall_forall in Hf. specialize (Hf c Hc). cbn in Hf. apply sint_id; [done|].
    change (2 ^ (8 - 1)) with 128. lia.
Qed.

(** The text consists of characters of the subject and of the strings. *)
Lemma expand_chars (P : Z -> Prop) special array text :
  expand special array = Some text -> Forall P special ->
  (forall s, StringElement s ∈ array -> Forall P (chars s)) -> Forall P text.
Proof.
  revert text. induction array as [|v a Hv IH|v pos a Hv IH|v a Hv Hbad|s a IH|a] using parts_ind; intros text E Hs Hp.
  - injection E as <-. constructor.
  - rewrite expand_pos in E by done. destruct (in_slice _ _ _) as [x|] eqn:Ex; cbn [mbind option_bind] in E; [|done].
    destruct (expand special a) as [y|]; cbn [mbind option_bind] in E; [|done]. injection E as <-.
    apply in_slice_Some in Ex as (_ & _ & _ & ->). apply Forall_app. split; [by apply Forall_slice|].
    apply IH; [done..|]. intros s Hin. apply Hp. by right.
  - rewrite expand_neg in E by done. destruct (in_slice _ _ _) as [x|] eqn:Ex; cbn [mbind option_bind] in E; [|done].
    destruct (expand special a) as [y|]; cbn [mbind option_bind] in E; [|done]. injection E as <-.
    apply in_slice_Some in Ex as (_ & _ & _ & ->). apply Forall_app. split; [by apply Forall_slice|].
    apply IH; [done..|]. intros s Hin. apply Hp. by do 2 right.
  - by rewrite expand_bad in E.
  - cbn [expand] in E. destruct (expand special a) as [y|]; cbn [mbind option_bind] in E; [|done]. injection E as <-.
    apply Forall_app. split; [apply Hp; by left|]. apply IH; [done..|]. intros s' Hin. apply Hp. by right.
  - done.
Qed.

(** ** The check of an array *)

Lemma decode_ranges v : 0 < v < 2 ^ 31 -> 0 <= position_decode v < 2 ^ 19 /\ 0 <= length_decode v < 2 ^ 11.
Proof.
  intros Hv. rewrite position_decode_value, length_decode_value by lia. split; by apply Z.mod_pos_bound.
Qed.

(** The strings of the array that the flag covers. *)
Definition strings_ascii (array : list Element) : Prop := forall s, StringElement s ∈ array -> HasOnlyAsciiChars s = true.

Lemma strings_ascii_nil : strings_ascii [].
Proof. intros s Hin. by apply not_elem_of_nil in Hin. Qed.

Lemma strings_ascii_smi v array : strings_ascii array -> strings_ascii (SmiElement v :: array).
Proof. intros H s Hin. apply elem_of_cons in Hin as [|Hin]; [done|by apply H]. Qed.

(** What the check answers. *)
Definition check_result (special : list Z) (array : list Element) (ascii : bool) (position : Z) (r : Res (bool * Z)) : Prop :=
  match r with
  | Ok (ascii', length) => exists text, expand special array = Some text /\ length = position + len text
      /\ length <= kMaxLength /\ (ascii' = true -> ascii = true /\ strings_ascii array)
  | Err e => e = IllegalArgument \/ e = OutOfMemoryException
  end.

Lemma check_result_step special array array' ascii position x r :
  check_result special array ascii (position + len x) r ->
  (forall y, expand special array = Some y -> expand special array' = Some (x ++ y)) ->
  (strings_ascii array -> strings_ascii array') -> check_result special array' ascii position r.
Proof.
  intros H He Hs. destruct r as [[a l]|e]; [|done]. destruct H as (y & Hy & -> & Hl & Ha).
  exists (x ++ y). split; [by apply He|]. rewrite len_app. split; [lia|]. split; [lia|].
  intros E. destruct (Ha E). split; [done|by apply Hs].
Qed.

(** The counts of the loop do not wrap around. *)
Lemma sint_room position : 0 <= position <= kMaxLength -> sint 32 (kMaxLength - position) = kMaxLength - position.
Proof. change kMaxLength with (2 ^ 30 - 1). intros H. apply sint_id; [done|]. change (2 ^ (32 - 1)) with (2 ^ 31). lia. Qed.

Lemma sint_count position : 0 <= position <= kMaxLength -> sint 32 position = position.
Proof. change kMaxLength with (2 ^ 30 - 1). intros H. apply sint_id; [done|]. change (2 ^ (32 - 1)) with (2 ^ 31). lia. Qed.

Lemma concat_check_spec special array : forall ascii position,
  len special <= kMaxLength -> Forall part_ok array -> 0 <= position <= kMaxLength ->
  check_result special array ascii position (concat_check (len special) array ascii position).
Proof.
  assert (Hslice : forall pos n array array' ascii position,
    0 <= pos -> 0 <= n ->
    (forall position, 0 <= position <= kMaxLength -> check_result special array ascii position (concat_check (len special) array ascii position)) ->
    (pos + n <= len special -> forall y, expand special array = Some y ->
       expand special array' = Some (slice special pos (pos + n) ++ y)) ->
    (strings_ascii array -> strings_ascii array') -> 0 <= position <= kMaxLength ->
    check_result special array' ascii position
      (if (len special <? pos) || (len special - pos <? n) then Err IllegalArgument
       else if sint 32 (kMaxLength - position) <? n then Err OutOfMemoryException
       else concat_check (len special) array ascii (sint 32 (position + n)))).
  { intros pos n a a' ascii position Hp Hn IH He Hs Hpos. rewrite sint_room by done.
    destruct (Z.ltb_spec (len special) pos), (Z.ltb_spec (len special - pos) n); cbn [orb]; try by left.
    destruct (Z.ltb_spec (kMaxLength - position) n); [by right|]. rewrite sint_count by lia.
    apply (check_result_step _ a _ _ _ (slice special pos (pos + n))); [|apply He; lia|done].
    rewrite len_slice_text by lia. apply IH. lia. }
  induction array as [|v a Hv IH|v pos a Hv IH|v a Hv Hbad|s a IH|a] using parts_ind; intros ascii position Hsp Hok Hpos.
  - exists []. split; [done|]. change (len []) with 0. split; [lia|]. split; [lia|]. intros ->. split; [done|apply strings_ascii_nil].
  - apply Forall_cons in Hok as [Hv' Hok]. cbn in Hv'. destruct (decode_ranges v) as [Hp Hn]; [lia|]. cbn [concat_check].
    destruct (Z.ltb_spec 0 v); [|lia]. apply Hslice; [lia|lia|intros; by apply IH| |apply strings_ascii_smi|done].
    intros Hin y Hy. rewrite expand_pos by done. unfold in_slice.
    destruct (Z.leb_spec 0 (position_decode v)), (Z.leb_spec 0 (length_decode v)), (Z.leb_spec (position_decode v + length_decode v) (len special)); try lia.
    cbn [andb mbind option_bind]. by rewrite Hy.
  - apply Forall_cons in Hok as [Hv' Hok]. apply Forall_cons in Hok as [_ Hok]. cbn in Hv'. cbn [concat_check].
    destruct (Z.ltb_spec 0 v); [lia|]. destruct (Z.ltb_spec pos 0); [by left|].
    rewrite sint_id by lia. apply Hslice; [done|lia|intros; by apply IH| |by intros H1; do 2 apply strings_ascii_smi|done].
    intros Hin y Hy. rewrite expand_neg by done. unfold in_slice.
    destruct (Z.leb_spec 0 pos), (Z.leb_spec 0 (- v)), (Z.leb_spec (pos + - v) (len special)); try lia.
    cbn [andb mbind option_bind]. by rewrite Hy.
  - cbn [concat_check]. destruct (Z.ltb_spec 0 v); [lia|]. destruct a as [|[pos|s|] a]; [by left| |by left..].
    by destruct (Hbad pos a).
  - apply Forall_cons in Hok as [_ Hok]. cbn [concat_check]. unfold str_length.
    rewrite sint_room by done. pose proof (len_nonneg (chars s)).
    destruct (Z.ltb_spec (kMaxLength - position) (len (chars s))); [by right|]. rewrite sint_count by lia.
    specialize (IH (ascii && HasOnlyAsciiChars s) (position + len (chars s)) Hsp Hok ltac:(lia)).
    destruct (concat_check _ a _ _) as [[a' l]|e]; [|done]. destruct IH as (y & Hy & -> & Hl & Ha).
    exists (chars s ++ y). cbn [expand]. rewrite Hy. split; [done|]. rewrite len_app. split; [lia|]. split; [lia|].
    intros E. destruct (Ha E) as [E2 Hs]. apply andb_true_iff in E2 as [-> E2]. split; [done|].
    intros s' Hin. apply elem_of_cons in Hin as [[= ->]|Hin]; [done|by apply Hs].
  - by left.
Qed.

(** ** Concatenation *)

Section concatenation.
Context (kHeaderSize : Z) (raw : Z -> list Z).
Hypothesis raw_length : forall n, 0 <= n -> len (raw n) = n.

(** The conversion is lossless when the flag says so. *)
Lemma text_convert special array text ascii :
  expand (chars special) array = Some text -> str_ok special -> (forall s, StringElement s ∈ array -> str_ok s) ->
  (ascii = true -> HasOnlyAsciiChars special = true /\ strings_ascii array) ->
  map (to_subject_char (negb ascii)) text = text.
Proof.
  intros E Hs He Ha. apply convert_id.
  - apply (expand_chars _ _ _ _ E); [by apply str_chars_wide|]. intros s Hin. by apply str_chars_wide, He.
  - intros Hw. apply negb_false_iff in Hw. destruct (Ha Hw) as [H1 H2].
    apply (expand_chars _ _ _ _ E); [by apply HasOnlyAscii_chars|]. intros s Hin.
    apply HasOnlyAscii_chars; [by apply He|by apply H2].
Qed.

(** A fresh string, filled. *)
Lemma fill_string w special array text :
  expand special array = Some text -> len special < 2 ^ 31 -> map (to_subject_char w) text = text ->
  StringBuilderConcatHelper w special (raw (len text)) 0 array = Ok text.
Proof.
  intros E Hs Hc. pose proof (len_nonneg text). pose proof (raw_length (len text) ltac:(lia)) as Hr.
  pose proof (StringBuilderConcatHelper_spec w special array [] (raw (len text)) text E Hs ltac:(lia)) as H1.
  cbn [app] in H1. change (len []) with 0 in H1. rewrite H1, Hc. f_equal. rewrite drop_ge by (unfold len in *; lia).
  apply app_nil_r.
Qed.

(** C19: The concatenation that JavaScript code calls is safe for every array on targets with small integers of
    31 bits, and on targets with small integers of 32 bits for every array without the least of them, -2^31: the
    check before the writing means that no character outside the subject is read and none outside the answer is
    written; an array that is no sequence of slices and strings gives an error, and an answer is the text that the
    array stands for.  [StringBuilderConcat_min_smi] shows what the exception does. *)
Theorem StringBuilderConcat_safe kSmiValueSize fixed_array array_length special :
  str_ok special -> Forall (element_ok kSmiValueSize) fixed_array ->
  kSmiValueSize = 31 \/ kSmiValueSize = 32 /\ SmiElement kMinInt ∉ take (Z.to_nat array_length) fixed_array ->
  match StringBuilderConcat kHeaderSize raw (Some fixed_array) (Some array_length) special with
  | Ok answer => expand (chars special) (take (Z.to_nat array_length) fixed_array) = Some (chars answer)
  | Err e => e = IllegalArgument \/ e = OutOfMemoryException
  end.
Proof.
  intros Hs Hall Hsmi. pose proof (elements_parts kSmiValueSize _ (Forall_take _ (Z.to_nat array_length) _ Hall) Hsmi) as Hok.
  unfold StringBuilderConcat. set (n := if _ <? array_length then _ else _).
  assert (En : take (Z.to_nat array_length) fixed_array = take (Z.to_nat n) fixed_array).
  { subst n. destruct (Z.ltb_spec (Z.of_nat (length fixed_array)) array_length); [|done]. rewrite !take_ge; [done|lia..]. }
  rewrite En in *. clear Hsmi. clearbody n. destruct (Z.eqb_spec n 0) as [->|Hn0]; [done|].
  pose proof (str_length_range _ Hs). pose proof Hs as (_ & Hmax & _).
  assert (Hcat : match ('(ascii, length) ← concat_check (str_length special) (take (Z.to_nat n) fixed_array) (HasOnlyAsciiChars special) 0;
        answer ← AllocateRawString kHeaderSize raw (negb ascii) length;
        answer ← StringBuilderConcatHelper (negb ascii) (chars special) answer 0 (take (Z.to_nat n) fixed_array);
        Ok (mkStr (negb ascii) answer)) with
      | Ok answer => expand (chars special) (take (Z.to_nat n) fixed_array) = Some (chars answer)
      | Err e => e = IllegalArgument \/ e = OutOfMemoryException
      end).
  { pose proof (concat_check_spec (chars special) (take (Z.to_nat n) fixed_array) (HasOnlyAsciiChars special) 0 Hmax Hok) as Hc.
    unfold str_length. specialize (Hc ltac:(by vm_compute)). destruct (concat_check _ _ _ _) as [[ascii l]|e]; cbn [mbind Res_bind]; [|done].
    destruct Hc as (text & Et & -> & Hl & Ha). rewrite Z.add_0_l. unfold AllocateRawString.
    destruct ((len text <? 0) || _); cbn [mbind Res_bind]; [by right|].
    rewrite (fill_string _ _ _ text); [done|done|unfold str_length in *; lia|].
    apply (text_convert special _ _ _ Et Hs); [|done]. intros s Hin. rewrite Forall_forall in Hok. by apply (Hok _ Hin). }
  destruct (Z.eqb_spec n 1) as [->|Hn1]; [|done]. destruct fixed_array as [|[v|s|] array]; cbn [head]; [done..| |done].
  change (Z.to_nat 1) with 1%nat. rewrite firstn_cons, firstn_O. cbn. by rewrite app_nil_r.
Qed.

Lemma sint_wrap w z k : 0 < w -> sint w (z + k * 2 ^ w) = sint w z.
Proof.
  intros Hw. unfold sint. replace (z + k * 2 ^ w + 2 ^ (w - 1)) with (z + 2 ^ (w - 1) + k * 2 ^ w) by lia.
  rewrite Z.mod_add by (apply Z.pow_nonzero; lia). done.
Qed.

(** The exception: [len = -smi_value] of -2^31 is -2^31 again, which passes the check of the range; two such slices
    bring the length back to what it was, so the check accepts an array that stands for no text, and the slice of
    negative length reaches [String::WriteToFlat]. *)
Lemma concat_check_min_smi special_length ascii position pos1 pos2 :
  0 <= position <= kMaxLength -> 0 <= pos1 <= special_length -> 0 <= pos2 <= special_length -> special_length <= kMaxLength ->
  concat_check special_length [SmiElement kMinInt; SmiElement pos1; SmiElement kMinInt; SmiElement pos2] ascii position
  = Ok (ascii, position).
Proof.
  intros Hp H1 H2 Hs. unfold concat_check. change (0 <? kMinInt) with false. cbv iota zeta.
  change (sint 32 (- kMinInt)) with (- 2 ^ 31). change kMaxLength with (2 ^ 30 - 1) in *.
  assert (E1 : sint 32 (position + - 2 ^ 31) = position - 2 ^ 31) by (apply sint_id; lia).
  assert (E2 : sint 32 (2 ^ 30 - 1 - (position - 2 ^ 31)) = 2 ^ 30 - 1 - position - 2 ^ 31).
  { rewrite <- (sint_wrap 32 _ (-1)) by done. rewrite sint_id; lia. }
  assert (E3 : sint 32 (position - 2 ^ 31 + - 2 ^ 31) = position).
  { rewrite <- (sint_wrap 32 _ 1) by done. rewrite sint_id; lia. }
  rewrite (sint_id 32 (2 ^ 30 - 1 - position)), E1, E2, E3 by lia.
  destruct (Z.ltb_spec pos1 0), (Z.ltb_spec special_length pos1), (Z.ltb_spec (special_length - pos1) (- 2 ^ 31)),
    (Z.ltb_spec (2 ^ 30 - 1 - position) (- 2 ^ 31)), (Z.ltb_spec pos2 0), (Z.ltb_spec special_length pos2),
    (Z.ltb_spec (special_length - pos2) (- 2 ^ 31)), (Z.ltb_spec (2 ^ 30 - 1 - position - 2 ^ 31) (- 2 ^ 31)); done || lia.
Qed.

Lemma StringBuilderConcat_min_smi special pos1 pos2 :
  str_ok special -> 0 <= pos1 <= str_length special -> 0 <= pos2 <= str_length special -> 0 <= kHeaderSize <= kMaxSize ->
  let array := [SmiElement kMinInt; SmiElement pos1; SmiElement kMinInt; SmiElement pos2] in
  expand (chars special) array = None /\ StringBuilderConcat kHeaderSize raw (Some array) (Some 4) special = Err Fault.
Proof.
  intros Hs H1 H2 Hk array. pose proof Hs as (_ & Hmax & _). split.
  - unfold array. rewrite expand_neg by done. unfold in_slice, kMinInt.
    destruct (Z.leb_spec (pos1 + - - 2 ^ 31) (len (chars special))).
    + unfold str_length in *. change kMaxLength with (2 ^ 30 - 1) in Hmax. lia.
    + by rewrite andb_false_r.
  - unfold StringBuilderConcat. change (Z.of_nat (length array) <? 4) with false. cbv iota. change (4 =? 0) with false.
    change (4 =? 1) with false. cbv iota. change (take (Z.to_nat 4) array) with array. unfold array.
    rewrite concat_check_min_smi by (done || by vm_compute).
    cbn [mbind Res_bind]. unfold AllocateRawString. destruct (Z.ltb_spec (kMaxSeqLength kHeaderSize (negb (HasOnlyAsciiChars special))) 0) as [Hlt|_].
    { unfold kMaxSeqLength in Hlt. destruct (negb _); [|lia]. pose proof (Z.div_pos (kMaxSize - kHeaderSize) 2). lia. }
    change (0 <? 0) with false. cbn [orb mbind Res_bind StringBuilderConcatHelper]. change (0 <? kMinInt) with false. change (sint 32 (- kMinInt)) with (- 2 ^ 31). cbv iota.
    unfold WriteToFlat. destruct (Z.leb_spec pos1 (pos1 + - 2 ^ 31)); [lia|]. by destruct (0 <=? pos1).
Qed.

(** ** The builder of replacements *)

(** The builder holds a text. *)
Definition holds (b : ReplacementStringBuilder) (text : list Z) : Prop :=
  expand (chars (subject_ b)) (elements (array_builder_ b)) = Some text
  /\ character_count_ b = len text /\ len text <= kMaxLength /\ str_ok (subject_ b)
  /\ (forall s, StringElement s ∈ elements (array_builder_ b) -> str_ok s)
  /\ (is_ascii_ b = true -> IsAsciiRepresentation (subject_ b) = true
        /\ forall s, StringElement s ∈ elements (array_builder_ b) -> IsAsciiRepresentation s = true).

Definition room (b : ReplacementStringBuilder) : Z := capacity (array_builder_ b) - builder_length (array_builder_ b).

(** A step that appends [x] and takes at most [n] elements. *)
Definition appends (b : ReplacementStringBuilder) (text x : list Z) (n : Z) (r : Res ReplacementStringBuilder) : Prop :=
  match r with
  | Ok b' => holds b' (text ++ x) /\ subject_ b' = subject_ b /\ room b - n <= room b'
  | Err e => e = FatalOutOfMemory /\ kMaxLength < len text + len x
  end.

Lemma appends_nil b text n : holds b text -> 0 <= n -> appends b text [] n (Ok b).
Proof. intros H Hn. cbn. rewrite app_nil_r. split; [done|]. split; [done|lia]. Qed.

Lemma appends_bind b text x y n m r k :
  appends b text x n r ->
  (forall b', holds b' (text ++ x) -> subject_ b' = subject_ b -> room b - n <= room b' -> appends b' (text ++ x) y m (k b')) ->
  appends b text (x ++ y) (n + m) (b' ← r; k b').
Proof.
  unfold appends. intros Hr Hk. pose proof (len_nonneg y). destruct r as [b'|e]; cbn [mbind Res_bind].
  - destruct Hr as (Hh & Es & Hr). specialize (Hk b' Hh Es Hr). destruct (k b') as [b2|e]; rewrite ?len_app in *.
    + destruct Hk as (Hh2 & Es2 & Hr2). rewrite app_assoc. split; [done|]. split; [congruence|lia].
    + destruct Hk as [-> Hk]. split; [done|lia].
  - rewrite len_app. destruct Hr as [-> Hr]. split; [done|lia].
Qed.

(** The count is brought up to date after the array. *)
Lemma IncrementCharacterCount_spec b a text x l ascii n :
  holds b text -> elements a = elements (array_builder_ b) ++ l -> capacity a = capacity (array_builder_ b) ->
  (forall rest, expand (chars (subject_ b)) (l ++ rest) = (y ← expand (chars (subject_ b)) rest; Some (x ++ y))) ->
  (forall s, StringElement s ∈ l -> str_ok s) -> Z.of_nat (length l) <= n ->
  (ascii = true -> is_ascii_ b = true /\ forall s, StringElement s ∈ l -> IsAsciiRepresentation s = true) ->
  appends b text x n
    (IncrementCharacterCount (mkReplacementStringBuilder a (subject_ b) (character_count_ b) ascii) (len x)).
Proof.
  intros (He & Hc & Hm & Hs & Hso & Ha) El Ec Hex Hlo Hn Hasc. unfold IncrementCharacterCount. cbn.
  destruct (Z.ltb_spec (kMaxLength - len x) (character_count_ b)); [split; [done|lia]|].
  split; [|split; [done|]].
  - split; [|split; [|split; [|split; [done|split]]]]; cbn.
    + specialize (Hex []). rewrite app_nil_r in Hex. rewrite El, (expand_app _ _ _ _ He), Hex. cbn. by rewrite app_nil_r.
    + rewrite len_app. lia.
    + rewrite len_app. lia.
    + intros s. rewrite El. intros [Hin|Hin]%elem_of_app; [by apply Hso|by apply Hlo].
    + intros E. destruct (Hasc E) as [E2 Hl]. destruct (Ha E2) as [H1 H2]. split; [done|].
      intros s. rewrite El. intros [Hin|Hin]%elem_of_app; [by apply H2|by apply Hl].
  - unfold room. cbn. rewrite (builder_length_app _ _ _ El). lia.
Qed.

Lemma AddSubjectSlice_spec b text from to :
  holds b text -> 0 <= from < to -> to <= str_length (subject_ b) -> 2 <= room b ->
  appends b text (slice (chars (subject_ b)) from to) 2 (AddSubjectSlice b from to).
Proof.
  intros Hh Hft Ht Hroom. unfold AddSubjectSlice. pose proof Hh as (_ & _ & _ & Hs & _). pose proof Hs as (_ & Hmax & _).
  destruct (AddSlice_spec (chars (subject_ b)) (array_builder_ b) from to) as (a & l & -> & El & Hll & Ec & Hno & Hex);
    [done|done|done|unfold room in Hroom; lia|].
  cbn [mbind Res_bind]. unfold with_array. unfold str_length in Ht.
  replace (to - from) with (len (slice (chars (subject_ b)) from to)) by (rewrite len_slice; lia).
  apply (IncrementCharacterCount_spec b a text _ l); [done|done|done|done| |lia|].
  - intros s Hin. by destruct (Hno s Hin).
  - intros E. split; [done|]. intros s Hin. by destruct (Hno s Hin).
Qed.

Lemma AddString_spec b text string :
  holds b text -> str_ok string -> 0 < str_length string -> 1 <= room b ->
  appends b text (chars string) 1 (AddString b string).
Proof.
  intros Hh Hs Hl Hroom. unfold AddString, check. destruct (Z.ltb_spec 0 (str_length string)); [|lia]. cbn [mbind Res_bind].
  destruct (Add_ok (array_builder_ b) (StringElement string)) as (a & -> & El & Ec); [unfold room in Hroom; lia|].
  cbn [mbind Res_bind]. assert (Hin : forall s, StringElement s ∈ [StringElement string] -> s = string).
  { intros s H1. apply list_elem_of_singleton in H1. by injection H1. }
  apply (IncrementCharacterCount_spec b a text _ [StringElement string]); [done|done|done|done| |cbn; lia|].
  - intros s H1. by rewrite (Hin s H1).
  - intros E. apply andb_true_iff in E as [E1 E2]. split; [done|]. intros s H1. by rewrite (Hin s H1).
Qed.

Lemma grow_spec required fuel : forall n,
  0 < n -> required <= n + Z.of_nat fuel -> (0 < fuel)%nat -> exists r, grow fuel n required = Ok r /\ required <= r.
Proof.
  induction fuel as [|fuel IH]; intros n Hn Hr Hf; [lia|]. cbn [grow].
  destruct (Z.ltb_spec (n * 2) required); [apply IH; lia|]. eexists. by split.
Qed.

(** Room for [n] more elements. *)
Lemma BuilderEnsureCapacity_spec b text n :
  holds b text -> 0 < capacity (array_builder_ b) -> 0 <= n ->
  exists b', BuilderEnsureCapacity b n = Ok b' /\ holds b' text /\ subject_ b' = subject_ b /\ n <= room b'
    /\ 0 < capacity (array_builder_ b').
Proof.
  intros Hh Hc Hn. unfold BuilderEnsureCapacity, EnsureCapacity, room in *.
  destruct (Z.ltb_spec (capacity (array_builder_ b)) (builder_length (array_builder_ b) + n)).
  - destruct (grow_spec (builder_length (array_builder_ b) + n) (Z.to_nat (builder_length (array_builder_ b) + n))
      (capacity (array_builder_ b))) as (r & -> & Hr); [lia..|].
    cbn [mbind Res_bind]. eexists. split; [done|]. split; [exact Hh|]. split; [done|]. cbn. unfold builder_length in *. cbn. lia.
  - cbn [mbind Res_bind]. eexists. split; [done|]. split; [exact Hh|]. split; [done|]. cbn. lia.
Qed.

Lemma ReplacementStringBuilder_new_spec subject n :
  str_ok subject -> holds (ReplacementStringBuilder_new subject n) [].
Proof.
  intros Hs. split; [done|]. split; [done|]. split; [by vm_compute|]. split; [done|]. split.
  - intros s Hin. by apply not_elem_of_nil in Hin.
  - intros E. split; [done|]. intros s Hin. by apply not_elem_of_nil in Hin.
Qed.

(** The string that a builder makes. *)
Definition string_result (text : list Z) (r : Res Str) : Prop :=
  match r with
  | Ok answer => chars answer = text
  | Err e => e = FatalOutOfMemory /\ kMaxSeqLength kHeaderSize true < len text
  end.

Lemma ToString_spec b text :
  0 <= kHeaderSize <= kMaxSize -> holds b text -> string_result text (ToString kHeaderSize raw b).
Proof.
  intros Hk (He & Hc & Hm & Hs & Hso & Ha). unfold ToString.
  destruct (Z.eqb_spec (builder_length (array_builder_ b)) 0) as [E|Hne].
  { unfold builder_length in E. destruct (elements (array_builder_ b)); [|cbn in E; lia]. by injection He as <-. }
  rewrite Hc. unfold NewRawString, AllocateRawString. pose proof (len_nonneg text).
  destruct (Z.ltb_spec (len text) 0); [lia|]. cbn [orb]. destruct (Z.ltb_spec (kMaxSeqLength kHeaderSize (negb (is_ascii_ b))) (len text)) as [Hlt|Hge].
  - cbn [mbind Res_bind]. split; [done|]. unfold kMaxSeqLength in *. destruct (is_ascii_ b); cbn [negb] in *; [|done].
    assert ((kMaxSize - kHeaderSize) / 2 <= kMaxSize - kHeaderSize); [|lia]. apply Z.div_le_upper_bound; lia.
  - cbn [mbind Res_bind]. pose proof (str_length_range _ Hs). rewrite (fill_string _ _ _ text); [done|done|unfold str_length in *; lia|].
    apply (text_convert (subject_ b) (elements (array_builder_ b))); [done..|]. intros E. destruct (Ha E) as [Ha1 Ha2].
    unfold strings_ascii, HasOnlyAsciiChars, IsAsciiRepresentation in *. rewrite Ha1. split; [done|].
    intros s Hin. by rewrite (Ha2 s Hin).
Qed.

End concatenation.

Lemma StringBuilderConcat_safe_witness :
  match StringBuilderConcat 12 (fun n => replicate (Z.to_nat n) 0)
      (Some [SmiElement (2 * 2 ^ 11 + 3); StringElement (mkStr false [45]); SmiElement (-1); SmiElement 0]) (Some 4)
      (mkStr true [97; 98; 99; 100; 960]) with
  | Ok answer => expand [97; 98; 99; 100; 960]
      (take 4 [SmiElement (2 * 2 ^ 11 + 3); StringElement (mkStr false [45]); SmiElement (-1); SmiElement 0]) = Some (chars answer)
      /\ chars answer = [99; 100; 960; 45; 97]
  | Err e => False
  end.
Proof.
  pose proof (StringBuilderConcat_safe 12 (fun n => replicate (Z.to_nat n) 0)
    ltac:(intros n Hn; unfold len; rewrite length_replicate; lia) 32
    [SmiElement (2 * 2 ^ 11 + 3); StringElement (mkStr false [45]); SmiElement (-1); SmiElement 0] 4
    (mkStr true [97; 98; 99; 100; 960])) as H.
  change (Z.to_nat 4) with 4%nat in H. remember (StringBuilderConcat _ _ _ _ _) as r eqn:Er. vm_compute in Er. subst r.
  split; [|done]. apply H.
  - apply str_ok_intro; [repeat constructor; cbn; lia|by vm_compute].
  - repeat constructor; by vm_compute.
  - right. split; [done|]. intros Hin. repeat (apply elem_of_cons in Hin as [Hin|Hin]; [discriminate Hin|]).
    by apply not_elem_of_nil in Hin.
Defined.
