(* ===== verification/ReplacementPattern.v ===== *)
(** * ReplacementPattern: the dollar forms of String.prototype.replace

    Models [CompiledReplacement] of src/runtime.cc: the parsing of a replacement string
    into parts, the making of its substrings, and what the parts of a match add to
    a builder; the theorem compares them with a reference grammar of the forms. *)

From S2P Require Import Prelude StringSearch StringSearchTables StringSearchCorrect StringMatching StringBuilder.

Open Scope Z_scope.

(** ** Replacement patterns *)

Definition SUBJECT_PREFIX := 1.
Definition SUBJECT_SUFFIX := 2.
Definition SUBJECT_CAPTURE := 3.
Definition REPLACEMENT_SUBSTRING := 4.
Definition REPLACEMENT_STRING := 5.

(** A part of the replacement: a tag, or a non-positive number that is the negated
    start of a slice of the replacement string. *)
Record ReplacementPart := mkPart { tag : Z; data : Z }.

Definition SubjectMatch : ReplacementPart := mkPart SUBJECT_CAPTURE 0.
Definition SubjectCapture (capture_index : Z) : ReplacementPart := mkPart SUBJECT_CAPTURE capture_index.
Definition SubjectPrefix : ReplacementPart := mkPart SUBJECT_PREFIX 0.
Definition SubjectSuffix (subject_length : Z) : ReplacementPart := mkPart SUBJECT_SUFFIX subject_length.
Definition ReplacementString : ReplacementPart := mkPart REPLACEMENT_STRING 0.
Definition ReplacementSubString (from to : Z) : ReplacementPart := mkPart (- from) to.

Section patterns.
Context (characters : list Z) (capture_count subject_length : Z).

(** The capture that begins at [next_index], with one or two digits. *)
Definition capture_digits (next_index capture_ref : Z) : option (Z * Z) :=
  let second_digit_index := next_index + 1 in
  if second_digit_index <? len characters then
    c3 ← at_ characters second_digit_index;
    if (48 <=? c3) && (c3 <=? 57) then
      let double_digit_ref := capture_ref * 10 + c3 - 48 in
      if double_digit_ref <=? capture_count then Some (second_digit_index, double_digit_ref) else Some (next_index, capture_ref)
    else Some (next_index, capture_ref)
  else Some (next_index, capture_ref).

(** The loop over the characters: the parts and the start of the text that is still to be added. *)
Fixpoint parse_loop (fuel : nat) (i last : Z) (parts : list ReplacementPart) : option (list ReplacementPart * Z) :=
  match fuel with
  | O => None
  | S fuel =>
      if i <? len characters then
        c ← at_ characters i;
        if c =? 36 then
          let next_index := i + 1 in
          if next_index =? len characters then Some (parts, last)
          else
            c2 ← at_ characters next_index;
            let flushed := if last <? i then parts ++ [ReplacementSubString last i] else parts in
            if c2 =? 36 then
              if last <? i then
                parse_loop fuel (next_index + 1) (next_index + 1) (parts ++ [ReplacementSubString last next_index])
              else parse_loop fuel (next_index + 1) next_index parts
            else if c2 =? 96 then parse_loop fuel (next_index + 1) (next_index + 1) (flushed ++ [SubjectPrefix])
            else if c2 =? 39 then
              parse_loop fuel (next_index + 1) (next_index + 1) (flushed ++ [SubjectSuffix subject_length])
            else if c2 =? 38 then parse_loop fuel (next_index + 1) (next_index + 1) (flushed ++ [SubjectMatch])
            else if (48 <=? c2) && (c2 <=? 57) then
              let capture_ref := c2 - 48 in
              if capture_count <? capture_ref then parse_loop fuel (next_index + 1) last parts
              else
                '(next_index, capture_ref) ← capture_digits next_index capture_ref;
                if 0 <? capture_ref then
                  parse_loop fuel (next_index + 1) (next_index + 1) (flushed ++ [SubjectCapture capture_ref])
                else parse_loop fuel (next_index + 1) last parts
            else parse_loop fuel (next_index + 1) last parts
        else parse_loop fuel (i + 1) last parts
      else Some (parts, last)
  end.

(** The parts, and whether the replacement is a plain string. *)
Definition ParseReplacementPattern : option (list ReplacementPart * bool) :=
  '(parts, last) ← parse_loop (S (length characters)) 0 0 [];
  if last <? len characters then
    if last =? 0 then Some (parts ++ [ReplacementString], true)
    else Some (parts ++ [ReplacementSubString last (len characters)], false)
  else Some (parts, false).
End patterns.

Record CompiledReplacement := mkCompiled {
  parts_ : list ReplacementPart;
  replacement_substrings_ : list Str;
  simple_hint_ : bool
}.

(** The loop that makes the substrings. *)
Fixpoint compile_loop (replacement : Str) (parts : list ReplacementPart) (substrings : list Str) (substring_index : Z)
    : list ReplacementPart * list Str :=
  match parts with
  | [] => ([], substrings)
  | part :: parts =>
      if tag part <=? 0 then
        let from := - tag part in
        let to := data part in
        let '(parts, result) :=
          compile_loop replacement parts (substrings ++ [NewSubString replacement from to]) (substring_index + 1) in
        (mkPart REPLACEMENT_SUBSTRING substring_index :: parts, result)
      else if tag part =? REPLACEMENT_STRING then
        let '(parts, result) := compile_loop replacement parts (substrings ++ [replacement]) (substring_index + 1) in
        (mkPart REPLACEMENT_STRING substring_index :: parts, result)
      else
        let '(parts, result) := compile_loop replacement parts substrings substring_index in (part :: parts, result)
  end.

Definition Compile (replacement : Str) (capture_count subject_length : Z) : Res CompiledReplacement :=
  '(parts, simple_hint) ← of_option (ParseReplacementPattern (chars replacement) capture_count subject_length);
  let '(parts, substrings) := compile_loop replacement parts [] 0 in
  Ok (mkCompiled parts substrings simple_hint).

(** [last_match_info] is the array of the captures, two registers each. *)
Definition GetCapture (match_info : list Z) (index : Z) : Res Z := of_option (at_ match_info index).

Fixpoint Apply (substrings : list Str) (parts : list ReplacementPart) (builder : ReplacementStringBuilder)
    (match_from match_to : Z) (match_info : list Z) : Res ReplacementStringBuilder :=
  match parts with
  | [] => Ok builder
  | part :: parts =>
      builder ←
        (if tag part =? SUBJECT_PREFIX then
           if 0 <? match_from then AddSubjectSlice builder 0 match_from else Ok builder
         else if tag part =? SUBJECT_SUFFIX then
           let subject_length := data part in
           if match_to <? subject_length then AddSubjectSlice builder match_to subject_length else Ok builder
         else if tag part =? SUBJECT_CAPTURE then
           let capture := data part in
           from ← GetCapture match_info (capture * 2);
           to ← GetCapture match_info (capture * 2 + 1);
           if (0 <=? from) && (from <? to) then AddSubjectSlice builder from to else Ok builder
         else if (tag part =? REPLACEMENT_SUBSTRING) || (tag part =? REPLACEMENT_STRING) then
           s ← of_option (if 0 <=? data part then substrings !! Z.to_nat (data part) else None);
           AddString builder s
         else Err Fault);
      Apply substrings parts builder match_from match_to match_info
  end.

(** ** The reference: the dollar forms *)

Inductive Token := Literal (c : Z) | Prefix | Suffix | Capture (n : Z).

Definition digit (c : Z) : bool := (48 <=? c) && (c <=? 57).

(** What follows a dollar: the token, and whether it takes a second character. *)
Definition dollar (capture_count : Z) (l : list Z) : option (Token * bool) :=
  match l with
  | [] => None
  | c2 :: rest =>
      if c2 =? 36 then Some (Literal 36, false)
      else if c2 =? 96 then Some (Prefix, false)
      else if c2 =? 39 then Some (Suffix, false)
      else if c2 =? 38 then Some (Capture 0, false)
      else if digit c2 then
        let one := c2 - 48 in
        let two := match rest with
                   | c3 :: _ => if digit c3 && (one * 10 + c3 - 48 <=? capture_count) then Some (one * 10 + c3 - 48) else None
                   | [] => None
                   end in
        match two with
        | Some n => if 0 <? n then Some (Capture n, true) else None
        | None => if (0 <? one) && (one <=? capture_count) then Some (Capture one, false) else None
        end
      else None
  end.

(** The tokens of a replacement string; a dollar that begins no form stands for itself. *)
Fixpoint tokens (capture_count : Z) (l : list Z) : list Token :=
  match l with
  | [] => []
  | c :: l =>
      if c =? 36 then
        match dollar capture_count l with
        | None => Literal c :: tokens capture_count l
        | Some (token, two) =>
            token :: match l with
                     | [] => []
                     | _ :: l1 => if two then match l1 with [] => [] | _ :: l2 => tokens capture_count l2 end
                                  else tokens capture_count l1
                     end
        end
      else Literal c :: tokens capture_count l
  end.

(** The text of a token for a match with the captures [info]. *)
Definition render (subject info : list Z) (token : Token) : list Z :=
  match token with
  | Literal c => [c]
  | Prefix => slice subject 0 (ch info 0)
  | Suffix => slice subject (ch info 1) (len subject)
  | Capture n =>
      if (0 <=? ch info (2 * n)) && (ch info (2 * n) <? ch info (2 * n + 1)) then slice subject (ch info (2 * n)) (ch info (2 * n + 1))
      else []
  end.

Definition render_all (subject info : list Z) (l : list Token) : list Z := concat (map (render subject info) l).

(** ** The parser against the reference *)

Section parsing.
Context (characters : list Z) (capture_count subject_length : Z).

(** The tokens of a part, before and after the compilation. *)
Definition part_tokens (part : ReplacementPart) : list Token :=
  if tag part <=? 0 then map Literal (slice characters (- tag part) (data part))
  else if tag part =? SUBJECT_PREFIX then [Prefix]
  else if tag part =? SUBJECT_SUFFIX then [Suffix]
  else if tag part =? SUBJECT_CAPTURE then [Capture (data part)]
  else map Literal characters.

Definition parts_tokens (parts : list ReplacementPart) : list Token := concat (map part_tokens parts).

Definition part_ok (part : ReplacementPart) : Prop :=
  (tag part <= 0 /\ - tag part < data part <= len characters)
  \/ tag part = SUBJECT_PREFIX \/ (tag part = SUBJECT_SUFFIX /\ data part = subject_length)
  \/ (tag part = SUBJECT_CAPTURE /\ 0 <= data part <= capture_count)
  \/ (tag part = REPLACEMENT_STRING /\ 0 < len characters).

Lemma drop_ch (l : list Z) i : 0 <= i < len l -> drop (Z.to_nat i) l = ch l i :: drop (Z.to_nat (i + 1)) l.
Proof.
  intros Hi. pose proof (at_ch l i Hi) as H. unfold at_ in H. destruct (Z.leb_spec 0 i); [|lia].
  rewrite (drop_S _ _ _ H). do 2 f_equal. lia.
Qed.

Lemma drop_end (l : list Z) i : len l <= i -> drop (Z.to_nat i) l = [].
Proof. intros Hi. apply drop_ge. unfold len in Hi. lia. Qed.

Lemma slice_snoc (l : list Z) a b : 0 <= a <= b -> b < len l -> slice l a (b + 1) = slice l a b ++ [ch l b].
Proof.
  intros H1 H2. apply (app_inv_tail (drop (Z.to_nat (b + 1)) l)). rewrite slice_drop by lia.
  rewrite <- (slice_drop l a b) by lia. by rewrite (drop_ch l b), <- app_assoc by lia.
Qed.

Lemma parts_tokens_app a b : parts_tokens (a ++ b) = parts_tokens a ++ parts_tokens b.
Proof. unfold parts_tokens. by rewrite map_app, concat_app. Qed.

Lemma slice_empty (l : list Z) a : slice l a a = [].
Proof. unfold slice. by rewrite Z.sub_diag. Qed.

(** Where the loop stands: the parts and the pending text are the tokens up to [i]. *)
Definition parsed (i last : Z) (parts : list ReplacementPart) : Prop :=
  parts_tokens parts ++ map Literal (slice characters last i) ++ tokens capture_count (drop (Z.to_nat i) characters)
    = tokens capture_count characters
  /\ 0 <= last <= i /\ i <= len characters /\ Forall part_ok parts /\ (last = 0 -> parts = []).

(** The pending text becomes a part. *)
Lemma flush_spec i last parts :
  0 <= last <= i -> i <= len characters -> Forall part_ok parts ->
  let flushed := if last <? i then parts ++ [ReplacementSubString last i] else parts in
  parts_tokens flushed = parts_tokens parts ++ map Literal (slice characters last i) /\ Forall part_ok flushed.
Proof.
  intros Hl Hi Hp. cbn zeta. destruct (Z.ltb_spec last i) as [Hlt|Hge].
  - rewrite parts_tokens_app. split.
    + unfold parts_tokens at 2. cbn. unfold part_tokens. cbn [tag data ReplacementSubString].
      destruct (Z.leb_spec (- last) 0); [|lia]. by rewrite Z.opp_involutive, app_nil_r.
    + apply Forall_app. split; [done|]. apply Forall_singleton. left. cbn. lia.
  - replace i with last by lia. rewrite slice_empty. cbn. rewrite app_nil_r. by split.
Qed.

(** A form of [n] characters from [i] adds a part for its token. *)
Lemma parsed_token i last parts part token n :
  parsed i last parts -> 0 < n -> i + n <= len characters -> part_tokens part = [token] -> part_ok part ->
  tokens capture_count (drop (Z.to_nat i) characters) = token :: tokens capture_count (drop (Z.to_nat (i + n)) characters) ->
  parsed (i + n) (i + n) ((if last <? i then parts ++ [ReplacementSubString last i] else parts) ++ [part]).
Proof.
  intros (Ht & Hl & Hi & Hp & _) Hn Hin Hpt Hpo E. destruct (flush_spec i last parts Hl Hi Hp) as [Hf Hfo].
  split; [|split; [lia|split; [lia|split]]].
  - rewrite parts_tokens_app, Hf, slice_empty. unfold parts_tokens at 2. cbn [map concat app]. rewrite Hpt. cbn [app].
    rewrite <- Ht, E, <- !app_assoc. done.
  - apply Forall_app. split; [done|]. by apply Forall_singleton.
  - lia.
Qed.

(** Characters that stand for themselves are left pending. *)
Lemma parsed_literals n i last parts :
  parsed i last parts -> 0 <= n -> i + n <= len characters ->
  tokens capture_count (drop (Z.to_nat i) characters)
    = map Literal (slice characters i (i + n)) ++ tokens capture_count (drop (Z.to_nat (i + n)) characters) ->
  parsed (i + n) last parts.
Proof.
  intros (Ht & Hl & Hi & Hp & H0) Hn Hin E. split; [|split; [lia|split; [lia|done]]].
  rewrite <- Ht, E, !app_assoc. f_equal. rewrite <- !app_assoc. f_equal. rewrite <- map_app. f_equal.
  apply (app_inv_tail (drop (Z.to_nat (i + n)) characters)). rewrite <- app_assoc, !slice_drop by lia. done.
Qed.

(** The tokens at a dollar. *)
Lemma tokens_dollar i :
  0 <= i < len characters -> ch characters i = 36 ->
  tokens capture_count (drop (Z.to_nat i) characters)
  = match dollar capture_count (drop (Z.to_nat (i + 1)) characters) with
    | None => Literal 36 :: tokens capture_count (drop (Z.to_nat (i + 1)) characters)
    | Some (token, two) => token :: tokens capture_count (drop (Z.to_nat (i + if two then 3 else 2)) characters)
    end.
Proof.
  intros Hi E. rewrite (drop_ch characters i Hi), E. cbn [tokens]. change (36 =? 36) with true. cbn match.
  destruct (dollar _ _) as [[token two]|] eqn:Ed; [|done]. f_equal.
  destruct (Z.lt_ge_cases (i + 1) (len characters)) as [Hlt|Hge].
  - rewrite (drop_ch characters (i + 1)) by lia. replace (i + 1 + 1) with (i + 2) by lia. destruct two; [|done].
    destruct (Z.lt_ge_cases (i + 2) (len characters)).
    + rewrite (drop_ch characters (i + 2)) by lia. do 2 f_equal. lia.
    + rewrite !drop_end by lia. done.
  - by rewrite drop_end in Ed by lia.
Qed.

Lemma tokens_literal i :
  0 <= i < len characters -> ch characters i <> 36 ->
  tokens capture_count (drop (Z.to_nat i) characters)
  = map Literal (slice characters i (i + 1)) ++ tokens capture_count (drop (Z.to_nat (i + 1)) characters).
Proof.
  intros Hi E. rewrite slice_snoc, slice_empty by lia. rewrite (drop_ch characters i Hi). cbn [tokens app map].
  by destruct (Z.eqb_spec (ch characters i) 36).
Qed.

(** A dollar that begins no form, and the character after it. *)
Lemma tokens_no_form i :
  0 <= i -> i + 1 < len characters -> ch characters i = 36 -> ch characters (i + 1) <> 36 ->
  dollar capture_count (drop (Z.to_nat (i + 1)) characters) = None ->
  tokens capture_count (drop (Z.to_nat i) characters)
  = map Literal (slice characters i (i + 2)) ++ tokens capture_count (drop (Z.to_nat (i + 2)) characters).
Proof.
  intros Hi Hi1 E E1 Ed. rewrite tokens_dollar, Ed, tokens_literal by lia || done.
  replace (i + 2) with (i + 1 + 1) by lia. rewrite (slice_snoc characters i (i + 1)), (slice_snoc characters i i), slice_empty by lia.
  rewrite (slice_snoc characters (i + 1) (i + 1)), slice_empty by lia. rewrite E. done.
Qed.

(** The digits after a dollar. *)
Lemma capture_digits_spec i :
  0 <= i -> i + 1 < len characters -> digit (ch characters (i + 1)) = true -> ch characters (i + 1) - 48 <= capture_count ->
  exists next r, capture_digits characters capture_count (i + 1) (ch characters (i + 1) - 48) = Some (next, r)
    /\ (next = i + 1 \/ next = i + 2 /\ next < len characters) /\ 0 <= r <= capture_count
    /\ dollar capture_count (drop (Z.to_nat (i + 1)) characters)
       = (if 0 <? r then Some (Capture r, negb (next =? i + 1)) else None)
    /\ (r = 0 -> next = i + 2 -> ch characters (i + 2) = 48).
Proof.
  intros Hi Hi1 Hd Hc. unfold capture_digits. rewrite (drop_ch characters (i + 1)) by lia.
  replace (i + 1 + 1) with (i + 2) by lia. set (c2 := ch characters (i + 1)) in *.
  assert (Hr : 48 <= c2 <= 57) by (unfold digit in Hd; apply andb_true_iff in Hd as [H1%Z.leb_le H2%Z.leb_le]; lia).
  assert (Hdol : forall rest, dollar capture_count (c2 :: rest) =
    match (match rest with
           | c3 :: _ => if digit c3 && ((c2 - 48) * 10 + c3 - 48 <=? capture_count) then Some ((c2 - 48) * 10 + c3 - 48) else None
           | [] => None end) with
    | Some n => if 0 <? n then Some (Capture n, true) else None
    | None => if 0 <? c2 - 48 then Some (Capture (c2 - 48), false) else None
    end).
  { intros rest. cbn [dollar]. rewrite Hd. destruct (Z.eqb_spec c2 36), (Z.eqb_spec c2 96), (Z.eqb_spec c2 39), (Z.eqb_spec c2 38); try lia.
    destruct (match rest with [] => None | _ => _ end); [done|]. destruct (Z.leb_spec (c2 - 48) capture_count); [|lia].
    by rewrite andb_true_r. }
  assert (Hone : forall rest, (match rest with
           | c3 :: _ => if digit c3 && ((c2 - 48) * 10 + c3 - 48 <=? capture_count) then Some ((c2 - 48) * 10 + c3 - 48) else None
           | [] => None end) = None ->
    exists next r, Some (i + 1, c2 - 48) = Some (next, r) /\ (next = i + 1 \/ next = i + 2 /\ next < len characters)
      /\ 0 <= r <= capture_count /\ dollar capture_count (c2 :: rest) = (if 0 <? r then Some (Capture r, negb (next =? i + 1)) else None)
      /\ (r = 0 -> next = i + 2 -> ch characters (i + 2) = 48)).
  { intros rest E. exists (i + 1), (c2 - 48). split; [done|]. split; [by left|]. split; [lia|]. split; [|lia].
    rewrite Hdol, E. by rewrite Z.eqb_refl. }
  destruct (Z.ltb_spec (i + 2) (len characters)) as [Hlt|Hge]; [|by rewrite (drop_end characters (i + 2)) by lia; apply Hone].
  rewrite at_ch by lia. cbn [mbind option_bind]. rewrite (drop_ch characters (i + 2)) by lia. fold (digit (ch characters (i + 2))).
  destruct (digit (ch characters (i + 2))) eqn:E3; [|apply Hone; by rewrite E3].
  destruct (Z.leb_spec ((c2 - 48) * 10 + ch characters (i + 2) - 48) capture_count) as [Hle|Hgt].
  - unfold digit in E3. apply andb_true_iff in E3 as [H1%Z.leb_le H2%Z.leb_le].
    eexists _, _. split; [done|]. split; [right; lia|]. split; [lia|]. split; [|lia].
    rewrite Hdol. unfold digit. destruct (Z.leb_spec 48 (ch characters (i + 2))), (Z.leb_spec (ch characters (i + 2)) 57); try lia.
    destruct (Z.leb_spec ((c2 - 48) * 10 + ch characters (i + 2) - 48) capture_count); [|lia]. cbn [andb].
    by destruct (Z.eqb_spec (i + 2) (i + 1)); [lia|].
  - apply Hone. rewrite E3. cbn [andb]. destruct (Z.leb_spec ((c2 - 48) * 10 + ch characters (i + 2) - 48) capture_count); [lia|done].
Qed.

Lemma dollar_too_big i :
  0 <= capture_count -> 0 <= i -> i + 1 < len characters -> digit (ch characters (i + 1)) = true ->
  capture_count < ch characters (i + 1) - 48 -> dollar capture_count (drop (Z.to_nat (i + 1)) characters) = None.
Proof.
  intros H0 Hi Hi1 Hd Hc. rewrite (drop_ch characters (i + 1)) by lia. cbn [dollar]. rewrite Hd.
  set (c2 := ch characters (i + 1)) in *.
  assert (Hr : 48 <= c2 <= 57) by (unfold digit in Hd; apply andb_true_iff in Hd as [H1%Z.leb_le H2%Z.leb_le]; lia).
  destruct (Z.eqb_spec c2 36), (Z.eqb_spec c2 96), (Z.eqb_spec c2 39), (Z.eqb_spec c2 38); try lia.
  destruct (Z.leb_spec (c2 - 48) capture_count); [lia|]. rewrite andb_false_r.
  destruct (drop _ _) as [|c3 rest]; [done|]. destruct (digit c3) eqn:E3; [|done]. cbn [andb].
  unfold digit in E3. apply andb_true_iff in E3 as [H1%Z.leb_le H2%Z.leb_le].
  destruct (Z.leb_spec ((c2 - 48) * 10 + c3 - 48) capture_count); [lia|done].
Qed.

(** Two dollars. *)
Lemma parsed_dollars i last parts :
  parsed i last parts -> i + 1 < len characters -> ch characters i = 36 -> ch characters (i + 1) = 36 ->
  if last <? i then parsed (i + 2) (i + 2) (parts ++ [ReplacementSubString last (i + 1)]) else parsed (i + 2) (i + 1) parts.
Proof.
  intros (Ht & Hl & Hi & Hp & H0) Hi1 E E1.
  assert (Et : tokens capture_count (drop (Z.to_nat i) characters) = Literal 36 :: tokens capture_count (drop (Z.to_nat (i + 2)) characters)).
  { rewrite tokens_dollar by lia || done. rewrite (drop_ch characters (i + 1)), E1 by lia. done. }
  destruct (Z.ltb_spec last i) as [Hlt|Hge].
  - split; [|split; [lia|split; [lia|split; [|lia]]]].
    + rewrite <- Ht, Et, parts_tokens_app, slice_empty, <- !app_assoc. f_equal. unfold parts_tokens. cbn [map concat app].
      unfold part_tokens. cbn [tag data ReplacementSubString]. destruct (Z.leb_spec (- last) 0); [|lia].
      rewrite Z.opp_involutive, slice_snoc, map_app, E by lia. by rewrite app_nil_r, <- app_assoc.
    + apply Forall_app. split; [done|]. apply Forall_singleton. left. cbn. lia.
  - split; [|split; [lia|split; [lia|split; [done|lia]]]].
    rewrite <- Ht, Et. f_equal. replace last with i by lia. rewrite slice_empty.
    replace (i + 2) with (i + 1 + 1) at 1 by lia. rewrite slice_snoc, slice_empty, E1 by lia. done.
Qed.

(** The forms of one character. *)
Lemma dollar_form i c token :
  0 <= i -> i + 1 < len characters -> ch characters i = 36 -> ch characters (i + 1) = c ->
  (forall rest, dollar capture_count (c :: rest) = Some (token, false)) ->
  tokens capture_count (drop (Z.to_nat i) characters) = token :: tokens capture_count (drop (Z.to_nat (i + 2)) characters).
Proof.
  intros Hi Hi1 E E1 Ed. rewrite tokens_dollar by lia || done. by rewrite (drop_ch characters (i + 1)), E1, Ed by lia.
Qed.

Lemma dollar_other i :
  0 <= i -> i + 1 < len characters -> ch characters (i + 1) <> 36 -> ch characters (i + 1) <> 96 -> ch characters (i + 1) <> 39 ->
  ch characters (i + 1) <> 38 -> digit (ch characters (i + 1)) = false ->
  dollar capture_count (drop (Z.to_nat (i + 1)) characters) = None.
Proof.
  intros Hi Hi1 N1 N2 N3 N4 N5. rewrite (drop_ch characters (i + 1)) by lia. cbn [dollar]. rewrite N5.
  by destruct (Z.eqb_spec (ch characters (i + 1)) 36), (Z.eqb_spec (ch characters (i + 1)) 96),
    (Z.eqb_spec (ch characters (i + 1)) 39), (Z.eqb_spec (ch characters (i + 1)) 38).
Qed.

Hypothesis Hcap : 0 <= capture_count.

Lemma parse_loop_spec fuel : forall i last parts,
  parsed i last parts -> len characters - i < Z.of_nat fuel ->
  exists parts' last', parse_loop characters capture_count subject_length fuel i last parts = Some (parts', last')
    /\ parsed (len characters) last' parts'.
Proof.
  induction fuel as [|fuel IH]; intros i last parts Hps Hf; [destruct Hps as (_ & ? & ? & _); lia|].
  pose proof Hps as (_ & Hl & Hi & _). cbn [parse_loop].
  destruct (Z.ltb_spec i (len characters)) as [Hlt|Hge].
  2: { replace i with (len characters) in Hps by lia. by exists parts, last. }
  rewrite (at_ch characters i) by lia. cbn [mbind option_bind]. destruct (Z.eqb_spec (ch characters i) 36) as [E|Hne].
  2: { apply IH; [|lia]. apply (parsed_literals 1); [done|lia|lia|]. apply tokens_literal; [lia|done]. }
  destruct (Z.eqb_spec (i + 1) (len characters)) as [Hend|Hnend].
  { exists parts, last. split; [done|]. rewrite <- Hend. apply (parsed_literals 1); [done|lia|lia|].
    rewrite tokens_dollar, (drop_end characters (i + 1)), slice_snoc, slice_empty, E by lia || done. done. }
  rewrite (at_ch characters (i + 1)) by lia. cbn [mbind option_bind]. replace (i + 1 + 1) with (i + 2) by lia.
  destruct (Z.eqb_spec (ch characters (i + 1)) 36) as [E1|N1].
  { pose proof (parsed_dollars i last parts Hps ltac:(lia) E E1) as Hd. destruct (last <? i); apply IH; done || lia. }
  destruct (Z.eqb_spec (ch characters (i + 1)) 96) as [E2|N2].
  { apply IH; [|lia]. apply (parsed_token i last parts _ Prefix); [done|lia|lia|done|by right; left|]. by apply (dollar_form _ 96); [lia|lia|..]. }
  destruct (Z.eqb_spec (ch characters (i + 1)) 39) as [E3|N3].
  { apply IH; [|lia]. apply (parsed_token i last parts _ Suffix); [done|lia|lia|done|by right; right; left|]. by apply (dollar_form _ 39); [lia|lia|..]. }
  destruct (Z.eqb_spec (ch characters (i + 1)) 38) as [E4|N4].
  { apply IH; [|lia]. apply (parsed_token i last parts _ (Capture 0)); [done|lia|lia|done|right; right; right; left; cbn; lia|].
    by apply (dollar_form _ 38); [lia|lia|..]. }
  fold (digit (ch characters (i + 1))). destruct (digit (ch characters (i + 1))) eqn:E5.
  2: { apply IH; [|lia]. apply (parsed_literals 2); [done|lia|lia|]. apply tokens_no_form; [lia|lia|done|done|]. by apply dollar_other; [lia|lia|..]. }
  destruct (Z.ltb_spec capture_count (ch characters (i + 1) - 48)) as [Hbig|Hok].
  { apply IH; [|lia]. apply (parsed_literals 2); [done|lia|lia|]. apply tokens_no_form; [lia|lia|done|done|]. by apply dollar_too_big; [|lia|lia|..]. }
  destruct (capture_digits_spec i) as (next & r & -> & Hn & Hr & Ed & Hz); [lia|lia|done|done|]. cbn [mbind option_bind].
  destruct (Z.ltb_spec 0 r) as [Hpos|Hzero].
  - replace (next + 1) with (i + (next + 1 - i)) by lia. apply IH; [|lia].
    apply (parsed_token i last parts _ (Capture r)); [done|lia|lia|done|right; right; right; left; cbn; lia|].
    rewrite tokens_dollar, Ed by lia || done. f_equal. do 3 f_equal.
    destruct Hn as [->|[-> _]]; [rewrite Z.eqb_refl; cbn; lia|]. destruct (Z.eqb_spec (i + 2) (i + 1)); cbn; lia.
  - apply IH; [|lia]. assert (H2 : tokens capture_count (drop (Z.to_nat i) characters)
      = map Literal (slice characters i (i + 2)) ++ tokens capture_count (drop (Z.to_nat (i + 2)) characters)) by (by apply tokens_no_form; [lia|lia|..]).
    destruct Hn as [->|[-> Hn]].
    + replace (i + 1 + 1) with (i + 2) by lia. by apply (parsed_literals 2); [|lia|lia|].
    + replace (i + 2 + 1) with (i + 2 + 1) by lia. apply (parsed_literals 1); [by apply (parsed_literals 2); [|lia|lia|]|lia|lia|].
      apply tokens_literal; [lia|]. rewrite Hz by lia. done.
Qed.

Lemma parsed_start : parsed 0 0 [].
Proof. split; [by rewrite slice_empty|]. split; [lia|]. split; [apply len_nonneg|]. by split. Qed.

(** The parts of the pattern are its tokens; the hint says that the only part is the string itself. *)
Lemma ParseReplacementPattern_spec :
  exists parts hint, ParseReplacementPattern characters capture_count subject_length = Some (parts, hint)
    /\ parts_tokens parts = tokens capture_count characters /\ Forall part_ok parts
    /\ (hint = true -> tokens capture_count characters = map Literal characters).
Proof.
  unfold ParseReplacementPattern. destruct (parse_loop_spec (S (length characters)) 0 0 [] parsed_start) as (parts & last & -> & Hp).
  { unfold len. lia. }
  cbn [mbind option_bind]. destruct Hp as (Ht & Hl & _ & Hpo & H0). rewrite drop_end in Ht by lia. cbn [tokens] in Ht. rewrite app_nil_r in Ht.
  destruct (Z.ltb_spec last (len characters)) as [Hlt|Hge].
  - destruct (Z.eqb_spec last 0) as [->|Hne].
    + specialize (H0 eq_refl) as ->. rewrite slice_all in Ht. cbn in Ht. eexists _, _. split; [done|].
      split; [by rewrite <- Ht; unfold parts_tokens; cbn; rewrite app_nil_r|]. split; [|done].
      apply Forall_singleton. right. right. right. right. split; [done|lia].
    + eexists _, _. split; [done|]. pose proof (flush_spec (len characters) last parts ltac:(lia) ltac:(lia) Hpo) as Hf. cbn zeta in Hf.
      destruct (Z.ltb_spec last (len characters)); [|lia]. destruct Hf as [Hf Hfo]. by rewrite Hf.
  - eexists _, _. split; [done|]. replace last with (len characters) in Ht by lia. rewrite slice_empty, app_nil_r in Ht. by split.
Qed.
End parsing.

(** ** The compiled parts *)

Section compiling.
Context (replacement : Str) (capture_count subject_length : Z).
Hypothesis Hrep : str_ok replacement.

Definition compiled_tokens (substrings : list Str) (part : ReplacementPart) : list Token :=
  if tag part =? SUBJECT_PREFIX then [Prefix]
  else if tag part =? SUBJECT_SUFFIX then [Suffix]
  else if tag part =? SUBJECT_CAPTURE then [Capture (data part)]
  else match substrings !! Z.to_nat (data part) with Some s => map Literal (chars s) | None => [] end.

Definition compiled_ok (substrings : list Str) (part : ReplacementPart) : Prop :=
  tag part = SUBJECT_PREFIX
  \/ (tag part = SUBJECT_SUFFIX /\ data part = subject_length)
  \/ (tag part = SUBJECT_CAPTURE /\ 0 <= data part <= capture_count)
  \/ ((tag part = REPLACEMENT_SUBSTRING \/ tag part = REPLACEMENT_STRING) /\ 0 <= data part
      /\ exists s, substrings !! Z.to_nat (data part) = Some s /\ str_ok s /\ 0 < str_length s).

Lemma NewSubString_spec from to :
  chars (NewSubString replacement from to) = slice (chars replacement) from to /\ str_ok (NewSubString replacement from to).
Proof.
  unfold NewSubString. destruct (Z.eqb_spec from 0), (Z.eqb_spec to (str_length replacement)); cbn [andb];
    try (split; [done|by apply AllocateSubString_ok]).
  subst. unfold str_length. by rewrite slice_all.
Qed.

(** A substring that is found by the index of its part. *)
Lemma compiled_substring substrings new s tag_ :
  (tag_ = REPLACEMENT_SUBSTRING \/ tag_ = REPLACEMENT_STRING) -> str_ok s -> 0 < str_length s ->
  let part := mkPart tag_ (Z.of_nat (length substrings)) in
  compiled_ok ((substrings ++ [s]) ++ new) part /\ compiled_tokens ((substrings ++ [s]) ++ new) part = map Literal (chars s).
Proof.
  intros Ht Hs Hl. cbn zeta.
  assert (E : ((substrings ++ [s]) ++ new) !! Z.to_nat (Z.of_nat (length substrings)) = Some s).
  { rewrite Nat2Z.id, <- app_assoc. cbn. by apply list_lookup_middle. }
  split.
  - right. right. right. cbn. split; [done|]. split; [lia|]. by exists s.
  - unfold compiled_tokens. cbn [tag data]. rewrite E. by destruct Ht as [->| ->].
Qed.

Lemma compile_loop_spec parts : forall substrings,
  Forall (part_ok (chars replacement) capture_count subject_length) parts ->
  exists parts' new, compile_loop replacement parts substrings (Z.of_nat (length substrings)) = (parts', substrings ++ new)
    /\ Forall (compiled_ok (substrings ++ new)) parts' /\ length parts' = length parts
    /\ concat (map (compiled_tokens (substrings ++ new)) parts') = parts_tokens (chars replacement) parts.
Proof.
  induction parts as [|part parts IH]; intros substrings Hp; cbn [compile_loop].
  { exists [], []. by rewrite app_nil_r. }
  apply Forall_cons in Hp as [Hp Hps]. unfold parts_tokens. cbn [map concat]. fold (parts_tokens (chars replacement) parts).
  (* a part that is a substring [s] of the replacement *)
  assert (Hsub : forall s tag_, (tag_ = REPLACEMENT_SUBSTRING \/ tag_ = REPLACEMENT_STRING) -> str_ok s -> 0 < str_length s ->
    part_tokens (chars replacement) part = map Literal (chars s) ->
    exists parts' new, (let '(ps, result) := compile_loop replacement parts (substrings ++ [s]) (Z.of_nat (length substrings) + 1) in
        (mkPart tag_ (Z.of_nat (length substrings)) :: ps, result)) = (parts', substrings ++ new)
      /\ Forall (compiled_ok (substrings ++ new)) parts' /\ length parts' = S (length parts)
      /\ concat (map (compiled_tokens (substrings ++ new)) parts')
         = part_tokens (chars replacement) part ++ parts_tokens (chars replacement) parts).
  { intros s tag_ Ht Hs Hl Et. destruct (IH (substrings ++ [s]) Hps) as (ps & new & E & Hok & Hlen & Htok).
    replace (Z.of_nat (length (substrings ++ [s]))) with (Z.of_nat (length substrings) + 1) in E by (rewrite length_app; cbn; lia).
    rewrite E. destruct (compiled_substring substrings new s tag_ Ht Hs Hl) as [Hok1 Htok1].
    rewrite <- app_assoc in *. eexists _, _. split; [done|]. split; [by constructor|]. split; [cbn; lia|].
    cbn [map concat]. by rewrite Htok1, Htok, Et. }
  destruct (Z.leb_spec (tag part) 0) as [Hle|Hgt].
  - destruct Hp as [(_ & Hp)|Hp].
    2: { unfold SUBJECT_PREFIX, SUBJECT_SUFFIX, SUBJECT_CAPTURE, REPLACEMENT_STRING in Hp. lia. }
    destruct (NewSubString_spec (- tag part) (data part)) as [Ec Hs]. apply Hsub; [by left|done| |].
    + unfold str_length. rewrite Ec, len_slice; lia.
    + unfold part_tokens. destruct (Z.leb_spec (tag part) 0); [|lia]. by rewrite Ec.
  - destruct (Z.eqb_spec (tag part) REPLACEMENT_STRING) as [E|Hne].
    + destruct Hp as [Hp|[Hp|[Hp|[Hp|Hp]]]];
        unfold SUBJECT_PREFIX, SUBJECT_SUFFIX, SUBJECT_CAPTURE, REPLACEMENT_STRING in Hp, E; try lia.
      apply Hsub; [by right|done|apply Hp|]. unfold part_tokens. rewrite E. done.
    + destruct (IH substrings Hps) as (ps & new & E & Hok & Hlen & Htok). rewrite E. eexists _, _. split; [done|].
      assert (Hc : compiled_ok (substrings ++ new) part).
      { destruct Hp as [Hp|[Hp|[Hp|[Hp|Hp]]]]; [lia|by left|by right; left|by right; right; left|].
        unfold REPLACEMENT_STRING in *. lia. }
      split; [by constructor|]. split; [cbn; lia|]. cbn [map concat]. rewrite Htok. f_equal.
      unfold compiled_tokens, part_tokens. destruct (Z.leb_spec (tag part) 0); [lia|].
      destruct (Z.eqb_spec (tag part) SUBJECT_PREFIX); [done|]. destruct (Z.eqb_spec (tag part) SUBJECT_SUFFIX); [done|].
      destruct (Z.eqb_spec (tag part) SUBJECT_CAPTURE); [done|].
      destruct Hp as [Hp|[Hp|[Hp|[Hp|Hp]]]]; [lia|done|by destruct Hp|by destruct Hp|by destruct Hp].
Qed.

Hypothesis Hcap : 0 <= capture_count.

(** What a compiled replacement is. *)
Definition compiled_for (compiled : CompiledReplacement) : Prop :=
  Forall (compiled_ok (replacement_substrings_ compiled)) (parts_ compiled)
  /\ concat (map (compiled_tokens (replacement_substrings_ compiled)) (parts_ compiled)) = tokens capture_count (chars replacement)
  /\ (simple_hint_ compiled = true -> tokens capture_count (chars replacement) = map Literal (chars replacement)).

Lemma Compile_spec : exists compiled, Compile replacement capture_count subject_length = Ok compiled /\ compiled_for compiled.
Proof.
  unfold Compile. destruct (ParseReplacementPattern_spec (chars replacement) capture_count subject_length Hcap)
    as (parts & hint & -> & Ht & Hp & Hh).
  cbn [of_option mbind Res_bind]. destruct (compile_loop_spec parts [] Hp) as (parts' & new & E & Hok & _ & Htok).
  cbn [length app] in *. change (Z.of_nat 0) with 0 in E. rewrite E. eexists. split; [done|]. split; [done|].
  cbn. split; [by rewrite Htok|done].
Qed.
End compiling.

(** ** Applying the parts to a match *)

(** The captures of a match, those of the groups possibly unset. *)
Definition info_ok (subject : list Z) (capture_count : Z) (info : list Z) : Prop :=
  0 <= ch info 0 <= ch info 1 /\ ch info 1 <= len subject /\ 2 * capture_count + 2 <= len info
  /\ forall n, 0 <= n <= capture_count -> ch info (2 * n + 1) <= len subject.

Lemma render_literals subject info l : render_all subject info (map Literal l) = l.
Proof. unfold render_all. induction l as [|c l IH]; [done|]. cbn. by rewrite IH. Qed.

Lemma render_all_app subject info a b : render_all subject info (a ++ b) = render_all subject info a ++ render_all subject info b.
Proof. unfold render_all. by rewrite map_app, concat_app. Qed.

(** A step that adds a slice, or nothing when it is empty. *)
Lemma slice_or_nothing b text from to :
  holds b text -> 0 <= from <= to -> to <= str_length (subject_ b) -> 2 <= room b ->
  appends b text (slice (chars (subject_ b)) from to) 2 (if from <? to then AddSubjectSlice b from to else Ok b).
Proof.
  intros Hh Hft Ht Hr. destruct (Z.ltb_spec from to).
  - by apply AddSubjectSlice_spec; [|lia|..].
  - replace to with from by lia. rewrite slice_empty. by apply appends_nil; [|lia].
Qed.

Lemma appends_weaken b text x n m r : appends b text x n r -> n <= m -> appends b text x m r.
Proof. intros H Hnm. destruct r as [b'|e]; [|done]. destruct H as (? & ? & ?). split; [done|]. split; [done|lia]. Qed.

Lemma GetCapture_ok info i : 0 <= i < len info -> GetCapture info i = Ok (ch info i).
Proof. intros Hi. unfold GetCapture. by rewrite at_ch. Qed.

Lemma Apply_spec subject capture_count substrings info parts : forall b text,
  0 <= capture_count -> Forall (compiled_ok capture_count (str_length subject) substrings) parts -> holds b text -> subject_ b = subject ->
  info_ok (chars subject) capture_count info -> 2 * Z.of_nat (length parts) <= room b ->
  appends b text (render_all (chars subject) info (concat (map (compiled_tokens substrings) parts))) (2 * Z.of_nat (length parts))
    (Apply substrings parts b (ch info 0) (ch info 1) info).
Proof.
  induction parts as [|part parts IH]; intros b text Hc Hp Hh Es Hi Hr; cbn [Apply map concat length].
  { by apply appends_nil. }
  cbn [length] in Hr. apply Forall_cons in Hp as [Hp Hps]. rewrite render_all_app. pose proof Hi as (H01 & Hend & Hlen & Hcaps).
  replace (2 * Z.of_nat (S (length parts))) with (2 + 2 * Z.of_nat (length parts)) in * by lia.
  apply appends_bind; [|intros b' Hh' Es' Hr'; apply IH; [done|done|done|congruence|done|lia]].
  unfold compiled_tokens, render_all. destruct Hp as [E|[(E & Ed)|[(E & Hd)|(E & Hd & s & Hs & Hsok & Hsl)]]].
  - rewrite E. cbn [Z.eqb Pos.eqb SUBJECT_PREFIX SUBJECT_SUFFIX SUBJECT_CAPTURE render map concat app]. rewrite app_nil_r. subst subject. by apply slice_or_nothing; [|lia|unfold str_length; lia|lia].
  - rewrite E, Ed. cbn [Z.eqb Pos.eqb SUBJECT_PREFIX SUBJECT_SUFFIX SUBJECT_CAPTURE render map concat app]. rewrite app_nil_r. subst subject. unfold str_length. by apply slice_or_nothing; [|lia|unfold str_length; lia|lia].
  - rewrite E. cbn [Z.eqb Pos.eqb SUBJECT_PREFIX SUBJECT_SUFFIX SUBJECT_CAPTURE render map concat app]. rewrite !GetCapture_ok by lia. cbn [mbind Res_bind]. rewrite app_nil_r, (Z.mul_comm (data part) 2).
    specialize (Hcaps (data part) Hd). subst subject. destruct (Z.leb_spec 0 (ch info (2 * data part))); cbn [andb].
    + destruct (Z.ltb_spec (ch info (2 * data part)) (ch info (2 * data part + 1))).
      * by apply AddSubjectSlice_spec; [|lia|unfold str_length; lia|lia].
      * by apply appends_nil.
    + by apply appends_nil.
  - assert (Et : (tag part =? SUBJECT_PREFIX) = false /\ (tag part =? SUBJECT_SUFFIX) = false /\ (tag part =? SUBJECT_CAPTURE) = false
      /\ (tag part =? REPLACEMENT_SUBSTRING) || (tag part =? REPLACEMENT_STRING) = true) by (by destruct E as [->| ->]).
    destruct Et as (-> & -> & -> & ->). rewrite Hs. destruct (Z.leb_spec 0 (data part)); [|lia]. cbn [of_option mbind Res_bind].
    fold (render_all (chars subject) info (map Literal (chars s))). rewrite render_literals.
    apply (appends_weaken _ _ _ 1); [|lia]. by apply AddString_spec; [| | |lia].
Qed.

(** ** The theorem *)

(** C20: What a match adds to the answer: the dollar forms of the replacement string, parsed with one scan, cut into
    substrings and applied part by part, append the text that the reference grammar of the forms gives - two-digit captures
    where there are that many, the text before and after the match, unset captures as nothing, a dollar that
    begins no form as itself - within the number of array elements that the loop provides for. *)
Theorem CompiledReplacement_forms replacement subject capture_count info builder text :
  str_ok replacement -> 0 <= capture_count -> holds builder text -> subject_ builder = subject ->
  info_ok (chars subject) capture_count info ->
  exists compiled, Compile replacement capture_count (str_length subject) = Ok compiled
    /\ (2 * Z.of_nat (length (parts_ compiled)) <= room builder ->
        appends builder text (render_all (chars subject) info (tokens capture_count (chars replacement)))
          (2 * Z.of_nat (length (parts_ compiled)))
          (Apply (replacement_substrings_ compiled) (parts_ compiled) builder (ch info 0) (ch info 1) info)).
Proof.
  intros Hr Hc Hh Es Hi. destruct (Compile_spec replacement capture_count (str_length subject) Hr Hc) as (compiled & -> & Hok & Ht & _).
  exists compiled. split; [done|]. intros Hroom. rewrite <- Ht. by apply (Apply_spec subject capture_count).
Qed.

(** [$2-$1$$$3'] for a match with two captures: the third reference is no form. *)
Lemma CompiledReplacement_forms_witness : exists compiled,
  Compile (mkStr false [36; 50; 45; 36; 49; 36; 36; 36; 51; 36; 39]) 2 5 = Ok compiled
  /\ appends (ReplacementStringBuilder_new (mkStr false [97; 98; 99; 100; 101]) 20) []
       (render_all [97; 98; 99; 100; 101] [1; 3; 1; 2; 2; 3] (tokens 2 [36; 50; 45; 36; 49; 36; 36; 36; 51; 36; 39])) 12
       (Apply (replacement_substrings_ compiled) (parts_ compiled)
          (ReplacementStringBuilder_new (mkStr false [97; 98; 99; 100; 101]) 20) 1 3 [1; 3; 1; 2; 2; 3])
  /\ render_all [97; 98; 99; 100; 101] [1; 3; 1; 2; 2; 3] (tokens 2 [36; 50; 45; 36; 49; 36; 36; 36; 51; 36; 39])
     = [99; 45; 98; 36; 36; 51; 100; 101].
Proof.
  destruct (CompiledReplacement_forms (mkStr false [36; 50; 45; 36; 49; 36; 36; 36; 51; 36; 39]) (mkStr false [97; 98; 99; 100; 101]) 2
    [1; 3; 1; 2; 2; 3] (ReplacementStringBuilder_new (mkStr false [97; 98; 99; 100; 101]) 20) []) as (compiled & E & H).
  - apply str_ok_intro; [repeat constructor; cbn; lia|by vm_compute].
  - lia.
  - apply ReplacementStringBuilder_new_spec, str_ok_intro; [repeat constructor; cbn; lia|by vm_compute].
  - done.
  - split; [by vm_compute|]. split; [by vm_compute|]. split; [by vm_compute|]. intros n Hn.
    assert (n = 0 \/ n = 1 \/ n = 2) as [->|[->| ->]] by lia; by vm_compute.
  - exists compiled. split; [exact E|]. remember (Compile _ _ _) as r eqn:Er. vm_compute in Er. subst r. injection E as <-.
    split; [|by vm_compute]. apply (H ltac:(by vm_compute)).
Defined.
