(* ===== verification/StringReplace.v ===== *)
(** * StringReplace: replacing the matches of a string or of a regular expression

    Models from src/runtime.cc the loop over the matches of a regular expression and
    the shortcut for the global replacement of a plain string.  What a regular
    expression matches is an interface here ([Matcher]), with the laws that the loop relies
    on ([MatcherOk]); [RegExpImpl::AtomExec] of src/jsregexp.cc is an implementation. *)

From S2P Require Import Prelude StringSearch StringSearchTables StringSearchCorrect StringMatching StringBuilder ReplacementPattern.

Open Scope Z_scope.

(** ** The shortcut for plain strings *)

Section memory.
Context (kHeaderSize : Z) (raw : Z -> list Z).

(** The loop over the matches: the string, and the ends of what has been read and written. *)
Fixpoint replace_indices (w : bool) (subject replacement : Str) (pattern_len : Z) (indices : list Z)
    (result : list Z) (subject_pos result_pos : Z) : Res (list Z * Z * Z) :=
  match indices with
  | [] => Ok (result, subject_pos, result_pos)
  | index :: indices =>
      let replacement_len := str_length replacement in
      '(result, result_pos) ←
        (if subject_pos <? index then
           result ← WriteToFlat w (chars subject) result result_pos subject_pos index;
           Ok (result, result_pos + (index - subject_pos))
         else Ok (result, result_pos));
      '(result, result_pos) ←
        (if 0 <? replacement_len then
           result ← WriteToFlat w (chars replacement) result result_pos 0 replacement_len;
           Ok (result, result_pos + replacement_len)
         else Ok (result, result_pos));
      replace_indices w subject replacement pattern_len indices result (index + pattern_len) result_pos
  end.

(** [w]: whether the result has two-byte characters. *)
Definition StringReplaceStringWithString (w : bool) (t : Tables) (subject pattern replacement : Str) : Res (Tables * Str) :=
  let subject_len := str_length subject in
  let pattern_len := str_length pattern in
  let replacement_len := str_length replacement in
  '(t, indices) ← of_option (FindStringIndicesDispatch t subject pattern (2 ^ 32 - 1));
  let matches := len indices in
  if matches =? 0 then Ok (t, subject)
  else
    let result_len := sint 32 ((replacement_len - pattern_len) * matches + subject_len) in
    result ← NewRawString kHeaderSize raw w result_len;
    '(result, subject_pos, result_pos) ← replace_indices w subject replacement pattern_len indices result 0 0;
    result ← (if subject_pos <? subject_len then WriteToFlat w (chars subject) result result_pos subject_pos subject_len
              else Ok result);
    Ok (t, mkStr w result).

(** ** Regular expressions *)

(** [RegExpImpl::Exec] from an index: the captures of the match, or none.  The state is what the
    matcher keeps between calls: the tables of the thread, the compiled code. *)
Class Matcher (St : Type) := Exec : St -> Z -> Res (St * option (list Z)).

Section regexp.
Context {St : Type} {M : Matcher St}.
Context (subject replacement : Str) (is_global : bool).

(** The body of the loop up to the next match. *)
Definition add_match (compiled : CompiledReplacement) (builder : ReplacementStringBuilder) (prev : Z) (info : list Z)
    : Res (ReplacementStringBuilder * Z * Z) :=
  let parts_added_per_loop := 2 * (Z.of_nat (length (parts_ compiled)) + 2) in
  builder ← BuilderEnsureCapacity builder parts_added_per_loop;
  start ← GetCapture info 0;
  end_ ← GetCapture info 1;
  builder ← (if prev <? start then AddSubjectSlice builder prev start else Ok builder);
  builder ← Apply (replacement_substrings_ compiled) (parts_ compiled) builder start end_ info;
  Ok (builder, start, end_).

Fixpoint replace_loop (fuel : nat) (compiled : CompiledReplacement) (builder : ReplacementStringBuilder) (prev : Z)
    (state : St) (info : list Z) : Res (ReplacementStringBuilder * Z * St * list Z) :=
  match fuel with
  | O => Err Fault
  | S fuel =>
      '(builder, start, end_) ← add_match compiled builder prev info;
      let prev := end_ in
      if negb is_global then Ok (builder, prev, state, info)
      else
        let next := if start =? end_ then end_ + 1 else end_ in
        if (start =? end_) && (str_length subject <? next) then Ok (builder, prev, state, info)
        else
          '(state, match_) ← Exec state next;
          match match_ with
          | None => Ok (builder, prev, state, info)
          | Some info => replace_loop fuel compiled builder prev state info
          end
  end.

(** The answer, with the state of the matcher.  [atom] is the pattern of a regular expression that is a plain
    string, with the tables that it is searched with. *)
Definition StringReplaceRegExpWithString (atom : option (Str * Tables)) (capture_count : Z) (state : St) : Res (St * Str) :=
  let length := str_length subject in
  '(state, match_) ← Exec state 0;
  match match_ with
  | None => Ok (state, subject)
  | Some info =>
      compiled ← Compile replacement capture_count length;
      match (if is_global && simple_hint_ compiled then atom else None) with
      | Some (pattern, t) =>
          '(t, answer) ← StringReplaceStringWithString (negb (HasOnlyAsciiChars subject && HasOnlyAsciiChars replacement))
                           t subject pattern replacement;
          Ok (state, answer)
      | None =>
          let expected_parts := (Z.of_nat (Datatypes.length (parts_ compiled)) + 1) * (if is_global then 4 else 1) + 1 in
          let builder := ReplacementStringBuilder_new subject expected_parts in
          '(builder, prev, state, info) ← replace_loop (S (S (Z.to_nat length))) compiled builder 0 state info;
          builder ← (if prev <? length then AddSubjectSlice builder prev length else Ok builder);
          answer ← ToString kHeaderSize raw builder;
          Ok (state, answer)
      end
  end.
End regexp.
End memory.

(** ** Atoms *)

(** [RegExpImpl::AtomExec]. *)
Definition AtomExec (subject needle : Str) (t : Tables) (index : Z) : Res (Tables * option (list Z)) :=
  let needle_len := str_length needle in
  '(t, index) ←
    (if negb (needle_len =? 0) then
       if str_length subject <? index + needle_len then Ok (t, None)
       else
         '(t, index) ← of_option (SearchString (two_byte needle) (two_byte subject) t (chars subject) (chars needle) index);
         Ok (t, if index =? -1 then None else Some index)
     else Ok (t, Some index));
  Ok (t, match index with Some index => Some [index; index + needle_len] | None => None end).

(** ** The loop over the matches *)

(** The text of a replacement, from [prev] on, for the matches [infos]. *)
Fixpoint replace_text (subject : list Z) (toks : list Token) (prev : Z) (infos : list (list Z)) : list Z :=
  match infos with
  | [] => slice subject prev (len subject)
  | info :: infos =>
      slice subject prev (ch info 0) ++ render_all subject info toks ++ replace_text subject toks (ch info 1) infos
  end.

(** What a matcher promises: a match begins at or after the index, and its captures lie in the subject. *)
Class MatcherOk {St : Type} (M : Matcher St) (subject : Str) (capture_count : Z) (inv : St -> Prop) : Prop :=
  exec_ok state next : inv state -> 0 <= next <= str_length subject ->
    match Exec state next with
    | Ok (state', None) => inv state'
    | Ok (state', Some info) => inv state' /\ info_ok (chars subject) capture_count info /\ next <= ch info 0
    | Err e => e = Exception
    end.

Section loop.
Context (kHeaderSize : Z) (raw : Z -> list Z).
Hypothesis raw_length : forall n, 0 <= n -> len (raw n) = n.
Hypothesis Hheader : 0 <= kHeaderSize <= kMaxSize.

Context {St : Type} {M : Matcher St}.
Context (subject replacement : Str) (is_global : bool) (capture_count : Z) (inv : St -> Prop).
Context {HM : MatcherOk M subject capture_count inv}.
Hypothesis Hsub : str_ok subject.
Hypothesis Hrep : str_ok replacement.
Hypothesis Hcap : 0 <= capture_count.

Let toks := tokens capture_count (chars replacement).

(** The index of the next match; after an empty match the search goes on one character further. *)
Definition next_index (info : list Z) : Z := if ch info 0 =? ch info 1 then ch info 1 + 1 else ch info 1.

Definition at_end (info : list Z) : Prop := ch info 0 = ch info 1 /\ str_length subject < ch info 1 + 1.

(** The matches after [info], with the matcher in [state]. *)
Inductive rest_of : St -> list Z -> list (list Z) -> Prop :=
  | rest_end state info : at_end info -> rest_of state info []
  | rest_none state info state' : ~ at_end info -> Exec state (next_index info) = Ok (state', None) -> rest_of state info []
  | rest_some state info state' info' l :
      ~ at_end info -> Exec state (next_index info) = Ok (state', Some info') -> rest_of state' info' l ->
      rest_of state info (info' :: l).

(** All matches, or the first one. *)
Definition all_matches (state : St) (infos : list (list Z)) : Prop :=
  match Exec state 0 with
  | Ok (_, None) => infos = []
  | Ok (state', Some info) => exists l, infos = info :: l /\ if is_global then rest_of state' info l else l = []
  | Err _ => False
  end.

(** The compiled replacement of the call. *)
Context (compiled : CompiledReplacement).
Hypothesis Hcomp : compiled_for replacement capture_count (str_length subject) compiled.

Lemma room_capacity b : 1 <= room b -> 0 < capacity (array_builder_ b).
Proof. unfold room, builder_length. lia. Qed.

Lemma add_match_spec builder text prev info :
  holds builder text -> subject_ builder = subject -> 0 < capacity (array_builder_ builder) ->
  info_ok (chars subject) capture_count info -> 0 <= prev <= ch info 0 ->
  match add_match compiled builder prev info with
  | Ok (b', start, end_) => start = ch info 0 /\ end_ = ch info 1 /\ subject_ b' = subject /\ 2 <= room b'
      /\ holds b' (text ++ slice (chars subject) prev (ch info 0) ++ render_all (chars subject) info toks)
  | Err e => e = FatalOutOfMemory
  end.
Proof.
  intros Hh Es Hc Hi Hprev. pose proof Hi as (H01 & Hend & Hlen & _). destruct Hcomp as (Hok & Htok & _). unfold add_match.
  destruct (BuilderEnsureCapacity_spec builder text (2 * (Z.of_nat (length (parts_ compiled)) + 2)) Hh Hc) as (b1 & -> & Hh1 & Es1 & Hr1 & _); [lia|].
  cbn [mbind Res_bind]. rewrite !GetCapture_ok by lia. cbn [mbind Res_bind].
  pose proof (slice_or_nothing b1 text prev (ch info 0) Hh1) as H1. rewrite Es1, Es in H1. unfold str_length in H1.
  specialize (H1 ltac:(lia) ltac:(lia) ltac:(lia)). destruct (if prev <? ch info 0 then _ else _) as [b2|e]; cbn [mbind Res_bind].
  2: { by destruct H1. }
  destruct H1 as (Hh2 & Es2 & Hr2).
  pose proof (Apply_spec subject capture_count (replacement_substrings_ compiled) info (parts_ compiled) b2 _ Hcap Hok Hh2) as H2.
  specialize (H2 ltac:(congruence) Hi ltac:(lia)). rewrite Htok in H2.
  destruct (Apply _ _ _ _ _ _) as [b3|e]; cbn [mbind Res_bind]; [|by destruct H2].
  destruct H2 as (Hh3 & Es3 & Hr3). rewrite <- app_assoc in Hh3. split; [done|]. split; [done|]. split; [congruence|]. split; [lia|done].
Qed.

(** What the loop leaves: the text of all matches but the end of the subject. *)
Definition loop_result (text : list Z) (prev : Z) (state : St) (info : list Z)
    (r : Res (ReplacementStringBuilder * Z * St * list Z)) : Prop :=
  match r with
  | Ok (b', prev', _, _) => exists l text', (if is_global then rest_of state info l else l = [])
      /\ holds b' text' /\ subject_ b' = subject /\ 2 <= room b' /\ 0 <= prev' <= str_length subject
      /\ text' ++ slice (chars subject) prev' (str_length subject) = text ++ replace_text (chars subject) toks prev (info :: l)
  | Err e => e = Exception \/ e = FatalOutOfMemory
  end.

Lemma replace_loop_spec fuel : forall builder text prev state info from,
  holds builder text -> subject_ builder = subject -> 0 < capacity (array_builder_ builder) ->
  inv state -> info_ok (chars subject) capture_count info -> 0 <= prev <= ch info 0 -> 0 <= from <= ch info 0 ->
  str_length subject + 1 - from < Z.of_nat fuel ->
  loop_result text prev state info (replace_loop subject is_global fuel compiled builder prev state info).
Proof.
  induction fuel as [|fuel IH]; intros builder text prev state info from Hh Es Hc Hst Hi Hprev Hfrom Hf;
    pose proof Hi as (H01 & Hend & _); unfold str_length in *; [lia|]. cbn [replace_loop].
  pose proof (add_match_spec builder text prev info Hh Es Hc Hi Hprev) as Ha.
  destruct (add_match compiled builder prev info) as [[[b' start] end_]|e]; cbn [mbind Res_bind]; [|by right].
  destruct Ha as (-> & -> & Es' & Hr' & Hh').
  (* no more matches *)
  assert (Hlast : (if is_global then rest_of state info [] else @nil (list Z) = []) ->
    loop_result text prev state info (Ok (b', ch info 1, state, info))).
  { intros Hl. exists [], (text ++ slice (chars subject) prev (ch info 0) ++ render_all (chars subject) info toks).
    split; [done|]. split; [done|]. split; [done|]. split; [done|]. split; [unfold str_length; lia|]. cbn [replace_text]. unfold str_length.
    by rewrite <- !app_assoc. }
  destruct is_global eqn:Eg; cbn [negb]; [|by apply Hlast].
  fold (next_index info). destruct ((ch info 0 =? ch info 1) && (str_length subject <? next_index info)) eqn:Ee.
  { apply Hlast, rest_end. apply andb_true_iff in Ee as [E1%Z.eqb_eq E2%Z.ltb_lt]. unfold next_index in E2.
    destruct (Z.eqb_spec (ch info 0) (ch info 1)); [by split|done]. }
  assert (Hne : ~ at_end info).
  { intros [E1 E2]. apply andb_false_iff in Ee as [Ee%Z.eqb_neq|Ee%Z.ltb_ge]; [done|]. unfold next_index in Ee.
    destruct (Z.eqb_spec (ch info 0) (ch info 1)); [lia|done]. }
  assert (Hnext : ch info 1 <= next_index info <= len (chars subject) /\ from < next_index info).
  { unfold next_index, at_end, str_length in *. destruct (Z.eqb_spec (ch info 0) (ch info 1)); [|lia].
    destruct (Z.lt_ge_cases (len (chars subject)) (ch info 1 + 1)); [|lia]. by destruct Hne. }
  pose proof (exec_ok (MatcherOk:=HM) state (next_index info) Hst) as He. unfold str_length in He. specialize (He ltac:(lia)).
  destruct (Exec state (next_index info)) as [[state' [info'|]]|e] eqn:Ex; cbn [mbind Res_bind]; [| |by left].
  - destruct He as (Hst' & Hi' & Hge).
    specialize (IH b' _ (ch info 1) state' info' (next_index info) Hh' Es' (room_capacity b' ltac:(lia)) Hst' Hi' ltac:(lia) ltac:(lia) ltac:(lia)).
    destruct (replace_loop _ _ _ _ _ _ _ _) as [[[[b2 prev2] state2] info2]|e]; [|done].
    destruct IH as (l & text' & Hl & Hh2 & Es2 & Hr2 & Hp2 & Et). exists (info' :: l), text'.
    split; [rewrite Eg in Hl |- *; by eapply rest_some|]. split; [done|]. split; [done|]. split; [done|]. split; [done|].
    rewrite Et. cbn [replace_text]. by rewrite <- !app_assoc.
  - specialize (Hlast (rest_none _ _ _ Hne Ex)). done.
Qed.

(** The answer of the general case, and the error results: never an access out of bounds, an exception of the
    matcher, or a string that is too long. *)
Definition replace_result (state : St) (r : Res (St * Str)) : Prop :=
  match r with
  | Ok (_, answer) => exists infos, all_matches state infos /\ chars answer = replace_text (chars subject) toks 0 infos
  | Err e => e = Exception \/ e = FatalOutOfMemory
  end.
End loop.

(** ** The shortcut for plain strings *)

Lemma len_drop n (l : list Z) : 0 <= n <= len l -> len (drop (Z.to_nat n) l) = len l - n.
Proof. unfold len. intros H. rewrite length_drop. lia. Qed.

Section plain.
Context (kHeaderSize : Z) (raw : Z -> list Z).
Hypothesis raw_length : forall n, 0 <= n -> len (raw n) = n.

(** The captures of plain matches. *)
Definition plain_infos (plen : Z) (l : list Z) : list (list Z) := map (fun r => [r; r + plen]) l.

(** The replaced text, and its length. *)
Definition plain_text (subject replacement : list Z) (plen pos : Z) (l : list Z) : list Z :=
  replace_text subject (map Literal replacement) pos (plain_infos plen l).

Lemma plain_text_cons subject replacement plen pos r l :
  plain_text subject replacement plen pos (r :: l)
  = slice subject pos r ++ replacement ++ plain_text subject replacement plen (r + plen) l.
Proof. unfold plain_text. cbn [plain_infos map replace_text]. by rewrite render_literals. Qed.

Lemma plain_text_length p subject replacement pos l :
  matches p subject pos l -> 0 <= pos <= len subject ->
  len (plain_text subject replacement (len p) pos l) = (len replacement - len p) * len l + (len subject - pos).
Proof.
  intros Hm. pose proof (len_nonneg p). induction Hm as [pos Hf|pos r l Hf Hr Hm IH]; intros Hpos.
  - unfold plain_text. cbn [plain_infos map replace_text]. rewrite len_slice by lia. change (len []) with 0. lia.
  - pose proof (first_from_le _ _ _ _ Hf Hr). rewrite plain_text_cons, !len_app, len_slice, IH by lia.
    replace (len (r :: l)) with (len l + 1) by (unfold len; cbn [length]; lia). rewrite Z.mul_add_distr_l. lia.
Qed.

(** The parts of a split, joined with the replacement. *)
Lemma plain_text_join p subject replacement pos l :
  matches p (chars subject) pos l ->
  plain_text (chars subject) replacement (len p) pos l
  = join replacement (map chars (split_parts subject (len p) pos (l ++ [str_length subject]))).
Proof.
  intros Hm. induction Hm as [pos Hf|pos r l Hf Hr Hm IH]; cbn [app split_parts map].
  - done.
  - rewrite plain_text_cons, IH. rewrite join_cons; [done|]. by destruct l.
Qed.

(** All that is written after the allocation. *)
Definition write_all (w : bool) (subject replacement : Str) (plen : Z) (l : list Z) (result : list Z) (subject_pos result_pos : Z)
    : Res (list Z) :=
  '(result, subject_pos, result_pos) ← replace_indices w subject replacement plen l result subject_pos result_pos;
  if subject_pos <? str_length subject then WriteToFlat w (chars subject) result result_pos subject_pos (str_length subject)
  else Ok result.

(** A write that may be empty: with room it extends what has been written, without room it is out of bounds. *)
Lemma write_step {A} w source pre rest from to (k : list Z -> Z -> Res A) :
  0 <= from <= to -> to <= len source ->
  ('(result, result_pos) ← (if from <? to then
       result ← WriteToFlat w source (pre ++ rest) (len pre) from to; Ok (result, len pre + (to - from))
     else Ok (pre ++ rest, len pre)); k result result_pos)
  = if len rest <? to - from then Err Fault
    else k ((pre ++ map (to_subject_char w) (slice source from to)) ++ drop (Z.to_nat (to - from)) rest)
           (len (pre ++ map (to_subject_char w) (slice source from to))).
Proof.
  intros Hft Ht. pose proof (len_nonneg rest). pose proof (len_nonneg pre).
  destruct (Z.ltb_spec from to) as [Hlt|Hge].
  - destruct (Z.ltb_spec (len rest) (to - from)) as [Hno|Hok].
    + unfold WriteToFlat, check. rewrite len_app.
      destruct (Z.leb_spec (len pre + (to - from)) (len pre + len rest)); [lia|]. by rewrite andb_false_r.
    + rewrite WriteToFlat_ok by lia. cbn [mbind Res_bind]. by rewrite len_app, len_map, len_slice by lia.
  - replace to with from by lia. rewrite slice_empty, Z.sub_diag. destruct (Z.ltb_spec (len rest) 0); [lia|]. cbn.
    by rewrite app_nil_r.
Qed.

Lemma write_all_spec w subject replacement p l : forall pos pre rest,
  matches p (chars subject) pos l -> 0 <= pos <= str_length subject ->
  let text := plain_text (chars subject) (chars replacement) (len p) pos l in
  write_all w subject replacement (len p) l (pre ++ rest) pos (len pre)
  = if len rest <? len text then Err Fault
    else Ok (pre ++ map (to_subject_char w) text ++ drop (Z.to_nat (len text)) rest).
Proof.
  unfold str_length. pose proof (len_nonneg p). induction l as [|r l IH]; intros pos pre rest Hm Hpos; cbn zeta.
  - unfold write_all. cbn [replace_indices mbind Res_bind]. unfold plain_text. cbn [plain_infos map replace_text]. unfold str_length.
    pose proof (write_step w (chars subject) pre rest pos (len (chars subject)) (fun r _ => Ok r) ltac:(lia) ltac:(lia)) as H1.
    rewrite len_slice by lia. rewrite <- app_assoc in H1. rewrite <- H1.
    destruct (pos <? len (chars subject)); cbn [mbind Res_bind]; [|done]. by destruct (WriteToFlat _ _ _ _ _ _).
  - inversion Hm as [|? ? ? Hf Hr Hm']; subst. pose proof (first_from_le _ _ _ _ Hf Hr).
    pose proof (len_nonneg (chars replacement)) as Hrl.
    rewrite plain_text_cons, !len_app, len_slice by lia. set (text' := plain_text _ _ _ (r + len p) l).
    pose proof (len_nonneg text').
    assert (E : write_all w subject replacement (len p) (r :: l) (pre ++ rest) pos (len pre)
      = ('(result, result_pos) ← (if pos <? r then
            result ← WriteToFlat w (chars subject) (pre ++ rest) (len pre) pos r; Ok (result, len pre + (r - pos))
          else Ok (pre ++ rest, len pre));
         '(result, result_pos) ← (if 0 <? len (chars replacement) then
            result ← WriteToFlat w (chars replacement) result result_pos 0 (len (chars replacement));
            Ok (result, result_pos + (len (chars replacement) - 0))
          else Ok (result, result_pos));
         write_all w subject replacement (len p) l result (r + len p) result_pos)).
    { unfold write_all. cbn [replace_indices]. unfold str_length. rewrite Z.sub_0_r.
      destruct (if pos <? r then _ else _) as [[r1 p1]|e]; cbn [mbind Res_bind]; [|done].
      by destruct (if 0 <? len (chars replacement) then _ else _) as [[r2 p2]|e]. }
    rewrite E. rewrite (write_step w (chars subject) pre rest pos r) by lia.
    destruct (Z.ltb_spec (len rest) (r - pos)); [destruct (Z.ltb_spec (len rest) (r - pos + (len (chars replacement) + len text'))); [done|lia]|].
    rewrite (write_step w (chars replacement) _ _ 0 (len (chars replacement))) by lia.
    rewrite len_drop, Z.sub_0_r by lia.
    destruct (Z.ltb_spec (len rest - (r - pos)) (len (chars replacement)));
      [destruct (Z.ltb_spec (len rest) (r - pos + (len (chars replacement) + len text'))); [done|lia]|].
    rewrite (IH (r + len p)) by (done || lia). fold text'. rewrite slice_all, drop_drop_Z, len_drop by lia.
    destruct (Z.ltb_spec (len rest - (r - pos + len (chars replacement))) (len text')),
      (Z.ltb_spec (len rest) (r - pos + (len (chars replacement) + len text'))); try lia; [done|].
    rewrite drop_drop_Z, !map_app, <- !app_assoc by lia. do 5 f_equal. by rewrite Z.add_assoc.
Qed.

(** The function after the search: what it answers for the matches [l], the length as a 32-bit integer. *)
Lemma StringReplaceStringWithString_spec w t subject pattern replacement :
  str_ok subject -> str_ok pattern -> str_ok replacement -> 1 <= str_length pattern -> tables_sized t ->
  (w = false -> HasOnlyAsciiChars subject = true /\ HasOnlyAsciiChars replacement = true) ->
  exists t' l, tables_sized t' /\ matches (chars pattern) (chars subject) 0 l /\
    let text := plain_text (chars subject) (chars replacement) (str_length pattern) 0 l in
    let n := sint 32 ((str_length replacement - str_length pattern) * len l + str_length subject) in
    StringReplaceStringWithString kHeaderSize raw w t subject pattern replacement
    = if len l =? 0 then Ok (t', subject)
      else if (n <? 0) || (kMaxSeqLength kHeaderSize w <? n) then Err FatalOutOfMemory
      else if n <? len text then Err Fault
      else Ok (t', mkStr w (text ++ drop (Z.to_nat (len text)) (raw n))).
Proof.
  intros Hs Hp Hr Hl Ht Hw. pose proof (str_length_range _ Hs) as Hsl. pose proof (str_length_range _ Hp).
  destruct (FindStringIndicesDispatch_spec t subject pattern (2 ^ 32 - 1) Hs Hp Hl Ht) as (t' & l & E & Ht' & Hm).
  pose proof (matches_length _ _ _ _ Hm Hl ltac:(apply len_nonneg)) as Hlen. unfold str_length in Hsl.
  exists t', l. split; [done|]. split; [done|]. cbn zeta. unfold StringReplaceStringWithString. rewrite E, take_ge by lia.
  cbn [of_option mbind Res_bind]. destruct (Z.eqb_spec (len l) 0) as [|Hne]; [done|].
  set (n := sint 32 _). unfold NewRawString, AllocateRawString.
  destruct ((n <? 0) || _) eqn:En; cbn [mbind Res_bind]; [done|]. apply orb_false_iff in En as [En%Z.ltb_ge _].
  pose proof (write_all_spec w subject replacement (chars pattern) l 0 [] (raw n) Hm ltac:(unfold str_length; lia)) as Hwr.
  cbn zeta in Hwr. change (len []) with 0 in Hwr. cbn [app] in Hwr. rewrite raw_length in Hwr by lia.
  fold (str_length pattern) in Hwr. set (text := plain_text _ _ _ _ _) in *.
  assert (Hc : map (to_subject_char w) text = text).
  { assert (Hall : forall P : Z -> Prop, Forall P (chars subject) -> Forall P (chars replacement) -> Forall P text).
    { intros P H1 H2. unfold text. clear - H1 H2. generalize 0. induction l as [|r l IH]; intros pos.
      - unfold plain_text. cbn. by apply Forall_slice.
      - rewrite plain_text_cons. apply Forall_app. split; [by apply Forall_slice|]. apply Forall_app. by split. }
    apply convert_id; [apply Hall; by apply str_chars_wide|]. intros E'. destruct (Hw E') as [H1 H2].
    apply Hall; by apply HasOnlyAscii_chars. }
  rewrite Hc in Hwr. unfold write_all in Hwr.
  destruct (replace_indices _ _ _ _ _ _ _ _) as [[[r1 p1] p2]|e]; cbn [mbind Res_bind] in *.
  - rewrite Hwr. by destruct (n <? len text).
  - destruct (n <? len text); [by injection Hwr as ->|done].
Qed.
End plain.

(** ** The whole function *)

Lemma general_result kHeaderSize raw {St} (M : Matcher St) subject replacement is_global
    capture_count inv (HM : MatcherOk M subject capture_count inv) state :
  (forall n, 0 <= n -> len (raw n) = n) -> 0 <= kHeaderSize <= kMaxSize -> str_ok subject -> str_ok replacement ->
  0 <= capture_count -> inv state ->
  match StringReplaceRegExpWithString kHeaderSize raw subject replacement is_global None capture_count state with
  | Ok (_, answer) => exists infos, all_matches subject is_global state infos
      /\ chars answer = replace_text (chars subject) (tokens capture_count (chars replacement)) 0 infos
  | Err e => e = Exception \/ e = FatalOutOfMemory
  end.
Proof.
  intros Hraw Hhd Hs Hr Hc Hst. unfold StringReplaceRegExpWithString, all_matches.
  pose proof (exec_ok (MatcherOk:=HM) state 0 Hst) as He. pose proof (str_length_range _ Hs). specialize (He ltac:(lia)).
  destruct (Exec state 0) as [[state' [info|]]|e]; cbn [mbind Res_bind]; [| |by left].
  2: { exists []. split; [done|]. cbn. by rewrite slice_all. }
  destruct He as (Hst' & Hi & _). pose proof Hi as (H01 & _).
  destruct (Compile_spec replacement capture_count (str_length subject) Hr Hc) as (compiled & -> & Hcomp). cbn [mbind Res_bind].
  replace (if is_global && simple_hint_ compiled then None else None) with (@None (Str * Tables)) by (by destruct (is_global && _)).
  set (n := _ * (if is_global then 4 else 1) + 1). assert (Hn : 0 < n) by (subst n; destruct is_global; lia). clearbody n.
  pose proof (replace_loop_spec subject replacement is_global capture_count inv Hc compiled Hcomp
    (S (S (Z.to_nat (str_length subject)))) (ReplacementStringBuilder_new subject n) [] 0 state' info 0
    (ReplacementStringBuilder_new_spec subject n Hs) eq_refl Hn Hst' Hi ltac:(lia) ltac:(lia) ltac:(lia)) as Hloop.
  unfold loop_result in Hloop. destruct (replace_loop _ _ _ _ _ _ _ _) as [[[[b prev] state2] info2]|e]; cbn [mbind Res_bind]; [|done].
  destruct Hloop as (l & text & Hl & Hh & Es & Hroom & Hprev & Et). rewrite app_nil_l in Et.
  pose proof (slice_or_nothing b text prev (str_length subject) Hh) as H1. rewrite Es in H1. specialize (H1 ltac:(lia) ltac:(lia) ltac:(lia)).
  destruct (if prev <? str_length subject then _ else _) as [b2|e]; cbn [mbind Res_bind]; [|right; by destruct H1].
  destruct H1 as (Hh2 & _ & _). pose proof (ToString_spec kHeaderSize raw Hraw b2 _ Hhd Hh2) as H2.
  destruct (ToString kHeaderSize raw b2) as [answer|e]; cbn [mbind Res_bind]; [|right; by destruct H2].
  exists (info :: l). split; [by exists l|]. cbn in H2. by rewrite H2, Et.
Qed.

(** C21: Replacing with a regular expression, for any matcher that keeps the promises of the interface: the loop ends, and the
    answer is the subject with each match replaced by the text of the replacement's forms; the matches are the first one,
    or, for a global expression, all that the matcher finds when the search goes on at the end of each match, one further after an
    empty one.  The builder's arrays are never outgrown; the only errors are an exception of the matcher and a string
    that is too long. *)
Theorem StringReplaceRegExpWithString_correct kHeaderSize raw {St} (M : Matcher St) subject replacement is_global
    capture_count inv (HM : MatcherOk M subject capture_count inv) state :
  (forall n, 0 <= n -> len (raw n) = n) -> 0 <= kHeaderSize <= kMaxSize -> str_ok subject -> str_ok replacement ->
  0 <= capture_count -> inv state ->
  match StringReplaceRegExpWithString kHeaderSize raw subject replacement is_global None capture_count state with
  | Ok (_, answer) => exists infos, all_matches subject is_global state infos
      /\ chars answer = replace_text (chars subject) (tokens capture_count (chars replacement)) 0 infos
  | Err e => e = Exception \/ e = FatalOutOfMemory
  end.
Proof. intros. by eapply general_result. Qed.

(** ** Atoms keep the promises of the interface *)

Definition atom_matcher (subject needle : Str) : Matcher Tables := AtomExec subject needle.

(** The first occurrence, as a match. *)
Lemma AtomExec_spec subject needle t index :
  str_ok subject -> str_ok needle -> tables_sized t -> 0 <= index <= str_length subject ->
  exists t' r, AtomExec subject needle t index
      = Ok (t', if r =? -1 then None else Some [r; r + str_length needle])
    /\ tables_sized t' /\ first_from (chars needle) (chars subject) index r.
Proof.
  intros (Hs & _) (Hn & _) Ht Hi. unfold AtomExec, str_length in *. pose proof (len_nonneg (chars needle)).
  destruct (Z.eqb_spec (len (chars needle)) 0) as [E|Hne]; cbn [negb].
  - exists t, index. cbn [mbind Res_bind]. destruct (Z.eqb_spec index (-1)); [lia|]. split; [done|]. split; [done|].
    apply first_from_here. split; [lia|]. split; [lia|]. lia.
  - destruct (Z.ltb_spec (len (chars subject)) (index + len (chars needle))) as [Hlt|Hge].
    + exists t, (-1). split; [done|]. split; [done|]. apply first_from_past. lia.
    + destruct (SearchString_spec _ _ _ _ t index Hn Hs) as (t' & r & -> & Hr & Ht'); [lia|done|lia|].
      exists t', r. cbn [of_option mbind Res_bind]. split; [by destruct (r =? -1)|done].
Qed.

#[export] Instance atom_ok subject needle :
  str_ok subject -> str_ok needle -> MatcherOk (atom_matcher subject needle) subject 0 tables_sized.
Proof.
  intros Hs Hn t next Ht Hi. unfold Exec, atom_matcher.
  destruct (AtomExec_spec subject needle t next Hs Hn Ht Hi) as (t' & r & -> & Ht' & Hr).
  destruct (Z.eqb_spec r (-1)) as [|Hne]; [done|]. split; [done|]. pose proof (len_nonneg (chars needle)).
  destruct Hr as [(-> & _)|(Hge & (Hr0 & Hrl & _) & _)]; [done|]. split; [|done].
  change (ch [r; r + str_length needle] 0) with r. unfold info_ok.
  change (ch [r; r + str_length needle] 0) with r. change (ch [r; r + str_length needle] 1) with (r + str_length needle).
  unfold str_length. split; [lia|]. split; [lia|]. split; [unfold len; cbn [length]; lia|]. intros n Hn'.
  replace n with 0 by lia. change (ch [r; r + len (chars needle)] (2 * 0 + 1)) with (r + len (chars needle)). lia.
Qed.

Lemma StringReplaceRegExpWithString_correct_witness :
  match StringReplaceRegExpWithString (M := atom_matcher (mkStr false [97; 98; 97; 98; 97]) (mkStr false [98])) 12
      (fun n => replicate (Z.to_nat n) 0) (mkStr false [97; 98; 97; 98; 97]) (mkStr true [36; 38; 960; 36; 39]) true None 0
      (mkTables (replicate 256 0) (replicate 251 0) (replicate 251 0)) with
  | Ok (_, answer) => chars answer = [97; 98; 960; 97; 98; 97; 97; 98; 960; 97; 97]
  | Err _ => False
  end.
Proof.
  assert (H1 : str_ok (mkStr false [97; 98; 97; 98; 97])) by (apply str_ok_intro; [repeat constructor; cbn; lia|by vm_compute]).
  assert (H2 : str_ok (mkStr false [98])) by (apply str_ok_intro; [repeat constructor; cbn; lia|by vm_compute]).
  pose proof (StringReplaceRegExpWithString_correct 12 (fun n => replicate (Z.to_nat n) 0)
    (atom_matcher (mkStr false [97; 98; 97; 98; 97]) (mkStr false [98])) (mkStr false [97; 98; 97; 98; 97])
    (mkStr true [36; 38; 960; 36; 39]) true 0 tables_sized (atom_ok _ _ H1 H2)
    (mkTables (replicate 256 0) (replicate 251 0) (replicate 251 0))
    ltac:(intros n Hn; unfold len; rewrite length_replicate; lia) ltac:(by vm_compute) H1
    ltac:(apply str_ok_intro; [repeat constructor; cbn; lia|by vm_compute]) ltac:(lia) ltac:(done)) as H.
  remember (StringReplaceRegExpWithString _ _ _ _ _ _ _ _) as r eqn:Er. vm_compute in Er. subst r. done.
Defined.

(** ** The shortcut against the general loop *)

Lemma first_occurrence_unique p s i r1 r2 : first_from p s i r1 -> first_from p s i r2 -> 0 <= i -> r1 = r2.
Proof.
  intros [(-> & H1)|(G1 & O1 & N1)] [(-> & H2)|(G2 & O2 & N2)] Hi; [done|by destruct (H1 r2)|by destruct (H2 r1)|].
  destruct (Z.lt_total r1 r2) as [Hlt|[Heq|Hgt]]; [by destruct (N2 r1)|done|by destruct (N1 r2)].
Qed.

Lemma matches_unique p s i l1 : matches p s i l1 -> forall l2, matches p s i l2 -> 0 <= i -> l1 = l2.
Proof.
  intros H1. induction H1 as [i Hf|i r l Hf Hr Hm IH]; intros l2 H2 Hi; pose proof (len_nonneg p);
    inversion H2 as [? Hf2|? r2 l2' Hf2 Hr2 Hm2]; subst; try done.
  - pose proof (first_occurrence_unique _ _ _ _ _ Hf Hf2 Hi). lia.
  - pose proof (first_occurrence_unique _ _ _ _ _ Hf Hf2 Hi). lia.
  - rewrite (first_occurrence_unique _ _ _ _ _ Hf Hf2 Hi) in *. f_equal. apply IH; [done|lia].
Qed.

Section atoms.
Context (subject needle : Str).
Hypothesis Hs : str_ok subject.
Hypothesis Hn : str_ok needle.
Hypothesis Hl : 1 <= str_length needle.

(** The matches after one, when the matcher is the search for the needle. *)
Lemma atom_rest t info l :
  rest_of (M := atom_matcher subject needle) subject t info l -> tables_sized t ->
  forall r, info = [r; r + str_length needle] -> 0 <= r -> r + str_length needle <= str_length subject ->
  exists l', l = plain_infos (str_length needle) l' /\ matches (chars needle) (chars subject) (r + str_length needle) l'.
Proof.
  assert (Hnext : forall r, next_index [r; r + str_length needle] = r + str_length needle).
  { intros r. unfold next_index. change (ch [r; r + str_length needle] 0) with r.
    change (ch [r; r + str_length needle] 1) with (r + str_length needle). destruct (Z.eqb_spec r (r + str_length needle)); [lia|done]. }
  intros H. induction H as [t info He|t info t' Hne E|t info t' info' l Hne E Hrest IH]; intros Ht r -> Hr Hrl.
  - destruct He as [He _]. change (r = r + str_length needle) in He. lia.
  - rewrite Hnext in E. unfold Exec, atom_matcher in E.
    destruct (AtomExec_spec subject needle t (r + str_length needle) Hs Hn Ht) as (t2 & r2 & E2 & _ & Hf); [lia|].
    rewrite E2 in E. destruct (Z.eqb_spec r2 (-1)) as [Er|]; [rewrite Er in Hf|done]. exists []. split; [done|]. by apply matches_none.
  - rewrite Hnext in E. unfold Exec, atom_matcher in E.
    destruct (AtomExec_spec subject needle t (r + str_length needle) Hs Hn Ht) as (t2 & r2 & E2 & Ht2 & Hf); [lia|].
    rewrite E2 in E. destruct (Z.eqb_spec r2 (-1)) as [|Hne2]; [done|]. injection E as <- <-.
    assert (Hr2 : 0 <= r2) by (destruct Hf as [(-> & _)|(_ & (? & _) & _)]; done).
    pose proof (first_from_le _ _ _ _ Hf Hr2). unfold str_length in *.
    destruct (IH Ht2 r2 eq_refl Hr2 ltac:(lia)) as (l' & -> & Hm). exists (r2 :: l'). split; [done|].
    by apply matches_some.
Qed.

Lemma atom_all_matches t infos :
  all_matches (M := atom_matcher subject needle) subject true t infos -> tables_sized t ->
  exists l, infos = plain_infos (str_length needle) l /\ matches (chars needle) (chars subject) 0 l.
Proof.
  unfold all_matches, Exec, atom_matcher. intros H Ht. pose proof (str_length_range _ Hs).
  destruct (AtomExec_spec subject needle t 0 Hs Hn Ht) as (t2 & r2 & E2 & Ht2 & Hf); [lia|]. rewrite E2 in H.
  destruct (Z.eqb_spec r2 (-1)) as [Er|Hne].
  - rewrite Er in Hf. subst infos. exists []. split; [done|]. by apply matches_none.
  - destruct H as (l & -> & Hrest). assert (Hr2 : 0 <= r2) by (destruct Hf as [(-> & _)|(_ & (? & _) & _)]; done).
    pose proof (first_from_le _ _ _ _ Hf Hr2). destruct (atom_rest _ _ _ Hrest Ht2 r2 eq_refl Hr2) as (l' & -> & Hm).
    { unfold str_length. lia. }
    exists (r2 :: l'). split; [done|]. by apply matches_some.
Qed.
End atoms.

(** ** The theorems on plain strings *)

(** C22: The global replacement of a plain string: as long as the computed length fits in an [int], the answer is the
    parts of the subject between the matches, joined with the replacement instead of the pattern; an answer that is too long
    for a sequential string is a fatal lack of memory. *)
Theorem StringReplaceStringWithString_correct kHeaderSize raw w t subject pattern replacement :
  (forall n, 0 <= n -> len (raw n) = n) -> 0 <= kHeaderSize <= kMaxSize ->
  str_ok subject -> str_ok pattern -> str_ok replacement -> 1 <= str_length pattern -> tables_sized t ->
  (w = false -> HasOnlyAsciiChars subject = true /\ HasOnlyAsciiChars replacement = true) ->
  exists t' parts, join (chars pattern) parts = chars subject /\ Forall (fun part => forall k, ~ occurs (chars pattern) part k) parts
    /\ let text := join (chars replacement) parts in
       (len text < 2 ^ 31 ->
        match StringReplaceStringWithString kHeaderSize raw w t subject pattern replacement with
        | Ok (t'', answer) => t'' = t' /\ tables_sized t' /\ chars answer = text
        | Err e => e = FatalOutOfMemory /\ kMaxSeqLength kHeaderSize w < len text
        end).
Proof.
  intros Hraw Hhd Hs Hp Hr Hl Ht Hw.
  destruct (StringReplaceStringWithString_spec kHeaderSize raw Hraw w t subject pattern replacement Hs Hp Hr Hl Ht Hw)
    as (t' & l & Ht' & Hm & E).
  destruct (split_parts_join _ _ _ _ Hm Hl) as (Hj & Hno & _); [unfold str_length; pose proof (len_nonneg (chars subject)); lia|].
  exists t', (map chars (split_parts subject (len (chars pattern)) 0 (l ++ [str_length subject]))).
  split; [done|]. split; [by apply Forall_map|]. cbn zeta in *. unfold str_length in E.
  rewrite <- (plain_text_join _ _ (chars replacement) _ _ Hm).
  pose proof (plain_text_length _ _ (chars replacement) _ _ Hm) as Hlen. specialize (Hlen ltac:(pose proof (len_nonneg (chars subject)); lia)).
  rewrite Z.sub_0_r in Hlen. set (text := plain_text _ _ _ _ _) in *. intros Hfit. pose proof (len_nonneg text).
  rewrite E, <- Hlen, sint_id by lia. clear E. destruct (Z.eqb_spec (len l) 0) as [E0|_].
  - split; [done|]. split; [done|]. destruct l; [|unfold len in E0; cbn in E0; lia]. unfold text, plain_text. cbn. by rewrite slice_all.
  - destruct (Z.ltb_spec (len text) 0); [lia|]. cbn [orb]. destruct (Z.ltb_spec (kMaxSeqLength kHeaderSize w) (len text)); [done|].
    destruct (Z.ltb_spec (len text) (len text)); [lia|]. split; [done|]. split; [done|]. cbn.
    rewrite drop_ge; [by rewrite app_nil_r|]. specialize (Hraw (len text) ltac:(lia)). unfold len in *. lia.
Qed.

Lemma StringReplaceStringWithString_correct_witness : exists t' parts,
  join [44; 32] parts = [97; 44; 32; 98; 44; 32]
  /\ match StringReplaceStringWithString 12 (fun n => replicate (Z.to_nat n) 0) true (mkTables (replicate 256 0) (replicate 251 0) (replicate 251 0))
       (mkStr false [97; 44; 32; 98; 44; 32]) (mkStr false [44; 32]) (mkStr true [960]) with
     | Ok (t'', answer) => t'' = t' /\ tables_sized t' /\ chars answer = join [960] parts /\ chars answer = [97; 960; 98; 960]
     | Err _ => False
     end.
Proof.
  destruct (StringReplaceStringWithString_correct 12 (fun n => replicate (Z.to_nat n) 0) true
    (mkTables (replicate 256 0) (replicate 251 0) (replicate 251 0))
    (mkStr false [97; 44; 32; 98; 44; 32]) (mkStr false [44; 32]) (mkStr true [960])) as (t' & parts & Hj & _ & H).
  - intros n Hn. unfold len. rewrite length_replicate. lia.
  - by vm_compute.
  - apply str_ok_intro; [repeat constructor; cbn; lia|by vm_compute].
  - apply str_ok_intro; [repeat constructor; cbn; lia|by vm_compute].
  - apply str_ok_intro; [repeat constructor; cbn; lia|by vm_compute].
  - by vm_compute.
  - done.
  - done.
  - exists t', parts. split; [exact Hj|].
    assert (Hl : len (join [960] parts) < 2 ^ 31).
    { clear H. assert (Hle : forall ps, len (join [960] ps) <= len (join [44; 32] ps)).
      { intros ps. induction ps as [|part [|part' ps] IH]; [done|done|].
        change (len (part ++ [960] ++ join [960] (part' :: ps)) <= len (part ++ [44; 32] ++ join [44; 32] (part' :: ps))).
        rewrite !len_app. change (len [960]) with 1. change (len [44; 32]) with 2. lia. }
      specialize (Hle parts). cbn [chars mkStr] in Hj. change (chars (mkStr false [44; 32])) with [44; 32] in Hj.
      change (chars (mkStr false [97; 44; 32; 98; 44; 32])) with [97; 44; 32; 98; 44; 32] in Hj. rewrite Hj in Hle.
      change (len [97; 44; 32; 98; 44; 32]) with 6 in Hle. lia. }
    specialize (H Hl). remember (StringReplaceStringWithString _ _ _ _ _ _ _) as r eqn:Er. vm_compute in Er. subst r.
    cbn match in H. destruct H as (E1 & E2 & E3). split; [exact E1|]. split; [exact E2|]. split; [exact E3|done].
Defined.

(** All positions of a string of one character match that character. *)
Lemma matches_replicate (n : nat) c i l :
  matches [c] (replicate n c) i l -> 0 <= i <= Z.of_nat n -> len l = Z.of_nat n - i.
Proof.
  set (s := replicate n c). assert (Hs : len s = Z.of_nat n) by (unfold len, s; by rewrite length_replicate).
  assert (Hocc : forall k, 0 <= k < Z.of_nat n -> occurs [c] s k).
  { intros k Hk. split; [lia|]. change (len [c]) with 1. split; [lia|]. intros k' Hk'. assert (k' = 0) as -> by lia.
    rewrite Z.add_0_r. apply (ch_Forall (fun d => d = c)); [|lia]. by apply Forall_replicate. }
  intros Hm. induction Hm as [i Hf|i r l Hf Hr Hm IH]; intros Hi.
  - destruct Hf as [(_ & Hf)|(? & (? & _) & _)]; [|lia]. change (len []) with 0.
    destruct (Z.eq_dec i (Z.of_nat n)); [lia|]. destruct (Hf i ltac:(lia)). apply Hocc. lia.
  - change (len [c]) with 1 in IH. pose proof (first_from_le _ _ _ _ Hf Hr) as Hle. change (len [c]) with 1 in Hle.
    assert (r = i) as ->.
    { destruct Hf as [(-> & _)|(_ & _ & Hf)]; [lia|]. destruct (Z.eq_dec r i); [done|]. destruct (Hf i ltac:(lia)). apply Hocc. lia. }
    replace (len (i :: l)) with (len l + 1) by (unfold len; cbn [length]; lia). rewrite IH by lia. lia.
Qed.

(** A subject of 2^17 letters and a replacement of 2^15: the answer would have 2^32 characters. *)
Definition many_letters : Str := mkStr false (replicate (Z.to_nat (2 ^ 17)) 97).
Definition long_replacement : Str := mkStr false (replicate (Z.to_nat (2 ^ 15)) 98).

Lemma replicate_ok (n : nat) c : Z.of_nat n <= kMaxLength -> char_ok false c -> str_ok (mkStr false (replicate n c)).
Proof.
  intros Hn Hc. apply str_ok_intro; [by apply Forall_replicate|]. unfold len. by rewrite length_replicate.
Qed.

Lemma replace_overflows kHeaderSize raw t (n m : nat) :
  (forall n, 0 <= n -> len (raw n) = n) -> 0 <= kHeaderSize <= kMaxSize -> tables_sized t ->
  Z.of_nat n = 2 ^ 17 -> Z.of_nat m = 2 ^ 15 ->
  StringReplaceStringWithString kHeaderSize raw false t (mkStr false (replicate n 97)) (mkStr false [97]) (mkStr false (replicate m 98))
  = Err Fault.
Proof.
  intros Hraw Hhd Ht En Em.
  assert (Hs : str_ok (mkStr false (replicate n 97))) by (apply replicate_ok; [rewrite En; by vm_compute|unfold char_ok; lia]).
  assert (Hr : str_ok (mkStr false (replicate m 98))) by (apply replicate_ok; [rewrite Em; by vm_compute|unfold char_ok; lia]).
  assert (Hp : str_ok (mkStr false [97])) by (apply str_ok_intro; [repeat constructor; cbn; lia|by vm_compute]).
  destruct (StringReplaceStringWithString_spec kHeaderSize raw Hraw false t _ (mkStr false [97]) _ Hs Hp Hr
    ltac:(by vm_compute) Ht (fun _ => conj eq_refl eq_refl)) as (t' & l & _ & Hm & E).
  cbn zeta in E. rewrite E. clear E. unfold str_length in *. cbn [chars mkStr] in *.
  assert (Ell : len l = 2 ^ 17) by (rewrite (matches_replicate n 97 0 l Hm); lia).
  assert (Els : len (replicate n 97) = 2 ^ 17) by (unfold len; by rewrite length_replicate).
  assert (Elr : len (replicate m 98) = 2 ^ 15) by (unfold len; by rewrite length_replicate).
  pose proof (plain_text_length [97] (replicate n 97) (replicate m 98) 0 l Hm) as Hlen.
  rewrite Ell, Els, Elr in *. change (len [97]) with 1 in *. specialize (Hlen ltac:(lia)). rewrite Hlen.
  change (sint 32 ((2 ^ 15 - 1) * 2 ^ 17 + 2 ^ 17)) with 0. change (2 ^ 17 =? 0) with false. cbn match.
  change (0 <? 0) with false. cbn [orb].
  destruct (Z.ltb_spec (kMaxSeqLength kHeaderSize false) 0) as [Hneg|_]; [unfold kMaxSeqLength in Hneg; lia|done].
Qed.

(** C23: The length of the answer is computed in an [int] without a check: replacing each of 2^17 letters by a string of
    2^15 letters asks for 2^32 characters, allocates none, and the first write is out of bounds. *)
Theorem StringReplaceStringWithString_overflow kHeaderSize raw t :
  (forall n, 0 <= n -> len (raw n) = n) -> 0 <= kHeaderSize <= kMaxSize -> tables_sized t ->
  StringReplaceStringWithString kHeaderSize raw false t many_letters (mkStr false [97]) long_replacement = Err Fault.
Proof. intros Hraw Hhd Ht. by apply replace_overflows; [| | |rewrite Z2Nat.id..]. Qed.

Lemma StringReplaceStringWithString_overflow_witness :
  StringReplaceStringWithString 12 (fun n => replicate (Z.to_nat n) 0) false (mkTables (replicate 256 0) (replicate 251 0) (replicate 251 0))
    many_letters (mkStr false [97]) long_replacement = Err Fault.
Proof.
  apply StringReplaceStringWithString_overflow; [|by vm_compute|done]. intros n Hn. unfold len. rewrite length_replicate. lia.
Defined.

Lemma sint32_ge x : 0 <= x -> x <= sint 32 x -> sint 32 x = x.
Proof.
  intros Hx Hge. destruct (sint_cong 32 x eq_refl) as [k Hk]. unfold sint in *.
  pose proof (Z.mod_pos_bound (x + 2 ^ (32 - 1)) (2 ^ 32) eq_refl). change (2 ^ (32 - 1)) with (2 ^ 31) in *. lia.
Qed.

(** The shortcut, when it has an answer. *)
Lemma shortcut_answer kHeaderSize raw w t subject pattern replacement t' answer l :
  (forall n, 0 <= n -> len (raw n) = n) ->
  str_ok subject -> str_ok pattern -> str_ok replacement -> 1 <= str_length pattern -> tables_sized t ->
  (w = false -> HasOnlyAsciiChars subject = true /\ HasOnlyAsciiChars replacement = true) ->
  StringReplaceStringWithString kHeaderSize raw w t subject pattern replacement = Ok (t', answer) ->
  matches (chars pattern) (chars subject) 0 l ->
  chars answer = plain_text (chars subject) (chars replacement) (str_length pattern) 0 l.
Proof.
  intros Hraw Hs Hp Hr Hl Ht Hw E Hm.
  destruct (StringReplaceStringWithString_spec kHeaderSize raw Hraw w t subject pattern replacement Hs Hp Hr Hl Ht Hw)
    as (t2 & l2 & _ & Hm2 & E2).
  rewrite (matches_unique _ _ _ _ Hm2 l Hm) in E2 by lia. cbn zeta in E2. rewrite E2 in E.
  pose proof (plain_text_length _ _ (chars replacement) _ _ Hm ltac:(pose proof (len_nonneg (chars subject)); lia)) as Hlen.
  unfold str_length in *. rewrite Z.sub_0_r in Hlen. rewrite <- Hlen in E. set (text := plain_text _ _ _ _ _) in *.
  destruct (Z.eqb_spec (len l) 0) as [E0|_].
  - injection E as _ <-. destruct l; [|unfold len in E0; cbn in E0; lia]. unfold text, plain_text. cbn. by rewrite slice_all.
  - destruct (_ || _); [done|]. pose proof (len_nonneg text).
    destruct (Z.ltb_spec (sint 32 (len text)) (len text)) as [|Hge]; [done|]. injection E as _ <-. cbn.
    rewrite sint32_ge by lia. rewrite drop_ge; [by rewrite app_nil_r|]. specialize (Hraw (len text) ltac:(lia)). unfold len in *. lia.
Qed.

(** The shortcut for a global replacement by a plain string gives the answer of the loop over the matches of the
    regular expression, when neither runs out of memory. *)
Theorem plain_shortcut_agrees kHeaderSize raw subject pattern replacement t t2 s1 s2 answer1 answer2 :
  (forall n, 0 <= n -> len (raw n) = n) -> 0 <= kHeaderSize <= kMaxSize ->
  str_ok subject -> str_ok pattern -> str_ok replacement -> 1 <= str_length pattern -> tables_sized t -> tables_sized t2 ->
  StringReplaceRegExpWithString (M := atom_matcher subject pattern) kHeaderSize raw subject replacement true (Some (pattern, t2)) 0 t
    = Ok (s1, answer1) ->
  StringReplaceRegExpWithString (M := atom_matcher subject pattern) kHeaderSize raw subject replacement true None 0 t
    = Ok (s2, answer2) ->
  chars answer1 = chars answer2.
Proof.
  intros Hraw Hhd Hs Hp Hr Hl Ht Ht2 E1 E2.
  (* the general loop *)
  pose proof (general_result kHeaderSize raw (atom_matcher subject pattern) subject replacement true 0 tables_sized
    (atom_ok _ _ Hs Hp) t Hraw Hhd Hs Hr ltac:(lia) Ht) as H2. rewrite E2 in H2. destruct H2 as (infos & Hall & Etext).
  destruct (atom_all_matches _ _ Hs Hp Hl _ _ Hall Ht) as (l & -> & Hm).
  (* the shortcut *)
  unfold StringReplaceRegExpWithString in E1, E2. unfold Exec, atom_matcher in *. pose proof (str_length_range _ Hs).
  destruct (AtomExec_spec subject pattern t 0 Hs Hp Ht) as (t' & r & Ea & _ & Hf); [lia|]. rewrite Ea in E1, E2.
  cbn [mbind Res_bind] in E1, E2. destruct (Z.eqb_spec r (-1)) as [Er|_].
  { rewrite Er in Hf. injection E1 as _ <-. rewrite Etext, <- (matches_unique _ _ _ [] (matches_none _ _ _ Hf) l Hm) by lia.
    cbn. by rewrite slice_all. }
  destruct (Compile_spec replacement 0 (str_length subject) Hr ltac:(lia)) as (compiled & Ec & _ & _ & Hhint).
  rewrite Ec in E1, E2. cbn [mbind Res_bind] in E1, E2. destruct (simple_hint_ compiled) eqn:Eh; cbn [andb] in E1, E2.
  - rewrite Etext, (Hhint eq_refl).
    destruct (StringReplaceStringWithString _ _ _ _ _ _ _) as [[t3 answer]|e] eqn:E3; cbn [mbind Res_bind] in E1; [|done].
    injection E1 as _ <-. apply (shortcut_answer _ _ _ _ _ _ _ _ _ l Hraw Hs Hp Hr Hl Ht2) in E3; [done| |done].
    intros Ew. apply negb_false_iff, andb_true_iff in Ew. done.
  - rewrite E2 in E1. by injection E1 as _ <-.
Qed.

Lemma plain_shortcut_agrees_witness : exists s1 s2 answer1 answer2,
  let t := mkTables (replicate 256 0) (replicate 251 0) (replicate 251 0) in
  let subject := mkStr false [97; 98; 97; 98; 97] in
  StringReplaceRegExpWithString (M := atom_matcher subject (mkStr false [97; 98])) 12 (fun n => replicate (Z.to_nat n) 0)
    subject (mkStr false [99; 36]) true (Some (mkStr false [97; 98], t)) 0 t = Ok (s1, answer1)
  /\ StringReplaceRegExpWithString (M := atom_matcher subject (mkStr false [97; 98])) 12 (fun n => replicate (Z.to_nat n) 0)
    subject (mkStr false [99; 36]) true None 0 t = Ok (s2, answer2)
  /\ chars answer1 = chars answer2 /\ chars answer1 = [99; 36; 99; 36; 97].
Proof.
  eexists _, _, _, _. cbv zeta. split; [vm_compute; reflexivity|]. split; [vm_compute; reflexivity|]. split; [|reflexivity].
  apply (plain_shortcut_agrees 12 (fun n => replicate (Z.to_nat n) 0) (mkStr false [97; 98; 97; 98; 97]) (mkStr false [97; 98])
    (mkStr false [99; 36]) (mkTables (replicate 256 0) (replicate 251 0) (replicate 251 0))
    (mkTables (replicate 256 0) (replicate 251 0) (replicate 251 0))
    (mkTables (replicate 256 0) (replicate 251 0) (replicate 251 0)) (mkTables (replicate 256 0) (replicate 251 0) (replicate 251 0))).
  - intros n Hn. unfold len. rewrite length_replicate. lia.
  - by vm_compute.
  - apply str_ok_intro; [repeat constructor; cbn; lia|by vm_compute].
  - apply str_ok_intro; [repeat constructor; cbn; lia|by vm_compute].
  - apply str_ok_intro; [repeat constructor; cbn; lia|by vm_compute].
  - by vm_compute.
  - done.
  - done.
  - by vm_compute.
  - by vm_compute.
Defined.
